(* ===== verification/_CoqProject ===== *)
-Q . S2P
Prelude.v
Varint.v
Schema.v
SchemaIdentity.v
Packet.v
SchemaRegistry.v
SchemaTable.v
SchemaMerge.v
SchemaConverge.v
SchemaLoad.v
MemoryAdmission.v
WireEnv.v
Crypto.v
WireSample.v
WireReader.v
WireEndpoints.v
WireFrame.v
WireRoundtrip.v
WirePeek.v
WireRewrite.v
Queue.v
QueueFair.v
SmallSort.v
SmallMap.v
Calendar.v
SlewedClock.v
PeerRecord.v
TimeSync.v
SideFrame.v
OrdMap.v
SideAssembly.v
SideTemplate.v
SideLink.v
HopReliable.v
HopWindow.v
HopLink.v
HopNet.v
HopControl.v
SortedList.v
Topology.v
Election.v
DiscoveryWire.v
DiscoveryCodec.v
TopologyCodec.v
SchemaCodec.v
AddressBook.v
P2pCodec.v
P2pStream.v
PayloadCodec.v
AdmissionFairness.v
RouterQueues.v
SideReceive.v
Routing.v
RoutePlan.v
EndToEnd.v
Originals.v
ReturnRoutes.v
PacketStore.v
PacketCodec.v
