(* ===== verification/Prelude.v ===== *)
(** * SEDSnet: a verification development

    SEDSnet (src/src/*.rs) is a telemetry network: typed packets are addressed to
    endpoints, packed into compact frames, routed over sides (links) by routers
    and relays, queued by priority and protected end to end.  This library models
    its parts - the data, the wire format, the cryptography, the queues, the
    schema registry, the clocks, the side transport, reliable hops and discovery -
    each as executable definitions with theorems about them.

    ** Parts and files

    - [Prelude] (this file): the error type and results of src/src/lib.rs, machine
      integers as [Z], little-endian integers, ordered keys, shared tactics.
    - [Varint] (varint.rs, wire_format.rs): ULEB128.  [read_u64] is the 64-bit
      build and [read_u64_32] the unrolled 32-bit build of the decoder;
      [write_uleb128] and [uleb128_size] are those of wire_format.rs.
    - [Schema] (lib.rs, config.rs, discovery.rs): data types, endpoints and their
      metadata.  The registry mutex is a [Registry] value that the operations
      take as an argument, the runtime tuning a [Tuning] value.
    - [Packet] (packet.rs): the [Packet] record, construction, validation, the
      identifier hash, sender addresses and typed payload access.
    - [MemoryAdmission] (memory_admission.rs): the probes an application installs
      to refuse work, as state passed through the checks.
    - [WireEnv]: what the frames rely on.  [WireEnv] gathers the registry, the
      tuning, CRC-32 and Zstandard (packages outside the repository, hence
      parameters with the documented laws of [WireEnvLaws]) and the interface
      [E2eCrypto] with its promise [E2eCryptoLaws]; the process-global address
      book is the map [AddressBook], passed explicitly.
    - [Crypto] (crypto.rs): SHA-256, HMAC, the software sealing path, the key
      ring, the dispatch over providers and the managed credentials.  Its instance
      [registered_crypto] discharges [E2eCryptoLaws] for the software path.
    - [WireReader], [WireEndpoints], [WireFrame], [WirePeek] (wire_format.rs): the
      byte reader as a state monad over a cursor, the inline contract, the
      reliable header, the endpoint encodings, packing and unpacking, the routing
      envelope, frame inspection, packet identifiers of frames.
    - [WireRoundtrip], [WirePeek], [WireRewrite]: the theorems on frames.
    - [WireSample]: a concrete environment in which every law holds and every
      definition computes (IEEE CRC-32, a run-length codec, the software crypto).
    - [SmallSort] (small_sort.rs): the heapsort of the embedded build.
    - [SmallMap] (small_map.rs): the vector map of the embedded router tables.
    - [PeerRecord] (peer_record.rs): two-phase changes of maps of boxed records.
    - [Calendar], [SlewedClock], [TimeSync] (timesync.rs): calendar time, the
      slewed clock, the clock assembled from partial sources, the tracker that
      elects a time source, the exchange arithmetic and the packets.
    - [SideFrame], [SideAssembly], [SideTemplate], [SideLink] (side_transport.rs
      and the side transport of router.rs): frames and chunks with resumption,
      the partial transfers of a side, header templates, and the dictionaries of
      both ends with the steps of a link.  [OrdMap] is the ordered map they use.
      [SideReceive] (router.rs, memory_admission.rs) is the receive path of chunks in
      the whole router, over the shared budget of [RouterQueues].
    - [SchemaIdentity] (schema_identity.rs), [SchemaRegistry], [SchemaTable],
      [SchemaMerge], [SchemaConverge], [SchemaLoad] (config.rs): names and their
      numbers, the registry and its operations, the facts on one table, merging
      and its invariants, the convergence of an exchange, the streaming loader.
    - [HopReliable], [HopWindow], [HopLink], [HopNet], [HopControl] (router.rs):
      reliable delivery over one hop.  [HopReliable] holds the windows of the
      streams and every block the router runs on them under its lock; [HopWindow]
      the facts on one window; [HopLink] the interleaved steps of one end and their
      invariant; [HopNet] a sender and a receiver joined by a lossy link;
      [HopControl] the control packets and the edges of the numbering.
    - [SortedList] (small_sort.rs as the routing code uses it), [Topology],
      [Election], [DiscoveryWire], [DiscoveryCodec], [TopologyCodec], [SchemaCodec]
      (discovery.rs): ascending sets; the graph of the network, its merging and
      deltas; the election of the master by breadth-first search; the readers and
      writers of discovery payloads and every message built from them.
    - [P2pCodec], [P2pStream] (router.rs): point-to-point frames and segments; ports,
      sessions and the conversation of two boards, with the calls in order.
    - [AddressBook] (router.rs): the identity of a router, its records of other
      boards, the resolution of clashes and the attribution of numbers to names.
    - [PayloadCodec] (payload_codec.rs): whether a side may carry compressed payloads:
      the records of its boards, their leases, and the numbers nobody has claimed.
    - [AdmissionFairness] (admission_fairness.rs, the selector of queue.rs): whose
      report yields when a queue is full, and one admission with that choice.
    - [RouterQueues] (router.rs): the queued items of a router, the budget its queues,
      transfers and ledgers share, the loop that makes room in it, the push of a
      received frame and the credit of an expanded payload.
    - [Routing], [RoutePlan] (router.rs): the routing policy, its calls and the choice
      among sides; and the plan of a packet, from what discovery learned to the sides
      it is sent to.
    - [EndToEnd], [Originals], [ReturnRoutes] (router.rs, router_e2e_backpressure.rs):
      what a router retains until receipts arrive, with the cohort it is owed to, the
      ways back and the admissions of copies; the runs of a router and the promises to
      originals; the bounded tables beside them.
    - [PacketStore], [PacketCodec] (packet_store.rs): the arena in which payloads wait,
      with its handles, views and compaction, and the compressed form of a payload.
    - [Queue] and [QueueFair] (queue.rs): the bounded deque, its admission and
      growth, and the fair service order with the router's deferred turns.

    A packet travels [Packet.new_with_nonce] -> [WireFrame.pack_packet] -> the
    queue of a side -> [WirePeek.peek_envelope] at each hop, perhaps
    [WireRewrite]'s header replacement -> [WireFrame.unpack_packet] at the
    receiver, which rebuilds it through [Packet.new_with_owned_wire_contract].

    ** Conventions

    A [w]-bit unsigned integer is a [Z] kept in range by the operation that
    produces it; wrapping is written [wrap8], [wrap32], [wrap64] and saturation
    [sat_add] and its kin.  [usize] has 64 bits.  Byte buffers and strings are
    lists of such [Z].  [Result] is [result]; a panic or a failed assertion is
    [None].  Process-global state is passed and returned.  Cargo features are the
    default ones, except where a definition takes the feature as an argument
    ([Queue.compact_store]).  Closures of the source ([priority_of], [eligible],
    victim selectors, admission probes) are pure functions.

    ** Fuel

    Loops with a bound in their data recurse on it.  [iter_collect] takes the
    bytes, schema entries and bits an envelope holds, plus one; the endpoint-list
    loop one unit per byte; the prioritised push one unit per queued entry plus
    one, since every round evicts one and an empty queue admits (its theorem shows
    that it always returns); the queue constructor halves a 64-bit number
    ([new_spec] shows that it always returns).

    ** Theorems

    - Round trips: ULEB128, frames for any receiver registry, packed packets,
      numeric payloads, address aliases, credentials.
    - Soundness for arbitrary bytes: whatever is unpacked is well formed; the
      envelope decoder and the identifier computed from the bytes agree with the
      unpacked packet on every accepted frame.
    - In-flight rewriting: replacing a reliable header keeps the packet; the two
      rewriters agree; ACK frames are never packets.
    - Cryptography: incremental hashing equals the reference hash; opening accepts
      exactly the tags of what it covers, so a tag made by sealing opens only the
      same parts one after the other or shows a collision; credentials are authentic;
      the key ring is a map.
    - Queues: byte, element and capacity bounds, priority order with FIFO bands,
      evictions of unprotected entries only, termination, exact bookkeeping,
      transactional replacement, bounded turns, and bounded waiting of every band as
      long as no urgent entry waits ineligible (with one the lower bands starve).
    - Containers: both builds sort alike; the vector map refines an ordered map,
      operation by operation.
    - Time: calendar conversions are exact both ways; clock readings never go back
      and converge at the slew rate; elections choose the best active source, and of
      two nodes that hear each other the second in the order of priority and name
      follows, and neither announces nor serves.
    - Side transport: chunks reassemble in any order and repeated, unless they are
      idle for 2000 ms, are given up for other work or find a full pool that does not
      give way; the partial transfers keep exact accounts within their budget; sending
      ends and skips nothing.  Over a lossy reordering link header compression turns a
      frame into another only where two templates of the link have one 32-bit
      identifier, and over an in-order link without such templates every frame arrives.
    - Schemas: the registry stays well formed under any calls and never loses the
      protocol's definitions; a catalogue off the wire is refused whole or merged
      within the budget; an exchange of catalogues converges; a file is loaded
      completely or not at all.
    - Reliable hops: under any interleaving windows stay well formed; over a lossy
      link the receiver moves past the committed frames in order and once, hands on all
      but those whose acknowledgement could not be queued, and nothing it has not moved
      past leaves the window of a live stream; a silent neighbour ends the stream after
      its retries; a refusal to try again retains nothing; the end of the numbers.
    - Discovery: merging graphs is union, so views converge whatever their order;
      a delta takes the receiver's graph to the sender's; the elected master is the
      best-placed board and the same at every board with the same view; every
      message comes back as what it stands for; the fast tests agree with the
      decoders they avoid.
    - Addresses: two routers of different owners that clash in name, number or both
      and hear each other end apart after the weaker claim has moved, while with equal
      owner hashes neither moves; new names and numbers are free; a number is
      attributed only where it is unambiguous.
    - Streams between boards: frames are exact; no packet makes the component panic;
      a handshake pairs two sessions, over which segments arrive as sent; packets
      of other boards touch neither sessions nor their handlers.
    - Compressed payloads: allowed only while every board of the side is known, decodes
      and was heard lately; an unknown voice or a board that does not decode holds
      the codec back for a whole lease, whatever is evicted meanwhile.
    - Shared memory of a router: making room ends, takes nothing that outranks the
      new work and no original but a frame that hides the reliability its type has
      here; a report is made room for at the cost of one sender, with the largest
      backlog; an accepted frame leaves the router within its budget.
    - Routing: a plan keeps to the policy and never sends a packet back; of redundant
      ways only those with the fewest hops are kept, by a search that is exact and
      ends; asking and dispatching agree but for throttled time packets; weights are met exactly; every path is
      probed; no rule outlives its side.
    - Originals: whatever happens, an original keeps those of its cohort that have not
      acknowledged it until all have or its retries, of which every late pass counts
      one, run out; of an ordered type the
      first accepted is alone on its way; the cohort is exact; the tables are bounded
      and no pinned route is lost.
    - The packet arena: whatever its owners do, every handle and view reads exactly its
      bytes and a view is never moved; a refusal means that the arena is full; a range
      of a compressed payload is read back exactly.
    The numbers C1, C2, ... in the comments are the claims in order of importance.

    ** Not modelled

    The router (router.rs) composes these parts.  Of it the side transport, the
    reliable delivery over a hop and from end to end, point-to-point streams,
    addresses, the shared queues and the routing of a packet are modelled; the
    dispatch loops that call them, the ingestion of discovery into its tables and
    the managed variables are not.  The relay (relay.rs) is the router in another
    role.  On the side transport the latest-value marks of a transfer, the admission of
    compact frames, peer liveness and statistics on the path are not; the
    losslessness of templates is shown for frames that are not sealed end to end.
    The embedded build's registry (config.rs), the scratch estimates of a topology
    snapshot and the epochs of completed writes are not modelled.  The C and Python bindings,
    the macros crate, locks, diagnostics and build scripts are glue or pure input
    and output. *)

From Stdlib Require Export ZArith Lia Sorted.
From stdpp Require Export base numbers option strings list.

Open Scope Z_scope.

(** ** Errors and results (src/src/lib.rs)

    [TelemetryError] keeps every variant of the Rust enum, with its payload.
    [result] is Rust's [Result<T, TelemetryError>]. *)

Inductive TelemetryError : Type :=
| GenericError (msg : option string)
| InvalidType
| SizeMismatch (expected got : Z)
| SizeMismatchError
| EmptyEndpoints
| TimestampInvalid
| MissingPayload
| HandlerError (msg : string)
| BadArg
| PermissionDenied
| Pack (msg : string)
| Unpack (msg : string)
| Io (msg : string)
| InvalidUtf8
| TypeMismatch (expected got : Z)
| InvalidLinkId (msg : string)
| PacketTooLarge (msg : string).

#[export] Instance TelemetryError_eq_dec : EqDecision TelemetryError.
Proof. solve_decision. Defined.

Inductive result (A : Type) : Type :=
| Ok (a : A)
| Err (e : TelemetryError).
Arguments Ok {A} a.
Arguments Err {A} e.

#[export] Instance result_eq_dec `{EqDecision A} : EqDecision (result A).
Proof. solve_decision. Defined.

#[export] Instance result_ret : MRet result := fun A a => Ok a.
#[export] Instance result_bind : MBind result :=
  fun A B f m => match m with Ok a => f a | Err e => Err e end.

Definition is_ok {A} (r : result A) : bool :=
  match r with Ok _ => true | Err _ => false end.

(** [Option::ok_or]. *)
Definition ok_or {A} (o : option A) (e : TelemetryError) : result A :=
  match o with Some a => Ok a | None => Err e end.

(** ** Machine integers

    Unsigned integers are [Z] values kept in range by the operations.  The
    model is of a 64-bit target, so [usize] is 64 bits wide. *)

Definition u8_max : Z := 255.
Definition u16_max : Z := 65535.
Definition u32_max : Z := 4294967295.
Definition u64_max : Z := 18446744073709551615.
Definition usize_max : Z := u64_max.
Definition i64_max : Z := 9223372036854775807.
Definition isize_max : Z := i64_max.

Definition wrap8 (z : Z) : Z := z mod 256.
Definition wrap32 (z : Z) : Z := z mod 2 ^ 32.
Definition wrap64 (z : Z) : Z := z mod 2 ^ 64.

(** [saturating_add], [saturating_sub] and [saturating_mul] on [usize]/[u64]. *)
Definition sat_add (a b : Z) : Z := Z.min u64_max (a + b).
Definition sat_sub (a b : Z) : Z := Z.max 0 (a - b).
Definition sat_mul (a b : Z) : Z := Z.min u64_max (a * b).

(** [checked_add], [checked_sub] and [checked_mul]. *)
Definition checked_add (a b : Z) : option Z :=
  if a + b <=? u64_max then Some (a + b) else None.
Definition checked_sub (a b : Z) : option Z :=
  if b <=? a then Some (a - b) else None.
Definition checked_mul (a b : Z) : option Z :=
  if a * b <=? u64_max then Some (a * b) else None.

(** [u32::try_from], [u16::try_from] of a [u64]. *)
Definition try_u32 (z : Z) : option Z := if z <=? u32_max then Some z else None.
Definition try_u16 (z : Z) : option Z := if z <=? u16_max then Some z else None.

(** Length of a list as a machine integer ([slice::len]). *)
Definition zlen {A} (l : list A) : Z := Z.of_nat (length l).

Definition is_empty {A} (l : list A) : bool := match l with [] => true | _ => false end.

Definition is_u8 (z : Z) : Prop := 0 <= z <= u8_max.
Definition is_u16 (z : Z) : Prop := 0 <= z <= u16_max.
Definition is_u32 (z : Z) : Prop := 0 <= z <= u32_max.
Definition is_u64 (z : Z) : Prop := 0 <= z <= u64_max.

(** A buffer of bytes. *)
Abbreviation bytes := (list Z).
Abbreviation bytes_ok l := (Forall is_u8 l).

(** A Rust [str] is modelled as its UTF-8 bytes; [str] reads a literal. *)
Fixpoint str (s : string) : bytes :=
  match s with
  | EmptyString => []
  | String c s => Z.of_N (Ascii.N_of_ascii c) :: str s
  end.

(** [Ord] on [str]: lexicographic order of the bytes. *)
Fixpoint bytes_compare (a b : bytes) : comparison :=
  match a, b with
  | [], [] => Eq
  | [], _ :: _ => Lt
  | _ :: _, [] => Gt
  | x :: a, y :: b =>
      match Z.compare x y with Eq => bytes_compare a b | c => c end
  end.

(** ** Little-endian integers ([to_le_bytes] / [from_le_bytes]) *)

Fixpoint le_bytes (n : nat) (v : Z) : bytes :=
  match n with
  | O => []
  | S n => v mod 256 :: le_bytes n (v / 256)
  end.

Fixpoint from_le (l : bytes) : Z :=
  match l with
  | [] => 0
  | b :: l => b + 256 * from_le l
  end.

(** ** Ordered keys

    What [Ord] promises of a key type: a comparison that decides equality, is
    antisymmetric and transitive.  Ordered containers are written against it. *)

Class OrdKey (K : Type) : Type := {
  kcmp : K -> K -> comparison;
  kcmp_eq : forall a b, kcmp a b = Eq <-> a = b;
  kcmp_antisym : forall a b, kcmp b a = CompOpp (kcmp a b);
  kcmp_lt_trans : forall a b c, kcmp a b = Lt -> kcmp b c = Lt -> kcmp a c = Lt;
}.

Definition klt `{OrdKey K} (a b : K) : Prop := kcmp a b = Lt.
Definition kltb `{OrdKey K} (a b : K) : bool :=
  match kcmp a b with Lt => true | _ => false end.

(** ** Automation

    [sed_arith] holds the arithmetic facts shared by the components; [solve_u]
    unfolds the machine-integer vocabulary and calls [lia]. *)

Create HintDb sed_arith.

Ltac unfold_u :=
  unfold is_u8, is_u16, is_u32, is_u64, sat_add, sat_sub, sat_mul, usize_max,
    isize_max, zlen in *;
  unfold u8_max, u16_max, u32_max, u64_max, i64_max in *.
Ltac solve_u := intros; unfold_u; lia.

(** Turn boolean comparisons in the context into propositions. *)
Ltac bool_to_prop :=
  repeat match goal with
  | H : (_ <=? _) = true |- _ => apply Z.leb_le in H
  | H : (_ <=? _) = false |- _ => apply Z.leb_gt in H
  | H : (_ <? _) = true |- _ => apply Z.ltb_lt in H
  | H : (_ <? _) = false |- _ => apply Z.ltb_ge in H
  | H : (_ =? _) = true |- _ => apply Z.eqb_eq in H
  | H : (_ =? _) = false |- _ => apply Z.eqb_neq in H
  | H : (_ && _)%bool = true |- _ => apply andb_true_iff in H as [? ?]
  | H : (_ || _)%bool = false |- _ => apply orb_false_iff in H as [? ?]
  | H : (_ || _)%bool = true |- _ => apply orb_true_iff in H
  | H : negb _ = true |- _ => apply negb_true_iff in H
  | H : negb _ = false |- _ => apply negb_false_iff in H
  end.

(** Case analysis on the scrutinee of a [match] or [if] of the goal. *)
Ltac case_match_goal :=
  match goal with
  | |- context [match ?x with _ => _ end] =>
      lazymatch x with
      | context [match _ with _ => _ end] => fail
      | _ => let E := fresh "E" in destruct x eqn:E
      end
  end.

(** ** Results *)

Lemma result_bind_ok {A B} (m : result A) (f : A -> result B) b :
  (m ≫= f) = Ok b <-> exists a, m = Ok a /\ f a = Ok b.
Proof.
  destruct m as [a|e]; simpl; [|by split; [|intros (? & ? & ?)]].
  split; [eauto|]. by intros (? & [= ->] & ?).
Qed.

Lemma result_bind_run {A B} (a : A) (f : A -> result B) : (Ok a ≫= f) = f a.
Proof. done. Qed.

Lemma ok_or_ok {A} (o : option A) e a : ok_or o e = Ok a <-> o = Some a.
Proof. destruct o; naive_solver. Qed.

(** ** Machine integers *)

Lemma sat_sub_0 a b : a <= b -> sat_sub a b = 0.
Proof. solve_u. Qed.
Lemma sat_sub_le a b : b <= a -> sat_sub a b = a - b.
Proof. solve_u. Qed.
Lemma sat_add_small a b : a + b <= u64_max -> sat_add a b = a + b.
Proof. solve_u. Qed.
Lemma wrap64_small z : is_u64 z -> wrap64 z = z.
Proof. intros. unfold wrap64. apply Z.mod_small. solve_u. Qed.
Lemma wrap8_small z : is_u8 z -> wrap8 z = z.
Proof. intros. unfold wrap8. apply Z.mod_small. solve_u. Qed.
Lemma wrap32_small z : is_u32 z -> wrap32 z = z.
Proof. intros. unfold wrap32. apply Z.mod_small. solve_u. Qed.
Lemma wrap64_range z : is_u64 (wrap64 z).
Proof.
  unfold wrap64. pose proof (Z.mod_pos_bound z (2 ^ 64) ltac:(lia)). solve_u.
Qed.
Lemma wrap32_range z : is_u32 (wrap32 z).
Proof.
  unfold wrap32. pose proof (Z.mod_pos_bound z (2 ^ 32) ltac:(lia)). solve_u.
Qed.
Lemma try_u32_some z z' : try_u32 z = Some z' -> z' = z /\ z <= u32_max.
Proof. unfold try_u32. case_match; naive_solver lia. Qed.
Lemma try_u32_fits z : is_u32 z -> try_u32 z = Some z.
Proof. intros. unfold try_u32. case_match; [done|]. bool_to_prop. solve_u. Qed.
Lemma try_u16_fits z : is_u16 z -> try_u16 z = Some z.
Proof. intros. unfold try_u16. case_match; [done|]. bool_to_prop. solve_u. Qed.

Lemma is_u32_u64 z : is_u32 z -> is_u64 z.
Proof. solve_u. Qed.
Lemma is_u16_u64 z : is_u16 z -> is_u64 z.
Proof. solve_u. Qed.
Lemma is_u8_u64 z : is_u8 z -> is_u64 z.
Proof. solve_u. Qed.
#[export] Hint Resolve is_u32_u64 is_u16_u64 is_u8_u64 wrap64_range
  wrap32_range : sed_arith.

(** ** Bits: the 7-bit groups and flag bytes of the wire format *)

Lemma land_127 v : Z.land v 127 = v mod 128.
Proof. change 127 with (Z.ones 7). by rewrite Z.land_ones. Qed.

Lemma shiftr_7 v : Z.shiftr v 7 = v / 128.
Proof. by rewrite Z.shiftr_div_pow2. Qed.

(** The continuation bit of a byte. *)
Lemma land_128_small b : 0 <= b < 128 -> Z.land b 128 = 0.
Proof.
  intros Hb. apply Z.bits_inj'. intros n Hn.
  rewrite Z.land_spec, Z.bits_0. change 128 with (2 ^ 7).
  rewrite Z.pow2_bits_eqb by lia. destruct (Z.eqb_spec 7 n) as [<-|]; [|by rewrite andb_false_r].
  rewrite andb_true_r. apply (Z.testbit_false b 7); [lia|].
  change (2 ^ 7) with 128. by rewrite Z.div_small.
Qed.

Lemma land_128_set b : 0 <= b < 128 -> Z.lor b 128 = b + 128.
Proof. intros. symmetry. apply Z.add_nocarry_lor, land_128_small. done. Qed.

Lemma land_128_high b : 128 <= b < 256 -> Z.land b 128 = 128.
Proof.
  intros Hb. replace b with (Z.lor (b - 128) 128) by (rewrite land_128_set; lia).
  by rewrite Z.land_lor_distr_l, land_128_small by lia.
Qed.

Lemma land_128_zero b : is_u8 b -> Z.land b 128 = 0 <-> b < 128.
Proof.
  intros Hb. split.
  - intros H. destruct (Z.lt_ge_cases b 128); [done|].
    rewrite land_128_high in H by solve_u. lia.
  - intros. apply land_128_small. solve_u.
Qed.

(** Or-ing a shifted group above everything accumulated so far adds it. *)
Lemma lor_shiftl_add a b s :
  0 <= s -> 0 <= a < 2 ^ s -> Z.lor a (Z.shiftl b s) = a + b * 2 ^ s.
Proof.
  intros Hs Ha. rewrite <- Z.add_nocarry_lor.
  - by rewrite Z.shiftl_mul_pow2.
  - apply Z.bits_inj'. intros n Hn. rewrite Z.land_spec, Z.bits_0.
    destruct (Z.lt_ge_cases n s).
    + rewrite (Z.shiftl_spec_low b) by lia. by rewrite andb_false_r.
    + destruct (decide (a = 0)) as [->|]; [by rewrite Z.bits_0|].
      rewrite (Z.bits_above_log2 a); [done|lia|].
      apply Z.log2_lt_pow2; [lia|].
      apply Z.lt_le_trans with (2 ^ s); [lia|]. by apply Z.pow_le_mono_r.
Qed.

(** ** Little-endian integers *)

Lemma length_le_bytes n v : length (le_bytes n v) = n.
Proof. revert v. induction n; intros; simpl; auto. Qed.

Lemma le_bytes_ok n v : bytes_ok (le_bytes n v).
Proof.
  revert v. induction n; intros; simpl; constructor; auto.
  pose proof (Z.mod_pos_bound v 256 ltac:(lia)). solve_u.
Qed.

Lemma from_le_bytes n v : 0 <= v < 256 ^ Z.of_nat n -> from_le (le_bytes n v) = v.
Proof.
  revert v. induction n as [|n IH]; intros v Hv; cbn [le_bytes from_le].
  - change (Z.of_nat 0) with 0 in Hv. rewrite Z.pow_0_r in Hv. lia.
  - rewrite Nat2Z.inj_succ, Z.pow_succ_r in Hv by lia.
    rewrite IH; [rewrite Z.add_comm; symmetry; apply Z.div_mod; lia|].
    split; [apply Z.div_pos; lia|]. apply Z.div_lt_upper_bound; lia.
Qed.

Lemma from_le_range l : bytes_ok l -> 0 <= from_le l < 256 ^ zlen l.
Proof.
  unfold zlen. induction l as [|b l IH]; intros Hl; cbn [from_le length].
  - change (Z.of_nat 0) with 0. by rewrite Z.pow_0_r.
  - inversion Hl as [|? ? Hb Hl']; subst. rewrite Nat2Z.inj_succ, Z.pow_succ_r by lia.
    specialize (IH Hl'). solve_u.
Qed.

Lemma le_bytes_from_le l n :
  bytes_ok l -> length l = n -> le_bytes n (from_le l) = l.
Proof.
  intros Hl <-. induction Hl as [|b l Hb Hl IH]; [done|].
  cbn [from_le length le_bytes]. f_equal.
  - rewrite Z.mul_comm, Z.mod_add, Z.mod_small by solve_u. done.
  - rewrite Z.mul_comm, Z.div_add, Z.div_small by solve_u. by rewrite Z.add_0_l.
Qed.

#[export] Hint Resolve length_le_bytes le_bytes_ok : sed_arith.
#[global] Arguments le_bytes : simpl never.

(** ** Lists *)

Lemma zlen_app {A} (l k : list A) : zlen (l ++ k) = zlen l + zlen k.
Proof. unfold zlen. rewrite length_app. lia. Qed.
Lemma zlen_nonneg {A} (l : list A) : 0 <= zlen l.
Proof. unfold zlen. lia. Qed.
#[export] Hint Resolve zlen_nonneg : sed_arith.

(** ** Ordered keys *)

#[export] Program Instance OrdKey_Z : OrdKey Z := {| kcmp := Z.compare |}.
Next Obligation. apply Z.compare_eq_iff. Qed.
Next Obligation. apply Z.compare_antisym. Qed.
Next Obligation. intros ???. rewrite !Z.compare_lt_iff. lia. Qed.

#[export] Program Instance OrdKey_bytes : OrdKey bytes := {| kcmp := bytes_compare |}.
Next Obligation.
  induction a as [|x a IH]; intros [|y b]; simpl; try naive_solver.
  destruct (Z.compare_spec x y); [|naive_solver lia..]. rewrite IH. naive_solver.
Qed.
Next Obligation.
  induction a as [|x a IH]; intros [|y b]; simpl; try done.
  rewrite (Z.compare_antisym x y). by destruct (Z.compare x y); simpl.
Qed.
Next Obligation.
  induction a as [|x a IH]; intros [|y b] [|z c]; simpl; try done.
  destruct (Z.compare_spec x y), (Z.compare_spec y z), (Z.compare_spec x z);
    try done; try lia; eauto.
Qed.

Section OrdKeyFacts.
Context `{OrdKey K}.

Lemma kcmp_refl (a : K) : kcmp a a = Eq.
Proof. by apply kcmp_eq. Qed.

Lemma klt_irrefl (a : K) : ~ klt a a.
Proof. unfold klt. rewrite kcmp_refl. done. Qed.

Lemma klt_trans (a b c : K) : klt a b -> klt b c -> klt a c.
Proof. apply kcmp_lt_trans. Qed.

Lemma kcmp_gt (a b : K) : kcmp a b = Gt <-> klt b a.
Proof. unfold klt. rewrite (kcmp_antisym a b). by destruct (kcmp a b). Qed.

Lemma kltb_klt (a b : K) : kltb a b = true <-> klt a b.
Proof. unfold kltb, klt. by destruct (kcmp a b). Qed.

Lemma klt_asym (a b : K) : klt a b -> ~ klt b a.
Proof. intros H1 H2. apply (klt_irrefl a). by eapply klt_trans. Qed.
End OrdKeyFacts.
