(* ===== verification/Varint.v ===== *)
(** * ULEB128 integers (src/src/varint.rs, src/src/wire_format.rs)

    The bounded decoder the wire format, the side transport and the discovery
    payloads share, in its two builds: [read_u64] is the 64-bit loop, and
    [read_u64_32] the unrolled build for 32-bit targets, which keeps the value
    in two 32-bit halves.  [write_uleb128] and [uleb128_size] are the encoder
    and its size function.  A decoder returns its result and the offset it left
    in [*off], also when it fails. *)

From S2P Require Import Prelude.

Open Scope Z_scope.

(** ** Decoding, 64-bit targets *)

Fixpoint read_u64_loop (n : nat) (buf : bytes) (off : nat) (value shift : Z)
    : result Z * nat :=
  match n with
  | O => (Err (Unpack "uleb128 too long"), off)
  | S n =>
      match buf !! off with
      | None => (Err (Unpack "short read"), off)
      | Some byte =>
          let off := S off in
          let value := Z.lor value (wrap64 (Z.shiftl (Z.land byte 127) shift)) in
          if Z.land byte 128 =? 0 then
            if (shift =? 63) && (1 <? byte) then (Err (Unpack "uleb128 too long"), off)
            else (Ok value, off)
          else read_u64_loop n buf off value (shift + 7)
      end
  end.

Definition read_u64 (buf : bytes) (off : nat) : result Z * nat :=
  read_u64_loop 10 buf off 0 0.

(** ** Decoding, 32-bit targets *)

(** The [byte!] macro of [read_u64_32_slow]: read one byte, let [body] update
    the two halves, return when the continuation bit is clear. *)
Definition byte_macro (buf : bytes) (off : nat) (body : Z -> Z * Z)
    (k : Z -> Z -> nat -> result Z * nat) : result Z * nat :=
  match buf !! off with
  | None => (Err (Unpack "short read"), off)
  | Some byte =>
      let off := S off in
      let '(low, high) := body byte in
      if Z.land byte 128 =? 0 then (Ok (Z.lor (Z.shiftl high 32) low), off)
      else k low high off
  end.

Definition read_u64_32_slow (buf : bytes) (off : nat) : result Z * nat :=
  byte_macro buf off (fun b => (Z.land b 127, 0)) (fun low high off =>
  byte_macro buf off (fun b => (Z.lor low (wrap32 (Z.shiftl (Z.land b 127) 7)), high)) (fun low high off =>
  byte_macro buf off (fun b => (Z.lor low (wrap32 (Z.shiftl (Z.land b 127) 14)), high)) (fun low high off =>
  byte_macro buf off (fun b => (Z.lor low (wrap32 (Z.shiftl (Z.land b 127) 21)), high)) (fun low high off =>
  byte_macro buf off (fun b => (Z.lor low (wrap32 (Z.shiftl (Z.land b 127) 28)),
                                Z.shiftr (Z.land b 127) 4)) (fun low high off =>
  byte_macro buf off (fun b => (low, Z.lor high (wrap32 (Z.shiftl (Z.land b 127) 3)))) (fun low high off =>
  byte_macro buf off (fun b => (low, Z.lor high (wrap32 (Z.shiftl (Z.land b 127) 10)))) (fun low high off =>
  byte_macro buf off (fun b => (low, Z.lor high (wrap32 (Z.shiftl (Z.land b 127) 17)))) (fun low high off =>
  byte_macro buf off (fun b => (low, Z.lor high (wrap32 (Z.shiftl (Z.land b 127) 24)))) (fun low high off =>
  match buf !! off with
  | None => (Err (Unpack "short read"), off)
  | Some last =>
      let off := S off in
      if 1 <? last then (Err (Unpack "uleb128 too long"), off)
      else
        let high := Z.lor high (wrap32 (Z.shiftl last 31)) in
        (Ok (Z.lor (Z.shiftl high 32) low), off)
  end))))))))).

Definition read_u64_32 (buf : bytes) (off : nat) : result Z * nat :=
  match buf !! off with
  | Some byte => if byte <? 128 then (Ok byte, S off) else read_u64_32_slow buf off
  | None => read_u64_32_slow buf off
  end.

(** ** Encoding *)

(** The loop of [write_uleb128]; a [u64] needs at most ten rounds. *)
Fixpoint write_uleb128_loop (n : nat) (v : Z) : bytes :=
  match n with
  | O => []
  | S n =>
      let byte := Z.land v 127 in
      let v := Z.shiftr v 7 in
      if v =? 0 then [byte] else Z.lor byte 128 :: write_uleb128_loop n v
  end.

Definition write_uleb128 (v : Z) : bytes := write_uleb128_loop 10 v.

(** The loop of [uleb128_size]; a [u64] needs at most nine rounds. *)
Fixpoint uleb128_size_loop (k : nat) (v n : Z) : Z :=
  match k with
  | O => n
  | S k => if 128 <=? v then uleb128_size_loop k (Z.shiftr v 7) (n + 1) else n
  end.

Definition uleb128_size (v : Z) : Z := uleb128_size_loop 10 v 1.

(** ** The decoder accumulates 7-bit groups *)

Lemma group_range b : 0 <= b mod 128 < 128.
Proof. apply Z.mod_pos_bound. lia. Qed.

(** No group below bit 63 loses bits, and or-ing it in adds it. *)
Lemma group_of_high b : 128 <= b < 256 -> b mod 128 = b - 128.
Proof. intros H. symmetry. apply (Z.mod_unique_pos b 128 1); lia. Qed.

Lemma lor_group64 value b s :
  0 <= s -> s + 7 <= 63 -> 0 <= value < 2 ^ s ->
  Z.lor value (wrap64 (Z.shiftl (Z.land b 127) s)) = value + b mod 128 * 2 ^ s /\
  0 <= value + b mod 128 * 2 ^ s < 2 ^ (s + 7).
Proof.
  intros Hs Hs7 Hv. rewrite land_127. pose proof (group_range b) as Hg.
  rewrite Z.pow_add_r by lia. change (2 ^ 7) with 128.
  assert (2 ^ (s + 7) <= 2 ^ 63) as Hp by (apply Z.pow_le_mono_r; lia).
  rewrite Z.pow_add_r in Hp by lia. change (2 ^ 7) with 128 in Hp.
  change (2 ^ 63) with 9223372036854775808 in Hp.
  rewrite wrap64_small.
  - rewrite lor_shiftl_add by lia. split; [done|nia].
  - rewrite Z.shiftl_mul_pow2 by lia. unfold_u. nia.
Qed.

(** The same on a 32-bit half. *)
Lemma lor_group32 value g s :
  0 <= s -> s + 7 <= 32 -> 0 <= g < 128 -> 0 <= value < 2 ^ s ->
  Z.lor value (wrap32 (Z.shiftl g s)) = value + g * 2 ^ s /\
  0 <= value + g * 2 ^ s < 2 ^ (s + 7).
Proof.
  intros Hs Hs7 Hg Hv. rewrite Z.pow_add_r by lia. change (2 ^ 7) with 128.
  assert (2 ^ (s + 7) <= 2 ^ 32) as Hp by (apply Z.pow_le_mono_r; lia).
  rewrite Z.pow_add_r in Hp by lia. change (2 ^ 7) with 128 in Hp.
  change (2 ^ 32) with 4294967296 in Hp.
  rewrite wrap32_small.
  - rewrite lor_shiftl_add by lia. split; [done|nia].
  - rewrite Z.shiftl_mul_pow2 by lia. unfold_u. nia.
Qed.

(** Joining the halves. *)
Lemma join_halves low high :
  0 <= low < 2 ^ 32 -> Z.lor (Z.shiftl high 32) low = low + high * 2 ^ 32.
Proof. intros. rewrite Z.lor_comm. by apply lor_shiftl_add. Qed.

Lemma lookup_byte (buf : bytes) off b : bytes_ok buf -> buf !! off = Some b -> is_u8 b.
Proof. intros Hb. by apply Forall_lookup_1. Qed.

(** ** The unrolled 32-bit decoder is the 64-bit loop *)

Section Unrolled.
Context (buf : bytes) (Hbuf : bytes_ok buf).

Lemma byte_macro_loop n off value s body k :
  0 <= s -> s + 7 <= 63 -> 0 <= value < 2 ^ s ->
  (forall b low high, is_u8 b -> body b = (low, high) ->
     0 <= low < 2 ^ 32 /\ low + high * 2 ^ 32 = value + b mod 128 * 2 ^ s /\
     (0 <= low + high * 2 ^ 32 < 2 ^ (s + 7) ->
      k low high (S off) = read_u64_loop n buf (S off) (low + high * 2 ^ 32) (s + 7))) ->
  byte_macro buf off body k = read_u64_loop (S n) buf off value s.
Proof.
  intros Hs Hs7 Hv Hbody. unfold byte_macro. cbn [read_u64_loop].
  destruct (buf !! off) as [b|] eqn:Hb; [|done].
  destruct (body b) as [low high] eqn:E.
  destruct (Hbody b low high (lookup_byte _ _ _ Hbuf Hb) E) as (Hlow & Hsum & Hk).
  destruct (lor_group64 value b s Hs Hs7 Hv) as [Heq Hrange].
  rewrite Heq, <- Hsum in *.
  destruct (Z.land b 128 =? 0); [|by apply Hk].
  rewrite join_halves by done.
  replace (s =? 63) with false; [done|]. symmetry. apply Z.eqb_neq. lia.
Qed.

Lemma low_step n off low s k :
  0 <= s <= 21 -> 0 <= low < 2 ^ s ->
  (forall low', 0 <= low' < 2 ^ (s + 7) ->
     k low' 0 (S off) = read_u64_loop n buf (S off) low' (s + 7)) ->
  byte_macro buf off (fun b => (Z.lor low (wrap32 (Z.shiftl (Z.land b 127) s)), 0)) k
  = read_u64_loop (S n) buf off low s.
Proof.
  intros Hs Hlow Hk. apply byte_macro_loop; [lia..|].
  intros b l h Hb [= <- <-]. rewrite land_127.
  destruct (lor_group32 low (b mod 128) s) as [-> Hr]; [lia..| |done|].
  { apply group_range. }
  assert (2 ^ (s + 7) <= 2 ^ 32) by (apply Z.pow_le_mono_r; lia).
  rewrite Z.mul_0_l, Z.add_0_r. eauto with lia.
Qed.

Lemma high_step n off low high s k :
  0 <= s <= 24 -> 0 <= low < 2 ^ 32 -> 0 <= high < 2 ^ s ->
  (forall high', 0 <= high' < 2 ^ (s + 7) ->
     k low high' (S off) = read_u64_loop n buf (S off) (low + high' * 2 ^ 32) (s + 32 + 7)) ->
  byte_macro buf off (fun b => (low, Z.lor high (wrap32 (Z.shiftl (Z.land b 127) s)))) k
  = read_u64_loop (S n) buf off (low + high * 2 ^ 32) (s + 32).
Proof.
  intros Hs Hlow Hhigh Hk.
  assert (2 ^ (s + 32) = 2 ^ s * 2 ^ 32) as Hp by (by rewrite Z.pow_add_r by lia).
  apply byte_macro_loop; [lia..|nia|].
  intros b l h Hb [= <- <-]. rewrite land_127.
  destruct (lor_group32 high (b mod 128) s) as [-> Hr]; [lia..| |done|].
  { apply group_range. }
  split; [done|]. split; [nia|]. intros _. by apply Hk.
Qed.

Lemma mid_step n off low k :
  0 <= low < 2 ^ 28 ->
  (forall low' high', 0 <= low' < 2 ^ 32 -> 0 <= high' < 2 ^ 3 ->
     k low' high' (S off) = read_u64_loop n buf (S off) (low' + high' * 2 ^ 32) 35) ->
  byte_macro buf off (fun b => (Z.lor low (wrap32 (Z.shiftl (Z.land b 127) 28)),
                                Z.shiftr (Z.land b 127) 4)) k
  = read_u64_loop (S n) buf off low 28.
Proof.
  intros Hlow Hk. apply byte_macro_loop; [lia..|].
  intros b l h Hb [= <- <-]. rewrite land_127.
  pose proof (group_range b) as Hg. set (g := b mod 128) in *.
  assert (wrap32 (Z.shiftl g 28) = Z.shiftl (g mod 16) 28) as ->.
  { unfold wrap32. rewrite !Z.shiftl_mul_pow2 by lia.
    change (2 ^ 32) with (16 * 2 ^ 28). by rewrite Z.mul_mod_distr_r by lia. }
  rewrite lor_shiftl_add, Z.shiftr_div_pow2 by lia. change (2 ^ 4) with 16.
  pose proof (Z.div_mod g 16 ltac:(lia)). pose proof (Z.mod_pos_bound g 16 ltac:(lia)).
  assert (0 <= g / 16 < 8) by (split; [apply Z.div_pos|apply Z.div_lt_upper_bound]; lia).
  repeat split; try lia. intros _. apply Hk; lia.
Qed.

Lemma last_step off low high :
  0 <= low < 2 ^ 32 -> 0 <= high < 2 ^ 31 ->
  match buf !! off with
  | None => (Err (Unpack "short read"), off)
  | Some last =>
      if 1 <? last then (Err (Unpack "uleb128 too long"), S off)
      else (Ok (Z.lor (Z.shiftl (Z.lor high (wrap32 (Z.shiftl last 31))) 32) low), S off)
  end = read_u64_loop 1 buf off (low + high * 2 ^ 32) 63.
Proof.
  intros Hlow Hhigh. cbn [read_u64_loop].
  destruct (buf !! off) as [b|] eqn:Hb; [|done].
  pose proof (lookup_byte _ _ _ Hbuf Hb) as Hu.
  destruct (1 <? b) eqn:E1; bool_to_prop; [by destruct (Z.land b 128 =? 0)|].
  rewrite land_128_small by solve_u. simpl.
  rewrite land_127, Z.mod_small by solve_u.
  rewrite wrap32_small, wrap64_small by (rewrite Z.shiftl_mul_pow2 by lia; solve_u).
  rewrite lor_shiftl_add, join_halves, lor_shiftl_add by (unfold_u; lia).
  do 2 f_equal. lia.
Qed.

Lemma read_u64_32_slow_loop off : read_u64_32_slow buf off = read_u64 buf off.
Proof.
  unfold read_u64_32_slow, read_u64.
  apply byte_macro_loop; [lia..|]. intros b0 ? ? Hb0 [= <- <-].
  rewrite land_127. pose proof (group_range b0). split; [lia|]. split; [lia|].
  rewrite Z.mul_0_l, Z.add_0_r. intros Hr. simpl in Hr.
  apply (low_step 8 _ _ 7); [lia..|]. intros l1 H1. simpl in H1.
  apply (low_step 7 _ _ 14); [lia..|]. intros l2 H2. simpl in H2.
  apply (low_step 6 _ _ 21); [lia..|]. intros l3 H3. simpl in H3.
  apply (mid_step 5); [lia|]. intros l h Hl Hh.
  apply (high_step 4 _ _ _ 3); [lia..|]. intros h1 Hh1. simpl in Hh1.
  apply (high_step 3 _ _ _ 10); [lia..|]. intros h2 Hh2. simpl in Hh2.
  apply (high_step 2 _ _ _ 17); [lia..|]. intros h3 Hh3. simpl in Hh3.
  apply (high_step 1 _ _ _ 24); [lia..|]. intros h4 Hh4. simpl in Hh4.
  by apply last_step.
Qed.
End Unrolled.

(** ** Encoding and decoding are inverse *)

Lemma write_uleb128_loop_small n v :
  0 <= v < 128 -> write_uleb128_loop (S n) v = [v].
Proof.
  intros Hv. cbn [write_uleb128_loop].
  rewrite shiftr_7, land_127, Z.div_small, Z.mod_small by lia. done.
Qed.

Lemma write_uleb128_loop_big n v :
  128 <= v ->
  write_uleb128_loop (S n) v = v mod 128 + 128 :: write_uleb128_loop n (v / 128).
Proof.
  intros Hv. cbn [write_uleb128_loop]. rewrite shiftr_7, land_127.
  rewrite land_128_set by apply group_range.
  destruct (Z.eqb_spec (v / 128) 0) as [E|]; [|done].
  apply Z.div_small_iff in E; lia.
Qed.

(** One round of the decoder on a group without and with the continuation bit. *)
Lemma read_u64_loop_last n buf off value s b :
  buf !! off = Some b -> 0 <= b < 128 -> 0 <= s <= 63 -> 0 <= value < 2 ^ s ->
  b * 2 ^ s < 2 ^ 64 ->
  read_u64_loop (S n) buf off value s = (Ok (value + b * 2 ^ s), S off).
Proof.
  intros Hb Hr Hs Hv Hfit. cbn [read_u64_loop]. rewrite Hb, land_128_small by lia.
  rewrite Z.eqb_refl, land_127, (Z.mod_small b) by lia.
  assert (((s =? 63) && (1 <? b)) = false) as ->.
  { apply andb_false_iff. destruct (Z.eqb_spec s 63) as [->|]; [right|by left].
    apply Z.ltb_ge. lia. }
  rewrite wrap64_small, lor_shiftl_add; [done|lia..|].
  rewrite Z.shiftl_mul_pow2 by lia. unfold_u. nia.
Qed.

Lemma read_u64_loop_more n buf off value s b :
  buf !! off = Some b -> 128 <= b < 256 -> 0 <= s -> s + 7 <= 63 ->
  0 <= value < 2 ^ s ->
  read_u64_loop (S n) buf off value s
  = read_u64_loop n buf (S off) (value + (b - 128) * 2 ^ s) (s + 7).
Proof.
  intros Hb Hr Hs Hs7 Hv. cbn [read_u64_loop]. rewrite Hb, land_128_high by lia.
  destruct (lor_group64 value b s Hs Hs7 Hv) as [-> _]. by rewrite group_of_high.
Qed.

Lemma lookup_middle (pre : bytes) x rest : (pre ++ x :: rest) !! length pre = Some x.
Proof. by rewrite list_lookup_middle. Qed.

Lemma read_write_loop n pre rest v value s :
  s = 7 * (10 - Z.of_nat n) -> (1 <= n <= 10)%nat ->
  0 <= v -> 0 <= value < 2 ^ s -> v * 2 ^ s < 2 ^ 64 ->
  read_u64_loop n (pre ++ write_uleb128_loop n v ++ rest) (length pre) value s
  = (Ok (value + v * 2 ^ s), (length pre + length (write_uleb128_loop n v))%nat).
Proof.
  revert pre v value s. induction n as [|n IH]; intros pre v value s Hs Hn Hv Hval Hfit;
    [lia|].
  destruct (Z.lt_ge_cases v 128) as [Hlt|Hge].
  - rewrite write_uleb128_loop_small by lia. simpl app. simpl length.
    rewrite (read_u64_loop_last n _ _ _ _ v); [|apply lookup_middle|lia..].
    f_equal. lia.
  - assert (n <> O) as Hn0.
    { intros ->. subst s. change (2 ^ (7 * (10 - Z.of_nat 1))) with (2 ^ 63) in *. lia. }
    rewrite write_uleb128_loop_big by lia. simpl app. simpl length.
    rewrite (read_u64_loop_more n _ _ _ _ (v mod 128 + 128));
      [|apply lookup_middle|pose proof (group_range v); lia|lia..].
    replace (v mod 128 + 128 - 128) with (v mod 128) by lia.
    rewrite cons_middle, app_assoc.
    replace (S (length pre)) with (length (pre ++ [v mod 128 + 128]))
      by (rewrite length_app; simpl; lia).
    pose proof (Z.div_mod v 128 ltac:(lia)). pose proof (group_range v).
    assert (2 ^ (s + 7) = 2 ^ s * 128) as Hp by (by rewrite Z.pow_add_r by lia).
    rewrite IH; [|lia|lia|apply Z.div_pos; lia|nia|nia].
    rewrite length_app, Hp. simpl. f_equal; [f_equal; nia|lia].
Qed.

Lemma read_write_u64 pre rest v :
  is_u64 v ->
  read_u64 (pre ++ write_uleb128 v ++ rest) (length pre)
  = (Ok v, (length pre + length (write_uleb128 v))%nat).
Proof.
  intros Hv. unfold read_u64, write_uleb128.
  rewrite read_write_loop; [|lia|lia|solve_u|lia|solve_u].
  by rewrite Z.pow_0_r, Z.mul_1_r, Z.add_0_l.
Qed.

Lemma write_uleb128_loop_ok n v : 0 <= v -> bytes_ok (write_uleb128_loop n v).
Proof.
  revert v. induction n as [|n IH]; intros v Hv; [constructor|].
  destruct (Z.lt_ge_cases v 128).
  - rewrite write_uleb128_loop_small by lia. repeat constructor; solve_u.
  - rewrite write_uleb128_loop_big by lia. pose proof (group_range v).
    constructor; [solve_u|]. apply IH, Z.div_pos; lia.
Qed.

Lemma write_uleb128_ok v : 0 <= v -> bytes_ok (write_uleb128 v).
Proof. apply write_uleb128_loop_ok. Qed.

Lemma uleb128_size_loop_spec k v n :
  (1 <= k)%nat -> 0 <= v < 128 ^ Z.of_nat k ->
  uleb128_size_loop k v n = n - 1 + zlen (write_uleb128_loop k v).
Proof.
  unfold zlen. revert v n. induction k as [|k IH]; intros v n Hk Hv; [lia|].
  rewrite Nat2Z.inj_succ, Z.pow_succ_r in Hv by lia.
  destruct (Z.lt_ge_cases v 128).
  - rewrite write_uleb128_loop_small by lia. cbn [uleb128_size_loop length].
    destruct (128 <=? v) eqn:E; bool_to_prop; lia.
  - rewrite write_uleb128_loop_big by lia. cbn [uleb128_size_loop length].
    destruct (128 <=? v) eqn:E; bool_to_prop; [|lia].
    rewrite shiftr_7, IH; [lia|destruct k; [change (Z.of_nat 0) with 0 in Hv; lia|lia]|].
    split; [apply Z.div_pos; lia|]. apply Z.div_lt_upper_bound; lia.
Qed.

Lemma uleb128_size_length v : is_u64 v -> zlen (write_uleb128 v) = uleb128_size v.
Proof.
  intros Hv. unfold uleb128_size, write_uleb128.
  rewrite uleb128_size_loop_spec; [lia|lia|]. unfold_u. lia.
Qed.

Lemma uleb128_size_pos v : 1 <= uleb128_size v.
Proof.
  unfold uleb128_size. generalize 10%nat as k. intros k.
  assert (forall n, 1 <= n -> 1 <= uleb128_size_loop k v n) as H; [|apply H; lia].
  revert v. induction k as [|k IH]; intros v n Hn; cbn [uleb128_size_loop]; [done|].
  destruct (128 <=? v); [apply IH|]; lia.
Qed.

(** ** What the decoder can return *)

Lemma read_u64_loop_bounds n buf off value s :
  bytes_ok buf -> 0 <= value < 2 ^ s -> s = 7 * (10 - Z.of_nat n) -> (n <= 10)%nat ->
  (off <= snd (read_u64_loop n buf off value s) <= off + n)%nat /\
  (snd (read_u64_loop n buf off value s) <= Nat.max off (length buf))%nat /\
  (forall v, fst (read_u64_loop n buf off value s) = Ok v ->
     is_u64 v /\ (off < snd (read_u64_loop n buf off value s))%nat).
Proof.
  intros Hbuf. revert off value s. induction n as [|n IH]; intros off value s Hv Hs Hn;
    cbn [read_u64_loop]; [split; [simpl; lia|]; split; [simpl; lia|done]|].
  destruct (buf !! off) as [b|] eqn:Hb; [|split; [simpl; lia|]; split; [simpl; lia|done]].
  pose proof (lookup_byte _ _ _ Hbuf Hb) as Hu. apply lookup_lt_Some in Hb as Hlt.
  destruct (Z.land b 128 =? 0) eqn:E.
  - apply Z.eqb_eq, land_128_zero in E; [|done].
    destruct ((s =? 63) && (1 <? b)) eqn:E'; [split; [simpl; lia|]; split; [simpl; lia|done]|].
    split; [simpl; lia|]. split; [simpl; lia|]. intros v [= <-]. split; [|simpl; lia].
    rewrite land_127, Z.mod_small by solve_u.
    assert (Z.shiftl b s < 2 ^ 64) as Hfit.
    { rewrite Z.shiftl_mul_pow2 by lia. apply andb_false_iff in E' as [E'|E']; bool_to_prop.
      - assert (2 ^ s * 128 <= 2 ^ 63); [|unfold_u; nia].
        change 128 with (2 ^ 7). rewrite <- Z.pow_add_r by lia. apply Z.pow_le_mono_r; lia.
      - assert (2 ^ s <= 2 ^ 63) by (apply Z.pow_le_mono_r; lia). unfold_u. nia. }
    rewrite wrap64_small by (unfold_u; rewrite Z.shiftl_mul_pow2 in * by lia; nia).
    rewrite lor_shiftl_add by lia. rewrite Z.shiftl_mul_pow2 in Hfit by lia.
    assert (2 ^ s * 2 ^ (64 - s) = 2 ^ 64) as Hp by (rewrite <- Z.pow_add_r by lia; f_equal; lia).
    assert (b < 2 ^ (64 - s)) by nia. unfold_u. nia.
  - destruct n as [|n']; [simpl; split; [lia|]; split; [lia|done]|].
    destruct (lor_group64 value b s) as [-> Hr]; [lia..|].
    specialize (IH (S off) (value + b mod 128 * 2 ^ s) (s + 7) Hr ltac:(lia) ltac:(lia)).
    destruct IH as (H1 & H2 & H3). split; [lia|]. split; [lia|].
    intros v Hval. specialize (H3 v Hval). intuition lia.
Qed.

Lemma read_u64_bounds buf off :
  bytes_ok buf ->
  (off <= snd (read_u64 buf off) <= off + 10)%nat /\
  (snd (read_u64 buf off) <= Nat.max off (length buf))%nat /\
  (forall v, fst (read_u64 buf off) = Ok v ->
     is_u64 v /\ (off < snd (read_u64 buf off))%nat).
Proof. intros. apply read_u64_loop_bounds; [done|lia..]. Qed.

(** The number a sequence of seven-bit groups denotes, lowest group first. *)
Definition uleb_value : bytes -> Z := foldr (fun b v => b mod 128 + 128 * v) 0.

(** An accepted value is the number its bytes denote: no group is lost. *)
Lemma read_u64_loop_value n buf off value s v off' :
  bytes_ok buf -> 0 <= value < 2 ^ s -> s = 7 * (10 - Z.of_nat n) -> (n <= 10)%nat ->
  read_u64_loop n buf off value s = (Ok v, off') ->
  v = value + 2 ^ s * uleb_value (take (off' - off) (drop off buf)).
Proof.
  intros Hbuf. revert off value s. induction n as [|n IH]; intros off value s Hv Hs Hn H;
    [by simpl in H|].
  destruct (buf !! off) as [b|] eqn:Hb; [|by cbn [read_u64_loop] in H; rewrite Hb in H].
  pose proof (lookup_byte _ _ _ Hbuf Hb) as Hu. rewrite (drop_S _ _ _ Hb).
  destruct (decide (b < 128)) as [Hlt|Hge].
  - assert (((s =? 63) && (1 <? b)) = false) as Hlast.
    { apply not_true_is_false. intros E. cbn [read_u64_loop] in H.
      rewrite Hb, land_128_small, Z.eqb_refl, E in H by solve_u. done. }
    assert (b * 2 ^ s < 2 ^ 64) as Hfit.
    { apply andb_false_iff in Hlast as [E|E]; bool_to_prop.
      - assert (2 ^ s * 128 <= 2 ^ 63); [|unfold_u; nia].
        change 128 with (2 ^ 7). rewrite <- Z.pow_add_r by lia. apply Z.pow_le_mono_r; lia.
      - assert (2 ^ s <= 2 ^ 63) by (apply Z.pow_le_mono_r; lia). unfold_u. nia. }
    rewrite (read_u64_loop_last n _ _ _ _ b) in H by (done || solve_u || lia).
    injection H as <- <-. rewrite Nat.sub_succ_l, Nat.sub_diag by lia. cbn.
    rewrite Z.mod_small by solve_u. rewrite take_0. cbn. lia.
  - destruct n as [|n]; [cbn [read_u64_loop] in H; rewrite Hb, land_128_high in H by solve_u;
      by simpl in H|].
    rewrite (read_u64_loop_more _ _ _ _ _ b) in H by (done || solve_u || lia).
    pose proof (read_u64_loop_bounds (S n) buf (S off) (value + (b - 128) * 2 ^ s) (s + 7) Hbuf)
      as Hbd.
    assert (0 <= value + (b - 128) * 2 ^ s < 2 ^ (s + 7)) as Hr.
    { destruct (lor_group64 value b s) as [_ Hr]; [lia..|].
      rewrite group_of_high in Hr by solve_u. done. }
    destruct (Hbd Hr) as (Hlo & _ & _); [lia..|]. rewrite H in Hlo. cbn [snd] in Hlo.
    apply IH in H; [|done|lia..]. rewrite H.
    replace (off' - off)%nat with (S (off' - S off)) by lia. cbn [take uleb_value foldr].
    fold (uleb_value (take (off' - S off) (drop (S off) buf))).
    rewrite Z.pow_add_r by lia. change (2 ^ 7) with 128.
    rewrite group_of_high by solve_u. ring.
Qed.

(** What a successful read consumed determines its result: the same bytes read
    the same value wherever they stand. *)
Lemma read_u64_loop_local n buf off value s v off' :
  read_u64_loop n buf off value s = (Ok v, off') ->
  exists enc rest, drop off buf = enc ++ rest /\ off' = (off + length enc)%nat /\
    enc <> [] /\
    forall pre rest', read_u64_loop n (pre ++ enc ++ rest') (length pre) value s
                      = (Ok v, (length pre + length enc)%nat).
Proof.
  revert off value s. induction n as [|n IH]; intros off value s; cbn [read_u64_loop]; [done|].
  destruct (buf !! off) as [b|] eqn:Hb; [|done].
  pose proof (drop_S _ _ _ Hb) as Hd.
  destruct (Z.land b 128 =? 0) eqn:Ec.
  - destruct ((s =? 63) && (1 <? b)) eqn:Eo; [done|]. intros [= <- <-].
    exists [b], (drop (S off) buf). split; [done|]. split; [simpl; lia|]. split; [done|].
    intros pre rest'. cbn [app length]. rewrite lookup_middle, Ec, Eo. f_equal. lia.
  - intros H. apply IH in H as (enc & rest & Hdr & -> & _ & Hloc).
    exists (b :: enc), rest. split; [by rewrite Hd, Hdr|]. split; [simpl; lia|]. split; [done|].
    intros pre rest'. cbn [app length]. rewrite lookup_middle, Ec.
    specialize (Hloc (pre ++ [b]) rest'). rewrite <- app_assoc, length_app in Hloc.
    cbn [app length] in Hloc. rewrite Nat.add_1_r in Hloc. rewrite Hloc. f_equal. lia.
Qed.

(** ** Properties *)

(** On every buffer of bytes and every offset, the unrolled decoder for
    32-bit targets returns what the 64-bit loop returns (value or error) and
    leaves the same offset, also on truncated and on overlong input. *)
Theorem read_u64_32_equiv buf off :
  bytes_ok buf -> read_u64_32 buf off = read_u64 buf off.
Proof.
  intros Hbuf. unfold read_u64_32.
  destruct (buf !! off) as [b|] eqn:Hb; [|by apply read_u64_32_slow_loop].
  destruct (b <? 128) eqn:E; [|by apply read_u64_32_slow_loop].
  bool_to_prop. pose proof (lookup_byte _ _ _ Hbuf Hb).
  unfold read_u64. rewrite (read_u64_loop_last 9 _ _ _ _ b); [|done|solve_u..].
  by rewrite Z.pow_0_r, Z.mul_1_r, Z.add_0_l.
Qed.

Lemma read_u64_32_equiv_witness :
  read_u64_32 [1; 172; 2; 9] 1 = read_u64 [1; 172; 2; 9] 1.
Proof. apply read_u64_32_equiv. repeat constructor; unfold_u; lia. Defined.

(** A [u64] written by [write_uleb128] in the middle of a buffer is read
    back by the decoder, which stops exactly behind it; the encoding takes
    [uleb128_size] bytes, between one and ten. *)
Theorem uleb128_roundtrip pre rest v :
  is_u64 v ->
  read_u64 (pre ++ write_uleb128 v ++ rest) (length pre)
    = (Ok v, (length pre + length (write_uleb128 v))%nat) /\
  zlen (write_uleb128 v) = uleb128_size v /\ 1 <= uleb128_size v <= 10.
Proof.
  intros Hv. split; [by apply read_write_u64|]. split; [by apply uleb128_size_length|].
  split; [apply uleb128_size_pos|]. rewrite <- uleb128_size_length by done.
  pose proof (read_u64_bounds (write_uleb128 v) 0) as [Hb _].
  { apply write_uleb128_ok. solve_u. }
  pose proof (read_write_u64 [] [] v Hv) as Hr. rewrite app_nil_r in Hr. simpl in Hr.
  rewrite Hr in Hb. simpl in Hb. unfold zlen. lia.
Qed.

Lemma uleb128_roundtrip_witness :
  read_u64 ([7] ++ write_uleb128 u64_max ++ [9]) 1 = (Ok u64_max, 11%nat).
Proof.
  destruct (uleb128_roundtrip [7] [9] u64_max) as [H _]; [unfold_u; lia|exact H].
Defined.

(** The decoder never reads past the buffer and never consumes more than
    ten bytes, on success and on error; a returned value fits a [u64] and is
    exactly the number the consumed bytes denote (overlong encodings are refused,
    never wrapped), and at least one byte was consumed. *)
Theorem read_u64_safe buf off :
  bytes_ok buf ->
  let '(res, off') := read_u64 buf off in
  (off <= off' <= off + 10)%nat /\ (off' <= Nat.max off (length buf))%nat /\
  match res with
  | Ok v => is_u64 v /\ (off < off')%nat /\
            v = uleb_value (take (off' - off) (drop off buf))
  | Err e => e = Unpack "short read" \/ e = Unpack "uleb128 too long"
  end.
Proof.
  intros Hbuf. destruct (read_u64_bounds buf off Hbuf) as (H1 & H2 & H3).
  assert (forall n value s e, fst (read_u64_loop n buf off value s) = Err e ->
    e = Unpack "short read" \/ e = Unpack "uleb128 too long") as Herr.
  { clear. intros n. revert off. induction n as [|n IH]; intros off value s e;
      cbn [read_u64_loop]; repeat case_match_goal; simpl; naive_solver. }
  destruct (read_u64 buf off) as [res off'] eqn:E. cbn [fst snd] in *.
  split; [done|]. split; [done|]. destruct res as [v|e].
  - destruct (H3 v eq_refl) as [Hv Hlt]. split; [done|]. split; [done|].
    unfold read_u64 in E. apply read_u64_loop_value in E; [|done|lia..].
    by rewrite Z.pow_0_r, Z.mul_1_l, Z.add_0_l in E.
  - apply (Herr 10%nat 0 0). unfold read_u64 in E. by rewrite E.
Qed.

Lemma read_u64_safe_witness :
  fst (read_u64 [85; 172; 2; 9] 1) = Ok (uleb_value [172; 2]).
Proof.
  pose proof (read_u64_safe [85; 172; 2; 9] 1 ltac:(repeat constructor; unfold_u; lia)) as H.
  destruct (read_u64 [85; 172; 2; 9] 1) as [res off'] eqn:E. vm_compute in E.
  injection E as <- <-. destruct H as (_ & _ & _ & _ & H). cbn [fst]. by rewrite H.
Defined.
