(* ===== verification/Schema.v ===== *)
(** * Schema vocabulary and registry lookups (src/src/lib.rs, src/src/config.rs)

    The logical identifiers, the shape of a message and the read side of the
    process-local registry, as the packet, wire-format and scheduling code use
    them.  [DataType] and [DataEndpoint] are newtypes over [u32], kept as [Z].
    [Registry] is the value behind the registry mutex; [Tuning] holds the
    runtime tuning values the modelled code reads. *)

From S2P Require Import Prelude.

Open Scope Z_scope.

(** ** Identifiers *)

Abbreviation DataEndpoint := Z.
Abbreviation DataType := Z.

Definition ep_TimeSync : DataEndpoint := 200.
Definition ep_Discovery : DataEndpoint := 201.
Definition ep_TelemetryError : DataEndpoint := 202.

Definition ty_TelemetryError : DataType := 0.
Definition ty_ReliableAck : DataType := 1.
Definition ty_ReliablePacketRequest : DataType := 2.
Definition ty_ReliablePartialAck : DataType := 3.
Definition ty_TimeSyncAnnounce : DataType := 4.
Definition ty_TimeSyncRequest : DataType := 5.
Definition ty_TimeSyncResponse : DataType := 6.
Definition ty_DiscoveryAnnounce : DataType := 7.
Definition ty_DiscoveryTimeSyncSources : DataType := 8.
Definition ty_DiscoveryTopology : DataType := 9.
Definition ty_DiscoverySchema : DataType := 10.
Definition ty_DiscoveryTopologyRequest : DataType := 11.
Definition ty_DiscoverySchemaRequest : DataType := 12.
Definition ty_ManagedVariableRequest : DataType := 13.
Definition ty_ManagedVariableValue : DataType := 14.
Definition ty_DiscoveryLeave : DataType := 15.
Definition ty_DiscoveryLinkCapabilities : DataType := 16.
Definition ty_DiscoveryAddress : DataType := 17.
Definition ty_P2pMessage : DataType := 18.

(** [matches!(x, A | B | ...)] over identifiers. *)
Definition one_of (x : Z) (l : list Z) : bool := existsb (Z.eqb x) l.

(** ** Message shape *)

Inductive MessageDataType : Type :=
| Float64 | Float32 | UInt8 | UInt16 | UInt32 | UInt64 | UInt128
| Int8 | Int16 | Int32 | Int64 | Int128 | TBool | TString | Binary | NoData.

Inductive MessageClass : Type := CData | CError | CWarning.

Inductive MessageElement : Type :=
| Static (count : Z) (dt : MessageDataType) (class : MessageClass)
| Dynamic (dt : MessageDataType) (class : MessageClass).

Inductive ReliableMode : Type := RNone | Ordered | Unordered.

Inductive E2eEncryptionPolicy : Type := PreferOff | PreferOn | RequireOn.

#[export] Instance MessageDataType_eq_dec : EqDecision MessageDataType.
Proof. solve_decision. Defined.
#[export] Instance MessageClass_eq_dec : EqDecision MessageClass.
Proof. solve_decision. Defined.
#[export] Instance MessageElement_eq_dec : EqDecision MessageElement.
Proof. solve_decision. Defined.
#[export] Instance ReliableMode_eq_dec : EqDecision ReliableMode.
Proof. solve_decision. Defined.
#[export] Instance E2eEncryptionPolicy_eq_dec : EqDecision E2eEncryptionPolicy.
Proof. solve_decision. Defined.

Definition data_type (e : MessageElement) : MessageDataType :=
  match e with Static _ dt _ => dt | Dynamic dt _ => dt end.

Definition message_type (e : MessageElement) : MessageClass :=
  match e with Static _ _ mt => mt | Dynamic _ mt => mt end.

(** ** Numeric codes of the enums *)

Definition message_data_type_code (dt : MessageDataType) : Z :=
  match dt with
  | Float64 => 0 | Float32 => 1 | UInt8 => 2 | UInt16 => 3 | UInt32 => 4
  | UInt64 => 5 | UInt128 => 6 | Int8 => 7 | Int16 => 8 | Int32 => 9
  | Int64 => 10 | Int128 => 11 | TBool => 12 | TString => 13 | Binary => 14
  | NoData => 15
  end.

Definition message_data_type_from_code (code : Z) : option MessageDataType :=
  match code with
  | 0 => Some Float64 | 1 => Some Float32 | 2 => Some UInt8 | 3 => Some UInt16
  | 4 => Some UInt32 | 5 => Some UInt64 | 6 => Some UInt128 | 7 => Some Int8
  | 8 => Some Int16 | 9 => Some Int32 | 10 => Some Int64 | 11 => Some Int128
  | 12 => Some TBool | 13 => Some TString | 14 => Some Binary | 15 => Some NoData
  | _ => None
  end.

Definition message_class_code (class : MessageClass) : Z :=
  match class with CData => 0 | CError => 1 | CWarning => 2 end.

Definition message_class_from_code (code : Z) : option MessageClass :=
  match code with
  | 0 => Some CData | 1 => Some CError | 2 => Some CWarning | _ => None
  end.

Definition reliable_code (mode : ReliableMode) : Z :=
  match mode with RNone => 0 | Ordered => 1 | Unordered => 2 end.

Definition reliable_from_code (code : Z) : option ReliableMode :=
  match code with
  | 0 => Some RNone | 1 => Some Ordered | 2 => Some Unordered | _ => None
  end.

Definition e2e_encryption_policy_code (policy : E2eEncryptionPolicy) : Z :=
  match policy with PreferOff => 0 | PreferOn => 1 | RequireOn => 2 end.

Definition e2e_encryption_policy_from_code (code : Z) : option E2eEncryptionPolicy :=
  match code with
  | 0 => Some PreferOff | 1 => Some PreferOn | 2 => Some RequireOn | _ => None
  end.

(** ** Registry and tuning *)

Record EndpointMeta : Type := {
  em_name : string;
  em_description : string;
  link_local_only : bool;
}.

Record MessageMeta : Type := {
  mm_name : string;
  mm_description : string;
  element : MessageElement;
  mm_endpoints : list DataEndpoint;
  reliable : ReliableMode;
  priority : Z;
  e2e_encryption : E2eEncryptionPolicy;
}.

Record Registry : Type := {
  endpoints : list (DataEndpoint * EndpointMeta);
  types : list (DataType * MessageMeta);
  next_endpoint_id : Z;
  next_type_id : Z;
}.

Record Tuning : Type := {
  payload_compress_threshold : Z;
  static_string_length : Z;
  static_hex_length : Z;
}.

Definition endpoint_exists (reg : Registry) (ep : DataEndpoint) : bool :=
  existsb (fun e => fst e =? ep) (endpoints reg).

Definition data_type_exists (reg : Registry) (ty : DataType) : bool :=
  existsb (fun e => fst e =? ty) (types reg).

Definition endpoint_try_from_u32 (reg : Registry) (x : Z) : option DataEndpoint :=
  if endpoint_exists reg x then Some x else None.

Definition data_type_try_from_u32 (reg : Registry) (x : Z) : option DataType :=
  if data_type_exists reg x then Some x else None.

(** The first entry with the given identifier ([iter().find]). *)
Fixpoint find_meta (l : list (DataType * MessageMeta)) (ty : DataType)
    : option MessageMeta :=
  match l with
  | [] => None
  | (id, meta) :: l => if id =? ty then Some meta else find_meta l ty
  end.

Definition try_get_message_meta (reg : Registry) (ty : DataType) : option MessageMeta :=
  find_meta (types reg) ty.

Definition get_message_meta (reg : Registry) (ty : DataType) : MessageMeta :=
  match try_get_message_meta reg ty with
  | Some meta => meta
  | None =>
      {| mm_name := "UNKNOWN_TYPE"; mm_description := EmptyString;
         element := Dynamic Binary CData; mm_endpoints := [];
         reliable := RNone; priority := 0; e2e_encryption := PreferOff |}
  end.

Definition message_meta := get_message_meta.

Definition message_delivery_meta (reg : Registry) (ty : DataType) : ReliableMode * Z :=
  match find_meta (types reg) ty with
  | Some meta => (reliable meta, priority meta)
  | None => (RNone, 0)
  end.

Definition reliable_mode (reg : Registry) (ty : DataType) : ReliableMode :=
  fst (message_delivery_meta reg ty).

Definition is_reliable_type (reg : Registry) (ty : DataType) : bool :=
  match reliable_mode reg ty with RNone => false | _ => true end.

Definition message_priority (reg : Registry) (ty : DataType) : Z :=
  snd (message_delivery_meta reg ty).

(** Scheduler bands: delivery control and route discovery at 255, schema,
    managed variables and time sync at 254, the application below. *)
Definition transport_priority (reg : Registry) (ty : DataType) : Z :=
  if one_of ty [ty_ReliableAck; ty_ReliablePartialAck; ty_ReliablePacketRequest] then 255
  else if one_of ty [ty_DiscoveryAnnounce; ty_DiscoveryTimeSyncSources;
                     ty_DiscoveryTopology; ty_DiscoveryTopologyRequest;
                     ty_DiscoveryLeave; ty_DiscoveryLinkCapabilities;
                     ty_DiscoveryAddress] then 255
  else if one_of ty [ty_DiscoverySchema; ty_DiscoverySchemaRequest;
                     ty_ManagedVariableRequest; ty_ManagedVariableValue;
                     ty_TimeSyncAnnounce; ty_TimeSyncRequest; ty_TimeSyncResponse] then 254
  else Z.min (message_priority reg ty) 253.

Definition is_discovery_type (ty : DataType) : bool :=
  one_of ty [ty_DiscoveryAnnounce; ty_DiscoveryTimeSyncSources; ty_DiscoveryTopology;
             ty_DiscoverySchema; ty_DiscoveryTopologyRequest; ty_DiscoverySchemaRequest;
             ty_ManagedVariableRequest; ty_ManagedVariableValue; ty_DiscoveryLeave;
             ty_DiscoveryLinkCapabilities; ty_DiscoveryAddress].

(** Size in bytes of one element. *)
Definition data_type_size (tun : Tuning) (dt : MessageDataType) : Z :=
  match dt with
  | Float64 => 8 | Float32 => 4
  | UInt8 => 1 | UInt16 => 2 | UInt32 => 4 | UInt64 => 8 | UInt128 => 16
  | Int8 => 1 | Int16 => 2 | Int32 => 4 | Int64 => 8 | Int128 => 16
  | TBool => 1
  | TString => static_string_length tun
  | Binary => static_hex_length tun
  | NoData => 0
  end.

(** ** Facts *)

Lemma message_data_type_code_inv dt :
  message_data_type_from_code (message_data_type_code dt) = Some dt.
Proof. by destruct dt. Qed.

Lemma message_data_type_code_range dt : 0 <= message_data_type_code dt < 16.
Proof. destruct dt; simpl; lia. Qed.

Lemma message_class_code_inv c : message_class_from_code (message_class_code c) = Some c.
Proof. by destruct c. Qed.

Lemma message_class_code_range c : 0 <= message_class_code c < 3.
Proof. destruct c; simpl; lia. Qed.

Lemma try_get_get reg ty meta :
  try_get_message_meta reg ty = Some meta -> get_message_meta reg ty = meta.
Proof. unfold get_message_meta. by intros ->. Qed.

Lemma data_type_exists_try reg ty :
  data_type_exists reg ty = true <-> is_Some (try_get_message_meta reg ty).
Proof.
  unfold data_type_exists, try_get_message_meta.
  induction (types reg) as [|[id meta] l IH]; simpl.
  - split; [done|]. by intros [? ?].
  - destruct (id =? ty); simpl; [|done]. split; eauto.
Qed.
