(* ===== verification/SchemaIdentity.v ===== *)
(** * Schema identities (src/src/schema_identity.rs)

    The numeric identity of a name does not depend on what else a node knows: it
    is a hash of the name, except for the names of the protocol, which keep their
    small numbers.  A name and an explicit number are accepted together only if
    neither or both belong to one protocol identity. *)

From S2P Require Import Prelude Schema.

Open Scope Z_scope.

(** ** Definitions *)

Definition name_id (name : string) (namespace : Z) : Z :=
  let hash := foldl (fun hash b => wrap32 (Z.lxor hash b * 16777619))
                    (Z.lxor 2166136261 namespace) (str name) in
  Z.lor 65536 (Z.land hash 268435455).

(** The arms of the two [match]es: hash, reserved name and identity. *)
Definition reserved_endpoints : list (Z * (string * Z)) :=
  [(179412986, ("SEDSNET_ERROR", 202));
   (108886069, ("SEDSNET_TIME_SYNC", 200));
   (216355494, ("SEDSNET_DISCOVERY", 201))].

Definition reserved_types : list (Z * (string * Z)) :=
  [(58436129, ("SEDSNET_ERROR", 0));
   (106117325, ("SEDSNET_RELIABLE_ACK", 1));
   (196062750, ("SEDSNET_RELIABLE_PACKET_REQUEST", 2));
   (148884243, ("SEDSNET_RELIABLE_PARTIAL_ACK", 3));
   (109685708, ("SEDSNET_TIME_SYNC_ANNOUNCE", 4));
   (170500828, ("SEDSNET_TIME_SYNC_REQUEST", 5));
   (205765904, ("SEDSNET_TIME_SYNC_RESPONSE", 6));
   (30659965, ("SEDSNET_DISCOVERY_ANNOUNCE", 7));
   (235996729, ("SEDSNET_DISCOVERY_TIMESYNC_SOURCES", 8));
   (240880835, ("SEDSNET_DISCOVERY_TOPOLOGY", 9));
   (180082409, ("SEDSNET_DISCOVERY_SCHEMA", 10));
   (9124173, ("SEDSNET_DISCOVERY_TOPOLOGY_REQUEST", 11));
   (259220559, ("SEDSNET_DISCOVERY_SCHEMA_REQUEST", 12));
   (190130393, ("SEDSNET_MANAGED_VARIABLE_REQUEST", 13));
   (148495321, ("SEDSNET_MANAGED_VARIABLE_VALUE", 14));
   (79804237, ("SEDSNET_DISCOVERY_LEAVE", 15));
   (155796665, ("SEDSNET_DISCOVERY_LINK_CAPABILITIES", 16));
   (133165958, ("SEDSNET_DISCOVERY_ADDRESS", 17));
   (32457485, ("SEDSNET_P2P_MESSAGE", 18))].

Fixpoint reserved_for (hashed : Z) (table : list (Z * (string * Z))) : option (string * Z) :=
  match table with
  | [] => None
  | (h, entry) :: table => if h =? hashed then Some entry else reserved_for hashed table
  end.

(** A hash that collides with the one of a reserved name stays a hash. *)
Definition identity_in (table : list (Z * (string * Z))) (namespace : Z) (name : string) : Z :=
  let hashed := name_id name namespace in
  match reserved_for hashed table with
  | Some (reserved_name, id) => if String.eqb name reserved_name then id else hashed
  | None => hashed
  end.

Definition endpoint_id : string -> Z := identity_in reserved_endpoints 17744.
Definition type_id : string -> Z := identity_in reserved_types 21593.

Definition protocol_endpoint_id (id : Z) : bool := (200 <=? id) && (id <=? 202).
Definition protocol_type_id (id : Z) : bool := id <=? 18.

Definition resolve (name : string) (explicit : option Z) (default_id : Z) (protocol_name endpoint : bool)
    : Z + string :=
  if String.eqb name "" then inr "schema name must not be empty"%string
  else
    let id := default default_id explicit in
    let protocol_id := if endpoint then protocol_endpoint_id id else protocol_type_id id in
    if (protocol_name && negb (id =? default_id))
       || (protocol_id && (negb protocol_name || negb (id =? default_id)))
    then inr "schema ID conflicts with a reserved SEDSNET protocol identity"%string
    else inl id.

Definition resolve_endpoint (name : string) (explicit : option Z) : Z + string :=
  resolve name explicit (endpoint_id name) (protocol_endpoint_id (endpoint_id name)) true.

Definition resolve_type (name : string) (explicit : option Z) : Z + string :=
  resolve name explicit (type_id name) (protocol_type_id (type_id name)) false.

(** ** The reserved tables *)

(** The protocol's own pairs of a name and a number. *)
Definition protocol_endpoint_name (name : string) (id : Z) : Prop := (name, id) ∈ reserved_endpoints.*2.
Definition protocol_type_name (name : string) (id : Z) : Prop := (name, id) ∈ reserved_types.*2.

(** What a table must satisfy for its names to be reserved exactly: each hash is
    the one of the name beside it, and no hash occurs twice. *)
Definition table_exact (table : list (Z * (string * Z))) (namespace : Z) : Prop :=
  Forall (fun e => name_id (fst (snd e)) namespace = fst e) table /\ NoDup table.*1.

Lemma reserved_endpoints_exact : table_exact reserved_endpoints 17744.
Proof. split; [repeat constructor|]. apply (bool_decide_unpack _). by vm_compute. Qed.

Lemma reserved_types_exact : table_exact reserved_types 21593.
Proof. split; [repeat constructor|]. apply (bool_decide_unpack _). by vm_compute. Qed.

Lemma reserved_for_some table h entry :
  NoDup table.*1 -> reserved_for h table = Some entry <-> (h, entry) ∈ table.
Proof.
  induction table as [|[h' e'] table IH]; cbn [reserved_for fmap list_fmap]; intros Hnd.
  - split; [done|]. by intros ?%not_elem_of_nil.
  - apply NoDup_cons in Hnd as [Hn Hnd]. rewrite elem_of_cons.
    destruct (Z.eqb_spec h' h) as [->|Hne].
    + split; [intros [= ->]; by left|]. intros [[= ->]|Hin]; [done|].
      exfalso. apply Hn. apply list_elem_of_fmap. by exists (h, entry).
    + rewrite IH by done. split; [by right|]. by intros [[= -> ->]|?].
Qed.

(** A name has the number of its row, and a hash if it has no row. *)
Lemma identity_in_spec table namespace name :
  table_exact table namespace ->
  (forall id, (name, id) ∈ table.*2 -> identity_in table namespace name = id) /\
  ((forall id, (name, id) ∉ table.*2) -> identity_in table namespace name = name_id name namespace).
Proof.
  intros [Hh Hnd]. unfold identity_in. split.
  - intros id Hin. apply list_elem_of_fmap in Hin as ([h entry] & He & Hin). cbn [snd] in He. subst entry.
    rewrite Forall_forall in Hh. pose proof (Hh _ Hin) as Heq. cbn [fst snd] in Heq. rewrite Heq.
    apply reserved_for_some in Hin as ->; [|done]. by rewrite String.eqb_refl.
  - intros Hno. destruct (reserved_for _ table) as [[rname id]|] eqn:E; [|done].
    destruct (String.eqb_spec name rname) as [->|]; [|done].
    apply reserved_for_some in E; [|done]. exfalso. apply (Hno id).
    apply list_elem_of_fmap. by eexists (_, _).
Qed.

Lemma name_id_range name namespace : 65536 <= name_id name namespace < 268435456.
Proof.
  unfold name_id. set (h := foldl _ _ _). clearbody h.
  change 268435455 with (Z.ones 28). rewrite Z.land_ones by lia.
  pose proof (Z.mod_pos_bound h (2 ^ 28) ltac:(lia)) as Hm. set (m := h mod 2 ^ 28) in *. clearbody m.
  assert (0 <= Z.lor 65536 m) as Hpos by (apply Z.lor_nonneg; lia). split.
  - destruct (Z.le_gt_cases 65536 (Z.lor 65536 m)) as [|Hlt]; [done|].
    assert (Z.testbit (Z.lor 65536 m) 16 = true) as Hb by (by rewrite Z.lor_spec).
    apply Z.testbit_true in Hb; [|done]. rewrite Z.div_small in Hb by lia. done.
  - destruct (decide (Z.lor 65536 m = 0)); [lia|]. apply Z.log2_lt_cancel.
    rewrite Z.log2_lor by lia. change 268435456 with (2 ^ 28). rewrite (Z.log2_pow2 28) by lia.
    apply Z.max_lub_lt; [done|]. destruct (decide (m = 0)) as [->|]; [done|].
    apply Z.log2_lt_pow2; lia.
Qed.

(** ** Resolution *)

Lemma protocol_endpoint_numbers id : protocol_endpoint_id id = true <-> id ∈ (reserved_endpoints.*2).*2.
Proof.
  unfold protocol_endpoint_id. cbn. rewrite !elem_of_cons, elem_of_nil, andb_true_iff, !Z.leb_le. lia.
Qed.

Lemma protocol_type_numbers id : 0 <= id -> protocol_type_id id = true <-> id ∈ (reserved_types.*2).*2.
Proof.
  unfold protocol_type_id. cbn. rewrite !elem_of_cons, elem_of_nil, Z.leb_le. lia.
Qed.

Lemma reserved_names_nonempty :
  (""%string ∉ (reserved_endpoints.*2).*1) /\ (""%string ∉ (reserved_types.*2).*1).
Proof. split; apply (bool_decide_unpack _); by vm_compute. Qed.

Lemma elem_of_pair_fst {A B} (l : list (A * B)) a : a ∈ l.*1 <-> exists b, (a, b) ∈ l.
Proof.
  rewrite list_elem_of_fmap. split; [intros ([x b] & -> & H); eauto|]. intros [b H]. by exists (a, b).
Qed.

Lemma elem_of_pair_snd {A B} (l : list (A * B)) b : b ∈ l.*2 <-> exists a, (a, b) ∈ l.
Proof.
  rewrite list_elem_of_fmap. split; [intros ([a x] & -> & H); eauto|]. intros [a H]. by exists (a, b).
Qed.

Lemma NoDup_snd_inj {A B} (l : list (A * B)) a a' b :
  NoDup l.*2 -> (a, b) ∈ l -> (a', b) ∈ l -> a = a'.
Proof.
  induction l as [|[x y] l IH]; cbn; intros Hnd; [by intros ?%not_elem_of_nil|].
  apply NoDup_cons in Hnd as [Hn Hnd]. rewrite !elem_of_cons.
  intros [H1|H1] [H2|H2]; simplify_eq; try done; [..|by apply IH].
  all: exfalso; apply Hn, elem_of_pair_snd; eauto.
Qed.

(** The numbers a name may be given, over any exact table: its own if the
    protocol has it, one that the protocol does not have otherwise. *)
Lemma resolve_table table namespace (small : Z -> bool) name (explicit : option Z)
    (endpoint : bool) (id : Z) :
  table_exact table namespace ->
  (forall id, 0 <= id -> small id = true <-> id ∈ (table.*2).*2) ->
  NoDup (table.*2).*2 -> Forall (fun e => 0 <= snd (snd e) < 65536) table -> (""%string ∉ (table.*2).*1) ->
  small = (if endpoint then protocol_endpoint_id else protocol_type_id) ->
  from_option (fun i => 0 <= i) True explicit ->
  resolve name explicit (identity_in table namespace name) (small (identity_in table namespace name)) endpoint
    = inl id <->
  name <> ""%string /\ id = default (identity_in table namespace name) explicit /\
  forall pname pid, (pname, pid) ∈ table.*2 -> name = pname <-> id = pid.
Proof.
  intros Ht Hsmall Hnum Hrange Hempty Hsm Hex.
  destruct (identity_in_spec _ _ name Ht) as [Hown Hhash].
  assert (forall n i, (n, i) ∈ table.*2 -> 0 <= i < 65536) as Hr.
  { intros n i Hin. apply list_elem_of_fmap in Hin as ([h e] & He & Hin). rewrite Forall_forall in Hrange.
    apply Hrange in Hin. cbn [fst snd] in He. by subst e. }
  pose proof (name_id_range name namespace) as Hn.
  set (own := identity_in table namespace name) in *.
  assert (0 <= own) as Hpos.
  { destruct (decide (name ∈ (table.*2).*1)) as [Hin|Hno].
    - apply elem_of_pair_fst in Hin as [i Hi]. rewrite (Hown _ Hi). apply Hr in Hi. lia.
    - rewrite Hhash; [lia|]. intros i Hi. apply Hno, elem_of_pair_fst. eauto. }
  assert (0 <= default own explicit) as Hid by (by destruct explicit).
  assert (small own = true <-> exists i, (name, i) ∈ table.*2) as Hname.
  { rewrite Hsmall by done. split.
    - intros Hin. destruct (decide (name ∈ (table.*2).*1)) as [Hin'|Hno]; [by apply elem_of_pair_fst in Hin'|].
      exfalso. rewrite Hhash in Hin.
      + apply elem_of_pair_snd in Hin as [n Hin]. apply Hr in Hin. lia.
      + intros i Hi. apply Hno, elem_of_pair_fst. eauto.
    - intros [i Hi]. rewrite (Hown _ Hi). apply elem_of_pair_snd. eauto. }
  clearbody own. unfold resolve. cbv zeta.
  destruct (String.eqb_spec name "") as [->|Hne]; [split; [done|by intros [? _]]|].
  replace (if endpoint then protocol_endpoint_id (default own explicit)
           else protocol_type_id (default own explicit)) with (small (default own explicit))
    by (rewrite Hsm; by destruct endpoint).
  set (i := default own explicit) in *. clearbody i.
  assert (small i = true -> (small own = true -> i = own) ->
          (small own = true) \/ exists n, (n, i) ∈ table.*2 /\ n <> name) as Hcase.
  { intros Hi _. apply Hsmall in Hi; [|done]. apply elem_of_pair_snd in Hi as [n Hi].
    destruct (decide (n = name)) as [->|]; [left; apply Hname; eauto|eauto]. }
  destruct (small own) eqn:Eo.
  - destruct (proj1 Hname eq_refl) as [o Ho]. pose proof (Hown _ Ho) as Hoo.
    cbn [andb orb negb]. destruct (Z.eqb_spec i own) as [->|Hio]; cbn [andb orb negb].
    + rewrite andb_false_r. split.
      * intros [= <-]. split; [done|]. split; [done|]. intros pn pid Hp. split.
        -- intros <-. by apply Hown.
        -- intros <-. rewrite Hoo in Hp. by eapply (NoDup_snd_inj _ _ _ _ Hnum).
      * intros (_ & -> & _). done.
    + split; [done|]. intros (_ & -> & H). destruct Hio. by rewrite (proj1 (H _ _ Ho) eq_refl).
  - cbn [andb orb negb]. destruct (small i) eqn:Ei; cbn [andb orb negb].
    + split; [done|]. intros (_ & -> & H). destruct (Hcase eq_refl ltac:(done)) as [|(n & Hin & Hnn)]; [done|].
      destruct Hnn. symmetry. by apply (H n i).
    + split.
      * intros [= <-]. split; [done|]. split; [done|]. intros pn pid Hp. split.
        -- intros <-. exfalso. assert (false = true); [|done]. apply Hname. eauto.
        -- intros <-. exfalso. assert (small i = true); [|congruence]. apply Hsmall; [done|].
           apply elem_of_pair_snd. eauto.
      * intros (_ & -> & _). done.
Qed.

(** ** Properties *)

(** Names and numbers.  A protocol name has its protocol number and
    every other name a number from 65536 up, whatever else is known.  A name is
    accepted with a number - the one given, or its own - exactly if the name is
    not empty and the pair mixes no protocol name with a number that is not its
    own, and no protocol number with a name that is not its own. *)
Theorem schema_identity_spec name explicit :
  from_option is_u32 True explicit ->
  (forall id, resolve_type name explicit = inl id <->
     name <> ""%string /\ id = default (type_id name) explicit /\
     forall pname pid, protocol_type_name pname pid -> name = pname <-> id = pid) /\
  (forall id, resolve_endpoint name explicit = inl id <->
     name <> ""%string /\ id = default (endpoint_id name) explicit /\
     forall pname pid, protocol_endpoint_name pname pid -> name = pname <-> id = pid) /\
  (forall pid, protocol_type_name name pid -> type_id name = pid) /\
  (forall pid, protocol_endpoint_name name pid -> endpoint_id name = pid) /\
  ((forall pid, ~ protocol_type_name name pid) -> 65536 <= type_id name < 2 ^ 28) /\
  ((forall pid, ~ protocol_endpoint_name name pid) -> 65536 <= endpoint_id name < 2 ^ 28).
Proof.
  intros Hex. destruct reserved_names_nonempty as [Hne Hnt].
  destruct (identity_in_spec _ _ name reserved_types_exact) as [Ht Htn].
  destruct (identity_in_spec _ _ name reserved_endpoints_exact) as [He Hen].
  split; [|split; [|split; [|split; [|split]]]]; [| |done|done| |].
  - intros id. apply (resolve_table reserved_types 21593 protocol_type_id name explicit false id);
      [apply reserved_types_exact|apply protocol_type_numbers| | |done|done|destruct explicit; [apply Hex|done]].
    + apply (bool_decide_unpack _). by vm_compute.
    + repeat constructor; cbn; lia.
  - intros id.
    apply (resolve_table reserved_endpoints 17744 protocol_endpoint_id name explicit true id);
      [apply reserved_endpoints_exact|intros; apply protocol_endpoint_numbers| | |done|done
      |destruct explicit; [apply Hex|done]].
    + apply (bool_decide_unpack _). by vm_compute.
    + repeat constructor; cbn; lia.
  - intros Hno. unfold type_id. rewrite Htn by done. apply name_id_range.
  - intros Hno. unfold endpoint_id. rewrite Hen by done. apply name_id_range.
Qed.

Lemma schema_identity_spec_witness :
  resolve_type "GPS_DATA" (Some 100) = inl 100 /\ resolve_type "GPS_DATA" (Some 7) <> inl 7 /\
  resolve_endpoint "SEDSNET_DISCOVERY" None = inl 201.
Proof.
  split; [|split].
  - apply (proj2 (proj1 (schema_identity_spec "GPS_DATA" (Some 100) ltac:(cbn; solve_u)) 100)).
    split; [done|]. split; [done|]. intros pn pid Hp. unfold protocol_type_name in Hp.
    cbn in Hp. repeat (apply elem_of_cons in Hp as [[= -> ->]|Hp]; [split; done|]). by apply not_elem_of_nil in Hp.
  - intros H. apply (proj1 (schema_identity_spec "GPS_DATA" (Some 7) ltac:(cbn; solve_u))) in H as (_ & _ & H).
    assert ("GPS_DATA" = "SEDSNET_DISCOVERY_ANNOUNCE")%string; [|done].
    apply (H "SEDSNET_DISCOVERY_ANNOUNCE"%string 7); [|done]. unfold protocol_type_name.
    apply (bool_decide_unpack _). by vm_compute.
  - by vm_compute.
Defined.
