(* ===== verification/Packet.v ===== *)
(** * Packets (src/src/packet.rs)

    The packet record, the validation of a payload against its schema element,
    the sender address and packet-ID hashes, the endpoint normalisation they
    share with the wire format, and the typed little-endian payload access.
    The payload container is its bytes; the process-global nonce counter is
    passed explicitly. *)

From S2P Require Import Prelude Schema.

Open Scope Z_scope.

(** ** The packet *)

Record Packet : Type := {
  ty : DataType;
  data_size : Z;
  sender : bytes;
  pkt_endpoints : list DataEndpoint;
  timestamp : Z;
  nonce : Z;
  payload : bytes;
  wire_shape : option MessageElement;
  wire_target_senders_opt : option (list Z);
}.

#[export] Instance Packet_eq_dec : EqDecision Packet.
Proof. solve_decision. Defined.

(** [Packet::wire_target_senders]. *)
Definition wire_target_senders (p : Packet) : list Z :=
  default [] (wire_target_senders_opt p).

(** The process-global nonce generator: counter before, nonce and counter after. *)
Definition next_packet_nonce (counter : Z) : Z * Z :=
  let x := counter in
  let counter := wrap32 (counter + 2654435769) in
  let x := Z.lxor x (wrap32 (Z.shiftl x 13)) in
  let x := Z.lxor x (Z.shiftr x 17) in
  let x := Z.lxor x (wrap32 (Z.shiftl x 5)) in
  (Z.lor (x mod 65536) 1, counter).

(** ** Payload validation *)

Definition element_width (dt : MessageDataType) : Z :=
  match dt with
  | UInt8 | Int8 | TBool => 1
  | UInt16 | Int16 => 2
  | UInt32 | Int32 | Float32 => 4
  | UInt64 | Int64 | Float64 => 8
  | UInt128 | Int128 => 16
  | TString | Binary => 1
  | NoData => 0
  end.

Definition in_range (lo hi b : Z) : bool := (lo <=? b) && (b <=? hi).
Definition utf8_cont (b : Z) : bool := in_range 128 191 b.

(** [core::str::from_utf8(..).is_ok()]: well-formed UTF-8. *)
Fixpoint utf8_valid (l : bytes) : bool :=
  match l with
  | [] => true
  | b0 :: l0 =>
      if b0 <? 128 then utf8_valid l0
      else match l0 with
      | [] => false
      | b1 :: l1 =>
          if in_range 194 223 b0 then utf8_cont b1 && utf8_valid l1
          else match l1 with
          | [] => false
          | b2 :: l2 =>
              if b0 =? 224 then in_range 160 191 b1 && utf8_cont b2 && utf8_valid l2
              else if b0 =? 237 then in_range 128 159 b1 && utf8_cont b2 && utf8_valid l2
              else if in_range 225 239 b0 then utf8_cont b1 && utf8_cont b2 && utf8_valid l2
              else match l2 with
              | [] => false
              | b3 :: l3 =>
                  if b0 =? 240 then
                    in_range 144 191 b1 && utf8_cont b2 && utf8_cont b3 && utf8_valid l3
                  else if b0 =? 244 then
                    in_range 128 143 b1 && utf8_cont b2 && utf8_cont b3 && utf8_valid l3
                  else if in_range 241 243 b0 then
                    utf8_cont b1 && utf8_cont b2 && utf8_cont b3 && utf8_valid l3
                  else false
              end
          end
      end
  end.

(** [iter().rposition(|b| b != 0).map(|i| i + 1).unwrap_or(0)]. *)
Fixpoint nonzero_end (l : bytes) : nat :=
  match l with
  | [] => 0
  | b :: l =>
      match nonzero_end l with
      | O => if b =? 0 then 0 else 1
      | n => S n
      end
  end.

Definition validate_dynamic_len_and_content_for_element (e : MessageElement) (l : bytes)
    : result unit :=
  match data_type e with
  | TString =>
      let n := nonzero_end l in
      if (0 <? n)%nat && negb (utf8_valid (take n l)) then Err InvalidUtf8 else Ok tt
  | Binary => Ok tt
  | dt =>
      let w := element_width dt in
      if (w =? 0) || negb (zlen l mod w =? 0) then Err (SizeMismatch w (zlen l)) else Ok tt
  end.

(** [need * data_type_size(dt)] is a plain [usize] multiplication: without
    overflow checks it wraps. *)
Definition validate_payload_against_element (tun : Tuning) (e : MessageElement) (l : bytes)
    : result unit :=
  match e with
  | Static need dt _ =>
      let need := wrap64 (need * data_type_size tun dt) in
      if negb (zlen l =? need) then Err (SizeMismatch need (zlen l)) else Ok tt
  | Dynamic _ _ => validate_dynamic_len_and_content_for_element e l
  end.

(** ** Construction *)

Definition effective_element_of (reg : Registry) (ty : DataType)
    (shape : option MessageElement) : MessageElement :=
  match shape with Some e => e | None => element (message_meta reg ty) end.

Definition new_with_owned_wire_contract (reg : Registry) (tun : Tuning)
    (ty : DataType) (eps : list DataEndpoint) (sender : bytes) (timestamp nonce : Z)
    (payload : bytes) (shape : option MessageElement) (targets : option (list Z))
    : result Packet :=
  match eps with
  | [] => Err EmptyEndpoints
  | _ =>
      let e := effective_element_of reg ty shape in
      _ ← validate_payload_against_element tun e payload;
      Ok {| ty := ty; data_size := zlen payload; sender := sender; pkt_endpoints := eps;
            timestamp := timestamp; nonce := nonce; payload := payload;
            wire_shape := shape; wire_target_senders_opt := targets |}
  end.

Definition new_with_nonce (reg : Registry) (tun : Tuning) (ty : DataType)
    (eps : list DataEndpoint) (sender : bytes) (timestamp nonce : Z) (payload : bytes)
    : result Packet :=
  new_with_owned_wire_contract reg tun ty eps sender timestamp nonce payload None None.

(** [Packet::new]: the nonce comes from the process-global counter. *)
Definition packet_new (reg : Registry) (tun : Tuning) (counter : Z) (ty : DataType)
    (eps : list DataEndpoint) (sender : bytes) (timestamp : Z) (payload : bytes)
    : result Packet * Z :=
  let '(n, counter) := next_packet_nonce counter in
  (new_with_nonce reg tun ty eps sender timestamp n payload, counter).

Definition effective_element (reg : Registry) (p : Packet) : MessageElement :=
  effective_element_of reg (ty p) (wire_shape p).

(** [Packet::validate]. *)
Definition validate (reg : Registry) (tun : Tuning) (p : Packet) : result unit :=
  match pkt_endpoints p with
  | [] => Err EmptyEndpoints
  | _ =>
      if negb (zlen (payload p) =? data_size p)
      then Err (SizeMismatch (data_size p) (zlen (payload p)))
      else validate_payload_against_element tun (effective_element reg p) (payload p)
  end.

(** [Packet::read_payload_range]: the bytes copied to [out]. *)
Definition read_payload_range (p : Packet) (offset out_len : Z) : result bytes :=
  match checked_add offset out_len with
  | Some n =>
      if n <=? data_size p
      then Ok (take (Z.to_nat out_len) (drop (Z.to_nat offset) (payload p)))
      else Err (Unpack "payload range out of bounds")
  | None => Err (Unpack "payload range out of bounds")
  end.

(** ** Endpoint sets *)

Fixpoint list_min (l : list Z) : option Z :=
  match l with
  | [] => None
  | x :: l => match list_min l with None => Some x | Some y => Some (Z.min x y) end
  end.

(** One call of the iterator closure: the least endpoint above [previous]. *)
Definition next_endpoint (eps : list DataEndpoint) (previous : option DataEndpoint)
    : option DataEndpoint :=
  list_min
    (List.filter (fun e => match previous with None => true | Some p => p <? e end) eps).

Fixpoint unique_sorted_loop (n : nat) (eps : list DataEndpoint)
    (previous : option DataEndpoint) : list DataEndpoint :=
  match n with
  | O => []
  | S n =>
      match next_endpoint eps previous with
      | None => []
      | Some e => e :: unique_sorted_loop n eps (Some e)
      end
  end.

(** Every element is produced at most once, so [length eps] rounds drain the
    iterator. *)
Definition unique_sorted_endpoints (eps : list DataEndpoint) : list DataEndpoint :=
  unique_sorted_loop (length eps) eps None.

(** [windows(2).all(|pair| pair[0] < pair[1])]. *)
Fixpoint strictly_ascending (l : list Z) : bool :=
  match l with
  | x :: (y :: _) as tl => (x <? y) && strictly_ascending tl
  | _ => true
  end.

(** ** Hashes *)

Definition hash_byte (h b : Z) : Z :=
  let h := Z.lxor h b in
  let h := wrap64 (h * 2654435761) in
  Z.lxor h (Z.shiftr h 27).

Definition hash_bytes_u64 (h : Z) (l : bytes) : Z := foldl hash_byte h l.

(** [str::parse::<u32>]: an optional plus sign, then decimal digits in range. *)
Fixpoint parse_digits (l : bytes) (acc : Z) : option Z :=
  match l with
  | [] => Some acc
  | b :: l =>
      if in_range 48 57 b then
        let acc := acc * 10 + (b - 48) in
        if acc <=? u32_max then parse_digits l acc else None
      else None
  end.

Definition parse_u32 (l : bytes) : option Z :=
  match l with
  | [] => None
  | b :: tl =>
      if b =? 43 then match tl with [] => None | _ => parse_digits tl 0 end
      else parse_digits l 0
  end.

Fixpoint strip_prefix (prefix l : bytes) : option bytes :=
  match prefix, l with
  | [], _ => Some l
  | x :: prefix, y :: l => if x =? y then strip_prefix prefix l else None
  | _ :: _, [] => None
  end.

Definition addr_prefix : bytes := str "@addr:".

Definition sender_address_u32 (sender : bytes) : Z :=
  match strip_prefix addr_prefix sender ≫= parse_u32 with
  | Some address => address
  | None =>
      let raw := wrap32 (hash_bytes_u64 12021105905010416101 sender) in
      if raw =? 0 then 1 else raw
  end.

(** The digits of a [u32], most significant first (at most ten). *)
Fixpoint decimal_loop (n : nat) (remaining : Z) (acc : bytes) : bytes :=
  match n with
  | O => acc
  | S n =>
      let acc := 48 + remaining mod 10 :: acc in
      let remaining := remaining / 10 in
      if remaining =? 0 then acc else decimal_loop n remaining acc
  end.

Definition format_sender_address (addr : Z) : bytes :=
  addr_prefix ++ decimal_loop 10 addr [].

Definition packet_id_header (p : Packet) : Z :=
  let h := 11400714819323198485 in
  let h := hash_bytes_u64 h (le_bytes 4 (sender_address_u32 (sender p))) in
  let h := hash_bytes_u64 h (le_bytes 4 (ty p)) in
  let eps := if strictly_ascending (pkt_endpoints p) then pkt_endpoints p
             else unique_sorted_endpoints (pkt_endpoints p) in
  let h := foldl (fun h ep => hash_bytes_u64 h (le_bytes 4 ep)) h eps in
  let h := hash_bytes_u64 h (le_bytes 8 (timestamp p)) in
  let h := hash_bytes_u64 h (le_bytes 2 (nonce p)) in
  hash_bytes_u64 h (le_bytes 8 (data_size p)).

Definition packet_id (p : Packet) : Z := hash_bytes_u64 (packet_id_header p) (payload p).

(** ** Typed payloads (unsigned integers of [w] bytes) *)

Definition ensure_kind (reg : Registry) (tun : Tuning) (p : Packet)
    (expected : MessageDataType) : result unit :=
  let dt := data_type (effective_element reg p) in
  if decide (dt = expected) then Ok tt
  else Err (TypeMismatch (data_type_size tun expected) (data_type_size tun dt)).

(** [chunks_exact(w)] decoded with [from_le]; [fuel] is the chunk count. *)
Fixpoint chunks_le (fuel w : nat) (l : bytes) : list Z :=
  match fuel with
  | O => []
  | S fuel => from_le (take w l) :: chunks_le fuel w (drop w l)
  end.

Definition as_le_bytes (reg : Registry) (tun : Tuning) (p : Packet)
    (kind : MessageDataType) (w : nat) : result (list Z) :=
  _ ← ensure_kind reg tun p kind;
  let len := length (payload p) in
  if negb (len mod w =? 0)%nat
  then Err (SizeMismatch (Z.of_nat (len / w * w)) (Z.of_nat len))
  else Ok (chunks_le (len / w) w (payload p)).

Definition data_as_u64 (reg : Registry) (tun : Tuning) (p : Packet) : result (list Z) :=
  as_le_bytes reg tun p UInt64 8.

Definition from_prim_le_slice_with_sender (reg : Registry) (tun : Tuning) (counter : Z)
    (w : nat) (ty : DataType) (values : list Z) (eps : list DataEndpoint)
    (sender : bytes) (timestamp : Z) : result Packet * Z :=
  let dt := data_type (element (get_message_meta reg ty)) in
  match dt with
  | TBool | TString | Binary => (Err BadArg, counter)
  | _ =>
      let element_size := data_type_size tun dt in
      if negb (element_size =? Z.of_nat w)
      then (Err (TypeMismatch element_size (Z.of_nat w)), counter)
      else
        let total_bytes := wrap64 (zlen values * element_size) in
        let build := packet_new reg tun counter ty eps sender timestamp
                       (concat (map (le_bytes w) values)) in
        match element (message_meta reg ty) with
        | Static exact _ _ =>
            let exact_bytes := wrap64 (exact * element_size) in
            if negb (total_bytes =? exact_bytes)
            then (Err (SizeMismatch exact_bytes total_bytes), counter)
            else build
        | Dynamic _ _ => build
        end
  end.

(** ** Endpoint sets: facts *)

(** Strictly ascending lists, as a proposition. *)
Abbreviation ascending := (StronglySorted Z.lt).

Lemma list_min_spec l :
  match list_min l with
  | None => l = []
  | Some x => x ∈ l /\ Forall (Z.le x) l
  end.
Proof.
  induction l as [|x l IH]; simpl; [done|].
  destruct (list_min l) as [y|]; [|subst; repeat constructor; lia].
  destruct IH as [Hin Hall]. split.
  - destruct (Z.min_spec x y) as [[_ ->]|[_ ->]]; [left|by right].
  - constructor; [lia|]. eapply Forall_impl; [done|]. intros; lia.
Qed.

Definition above (previous : option DataEndpoint) (e : DataEndpoint) : Prop :=
  match previous with None => True | Some p => p < e end.

Lemma elem_of_filter_above eps previous x :
  x ∈ List.filter (fun e => match previous with None => true | Some p => p <? e end) eps
  <-> x ∈ eps /\ above previous x.
Proof.
  rewrite !list_elem_of_In, filter_In. destruct previous; simpl; [|naive_solver].
  by rewrite Z.ltb_lt.
Qed.

Lemma next_endpoint_spec eps previous :
  match next_endpoint eps previous with
  | None => forall x, x ∈ eps -> ~ above previous x
  | Some e => e ∈ eps /\ above previous e /\
              forall x, x ∈ eps -> above previous x -> e <= x
  end.
Proof.
  unfold next_endpoint. pose proof (list_min_spec
    (List.filter (fun e => match previous with None => true | Some p => p <? e end) eps)) as H.
  destruct (list_min _) as [e|].
  - destruct H as [Hin Hall]. apply elem_of_filter_above in Hin as [? ?].
    split; [done|]. split; [done|]. intros x Hx Ha.
    rewrite Forall_forall in Hall. apply Hall. by apply elem_of_filter_above.
  - intros x Hx Ha. assert (x ∈ @nil Z) as Hn; [|by apply not_elem_of_nil in Hn].
    rewrite <- H. by apply elem_of_filter_above.
Qed.

(** How many entries of [eps] the iterator has still to pass. *)
Definition pending (eps : list DataEndpoint) (previous : option DataEndpoint) : nat :=
  length (List.filter (fun e => match previous with None => true | Some p => p <? e end) eps).

Lemma filter_length_lt {A} (f g : A -> bool) l x :
  (forall y, g y = true -> f y = true) -> In x l -> f x = true -> g x = false ->
  (length (List.filter g l) < length (List.filter f l))%nat.
Proof.
  intros Himp. induction l as [|y l IH]; [done|]. simpl. intros [->|Hin] Hf Hg.
  - rewrite Hf, Hg. simpl. apply Nat.lt_succ_r. clear IH.
    induction l as [|z l IH]; simpl; [done|].
    destruct (g z) eqn:Eg; [rewrite (Himp z Eg); simpl; lia|].
    destruct (f z); simpl; lia.
  - specialize (IH Hin Hf Hg). destruct (g y) eqn:Eg; [rewrite (Himp y Eg); simpl; lia|].
    destruct (f y); simpl; lia.
Qed.

Lemma pending_step eps previous e :
  next_endpoint eps previous = Some e -> (pending eps (Some e) < pending eps previous)%nat.
Proof.
  intros H. pose proof (next_endpoint_spec eps previous) as Hs. rewrite H in Hs.
  destruct Hs as (Hin & Ha & Hleast). apply (filter_length_lt _ _ _ e).
  - intros y Hy. destruct previous as [p|]; [|done]. simpl in Ha.
    apply Z.ltb_lt in Hy. apply Z.ltb_lt. lia.
  - by apply list_elem_of_In.
  - destruct previous as [p|]; [|done]. by apply Z.ltb_lt.
  - apply Z.ltb_irrefl.
Qed.

Lemma unique_sorted_loop_spec n eps previous :
  (pending eps previous <= n)%nat ->
  ascending (unique_sorted_loop n eps previous) /\
  (forall x, x ∈ unique_sorted_loop n eps previous <-> x ∈ eps /\ above previous x).
Proof.
  revert previous. induction n as [|n IH]; intros previous Hn; simpl.
  - split; [constructor|]. intros x. split; [by intros ?%not_elem_of_nil|].
    intros Hx%elem_of_filter_above. unfold pending in Hn.
    destruct (List.filter _ eps); [done|simpl in Hn; lia].
  - pose proof (next_endpoint_spec eps previous) as Hs.
    destruct (next_endpoint eps previous) as [e|] eqn:E.
    + destruct Hs as (Hin & Ha & Hleast). apply pending_step in E.
      destruct (IH (Some e)) as [Hsort Hmem]; [lia|]. split.
      * constructor; [done|]. apply Forall_forall. intros x Hx. by apply Hmem in Hx as [_ ?].
      * intros x. rewrite elem_of_cons, Hmem. simpl. split.
        -- intros [->|[Hx Hlt]]; [done|]. split; [done|].
           destruct previous; simpl in *; lia.
        -- intros [Hx Hax]. specialize (Hleast x Hx Hax).
           destruct (decide (x = e)); [by left|]. right. split; [done|lia].
    + split; [constructor|]. intros x. split; [by intros ?%not_elem_of_nil|].
      intros [Hx Hax]. by destruct (Hs x Hx).
Qed.

Lemma unique_sorted_spec eps :
  ascending (unique_sorted_endpoints eps) /\
  (forall x, x ∈ unique_sorted_endpoints eps <-> x ∈ eps).
Proof.
  destruct (unique_sorted_loop_spec (length eps) eps None) as [Hs Hm].
  { unfold pending. apply filter_length_le. }
  split; [done|]. intros x. unfold unique_sorted_endpoints. rewrite Hm. simpl. naive_solver.
Qed.

(** A set has one strictly ascending enumeration. *)
Lemma ascending_unique (l k : list Z) :
  ascending l -> ascending k -> (forall x, x ∈ l <-> x ∈ k) -> l = k.
Proof.
  intros Hl. revert k. induction Hl as [|x l Hl IH Hx]; intros k Hk Hm.
  - destruct k as [|y k]; [done|]. destruct (Hm y) as [_ H].
    exfalso. eapply not_elem_of_nil, H. by left.
  - destruct Hk as [|y k Hk Hy].
    { destruct (Hm x) as [H _]. exfalso. eapply not_elem_of_nil, H. by left. }
    rewrite Forall_forall in Hx, Hy.
    assert (x = y) as ->.
    { assert (x ∈ y :: k) as [->|Hxk]%elem_of_cons by (apply Hm; by left); [done|].
      assert (y ∈ x :: l) as [->|Hyl]%elem_of_cons by (apply Hm; by left); [done|].
      apply Hy in Hxk. apply Hx in Hyl. lia. }
    f_equal. apply IH; [done|]. intros z. specialize (Hm z). rewrite !elem_of_cons in Hm.
    split; intros Hz.
    + destruct (proj1 Hm (or_intror Hz)) as [->|]; [|done]. apply Hx in Hz. lia.
    + destruct (proj2 Hm (or_intror Hz)) as [->|]; [|done]. apply Hy in Hz. lia.
Qed.

Lemma strictly_ascending_spec l : strictly_ascending l = true <-> ascending l.
Proof.
  induction l as [|x l IH]; [split; [constructor|done]|].
  destruct l as [|y l]; [split; repeat constructor|].
  change (strictly_ascending (x :: y :: l)) with ((x <? y) && strictly_ascending (y :: l)).
  rewrite andb_true_iff, IH, Z.ltb_lt. split.
  - intros [Hxy Hs]. constructor; [done|]. inversion Hs; subst. constructor; [done|].
    eapply Forall_impl; [done|]. intros; lia.
  - intros Hs. inversion Hs as [|? ? Hs' Hall]; subst. split; [|done]. by inversion Hall.
Qed.

Lemma unique_sorted_ascending eps : ascending eps -> unique_sorted_endpoints eps = eps.
Proof.
  intros H. destruct (unique_sorted_spec eps) as [Hs Hm]. by apply ascending_unique.
Qed.

Lemma unique_sorted_same_set eps eps' :
  (forall x, x ∈ eps <-> x ∈ eps') ->
  unique_sorted_endpoints eps = unique_sorted_endpoints eps'.
Proof.
  intros H. destruct (unique_sorted_spec eps) as [Hs Hm].
  destruct (unique_sorted_spec eps') as [Hs' Hm'].
  apply ascending_unique; [done..|]. intros x. by rewrite Hm, Hm', H.
Qed.

Lemma id_endpoints_unique_sorted eps :
  (if strictly_ascending eps then eps else unique_sorted_endpoints eps)
  = unique_sorted_endpoints eps.
Proof.
  destruct (strictly_ascending eps) eqn:E; [|done].
  symmetry. by apply unique_sorted_ascending, strictly_ascending_spec.
Qed.

(** ** Hashes and addresses: facts *)

Lemma hash_byte_range h b : is_u64 (hash_byte h b).
Proof.
  unfold hash_byte. set (x := wrap64 _). assert (is_u64 x) as Hx by apply wrap64_range.
  assert (0 <= Z.shiftr x 27 < 2 ^ 64).
  { rewrite Z.shiftr_div_pow2 by lia. split; [apply Z.div_pos; solve_u|].
    apply Z.div_lt_upper_bound; solve_u. }
  assert (0 <= Z.lxor x (Z.shiftr x 27)) by (apply Z.lxor_nonneg; solve_u).
  destruct (decide (Z.lxor x (Z.shiftr x 27) = 0)) as [->|]; [solve_u|].
  assert (Z.lxor x (Z.shiftr x 27) < 2 ^ 64); [|solve_u].
  apply Z.log2_lt_pow2; [lia|].
  eapply Z.le_lt_trans; [apply Z.log2_lxor; solve_u|].
  apply Z.max_lub_lt.
  - destruct (decide (x = 0)) as [->|]; [done|]. apply Z.log2_lt_pow2; solve_u.
  - destruct (decide (Z.shiftr x 27 = 0)) as [->|]; [done|]. apply Z.log2_lt_pow2; lia.
Qed.

Lemma hash_bytes_u64_range h l : is_u64 h -> is_u64 (hash_bytes_u64 h l).
Proof.
  unfold hash_bytes_u64. revert h. induction l as [|b l IH]; intros h Hh; simpl; [done|].
  apply IH, hash_byte_range.
Qed.

Lemma sender_address_range s : is_u32 (sender_address_u32 s).
Proof.
  unfold sender_address_u32. case_match eqn:E.
  - apply bind_Some in E as (l & _ & E).
    assert (forall l acc z, 0 <= acc <= u32_max -> parse_digits l acc = Some z -> is_u32 z)
      as Hd.
    { clear. induction l as [|b l IH]; intros acc z Hacc; simpl; [by intros [= <-]|].
      unfold in_range. repeat case_match; try done. bool_to_prop.
      apply IH. solve_u. }
    unfold parse_u32 in E. repeat case_match; try done; eapply Hd; try done; solve_u.
  - case_match; [solve_u|]. apply wrap32_range.
Qed.

Lemma parse_digit d l acc :
  0 <= d < 10 -> acc * 10 + d <= u32_max ->
  parse_digits (48 + d :: l) acc = parse_digits l (acc * 10 + d).
Proof.
  intros Hd Hfit. cbn [parse_digits]. unfold in_range.
  replace (48 + d - 48) with d by lia. by rewrite !(proj2 (Z.leb_le _ _)) by lia.
Qed.

Lemma parse_decimal n a tl :
  (1 <= n)%nat -> 0 <= a < 10 ^ Z.of_nat n -> a <= u32_max ->
  parse_digits (decimal_loop n a tl) 0 = parse_digits tl a.
Proof.
  revert a tl. induction n as [|n IH]; intros a tl Hn Ha Hmax; [lia|].
  cbn [decimal_loop]. pose proof (Z.mod_pos_bound a 10 ltac:(lia)).
  pose proof (Z.div_mod a 10 ltac:(lia)).
  rewrite Nat2Z.inj_succ, Z.pow_succ_r in Ha by lia.
  destruct (Z.eqb_spec (a / 10) 0) as [E|E].
  - rewrite parse_digit by lia. f_equal. lia.
  - assert (n <> O) by (intros ->; change (10 ^ Z.of_nat 0) with 1 in Ha; apply E;
      apply Z.div_small; lia).
    rewrite IH; [rewrite parse_digit by lia; f_equal; lia|lia| |lia].
    split; [apply Z.div_pos; lia|]. apply Z.div_lt_upper_bound; lia.
Qed.

Lemma decimal_head n a tl :
  0 <= a -> exists d rest, decimal_loop (S n) a tl = 48 + d :: rest /\ 0 <= d < 10.
Proof.
  revert a tl. induction n as [|n IH]; intros a tl Ha;
    pose proof (Z.mod_pos_bound a 10 ltac:(lia)).
  - exists (a mod 10), tl. simpl. by destruct (a / 10 =? 0).
  - change (decimal_loop (S (S n)) a tl) with
      (if a / 10 =? 0 then 48 + a mod 10 :: tl
       else decimal_loop (S n) (a / 10) (48 + a mod 10 :: tl)).
    destruct (a / 10 =? 0); [by eauto|]. apply IH, Z.div_pos; lia.
Qed.

Lemma sender_address_alias a :
  is_u32 a -> sender_address_u32 (format_sender_address a) = a.
Proof.
  intros Ha. unfold sender_address_u32, format_sender_address.
  assert (forall l, strip_prefix addr_prefix (addr_prefix ++ l) = Some l) as ->.
  { intros l. generalize addr_prefix as p. induction p as [|x p IH]; simpl; [done|].
    by rewrite Z.eqb_refl. }
  change (Some ?x ≫= parse_u32) with (parse_u32 x).
  assert (parse_u32 (decimal_loop 10 a []) = Some a) as ->; [|done].
  pose proof (parse_decimal 10 a [] ltac:(lia)) as Hp.
  destruct (decimal_head 9 a []) as (d & rest & Hl & Hd); [solve_u|].
  rewrite Hl in *. unfold parse_u32. destruct (Z.eqb_spec (48 + d) 43); [lia|].
  rewrite Hp; [done|solve_u|solve_u].
Qed.

(** ** Typed payloads: facts *)

Lemma chunks_le_concat w values :
  Forall (fun v => 0 <= v < 256 ^ Z.of_nat w) values ->
  chunks_le (length values) w (concat (map (le_bytes w) values)) = values.
Proof.
  induction 1 as [|v l Hv Hl IH]; simpl; [done|].
  rewrite take_app_length', drop_app_length' by (symmetry; apply length_le_bytes).
  by rewrite from_le_bytes, IH.
Qed.

Lemma length_concat_le w values :
  length (concat (map (le_bytes w) values)) = (length values * w)%nat.
Proof.
  induction values as [|v l IH]; simpl; [done|].
  by rewrite length_app, length_le_bytes, IH.
Qed.

(** What a constructed packet holds. *)
Lemma new_with_nonce_ok reg tun ty0 eps snd ts n pl p :
  new_with_nonce reg tun ty0 eps snd ts n pl = Ok p ->
  payload p = pl /\ ty p = ty0 /\ wire_shape p = None.
Proof.
  unfold new_with_nonce, new_with_owned_wire_contract. destruct eps; [done|].
  rewrite result_bind_ok. by intros (? & ? & [= <-]).
Qed.

Lemma from_prim_ok reg tun counter w ty0 values eps snd ts p counter' :
  from_prim_le_slice_with_sender reg tun counter w ty0 values eps snd ts = (Ok p, counter') ->
  payload p = concat (map (le_bytes w) values) /\ ty p = ty0 /\ wire_shape p = None.
Proof.
  unfold from_prim_le_slice_with_sender, packet_new.
  destruct (next_packet_nonce counter) as [n c].
  repeat (case_match; try done); intros [= Hnew _]; by eapply new_with_nonce_ok.
Qed.

(** A payload of 64-bit words reads back as the words. *)
Lemma data_as_u64_words reg tun p values :
  Forall is_u64 values -> data_type (effective_element reg p) = UInt64 ->
  payload p = concat (map (le_bytes 8) values) -> data_as_u64 reg tun p = Ok values.
Proof.
  intros Hv Hdt Hp. unfold data_as_u64, as_le_bytes, ensure_kind. rewrite Hdt, decide_True by done.
  cbn [mbind result_bind]. rewrite Hp, length_concat_le, Nat.Div0.mod_mul, Nat.div_mul by lia. simpl.
  f_equal. apply chunks_le_concat. eapply Forall_impl; [done|].
  intros. change (256 ^ Z.of_nat 8) with (2 ^ 64). solve_u.
Qed.

(** Words of a type with a static count of 64-bit words make a packet. *)
Lemma packet_new_words reg tun counter ty0 n cls values eps snd ts :
  element (message_meta reg ty0) = Static n UInt64 cls -> zlen values = n -> 8 * n < 2 ^ 64 ->
  eps <> [] ->
  exists p c, packet_new reg tun counter ty0 eps snd ts (concat (map (le_bytes 8) values)) = (Ok p, c) /\
    ty p = ty0 /\ sender p = snd /\ timestamp p = ts /\ pkt_endpoints p = eps /\
    payload p = concat (map (le_bytes 8) values) /\ wire_shape p = None.
Proof.
  intros He Hn Hb Heps. unfold packet_new, new_with_nonce, new_with_owned_wire_contract.
  destruct (next_packet_nonce counter) as [nn c]. destruct eps as [|e eps]; [done|].
  unfold effective_element_of. rewrite He. cbn [validate_payload_against_element data_type_size].
  assert (zlen (concat (map (le_bytes 8) values)) = n * 8) as Hl.
  { unfold zlen in *. rewrite length_concat_le. lia. }
  rewrite Hl, wrap64_small, Z.eqb_refl by solve_u. cbn [negb mbind result_bind].
  eexists _, _. split; [done|]. done.
Qed.

(** ** Properties *)

(** The packet ID depends on the endpoints only as a set: neither the
    order of the list nor repeated entries change it. *)
Theorem packet_id_endpoint_set p eps :
  (forall x, x ∈ pkt_endpoints p <-> x ∈ eps) ->
  packet_id {| ty := ty p; data_size := data_size p; sender := sender p;
               pkt_endpoints := eps; timestamp := timestamp p; nonce := nonce p;
               payload := payload p; wire_shape := wire_shape p;
               wire_target_senders_opt := wire_target_senders_opt p |} = packet_id p.
Proof.
  intros Hset. unfold packet_id, packet_id_header; simpl.
  by rewrite !id_endpoints_unique_sorted, (unique_sorted_same_set eps (pkt_endpoints p))
    by (intros; symmetry; apply Hset).
Qed.

Definition sample_packet : Packet :=
  {| ty := 100; data_size := 2; sender := str "ROCKET"; pkt_endpoints := [7; 3; 7];
     timestamp := 1000; nonce := 77; payload := [1; 2]; wire_shape := None;
     wire_target_senders_opt := None |}.

Lemma packet_id_endpoint_set_witness :
  packet_id {| ty := 100; data_size := 2; sender := str "ROCKET"; pkt_endpoints := [3; 7];
     timestamp := 1000; nonce := 77; payload := [1; 2]; wire_shape := None;
     wire_target_senders_opt := None |} = packet_id sample_packet.
Proof.
  apply (packet_id_endpoint_set sample_packet [3; 7]). simpl. intros x.
  rewrite !elem_of_cons. naive_solver.
Defined.

(** The alias text printed for an address the receiver has no name
    for denotes that same address, for every 32-bit address. *)
Theorem sender_alias_roundtrip a :
  is_u32 a -> sender_address_u32 (format_sender_address a) = a.
Proof. apply sender_address_alias. Qed.

Lemma sender_alias_roundtrip_witness :
  sender_address_u32 (format_sender_address 4294967295) = 4294967295.
Proof. apply (sender_alias_roundtrip 4294967295). solve_u. Defined.

(** Construction with a wire contract succeeds exactly when there is an
    endpoint and the payload satisfies the effective element; the packet it
    returns carries the arguments unchanged, records the payload length as its
    size and passes [validate]. *)
Theorem new_with_owned_wire_contract_spec reg tun ty0 eps snd ts n pl shape targets :
  match new_with_owned_wire_contract reg tun ty0 eps snd ts n pl shape targets with
  | Ok p =>
      eps <> [] /\
      p = {| ty := ty0; data_size := zlen pl; sender := snd; pkt_endpoints := eps;
             timestamp := ts; nonce := n; payload := pl; wire_shape := shape;
             wire_target_senders_opt := targets |} /\
      validate reg tun p = Ok tt
  | Err EmptyEndpoints => eps = []
  | Err e =>
      eps <> [] /\
      validate_payload_against_element tun (effective_element_of reg ty0 shape) pl = Err e
  end.
Proof.
  unfold new_with_owned_wire_contract, validate, effective_element.
  destruct eps as [|ep eps]; [done|].
  destruct (validate_payload_against_element _ _ pl) as [[]|e] eqn:E; simpl.
  - split; [done|]. split; [done|]. by rewrite Z.eqb_refl.
  - destruct e; try done.
    exfalso. revert E. unfold validate_payload_against_element,
      validate_dynamic_len_and_content_for_element. repeat case_match; naive_solver.
Qed.

(** A slice of [u64] values stored in a packet reads back as the same
    values, through the little-endian payload, for every message type whose
    element is a 64-bit unsigned integer. *)
Theorem u64_slice_roundtrip reg tun counter ty0 values eps snd ts p counter' :
  Forall is_u64 values ->
  data_type (element (get_message_meta reg ty0)) = UInt64 ->
  from_prim_le_slice_with_sender reg tun counter 8 ty0 values eps snd ts = (Ok p, counter') ->
  data_as_u64 reg tun p = Ok values.
Proof.
  intros Hv Hdt H. apply from_prim_ok in H as (Hp & Ht & Hw).
  apply data_as_u64_words; [done| |done]. unfold effective_element, effective_element_of.
  by rewrite Hw, Ht.
Qed.

(** The schema of the sample: one type of two bytes and one of three [u64]. *)
Definition sample_registry : Registry :=
  {| endpoints := [(3, {| em_name := "RADIO"; em_description := EmptyString;
                          link_local_only := false |});
                   (7, {| em_name := "SD_CARD"; em_description := EmptyString;
                          link_local_only := false |})];
     types := [(100, {| mm_name := "GPS"; mm_description := EmptyString;
                        element := Static 2 UInt8 CData; mm_endpoints := [3; 7];
                        reliable := Ordered; priority := 10;
                        e2e_encryption := PreferOff |});
               (101, {| mm_name := "COUNTERS"; mm_description := EmptyString;
                        element := Static 3 UInt64 CData; mm_endpoints := [3];
                        reliable := RNone; priority := 20;
                        e2e_encryption := PreferOff |})];
     next_endpoint_id := 8; next_type_id := 102 |}.

Definition sample_tuning : Tuning :=
  {| payload_compress_threshold := 16; static_string_length := 32;
     static_hex_length := 32 |}.

Definition sample_u64_packet : result Packet * Z :=
  from_prim_le_slice_with_sender sample_registry sample_tuning 5 8 101
    [1; 2; 18446744073709551615] [3] (str "ROCKET") 9.

Lemma u64_slice_roundtrip_witness :
  match sample_u64_packet with
  | (Ok p, _) => data_as_u64 sample_registry sample_tuning p
                 = Ok [1; 2; 18446744073709551615]
  | _ => False
  end.
Proof.
  destruct sample_u64_packet as [[p|e] c] eqn:E; [|by vm_compute in E].
  apply (u64_slice_roundtrip sample_registry sample_tuning 5 101
           [1; 2; 18446744073709551615] [3] (str "ROCKET") 9 p c); [|done|done].
  repeat constructor; solve_u.
Defined.

(** A static element count whose byte size is a multiple of 2^64 passes for an
    empty payload: the multiplication wraps. *)
Lemma static_size_wraps tun c :
  validate_payload_against_element tun (Static (2 ^ 61) UInt64 c) [] = Ok tt.
Proof. by vm_compute. Qed.
