(* ===== verification/SchemaRegistry.v ===== *)
(** * The schema registry (src/src/config.rs)

    The registry keeps the endpoint and data-type definitions a process knows, in
    the order of their numbers.  Both tables have the same operations, written once
    here over [SchemaMeta]: what a table needs to know of the metadata it holds.  A
    definition is a number with its metadata; [Registry] is the value behind the
    registry mutex, passed in and out. *)

From stdpp Require Import list pretty.
From S2P Require Import Prelude Schema SchemaIdentity Packet.

Open Scope Z_scope.

(** ** Definitions and fingerprints *)

Abbreviation OwnedEndpointDefinition := (DataEndpoint * EndpointMeta)%type.
Abbreviation OwnedDataTypeDefinition := (DataType * MessageMeta)%type.

Record OwnedRuntimeSchemaSnapshot : Type := {
  snap_endpoints : list OwnedEndpointDefinition;
  snap_types : list OwnedDataTypeDefinition;
}.

#[export] Instance EndpointMeta_eq_dec : EqDecision EndpointMeta.
Proof. solve_decision. Defined.
#[export] Instance MessageMeta_eq_dec : EqDecision MessageMeta.
Proof. solve_decision. Defined.

Definition FNV_PRIME : Z := 1099511628211.

Definition hash_bytes (h : Z) (l : bytes) : Z := foldl (fun h b => wrap64 (Z.lxor h b * FNV_PRIME)) h l.
Definition hash_u8 (h v : Z) : Z := hash_bytes h [v].
Definition hash_u32 (h v : Z) : Z := hash_bytes h (le_bytes 4 v).
Definition hash_usize (h v : Z) : Z := hash_bytes h (le_bytes 8 v).
Definition bool_u8 (b : bool) : Z := if b then 1 else 0.

Definition hash_message_element (h : Z) (e : MessageElement) : Z :=
  match e with
  | Static count data_type class =>
      let h := hash_u8 h 0 in
      let h := hash_usize h count in
      let h := hash_u8 h (message_data_type_code data_type) in
      hash_u8 h (message_class_code class)
  | Dynamic data_type class =>
      let h := hash_u8 h 1 in
      let h := hash_u8 h (message_data_type_code data_type) in
      hash_u8 h (message_class_code class)
  end.

Definition endpoint_fingerprint (d : OwnedEndpointDefinition) : Z :=
  let h := hash_u32 0x4550444546000001 (fst d) in
  let h := hash_bytes h (str (em_name (snd d))) in
  hash_u8 h (bool_u8 (link_local_only (snd d))).

Definition type_fingerprint (d : OwnedDataTypeDefinition) : Z :=
  let m := snd d in
  let h := hash_u32 0x5459444546000001 (fst d) in
  let h := hash_bytes h (str (mm_name m)) in
  let h := hash_message_element h (element m) in
  let h := hash_u8 h (reliable_code (reliable m)) in
  let h := hash_u8 h (priority m) in
  let h := hash_u8 h (e2e_encryption_policy_code (e2e_encryption m)) in
  foldl hash_u32 h (mm_endpoints m).

(** ** Sorting and deduplication *)

(** The insertion sorts of the source, and [sort_unstable_by_key] (keys are
    unique): the sorted prefix is kept from its end, where the cursor starts. *)
Fixpoint sink {A} (key : A -> Z) (x : A) (rev_prefix : list A) : list A :=
  match rev_prefix with
  | [] => [x]
  | y :: r => if key x <? key y then y :: sink key x r else x :: y :: r
  end.

Definition insertion_sort {A} (key : A -> Z) (l : list A) : list A :=
  rev (foldl (fun r x => sink key x r) [] l).

(** [dedup_by_key]: of neighbours with one key the first stays. *)
Fixpoint dedup_by_key {A} (key : A -> Z) (l : list A) : list A :=
  match l with
  | x :: tl =>
      match dedup_by_key key tl with
      | y :: tl' => if key x =? key y then x :: tl' else x :: y :: tl'
      | [] => [x]
      end
  | [] => []
  end.

Definition sort_by_id {M} (l : list (Z * M)) : list (Z * M) := insertion_sort fst l.

Definition sort_owned_schema (s : OwnedRuntimeSchemaSnapshot) : OwnedRuntimeSchemaSnapshot :=
  {| snap_endpoints := sort_by_id (snap_endpoints s); snap_types := sort_by_id (snap_types s) |}.

Definition dedup_schema (s : OwnedRuntimeSchemaSnapshot) : OwnedRuntimeSchemaSnapshot :=
  {| snap_endpoints := dedup_by_key fst (snap_endpoints s);
     snap_types := dedup_by_key fst (snap_types s) |}.

(** ** Equivalence, winners and merged metadata *)

Definition descriptions_agree (a b : string) : bool :=
  String.eqb a b || String.eqb a "" || String.eqb b "".

Definition endpoint_def_equivalent (a b : OwnedEndpointDefinition) : bool :=
  (fst a =? fst b) && String.eqb (em_name (snd a)) (em_name (snd b))
  && descriptions_agree (em_description (snd a)) (em_description (snd b))
  && Bool.eqb (link_local_only (snd a)) (link_local_only (snd b)).

Definition type_def_equivalent (a b : OwnedDataTypeDefinition) : bool :=
  (fst a =? fst b) && String.eqb (mm_name (snd a)) (mm_name (snd b))
  && descriptions_agree (mm_description (snd a)) (mm_description (snd b))
  && bool_decide (element (snd a) = element (snd b))
  && bool_decide (mm_endpoints (snd a) = mm_endpoints (snd b))
  && bool_decide (reliable (snd a) = reliable (snd b))
  && (priority (snd a) =? priority (snd b))
  && bool_decide (e2e_encryption (snd a) = e2e_encryption (snd b)).

(** [Ord] on a tuple of a fingerprint, a number and a name. *)
Definition winner_key_leb (a b : Z * Z * bytes) : bool :=
  let '(fa, ia, na) := a in
  let '(fb, ib, nb) := b in
  match Z.compare fa fb with
  | Lt => true
  | Gt => false
  | Eq => match Z.compare ia ib with
          | Lt => true
          | Gt => false
          | Eq => match bytes_compare na nb with Gt => false | _ => true end
          end
  end.

Definition endpoint_winner (a b : OwnedEndpointDefinition) : OwnedEndpointDefinition :=
  if winner_key_leb (endpoint_fingerprint a, fst a, str (em_name (snd a)))
                    (endpoint_fingerprint b, fst b, str (em_name (snd b))) then a else b.

Definition type_winner (a b : OwnedDataTypeDefinition) : OwnedDataTypeDefinition :=
  if winner_key_leb (type_fingerprint a, fst a, str (mm_name (snd a)))
                    (type_fingerprint b, fst b, str (mm_name (snd b))) then a else b.

Definition endpoint_placeholder (id : Z) (name : string) : bool :=
  match strip_prefix (str "ENDPOINT_") (str name) ≫= parse_u32 with
  | Some n => n =? id
  | None => false
  end.

Definition endpoint_identity_conflicts (a : Z) (a_name : string) (b : Z) (b_name : string) : bool :=
  if a =? b then
    negb (String.eqb a_name b_name) && negb (endpoint_placeholder a a_name)
    && negb (endpoint_placeholder b b_name)
  else String.eqb a_name b_name.

(** The inline condition of the merge for data types. *)
Definition type_identity_conflicts (a : Z) (a_name : string) (b : Z) (b_name : string) : bool :=
  ((a =? b) || String.eqb a_name b_name) && (negb (a =? b) || negb (String.eqb a_name b_name)).

Definition is_internal_endpoint (ep : DataEndpoint) : bool :=
  one_of ep [ep_TelemetryError; ep_TimeSync; ep_Discovery].

Definition is_internal_data_type (ty : DataType) : bool :=
  one_of ty
    [ty_TelemetryError; ty_ReliableAck; ty_ReliablePacketRequest; ty_ReliablePartialAck;
     ty_TimeSyncAnnounce; ty_TimeSyncRequest; ty_TimeSyncResponse; ty_DiscoveryAnnounce;
     ty_DiscoveryTimeSyncSources; ty_DiscoveryTopology; ty_DiscoverySchema;
     ty_DiscoveryTopologyRequest; ty_DiscoverySchemaRequest; ty_ManagedVariableRequest;
     ty_ManagedVariableValue; ty_DiscoveryLeave; ty_DiscoveryLinkCapabilities;
     ty_DiscoveryAddress; ty_P2pMessage].

Definition merge_endpoint_metadata (a b : OwnedEndpointDefinition) : OwnedEndpointDefinition :=
  let a_name := em_name (snd a) in
  let b_name := em_name (snd b) in
  if is_internal_endpoint (fst a) then a
  else if (fst a =? fst b) && negb (String.eqb a_name b_name)
          && endpoint_placeholder (fst a) a_name && negb (endpoint_placeholder (fst b) b_name) then b
  else if (fst a =? fst b) && negb (String.eqb a_name b_name)
          && endpoint_placeholder (fst b) b_name && negb (endpoint_placeholder (fst a) a_name) then a
  else if negb (fst a =? fst b) || negb (String.eqb a_name b_name) then endpoint_winner a b
  else
    (fst a, {| em_name := a_name; em_description := em_description (snd a);
               link_local_only := link_local_only (snd a) || link_local_only (snd b) |}).

(** The loop over the other's destinations. *)
Fixpoint push_missing (l : list DataEndpoint) (more : list DataEndpoint) : list DataEndpoint :=
  match more with
  | [] => l
  | e :: more => push_missing (if one_of e l then l else l ++ [e]) more
  end.

Definition merge_destinations (a b : list DataEndpoint) : list DataEndpoint :=
  dedup_by_key id (insertion_sort id (push_missing a b)).

Definition merge_type_metadata (a b : OwnedDataTypeDefinition) : OwnedDataTypeDefinition :=
  let ma := snd a in
  let mb := snd b in
  if is_internal_data_type (fst a) then a
  else if negb (fst a =? fst b) || negb (String.eqb (mm_name ma) (mm_name mb))
          || negb (bool_decide (element ma = element mb))
          || negb (bool_decide (reliable ma = reliable mb))
          || negb (bool_decide (e2e_encryption ma = e2e_encryption mb))
  then type_winner a b
  else
    (fst a, {| mm_name := mm_name ma; mm_description := mm_description ma; element := element ma;
               mm_endpoints := merge_destinations (mm_endpoints ma) (mm_endpoints mb);
               reliable := reliable ma; priority := Z.max (priority ma) (priority mb);
               e2e_encryption := e2e_encryption ma |}).

(** ** What a table knows of its metadata *)

Class SchemaMeta (M : Type) : Type := {
  meta_eq_dec :: EqDecision M;
  meta_name : M -> string;
  resolve_identity : string -> option Z -> Z + string;
  identity_conflicts : Z -> string -> Z -> string -> bool;
  def_equivalent : Z * M -> Z * M -> bool;
  merge_metadata : Z * M -> Z * M -> Z * M;
}.

#[export] Instance endpoint_schema : SchemaMeta EndpointMeta :=
  {| meta_name := em_name; resolve_identity := resolve_endpoint;
     identity_conflicts := endpoint_identity_conflicts;
     def_equivalent := endpoint_def_equivalent; merge_metadata := merge_endpoint_metadata |}.

#[export] Instance type_schema : SchemaMeta MessageMeta :=
  {| meta_name := mm_name; resolve_identity := resolve_type;
     identity_conflicts := type_identity_conflicts;
     def_equivalent := type_def_equivalent; merge_metadata := merge_type_metadata |}.

(** ** Operations of one table *)

Inductive SchemaMergeDecision : Type := Added | Unchanged | ReplacedLocal | KeptLocal.

Section Table.
Context {M : Type} `{SchemaMeta M}.
Implicit Types l : list (Z * M).

(** [iter().find] and [iter().position] by number and by name. *)
Definition position_by_id l (id : Z) : option (nat * (Z * M)) := list_find (fun e => fst e = id) l.
Definition position_by_name l (name : string) : option (nat * (Z * M)) :=
  list_find (fun e => meta_name (snd e) = name) l.
Definition find_by_id l (id : Z) : option (Z * M) := snd <$> position_by_id l id.
Definition find_by_name l (name : string) : option (Z * M) := snd <$> position_by_name l name.

Definition sat_add32 (a b : Z) : Z := Z.min u32_max (a + b).
Definition next_id_after (next id : Z) : Z := Z.max next (sat_add32 id 1).

Definition valid_identity (e : Z * M) : bool :=
  match resolve_identity (meta_name (snd e)) (Some (fst e)) with inl _ => true | inr _ => false end.

(** [register_owned_endpoint], [register_owned_type]: the table and its next
    number after the registration. *)
Definition register_entry l (next : Z) (d : Z * M) : result (list (Z * M) * Z) :=
  if negb (valid_identity d) then Err BadArg
  else match find_by_id l (fst d) with
       | Some existing => if bool_decide (snd existing = snd d) then Ok (l, next) else Err BadArg
       | None =>
           if existsb (fun e => String.eqb (meta_name (snd e)) (meta_name (snd d))) l then Err BadArg
           else Ok (sort_by_id (l ++ [d]), next_id_after next (fst d))
       end.

(** The entry that the merge of a definition meets. *)
Definition merge_conflict l (d : Z * M) : option (nat * (Z * M)) :=
  match position_by_id l (fst d), position_by_name l (meta_name (snd d)) with
  | Some (a, ea), Some (b, eb) => if (a <=? b)%nat then Some (a, ea) else Some (b, eb)
  | Some x, None | None, Some x => Some x
  | None, None => None
  end.

(** [merge_endpoint_definition], [merge_type_definition]. *)
Definition merge_entry l (next : Z) (d : Z * M) : list (Z * M) * Z * SchemaMergeDecision :=
  match merge_conflict l d with
  | None => (sort_by_id (l ++ [d]), next_id_after next (fst d), Added)
  | Some (idx, existing) =>
      if def_equivalent existing d then (l, next, Unchanged)
      else
        let d := merge_metadata existing d in
        if negb (def_equivalent existing d)
        then (sort_by_id (<[idx := d]> l), next_id_after next (fst d), ReplacedLocal)
        else (l, next, KeptLocal)
  end.

(** The loop over the definitions of a snapshot, with its counters: added,
    replaced and kept. *)
Fixpoint merge_entries l (next : Z) (counts : Z * Z * Z) (defs : list (Z * M))
    : list (Z * M) * Z * (Z * Z * Z) :=
  match defs with
  | [] => (l, next, counts)
  | d :: defs =>
      let '(l, next, decision) := merge_entry l next d in
      let '(added, replaced, kept) := counts in
      merge_entries l next
        (match decision with
         | Added => (added + 1, replaced, kept)
         | ReplacedLocal => (added, replaced + 1, kept)
         | KeptLocal => (added, replaced, kept + 1)
         | Unchanged => (added, replaced, kept)
         end) defs
  end.

(** The identities of a snapshot's definitions: each resolves and no earlier one
    shares its number or name, except, off the wire, as an identical repeat. *)
Definition repeats (allow_identical : bool) (d other : Z * M) : bool :=
  ((fst other =? fst d) || String.eqb (meta_name (snd other)) (meta_name (snd d)))
  && (negb allow_identical || negb (bool_decide (other = d))).

Fixpoint validate_identities (allow_identical : bool) (seen defs : list (Z * M)) : result unit :=
  match defs with
  | [] => Ok tt
  | d :: defs =>
      if negb (valid_identity d) then Err BadArg
      else if existsb (repeats allow_identical d) seen then Err BadArg
      else validate_identities allow_identical (seen ++ [d]) defs
  end.

Definition any_conflict l (defs : list (Z * M)) : bool :=
  existsb (fun d => existsb (fun e =>
    identity_conflicts (fst e) (meta_name (snd e)) (fst d) (meta_name (snd d))) l) defs.
End Table.

(** ** Operations of the registry *)

(** [size_of] of the two kinds of entries, which the compiler lays out. *)
Class EntrySizes : Type := {
  endpoint_entry_size : Z;
  type_entry_size : Z;
  entry_sizes_nonneg : 0 <= endpoint_entry_size /\ 0 <= type_entry_size;
}.

Section Registry.
Context {L : EntrySizes}.

Definition endpoint_schema_byte_cost (name_len description_len : Z) : Z :=
  sat_add (sat_add endpoint_entry_size name_len) description_len.
Definition type_schema_byte_cost (name_len description_len endpoint_count : Z) : Z :=
  sat_add (sat_add (sat_add type_entry_size name_len) description_len) (sat_mul endpoint_count 4).

Definition string_len (s : string) : Z := zlen (str s).
Definition endpoint_cost (e : OwnedEndpointDefinition) : Z :=
  endpoint_schema_byte_cost (string_len (em_name (snd e))) (string_len (em_description (snd e))).
Definition type_cost (e : OwnedDataTypeDefinition) : Z :=
  type_schema_byte_cost (string_len (mm_name (snd e))) (string_len (mm_description (snd e)))
                        (zlen (mm_endpoints (snd e))).

(** The sums are over live allocations and do not overflow. *)
Definition sum_costs {A} (cost : A -> Z) (l : list A) : Z := foldr (fun e n => cost e + n) 0 l.

Definition schema_byte_cost (reg : Registry) : Z :=
  sat_add (sum_costs endpoint_cost (endpoints reg)) (sum_costs type_cost (types reg)).
Definition owned_schema_byte_cost (s : OwnedRuntimeSchemaSnapshot) : Z :=
  sat_add (sum_costs endpoint_cost (snap_endpoints s)) (sum_costs type_cost (snap_types s)).

Definition with_endpoints (reg : Registry) (t : list OwnedEndpointDefinition * Z) : Registry :=
  {| endpoints := fst t; types := types reg; next_endpoint_id := snd t; next_type_id := next_type_id reg |}.
Definition with_types (reg : Registry) (t : list OwnedDataTypeDefinition * Z) : Registry :=
  {| endpoints := endpoints reg; types := fst t; next_endpoint_id := next_endpoint_id reg;
     next_type_id := snd t |}.

Definition register_owned_endpoint (reg : Registry) (d : OwnedEndpointDefinition) : result Registry :=
  t ← register_entry (endpoints reg) (next_endpoint_id reg) d; Ok (with_endpoints reg t).
Definition register_owned_type (reg : Registry) (d : OwnedDataTypeDefinition) : result Registry :=
  t ← register_entry (types reg) (next_type_id reg) d; Ok (with_types reg t).
End Registry.

(** Registration by number and by name, with and without a description. *)
Definition endpoint_def (id : Z) (name description : string) (link_local : bool) : OwnedEndpointDefinition :=
  (id, {| em_name := name; em_description := description; link_local_only := link_local |}).

Definition register_endpoint_id_with_description (reg : Registry) (id : DataEndpoint)
    (name description : string) (link_local : bool) : result (DataEndpoint * Registry) :=
  reg ← register_owned_endpoint reg (endpoint_def id name description link_local); Ok (id, reg).
Definition register_endpoint_with_description (reg : Registry) (name description : string)
    (link_local : bool) : result (DataEndpoint * Registry) :=
  register_endpoint_id_with_description reg (endpoint_id name) name description link_local.
Definition register_endpoint_id reg id name link_local :=
  register_endpoint_id_with_description reg id name "" link_local.
Definition register_endpoint reg name link_local :=
  register_endpoint_with_description reg name "" link_local.

(** [format!("ENDPOINT_{}", id.0)]. *)
Definition placeholder_name (id : Z) : string := String.append "ENDPOINT_" (pretty id).

Definition ensure_endpoint_id (reg : Registry) (id : DataEndpoint) (link_local : bool)
    : result (DataEndpoint * Registry) :=
  if endpoint_exists reg id then Ok (id, reg)
  else register_endpoint_id reg id (placeholder_name id) link_local.

Definition type_def (id : Z) (name description : string) (el : MessageElement) (eps : list DataEndpoint)
    (mode : ReliableMode) (prio : Z) (policy : E2eEncryptionPolicy) : OwnedDataTypeDefinition :=
  (id, {| mm_name := name; mm_description := description; element := el; mm_endpoints := eps;
          reliable := mode; priority := prio; e2e_encryption := policy |}).

Definition register_data_type_id_with_description_and_e2e_encryption (reg : Registry) (id : DataType)
    (name description : string) (el : MessageElement) (eps : list DataEndpoint) (mode : ReliableMode)
    (prio : Z) (policy : E2eEncryptionPolicy) : result (DataType * Registry) :=
  reg ← register_owned_type reg (type_def id name description el eps mode prio policy); Ok (id, reg).
Definition register_data_type_with_description_and_e2e_encryption reg name description el eps mode prio policy :=
  register_data_type_id_with_description_and_e2e_encryption reg (type_id name) name description el eps
    mode prio policy.
Definition register_data_type_id_with_description reg id name description el eps mode prio :=
  register_data_type_id_with_description_and_e2e_encryption reg id name description el eps mode prio PreferOff.
Definition register_data_type_id reg id name el eps mode prio :=
  register_data_type_id_with_description reg id name "" el eps mode prio.
Definition register_data_type_with_description reg name description el eps mode prio :=
  register_data_type_with_description_and_e2e_encryption reg name description el eps mode prio PreferOff.
Definition register_data_type reg name el eps mode prio :=
  register_data_type_with_description reg name "" el eps mode prio.

Definition with_policy (policy : E2eEncryptionPolicy) (m : MessageMeta) : MessageMeta :=
  {| mm_name := mm_name m; mm_description := mm_description m; element := element m;
     mm_endpoints := mm_endpoints m; reliable := reliable m; priority := priority m;
     e2e_encryption := policy |}.

(** [iter_mut().find()]: the first entry with the number. *)
Fixpoint update_policy (l : list OwnedDataTypeDefinition) (ty : DataType) (policy : E2eEncryptionPolicy)
    : option (list OwnedDataTypeDefinition) :=
  match l with
  | [] => None
  | (id, m) :: l =>
      if id =? ty then Some ((id, with_policy policy m) :: l)
      else cons (id, m) <$> update_policy l ty policy
  end.

Definition set_data_type_e2e_encryption_policy (reg : Registry) (ty : DataType)
    (policy : E2eEncryptionPolicy) : result Registry :=
  match update_policy (types reg) ty policy with
  | None => Err InvalidType
  | Some l => Ok (with_types reg (l, next_type_id reg))
  end.

(** *** Merging *)

Record SchemaMergeReport : Type := {
  endpoints_added : Z; endpoints_replaced : Z; endpoints_kept : Z;
  types_added : Z; types_replaced : Z; types_kept : Z;
}.

Definition changed (r : SchemaMergeReport) : bool :=
  negb (endpoints_added r =? 0) || negb (endpoints_replaced r =? 0)
  || negb (types_added r =? 0) || negb (types_replaced r =? 0).

Definition merge_owned_schema_snapshot_locked (reg : Registry) (s : OwnedRuntimeSchemaSnapshot)
    : SchemaMergeReport * Registry :=
  let s := dedup_schema (sort_owned_schema s) in
  let '(eps, next_ep, (ea, er, ek)) :=
    merge_entries (endpoints reg) (next_endpoint_id reg) (0, 0, 0) (snap_endpoints s) in
  let '(tys, next_ty, (ta, tr, tk)) :=
    merge_entries (types reg) (next_type_id reg) (0, 0, 0) (snap_types s) in
  ({| endpoints_added := ea; endpoints_replaced := er; endpoints_kept := ek;
      types_added := ta; types_replaced := tr; types_kept := tk |},
   {| endpoints := eps; types := tys; next_endpoint_id := next_ep; next_type_id := next_ty |}).

Definition validate_schema_identities (s : OwnedRuntimeSchemaSnapshot) (allow_identical : bool) : result unit :=
  _ ← validate_identities allow_identical [] (snap_endpoints s);
  validate_identities allow_identical [] (snap_types s).

Definition budget_error : TelemetryError := PacketTooLarge "Schema exceeds maximum shared queue budget".

Definition merge_owned_schema_snapshot_with_budget {L : EntrySizes} (reg : Registry)
    (s : OwnedRuntimeSchemaSnapshot) (max_schema_bytes : Z) : result SchemaMergeReport * Registry :=
  match validate_schema_identities s true with
  | Err e => (Err e, reg)
  | Ok _ =>
      let s := dedup_schema (sort_owned_schema s) in
      if max_schema_bytes <? sat_add (schema_byte_cost reg) (owned_schema_byte_cost s)
      then (Err budget_error, reg)
      else if any_conflict (endpoints reg) (snap_endpoints s) || any_conflict (types reg) (snap_types s)
      then (Err BadArg, reg)
      else
        let '(report, preview) := merge_owned_schema_snapshot_locked reg s in
        if max_schema_bytes <? schema_byte_cost preview then (Err budget_error, reg)
        else (Ok report, preview)
  end.

(** [None]: the [expect] of the unbounded merge fails. *)
Definition merge_owned_schema_snapshot {L : EntrySizes} (reg : Registry) (s : OwnedRuntimeSchemaSnapshot)
    : option SchemaMergeReport * Registry :=
  match merge_owned_schema_snapshot_with_budget reg s usize_max with
  | (Ok report, reg) => (Some report, reg)
  | (Err _, reg) => (None, reg)
  end.

Definition export_schema (reg : Registry) : OwnedRuntimeSchemaSnapshot :=
  {| snap_endpoints := endpoints reg; snap_types := types reg |}.

(** *** Queries and removal *)

Definition endpoint_definition (reg : Registry) (ep : DataEndpoint) := find_by_id (endpoints reg) ep.
Definition data_type_definition (reg : Registry) (ty : DataType) := find_by_id (types reg) ty.
Definition endpoint_definition_by_name (reg : Registry) (name : string) := find_by_name (endpoints reg) name.
Definition data_type_definition_by_name (reg : Registry) (name : string) := find_by_name (types reg) name.
Definition endpoint_try_named (reg : Registry) (name : string) : option DataEndpoint :=
  fst <$> find_by_name (endpoints reg) name.
Definition type_try_named (reg : Registry) (name : string) : option DataType :=
  fst <$> find_by_name (types reg) name.

Definition list_max (l : list Z) : Z := foldr Z.max 0 l.
Definition max_endpoint_id (reg : Registry) : Z := list_max (endpoints reg).*1.
Definition max_data_type_id (reg : Registry) : Z := list_max (types reg).*1.

(** [retain]. *)
Definition retain {A} (keep : A -> bool) (l : list A) : list A := List.filter keep l.

Definition remove_endpoint (reg : Registry) (ep : DataEndpoint) : result bool * Registry :=
  if is_internal_endpoint ep then (Err BadArg, reg)
  else
    let eps := retain (fun e => negb (fst e =? ep)) (endpoints reg) in
    let reg' := with_endpoints reg (eps, next_endpoint_id reg) in
    if (length eps =? length (endpoints reg))%nat then (Ok false, reg')
    else (Ok true, with_types reg' (retain (fun e => negb (one_of ep (mm_endpoints (snd e)))) (types reg),
                                    next_type_id reg)).

Definition remove_endpoint_by_name (reg : Registry) (name : string) : result bool * Registry :=
  match endpoint_definition_by_name reg name with
  | Some d => remove_endpoint reg (fst d)
  | None => (Ok false, reg)
  end.

Definition remove_data_type (reg : Registry) (ty : DataType) : result bool * Registry :=
  if is_internal_data_type ty then (Err BadArg, reg)
  else
    let tys := retain (fun e => negb (fst e =? ty)) (types reg) in
    (Ok (negb (length tys =? length (types reg))%nat), with_types reg (tys, next_type_id reg)).

Definition remove_data_type_by_name (reg : Registry) (name : string) : result bool * Registry :=
  match data_type_definition_by_name reg name with
  | Some d => remove_data_type reg (fst d)
  | None => (Ok false, reg)
  end.

Definition schema_fingerprint (reg : Registry) : Z :=
  let h := foldl (fun h (e : OwnedEndpointDefinition) =>
    let h := hash_u32 h (fst e) in
    let h := hash_bytes h (str (em_name (snd e))) in
    let h := hash_bytes h (str (em_description (snd e))) in
    hash_u8 h (bool_u8 (link_local_only (snd e)))) 0x5ED550524F494E54 (endpoints reg) in
  foldl (fun h (e : OwnedDataTypeDefinition) =>
    let m := snd e in
    let h := hash_u32 h (fst e) in
    let h := hash_bytes h (str (mm_name m)) in
    let h := hash_bytes h (str (mm_description m)) in
    let h := hash_message_element h (element m) in
    let h := hash_u8 h (reliable_code (reliable m)) in
    let h := hash_u8 h (priority m) in
    foldl hash_u32 h (mm_endpoints m)) h (types reg).

(** *** The protocol's own definitions *)

Definition builtin_endpoints : list OwnedEndpointDefinition :=
  [endpoint_def ep_TelemetryError "SEDSNET_ERROR" "" false;
   endpoint_def ep_TimeSync "SEDSNET_TIME_SYNC" "" false;
   endpoint_def ep_Discovery "SEDSNET_DISCOVERY" "" false].

Definition builtin_type (id : Z) (name : string) (el : MessageElement) (ep : DataEndpoint)
    (mode : ReliableMode) (prio : Z) : OwnedDataTypeDefinition :=
  type_def id name "" el [ep] mode prio PreferOff.

Definition builtin_types : list OwnedDataTypeDefinition :=
  [builtin_type ty_TelemetryError "SEDSNET_ERROR" (Dynamic TString CError) ep_TelemetryError RNone 255;
   builtin_type ty_ReliableAck "SEDSNET_RELIABLE_ACK" (Static 2 UInt32 CData) ep_TelemetryError RNone 250;
   builtin_type ty_ReliablePacketRequest "SEDSNET_RELIABLE_PACKET_REQUEST" (Static 2 UInt32 CData)
     ep_TelemetryError RNone 250;
   builtin_type ty_ReliablePartialAck "SEDSNET_RELIABLE_PARTIAL_ACK" (Static 2 UInt32 CData)
     ep_TelemetryError RNone 250;
   builtin_type ty_TimeSyncAnnounce "SEDSNET_TIME_SYNC_ANNOUNCE" (Static 2 UInt64 CData) ep_TimeSync RNone 245;
   builtin_type ty_TimeSyncRequest "SEDSNET_TIME_SYNC_REQUEST" (Static 2 UInt64 CData) ep_TimeSync RNone 245;
   builtin_type ty_TimeSyncResponse "SEDSNET_TIME_SYNC_RESPONSE" (Static 4 UInt64 CData) ep_TimeSync RNone 245;
   builtin_type ty_DiscoveryAnnounce "SEDSNET_DISCOVERY_ANNOUNCE" (Dynamic UInt32 CData) ep_Discovery RNone 240;
   builtin_type ty_DiscoveryTimeSyncSources "SEDSNET_DISCOVERY_TIMESYNC_SOURCES" (Dynamic UInt8 CData)
     ep_Discovery RNone 240;
   builtin_type ty_DiscoveryTopology "SEDSNET_DISCOVERY_TOPOLOGY" (Dynamic UInt8 CData) ep_Discovery Ordered 240;
   builtin_type ty_DiscoverySchema "SEDSNET_DISCOVERY_SCHEMA" (Dynamic UInt8 CData) ep_Discovery Ordered 241;
   builtin_type ty_DiscoveryTopologyRequest "SEDSNET_DISCOVERY_TOPOLOGY_REQUEST" (Dynamic UInt8 CData)
     ep_Discovery Ordered 242;
   builtin_type ty_DiscoverySchemaRequest "SEDSNET_DISCOVERY_SCHEMA_REQUEST" (Dynamic UInt8 CData)
     ep_Discovery Ordered 242;
   builtin_type ty_ManagedVariableRequest "SEDSNET_MANAGED_VARIABLE_REQUEST" (Dynamic UInt8 CData)
     ep_Discovery Ordered 243;
   builtin_type ty_ManagedVariableValue "SEDSNET_MANAGED_VARIABLE_VALUE" (Dynamic UInt8 CData)
     ep_Discovery Ordered 243;
   builtin_type ty_DiscoveryLeave "SEDSNET_DISCOVERY_LEAVE" (Dynamic UInt8 CData) ep_Discovery RNone 244;
   builtin_type ty_DiscoveryLinkCapabilities "SEDSNET_DISCOVERY_LINK_CAPABILITIES" (Dynamic UInt8 CData)
     ep_Discovery RNone 240;
   builtin_type ty_DiscoveryAddress "SEDSNET_DISCOVERY_ADDRESS" (Dynamic UInt8 CData) ep_Discovery Ordered 244;
   builtin_type ty_P2pMessage "SEDSNET_P2P_MESSAGE" (Dynamic UInt8 CData) ep_Discovery Ordered 246].

Definition empty_registry : Registry :=
  {| endpoints := []; types := []; next_endpoint_id := 0; next_type_id := 0 |}.

(** The loops of [register_owned_schema_snapshot_into]. *)
Fixpoint register_endpoints (reg : Registry) (defs : list OwnedEndpointDefinition) : result Registry :=
  match defs with
  | [] => Ok reg
  | d :: defs => reg ← register_owned_endpoint reg d; register_endpoints reg defs
  end.
Fixpoint register_types (reg : Registry) (defs : list OwnedDataTypeDefinition) : result Registry :=
  match defs with
  | [] => Ok reg
  | d :: defs => reg ← register_owned_type reg d; register_types reg defs
  end.

(** [Registry::new] where neither schema path is set in the environment; an
    [Err] is a failed [expect]. *)
Definition new_registry : result Registry :=
  reg ← register_endpoints empty_registry builtin_endpoints;
  register_types reg builtin_types.
