(* ===== verification/SchemaTable.v ===== *)
(** * Facts on the tables of the schema registry

    A table is well formed if its numbers ascend, its names are distinct and each
    number may have its name.  The operations of [SchemaRegistry] keep this, and
    each is described by what it does to the metadata found under a number. *)

From Stdlib Require Import Sorting.Sorted.
From stdpp Require Import list sorting sets.
From S2P Require Import Prelude Schema SchemaIdentity SchemaRegistry.

Open Scope Z_scope.

(** ** Sorting *)

Lemma sink_perm {A} (key : A -> Z) x l : sink key x l ≡ₚ x :: l.
Proof.
  induction l as [|y l IH]; cbn; [done|]. case_match; [|done].
  rewrite IH. apply Permutation_swap.
Qed.

Lemma foldl_sink_perm {A} (key : A -> Z) l r : foldl (fun r x => sink key x r) r l ≡ₚ r ++ l.
Proof.
  revert r. induction l as [|x l IH]; intros r; cbn [foldl]; [by rewrite app_nil_r|].
  rewrite IH, sink_perm. apply Permutation_middle.
Qed.

Lemma insertion_sort_perm {A} (key : A -> Z) l : insertion_sort key l ≡ₚ l.
Proof. unfold insertion_sort. rewrite <- Permutation_rev. apply foldl_sink_perm. Qed.

Definition descending {A} (key : A -> Z) (l : list A) : Prop := StronglySorted (fun a b => key b <= key a) l.
Definition ascending_key {A} (key : A -> Z) (l : list A) : Prop := StronglySorted (fun a b => key a <= key b) l.

Lemma sink_descending {A} (key : A -> Z) x l : descending key l -> descending key (sink key x l).
Proof.
  induction l as [|y l IH]; intros Hs; cbn [sink]; [by repeat constructor|].
  apply StronglySorted_inv in Hs as [Hs Hall]. destruct (Z.ltb_spec (key x) (key y)) as [Hlt|Hle].
  - constructor; [by apply IH|]. apply Forall_forall. intros z Hz. rewrite sink_perm in Hz.
    rewrite Forall_forall in Hall. apply elem_of_cons in Hz as [->|Hz]; [lia|by apply Hall].
  - constructor; [by constructor|]. constructor; [done|].
    eapply Forall_impl; [exact Hall|]. cbn. intros; lia.
Qed.

Lemma rev_descending {A} (key : A -> Z) l : descending key l -> ascending_key key (rev l).
Proof.
  induction l as [|x l IH]; intros Hs; cbn [rev]; [constructor|].
  apply StronglySorted_inv in Hs as [Hs Hall]. apply StronglySorted_app.
  split; [|split; [by apply IH|by repeat constructor]].
  intros y z Hy Hz. apply list_elem_of_singleton in Hz as ->. rewrite <- Permutation_rev in Hy.
  rewrite Forall_forall in Hall. by apply Hall.
Qed.

Lemma insertion_sort_sorted {A} (key : A -> Z) l : ascending_key key (insertion_sort key l).
Proof.
  unfold insertion_sort. apply rev_descending.
  assert (forall r, descending key r -> descending key (foldl (fun r x => sink key x r) r l)) as H.
  { induction l as [|x l IH]; intros r Hr; [done|]. cbn [foldl]. by apply IH, sink_descending. }
  apply H. constructor.
Qed.

(** ** Deduplication *)

Lemma dedup_subset {A} (key : A -> Z) (l : list A) e : e ∈ dedup_by_key key l -> e ∈ l.
Proof.
  induction l as [|x l IH]; [done|]. cbn [dedup_by_key].
  destruct (dedup_by_key key l) as [|y l'] eqn:E.
  - intros ->%list_elem_of_singleton. by left.
  - case_match; intros [->|Hin]%elem_of_cons; [by left| |by left|]; right; apply IH; [by right|done].
Qed.

(** Neighbours of one key are all there is of it in a sorted list. *)
Lemma dedup_sorted {A} (key : A -> Z) (l : list A) :
  ascending_key key l ->
  StronglySorted (fun a b => key a < key b) (dedup_by_key key l) /\
  forall e, e ∈ l -> exists e', e' ∈ dedup_by_key key l /\ key e' = key e.
Proof.
  induction 1 as [|x l Hs IH Hall]; [split; [constructor|by intros e ?%not_elem_of_nil]|].
  destruct IH as [IHs IHe]. cbn [dedup_by_key]. pose proof (dedup_subset key l) as Hsub.
  rewrite Forall_forall in Hall. destruct (dedup_by_key key l) as [|y l'] eqn:E.
  - split; [by repeat constructor|]. intros e [->|Hin]%elem_of_cons; [exists x; split; [by left|done]|].
    apply IHe in Hin as (? & ?%not_elem_of_nil & _). done.
  - apply StronglySorted_inv in IHs as [IHs IHall]. rewrite Forall_forall in IHall.
    assert (key x <= key y) as Hxy by (apply Hall, Hsub; by left).
    destruct (Z.eqb_spec (key x) (key y)) as [Heq|Hne]; split.
    + constructor; [done|]. apply Forall_forall. intros z Hz. rewrite Heq. by apply IHall.
    + intros e [->|Hin]%elem_of_cons; [exists x; split; [by left|done]|].
      apply IHe in Hin as (e' & [->|Hin]%elem_of_cons & <-); [exists x; split; [by left|done]|].
      exists e'. split; [by right|done].
    + constructor; [constructor; [done|by apply Forall_forall]|].
      apply Forall_forall. intros z [->|Hz]%elem_of_cons; [lia|]. apply IHall in Hz. lia.
    + intros e [->|Hin]%elem_of_cons; [exists x; split; [by left|done]|].
      apply IHe in Hin as (e' & Hin & <-). exists e'. split; [by right|done].
Qed.

(** ** Numbers in order *)

Section Ids.
Context {M : Type}.
Implicit Types l : list (Z * M).

Definition by_id l : Prop := StronglySorted (fun a b => fst a < fst b) l.

Lemma by_id_unique l a b : by_id l -> a ∈ l -> b ∈ l -> fst a = fst b -> a = b.
Proof.
  induction 1 as [|x l Hs IH Hall]; intros Ha Hb Heq; [by apply not_elem_of_nil in Ha|].
  rewrite Forall_forall in Hall.
  apply elem_of_cons in Ha as [->|Ha], Hb as [->|Hb]; [done|..|by apply IH].
  - apply Hall in Hb. lia.
  - apply Hall in Ha. lia.
Qed.

Lemma by_id_ext l l' : by_id l -> by_id l' -> (forall e, e ∈ l <-> e ∈ l') -> l = l'.
Proof.
  intros Hl Hl' Heq.
  assert (forall l, by_id l -> NoDup l) as Hnd.
  { clear. induction 1 as [|x l Hs IH Hall]; constructor; [|done]. intros Hin.
    rewrite Forall_forall in Hall. apply Hall in Hin. lia. }
  apply (StronglySorted_unique_strong (fun a b : Z * M => fst a < fst b)); [|done|done|].
  - intros. lia.
  - apply NoDup_Permutation; auto.
Qed.

Lemma sort_by_id_perm l : sort_by_id l ≡ₚ l.
Proof. apply insertion_sort_perm. Qed.

(** Sorting a table whose numbers differ. *)
Lemma sort_by_id_ok l : NoDup l.*1 -> by_id (sort_by_id l).
Proof.
  intros Hnd.
  pose proof (insertion_sort_sorted fst l) as Hs. fold (sort_by_id l) in Hs.
  rewrite <- (sort_by_id_perm l) in Hnd. revert Hs Hnd. generalize (sort_by_id l). clear.
  induction 1 as [|x l Hs IH Hall]; cbn; intros Hnd; constructor.
  - apply IH. by apply NoDup_cons in Hnd as [_ ?].
  - apply NoDup_cons in Hnd as [Hx _]. apply Forall_forall. intros y Hy.
    rewrite Forall_forall in Hall. specialize (Hall _ Hy). cbn in Hall.
    assert (fst x <> fst y); [|lia]. intros Heq. apply Hx, list_elem_of_fmap. by exists y.
Qed.

Lemma by_id_NoDup l : by_id l -> NoDup l.*1.
Proof.
  induction 1 as [|x l Hs IH Hall]; cbn; constructor; [|done]. intros Hin.
  apply list_elem_of_fmap in Hin as (y & Heq & Hin). rewrite Forall_forall in Hall.
  apply Hall in Hin. lia.
Qed.

Lemma sort_by_id_same l : by_id l -> sort_by_id l = l.
Proof.
  intros Hl. apply by_id_ext; [by apply sort_by_id_ok, by_id_NoDup|done|].
  intros e. by rewrite sort_by_id_perm.
Qed.

Lemma dedup_same (l : list (Z * M)) : by_id l -> dedup_by_key fst l = l.
Proof.
  induction 1 as [|x l Hs IH Hall]; [done|]. cbn [dedup_by_key]. rewrite IH.
  destruct l as [|y l]; [done|]. rewrite Forall_forall in Hall.
  destruct (Z.eqb_spec (fst x) (fst y)); [|done].
  assert (fst x < fst y) by (apply Hall; by left). lia.
Qed.
End Ids.

(** ** Tables *)

(** What is under a number. *)
Definition meta_at `{SchemaMeta M} (l : list (Z * M)) (id : Z) : option M := snd <$> find_by_id l id.

Section Tables.
Context {M : Type} `{SchemaMeta M}.
Implicit Types l : list (Z * M).

Record table_ok l : Prop := {
  table_ids : by_id l;
  table_names : forall e e', e ∈ l -> e' ∈ l -> meta_name (snd e) = meta_name (snd e') -> fst e = fst e';
  table_valid : forall e, e ∈ l -> valid_identity e = true;
}.

Lemma find_by_id_some l id e : by_id l -> find_by_id l id = Some e <-> e ∈ l /\ fst e = id.
Proof.
  intros Hl. unfold find_by_id, position_by_id. split.
  - intros (i & -> & Hf)%fmap_Some || intros ([i e'] & Hf & ->)%fmap_Some. cbn [snd].
    apply list_find_Some in Hf as (Hi & He & _). split; [by apply list_elem_of_lookup_2 in Hi|done].
  - intros [Hin Hid]. destruct (list_find _ l) as [[i e']|] eqn:E; cbn [fmap option_fmap option_map snd].
    + apply list_find_Some in E as (Hi & He & _). apply list_elem_of_lookup_2 in Hi.
      f_equal. apply (by_id_unique l); [done..|congruence].
    + apply list_find_None in E. rewrite Forall_forall in E. by apply E in Hin.
Qed.

Lemma find_by_id_none l id : find_by_id l id = None <-> forall e, e ∈ l -> fst e <> id.
Proof.
  unfold find_by_id, position_by_id. rewrite fmap_None, list_find_None, Forall_forall. done.
Qed.

Lemma meta_at_some l id m : by_id l -> meta_at l id = Some m <-> (id, m) ∈ l.
Proof.
  intros Hl. unfold meta_at. rewrite fmap_Some. split.
  - intros ([i m'] & Hf & ->). apply find_by_id_some in Hf as [Hin <-]; done.
  - intros Hin. exists (id, m). split; [|done]. by apply find_by_id_some.
Qed.

Lemma meta_at_none l id : meta_at l id = None <-> forall e, e ∈ l -> fst e <> id.
Proof. unfold meta_at. rewrite fmap_None. apply find_by_id_none. Qed.

Lemma meta_at_ext l l' : by_id l -> by_id l' -> (forall id, meta_at l id = meta_at l' id) -> l = l'.
Proof.
  intros Hl Hl' Heq. apply by_id_ext; [done..|]. intros [id m].
  by rewrite <- !meta_at_some, Heq.
Qed.

(** The name and the number are what validity depends on. *)
Lemma valid_identity_name (e e' : Z * M) :
  fst e = fst e' -> meta_name (snd e) = meta_name (snd e') -> valid_identity e = valid_identity e'.
Proof. intros H1 H2. unfold valid_identity. by rewrite H1, H2. Qed.

Lemma sort_push_ok l d :
  table_ok l -> valid_identity d = true ->
  (forall e, e ∈ l -> fst e <> fst d /\ meta_name (snd e) <> meta_name (snd d)) ->
  table_ok (sort_by_id (l ++ [d])) /\
  forall id, meta_at (sort_by_id (l ++ [d])) id = if id =? fst d then Some (snd d) else meta_at l id.
Proof.
  intros [Hids Hnames Hvalid] Hd Hnew.
  assert (by_id (sort_by_id (l ++ [d]))) as Hs.
  { apply sort_by_id_ok. rewrite fmap_app. apply NoDup_app. split; [by apply by_id_NoDup|]. split.
    - intros i Hi. apply list_elem_of_fmap in Hi as (e & -> & He). intros Hin%list_elem_of_singleton.
      destruct (Hnew e He) as [Hne _]. by apply Hne.
    - apply NoDup_singleton. }
  assert (forall e, e ∈ sort_by_id (l ++ [d]) <-> e ∈ l \/ e = d) as Hin.
  { intros e. by rewrite sort_by_id_perm, elem_of_app, list_elem_of_singleton. }
  split; [split; [done|..]|].
  - intros e e' He He' Hn. apply Hin in He as [He| ->], He' as [He'| ->]; [by apply Hnames| | |done].
    + by destruct (Hnew e He) as [_ []].
    + by destruct (Hnew e' He') as [_ []].
  - intros e [He| ->]%Hin; [by apply Hvalid|done].
  - intros id. destruct (Z.eqb_spec id (fst d)) as [->|Hne].
    + apply meta_at_some; [done|]. apply Hin. right. by destruct d.
    + apply option_eq. intros m. rewrite !meta_at_some, Hin by done.
      split; [intros [?|<-]; done|by left].
Qed.

Lemma by_id_fmap l : by_id l <-> StronglySorted Z.lt l.*1.
Proof.
  split.
  - induction 1 as [|x l Hs IH Hall]; cbn; constructor; [done|]. apply Forall_fmap. exact Hall.
  - induction l as [|x l IH]; cbn; intros Hs; [constructor|].
    apply StronglySorted_inv in Hs as [Hs Hall]. constructor; [by apply IH|]. rewrite Forall_fmap in Hall. exact Hall.
Qed.

Lemma elem_of_replaced l idx e d e' :
  by_id l -> l !! idx = Some e -> fst d = fst e ->
  e' ∈ <[idx := d]> l <-> e' = d \/ (e' ∈ l /\ fst e' <> fst d).
Proof.
  intros Hl Hi Hd. split.
  - intros [j Hj]%list_elem_of_lookup.
    apply list_lookup_insert_Some in Hj as [(-> & -> & _)|[Hne Hj]]; [by left|].
    right. split; [by apply list_elem_of_lookup_2 in Hj|]. intros Heq. apply Hne.
    apply by_id_NoDup in Hl. eapply (NoDup_lookup l.*1); [done|..]; rewrite list_lookup_fmap.
    + by rewrite Hi.
    + rewrite Hj. cbn. f_equal. congruence.
  - intros [->|[Hin Hne]].
    + apply list_elem_of_lookup. exists idx. apply list_lookup_insert_eq. by apply lookup_lt_Some in Hi.
    + apply list_elem_of_lookup in Hin as [j Hj]. apply list_elem_of_lookup. exists j.
      rewrite list_lookup_insert_ne; [done|]. intros ->. congruence.
Qed.

Lemma replace_ok l idx e d :
  table_ok l -> l !! idx = Some e -> fst d = fst e -> valid_identity d = true ->
  (forall e', e' ∈ l -> fst e' <> fst d -> meta_name (snd e') <> meta_name (snd d)) ->
  table_ok (sort_by_id (<[idx := d]> l)) /\
  forall id, meta_at (sort_by_id (<[idx := d]> l)) id = if id =? fst d then Some (snd d) else meta_at l id.
Proof.
  intros [Hids Hnames Hvalid] Hi Hd Hvd Hname.
  assert (by_id (<[idx := d]> l)) as Hs.
  { apply by_id_fmap. rewrite list_fmap_insert, list_insert_id; [by apply by_id_fmap|].
    by rewrite list_lookup_fmap, Hi, Hd. }
  rewrite sort_by_id_same by done. pose proof (fun e' => elem_of_replaced l idx e d e' Hids Hi Hd) as Hin.
  split; [split; [done|..]|].
  - intros x y [->|[Hx Hxd]]%Hin [->|[Hy Hyd]]%Hin Hn; [done|..|by apply Hnames].
    + by destruct (Hname _ Hy Hyd).
    + by destruct (Hname _ Hx Hxd).
  - intros x [->|[Hx _]]%Hin; [done|by apply Hvalid].
  - intros id. destruct (Z.eqb_spec id (fst d)) as [->|Hne].
    + apply meta_at_some; [done|]. apply Hin. left. by destruct d.
    + apply option_eq. intros m. rewrite !meta_at_some, Hin by done.
      split; [intros [<-|[? _]]; done|]. intros Hm. right. by split.
Qed.

Lemma retain_ok l keep : table_ok l -> table_ok (retain keep l).
Proof.
  intros [Hids Hnames Hvalid]. assert (forall e, e ∈ retain keep l -> e ∈ l) as Hsub.
  { intros e He. apply list_elem_of_In, filter_In in He as [He _]. by apply list_elem_of_In. }
  split.
  - clear -Hids. induction Hids as [|x l Hs IH Hall]; cbn; [constructor|].
    destruct (keep x); [|done]. constructor; [done|]. rewrite Forall_forall in *. intros e He. apply Hall.
    apply list_elem_of_In, filter_In in He as [He _]. by apply list_elem_of_In.
  - intros e e' He He'. apply Hnames; by apply Hsub.
  - intros e He. by apply Hvalid, Hsub.
Qed.
End Tables.

(** ** Laws of the metadata *)

(** What merging relies on: equivalence is reflexive and implies one identity, a merged
    definition keeps its number and one of the two names, a definition does not
    conflict with its own identity, and two of different numbers conflict exactly
    if their names are equal. *)
Class SchemaMetaLaws (M : Type) `{SchemaMeta M} : Prop := {
  equivalent_refl : forall a : Z * M, def_equivalent a a = true;
  equivalent_identity : forall a b : Z * M,
    def_equivalent a b = true -> fst a = fst b /\ meta_name (snd a) = meta_name (snd b);
  merge_id : forall a b : Z * M, fst a = fst b -> fst (merge_metadata a b) = fst a;
  merge_name : forall a b : Z * M, fst a = fst b ->
    meta_name (snd (merge_metadata a b)) = meta_name (snd a) \/
    meta_name (snd (merge_metadata a b)) = meta_name (snd b);
  conflict_same : forall i n, identity_conflicts i n i n = false;
  conflict_names : forall a na b nb, a <> b -> identity_conflicts a na b nb = String.eqb na nb;
}.

#[export] Instance endpoint_schema_laws : SchemaMetaLaws EndpointMeta.
Proof.
  split; cbn [def_equivalent merge_metadata identity_conflicts endpoint_schema meta_name].
  - intros a. unfold endpoint_def_equivalent, descriptions_agree.
    by rewrite Z.eqb_refl, !String.eqb_refl, Bool.eqb_reflx.
  - intros a b He. unfold endpoint_def_equivalent in He. bool_to_prop.
    split; [done|by apply String.eqb_eq].
  - intros a b Heq. unfold merge_endpoint_metadata, endpoint_winner. repeat case_match; done.
  - intros a b Heq. unfold merge_endpoint_metadata, endpoint_winner. repeat case_match; auto.
  - intros i n. unfold endpoint_identity_conflicts. by rewrite Z.eqb_refl, String.eqb_refl.
  - intros a na b nb Hne. unfold endpoint_identity_conflicts. by apply Z.eqb_neq in Hne as ->.
Qed.

#[export] Instance type_schema_laws : SchemaMetaLaws MessageMeta.
Proof.
  split; cbn [def_equivalent merge_metadata identity_conflicts type_schema meta_name].
  - intros a. unfold type_def_equivalent, descriptions_agree.
    by rewrite !Z.eqb_refl, !String.eqb_refl, !bool_decide_eq_true_2.
  - intros a b He. unfold type_def_equivalent in He. bool_to_prop.
    split; [done|by apply String.eqb_eq].
  - intros a b Heq. unfold merge_type_metadata, type_winner. repeat case_match; done.
  - intros a b Heq. unfold merge_type_metadata, type_winner. repeat case_match; auto.
  - intros i n. unfold type_identity_conflicts. by rewrite Z.eqb_refl, String.eqb_refl.
  - intros a na b nb Hne. unfold type_identity_conflicts. apply Z.eqb_neq in Hne as ->.
    cbn [orb negb]. by rewrite andb_true_r.
Qed.

(** ** Registration and merging *)

Section TableOps.
Context {M : Type} `{SchemaMetaLaws M}.
Implicit Types l : list (Z * M).

(** The metadata a table holds after the merge of a definition it has. *)
Definition settle (id : Z) (a b : M) : M :=
  if def_equivalent (id, a) (id, b) then a
  else
    let d := merge_metadata (id, a) (id, b) in
    if def_equivalent (id, a) d then a else snd d.

Lemma settle_name id a b :
  meta_name (settle id a b) = meta_name a \/ meta_name (settle id a b) = meta_name b.
Proof.
  unfold settle. pose proof (merge_name (id, a) (id, b) eq_refl). cbn [snd] in *. repeat case_match; auto.
Qed.

Lemma find_by_name_none l name :
  position_by_name l name = None <-> forall e, e ∈ l -> meta_name (snd e) <> name.
Proof. unfold position_by_name. by rewrite list_find_None, Forall_forall. Qed.

Lemma existsb_false {A} (f : A -> bool) (xs : list A) :
  existsb f xs = false <-> forall x, x ∈ xs -> f x = false.
Proof.
  rewrite <- not_true_iff_false, existsb_exists. split.
  - intros Hn x Hx. apply not_true_iff_false. intros Hf. apply Hn. exists x. by rewrite <- list_elem_of_In.
  - intros Hn (x & Hx & Hf). rewrite <- list_elem_of_In in Hx. apply Hn in Hx. congruence.
Qed.

Lemma register_entry_spec l next d :
  table_ok l ->
  match register_entry l next d with
  | Ok (l', next') =>
      table_ok l' /\ valid_identity d = true /\
      (forall id, meta_at l' id = if id =? fst d then Some (snd d) else meta_at l id) /\
      (l' = l /\ next' = next \/ meta_at l (fst d) = None /\ next' = next_id_after next (fst d))
  | Err e =>
      e = BadArg /\
      (valid_identity d = false \/ (exists m, meta_at l (fst d) = Some m /\ m <> snd d) \/
       meta_at l (fst d) = None /\ exists e, e ∈ l /\ meta_name (snd e) = meta_name (snd d))
  end.
Proof.
  intros Hl. unfold register_entry. destruct (valid_identity d) eqn:Ev; cbn [negb]; [|auto].
  destruct (find_by_id l (fst d)) as [existing|] eqn:Ef.
  - pose proof (proj1 (find_by_id_some _ _ _ (table_ids _ Hl)) Ef) as [Hin Hid]. case_bool_decide as Heq.
    + split; [done|]. split; [done|]. split; [|by left].
      intros id. destruct (Z.eqb_spec id (fst d)) as [->|]; [|done].
      apply meta_at_some; [by apply table_ids|]. rewrite <- Heq, <- Hid. by destruct existing.
    + split; [done|]. right. left. exists (snd existing). split; [|done]. unfold meta_at. by rewrite Ef.
  - pose proof (proj1 (find_by_id_none _ _) Ef) as Hno. destruct (existsb _ l) eqn:En.
    + split; [done|]. right. right. split; [by apply meta_at_none|].
      apply existsb_exists in En as (e & He & Heq). exists e.
      rewrite list_elem_of_In. split; [done|by apply String.eqb_eq].
    + destruct (sort_push_ok l d Hl Ev) as [Hok Hat].
      { intros e He. split; [by apply Hno|]. rewrite existsb_false in En. apply En, String.eqb_neq in He. done. }
      split; [done|]. split; [done|]. split; [done|]. right. split; [by apply meta_at_none|done].
Qed.

(** A definition that no entry conflicts with. *)
Definition compatible l (d : Z * M) : Prop :=
  forall e, e ∈ l -> identity_conflicts (fst e) (meta_name (snd e)) (fst d) (meta_name (snd d)) = false.

Lemma compatible_names l d e :
  compatible l d -> e ∈ l -> fst e <> fst d -> meta_name (snd e) <> meta_name (snd d).
Proof.
  intros Hc He Hne. apply Hc in He. rewrite conflict_names in He by done. by apply String.eqb_neq in He.
Qed.

(** The conflicting entry is the one with the number. *)
Lemma merge_conflict_spec l d :
  table_ok l -> compatible l d ->
  match merge_conflict l d with
  | Some (idx, e) => l !! idx = Some e /\ fst e = fst d
  | None => forall e, e ∈ l -> fst e <> fst d /\ meta_name (snd e) <> meta_name (snd d)
  end.
Proof.
  intros Hl Hc. unfold merge_conflict.
  assert (forall idx e, position_by_name l (meta_name (snd d)) = Some (idx, e) ->
            l !! idx = Some e /\ fst e = fst d) as Hn.
  { intros idx e Hp. unfold position_by_name in Hp. apply list_find_Some in Hp as (Hi & He & _).
    split; [done|]. destruct (decide (fst e = fst d)) as [|Hne]; [done|].
    by destruct (compatible_names l d e Hc (list_elem_of_lookup_2 _ _ _ Hi) Hne). }
  destruct (position_by_id l (fst d)) as [[a ea]|] eqn:Ea.
  - assert (l !! a = Some ea /\ fst ea = fst d) as Ha.
    { unfold position_by_id in Ea. by apply list_find_Some in Ea as (? & ? & _). }
    destruct (position_by_name l (meta_name (snd d))) as [[b eb]|]; [|done].
    specialize (Hn b eb eq_refl). destruct (a <=? b)%nat; [exact Ha|exact Hn].
  - destruct (position_by_name l (meta_name (snd d))) as [[b eb]|] eqn:Eb; [by apply Hn|].
    assert (find_by_id l (fst d) = None) as Hf by (unfold find_by_id; by rewrite Ea).
    intros e He. split; [by apply (proj1 (find_by_id_none _ _) Hf)|].
    by apply (proj1 (find_by_name_none _ _) Eb).
Qed.

Definition entry_after l (d : Z * M) : M :=
  match meta_at l (fst d) with Some a => settle (fst d) a (snd d) | None => snd d end.

Lemma merge_entry_spec l next d :
  table_ok l -> valid_identity d = true -> compatible l d ->
  let '(l', next', decision) := merge_entry l next d in
  table_ok l' /\
  (forall id, meta_at l' id = if id =? fst d then Some (entry_after l d) else meta_at l id) /\
  match decision with
  | Unchanged | KeptLocal => l' = l /\ next' = next
  | Added | ReplacedLocal =>
      meta_at l (fst d) <> Some (entry_after l d) /\ next' = next_id_after next (fst d)
  end.
Proof.
  intros Hl Hv Hc. pose proof (merge_conflict_spec l d Hl Hc) as Hm. unfold merge_entry.
  destruct (merge_conflict l d) as [[idx e]|].
  - destruct Hm as [Hi Hid]. destruct e as [i a], d as [i' b]. cbn [fst snd] in *. subst i'.
    pose proof (list_elem_of_lookup_2 _ _ _ Hi) as Hin.
    assert (meta_at l i = Some a) as Hat by (apply meta_at_some; [by apply table_ids|done]).
    unfold entry_after. cbn [fst snd]. rewrite Hat. unfold settle.
    assert (forall id, meta_at l id = if id =? i then Some a else meta_at l id) as Hsame.
    { intros id. by destruct (Z.eqb_spec id i) as [->|]. }
    destruct (def_equivalent (i, a) (i, b)) eqn:E1; [by split_and!; auto|].
    set (m := merge_metadata (i, a) (i, b)).
    destruct (def_equivalent (i, a) m) eqn:E2; cbn [negb]; [by split_and!; auto|].
    pose proof (merge_id (i, a) (i, b) eq_refl) as Hmid. fold m in Hmid. cbn [fst] in Hmid.
    pose proof (merge_name (i, a) (i, b) eq_refl) as Hmn. fold m in Hmn. cbn [snd] in Hmn.
    destruct (replace_ok l idx (i, a) m Hl Hi Hmid) as [Hok Hmat].
    + destruct Hmn as [Hmn|Hmn].
      * rewrite (valid_identity_name m (i, a)) by done. by apply (table_valid _ Hl).
      * by rewrite (valid_identity_name m (i, b)).
    + intros e' He' Hne. rewrite Hmid in Hne. destruct Hmn as [->| ->].
      * intros Heq. apply Hne. by apply (table_names _ Hl e' (i, a)).
      * by apply (compatible_names l (i, b)).
    + split; [done|]. rewrite Hmid in Hmat. split; [done|].
      split; [|by rewrite Hmid]. intros Heq. assert (m = (i, a)) as Hma by (destruct m; cbn in *; congruence).
      by rewrite Hma, equivalent_refl in E2.
  - destruct (sort_push_ok l d Hl Hv Hm) as [Hok Hat]. split; [done|].
    assert (meta_at l (fst d) = None) as Hno by (apply meta_at_none; intros; by apply Hm).
    unfold entry_after. rewrite Hno. by split_and!.
Qed.

(** *** Whole snapshots *)

(** Every number of the table is below the next one to give. *)
Definition covers l (next : Z) : Prop := forall e, e ∈ l -> sat_add32 (fst e) 1 <= next.

Definition merged_at l (defs : list (Z * M)) (id : Z) : option M :=
  match meta_at defs id with
  | Some b => Some (match meta_at l id with Some a => settle id a b | None => b end)
  | None => meta_at l id
  end.

Lemma table_ok_tail d defs : table_ok (d :: defs) -> table_ok defs.
Proof.
  intros [Hi Hn Hv]. split.
  - by apply StronglySorted_inv in Hi as [? _].
  - intros e e' ? ?. apply Hn; by right.
  - intros e ?. apply Hv. by right.
Qed.

Lemma table_ok_head d defs e : table_ok (d :: defs) -> e ∈ defs ->
  fst e <> fst d /\ meta_name (snd e) <> meta_name (snd d).
Proof.
  intros Ht He. assert (fst e <> fst d) as Hne.
  { pose proof (table_ids _ Ht) as Hi. apply StronglySorted_inv in Hi as [_ Hall].
    rewrite Forall_forall in Hall. apply Hall in He. lia. }
  split; [done|]. intros Heq. apply Hne, (table_names _ Ht); [by right|by left|done].
Qed.

Lemma meta_at_cons d defs id :
  by_id (d :: defs) -> meta_at (d :: defs) id = if id =? fst d then Some (snd d) else meta_at defs id.
Proof.
  intros Hs. pose proof (StronglySorted_inv Hs) as [Hs' Hall]. rewrite Forall_forall in Hall.
  apply option_eq. intros m. rewrite meta_at_some by done. rewrite elem_of_cons.
  destruct (Z.eqb_spec id (fst d)) as [->|Hne].
  - split.
    + intros [<-|Hin]; [done|]. apply Hall in Hin. cbn in Hin. lia.
    + intros [= <-]. left. by destruct d.
  - rewrite meta_at_some by done. split; [intros [<-|?]; done|by right].
Qed.

(** Merging one definition leaves the others mergeable. *)
Lemma merge_entry_compatible l l' d d' :
  table_ok l' -> (forall id, meta_at l' id = if id =? fst d then Some (entry_after l d) else meta_at l id) ->
  by_id l -> compatible l d' -> fst d <> fst d' -> meta_name (snd d) <> meta_name (snd d') -> compatible l' d'.
Proof.
  intros Hl' Hat Hl Hc Hid Hname [i m] He. cbn [fst snd].
  apply meta_at_some in He; [|by apply table_ids]. rewrite Hat in He.
  destruct (Z.eqb_spec i (fst d)) as [->|Hne].
  - injection He as <-. rewrite conflict_names by done. apply String.eqb_neq. unfold entry_after.
    destruct (meta_at l (fst d)) as [a|] eqn:Ea; [|done].
    destruct (settle_name (fst d) a (snd d)) as [->| ->]; [|done].
    apply meta_at_some in Ea; [|done]. by apply (compatible_names l d' _ Hc Ea).
  - apply meta_at_some in He; [|done]. by apply (Hc (i, m)).
Qed.

Lemma merge_step_covers l l' next next' d dec :
  table_ok l -> table_ok l' ->
  (forall id, meta_at l' id = if id =? fst d then Some (entry_after l d) else meta_at l id) ->
  match dec with
  | Unchanged | KeptLocal => l' = l /\ next' = next
  | Added | ReplacedLocal => meta_at l (fst d) <> Some (entry_after l d) /\ next' = next_id_after next (fst d)
  end ->
  next <= next' /\ (covers l next -> covers l' next').
Proof.
  intros Hl Hl' Hat Hdec. assert (next <= next_id_after next (fst d)) by (unfold next_id_after; lia).
  assert (covers l next -> covers l' (next_id_after next (fst d))) as Hc.
  { intros Hcov [i m] He. apply meta_at_some in He; [|by apply table_ids]. rewrite Hat in He. cbn [fst].
    destruct (Z.eqb_spec i (fst d)) as [->|]; unfold next_id_after; [lia|].
    apply meta_at_some in He; [|by apply table_ids]. apply Hcov in He. cbn [fst] in He. lia. }
  destruct dec; destruct Hdec as [Hl1 ->]; try subst l'; (split; [done || lia|done]).
Qed.

Lemma merge_entries_spec defs l next counts :
  table_ok l -> table_ok defs -> (forall d, d ∈ defs -> compatible l d) ->
  let '(l', next', counts') := merge_entries l next counts defs in
  table_ok l' /\ (forall id, meta_at l' id = merged_at l defs id) /\
  (covers l next -> covers l' next') /\ next <= next'.
Proof.
  revert l next counts. induction defs as [|d defs IH]; intros l next counts Hl Hd Hc.
  { cbn [merge_entries]. by split_and!. }
  cbn [merge_entries].
  pose proof (merge_entry_spec l next d Hl (table_valid _ Hd d ltac:(by left)) (Hc d ltac:(by left))) as Hm.
  destruct (merge_entry l next d) as [[l1 n1] dec]. destruct Hm as (Hl1 & Hat & Hdec).
  destruct counts as [[a r] k].
  destruct (merge_step_covers _ _ _ _ _ _ Hl Hl1 Hat Hdec) as [Hn Hcov1].
  specialize (IH l1 n1 (match dec with Added => (a + 1, r, k) | ReplacedLocal => (a, r + 1, k)
                        | KeptLocal => (a, r, k + 1) | Unchanged => (a, r, k) end)
                Hl1 (table_ok_tail _ _ Hd)).
  destruct (merge_entries l1 n1 _ defs) as [[l2 n2] counts2].
  destruct IH as (Hl2 & Hat2 & Hcov2 & Hn2).
  { intros d' Hd'. destruct (table_ok_head _ _ _ Hd Hd') as [Hid Hname].
    apply (merge_entry_compatible l l1 d d'); [done|done|by apply table_ids| |by apply not_eq_sym..].
    apply Hc. by right. }
  split; [done|]. split; [|split; [auto|lia]].
  intros id. rewrite Hat2. unfold merged_at. rewrite meta_at_cons by apply (table_ids _ Hd).
  rewrite Hat. destruct (Z.eqb_spec id (fst d)) as [->|Hne]; [|done].
  assert (meta_at defs (fst d) = None) as ->; [|done].
  apply meta_at_none. intros e He. by apply (table_ok_head _ _ _ Hd He).
Qed.

Lemma merge_entries_at defs l next counts id :
  table_ok l -> table_ok defs -> (forall d, d ∈ defs -> compatible l d) ->
  meta_at (fst (fst (merge_entries l next counts defs))) id = merged_at l defs id.
Proof.
  intros Hl Hd Hc. pose proof (merge_entries_spec defs l next counts Hl Hd Hc) as H1.
  destruct (merge_entries l next counts defs) as [[l' n'] c']. apply H1.
Qed.

(** Definitions that change nothing. *)
Lemma merge_entries_stable defs l next a r k :
  table_ok l -> table_ok defs -> (forall d, d ∈ defs -> compatible l d) ->
  (forall d, d ∈ defs -> exists m, meta_at l (fst d) = Some m /\ settle (fst d) m (snd d) = m) ->
  exists k', merge_entries l next (a, r, k) defs = (l, next, (a, r, k')).
Proof.
  intros Hl. revert k. induction defs as [|d defs IH]; intros k Hd Hc Hst; [by eexists|].
  cbn [merge_entries].
  pose proof (merge_entry_spec l next d Hl (table_valid _ Hd d ltac:(by left)) (Hc d ltac:(by left))) as Hm.
  destruct (merge_entry l next d) as [[l1 n1] dec]. destruct Hm as (_ & _ & Hdec).
  destruct (Hst d ltac:(by left)) as (m & Hm & Hs). unfold entry_after in Hdec. rewrite Hm, Hs in Hdec.
  apply table_ok_tail in Hd.
  destruct dec; destruct Hdec as [Hl1 ->]; try done; subst l1; apply IH; try done.
  all: intros d' ?; (apply Hc || apply Hst); by right.
Qed.

(** The counters of added and replaced definitions tell whether the table changed. *)
Lemma merge_entries_counts defs l next a r k :
  table_ok l -> table_ok defs -> (forall d, d ∈ defs -> compatible l d) ->
  let '(l', next', (a', r', k')) := merge_entries l next (a, r, k) defs in
  a <= a' /\ r <= r' /\
  (a' = a /\ r' = r /\ l' = l /\ next' = next \/
   a + r < a' + r' /\ exists d, d ∈ defs /\ meta_at l' (fst d) <> meta_at l (fst d)).
Proof.
  revert l next a r k. induction defs as [|d defs IH]; intros l next a r k Hl Hd Hc.
  { cbn [merge_entries]. split_and!; [lia..|by left]. }
  cbn [merge_entries].
  pose proof (merge_entry_spec l next d Hl (table_valid _ Hd d ltac:(by left)) (Hc d ltac:(by left))) as Hm.
  destruct (merge_entry l next d) as [[l1 n1] dec]. destruct Hm as (Hl1 & Hat & Hdec).
  assert (forall d', d' ∈ defs -> compatible l1 d') as Hc1.
  { intros d' Hd'. destruct (table_ok_head _ _ _ Hd Hd') as [Hid Hname].
    apply (merge_entry_compatible l l1 d d'); [done|done|by apply table_ids| |by apply not_eq_sym..].
    apply Hc. by right. }
  specialize (IH l1 n1). pose proof (merge_entries_at defs l1 n1) as Hat2.
  set (c := match dec with Added => (a + 1, r, k) | ReplacedLocal => (a, r + 1, k)
            | KeptLocal => (a, r, k + 1) | Unchanged => (a, r, k) end).
  destruct c as [[a1 r1] k1] eqn:Ec.
  specialize (IH a1 r1 k1 Hl1 (table_ok_tail _ _ Hd) Hc1).
  specialize (Hat2 (a1, r1, k1) (fst d) Hl1 (table_ok_tail _ _ Hd) Hc1).
  destruct (merge_entries l1 n1 (a1, r1, k1) defs) as [[l2 n2] [[a2 r2] k2]]. cbn [fst] in Hat2.
  destruct IH as (Ha & Hr & IH). 
  assert (meta_at defs (fst d) = None) as Hno.
  { apply meta_at_none. intros e He. by apply (table_ok_head _ _ _ Hd He). }
  unfold merged_at in Hat2. rewrite Hno, Hat, Z.eqb_refl in Hat2.
  destruct dec; destruct Hdec as [Hch Hn]; subst c; injection Ec as <- <- <-.
  - split_and!; [lia..|]. right. split; [destruct IH; lia|]. exists d. split; [by left|congruence].
  - subst l1 n1. split_and!; [lia..|]. destruct IH as [?|(Hlt & e & He & Hne)]; [by left|].
    right. split; [done|]. exists e. split; [by right|done].
  - split_and!; [lia..|]. right. split; [destruct IH; lia|]. exists d. split; [by left|congruence].
  - subst l1 n1. split_and!; [lia..|]. destruct IH as [?|(Hlt & e & He & Hne)]; [by left|].
    right. split; [done|]. exists e. split; [by right|done].
Qed.

(** *** Validation *)

Lemma validate_identities_spec seen defs :
  validate_identities true seen defs = Ok tt ->
  (forall d, d ∈ defs -> valid_identity d = true) /\
  ((forall d d', d ∈ seen -> d' ∈ seen ->
     fst d = fst d' \/ meta_name (snd d) = meta_name (snd d') -> d = d') ->
   forall d d', d ∈ seen ++ defs -> d' ∈ seen ++ defs ->
     fst d = fst d' \/ meta_name (snd d) = meta_name (snd d') -> d = d').
Proof.
  revert seen. induction defs as [|d defs IH]; intros seen; cbn [validate_identities].
  { intros _. split; [by intros d ?%not_elem_of_nil|]. by rewrite app_nil_r. }
  destruct (valid_identity d) eqn:Ev; cbn [negb]; [|done].
  destruct (existsb _ seen) eqn:Es; [done|]. intros Hrest. apply IH in Hrest as [Hv Hp].
  split; [intros e [->|He]%elem_of_cons; [done|by apply Hv]|].
  intros Hseen. rewrite (cons_middle d seen defs), app_assoc. apply Hp.
  rewrite existsb_false in Es.
  assert (forall e, e ∈ seen -> fst e = fst d \/ meta_name (snd e) = meta_name (snd d) -> e = d) as Hnew.
  { intros e He Hor. specialize (Es e He). unfold repeats in Es. cbn [negb orb] in Es.
    destruct Hor as [Heq|Heq].
    - rewrite Heq, Z.eqb_refl in Es. cbn in Es. by destruct (bool_decide_reflect (e = d)).
    - rewrite Heq, String.eqb_refl, orb_true_r in Es. cbn in Es. by destruct (bool_decide_reflect (e = d)). }
  intros x y [Hx| ->%list_elem_of_singleton]%elem_of_app [Hy| ->%list_elem_of_singleton]%elem_of_app Hor;
    [by apply Hseen|by apply Hnew| |done].
  symmetry. apply Hnew; [done|]. destruct Hor; auto.
Qed.

(** What merging makes of a snapshot off the wire is a table. *)
Lemma validated_table defs :
  validate_identities true [] defs = Ok tt ->
  table_ok (dedup_by_key fst (sort_by_id defs)) /\
  forall e, e ∈ dedup_by_key fst (sort_by_id defs) <-> e ∈ defs.
Proof.
  intros [Hv Hp]%validate_identities_spec.
  specialize (Hp ltac:(by intros d d' ?%not_elem_of_nil)). cbn [app] in Hp.
  destruct (dedup_sorted fst (sort_by_id defs)) as [Hs Hkeep]; [apply insertion_sort_sorted|].
  assert (forall e, e ∈ dedup_by_key fst (sort_by_id defs) <-> e ∈ defs) as Hin.
  { intros e. split.
    - intros He%dedup_subset. by rewrite sort_by_id_perm in He.
    - intros He. destruct (Hkeep e) as (e' & He' & Heq); [by rewrite sort_by_id_perm|].
      assert (e' ∈ defs) as Hd by (apply dedup_subset in He'; by rewrite sort_by_id_perm in He').
      rewrite (Hp e e'); [done..|by left]. }
  split; [|done]. split; [done|..].
  - intros e e' He%Hin He'%Hin Hn. f_equal. apply Hp; auto.
  - intros e He%Hin. by apply Hv.
Qed.

Lemma validate_identities_complete seen defs :
  (forall d, d ∈ defs -> valid_identity d = true) ->
  (forall d d', d ∈ seen ++ defs -> d' ∈ seen ++ defs ->
     fst d = fst d' \/ meta_name (snd d) = meta_name (snd d') -> d = d') ->
  validate_identities true seen defs = Ok tt.
Proof.
  revert seen. induction defs as [|d defs IH]; intros seen Hv Hp; cbn [validate_identities]; [done|].
  rewrite (Hv d ltac:(by left)). cbn [negb].
  assert (existsb (repeats true d) seen = false) as ->.
  { apply existsb_false. intros e He. unfold repeats. cbn [negb orb].
    destruct (bool_decide_reflect (e = d)) as [|Hne]; [by rewrite andb_false_r|].
    cbn [negb]. rewrite andb_true_r. apply orb_false_iff. rewrite Z.eqb_neq, String.eqb_neq.
    split; intros Heq; apply Hne, Hp; auto; rewrite elem_of_app; set_solver. }
  apply IH; [intros e He; apply Hv; by right|].
  by rewrite <- app_assoc.
Qed.

Lemma table_validates l : table_ok l -> validate_identities true [] l = Ok tt.
Proof.
  intros [Hi Hn Hv]. apply validate_identities_complete; [done|]. cbn [app].
  intros d d' Hd Hd' [Heq|Heq]; apply (by_id_unique l); auto.
Qed.

(** Tables with the same names under the same numbers do not conflict. *)
Lemma same_names_compatible l l' :
  table_ok l -> table_ok l' ->
  (forall id, option_Forall2 (fun x y => meta_name x = meta_name y) (meta_at l id) (meta_at l' id)) ->
  forall d, d ∈ l' -> compatible l d.
Proof.
  intros Hl Hl' Hsame [i y] Hd [j x] He. cbn [fst snd].
  assert (meta_at l' i = Some y) as Hy by (apply meta_at_some; [by apply table_ids|done]).
  pose proof (Hsame i) as Hi. rewrite Hy in Hi. inversion Hi as [x' y' Hn Hx' Heq|]; subst y'.
  symmetry in Hx'. apply meta_at_some in Hx'; [|by apply table_ids].
  destruct (decide (j = i)) as [->|Hne].
  - pose proof (by_id_unique l _ _ (table_ids _ Hl) He Hx' eq_refl) as [= ->]. rewrite Hn. apply conflict_same.
  - rewrite conflict_names by done. apply String.eqb_neq. intros Heq'.
    apply Hne, (table_names _ Hl (j, x) (i, x')); [done..|]. cbn. congruence.
Qed.
End TableOps.
