(* ===== verification/SchemaMerge.v ===== *)
(** * Merging schemas: invariants, safety and convergence (src/src/config.rs)

    What the registry of a process keeps true under any calls, what a remote
    catalogue can and cannot change, and that two nodes that exchange their
    catalogues end with the same definitions. *)

From Stdlib Require Import Sorting.Sorted.
From stdpp Require Import list sorting.
From S2P Require Import Prelude Schema SchemaIdentity SchemaRegistry SchemaTable.

Open Scope Z_scope.

(** ** The registry *)

Record registry_ok (reg : Registry) : Prop := {
  reg_endpoints : table_ok (endpoints reg);
  reg_types : table_ok (types reg);
  reg_next_endpoint : covers (endpoints reg) (next_endpoint_id reg);
  reg_next_type : covers (types reg) (next_type_id reg);
  reg_protocol_endpoints : forall d, d ∈ builtin_endpoints -> d ∈ endpoints reg;
  reg_protocol_types : forall d, d ∈ builtin_types -> exists p, (fst d, with_policy p (snd d)) ∈ types reg;
}.

(** The calls that change the registry; a refused call leaves it. *)
Inductive SchemaCall : Type :=
| RegisterEndpoint (d : OwnedEndpointDefinition)
| EnsureEndpoint (id : DataEndpoint) (link_local : bool)
| RegisterType (d : OwnedDataTypeDefinition)
| SetPolicy (ty : DataType) (policy : E2eEncryptionPolicy)
| RemoveEndpoint (ep : DataEndpoint)
| RemoveEndpointByName (name : string)
| RemoveType (ty : DataType)
| RemoveTypeByName (name : string)
| MergeSnapshot (s : OwnedRuntimeSchemaSnapshot) (max_schema_bytes : Z).

Definition or_same {A} (reg : A) (r : result A) : A := match r with Ok reg => reg | Err _ => reg end.

Definition schema_call {L : EntrySizes} (reg : Registry) (c : SchemaCall) : Registry :=
  match c with
  | RegisterEndpoint d => or_same reg (register_owned_endpoint reg d)
  | EnsureEndpoint id link_local =>
      match ensure_endpoint_id reg id link_local with Ok (_, reg) => reg | Err _ => reg end
  | RegisterType d => or_same reg (register_owned_type reg d)
  | SetPolicy ty policy => or_same reg (set_data_type_e2e_encryption_policy reg ty policy)
  | RemoveEndpoint ep => snd (remove_endpoint reg ep)
  | RemoveEndpointByName name => snd (remove_endpoint_by_name reg name)
  | RemoveType ty => snd (remove_data_type reg ty)
  | RemoveTypeByName name => snd (remove_data_type_by_name reg name)
  | MergeSnapshot s max => snd (merge_owned_schema_snapshot_with_budget reg s max)
  end.

(** *** Registration keeps the invariant *)

Lemma register_entry_keeps `{SchemaMetaLaws M} (l l' : list (Z * M)) next next' d :
  table_ok l -> covers l next -> register_entry l next d = Ok (l', next') ->
  table_ok l' /\ covers l' next' /\ forall e, e ∈ l -> e ∈ l'.
Proof.
  intros Hl Hc Hr. pose proof (register_entry_spec l next d Hl) as Hs. rewrite Hr in Hs.
  destruct Hs as (Hl' & _ & Hat & [[-> ->]|[Hno ->]]); [done|].
  split; [done|]. split.
  - intros [id m] He. cbn [fst]. apply meta_at_some in He; [|by apply table_ids]. rewrite Hat in He.
    unfold next_id_after. destruct (Z.eqb_spec id (fst d)) as [->|]; [lia|].
    apply meta_at_some in He; [|by apply table_ids]. apply Hc in He. cbn [fst] in He. lia.
  - intros [id m] He. apply meta_at_some; [by apply table_ids|]. rewrite Hat.
    apply meta_at_some in He; [|by apply table_ids]. destruct (Z.eqb_spec id (fst d)) as [->|]; [congruence|done].
Qed.

Lemma register_endpoint_ok reg d reg' :
  registry_ok reg -> register_owned_endpoint reg d = Ok reg' -> registry_ok reg'.
Proof.
  intros [H1 H2 H3 H4 H5 H6] Hr. unfold register_owned_endpoint in Hr.
  apply result_bind_ok in Hr as ([l n] & Hr & [= <-]).
  destruct (register_entry_keeps _ _ _ _ _ H1 H3 Hr) as (? & ? & ?). split; cbn; auto.
Qed.

Lemma register_type_ok reg d reg' :
  registry_ok reg -> register_owned_type reg d = Ok reg' -> registry_ok reg'.
Proof.
  intros [H1 H2 H3 H4 H5 H6] Hr. unfold register_owned_type in Hr.
  apply result_bind_ok in Hr as ([l n] & Hr & [= <-]).
  destruct (register_entry_keeps _ _ _ _ _ H2 H4 Hr) as (? & ? & ?). split; cbn; auto.
  intros b Hb. destruct (H6 b Hb) as [p Hp]. eauto.
Qed.

(** *** Policies and removal *)

Lemma update_policy_spec l ty p l' :
  update_policy l ty p = Some l' ->
  l'.*1 = l.*1 /\
  (forall e, e ∈ l' -> exists m, (fst e, m) ∈ l /\ mm_name m = mm_name (snd e)) /\
  (forall e, e ∈ l -> e ∈ l' \/ (fst e, with_policy p (snd e)) ∈ l').
Proof.
  revert l'. induction l as [|[id m] l IH]; intros l'; cbn [update_policy]; [done|]. case_match.
  - intros [= <-]. cbn. split; [done|]. split.
    + intros e [->|He]%elem_of_cons; [exists m; split; [by left|done]|].
      exists (snd e). split; [right; by destruct e|done].
    + intros e [->|He]%elem_of_cons; [right; by left|left; by right].
  - intros (l1 & Hl1 & ->)%fmap_Some. destruct (IH _ Hl1) as (H1 & H2 & H3). cbn. split; [by rewrite H1|]. split.
    + intros e [->|He]%elem_of_cons; [exists m; split; [by left|done]|].
      destruct (H2 e He) as (m' & Hm & Hn). exists m'. split; [by right|done].
    + intros e [->|He]%elem_of_cons; [left; by left|].
      destruct (H3 e He); [left|right]; by right.
Qed.

Lemma set_policy_ok reg ty p reg' :
  registry_ok reg -> set_data_type_e2e_encryption_policy reg ty p = Ok reg' -> registry_ok reg'.
Proof.
  intros [H1 H2 H3 H4 H5 H6]. unfold set_data_type_e2e_encryption_policy.
  destruct (update_policy _ _ _) as [l|] eqn:E; [|done]. intros [= <-].
  apply update_policy_spec in E as (Hids & Hback & Hfwd). split; cbn; [done| |done| |done|].
  - split.
    + apply by_id_fmap. rewrite Hids. by apply by_id_fmap, table_ids.
    + intros e e' (m & Hm & Hn)%Hback (m' & Hm' & Hn')%Hback Heq. cbn [meta_name type_schema] in Heq.
      apply (table_names _ H2 _ _ Hm Hm'). cbn. congruence.
    + intros e (m & Hm & Hn)%Hback. rewrite (valid_identity_name e (fst e, m)); [|done|done].
      by apply (table_valid _ H2).
  - intros e (m & Hm & Hn)%Hback. by apply H4 in Hm.
  - intros b Hb. destruct (H6 b Hb) as [q Hq]. destruct (Hfwd _ Hq) as [Hin|Hin]; [eauto|]. by exists p.
Qed.

Lemma elem_of_retain {A} (keep : A -> bool) l x : x ∈ retain keep l <-> x ∈ l /\ keep x = true.
Proof. by rewrite !list_elem_of_In, filter_In. Qed.

Lemma builtin_endpoints_internal d : d ∈ builtin_endpoints -> is_internal_endpoint (fst d) = true.
Proof.
  revert d. apply Forall_forall. by repeat constructor.
Qed.

Lemma builtin_types_internal d :
  d ∈ builtin_types -> is_internal_data_type (fst d) = true /\
    forall ep, is_internal_endpoint ep = false -> one_of ep (mm_endpoints (snd d)) = false.
Proof.
  assert (forall ep e, is_internal_endpoint e = true -> is_internal_endpoint ep = false ->
            one_of ep [e] = false) as Hone.
  { intros ep e He Hep. cbn. destruct (Z.eqb_spec ep e) as [->|]; [congruence|done]. }
  revert d. apply Forall_forall. repeat constructor; intros ep Hep; by apply Hone.
Qed.

Lemma remove_endpoint_ok reg ep : registry_ok reg -> registry_ok (snd (remove_endpoint reg ep)).
Proof.
  intros [H1 H2 H3 H4 H5 H6]. unfold remove_endpoint. destruct (is_internal_endpoint ep) eqn:Ei; [by split|].
  assert (forall d, d ∈ builtin_endpoints -> d ∈ retain (fun e => negb (fst e =? ep)) (endpoints reg)) as Hp.
  { intros d Hd. apply elem_of_retain. split; [by apply H5|].
    apply builtin_endpoints_internal in Hd. destruct (Z.eqb_spec (fst d) ep) as [<-|]; [congruence|done]. }
  case_match; cbn [snd]; split; cbn; try done; try by apply retain_ok.
  - intros e [He _]%elem_of_retain. by apply H3.
  - intros e [He _]%elem_of_retain. by apply H3.
  - intros e [He _]%elem_of_retain. by apply H4.
  - intros d Hd. destruct (H6 d Hd) as [p Hin]. exists p. apply elem_of_retain. split; [done|]. cbn [snd].
    apply negb_true_iff. by apply (builtin_types_internal d Hd).
Qed.

Lemma remove_data_type_ok reg ty : registry_ok reg -> registry_ok (snd (remove_data_type reg ty)).
Proof.
  intros [H1 H2 H3 H4 H5 H6]. unfold remove_data_type. destruct (is_internal_data_type ty) eqn:Ei; [by split|].
  cbn [snd]. split; cbn; try done; try by apply retain_ok.
  - intros e [He _]%elem_of_retain. by apply H4.
  - intros d Hd. destruct (H6 d Hd) as [p Hin]. exists p. apply elem_of_retain. split; [done|]. cbn [fst].
    apply builtin_types_internal in Hd as [Hd _]. destruct (Z.eqb_spec (fst d) ty) as [<-|]; [congruence|done].
Qed.

(** ** Merging *)

(** The snapshot as it is merged: sorted, one definition per number. *)
Definition normal (s : OwnedRuntimeSchemaSnapshot) : OwnedRuntimeSchemaSnapshot :=
  dedup_schema (sort_owned_schema s).

Lemma any_conflict_false `{SchemaMeta M} (l defs : list (Z * M)) :
  any_conflict l defs = false <-> forall d, d ∈ defs -> compatible l d.
Proof.
  unfold any_conflict. rewrite existsb_false. split; intros Hd d Hin; specialize (Hd d Hin).
  - by rewrite existsb_false in Hd.
  - by apply existsb_false.
Qed.

Lemma normal_twice s :
  by_id (snap_endpoints s) -> by_id (snap_types s) -> normal s = s.
Proof.
  intros He Ht. unfold normal, sort_owned_schema, dedup_schema. cbn [snap_endpoints snap_types].
  rewrite !sort_by_id_same, !dedup_same by done. by destruct s.
Qed.

(** What a merge does, or why it does nothing. *)
Lemma merge_budget_spec {L : EntrySizes} reg s max :
  registry_ok reg ->
  match merge_owned_schema_snapshot_with_budget reg s max with
  | (Ok report, reg') =>
      let n := normal s in
      schema_byte_cost reg' <= max /\
      table_ok (snap_endpoints n) /\ table_ok (snap_types n) /\
      (forall d, d ∈ snap_endpoints n <-> d ∈ snap_endpoints s) /\
      (forall d, d ∈ snap_types n <-> d ∈ snap_types s) /\
      (forall d, d ∈ snap_endpoints n -> compatible (endpoints reg) d) /\
      (forall d, d ∈ snap_types n -> compatible (types reg) d) /\
      exists ea er ek ta tr tk,
        merge_entries (endpoints reg) (next_endpoint_id reg) (0, 0, 0) (snap_endpoints n)
          = (endpoints reg', next_endpoint_id reg', (ea, er, ek)) /\
        merge_entries (types reg) (next_type_id reg) (0, 0, 0) (snap_types n)
          = (types reg', next_type_id reg', (ta, tr, tk)) /\
        report = {| endpoints_added := ea; endpoints_replaced := er; endpoints_kept := ek;
                    types_added := ta; types_replaced := tr; types_kept := tk |}
  | (Err e, reg') => reg' = reg /\ (e = BadArg \/ e = budget_error)
  end.
Proof.
  intros Hreg. unfold merge_owned_schema_snapshot_with_budget, validate_schema_identities.
  assert (forall M (S : SchemaMeta M) (seen defs : list (Z * M)) e,
            validate_identities true seen defs = Err e -> e = BadArg) as Hbad.
  { intros M S seen defs. revert seen. induction defs as [|d defs IH]; intros seen e;
      cbn [validate_identities]; [done|].
    destruct (negb _); [by intros [= <-]|]. destruct (existsb _ _); [by intros [= <-]|apply IH]. }
  destruct (validate_identities true [] (snap_endpoints s)) as [[]|e] eqn:Ve; cbn [mbind result_bind];
    [|split; [done|left; exact (Hbad _ _ _ _ _ Ve)]].
  destruct (validate_identities true [] (snap_types s)) as [[]|e] eqn:Vt;
    [|split; [done|left; exact (Hbad _ _ _ _ _ Vt)]].
  fold (normal s). cbv zeta. destruct (max <? _); [by auto|].
  destruct (any_conflict _ _ || any_conflict _ _) eqn:Ec; [by auto|].
  apply orb_false_iff in Ec as [Ece Ect]. rewrite any_conflict_false in Ece. rewrite any_conflict_false in Ect.
  destruct (validated_table _ Ve) as [Hte Hie]. destruct (validated_table _ Vt) as [Htt Hit].
  unfold merge_owned_schema_snapshot_locked. fold (normal (normal s)).
  rewrite normal_twice; [|apply (table_ids _ Hte)|apply (table_ids _ Htt)].
  destruct (merge_entries (endpoints reg) _ _ _) as [[eps ne] [[ea er] ek]] eqn:Ee.
  destruct (merge_entries (types reg) _ _ _) as [[tys nt] [[ta tr] tk]] eqn:Et.
  destruct (max <? _) eqn:Eb; [by auto|]. bool_to_prop.
  split; [done|]. split; [done|]. split; [done|]. split; [done|]. split; [done|]. split; [done|].
  split; [done|]. cbn [endpoints types next_endpoint_id next_type_id].
  exists ea, er, ek, ta, tr, tk. done.
Qed.

(** *** Protocol definitions do not change *)

Lemma settle_internal_endpoint id (a b : EndpointMeta) : is_internal_endpoint id = true -> settle id a b = a.
Proof.
  intros Hi. unfold settle. cbn [merge_metadata endpoint_schema]. unfold merge_endpoint_metadata. cbn [fst].
  rewrite Hi. repeat case_match; done.
Qed.

Lemma settle_internal_type id (a b : MessageMeta) : is_internal_data_type id = true -> settle id a b = a.
Proof.
  intros Hi. unfold settle. cbn [merge_metadata type_schema]. unfold merge_type_metadata. cbn [fst].
  rewrite Hi. repeat case_match; done.
Qed.

Lemma merged_at_internal `{SchemaMeta M} (l defs : list (Z * M)) id a :
  (forall b, settle id a b = a) -> meta_at l id = Some a -> merged_at l defs id = Some a.
Proof. intros Hs Ha. unfold merged_at. rewrite Ha. by destruct (meta_at defs id); rewrite ?Hs. Qed.

Lemma merge_ok {L : EntrySizes} reg s max :
  registry_ok reg -> registry_ok (snd (merge_owned_schema_snapshot_with_budget reg s max)).
Proof.
  intros Hreg. pose proof (merge_budget_spec reg s max Hreg) as Hm.
  destruct (merge_owned_schema_snapshot_with_budget reg s max) as [[report|e] reg']; cbn [snd];
    [|by destruct Hm as [-> _]].
  destruct Hm as (_ & Hte & Htt & _ & _ & Hce & Hct & ea & er & ek & ta & tr & tk & Ee & Et & _).
  destruct Hreg as [H1 H2 H3 H4 H5 H6].
  pose proof (merge_entries_spec _ _ (next_endpoint_id reg) (0, 0, 0) H1 Hte Hce) as He. rewrite Ee in He.
  pose proof (merge_entries_spec _ _ (next_type_id reg) (0, 0, 0) H2 Htt Hct) as Ht. rewrite Et in Ht.
  destruct He as (He & Hae & Hcove & _), Ht as (Ht & Hat & Hcovt & _). split; auto.
  - intros [id m] Hd. apply meta_at_some; [by apply table_ids|]. rewrite Hae.
    apply merged_at_internal.
    + intros b. apply settle_internal_endpoint. by apply builtin_endpoints_internal in Hd.
    + apply meta_at_some; [by apply table_ids|auto].
  - intros d Hd. destruct (H6 d Hd) as [p Hp]. exists p. apply meta_at_some; [by apply table_ids|].
    rewrite Hat. apply merged_at_internal.
    + intros b. apply settle_internal_type. by apply builtin_types_internal in Hd as [? _].
    + apply meta_at_some; [by apply table_ids|done].
Qed.

(** ** Properties of the registry *)

Lemma schema_call_ok {L : EntrySizes} reg c : registry_ok reg -> registry_ok (schema_call reg c).
Proof.
  intros Hreg. destruct c as [d|id ll|d|ty p|ep|name|ty|name|s max]; cbn [schema_call].
  - destruct (register_owned_endpoint reg d) eqn:E; [by eapply register_endpoint_ok|done].
  - destruct (ensure_endpoint_id reg id ll) as [[i reg']|] eqn:E; [|done].
    unfold ensure_endpoint_id in E. case_match; [by injection E as <- <-|].
    unfold register_endpoint_id, register_endpoint_id_with_description in E.
    apply result_bind_ok in E as (r & E & [= <- <-]). by eapply register_endpoint_ok.
  - destruct (register_owned_type reg d) eqn:E; [by eapply register_type_ok|done].
  - destruct (set_data_type_e2e_encryption_policy reg ty p) eqn:E; [by eapply set_policy_ok|done].
  - by apply remove_endpoint_ok.
  - unfold remove_endpoint_by_name. case_match; [by apply remove_endpoint_ok|done].
  - by apply remove_data_type_ok.
  - unfold remove_data_type_by_name. case_match; [by apply remove_data_type_ok|done].
  - by apply merge_ok.
Qed.

Lemma empty_table_ok `{SchemaMeta M} : table_ok ([] : list (Z * M)).
Proof. split; [constructor|..]; by intros ? ?%not_elem_of_nil || intros ? ? ?%not_elem_of_nil. Qed.

Definition initial_registry : Registry :=
  Eval vm_compute in match new_registry with Ok reg => reg | Err _ => empty_registry end.

Lemma new_registry_eq : new_registry = Ok initial_registry.
Proof. by vm_compute. Qed.

(** Keeping everything but the protocol's definitions, which come one by one. *)
Lemma register_endpoints_ok reg defs reg' :
  table_ok (endpoints reg) -> covers (endpoints reg) (next_endpoint_id reg) ->
  register_endpoints reg defs = Ok reg' ->
  table_ok (endpoints reg') /\ covers (endpoints reg') (next_endpoint_id reg') /\
  types reg' = types reg /\ next_type_id reg' = next_type_id reg.
Proof.
  revert reg. induction defs as [|d defs IH]; intros reg Ht Hc; cbn [register_endpoints].
  { by intros [= <-]. }
  intros (r & Hr & Hrest)%result_bind_ok. unfold register_owned_endpoint in Hr.
  apply result_bind_ok in Hr as ([l n] & Hr & [= <-]).
  destruct (register_entry_keeps _ _ _ _ _ Ht Hc Hr) as (H1 & H2 & _). by apply IH in Hrest.
Qed.

Lemma register_types_ok reg defs reg' :
  table_ok (types reg) -> covers (types reg) (next_type_id reg) ->
  register_types reg defs = Ok reg' ->
  table_ok (types reg') /\ covers (types reg') (next_type_id reg') /\
  endpoints reg' = endpoints reg /\ next_endpoint_id reg' = next_endpoint_id reg.
Proof.
  revert reg. induction defs as [|d defs IH]; intros reg Ht Hc; cbn [register_types].
  { by intros [= <-]. }
  intros (r & Hr & Hrest)%result_bind_ok. unfold register_owned_type in Hr.
  apply result_bind_ok in Hr as ([l n] & Hr & [= <-]).
  destruct (register_entry_keeps _ _ _ _ _ Ht Hc Hr) as (H1 & H2 & _). by apply IH in Hrest.
Qed.

Lemma register_all_ok eps tys reg :
  (r ← register_endpoints empty_registry eps; register_types r tys) = Ok reg ->
  table_ok (endpoints reg) /\ table_ok (types reg) /\
  covers (endpoints reg) (next_endpoint_id reg) /\ covers (types reg) (next_type_id reg).
Proof.
  intros (r & H1 & H2)%result_bind_ok.
  apply register_endpoints_ok in H1 as (He & Hce & Ht & Hnt);
    [|apply empty_table_ok|by intros ? ?%not_elem_of_nil].
  apply register_types_ok in H2 as (Ht' & Hct & Hee & Hne);
    [|rewrite Ht; apply empty_table_ok|rewrite Ht; by intros ? ?%not_elem_of_nil].
  by rewrite Hee, Hne.
Qed.

(** The protocol's definitions are among those of a registry, checked by evaluation. *)
Definition has_protocol (reg : Registry) : bool :=
  forallb (fun d => bool_decide (d ∈ endpoints reg)) builtin_endpoints &&
  forallb (fun d => bool_decide ((fst d, with_policy PreferOff (snd d)) ∈ types reg)) builtin_types.

Lemma has_protocol_spec reg :
  has_protocol reg = true ->
  (forall d, d ∈ builtin_endpoints -> d ∈ endpoints reg) /\
  (forall d, d ∈ builtin_types -> exists p, (fst d, with_policy p (snd d)) ∈ types reg).
Proof.
  unfold has_protocol. generalize builtin_endpoints, builtin_types. intros eps tys.
  rewrite andb_true_iff, !forallb_forall. intros [He Ht]. split.
  - intros d Hd%list_elem_of_In. by apply He, bool_decide_eq_true in Hd.
  - intros d Hd%list_elem_of_In. exists PreferOff. by apply Ht, bool_decide_eq_true in Hd.
Qed.

Lemma initial_has_protocol : has_protocol initial_registry = true.
Proof. by vm_compute. Qed.

Lemma new_registry_ok reg : new_registry = Ok reg -> has_protocol reg = true -> registry_ok reg.
Proof.
  unfold new_registry. intros (H1 & H2 & H3 & H4)%register_all_ok [H5 H6]%has_protocol_spec. by split.
Qed.

Lemma initial_registry_ok : registry_ok initial_registry.
Proof. exact (new_registry_ok _ new_registry_eq initial_has_protocol). Qed.

(** C36: the registry of a process.  A new registry holds the protocol's
    definitions, and whatever calls are made - registrations, ensured endpoints,
    policies, removals, remote catalogues, accepted or refused - both tables stay
    in the order of their numbers, without a number or a name twice, every name
    and number fit each other, the next numbers stay above all in use, and the
    protocol's endpoints and types stay as they were but for a policy set
    locally. *)
Theorem registry_invariant {L : EntrySizes} :
  exists reg, new_registry = Ok reg /\ forall calls, registry_ok (foldl schema_call reg calls).
Proof.
  exists initial_registry. split; [exact new_registry_eq|].
  generalize initial_registry_ok. generalize initial_registry. intros reg Hreg calls. revert reg Hreg.
  induction calls as [|c calls IH]; intros reg Hreg; [done|]. cbn [foldl]. by apply IH, schema_call_ok.
Qed.

(** *** What a remote catalogue can change *)

Lemma endpoint_compatible (l : list OwnedEndpointDefinition) d m :
  by_id l -> compatible l d -> meta_at l (fst d) = Some m ->
  em_name m = em_name (snd d) \/ endpoint_placeholder (fst d) (em_name m) = true \/
  endpoint_placeholder (fst d) (em_name (snd d)) = true.
Proof.
  intros Hl Hc Hm. apply meta_at_some in Hm; [|done]. apply Hc in Hm.
  cbn [identity_conflicts endpoint_schema meta_name fst snd] in Hm. unfold endpoint_identity_conflicts in Hm.
  rewrite Z.eqb_refl in Hm. destruct (String.eqb_spec (em_name m) (em_name (snd d))); [by left|].
  destruct (endpoint_placeholder (fst d) (em_name m)); [by right; left|].
  destruct (endpoint_placeholder (fst d) (em_name (snd d))); [by right; right|done].
Qed.

Lemma type_compatible (l : list OwnedDataTypeDefinition) d m :
  by_id l -> compatible l d -> meta_at l (fst d) = Some m -> mm_name m = mm_name (snd d).
Proof.
  intros Hl Hc Hm. apply meta_at_some in Hm; [|done]. apply Hc in Hm.
  cbn [identity_conflicts type_schema meta_name fst snd] in Hm. unfold type_identity_conflicts in Hm.
  rewrite Z.eqb_refl in Hm. cbn [orb andb negb] in Hm.
  by destruct (String.eqb_spec (mm_name m) (mm_name (snd d))).
Qed.

(** An endpoint keeps its name unless it is a placeholder. *)
Lemma settle_endpoint_name id (a b : EndpointMeta) :
  em_name a = em_name b \/ endpoint_placeholder id (em_name a) = true \/
    endpoint_placeholder id (em_name b) = true ->
  em_name (settle id a b) = em_name a \/ endpoint_placeholder id (em_name a) = true.
Proof.
  intros Hor. destruct (endpoint_placeholder id (em_name a)) eqn:Ea; [by right|]. left.
  unfold settle. destruct (def_equivalent _ _); [done|]. cbv zeta. destruct (def_equivalent _ _); [done|].
  cbn [merge_metadata endpoint_schema]. unfold merge_endpoint_metadata. cbn [fst snd].
  rewrite Z.eqb_refl, Ea. cbn [andb negb orb]. rewrite !andb_false_r. destruct (is_internal_endpoint id); [done|].
  destruct (String.eqb_spec (em_name a) (em_name b)) as [Heq|Hne]; cbn [andb negb orb]; [done|].
  destruct Hor as [?|[?|Hb]]; [done|congruence|]. by rewrite Hb.
Qed.

Lemma settle_type_name id (a b : MessageMeta) :
  mm_name a = mm_name b -> mm_name (settle id a b) = mm_name a.
Proof. intros Heq. destruct (settle_name id a b) as [H|H]; [exact H|]. cbn in H. congruence. Qed.

Lemma merged_at_present `{SchemaMeta M} (l defs : list (Z * M)) id :
  by_id defs -> (exists m, meta_at l id = Some m) \/ (exists m, (id, m) ∈ defs) ->
  exists m, merged_at l defs id = Some m.
Proof.
  intros Hd Hor. unfold merged_at. destruct (meta_at defs id) eqn:E; [by destruct (meta_at l id); eauto|].
  destruct Hor as [?|[m Hm]]; [done|]. apply meta_at_some in Hm; [congruence|done].
Qed.

(** C10: merging a catalogue off the wire.  A refused merge changes nothing.
    An accepted one fits the budget and leaves every local definition under its
    number: an endpoint under its name too unless that is only a placeholder, a
    type under its name always, and the protocol's definitions unchanged.  It
    adds every definition of the catalogue, and it reports a change exactly if
    some definition changed. *)
Theorem schema_merge_safe {L : EntrySizes} reg s max :
  registry_ok reg ->
  match merge_owned_schema_snapshot_with_budget reg s max with
  | (Ok report, reg') =>
      registry_ok reg' /\ schema_byte_cost reg' <= max /\
      (forall id m, meta_at (endpoints reg) id = Some m ->
         exists m', meta_at (endpoints reg') id = Some m' /\
           (em_name m' = em_name m \/ endpoint_placeholder id (em_name m) = true) /\
           (is_internal_endpoint id = true -> m' = m)) /\
      (forall id m, meta_at (types reg) id = Some m ->
         exists m', meta_at (types reg') id = Some m' /\ mm_name m' = mm_name m /\
           (is_internal_data_type id = true -> m' = m)) /\
      (forall d, d ∈ snap_endpoints s -> exists m, meta_at (endpoints reg') (fst d) = Some m) /\
      (forall d, d ∈ snap_types s -> exists m, meta_at (types reg') (fst d) = Some m) /\
      (changed report = false <-> reg' = reg)
  | (Err e, reg') => reg' = reg /\ (e = BadArg \/ e = budget_error)
  end.
Proof.
  intros Hreg. pose proof (merge_ok reg s max Hreg) as Hok'. pose proof (merge_budget_spec reg s max Hreg) as Hm.
  destruct (merge_owned_schema_snapshot_with_budget reg s max) as [[report|e] reg']; cbn [snd] in Hok'; [|done].
  destruct Hm as (Hb & Hte & Htt & Hie & Hit & Hce & Hct & ea & er & ek & ta & tr & tk & Ee & Et & ->).
  pose proof (reg_endpoints _ Hreg) as H1. pose proof (reg_types _ Hreg) as H2.
  pose proof (merge_entries_spec _ _ (next_endpoint_id reg) (0, 0, 0) H1 Hte Hce) as He. rewrite Ee in He.
  pose proof (merge_entries_spec _ _ (next_type_id reg) (0, 0, 0) H2 Htt Hct) as Ht. rewrite Et in Ht.
  pose proof (merge_entries_counts _ _ (next_endpoint_id reg) 0 0 0 H1 Hte Hce) as Ke. rewrite Ee in Ke.
  pose proof (merge_entries_counts _ _ (next_type_id reg) 0 0 0 H2 Htt Hct) as Kt. rewrite Et in Kt.
  destruct He as (_ & Hae & _), Ht as (_ & Hat & _).
  split; [done|]. split; [done|]. split; [|split; [|split; [|split]]].
  - intros id m Hm. rewrite Hae. unfold merged_at. rewrite Hm.
    destruct (meta_at (snap_endpoints (normal s)) id) as [b|] eqn:Ed; [|by eauto].
    eexists. split; [done|]. split; [|intros Hi; by apply settle_internal_endpoint].
    apply settle_endpoint_name. apply (endpoint_compatible _ (id, b) m (table_ids _ H1)); [|done].
    apply Hce, meta_at_some; [by apply table_ids|done].
  - intros id m Hm. rewrite Hat. unfold merged_at. rewrite Hm.
    destruct (meta_at (snap_types (normal s)) id) as [b|] eqn:Ed; [|by eauto].
    eexists. split; [done|]. split; [|intros Hi; by apply settle_internal_type].
    apply settle_type_name. apply (type_compatible _ (id, b) m (table_ids _ H2)); [|done].
    apply Hct, meta_at_some; [by apply table_ids|done].
  - intros d Hd. rewrite Hae. apply merged_at_present; [by apply table_ids|]. right.
    exists (snd d). apply Hie. by destruct d.
  - intros d Hd. rewrite Hat. apply merged_at_present; [by apply table_ids|]. right.
    exists (snd d). apply Hit. by destruct d.
  - unfold changed. cbn [endpoints_added endpoints_replaced types_added types_replaced].
    rewrite !orb_false_iff, !negb_false_iff, !Z.eqb_eq. split.
    + intros [[[-> ->] ->] ->]. destruct Ke as (_ & _ & [(_ & _ & Hl & Hn)|[? _]]); [|lia].
      destruct Kt as (_ & _ & [(_ & _ & Hl' & Hn')|[? _]]); [|lia].
      destruct reg, reg'; cbn in *; congruence.
    + intros ->. destruct Ke as (_ & _ & [(-> & -> & _)|(_ & d & _ & Hd)]); [|done].
      destruct Kt as (_ & _ & [(-> & -> & _)|(_ & d & _ & Hd)]); done.
Qed.

Lemma schema_calls_ok {L : EntrySizes} reg calls : registry_ok reg -> registry_ok (foldl schema_call reg calls).
Proof.
  revert reg. induction calls as [|c calls IH]; intros reg Hreg; [done|]. cbn [foldl].
  by apply IH, schema_call_ok.
Qed.

(** ** A sample *)

Definition sample_sizes : EntrySizes.
Proof. refine {| endpoint_entry_size := 48; type_entry_size := 80 |}. split; lia. Defined.

(** A node that knows a radio and a type for it, and one that knows the same
    endpoint by number only and sends the type elsewhere, at another priority. *)
Definition sample_calls_a : list SchemaCall :=
  [RegisterEndpoint (endpoint_def 300 "RADIO" "the radio" false);
   RegisterType (type_def 100 "GPS_DATA" "a" (Static 3 Float32 CData) [300] Ordered 7 PreferOn)].
Definition sample_calls_b : list SchemaCall :=
  [EnsureEndpoint 300 true; EnsureEndpoint 301 false;
   RegisterType (type_def 100 "GPS_DATA" "b" (Static 3 Float32 CData) [301] Ordered 9 PreferOn);
   RegisterType (type_def 101 "IMU_DATA" "" (Dynamic UInt8 CData) [301] RNone 0 PreferOff)].

Definition sample_a : Registry := Eval vm_compute in foldl (@schema_call sample_sizes) initial_registry sample_calls_a.
Definition sample_b : Registry := Eval vm_compute in foldl (@schema_call sample_sizes) initial_registry sample_calls_b.

Lemma sample_a_eq : foldl (@schema_call sample_sizes) initial_registry sample_calls_a = sample_a.
Proof. by vm_compute. Qed.
Lemma sample_b_eq : foldl (@schema_call sample_sizes) initial_registry sample_calls_b = sample_b.
Proof. by vm_compute. Qed.

Lemma sample_a_ok : registry_ok sample_a.
Proof. rewrite <- sample_a_eq. apply schema_calls_ok, initial_registry_ok. Qed.
Lemma sample_b_ok : registry_ok sample_b.
Proof. rewrite <- sample_b_eq. apply schema_calls_ok, initial_registry_ok. Qed.

(** Merging [sample_b] into [sample_a] names nothing anew, adds an endpoint and a
    type, and joins the destinations of the shared type. *)
Definition sample_merged : result SchemaMergeReport * Registry :=
  Eval vm_compute in @merge_owned_schema_snapshot_with_budget sample_sizes sample_a (export_schema sample_b) 100000.

Lemma sample_merged_eq :
  @merge_owned_schema_snapshot_with_budget sample_sizes sample_a (export_schema sample_b) 100000 = sample_merged.
Proof. by vm_compute. Qed.

Lemma schema_merge_safe_witness :
  registry_ok (snd sample_merged) /\
  option_map mm_endpoints (meta_at (types (snd sample_merged)) 100) = Some [300; 301].
Proof.
  pose proof (@schema_merge_safe sample_sizes sample_a (export_schema sample_b) 100000 sample_a_ok) as H.
  rewrite sample_merged_eq in H. split; [exact (proj1 H)|by vm_compute].
Defined.
