(* ===== verification/SchemaConverge.v ===== *)
(** * Convergence of exchanged schemas (src/src/config.rs)

    Two nodes that merge each other's catalogue decide every conflict alike: the
    winner of two incompatible definitions does not depend on who decides, and
    compatible ones are joined.  One exchange is enough, and a second one changes
    nothing.  Descriptions are the node's own and are not exchanged. *)

From Stdlib Require Import Sorting.Sorted.
From stdpp Require Import list sorting sets.
From S2P Require Import Prelude Schema SchemaIdentity SchemaRegistry SchemaTable SchemaMerge.

Open Scope Z_scope.

(** ** Equal but for the description *)

Definition endpoint_agree (a b : EndpointMeta) : Prop :=
  em_name a = em_name b /\ link_local_only a = link_local_only b.

Definition type_agree (a b : MessageMeta) : Prop :=
  mm_name a = mm_name b /\ element a = element b /\ mm_endpoints a = mm_endpoints b /\
  reliable a = reliable b /\ priority a = priority b /\ e2e_encryption a = e2e_encryption b.

(** ** Winners *)

Lemma str_inj a b : str a = str b -> a = b.
Proof.
  revert b. induction a as [|c a IH]; intros [|d b]; cbn; try done. intros [= Hc Hs].
  apply IH in Hs as ->. f_equal. rewrite <- (Ascii.ascii_N_embedding c), <- (Ascii.ascii_N_embedding d). f_equal. lia.
Qed.

(** The order of the keys of the winners is total. *)
Lemma winner_key_total a b : winner_key_leb a b = negb (winner_key_leb b a) \/ a = b.
Proof.
  destruct a as [[fa ia] na], b as [[fb ib] nb]. unfold winner_key_leb.
  rewrite (Z.compare_antisym fa fb), (Z.compare_antisym ia ib).
  destruct (Z.compare_spec fa fb) as [->|?|?]; cbn [CompOpp]; [|by left..].
  destruct (Z.compare_spec ia ib) as [->|?|?]; cbn [CompOpp]; [|by left..].
  pose proof (kcmp_antisym na nb) as Han. pose proof (kcmp_eq na nb) as Heq. cbn [kcmp OrdKey_bytes] in Han, Heq.
  rewrite Han. destruct (bytes_compare na nb); cbn [CompOpp negb]; [right|by left..].
  f_equal. by apply Heq.
Qed.

Lemma endpoint_winner_comm a b :
  em_name (snd a) <> em_name (snd b) -> endpoint_winner a b = endpoint_winner b a.
Proof.
  intros Hne. unfold endpoint_winner.
  destruct (winner_key_total (endpoint_fingerprint a, fst a, str (em_name (snd a)))
              (endpoint_fingerprint b, fst b, str (em_name (snd b)))) as [->|Heq].
  - by destruct (winner_key_leb _ _).
  - injection Heq as _ _ Hs. by apply str_inj in Hs.
Qed.

Lemma type_winner_comm a b :
  type_fingerprint a <> type_fingerprint b -> type_winner a b = type_winner b a.
Proof.
  intros Hne. unfold type_winner.
  destruct (winner_key_total (type_fingerprint a, fst a, str (mm_name (snd a)))
              (type_fingerprint b, fst b, str (mm_name (snd b)))) as [->|Heq].
  - by destruct (winner_key_leb _ _).
  - by injection Heq as Hf _ _.
Qed.

(** ** Endpoints *)

Lemma endpoint_equivalent_agree id a b :
  def_equivalent (id, a) (id, b) = true -> endpoint_agree a b /\ def_equivalent (id, b) (id, a) = true.
Proof.
  cbn [def_equivalent endpoint_schema]. unfold endpoint_def_equivalent, descriptions_agree. cbn [fst snd].
  rewrite !andb_true_iff, !orb_true_iff, !String.eqb_eq, !Z.eqb_eq, !Bool.eqb_true_iff.
  intros [[[_ Hn] Hd] Hl]. split; [done|]. split; [|done]. split; [done|].
  destruct Hd as [[Hd|Hd]|Hd]; auto.
Qed.

Lemma settle_endpoint_settled id a b : endpoint_agree a b -> settle id a b = a.
Proof.
  intros [Hn Hl]. unfold settle. destruct (def_equivalent (id, a) (id, b)); [done|]. cbv zeta.
  assert (merge_metadata (id, a) (id, b) = (id, a)) as ->.
  { cbn [merge_metadata endpoint_schema]. unfold merge_endpoint_metadata. cbn [fst snd].
    rewrite Hn, Hl, Z.eqb_refl, String.eqb_refl. cbn [andb negb orb].
    destruct (is_internal_endpoint id); [done|]. destruct a as [na da la]. cbn in *. subst.
    by rewrite orb_diag. }
  by rewrite equivalent_refl.
Qed.

(** Two definitions of one endpoint are settled alike from both sides. *)
Lemma settle_endpoint_comm id a b :
  (is_internal_endpoint id = true -> a = b) ->
  em_name a = em_name b \/ endpoint_placeholder id (em_name a) = true \/
    endpoint_placeholder id (em_name b) = true ->
  endpoint_agree (settle id a b) (settle id b a).
Proof.
  intros Hint Hor. destruct (is_internal_endpoint id) eqn:Ei.
  { rewrite Hint by done. done. }
  destruct (def_equivalent (id, a) (id, b)) eqn:E.
  { apply endpoint_equivalent_agree in E as [Hag Hba]. rewrite (settle_endpoint_settled id a b) by done.
    rewrite (settle_endpoint_settled id b a) by (destruct Hag; split; done). done. }
  destruct (String.eqb_spec (em_name a) (em_name b)) as [Hn|Hn].
  - assert (forall x y : EndpointMeta, em_name x = em_name y ->
              endpoint_agree (settle id x y)
                {| em_name := em_name x; em_description := em_description x;
                   link_local_only := link_local_only x || link_local_only y |}) as H.
    { intros x y Hxy. unfold settle. cbv zeta. cbn [merge_metadata endpoint_schema].
      unfold merge_endpoint_metadata. cbn [fst snd]. rewrite Ei, Hxy, Z.eqb_refl, String.eqb_refl.
      cbn [andb negb orb].
      destruct (def_equivalent (id, x) (id, y)) eqn:E1.
      - apply endpoint_equivalent_agree in E1 as [[H1 H2] _]. split; [done|]. cbn. by rewrite H2, orb_diag.
      - match goal with |- context [if ?c then _ else _] => destruct c eqn:E2 end; [|done].
        apply endpoint_equivalent_agree in E2 as [[H1 H2] _]. split; done. }
    destruct (H a b Hn) as [H1 H2], (H b a (eq_sym Hn)) as [H3 H4]. cbn in *.
    split; [congruence|]. rewrite H2, H4. apply orb_comm.
  - assert (forall x y : EndpointMeta, em_name x <> em_name y ->
              settle id x y = snd (merge_metadata (id, x) (id, y))) as Hs.
    { intros x y Hxy. unfold settle. destruct (def_equivalent (id, x) (id, y)) eqn:E1.
      { by apply endpoint_equivalent_agree in E1 as [[H1 _] _]. }
      cbv zeta. pose proof (merge_id (id, x) (id, y) eq_refl) as Hi.
      destruct (def_equivalent (id, x) (merge_metadata (id, x) (id, y))) eqn:E2; [|done].
      cbn [merge_metadata endpoint_schema] in *. unfold merge_endpoint_metadata, endpoint_winner in *.
      cbn [fst snd] in *. apply String.eqb_neq in Hxy. rewrite Ei, Z.eqb_refl, Hxy in *. cbn [andb negb orb] in *.
      repeat case_match; try done; congruence. }
    rewrite !Hs by done. cbn [merge_metadata endpoint_schema]. unfold merge_endpoint_metadata. cbn [fst snd].
    rewrite Ei, Z.eqb_refl. assert (em_name b <> em_name a) as Hn' by done.
    apply String.eqb_neq in Hn, Hn'. rewrite Hn, Hn'. cbn [andb negb orb].
    rewrite (endpoint_winner_comm (id, b) (id, a)) by (by apply String.eqb_neq).
    destruct (endpoint_placeholder id (em_name a)), (endpoint_placeholder id (em_name b)); done.
Qed.

(** ** Data types *)

Lemma push_missing_spec l more e : e ∈ push_missing l more <-> e ∈ l \/ e ∈ more.
Proof.
  revert l. induction more as [|x more IH]; intros l; cbn [push_missing].
  { split; [auto|]. by intros [?|?%not_elem_of_nil]. }
  rewrite IH, elem_of_cons. destruct (one_of x l) eqn:E.
  - assert (x ∈ l).
    { unfold one_of in E. apply existsb_exists in E as (y & Hy & ->%Z.eqb_eq). by apply list_elem_of_In. }
    split; [tauto|]. intros [?|[->|?]]; auto.
  - rewrite elem_of_app, list_elem_of_singleton. tauto.
Qed.

Lemma merge_destinations_spec a b :
  StronglySorted Z.lt (merge_destinations a b) /\
  forall e, e ∈ merge_destinations a b <-> e ∈ a \/ e ∈ b.
Proof.
  unfold merge_destinations.
  destruct (dedup_sorted id (insertion_sort id (push_missing a b))) as [Hs Hk]; [apply insertion_sort_sorted|].
  split; [exact Hs|]. intros e. split.
  - intros He%dedup_subset. rewrite insertion_sort_perm in He. by apply push_missing_spec in He.
  - intros He. destruct (Hk e) as (e' & He' & Heq); [by rewrite insertion_sort_perm, push_missing_spec|].
    cbn in Heq. by subst.
Qed.

Lemma sorted_lt_ext (l l' : list Z) :
  StronglySorted Z.lt l -> StronglySorted Z.lt l' -> (forall e, e ∈ l <-> e ∈ l') -> l = l'.
Proof.
  intros Hl Hl' Heq. assert (forall l, StronglySorted Z.lt l -> NoDup l) as Hnd.
  { clear. induction 1 as [|x l Hs IH Hall]; constructor; [|done]. intros Hin.
    rewrite Forall_forall in Hall. apply Hall in Hin. lia. }
  apply (StronglySorted_unique_strong Z.lt); [intros; lia|done|done|]. apply NoDup_Permutation; auto.
Qed.

Lemma merge_destinations_comm a b : merge_destinations a b = merge_destinations b a.
Proof.
  destruct (merge_destinations_spec a b) as [H1 H2], (merge_destinations_spec b a) as [H3 H4].
  apply sorted_lt_ext; [done..|]. intros e. rewrite H2, H4. tauto.
Qed.

Lemma merge_destinations_idemp a b :
  merge_destinations (merge_destinations a b) (merge_destinations a b) = merge_destinations a b.
Proof.
  destruct (merge_destinations_spec a b) as [H1 H2].
  destruct (merge_destinations_spec (merge_destinations a b) (merge_destinations a b)) as [H3 H4].
  apply sorted_lt_ext; [done..|]. intros e. rewrite H4, H2. tauto.
Qed.

Lemma type_equivalent_agree id a b :
  def_equivalent (id, a) (id, b) = true -> type_agree a b /\ def_equivalent (id, b) (id, a) = true.
Proof.
  cbn [def_equivalent type_schema]. unfold type_def_equivalent, descriptions_agree, type_agree. cbn [fst snd].
  rewrite !andb_true_iff, !orb_true_iff, !String.eqb_eq, !Z.eqb_eq, !bool_decide_eq_true.
  naive_solver.
Qed.

Lemma type_agree_sym a b : type_agree a b -> type_agree b a.
Proof. unfold type_agree. naive_solver. Qed.
Lemma type_agree_trans a b c : type_agree a b -> type_agree b c -> type_agree a c.
Proof. unfold type_agree. naive_solver congruence. Qed.

(** The definitions that are joined, and their join. *)
Definition joinable (a b : MessageMeta) : Prop :=
  mm_name a = mm_name b /\ element a = element b /\ reliable a = reliable b /\
  e2e_encryption a = e2e_encryption b.

Definition joined (a b : MessageMeta) : MessageMeta :=
  {| mm_name := mm_name a; mm_description := mm_description a; element := element a;
     mm_endpoints := merge_destinations (mm_endpoints a) (mm_endpoints b);
     reliable := reliable a; priority := Z.max (priority a) (priority b);
     e2e_encryption := e2e_encryption a |}.

Lemma merge_type_cases id a b :
  is_internal_data_type id = false -> mm_name a = mm_name b ->
  joinable a b /\ merge_metadata (id, a) (id, b) = (id, joined a b) \/
  ~ joinable a b /\ merge_metadata (id, a) (id, b) = type_winner (id, a) (id, b).
Proof.
  intros Hi Hn. cbn [merge_metadata type_schema]. unfold merge_type_metadata. cbn [fst snd].
  rewrite Hi, Hn, Z.eqb_refl, String.eqb_refl. cbn [negb orb].
  unfold joinable.
  destruct (bool_decide_reflect (element a = element b)); cbn [negb orb]; [|right; naive_solver].
  destruct (bool_decide_reflect (reliable a = reliable b)); cbn [negb orb]; [|right; naive_solver].
  destruct (bool_decide_reflect (e2e_encryption a = e2e_encryption b)); cbn [negb]; [left|right; naive_solver].
  split; [done|]. unfold joined. by rewrite Hn.
Qed.

Lemma joined_agree a b : joinable a b -> type_agree (joined a b) (joined b a).
Proof.
  intros (H1 & H2 & H3 & H4). unfold type_agree. cbn. rewrite Z.max_comm.
  split_and!; try done. apply merge_destinations_comm.
Qed.

Lemma settle_joined id a b :
  is_internal_data_type id = false -> joinable a b -> def_equivalent (id, a) (id, b) = false ->
  type_agree (settle id a b) (joined a b).
Proof.
  intros Hi Hj He. unfold settle. rewrite He. cbv zeta.
  destruct (merge_type_cases id a b Hi (proj1 Hj)) as [[_ ->]|[Hn _]]; [|done].
  destruct (def_equivalent (id, a) (id, joined a b)) eqn:E; [|done].
  by apply type_equivalent_agree in E as [? _].
Qed.

Lemma settle_winner id a b :
  is_internal_data_type id = false -> mm_name a = mm_name b -> ~ joinable a b ->
  settle id a b = snd (type_winner (id, a) (id, b)).
Proof.
  intros Hi Hn Hj. unfold settle.
  destruct (def_equivalent (id, a) (id, b)) eqn:E.
  { apply type_equivalent_agree in E as [Hag _]. destruct Hj. unfold type_agree, joinable in *. naive_solver. }
  cbv zeta. destruct (merge_type_cases id a b Hi Hn) as [[? _]|[_ ->]]; [done|].
  unfold type_winner. destruct (winner_key_leb _ _); [by rewrite equivalent_refl|]. by rewrite E.
Qed.

(** Two definitions of one type are settled alike from both sides, once and for
    all, unless two different ones have one fingerprint. *)
Lemma settle_type_comm id a b :
  is_internal_data_type id = false -> mm_name a = mm_name b ->
  (type_fingerprint (id, a) = type_fingerprint (id, b) -> type_agree a b) ->
  type_agree (settle id a b) (settle id b a) /\ settle id (settle id a b) (settle id b a) = settle id a b.
Proof.
  intros Hi Hn Hfp. destruct (def_equivalent (id, a) (id, b)) eqn:E.
  { pose proof (type_equivalent_agree _ _ _ E) as [Hag E'].
    assert (settle id a b = a) as -> by (unfold settle; by rewrite E).
    assert (settle id b a = b) as -> by (unfold settle; by rewrite E').
    split; [done|]. unfold settle. by rewrite E. }
  assert (def_equivalent (id, b) (id, a) = false) as E'.
  { apply not_true_iff_false. intros [_ Ht]%type_equivalent_agree. congruence. }
  destruct (merge_type_cases id a b Hi Hn) as [[Hj _]|[Hj _]].
  - assert (joinable b a) as Hj' by (unfold joinable in *; naive_solver).
    pose proof (settle_joined id a b Hi Hj E) as Ha. pose proof (settle_joined id b a Hi Hj' E') as Hb.
    set (x := settle id a b) in *. set (y := settle id b a) in *. clearbody x y.
    assert (type_agree x y) as Hxy.
    { eapply type_agree_trans; [exact Ha|]. eapply type_agree_trans; [by apply joined_agree|].
      by apply type_agree_sym. }
    split; [done|]. unfold settle. destruct (def_equivalent (id, x) (id, y)); [done|]. cbv zeta.
    assert (joinable x y) as Hjxy by (unfold joinable, type_agree in *; naive_solver).
    destruct (merge_type_cases id x y Hi (proj1 Hjxy)) as [[_ ->]|[? _]]; [|done].
    assert (joined x y = x) as ->; [|by rewrite equivalent_refl].
    unfold joined. destruct x as [n d el eps re pr e2]. unfold type_agree in *. cbn in *.
    destruct Ha as (_ & _ & -> & _ & -> & _). destruct Hxy as (_ & _ & <- & _ & <- & _).
    by rewrite merge_destinations_idemp, Z.max_id.
  - assert (~ joinable b a) as Hj' by (unfold joinable in *; naive_solver).
    rewrite (settle_winner id a b), (settle_winner id b a) by done.
    rewrite (type_winner_comm (id, b) (id, a)).
    + split; [done|]. set (w := snd _). unfold settle. by rewrite equivalent_refl.
    + intros Hf. apply Hj. symmetry in Hf. apply Hfp in Hf. unfold joinable, type_agree in *. naive_solver.
Qed.

(** ** An exchange *)

(** One side of it: the catalogue of [b] is merged into [a]. *)
Record exchanged (a b a' : Registry) : Prop := {
  ex_ok : registry_ok a';
  ex_endpoints : forall d, d ∈ endpoints b -> compatible (endpoints a) d;
  ex_types : forall d, d ∈ types b -> compatible (types a) d;
  ex_endpoint_at : forall id, meta_at (endpoints a') id = merged_at (endpoints a) (endpoints b) id;
  ex_type_at : forall id, meta_at (types a') id = merged_at (types a) (types b) id;
}.

Lemma normal_export reg : registry_ok reg -> normal (export_schema reg) = export_schema reg.
Proof.
  intros Hreg. apply normal_twice; [apply (table_ids _ (reg_endpoints _ Hreg))|apply (table_ids _ (reg_types _ Hreg))].
Qed.

Lemma merge_exchanged {L : EntrySizes} a b max report a' :
  registry_ok a -> registry_ok b ->
  merge_owned_schema_snapshot_with_budget a (export_schema b) max = (Ok report, a') -> exchanged a b a'.
Proof.
  intros Ha Hb Hm. pose proof (merge_ok a (export_schema b) max Ha) as Hok.
  pose proof (merge_budget_spec a (export_schema b) max Ha) as Hs. rewrite Hm in Hs, Hok. cbn [snd] in Hok.
  rewrite normal_export in Hs by done. cbn [snap_endpoints snap_types export_schema] in Hs.
  destruct Hs as (_ & Hte & Htt & _ & _ & Hce & Hct & ea & er & ek & ta & tr & tk & Ee & Et & _).
  pose proof (merge_entries_spec _ _ (next_endpoint_id a) (0, 0, 0) (reg_endpoints _ Ha) Hte Hce) as He.
  pose proof (merge_entries_spec _ _ (next_type_id a) (0, 0, 0) (reg_types _ Ha) Htt Hct) as Ht.
  rewrite Ee in He. rewrite Et in Ht. destruct He as (_ & He & _), Ht as (_ & Ht & _). by split.
Qed.

(** A catalogue that settles nothing anew. *)
Lemma merge_settled {L : EntrySizes} a b max :
  registry_ok a -> registry_ok b ->
  (forall id, option_Forall2 (fun x y => em_name x = em_name y /\ settle id x y = x)
                (meta_at (endpoints a) id) (meta_at (endpoints b) id)) ->
  (forall id, option_Forall2 (fun x y => mm_name x = mm_name y /\ settle id x y = x)
                (meta_at (types a) id) (meta_at (types b) id)) ->
  match merge_owned_schema_snapshot_with_budget a (export_schema b) max with
  | (Ok report, a') => changed report = false /\ a' = a
  | (Err e, a') => e = budget_error /\ a' = a
  end.
Proof.
  intros Ha Hb He Ht.
  assert (forall d, d ∈ endpoints b -> compatible (endpoints a) d) as Hce.
  { apply same_names_compatible; [by apply reg_endpoints..|]. intros id. specialize (He id).
    inversion He as [x y [Hn _]|]; by constructor. }
  assert (forall d, d ∈ types b -> compatible (types a) d) as Hct.
  { apply same_names_compatible; [by apply reg_types..|]. intros id. specialize (Ht id).
    inversion Ht as [x y [Hn _]|]; by constructor. }
  unfold merge_owned_schema_snapshot_with_budget, validate_schema_identities.
  cbn [snap_endpoints snap_types export_schema].
  rewrite (table_validates (endpoints b)) by (by apply reg_endpoints). cbn [mbind result_bind].
  rewrite (table_validates (types b)) by (by apply reg_types).
  fold (normal (export_schema b)). rewrite normal_export by done. cbv zeta.
  destruct (max <? sat_add _ _); [done|].
  pose proof (proj2 (any_conflict_false _ _) Hce) as Hae. pose proof (proj2 (any_conflict_false _ _) Hct) as Hat.
  cbn [snap_endpoints snap_types export_schema]. rewrite Hae, Hat. cbn [orb].
  unfold merge_owned_schema_snapshot_locked. fold (normal (export_schema b)). rewrite normal_export by done.
  cbv zeta. cbn [snap_endpoints snap_types export_schema].
  destruct (merge_entries_stable (endpoints b) (endpoints a) (next_endpoint_id a) 0 0 0) as [ke ->];
    [by apply reg_endpoints|by apply reg_endpoints|done| |].
  { intros [i y] Hd. pose proof (reg_endpoints _ Hb) as Hbe.
    apply meta_at_some in Hd; [|by apply table_ids]. specialize (He i). rewrite Hd in He.
    inversion He as [x y' [_ Hs] Hx Hy|]; subst. eauto. }
  destruct (merge_entries_stable (types b) (types a) (next_type_id a) 0 0 0) as [kt ->];
    [by apply reg_types|by apply reg_types|done| |].
  { intros [i y] Hd. pose proof (reg_types _ Hb) as Hbt.
    apply meta_at_some in Hd; [|by apply table_ids]. specialize (Ht i). rewrite Hd in Ht.
    inversion Ht as [x y' [_ Hs] Hx Hy|]; subst. eauto. }
  destruct (max <? schema_byte_cost _); [by destruct a|]. split; [done|]. by destruct a.
Qed.

Lemma internal_endpoint_builtin id :
  is_internal_endpoint id = true -> exists m, (id, m) ∈ builtin_endpoints.
Proof.
  unfold is_internal_endpoint, one_of. cbn [existsb]. rewrite orb_false_r, !orb_true_iff, !Z.eqb_eq.
  unfold builtin_endpoints, endpoint_def.
  intros [->|[->| ->]]; eexists; [left|right; left|right; right; left].
Qed.

(** Both nodes hold the protocol's endpoints as they are. *)
Lemma internal_endpoints_equal a b id x y :
  registry_ok a -> registry_ok b -> is_internal_endpoint id = true ->
  meta_at (endpoints a) id = Some x -> meta_at (endpoints b) id = Some y -> x = y.
Proof.
  intros Ha Hb (m & Hm)%internal_endpoint_builtin Hx Hy.
  pose proof (reg_protocol_endpoints _ Ha _ Hm) as Hma. pose proof (reg_protocol_endpoints _ Hb _ Hm) as Hmb.
  apply meta_at_some in Hma; [|by apply table_ids, reg_endpoints].
  apply meta_at_some in Hmb; [|by apply table_ids, reg_endpoints]. congruence.
Qed.

Section Exchange.
Variables a b a' b' : Registry.
Hypothesis Ha : registry_ok a.
Hypothesis Hb : registry_ok b.
Hypothesis Hab : exchanged a b a'.
Hypothesis Hba : exchanged b a b'.

(** Two definitions of one type with one fingerprint agree. *)
Definition fingerprints_tell : Prop :=
  forall id x y, meta_at (types a) id = Some x -> meta_at (types b) id = Some y ->
    type_fingerprint (id, x) = type_fingerprint (id, y) -> type_agree x y.

Lemma exchange_endpoints id :
  option_Forall2 (fun x y => endpoint_agree x y /\ settle id x y = x)
    (meta_at (endpoints a') id) (meta_at (endpoints b') id).
Proof.
  rewrite (ex_endpoint_at _ _ _ Hab), (ex_endpoint_at _ _ _ Hba). unfold merged_at.
  destruct (meta_at (endpoints a) id) as [x|] eqn:Ex, (meta_at (endpoints b) id) as [y|] eqn:Ey;
    [|constructor; split; [done|by apply settle_endpoint_settled]..|constructor].
  assert (endpoint_agree (settle id x y) (settle id y x)) as Hag; [|by constructor; split; [|apply settle_endpoint_settled]].
  apply settle_endpoint_comm.
  - intros Hi. by eapply (internal_endpoints_equal a b).
  - apply (endpoint_compatible (endpoints a) (id, y)); [by apply table_ids, reg_endpoints| |done].
    apply (ex_endpoints _ _ _ Hab). apply meta_at_some; [by apply table_ids, reg_endpoints|done].
Qed.

Lemma exchange_types id :
  fingerprints_tell ->
  option_Forall2 (fun x y => (is_internal_data_type id = false -> type_agree x y) /\
                             mm_name x = mm_name y /\ settle id x y = x)
    (meta_at (types a') id) (meta_at (types b') id).
Proof.
  intros Hfp. rewrite (ex_type_at _ _ _ Hab), (ex_type_at _ _ _ Hba). unfold merged_at.
  assert (forall x : MessageMeta, settle id x x = x) as Hself by (intros x; unfold settle; by rewrite equivalent_refl).
  destruct (meta_at (types a) id) as [x|] eqn:Ex, (meta_at (types b) id) as [y|] eqn:Ey;
    [|by constructor..].
  assert (mm_name x = mm_name y) as Hn.
  { apply (type_compatible (types a) (id, y)); [by apply table_ids, reg_types| |done].
    apply (ex_types _ _ _ Hab). apply meta_at_some; [by apply table_ids, reg_types|done]. }
  constructor. split; [|split].
  - intros Hi. apply settle_type_comm; [done..|]. by apply Hfp.
  - by rewrite !settle_type_name.
  - destruct (is_internal_data_type id) eqn:Hi.
    + by rewrite !settle_internal_type.
    + apply settle_type_comm; [done..|]. by apply Hfp.
Qed.
End Exchange.

(** ** Property *)

(** C9: an exchange of schemas converges.  When two nodes have merged
    each other's catalogue, they know the same endpoints with the same names and
    scopes and the same application types with the same shape, destinations,
    reliability, priority and encryption, provided a fingerprint tells different
    definitions of one type apart; only descriptions may differ.  Exchanging the
    catalogues again changes nothing, on either node, and is refused at most for
    the budget. *)
Theorem schema_exchange_converges {L : EntrySizes} a b max_a max_b report_a report_b a' b' :
  registry_ok a -> registry_ok b ->
  merge_owned_schema_snapshot_with_budget a (export_schema b) max_a = (Ok report_a, a') ->
  merge_owned_schema_snapshot_with_budget b (export_schema a) max_b = (Ok report_b, b') ->
  fingerprints_tell a b ->
  (forall id, option_Forall2 endpoint_agree (meta_at (endpoints a') id) (meta_at (endpoints b') id)) /\
  (forall id, is_internal_data_type id = false ->
     option_Forall2 type_agree (meta_at (types a') id) (meta_at (types b') id)) /\
  (forall max,
     match merge_owned_schema_snapshot_with_budget a' (export_schema b') max with
     | (Ok report, a2) => changed report = false /\ a2 = a'
     | (Err e, a2) => e = budget_error /\ a2 = a'
     end) /\
  (forall max,
     match merge_owned_schema_snapshot_with_budget b' (export_schema a') max with
     | (Ok report, b2) => changed report = false /\ b2 = b'
     | (Err e, b2) => e = budget_error /\ b2 = b'
     end).
Proof.
  intros Ha Hb Hma Hmb Hfp.
  pose proof (merge_exchanged _ _ _ _ _ Ha Hb Hma) as Hab. pose proof (merge_exchanged _ _ _ _ _ Hb Ha Hmb) as Hba.
  assert (fingerprints_tell b a) as Hfp'.
  { intros id x y Hx Hy Hf. apply type_agree_sym. by apply (Hfp id). }
  split; [|split; [|split]].
  - intros id. destruct (exchange_endpoints a b a' b' Ha Hb Hab Hba id) as [x y [H _]|]; by constructor.
  - intros id Hi. destruct (exchange_types a b a' b' Ha Hb Hab Hba id Hfp) as [x y [H _]|]; constructor; auto.
  - intros max. apply merge_settled; [apply (ex_ok _ _ _ Hab)|apply (ex_ok _ _ _ Hba)|..]; intros id.
    + destruct (exchange_endpoints a b a' b' Ha Hb Hab Hba id) as [x y [[H _] ?]|]; by constructor.
    + destruct (exchange_types a b a' b' Ha Hb Hab Hba id Hfp) as [x y [_ H]|]; by constructor.
  - intros max. apply merge_settled; [apply (ex_ok _ _ _ Hba)|apply (ex_ok _ _ _ Hab)|..]; intros id.
    + destruct (exchange_endpoints b a b' a' Hb Ha Hba Hab id) as [x y [[H _] ?]|]; by constructor.
    + destruct (exchange_types b a b' a' Hb Ha Hba Hab id Hfp') as [x y [_ H]|]; by constructor.
Qed.

(** ** A sample *)

#[export] Instance type_agree_dec a b : Decision (type_agree a b).
Proof. unfold type_agree. apply _. Defined.

(** [fingerprints_tell], by evaluation. *)
Definition tell_apart (a b : Registry) : bool :=
  forallb (fun x => forallb (fun y =>
    if fst x =? fst y then
      if type_fingerprint x =? type_fingerprint y then bool_decide (type_agree (snd x) (snd y)) else true
    else true) (types b)) (types a).

Lemma tell_apart_spec a b : registry_ok a -> registry_ok b -> tell_apart a b = true -> fingerprints_tell a b.
Proof.
  intros Ha Hb Ht id x y Hx Hy Hf. unfold tell_apart in Ht. rewrite forallb_forall in Ht.
  apply meta_at_some in Hx; [|by apply table_ids, reg_types]. apply meta_at_some in Hy; [|by apply table_ids, reg_types].
  apply list_elem_of_In, Ht in Hx. rewrite forallb_forall in Hx. apply list_elem_of_In, Hx in Hy.
  cbn [fst snd] in Hy. rewrite Z.eqb_refl, Hf, Z.eqb_refl in Hy.
  by apply bool_decide_eq_true in Hy.
Qed.

Definition sample_merged_back : result SchemaMergeReport * Registry :=
  Eval vm_compute in @merge_owned_schema_snapshot_with_budget sample_sizes sample_b (export_schema sample_a) 100000.

Lemma sample_merged_back_eq :
  @merge_owned_schema_snapshot_with_budget sample_sizes sample_b (export_schema sample_a) 100000
    = sample_merged_back.
Proof. by vm_compute. Qed.

Lemma sample_tell : tell_apart sample_a sample_b = true.
Proof. by vm_compute. Qed.

Definition report_of (r : result SchemaMergeReport * Registry) : SchemaMergeReport :=
  match fst r with
  | Ok report => report
  | Err _ => {| endpoints_added := 0; endpoints_replaced := 0; endpoints_kept := 0;
                types_added := 0; types_replaced := 0; types_kept := 0 |}
  end.

Lemma report_of_eq r : is_ok (fst r) = true -> r = (Ok (report_of r), snd r).
Proof. by destruct r as [[?|?] ?]. Qed.

Lemma schema_exchange_converges_witness :
  option_Forall2 type_agree (meta_at (types (snd sample_merged)) 100)
    (meta_at (types (snd sample_merged_back)) 100).
Proof.
  refine (proj1 (proj2 (@schema_exchange_converges sample_sizes sample_a sample_b 100000 100000
    (report_of sample_merged) (report_of sample_merged_back) (snd sample_merged) (snd sample_merged_back)
    sample_a_ok sample_b_ok _ _ _)) 100 eq_refl).
  - rewrite sample_merged_eq. by apply report_of_eq.
  - rewrite sample_merged_back_eq. by apply report_of_eq.
  - exact (tell_apart_spec _ _ sample_a_ok sample_b_ok sample_tell).
Defined.
