(* ===== verification/SchemaLoad.v ===== *)
(** * Loading a schema from JSON (src/src/config.rs)

    A schema file is loaded into the registry row by row, within a budget, and
    taken back as a whole if anything fails.  The JSON parser is a package: it
    appears as the members it delivers, each with the rows read before it ended
    or failed. *)

From stdpp Require Import list sets.
From S2P Require Import Prelude Schema SchemaIdentity SchemaRegistry SchemaTable SchemaMerge.

Open Scope Z_scope.

(** ** Rows *)

Record JsonEndpoint : Type := {
  je_id : option Z;
  je_rust : option string;
  je_name : string;
  je_description : option string;
  je_link_local_only : option bool;
  je_broadcast_mode : option string;
}.

Inductive JsonElement : Type :=
| JsonStatic (data_type : string) (count : option Z)
| JsonDynamic (data_type : string).

Record JsonType : Type := {
  jt_id : option Z;
  jt_name : string;
  jt_description : option string;
  jt_class : string;
  jt_element : JsonElement;
  jt_endpoints : list string;
  jt_reliable : ReliableMode;
  jt_priority : option Z;
  jt_e2e_encryption : option string;
}.

(** [match s { "A" => .., "B" => .., _ => Err(BadArg) }]. *)
Fixpoint keyword {A} (s : string) (table : list (string * A)) : result A :=
  match table with
  | [] => Err BadArg
  | (k, a) :: table => if String.eqb s k then Ok a else keyword s table
  end.

Definition parse_message_class (s : string) : result MessageClass :=
  keyword s [("Data", CData); ("Error", CError); ("Warning", CWarning)].

Definition parse_message_data_type (s : string) : result MessageDataType :=
  keyword s [("Float64", Float64); ("Float32", Float32); ("UInt8", UInt8); ("UInt16", UInt16);
             ("UInt32", UInt32); ("UInt64", UInt64); ("UInt128", UInt128); ("Int8", Int8);
             ("Int16", Int16); ("Int32", Int32); ("Int64", Int64); ("Int128", Int128);
             ("Bool", TBool); ("String", TString); ("Binary", Binary); ("NoData", NoData)].

Definition parse_e2e_encryption_policy (raw : option string) : result E2eEncryptionPolicy :=
  keyword (default "PreferOff"%string raw)
    [("PreferOff", PreferOff); ("prefer_off", PreferOff); ("off", PreferOff); ("false", PreferOff);
     ("PreferOn", PreferOn); ("prefer_on", PreferOn); ("preferred", PreferOn); ("true", PreferOn);
     ("RequireOn", RequireOn); ("require_on", RequireOn); ("required", RequireOn)].

Definition parse_element (e : JsonElement) (class : MessageClass) : result MessageElement :=
  match e with
  | JsonStatic dt count => dt ← parse_message_data_type dt; Ok (Static (default 1 count) dt class)
  | JsonDynamic dt => dt ← parse_message_data_type dt; Ok (Dynamic dt class)
  end.

Definition row_link_local (overlay : bool) (ep : JsonEndpoint) : bool :=
  overlay || default false (je_link_local_only ep)
  || match je_broadcast_mode ep with Some mode => String.eqb mode "Never" | None => false end.

Definition row_endpoint (overlay : bool) (id : Z) (ep : JsonEndpoint) : OwnedEndpointDefinition :=
  endpoint_def id (je_name ep) (default ""%string (je_description ep)) (row_link_local overlay ep).

(** [resolve_*(..).map_err(|_| BadArg)]. *)
Definition or_bad_arg (r : Z + string) : result Z := match r with inl id => Ok id | inr _ => Err BadArg end.

Fixpoint find_alias (name : string) (aliases : list (string * Z)) : option Z :=
  match aliases with
  | [] => None
  | (alias, id) :: aliases => if String.eqb alias name then Some id else find_alias name aliases
  end.

(** ** The streaming loader *)

Record StreamingSchemaState : Type := {
  ss_reg : Registry;
  aliases : list (string * Z);
  alias_bytes : Z;
  added_endpoints : list DataEndpoint;
  added_types : list DataType;
  seen_types : list DataType;
  initial_next_endpoint_id : Z;
  initial_next_type_id : Z;
  link_local_overlay : bool;
  max_schema_bytes : Z;
  saw_endpoints : bool;
  saw_types : bool;
  ss_error : option TelemetryError;
}.

Definition set_reg (reg : Registry) (s : StreamingSchemaState) : StreamingSchemaState :=
  {| ss_reg := reg; aliases := aliases s; alias_bytes := alias_bytes s; added_endpoints := added_endpoints s;
     added_types := added_types s; seen_types := seen_types s;
     initial_next_endpoint_id := initial_next_endpoint_id s; initial_next_type_id := initial_next_type_id s;
     link_local_overlay := link_local_overlay s; max_schema_bytes := max_schema_bytes s;
     saw_endpoints := saw_endpoints s; saw_types := saw_types s; ss_error := ss_error s |}.
Definition set_aliases (al : list (string * Z)) (n : Z) (s : StreamingSchemaState) : StreamingSchemaState :=
  {| ss_reg := ss_reg s; aliases := al; alias_bytes := n; added_endpoints := added_endpoints s;
     added_types := added_types s; seen_types := seen_types s;
     initial_next_endpoint_id := initial_next_endpoint_id s; initial_next_type_id := initial_next_type_id s;
     link_local_overlay := link_local_overlay s; max_schema_bytes := max_schema_bytes s;
     saw_endpoints := saw_endpoints s; saw_types := saw_types s; ss_error := ss_error s |}.
Definition set_added (eps : list DataEndpoint) (tys seen : list DataType) (s : StreamingSchemaState)
    : StreamingSchemaState :=
  {| ss_reg := ss_reg s; aliases := aliases s; alias_bytes := alias_bytes s; added_endpoints := eps;
     added_types := tys; seen_types := seen;
     initial_next_endpoint_id := initial_next_endpoint_id s; initial_next_type_id := initial_next_type_id s;
     link_local_overlay := link_local_overlay s; max_schema_bytes := max_schema_bytes s;
     saw_endpoints := saw_endpoints s; saw_types := saw_types s; ss_error := ss_error s |}.
Definition set_progress (eps tys : bool) (error : option TelemetryError) (s : StreamingSchemaState)
    : StreamingSchemaState :=
  {| ss_reg := ss_reg s; aliases := aliases s; alias_bytes := alias_bytes s;
     added_endpoints := added_endpoints s; added_types := added_types s; seen_types := seen_types s;
     initial_next_endpoint_id := initial_next_endpoint_id s; initial_next_type_id := initial_next_type_id s;
     link_local_overlay := link_local_overlay s; max_schema_bytes := max_schema_bytes s;
     saw_endpoints := eps; saw_types := tys; ss_error := error |}.

Section Load.
Context {L : EntrySizes}.

Definition ensure_budget (s : StreamingSchemaState) (additional : Z) : result unit :=
  if max_schema_bytes s <? sat_add (sat_add (schema_byte_cost (ss_reg s)) (alias_bytes s)) additional
  then Err budget_error else Ok tt.

(** The loop over the two names of a row. *)
Fixpoint add_aliases (id : Z) (names : list string) (s : StreamingSchemaState)
    : result unit * StreamingSchemaState :=
  match names with
  | [] => (Ok tt, s)
  | alias :: names =>
      if existsb (fun k => String.eqb (fst k) alias && negb (snd k =? id)) (aliases s) then (Err BadArg, s)
      else if existsb (fun k => String.eqb (fst k) alias) (aliases s) then add_aliases id names s
      else match ensure_budget s (string_len alias) with
           | Err e => (Err e, s)
           | Ok _ =>
               add_aliases id names
                 (set_aliases (aliases s ++ [(alias, id)]) (sat_add (alias_bytes s) (string_len alias)) s)
           end
  end.

Definition add_endpoint (ep : JsonEndpoint) (s : StreamingSchemaState) : result unit * StreamingSchemaState :=
  let rust_name := default (je_name ep) (je_rust ep) in
  if existsb (fun k => String.eqb (fst k) rust_name || String.eqb (fst k) (je_name ep)) (aliases s)
  then (Err BadArg, s)
  else match or_bad_arg (resolve_endpoint (je_name ep) (je_id ep)) with
  | Err e => (Err e, s)
  | Ok id =>
      let existed := endpoint_exists (ss_reg s) id in
      let description := default ""%string (je_description ep) in
      let retained :=
        if existed then 0
        else endpoint_schema_byte_cost (string_len (je_name ep)) (string_len description) in
      match ensure_budget s (sat_add retained (string_len rust_name)) with
      | Err e => (Err e, s)
      | Ok _ =>
          match register_owned_endpoint (ss_reg s) (row_endpoint (link_local_overlay s) id ep) with
          | Err e => (Err e, s)
          | Ok reg =>
              let s := set_reg reg s in
              let s := if existed then s
                       else set_added (added_endpoints s ++ [id]) (added_types s) (seen_types s) s in
              match endpoint_definition reg id with
              | None => (Err BadArg, s)
              | Some canonical => add_aliases id [rust_name; em_name (snd canonical)] s
              end
          end
      end
  end.

(** A destination by an alias of the file, by a name the registry has, or by the
    number of its name. *)
Definition resolve_destination (s : StreamingSchemaState) (name : string) : DataEndpoint :=
  match find_alias name (aliases s) with
  | Some id => id
  | None => match endpoint_try_named (ss_reg s) name with Some id => id | None => endpoint_id name end
  end.

Definition row_type (ty : JsonType) (id : Z) (eps : list DataEndpoint) : result OwnedDataTypeDefinition :=
  class ← parse_message_class (jt_class ty);
  el ← parse_element (jt_element ty) class;
  policy ← parse_e2e_encryption_policy (jt_e2e_encryption ty);
  Ok (type_def id (jt_name ty) (default ""%string (jt_description ty)) el eps (jt_reliable ty)
        (default 0 (jt_priority ty)) policy).

Definition add_type (ty : JsonType) (s : StreamingSchemaState) : result unit * StreamingSchemaState :=
  let eps := map (resolve_destination s) (jt_endpoints ty) in
  match or_bad_arg (resolve_type (jt_name ty) (jt_id ty)) with
  | Err e => (Err e, s)
  | Ok id =>
      if one_of id (seen_types s) then (Err BadArg, s)
      else match ensure_budget s 4 with
      | Err e => (Err e, s)
      | Ok _ =>
          let s := set_added (added_endpoints s) (added_types s) (seen_types s ++ [id])
                     (set_aliases (aliases s) (sat_add (alias_bytes s) 4) s) in
          let existed := data_type_exists (ss_reg s) id in
          let cost := type_schema_byte_cost (string_len (jt_name ty))
                        (string_len (default ""%string (jt_description ty))) (zlen eps) in
          match (if existed then Ok tt else ensure_budget s cost) with
          | Err e => (Err e, s)
          | Ok _ =>
              match (d ← row_type ty id eps; register_owned_type (ss_reg s) d) with
              | Err e => (Err e, s)
              | Ok reg =>
                  let s := set_reg reg s in
                  (Ok tt, if existed then s
                          else set_added (added_endpoints s) (added_types s ++ [id]) (seen_types s) s)
              end
          end
      end
  end.

Definition rollback (s : StreamingSchemaState) : Registry :=
  {| endpoints := retain (fun e => negb (one_of (fst e) (added_endpoints s))) (endpoints (ss_reg s));
     types := retain (fun e => negb (one_of (fst e) (added_types s))) (types (ss_reg s));
     next_endpoint_id := initial_next_endpoint_id s;
     next_type_id := initial_next_type_id s |}.

(** What the parser delivers: the members of the object in order, each array with
    the rows before its end ([true]) or before it failed to parse ([false]). *)
Inductive JsonMember : Type :=
| EndpointsMember (rows : list JsonEndpoint) (complete : bool)
| TypesMember (rows : list JsonType) (complete : bool)
| OtherMember (complete : bool).

(** [visit_seq]: [false] stops the parse; the error of a row is kept. *)
Fixpoint add_rows {A} (add : A -> StreamingSchemaState -> result unit * StreamingSchemaState)
    (rows : list A) (complete : bool) (s : StreamingSchemaState) : bool * StreamingSchemaState :=
  match rows with
  | [] => (complete, s)
  | row :: rows =>
      match add row s with
      | (Err e, s) => (false, set_progress (saw_endpoints s) (saw_types s) (Some e) s)
      | (Ok _, s) => add_rows add rows complete s
      end
  end.

Definition visit_member (m : JsonMember) (s : StreamingSchemaState) : bool * StreamingSchemaState :=
  match m with
  | EndpointsMember rows complete =>
      add_rows add_endpoint rows complete (set_progress true (saw_types s) (ss_error s) s)
  | TypesMember rows complete =>
      if negb (saw_endpoints s) then (false, set_progress (saw_endpoints s) (saw_types s) (Some BadArg) s)
      else add_rows add_type rows complete (set_progress (saw_endpoints s) true (ss_error s) s)
  | OtherMember complete => (complete, s)
  end.

Fixpoint visit_map (members : list JsonMember) (s : StreamingSchemaState) : bool * StreamingSchemaState :=
  match members with
  | [] => (true, s)
  | m :: members =>
      match visit_member m s with
      | (false, s) => (false, s)
      | (true, s) => visit_map members s
      end
  end.

Definition initial_state (reg : Registry) (overlay : bool) (max : Z) : StreamingSchemaState :=
  {| ss_reg := reg; aliases := []; alias_bytes := 0; added_endpoints := []; added_types := [];
     seen_types := []; initial_next_endpoint_id := next_endpoint_id reg;
     initial_next_type_id := next_type_id reg; link_local_overlay := overlay; max_schema_bytes := max;
     saw_endpoints := false; saw_types := false; ss_error := None |}.

(** [ended]: the object and the input after it end as they should. *)
Definition register_schema_json_reader_into (reg : Registry) (members : list JsonMember) (ended : bool)
    (overlay : bool) (max : Z) : result unit * Registry :=
  let '(parsed, s) := visit_map members (initial_state reg overlay max) in
  if negb (parsed && ended) || negb (saw_endpoints s) || negb (saw_types s) then
    (Err (default (Unpack "schema json") (ss_error s)), rollback s)
  else (Ok tt, ss_reg s).
End Load.

(** ** Loading and taking back *)

Lemma endpoint_exists_meta reg id :
  by_id (endpoints reg) -> endpoint_exists reg id = true <-> exists m, meta_at (endpoints reg) id = Some m.
Proof.
  intros Hs. unfold endpoint_exists. rewrite existsb_exists. split.
  - intros ([i m] & Hin & Heq). apply Z.eqb_eq in Heq. cbn [fst] in Heq. subst i.
    exists m. apply meta_at_some; [done|]. by apply list_elem_of_In.
  - intros [m Hm]. apply meta_at_some in Hm; [|done]. exists (id, m). split; [by apply list_elem_of_In|].
    apply Z.eqb_refl.
Qed.

Lemma data_type_exists_meta reg id :
  by_id (types reg) -> data_type_exists reg id = true <-> exists m, meta_at (types reg) id = Some m.
Proof.
  intros Hs. unfold data_type_exists. rewrite existsb_exists. split.
  - intros ([i m] & Hin & Heq). apply Z.eqb_eq in Heq. cbn [fst] in Heq. subst i.
    exists m. apply meta_at_some; [done|]. by apply list_elem_of_In.
  - intros [m Hm]. apply meta_at_some in Hm; [|done]. exists (id, m). split; [by apply list_elem_of_In|].
    apply Z.eqb_refl.
Qed.

(** What has been added to a table since the load began. *)
Record grown {M : Type} (l0 l : list (Z * M)) (added : list Z) : Prop := {
  grown_keeps : forall e, e ∈ l0 -> e ∈ l;
  grown_new : forall e, e ∈ l -> e ∈ l0 \/ fst e ∈ added;
  grown_fresh : forall e, e ∈ l0 -> fst e ∉ added;
}.

Lemma grown_nothing {M} (l : list (Z * M)) : grown l l [].
Proof. split; [done|by left|]. by intros e _ ?%not_elem_of_nil. Qed.

(** Taking back what was added gives the table of the beginning. *)
Lemma grown_retain `{SchemaMeta M} (l0 l : list (Z * M)) added :
  table_ok l0 -> table_ok l -> grown l0 l added ->
  retain (fun e => negb (one_of (fst e) added)) l = l0.
Proof.
  intros H0 Hl [Hk Hn Hf]. assert (forall i, one_of i added = true <-> i ∈ added) as Hone.
  { intros i. unfold one_of. rewrite existsb_exists. setoid_rewrite Z.eqb_eq. split.
    - intros (x & Hx & ->). by apply list_elem_of_In.
    - intros Hi. exists i. by rewrite <- list_elem_of_In. }
  apply by_id_ext; [apply (table_ids _ (retain_ok l _ Hl))|by apply table_ids|].
  intros e. rewrite elem_of_retain, negb_true_iff, <- not_true_iff_false, Hone. split.
  - intros [He Hni]. by destruct (Hn e He).
  - intros He. auto.
Qed.

(** One registration, of a number that is added unless it was known. *)
Lemma register_grown `{SchemaMetaLaws M} (l0 l l' : list (Z * M)) next next' d added known :
  table_ok l -> grown l0 l added -> register_entry l next d = Ok (l', next') ->
  (known = true <-> exists m, meta_at l (fst d) = Some m) ->
  grown l0 l' (if known then added else added ++ [fst d]) /\ (known = true -> l' = l /\ next' = next).
Proof.
  intros Hl [Hk Hn Hf] Hr Hkn. pose proof (register_entry_spec l next d Hl) as Hs. rewrite Hr in Hs.
  destruct Hs as (Hl' & _ & Hat & Hcase). destruct known.
  - destruct (proj1 Hkn eq_refl) as [m Hm]. destruct Hcase as [[-> ->]|[Hno _]]; [|congruence]. by split.
  - split; [|done]. assert (meta_at l (fst d) = None) as Hno.
    { destruct (meta_at l (fst d)) as [m|]; [|done]. destruct Hkn as [_ Hkn]. discriminate Hkn. eauto. }
    assert (forall i m, (i, m) ∈ l' <-> i = fst d /\ m = snd d \/ i <> fst d /\ (i, m) ∈ l) as Hin.
    { intros i m. rewrite <- !meta_at_some by (by apply table_ids). rewrite Hat.
      destruct (Z.eqb_spec i (fst d)) as [->|]; naive_solver. }
    split.
    + intros [i m] He%Hk. apply Hin. right. split; [|done]. intros ->.
      apply meta_at_some in He; [congruence|by apply table_ids].
    + intros [i m] [[-> ->]|[_ He]]%Hin; cbn [fst]; [right; set_solver|].
      destruct (Hn _ He) as [|Ha]; [by left|right; set_solver].
    + intros e He. rewrite elem_of_app, list_elem_of_singleton. intros [Ha|Heq]; [by apply (Hf e)|].
      apply Hk in He. destruct e as [i m]. cbn [fst] in Heq. subst i.
      apply meta_at_some in He; [congruence|by apply table_ids].
Qed.

(** *** Costs *)

Section LoadFacts.
Context {L : EntrySizes}.

Lemma sum_costs_perm {A} (cost : A -> Z) l l' : l ≡ₚ l' -> sum_costs cost l = sum_costs cost l'.
Proof. unfold sum_costs. induction 1; cbn; lia. Qed.

Lemma string_len_nonneg s : 0 <= string_len s.
Proof. unfold string_len. solve_u. Qed.

Lemma endpoint_cost_nonneg e : 0 <= endpoint_cost e.
Proof.
  unfold endpoint_cost, endpoint_schema_byte_cost. destruct entry_sizes_nonneg.
  pose proof (string_len_nonneg (em_name (snd e))). pose proof (string_len_nonneg (em_description (snd e))).
  solve_u.
Qed.

Lemma type_cost_nonneg e : 0 <= type_cost e.
Proof.
  unfold type_cost, type_schema_byte_cost. destruct entry_sizes_nonneg.
  pose proof (string_len_nonneg (mm_name (snd e))). pose proof (string_len_nonneg (mm_description (snd e))).
  solve_u.
Qed.

Lemma schema_costs_nonneg {A} (cost : A -> Z) l : (forall e, 0 <= cost e) -> 0 <= sum_costs cost l.
Proof. intros Hc. induction l as [|x l IH]; cbn; [lia|]. specialize (Hc x). unfold sum_costs in IH. lia. Qed.

Lemma register_entry_new `{SchemaMetaLaws M} (l l' : list (Z * M)) next next' d cost :
  register_entry l next d = Ok (l', next') -> (l' = l /\ next' = next) \/
  sum_costs cost l' = sum_costs cost l + cost d.
Proof.
  unfold register_entry. repeat case_match; try done; intros [= <- <-]; [by left|right].
  rewrite (sum_costs_perm cost _ (d :: l)); [cbn; fold (sum_costs cost l); lia|].
  rewrite sort_by_id_perm. apply Permutation_sym, Permutation_cons_append.
Qed.

(** A registration costs at most its entry. *)
Lemma register_endpoint_cost reg d reg' :
  register_owned_endpoint reg d = Ok reg' ->
  schema_byte_cost reg' <= sat_add (schema_byte_cost reg) (endpoint_cost d).
Proof.
  intros ([l n] & Hr & [= <-])%result_bind_ok. unfold schema_byte_cost. cbn [endpoints types with_endpoints fst].
  pose proof (endpoint_cost_nonneg d). pose proof (schema_costs_nonneg endpoint_cost (endpoints reg) endpoint_cost_nonneg).
  pose proof (schema_costs_nonneg type_cost (types reg) type_cost_nonneg).
  apply (register_entry_new _ _ _ _ _ endpoint_cost) in Hr as [[-> _]| ->]; solve_u.
Qed.

Lemma register_type_cost reg d reg' :
  register_owned_type reg d = Ok reg' ->
  schema_byte_cost reg' <= sat_add (schema_byte_cost reg) (type_cost d).
Proof.
  intros ([l n] & Hr & [= <-])%result_bind_ok. unfold schema_byte_cost. cbn [endpoints types with_types fst].
  pose proof (type_cost_nonneg d). pose proof (schema_costs_nonneg endpoint_cost (endpoints reg) endpoint_cost_nonneg).
  pose proof (schema_costs_nonneg type_cost (types reg) type_cost_nonneg).
  apply (register_entry_new _ _ _ _ _ type_cost) in Hr as [[-> _]| ->]; solve_u.
Qed.

Lemma schema_byte_cost_range reg : is_u64 (schema_byte_cost reg).
Proof.
  unfold schema_byte_cost. pose proof (schema_costs_nonneg endpoint_cost (endpoints reg) endpoint_cost_nonneg).
  pose proof (schema_costs_nonneg type_cost (types reg) type_cost_nonneg). solve_u.
Qed.

(** *** The invariant of a load *)

Record load_ok (reg0 : Registry) (max : Z) (s : StreamingSchemaState) : Prop := {
  load_reg : registry_ok (ss_reg s);
  load_next : initial_next_endpoint_id s = next_endpoint_id reg0 /\ initial_next_type_id s = next_type_id reg0;
  load_endpoints : grown (endpoints reg0) (endpoints (ss_reg s)) (added_endpoints s);
  load_types : grown (types reg0) (types (ss_reg s)) (added_types s);
  load_max : max_schema_bytes s = max;
  load_alias : 0 <= alias_bytes s;
}.

Definition in_budget (max : Z) (s : StreamingSchemaState) : Prop :=
  sat_add (schema_byte_cost (ss_reg s)) (alias_bytes s) <= max.

Lemma ensure_budget_ok s n u :
  ensure_budget s n = Ok u -> 
  sat_add (sat_add (schema_byte_cost (ss_reg s)) (alias_bytes s)) n <= max_schema_bytes s.
Proof. unfold ensure_budget. case_match; [done|]. by bool_to_prop. Qed.

Lemma load_ok_aliases reg0 max al n s :
  load_ok reg0 max s -> 0 <= n -> load_ok reg0 max (set_aliases al n s).
Proof. intros [] ?. by split. Qed.

Lemma load_ok_progress reg0 max a b e s : load_ok reg0 max s -> load_ok reg0 max (set_progress a b e s).
Proof. intros []. by split. Qed.

Lemma add_aliases_ok reg0 max id names s :
  load_ok reg0 max s ->
  load_ok reg0 max (snd (add_aliases id names s)) /\
  (fst (add_aliases id names s) = Ok tt ->
   in_budget max s \/ (exists n, n ∈ names /\ existsb (fun k => String.eqb (fst k) n) (aliases s) = false) ->
   in_budget max (snd (add_aliases id names s))).
Proof.
  revert s. induction names as [|n names IH]; intros s Hs; cbn [add_aliases fst snd].
  { split; [done|]. intros _ [?|(n & ?%not_elem_of_nil & _)]; done. }
  destruct (existsb _ (aliases s)); [done|].
  destruct (existsb (fun k => String.eqb (fst k) n) (aliases s)) eqn:En.
  - destruct (IH s Hs) as [Hok Hb]. split; [done|]. intros Hr Hor. apply Hb; [done|].
    destruct Hor as [?|(m & [->|Hm]%elem_of_cons & Hne)]; [by left|congruence|right; eauto].
  - destruct (ensure_budget s (string_len n)) as [u|e] eqn:Eb; [|done].
    apply ensure_budget_ok in Eb. pose proof (string_len_nonneg n). pose proof (load_alias _ _ _ Hs).
    set (s' := set_aliases _ _ s).
    assert (load_ok reg0 max s') as Hs' by (apply load_ok_aliases; [done|solve_u]).
    destruct (IH s' Hs') as [Hok Hb]. split; [done|]. intros Hr _. apply Hb; [done|]. left.
    unfold in_budget, s'. cbn [ss_reg set_aliases alias_bytes]. rewrite (load_max _ _ _ Hs) in Eb.
    pose proof (schema_byte_cost_range (ss_reg s)). solve_u.
Qed.

Lemma add_endpoint_ok reg0 max ep s :
  load_ok reg0 max s ->
  load_ok reg0 max (snd (add_endpoint ep s)) /\
  (fst (add_endpoint ep s) = Ok tt -> in_budget max (snd (add_endpoint ep s))).
Proof.
  intros Hs. unfold add_endpoint. cbv zeta.
  destruct (existsb _ (aliases s)) eqn:Eal; [done|].
  destruct (or_bad_arg _) as [id|e]; [|done].
  destruct (ensure_budget s _) as [u|e] eqn:Eb; [|done].
  destruct (register_owned_endpoint _ _) as [reg|e] eqn:Er; [|done].
  pose proof (register_endpoint_ok _ _ _ (load_reg _ _ _ Hs) Er) as Hreg.
  unfold register_owned_endpoint in Er. apply result_bind_ok in Er as ([l n] & Er & [= <-]).
  pose proof (reg_endpoints _ (load_reg _ _ _ Hs)) as Ht.
  destruct (register_grown _ _ _ _ _ _ _ _ Ht (load_endpoints _ _ _ Hs) Er
              (endpoint_exists_meta (ss_reg s) id (table_ids _ Ht))) as [Hgrown _].
  set (s' := if endpoint_exists (ss_reg s) id then _ else _).
  assert (load_ok reg0 max s' /\ aliases s' = aliases s) as [Hs' Hal].
  { unfold s'. cbn [fst row_endpoint endpoint_def] in Hgrown.
    destruct Hs, (endpoint_exists (ss_reg s) id); (split; [by split|done]). }
  destruct (endpoint_definition _ id) as [c|] eqn:Ec; [|done].
  destruct (add_aliases_ok reg0 max id [default (je_name ep) (je_rust ep); em_name (snd c)] s' Hs') as [Hok Hb].
  split; [done|]. intros Hr. apply Hb; [done|]. right. exists (default (je_name ep) (je_rust ep)).
  split; [by left|]. rewrite Hal. apply existsb_false. intros k Hk. rewrite existsb_false in Eal.
  apply Eal in Hk. by apply orb_false_iff in Hk as [? _].
Qed.

Lemma add_type_ok reg0 max ty s :
  load_ok reg0 max s ->
  load_ok reg0 max (snd (add_type ty s)) /\
  (fst (add_type ty s) = Ok tt -> in_budget max (snd (add_type ty s))).
Proof.
  intros Hs. unfold add_type. cbv zeta.
  destruct (or_bad_arg _) as [id|e]; [|done].
  destruct (one_of id (seen_types s)); [done|].
  destruct (ensure_budget s 4) as [u|e] eqn:Eb; [|done].
  set (eps := map (resolve_destination s) (jt_endpoints ty)).
  set (s1 := set_added _ _ _ _).
  assert (load_ok reg0 max s1) as Hs1.
  { pose proof (load_alias _ _ _ Hs). destruct Hs. split; try done. unfold s1.
    cbn [alias_bytes set_added set_aliases]. solve_u. }
  destruct (if data_type_exists (ss_reg s1) id then _ else _) as [u'|e] eqn:Eb'; [|done].
  destruct (row_type ty id eps) as [d|e] eqn:Ed; cbn [mbind result_bind]; [|done].
  assert (fst d = id /\ type_cost d = type_schema_byte_cost (string_len (jt_name ty))
            (string_len (default ""%string (jt_description ty))) (zlen eps)) as [Hid Hcost].
  { unfold row_type in Ed. apply result_bind_ok in Ed as (class & _ & Ed).
    apply result_bind_ok in Ed as (el & _ & Ed). by apply result_bind_ok in Ed as (policy & _ & [= <-]). }
  destruct (register_owned_type (ss_reg s1) d) as [reg|e] eqn:Er; [|done].
  pose proof (register_type_ok _ _ _ (load_reg _ _ _ Hs1) Er) as Hreg.
  pose proof (register_type_cost _ _ _ Er) as Hle.
  unfold register_owned_type in Er. apply result_bind_ok in Er as ([l n] & Er & [= <-]).
  pose proof (reg_types _ (load_reg _ _ _ Hs1)) as Ht.
  assert (data_type_exists (ss_reg s1) id = true <-> exists m, meta_at (types (ss_reg s1)) (fst d) = Some m) as Hex
    by (rewrite Hid; apply data_type_exists_meta, table_ids, Ht).
  destruct (register_grown _ _ _ _ _ _ _ _ Ht (load_types _ _ _ Hs1) Er Hex) as [Hgrown Hsame].
  rewrite Hid in Hgrown. cbn [fst snd]. split.
  - destruct Hs1, (data_type_exists (ss_reg s1) id); by split.
  - intros _. unfold in_budget. pose proof (type_cost_nonneg d). pose proof (load_alias _ _ _ Hs).
    pose proof (schema_byte_cost_range (ss_reg s)). apply ensure_budget_ok in Eb. rewrite (load_max _ _ _ Hs) in Eb.
    destruct (data_type_exists (ss_reg s1) id) eqn:Ex.
    + destruct (Hsame eq_refl) as [-> ->]. unfold s1. cbn [ss_reg set_reg alias_bytes set_added set_aliases].
      assert (with_types (ss_reg s) (types (ss_reg s), next_type_id (ss_reg s)) = ss_reg s) as ->
        by (by destruct (ss_reg s)). solve_u.
    + apply ensure_budget_ok in Eb'. rewrite (load_max _ _ _ Hs1), <- Hcost in Eb'.
      unfold s1 in *. cbn [ss_reg set_reg alias_bytes set_added set_aliases] in *.
      pose proof (schema_byte_cost_range (with_types (ss_reg s) (l, n))). solve_u.
Qed.

Lemma add_rows_ok {A} (add : A -> StreamingSchemaState -> result unit * StreamingSchemaState) reg0 max rows c s :
  (forall a s, load_ok reg0 max s ->
     load_ok reg0 max (snd (add a s)) /\ (fst (add a s) = Ok tt -> in_budget max (snd (add a s)))) ->
  load_ok reg0 max s -> in_budget max s \/ ss_reg s = reg0 ->
  load_ok reg0 max (snd (add_rows add rows c s)) /\
  (fst (add_rows add rows c s) = true ->
   in_budget max (snd (add_rows add rows c s)) \/ ss_reg (snd (add_rows add rows c s)) = reg0).
Proof.
  intros Hadd. revert s. induction rows as [|a rows IH]; intros s Hs Hb; cbn [add_rows]; [done|].
  destruct (Hadd a s Hs) as [Hs' Hb']. destruct (add a s) as [[[]|e] s']; cbn [fst snd] in *.
  - apply IH; [done|]. left. by apply Hb'.
  - split; [by apply load_ok_progress|done].
Qed.

Lemma visit_map_ok reg0 max members s :
  load_ok reg0 max s -> in_budget max s \/ ss_reg s = reg0 ->
  load_ok reg0 max (snd (visit_map members s)) /\
  (fst (visit_map members s) = true ->
   in_budget max (snd (visit_map members s)) \/ ss_reg (snd (visit_map members s)) = reg0).
Proof.
  revert s. induction members as [|m members IH]; intros s Hs Hb; cbn [visit_map]; [done|].
  assert (load_ok reg0 max (snd (visit_member m s)) /\
          (fst (visit_member m s) = true ->
           in_budget max (snd (visit_member m s)) \/ ss_reg (snd (visit_member m s)) = reg0)) as [Hs' Hb'].
  { destruct m as [rows c|rows c|c]; cbn [visit_member]; [| |done].
    - apply add_rows_ok; [intros; by apply add_endpoint_ok|by apply load_ok_progress|done].
    - destruct (negb (saw_endpoints s)); [split; [by apply load_ok_progress|done]|].
      apply add_rows_ok; [intros; by apply add_type_ok|by apply load_ok_progress|done]. }
  destruct (visit_member m s) as [[] s']; cbn [fst snd] in *; [apply IH; auto|done].
Qed.

Lemma rollback_spec reg0 max s : registry_ok reg0 -> load_ok reg0 max s -> rollback s = reg0.
Proof.
  intros H0 Hs. destruct Hs as [Hreg [Hne Hnt] He Ht _ _]. unfold rollback. rewrite Hne, Hnt.
  rewrite (grown_retain (endpoints reg0)); [|by apply reg_endpoints..|done].
  rewrite (grown_retain (types reg0)); [|by apply reg_types..|done]. by destruct reg0.
Qed.

(** C37: loading a schema file is all or nothing.  Whatever rows the parser
    delivers and wherever it stops, a load that fails - a malformed file, an
    unknown word, a name or number in conflict, the budget, types before
    endpoints, a missing section - leaves the registry exactly as it was, and one
    that succeeds leaves a well-formed registry that keeps every definition
    unchanged and is within the budget if it grew. *)
Theorem schema_load_atomic reg members ended overlay max :
  registry_ok reg ->
  match register_schema_json_reader_into reg members ended overlay max with
  | (Ok _, reg') =>
      registry_ok reg' /\ (forall d, d ∈ endpoints reg -> d ∈ endpoints reg') /\
      (forall d, d ∈ types reg -> d ∈ types reg') /\ (schema_byte_cost reg' <= max \/ reg' = reg)
  | (Err _, reg') => reg' = reg
  end.
Proof.
  intros Hreg. unfold register_schema_json_reader_into.
  assert (load_ok reg max (initial_state reg overlay max)) as H0.
  { split; try done; apply grown_nothing. }
  destruct (visit_map_ok reg max members _ H0 (or_intror eq_refl)) as [Hs Hb].
  destruct (visit_map members _) as [parsed s]. cbn [fst snd] in *.
  destruct (negb (parsed && ended) || _ || _) eqn:E.
  - by apply (rollback_spec reg max).
  - apply orb_false_iff in E as [[E _]%orb_false_iff _]. apply negb_false_iff, andb_true_iff in E as [-> _].
    destruct Hs as [Hok _ He Ht _ Hal]. split; [done|]. split; [apply He|]. split; [apply Ht|].
    destruct (Hb eq_refl) as [Hc|]; [left|by right]. unfold in_budget in Hc.
    pose proof (schema_byte_cost_range (ss_reg s)). solve_u.
Qed.
End LoadFacts.

(** ** A sample *)

Definition sample_rows : list JsonMember :=
  [EndpointsMember
     [{| je_id := Some 300; je_rust := Some "Radio"%string; je_name := "RADIO"; je_description := None;
         je_link_local_only := None; je_broadcast_mode := Some "Never"%string |}] true;
   TypesMember
     [{| jt_id := Some 100; jt_name := "GPS_DATA"; jt_description := Some "fix"%string; jt_class := "Data";
         jt_element := JsonStatic "Float32" (Some 3); jt_endpoints := ["Radio"; "SEDSNET_DISCOVERY"]%string;
         jt_reliable := Ordered; jt_priority := Some 7; jt_e2e_encryption := Some "required"%string |};
      {| jt_id := None; jt_name := "BAD"; jt_description := None; jt_class := "Nonsense";
         jt_element := JsonDynamic "UInt8"; jt_endpoints := []; jt_reliable := RNone; jt_priority := None;
         jt_e2e_encryption := None |}] true].

(** The second type's class is no class: the first type and the endpoint are taken back. *)
Definition sample_load : result unit * Registry :=
  Eval vm_compute in @register_schema_json_reader_into sample_sizes initial_registry sample_rows true false 100000.

Lemma sample_load_eq :
  @register_schema_json_reader_into sample_sizes initial_registry sample_rows true false 100000 = sample_load.
Proof. by vm_compute. Qed.

Lemma schema_load_atomic_witness : sample_load = (Err BadArg, initial_registry).
Proof.
  pose proof (@schema_load_atomic sample_sizes initial_registry sample_rows true false 100000 initial_registry_ok) as H.
  rewrite sample_load_eq in H. assert (fst sample_load = Err BadArg) as Hf by (by vm_compute).
  destruct sample_load as [r reg']. cbn [fst] in Hf. subst r. by rewrite H.
Defined.
