(* ===== verification/MemoryAdmission.v ===== *)
(** * Memory admission (src/src/memory_admission.rs)

    The process-wide probes as a state value: at most one of the two callbacks is
    installed, and a refusal increments the [rejected] counter.  The callbacks
    are code of the application; they are pure functions of their arguments
    here, as the documented contract (nonblocking, allocation-free, no call back
    into the library) allows.  [check_receive], which classifies a frame before
    checking it, is in [WirePeek]. *)

From S2P Require Import Prelude Schema.

Open Scope Z_scope.

Definition WORK_GENERAL : Z := 0.
Definition WORK_CACHED_TRANSIT : Z := 1.
Definition WORK_SMALL_PROTECTED : Z := 2.

Record Admission : Type := {
  probe : option (Z -> Z -> bool);
  probe_v2 : option (Z -> Z -> Z -> bool);
  rejected : Z;
}.

(** An admission check: its result and the state after it. *)
Definition check_fn : Type := Admission -> result unit * Admission.

Definition set_probe (p : option (Z -> Z -> bool)) (adm : Admission) : Admission :=
  {| probe := p; probe_v2 := None; rejected := rejected adm |}.

Definition set_probe_v2 (p : option (Z -> Z -> Z -> bool)) (adm : Admission) : Admission :=
  {| probe := None; probe_v2 := p; rejected := rejected adm |}.

Definition supports_work_kinds (adm : Admission) : bool :=
  match probe_v2 adm with Some _ => true | None => false end.

Definition has_probe (adm : Admission) : bool :=
  supports_work_kinds adm || match probe adm with Some _ => true | None => false end.

(** [REJECTED.fetch_add(1)], then the error. *)
Definition reject : check_fn := fun adm =>
  (Err (Io "memory pressure"),
   {| probe := probe adm; probe_v2 := probe_v2 adm; rejected := wrap64 (rejected adm + 1) |}).

Definition check_work (additional_bytes largest_allocation work : Z) : check_fn := fun adm =>
  match probe_v2 adm with
  | Some p =>
      if p additional_bytes largest_allocation work then (Ok tt, adm) else reject adm
  | None =>
      match probe adm with
      | None => (Ok tt, adm)
      | Some p => if p additional_bytes largest_allocation then (Ok tt, adm) else reject adm
      end
  end.

Definition check (additional_bytes largest_allocation : Z) : check_fn :=
  check_work additional_bytes largest_allocation WORK_GENERAL.

Definition check_frame_kind (len : Z) (ack : bool) (work : Z) : check_fn :=
  if ack && (len <=? 128) then check 512 (sat_add len 32)
  else check_work (sat_add (sat_mul len 3) 2048) (sat_add len 32) work.

Definition check_frame (len : Z) (ack : bool) : check_fn :=
  check_frame_kind len ack WORK_GENERAL.

Definition check_small_protected_decode (len : Z) : check_fn :=
  check_frame_kind len false WORK_SMALL_PROTECTED.

Definition check_cached_transit (len : Z) : check_fn := fun adm =>
  match probe_v2 adm with
  | None => check_frame len false adm
  | Some p =>
      if p (sat_add 1024 (sat_mul len 2)) 256 WORK_CACHED_TRANSIT
      then (Ok tt, adm) else reject adm
  end.

Definition check_compact_reconstruction (len : Z) (ack : bool) : check_fn := fun adm =>
  if supports_work_kinds adm && negb ack && (len <=? 192)
  then check (sat_add 512 (sat_mul len 2)) (sat_add len 32) adm
  else check_frame len ack adm.

(** [allow_drain]: a refused background operation counts as a default result. *)
Definition allow_drain {A} (dflt : A) (r : result A) : result A :=
  match r with
  | Err (Io m) => if decide (m = "memory pressure") then Ok dflt else r
  | _ => r
  end.

(** ** Protected control shapes *)

Definition protected_discovery_request_shape (reg : Registry) (ty : DataType)
    (empty discovery_only : bool) (owners : Z) (shape : option MessageElement) : bool :=
  empty && discovery_only && (owners =? 0)
  && one_of ty [ty_DiscoveryTopologyRequest; ty_DiscoverySchemaRequest]
  && match shape with
     | None => true
     | Some v => bool_decide (v = element (message_meta reg ty))
     end.

(** [Static(0..=16, UInt8, _)]. *)
Definition small_byte_element (e : MessageElement) : bool :=
  match e with Static n UInt8 _ => (0 <=? n) && (n <=? 16) | _ => false end.

Definition protected_control_shape (reg : Registry) (ty : DataType) (endpoints owners : Z)
    (shape : option MessageElement) (reliable managed : bool) : bool :=
  if (3 <? endpoints) || (3 <? owners) || (negb reliable && (owners =? 0)) then false
  else
    match try_get_message_meta reg ty with
    | None => false
    | Some meta =>
        ((200 <=? priority meta) || managed || negb (owners =? 0))
        && small_byte_element (element meta)
        && match shape with None => true | Some e => small_byte_element e end
    end.

(** ** Facts *)

(** What every check does: admit and change nothing, or refuse and count. *)
Definition admits_or_counts (c : check_fn) : Prop :=
  forall adm, c adm = (Ok tt, adm) \/ c adm = reject adm.

Lemma check_work_step a l w : admits_or_counts (check_work a l w).
Proof. intros adm. unfold check_work. repeat case_match; auto. Qed.

Lemma check_frame_kind_step len ack w : admits_or_counts (check_frame_kind len ack w).
Proof. intros adm. unfold check_frame_kind, check. case_match; apply check_work_step. Qed.

Lemma check_cached_transit_step len : admits_or_counts (check_cached_transit len).
Proof.
  intros adm. unfold check_cached_transit. repeat case_match; auto.
  apply check_frame_kind_step.
Qed.

Lemma check_compact_step len ack : admits_or_counts (check_compact_reconstruction len ack).
Proof.
  intros adm. unfold check_compact_reconstruction. case_match.
  - apply check_work_step.
  - apply check_frame_kind_step.
Qed.

Lemma check_no_probe a l w adm :
  has_probe adm = false -> check_work a l w adm = (Ok tt, adm).
Proof.
  unfold has_probe, supports_work_kinds, check_work.
  destruct (probe_v2 adm), (probe adm); done.
Qed.

(** A probe that never refuses a request smaller than one it admits. *)
Definition monotone_probe (adm : Admission) : Prop :=
  match probe_v2 adm, probe adm with
  | Some p, _ => forall a l a' l' w, a' <= a -> l' <= l -> p a l w = true -> p a' l' w = true
  | None, Some p => forall a l a' l', a' <= a -> l' <= l -> p a l = true -> p a' l' = true
  | None, None => True
  end.

Lemma check_work_monotone a l a' l' w adm :
  monotone_probe adm -> a' <= a -> l' <= l ->
  fst (check_work a l w adm) = Ok tt -> fst (check_work a' l' w adm) = Ok tt.
Proof.
  unfold monotone_probe, check_work. intros Hm Ha Hl.
  destruct (probe_v2 adm) as [p|].
  - destruct (p a l w) eqn:E; [|done]. by rewrite (Hm _ _ _ _ _ Ha Hl E).
  - destruct (probe adm) as [p|]; [|done].
    destruct (p a l) eqn:E; [|done]. by rewrite (Hm _ _ _ _ Ha Hl E).
Qed.

(** ** Properties *)

(** Every admission check either admits the work and leaves the state
    as it is, or refuses it with the memory-pressure error, adds one to the
    refusal counter (modulo 2^64) and keeps the installed probe. *)
Theorem admission_check_step len ack a l adm :
  Forall (fun c : check_fn =>
      c adm = (Ok tt, adm) \/
      (fst (c adm) = Err (Io "memory pressure") /\
       rejected (snd (c adm)) = wrap64 (rejected adm + 1) /\
       probe (snd (c adm)) = probe adm /\ probe_v2 (snd (c adm)) = probe_v2 adm))
    [check a l; check_frame len ack; check_small_protected_decode len;
     check_cached_transit len; check_compact_reconstruction len ack].
Proof.
  assert (Forall admits_or_counts
    [check a l; check_frame len ack; check_small_protected_decode len;
     check_cached_transit len; check_compact_reconstruction len ack]) as H.
  { rewrite !Forall_cons, Forall_nil. eauto 10 using check_work_step, check_frame_kind_step,
      check_cached_transit_step, check_compact_step. }
  eapply Forall_impl; [exact H|]. intros c Hc.
  destruct (Hc adm) as [->| ->]; [by left|by right].
Qed.

(** With a probe that is monotone in both estimates, an
    acknowledgement frame is admitted whenever an ordinary frame of the same
    length is: control traffic is never the one that pressure stops first. *)
Theorem ack_admitted_with_data len adm :
  0 <= len <= u64_max -> monotone_probe adm ->
  fst (check_frame len false adm) = Ok tt -> fst (check_frame len true adm) = Ok tt.
Proof.
  intros Hlen Hm. unfold check_frame, check_frame_kind, check. cbn [andb].
  destruct (len <=? 128) eqn:E; [|done].
  apply check_work_monotone; [done|solve_u|lia].
Qed.

Lemma ack_admitted_with_data_witness :
  fst (check_frame 100 true
         {| probe := Some (fun a l => (a <=? 4000) && (l <=? 200)); probe_v2 := None;
            rejected := 0 |}) = Ok tt.
Proof.
  apply (ack_admitted_with_data 100); [solve_u| |done].
  intros a l a' l' Ha Hl H. cbn in *. apply andb_true_iff in H as [H1 H2].
  apply Z.leb_le in H1, H2. apply andb_true_iff. split; apply Z.leb_le; lia.
Defined.
