(* ===== verification/WireEnv.v ===== *)
(** * What the wire format uses of its surroundings

    - the registry and the tuning values it reads;
    - the CRC-32 and Zstandard packages, which are not part of the repository:
      [crc32_bytes], [zstd_compress] and [zstd_decompress] are parameters, and
      [WireEnvLaws] states the documented behaviour the frame format relies on;
    - the end-to-end cryptography of src/src/crypto.rs behind the interface
      [E2eCrypto], whose promise to the wire format is [E2eCryptoLaws];
    - the process-global address book of src/src/wire_format.rs. *)

From stdpp Require Export gmap.
From S2P Require Import Prelude Schema Packet.

Open Scope Z_scope.

(** ** End-to-end cryptography *)

(** [crypto_seal key_id nonce aad plaintext] fills a ciphertext buffer as long as
    the plaintext and a tag buffer of 32 bytes, and reports how much of each it
    used.  [crypto_open key_id nonce aad ciphertext tag cap] fills a plaintext
    buffer of [cap] bytes and reports how much it used. *)
Class E2eCrypto : Type := {
  crypto_seal : Z -> bytes -> bytes -> bytes -> result (bytes * bytes * Z * Z);
  crypto_open : Z -> bytes -> bytes -> bytes -> bytes -> Z -> result (bytes * Z);
}.

Definition E2E_NONCE_LEN : Z := 12.
Definition E2E_TAG_CAP : Z := 32.

Class E2eCryptoLaws (C : E2eCrypto) : Prop := {
  crypto_seal_sizes : forall key nonce aad pt ct tag cl tl,
    crypto_seal key nonce aad pt = Ok (ct, tag, cl, tl) ->
    zlen ct = zlen pt /\ zlen tag = E2E_TAG_CAP /\ cl = zlen pt /\ 0 < tl <= E2E_TAG_CAP;
  crypto_open_seal : forall key nonce aad pt ct tag cl tl,
    crypto_seal key nonce aad pt = Ok (ct, tag, cl, tl) ->
    crypto_open key nonce aad (take (Z.to_nat cl) ct) (take (Z.to_nat tl) tag) (zlen pt)
    = Ok (pt, zlen pt);
}.

(** ** The environment *)

Class WireEnv : Type := {
  we_registry : Registry;
  we_tuning : Tuning;
  crc32_bytes : bytes -> Z;
  (** [zstd_safe::compress] into a buffer of the given capacity, level 1. *)
  zstd_compress : bytes -> Z -> option bytes;
  (** [zstd_safe::decompress] into a buffer of the given capacity. *)
  zstd_decompress : bytes -> Z -> option bytes;
  we_crypto :: E2eCrypto;
}.

Class WireEnvLaws (E : WireEnv) : Prop := {
  crc32_range : forall l, is_u32 (crc32_bytes l);
  zstd_roundtrip : forall l cap c,
    zstd_compress l cap = Some c -> zstd_decompress c (zlen l) = Some l;
  (** An empty input holds no frame and decompresses to nothing. *)
  zstd_decompress_empty : forall cap out, zstd_decompress [] cap = Some out -> out = [];
  zstd_nonempty : forall l cap c, zstd_compress l cap = Some c -> 1 <= zlen c;
}.

(** The same surroundings around another registry: a peer whose schema differs. *)
Definition set_registry (E : WireEnv) (r : Registry) : WireEnv :=
  {| we_registry := r; we_tuning := we_tuning; crc32_bytes := crc32_bytes;
     zstd_compress := zstd_compress; zstd_decompress := zstd_decompress;
     we_crypto := we_crypto |}.

Lemma set_registry_same E : set_registry E (@we_registry E) = E.
Proof. by destruct E. Qed.

(** ** The address book *)

Abbreviation AddressBook := (gmap Z bytes).

(** [entry(addr).or_insert_with(..)]: the first name learned stays. *)
Definition remember_source_address (book : AddressBook) (addr : Z) (sender : bytes)
    : AddressBook :=
  match book !! addr with Some _ => book | None => <[addr := sender]> book end.

Definition source_address_for_sender (book : AddressBook) (sender : bytes)
    : Z * AddressBook :=
  let addr := sender_address_u32 sender in
  (addr, remember_source_address book addr sender).

Definition sender_name_for_address (book : AddressBook) (addr : Z) : bytes :=
  default (format_sender_address addr) (book !! addr).

(** Every name of the book hashes to the address it is filed under. *)
Definition book_ok (book : AddressBook) : Prop :=
  forall addr name, book !! addr = Some name -> sender_address_u32 name = addr.

Lemma book_ok_empty : book_ok ∅.
Proof. intros a name H. rewrite lookup_empty in H. discriminate. Qed.

Lemma remember_ok book sender :
  book_ok book -> book_ok (snd (source_address_for_sender book sender)).
Proof.
  intros Hb addr name. unfold source_address_for_sender, remember_source_address. cbn [snd].
  case_match; [apply Hb|]. rewrite lookup_insert. case_decide; [|apply Hb].
  by intros [= <-].
Qed.

(** Whatever name an address resolves to, it denotes that address. *)
Lemma sender_name_address book addr :
  book_ok book -> is_u32 addr ->
  sender_address_u32 (sender_name_for_address book addr) = addr.
Proof.
  intros Hb Ha. unfold sender_name_for_address.
  destruct (book !! addr) as [name|] eqn:E; [by apply Hb|]. by apply sender_address_alias.
Qed.

(** The name a receiver sharing the sender's book resolves. *)
Lemma sender_name_after book sender :
  book !! sender_address_u32 sender = None \/
  book !! sender_address_u32 sender = Some sender ->
  sender_name_for_address (snd (source_address_for_sender book sender))
    (sender_address_u32 sender) = sender.
Proof.
  unfold sender_name_for_address, source_address_for_sender, remember_source_address.
  cbn [snd]. intros [H|H]; rewrite H; [by rewrite lookup_insert_eq|by rewrite H].
Qed.
