(* ===== verification/Crypto.v ===== *)
(** * Cryptography (src/src/crypto.rs)

    The software fallback in full: SHA-256 as an incremental hasher, HMAC, the
    HMAC key stream and tag that seal and open payloads, the key ring with its
    eight slots, master-signed credentials, and the dispatch between a C
    provider, a Rust provider and the fallback.  Providers are code of the
    application and stay parameters.  The hasher is proved equal to the
    padded-message definition of SHA-256, and the fallback discharges the
    [E2eCrypto] interface of the wire format. *)

From S2P Require Import Prelude Schema Packet WireEnv.

Open Scope Z_scope.

(** ** SHA-256 *)

Definition from_be (l : bytes) : Z := from_le (rev l).
Definition be_bytes (n : nat) (v : Z) : bytes := rev (le_bytes n v).

Definition rotate_right (x n : Z) : Z :=
  Z.lor (Z.shiftr x n) (wrap32 (Z.shiftl x (32 - n))).
Definition wadd (a b : Z) : Z := wrap32 (a + b).
Definition not32 (x : Z) : Z := Z.lxor x u32_max.

Definition sha_K : list Z :=
  [1116352408; 1899447441; 3049323471; 3921009573; 961987163; 1508970993;
   2453635748; 2870763221; 3624381080; 310598401; 607225278; 1426881987;
   1925078388; 2162078206; 2614888103; 3248222580; 3835390401; 4022224774;
   264347078; 604807628; 770255983; 1249150122; 1555081692; 1996064986;
   2554220882; 2821834349; 2952996808; 3210313671; 3336571891; 3584528711;
   113926993; 338241895; 666307205; 773529912; 1294757372; 1396182291;
   1695183700; 1986661051; 2177026350; 2456956037; 2730485921; 2820302411;
   3259730800; 3345764771; 3516065817; 3600352804; 4094571909; 275423344;
   430227734; 506948616; 659060556; 883997877; 958139571; 1322822218;
   1537002063; 1747873779; 1955562222; 2024104815; 2227730452; 2361852424;
   2428436474; 2756734187; 3204031479; 3329325298].

Definition sha_init : list Z :=
  [1779033703; 3144134277; 1013904242; 2773480762; 1359893119; 2600822924; 528734635; 1541459225].

Definition w_at (w : list Z) (i : nat) : Z := nth i w 0.

(** The message schedule, extended one word at a time. *)
Fixpoint schedule_loop (n idx : nat) (w : list Z) : list Z :=
  match n with
  | O => w
  | S n =>
      let x := w_at w (idx - 15) in
      let s0 := Z.lxor (Z.lxor (rotate_right x 7) (rotate_right x 18)) (Z.shiftr x 3) in
      let y := w_at w (idx - 2) in
      let s1 := Z.lxor (Z.lxor (rotate_right y 17) (rotate_right y 19)) (Z.shiftr y 10) in
      let v := wadd (wadd (wadd (w_at w (idx - 16)) s0) (w_at w (idx - 7))) s1 in
      schedule_loop n (S idx) (w ++ [v])
  end.

(** The big-endian words of a block. *)
Fixpoint be_words (n : nat) (block : bytes) : list Z :=
  match n with
  | O => []
  | S n => from_be (take 4 block) :: be_words n (drop 4 block)
  end.

Definition schedule (block : bytes) : list Z := schedule_loop 48 16 (be_words 16 block).

Record Vars : Type :=
  { va : Z; vb : Z; vc : Z; vd : Z; ve : Z; vf : Z; vg : Z; vh : Z }.

Definition sha_round (v : Vars) (kw : Z * Z) : Vars :=
  let '(k, w) := kw in
  let s1 := Z.lxor (Z.lxor (rotate_right (ve v) 6) (rotate_right (ve v) 11))
              (rotate_right (ve v) 25) in
  let ch := Z.lxor (Z.land (ve v) (vf v)) (Z.land (not32 (ve v)) (vg v)) in
  let temp1 := wadd (wadd (wadd (wadd (vh v) s1) ch) k) w in
  let s0 := Z.lxor (Z.lxor (rotate_right (va v) 2) (rotate_right (va v) 13))
              (rotate_right (va v) 22) in
  let maj := Z.lxor (Z.lxor (Z.land (va v) (vb v)) (Z.land (va v) (vc v)))
               (Z.land (vb v) (vc v)) in
  let temp2 := wadd s0 maj in
  {| va := wadd temp1 temp2; vb := va v; vc := vb v; vd := vc v;
     ve := wadd (vd v) temp1; vf := ve v; vg := vf v; vh := vg v |}.

Definition compress (state : list Z) (block : bytes) : list Z :=
  let v := {| va := w_at state 0; vb := w_at state 1; vc := w_at state 2; vd := w_at state 3;
              ve := w_at state 4; vf := w_at state 5; vg := w_at state 6; vh := w_at state 7 |} in
  let v := foldl sha_round v (zip sha_K (schedule block)) in
  [wadd (w_at state 0) (va v); wadd (w_at state 1) (vb v); wadd (w_at state 2) (vc v);
   wadd (w_at state 3) (vd v); wadd (w_at state 4) (ve v); wadd (w_at state 5) (vf v);
   wadd (w_at state 6) (vg v); wadd (w_at state 7) (vh v)].

Record Sha256 : Type := {
  state : list Z;
  buffer : bytes;
  buffer_len : nat;
  len_bits : Z;
}.

Definition sha_new : Sha256 :=
  {| state := sha_init; buffer := replicate 64 0; buffer_len := 0; len_bits := 0 |}.

(** [buffer[at..at + data.len()].copy_from_slice(data)]. *)
Definition copy_at (b : bytes) (at_off : nat) (data : bytes) : bytes :=
  take at_off b ++ data ++ drop (at_off + length data) b.

(** [while input.len() >= 64]: each round takes a block. *)
Fixpoint update_blocks (fuel : nat) (st : list Z) (input : bytes) : list Z * bytes :=
  match fuel with
  | O => (st, input)
  | S fuel =>
      if (64 <=? length input)%nat
      then update_blocks fuel (compress st (take 64 input)) (drop 64 input)
      else (st, input)
  end.

Definition sha_update (h : Sha256) (input : bytes) : Sha256 :=
  let bits := wrap64 (len_bits h + wrap64 (zlen input * 8)) in
  let '(st, buf, blen, input) :=
    if (0 <? buffer_len h)%nat then
      let tk := Nat.min (64 - buffer_len h) (length input) in
      let buf := copy_at (buffer h) (buffer_len h) (take tk input) in
      let blen := (buffer_len h + tk)%nat in
      let input := drop tk input in
      if (blen =? 64)%nat then (compress (state h) buf, buf, 0%nat, input)
      else (state h, buf, blen, input)
    else (state h, buffer h, buffer_len h, input) in
  let '(st, input) := update_blocks (length input) st input in
  match input with
  | [] => {| state := st; buffer := buf; buffer_len := blen; len_bits := bits |}
  | _ => {| state := st; buffer := copy_at buf 0 input; buffer_len := length input;
            len_bits := bits |}
  end.

(** [buffer[from..to].fill(0)]. *)
Definition fill_zero (b : bytes) (from to : nat) : bytes :=
  take from b ++ replicate (to - from) 0 ++ drop to b.

Definition sha_finalize (h : Sha256) : bytes :=
  let buf := copy_at (buffer h) (buffer_len h) [128] in
  let blen := S (buffer_len h) in
  let '(st, buf, blen) :=
    if (56 <? blen)%nat
    then let buf := fill_zero buf blen 64 in (compress (state h) buf, buf, 0%nat)
    else (state h, buf, blen) in
  let buf := fill_zero buf blen 56 in
  let buf := copy_at buf 56 (be_bytes 8 (len_bits h)) in
  concat (map (be_bytes 4) (compress st buf)).

Definition sha_digest (input : bytes) : bytes := sha_finalize (sha_update sha_new input).

(** ** HMAC, key stream and tag *)

Fixpoint xor_bytes (a b : bytes) : bytes :=
  match a, b with
  | x :: a, y :: b => Z.lxor x y :: xor_bytes a b
  | _, _ => []
  end.

(** [pad[idx] ^= key[idx]] for the 32 key bytes. *)
Definition hmac_pad (p : Z) (key : bytes) : bytes :=
  xor_bytes key (replicate (length key) p) ++ replicate (64 - length key) p.

Definition hmac_sha256 (key : bytes) (chunks : list bytes) : bytes :=
  let inner := foldl sha_update (sha_update sha_new (hmac_pad 54 key)) chunks in
  let inner_hash := sha_finalize inner in
  let outer := sha_update (sha_update sha_new (hmac_pad 92 key)) inner_hash in
  sha_finalize outer.

(** One 32-byte block of key stream per round; every round consumes a byte, so the
    input length bounds the rounds. *)
Fixpoint hmac_stream_loop (fuel : nat) (key key_id_bytes nonce aad : bytes) (counter : Z)
    (input : bytes) : bytes :=
  match fuel with
  | O => []
  | S fuel =>
      match input with
      | [] => []
      | _ =>
          let block := hmac_sha256 key
            [str "SEDS-HMAC-STREAM"; key_id_bytes; nonce; aad; le_bytes 8 counter] in
          let tk := Nat.min (length input) 32 in
          xor_bytes (take tk input) (take tk block)
          ++ hmac_stream_loop fuel key key_id_bytes nonce aad (wrap64 (counter + 1))
               (drop tk input)
      end
  end.

Definition apply_hmac_stream (key : bytes) (key_id : Z) (nonce aad input : bytes) : bytes :=
  hmac_stream_loop (length input) key (le_bytes 4 key_id) nonce aad 0 input.

Definition software_tag (key : bytes) (key_id : Z) (nonce aad ciphertext : bytes) : bytes :=
  hmac_sha256 key [str "SEDS-HMAC-TAG"; le_bytes 4 key_id; nonce; aad; ciphertext].

Definition constant_time_eq (a b : bytes) : bool :=
  if negb (length a =? length b)%nat then false
  else foldl Z.lor 0 (xor_bytes a b) =? 0.

(** ** Key ring *)

Definition SOFTWARE_KEY_SLOTS : nat := 8.
Definition SOFTWARE_KEY_MIN_LEN : Z := 16.
Definition SOFTWARE_TAG_LEN : nat := 16.

Record SoftwareKey : Type := { key_id : Z; key : bytes }.

Abbreviation SoftwareKeyring := (list (option SoftwareKey)).

Definition keyring_new : SoftwareKeyring := replicate SOFTWARE_KEY_SLOTS None.

Definition is_registered (ring : SoftwareKeyring) : bool :=
  existsb (fun s => match s with Some _ => true | None => false end) ring.

Fixpoint keyring_get (ring : SoftwareKeyring) (id : Z) : option bytes :=
  match ring with
  | [] => None
  | Some k :: ring => if key_id k =? id then Some (key k) else keyring_get ring id
  | None :: ring => keyring_get ring id
  end.

Definition normalize_software_key (raw_key : bytes) : bytes :=
  if zlen raw_key =? 32 then raw_key else sha_digest raw_key.

Definition holds_id (id : Z) (s : option SoftwareKey) : bool :=
  match s with Some k => key_id k =? id | None => false end.
Definition is_free (s : option SoftwareKey) : bool :=
  match s with Some _ => false | None => true end.

(** Overwrite the first slot that satisfies the test ([iter_mut().find]). *)
Fixpoint replace_first (f : option SoftwareKey -> bool) (k : SoftwareKey)
    (ring : SoftwareKeyring) : option SoftwareKeyring :=
  match ring with
  | [] => None
  | s :: ring =>
      if f s then Some (Some k :: ring)
      else match replace_first f k ring with Some ring => Some (s :: ring) | None => None end
  end.

Definition keyring_register (ring : SoftwareKeyring) (id : Z) (raw_key : bytes)
    : result SoftwareKeyring :=
  if zlen raw_key <? SOFTWARE_KEY_MIN_LEN then Err BadArg
  else
    let k := {| key_id := id; key := normalize_software_key raw_key |} in
    match replace_first (holds_id id) k ring with
    | Some ring => Ok ring
    | None =>
        match replace_first is_free k ring with
        | Some ring => Ok ring
        | None => Err SizeMismatchError
        end
    end.

Definition software_key_for (ring : SoftwareKeyring) (id : Z) : result bytes :=
  ok_or (keyring_get ring id) BadArg.

(** ** Sealing and opening

    Output buffers are passed in and returned filled, with the lengths used. *)

Definition seal_with_software_key (ring : SoftwareKeyring) (id : Z)
    (nonce aad plaintext ciphertext_out tag_out : bytes) : result (bytes * bytes * Z * Z) :=
  if (length ciphertext_out <? length plaintext)%nat || (length tag_out <? SOFTWARE_TAG_LEN)%nat
  then Err SizeMismatchError
  else
    key ← software_key_for ring id;
    let ciphertext_out :=
      copy_at ciphertext_out 0 (apply_hmac_stream key id nonce aad plaintext) in
    let tag := software_tag key id nonce aad (take (length plaintext) ciphertext_out) in
    let tag_out := copy_at tag_out 0 (take SOFTWARE_TAG_LEN tag) in
    Ok (ciphertext_out, tag_out, zlen plaintext, Z.of_nat SOFTWARE_TAG_LEN).

Definition open_with_software_key (ring : SoftwareKeyring) (id : Z)
    (nonce aad ciphertext tag plaintext_out : bytes) : result (bytes * Z) :=
  if (length plaintext_out <? length ciphertext)%nat
     || negb (length tag =? SOFTWARE_TAG_LEN)%nat
  then Err SizeMismatchError
  else
    key ← software_key_for ring id;
    let expected := software_tag key id nonce aad ciphertext in
    if negb (constant_time_eq tag (take SOFTWARE_TAG_LEN expected))
    then Err (HandlerError "crypto open")
    else Ok (copy_at plaintext_out 0 (apply_hmac_stream key id nonce aad ciphertext),
             zlen ciphertext).

(** A registered provider: what its callbacks do to the output buffers, with the
    status of the C callbacks already turned into a result. *)
Record Provider : Type := {
  p_seal : Z -> bytes -> bytes -> bytes -> bytes -> bytes -> result (bytes * bytes * Z * Z);
  p_open : Z -> bytes -> bytes -> bytes -> bytes -> bytes -> result (bytes * Z);
}.

Record CryptoState : Type := {
  c_shim : option Provider;
  rust_shim : option Provider;
  software_keys : SoftwareKeyring;
}.

(** The C callbacks' reported lengths are checked against the buffers. *)
Definition seal_with_registered_c_provider (p : Provider) (id : Z)
    (nonce aad plaintext ciphertext_out tag_out : bytes) : result (bytes * bytes * Z * Z) :=
  '(ct, tag, ct_len, tag_len) ← p_seal p id nonce aad plaintext ciphertext_out tag_out;
  if (zlen ciphertext_out <? ct_len) || (zlen tag_out <? tag_len)
  then Err SizeMismatchError else Ok (ct, tag, ct_len, tag_len).

Definition open_with_registered_c_provider (p : Provider) (id : Z)
    (nonce aad ciphertext tag plaintext_out : bytes) : result (bytes * Z) :=
  '(pt, pt_len) ← p_open p id nonce aad ciphertext tag plaintext_out;
  if zlen plaintext_out <? pt_len then Err SizeMismatchError else Ok (pt, pt_len).

Definition seal_with_registered_crypto (cs : CryptoState) (id : Z)
    (nonce aad plaintext ciphertext_out tag_out : bytes) : result (bytes * bytes * Z * Z) :=
  match c_shim cs with
  | Some p => seal_with_registered_c_provider p id nonce aad plaintext ciphertext_out tag_out
  | None =>
      match rust_shim cs with
      | Some p => p_seal p id nonce aad plaintext ciphertext_out tag_out
      | None =>
          seal_with_software_key (software_keys cs) id nonce aad plaintext ciphertext_out tag_out
      end
  end.

Definition open_with_registered_crypto (cs : CryptoState) (id : Z)
    (nonce aad ciphertext tag plaintext_out : bytes) : result (bytes * Z) :=
  match c_shim cs with
  | Some p => open_with_registered_c_provider p id nonce aad ciphertext tag plaintext_out
  | None =>
      match rust_shim cs with
      | Some p => p_open p id nonce aad ciphertext tag plaintext_out
      | None =>
          open_with_software_key (software_keys cs) id nonce aad ciphertext tag plaintext_out
      end
  end.

(** The interface of the wire format: zeroed output buffers. *)
#[export] Instance registered_crypto (cs : CryptoState) : E2eCrypto := {|
  crypto_seal := fun id nonce aad pt =>
    seal_with_registered_crypto cs id nonce aad pt (replicate (length pt) 0) (replicate 32 0);
  crypto_open := fun id nonce aad ct tag cap =>
    open_with_registered_crypto cs id nonce aad ct tag (replicate (Z.to_nat cap) 0);
|}.

(** ** Managed credentials *)

Record ManagedCredential : Type := {
  subject_id : Z;
  mc_key_id : Z;
  epoch : Z;
  not_before_ms : Z;
  not_after_ms : Z;
  permissions : Z;
}.

Definition MANAGED_CREDENTIAL_MAGIC : bytes := str "SEDSCR1" ++ [0].

Definition write_managed_credential_body (c : ManagedCredential) : bytes :=
  MANAGED_CREDENTIAL_MAGIC ++ le_bytes 8 (subject_id c) ++ le_bytes 4 (mc_key_id c)
  ++ le_bytes 8 (epoch c) ++ le_bytes 8 (not_before_ms c) ++ le_bytes 8 (not_after_ms c)
  ++ le_bytes 4 (permissions c).

(** [bytes[from..to]]. *)
Definition slice (l : bytes) (from to : nat) : bytes := take (to - from) (drop from l).

Definition read_managed_credential_body (b : bytes) : result ManagedCredential :=
  if negb (length b =? 48)%nat || negb (bool_decide (take 8 b = MANAGED_CREDENTIAL_MAGIC))
  then Err BadArg
  else Ok {| subject_id := from_le (slice b 8 16); mc_key_id := from_le (slice b 16 20);
             epoch := from_le (slice b 20 28); not_before_ms := from_le (slice b 28 36);
             not_after_ms := from_le (slice b 36 44); permissions := from_le (slice b 44 48) |}.

Definition credential_tag (root_key body : bytes) : bytes :=
  hmac_sha256 (normalize_software_key root_key) [str "SEDS-MASTER-CREDENTIAL"; body].

(** The output buffer after the call, and the length used. *)
Definition issue_managed_credential (root_key : bytes) (c : ManagedCredential) (out : bytes)
    : result (bytes * Z) :=
  if (zlen root_key <? SOFTWARE_KEY_MIN_LEN) || (zlen out <? 80) then Err BadArg
  else
    let body := write_managed_credential_body c in
    Ok (copy_at (copy_at out 0 body) 48 (credential_tag root_key body), 80).

Definition verify_managed_credential (root_key b : bytes) (now_ms : Z)
    : result ManagedCredential :=
  if (zlen root_key <? SOFTWARE_KEY_MIN_LEN) || negb (zlen b =? 80) then Err BadArg
  else
    c ← read_managed_credential_body (take 48 b);
    if (now_ms <? not_before_ms c) || (not_after_ms c <? now_ms)
    then Err (HandlerError "credential expired")
    else
      let expected := credential_tag root_key (take 48 b) in
      if negb (constant_time_eq (slice b 48 80) expected)
      then Err (HandlerError "credential signature") else Ok c.

(** The SHA-256 of the three-byte message "abc" (FIPS 180-2). *)
Example sha256_abc :
  from_be (sha_digest (str "abc"))
  = 84342368487090800366523834928142263660104883695016514377462985829716817089965.
Proof. vm_compute. reflexivity. Qed.

(** ** SHA-256 by its definition

    Pad the whole message to a multiple of 64 bytes, then fold the compression
    function over the blocks. *)

Fixpoint compress_blocks (n : nat) (st : list Z) (l : bytes) : list Z :=
  match n with
  | O => st
  | S n => compress_blocks n (compress st (take 64 l)) (drop 64 l)
  end.

Definition sha_pad (msg : bytes) : bytes :=
  msg ++ [128] ++ replicate ((119 - length msg mod 64) mod 64) 0
  ++ be_bytes 8 (wrap64 (8 * zlen msg)).

Definition sha256_spec (msg : bytes) : bytes :=
  concat (map (be_bytes 4)
    (compress_blocks (length (sha_pad msg) / 64) sha_init (sha_pad msg))).

Lemma compress_blocks_add n m st l :
  compress_blocks (n + m) st l = compress_blocks m (compress_blocks n st l) (drop (64 * n) l).
Proof.
  revert st l. induction n as [|n IH]; intros st l; [done|].
  cbn [Nat.add compress_blocks]. rewrite IH, drop_drop. do 2 f_equal. lia.
Qed.

Lemma compress_blocks_prefix n st l x :
  (64 * n <= length l)%nat -> compress_blocks n st (l ++ x) = compress_blocks n st l.
Proof.
  revert st l. induction n as [|n IH]; intros st l Hl; [done|]. cbn [compress_blocks].
  rewrite take_app_le, drop_app_le by lia. apply IH. rewrite length_drop. lia.
Qed.

(** One more block behind [n] whole ones. *)
Lemma compress_blocks_step n st l block rest :
  length l = (64 * n)%nat -> length block = 64%nat ->
  compress_blocks (n + 1) st (l ++ block ++ rest) = compress (compress_blocks n st l) block.
Proof.
  intros Hl Hb. rewrite compress_blocks_add, compress_blocks_prefix by lia.
  rewrite <- Hl, drop_app_length. cbn [compress_blocks]. by rewrite take_app_length'.
Qed.

Lemma update_blocks_spec fuel st input :
  (length input / 64 <= fuel)%nat ->
  update_blocks fuel st input
  = (compress_blocks (length input / 64) st input, drop (64 * (length input / 64)) input).
Proof.
  revert st input. induction fuel as [|fuel IH]; intros st input Hf.
  { replace (length input / 64)%nat with 0%nat by lia. done. }
  cbn [update_blocks]. destruct (Nat.leb_spec 64 (length input)) as [Hl|Hl].
  - pose proof (Nat.Div0.div_le_mono 64 (length input) 64 Hl).
    assert (length (drop 64 input) / 64 = length input / 64 - 1)%nat as Hd.
    { rewrite length_drop. replace (length input) with (length input - 64 + 1 * 64)%nat at 2 by lia.
      rewrite Nat.div_add by lia. lia. }
    change (64 / 64)%nat with 1%nat in *.
    rewrite IH by lia. rewrite Hd, drop_drop.
    destruct (length input / 64)%nat as [|k]; [lia|].
    replace (S k - 1)%nat with k by lia. cbn [compress_blocks]. do 2 f_equal. lia.
  - rewrite Nat.div_small by done. done.
Qed.

(** A hasher that has absorbed [msg]: [n] whole blocks compressed, the rest in
    the buffer. *)
Definition absorbed (st : list Z) (buf : bytes) (blen : nat) (msg : bytes) : Prop :=
  length buf = 64%nat /\ (blen < 64)%nat /\
  exists done_, length done_ = (64 * (length done_ / 64))%nat /\
    msg = done_ ++ take blen buf /\ st = compress_blocks (length done_ / 64) sha_init done_.

Lemma length_copy_at b o data :
  (o + length data <= length b)%nat -> length (copy_at b o data) = length b.
Proof. intros. unfold copy_at. rewrite !length_app, length_take, length_drop. lia. Qed.

Lemma take_copy_at b o data :
  (o + length data <= length b)%nat ->
  take (o + length data) (copy_at b o data) = take o b ++ data.
Proof.
  intros H. unfold copy_at. rewrite app_assoc. rewrite take_app_length'; [done|].
  rewrite length_app, length_take. lia.
Qed.

Lemma mul_div_64 n : (64 * n / 64 = n)%nat.
Proof. rewrite Nat.mul_comm. by apply Nat.div_mul. Qed.

(** Absorbing into an empty buffer. *)
Lemma absorb_aligned st buf msg input :
  absorbed st buf 0 msg ->
  let '(st', rest) := update_blocks (length input) st input in
  match rest with
  | [] => absorbed st' buf 0 (msg ++ input)
  | _ => absorbed st' (copy_at buf 0 rest) (length rest) (msg ++ input)
  end.
Proof.
  intros (Hbuf & _ & d & Hd & Hmsg & Hst). cbn [take] in Hmsg. rewrite app_nil_r in Hmsg. subst d.
  assert (length input / 64 <= length input)%nat
    by (apply Nat.Div0.div_le_upper_bound; lia).
  rewrite update_blocks_spec by done. set (k := (length input / 64)%nat).
  pose proof (Nat.div_mod_eq (length input) 64) as Hdm. fold k in Hdm.
  pose proof (Nat.mod_upper_bound (length input) 64 ltac:(lia)).
  assert (length (drop (64 * k) input) = length input mod 64)%nat as Hr
    by (rewrite length_drop; lia).
  set (dn := msg ++ take (64 * k) input).
  assert (length dn = 64 * (length msg / 64 + k))%nat as Hdn.
  { unfold dn. rewrite length_app, length_take. lia. }
  assert (Hst' : compress_blocks k st input = compress_blocks (length dn / 64) sha_init dn).
  { rewrite Hdn, mul_div_64. rewrite compress_blocks_add. unfold dn.
    rewrite (compress_blocks_prefix (length msg / 64)) by lia. rewrite <- Hst, <- Hd, drop_app_length.
    rewrite <- (take_drop (64 * k) input) at 1. apply compress_blocks_prefix.
    rewrite length_take. lia. }
  destruct (drop (64 * k) input) as [|x rest] eqn:Er.
  - split; [done|]. split; [lia|]. exists dn. split; [rewrite Hdn, mul_div_64; lia|].
    split; [|done]. cbn [take]. unfold dn. rewrite app_nil_r.
    rewrite <- (take_drop (64 * k) input) at 1. by rewrite Er, app_nil_r.
  - set (r := x :: rest) in *. split; [rewrite length_copy_at; lia|]. split; [lia|].
    exists dn. split; [rewrite Hdn, mul_div_64; lia|]. split; [|done].
    pose proof (take_copy_at buf 0 r ltac:(lia)) as Ht. cbn [Nat.add take app] in Ht.
    rewrite Ht. unfold dn. rewrite <- app_assoc. f_equal.
    rewrite <- (take_drop (64 * k) input) at 1. by rewrite Er.
Qed.

Definition hashed (h : Sha256) (msg : bytes) : Prop :=
  absorbed (state h) (buffer h) (buffer_len h) msg /\ len_bits h = wrap64 (8 * zlen msg).

Lemma hashed_new : hashed sha_new [].
Proof. split; [|done]. split; [done|]. split; [cbn; lia|]. by exists []. Qed.

Lemma bits_add (msg input : bytes) :
  wrap64 (wrap64 (8 * zlen msg) + wrap64 (zlen input * 8)) = wrap64 (8 * zlen (msg ++ input)).
Proof.
  unfold wrap64. rewrite <- Z.add_mod by lia. f_equal. rewrite zlen_app. lia.
Qed.

Lemma hashed_update h msg input :
  hashed h msg -> hashed (sha_update h input) (msg ++ input).
Proof.
  intros [Ha Hbits]. unfold sha_update. rewrite Hbits, bits_add.
  destruct (Nat.ltb_spec 0 (buffer_len h)) as [Hb|Hb].
  2: { replace (buffer_len h) with 0%nat in * by lia.
       pose proof (absorb_aligned _ _ _ input Ha) as H.
       destruct (update_blocks _ _ _) as [st rest]. by destruct rest. }
  destruct Ha as (Hbuf & Hlt & d & Hd & Hmsg & Hst).
  set (tk := Nat.min (64 - buffer_len h) (length input)).
  assert (length (take tk input) = tk) as Htk by (rewrite length_take; lia).
  set (buf := copy_at (buffer h) (buffer_len h) (take tk input)).
  assert (length buf = 64%nat) as Hb64 by (unfold buf; rewrite length_copy_at; lia).
  assert (take (buffer_len h + tk) buf = take (buffer_len h) (buffer h) ++ take tk input) as Htake.
  { unfold buf. rewrite <- Htk at 1. apply take_copy_at. lia. }
  destruct (Nat.eqb_spec (buffer_len h + tk) 64) as [E|E].
  - rewrite E, firstn_all2 in Htake by lia.
    assert (absorbed (compress (state h) buf) buf 0 (msg ++ take tk input)) as Ha'.
    { split; [done|]. split; [lia|]. exists (msg ++ take tk input).
      assert (length (msg ++ take tk input) = 64 * (length d / 64 + 1))%nat as Hl.
      { rewrite Hmsg, !length_app, length_take, Htk. lia. }
      rewrite Hl, mul_div_64. split; [done|]. split; [by rewrite app_nil_r|].
      rewrite Hmsg, <- app_assoc, <- Htake, Hst, <- (app_nil_r buf).
      rewrite compress_blocks_step; [by rewrite app_nil_r|lia|done]. }
    pose proof (absorb_aligned _ _ _ (drop tk input) Ha') as H.
    rewrite <- app_assoc, take_drop in H.
    destruct (update_blocks _ _ _) as [st rest]. by destruct rest.
  - assert (tk = length input) as Etk by lia. rewrite Etk in *.
    rewrite drop_ge by lia. cbn [length update_blocks].
    split; [|done]. split; [done|]. cbn [buffer_len buffer state]. split; [lia|].
    exists d. split; [done|]. split; [|done].
    rewrite firstn_all in Htake by lia. by rewrite Htake, Hmsg, <- app_assoc.
Qed.

Lemma length_be_bytes n v : length (be_bytes n v) = n.
Proof. unfold be_bytes. by rewrite length_rev, length_le_bytes. Qed.

(** The last block of [sha_finalize] from a buffer whose first [b] bytes count. *)
Lemma final_block buf b bits :
  length buf = 64%nat -> (b <= 56)%nat -> length bits = 8%nat ->
  copy_at (fill_zero buf b 56) 56 bits = take b buf ++ replicate (56 - b) 0 ++ bits.
Proof.
  intros Hl Hb Hbits.
  assert (length (take b buf ++ replicate (56 - b) 0) = 56%nat) as Hp
    by (rewrite length_app, length_take, length_replicate; lia).
  unfold copy_at, fill_zero. rewrite !(app_assoc (take b buf)).
  rewrite (take_app_length' _ _ 56) by lia.
  rewrite (drop_ge _ (56 + length bits)); [by rewrite app_nil_r, <- app_assoc|].
  rewrite length_app, Hp, length_drop. lia.
Qed.

Lemma take_mark buf b :
  length buf = 64%nat -> (b < 64)%nat ->
  take (S b) (copy_at buf b [128]) = take b buf ++ [128].
Proof.
  intros. replace (S b) with (b + length [128%Z])%nat by (simpl; lia).
  apply take_copy_at. simpl. lia.
Qed.

Lemma mod_64_small n b : (b < 64)%nat -> ((64 * n + b) mod 64 = b)%nat.
Proof.
  intros. rewrite Nat.add_comm, Nat.mul_comm, Nat.Div0.mod_add. by apply Nat.mod_small.
Qed.

Lemma finalize_spec h msg : hashed h msg -> sha_finalize h = sha256_spec msg.
Proof.
  intros [(Hbuf & Hlt & d & Hd & Hmsg & Hst) Hbits]. unfold sha_finalize, sha256_spec.
  do 2 f_equal. set (b := buffer_len h) in *. set (n := (length d / 64)%nat) in *.
  set (bits := be_bytes 8 (wrap64 (8 * zlen msg))).
  assert (length bits = 8%nat) as Hb8 by apply length_be_bytes.
  assert (length msg = 64 * n + b)%nat as Hlen
    by (rewrite Hmsg, length_app, length_take; lia).
  unfold sha_pad. rewrite Hlen, mod_64_small by done. fold bits.
  rewrite Hbits. fold bits. set (buf := copy_at (buffer h) b [128]).
  assert (length buf = 64%nat) as Hbuf1 by (unfold buf; rewrite length_copy_at; simpl; lia).
  pose proof (take_mark (buffer h) b Hbuf Hlt) as Hmark. fold buf in Hmark.
  destruct (Nat.ltb_spec 56 (S b)) as [H56|H56].
  - (* the length needs a block of its own *)
    replace ((119 - b) mod 64)%nat with ((63 - b) + 56)%nat.
    2: { rewrite Nat.mod_small by lia. lia. }
    assert (fill_zero buf (S b) 64 = take b (buffer h) ++ [128] ++ replicate (63 - b) 0) as Hf.
    { unfold fill_zero. rewrite Hmark, (drop_ge buf) by lia. rewrite app_nil_r, <- app_assoc.
      done. }
    rewrite final_block by (done || lia || (rewrite Hf, !length_app, length_take, length_replicate; simpl; lia)).
    rewrite Hf. set (blk1 := take b (buffer h) ++ [128] ++ replicate (63 - b) 0).
    set (blk2 := take 0 blk1 ++ replicate (56 - 0) 0 ++ bits).
    assert (length blk1 = 64%nat) as Hl1
      by (unfold blk1; rewrite !length_app, length_take, length_replicate; simpl; lia).
    assert (length blk2 = 64%nat) as Hl2
      by (unfold blk2; rewrite !length_app, length_replicate, Hb8; done).
    assert (msg ++ [128] ++ replicate (63 - b + 56) 0 ++ bits = (d ++ blk1) ++ blk2 ++ []) as ->.
    { unfold blk1, blk2. cbn [take app]. rewrite Hmsg, app_nil_r, replicate_add.
      by rewrite <- !app_assoc. }
    assert (length ((d ++ blk1) ++ blk2 ++ []) / 64 = n + 1 + 1)%nat as ->.
    { rewrite !length_app, Hl1, Hl2. cbn [length].
      replace (length d + 64 + (64 + 0))%nat with (64 * (n + 1 + 1))%nat by lia.
      apply mul_div_64. }
    rewrite compress_blocks_step by (rewrite ?length_app; lia).
    pose proof (compress_blocks_step n sha_init d blk1 [] ltac:(lia) Hl1) as Hs1.
    rewrite app_nil_r in Hs1. by rewrite Hs1, Hst.
  - replace ((119 - b) mod 64)%nat with (55 - b)%nat.
    2: { replace (119 - b)%nat with (55 - b + 1 * 64)%nat by lia.
         rewrite Nat.Div0.mod_add, Nat.mod_small by lia. lia. }
    rewrite final_block by (done || lia). rewrite Hmark.
    replace (56 - S b)%nat with (55 - b)%nat by lia. rewrite <- !app_assoc.
    set (blk := take b (buffer h) ++ [128] ++ replicate (55 - b) 0 ++ bits).
    assert (length blk = 64%nat) as Hl
      by (unfold blk; rewrite !length_app, length_take, length_replicate, Hb8; simpl; lia).
    assert (msg ++ [128] ++ replicate (55 - b) 0 ++ bits = d ++ blk ++ []) as ->.
    { unfold blk. by rewrite Hmsg, app_nil_r, <- app_assoc. }
    assert (length (d ++ blk ++ []) / 64 = n + 1)%nat as ->.
    { rewrite !length_app, Hl. cbn [length].
      replace (length d + (64 + 0))%nat with (64 * (n + 1))%nat by lia. apply mul_div_64. }
    rewrite compress_blocks_step by (done || lia). by rewrite Hst.
Qed.

Lemma update_all_spec h msg chunks :
  hashed h msg -> hashed (foldl sha_update h chunks) (msg ++ concat chunks).
Proof.
  revert h msg. induction chunks as [|c chunks IH]; intros h msg Hh; cbn [foldl concat].
  - by rewrite app_nil_r.
  - rewrite app_assoc. by apply IH, hashed_update.
Qed.

Lemma sha_chunks_spec chunks :
  sha_finalize (foldl sha_update sha_new chunks) = sha256_spec (concat chunks).
Proof. apply finalize_spec. apply (update_all_spec sha_new [] chunks), hashed_new. Qed.

(** ** Key stream, tag and comparison: facts *)

Lemma length_finalize h : length (sha_finalize h) = 32%nat.
Proof.
  unfold sha_finalize.
  repeat case_match; unfold compress; cbn [map concat];
    by rewrite !length_app, !length_be_bytes.
Qed.

Lemma length_hmac k chunks : length (hmac_sha256 k chunks) = 32%nat.
Proof. apply length_finalize. Qed.

Lemma length_xor_bytes a b : length (xor_bytes a b) = Nat.min (length a) (length b).
Proof. revert b. induction a as [|x a IH]; intros [|y b]; simpl; auto. Qed.

Lemma xor_bytes_involutive a k :
  (length a <= length k)%nat -> xor_bytes (xor_bytes a k) k = a.
Proof.
  revert k. induction a as [|x a IH]; intros [|y k] H; simpl in *; try lia; [done..|].
  rewrite IH by lia. by rewrite Z.lxor_assoc, Z.lxor_nilpotent, Z.lxor_0_r.
Qed.

Lemma xor_bytes_zero a b :
  length a = length b -> Forall (eq 0) (xor_bytes a b) <-> a = b.
Proof.
  revert b. induction a as [|x a IH]; intros [|y b] H; try done; cbn [xor_bytes].
  rewrite Forall_cons, IH by (simpl in H; lia). split.
  - intros [Hx ->]. f_equal. symmetry in Hx. by apply Z.lxor_eq.
  - intros [= -> ->]. by rewrite Z.lxor_nilpotent.
Qed.

Lemma foldl_lor_zero l acc : foldl Z.lor acc l = 0 <-> acc = 0 /\ Forall (eq 0) l.
Proof.
  revert acc. induction l as [|x l IH]; intros acc; cbn [foldl].
  - split; [by intros ->|by intros [? _]].
  - rewrite IH, Z.lor_eq_0_iff, Forall_cons. naive_solver.
Qed.

Lemma constant_time_eq_spec a b : constant_time_eq a b = true <-> a = b.
Proof.
  unfold constant_time_eq. destruct (Nat.eqb_spec (length a) (length b)) as [E|E]; cbn [negb].
  - rewrite Z.eqb_eq, foldl_lor_zero, xor_bytes_zero by done. naive_solver.
  - split; [done|]. by intros ->.
Qed.

(** Applying the same key stream twice gives the input back. *)
Lemma hmac_stream_spec fuel k id nonce aad counter input :
  (length input <= fuel)%nat ->
  length (hmac_stream_loop fuel k id nonce aad counter input) = length input /\
  hmac_stream_loop fuel k id nonce aad counter
    (hmac_stream_loop fuel k id nonce aad counter input) = input.
Proof.
  revert counter input. induction fuel as [|fuel IH]; intros counter input Hf.
  { by destruct input; [|simpl in Hf; lia]. }
  cbn [hmac_stream_loop]. destruct input as [|x tl]; [done|]. set (input := x :: tl) in *.
  set (block := hmac_sha256 _ _). assert (length block = 32%nat) as Hb by apply length_hmac.
  set (tk := Nat.min (length input) 32).
  assert (1 <= tk)%nat by (unfold tk, input; simpl; lia).
  destruct (IH (wrap64 (counter + 1)) (drop tk input)) as [Hl Hinv]; [rewrite length_drop; lia|].
  set (rest := hmac_stream_loop fuel k id nonce aad (wrap64 (counter + 1)) (drop tk input)) in *.
  set (c := xor_bytes (take tk input) (take tk block)).
  assert (length c = tk) as Hc by (unfold c; rewrite length_xor_bytes, !length_take; lia).
  assert (length (c ++ rest) = length input) as Hlen
    by (rewrite length_app, Hc, Hl, length_drop; lia).
  split; [done|]. destruct (c ++ rest) as [|y out] eqn:Ecr; [simpl in Hlen; lia|].
  rewrite <- Ecr in *. rewrite Hlen. fold tk.
  rewrite (take_app_length' c), (drop_app_length' c) by done. rewrite Hinv.
  unfold c. rewrite xor_bytes_involutive by (rewrite !length_take; lia). apply take_drop.
Qed.

Lemma length_apply_stream k id nonce aad input :
  length (apply_hmac_stream k id nonce aad input) = length input.
Proof. by apply hmac_stream_spec. Qed.

Lemma apply_stream_involutive k id nonce aad input :
  apply_hmac_stream k id nonce aad (apply_hmac_stream k id nonce aad input) = input.
Proof.
  unfold apply_hmac_stream at 1. rewrite length_apply_stream. by apply hmac_stream_spec.
Qed.

Lemma copy_at_full b data : length data = length b -> copy_at b 0 data = data.
Proof.
  intros H. unfold copy_at. cbn [take app Nat.add]. rewrite H, drop_all. apply app_nil_r.
Qed.

(** Two copies that fill the buffer between them. *)
Lemma copy_two out a b n :
  n = length a -> (n + length b)%nat = length out -> copy_at (copy_at out 0 a) n b = a ++ b.
Proof.
  intros -> H. unfold copy_at at 2. rewrite take_0, app_nil_l, Nat.add_0_l.
  unfold copy_at. rewrite take_app_length, drop_ge, app_nil_r; [done|].
  rewrite length_app, length_drop. lia.
Qed.

(** What sealing writes, and when opening accepts. *)
Lemma seal_software_spec ring id nonce aad pt ct_out tag_out k :
  length ct_out = length pt -> length tag_out = 32%nat -> keyring_get ring id = Some k ->
  let ct := apply_hmac_stream k id nonce aad pt in
  seal_with_software_key ring id nonce aad pt ct_out tag_out
  = Ok (ct, take 16 (software_tag k id nonce aad ct) ++ drop 16 tag_out, zlen pt, 16).
Proof.
  intros Hct Htag Hk ct. unfold seal_with_software_key, software_key_for, SOFTWARE_TAG_LEN.
  rewrite Hct, Htag, Nat.ltb_irrefl, Hk. cbn [Nat.ltb Nat.leb orb ok_or mbind result_bind].
  rewrite copy_at_full by (by rewrite length_apply_stream). fold ct.
  rewrite (firstn_all2 ct) by (unfold ct; by rewrite length_apply_stream).
  unfold copy_at. cbn [take app Nat.add].
  rewrite length_take. unfold software_tag at 2. by rewrite length_hmac.
Qed.

Lemma open_software_spec ring id nonce aad ct tag out k :
  length out = length ct -> keyring_get ring id = Some k ->
  open_with_software_key ring id nonce aad ct tag out
  = if negb (length tag =? 16)%nat then Err SizeMismatchError
    else if bool_decide (tag = take 16 (software_tag k id nonce aad ct))
    then Ok (apply_hmac_stream k id nonce aad ct, zlen ct)
    else Err (HandlerError "crypto open").
Proof.
  intros Hl Hk. unfold open_with_software_key, software_key_for, SOFTWARE_TAG_LEN.
  rewrite Hl, Nat.ltb_irrefl, Hk. cbn [orb]. destruct (negb _); [done|].
  cbn [ok_or mbind result_bind].
  rewrite copy_at_full by (by rewrite length_apply_stream).
  case_bool_decide as Ht.
  - by rewrite (proj2 (constant_time_eq_spec _ _) Ht).
  - destruct (constant_time_eq _ _) eqn:E; [|done]. by apply constant_time_eq_spec in E.
Qed.

(** The crypto state in which only the software fallback is registered. *)
Definition software_only (ring : SoftwareKeyring) : CryptoState :=
  {| c_shim := None; rust_shim := None; software_keys := ring |}.

(** The fallback keeps the promise the wire format relies on. *)
#[export] Instance software_crypto_laws ring : E2eCryptoLaws (registered_crypto (software_only ring)).
Proof.
  assert (forall id nonce aad pt ct tag cl tl,
    seal_with_software_key ring id nonce aad pt (replicate (length pt) 0) (replicate 32 0)
      = Ok (ct, tag, cl, tl) ->
    exists k, keyring_get ring id = Some k /\ ct = apply_hmac_stream k id nonce aad pt /\
      tag = take 16 (software_tag k id nonce aad ct) ++ drop 16 (replicate 32 0) /\
      cl = zlen pt /\ tl = 16) as Hinv.
  { intros id nonce aad pt ct tag cl tl H.
    destruct (keyring_get ring id) as [k|] eqn:Hk.
    - exists k. rewrite (seal_software_spec _ _ _ _ _ _ _ k) in H
        by (done || by rewrite length_replicate). by injection H as <- <- <- <-.
    - unfold seal_with_software_key, software_key_for in H. rewrite Hk in H.
      by destruct (_ || _). }
  split; cbn [crypto_seal crypto_open registered_crypto]; unfold seal_with_registered_crypto,
    open_with_registered_crypto; cbn [c_shim rust_shim software_keys software_only].
  - intros id nonce aad pt ct tag cl tl H. apply Hinv in H as (k & _ & -> & -> & -> & ->).
    unfold zlen. rewrite length_apply_stream, length_app, length_take, length_drop,
      length_replicate. unfold software_tag. rewrite length_hmac.
    unfold E2E_TAG_CAP. repeat split; lia.
  - intros id nonce aad pt ct tag cl tl H. apply Hinv in H as (k & Hk & -> & -> & -> & ->).
    set (ct := apply_hmac_stream k id nonce aad pt).
    assert (length ct = length pt) as Hl by apply length_apply_stream.
    assert (length (take 16 (software_tag k id nonce aad ct)) = 16%nat) as H16.
    { rewrite length_take. unfold software_tag. by rewrite length_hmac. }
    unfold zlen at 1 2. rewrite !Nat2Z.id, (firstn_all2 ct) by lia.
    rewrite (take_app_length' _ _ (Z.to_nat 16)) by (by rewrite H16).
    rewrite (open_software_spec _ _ _ _ _ _ _ k) by (done || by rewrite length_replicate).
    rewrite H16, bool_decide_eq_true_2 by done. cbn [negb Nat.eqb].
    unfold ct at 1. rewrite apply_stream_involutive. unfold zlen. by rewrite Hl.
Qed.

(** ** Key ring: facts *)

Lemma replace_first_get f id raw ring ring' :
  (forall s, f s = true -> s = None \/ holds_id id s = true) ->
  (forall s, s ∈ ring -> holds_id id s = true -> f s = true) ->
  replace_first f {| key_id := id; key := raw |} ring = Some ring' ->
  keyring_get ring' id = Some raw /\
  (forall other, other <> id -> keyring_get ring' other = keyring_get ring other) /\
  length ring' = length ring.
Proof.
  intros Hf. revert ring'. induction ring as [|s ring IH]; intros ring' Hin; [done|].
  cbn [replace_first]. destruct (f s) eqn:Es.
  - intros [= <-]. cbn [keyring_get key_id key]. rewrite Z.eqb_refl. split; [done|].
    split; [|done]. intros other Hne. rewrite (proj2 (Z.eqb_neq _ _)) by congruence.
    destruct (Hf s Es) as [->|Hs]; [done|]. destruct s as [k|]; [|done]. cbn in Hs.
    apply Z.eqb_eq in Hs. by rewrite Hs, (proj2 (Z.eqb_neq _ _)) by congruence.
  - destruct (replace_first f _ ring) as [r|] eqn:Er; [|done]. intros [= <-].
    destruct (IH r) as (Hg & Ho & Hl); [|done|].
    { intros s' Hs'. apply Hin. by right. }
    cbn [keyring_get length]. destruct s as [k|].
    + destruct (Z.eqb_spec (key_id k) id) as [E|E].
      * rewrite (Hin (Some k)) in Es; [done|by left|]. cbn. by apply Z.eqb_eq.
      * split; [done|]. split; [|by rewrite Hl]. intros other Hne. by rewrite Ho.
    + split; [done|]. split; [|by rewrite Hl]. intros other Hne. by rewrite Ho.
Qed.

Lemma replace_first_none f k ring :
  replace_first f k ring = None <-> Forall (fun s => f s = false) ring.
Proof.
  induction ring as [|s ring IH]; cbn [replace_first]; [by split|].
  rewrite Forall_cons, <- IH. destruct (f s); [naive_solver|].
  destruct (replace_first f k ring); naive_solver.
Qed.

(** ** Credentials: facts *)

Lemma slice_at l a x b i j :
  l = a ++ x ++ b -> i = length a -> j = (i + length x)%nat -> slice l i j = x.
Proof.
  intros -> -> ->. unfold slice. rewrite drop_app_length.
  replace (length a + length x - length a)%nat with (length x) by lia. apply take_app_length.
Qed.

Record credential_ok (c : ManagedCredential) : Prop := {
  co_subject : is_u64 (subject_id c);
  co_key : is_u32 (mc_key_id c);
  co_epoch : is_u64 (epoch c);
  co_before : is_u64 (not_before_ms c);
  co_after : is_u64 (not_after_ms c);
  co_perm : is_u32 (permissions c);
}.

Lemma credential_body_length c : length (write_managed_credential_body c) = 48%nat.
Proof. unfold write_managed_credential_body. by rewrite !length_app, !length_le_bytes. Qed.

Lemma from_le_u64 v : is_u64 v -> from_le (le_bytes 8 v) = v.
Proof. intros. apply from_le_bytes. change (256 ^ Z.of_nat 8) with (2 ^ 64). solve_u. Qed.
Lemma from_le_u32 v : is_u32 v -> from_le (le_bytes 4 v) = v.
Proof. intros. apply from_le_bytes. change (256 ^ Z.of_nat 4) with (2 ^ 32). solve_u. Qed.

Lemma read_write_credential c :
  credential_ok c -> read_managed_credential_body (write_managed_credential_body c) = Ok c.
Proof.
  intros [H1 H2 H3 H4 H5 H6]. unfold read_managed_credential_body.
  rewrite credential_body_length. unfold write_managed_credential_body.
  rewrite (take_app_length' MANAGED_CREDENTIAL_MAGIC) by done.
  rewrite bool_decide_eq_true_2 by done. cbn [Nat.eqb negb orb].
  set (m := MANAGED_CREDENTIAL_MAGIC). set (s := le_bytes 8 (subject_id c)).
  set (k := le_bytes 4 (mc_key_id c)). set (e := le_bytes 8 (epoch c)).
  set (b := le_bytes 8 (not_before_ms c)). set (a := le_bytes 8 (not_after_ms c)).
  set (p := le_bytes 4 (permissions c)).
  assert (length m = 8%nat /\ length s = 8%nat /\ length k = 4%nat /\ length e = 8%nat /\
          length b = 8%nat /\ length a = 8%nat /\ length p = 4%nat) as (L1 & L2 & L3 & L4 & L5 & L6 & L7)
    by (repeat split; try done; apply length_le_bytes).
  rewrite (slice_at _ m s (k ++ e ++ b ++ a ++ p)) by (done || lia).
  rewrite (slice_at _ (m ++ s) k (e ++ b ++ a ++ p))
    by (rewrite <- ?app_assoc, ?length_app; done || lia).
  rewrite (slice_at _ (m ++ s ++ k) e (b ++ a ++ p))
    by (rewrite <- ?app_assoc, ?length_app; done || lia).
  rewrite (slice_at _ (m ++ s ++ k ++ e) b (a ++ p))
    by (rewrite <- ?app_assoc, ?length_app; done || lia).
  rewrite (slice_at _ (m ++ s ++ k ++ e ++ b) a p)
    by (rewrite <- ?app_assoc, ?length_app; done || lia).
  rewrite (slice_at _ (m ++ s ++ k ++ e ++ b ++ a) p [])
    by (rewrite <- ?app_assoc, ?app_nil_r, ?length_app; done || lia).
  unfold s, k, e, b, a, p. rewrite !from_le_u64, !from_le_u32 by done. by destruct c.
Qed.

Lemma take_cut n (l : bytes) i : (i <= n)%nat -> drop i (take n l) = take (n - i) (drop i l).
Proof. intros. by rewrite skipn_firstn_comm. Qed.

(** A body that decodes is the encoding of what it decodes to. *)
Lemma write_read_credential b c :
  bytes_ok b -> read_managed_credential_body b = Ok c -> b = write_managed_credential_body c.
Proof.
  intros Hb. unfold read_managed_credential_body.
  destruct (Nat.eqb_spec (length b) 48) as [Hl|]; [|done]. cbn [negb orb].
  case_bool_decide as Hm; [|done]. cbn [negb]. intros [= <-].
  unfold write_managed_credential_body. cbn [subject_id mc_key_id epoch not_before_ms
    not_after_ms permissions].
  assert (forall i j n, (i + n <= 48)%nat -> (j - i)%nat = n ->
    le_bytes n (from_le (slice b i j)) = slice b i j) as Hle.
  { intros i j n Hn E. apply le_bytes_from_le.
    - by apply Forall_take, Forall_drop.
    - unfold slice. rewrite length_take, length_drop. lia. }
  rewrite !Hle by lia. rewrite <- Hm. unfold slice.
  rewrite <- (take_drop 8 b) at 1. f_equal.
  rewrite <- (take_drop 8 (drop 8 b)) at 1. f_equal. rewrite drop_drop.
  rewrite <- (take_drop 4 (drop (8 + 8) b)) at 1. f_equal. rewrite drop_drop.
  rewrite <- (take_drop 8 (drop (8 + 8 + 4) b)) at 1. f_equal. rewrite drop_drop.
  rewrite <- (take_drop 8 (drop (8 + 8 + 4 + 8) b)) at 1. f_equal. rewrite drop_drop.
  rewrite <- (take_drop 8 (drop (8 + 8 + 4 + 8 + 8) b)) at 1. f_equal. rewrite drop_drop.
  symmetry. apply firstn_all2. rewrite length_drop. cbn. lia.
Qed.

(** ** Properties *)

(** The incremental hasher computes SHA-256: however a message is cut into
    chunks, feeding the chunks to [sha_update] and finalizing gives the digest of
    the padded whole message. *)
Theorem sha256_incremental chunks :
  sha_finalize (foldl sha_update sha_new chunks) = sha256_spec (concat chunks).
Proof. apply sha_chunks_spec. Qed.

(** *** What the tag covers *)

(** HMAC-SHA-256 of a message, and the message of a tag: its parts follow each other
    without their lengths. *)
Definition mac (k m : bytes) : bytes := sha256_spec (hmac_pad 92 k ++ sha256_spec (hmac_pad 54 k ++ m)).
Definition mac_input (id : Z) (nonce aad ct : bytes) : bytes := str "SEDS-HMAC-TAG" ++ le_bytes 4 id ++ nonce ++ aad ++ ct.

Lemma foldl_start {A B} (f : A -> B -> A) x a l : foldl f (f x a) l = foldl f x (a :: l).
Proof. done. Qed.

Lemma hmac_concat k chunks : hmac_sha256 k chunks = mac k (concat chunks).
Proof.
  unfold hmac_sha256, mac. rewrite (foldl_start sha_update), sha_chunks_spec.
  set (inner := sha256_spec (concat (hmac_pad 54 k :: chunks))).
  change (sha_update (sha_update sha_new (hmac_pad 92 k)) inner) with (foldl sha_update (sha_update sha_new (hmac_pad 92 k)) [inner]).
  rewrite (foldl_start sha_update), sha_chunks_spec. cbn [concat]. by rewrite app_nil_r.
Qed.

Lemma software_tag_mac k id nonce aad ct : software_tag k id nonce aad ct = mac k (mac_input id nonce aad ct).
Proof. unfold software_tag. rewrite hmac_concat. cbn [concat]. by rewrite app_nil_r. Qed.

(** The boundary between the associated data and the ciphertext can be moved. *)
Lemma tag_not_delimited k id nonce aad x ct : software_tag k id nonce (aad ++ x) ct = software_tag k id nonce aad (x ++ ct).
Proof. rewrite !software_tag_mac. unfold mac_input. by rewrite <- !app_assoc. Qed.

Lemma open_accepts ring id nonce aad ct tag k pt n : keyring_get ring id = Some k ->
  open_with_software_key ring id nonce aad ct tag (replicate (length ct) 0) = Ok (pt, n) <->
  tag = take 16 (mac k (mac_input id nonce aad ct)) /\ pt = apply_hmac_stream k id nonce aad ct /\ n = zlen ct.
Proof.
  intros Hk. rewrite (open_software_spec _ _ _ _ _ _ _ k) by (done || by rewrite length_replicate). rewrite <- software_tag_mac.
  assert (length (take 16 (software_tag k id nonce aad ct)) = 16%nat) as Hl.
  { rewrite length_take. unfold software_tag. by rewrite length_hmac. }
  destruct (Nat.eqb_spec (length tag) 16) as [E|E]; cbn [negb].
  - case_bool_decide; naive_solver.
  - split; [done|]. intros (-> & _). by rewrite Hl in E.
Qed.

(** C38: opening with a registered software key.  A message is accepted exactly when its
    sixteen tag bytes begin the HMAC of the identifier, the nonce, the associated data
    and the ciphertext, one after the other; what sealing produced opens to its
    plaintext again.  And a tag that sealing made opens nothing else: whatever is
    accepted with it has the same nonce, associated data and ciphertext one after the
    other (hence, if nonce and associated data have their lengths, is the sealed message
    and gives its plaintext), or is a collision of the truncated HMAC.  The tag does not
    cover the lengths of its parts ([tag_not_delimited]). *)
Theorem software_open_authentic ring id k :
  keyring_get ring id = Some k ->
  (forall nonce aad ct tag pt n, open_with_software_key ring id nonce aad ct tag (replicate (length ct) 0) = Ok (pt, n) <->
     tag = take 16 (mac k (mac_input id nonce aad ct)) /\ pt = apply_hmac_stream k id nonce aad ct /\ n = zlen ct) /\
  forall nonce aad pt ct tag cl tl,
    seal_with_software_key ring id nonce aad pt (replicate (length pt) 0) (replicate 32 0) = Ok (ct, tag, cl, tl) ->
    let sealed := take (Z.to_nat cl) ct in
    let made := take (Z.to_nat tl) tag in
    open_with_software_key ring id nonce aad sealed made (replicate (length pt) 0) = Ok (pt, zlen pt) /\
    forall nonce' aad' ct' pt' n, open_with_software_key ring id nonce' aad' ct' made (replicate (length ct') 0) = Ok (pt', n) ->
      (nonce' ++ aad' ++ ct' = nonce ++ aad ++ sealed /\
       (length nonce' = length nonce -> length aad' = length aad -> nonce' = nonce /\ aad' = aad /\ ct' = sealed /\ pt' = pt /\ n = zlen pt)) \/
      (mac_input id nonce' aad' ct' <> mac_input id nonce aad sealed /\
       take 16 (mac k (mac_input id nonce' aad' ct')) = take 16 (mac k (mac_input id nonce aad sealed))).
Proof.
  intros Hk. split; [intros; by apply open_accepts|]. intros nonce aad pt ct tag cl tl Hs sealed made.
  assert (open_with_software_key ring id nonce aad sealed made (replicate (length pt) 0) = Ok (pt, zlen pt)) as Hopen.
  { pose proof (crypto_open_seal (E2eCryptoLaws := software_crypto_laws ring) id nonce aad pt ct tag cl tl Hs) as H.
    cbn in H. unfold open_with_registered_crypto in H. cbn in H. unfold zlen at 1 in H. by rewrite Nat2Z.id in H. }
  split; [exact Hopen|]. intros nonce' aad' ct' pt' n Ho.
  assert (length sealed = length pt) as Hlen.
  { unfold seal_with_software_key in Hs. destruct (_ || _); [done|]. apply result_bind_ok in Hs as (k' & _ & Hs). injection Hs as <- _ <- _.
    unfold sealed. rewrite length_take, length_copy_at, length_replicate by (by rewrite length_apply_stream, length_replicate || lia). unfold zlen. lia. }
  rewrite <- Hlen in Hopen. pose proof (proj1 (open_accepts _ _ _ _ _ _ _ _ _ Hk) Hopen) as (Ht & Hpt & Hn).
  apply (open_accepts _ _ _ _ _ _ _ _ _ Hk) in Ho as (Ht' & Hpt' & Hn').
  destruct (decide (mac_input id nonce' aad' ct' = mac_input id nonce aad sealed)) as [E|E]; [left|right; split; [done|congruence]].
  unfold mac_input in E. apply app_inv_head, app_inv_head in E. split; [done|]. intros H1 H2. apply app_inj_1 in E as [-> E]; [|done].
  apply app_inj_1 in E as [-> ->]; [|done]. split_and!; congruence.
Qed.

Definition sample_ring : SoftwareKeyring :=
  [Some {| key_id := 7; key := replicate 32 11 |}; None].

Lemma software_open_authentic_witness :
  match seal_with_software_key sample_ring 7 [1; 2] [3] [104; 105] (replicate 2 0)
          (replicate 32 0) with
  | Ok (ct, tag, cl, tl) =>
      open_with_software_key sample_ring 7 [1; 2] [3] (take (Z.to_nat cl) ct)
        (take (Z.to_nat tl) tag) (replicate 2 0) = Ok ([104; 105], 2)
  | Err _ => False
  end.
Proof.
  destruct (seal_with_software_key sample_ring 7 [1; 2] [3] [104; 105] (replicate 2 0)
              (replicate 32 0)) as [[[[ct tag] cl] tl]|e] eqn:E; [|by vm_compute in E].
  destruct (software_open_authentic sample_ring 7 (replicate 32 11)) as [_ H]; [done|]. exact (proj1 (H [1; 2] [3] [104; 105] ct tag cl tl E)).
Defined.

(** Registering a key makes that key, normalised, the one found under its
    identifier, leaves every other identifier as it was and never changes the
    number of slots; it fails only on a key shorter than sixteen bytes, or when
    the identifier is new and every slot is taken. *)
Theorem keyring_register_spec ring id raw :
  match keyring_register ring id raw with
  | Ok ring' =>
      keyring_get ring' id = Some (normalize_software_key raw) /\
      (forall other, other <> id -> keyring_get ring' other = keyring_get ring other) /\
      length ring' = length ring
  | Err BadArg => zlen raw < SOFTWARE_KEY_MIN_LEN
  | Err _ => keyring_get ring id = None /\ Forall (fun s => is_free s = false) ring
  end.
Proof.
  unfold keyring_register. destruct (zlen raw <? SOFTWARE_KEY_MIN_LEN) eqn:E1;
    [by bool_to_prop|].
  set (k := {| key_id := id; key := normalize_software_key raw |}).
  destruct (replace_first (holds_id id) k ring) as [r|] eqn:E2.
  { eapply (replace_first_get (holds_id id)); [|done|exact E2]. auto. }
  apply replace_first_none in E2.
  destruct (replace_first is_free k ring) as [r|] eqn:E3.
  - eapply (replace_first_get is_free); [| |exact E3].
    + intros [s|]; [done|by left].
    + intros s Hs. rewrite Forall_forall in E2. by rewrite (E2 s Hs).
  - apply replace_first_none in E3. split; [|done]. clear E3.
    induction E2 as [|s r Hs Hr IH]; [done|]. destruct s as [s|]; [|done].
    cbn in *. by rewrite Hs.
Qed.

(** A credential issued by a master verifies under the same root key to the
    same fields while its window is open; and every byte string that verifies is
    the encoding of its credential followed by the master's tag of it. *)
Theorem managed_credential_authentic root c out now b c' :
  credential_ok c -> SOFTWARE_KEY_MIN_LEN <= zlen root -> zlen out = 80 ->
  not_before_ms c <= now <= not_after_ms c -> bytes_ok b ->
  (exists bytes, issue_managed_credential root c out = Ok (bytes, 80) /\
     verify_managed_credential root bytes now = Ok c) /\
  (verify_managed_credential root b now = Ok c' ->
     b = write_managed_credential_body c'
         ++ credential_tag root (write_managed_credential_body c') /\
     not_before_ms c' <= now <= not_after_ms c').
Proof.
  intros Hc Hroot Hout Hnow Hb.
  set (body := write_managed_credential_body c).
  assert (length body = 48%nat) as Hbody by apply credential_body_length.
  assert (forall r m, length (credential_tag r m) = 32%nat) as Htag by (intros; apply length_hmac).
  split.
  - exists (body ++ credential_tag root body). split.
    + unfold issue_managed_credential. rewrite (proj2 (Z.ltb_ge _ _) Hroot), Hout.
      cbn [orb Z.ltb Z.compare Pos.compare Pos.compare_cont]. fold body. do 2 f_equal.
      apply copy_two; rewrite ?Hbody, ?Htag; unfold zlen in Hout; lia.
    + unfold verify_managed_credential. rewrite (proj2 (Z.ltb_ge _ _) Hroot).
      assert (zlen (body ++ credential_tag root body) = 80) as ->
        by (rewrite zlen_app; unfold zlen; by rewrite Hbody, Htag).
      cbn [orb negb Z.eqb Pos.eqb]. rewrite (take_app_length' body) by done.
      unfold body in *. rewrite read_write_credential by done. cbn [mbind result_bind].
      rewrite !(proj2 (Z.ltb_ge _ _)) by lia. cbn [orb].
      rewrite (slice_at _ _ (credential_tag root (write_managed_credential_body c)) [])
        by (rewrite ?app_nil_r, ?Htag; done || lia).
      by rewrite (proj2 (constant_time_eq_spec _ _)).
  - unfold verify_managed_credential.
    destruct (zlen b =? 80) eqn:El; [|by rewrite orb_true_r].
    destruct (zlen root <? SOFTWARE_KEY_MIN_LEN); [done|]. cbn [orb negb].
    rewrite result_bind_ok. intros (c0 & Hread & H).
    destruct ((now <? not_before_ms c0) || (not_after_ms c0 <? now)) eqn:Ew; [done|].
    destruct (constant_time_eq _ _) eqn:Et; [|done]. cbn [negb] in H. injection H as <-.
    apply write_read_credential in Hread; [|by apply Forall_take].
    apply constant_time_eq_spec in Et. bool_to_prop. rewrite <- Hread, <- Et.
    split; [|lia]. rewrite <- (take_drop 48 b) at 1. f_equal. unfold slice.
    symmetry. apply firstn_all2. rewrite length_drop. unfold zlen in El. lia.
Qed.

Definition sample_credential : ManagedCredential :=
  {| subject_id := 42; mc_key_id := 7; epoch := 3; not_before_ms := 100;
     not_after_ms := 200; permissions := 5 |}.

Lemma managed_credential_authentic_witness :
  exists b, issue_managed_credential (replicate 16 9) sample_credential (replicate 80 0)
            = Ok (b, 80) /\
            verify_managed_credential (replicate 16 9) b 150 = Ok sample_credential.
Proof.
  destruct (managed_credential_authentic (replicate 16 9) sample_credential
    (replicate 80 0) 150 [] sample_credential) as [H _]; [..|exact H].
  - split; cbn; solve_u.
  - vm_compute. discriminate.
  - reflexivity.
  - cbn. lia.
  - constructor.
Defined.
