(* ===== verification/WireSample.v ===== *)
(** * A concrete environment

    An instance of [WireEnv] that satisfies its laws and computes, used by the
    concrete instances of the theorems: the CRC-32 of IEEE 802.3 (the checksum
    the frame trailer carries), a codec that encodes runs of zeros in place of
    Zstandard, and the software cryptography of src/src/crypto.rs. *)

From S2P Require Import Prelude Schema Packet MemoryAdmission WireEnv Crypto.

Open Scope Z_scope.

Fixpoint crc_bits (n : nat) (c : Z) : Z :=
  match n with
  | O => c
  | S n => crc_bits n (if Z.odd c then Z.lxor (Z.shiftr c 1) 3988292384 else Z.shiftr c 1)
  end.

Definition crc32_ieee (l : bytes) : Z :=
  wrap32 (Z.lxor (foldl (fun c b => crc_bits 8 (Z.lxor c b)) u32_max l) u32_max).

Example crc32_check : crc32_ieee (str "123456789") = 3421780262.
Proof. vm_compute. reflexivity. Qed.

Definition zeros_compress (l : bytes) (cap : Z) : option bytes :=
  if forallb (Z.eqb 0) l && (8 <=? cap) && (zlen l <=? u64_max)
  then Some (le_bytes 8 (zlen l)) else None.

Definition zeros_decompress (c : bytes) (cap : Z) : option bytes :=
  if (length c =? 8)%nat && (from_le c <=? cap)
  then Some (replicate (Z.to_nat (from_le c)) 0) else None.

Lemma zeros_replicate l : forallb (Z.eqb 0) l = true -> l = replicate (length l) 0.
Proof.
  induction l as [|x l IH]; cbn [forallb]; [done|]. rewrite andb_true_iff.
  intros [Hx Hl]. apply Z.eqb_eq in Hx. subst x. cbn [length replicate]. f_equal. auto.
Qed.

#[export] Instance sample_env : WireEnv := {|
  we_registry := sample_registry;
  we_tuning := sample_tuning;
  crc32_bytes := crc32_ieee;
  zstd_compress := zeros_compress;
  zstd_decompress := zeros_decompress;
  we_crypto := registered_crypto (software_only sample_ring);
|}.

#[export] Instance sample_laws : WireEnvLaws sample_env.
Proof.
  split.
  - intros l. apply wrap32_range.
  - intros l cap c. cbn. unfold zeros_compress, zeros_decompress.
    destruct (_ && _) eqn:E; [|done]. intros [= <-]. bool_to_prop.
    rewrite length_le_bytes, from_le_bytes.
    + rewrite (proj2 (Z.leb_le _ _)) by lia. cbn [Nat.eqb andb]. unfold zlen.
      rewrite Nat2Z.id. f_equal. symmetry. by apply zeros_replicate.
    + change (256 ^ Z.of_nat 8) with (2 ^ 64). pose proof (zlen_nonneg l). solve_u.
  - done.
  - intros l cap c. cbn. unfold zeros_compress. destruct (_ && _); [|done].
    intros [= <-]. unfold zlen. rewrite length_le_bytes. done.
Qed.

#[export] Instance sample_crypto_laws : E2eCryptoLaws (@we_crypto sample_env) :=
  software_crypto_laws sample_ring.

(** No admission probe installed. *)
Definition no_admission : Admission :=
  {| probe := None; probe_v2 := None;
     rejected := 0 |}.
