(* ===== verification/WireReader.v ===== *)
(** * Wire primitives (src/src/wire_format.rs)

    The [ByteReader] cursor as a reader monad, the inline wire contract (payload
    shape, frozen target senders, reliable bit) and the reliable header in its
    fixed and compact encodings.  A reader is a function of the cursor; no
    caller looks at a cursor after an error, so an error carries none.

    The facts are symbolic execution rules: [at_ pre rest] is the cursor with
    [pre] consumed and [rest] ahead, and [reads p enc v] says that the parser
    [p] consumes exactly [enc] wherever it stands and returns [v]. *)

From S2P Require Import Prelude Varint Schema Packet.

Open Scope Z_scope.

(** ** The cursor *)

Record ByteReader : Type := { buf : bytes; off : nat }.

Definition reader (A : Type) : Type := ByteReader -> result (A * ByteReader).

#[export] Instance reader_ret : MRet reader := fun A a r => Ok (a, r).
#[export] Instance reader_bind : MBind reader :=
  fun A B f p r => match p r with Ok (a, r) => f a r | Err e => Err e end.

(** The [?] operator on a plain result, and an early [return Err(e)]. *)
Definition lift {A} (x : result A) : reader A :=
  fun r => match x with Ok a => Ok (a, r) | Err e => Err e end.
Definition fail_with {A} (e : TelemetryError) : reader A := fun _ => Err e.

Definition new_reader (b : bytes) : ByteReader := {| buf := b; off := 0 |}.

Definition remaining (r : ByteReader) : Z := sat_sub (zlen (buf r)) (Z.of_nat (off r)).
Definition get_remaining : reader Z := fun r => Ok (remaining r, r).

Definition read_bytes (n : Z) : reader bytes := fun r =>
  if remaining r <? n then Err (Unpack "short read")
  else
    let k := Z.to_nat n in
    Ok (take k (drop (off r) (buf r)), {| buf := buf r; off := (off r + k)%nat |}).

(** [read_bytes(1)?[0]]: the slice has exactly one byte. *)
Definition read_byte : reader Z := l ← read_bytes 1; mret (nth 0 l 0).

Definition read_uleb128 : reader Z := fun r =>
  match read_u64 (buf r) (off r) with
  | (Ok v, o) => Ok (v, {| buf := buf r; off := o |})
  | (Err e, _) => Err e
  end.

Definition write_u32_le (v : Z) : bytes := le_bytes 4 v.
Definition read_u32_le : reader Z := b ← read_bytes 4; mret (from_le b).

(** [u32::try_from] / [u16::try_from] of a decoded varint. *)
Definition read_uleb_u32 (msg : string) : reader Z :=
  v ← read_uleb128; lift (ok_or (try_u32 v) (Unpack msg)).
Definition read_uleb_u16 (msg : string) : reader Z :=
  v ← read_uleb128; lift (ok_or (try_u16 v) (Unpack msg)).

(** [flags & mask != 0]. *)
Definition has_flag (flags mask : Z) : bool := negb (Z.land flags mask =? 0).

Definition set_if (b : bool) (flags mask : Z) : Z := if b then Z.lor flags mask else flags.

(** ** Inline wire contract *)

Definition CONTRACT_FLAG_TARGETS : Z := 1.
Definition CONTRACT_FLAG_SHAPE : Z := 2.
Definition CONTRACT_FLAG_RELIABLE_HEADER : Z := 4.

Definition is_static (shape : MessageElement) : bool :=
  match shape with Static _ _ _ => true | Dynamic _ _ => false end.

(** [u64::try_from(usize)] cannot fail on the modelled target. *)
Definition write_wire_shape (shape : MessageElement) : bytes :=
  let dt := message_data_type_code (data_type shape) in
  let class := message_class_code (message_type shape) in
  let packed := Z.lor dt (wrap8 (Z.shiftl class 4)) in
  let packed := set_if (is_static shape) packed 64 in
  packed :: match shape with
            | Static count _ _ => write_uleb128 count
            | Dynamic _ _ => []
            end.

Definition decode_wire_shape : reader MessageElement :=
  packed ← read_byte;
  dt ← lift (ok_or (message_data_type_from_code (Z.land packed 15))
                   (Unpack "wire shape type"));
  class ← lift (ok_or (message_class_from_code (Z.land (Z.shiftr packed 4) 3))
                      (Unpack "wire shape class"));
  if has_flag packed 64
  then count ← read_uleb128; mret (Static count dt class)
  else mret (Dynamic dt class).

Record WireContract : Type := {
  shape : option MessageElement;
  target_senders : option (list Z);
  has_reliable_header : bool;
}.

Definition is_some {A} (o : option A) : bool := match o with Some _ => true | None => false end.

Definition write_wire_contract (shape : option MessageElement) (targets : list Z)
    (reliable_present : bool) : bytes :=
  let flags := set_if (negb (is_empty targets)) 0 CONTRACT_FLAG_TARGETS in
  let flags := set_if (is_some shape) flags CONTRACT_FLAG_SHAPE in
  let flags := set_if reliable_present flags CONTRACT_FLAG_RELIABLE_HEADER in
  [flags]
  ++ (match shape with Some s => write_wire_shape s | None => [] end)
  ++ (if is_empty targets then []
      else write_uleb128 (zlen targets) ++ concat (map (le_bytes 8) targets)).

Definition wire_contract_size (shape : option MessageElement) (targets : list Z) : Z :=
  1 + (match shape with
       | None => 0
       | Some (Static count _ _) => 1 + uleb128_size count
       | Some _ => 1
       end)
    + (if is_empty targets then 0
       else uleb128_size (zlen targets) + zlen targets * 8).

Fixpoint read_targets (n : nat) : reader (list Z) :=
  match n with
  | O => mret []
  | S n => b ← read_bytes 8; rest ← read_targets n; mret (from_le b :: rest)
  end.

(** The body of the contract, read from a bounded sub-reader. *)
Definition decode_contract_body : reader WireContract :=
  flags ← read_byte;
  shape ← (if has_flag flags CONTRACT_FLAG_SHAPE
           then s ← decode_wire_shape; mret (Some s) else mret None);
  targets ← (if has_flag flags CONTRACT_FLAG_TARGETS then
               count ← read_uleb128;
               left ← get_remaining;
               if left / 8 <? count then fail_with (Unpack "wire contract target count")
               else if count =? 0 then mret None
               else ts ← read_targets (Z.to_nat count); mret (Some ts)
             else mret None);
  left ← get_remaining;
  if negb (left =? 0) then fail_with (Unpack "wire contract trailing bytes")
  else mret {| shape := shape; target_senders := targets;
               has_reliable_header := has_flag flags CONTRACT_FLAG_RELIABLE_HEADER |}.

(** Run a reader on a slice of its own and drop its cursor. *)
Definition sub_reader {A} (p : reader A) (b : bytes) : result A :=
  match p (new_reader b) with Ok (a, _) => Ok a | Err e => Err e end.

Definition decode_wire_contract (has_contract : bool) : reader WireContract :=
  if negb has_contract
  then mret {| shape := None; target_senders := None; has_reliable_header := false |}
  else contract_len ← read_uleb128;
       contract_bytes ← read_bytes contract_len;
       lift (sub_reader decode_contract_body contract_bytes).

(** ** Reliable header *)

Record ReliableHeader : Type := { rh_flags : Z; rh_seq : Z; rh_ack : Z }.

#[export] Instance ReliableHeader_eq_dec : EqDecision ReliableHeader.
Proof. solve_decision. Defined.

Definition RELIABLE_FLAG_ACK_ONLY : Z := 1.
Definition RELIABLE_FLAG_UNORDERED : Z := 2.
Definition RELIABLE_FLAG_UNSEQUENCED : Z := 128.
Definition RELIABLE_HEADER_BYTES : Z := 9.
Definition RELIABLE_WIRE_FLAG_SEQ_PRESENT : Z := 4.
Definition RELIABLE_WIRE_FLAG_ACK_PRESENT : Z := 8.
Definition RELIABLE_PUBLIC_FLAGS_MASK : Z :=
  Z.lor (Z.lor RELIABLE_FLAG_ACK_ONLY RELIABLE_FLAG_UNORDERED) RELIABLE_FLAG_UNSEQUENCED.

Definition write_reliable_header (h : ReliableHeader) : bytes :=
  rh_flags h :: write_u32_le (rh_seq h) ++ write_u32_le (rh_ack h).

Definition seq_present (h : ReliableHeader) : bool :=
  negb (has_flag (rh_flags h) RELIABLE_FLAG_ACK_ONLY) || negb (rh_seq h =? 0).
Definition ack_present (h : ReliableHeader) : bool :=
  negb (rh_ack h =? 0) || has_flag (rh_flags h) RELIABLE_FLAG_ACK_ONLY.

Definition reliable_compact_size (h : ReliableHeader) : Z :=
  1 + (if seq_present h then uleb128_size (rh_seq h) else 0)
    + (if ack_present h then uleb128_size (rh_ack h) else 0).

Definition should_compact_reliable_header (h : ReliableHeader) : bool :=
  reliable_compact_size h <? RELIABLE_HEADER_BYTES.

Definition reliable_wire_size (h : ReliableHeader) (compact : bool) : Z :=
  if compact then reliable_compact_size h else RELIABLE_HEADER_BYTES.

Definition write_reliable_header_encoded (h : ReliableHeader) (compact : bool) : bytes :=
  if negb compact then write_reliable_header h
  else
    let wire_flags := Z.land (rh_flags h) RELIABLE_PUBLIC_FLAGS_MASK in
    let wire_flags := set_if (seq_present h) wire_flags RELIABLE_WIRE_FLAG_SEQ_PRESENT in
    let wire_flags := set_if (ack_present h) wire_flags RELIABLE_WIRE_FLAG_ACK_PRESENT in
    [wire_flags]
    ++ (if seq_present h then write_uleb128 (rh_seq h) else [])
    ++ (if ack_present h then write_uleb128 (rh_ack h) else []).

Definition read_reliable_header : reader ReliableHeader :=
  flags ← read_byte;
  seq ← read_u32_le;
  ack ← read_u32_le;
  mret {| rh_flags := flags; rh_seq := seq; rh_ack := ack |}.

Definition read_reliable_header_compact : reader ReliableHeader :=
  wire_flags ← read_byte;
  seq ← (if has_flag wire_flags RELIABLE_WIRE_FLAG_SEQ_PRESENT
         then read_uleb_u32 "reliable seq too large" else mret 0);
  ack ← (if has_flag wire_flags RELIABLE_WIRE_FLAG_ACK_PRESENT
         then read_uleb_u32 "reliable ack too large" else mret 0);
  mret {| rh_flags := Z.land wire_flags RELIABLE_PUBLIC_FLAGS_MASK;
          rh_seq := seq; rh_ack := ack |}.

Definition read_reliable_header_encoded (compact : bool) : reader ReliableHeader :=
  if compact then read_reliable_header_compact else read_reliable_header.

(** ** Symbolic execution rules *)

Definition at_ (pre rest : bytes) : ByteReader := {| buf := pre ++ rest; off := length pre |}.

Definition reads {A} (p : reader A) (enc : bytes) (v : A) : Prop :=
  forall pre rest, p (at_ pre (enc ++ rest)) = Ok (v, at_ (pre ++ enc) rest).

Create HintDb wire.
#[local] Arguments write_uleb128 : simpl never.

Lemma new_reader_at b : new_reader b = at_ [] b.
Proof. done. Qed.

Lemma at_app pre enc rest :
  {| buf := pre ++ enc ++ rest; off := (length pre + length enc)%nat |}
  = at_ (pre ++ enc) rest.
Proof. unfold at_. by rewrite app_assoc, length_app. Qed.

Lemma remaining_at pre rest : remaining (at_ pre rest) = zlen rest.
Proof. unfold remaining, at_; simpl. rewrite zlen_app. solve_u. Qed.

Lemma bind_reads {A B} (p : reader A) (k : A -> reader B) enc v pre rest :
  reads p enc v -> (p ≫= k) (at_ pre (enc ++ rest)) = k v (at_ (pre ++ enc) rest).
Proof. intros H. unfold mbind, reader_bind. by rewrite H. Qed.

Lemma reads_bind {A B} (p : reader A) (k : A -> reader B) e1 e2 v w :
  reads p e1 v -> reads (k v) e2 w -> reads (p ≫= k) (e1 ++ e2) w.
Proof.
  intros H1 H2 pre rest. rewrite <- app_assoc, (bind_reads _ _ _ v) by done.
  by rewrite H2, app_assoc.
Qed.

Lemma bind_assoc_reader {A B C} (p : reader A) (k : A -> reader B) (h : B -> reader C) r :
  ((p ≫= k) ≫= h) r = (p ≫= fun a => k a ≫= h) r.
Proof. unfold mbind, reader_bind. by destruct (p r) as [[? ?]|]. Qed.

Lemma cons_app1 {A} (x : A) l : x :: l = [x] ++ l.
Proof. done. Qed.

Lemma reads_ret {A} (v : A) : reads (mret v) [] v.
Proof. intros pre rest. unfold mret, reader_ret. by rewrite app_nil_r. Qed.

Lemma reads_ret' {A} (v w : A) : v = w -> reads (mret v) [] w.
Proof. intros ->. apply reads_ret. Qed.

Lemma reads_lift {A} (x : result A) v : x = Ok v -> reads (lift x) [] v.
Proof. intros -> pre rest. unfold lift. by rewrite app_nil_r. Qed.

Lemma reads_map {A B} (p : reader A) (k : A -> reader B) e v w :
  reads p e v -> reads (k v) [] w -> reads (p ≫= k) e w.
Proof. intros. rewrite <- (app_nil_r e). by eapply reads_bind. Qed.

Lemma bind_lift {A B} (x : result A) (k : A -> reader B) r v :
  x = Ok v -> (lift x ≫= k) r = k v r.
Proof. by intros ->. Qed.

Lemma bind_get_remaining {B} (k : Z -> reader B) pre rest :
  (get_remaining ≫= k) (at_ pre rest) = k (zlen rest) (at_ pre rest).
Proof.
  unfold get_remaining, mbind, reader_bind. by rewrite remaining_at.
Qed.

Lemma reads_bytes n enc : zlen enc = n -> reads (read_bytes n) enc enc.
Proof.
  intros <- pre rest. unfold read_bytes. rewrite remaining_at, zlen_app.
  destruct (Z.ltb_spec (zlen enc + zlen rest) (zlen enc)) as [Hl|_];
    [pose proof (zlen_nonneg rest); lia|].
  unfold zlen. rewrite Nat2Z.id. unfold at_ at 1 2 3 4. cbn [buf off].
  by rewrite drop_app_length, take_app_length, at_app.
Qed.

Lemma reads_byte b : reads read_byte [b] b.
Proof.
  eapply reads_map; [by apply reads_bytes|]. apply reads_ret.
Qed.

Lemma reads_uleb128 v : is_u64 v -> reads read_uleb128 (write_uleb128 v) v.
Proof.
  intros Hv pre rest. unfold read_uleb128, at_ at 1 2 3. cbn [buf off].
  by rewrite read_write_u64, at_app.
Qed.

(** A successful varint read, taken apart. *)
Lemma read_uleb128_inv pre l v r :
  read_uleb128 (at_ pre l) = Ok (v, r) ->
  exists enc rest, l = enc ++ rest /\ r = at_ (pre ++ enc) rest /\ enc <> [] /\
    reads read_uleb128 enc v.
Proof.
  unfold read_uleb128, at_ at 1 2 3. cbn [buf off].
  destruct (read_u64 (pre ++ l) (length pre)) as [[v'|] o] eqn:E; [|done]. intros [= -> <-].
  apply read_u64_loop_local in E as (enc & rest & Hd & -> & Hne & Hloc).
  rewrite drop_app_length in Hd. subst l. exists enc, rest. split; [done|].
  split; [unfold at_; cbn [buf off]; by rewrite at_app|]. split; [done|].
  intros pre' rest'. unfold at_ at 1 2 3. cbn [buf off]. unfold read_u64.
  by rewrite Hloc, at_app.
Qed.

Lemma reads_uleb_u32 v msg : is_u32 v -> reads (read_uleb_u32 msg) (write_uleb128 v) v.
Proof.
  intros Hv. eapply reads_map; [apply reads_uleb128; eauto with sed_arith|].
  apply reads_lift. by rewrite try_u32_fits.
Qed.

Lemma reads_uleb_u16 v msg : is_u16 v -> reads (read_uleb_u16 msg) (write_uleb128 v) v.
Proof.
  intros Hv. eapply reads_map; [apply reads_uleb128; eauto with sed_arith|].
  apply reads_lift. by rewrite try_u16_fits.
Qed.

Lemma reads_u32_le v : is_u32 v -> reads read_u32_le (write_u32_le v) v.
Proof.
  intros Hv. eapply reads_map; [apply reads_bytes; unfold zlen, write_u32_le; by rewrite length_le_bytes|].
  apply reads_ret'. apply from_le_bytes. change (256 ^ Z.of_nat 4) with (2 ^ 32). solve_u.
Qed.

#[export] Hint Resolve reads_ret reads_byte reads_uleb128 reads_uleb_u32 reads_uleb_u16
  reads_u32_le : wire.

(** ** The contract and the reliable header *)

(** A one-byte flag set is determined by the booleans it was built from. *)
Lemma shape_byte dt class st :
  let packed := set_if st (Z.lor (message_data_type_code dt)
                                 (wrap8 (Z.shiftl (message_class_code class) 4))) 64 in
  is_u8 packed /\
  message_data_type_from_code (Z.land packed 15) = Some dt /\
  message_class_from_code (Z.land (Z.shiftr packed 4) 3) = Some class /\
  has_flag packed 64 = st.
Proof. destruct dt, class, st; vm_compute; repeat split; discriminate. Qed.

Definition shape_ok (s : MessageElement) : Prop :=
  match s with Static count _ _ => is_u64 count | Dynamic _ _ => True end.

Lemma reads_wire_shape s : shape_ok s -> reads decode_wire_shape (write_wire_shape s) s.
Proof.
  intros Hs. unfold decode_wire_shape, write_wire_shape.
  pose proof (shape_byte (data_type s) (message_type s) (is_static s)) as Hb.
  cbv zeta in Hb. destruct Hb as (_ & Hd & Hc & Hst).
  rewrite (cons_app1 (set_if _ _ _)). eapply reads_bind; [apply reads_byte|].
  destruct s as [count dt class|dt class]; simpl in *; rewrite Hd, Hc, Hst.
  - eapply (reads_bind _ _ []); [by apply reads_lift|].
    eapply (reads_bind _ _ []); [by apply reads_lift|].
    eapply reads_map; eauto with wire.
  - eapply (reads_bind _ _ []); [by apply reads_lift|].
    eapply (reads_bind _ _ []); [by apply reads_lift|]. apply reads_ret.
Qed.

Lemma reads_targets ts :
  Forall is_u64 ts -> reads (read_targets (length ts)) (concat (map (le_bytes 8) ts)) ts.
Proof.
  induction 1 as [|t ts Ht Hts IH]; cbn [length read_targets map concat]; [apply reads_ret|].
  eapply reads_bind; [apply reads_bytes; unfold zlen; by rewrite length_le_bytes|].
  eapply reads_map; [done|]. apply reads_ret'. f_equal. apply from_le_bytes.
  change (256 ^ Z.of_nat 8) with (2 ^ 64). solve_u.
Qed.

Lemma zlen_concat_le8 ts : zlen (concat (map (le_bytes 8) ts)) = zlen ts * 8.
Proof.
  unfold zlen. induction ts as [|t ts IH]; [done|]. cbn [map concat].
  rewrite length_app, length_le_bytes. cbn [length]. lia.
Qed.

Lemma contract_flags ne sh rel :
  let f := set_if rel (set_if sh (set_if ne 0 CONTRACT_FLAG_TARGETS) CONTRACT_FLAG_SHAPE)
             CONTRACT_FLAG_RELIABLE_HEADER in
  is_u8 f /\ has_flag f CONTRACT_FLAG_TARGETS = ne /\ has_flag f CONTRACT_FLAG_SHAPE = sh /\
  has_flag f CONTRACT_FLAG_RELIABLE_HEADER = rel.
Proof. destruct ne, sh, rel; vm_compute; repeat split; discriminate. Qed.

(** The targets as decoded: an empty list is not written. *)
Definition targets_opt (ts : list Z) : option (list Z) :=
  if is_empty ts then None else Some ts.

Definition contract_ok (sh : option MessageElement) (ts : list Z) : Prop :=
  from_option shape_ok True sh /\ Forall is_u64 ts /\ zlen ts * 8 <= isize_max.

(** The contract body, read to the end of its slice. *)
Lemma decode_contract_body_at sh ts rel :
  contract_ok sh ts ->
  sub_reader decode_contract_body (write_wire_contract sh ts rel)
  = Ok {| shape := sh; target_senders := targets_opt ts; has_reliable_header := rel |}.
Proof.
  intros (Hs & Ht & Hn). unfold sub_reader. rewrite new_reader_at.
  unfold write_wire_contract, decode_contract_body.
  pose proof (contract_flags (negb (is_empty ts)) (is_some sh) rel) as Hf. cbv zeta in Hf.
  destruct Hf as (_ & Hft & Hfs & Hfr).
  rewrite (bind_reads _ _ _ _ _ _ (reads_byte _)). rewrite Hfs, Hft, Hfr.
  erewrite bind_reads with (v := sh).
  2: { destruct sh as [s|]; simpl in *; [|apply reads_ret].
       eapply reads_map; [by apply reads_wire_shape|apply reads_ret]. }
  destruct ts as [|t ts]; simpl is_empty; cbn [negb].
  - rewrite <- (app_nil_r []). rewrite (bind_reads _ _ _ _ _ _ (reads_ret None)).
    by rewrite bind_get_remaining.
  - set (l := t :: ts) in *. pose proof (zlen_nonneg ts).
    assert (1 <= zlen l) by (unfold l, zlen; cbn [length]; lia).
    rewrite bind_assoc_reader.
    rewrite (bind_reads _ _ _ _ _ _ (reads_uleb128 (zlen l) ltac:(solve_u))).
    rewrite bind_assoc_reader, bind_get_remaining, zlen_concat_le8, Z.div_mul by lia.
    rewrite (proj2 (Z.ltb_ge _ _)), (proj2 (Z.eqb_neq _ _)) by lia.
    rewrite <- (app_nil_r (concat _)).
    erewrite bind_reads.
    2: { eapply reads_map; [|apply reads_ret]. unfold zlen. rewrite Nat2Z.id.
         by apply reads_targets. }
    by rewrite bind_get_remaining.
Qed.

Lemma write_wire_shape_size s :
  shape_ok s ->
  zlen (write_wire_shape s)
  = match s with Static count _ _ => 1 + uleb128_size count | _ => 1 end.
Proof.
  intros Hs. unfold write_wire_shape. destruct s as [count dt class|]; [|done].
  rewrite cons_app1, zlen_app, uleb128_size_length by done. done.
Qed.

Lemma write_wire_contract_size sh ts rel :
  contract_ok sh ts -> zlen (write_wire_contract sh ts rel) = wire_contract_size sh ts.
Proof.
  intros (Hs & Ht & Hn). unfold write_wire_contract, wire_contract_size.
  rewrite !zlen_app. change (zlen [?x]) with 1.
  rewrite <- Z.add_assoc. f_equal. f_equal.
  - destruct sh as [s|]; [|done]. by apply write_wire_shape_size.
  - destruct ts as [|t ts]; cbn [is_empty]; [done|].
    rewrite zlen_app, zlen_concat_le8, uleb128_size_length; [done|]. solve_u.
Qed.

Lemma uleb128_size_le v : is_u64 v -> 1 <= uleb128_size v <= 10.
Proof.
  intros Hv. rewrite <- uleb128_size_length by done. split.
  - rewrite uleb128_size_length by done. apply uleb128_size_pos.
  - assert (forall n w, (length (write_uleb128_loop n w) <= n)%nat) as Hn.
    { induction n as [|n IH]; intros w; cbn [write_uleb128_loop]; [done|].
      destruct (_ =? 0); cbn [length]; [lia|]. specialize (IH (Z.shiftr w 7)). lia. }
    unfold write_uleb128, zlen. specialize (Hn 10%nat v). lia.
Qed.

Lemma wire_contract_size_u64 sh ts :
  contract_ok sh ts -> is_u64 (wire_contract_size sh ts).
Proof.
  intros (Hs & Ht & Hn). unfold wire_contract_size.
  assert (0 <= match sh with None => 0 | Some (Static c _ _) => 1 + uleb128_size c
               | Some _ => 1 end <= 11).
  { destruct sh as [[c ? ?|? ?]|]; simpl in *; [|lia..].
    pose proof (uleb128_size_le c Hs). lia. }
  pose proof (uleb128_size_le (zlen ts) ltac:(solve_u)). pose proof (zlen_nonneg ts).
  destruct (is_empty ts); solve_u.
Qed.

(** The encoded contract of a frame, present when there is something to freeze. *)
Definition contract_bytes (sh : option MessageElement) (ts : list Z) (rel : bool) : bytes :=
  if is_some sh || negb (is_empty ts)
  then write_uleb128 (wire_contract_size sh ts) ++ write_wire_contract sh ts rel
  else [].

Lemma reads_wire_contract sh ts rel :
  contract_ok sh ts ->
  reads (decode_wire_contract (is_some sh || negb (is_empty ts))) (contract_bytes sh ts rel)
    {| shape := sh; target_senders := targets_opt ts;
       has_reliable_header := (is_some sh || negb (is_empty ts)) && rel |}.
Proof.
  intros Hc. unfold decode_wire_contract, contract_bytes.
  destruct (is_some sh || negb (is_empty ts)) eqn:E; cbn [negb andb].
  - eapply reads_bind; [by apply reads_uleb128, wire_contract_size_u64|].
    eapply reads_map; [by apply reads_bytes, write_wire_contract_size|].
    apply reads_lift. by apply decode_contract_body_at.
  - bool_to_prop. destruct sh, ts; try done. apply reads_ret.
Qed.

(** *** Reliable header *)

Definition header_ok (h : ReliableHeader) : Prop :=
  is_u8 (rh_flags h) /\ is_u32 (rh_seq h) /\ is_u32 (rh_ack h).

(** The header a compact encoding carries: the public flags only. *)
Definition public_header (h : ReliableHeader) : ReliableHeader :=
  {| rh_flags := Z.land (rh_flags h) RELIABLE_PUBLIC_FLAGS_MASK;
     rh_seq := rh_seq h; rh_ack := rh_ack h |}.

Definition decoded_header (h : ReliableHeader) (compact : bool) : ReliableHeader :=
  if compact then public_header h else h.

Lemma compact_flags f s a :
  let wf := set_if a (set_if s (Z.land f RELIABLE_PUBLIC_FLAGS_MASK)
                        RELIABLE_WIRE_FLAG_SEQ_PRESENT) RELIABLE_WIRE_FLAG_ACK_PRESENT in
  has_flag wf RELIABLE_WIRE_FLAG_SEQ_PRESENT = s /\
  has_flag wf RELIABLE_WIRE_FLAG_ACK_PRESENT = a /\
  Z.land wf RELIABLE_PUBLIC_FLAGS_MASK = Z.land f RELIABLE_PUBLIC_FLAGS_MASK.
Proof.
  unfold has_flag, set_if, RELIABLE_WIRE_FLAG_SEQ_PRESENT, RELIABLE_WIRE_FLAG_ACK_PRESENT.
  change RELIABLE_PUBLIC_FLAGS_MASK with 131.
  destruct s, a; rewrite ?Z.land_lor_distr_l, <- ?Z.land_assoc; simpl Z.land at 2;
    rewrite ?Z.lor_0_r, ?Z.land_0_r; repeat split; try done.
Qed.

Lemma seq_absent h : seq_present h = false -> rh_seq h = 0.
Proof. unfold seq_present. intros. bool_to_prop. done. Qed.
Lemma ack_absent h : ack_present h = false -> rh_ack h = 0.
Proof. unfold ack_present. intros. bool_to_prop. done. Qed.

Lemma reads_reliable_header h compact :
  header_ok h ->
  reads (read_reliable_header_encoded compact) (write_reliable_header_encoded h compact)
    (decoded_header h compact).
Proof.
  intros (Hf & Hs & Ha). destruct compact; cbn [negb decoded_header].
  - unfold read_reliable_header_encoded, read_reliable_header_compact,
      write_reliable_header_encoded. cbn [negb].
    pose proof (compact_flags (rh_flags h) (seq_present h) (ack_present h)) as Hw.
    cbv zeta in Hw. destruct Hw as (H1 & H2 & H3).
    eapply reads_bind; [apply reads_byte|]. rewrite H1, H2, H3.
    eapply reads_bind with (v := rh_seq h).
    { destruct (seq_present h) eqn:E; [by apply reads_uleb_u32|].
      apply reads_ret'. symmetry. by apply seq_absent. }
    eapply reads_map with (v := rh_ack h); [|apply reads_ret].
    destruct (ack_present h) eqn:E; [by apply reads_uleb_u32|].
    apply reads_ret'. symmetry. by apply ack_absent.
  - unfold read_reliable_header_encoded, read_reliable_header,
      write_reliable_header_encoded, write_reliable_header. cbn [negb].
    rewrite (cons_app1 (rh_flags h)). eapply reads_bind; [apply reads_byte|].
    eapply reads_bind; [by apply reads_u32_le|].
    eapply reads_map; [by apply reads_u32_le|]. by destruct h; apply reads_ret.
Qed.

Lemma write_reliable_header_size h compact :
  header_ok h ->
  zlen (write_reliable_header_encoded h compact) = reliable_wire_size h compact.
Proof.
  intros (Hf & Hs & Ha). unfold write_reliable_header_encoded, reliable_wire_size.
  destruct compact; cbn [negb].
  - unfold reliable_compact_size. rewrite !zlen_app. change (zlen [?x]) with 1.
    rewrite Z.add_assoc.
    destruct (seq_present h), (ack_present h);
      rewrite ?uleb128_size_length by eauto with sed_arith; done.
  - unfold write_reliable_header, write_u32_le.
    rewrite cons_app1, !zlen_app. unfold zlen. rewrite !length_le_bytes. done.
Qed.

(** A compact encoding is chosen only when it is shorter. *)
Lemma reliable_wire_size_chosen h :
  header_ok h ->
  1 <= reliable_wire_size h (should_compact_reliable_header h) <= RELIABLE_HEADER_BYTES.
Proof.
  intros (Hf & Hs & Ha).
  pose proof (uleb128_size_pos (rh_seq h)). pose proof (uleb128_size_pos (rh_ack h)).
  unfold reliable_wire_size, should_compact_reliable_header, reliable_compact_size.
  destruct (Z.ltb_spec (1 + (if seq_present h then uleb128_size (rh_seq h) else 0)
    + (if ack_present h then uleb128_size (rh_ack h) else 0)) RELIABLE_HEADER_BYTES);
    unfold RELIABLE_HEADER_BYTES in *; [|lia].
  destruct (seq_present h), (ack_present h); lia.
Qed.

(** ** Locality

    A reader is local when a successful run consumed a stretch of the input that
    makes it succeed with the same result wherever it stands.  All readers that
    do not ask for [remaining] are local; the rules below are inversion rules for
    frames of unknown origin. *)

Definition local {A} (p : reader A) : Prop :=
  forall pre l v r, p (at_ pre l) = Ok (v, r) ->
    exists enc rest, l = enc ++ rest /\ r = at_ (pre ++ enc) rest /\ reads p enc v.

Lemma local_ret {A} (v : A) : local (mret v).
Proof.
  intros pre l w r [= <- <-]. exists [], l. rewrite app_nil_r. split; [done|].
  split; [done|]. apply reads_ret.
Qed.

Lemma local_lift {A} (x : result A) : local (lift x).
Proof.
  intros pre l w r H. destruct x as [v|]; [|done]. unfold lift in H. injection H as <- <-.
  exists [], l. rewrite app_nil_r. split; [done|]. split; [done|]. by apply reads_lift.
Qed.

Lemma local_fail {A} e : local (fail_with (A := A) e).
Proof. done. Qed.

Lemma local_bind {A B} (p : reader A) (k : A -> reader B) :
  local p -> (forall a, local (k a)) -> local (p ≫= k).
Proof.
  intros Hp Hk pre l w r. unfold mbind, reader_bind.
  destruct (p (at_ pre l)) as [[a r1]|] eqn:E1; [|done].
  apply Hp in E1 as (e1 & rest1 & -> & -> & R1). intros H.
  apply Hk in H as (e2 & rest2 & -> & -> & R2). exists (e1 ++ e2), rest2.
  rewrite !app_assoc. split; [done|]. split; [done|]. by eapply reads_bind.
Qed.

Lemma local_if {A} (b : bool) (p q : reader A) : local p -> local q -> local (if b then p else q).
Proof. by destruct b. Qed.

Lemma reads_nothing n : n <= 0 -> reads (read_bytes n) [] [].
Proof.
  intros Hn pre rest. unfold read_bytes. rewrite remaining_at.
  rewrite (proj2 (Z.ltb_ge _ _)) by (pose proof (zlen_nonneg ([] ++ rest)); lia).
  replace (Z.to_nat n) with 0%nat by lia. rewrite take_0, Nat.add_0_r, app_nil_r. done.
Qed.

Lemma local_bytes n : local (read_bytes n).
Proof.
  intros pre l v r H. destruct (Z.le_gt_cases n 0) as [Hn|Hn].
  { pose proof (reads_nothing n Hn pre l) as R. cbn [app] in R. rewrite R in H.
    injection H as <- <-. exists [], l. split; [done|]. split; [done|]. by apply reads_nothing. }
  destruct (Z.le_gt_cases n (zlen l)) as [Hle|Hgt].
  - rewrite <- (take_drop (Z.to_nat n) l) in H.
    set (e := take (Z.to_nat n) l) in *. set (rest := drop (Z.to_nat n) l) in *.
    assert (zlen e = n) as He by (unfold e, zlen in *; rewrite length_take; lia).
    pose proof (reads_bytes n e He) as R. rewrite R in H. injection H as <- <-.
    exists e, rest. split; [symmetry; apply take_drop|]. done.
  - unfold read_bytes in H. rewrite remaining_at, (proj2 (Z.ltb_lt _ _)) in H by lia. done.
Qed.

Lemma local_byte : local read_byte.
Proof. apply local_bind; [apply local_bytes|]. intros. apply local_ret. Qed.

Lemma local_uleb128 : local read_uleb128.
Proof.
  intros pre l v r H. apply read_uleb128_inv in H as (enc & rest & ? & ? & _ & ?). eauto.
Qed.

Lemma local_uleb_u32 msg : local (read_uleb_u32 msg).
Proof. apply local_bind; [apply local_uleb128|]. intros. apply local_lift. Qed.
Lemma local_uleb_u16 msg : local (read_uleb_u16 msg).
Proof. apply local_bind; [apply local_uleb128|]. intros. apply local_lift. Qed.
Lemma local_u32_le : local read_u32_le.
Proof. apply local_bind; [apply local_bytes|]. intros. apply local_ret. Qed.

#[export] Hint Resolve local_ret local_lift local_fail local_bind local_if local_byte local_bytes
  local_uleb128 local_uleb_u32 local_uleb_u16 local_u32_le : wire.

Lemma local_reliable_header compact : local (read_reliable_header_encoded compact).
Proof.
  unfold read_reliable_header_encoded, read_reliable_header_compact, read_reliable_header.
  destruct compact; eauto 12 with wire.
Qed.
#[export] Hint Resolve local_reliable_header : wire.

(** A varint read from bytes is a [u64]. *)
Lemma read_uleb128_range r v r' :
  bytes_ok (buf r) -> read_uleb128 r = Ok (v, r') -> is_u64 v /\ buf r' = buf r.
Proof.
  intros Hok. unfold read_uleb128. destruct (read_u64_bounds (buf r) (off r) Hok) as (_ & _ & Hv).
  destruct (read_u64 (buf r) (off r)) as [[w|] o]; [|done]. cbn in Hv.
  intros [= -> <-]. split; [by apply Hv|done].
Qed.

(** ** Running one reader along another *)

Lemma bind_ok_inv {A B} (p : reader A) (k : A -> reader B) r b r' :
  (p ≫= k) r = Ok (b, r') -> exists a r1, p r = Ok (a, r1) /\ k a r1 = Ok (b, r').
Proof. unfold mbind, reader_bind. destruct (p r) as [[a r1]|]; [eauto|done]. Qed.

Lemma bind_run {A B} (p : reader A) (k : A -> reader B) r a r1 :
  p r = Ok (a, r1) -> (p ≫= k) r = k a r1.
Proof. unfold mbind, reader_bind. by intros ->. Qed.

Lemma lift_ok_inv {A} (x : result A) r a r' : lift x r = Ok (a, r') -> x = Ok a /\ r' = r.
Proof. unfold lift. destruct x; [|done]. by intros [= <- <-]. Qed.

(** The cursor of a local reader started on a buffer is again [at_]. *)
Lemma local_at {A} (p : reader A) pre l v r :
  local p -> p (at_ pre l) = Ok (v, r) ->
  exists pre' l', r = at_ pre' l' /\ pre' ++ l' = pre ++ l.
Proof.
  intros Hp H. apply Hp in H as (enc & rest & -> & -> & _).
  exists (pre ++ enc), rest. by rewrite <- app_assoc.
Qed.

Lemma local_wire_shape : local decode_wire_shape.
Proof. unfold decode_wire_shape. eauto 12 with wire. Qed.

Lemma local_wire_contract b : local (decode_wire_contract b).
Proof. unfold decode_wire_contract. eauto 12 with wire. Qed.
#[export] Hint Resolve local_wire_shape local_wire_contract : wire.

Lemma read_bytes_inv n pre l b r :
  0 <= n -> read_bytes n (at_ pre l) = Ok (b, r) ->
  exists rest, l = b ++ rest /\ r = at_ (pre ++ b) rest /\ zlen b = n.
Proof.
  intros Hn H. destruct (Z.le_gt_cases n (zlen l)) as [Hle|Hgt].
  - rewrite <- (take_drop (Z.to_nat n) l) in H.
    set (e := take (Z.to_nat n) l) in *. set (rest := drop (Z.to_nat n) l) in *.
    assert (zlen e = n) as He by (unfold e, zlen in *; rewrite length_take; lia).
    rewrite (reads_bytes n e He) in H. injection H as <- <-.
    exists rest. split; [symmetry; apply take_drop|]. done.
  - unfold read_bytes in H. rewrite remaining_at, (proj2 (Z.ltb_lt _ _)) in H by lia. done.
Qed.

(** The targets are read eight bytes at a time, or all at once. *)
Lemma read_targets_bytes n pre l ts r :
  read_targets n (at_ pre l) = Ok (ts, r) ->
  exists enc rest, l = enc ++ rest /\ r = at_ (pre ++ enc) rest /\
    length enc = (8 * n)%nat /\ ts = chunks_le n 8 enc.
Proof.
  revert pre l ts. induction n as [|n IH]; intros pre l ts; cbn [read_targets].
  { intros [= <- <-]. exists [], l. rewrite app_nil_r. done. }
  intros H. apply bind_ok_inv in H as (b & r1 & Hb & H).
  apply bind_ok_inv in H as (ts' & r2 & Hts & H). injection H as <- <-.
  apply read_bytes_inv in Hb as (rest & -> & -> & Hlen); [|lia].
  assert (length b = 8%nat) by (unfold zlen in Hlen; lia).
  apply IH in Hts as (enc & rest' & -> & -> & Hlen' & Heq).
  exists (b ++ enc), rest'. rewrite !app_assoc. split; [done|]. split; [done|].
  split; [rewrite length_app; lia|]. cbn [chunks_le].
  by rewrite take_app_length', drop_app_length', Heq by done.
Qed.
