(* ===== verification/WireEndpoints.v ===== *)
(** * Endpoint encodings of a frame (src/src/wire_format.rs)

    A frame names its endpoints in one of three ways: not at all (the schema of
    the type decides), as an explicit list of ascending ULEB128 identifiers, or
    as a 256-bit bitmap.  This file models the three encodings and relates each
    decoder to one list, the ascending endpoint set. *)

From S2P Require Import Prelude Varint Schema Packet WireReader.

Open Scope Z_scope.

Definition EP_BITMAP_BITS : Z := 256.
Definition EP_BITMAP_BYTES : Z := 32.

(** ** Bitmaps *)

Definition set_bit (bm : bytes) (idx : Z) : bytes :=
  alter (fun b => Z.lor b (wrap8 (Z.shiftl 1 (idx mod 8)))) (Z.to_nat (idx / 8)) bm.

(** Endpoints outside the bitmap are skipped (their [debug_assert] apart). *)
Definition build_endpoint_bitmap (eps : list DataEndpoint) : bytes :=
  foldl (fun bm ep => if ep <? EP_BITMAP_BITS then set_bit bm ep else bm)
    (replicate 32 0) eps.

(** [trailing_zeros] of a word of [n] bits. *)
Fixpoint trailing_zeros (n : nat) (k b : Z) : Z :=
  match n with
  | O => k
  | S n => if Z.testbit b k then k else trailing_zeros n (k + 1) b
  end.

(** [while bits != 0 { .. trailing_zeros ..; bits &= bits - 1 }]: one round per
    set bit, so [width] rounds empty a word of [width] bits. *)
Fixpoint bits_loop (fuel width : nat) (bits : Z) : list Z :=
  match fuel with
  | O => []
  | S fuel =>
      if bits =? 0 then []
      else trailing_zeros width 0 bits :: bits_loop fuel width (Z.land bits (bits - 1))
  end.

(** The indices of all set bits, byte by byte (or word by word). *)
Fixpoint bit_indices (width : nat) (i : Z) (l : list Z) : list Z :=
  match l with
  | [] => []
  | b :: l => map (fun t => i * Z.of_nat width + t) (bits_loop width width b)
              ++ bit_indices width (i + 1) l
  end.

Fixpoint resolve_endpoints (reg : Registry) (ids : list Z) : result (list DataEndpoint) :=
  match ids with
  | [] => Ok []
  | i :: ids =>
      ep ← ok_or (endpoint_try_from_u32 reg i) (Unpack "bad endpoint bit set");
      rest ← resolve_endpoints reg ids;
      Ok (ep :: rest)
  end.

Definition expand_endpoint_bitmap (reg : Registry) (bm : bytes)
    : result (list DataEndpoint) :=
  if negb (zlen bm =? EP_BITMAP_BYTES) then Err (Unpack "bad endpoint bitmap size")
  else resolve_endpoints reg (bit_indices 8 0 bm).

(** ** Lists *)

Definition endpoint_arc_from_iter (count : Z) (eps : list DataEndpoint)
    : result (list DataEndpoint) :=
  if zlen eps =? count then Ok eps else Err (Unpack "endpoint count mismatch").

Definition endpoint_list_size (eps : list DataEndpoint) : Z :=
  foldr Z.add 0 (map uleb128_size (unique_sorted_endpoints eps)).

Definition explicit_endpoint_list (eps : list DataEndpoint) : bool :=
  existsb (fun ep => EP_BITMAP_BITS <=? ep) eps
  || (endpoint_list_size eps <? EP_BITMAP_BYTES).

Definition endpoints_match_schema (reg : Registry) (ty : DataType)
    (eps : list DataEndpoint) : bool :=
  bool_decide (unique_sorted_endpoints eps
               = unique_sorted_endpoints (mm_endpoints (message_meta reg ty))).

Fixpoint read_endpoint_loop (count : nat) (previous : option Z) : reader unit :=
  match count with
  | O => mret tt
  | S count =>
      id ← read_uleb_u32 "endpoint too large";
      if match previous with Some p => id <=? p | None => false end
      then fail_with (Unpack "endpoint list is not unique and sorted")
      else read_endpoint_loop count (Some id)
  end.

(** The validated list, as the bytes that encode it. *)
Definition read_endpoint_list (count : Z) : reader bytes := fun r =>
  match read_endpoint_loop (Z.to_nat count) None r with
  | Ok (_, r') => Ok (take (off r' - off r) (drop (off r) (buf r)), r')
  | Err e => Err e
  end.

(** Every round consumes a byte, so the length of the slice bounds the rounds. *)
Fixpoint endpoint_list_loop (fuel : nat) (r : ByteReader) : list DataEndpoint :=
  match fuel with
  | O => []
  | S fuel =>
      if remaining r =? 0 then []
      else match read_uleb128 r with
           | Ok (id, r) => match try_u32 id with
                           | Some id => id :: endpoint_list_loop fuel r
                           | None => []
                           end
           | Err _ => []
           end
  end.

Definition endpoint_list_iter (l : bytes) : list DataEndpoint :=
  endpoint_list_loop (length l) (new_reader l).

(** ** Schema defaults and the choice between the three *)

Definition schema_endpoints_from_type (reg : Registry) (ty : DataType) (nep : Z)
    : result (list DataEndpoint) :=
  let schema := mm_endpoints (message_meta reg ty) in
  if (zlen schema =? nep) && strictly_ascending schema
     && forallb (fun ep => is_some (endpoint_try_from_u32 reg ep)) schema
  then Ok schema
  else endpoint_arc_from_iter nep (unique_sorted_endpoints schema).

Definition endpoints_from_wire_or_schema (reg : Registry)
    (bitmap_present list_present : bool) (ty : option DataType) (nep : Z)
    : reader (list DataEndpoint) :=
  if list_present then
    if bitmap_present then fail_with (Unpack "ambiguous endpoint encoding")
    else
      l ← read_endpoint_list nep;
      let eps := endpoint_list_iter l in
      match ty ≫= try_get_message_meta reg with
      | Some meta =>
          if bool_decide (eps = mm_endpoints meta) then mret (mm_endpoints meta)
          else lift (endpoint_arc_from_iter nep eps)
      | None => lift (endpoint_arc_from_iter nep eps)
      end
  else if bitmap_present then
    bm ← read_bytes EP_BITMAP_BYTES;
    eps ← lift (expand_endpoint_bitmap reg bm);
    if negb (zlen eps =? nep) then fail_with (Unpack "endpoint count mismatch")
    else mret eps
  else
    ty ← lift (ok_or ty InvalidType);
    lift (schema_endpoints_from_type reg ty nep).

(** ** Bit loops list the set bits *)

(** The set bits among the [n] bits from [k] on. *)
Fixpoint set_bits (n : nat) (k b : Z) : list Z :=
  match n with
  | O => []
  | S n => if Z.testbit b k then k :: set_bits n (k + 1) b else set_bits n (k + 1) b
  end.

Lemma trailing_zeros_first n j k b :
  0 <= j <= k -> k < j + Z.of_nat n -> Z.testbit b k = true ->
  (forall i, j <= i < k -> Z.testbit b i = false) -> trailing_zeros n j b = k.
Proof.
  revert j. induction n as [|n IH]; intros j Hj Hk Hb Hlow; [lia|]. cbn [trailing_zeros].
  destruct (decide (j = k)) as [->|]; [by rewrite Hb|].
  rewrite Hlow by lia. apply IH; [lia..|done|]. intros. apply Hlow. lia.
Qed.

(** Clearing the lowest set bit. *)
Lemma clear_lowest b k i :
  0 <= k -> Z.testbit b k = true -> (forall j, 0 <= j < k -> Z.testbit b j = false) ->
  0 <= i -> Z.testbit (Z.land b (b - 1)) i = Z.testbit b i && negb (i =? k).
Proof.
  intros Hk Hb Hlow Hi. rewrite Z.land_spec.
  destruct (Z.lt_ge_cases i k); [by rewrite Hlow by lia|].
  assert (b mod 2 ^ k = 0) as Hmod.
  { apply Z.bits_inj'. intros j Hj. rewrite Z.bits_0.
    destruct (Z.lt_ge_cases j k).
    - rewrite Z.mod_pow2_bits_low by lia. by apply Hlow.
    - by rewrite Z.mod_pow2_bits_high by lia. }
  assert (0 < 2 ^ k) as Hp by (apply Z.pow_pos_nonneg; lia).
  pose proof (Z.div_mod b (2 ^ k) ltac:(lia)) as Hb'. rewrite Hmod, Z.add_0_r in Hb'.
  set (q := b / 2 ^ k) in *.
  assert (Z.odd q = true) as Hq.
  { rewrite <- Z.bit0_odd. unfold q. by rewrite Z.div_pow2_bits, Z.add_0_l by lia. }
  assert (Hrec : forall x, Z.testbit x i = Z.testbit (x / 2 ^ k) (i - k)).
  { intros x. rewrite Z.div_pow2_bits by lia. f_equal. lia. }
  assert ((b - 1) / 2 ^ k = q - 1) as Hd.
  { symmetry. apply Z.div_unique with (2 ^ k - 1); lia. }
  rewrite !Hrec, Hd. fold q.
  destruct (Z.eqb_spec i k) as [->|]; cbn [negb].
  - rewrite Z.sub_diag, !Z.bit0_odd, Z.odd_sub, Hq. done.
  - replace (i - k) with (Z.succ (i - k - 1)) by lia.
    assert (q = 2 * (q / 2) + 1) as Hq2.
    { pose proof (Z.div_mod q 2 ltac:(lia)) as Hqd. by rewrite Zmod_odd, Hq in Hqd. }
    rewrite <- !Z.div2_bits by lia.
    replace ((q - 1) / 2) with (q / 2).
    + rewrite andb_true_r. apply andb_diag.
    + apply Z.div_unique with 0; lia.
Qed.

Lemma land_bound a b n : 0 <= n -> 0 <= a < 2 ^ n -> 0 <= b -> 0 <= Z.land a b < 2 ^ n.
Proof.
  intros Hn Ha Hb. assert (0 <= Z.land a b) by (apply Z.land_nonneg; lia). split; [done|].
  destruct (decide (Z.land a b = 0)) as [->|]; [lia|].
  destruct (decide (a = 0)) as [->|]; [by rewrite Z.land_0_l in *|].
  apply Z.log2_lt_pow2; [lia|]. pose proof (Z.log2_land a b ltac:(lia) ltac:(lia)).
  assert (Z.log2 a < n) by (apply Z.log2_lt_pow2; lia). lia.
Qed.

Lemma set_bits_clear n k b b' :
  0 <= k -> (forall i, k <= i < k + Z.of_nat n -> Z.testbit b i = Z.testbit b' i) ->
  set_bits n k b = set_bits n k b'.
Proof.
  revert k. induction n as [|n IH]; intros k Hk Heq; cbn [set_bits]; [done|].
  rewrite Heq by lia. rewrite (IH (k + 1)); [done|lia|]. intros; apply Heq; lia.
Qed.

Lemma bits_loop_set_bits fuel n k width b :
  (n <= fuel)%nat -> 0 <= k -> k + Z.of_nat n = Z.of_nat width ->
  (forall i, 0 <= i < k -> Z.testbit b i = false) -> 0 <= b < 2 ^ Z.of_nat width ->
  bits_loop fuel width b = set_bits n k b.
Proof.
  revert fuel k b. induction n as [|n IH]; intros fuel k b Hf Hk Hw Hlow Hb.
  - assert (b = 0) as ->.
    { apply Z.bits_inj'. intros i Hi. rewrite Z.bits_0.
      destruct (Z.lt_ge_cases i k); [by apply Hlow|].
      destruct (decide (b = 0)) as [->|]; [by rewrite Z.bits_0|].
      apply Z.bits_above_log2; [lia|]. apply Z.log2_lt_pow2; [lia|].
      apply Z.lt_le_trans with (2 ^ Z.of_nat width); [lia|]. apply Z.pow_le_mono_r; lia. }
    by destruct fuel.
  - cbn [set_bits]. destruct (Z.testbit b k) eqn:Ek.
    + destruct fuel as [|fuel]; [lia|]. cbn [bits_loop].
      destruct (Z.eqb_spec b 0) as [->|]; [by rewrite Z.bits_0 in Ek|].
      rewrite (trailing_zeros_first width 0 k b); [|lia..|done|done]. f_equal.
      assert (Hland : forall i, 0 <= i -> Z.testbit (Z.land b (b - 1)) i
                        = Z.testbit b i && negb (i =? k)) by (intros; by apply clear_lowest).
      rewrite (IH fuel (k + 1)); [|lia..| |apply land_bound; lia].
      * apply set_bits_clear; [lia|]. intros i Hi. rewrite Hland by lia.
        rewrite (proj2 (Z.eqb_neq i k)) by lia. apply andb_true_r.
      * intros i Hi. rewrite Hland by lia. destruct (Z.eqb_spec i k); [apply andb_false_r|].
        rewrite Hlow by lia. done.
    + apply IH; [lia..| |done]. intros i Hi.
      destruct (decide (i = k)) as [->|]; [done|]. apply Hlow. lia.
Qed.

Lemma set_bits_app n m k b :
  set_bits (n + m) k b = set_bits n k b ++ set_bits m (k + Z.of_nat n) b.
Proof.
  revert k. induction n as [|n IH]; intros k; cbn [set_bits Nat.add app].
  - f_equal. lia.
  - rewrite IH. replace (k + 1 + Z.of_nat n) with (k + Z.of_nat (S n)) by lia.
    by destruct (Z.testbit b k).
Qed.

Lemma set_bits_shift n k j b :
  0 <= k -> 0 <= j ->
  set_bits n (j + k) b = map (fun t => j + t) (set_bits n k (b / 2 ^ j)).
Proof.
  revert k. induction n as [|n IH]; intros k Hk Hj; cbn [set_bits]; [done|].
  rewrite Z.div_pow2_bits by lia. replace (k + j) with (j + k) by lia.
  replace (j + k + 1) with (j + (k + 1)) by lia. rewrite IH by lia.
  by destruct (Z.testbit b (j + k)).
Qed.

Lemma elem_of_set_bits n k b i :
  i ∈ set_bits n k b <-> k <= i < k + Z.of_nat n /\ Z.testbit b i = true.
Proof.
  revert k. induction n as [|n IH]; intros k; cbn [set_bits].
  - rewrite elem_of_nil. lia.
  - destruct (Z.testbit b k) eqn:E; rewrite ?elem_of_cons, IH.
    + split; [intros [->|]; [split; [lia|done]|split; [lia|tauto]]|].
      intros [? ?]. destruct (decide (i = k)) as [->|]; [by left|right]. split; [lia|done].
    + split; [intros []; split; [lia|done]|]. intros [? ?].
      destruct (decide (i = k)) as [->|]; [congruence|]. split; [lia|done].
Qed.

Lemma set_bits_ascending n k b : ascending (set_bits n k b).
Proof.
  revert k. induction n as [|n IH]; intros k; cbn [set_bits]; [constructor|].
  destruct (Z.testbit b k); [|done]. constructor; [done|].
  apply Forall_forall. intros i Hi. apply elem_of_set_bits in Hi. lia.
Qed.

(** A list of [w]-bit words as one integer. *)
Fixpoint join_words (w : nat) (l : list Z) : Z :=
  match l with [] => 0 | b :: l => b + 2 ^ Z.of_nat w * join_words w l end.

Lemma bit_indices_set_bits w i l :
  Forall (fun b => 0 <= b < 2 ^ Z.of_nat w) l ->
  bit_indices w i l
  = map (fun t => i * Z.of_nat w + t) (set_bits (w * length l) 0 (join_words w l)).
Proof.
  intros Hl. revert i. induction Hl as [|b l Hb Hl IH]; intros i.
  { by rewrite Nat.mul_0_r. }
  cbn [bit_indices length join_words]. rewrite IH, Nat.mul_succ_r, Nat.add_comm.
  rewrite set_bits_app, map_app. f_equal.
  - f_equal. rewrite (bits_loop_set_bits w w 0 w b) by (lia || done).
    apply set_bits_clear; [lia|]. intros j Hj.
    rewrite <- (Z.mod_pow2_bits_low b (Z.of_nat w)), <- (Z.mod_pow2_bits_low (b + _) (Z.of_nat w))
      by lia. f_equal. by rewrite Z.mul_comm, Z.mod_add by lia.
  - pose proof (set_bits_shift (w * length l) 0 (Z.of_nat w)
      (b + 2 ^ Z.of_nat w * join_words w l)) as Hs.
    rewrite Z.add_0_r in Hs. rewrite Z.add_0_l, Hs, map_map by lia.
    replace ((b + 2 ^ Z.of_nat w * join_words w l) / 2 ^ Z.of_nat w) with (join_words w l).
    + apply map_ext. intros t. lia.
    + rewrite Z.mul_comm, Z.div_add, Z.div_small by lia. done.
Qed.

Lemma join_words_from_le l : join_words 8 l = from_le l.
Proof. induction l as [|b l IH]; simpl; [done|]. by rewrite IH. Qed.

Lemma from_le_app a b : from_le (a ++ b) = from_le a + 256 ^ zlen a * from_le b.
Proof.
  unfold zlen. induction a as [|x a IH]; cbn [app from_le length].
  - change (Z.of_nat 0) with 0. rewrite Z.pow_0_r. lia.
  - rewrite IH, Nat2Z.inj_succ, Z.pow_succ_r by lia. lia.
Qed.

(** The endpoint set a bitmap denotes. *)
Definition bitmap_endpoints (bm : bytes) : list DataEndpoint := set_bits 256 0 (from_le bm).

Lemma map_plus_0 l : map (fun t => 0 + t) l = l.
Proof. induction l as [|x l IH]; cbn [map]; [done|]. by rewrite IH. Qed.

(** Scanning the bytes. *)
Lemma bit_indices_bytes bm :
  bytes_ok bm -> zlen bm = EP_BITMAP_BYTES -> bit_indices 8 0 bm = bitmap_endpoints bm.
Proof.
  intros Hok Hlen. rewrite bit_indices_set_bits.
  - rewrite join_words_from_le. unfold bitmap_endpoints.
    replace (8 * length bm)%nat with 256%nat by (unfold zlen, EP_BITMAP_BYTES in Hlen; lia).
    apply map_plus_0.
  - eapply Forall_impl; [done|]. intros b. change (2 ^ Z.of_nat 8) with 256. solve_u.
Qed.

(** Scanning the bitmap as four little-endian 64-bit words. *)
Lemma bit_indices_words bm :
  bytes_ok bm -> zlen bm = EP_BITMAP_BYTES ->
  bit_indices 64 0 (chunks_le 4 8 bm) = bitmap_endpoints bm.
Proof.
  intros Hok Hlen. unfold zlen, EP_BITMAP_BYTES in Hlen.
  assert (exists a b c d, bm = a ++ b ++ c ++ d /\ length a = 8%nat /\ length b = 8%nat /\
            length c = 8%nat /\ length d = 8%nat) as (a & b & c & d & -> & Ha & Hb & Hc & Hd).
  { exists (take 8 bm), (take 8 (drop 8 bm)), (take 8 (drop 16 bm)), (drop 24 bm).
    rewrite !length_take, !length_drop. split; [|lia].
    rewrite <- (take_drop 8 bm) at 1. f_equal.
    rewrite <- (take_drop 8 (drop 8 bm)) at 1. f_equal. rewrite drop_drop.
    rewrite <- (take_drop 8 (drop (8 + 8) bm)) at 1. f_equal. by rewrite drop_drop. }
  assert (chunks_le 4 8 (a ++ b ++ c ++ d) = [from_le a; from_le b; from_le c; from_le d]) as ->.
  { cbn [chunks_le].
    rewrite (take_app_length' a), (drop_app_length' a), (take_app_length' b),
      (drop_app_length' b), (take_app_length' c), (drop_app_length' c) by done.
    by rewrite firstn_all2 by lia. }
  rewrite !Forall_app in Hok. destruct Hok as (Oa & Ob & Oc & Od).
  assert (forall l, bytes_ok l -> length l = 8%nat -> 0 <= from_le l < 2 ^ Z.of_nat 64).
  { intros l Hl Hn. pose proof (from_le_range l Hl) as Hr. unfold zlen in Hr.
    rewrite Hn in Hr. exact Hr. }
  rewrite bit_indices_set_bits by (rewrite !Forall_cons, Forall_nil; auto 10).
  unfold bitmap_endpoints. rewrite !from_le_app. unfold zlen. rewrite Ha, Hb, Hc.
  cbn [join_words length]. rewrite Z.mul_0_r, Z.add_0_r. apply map_plus_0.
Qed.

(** ** Building a bitmap *)

Lemma from_le_testbit l i :
  bytes_ok l -> 0 <= i ->
  Z.testbit (from_le l) i = Z.testbit (default 0 (l !! Z.to_nat (i / 8))) (i mod 8).
Proof.
  intros Hl. revert i. induction Hl as [|b l Hb Hl IH]; intros i Hi.
  { cbn [from_le]. by rewrite lookup_nil, Z.bits_0, Z.bits_0. }
  cbn [from_le]. change 256 with (2 ^ 8). destruct (Z.lt_ge_cases i 8).
  - rewrite Z.div_small, (Z.mod_small i) by lia. cbn.
    rewrite <- (Z.mod_pow2_bits_low (b + _) 8), Z.mul_comm, Z.mod_add by lia.
    rewrite Z.mod_small by (change (2 ^ 8) with 256; solve_u). done.
  - replace i with (i - 8 + 8) at 1 by lia. rewrite <- Z.div_pow2_bits by lia.
    rewrite Z.mul_comm, Z.div_add, Z.div_small, Z.add_0_l by (lia || (change (2 ^ 8) with 256; solve_u)).
    rewrite IH by lia. pose proof (Z.div_pos (i - 8) 8 ltac:(lia) ltac:(lia)).
    replace i with (i - 8 + 1 * 8) at 3 4 by lia. rewrite Z.div_add, Z.mod_add by lia.
    replace (Z.to_nat ((i - 8) / 8 + 1)) with (S (Z.to_nat ((i - 8) / 8))) by lia. done.
Qed.

Lemma bit_mask_u8 k : 0 <= k < 8 -> wrap8 (Z.shiftl 1 k) = 2 ^ k /\ 0 < 2 ^ k < 256.
Proof.
  intros Hk. rewrite Z.shiftl_1_l.
  assert (0 < 2 ^ k < 256); [|split; [apply Z.mod_small; lia|done]].
  split; [apply Z.pow_pos_nonneg; lia|]. change 256 with (2 ^ 8). apply Z.pow_lt_mono_r; lia.
Qed.

Lemma lor_u8 a b : is_u8 a -> 0 < b < 256 -> is_u8 (Z.lor a b).
Proof.
  intros Ha Hb. assert (0 <= Z.lor a b) by (apply Z.lor_nonneg; solve_u).
  assert (Z.lor a b < 2 ^ 8); [|solve_u].
  destruct (decide (Z.lor a b = 0)) as [->|]; [done|].
  apply Z.log2_lt_pow2; [lia|]. rewrite Z.log2_lor by solve_u.
  apply Z.max_lub_lt.
  - destruct (decide (a = 0)) as [->|]; [done|]. apply Z.log2_lt_pow2; solve_u.
  - apply Z.log2_lt_pow2; solve_u.
Qed.

Lemma set_bit_ok bm idx : bytes_ok bm -> 0 <= idx -> bytes_ok (set_bit bm idx).
Proof.
  intros Hbm Hi. unfold set_bit. apply Forall_alter; [done|].
  intros b Hb Hu. pose proof (Z.mod_pos_bound idx 8 ltac:(lia)).
  destruct (bit_mask_u8 (idx mod 8)) as [-> Hm]; [done|]. by apply lor_u8.
Qed.

Lemma set_bit_testbit bm idx i :
  bytes_ok bm -> 0 <= idx < 8 * zlen bm -> 0 <= i ->
  Z.testbit (from_le (set_bit bm idx)) i = Z.testbit (from_le bm) i || (i =? idx).
Proof.
  intros Hbm Hidx Hi. rewrite !from_le_testbit by (auto; apply set_bit_ok; lia || done).
  unfold set_bit. pose proof (Z.mod_pos_bound idx 8 ltac:(lia)).
  pose proof (Z.mod_pos_bound i 8 ltac:(lia)).
  pose proof (Z.div_mod i 8 ltac:(lia)). pose proof (Z.div_mod idx 8 ltac:(lia)).
  destruct (decide (i / 8 = idx / 8)) as [E|E].
  - rewrite E, list_lookup_alter_eq.
    assert (is_Some (bm !! Z.to_nat (idx / 8))) as [b Hb].
    { apply lookup_lt_is_Some. unfold zlen in Hidx. lia. }
    rewrite Hb. simpl.
    destruct (bit_mask_u8 (idx mod 8)) as [-> _]; [done|].
    rewrite Z.lor_spec, Z.pow2_bits_eqb by lia. f_equal.
    destruct (Z.eqb_spec (idx mod 8) (i mod 8)), (Z.eqb_spec i idx); lia || done.
  - rewrite list_lookup_alter_ne by lia. destruct (Z.eqb_spec i idx); [congruence|].
    by rewrite orb_false_r.
Qed.

Definition bitmap_ids (eps : list DataEndpoint) : Prop :=
  Forall (fun ep => 0 <= ep < EP_BITMAP_BITS) eps.

Lemma build_bitmap_loop eps bm :
  bitmap_ids eps -> bytes_ok bm -> zlen bm = 32 ->
  let bm' := foldl (fun bm ep => if ep <? EP_BITMAP_BITS then set_bit bm ep else bm) bm eps in
  bytes_ok bm' /\ zlen bm' = 32 /\
  forall i, 0 <= i -> Z.testbit (from_le bm') i = Z.testbit (from_le bm) i || bool_decide (i ∈ eps).
Proof.
  intros Heps. revert bm. induction Heps as [|ep eps Hep Heps IH]; intros bm Hok Hlen.
  - cbn. split; [done|]. split; [done|]. intros i Hi.
    rewrite bool_decide_eq_false_2 by apply not_elem_of_nil. by rewrite orb_false_r.
  - cbn [foldl]. rewrite (proj2 (Z.ltb_lt ep EP_BITMAP_BITS)) by lia.
    assert (zlen (set_bit bm ep) = 32).
    { unfold zlen, set_bit in *. by rewrite length_alter. }
    destruct (IH (set_bit bm ep)) as (H1 & H2 & H3); [apply set_bit_ok; lia || done|done|].
    split; [done|]. split; [done|]. intros i Hi. rewrite H3 by done.
    rewrite set_bit_testbit by (done || (unfold EP_BITMAP_BITS in Hep; lia)).
    rewrite <- orb_assoc. f_equal.
    destruct (Z.eqb_spec i ep) as [->|].
    + symmetry. apply bool_decide_eq_true_2, elem_of_cons. by left.
    + apply bool_decide_ext. rewrite elem_of_cons. naive_solver.
Qed.

Lemma build_bitmap_ok eps :
  bitmap_ids eps ->
  bytes_ok (build_endpoint_bitmap eps) /\ zlen (build_endpoint_bitmap eps) = EP_BITMAP_BYTES.
Proof.
  intros Heps. destruct (build_bitmap_loop eps (replicate 32 0) Heps) as (H & H' & _); auto.
  repeat constructor; solve_u.
Qed.

(** The bitmap of a list denotes its ascending endpoint set. *)
Lemma bitmap_endpoints_build eps :
  bitmap_ids eps ->
  bitmap_endpoints (build_endpoint_bitmap eps) = unique_sorted_endpoints eps.
Proof.
  intros Heps. destruct (unique_sorted_spec eps) as [Hasc Hel].
  apply ascending_unique; [apply set_bits_ascending|done|].
  intros i. rewrite Hel. unfold bitmap_endpoints. rewrite elem_of_set_bits.
  destruct (build_bitmap_loop eps (replicate 32 0) Heps) as (_ & _ & Hb); [|done|].
  { repeat constructor; solve_u. }
  unfold build_endpoint_bitmap. split.
  - intros [Hi Ht]. rewrite Hb in Ht by lia.
    replace (from_le (replicate 32 0)) with 0 in Ht by done.
    rewrite Z.bits_0 in Ht. by apply bool_decide_eq_true in Ht.
  - intros Hi. unfold bitmap_ids in Heps. rewrite Forall_forall in Heps.
    specialize (Heps i Hi). unfold EP_BITMAP_BITS in Heps. split; [lia|].
    rewrite Hb by lia. by rewrite (bool_decide_eq_true_2 _ Hi), orb_true_r.
Qed.

Lemma resolve_endpoints_spec reg ids :
  resolve_endpoints reg ids
  = if forallb (endpoint_exists reg) ids then Ok ids else Err (Unpack "bad endpoint bit set").
Proof.
  induction ids as [|i ids IH]; cbn [resolve_endpoints forallb]; [done|].
  unfold endpoint_try_from_u32. destruct (endpoint_exists reg i); [|done].
  cbn. rewrite IH. by destruct (forallb _ ids).
Qed.

(** The whole decoder of a bitmap. *)
Lemma expand_endpoint_bitmap_spec reg bm :
  bytes_ok bm -> zlen bm = EP_BITMAP_BYTES ->
  expand_endpoint_bitmap reg bm
  = if forallb (endpoint_exists reg) (bitmap_endpoints bm)
    then Ok (bitmap_endpoints bm) else Err (Unpack "bad endpoint bit set").
Proof.
  intros Hok Hlen. unfold expand_endpoint_bitmap. rewrite Hlen, Z.eqb_refl. cbn [negb].
  by rewrite bit_indices_bytes, resolve_endpoints_spec.
Qed.

(** ** Endpoint lists *)

(** Encoded identifiers, one varint each. *)
Definition encodes_ids (encs : list bytes) (ids : list Z) : Prop :=
  Forall2 (fun enc id => reads read_uleb128 enc id /\ enc <> [] /\ try_u32 id = Some id)
    encs ids.

Lemma endpoint_list_loop_spec fuel encs ids pre :
  encodes_ids encs ids -> (length (concat encs) <= fuel)%nat ->
  endpoint_list_loop fuel (at_ pre (concat encs)) = ids.
Proof.
  intros H. revert fuel pre.
  induction H as [|enc id encs ids (Hr & Hne & Hu) H IH]; intros fuel pre Hf;
    cbn [concat] in *.
  { destruct fuel; cbn [endpoint_list_loop]; [done|]. by rewrite remaining_at. }
  rewrite length_app in Hf. destruct enc as [|b enc]; [done|]. cbn [length] in Hf.
  destruct fuel as [|fuel]; [lia|]. cbn [endpoint_list_loop].
  rewrite remaining_at, zlen_app.
  destruct (Z.eqb_spec (zlen (b :: enc) + zlen (concat encs)) 0) as [E|_].
  { unfold zlen in E. cbn [length] in E. lia. }
  rewrite Hr, Hu. f_equal. apply IH. lia.
Qed.

Lemma endpoint_list_iter_spec encs ids :
  encodes_ids encs ids -> endpoint_list_iter (concat encs) = ids.
Proof. intros H. unfold endpoint_list_iter. rewrite new_reader_at. by apply endpoint_list_loop_spec. Qed.

Lemma read_endpoint_loop_reads encs ids previous :
  encodes_ids encs ids -> ascending ids -> Forall (above previous) ids ->
  reads (read_endpoint_loop (length ids) previous) (concat encs) tt.
Proof.
  intros H. revert previous.
  induction H as [|enc id encs ids (Hr & Hne & Hu) H IH]; intros previous Hasc Hab;
    cbn [length read_endpoint_loop concat]; [apply reads_ret|].
  inversion Hasc as [|? ? Hasc' Hlt]; subst. inversion Hab as [|? ? Hid Hab']; subst.
  eapply reads_bind.
  { eapply reads_map; [done|]. apply reads_lift. by rewrite Hu. }
  assert (match previous with Some p => id <=? p | None => false end = false) as ->.
  { destruct previous; [|done]. cbn in Hid. apply Z.leb_gt. lia. }
  by apply IH.
Qed.

Lemma reads_endpoint_list encs ids :
  encodes_ids encs ids -> ascending ids ->
  reads (read_endpoint_list (zlen ids)) (concat encs) (concat encs).
Proof.
  intros H Hasc pre rest. unfold read_endpoint_list, zlen. rewrite Nat2Z.id.
  rewrite (read_endpoint_loop_reads encs ids None H Hasc) by (by apply Forall_true).
  unfold at_ at 1 2 3 4. cbn [buf off]. rewrite length_app, drop_app_length.
  replace (length pre + length (concat encs) - length pre)%nat with (length (concat encs)) by lia.
  by rewrite take_app_length.
Qed.

Lemma read_endpoint_loop_inv count previous pre l u r :
  read_endpoint_loop count previous (at_ pre l) = Ok (u, r) ->
  exists encs ids rest, l = concat encs ++ rest /\ r = at_ (pre ++ concat encs) rest /\
    encodes_ids encs ids /\ length ids = count /\ ascending ids /\
    Forall (above previous) ids.
Proof.
  revert previous pre l. induction count as [|count IH]; intros previous pre l;
    cbn [read_endpoint_loop].
  { intros [= <- <-]. exists [], [], l. rewrite app_nil_r.
    repeat split; try done; constructor. }
  unfold read_uleb_u32. rewrite bind_assoc_reader. unfold mbind at 1, reader_bind at 1.
  destruct (read_uleb128 (at_ pre l)) as [[v r1]|] eqn:E; [|done].
  apply read_uleb128_inv in E as (enc & rest & -> & -> & Hne & Hr).
  destruct (try_u32 v) as [id|] eqn:Eu; cbn [ok_or]; [|done].
  rewrite (bind_lift _ _ _ id) by done.
  pose proof (try_u32_some _ _ Eu) as [-> _].
  destruct (match previous with Some p => v <=? p | None => false end) eqn:Ep; [done|].
  intros H. apply IH in H as (encs & ids & rest' & -> & -> & Henc & Hlen & Hasc & Hab).
  exists (enc :: encs), (v :: ids), rest'. cbn [concat length]. rewrite !app_assoc.
  split; [done|]. split; [done|]. split; [by constructor|]. split; [by rewrite Hlen|].
  split; [by constructor|]. constructor.
  - destruct previous; [|done]. bool_to_prop. done.
  - eapply Forall_impl; [done|]. intros x Hx. destruct previous; [|done].
    cbn in *. bool_to_prop. lia.
Qed.

(** Any endpoint list the decoder accepts: its bytes list exactly [count]
    strictly ascending identifiers. *)
Lemma read_endpoint_list_inv count pre l bytes r :
  0 <= count -> read_endpoint_list count (at_ pre l) = Ok (bytes, r) ->
  ascending (endpoint_list_iter bytes) /\ zlen (endpoint_list_iter bytes) = count.
Proof.
  intros Hc. unfold read_endpoint_list.
  destruct (read_endpoint_loop _ None (at_ pre l)) as [[u r']|] eqn:E; [|done].
  apply read_endpoint_loop_inv in E as (encs & ids & rest & -> & -> & Henc & Hlen & Hasc & _).
  intros [= <- <-]. unfold at_. cbn [buf off]. rewrite length_app, drop_app_length.
  replace (length pre + length (concat encs) - length pre)%nat with (length (concat encs)) by lia.
  rewrite take_app_length, (endpoint_list_iter_spec _ ids) by done.
  split; [done|]. unfold zlen. lia.
Qed.

Lemma read_endpoint_list_split count pre l b r :
  read_endpoint_list count (at_ pre l) = Ok (b, r) ->
  exists encs ids rest, b = concat encs /\ l = b ++ rest /\ r = at_ (pre ++ b) rest /\
    encodes_ids encs ids /\ length ids = Z.to_nat count /\ ascending ids.
Proof.
  unfold read_endpoint_list.
  destruct (read_endpoint_loop _ None (at_ pre l)) as [[u r']|] eqn:E; [|done].
  apply read_endpoint_loop_inv in E as (encs & ids & rest & -> & -> & Henc & Hlen & Hasc & _).
  intros [= <- <-]. exists encs, ids, rest. unfold at_. cbn [buf off].
  rewrite length_app, drop_app_length.
  replace (length pre + length (concat encs) - length pre)%nat with (length (concat encs)) by lia.
  rewrite take_app_length. unfold at_ in *. split_and!; try done. by rewrite length_app.
Qed.

Lemma local_endpoint_list count : local (read_endpoint_list count).
Proof.
  intros pre l b r H.
  apply read_endpoint_list_split in H as (encs & ids & rest & -> & -> & -> & Henc & Hlen & Hasc).
  exists (concat encs), rest. split; [done|]. split; [done|].
  pose proof (reads_endpoint_list encs ids Henc Hasc) as R.
  unfold read_endpoint_list, zlen in *. by rewrite Nat2Z.id, Hlen in R.
Qed.

Lemma encodes_ids_write ids :
  Forall is_u32 ids -> encodes_ids (map write_uleb128 ids) ids.
Proof.
  induction 1 as [|id ids Hid Hids IH]; cbn [map]; constructor; [|done].
  split; [by apply reads_uleb128; eauto with sed_arith|]. split; [|by apply try_u32_fits].
  pose proof (uleb128_size_pos id) as Hp.
  rewrite <- uleb128_size_length in Hp by eauto with sed_arith. by intros E; rewrite E in Hp.
Qed.

Lemma endpoint_list_size_length eps :
  Forall is_u32 eps ->
  zlen (concat (map write_uleb128 (unique_sorted_endpoints eps))) = endpoint_list_size eps.
Proof.
  intros Heps. unfold endpoint_list_size.
  assert (Forall is_u32 (unique_sorted_endpoints eps)) as Hu.
  { rewrite Forall_forall in *. intros x Hx. apply Heps. by apply unique_sorted_spec. }
  induction Hu as [|x l Hx Hl IH]; cbn [map concat foldr]; [done|].
  rewrite zlen_app, IH, uleb128_size_length by eauto with sed_arith. done.
Qed.

(** ** The schema default *)

Lemma schema_endpoints_spec reg ty nep :
  let eps := unique_sorted_endpoints (mm_endpoints (message_meta reg ty)) in
  schema_endpoints_from_type reg ty nep = endpoint_arc_from_iter nep eps.
Proof.
  cbv zeta. unfold schema_endpoints_from_type. case_match eqn:E; [|done].
  bool_to_prop. rewrite unique_sorted_ascending by by apply strictly_ascending_spec.
  unfold endpoint_arc_from_iter. by rewrite (proj2 (Z.eqb_eq _ _)).
Qed.

Lemma local_endpoints reg bitmap_present list_present ty nep :
  local (endpoints_from_wire_or_schema reg bitmap_present list_present ty nep).
Proof.
  unfold endpoints_from_wire_or_schema.
  destruct list_present, bitmap_present; eauto 8 with wire.
  apply local_bind; [apply local_endpoint_list|]. intros l. cbv zeta.
  destruct (ty ≫= _); eauto with wire.
Qed.
#[export] Hint Resolve local_endpoint_list local_endpoints : wire.
