(* ===== verification/WireFrame.v ===== *)
(** * Frames: packing and unpacking (src/src/wire_format.rs)

    A frame is a header (flags, endpoint count, varints, endpoints, contract,
    reliable header), the payload (raw, compressed, or sealed) and a CRC-32
    trailer.  The packers return [option]: [None] is the panic of the
    [assert!] on the endpoint count (or of the [expect] on a packing error).
    The address book is threaded through the packers, the admission state
    through the unpacker.  Buffer capacities are modelled where the code asserts
    them ([scratch_capacity]). *)

From S2P Require Import Prelude Varint Schema Packet MemoryAdmission WireEnv WireReader WireEndpoints.

Open Scope Z_scope.

(** ** Constants *)

Definition CRC32_BYTES : Z := 4.
Definition FLAG_COMPRESSED_PAYLOAD : Z := 1.
Definition FLAG_RELIABLE_HEADER_PRESENT : Z := 2.
Definition FLAG_WIRE_CONTRACT : Z := 4.
Definition FLAG_PACKET_NONCE : Z := 8.
Definition FLAG_E2E_ENCRYPTED_PAYLOAD : Z := 16.
Definition FLAG_ENDPOINT_BITMAP_PRESENT : Z := 32.
Definition FLAG_COMPACT_RELIABLE_HEADER : Z := 64.
Definition FLAG_ENDPOINT_LIST_PRESENT : Z := 128.

Definition data_type_id_from_wire (ty_v : Z) : result Z :=
  ok_or (try_u32 ty_v) (Unpack "type too large").

Section Frame.
Context {E : WireEnv}.
Abbreviation reg := we_registry.
Abbreviation tun := we_tuning.

(** ** CRC trailer *)

Definition append_crc32 (out : bytes) : bytes := out ++ le_bytes 4 (crc32_bytes out).

(** The hasher is fed the two parts in turn. *)
Definition join_frame_with_crc (header payload : bytes) : bytes :=
  header ++ payload ++ le_bytes 4 (crc32_bytes (header ++ payload)).

Definition split_crc32 (b : bytes) : result (bytes * Z) :=
  if zlen b <? CRC32_BYTES then Err (Unpack "short buffer")
  else
    let data_len := (length b - 4)%nat in
    Ok (take data_len b, from_le (drop data_len b)).

Definition verify_crc32 (b : bytes) : result bytes :=
  '(data, expected) ← split_crc32 b;
  let actual := crc32_bytes data in
  if negb (actual =? expected) then Err (Unpack "crc32 mismatch") else Ok data.

(** ** Compression *)

Definition compress_to_vec_bounded (input : bytes) (max_output : Z) : option bytes :=
  if is_empty input || (max_output =? 0) then None else zstd_compress input max_output.

Definition compress_if_beneficial (payload : bytes) : bool * bytes :=
  if zlen payload <? payload_compress_threshold tun then (false, payload)
  else
    match compress_to_vec_bounded payload (sat_sub (zlen payload) 2) with
    | None => (false, payload)
    | Some compressed =>
        if zlen payload <=? zlen compressed + 1 then (false, payload) else (true, compressed)
    end.

Definition decompress (compressed : bytes) (expected_len : Z) : result bytes :=
  match zstd_decompress compressed expected_len with
  | None => Err (Unpack "decompression failed")
  | Some out =>
      if negb (zlen out =? expected_len) then Err (Unpack "decompressed size mismatch")
      else Ok out
  end.

(** Discovery stays uncompressed: it runs before codec support is known. *)
Definition payload_for_encoding (pkt : Packet) (compression_allowed : bool) : bool * bytes :=
  if negb compression_allowed then (false, payload pkt)
  else if is_discovery_type (ty pkt) then (false, payload pkt)
  else compress_if_beneficial (payload pkt).

Definition payload_for_wire (pkt : Packet) : bool * bytes := payload_for_encoding pkt true.

(** ** Sealed payloads *)

Definition e2e_nonce_for_packet (pkt : Packet) : bytes :=
  le_bytes 4 (ty pkt)
  ++ take 6 (le_bytes 8 (Z.land (timestamp pkt) 281474976710655))
  ++ le_bytes 2 (nonce pkt).

Definition write_encrypted_payload (pkt : Packet) (key_id : Z) (plaintext out : bytes)
    : result bytes :=
  let nonce := e2e_nonce_for_packet pkt in
  '(ciphertext, tag, ciphertext_len, tag_len) ← crypto_seal key_id nonce out plaintext;
  if (zlen ciphertext <? ciphertext_len) || (zlen tag <? tag_len)
  then Err SizeMismatchError
  else Ok (out ++ write_uleb128 key_id ++ write_uleb128 (zlen plaintext)
               ++ write_uleb128 (zlen nonce) ++ nonce
               ++ write_uleb128 tag_len ++ take (Z.to_nat tag_len) tag
               ++ take (Z.to_nat ciphertext_len) ciphertext).

Definition read_encrypted_payload (aad : bytes) (plaintext_len : Z) : reader bytes :=
  key_id ← read_uleb_u32 "e2e key id too large";
  wire_payload_len ← read_uleb128;
  if plaintext_len <? wire_payload_len then fail_with (Unpack "bad e2e payload length")
  else
    nonce_len ← read_uleb128;
    if (nonce_len =? 0) || (64 <? nonce_len) then fail_with (Unpack "bad e2e nonce length")
    else
      nonce ← read_bytes nonce_len;
      tag_len ← read_uleb128;
      if (tag_len =? 0) || (E2E_TAG_CAP <? tag_len) then fail_with (Unpack "bad e2e tag length")
      else
        tag ← read_bytes tag_len;
        ciphertext_len ← get_remaining;
        ciphertext ← read_bytes ciphertext_len;
        '(plaintext, opened_len) ← lift (crypto_open key_id nonce aad ciphertext tag
                                           wire_payload_len);
        if negb (opened_len =? wire_payload_len) then fail_with SizeMismatchError
        else mret plaintext.

(** ** Packing *)

Definition packet_endpoint_bitmap_present (pkt : Packet) (shape : option MessageElement)
    (targets : list Z) : bool :=
  let carries_wire_contract := is_some shape || negb (is_empty targets) in
  let endpoints_are_schema_default := endpoints_match_schema reg (ty pkt) (pkt_endpoints pkt) in
  let fixed_control_endpoints :=
    one_of (ty pkt) [ty_ReliableAck; ty_ReliablePartialAck; ty_ReliablePacketRequest] in
  (ty_P2pMessage <? ty pkt) || negb endpoints_are_schema_default
  || (carries_wire_contract && negb fixed_control_endpoints).

Definition header_size_bytes (pkt : Packet) : Z :=
  2 + uleb128_size (ty pkt) + uleb128_size (data_size pkt) + uleb128_size (timestamp pkt)
    + (if negb (nonce pkt =? 0) then uleb128_size (nonce pkt) else 0)
    + uleb128_size (sender_address_u32 (sender pkt)).

Definition endpoint_bytes_len (pkt : Packet) (list_present bitmap_present : bool) : Z :=
  if list_present then endpoint_list_size (pkt_endpoints pkt)
  else if bitmap_present then EP_BITMAP_BYTES else 0.

Definition reliable_len (reliable : option ReliableHeader) : Z :=
  match reliable with
  | Some h => reliable_wire_size h (should_compact_reliable_header h)
  | None => 0
  end.

Definition contract_len (shape : option MessageElement) (targets : list Z) : Z :=
  if is_some shape || negb (is_empty targets)
  then uleb128_size (wire_contract_size shape targets) + wire_contract_size shape targets
  else 0.

(** The size of the header scratch buffer of a plaintext frame. *)
Definition scratch_capacity (pkt : Packet) (reliable : option ReliableHeader)
    (shape : option MessageElement) (targets : list Z) : Z :=
  let bitmap_present := packet_endpoint_bitmap_present pkt shape targets in
  let list_present := bitmap_present && explicit_endpoint_list (pkt_endpoints pkt) in
  header_size_bytes pkt + endpoint_bytes_len pkt list_present bitmap_present
  + contract_len shape targets + reliable_len reliable.

Definition frame_flags (compressed contract nonce list_present bitmap_present reliable
    compact e2e : bool) : Z :=
  let flags := set_if compressed 0 FLAG_COMPRESSED_PAYLOAD in
  let flags := set_if contract flags FLAG_WIRE_CONTRACT in
  let flags := set_if nonce flags FLAG_PACKET_NONCE in
  let flags := if list_present then Z.lor flags FLAG_ENDPOINT_LIST_PRESENT
               else set_if bitmap_present flags FLAG_ENDPOINT_BITMAP_PRESENT in
  let flags := set_if reliable flags FLAG_RELIABLE_HEADER_PRESENT in
  let flags := set_if compact flags FLAG_COMPACT_RELIABLE_HEADER in
  set_if e2e flags FLAG_E2E_ENCRYPTED_PAYLOAD.

Definition endpoint_part (pkt : Packet) (list_present bitmap_present : bool) : bytes :=
  if list_present
  then concat (map write_uleb128 (unique_sorted_endpoints (pkt_endpoints pkt)))
  else if bitmap_present then build_endpoint_bitmap (pkt_endpoints pkt) else [].

Definition frame_header (pkt : Packet) (reliable : option ReliableHeader)
    (shape : option MessageElement) (targets : list Z) (source_address flags : Z)
    (list_present bitmap_present compact : bool) : bytes :=
  [flags] ++ [wrap8 (zlen (unique_sorted_endpoints (pkt_endpoints pkt)))]
  ++ write_uleb128 (ty pkt) ++ write_uleb128 (data_size pkt)
  ++ write_uleb128 (timestamp pkt)
  ++ (if negb (nonce pkt =? 0) then write_uleb128 (nonce pkt) else [])
  ++ write_uleb128 source_address
  ++ endpoint_part pkt list_present bitmap_present
  ++ (if has_flag flags FLAG_WIRE_CONTRACT
      then write_uleb128 (wire_contract_size shape targets)
           ++ write_wire_contract shape targets (is_some reliable)
      else [])
  ++ (match reliable with
      | Some h => write_reliable_header_encoded h compact
      | None => []
      end).

(** The header and the payload part handed to [consume]; [e2e] is the key
    identifier of a seal configuration. *)
Definition with_packet_frame_parts (book : AddressBook) (pkt : Packet)
    (reliable : option ReliableHeader) (shape : option MessageElement) (targets : list Z)
    (e2e : option Z) (compression_allowed : bool)
    : option (result (bytes * bytes)) * AddressBook :=
  let carries_wire_contract := is_some shape || negb (is_empty targets) in
  let bitmap_present := packet_endpoint_bitmap_present pkt shape targets in
  let list_present := bitmap_present && explicit_endpoint_list (pkt_endpoints pkt) in
  let nep_unique := zlen (unique_sorted_endpoints (pkt_endpoints pkt)) in
  let '(source_address, book) := source_address_for_sender book (sender pkt) in
  let '(payload_compressed, payload_wire) := payload_for_encoding pkt compression_allowed in
  let compact :=
    match reliable with Some h => should_compact_reliable_header h | None => false end in
  let flags := frame_flags payload_compressed carries_wire_contract (negb (nonce pkt =? 0))
                 list_present bitmap_present (is_some reliable) compact (is_some e2e) in
  if u8_max <? nep_unique then (None, book)
  else
    let out := frame_header pkt reliable shape targets source_address flags
                 list_present bitmap_present compact in
    match e2e with
    | Some key_id =>
        (Some (out ← write_encrypted_payload pkt key_id payload_wire out; Ok (out, [])), book)
    | None => (Some (Ok (out, payload_wire)), book)
    end.

(** [|header, payload| Ok(join_frame_with_crc(header, payload))]. *)
Definition joined (parts : option (result (bytes * bytes)) * AddressBook)
    : option (result bytes) * AddressBook :=
  (match fst parts with
   | None => None
   | Some (Err e) => Some (Err e)
   | Some (Ok (header, payload)) => Some (Ok (join_frame_with_crc header payload))
   end, snd parts).

Definition pack_packet_inner_with_contract (book : AddressBook) (pkt : Packet)
    (reliable : option ReliableHeader) (shape : option MessageElement) (targets : list Z)
    (e2e : option Z) : option (result bytes) * AddressBook :=
  joined (with_packet_frame_parts book pkt reliable shape targets e2e true).

Definition pack_routed_packet (book : AddressBook) (pkt : Packet)
    (reliable : option ReliableHeader) (shape : option MessageElement) (targets : list Z)
    (e2e : option Z) : option (result bytes) * AddressBook :=
  joined (with_packet_frame_parts book pkt reliable shape targets e2e false).

Definition pack_packet_inner (book : AddressBook) (pkt : Packet)
    (reliable : option ReliableHeader) : option bytes * AddressBook :=
  let '(r, book) := pack_packet_inner_with_contract book pkt reliable (wire_shape pkt)
                      (wire_target_senders pkt) None in
  (match r with Some (Ok b) => Some b | _ => None end, book).

Definition pack_packet_with_reliable (book : AddressBook) (pkt : Packet)
    (header : ReliableHeader) : option bytes * AddressBook :=
  pack_packet_inner book pkt (Some header).

(** The default header of a reliable type that is not sequenced. *)
Definition unsequenced_header : ReliableHeader :=
  {| rh_flags := RELIABLE_FLAG_UNSEQUENCED; rh_seq := 0; rh_ack := 0 |}.

Definition pack_packet (book : AddressBook) (pkt : Packet) : option bytes * AddressBook :=
  if is_reliable_type reg (ty pkt)
  then pack_packet_with_reliable book pkt unsequenced_header
  else pack_packet_inner book pkt None.

Definition with_plain_packet_parts (book : AddressBook) (pkt : Packet)
    : option (result (bytes * bytes)) * AddressBook :=
  let reliable := if is_reliable_type reg (ty pkt) then Some unsequenced_header else None in
  with_packet_frame_parts book pkt reliable (wire_shape pkt) (wire_target_senders pkt)
    None true.

Definition packet_wire_size (pkt : Packet) : Z :=
  let sh := wire_shape pkt in
  let targets := wire_target_senders pkt in
  let endpoint_len :=
    if packet_endpoint_bitmap_present pkt sh targets then
      if explicit_endpoint_list (pkt_endpoints pkt)
      then endpoint_list_size (pkt_endpoints pkt) else EP_BITMAP_BYTES
    else 0 in
  let '(_, payload_wire) := payload_for_wire pkt in
  let rel_len :=
    if is_reliable_type reg (ty pkt)
    then reliable_wire_size unsequenced_header
           (should_compact_reliable_header unsequenced_header)
    else 0 in
  header_size_bytes pkt + endpoint_len + contract_len sh targets + rel_len
  + zlen payload_wire + CRC32_BYTES.

(** An ACK-only control frame. *)
Definition pack_reliable_ack (book : AddressBook) (sender : bytes) (ty : DataType)
    (timestamp_ms ack : Z) : bytes * AddressBook :=
  let '(source_address, book) := source_address_for_sender book sender in
  let h := {| rh_flags := RELIABLE_FLAG_ACK_ONLY; rh_seq := 0; rh_ack := ack |} in
  let compact := should_compact_reliable_header h in
  let flags := Z.lor FLAG_ENDPOINT_LIST_PRESENT FLAG_RELIABLE_HEADER_PRESENT in
  let flags := set_if compact flags FLAG_COMPACT_RELIABLE_HEADER in
  (append_crc32
     ([flags; 0] ++ write_uleb128 ty ++ write_uleb128 0 ++ write_uleb128 timestamp_ms
      ++ write_uleb128 source_address ++ write_reliable_header_encoded h compact), book).

(** ** Unpacking *)

(** What the decoder knows before it touches the payload. *)
Record UnpackPrefix : Type := {
  up_flags : Z;
  up_nep : Z;
  up_dsz : Z;
  up_timestamp : Z;
  up_nonce : Z;
  up_source : Z;
  up_ty : DataType;
  up_endpoints : list DataEndpoint;
  up_contract : WireContract;
  up_reliable : option ReliableHeader;
}.

(** [endpoint_bytes + dsz] is a plain [usize] addition: it wraps without overflow
    checks. *)
Definition unpack_prefix : reader UnpackPrefix :=
  flags ← read_byte;
  nep ← read_byte;
  ty_v ← read_uleb128;
  dsz ← read_uleb128;
  ts_v ← read_uleb128;
  nonce ← (if has_flag flags FLAG_PACKET_NONCE
           then read_uleb_u16 "packet nonce too large" else mret 0);
  source_address ← read_uleb_u32 "source address too large";
  ty_u32 ← lift (data_type_id_from_wire ty_v);
  let known_ty := data_type_try_from_u32 reg ty_u32 in
  let bitmap_present := has_flag flags FLAG_ENDPOINT_BITMAP_PRESENT in
  let endpoint_bytes := if bitmap_present then EP_BITMAP_BYTES else 0 in
  let need := if negb (has_flag flags FLAG_COMPRESSED_PAYLOAD)
              then wrap64 (endpoint_bytes + dsz) else endpoint_bytes + 1 in
  left ← get_remaining;
  if left <? need then fail_with (Unpack "short buffer")
  else
    eps ← endpoints_from_wire_or_schema reg bitmap_present
            (has_flag flags FLAG_ENDPOINT_LIST_PRESENT) known_ty nep;
    contract ← decode_wire_contract (has_flag flags FLAG_WIRE_CONTRACT);
    ty ← lift (ok_or (match known_ty with
                      | Some ty => Some ty
                      | None => match shape contract with
                                | Some _ => Some ty_u32 | None => None end
                      end) InvalidType);
    rel ← (if has_flag flags FLAG_RELIABLE_HEADER_PRESENT || has_reliable_header contract then
             h ← read_reliable_header_encoded (has_flag flags FLAG_COMPACT_RELIABLE_HEADER);
             if has_flag (rh_flags h) RELIABLE_FLAG_ACK_ONLY
             then fail_with (Unpack "reliable control frame")
             else mret (Some h)
           else mret None);
    mret {| up_flags := flags; up_nep := nep; up_dsz := dsz; up_timestamp := ts_v;
            up_nonce := nonce; up_source := source_address; up_ty := ty;
            up_endpoints := eps; up_contract := contract; up_reliable := rel |}.

Definition contract_owners (c : WireContract) : Z :=
  match target_senders c with Some ts => zlen ts | None => 0 end.

(** The admission check before the payload is allocated. *)
Definition unpack_admission (buf_len : Z) (managed : bool) (u : UnpackPrefix) (left : Z)
    : check_fn := fun adm =>
  let compressed := has_flag (up_flags u) FLAG_COMPRESSED_PAYLOAD in
  let encrypted := has_flag (up_flags u) FLAG_E2E_ENCRYPTED_PAYLOAD in
  let dsz := up_dsz u in
  let payload_copies := (if compressed then 3 else 1) + (if encrypted then 1 else 0) in
  let small_ack := one_of (up_ty u) [ty_ReliableAck; ty_ReliablePartialAck]
                   && (dsz <=? 32) && (payload_copies =? 1) in
  let owners := contract_owners (up_contract u) in
  if supports_work_kinds adm && negb small_ack && (buf_len <=? 128)
     && (Z.land (up_flags u) 17 =? 0)
     && (protected_discovery_request_shape reg (up_ty u) ((dsz =? 0) && (left =? 0))
           (bool_decide (up_endpoints u = [ep_Discovery])) owners (shape (up_contract u))
         || protected_control_shape reg (up_ty u) (up_nep u) owners (shape (up_contract u))
              (is_some (up_reliable u)) managed)
  then check_small_protected_decode buf_len adm
  else check (if small_ack then 512 else sat_add (sat_mul dsz payload_copies) 512)
         (sat_add dsz 32) adm.

(** The payload bytes as they stand on the wire (sealed ones opened). *)
Definition read_payload_wire (data : bytes) (u : UnpackPrefix) : reader bytes := fun r =>
  if has_flag (up_flags u) FLAG_E2E_ENCRYPTED_PAYLOAD
  then read_encrypted_payload (take (off r) data) (up_dsz u) r
  else if negb (has_flag (up_flags u) FLAG_COMPRESSED_PAYLOAD)
  then read_bytes (up_dsz u) r
  else read_bytes (remaining r) r.

(** The logical payload; decompression is admitted once more. *)
Definition logical_payload (u : UnpackPrefix) (payload_wire : bytes) (adm : Admission)
    : result bytes * Admission :=
  if has_flag (up_flags u) FLAG_COMPRESSED_PAYLOAD then
    match decompress payload_wire (up_dsz u) with
    | Err e => (Err e, adm)
    | Ok decompressed =>
        match check (sat_add (up_dsz u) 512) (sat_add (up_dsz u) 32) adm with
        | (Err e, adm) => (Err e, adm)
        | (Ok _, adm) => (Ok decompressed, adm)
        end
    end
  else if negb (zlen payload_wire =? up_dsz u)
  then (Err (Unpack "payload length mismatch"), adm)
  else (Ok payload_wire, adm).

Definition unpack_packet_with_role (book : AddressBook) (b : bytes) (managed : bool)
    (adm : Admission) : result Packet * Admission :=
  match verify_crc32 b with
  | Err e => (Err e, adm)
  | Ok data =>
      if is_empty data then (Err (Unpack "short prelude"), adm)
      else
        match unpack_prefix (new_reader data) with
        | Err e => (Err e, adm)
        | Ok (u, r) =>
            match unpack_admission (zlen b) managed u (remaining r) adm with
            | (Err e, adm) => (Err e, adm)
            | (Ok _, adm) =>
                match read_payload_wire data u r with
                | Err e => (Err e, adm)
                | Ok (payload_wire, _) =>
                    match logical_payload u payload_wire adm with
                    | (Err e, adm) => (Err e, adm)
                    | (Ok payload, adm) =>
                        (new_with_owned_wire_contract reg tun (up_ty u) (up_endpoints u)
                           (sender_name_for_address book (up_source u)) (up_timestamp u)
                           (up_nonce u) payload (shape (up_contract u))
                           (target_senders (up_contract u)), adm)
                    end
                end
            end
        end
  end.

Definition unpack_packet (book : AddressBook) (b : bytes) (adm : Admission)
    : result Packet * Admission :=
  unpack_packet_with_role book b false adm.

End Frame.
