(* ===== verification/WireRoundtrip.v ===== *)
(** * Frames round trip (src/src/wire_format.rs)

    What the unpacker makes of a frame the packer produced, for a receiver whose
    registry may differ from the sender's: the header is read back field by
    field, a compressed payload is decompressed, a sealed one is opened. *)

From S2P Require Import Prelude Varint Schema Packet MemoryAdmission WireEnv WireSample WireReader WireEndpoints WireFrame.

Open Scope Z_scope.

(** ** Header flags *)

Lemma frame_flags_spec compressed contract nonce list bitmap reliable compact e2e :
  let f := frame_flags compressed contract nonce list bitmap reliable compact e2e in
  has_flag f FLAG_COMPRESSED_PAYLOAD = compressed /\ has_flag f FLAG_WIRE_CONTRACT = contract /\
  has_flag f FLAG_PACKET_NONCE = nonce /\ has_flag f FLAG_ENDPOINT_LIST_PRESENT = list /\
  has_flag f FLAG_ENDPOINT_BITMAP_PRESENT = (negb list && bitmap) /\
  has_flag f FLAG_RELIABLE_HEADER_PRESENT = reliable /\
  has_flag f FLAG_COMPACT_RELIABLE_HEADER = compact /\
  has_flag f FLAG_E2E_ENCRYPTED_PAYLOAD = e2e /\ is_u8 f.
Proof.
  destruct compressed, contract, nonce, list, bitmap, reliable, compact, e2e;
    vm_compute; repeat split; discriminate.
Qed.

(** ** CRC trailer *)

Section Crc.
Context {E : WireEnv} {L : WireEnvLaws E}.

Lemma verify_crc_append out : verify_crc32 (out ++ le_bytes 4 (crc32_bytes out)) = Ok out.
Proof.
  unfold verify_crc32, split_crc32. rewrite zlen_app.
  assert (zlen (le_bytes 4 (crc32_bytes out)) = 4) as Hl by (unfold zlen; by rewrite length_le_bytes).
  rewrite Hl. unfold CRC32_BYTES.
  destruct (Z.ltb_spec (zlen out + 4) 4); [pose proof (zlen_nonneg out); lia|].
  cbn [mbind result_bind]. rewrite length_app, length_le_bytes.
  replace (length out + 4 - 4)%nat with (length out) by lia.
  rewrite take_app_length, drop_app_length, from_le_bytes.
  - by rewrite Z.eqb_refl.
  - change (256 ^ Z.of_nat 4) with (2 ^ 32). pose proof (crc32_range out). solve_u.
Qed.

Lemma verify_joined header payload :
  verify_crc32 (join_frame_with_crc header payload) = Ok (header ++ payload).
Proof. unfold join_frame_with_crc. rewrite app_assoc. apply verify_crc_append. Qed.

(** The trailer is checked: a frame that passes is its data and their CRC. *)
Lemma verify_crc_inv b data :
  bytes_ok b -> verify_crc32 b = Ok data -> b = data ++ le_bytes 4 (crc32_bytes data).
Proof.
  intros Hb. unfold verify_crc32, split_crc32.
  destruct (zlen b <? CRC32_BYTES) eqn:E1; [done|]. cbn [mbind result_bind].
  destruct (negb _) eqn:E2; [done|]. intros [= <-]. bool_to_prop. rewrite E2.
  unfold CRC32_BYTES, zlen in E1. rewrite le_bytes_from_le.
  - by rewrite take_drop.
  - by apply Forall_drop.
  - rewrite length_drop. lia.
Qed.
End Crc.

(** ** Wire-ready packets *)

(** The fields are in range of their wire types (what the Rust types ensure). *)
Record packet_ok (p : Packet) : Prop := {
  po_ty : is_u32 (ty p);
  po_size : data_size p = zlen (payload p) /\ zlen (payload p) <= isize_max;
  po_timestamp : is_u64 (timestamp p);
  po_nonce : is_u16 (nonce p);
  po_endpoints : Forall is_u32 (pkt_endpoints p);
}.

Lemma unique_sorted_Forall (P : Z -> Prop) eps :
  Forall P eps -> Forall P (unique_sorted_endpoints eps).
Proof.
  rewrite !Forall_forall. intros H x Hx. apply H. by apply unique_sorted_spec.
Qed.

Section Roundtrip.
Context {E : WireEnv} {L : WireEnvLaws E}.

(** The endpoint encoding of the sender, [list_present] and [bitmap_present]. *)
Definition bitmap_of (pkt : Packet) (sh : option MessageElement) (ts : list Z) : bool :=
  packet_endpoint_bitmap_present pkt sh ts.
Definition list_of (pkt : Packet) (sh : option MessageElement) (ts : list Z) : bool :=
  bitmap_of pkt sh ts && explicit_endpoint_list (pkt_endpoints pkt).

(** What the receiver must know: nothing for an explicit list, the endpoints
    themselves for a bitmap, the type and the same default for an omitted set. *)
Definition endpoints_known (r : Registry) (pkt : Packet) (sh : option MessageElement)
    (ts : list Z) : Prop :=
  if list_of pkt sh ts then True
  else if bitmap_of pkt sh ts then forallb (endpoint_exists r) (pkt_endpoints pkt) = true
  else data_type_exists r (ty pkt) = true /\
       endpoints_match_schema r (ty pkt) (pkt_endpoints pkt) = true.

Lemma not_explicit_bitmap_ids eps :
  Forall is_u32 eps -> explicit_endpoint_list eps = false -> bitmap_ids eps.
Proof.
  unfold explicit_endpoint_list. intros Hu H. bool_to_prop.
  unfold bitmap_ids. rewrite Forall_forall in *. intros x Hx.
  assert (forall x, In x eps -> (EP_BITMAP_BITS <=? x) = false) as Hall.
  { intros y Hy. destruct (EP_BITMAP_BITS <=? y) eqn:Ey; [|done].
    rewrite (proj2 (existsb_exists _ _)) in H; [done|]. eauto. }
  rewrite list_elem_of_In in Hx. specialize (Hall x Hx). bool_to_prop.
  specialize (Hu x ltac:(by apply list_elem_of_In)). solve_u.
Qed.

Lemma reads_endpoints r pkt sh ts :
  packet_ok pkt -> endpoints_known r pkt sh ts ->
  zlen (unique_sorted_endpoints (pkt_endpoints pkt)) <= 255 ->
  reads (endpoints_from_wire_or_schema r (negb (list_of pkt sh ts) && bitmap_of pkt sh ts)
           (list_of pkt sh ts) (data_type_try_from_u32 r (ty pkt))
           (zlen (unique_sorted_endpoints (pkt_endpoints pkt))))
    (endpoint_part pkt (list_of pkt sh ts) (bitmap_of pkt sh ts))
    (unique_sorted_endpoints (pkt_endpoints pkt)).
Proof.
  intros Hok Hknown Hn. unfold endpoints_from_wire_or_schema, endpoint_part, endpoints_known in *.
  set (eps := pkt_endpoints pkt) in *. set (ids := unique_sorted_endpoints eps) in *.
  destruct (list_of pkt sh ts) eqn:El; cbn [negb andb].
  - assert (encodes_ids (map write_uleb128 ids) ids) as Henc
      by (apply encodes_ids_write, unique_sorted_Forall, Hok).
    eapply reads_map; [apply reads_endpoint_list; [done|apply unique_sorted_spec]|].
    rewrite (endpoint_list_iter_spec _ ids) by done. cbv zeta.
    assert (endpoint_arc_from_iter (zlen ids) ids = Ok ids) as Harc
      by (unfold endpoint_arc_from_iter; by rewrite Z.eqb_refl).
    destruct (data_type_try_from_u32 r (ty pkt) ≫= try_get_message_meta r);
      [|by apply reads_lift].
    case_bool_decide as Heq; [|by apply reads_lift]. by apply reads_ret'.
  - destruct (bitmap_of pkt sh ts) eqn:Eb.
    + assert (bitmap_ids eps) as Hids.
      { apply not_explicit_bitmap_ids; [apply Hok|]. unfold list_of in El. by rewrite Eb in El. }
      destruct (build_bitmap_ok eps Hids) as [Hb Hl].
      eapply reads_map; [by apply reads_bytes|].
      eapply (reads_bind _ _ [] []).
      { apply reads_lift. rewrite expand_endpoint_bitmap_spec by done.
        rewrite bitmap_endpoints_build by done. fold ids.
        rewrite (proj2 (forallb_forall _ _)); [done|]. intros x Hx.
        rewrite forallb_forall in Hknown. apply Hknown.
        apply list_elem_of_In, unique_sorted_spec. by apply list_elem_of_In. }
      rewrite Z.eqb_refl. apply reads_ret.
    + destruct Hknown as [Hty Hm]. unfold data_type_try_from_u32. rewrite Hty.
      eapply (reads_bind _ _ [] []); [by apply reads_lift|].
      apply reads_lift. pose proof (schema_endpoints_spec r (ty pkt) (zlen ids)) as Hs.
      cbv zeta in Hs. rewrite Hs.
      unfold endpoints_match_schema in Hm. apply bool_decide_eq_true in Hm.
      fold eps ids in Hm. rewrite <- Hm. unfold endpoint_arc_from_iter. by rewrite Z.eqb_refl.
Qed.

Lemma endpoint_part_size pkt sh ts :
  packet_ok pkt ->
  zlen (endpoint_part pkt (list_of pkt sh ts) (bitmap_of pkt sh ts))
  = endpoint_bytes_len pkt (list_of pkt sh ts) (bitmap_of pkt sh ts).
Proof.
  intros Hok. unfold endpoint_part, endpoint_bytes_len.
  destruct (list_of pkt sh ts) eqn:El; [by apply endpoint_list_size_length, Hok|].
  destruct (bitmap_of pkt sh ts) eqn:Eb; [|done].
  apply build_bitmap_ok, not_explicit_bitmap_ids; [apply Hok|].
  unfold list_of in El. by rewrite Eb in El.
Qed.

(** ** The header *)

Definition compact_of (reliable : option ReliableHeader) : bool :=
  match reliable with Some h => should_compact_reliable_header h | None => false end.

Definition flags_of (pkt : Packet) (reliable : option ReliableHeader)
    (sh : option MessageElement) (ts : list Z) (compressed e2e : bool) : Z :=
  frame_flags compressed (is_some sh || negb (is_empty ts)) (negb (nonce pkt =? 0))
    (list_of pkt sh ts) (bitmap_of pkt sh ts) (is_some reliable) (compact_of reliable) e2e.

Definition header_of (pkt : Packet) (reliable : option ReliableHeader)
    (sh : option MessageElement) (ts : list Z) (compressed e2e : bool) : bytes :=
  frame_header pkt reliable sh ts (sender_address_u32 (sender pkt))
    (flags_of pkt reliable sh ts compressed e2e) (list_of pkt sh ts) (bitmap_of pkt sh ts)
    (compact_of reliable).

Definition reliable_part (reliable : option ReliableHeader) : bytes :=
  match reliable with
  | Some h => write_reliable_header_encoded h (compact_of reliable)
  | None => []
  end.

Definition reliable_ok (reliable : option ReliableHeader) : Prop :=
  match reliable with Some h => header_ok h | None => True end.

(** No ACK-only control header: those frames carry no packet. *)
Definition carries_packet (reliable : option ReliableHeader) : Prop :=
  match reliable with
  | Some h => has_flag (rh_flags h) RELIABLE_FLAG_ACK_ONLY = false
  | None => True
  end.

Lemma flags_of_spec pkt reliable sh ts compressed e2e :
  let f := flags_of pkt reliable sh ts compressed e2e in
  has_flag f FLAG_COMPRESSED_PAYLOAD = compressed /\
  has_flag f FLAG_WIRE_CONTRACT = is_some sh || negb (is_empty ts) /\
  has_flag f FLAG_PACKET_NONCE = negb (nonce pkt =? 0) /\
  has_flag f FLAG_ENDPOINT_LIST_PRESENT = list_of pkt sh ts /\
  has_flag f FLAG_ENDPOINT_BITMAP_PRESENT = negb (list_of pkt sh ts) && bitmap_of pkt sh ts /\
  has_flag f FLAG_RELIABLE_HEADER_PRESENT = is_some reliable /\
  has_flag f FLAG_COMPACT_RELIABLE_HEADER = compact_of reliable /\
  has_flag f FLAG_E2E_ENCRYPTED_PAYLOAD = e2e /\ is_u8 f.
Proof. apply frame_flags_spec. Qed.

Lemma header_parts pkt reliable sh ts compressed e2e :
  header_of pkt reliable sh ts compressed e2e
  = [flags_of pkt reliable sh ts compressed e2e]
    ++ [wrap8 (zlen (unique_sorted_endpoints (pkt_endpoints pkt)))]
    ++ write_uleb128 (ty pkt) ++ write_uleb128 (data_size pkt) ++ write_uleb128 (timestamp pkt)
    ++ (if negb (nonce pkt =? 0) then write_uleb128 (nonce pkt) else [])
    ++ write_uleb128 (sender_address_u32 (sender pkt))
    ++ endpoint_part pkt (list_of pkt sh ts) (bitmap_of pkt sh ts)
    ++ contract_bytes sh ts (is_some reliable) ++ reliable_part reliable.
Proof.
  unfold header_of, frame_header, contract_bytes, reliable_part.
  pose proof (flags_of_spec pkt reliable sh ts compressed e2e) as (_ & Hc & _).
  rewrite Hc. by destruct reliable.
Qed.

Lemma data_size_u64 pkt : packet_ok pkt -> is_u64 (data_size pkt).
Proof. intros [_ [-> ?] _ _ _]. pose proof (zlen_nonneg (payload pkt)). solve_u. Qed.

Lemma header_size pkt reliable sh ts compressed e2e :
  packet_ok pkt -> reliable_ok reliable -> contract_ok sh ts ->
  zlen (header_of pkt reliable sh ts compressed e2e)
  = scratch_capacity pkt reliable sh ts.
Proof.
  intros Hok Hr Hc. rewrite header_parts, !zlen_app.
  pose proof (sender_address_range (sender pkt)). pose proof (data_size_u64 pkt Hok).
  rewrite endpoint_part_size by done.
  rewrite !uleb128_size_length by (apply Hok || eauto with sed_arith || apply is_u32_u64, Hok).
  assert (zlen (contract_bytes sh ts (is_some reliable)) = contract_len sh ts) as ->.
  { unfold contract_bytes, contract_len. destruct (_ || _); [|done].
    by rewrite zlen_app, write_wire_contract_size, uleb128_size_length
      by (done || by apply wire_contract_size_u64). }
  assert (zlen (reliable_part reliable) = reliable_len reliable) as ->.
  { unfold reliable_part, reliable_len, compact_of. destruct reliable; [|done].
    by apply write_reliable_header_size. }
  assert (zlen (if negb (nonce pkt =? 0) then write_uleb128 (nonce pkt) else [])
          = if negb (nonce pkt =? 0) then uleb128_size (nonce pkt) else 0) as ->.
  { destruct (negb _); [|done]. apply uleb128_size_length, is_u16_u64, Hok. }
  unfold scratch_capacity, header_size_bytes, list_of, bitmap_of.
  change (zlen [?x]) with 1. lia.
Qed.

(** What the decoder recovers before the payload. *)
Definition prefix_of (pkt : Packet) (reliable : option ReliableHeader)
    (sh : option MessageElement) (ts : list Z) (compressed e2e : bool) : UnpackPrefix :=
  {| up_flags := flags_of pkt reliable sh ts compressed e2e;
     up_nep := zlen (unique_sorted_endpoints (pkt_endpoints pkt));
     up_dsz := data_size pkt; up_timestamp := timestamp pkt; up_nonce := nonce pkt;
     up_source := sender_address_u32 (sender pkt); up_ty := ty pkt;
     up_endpoints := unique_sorted_endpoints (pkt_endpoints pkt);
     up_contract := {| shape := sh; target_senders := targets_opt ts;
                       has_reliable_header :=
                         (is_some sh || negb (is_empty ts)) && is_some reliable |};
     up_reliable := match reliable with
                    | Some h => Some (decoded_header h (compact_of reliable))
                    | None => None
                    end |}.

Lemma decoded_not_ack h c :
  has_flag (rh_flags h) RELIABLE_FLAG_ACK_ONLY = false ->
  has_flag (rh_flags (decoded_header h c)) RELIABLE_FLAG_ACK_ONLY = false.
Proof.
  destruct c; cbn [decoded_header]; [|done]. unfold public_header, has_flag; cbn [rh_flags].
  by rewrite <- Z.land_assoc.
Qed.

(** The size pre-check passes when the payload region holds what it announces. *)
Lemma short_buffer_passes pkt sh ts (compressed : bool) (rest : bytes) :
  packet_ok pkt -> (if compressed then 1 else data_size pkt) <= zlen rest ->
  let need := if negb (list_of pkt sh ts) && bitmap_of pkt sh ts then EP_BITMAP_BYTES else 0 in
  (if negb compressed then wrap64 (need + data_size pkt) else need + 1)
  <= zlen (endpoint_part pkt (list_of pkt sh ts) (bitmap_of pkt sh ts)) + zlen rest.
Proof.
  intros Hok Hrest need. pose proof (endpoint_part_size pkt sh ts Hok) as Hsz.
  assert (need <= zlen (endpoint_part pkt (list_of pkt sh ts) (bitmap_of pkt sh ts))) as Hle.
  { unfold need. destruct (list_of pkt sh ts), (bitmap_of pkt sh ts); cbn [negb andb];
      try apply zlen_nonneg. by rewrite Hsz. }
  assert (0 <= need <= 32) by (unfold need, EP_BITMAP_BYTES; destruct (_ && _); lia).
  destruct compressed; cbn [negb]; [lia|]. rewrite wrap64_small; [lia|].
  destruct Hok as [_ [Hs1 Hs2] _ _ _]. pose proof (zlen_nonneg (payload pkt)). solve_u.
Qed.

Lemma unpack_prefix_header r pkt reliable sh ts (compressed e2e : bool) rest :
  packet_ok pkt -> reliable_ok reliable -> carries_packet reliable -> contract_ok sh ts ->
  zlen (unique_sorted_endpoints (pkt_endpoints pkt)) <= 255 ->
  endpoints_known r pkt sh ts ->
  (data_type_exists r (ty pkt) = true \/ is_some sh = true) ->
  (if compressed then 1 else data_size pkt) <= zlen rest ->
  unpack_prefix (E := set_registry E r)
    (at_ [] (header_of pkt reliable sh ts compressed e2e ++ rest))
  = Ok (prefix_of pkt reliable sh ts compressed e2e,
        at_ (header_of pkt reliable sh ts compressed e2e) rest).
Proof.
  intros Hok Hr Hcp Hc Hn Hknown Hty Hrest.
  pose proof (flags_of_spec pkt reliable sh ts compressed e2e)
    as (Hf1 & Hf2 & Hf3 & Hf4 & Hf5 & Hf6 & Hf7 & Hf8 & _).
  pose proof (data_size_u64 pkt Hok) as Hdsz.
  unfold unpack_prefix, prefix_of. rewrite header_parts.
  set (flags := flags_of pkt reliable sh ts compressed e2e) in *.
  assert (wrap8 (zlen (unique_sorted_endpoints (pkt_endpoints pkt)))
          = zlen (unique_sorted_endpoints (pkt_endpoints pkt))) as Hw.
  { apply Z.mod_small. pose proof (zlen_nonneg (unique_sorted_endpoints (pkt_endpoints pkt))). lia. }
  rewrite Hw, <- !app_assoc.
  rewrite (bind_reads _ _ _ _ _ _ (reads_byte flags)).
  rewrite (bind_reads _ _ _ _ _ _ (reads_byte (zlen _))).
  rewrite (bind_reads _ _ _ _ _ _ (reads_uleb128 (ty pkt) (is_u32_u64 _ (po_ty _ Hok)))).
  rewrite (bind_reads _ _ _ _ _ _ (reads_uleb128 (data_size pkt) Hdsz)).
  rewrite (bind_reads _ _ _ _ _ _ (reads_uleb128 (timestamp pkt) (po_timestamp _ Hok))).
  rewrite Hf3. erewrite bind_reads with (v := nonce pkt).
  2: { destruct (Z.eqb_spec (nonce pkt) 0) as [->|]; cbn [negb]; [apply reads_ret|].
       apply reads_uleb_u16, Hok. }
  rewrite (bind_reads _ _ _ _ _ _ (reads_uleb_u32 (sender_address_u32 (sender pkt)) _
    (sender_address_range _))).
  rewrite (bind_lift _ _ _ (ty pkt))
    by (unfold data_type_id_from_wire; by rewrite (try_u32_fits _ (po_ty _ Hok))).
  cbv zeta. rewrite bind_get_remaining, Hf1, Hf2, Hf4, Hf5, Hf6, Hf7.
  rewrite (proj2 (Z.ltb_ge _ _)) by (rewrite zlen_app; apply short_buffer_passes; [done|];
    rewrite !zlen_app; pose proof (zlen_nonneg (contract_bytes sh ts (is_some reliable)));
    pose proof (zlen_nonneg (reliable_part reliable)); lia).
  rewrite (bind_reads _ _ _ _ _ _ (reads_endpoints r pkt sh ts Hok Hknown Hn)).
  rewrite (bind_reads _ _ _ _ _ _ (reads_wire_contract sh ts (is_some reliable) Hc)).
  cbn [shape has_reliable_header].
  rewrite (bind_lift _ _ _ (ty pkt)).
  2: { cbn [we_registry set_registry]. unfold data_type_try_from_u32.
       destruct (data_type_exists r (ty pkt)); [done|].
       destruct Hty as [Hty|Hty]; [done|]. by destruct sh. }
  erewrite bind_reads with (enc := reliable_part reliable).
  2: { instantiate (1 := match reliable with
                         | Some h => Some (decoded_header h (compact_of reliable))
                         | None => None end).
       destruct reliable as [h|]; cbn [is_some reliable_part];
         [|rewrite andb_false_r; apply reads_ret].
       cbn [orb]. eapply reads_map; [by apply reads_reliable_header|].
       rewrite decoded_not_ack by done. apply reads_ret. }
  unfold mret, reader_ret. f_equal. f_equal. by rewrite <- !app_assoc.
Qed.

(** ** The payload *)

Lemma compress_spec l c w :
  compress_if_beneficial l = (c, w) ->
  if c then decompress w (zlen l) = Ok l /\ 1 <= zlen w <= zlen l else w = l.
Proof.
  unfold compress_if_beneficial, compress_to_vec_bounded, decompress.
  destruct (zlen l <? _); [by intros [= <- <-]|].
  destruct (is_empty l || _); [by intros [= <- <-]|].
  destruct (zstd_compress l _) as [z|] eqn:Ez; [|by intros [= <- <-]].
  destruct (zlen l <=? zlen z + 1) eqn:El; intros [= <- <-]; [done|].
  rewrite (zstd_roundtrip _ _ _ Ez), Z.eqb_refl. bool_to_prop.
  pose proof (zstd_nonempty _ _ _ Ez). split; [done|lia].
Qed.

Lemma payload_for_encoding_spec pkt allowed c w :
  payload_for_encoding pkt allowed = (c, w) ->
  if c then decompress w (zlen (payload pkt)) = Ok (payload pkt) /\
            1 <= zlen w <= zlen (payload pkt)
  else w = payload pkt.
Proof.
  unfold payload_for_encoding.
  destruct (negb allowed); [by intros [= <- <-]|].
  destruct (is_discovery_type _); [by intros [= <- <-]|]. apply compress_spec.
Qed.

(** The sealed payload region. *)
Definition sealed_part (key_id : Z) (nonce pt ct tag : bytes) (cl tl : Z) : bytes :=
  write_uleb128 key_id ++ write_uleb128 (zlen pt) ++ write_uleb128 (zlen nonce) ++ nonce
  ++ write_uleb128 tl ++ take (Z.to_nat tl) tag ++ take (Z.to_nat cl) ct.

Lemma e2e_nonce_length pkt : zlen (e2e_nonce_for_packet pkt) = E2E_NONCE_LEN.
Proof.
  unfold e2e_nonce_for_packet. rewrite !zlen_app. unfold zlen.
  by rewrite length_take, !length_le_bytes.
Qed.

Context {CL : E2eCryptoLaws we_crypto}.

Lemma write_encrypted_spec pkt key_id pt out out' :
  write_encrypted_payload pkt key_id pt out = Ok out' ->
  exists ct tag cl tl,
    crypto_seal key_id (e2e_nonce_for_packet pkt) out pt = Ok (ct, tag, cl, tl) /\
    out' = out ++ sealed_part key_id (e2e_nonce_for_packet pkt) pt ct tag cl tl.
Proof.
  unfold write_encrypted_payload. rewrite result_bind_ok.
  intros ([[[ct tag] cl] tl] & Hs & H). destruct (_ || _); [done|].
  injection H as <-. by exists ct, tag, cl, tl.
Qed.

Lemma read_sealed key_id nonce aad pt ct tag cl tl dsz pre :
  crypto_seal key_id nonce aad pt = Ok (ct, tag, cl, tl) ->
  is_u32 key_id -> zlen nonce = E2E_NONCE_LEN -> is_u64 (zlen pt) -> zlen pt <= dsz ->
  exists r, read_encrypted_payload aad dsz (at_ pre (sealed_part key_id nonce pt ct tag cl tl))
            = Ok (pt, r).
Proof.
  intros Hseal Hk Hn Hpt Hd. pose proof (crypto_seal_sizes _ _ _ _ _ _ _ _ Hseal) as
    (Hct & Htag & -> & Htl). unfold E2E_TAG_CAP, E2E_NONCE_LEN in *.
  unfold read_encrypted_payload, sealed_part.
  rewrite (bind_reads _ _ _ _ _ _ (reads_uleb_u32 key_id _ Hk)).
  rewrite (bind_reads _ _ _ _ _ _ (reads_uleb128 (zlen pt) Hpt)).
  rewrite (proj2 (Z.ltb_ge _ _)) by lia.
  rewrite (bind_reads _ _ _ _ _ _ (reads_uleb128 (zlen nonce) ltac:(solve_u))).
  rewrite (proj2 (orb_false_iff _ _)) by (rewrite Z.eqb_neq, Z.ltb_ge; lia).
  rewrite (bind_reads _ _ _ _ _ _ (reads_bytes (zlen nonce) nonce eq_refl)).
  rewrite (bind_reads _ _ _ _ _ _ (reads_uleb128 tl ltac:(solve_u))).
  rewrite (proj2 (orb_false_iff _ _)) by (rewrite Z.eqb_neq, Z.ltb_ge; unfold E2E_TAG_CAP; lia).
  erewrite bind_reads.
  2: { apply reads_bytes. unfold zlen in *. rewrite length_take. lia. }
  rewrite bind_get_remaining.
  set (c := take (Z.to_nat (zlen pt)) ct).
  match goal with |- context [at_ ?p c] =>
    replace (at_ p c) with (at_ p (c ++ [])) by (by rewrite app_nil_r) end.
  rewrite (bind_reads _ _ _ _ _ _ (reads_bytes (zlen c) c eq_refl)).
  rewrite (bind_lift _ _ _ (pt, zlen pt)) by by apply crypto_open_seal.
  rewrite Z.eqb_refl. cbn [negb]. eauto.
Qed.

Lemma sealed_part_length key_id nonce pt ct tag tl :
  zlen ct = zlen pt -> zlen pt <= zlen (sealed_part key_id nonce pt ct tag (zlen pt) tl).
Proof.
  intros Hct. unfold sealed_part. rewrite !zlen_app.
  assert (zlen (take (Z.to_nat (zlen pt)) ct) = zlen pt).
  { unfold zlen in *. rewrite length_take. lia. }
  pose proof (zlen_nonneg (write_uleb128 key_id)).
  pose proof (zlen_nonneg (write_uleb128 (zlen pt))).
  pose proof (zlen_nonneg (write_uleb128 (zlen nonce))). pose proof (zlen_nonneg nonce).
  pose proof (zlen_nonneg (write_uleb128 tl)). pose proof (zlen_nonneg (take (Z.to_nat tl) tag)).
  lia.
Qed.

(** ** Whole frames *)

(** An admission state that refuses nothing. *)
Definition admits_all (adm : Admission) : Prop :=
  forall a l w, check_work a l w adm = (Ok tt, adm).

Lemma no_probe_admits adm : has_probe adm = false -> admits_all adm.
Proof. intros H a l w. by apply check_no_probe. Qed.

Lemma unpack_admission_admits r len managed u left adm :
  admits_all adm -> unpack_admission (E := set_registry E r) len managed u left adm = (Ok tt, adm).
Proof.
  intros H. unfold unpack_admission, check_small_protected_decode, check_frame_kind, check.
  case_match; [case_match|]; apply H.
Qed.

(** The packer's parts in terms of [header_of]. *)
Lemma frame_parts_spec book pkt reliable sh ts e2e allowed :
  zlen (unique_sorted_endpoints (pkt_endpoints pkt)) <= 255 ->
  let '(c, w) := payload_for_encoding pkt allowed in
  let h := header_of pkt reliable sh ts c (is_some e2e) in
  with_packet_frame_parts book pkt reliable sh ts e2e allowed
  = (Some (match e2e with
           | Some key_id => out ← write_encrypted_payload pkt key_id w h; Ok (out, [])
           | None => Ok (h, w)
           end), snd (source_address_for_sender book (sender pkt))).
Proof.
  intros Hn. destruct (payload_for_encoding pkt allowed) as [c w] eqn:Ep. cbv zeta.
  unfold with_packet_frame_parts, source_address_for_sender. rewrite Ep. cbv zeta.
  rewrite (proj2 (Z.ltb_ge _ _)) by (unfold u8_max; lia). cbn [snd]. by destruct e2e.
Qed.

Definition received (bk : AddressBook) (pkt : Packet) (sh : option MessageElement)
    (ts : list Z) : Packet :=
  {| ty := ty pkt; data_size := data_size pkt;
     sender := sender_name_for_address bk (sender_address_u32 (sender pkt));
     pkt_endpoints := unique_sorted_endpoints (pkt_endpoints pkt);
     timestamp := timestamp pkt; nonce := nonce pkt; payload := payload pkt;
     wire_shape := sh; wire_target_senders_opt := targets_opt ts |}.

(** What a frame needs of the packet, its contract and the receiver's registry. *)
Record deliverable (r : Registry) (pkt : Packet) (reliable : option ReliableHeader)
    (sh : option MessageElement) (ts : list Z) : Prop := {
  dl_packet : packet_ok pkt;
  dl_reliable : reliable_ok reliable;
  dl_not_ack : carries_packet reliable;
  dl_contract : contract_ok sh ts;
  dl_some : pkt_endpoints pkt <> [];
  dl_count : zlen (unique_sorted_endpoints (pkt_endpoints pkt)) <= 255;
  dl_known : endpoints_known r pkt sh ts;
  dl_type : data_type_exists r (ty pkt) = true \/ is_some sh = true;
  dl_valid : validate_payload_against_element we_tuning (effective_element_of r (ty pkt) sh)
               (payload pkt) = Ok tt;
}.

Lemma received_constructed r pkt reliable sh ts bk :
  deliverable r pkt reliable sh ts ->
  new_with_owned_wire_contract r we_tuning (ty pkt) (unique_sorted_endpoints (pkt_endpoints pkt))
    (sender_name_for_address bk (sender_address_u32 (sender pkt))) (timestamp pkt) (nonce pkt)
    (payload pkt) sh (targets_opt ts) = Ok (received bk pkt sh ts).
Proof.
  intros D. unfold new_with_owned_wire_contract, received.
  destruct (unique_sorted_endpoints (pkt_endpoints pkt)) as [|x l] eqn:Eu.
  - exfalso. destruct (pkt_endpoints pkt) as [|y l] eqn:Ee; [by apply (dl_some _ _ _ _ _ D)|].
    assert (y ∈ unique_sorted_endpoints (y :: l)) as Hin by (apply unique_sorted_spec; by left).
    rewrite Eu in Hin. by apply not_elem_of_nil in Hin.
  - rewrite (dl_valid _ _ _ _ _ D). cbn. by destruct (po_size _ (dl_packet _ _ _ _ _ D)) as [-> _].
Qed.

(** Reading back the payload region: [pl] is what followed the header. *)
Lemma unpack_with_payload r pkt reliable sh ts (c : bool) e2e h pl w bk managed adm r' :
  deliverable r pkt reliable sh ts -> admits_all adm ->
  h = header_of pkt reliable sh ts c e2e ->
  (if c then 1 else data_size pkt) <= zlen pl ->
  read_payload_wire (E := set_registry E r) (h ++ pl) (prefix_of pkt reliable sh ts c e2e)
    (at_ h pl) = Ok (w, r') ->
  (if c then decompress w (zlen (payload pkt)) = Ok (payload pkt) else w = payload pkt) ->
  unpack_packet_with_role (E := set_registry E r) bk (join_frame_with_crc h pl) managed adm
  = (Ok (received bk pkt sh ts), adm).
Proof.
  intros D Hadm Hh Hpl Hread Hw. unfold unpack_packet_with_role.
  change (@verify_crc32 (set_registry E r)) with (@verify_crc32 E). rewrite verify_joined.
  destruct (is_empty (h ++ pl)) eqn:Ee.
  { exfalso. rewrite Hh, header_parts in Ee. done. }
  rewrite new_reader_at, Hh.
  rewrite unpack_prefix_header; [|apply D..|done].
  rewrite <- Hh. cbn beta iota.
  rewrite unpack_admission_admits by done. rewrite Hread.
  unfold logical_payload, prefix_of at 1 2. cbn [up_flags up_dsz].
  destruct (flags_of_spec pkt reliable sh ts c e2e) as (-> & _).
  destruct (po_size _ (dl_packet _ _ _ _ _ D)) as [Hsz _].
  destruct c.
  - unfold decompress in *. cbn [zstd_decompress set_registry].
    cbn [prefix_of up_dsz]. rewrite Hsz. destruct (zstd_decompress _ _) as [out|]; [|done].
    destruct (negb _); [done|]. injection Hw as ->. unfold check. rewrite Hadm.
    f_equal. by apply (received_constructed r pkt reliable).
  - cbn [prefix_of up_dsz]. subst w. rewrite Hsz, Z.eqb_refl. cbn [negb].
    f_equal. by apply (received_constructed r pkt reliable).
Qed.

Lemma read_payload_plain r pkt reliable sh ts (c : bool) w :
  packet_ok pkt -> (if c then True else w = payload pkt) ->
  exists r', read_payload_wire (E := set_registry E r) (header_of pkt reliable sh ts c false ++ w)
               (prefix_of pkt reliable sh ts c false)
               (at_ (header_of pkt reliable sh ts c false) w) = Ok (w, r').
Proof.
  intros Hok Hw. unfold read_payload_wire, prefix_of. cbn [up_flags up_dsz].
  destruct (flags_of_spec pkt reliable sh ts c false) as (Hf1 & _ & _ & _ & _ & _ & _ & Hf8 & _).
  rewrite Hf1, Hf8. set (h := header_of _ _ _ _ _ _).
  replace (at_ h w) with (at_ h (w ++ [])) by by rewrite app_nil_r.
  assert (reads (read_bytes (zlen w)) w w) as Hr by by apply reads_bytes.
  destruct c; cbn [negb].
  - rewrite remaining_at. replace (zlen (w ++ [])) with (zlen w) by by rewrite app_nil_r.
    rewrite Hr. eauto.
  - destruct (po_size _ Hok) as [-> _]. subst w. rewrite Hr. eauto.
Qed.

Lemma read_payload_sealed r pkt reliable sh ts c key_id w ct tag cl tl :
  let h := header_of pkt reliable sh ts c true in
  packet_ok pkt -> is_u32 key_id -> zlen w <= zlen (payload pkt) ->
  crypto_seal key_id (e2e_nonce_for_packet pkt) h w = Ok (ct, tag, cl, tl) ->
  let pl := sealed_part key_id (e2e_nonce_for_packet pkt) w ct tag cl tl in
  exists r', read_payload_wire (E := set_registry E r) (h ++ pl)
               (prefix_of pkt reliable sh ts c true) (at_ h pl) = Ok (w, r').
Proof.
  intros h Hok Hk Hw Hseal pl. unfold read_payload_wire, prefix_of. cbn [up_flags up_dsz].
  destruct (flags_of_spec pkt reliable sh ts c true) as (_ & _ & _ & _ & _ & _ & _ & Hf8 & _).
  rewrite Hf8. unfold at_ at 1. cbn [off]. rewrite take_app_length.
  destruct (po_size _ Hok) as [-> Hmax]. pose proof (zlen_nonneg w).
  apply (read_sealed _ _ _ _ _ _ _ _ _ _ Hseal); [done|apply e2e_nonce_length|solve_u|done].
Qed.

Lemma some_ok_inj {A B} (x y : A) (b b' : B) :
  (Some (Ok x), b) = (Some (Ok y), b') -> x = y.
Proof. congruence. Qed.

Lemma frame_roundtrip_core r pkt reliable sh ts e2e allowed book bk managed adm frame book' :
  deliverable r pkt reliable sh ts -> admits_all adm ->
  match e2e with Some key_id => is_u32 key_id | None => True end ->
  joined (with_packet_frame_parts book pkt reliable sh ts e2e allowed) = (Some (Ok frame), book') ->
  unpack_packet_with_role (E := set_registry E r) bk frame managed adm
  = (Ok (received bk pkt sh ts), adm).
Proof.
  intros D Hadm Hk. pose proof (dl_packet _ _ _ _ _ D) as Hok.
  pose proof (frame_parts_spec book pkt reliable sh ts e2e allowed (dl_count _ _ _ _ _ D)) as Hp.
  destruct (payload_for_encoding pkt allowed) as [c w] eqn:Ep.
  apply payload_for_encoding_spec in Ep as Hw. rewrite Hp. unfold joined. cbn [fst snd].
  destruct (po_size _ Hok) as [Hsz _].
  destruct e2e as [key_id|]; cbn [is_some].
  - destruct (write_encrypted_payload _ _ _ _) as [out|] eqn:Eo; [|done].
    apply write_encrypted_spec in Eo as (ct & tag & cl & tl & Hseal & ->).
    cbn [mbind result_bind]. intros <-%some_ok_inj.
    assert (forall a b : bytes, join_frame_with_crc (a ++ b) [] = join_frame_with_crc a b) as ->
      by (intros; unfold join_frame_with_crc; by rewrite app_nil_r, app_nil_l, <- app_assoc).
    destruct (read_payload_sealed r pkt reliable sh ts c key_id w ct tag cl tl) as [r' Hr];
      [done|done|by destruct c; [lia|subst]|done|].
    pose proof (crypto_seal_sizes _ _ _ _ _ _ _ _ Hseal) as (Hct & _ & -> & _).
    pose proof (sealed_part_length key_id (e2e_nonce_for_packet pkt) w ct tag tl Hct).
    eapply unpack_with_payload; [done|done|done| |exact Hr|by destruct c; naive_solver].
    destruct c; [lia|]. subst w. lia.
  - intros <-%some_ok_inj.
    destruct (read_payload_plain r pkt reliable sh ts c w Hok) as [r' Hr]; [by destruct c|].
    eapply unpack_with_payload; [done|done|done| |exact Hr|by destruct c; naive_solver].
    destruct c; [lia|]. subst w. lia.
Qed.

Lemma joined_plain book pkt reliable sh ts allowed :
  zlen (unique_sorted_endpoints (pkt_endpoints pkt)) <= 255 ->
  let '(c, w) := payload_for_encoding pkt allowed in
  joined (with_packet_frame_parts book pkt reliable sh ts None allowed)
  = (Some (Ok (join_frame_with_crc (header_of pkt reliable sh ts c false) w)),
     snd (source_address_for_sender book (sender pkt))).
Proof.
  intros Hn. pose proof (frame_parts_spec book pkt reliable sh ts None allowed Hn) as Hp.
  destruct (payload_for_encoding pkt allowed) as [c w]. by rewrite Hp.
Qed.

Lemma join_size h w : zlen (join_frame_with_crc h w) = zlen h + zlen w + CRC32_BYTES.
Proof.
  unfold join_frame_with_crc. rewrite !zlen_app. unfold zlen at 3. rewrite length_le_bytes.
  unfold CRC32_BYTES. lia.
Qed.

(** The header [pack_packet] attaches. *)
Definition default_header (pkt : Packet) : option ReliableHeader :=
  if is_reliable_type we_registry (ty pkt) then Some unsequenced_header else None.

Lemma default_header_ok pkt :
  reliable_ok (default_header pkt) /\ carries_packet (default_header pkt).
Proof.
  unfold default_header. destruct (is_reliable_type _ _); [|done].
  split; [|done]. repeat split; vm_compute; discriminate.
Qed.

Lemma pack_packet_unfold book pkt :
  pack_packet book pkt = pack_packet_inner book pkt (default_header pkt).
Proof. unfold pack_packet, default_header. by destruct (is_reliable_type _ _). Qed.

Lemma packet_wire_size_spec pkt :
  packet_wire_size pkt
  = scratch_capacity pkt (default_header pkt) (wire_shape pkt) (wire_target_senders pkt)
    + zlen (snd (payload_for_encoding pkt true)) + CRC32_BYTES.
Proof.
  unfold packet_wire_size, scratch_capacity, payload_for_wire, reliable_len, default_header,
    endpoint_bytes_len.
  destruct (payload_for_encoding pkt true) as [c w]. cbn [snd].
  destruct (packet_endpoint_bitmap_present _ _ _), (explicit_endpoint_list _),
    (is_reliable_type _ _); cbn [andb]; lia.
Qed.

(** ** Properties *)

(** C2: a frame packed for a packet, plain or sealed, compressed or not, with any
    contract and any data-carrying reliable header, is read back as that packet
    by a receiver with a possibly different registry: the same type, payload,
    timestamp, nonce, inline shape and targets, the endpoints as the ascending
    set, and the sender as the receiver's book names its address. *)
Theorem frame_roundtrip r pkt reliable sh ts e2e allowed book bk managed adm frame book' :
  deliverable r pkt reliable sh ts -> admits_all adm ->
  match e2e with Some key_id => is_u32 key_id | None => True end ->
  joined (with_packet_frame_parts book pkt reliable sh ts e2e allowed) = (Some (Ok frame), book') ->
  unpack_packet_with_role (E := set_registry E r) bk frame managed adm
  = (Ok (received bk pkt sh ts), adm).
Proof. apply frame_roundtrip_core. Qed.

(** C1: packing a packet with at most 255 distinct endpoints never panics; the
    frame has exactly the predicted [packet_wire_size], its header fills the
    scratch buffer exactly, and unpacking it with the address book the packer
    left returns the packet with its endpoints in ascending order. *)
Theorem pack_packet_roundtrip book pkt adm :
  deliverable we_registry pkt (default_header pkt) (wire_shape pkt) (wire_target_senders pkt) ->
  admits_all adm ->
  book !! sender_address_u32 (sender pkt) = None \/
  book !! sender_address_u32 (sender pkt) = Some (sender pkt) ->
  exists frame book',
    pack_packet book pkt = (Some frame, book') /\
    zlen frame = packet_wire_size pkt /\
    unpack_packet book' frame adm
    = (Ok {| ty := ty pkt; data_size := data_size pkt; sender := sender pkt;
             pkt_endpoints := unique_sorted_endpoints (pkt_endpoints pkt);
             timestamp := timestamp pkt; nonce := nonce pkt; payload := payload pkt;
             wire_shape := wire_shape pkt;
             wire_target_senders_opt := targets_opt (wire_target_senders pkt) |}, adm).
Proof.
  intros D Hadm Hbook.
  pose proof (joined_plain book pkt (default_header pkt) (wire_shape pkt)
    (wire_target_senders pkt) true (dl_count _ _ _ _ _ D)) as Hj.
  pose proof (packet_wire_size_spec pkt) as Hs.
  destruct (payload_for_encoding pkt true) as [c w] eqn:Ep.
  eexists _, _. split; [|split].
  - rewrite pack_packet_unfold. unfold pack_packet_inner, pack_packet_inner_with_contract.
    rewrite Hj. reflexivity.
  - rewrite join_size, header_size by apply D. by rewrite Hs.
  - unfold unpack_packet.
    pose proof (fun bk => frame_roundtrip_core we_registry pkt _ _ _ None true book bk false
      adm _ _ D Hadm I Hj) as Hrt. rewrite set_registry_same in Hrt. rewrite Hrt.
    unfold received. by rewrite sender_name_after.
Qed.

(** The header of a plaintext frame is exactly as long as the scratch buffer
    reserved for it, so the buffer never grows (the packer's [debug_assert]). *)
Theorem header_fills_scratch book pkt reliable sh ts allowed :
  packet_ok pkt -> reliable_ok reliable -> contract_ok sh ts ->
  match with_packet_frame_parts book pkt reliable sh ts None allowed with
  | (Some (Ok (header, _)), _) => zlen header = scratch_capacity pkt reliable sh ts
  | (Some (Err _), _) => False
  | (None, _) => 255 < zlen (unique_sorted_endpoints (pkt_endpoints pkt))
  end.
Proof.
  intros Hok Hr Hc.
  destruct (Z.le_gt_cases (zlen (unique_sorted_endpoints (pkt_endpoints pkt))) 255) as [Hn|Hn].
  - pose proof (frame_parts_spec book pkt reliable sh ts None allowed Hn) as Hp.
    destruct (payload_for_encoding pkt allowed) as [c w]. rewrite Hp. by apply header_size.
  - unfold with_packet_frame_parts, source_address_for_sender.
    destruct (payload_for_encoding pkt allowed) as [c w].
    by rewrite (proj2 (Z.ltb_lt u8_max _)) by (unfold u8_max; lia).
Qed.
End Roundtrip.

(** ** Concrete instances *)

Lemma sample_packet_ok : packet_ok sample_packet.
Proof. split; cbn; [solve_u|split; [done|vm_compute; discriminate]|solve_u|solve_u|]. repeat constructor; solve_u. Qed.

Lemma sample_deliverable h :
  reliable_ok h -> carries_packet h ->
  deliverable sample_registry sample_packet h None [].
Proof.
  intros Hh Hc. split; [apply sample_packet_ok|done|done| |done|done|by vm_compute|by left|done].
  split; [done|]. split; [constructor|]. vm_compute. discriminate.
Qed.

Lemma frame_roundtrip_witness :
  exists frame book',
    joined (with_packet_frame_parts ∅ sample_packet (Some unsequenced_header) None [] (Some 7) true)
      = (Some (Ok frame), book') /\
    unpack_packet_with_role (E := set_registry sample_env sample_registry) ∅ frame false
      no_admission
    = (Ok (received ∅ sample_packet None []), no_admission).
Proof.
  destruct (joined (with_packet_frame_parts ∅ sample_packet (Some unsequenced_header) None []
    (Some 7) true)) as [[[frame|e]|] book'] eqn:E; [|by vm_compute in E..].
  exists frame, book'. split; [done|].
  apply (frame_roundtrip sample_registry sample_packet (Some unsequenced_header) None [] (Some 7)
           true ∅ ∅ false no_admission frame book').
  - apply sample_deliverable; [|done]. repeat split; vm_compute; discriminate.
  - by apply no_probe_admits.
  - solve_u.
  - exact E.
Defined.

Lemma pack_packet_roundtrip_witness :
  exists frame book',
    pack_packet ∅ sample_packet = (Some frame, book') /\
    zlen frame = packet_wire_size sample_packet /\
    unpack_packet book' frame no_admission
    = (Ok {| ty := 100; data_size := 2; sender := str "ROCKET"; pkt_endpoints := [3; 7];
             timestamp := 1000; nonce := 77; payload := [1; 2]; wire_shape := None;
             wire_target_senders_opt := None |}, no_admission).
Proof.
  apply (pack_packet_roundtrip ∅ sample_packet no_admission).
  - apply sample_deliverable; apply default_header_ok.
  - by apply no_probe_admits.
  - by left.
Defined.

Lemma header_fills_scratch_witness :
  match with_packet_frame_parts ∅ sample_packet None None [] None true with
  | (Some (Ok (header, _)), _) => zlen header = scratch_capacity sample_packet None None []
  | _ => False
  end.
Proof.
  pose proof (header_fills_scratch ∅ sample_packet None None [] true sample_packet_ok I) as H.
  destruct (with_packet_frame_parts ∅ sample_packet None None [] None true)
    as [[[[h w]|e]|] b] eqn:E; [|by vm_compute in E..].
  apply H. split; [done|]. split; [constructor|]. vm_compute. discriminate.
Defined.
