(* ===== verification/WirePeek.v ===== *)
(** * Envelopes, frame inspection and header rewriting (src/src/wire_format.rs)

    The decoders that read a frame without owning its payload: the routing
    envelope with its endpoint iterator, the frame information of the reliable
    layer, the packet identifier of a frame, the span of the reliable header
    and its rewriting, the re-encoding of a payload for a side, and the receive
    admission of src/src/memory_admission.rs that inspects frames with them. *)

From S2P Require Import Prelude Varint Schema Packet MemoryAdmission WireEnv WireSample WireReader WireEndpoints WireFrame WireRoundtrip.

Open Scope Z_scope.

(** ** The routing envelope *)

(** The borrowed slices ([endpoint_list], [targets]) are their bytes. *)
Record RoutingEnvelope : Type := {
  re_ty : DataType;
  re_bitmap : list Z;
  re_endpoint_list : option bytes;
  re_schema_endpoints : option (list DataEndpoint);
  re_source_address : Z;
  re_timestamp_ms : Z;
  re_wire_shape : option MessageElement;
  re_is_reliable : bool;
  re_payload_is_empty : bool;
  re_targets : bytes;
  re_has_reliable_header : bool;
}.

(** [as_chunks::<8>().0] decoded as little-endian [u64]. *)
Definition targets_of (targets : bytes) : list Z := chunks_le (length targets / 8) 8 targets.

(** [count_ones] of a 64-bit word. *)
Definition count_ones (w : Z) : Z := zlen (set_bits 64 0 w).

Section Peek.
Context {E : WireEnv}.
Abbreviation reg := we_registry.

(** The contract, without owning the targets. *)
Definition envelope_contract_body : reader (option MessageElement * bytes * bool) :=
  flags ← read_byte;
  shape ← (if has_flag flags CONTRACT_FLAG_SHAPE
           then s ← decode_wire_shape; mret (Some s) else mret None);
  targets ← (if has_flag flags CONTRACT_FLAG_TARGETS then
               count ← read_uleb128;
               n ← lift (ok_or (checked_mul count 8) (Unpack "wire contract target count"));
               read_bytes n
             else mret []);
  left ← get_remaining;
  if negb (left =? 0) then fail_with (Unpack "wire contract trailing bytes")
  else mret (shape, targets, has_flag flags CONTRACT_FLAG_RELIABLE_HEADER).

(** The three ways to name endpoints: the bitmap words, the list bytes and the
    schema default, at most one of them set. *)
Definition envelope_endpoints (flags nep ty_u32 : Z)
    : reader (list Z * option bytes * option (list DataEndpoint)) :=
  if has_flag flags FLAG_ENDPOINT_LIST_PRESENT then
    if has_flag flags FLAG_ENDPOINT_BITMAP_PRESENT
    then fail_with (Unpack "ambiguous endpoint encoding")
    else l ← read_endpoint_list nep; mret (replicate 4 0, Some l, None)
  else if has_flag flags FLAG_ENDPOINT_BITMAP_PRESENT then
    b ← read_bytes EP_BITMAP_BYTES;
    let bitmap := chunks_le 4 8 b in
    if negb (foldr Z.add 0 (map count_ones bitmap) =? nep)
    then fail_with (Unpack "endpoint count mismatch")
    else if negb (forallb (endpoint_exists reg) (bit_indices 64 0 bitmap))
    then fail_with (Unpack "bad endpoint bit set")
    else mret (bitmap, None, None)
  else
    meta ← lift (ok_or (try_get_message_meta reg ty_u32) InvalidType);
    if negb (zlen (unique_sorted_endpoints (mm_endpoints meta)) =? nep)
    then fail_with (Unpack "endpoint count mismatch")
    else mret (replicate 4 0, None, Some (mm_endpoints meta)).

(** A frame without endpoints must be an ACK-only control frame; the header is
    inspected with a reader of its own. *)
Definition check_no_endpoints (flags nep : Z) (is_reliable has_reliable_header : bool)
    : reader unit := fun r =>
  if nep =? 0 then
    if negb is_reliable && negb has_reliable_header then Err EmptyEndpoints
    else match read_reliable_header_encoded (has_flag flags FLAG_COMPACT_RELIABLE_HEADER) r with
         | Err e => Err e
         | Ok (h, _) =>
             if negb (has_flag (rh_flags h) RELIABLE_FLAG_ACK_ONLY) then Err EmptyEndpoints
             else Ok (tt, r)
         end
  else Ok (tt, r).

Definition read_routing_envelope : reader RoutingEnvelope :=
  flags ← read_byte;
  nep ← read_byte;
  ty_v ← read_uleb128;
  dsz ← read_uleb128;
  timestamp_ms ← read_uleb128;
  _ ← (if has_flag flags FLAG_PACKET_NONCE then read_uleb128 else mret 0);
  source_address ← read_uleb_u32 "source address too large";
  ty_u32 ← lift (data_type_id_from_wire ty_v);
  let is_reliable := has_flag flags FLAG_RELIABLE_HEADER_PRESENT in
  '(bitmap, endpoint_list, schema_endpoints) ← envelope_endpoints flags nep ty_u32;
  '(shape, targets, has_rel) ←
     (if has_flag flags FLAG_WIRE_CONTRACT then
        len ← read_uleb128;
        b ← read_bytes len;
        lift (sub_reader envelope_contract_body b)
      else mret (None, [], false));
  _ ← check_no_endpoints flags nep is_reliable has_rel;
  mret {| re_ty := ty_u32; re_bitmap := bitmap; re_endpoint_list := endpoint_list;
          re_schema_endpoints := schema_endpoints; re_source_address := source_address;
          re_timestamp_ms := timestamp_ms; re_wire_shape := shape;
          re_is_reliable := is_reliable; re_payload_is_empty := (dsz =? 0);
          re_targets := targets; re_has_reliable_header := has_rel |}.

(** ** The endpoint iterator *)

Record RoutingEndpointIter : Type := {
  it_word : nat;
  it_bits : Z;
  it_list_offset : nat;
  it_previous : option DataEndpoint;
  it_finished : bool;
}.

Definition endpoints_start (env : RoutingEnvelope) : RoutingEndpointIter :=
  {| it_word := 0; it_bits := nth 0 (re_bitmap env) 0; it_list_offset := 0;
     it_previous := None; it_finished := false |}.

(** [while self.bits == 0]: advance to the next word with a set bit; [None] at
    the end of the bitmap. *)
Fixpoint advance_word (fuel : nat) (bitmap : list Z) (word : nat) (bits : Z)
    : option (nat * Z) :=
  match fuel with
  | O => None
  | S fuel =>
      if bits =? 0 then
        let word := S word in
        if (word =? length bitmap)%nat then None
        else advance_word fuel bitmap word (nth word bitmap 0)
      else Some (word, bits)
  end.

Definition iter_next (env : RoutingEnvelope) (it : RoutingEndpointIter)
    : option DataEndpoint * RoutingEndpointIter :=
  if it_finished it then (None, it)
  else
    let finish := {| it_word := it_word it; it_bits := it_bits it;
                     it_list_offset := it_list_offset it; it_previous := it_previous it;
                     it_finished := true |} in
    match re_endpoint_list env with
    | Some l =>
        if remaining {| buf := l; off := it_list_offset it |} =? 0 then (None, finish)
        else
          let '(res, o) := read_u64 l (it_list_offset it) in
          (match res with Ok id => try_u32 id | Err _ => None end,
           {| it_word := it_word it; it_bits := it_bits it; it_list_offset := o;
              it_previous := it_previous it; it_finished := false |})
    | None =>
        match re_schema_endpoints env with
        | Some eps =>
            let next := next_endpoint eps (it_previous it) in
            (next, {| it_word := it_word it; it_bits := it_bits it;
                      it_list_offset := it_list_offset it; it_previous := next;
                      it_finished := negb (is_some next) |})
        | None =>
            match advance_word (S (length (re_bitmap env))) (re_bitmap env) (it_word it)
                    (it_bits it) with
            | None => (None, finish)
            | Some (word, bits) =>
                (Some (Z.of_nat word * 64 + trailing_zeros 64 0 bits),
                 {| it_word := word; it_bits := Z.land bits (bits - 1);
                    it_list_offset := it_list_offset it; it_previous := it_previous it;
                    it_finished := false |})
            end
        end
    end.

Fixpoint iter_collect (fuel : nat) (env : RoutingEnvelope) (it : RoutingEndpointIter)
    : list DataEndpoint :=
  match fuel with
  | O => []
  | S fuel =>
      match iter_next env it with
      | (None, _) => []
      | (Some ep, it) => ep :: iter_collect fuel env it
      end
  end.

(** Each endpoint takes a byte of the list, an entry of the schema or a bit of the
    bitmap; one more call ends the iteration. *)
Definition iter_fuel (env : RoutingEnvelope) : nat :=
  S (match re_endpoint_list env with Some l => length l | None => 0 end
     + match re_schema_endpoints env with Some l => length l | None => 0 end
     + 64 * length (re_bitmap env)).

Definition routing_endpoints (env : RoutingEnvelope) : list DataEndpoint :=
  iter_collect (iter_fuel env) env (endpoints_start env).

(** ** Owned views *)

Record TelemetryEnvelope : Type := {
  te_ty : DataType;
  te_endpoints : list DataEndpoint;
  te_sender : bytes;
  te_source_address : Z;
  te_timestamp_ms : Z;
  te_wire_shape : option MessageElement;
  te_target_senders : list Z;
}.

Definition into_owned (book : AddressBook) (env : RoutingEnvelope) : TelemetryEnvelope :=
  {| te_ty := re_ty env; te_endpoints := routing_endpoints env;
     te_sender := sender_name_for_address book (re_source_address env);
     te_source_address := re_source_address env; te_timestamp_ms := re_timestamp_ms env;
     te_wire_shape := re_wire_shape env; te_target_senders := targets_of (re_targets env) |}.

Definition peek_routing_envelope (b : bytes) : result RoutingEnvelope :=
  data ← verify_crc32 b; sub_reader read_routing_envelope data.

Definition peek_envelope (book : AddressBook) (b : bytes) : result TelemetryEnvelope :=
  env ← peek_routing_envelope b; Ok (into_owned book env).

Record RoutingFrameInfo : Type := {
  fi_envelope : RoutingEnvelope;
  fi_reliable : option ReliableHeader;
  fi_empty_payload : bool;
}.

(** [RoutingFrameInfo::ack_only] / [TelemetryFrameInfo::ack_only]. *)
Definition header_ack_only (h : option ReliableHeader) : bool :=
  match h with Some h => has_flag (rh_flags h) RELIABLE_FLAG_ACK_ONLY | None => false end.

(** The reliable header behind an envelope, if the frame has one. *)
Definition optional_reliable (flags : Z) (env : RoutingEnvelope)
    : reader (option ReliableHeader) :=
  if re_is_reliable env || re_has_reliable_header env
  then h ← read_reliable_header_encoded (has_flag flags FLAG_COMPACT_RELIABLE_HEADER);
       mret (Some h)
  else mret None.

(** [data[0]]: the flags byte of a frame that has been parsed. *)
Definition flags_byte (data : bytes) : Z := nth 0 data 0.

Definition routing_frame_info (data : bytes) : reader RoutingFrameInfo :=
  env ← read_routing_envelope;
  rel ← optional_reliable (flags_byte data) env;
  left ← get_remaining;
  mret {| fi_envelope := env; fi_reliable := rel;
          fi_empty_payload := re_payload_is_empty env && (left =? 0) |}.

Definition peek_routing_frame_info (b : bytes) : result RoutingFrameInfo :=
  data ← verify_crc32 b; sub_reader (routing_frame_info data) data.

Definition peek_frame_info_inner (book : AddressBook) (data : bytes)
    : result (TelemetryEnvelope * option ReliableHeader) :=
  sub_reader (env ← read_routing_envelope;
              rel ← optional_reliable (flags_byte data) env;
              mret (into_owned book env, rel)) data.

Definition peek_frame_info (book : AddressBook) (b : bytes)
    : result (TelemetryEnvelope * option ReliableHeader) :=
  data ← verify_crc32 b; peek_frame_info_inner book data.

Definition peek_frame_info_unchecked (book : AddressBook) (b : bytes)
    : result (TelemetryEnvelope * option ReliableHeader) :=
  '(data, _) ← split_crc32 b; peek_frame_info_inner book data.

(** The bounded type prefix used for scheduling; not a validation. *)
Definition scheduling_type (b : bytes) : option DataType :=
  match sub_reader (_ ← read_bytes 2; v ← read_uleb128; lift (data_type_id_from_wire v))
          (take (Nat.min (length b) 12) b) with
  | Ok id => Some id
  | Err _ => None
  end.

Definition chunked_schema_source (prefix : bytes) : option Z :=
  match sub_reader read_routing_envelope prefix with
  | Ok env => if re_ty env =? ty_DiscoverySchema then Some (re_source_address env) else None
  | Err _ => None
  end.

(** [prelude]: skip flags, count and type, return the logical payload size. *)
Definition prelude_size : reader Z :=
  _ ← read_bytes 2; _ ← read_uleb128; read_uleb128.

Definition peek_plain_discovery_payload (b : bytes) (expected : DataType)
    : result (option (Z * bytes)) :=
  ty ← sub_reader (_ ← read_bytes 2; v ← read_uleb128; lift (data_type_id_from_wire v)) b;
  if negb (ty =? expected) then Ok None
  else
    data ← verify_crc32 b;
    let flags := flags_byte data in
    sub_reader (
      env ← read_routing_envelope;
      if negb (re_ty env =? expected)
         || negb (Z.land flags (Z.lor FLAG_COMPRESSED_PAYLOAD 16) =? 0)
         || negb (zlen (targets_of (re_targets env)) =? 0)
         || match re_wire_shape env with
            | Some s => negb (bool_decide (s = element (message_meta reg expected)))
            | None => false
            end
      then mret None
      else
        rel ← optional_reliable flags env;
        if match rel with
           | Some h => negb (rh_flags h =? RELIABLE_FLAG_UNSEQUENCED) || negb (rh_seq h =? 0)
                       || negb (rh_ack h =? 0)
           | None => false
           end
        then mret None
        else
          size ← lift (sub_reader prelude_size data);
          left ← get_remaining;
          if negb (left =? size) then fail_with (Unpack "discovery payload length mismatch")
          else p ← read_bytes size; mret (Some (re_source_address env, p))) data.

(** ** Reliable header span and rewriting *)

(** Offset, length and value of the reliable header, read without CRC check. *)
Definition header_span : reader (option (nat * nat * ReliableHeader)) :=
  flags ← read_byte;
  nep ← read_byte;
  ty_v ← read_uleb128;
  _ ← read_uleb128;
  _ ← read_uleb128;
  _ ← (if has_flag flags FLAG_PACKET_NONCE then read_uleb128 else mret 0);
  _ ← read_uleb_u32 "source address too large";
  let bitmap_present := has_flag flags FLAG_ENDPOINT_BITMAP_PRESENT in
  left ← get_remaining;
  if left <? (if bitmap_present then EP_BITMAP_BYTES else 0)
  then fail_with (Unpack "short buffer")
  else
    _ ← (if has_flag flags FLAG_ENDPOINT_LIST_PRESENT then
           if bitmap_present then fail_with (Unpack "ambiguous endpoint encoding")
           else read_endpoint_list nep
         else if bitmap_present then read_bytes EP_BITMAP_BYTES else mret []);
    contract ← decode_wire_contract (has_flag flags FLAG_WIRE_CONTRACT);
    _ ← lift (data_type_id_from_wire ty_v);
    if negb (has_flag flags FLAG_RELIABLE_HEADER_PRESENT)
       && negb (has_reliable_header contract)
    then mret None
    else fun r =>
      match read_reliable_header_encoded (has_flag flags FLAG_COMPACT_RELIABLE_HEADER) r with
      | Ok (h, r') => Ok (Some (off r, (off r' - off r)%nat, h), r')
      | Err e => Err e
      end.

Definition reliable_header_span (b : bytes) : result (option (nat * nat * ReliableHeader)) :=
  if zlen b <? CRC32_BYTES + 1 then Err (Unpack "short prelude")
  else sub_reader header_span (take (length b - 4) b).

Definition reliable_header_offset (b : bytes) : result (option nat) :=
  span ← reliable_header_span b;
  Ok (match span with Some (o, _, _) => Some o | None => None end).

(** [out[0] |= mask] or [out[0] &= !mask]. *)
Definition set_compact_flag (compact : bool) (l : bytes) : bytes :=
  alter (fun f => if compact then Z.lor f FLAG_COMPACT_RELIABLE_HEADER
                  else Z.land f (Z.lxor 255 FLAG_COMPACT_RELIABLE_HEADER)) 0%nat l.

(** In place: the buffer after the call and whether a header was rewritten. *)
Definition rewrite_reliable_header (b : bytes) (flags seq ack : Z) : result (bool * bytes) :=
  span ← reliable_header_span b;
  match span with
  | None => Ok (false, b)
  | Some (o, old_len, _) =>
      let h := {| rh_flags := flags; rh_seq := seq; rh_ack := ack |} in
      let compact := should_compact_reliable_header h in
      let data_len := (length b - 4)%nat in
      if negb (reliable_wire_size h compact =? Z.of_nat old_len)
      then Err (Unpack "reliable header rewrite changes wire size")
      else if (data_len - o <? old_len)%nat then Err (Unpack "short buffer")
      else
        let b := set_compact_flag compact b in
        let encoded := write_reliable_header_encoded h compact in
        let b := take o b ++ encoded ++ drop (o + old_len) b in
        let crc := crc32_bytes (take data_len b) in
        Ok (true, take data_len b ++ le_bytes 4 crc)
  end.

Definition rewrite_reliable_header_owned (b : bytes) (flags seq ack : Z)
    : result (option bytes) :=
  span ← reliable_header_span b;
  match span with
  | None => Ok None
  | Some (o, old_len, _) =>
      let data_len := (length b - 4)%nat in
      if (data_len <? o + old_len)%nat then Err (Unpack "short buffer")
      else
        let h := {| rh_flags := flags; rh_seq := seq; rh_ack := ack |} in
        let compact := should_compact_reliable_header h in
        let encoded := write_reliable_header_encoded h compact in
        let out := set_compact_flag compact (take o b) ++ encoded
                   ++ take (data_len - (o + old_len)) (drop (o + old_len) b) in
        Ok (Some (append_crc32 out))
  end.

(** ** Packet identifiers of frames *)

(** The payload behind the envelope and the reliable header, logical bytes. *)
Definition id_payload (data : bytes) (flags dsz : Z) : reader bytes := fun r =>
  let compressed := has_flag flags FLAG_COMPRESSED_PAYLOAD in
  match
    (if has_flag flags FLAG_E2E_ENCRYPTED_PAYLOAD
     then read_encrypted_payload (take (off r) data) dsz r
     else if negb compressed then
       if remaining r <? dsz then Err (Unpack "short buffer") else read_bytes dsz r
     else if remaining r <? 1 then Err (Unpack "short buffer")
     else read_bytes (remaining r) r)
  with
  | Err e => Err e
  | Ok (w, r) =>
      if compressed then
        match decompress w dsz with Ok p => Ok (p, r) | Err e => Err e end
      else if negb (zlen w =? dsz) then Err (Unpack "payload length mismatch")
      else Ok (w, r)
  end.

Definition packet_id_from_wire (b : bytes) : result Z :=
  data ← verify_crc32 b;
  if zlen data <? 2 then Err (Unpack "short prelude")
  else
    '(flags, dsz, ts_v, nonce, source_address) ←
      sub_reader (flags ← read_byte; _ ← read_byte; _ ← read_uleb128;
                  dsz ← read_uleb128; ts_v ← read_uleb128;
                  nonce ← (if has_flag flags FLAG_PACKET_NONCE
                           then read_uleb_u16 "packet nonce too large" else mret 0);
                  source_address ← read_uleb_u32 "source address too large";
                  mret (flags, dsz, ts_v, nonce, source_address)) data;
    '(env, payload) ←
      sub_reader (env ← read_routing_envelope;
                  rel ← optional_reliable flags env;
                  if header_ack_only rel then fail_with (Unpack "reliable control frame")
                  else p ← id_payload data flags dsz; mret (env, p)) data;
    let h := 11400714819323198485 in
    let h := hash_bytes_u64 h (le_bytes 4 source_address) in
    let h := hash_bytes_u64 h (le_bytes 4 (re_ty env)) in
    let h := foldl (fun h ep => hash_bytes_u64 h (le_bytes 4 ep)) h (routing_endpoints env) in
    let h := hash_bytes_u64 h (le_bytes 8 ts_v) in
    let h := hash_bytes_u64 h (le_bytes 2 nonce) in
    let h := hash_bytes_u64 h (le_bytes 8 dsz) in
    Ok (hash_bytes_u64 h payload).

End Peek.

(** ** The iterator lists the endpoint set *)

(** One round of a bit loop: the first index, and the rest after clearing it. *)
Lemma set_bits_head w n j b :
  0 <= j -> j + Z.of_nat n = Z.of_nat w -> b <> 0 -> 0 <= b < 2 ^ Z.of_nat w ->
  (forall i, 0 <= i < j -> Z.testbit b i = false) ->
  set_bits n j b = trailing_zeros w 0 b :: set_bits n j (Z.land b (b - 1)).
Proof.
  revert j. induction n as [|n IH]; intros j Hj Hw Hb Hr Hlow.
  { exfalso. apply Hb. apply Z.bits_inj'. intros i Hi. rewrite Z.bits_0.
    destruct (Z.lt_ge_cases i j); [by apply Hlow|].
    apply Z.bits_above_log2; [lia|]. apply Z.log2_lt_pow2; [lia|].
    apply Z.lt_le_trans with (2 ^ Z.of_nat w); [lia|]. apply Z.pow_le_mono_r; lia. }
  cbn [set_bits]. destruct (Z.testbit b j) eqn:Ej.
  - rewrite (trailing_zeros_first w 0 j b) by (done || lia).
    rewrite (clear_lowest b j j) by (done || lia). rewrite Z.eqb_refl, andb_false_r. f_equal.
    apply set_bits_clear; [lia|]. intros i Hi. rewrite (clear_lowest b j i) by (done || lia).
    rewrite (proj2 (Z.eqb_neq i j)) by lia. by rewrite andb_true_r.
  - rewrite Z.land_spec, Ej. cbn [andb]. apply IH; [lia..|done|lia|].
    intros i Hi. destruct (decide (i = j)) as [->|]; [done|]. apply Hlow. lia.
Qed.

Abbreviation is_word w := (0 <= w < 2 ^ 64).

(** The indices still ahead of the bitmap iterator. *)
Fixpoint word_indices (i : Z) (l : list Z) : list Z :=
  match l with
  | [] => []
  | w :: l => map (fun t => i * 64 + t) (set_bits 64 0 w) ++ word_indices (i + 1) l
  end.

Definition ahead (bitmap : list Z) (word : nat) (bits : Z) : list Z :=
  map (fun t => Z.of_nat word * 64 + t) (set_bits 64 0 bits)
  ++ word_indices (Z.of_nat word + 1) (drop (S word) bitmap).

Lemma word_indices_bits i l :
  Forall (fun w => is_word w) l -> word_indices i l = bit_indices 64 i l.
Proof.
  intros H. revert i. induction H as [|w l Hw Hl IH]; intros i; [done|].
  cbn [word_indices bit_indices]. rewrite IH. f_equal.
  by rewrite (bits_loop_set_bits 64 64 0 64 w) by (done || lia).
Qed.

Lemma set_bits_zero n k : set_bits n k 0 = [].
Proof. revert k. induction n as [|n IH]; intros k; cbn; [done|]. by rewrite Z.bits_0. Qed.

(** [advance_word] finds the first word with a bit left, or the end. *)
Lemma advance_spec fuel bitmap word bits :
  Forall (fun w => is_word w) bitmap -> is_word bits -> (word < length bitmap)%nat ->
  (length bitmap - word < fuel)%nat ->
  match advance_word fuel bitmap word bits with
  | None => ahead bitmap word bits = []
  | Some (word', bits') =>
      (word' < length bitmap)%nat /\ is_word bits' /\ bits' <> 0 /\
      ahead bitmap word bits = ahead bitmap word' bits'
  end.
Proof.
  intros Hbm. revert word bits. induction fuel as [|fuel IH]; intros word bits Hb Hw Hf; [lia|].
  cbn [advance_word]. destruct (Z.eqb_spec bits 0) as [->|Hne]; [|done].
  destruct (Nat.eqb_spec (S word) (length bitmap)) as [El|El].
  - unfold ahead. by rewrite set_bits_zero, drop_ge by lia.
  - destruct (lookup_lt_is_Some_2 bitmap (S word)) as [w Hlook]; [lia|].
    assert (nth (S word) bitmap 0 = w) as Hn by (by apply nth_lookup_Some with (d := 0) in Hlook).
    rewrite Hn. assert (is_word w).
    { rewrite Forall_forall in Hbm. apply Hbm. by eapply list_elem_of_lookup_2. }
    assert (ahead bitmap word 0 = ahead bitmap (S word) w) as ->.
    { unfold ahead. rewrite set_bits_zero. cbn [map app].
      rewrite (drop_S _ _ _ Hlook). cbn [word_indices].
      replace (Z.of_nat word + 1) with (Z.of_nat (S word)) by lia. done. }
    apply IH; [done|lia|lia].
Qed.

Lemma set_bits_head_64 bits :
  is_word bits -> bits <> 0 ->
  set_bits 64 0 bits = trailing_zeros 64 0 bits :: set_bits 64 0 (Z.land bits (bits - 1)).
Proof.
  intros Hb Hne. apply set_bits_head; [lia|reflexivity|exact Hne|exact Hb|intros; lia].
Qed.

(** The index lists stay abstract: unfolding them would compute 64 bits. *)
Lemma ahead_head bitmap word bits :
  is_word bits -> bits <> 0 ->
  ahead bitmap word bits
  = Z.of_nat word * 64 + trailing_zeros 64 0 bits
    :: ahead bitmap word (Z.land bits (bits - 1)).
Proof.
  intros Hb Hne. pose proof (set_bits_head_64 bits Hb Hne) as H. unfold ahead. revert H.
  generalize (set_bits 64 0 bits) as l0.
  generalize (set_bits 64 0 (Z.land bits (bits - 1))) as l.
  generalize (trailing_zeros 64 0 bits) as t. intros t l l0 ->. reflexivity.
Qed.

#[local] Opaque set_bits trailing_zeros.

Lemma collect_bitmap fuel env it :
  re_endpoint_list env = None -> re_schema_endpoints env = None -> it_finished it = false ->
  Forall (fun w => is_word w) (re_bitmap env) -> is_word (it_bits it) ->
  (it_word it < length (re_bitmap env))%nat ->
  (length (ahead (re_bitmap env) (it_word it) (it_bits it)) < fuel)%nat ->
  iter_collect fuel env it = ahead (re_bitmap env) (it_word it) (it_bits it).
Proof.
  intros Hl Hs. revert it. induction fuel as [|fuel IH]; intros it Hfin Hbm Hb Hw Hf; [lia|].
  cbn [iter_collect]. unfold iter_next. rewrite Hfin, Hl, Hs.
  pose proof (advance_spec (S (length (re_bitmap env))) (re_bitmap env) (it_word it) (it_bits it)
    Hbm Hb Hw ltac:(lia)) as Ha.
  destruct (advance_word _ _ _ _) as [[word bits]|]; [|by rewrite Ha].
  destruct Ha as (Hw' & Hb' & Hne & Heq). rewrite Heq in *.
  rewrite ahead_head in Hf |- * by done. cbn [length] in Hf.
  f_equal. apply IH; cbn [it_word it_bits it_finished]; [done|done| |done|lia].
  apply land_bound; lia.
Qed.

Lemma collect_schema fuel env it eps :
  re_endpoint_list env = None -> re_schema_endpoints env = Some eps -> it_finished it = false ->
  iter_collect fuel env it = unique_sorted_loop fuel eps (it_previous it).
Proof.
  intros Hl Hs. revert it. induction fuel as [|fuel IH]; intros it Hfin; [done|].
  cbn [iter_collect unique_sorted_loop]. unfold iter_next. rewrite Hfin, Hl, Hs.
  destruct (next_endpoint eps (it_previous it)) as [e|]; [|done]. f_equal. by apply IH.
Qed.

Lemma collect_list fuel env it l :
  re_endpoint_list env = Some l -> it_finished it = false ->
  iter_collect fuel env it = endpoint_list_loop fuel {| buf := l; off := it_list_offset it |}.
Proof.
  intros Hl. revert it. induction fuel as [|fuel IH]; intros it Hfin; [done|].
  cbn [iter_collect endpoint_list_loop]. unfold iter_next. rewrite Hfin, Hl.
  destruct (_ =? 0); [done|]. unfold read_uleb128. cbn [buf off].
  destruct (read_u64 l (it_list_offset it)) as [[id|] o]; [|done].
  destruct (try_u32 id); [|done]. f_equal. by rewrite IH.
Qed.

(** The endpoint set an envelope names. *)
Definition endpoint_set (bitmap : list Z) (endpoint_list : option bytes)
    (schema : option (list DataEndpoint)) : list DataEndpoint :=
  match endpoint_list, schema with
  | Some l, _ => endpoint_list_iter l
  | None, Some eps => unique_sorted_endpoints eps
  | None, None => bit_indices 64 0 bitmap
  end.

Lemma length_set_bits n k b : (length (set_bits n k b) <= n)%nat.
Proof.
  revert k. induction n as [|n IH]; intros k; cbn [set_bits]; [done|].
  specialize (IH (k + 1)). destruct (Z.testbit b k); cbn [length]; lia.
Qed.

Lemma length_word_indices i l : (length (word_indices i l) <= 64 * length l)%nat.
Proof.
  revert i. induction l as [|w l IH]; intros i; cbn [word_indices length]; [lia|].
  rewrite length_app, length_map. pose proof (length_set_bits 64 0 w).
  specialize (IH (i + 1)). lia.
Qed.

Lemma routing_endpoints_spec env :
  length (re_bitmap env) = 4%nat -> Forall (fun w => is_word w) (re_bitmap env) ->
  (forall l, re_endpoint_list env = Some l -> exists encs ids, l = concat encs /\ encodes_ids encs ids) ->
  routing_endpoints env
  = endpoint_set (re_bitmap env) (re_endpoint_list env) (re_schema_endpoints env).
Proof.
  intros Hlen Hbm Henc. unfold routing_endpoints, iter_fuel, endpoint_set.
  destruct (re_endpoint_list env) as [l|] eqn:El.
  - rewrite (collect_list _ _ _ l) by done. destruct (Henc l eq_refl) as (encs & ids & -> & H).
    rewrite (endpoint_list_iter_spec _ ids) by done. cbn [it_list_offset endpoints_start].
    change {| buf := concat encs; off := 0 |} with (at_ [] (concat encs)).
    apply endpoint_list_loop_spec; [done|lia].
  - destruct (re_schema_endpoints env) as [eps|] eqn:Es.
    + rewrite (collect_schema _ _ _ eps) by done. cbn [it_previous endpoints_start].
      destruct (unique_sorted_spec eps) as [Hasc Hel].
      destruct (unique_sorted_loop_spec (S (0 + length eps + 64 * length (re_bitmap env))) eps None)
        as [Hasc' Hel'].
      { unfold pending. pose proof (filter_length_le
          (fun e => match @None DataEndpoint with None => true | Some p => p <? e end) eps). lia. }
      apply ascending_unique; [done..|]. intros x. rewrite Hel, Hel'. cbn. naive_solver.
    + destruct (re_bitmap env) as [|w0 bm] eqn:Eb; [done|]. rewrite <- Eb in *.
      assert (is_word w0) as Hw0 by (rewrite Eb in Hbm; by inversion Hbm).
      assert (nth 0 (re_bitmap env) 0 = w0) as Hn by by rewrite Eb.
      assert (ahead (re_bitmap env) 0 w0 = word_indices 0 (re_bitmap env)) as Ha by by rewrite Eb.
      rewrite collect_bitmap; cbn [endpoints_start it_finished it_bits it_word]; rewrite ?Hn, ?Ha;
        [by apply word_indices_bits|done..|lia|].
      pose proof (length_word_indices 0 (re_bitmap env)). lia.
Qed.

(** ** The two contract decoders agree *)

Lemma sub_reader_ok {A} (p : reader A) b a :
  sub_reader p b = Ok a <-> exists r, p (at_ [] b) = Ok (a, r).
Proof.
  unfold sub_reader. rewrite new_reader_at. destruct (p (at_ [] b)) as [[x r]|]; naive_solver.
Qed.

Lemma chunks_targets n enc :
  length enc = (8 * n)%nat -> targets_of enc = chunks_le n 8 enc.
Proof. intros H. unfold targets_of. by rewrite H, Nat.mul_comm, Nat.div_mul. Qed.

Lemma contract_body_agrees b c :
  bytes_ok b -> zlen b <= isize_max -> sub_reader decode_contract_body b = Ok c ->
  exists targets,
    sub_reader envelope_contract_body b = Ok (shape c, targets, has_reliable_header c) /\
    targets_of targets = default [] (target_senders c).
Proof.
  intros Hok Hmax H. apply sub_reader_ok in H as [r H]. unfold decode_contract_body in H.
  apply bind_ok_inv in H as (flags & r1 & H1 & H).
  apply bind_ok_inv in H as (sh & r2 & H2 & H).
  apply bind_ok_inv in H as (ts & r3 & H3 & H).
  apply bind_ok_inv in H as (left & r4 & H4 & H).
  unfold get_remaining in H4. injection H4 as <- <-.
  destruct (negb (remaining r3 =? 0)) eqn:E4; [done|]. injection H as <- <-.
  cbn [shape has_reliable_header target_senders].
  destruct (local_at _ _ _ _ _ local_byte H1) as (p1 & l1 & -> & Hb1).
  assert (local (if has_flag flags CONTRACT_FLAG_SHAPE
                 then s ← decode_wire_shape; mret (Some s) else mret None)) as Hloc
    by eauto with wire.
  destruct (local_at _ _ _ _ _ Hloc H2) as (p2 & l2 & -> & Hb2).
  assert (exists targets, (if has_flag flags CONTRACT_FLAG_TARGETS then
               count ← read_uleb128;
               n ← lift (ok_or (checked_mul count 8) (Unpack "wire contract target count"));
               read_bytes n
             else mret []) (at_ p2 l2) = Ok (targets, r3) /\
             targets_of targets = default [] ts) as (targets & Hrun & Hts).
  { destruct (has_flag flags CONTRACT_FLAG_TARGETS); [|injection H3 as <- <-; by exists []].
    apply bind_ok_inv in H3 as (count & r5 & Hc & H3).
    apply bind_ok_inv in H3 as (left & r6 & Hl & H3).
    unfold get_remaining in Hl. injection Hl as <- <-.
    assert (bytes_ok (buf (at_ p2 l2))) as Hok2 by (unfold at_; cbn [buf]; by rewrite Hb2, Hb1).
    destruct (read_uleb128_range _ _ _ Hok2 Hc) as [Hu _].
    destruct (local_at _ _ _ _ _ local_uleb128 Hc) as (p5 & l5 & -> & Hb5).
    destruct (remaining (at_ p5 l5) / 8 <? count) eqn:Ecnt; [done|]. bool_to_prop.
    rewrite remaining_at in Ecnt.
    assert (zlen l5 <= isize_max).
    { assert (zlen (p5 ++ l5) = zlen b) as Hz by (rewrite Hb5, Hb2, Hb1; done).
      rewrite zlen_app in Hz. pose proof (zlen_nonneg p5). lia. }
    pose proof (Z.mul_div_le (zlen l5) 8 ltac:(lia)).
    rewrite (bind_run _ _ _ _ _ Hc). unfold checked_mul.
    rewrite (proj2 (Z.leb_le _ _)) by solve_u.
    rewrite (bind_lift _ _ _ (count * 8)) by done.
    destruct (count =? 0) eqn:E0.
    - bool_to_prop. subst count. injection H3 as <- <-. exists [].
      pose proof (reads_nothing 0 ltac:(lia) p5 l5) as R. rewrite app_nil_r in R. done.
    - apply bind_ok_inv in H3 as (ts' & r7 & Ht & H3). injection H3 as <- <-.
      apply read_targets_bytes in Ht as (enc & rest & -> & -> & Hlen & ->).
      exists enc. split; [|by apply chunks_targets].
      apply (reads_bytes (count * 8) enc). unfold zlen. rewrite Hlen. solve_u. }
  exists targets. split; [|done]. apply sub_reader_ok. unfold envelope_contract_body. eexists.
  rewrite (bind_run _ _ _ _ _ H1), (bind_run _ _ _ _ _ H2), (bind_run _ _ _ _ _ Hrun).
  unfold get_remaining, mbind, reader_bind. rewrite E4. reflexivity.
Qed.

(** ** The two endpoint decoders agree *)

Lemma word_count i l : zlen (word_indices i l) = foldr Z.add 0 (map count_ones l).
Proof.
  revert i. induction l as [|w l IH]; intros i; cbn [word_indices map foldr]; [done|].
  rewrite zlen_app, IH. unfold count_ones, zlen. by rewrite length_map.
Qed.

Lemma chunks_words b :
  bytes_ok b -> length b = 32%nat ->
  length (chunks_le 4 8 b) = 4%nat /\ Forall (fun w => is_word w) (chunks_le 4 8 b).
Proof.
  intros Hok Hl. split; [done|].
  assert (forall n l, bytes_ok l -> (8 * n <= length l)%nat ->
            Forall (fun w => is_word w) (chunks_le n 8 l)) as H; [|apply H; [done|lia]].
  induction n as [|n IH]; intros l Hlok Hll; cbn [chunks_le]; [constructor|]. constructor.
  - pose proof (from_le_range (take 8 l) ltac:(by apply Forall_take)) as Hr.
    unfold zlen in Hr. rewrite length_take, Nat.min_l in Hr by lia. exact Hr.
  - apply IH; [by apply Forall_drop|]. rewrite length_drop. lia.
Qed.

Section Agree.
Context {E : WireEnv}.

(** Where an envelope gets its endpoints from. *)
Definition envelope_names (bm : list Z) (le : option bytes) (se : option (list DataEndpoint))
    (eps : list DataEndpoint) : Prop :=
  forall env, re_bitmap env = bm -> re_endpoint_list env = le -> re_schema_endpoints env = se ->
    routing_endpoints env = eps.

Lemma endpoints_agree flags nep ty_u32 pre l eps r :
  bytes_ok (pre ++ l) -> 0 <= nep ->
  endpoints_from_wire_or_schema we_registry (has_flag flags FLAG_ENDPOINT_BITMAP_PRESENT)
    (has_flag flags FLAG_ENDPOINT_LIST_PRESENT) (data_type_try_from_u32 we_registry ty_u32) nep
    (at_ pre l) = Ok (eps, r) ->
  exists bm le se, envelope_endpoints flags nep ty_u32 (at_ pre l) = Ok ((bm, le, se), r) /\
    envelope_names bm le se eps /\ ascending eps /\ zlen eps = nep.
Proof.
  intros Hok Hnep. unfold endpoints_from_wire_or_schema, envelope_endpoints.
  assert (length (replicate 4 0) = 4%nat /\ Forall (fun w => is_word w) (replicate 4 0)) as [Hz4 Hz]
    by (split; [done|repeat constructor; lia]).
  destruct (has_flag flags FLAG_ENDPOINT_LIST_PRESENT).
  { destruct (has_flag flags FLAG_ENDPOINT_BITMAP_PRESENT); [done|]. intros H.
    apply bind_ok_inv in H as (b & r1 & Hb & H). rewrite (bind_run _ _ _ _ _ Hb).
    destruct (read_endpoint_list_split _ _ _ _ _ Hb) as (encs & ids & rest & -> & _ & _ & Henc & Hlen & Hasc).
    rewrite (endpoint_list_iter_spec _ ids Henc) in H. cbv zeta in H.
    assert (eps = ids /\ r = r1) as [-> ->].
    { unfold endpoint_arc_from_iter in H. destruct (data_type_try_from_u32 _ _ ≫= _).
      - case_bool_decide as Heq; [injection H as <- <-; by rewrite Heq|].
        apply lift_ok_inv in H as [H ->]. destruct (_ =? _); naive_solver.
      - apply lift_ok_inv in H as [H ->]. destruct (_ =? _); naive_solver. }
    exists (replicate 4 0), (Some (concat encs)), None. split; [done|].
    split; [|split; [done|unfold zlen; lia]].
    intros env Hbm Hle Hse. rewrite routing_endpoints_spec, Hbm, Hle, Hse by
      (rewrite ?Hbm; done || (intros ? ?; simplify_eq/=; eauto)). cbn.
    by apply endpoint_list_iter_spec. }
  destruct (has_flag flags FLAG_ENDPOINT_BITMAP_PRESENT); intros H.
  { apply bind_ok_inv in H as (b & r1 & Hb & H). rewrite (bind_run _ _ _ _ _ Hb).
    apply read_bytes_inv in Hb as (rest & -> & -> & Hlen); [|done].
    apply bind_ok_inv in H as (eps' & r2 & He & H). apply lift_ok_inv in He as [He ->].
    assert (bytes_ok b) as Hbok by (rewrite !Forall_app in Hok; tauto).
    rewrite expand_endpoint_bitmap_spec in He by done.
    destruct (forallb _ _) eqn:Ef; [|done]. injection He as <-.
    destruct (negb (zlen (bitmap_endpoints b) =? nep)) eqn:En; [done|]. injection H as <- <-.
    bool_to_prop.
    destruct (chunks_words b Hbok) as [H4 Hw]; [unfold zlen, EP_BITMAP_BYTES in Hlen; lia|].
    pose proof (word_count 0 (chunks_le 4 8 b)) as Hcount.
    rewrite word_indices_bits, bit_indices_words in Hcount by done.
    cbv zeta. rewrite <- Hcount, (proj2 (Z.eqb_eq _ _) En), bit_indices_words, Ef by done.
    cbn [negb]. exists (chunks_le 4 8 b), None, None. split; [done|].
    split; [|split; [apply set_bits_ascending|done]].
    intros env Hbm Hle Hse. rewrite routing_endpoints_spec, Hbm, Hle, Hse by (rewrite ?Hbm, ?Hle; done).
    by apply bit_indices_words. }
  apply bind_ok_inv in H as (ty & r1 & Ht & H). apply lift_ok_inv in Ht as [Ht ->].
  apply lift_ok_inv in H as [H ->]. apply ok_or_ok in Ht. unfold data_type_try_from_u32 in Ht.
  destruct (data_type_exists we_registry ty_u32) eqn:Eex; [|done]. injection Ht as <-.
  apply data_type_exists_try in Eex as [meta Hmeta]. rewrite Hmeta.
  pose proof (schema_endpoints_spec we_registry ty_u32 nep) as Hs. cbv zeta in Hs.
  unfold message_meta in Hs. rewrite Hs, (try_get_get _ _ _ Hmeta) in H.
  unfold endpoint_arc_from_iter in H. destruct (_ =? nep) eqn:En; [|done]. injection H as <-.
  rewrite (bind_lift _ _ _ meta) by done. rewrite En. cbn [negb].
  exists (replicate 4 0), None, (Some (mm_endpoints meta)). split; [done|]. bool_to_prop.
  split; [|split; [apply unique_sorted_spec|done]].
  intros env Hbm Hle Hse. rewrite routing_endpoints_spec, Hbm, Hle, Hse by (rewrite ?Hbm, ?Hle; done).
  done.
Qed.

(** ** A frame the unpacker accepts, field by field *)

Lemma unpack_prefix_inv r0 u r :
  unpack_prefix r0 = Ok (u, r) ->
  exists r1 r2 ty_v r3 r4 r5 r6 r7 r8 r9,
    read_byte r0 = Ok (up_flags u, r1) /\ read_byte r1 = Ok (up_nep u, r2) /\
    read_uleb128 r2 = Ok (ty_v, r3) /\ read_uleb128 r3 = Ok (up_dsz u, r4) /\
    read_uleb128 r4 = Ok (up_timestamp u, r5) /\
    (if has_flag (up_flags u) FLAG_PACKET_NONCE
     then read_uleb_u16 "packet nonce too large" else mret 0) r5 = Ok (up_nonce u, r6) /\
    read_uleb_u32 "source address too large" r6 = Ok (up_source u, r7) /\
    data_type_id_from_wire ty_v = Ok (up_ty u) /\
    endpoints_from_wire_or_schema we_registry
      (has_flag (up_flags u) FLAG_ENDPOINT_BITMAP_PRESENT)
      (has_flag (up_flags u) FLAG_ENDPOINT_LIST_PRESENT)
      (data_type_try_from_u32 we_registry (up_ty u)) (up_nep u) r7
      = Ok (up_endpoints u, r8) /\
    decode_wire_contract (has_flag (up_flags u) FLAG_WIRE_CONTRACT) r8 = Ok (up_contract u, r9) /\
    (if has_flag (up_flags u) FLAG_RELIABLE_HEADER_PRESENT
        || has_reliable_header (up_contract u)
     then h ← read_reliable_header_encoded (has_flag (up_flags u) FLAG_COMPACT_RELIABLE_HEADER);
          mret (Some h)
     else mret None) r9 = Ok (up_reliable u, r) /\
    header_ack_only (up_reliable u) = false.
Proof.
  unfold unpack_prefix. intros H.
  apply bind_ok_inv in H as (flags & r1 & H1 & H). apply bind_ok_inv in H as (nep & r2 & H2 & H).
  apply bind_ok_inv in H as (ty_v & r3 & H3 & H). apply bind_ok_inv in H as (dsz & r4 & H4 & H).
  apply bind_ok_inv in H as (ts & r5 & H5 & H). apply bind_ok_inv in H as (nonce & r6 & H6 & H).
  apply bind_ok_inv in H as (src & r7 & H7 & H). apply bind_ok_inv in H as (ty_u32 & r7' & H8 & H).
  apply lift_ok_inv in H8 as [H8 ->]. cbv zeta in H.
  apply bind_ok_inv in H as (left & r7' & Hl & H). unfold get_remaining in Hl.
  injection Hl as <- <-. destruct (remaining r7 <? _) eqn:Eneed; [done|].
  apply bind_ok_inv in H as (eps & r8 & H9 & H). apply bind_ok_inv in H as (c & r9 & H10 & H).
  apply bind_ok_inv in H as (ty & r9' & Ht & H). apply lift_ok_inv in Ht as [Ht ->].
  apply bind_ok_inv in H as (rel & r10 & H11 & H). injection H as <- <-.
  cbn [up_flags up_nep up_dsz up_timestamp up_nonce up_source up_ty up_endpoints up_contract
    up_reliable].
  assert (ty = ty_u32) as ->.
  { apply ok_or_ok in Ht. unfold data_type_try_from_u32 in Ht. destruct (data_type_exists _ _);
      [naive_solver|]. destruct (shape c); naive_solver. }
  exists r1, r2, ty_v, r3, r4, r5, r6, r7, r8, r9.
  destruct (has_flag flags FLAG_RELIABLE_HEADER_PRESENT || has_reliable_header c).
  - apply bind_ok_inv in H11 as (h & r11 & Hh & H11). rewrite (bind_run _ _ _ _ _ Hh).
    destruct (has_flag (rh_flags h) RELIABLE_FLAG_ACK_ONLY) eqn:Ea; [done|].
    injection H11 as <- <-. by split_and!.
  - injection H11 as <- <-. by split_and!.
Qed.

Lemma u16_uleb msg r v r' :
  read_uleb_u16 msg r = Ok (v, r') -> read_uleb128 r = Ok (v, r').
Proof.
  unfold read_uleb_u16. intros H. apply bind_ok_inv in H as (w & r1 & Hw & H).
  apply lift_ok_inv in H as [H ->]. apply ok_or_ok in H. unfold try_u16 in H.
  destruct (w <=? u16_max); [|done]. by injection H as <-.
Qed.

Lemma contract_agrees present pre l c r :
  bytes_ok (pre ++ l) -> zlen (pre ++ l) <= isize_max ->
  decode_wire_contract present (at_ pre l) = Ok (c, r) ->
  exists targets,
    (if present then
        len ← read_uleb128; b ← read_bytes len; lift (sub_reader envelope_contract_body b)
      else mret (None, [], false)) (at_ pre l)
    = Ok ((shape c, targets, has_reliable_header c), r) /\
    targets_of targets = default [] (target_senders c).
Proof.
  intros Hok Hmax. unfold decode_wire_contract. destruct present; cbn [negb]; intros H.
  - apply bind_ok_inv in H as (len & r1 & Hlen & H). apply bind_ok_inv in H as (b & r2 & Hb & H).
    apply lift_ok_inv in H as [H ->].
    rewrite (bind_run _ _ _ _ _ Hlen), (bind_run _ _ _ _ _ Hb).
    destruct (read_uleb128_range (at_ pre l) len r1 Hok Hlen) as [Hu _].
    destruct (local_at _ _ _ _ _ local_uleb128 Hlen) as (p1 & l1 & -> & Hb1).
    apply read_bytes_inv in Hb as (rest & -> & -> & Hbl); [|solve_u].
    rewrite <- Hb1 in Hok, Hmax. rewrite !Forall_app in Hok. rewrite !zlen_app in Hmax.
    destruct (contract_body_agrees b c) as (targets & Hrun & Hts); [tauto| |done|].
    { pose proof (zlen_nonneg p1). pose proof (zlen_nonneg rest). lia. }
    exists targets. split; [|done]. by rewrite Hrun.
  - injection H as <- <-. by exists [].
Qed.

Lemma read_byte_inv pre l b r :
  read_byte (at_ pre l) = Ok (b, r) -> exists rest, l = b :: rest /\ r = at_ (pre ++ [b]) rest.
Proof.
  unfold read_byte. intros H. apply bind_ok_inv in H as (x & r1 & Hx & H).
  apply read_bytes_inv in Hx as (rest & -> & -> & Hl); [|lia]. injection H as <- <-.
  destruct x as [|y [|z x]]; unfold zlen in Hl; cbn in Hl; try lia. by exists rest.
Qed.

(** The envelope of an accepted frame: the same fields as the unpacker read. *)
Record same_envelope (env : RoutingEnvelope) (u : UnpackPrefix) : Prop := {
  se_ty : re_ty env = up_ty u;
  se_endpoints : routing_endpoints env = up_endpoints u;
  se_source : re_source_address env = up_source u;
  se_timestamp : re_timestamp_ms env = up_timestamp u;
  se_shape : re_wire_shape env = shape (up_contract u);
  se_targets : targets_of (re_targets env) = default [] (target_senders (up_contract u));
}.

Lemma envelope_agrees data u r :
  bytes_ok data -> zlen data <= isize_max -> unpack_prefix (at_ [] data) = Ok (u, r) ->
  up_endpoints u <> [] ->
  exists env r9,
    read_routing_envelope (at_ [] data) = Ok (env, r9) /\
    optional_reliable (up_flags u) env r9 = Ok (up_reliable u, r) /\
    same_envelope env u /\ ascending (up_endpoints u) /\
    header_ack_only (up_reliable u) = false.
Proof.
  intros Hok Hmax H Hne.
  apply unpack_prefix_inv in H as (r1 & r2 & ty_v & r3 & r4 & r5 & r6 & r7 & r8 & r9 &
    H1 & H2 & H3 & H4 & H5 & H6 & H7 & Hty & Heps & Hc & Hrel & Hack).
  assert (exists v, (if has_flag (up_flags u) FLAG_PACKET_NONCE then read_uleb128 else mret 0) r5
            = Ok (v, r6)) as [v Hnonce].
  { destruct (has_flag _ FLAG_PACKET_NONCE); [by apply u16_uleb in H6; eauto|].
    injection H6 as _ <-. by exists 0. }
  assert (exists p7 l7, r7 = at_ p7 l7 /\ p7 ++ l7 = data) as (p7 & l7 & -> & E7).
  { destruct (local_at _ _ _ _ _ local_byte H1) as (p1 & l1 & -> & E1).
    destruct (local_at _ _ _ _ _ local_byte H2) as (p2 & l2 & -> & E2).
    destruct (local_at _ _ _ _ _ local_uleb128 H3) as (p3 & l3 & -> & E3).
    destruct (local_at _ _ _ _ _ local_uleb128 H4) as (p4 & l4 & -> & E4).
    destruct (local_at _ _ _ _ _ local_uleb128 H5) as (p5 & l5 & -> & E5).
    assert (local (if has_flag (up_flags u) FLAG_PACKET_NONCE then read_uleb128 else mret 0))
      as Hln by eauto with wire.
    destruct (local_at _ _ _ _ _ Hln Hnonce) as (p6 & l6 & -> & E6).
    destruct (local_at _ _ _ _ _ (local_uleb_u32 _) H7) as (p7 & l7 & -> & E7).
    exists p7, l7. split; [done|]. by rewrite E7, E6, E5, E4, E3, E2, E1. }
  assert (0 <= up_nep u) as Hnep.
  { apply read_byte_inv in H1 as (l1 & -> & ->). apply read_byte_inv in H2 as (l2 & -> & ->).
    rewrite !Forall_cons in Hok. destruct Hok as (_ & Hn & _). solve_u. }
  destruct (endpoints_agree (up_flags u) (up_nep u) (up_ty u) p7 l7 (up_endpoints u) r8)
    as (bm & le & se & Hrun & Hnames & Hasc & Hcount); [by rewrite E7|done|done|].
  destruct (local_at _ _ _ _ _ (local_endpoints _ _ _ _ _) Heps) as (p8 & l8 & -> & E8).
  destruct (contract_agrees (has_flag (up_flags u) FLAG_WIRE_CONTRACT) p8 l8 (up_contract u) r9)
    as (targets & Hcrun & Hts); [by rewrite E8, E7|by rewrite E8, E7|done|].
  unfold read_routing_envelope.
  rewrite (bind_run _ _ _ _ _ H1), (bind_run _ _ _ _ _ H2), (bind_run _ _ _ _ _ H3),
    (bind_run _ _ _ _ _ H4), (bind_run _ _ _ _ _ H5), (bind_run _ _ _ _ _ Hnonce),
    (bind_run _ _ _ _ _ H7), (bind_lift _ _ _ _ Hty).
  cbv zeta. rewrite (bind_run _ _ _ _ _ Hrun). cbn beta iota.
  rewrite (bind_run _ _ _ _ _ Hcrun). cbn beta iota.
  assert (up_nep u <> 0) as Hn0.
  { rewrite <- Hcount. destruct (up_endpoints u); [done|]. unfold zlen. cbn. lia. }
  rewrite (bind_run _ _ _ tt r9)
    by (unfold check_no_endpoints; by rewrite (proj2 (Z.eqb_neq _ _) Hn0)).
  eexists _, r9. split; [reflexivity|]. split; [|split; [|done]].
  - unfold optional_reliable. cbn [re_is_reliable re_has_reliable_header]. exact Hrel.
  - split; cbn [re_ty re_source_address re_timestamp_ms re_wire_shape re_targets]; try done.
    by apply Hnames.
Qed.

Lemma unpack_ok_inv book b managed adm p adm' :
  unpack_packet_with_role book b managed adm = (Ok p, adm') ->
  exists data u r w r' pl adm1,
    verify_crc32 b = Ok data /\ data <> [] /\ unpack_prefix (at_ [] data) = Ok (u, r) /\
    read_payload_wire data u r = Ok (w, r') /\ fst (logical_payload u w adm1) = Ok pl /\
    new_with_owned_wire_contract we_registry we_tuning (up_ty u) (up_endpoints u)
      (sender_name_for_address book (up_source u)) (up_timestamp u) (up_nonce u) pl
      (shape (up_contract u)) (target_senders (up_contract u)) = Ok p.
Proof.
  unfold unpack_packet_with_role. destruct (verify_crc32 b) as [data|]; [|done].
  destruct (is_empty data) eqn:Ee; [done|]. rewrite new_reader_at.
  destruct (unpack_prefix (at_ [] data)) as [[u r]|] eqn:Eu; [|done].
  destruct (unpack_admission _ _ _ _ _) as [[[]|] adm1]; [|done].
  destruct (read_payload_wire data u r) as [[w r']|] eqn:Ew; [|done].
  destruct (logical_payload u w adm1) as [[pl|] adm2] eqn:El; [|done]. intros [= H _].
  exists data, u, r, w, r', pl, adm1. split_and!; try done; [by intros ->|by rewrite El].
Qed.

Lemma constructed_fields reg tun t eps snd ts n pl sh tg p :
  new_with_owned_wire_contract reg tun t eps snd ts n pl sh tg = Ok p ->
  eps <> [] /\ validate_payload_against_element tun (effective_element_of reg t sh) pl = Ok tt /\
  p = {| ty := t; data_size := zlen pl; sender := snd; pkt_endpoints := eps; timestamp := ts;
         nonce := n; payload := pl; wire_shape := sh; wire_target_senders_opt := tg |}.
Proof.
  unfold new_with_owned_wire_contract. destruct eps; [done|]. rewrite result_bind_ok.
  intros ([] & Hv & [= <-]). done.
Qed.

Lemma logical_payload_inv u w adm pl :
  fst (logical_payload u w adm) = Ok pl ->
  zlen pl = up_dsz u /\
  (if has_flag (up_flags u) FLAG_COMPRESSED_PAYLOAD
   then decompress w (up_dsz u) = Ok pl else w = pl).
Proof.
  unfold logical_payload. destruct (has_flag _ _).
  - destruct (decompress w (up_dsz u)) as [d|] eqn:Ed; [|done].
    destruct (check _ _ _) as [[[]|] adm']; [|done]. intros [= ->]. split; [|done].
    unfold decompress in Ed. destruct (zstd_decompress w (up_dsz u)); [|done].
    destruct (negb _) eqn:En; [done|]. injection Ed as ->. by bool_to_prop.
  - destruct (negb _) eqn:En; [done|]. intros [= ->]. by bool_to_prop.
Qed.

Lemma read_uleb_u32_range pre l v r msg :
  bytes_ok (pre ++ l) -> read_uleb_u32 msg (at_ pre l) = Ok (v, r) -> is_u32 v.
Proof.
  intros Hok H. unfold read_uleb_u32 in H. apply bind_ok_inv in H as (w & r1 & Hw & H).
  apply lift_ok_inv in H as [H ->]. apply ok_or_ok, try_u32_some in H as [-> Hle].
  destruct (read_uleb128_range (at_ pre l) w _ Hok Hw) as [Hu _]. solve_u.
Qed.

(** The cursor in front of the endpoints, and the ranges of the fields. *)
Lemma prefix_ranges data u r :
  bytes_ok data -> unpack_prefix (at_ [] data) = Ok (u, r) ->
  is_u32 (up_source u) /\ exists pre l, r = at_ pre l /\ pre ++ l = data.
Proof.
  intros Hok H.
  apply unpack_prefix_inv in H as (r1 & r2 & ty_v & r3 & r4 & r5 & r6 & r7 & r8 & r9 &
    H1 & H2 & H3 & H4 & H5 & H6 & H7 & Hty & Heps & Hc & Hrel & Hack).
  destruct (local_at _ _ _ _ _ local_byte H1) as (p1 & l1 & -> & E1).
  destruct (local_at _ _ _ _ _ local_byte H2) as (p2 & l2 & -> & E2).
  destruct (local_at _ _ _ _ _ local_uleb128 H3) as (p3 & l3 & -> & E3).
  destruct (local_at _ _ _ _ _ local_uleb128 H4) as (p4 & l4 & -> & E4).
  destruct (local_at _ _ _ _ _ local_uleb128 H5) as (p5 & l5 & -> & E5).
  destruct (fun Hl => local_at _ _ _ _ _ Hl H6) as (p6 & l6 & -> & E6); [eauto with wire|].
  destruct (local_at _ _ _ _ _ (local_uleb_u32 _) H7) as (p7 & l7 & -> & E7).
  destruct (local_at _ _ _ _ _ (local_endpoints _ _ _ _ _) Heps) as (p8 & l8 & -> & E8).
  destruct (local_at _ _ _ _ _ (local_wire_contract _) Hc) as (p9 & l9 & -> & E9).
  destruct (fun Hl => local_at _ _ _ _ _ Hl Hrel) as (p & l & -> & E10); [eauto with wire|].
  assert (p6 ++ l6 = data) as E6' by (by rewrite E6, E5, E4, E3, E2, E1).
  split; [eapply read_uleb_u32_range; [|exact H7]; by rewrite E6'|].
  exists p, l. split; [done|]. by rewrite E10, E9, E8, E7.
Qed.

(** The payload of the identifier is the payload the unpacker read. *)
Lemma id_payload_agrees {L : WireEnvLaws E} data u r w r' adm pl pre l :
  r = at_ pre l ->
  read_payload_wire data u r = Ok (w, r') -> fst (logical_payload u w adm) = Ok pl ->
  (has_flag (up_flags u) FLAG_COMPRESSED_PAYLOAD = true -> pl <> []) ->
  exists r'', id_payload data (up_flags u) (up_dsz u) r = Ok (pl, r'').
Proof.
  intros -> Hw Hl Hne. apply logical_payload_inv in Hl as [Hlen Hl].
  unfold id_payload. unfold read_payload_wire in Hw.
  destruct (has_flag (up_flags u) FLAG_E2E_ENCRYPTED_PAYLOAD).
  { rewrite Hw. destruct (has_flag (up_flags u) FLAG_COMPRESSED_PAYLOAD); [rewrite Hl; eauto|].
    subst w. rewrite Hlen, Z.eqb_refl. cbn. eauto. }
  destruct (has_flag (up_flags u) FLAG_COMPRESSED_PAYLOAD) eqn:Ec; cbn [negb] in *.
  - rewrite remaining_at in *. destruct (Z.ltb_spec (zlen l) 1) as [H1|H1].
    + exfalso. apply Hne; [done|]. assert (l = []) as ->
        by (destruct l; [done|unfold zlen in H1; cbn in H1; lia]).
      apply read_bytes_inv in Hw as (rest & Hnil & _ & _); [|done].
      symmetry in Hnil. apply app_nil in Hnil as [-> _]. unfold decompress in Hl.
      destruct (zstd_decompress [] (up_dsz u)) as [out|] eqn:Ez; [|done].
      apply zstd_decompress_empty in Ez as ->. destruct (negb _); [done|]. by injection Hl as <-.
    + rewrite Hw, Hl. eauto.
  - assert (0 <= up_dsz u) by (rewrite <- Hlen; apply zlen_nonneg).
    pose proof Hw as Hw'. apply read_bytes_inv in Hw' as (rest & -> & _ & Hz); [|done].
    rewrite remaining_at, zlen_app, (proj2 (Z.ltb_ge _ _)) by (pose proof (zlen_nonneg rest); lia).
    rewrite Hw, Hz, Z.eqb_refl. subst w. cbn. eauto.
Qed.

Lemma verify_crc_bytes b data :
  bytes_ok b -> verify_crc32 b = Ok data -> bytes_ok data /\ zlen data <= zlen b.
Proof.
  intros Hb H. apply verify_crc_inv in H; [|done]. split.
  - rewrite H in Hb. by apply Forall_app in Hb as [? _].
  - rewrite H, zlen_app. pose proof (zlen_nonneg (le_bytes 4 (crc32_bytes data))). lia.
Qed.

(** The identifier reader's own prefix. *)
Lemma id_prefix_agrees data u r :
  unpack_prefix (at_ [] data) = Ok (u, r) ->
  sub_reader (flags ← read_byte; _ ← read_byte; _ ← read_uleb128;
              dsz ← read_uleb128; ts_v ← read_uleb128;
              nonce ← (if has_flag flags FLAG_PACKET_NONCE
                       then read_uleb_u16 "packet nonce too large" else mret 0);
              source_address ← read_uleb_u32 "source address too large";
              mret (flags, dsz, ts_v, nonce, source_address)) data
  = Ok (up_flags u, up_dsz u, up_timestamp u, up_nonce u, up_source u).
Proof.
  intros H.
  apply unpack_prefix_inv in H as (r1 & r2 & ty_v & r3 & r4 & r5 & r6 & r7 & r8 & r9 &
    H1 & H2 & H3 & H4 & H5 & H6 & H7 & _).
  apply sub_reader_ok. eexists.
  rewrite (bind_run _ _ _ _ _ H1), (bind_run _ _ _ _ _ H2), (bind_run _ _ _ _ _ H3),
    (bind_run _ _ _ _ _ H4), (bind_run _ _ _ _ _ H5), (bind_run _ _ _ _ _ H6),
    (bind_run _ _ _ _ _ H7). reflexivity.
Qed.

(** ** Properties *)

(** C33: whatever bytes arrive, an unpacked packet is well formed: the frame was
    its data followed by the data's CRC-32, the packet passes [validate], its
    endpoint list is non-empty and strictly ascending, and its recorded size is
    the length of its payload. *)
Theorem unpack_sound book b managed adm p adm' :
  bytes_ok b -> zlen b <= isize_max ->
  unpack_packet_with_role book b managed adm = (Ok p, adm') ->
  (exists data, b = data ++ le_bytes 4 (crc32_bytes data)) /\
  validate we_registry we_tuning p = Ok tt /\
  pkt_endpoints p <> [] /\ ascending (pkt_endpoints p) /\
  data_size p = zlen (payload p).
Proof.
  intros Hb Hmax H.
  apply unpack_ok_inv in H as (data & u & r & w & r' & pl & adm1 & Hcrc & _ & Hu & Hw & Hl & Hp).
  destruct (verify_crc_bytes b data Hb Hcrc) as [Hd Hdl].
  apply constructed_fields in Hp as (Hne & Hv & ->).
  destruct (envelope_agrees data u r Hd ltac:(lia) Hu Hne) as (_ & _ & _ & _ & _ & Hasc & _).
  cbn [pkt_endpoints data_size payload]. split; [exists data; by apply verify_crc_inv|].
  split; [|done]. unfold validate, effective_element. cbn. rewrite Z.eqb_refl. cbn [negb].
  by destruct (up_endpoints u).
Qed.

(** For every frame the unpacker accepts, the envelope decoder accepts it
    too and shows the packet's own type, endpoints, sender, timestamp, inline
    shape and target senders. *)
Theorem peek_envelope_agrees book b managed adm p adm' :
  bytes_ok b -> zlen b <= isize_max ->
  unpack_packet_with_role book b managed adm = (Ok p, adm') ->
  exists env, peek_envelope book b = Ok env /\
    te_ty env = ty p /\ te_endpoints env = pkt_endpoints p /\ te_sender env = sender p /\
    te_timestamp_ms env = timestamp p /\ te_wire_shape env = wire_shape p /\
    te_target_senders env = wire_target_senders p.
Proof.
  intros Hb Hmax H.
  apply unpack_ok_inv in H as (data & u & r & w & r' & pl & adm1 & Hcrc & _ & Hu & Hw & Hl & Hp).
  destruct (verify_crc_bytes b data Hb Hcrc) as [Hd Hdl].
  apply constructed_fields in Hp as (Hne & Hv & ->).
  destruct (envelope_agrees data u r Hd ltac:(lia) Hu Hne)
    as (env & r9 & Henv & _ & [S1 S2 S3 S4 S5 S6] & _).
  exists (into_owned book env). split.
  - unfold peek_envelope, peek_routing_envelope. rewrite Hcrc. cbn [mbind result_bind].
    by rewrite (proj2 (sub_reader_ok _ _ _) (ex_intro _ r9 Henv)).
  - unfold into_owned, wire_target_senders.
    cbn [te_ty te_endpoints te_sender te_timestamp_ms te_wire_shape te_target_senders ty
      pkt_endpoints sender timestamp wire_shape wire_target_senders_opt].
    by rewrite S1, S2, S3, S4, S5, S6.
Qed.

(** For every frame the unpacker accepts, the identifier computed from the
    bytes is the identifier of the packet, given an address book whose names
    hash to their addresses (and a payload that is not empty when it travels
    compressed). *)
Theorem packet_id_from_wire_agrees {L : WireEnvLaws E} book b managed adm p adm' :
  bytes_ok b -> zlen b <= isize_max -> book_ok book ->
  unpack_packet_with_role book b managed adm = (Ok p, adm') ->
  (has_flag (flags_byte b) FLAG_COMPRESSED_PAYLOAD = true -> payload p <> []) ->
  packet_id_from_wire b = Ok (packet_id p).
Proof.
  intros Hb Hmax Hbook H Hcomp.
  apply unpack_ok_inv in H as (data & u & r & w & r' & pl & adm1 & Hcrc & _ & Hu & Hw & Hl & Hp).
  destruct (verify_crc_bytes b data Hb Hcrc) as [Hd Hdl].
  apply constructed_fields in Hp as (Hne & Hv & ->).
  destruct (envelope_agrees data u r Hd ltac:(lia) Hu Hne)
    as (env & r9 & Henv & Hrel & [S1 S2 S3 _ _ _] & Hasc & Hack).
  destruct (prefix_ranges data u r Hd Hu) as [Hsrc (pre & l & Hr & _)].
  assert (flags_byte b = up_flags u /\ 2 <= zlen data) as [Hfb Hd2].
  { pose proof Hu as Hu'. apply unpack_prefix_inv in Hu' as (r1 & r2 & ty_v & r3 & r4 & r5 & r6 & r7 &
      r8 & r9' & H1 & H2 & _). apply read_byte_inv in H1 as (l1 & -> & ->).
    apply read_byte_inv in H2 as (l2 & -> & ->).
    apply verify_crc_inv in Hcrc; [|done]. rewrite Hcrc. split; [done|].
    unfold zlen. cbn [length]. lia. }
  destruct (id_payload_agrees data u r w r' adm1 pl pre l Hr Hw Hl) as [r'' Hid].
  { intros Hc. apply Hcomp. by rewrite Hfb. }
  unfold packet_id_from_wire. rewrite Hcrc, result_bind_run.
  rewrite (proj2 (Z.ltb_ge _ _) Hd2), (id_prefix_agrees data u r Hu), result_bind_run.
  cbn beta iota.
  rewrite (proj2 (sub_reader_ok _ data (env, pl))).
  2: { eexists. rewrite (bind_run _ _ _ _ _ Henv), (bind_run _ _ _ _ _ Hrel), Hack.
       rewrite (bind_run _ _ _ _ _ Hid). reflexivity. }
  rewrite result_bind_run. cbn beta iota zeta.
  apply logical_payload_inv in Hl as [Hlen _].
  unfold packet_id, packet_id_header. cbn [sender ty pkt_endpoints timestamp nonce data_size payload].
  rewrite sender_name_address by done.
  rewrite (proj2 (strictly_ascending_spec _) Hasc), S1, S2, <- Hlen. reflexivity.
Qed.
End Agree.

(** ** Concrete instances *)

(** The sample packet's frame. *)
Definition sample_frame : bytes :=
  match fst (pack_packet ∅ sample_packet) with Some b => b | None => [] end.

Definition sample_book : AddressBook := snd (pack_packet ∅ sample_packet).

Lemma bytes_ok_dec (l : bytes) :
  forallb (fun b => (0 <=? b) && (b <=? u8_max)) l = true -> bytes_ok l.
Proof.
  intros H. rewrite forallb_forall in H. apply Forall_forall. intros b Hb.
  apply list_elem_of_In, H in Hb. bool_to_prop. split; lia.
Qed.

Lemma sample_frame_ok : bytes_ok sample_frame /\ zlen sample_frame <= isize_max.
Proof. split; [apply bytes_ok_dec; by vm_compute|by vm_compute]. Qed.

Lemma unpack_sound_witness :
  exists p, unpack_packet_with_role sample_book sample_frame false no_admission
            = (Ok p, no_admission) /\
    validate sample_registry sample_tuning p = Ok tt /\ pkt_endpoints p <> [].
Proof.
  destruct (unpack_packet_with_role sample_book sample_frame false no_admission)
    as [[p|e] a] eqn:E; [|by vm_compute in E].
  destruct (unpack_sound sample_book sample_frame false no_admission p a) as (_ & Hv & Hne & _);
    [apply sample_frame_ok..|exact E|].
  assert (a = no_admission) as -> by (vm_compute in E; by injection E).
  exists p. split; [reflexivity|split; [exact Hv|exact Hne]].
Defined.

Lemma peek_envelope_agrees_witness :
  exists env, peek_envelope sample_book sample_frame = Ok env /\ te_ty env = 100 /\
    te_endpoints env = [3; 7] /\ te_sender env = str "ROCKET".
Proof.
  destruct (unpack_packet_with_role sample_book sample_frame false no_admission)
    as [[p|e] a] eqn:E; [|by vm_compute in E].
  destruct (peek_envelope_agrees sample_book sample_frame false no_admission p a)
    as (env & Henv & H1 & H2 & H3 & _); [apply sample_frame_ok..|exact E|].
  exists env. split; [exact Henv|]. rewrite H1, H2, H3.
  vm_compute in E. injection E as <- _. repeat split; reflexivity.
Defined.

Lemma packet_id_from_wire_agrees_witness :
  packet_id_from_wire sample_frame = Ok (packet_id sample_packet).
Proof.
  destruct (unpack_packet_with_role sample_book sample_frame false no_admission)
    as [[p|e] a] eqn:E; [|by vm_compute in E].
  rewrite (packet_id_from_wire_agrees sample_book sample_frame false no_admission p a).
  - vm_compute in E. injection E as <- _. reflexivity.
  - apply sample_frame_ok.
  - apply sample_frame_ok.
  - assert (sample_book = snd (source_address_for_sender ∅ (str "ROCKET"))) as Hb
      by (vm_compute; reflexivity).
    rewrite Hb. apply remember_ok, book_ok_empty.
  - exact E.
  - intros Hc. vm_compute in Hc. discriminate.
Defined.
