(* ===== verification/WireRewrite.v ===== *)
(** * Rewriting frames in flight (src/src/wire_format.rs)

    Relays change a frame without decoding it: the reliable header is replaced,
    in place or in a new buffer.  An accepted frame is taken apart into a
    [Layout], the encodings of its header fields, and put together again with
    another reliable header.  The ACK-only control frames, which carry no packet,
    are at the end. *)

From S2P Require Import Prelude Varint Schema Packet MemoryAdmission WireEnv WireSample WireReader WireEndpoints WireFrame WireRoundtrip WirePeek.

Open Scope Z_scope.

(** ** Layouts *)

Record Layout : Type := {
  ly_ty : bytes;
  ly_dsz : bytes;
  ly_ts : bytes;
  ly_nonce : bytes;
  ly_src : bytes;
  ly_eps : bytes;
  ly_contract : bytes;
}.

Definition layout_rest (nep : Z) (ly : Layout) : bytes :=
  nep :: ly_ty ly ++ ly_dsz ly ++ ly_ts ly ++ ly_nonce ly ++ ly_src ly ++ ly_eps ly
  ++ ly_contract ly.

Section Rewrite.
Context {E : WireEnv}.

(** The header in front of the reliable header, for the fields of [u]. *)
Record layout_ok (ly : Layout) (u : UnpackPrefix) : Prop := {
  lo_ty : exists ty_v, reads read_uleb128 (ly_ty ly) ty_v /\
                       data_type_id_from_wire ty_v = Ok (up_ty u);
  lo_dsz : reads read_uleb128 (ly_dsz ly) (up_dsz u);
  lo_ts : reads read_uleb128 (ly_ts ly) (up_timestamp u);
  lo_nonce : reads (if has_flag (up_flags u) FLAG_PACKET_NONCE
                    then read_uleb_u16 "packet nonce too large" else mret 0)
               (ly_nonce ly) (up_nonce u);
  lo_src : reads (read_uleb_u32 "source address too large") (ly_src ly) (up_source u);
  lo_eps : reads (endpoints_from_wire_or_schema we_registry
                    (has_flag (up_flags u) FLAG_ENDPOINT_BITMAP_PRESENT)
                    (has_flag (up_flags u) FLAG_ENDPOINT_LIST_PRESENT)
                    (data_type_try_from_u32 we_registry (up_ty u)) (up_nep u))
             (ly_eps ly) (up_endpoints u);
  lo_contract : reads (decode_wire_contract (has_flag (up_flags u) FLAG_WIRE_CONTRACT))
                  (ly_contract ly) (up_contract u);
  lo_known : data_type_try_from_u32 we_registry (up_ty u) = None ->
             is_some (shape (up_contract u)) = true;
}.

Definition has_rel (u : UnpackPrefix) : bool :=
  has_flag (up_flags u) FLAG_RELIABLE_HEADER_PRESENT || has_reliable_header (up_contract u).

(** The reliable header part of a frame with the fields of [u]. *)
Definition rel_ok (rel : bytes) (u : UnpackPrefix) : Prop :=
  if has_rel u then
    exists h, reads (read_reliable_header_encoded (has_flag (up_flags u) FLAG_COMPACT_RELIABLE_HEADER))
                rel h /\
              up_reliable u = Some h /\ has_flag (rh_flags h) RELIABLE_FLAG_ACK_ONLY = false
  else rel = [] /\ up_reliable u = None.

Definition layout_head (u : UnpackPrefix) (ly : Layout) : bytes :=
  up_flags u :: layout_rest (up_nep u) ly.

Lemma unpack_prefix_known r0 u r :
  unpack_prefix r0 = Ok (u, r) ->
  data_type_try_from_u32 we_registry (up_ty u) = None -> is_some (shape (up_contract u)) = true.
Proof.
  unfold unpack_prefix. intros H.
  apply bind_ok_inv in H as (flags & r1 & _ & H). apply bind_ok_inv in H as (nep & r2 & _ & H).
  apply bind_ok_inv in H as (ty_v & r3 & _ & H). apply bind_ok_inv in H as (dsz & r4 & _ & H).
  apply bind_ok_inv in H as (ts & r5 & _ & H). apply bind_ok_inv in H as (nonce & r6 & _ & H).
  apply bind_ok_inv in H as (src & r7 & _ & H). apply bind_ok_inv in H as (ty_u32 & r8 & _ & H).
  cbv zeta in H. apply bind_ok_inv in H as (left & r9 & _ & H).
  destruct (left <? _); [done|].
  apply bind_ok_inv in H as (eps & r10 & _ & H). apply bind_ok_inv in H as (c & r11 & _ & H).
  apply bind_ok_inv in H as (ty & r12 & Ht & H). apply lift_ok_inv in Ht as [Ht _].
  apply bind_ok_inv in H as (rel & r13 & _ & H). injection H as <- <-.
  cbn [up_ty up_contract]. apply ok_or_ok in Ht.
  assert (ty = ty_u32) as ->.
  { unfold data_type_try_from_u32 in Ht. destruct (data_type_exists _ _); [naive_solver|].
    destruct (shape c); naive_solver. }
  intros Hn. rewrite Hn in Ht. by destruct (shape c).
Qed.

Lemma unpack_prefix_layout data u r :
  unpack_prefix (at_ [] data) = Ok (u, r) ->
  exists ly rel pl, data = layout_head u ly ++ rel ++ pl /\
    r = at_ (layout_head u ly ++ rel) pl /\ layout_ok ly u /\ rel_ok rel u.
Proof.
  intros H. pose proof (unpack_prefix_known _ _ _ H) as Hknown.
  apply unpack_prefix_inv in H as (r1 & r2 & ty_v & r3 & r4 & r5 & r6 & r7 & r8 & r9 &
    H1 & H2 & H3 & H4 & H5 & H6 & H7 & Hty & Heps & Hc & Hrel & Hack).
  apply read_byte_inv in H1 as (l1 & -> & ->). apply read_byte_inv in H2 as (l2 & -> & ->).
  apply local_uleb128 in H3 as (e3 & l3 & -> & -> & R3).
  apply local_uleb128 in H4 as (e4 & l4 & -> & -> & R4).
  apply local_uleb128 in H5 as (e5 & l5 & -> & -> & R5).
  destruct (fun L : local _ => L _ _ _ _ H6) as (e6 & l6 & -> & -> & R6); [eauto with wire|].
  apply local_uleb_u32 in H7 as (e7 & l7 & -> & -> & R7).
  apply local_endpoints in Heps as (e8 & l8 & -> & -> & R8).
  apply local_wire_contract in Hc as (e9 & l9 & -> & -> & R9).
  exists {| ly_ty := e3; ly_dsz := e4; ly_ts := e5; ly_nonce := e6; ly_src := e7;
            ly_eps := e8; ly_contract := e9 |}.
  assert (exists rel pl, l9 = rel ++ pl /\
    r = at_ (((((((((([] ++ [up_flags u]) ++ [up_nep u]) ++ e3) ++ e4) ++ e5) ++ e6) ++ e7)
              ++ e8) ++ e9) ++ rel) pl /\ rel_ok rel u) as (rel & pl & -> & -> & Hok).
  { unfold rel_ok. fold (has_rel u) in Hrel. destruct (has_rel u).
    - apply bind_ok_inv in Hrel as (h & r10 & Hh & H). injection H as Hu <-.
      apply local_reliable_header in Hh as (e10 & pl & -> & -> & R10).
      exists e10, pl. split; [done|]. split; [done|]. exists h. rewrite <- Hu in Hack.
      by split_and!.
    - injection Hrel as Hu <-. exists [], l9. by rewrite app_nil_r. }
  exists rel, pl. unfold layout_head, layout_rest.
  cbn [ly_ty ly_dsz ly_ts ly_nonce ly_src ly_eps ly_contract].
  split; [by rewrite <- !app_comm_cons, <- !app_assoc|].
  split; [by rewrite <- !app_assoc; cbn [app]; rewrite <- !app_assoc|].
  split; [|done]. split; eauto.
Qed.

(** Putting a frame together again. *)
Lemma layout_unpack_prefix u ly rel pl :
  layout_ok ly u -> rel_ok rel u ->
  (let eb := if has_flag (up_flags u) FLAG_ENDPOINT_BITMAP_PRESENT then EP_BITMAP_BYTES else 0 in
   let need := if negb (has_flag (up_flags u) FLAG_COMPRESSED_PAYLOAD)
               then wrap64 (eb + up_dsz u) else eb + 1 in
   need <= zlen (ly_eps ly) + zlen (ly_contract ly) + zlen rel + zlen pl) ->
  unpack_prefix (at_ [] (layout_head u ly ++ rel ++ pl))
  = Ok (u, at_ (layout_head u ly ++ rel) pl).
Proof.
  intros [(ty_v & Rty & Hty) Rd Rts Rn Rs Re Rc Hknown] Hrel Hneed.
  unfold unpack_prefix, layout_head, layout_rest.
  rewrite (cons_app1 (up_flags u)), (cons_app1 (up_nep u)), <- !app_assoc.
  rewrite (bind_reads _ _ _ _ _ _ (reads_byte _)), (bind_reads _ _ _ _ _ _ (reads_byte _)).
  rewrite (bind_reads _ _ _ _ _ _ Rty), (bind_reads _ _ _ _ _ _ Rd),
    (bind_reads _ _ _ _ _ _ Rts), (bind_reads _ _ _ _ _ _ Rn), (bind_reads _ _ _ _ _ _ Rs).
  rewrite (bind_lift _ _ _ _ Hty). cbv zeta. rewrite bind_get_remaining.
  rewrite (proj2 (Z.ltb_ge _ _)) by (rewrite !zlen_app, !Z.add_assoc; exact Hneed).
  rewrite (bind_reads _ _ _ _ _ _ Re), (bind_reads _ _ _ _ _ _ Rc).
  rewrite (bind_lift _ _ _ (up_ty u)).
  2: { unfold data_type_try_from_u32 in *. destruct (data_type_exists _ _); [done|].
       specialize (Hknown eq_refl). by destruct (shape (up_contract u)). }
  erewrite bind_reads with (enc := rel) (v := up_reliable u).
  2: { unfold rel_ok in Hrel. fold (has_rel u). destruct (has_rel u).
       - destruct Hrel as (h & Rh & -> & Ha). eapply reads_map; [exact Rh|].
         rewrite Ha. apply reads_ret.
       - destruct Hrel as [-> ->]. apply reads_ret. }
  unfold mret, reader_ret. f_equal. rewrite <- !app_assoc. cbn [app].
  by destruct u.
Qed.

(** ** The span of the reliable header *)

Definition endpoint_bytes_reader (flags nep : Z) : reader bytes :=
  if has_flag flags FLAG_ENDPOINT_LIST_PRESENT then
    if has_flag flags FLAG_ENDPOINT_BITMAP_PRESENT
    then fail_with (Unpack "ambiguous endpoint encoding") else read_endpoint_list nep
  else if has_flag flags FLAG_ENDPOINT_BITMAP_PRESENT then read_bytes EP_BITMAP_BYTES
  else mret [].

Lemma at_inj pre l pre' l' : at_ pre l = at_ pre' l' -> pre = pre' /\ l = l'.
Proof. unfold at_. intros H. injection H as Hb Hl. by apply app_inj_1. Qed.

(** A first step that fixes where the whole reader stops. *)
Lemma reads_first {A B} (p : reader A) (k : A -> reader B) e v :
  local p -> (forall a r b r', k a r = Ok (b, r') -> r' = r) ->
  reads (p ≫= k) e v -> exists a, reads p e a.
Proof.
  intros Hp Hk H. specialize (H [] []). rewrite app_nil_r in H.
  apply bind_ok_inv in H as (a & r1 & Ha & H). apply Hk in H.
  apply Hp in Ha as (enc & rest & He & -> & R). cbn [app] in H.
  apply at_inj in H as [-> _]. by exists a.
Qed.

Lemma reads_endpoint_bytes reg bm lp ty nep e v flags :
  has_flag flags FLAG_ENDPOINT_LIST_PRESENT = lp ->
  has_flag flags FLAG_ENDPOINT_BITMAP_PRESENT = bm ->
  reads (endpoints_from_wire_or_schema reg bm lp ty nep) e v ->
  exists x, reads (endpoint_bytes_reader flags nep) e x.
Proof.
  intros Hl Hb. unfold endpoints_from_wire_or_schema, endpoint_bytes_reader. rewrite Hl, Hb.
  destruct lp, bm; intros H.
  - by specialize (H [] []).
  - eapply reads_first in H; [done|apply local_endpoint_list|].
    intros a r b r'. cbv zeta. destruct (ty ≫= _); [case_bool_decide|];
      [by intros [= _ <-]|by intros [_ ->]%lift_ok_inv..].
  - eapply reads_first in H; [done|apply local_bytes|].
    intros a r b r' Hk. apply bind_ok_inv in Hk as (eps & r1 & He & Hk).
    apply lift_ok_inv in He as [_ ->]. destruct (negb _); [done|]. by injection Hk as _ <-.
  - exists []. specialize (H [] []). rewrite app_nil_r in H.
    apply bind_ok_inv in H as (t & r1 & Ht & H). apply lift_ok_inv in Ht as [_ ->].
    apply lift_ok_inv in H as [_ H]. apply at_inj in H as [_ <-]. apply reads_ret.
Qed.

Lemma bitmap_in_layout u e x :
  reads (endpoint_bytes_reader (up_flags u) (up_nep u)) e x ->
  (if has_flag (up_flags u) FLAG_ENDPOINT_BITMAP_PRESENT then EP_BITMAP_BYTES else 0) <= zlen e.
Proof.
  intros Rx. specialize (Rx [] []). rewrite app_nil_r in Rx. unfold endpoint_bytes_reader in Rx.
  destruct (has_flag (up_flags u) FLAG_ENDPOINT_BITMAP_PRESENT); [|apply zlen_nonneg].
  destruct (has_flag (up_flags u) FLAG_ENDPOINT_LIST_PRESENT); [done|].
  apply read_bytes_inv in Rx as (rest & Hr & Hat & Hl); [|done].
  apply at_inj in Hat as [Hat _]. cbn [app] in Hat. rewrite Hat. lia.
Qed.

Lemma header_span_layout u ly rel pl :
  layout_ok ly u -> rel_ok rel u ->
  sub_reader header_span (layout_head u ly ++ rel ++ pl)
  = Ok (match up_reliable u with
        | Some h => Some (length (layout_head u ly), length rel, h)
        | None => None
        end).
Proof.
  intros [(ty_v & Rty & Hty) Rd Rts Rn Rs Re Rc _] Hrel.
  destruct (reads_endpoint_bytes _ _ _ _ _ _ _ (up_flags u) eq_refl eq_refl Re) as [x Rx].
  pose proof (bitmap_in_layout _ _ _ Rx) as Hlen.
  assert (exists n, reads (if has_flag (up_flags u) FLAG_PACKET_NONCE then read_uleb128
                           else mret 0) (ly_nonce ly) n) as [n Rn'].
  { destruct (has_flag _ FLAG_PACKET_NONCE).
    - eapply reads_first in Rn; [done|apply local_uleb128|]. by intros a r b r' [_ ->]%lift_ok_inv.
    - exists 0. specialize (Rn [] []). rewrite app_nil_r in Rn. injection Rn as _ _ Rn.
      destruct (ly_nonce ly); [apply reads_ret|done]. }
  apply sub_reader_ok. exists (at_ (layout_head u ly ++ rel) pl). unfold header_span, layout_head, layout_rest.
  rewrite (cons_app1 (up_flags u)), (cons_app1 (up_nep u)), <- !app_assoc.
  rewrite (bind_reads _ _ _ _ _ _ (reads_byte _)), (bind_reads _ _ _ _ _ _ (reads_byte _)).
  rewrite (bind_reads _ _ _ _ _ _ Rty), (bind_reads _ _ _ _ _ _ Rd),
    (bind_reads _ _ _ _ _ _ Rts), (bind_reads _ _ _ _ _ _ Rn'), (bind_reads _ _ _ _ _ _ Rs).
  cbv zeta. rewrite bind_get_remaining.
  rewrite (proj2 (Z.ltb_ge _ _)).
  2: { rewrite zlen_app. pose proof (zlen_nonneg (ly_contract ly ++ rel ++ pl)). lia. }
  fold (endpoint_bytes_reader (up_flags u) (up_nep u)).
  rewrite (bind_reads _ _ _ _ _ _ Rx), (bind_reads _ _ _ _ _ _ Rc).
  rewrite (bind_lift _ _ _ _ Hty).
  unfold rel_ok, has_rel in Hrel.
  destruct (has_flag (up_flags u) FLAG_RELIABLE_HEADER_PRESENT),
    (has_reliable_header (up_contract u)); cbn [orb andb negb] in *;
    [destruct Hrel as (h & Rh & -> & _); rewrite Rh..|].
  4: { destruct Hrel as [-> ->]. rewrite app_nil_r. cbn [app]. by rewrite <- !app_assoc. }
  all: rewrite <- !app_assoc; cbn [app]; unfold at_; cbn [off]; rewrite <- ?app_assoc;
    cbn [app]; do 2 f_equal; rewrite ?length_app; cbn [length];
    rewrite ?length_app; apply f_equal, f_equal2; [apply f_equal2; lia|done].
Qed.

(** ** The flags byte *)

Definition compact_flags (compact : bool) (f : Z) : Z :=
  if compact then Z.lor f FLAG_COMPACT_RELIABLE_HEADER
  else Z.land f (Z.lxor 255 FLAG_COMPACT_RELIABLE_HEADER).

Lemma set_compact_flag_cons compact f l :
  set_compact_flag compact (f :: l) = compact_flags compact f :: l.
Proof. done. Qed.

Definition compact_flags_check (f : Z) : bool :=
  forallb (fun c => Bool.eqb (has_flag (compact_flags c f) FLAG_COMPACT_RELIABLE_HEADER) c
    && (0 <=? compact_flags c f) && (compact_flags c f <=? u8_max)
    && forallb (fun x => Bool.eqb (has_flag (compact_flags c f) x) (has_flag f x))
         [FLAG_COMPRESSED_PAYLOAD; FLAG_WIRE_CONTRACT; FLAG_PACKET_NONCE;
          FLAG_ENDPOINT_LIST_PRESENT; FLAG_ENDPOINT_BITMAP_PRESENT;
          FLAG_RELIABLE_HEADER_PRESENT; FLAG_E2E_ENCRYPTED_PAYLOAD]) [true; false].

Lemma compact_flags_checked :
  forallb compact_flags_check (map Z.of_nat (seq 0 256)) = true.
Proof. vm_compute. reflexivity. Qed.

(** Only the compact bit of the flags byte changes. *)
Lemma compact_flags_spec c f :
  is_u8 f ->
  has_flag (compact_flags c f) FLAG_COMPACT_RELIABLE_HEADER = c /\ is_u8 (compact_flags c f) /\
  forall x, In x [FLAG_COMPRESSED_PAYLOAD; FLAG_WIRE_CONTRACT; FLAG_PACKET_NONCE;
          FLAG_ENDPOINT_LIST_PRESENT; FLAG_ENDPOINT_BITMAP_PRESENT;
          FLAG_RELIABLE_HEADER_PRESENT; FLAG_E2E_ENCRYPTED_PAYLOAD] ->
    has_flag (compact_flags c f) x = has_flag f x.
Proof.
  intros Hf. assert (compact_flags_check f = true) as H.
  { pose proof compact_flags_checked as Hall. rewrite forallb_forall in Hall. apply Hall.
    apply in_map_iff. exists (Z.to_nat f). split; [solve_u|]. apply in_seq. solve_u. }
  unfold compact_flags_check in H. rewrite forallb_forall in H.
  specialize (H c ltac:(destruct c; cbn; auto)). rewrite !andb_true_iff in H.
  destruct H as [[[H1 H2] H3] H4]. apply Bool.eqb_prop in H1. split; [done|].
  split; [bool_to_prop; split; lia|]. rewrite forallb_forall in H4. intros x Hx.
  by apply Bool.eqb_prop, H4.
Qed.

(** The fields of a frame whose reliable header is replaced by [h]. *)
Definition rewritten (u : UnpackPrefix) (h : ReliableHeader) : UnpackPrefix :=
  let c := should_compact_reliable_header h in
  {| up_flags := compact_flags c (up_flags u); up_nep := up_nep u; up_dsz := up_dsz u;
     up_timestamp := up_timestamp u; up_nonce := up_nonce u; up_source := up_source u;
     up_ty := up_ty u; up_endpoints := up_endpoints u; up_contract := up_contract u;
     up_reliable := Some (decoded_header h c) |}.

Lemma rewritten_layout u ly h :
  is_u8 (up_flags u) -> layout_ok ly u -> layout_ok ly (rewritten u h).
Proof.
  intros Hf [L1 L2 L3 L4 L5 L6 L7 L8].
  destruct (compact_flags_spec (should_compact_reliable_header h) _ Hf) as (_ & _ & Hx).
  split; cbn [rewritten up_flags up_ty up_dsz up_timestamp up_nonce up_source up_endpoints
    up_contract up_nep]; try done; rewrite ?Hx by (cbn; tauto); done.
Qed.

Lemma rewritten_rel u h :
  is_u8 (up_flags u) -> has_rel u = true -> header_ok h ->
  has_flag (rh_flags h) RELIABLE_FLAG_ACK_ONLY = false ->
  rel_ok (write_reliable_header_encoded h (should_compact_reliable_header h)) (rewritten u h).
Proof.
  intros Hf Hrel Hh Ha.
  destruct (compact_flags_spec (should_compact_reliable_header h) _ Hf) as (Hc & _ & Hx).
  unfold rel_ok, has_rel in *.
  cbn [rewritten up_flags up_contract up_reliable]. rewrite Hx by (cbn; tauto). rewrite Hrel, Hc.
  eexists. split; [by apply reads_reliable_header|]. split; [done|]. by apply decoded_not_ack.
Qed.

(** ** The payload behind another header *)

Lemma payload_moved {L : WireEnvLaws E} data data' u u' pre pre' pl w r' :
  has_flag (up_flags u) FLAG_E2E_ENCRYPTED_PAYLOAD = false ->
  has_flag (up_flags u') FLAG_E2E_ENCRYPTED_PAYLOAD = false ->
  has_flag (up_flags u') FLAG_COMPRESSED_PAYLOAD = has_flag (up_flags u) FLAG_COMPRESSED_PAYLOAD ->
  up_dsz u' = up_dsz u ->
  read_payload_wire data u (at_ pre pl) = Ok (w, r') ->
  exists r'', read_payload_wire data' u' (at_ pre' pl) = Ok (w, r'').
Proof.
  intros He He' Hc Hd. unfold read_payload_wire. rewrite He, He', Hc, Hd, !remaining_at.
  intros H. assert (forall n, read_bytes n (at_ pre pl) = Ok (w, r') ->
                    exists r'', read_bytes n (at_ pre' pl) = Ok (w, r'')) as Hn.
  { intros n Hb. apply local_bytes in Hb as (enc & rest & -> & _ & R). rewrite (R pre' rest). eauto. }
  destruct (negb _); by apply Hn.
Qed.

Lemma logical_payload_admits u u' w adm adm1 pl :
  admits_all adm -> up_dsz u' = up_dsz u ->
  has_flag (up_flags u') FLAG_COMPRESSED_PAYLOAD = has_flag (up_flags u) FLAG_COMPRESSED_PAYLOAD ->
  fst (logical_payload u w adm1) = Ok pl -> logical_payload u' w adm = (Ok pl, adm).
Proof.
  intros Hadm Hd Hc H. apply logical_payload_inv in H as [Hl H]. unfold logical_payload.
  rewrite Hc, Hd. clear Hc. destruct (has_flag _ FLAG_COMPRESSED_PAYLOAD).
  - rewrite H. unfold check. by rewrite Hadm.
  - by rewrite H, Hl, Z.eqb_refl.
Qed.

(** The size pre-check of the unpacker holds for a frame whose payload was read. *)
Lemma layout_need data u ly rel pl w r' pre :
  layout_ok ly u -> rel_ok rel u -> has_rel u = true ->
  read_payload_wire data u (at_ pre pl) = Ok (w, r') ->
  has_flag (up_flags u) FLAG_E2E_ENCRYPTED_PAYLOAD = false ->
  0 <= up_dsz u -> zlen pl <= isize_max ->
  (let eb := if has_flag (up_flags u) FLAG_ENDPOINT_BITMAP_PRESENT then EP_BITMAP_BYTES else 0 in
   let need := if negb (has_flag (up_flags u) FLAG_COMPRESSED_PAYLOAD)
               then wrap64 (eb + up_dsz u) else eb + 1 in
   need <= zlen (ly_eps ly) + zlen (ly_contract ly) + zlen rel + zlen pl).
Proof.
  intros Hly Hrel Hhas Hw He Hd Hmax eb.
  destruct (reads_endpoint_bytes _ _ _ _ _ _ _ (up_flags u) eq_refl eq_refl (lo_eps _ _ Hly))
    as [x Rx].
  pose proof (bitmap_in_layout _ _ _ Rx) as Hlen. fold eb in Hlen.
  assert (0 <= eb <= 32) as Heb.
  { unfold eb. destruct (has_flag (up_flags u) FLAG_ENDPOINT_BITMAP_PRESENT);
      unfold EP_BITMAP_BYTES; lia. }
  clearbody eb.
  assert (1 <= zlen rel) as H1.
  { unfold rel_ok in Hrel. rewrite Hhas in Hrel. destruct Hrel as (h & Rh & _).
    destruct rel; [|unfold zlen; cbn [length]; lia]. specialize (Rh [] []).
    by destruct (has_flag _ FLAG_COMPACT_RELIABLE_HEADER). }
  pose proof (zlen_nonneg (ly_contract ly)). pose proof (zlen_nonneg pl).
  unfold read_payload_wire in Hw. rewrite He in Hw.
  destruct (has_flag _ FLAG_COMPRESSED_PAYLOAD); cbn [negb] in *; [lia|].
  apply read_bytes_inv in Hw as (rest & -> & _ & Hl); [|done].
  rewrite zlen_app in *. pose proof (zlen_nonneg rest).
  rewrite wrap64_small; [lia|]. solve_u.
Qed.

(** The size pre-check of the unpacker, in terms of the layout. *)
Definition prefix_fits (u : UnpackPrefix) (ly : Layout) (rel pl : bytes) : Prop :=
  let eb := if has_flag (up_flags u) FLAG_ENDPOINT_BITMAP_PRESENT then EP_BITMAP_BYTES else 0 in
  let need := if negb (has_flag (up_flags u) FLAG_COMPRESSED_PAYLOAD)
              then wrap64 (eb + up_dsz u) else eb + 1 in
  need <= zlen (ly_eps ly) + zlen (ly_contract ly) + zlen rel + zlen pl.

Lemma unpack_prefix_fits u ly rel pl x :
  layout_ok ly u -> unpack_prefix (at_ [] (layout_head u ly ++ rel ++ pl)) = Ok x ->
  prefix_fits u ly rel pl.
Proof.
  intros [(ty_v & Rty & Hty) Rd Rts Rn Rs _ _ _]. unfold unpack_prefix, layout_head, layout_rest.
  rewrite (cons_app1 (up_flags u)), (cons_app1 (up_nep u)), <- !app_assoc.
  rewrite (bind_reads _ _ _ _ _ _ (reads_byte _)), (bind_reads _ _ _ _ _ _ (reads_byte _)).
  rewrite (bind_reads _ _ _ _ _ _ Rty), (bind_reads _ _ _ _ _ _ Rd),
    (bind_reads _ _ _ _ _ _ Rts), (bind_reads _ _ _ _ _ _ Rn), (bind_reads _ _ _ _ _ _ Rs).
  rewrite (bind_lift _ _ _ _ Hty). cbv zeta. rewrite bind_get_remaining, !zlen_app.
  unfold prefix_fits. match goal with |- context [if ?a <? ?b then _ else _] => destruct (Z.ltb_spec a b) end;
    [done|]. intros _. lia.
Qed.

(** Fields and payload of a frame, given its layout. *)
Lemma unpack_layout {L : WireEnvLaws E} book managed adm u ly rel pl w r' p0 adm1 :
  admits_all adm -> layout_ok ly u -> rel_ok rel u -> prefix_fits u ly rel pl ->
  read_payload_wire (layout_head u ly ++ rel ++ pl) u (at_ (layout_head u ly ++ rel) pl)
    = Ok (w, r') ->
  fst (logical_payload u w adm1) = Ok p0 ->
  unpack_packet_with_role book (append_crc32 (layout_head u ly ++ rel ++ pl)) managed adm
  = (new_with_owned_wire_contract we_registry we_tuning (up_ty u) (up_endpoints u)
       (sender_name_for_address book (up_source u)) (up_timestamp u) (up_nonce u) p0
       (shape (up_contract u)) (target_senders (up_contract u)), adm).
Proof.
  intros Hadm Hly Hrel Hfits Hw Hl.
  unfold unpack_packet_with_role, append_crc32. rewrite verify_crc_append.
  destruct (is_empty _) eqn:Ee; [done|]. rewrite new_reader_at.
  rewrite (layout_unpack_prefix u ly rel pl) by done.
  pose proof (unpack_admission_admits we_registry) as Ha. rewrite set_registry_same in Ha.
  rewrite Ha by done. rewrite Hw. cbn beta iota.
  by rewrite (logical_payload_admits u u w adm adm1 p0).
Qed.

(** ** The rewriters on a frame with a known layout *)

Lemma take_data data : take (length (append_crc32 data) - 4) (append_crc32 data) = data.
Proof.
  unfold append_crc32. rewrite length_app, length_le_bytes.
  replace (length data + 4 - 4)%nat with (length data) by lia. apply take_app_length.
Qed.

Lemma span_of_frame data :
  data <> [] -> reliable_header_span (append_crc32 data) = sub_reader header_span data.
Proof.
  intros Hd. unfold reliable_header_span. rewrite take_data.
  destruct (Z.ltb_spec (zlen (append_crc32 data)) (CRC32_BYTES + 1)) as [Hl|]; [|done].
  exfalso. unfold append_crc32 in Hl. rewrite zlen_app in Hl. unfold zlen, CRC32_BYTES in Hl.
  rewrite length_le_bytes in Hl. destruct data; [done|]. cbn [length] in Hl. lia.
Qed.

Lemma ok_some_inj {A} (x y : A) : @Ok (option A) (Some x) = Ok (Some y) -> x = y.
Proof. congruence. Qed.

Lemma layout_not_nil u ly l : layout_head u ly ++ l <> [].
Proof. done. Qed.

Lemma rewrite_owned_layout u ly rel pl h0 fl sq ak :
  layout_ok ly u -> rel_ok rel u -> up_reliable u = Some h0 ->
  let h := {| rh_flags := fl; rh_seq := sq; rh_ack := ak |} in
  rewrite_reliable_header_owned (append_crc32 (layout_head u ly ++ rel ++ pl)) fl sq ak
  = Ok (Some (append_crc32 (layout_head (rewritten u h) ly
        ++ write_reliable_header_encoded h (should_compact_reliable_header h) ++ pl))).
Proof.
  intros Hly Hrel Hh0 h. unfold rewrite_reliable_header_owned.
  rewrite span_of_frame by apply layout_not_nil.
  rewrite (header_span_layout u ly rel pl Hly Hrel), Hh0. cbn [mbind result_bind].
  set (data := layout_head u ly ++ rel ++ pl).
  assert (length (append_crc32 data) - 4 = length data)%nat as ->.
  { unfold append_crc32. rewrite length_app, length_le_bytes. lia. }
  assert (length data = length (layout_head u ly) + (length rel + length pl))%nat as Hlen
    by (unfold data; by rewrite !length_app).
  rewrite (proj2 (Nat.ltb_ge _ _)) by lia. cbv zeta. fold h.
  assert (append_crc32 data = layout_head u ly ++ (rel ++ (pl ++ le_bytes 4 (crc32_bytes data))))
    as -> by (unfold append_crc32; unfold data at 1; by rewrite <- !app_assoc).
  rewrite take_app_length, <- drop_drop, drop_app_length, drop_app_length.
  replace (length data - (length (layout_head u ly) + length rel))%nat with (length pl) by lia.
  by rewrite take_app_length.
Qed.

Lemma rewritten_span u ly h pl :
  is_u8 (up_flags u) -> layout_ok ly u -> has_rel u = true -> header_ok h ->
  has_flag (rh_flags h) RELIABLE_FLAG_ACK_ONLY = false ->
  let c := should_compact_reliable_header h in
  reliable_header_span (append_crc32 (layout_head (rewritten u h) ly
    ++ write_reliable_header_encoded h c ++ pl))
  = Ok (Some (length (layout_head u ly), Z.to_nat (reliable_wire_size h c), decoded_header h c)).
Proof.
  intros Hf Hly Hrel Hh Ha c. rewrite span_of_frame by apply layout_not_nil.
  rewrite header_span_layout; [|by apply rewritten_layout|by apply rewritten_rel].
  cbn [up_reliable rewritten]. do 4 f_equal.
  pose proof (write_reliable_header_size h c Hh) as Hs. unfold zlen in Hs. unfold c in *. lia.
Qed.

(** The layout of a frame an unpacker accepted. *)
Lemma accepted_layout {L : WireEnvLaws E} book b managed adm p adm' :
  bytes_ok b -> zlen b <= isize_max ->
  unpack_packet_with_role book b managed adm = (Ok p, adm') ->
  exists u ly rel pl w r' p0 adm1,
    b = append_crc32 (layout_head u ly ++ rel ++ pl) /\ layout_ok ly u /\ rel_ok rel u /\
    prefix_fits u ly rel pl /\ bytes_ok (layout_head u ly ++ rel ++ pl) /\
    is_u8 (up_flags u) /\ 0 <= up_dsz u /\ zlen pl <= isize_max /\
    read_payload_wire (layout_head u ly ++ rel ++ pl) u (at_ (layout_head u ly ++ rel) pl)
      = Ok (w, r') /\
    fst (logical_payload u w adm1) = Ok p0 /\
    new_with_owned_wire_contract we_registry we_tuning (up_ty u) (up_endpoints u)
      (sender_name_for_address book (up_source u)) (up_timestamp u) (up_nonce u) p0
      (shape (up_contract u)) (target_senders (up_contract u)) = Ok p.
Proof.
  intros Hb Hmax H.
  apply unpack_ok_inv in H as (data & u & r & w & r' & p0 & adm1 & Hcrc & _ & Hu & Hw & Hl & Hp).
  destruct (verify_crc_bytes b data Hb Hcrc) as [Hd Hdl].
  apply verify_crc_inv in Hcrc; [|done]. pose proof Hu as Hu0.
  apply unpack_prefix_layout in Hu as (ly & rel & pl & -> & -> & Hly & Hrel).
  exists u, ly, rel, pl, w, r', p0, adm1. split_and!; try done.
  - by eapply unpack_prefix_fits.
  - unfold layout_head in Hd. by inversion Hd.
  - apply logical_payload_inv in Hl as [<- _]. apply zlen_nonneg.
  - rewrite !zlen_app in Hdl. pose proof (zlen_nonneg (layout_head u ly)).
    pose proof (zlen_nonneg rel). lia.
Qed.

(** ** Rewriting in place *)

Lemma local_off {A} (p : reader A) pre l a r :
  local p -> p (at_ pre l) = Ok (a, r) ->
  exists pre' l', r = at_ pre' l' /\ (length pre <= length pre')%nat.
Proof.
  intros Hp H. apply Hp in H as (enc & rest & _ & -> & _). exists (pre ++ enc), rest.
  split; [done|]. rewrite length_app. lia.
Qed.

(** The header span starts behind the flags byte. *)
Lemma header_span_offset data o n h :
  sub_reader header_span data = Ok (Some (o, n, h)) -> (1 <= o)%nat.
Proof.
  rewrite sub_reader_ok. intros [r H]. unfold header_span in H.
  assert (forall f nep, local (if has_flag f FLAG_ENDPOINT_LIST_PRESENT then
            if has_flag f FLAG_ENDPOINT_BITMAP_PRESENT
            then fail_with (Unpack "ambiguous endpoint encoding") else read_endpoint_list nep
          else if has_flag f FLAG_ENDPOINT_BITMAP_PRESENT then read_bytes EP_BITMAP_BYTES
          else mret [])) as Hep.
  { intros f nep. repeat apply local_if; [done|apply local_endpoint_list|apply local_bytes|
      apply local_ret]. }
  apply bind_ok_inv in H as (f & r1 & H1 & H). apply read_byte_inv in H1 as (l1 & -> & ->).
  apply bind_ok_inv in H as (nep & r2 & H2 & H).
  apply local_off in H2 as (p2 & l2 & -> & L2); [|apply local_byte].
  apply bind_ok_inv in H as (t & r3 & H3 & H).
  apply local_off in H3 as (p3 & l3 & -> & L3); [|apply local_uleb128].
  apply bind_ok_inv in H as (d & r4 & H4 & H).
  apply local_off in H4 as (p4 & l4 & -> & L4); [|apply local_uleb128].
  apply bind_ok_inv in H as (ts & r5 & H5 & H).
  apply local_off in H5 as (p5 & l5 & -> & L5); [|apply local_uleb128].
  apply bind_ok_inv in H as (no & r6 & H6 & H).
  apply local_off in H6 as (p6 & l6 & -> & L6); [|eauto with wire].
  apply bind_ok_inv in H as (s & r7 & H7 & H).
  apply local_off in H7 as (p7 & l7 & -> & L7); [|apply local_uleb_u32].
  cbv zeta in H. rewrite bind_get_remaining in H. destruct (_ <? _); [done|].
  apply bind_ok_inv in H as (e & r8 & H8 & H).
  apply local_off in H8 as (p8 & l8 & -> & L8); [|apply Hep].
  apply bind_ok_inv in H as (c & r9 & H9 & H).
  apply local_off in H9 as (p9 & l9 & -> & L9); [|apply local_wire_contract].
  apply bind_ok_inv in H as (t' & r10 & H10 & H). apply lift_ok_inv in H10 as [_ ->].
  destruct (_ && _); [done|].
  destruct (read_reliable_header_encoded _ _) as [[h' r']|]; [|done].
  injection H as <- _ _ _. cbn [at_ off]. cbn [app length] in L2. lia.
Qed.

Lemma patched_prefix c b o k :
  (1 <= o)%nat -> take o (set_compact_flag c b) = set_compact_flag c (take o b) /\
  drop (o + k) (set_compact_flag c b) = drop (o + k) b.
Proof. destruct b, o; [done|done|lia|done]. Qed.

(** ** Properties *)

(** A relay that replaces the reliable header of an accepted, unsealed
    frame keeps the packet: the rewritten frame carries a fresh CRC, is accepted
    by every receiver that accepted the original, unpacks to the same packet, and
    shows exactly the new header (its public flags, when compacted). *)
Theorem rewrite_keeps_packet {L : WireEnvLaws E} book b managed adm p adm' fl sq ak b' :
  bytes_ok b -> zlen b <= isize_max -> admits_all adm ->
  unpack_packet_with_role book b managed adm = (Ok p, adm') ->
  has_flag (flags_byte b) FLAG_E2E_ENCRYPTED_PAYLOAD = false ->
  let h := {| rh_flags := fl; rh_seq := sq; rh_ack := ak |} in
  header_ok h -> has_flag fl RELIABLE_FLAG_ACK_ONLY = false ->
  rewrite_reliable_header_owned b fl sq ak = Ok (Some b') ->
  unpack_packet_with_role book b' managed adm = (Ok p, adm) /\
  exists o, reliable_header_span b'
    = Ok (Some (o, Z.to_nat (reliable_wire_size h (should_compact_reliable_header h)),
                decoded_header h (should_compact_reliable_header h))).
Proof.
  intros Hb Hmax Hadm H He h Hh Ha Hrw.
  apply accepted_layout in H as (u & ly & rel & pl & w & r' & p0 & adm1 & -> & Hly & Hrel & _ & _ &
    Hf & Hd & Hpl & Hw & Hl & Hp); [|done..].
  change (has_flag (up_flags u) FLAG_E2E_ENCRYPTED_PAYLOAD = false) in He.
  destruct (compact_flags_spec (should_compact_reliable_header h) _ Hf) as (_ & _ & Hx).
  destruct (up_reliable u) as [h0|] eqn:Eh.
  2: { exfalso. revert Hrw. unfold rewrite_reliable_header_owned.
       rewrite span_of_frame by apply layout_not_nil.
       by rewrite (header_span_layout u ly rel pl Hly Hrel), Eh. }
  assert (has_rel u = true) as Hhas.
  { unfold rel_ok in Hrel. destruct (has_rel u); [done|]. destruct Hrel as [_ Hn]. congruence. }
  rewrite (rewrite_owned_layout u ly rel pl h0) in Hrw by done. fold h in Hrw.
  apply ok_some_inj in Hrw as <-.
  split; [|eexists; by apply rewritten_span].
  destruct (payload_moved _ (layout_head (rewritten u h) ly
      ++ write_reliable_header_encoded h (should_compact_reliable_header h) ++ pl)
      u (rewritten u h) _ (layout_head (rewritten u h) ly
      ++ write_reliable_header_encoded h (should_compact_reliable_header h)) _ _ _ He
      ltac:(cbn [rewritten up_flags]; rewrite Hx by (cbn; tauto); exact He)
      ltac:(apply Hx; cbn; tauto) eq_refl Hw) as [r'' Hw'].
  erewrite unpack_layout; [by rewrite <- Hp|done|by apply rewritten_layout|by apply rewritten_rel|
    |exact Hw'|].
  - eapply layout_need; [by apply rewritten_layout|by apply rewritten_rel| |exact Hw'| |done|done].
    + unfold has_rel in *. cbn [rewritten up_flags up_contract]. by rewrite Hx by (cbn; tauto).
    + cbn [rewritten up_flags]. by rewrite Hx by (cbn; tauto).
  - erewrite logical_payload_admits; [done|done| | |exact Hl]; [done|]. apply Hx. cbn. tauto.
Qed.

(** The in-place rewriter and the allocating one agree: whenever the
    in-place call changes the buffer, for any buffer, the allocating call returns
    the same bytes; when there is no header to rewrite neither changes anything. *)
Theorem rewrite_in_place_agrees b fl sq ak changed b' :
  let h := {| rh_flags := fl; rh_seq := sq; rh_ack := ak |} in
  header_ok h ->
  rewrite_reliable_header b fl sq ak = Ok (changed, b') ->
  rewrite_reliable_header_owned b fl sq ak = Ok (if changed then Some b' else None) /\
  (if changed then length b' = length b else b' = b).
Proof.
  intros h Hh. unfold rewrite_reliable_header, rewrite_reliable_header_owned.
  destruct (reliable_header_span b) as [[[[o n] h0]|]|] eqn:Es; [|by intros [= <- <-]|done].
  rewrite !result_bind_run. cbv zeta. fold h.
  set (c := should_compact_reliable_header h).
  destruct (negb _) eqn:En; [done|]. apply negb_false_iff, Z.eqb_eq in En.
  destruct (Nat.ltb_spec (length b - 4 - o) n) as [|Hfit]; [done|]. intros H.
  assert (4 < length b /\ 1 <= o)%nat as [H4 Ho].
  { unfold reliable_header_span in Es. destruct (Z.ltb_spec (zlen b) (CRC32_BYTES + 1)); [done|].
    apply header_span_offset in Es. unfold zlen, CRC32_BYTES in *. lia. }
  pose proof (write_reliable_header_size h c Hh) as Hsz.
  set (enc := write_reliable_header_encoded h c) in *. unfold zlen in Hsz.
  assert (length enc = n) as Henc by lia.
  assert (1 <= n)%nat as Hn.
  { destruct enc eqn:Ee; [|cbn [length] in Henc; lia]. unfold enc in Ee.
    by destruct c. }
  rewrite (proj2 (Nat.ltb_ge _ _)) by lia.
  destruct (patched_prefix c b o n Ho) as [Hp Hd]. rewrite Hp, Hd in H.
  assert (length (set_compact_flag c (take o b)) = o) as Hlp
    by (unfold set_compact_flag; rewrite length_alter, length_take; lia).
  assert (take (length b - 4) (set_compact_flag c (take o b) ++ enc ++ drop (o + n) b)
          = set_compact_flag c (take o b) ++ enc ++ take (length b - 4 - (o + n)) (drop (o + n) b))
    as Ht.
  { rewrite take_app, Hlp, take_ge by lia. f_equal. rewrite take_app, take_ge by lia. f_equal.
    f_equal. lia. }
  rewrite Ht in H. injection H as <- <-. split; [done|].
  unfold append_crc32. rewrite !length_app, Hlp, length_take, length_drop, length_le_bytes. lia.
Qed.

(** ** ACK frames *)

Definition ack_header (ack : Z) : ReliableHeader :=
  {| rh_flags := RELIABLE_FLAG_ACK_ONLY; rh_seq := 0; rh_ack := ack |}.

Definition ack_flags (compact : bool) : Z :=
  set_if compact (Z.lor FLAG_ENDPOINT_LIST_PRESENT FLAG_RELIABLE_HEADER_PRESENT)
    FLAG_COMPACT_RELIABLE_HEADER.

Definition ack_head (compact : bool) (ty ts addr : Z) : bytes :=
  [ack_flags compact] ++ [0] ++ write_uleb128 ty ++ write_uleb128 0 ++ write_uleb128 ts
  ++ write_uleb128 addr.

Lemma ack_flags_spec c :
  has_flag (ack_flags c) FLAG_COMPRESSED_PAYLOAD = false /\
  has_flag (ack_flags c) FLAG_WIRE_CONTRACT = false /\
  has_flag (ack_flags c) FLAG_PACKET_NONCE = false /\
  has_flag (ack_flags c) FLAG_ENDPOINT_LIST_PRESENT = true /\
  has_flag (ack_flags c) FLAG_ENDPOINT_BITMAP_PRESENT = false /\
  has_flag (ack_flags c) FLAG_RELIABLE_HEADER_PRESENT = true /\
  has_flag (ack_flags c) FLAG_COMPACT_RELIABLE_HEADER = c.
Proof. by destruct c. Qed.

Lemma decoded_ack_header ack c : decoded_header (ack_header ack) c = ack_header ack.
Proof. by destruct c. Qed.

Lemma pack_reliable_ack_frame book sender ty ts ack :
  let '(b, book') := pack_reliable_ack book sender ty ts ack in
  let c := should_compact_reliable_header (ack_header ack) in
  b = append_crc32 (ack_head c ty ts (sender_address_u32 sender)
                    ++ write_reliable_header_encoded (ack_header ack) c) /\
  book' = snd (source_address_for_sender book sender).
Proof.
  unfold pack_reliable_ack, source_address_for_sender. cbn [snd]. split; [|done].
  unfold ack_head. by rewrite <- !app_assoc.
Qed.

Section Ack.
Context (t ts addr : Z).
Hypothesis (Ht : is_u32 t) (Hts : is_u64 ts) (Haddr : is_u32 addr).

Lemma reads_ack_uleb_ty : reads read_uleb128 (write_uleb128 t) t.
Proof. apply reads_uleb128. eauto with sed_arith. Qed.

Lemma bind_reads_nil {A B} (p : reader A) (k : A -> reader B) v pre rest :
  reads p [] v -> (p ≫= k) (at_ pre rest) = k v (at_ pre rest).
Proof. intros R. rewrite (bind_run _ _ _ v (at_ pre rest)); [done|]. specialize (R pre rest). by rewrite app_nil_r in R. Qed.

Lemma reads_empty_list : reads (read_endpoint_list 0) [] [].
Proof. apply (reads_endpoint_list [] []); constructor. Qed.

Lemma reads_endpoints_none ty :
  reads (endpoints_from_wire_or_schema we_registry false true ty 0) [] [].
Proof.
  unfold endpoints_from_wire_or_schema. cbv zeta.
  eapply (reads_bind _ _ [] []); [apply reads_empty_list|].
  destruct (ty ≫= _); [case_bool_decide|]; [by apply reads_ret'|by apply reads_lift..].
Qed.

Lemma reads_ack_envelope_endpoints c :
  reads (envelope_endpoints (ack_flags c) 0 t) [] (replicate 4 0, Some [], None).
Proof.
  unfold envelope_endpoints. destruct (ack_flags_spec c) as (_ & _ & _ & -> & -> & _).
  eapply (reads_bind _ _ [] []); [apply reads_empty_list|]. apply reads_ret.
Qed.

(** What the envelope of an ACK frame shows. *)
Definition ack_envelope : RoutingEnvelope :=
  {| re_ty := t; re_bitmap := replicate 4 0; re_endpoint_list := Some [];
     re_schema_endpoints := None; re_source_address := addr; re_timestamp_ms := ts;
     re_wire_shape := None; re_is_reliable := true; re_payload_is_empty := true;
     re_targets := []; re_has_reliable_header := false |}.

Lemma ack_type : data_type_id_from_wire t = Ok t.
Proof. unfold data_type_id_from_wire. by rewrite (try_u32_fits _ Ht). Qed.

Lemma ack_envelope_read c enc h rest :
  reads (read_reliable_header_encoded c) enc h ->
  has_flag (rh_flags h) RELIABLE_FLAG_ACK_ONLY = true ->
  read_routing_envelope (at_ [] (ack_head c t ts addr ++ enc ++ rest))
  = Ok (ack_envelope, at_ (ack_head c t ts addr) (enc ++ rest)).
Proof.
  intros Hr Ha. unfold read_routing_envelope, ack_head. rewrite <- !app_assoc.
  destruct (ack_flags_spec c) as (_ & F2 & F3 & F4 & F5 & F6 & F7).
  rewrite (bind_reads _ _ _ _ _ _ (reads_byte _)), (bind_reads _ _ _ _ _ _ (reads_byte _)).
  rewrite (bind_reads _ _ _ _ _ _ (reads_uleb128 t (is_u32_u64 _ Ht))),
    (bind_reads _ _ _ _ _ _ (reads_uleb128 0 ltac:(solve_u))),
    (bind_reads _ _ _ _ _ _ (reads_uleb128 ts Hts)).
  rewrite F3, F2, F6. rewrite (bind_reads_nil _ _ _ _ _ (reads_ret 0)).
  rewrite (bind_reads _ _ _ _ _ _ (reads_uleb_u32 addr _ Haddr)).
  rewrite (bind_lift _ _ _ _ ack_type). cbv zeta.
  rewrite (bind_reads_nil _ _ _ _ _ (reads_ack_envelope_endpoints c)). cbn beta iota.
  rewrite (bind_reads_nil _ _ _ _ _ (reads_ret _)). cbn beta iota.
  rewrite (bind_run _ _ _ tt _) by (unfold check_no_endpoints; cbn [Z.eqb negb andb];
    by rewrite F7, Hr, Ha).
  unfold mret, reader_ret. f_equal. by rewrite <- !app_assoc.
Qed.

(** The unpacker stops at the header, if it knows the type at all. *)
Lemma ack_not_unpacked c enc h rest :
  reads (read_reliable_header_encoded c) enc h ->
  has_flag (rh_flags h) RELIABLE_FLAG_ACK_ONLY = true ->
  unpack_prefix (at_ [] (ack_head c t ts addr ++ enc ++ rest))
  = Err (if data_type_exists we_registry t then Unpack "reliable control frame"
         else InvalidType).
Proof.
  intros Hr Ha. unfold unpack_prefix, ack_head. rewrite <- !app_assoc.
  destruct (ack_flags_spec c) as (F1 & F2 & F3 & F4 & F5 & F6 & F7).
  rewrite (bind_reads _ _ _ _ _ _ (reads_byte _)), (bind_reads _ _ _ _ _ _ (reads_byte _)).
  rewrite (bind_reads _ _ _ _ _ _ (reads_uleb128 t (is_u32_u64 _ Ht))),
    (bind_reads _ _ _ _ _ _ (reads_uleb128 0 ltac:(solve_u))),
    (bind_reads _ _ _ _ _ _ (reads_uleb128 ts Hts)).
  rewrite F3. rewrite (bind_reads_nil _ _ _ _ _ (reads_ret 0)).
  rewrite (bind_reads _ _ _ _ _ _ (reads_uleb_u32 addr _ Haddr)).
  rewrite (bind_lift _ _ _ _ ack_type). cbv zeta. rewrite bind_get_remaining, F1, F2, F4, F5, F6, F7.
  cbn [negb orb]. rewrite (proj2 (Z.ltb_ge _ _)) by apply zlen_nonneg.
  rewrite (bind_reads_nil _ _ _ _ _ (reads_endpoints_none _)).
  unfold decode_wire_contract. cbn [negb].
  rewrite (bind_reads_nil _ _ _ _ _ (reads_ret _)). cbn [shape has_reliable_header].
  unfold data_type_try_from_u32. destruct (data_type_exists we_registry t); [|done].
  rewrite (bind_lift _ _ _ t) by done. unfold mbind at 1, reader_bind at 1.
  unfold mbind at 1, reader_bind at 1. by rewrite Hr, Ha.
Qed.
End Ack.

(** An ACK-only frame is a control frame and never a packet: inspecting it
    shows its type, sender address, timestamp, no endpoints and exactly the
    acknowledged sequence number, and unpacking it fails at the header without
    consulting the admission probes. *)
Theorem ack_frame_spec {L : WireEnvLaws E} book sender t ts ack :
  is_u32 t -> is_u64 ts -> is_u32 ack ->
  let '(b, book') := pack_reliable_ack book sender t ts ack in
  (exists env, peek_frame_info book' b = Ok (env, Some (ack_header ack)) /\
    te_ty env = t /\ te_endpoints env = [] /\ te_timestamp_ms env = ts /\
    te_source_address env = sender_address_u32 sender) /\
  forall bk managed adm,
    unpack_packet_with_role bk b managed adm
    = (Err (if data_type_exists we_registry t then Unpack "reliable control frame"
            else InvalidType), adm).
Proof.
  intros Ht Hts Hack. pose proof (pack_reliable_ack_frame book sender t ts ack) as H.
  destruct (pack_reliable_ack book sender t ts ack) as [b book']. cbv zeta in H.
  destruct H as [-> ->]. set (c := should_compact_reliable_header (ack_header ack)).
  pose proof (sender_address_range sender) as Haddr.
  assert (header_ok (ack_header ack)) as Hok by (split_and!; [by vm_compute|by vm_compute|done]).
  pose proof (reads_reliable_header (ack_header ack) c Hok) as Hr. rewrite decoded_ack_header in Hr.
  assert (forall l : bytes, l = l ++ []) as Hnil by (intros; by rewrite app_nil_r).
  rewrite (Hnil (write_reliable_header_encoded (ack_header ack) c)).
  assert (forall l, verify_crc32 (append_crc32 l) = Ok l) as Hcrc by apply verify_crc_append.
  split.
  - exists (into_owned (snd (source_address_for_sender book sender))
             (ack_envelope t ts (sender_address_u32 sender))).
    split; [|done]. unfold peek_frame_info. rewrite Hcrc, result_bind_run.
    apply sub_reader_ok. eexists.
    rewrite (bind_run _ _ _ _ _ (ack_envelope_read t ts _ Ht Hts Haddr c _ _ [] Hr eq_refl)).
    unfold optional_reliable. cbn [re_is_reliable ack_envelope orb].
    change (flags_byte (ack_head c t ts (sender_address_u32 sender)
      ++ write_reliable_header_encoded (ack_header ack) c ++ [])) with (ack_flags c).
    destruct (ack_flags_spec c) as (_ & _ & _ & _ & _ & _ & ->).
    rewrite bind_assoc_reader, (bind_reads _ _ _ _ _ _ Hr). reflexivity.
  - intros bk managed adm. unfold unpack_packet_with_role. rewrite Hcrc.
    destruct (is_empty _) eqn:Ee; [done|]. rewrite new_reader_at.
    by rewrite (ack_not_unpacked t ts _ Ht Hts Haddr c _ _ [] Hr eq_refl).
Qed.
End Rewrite.

(** ** Concrete instances *)

Definition reliable_frame : bytes :=
  match fst (pack_packet_with_reliable ∅ sample_packet
               {| rh_flags := 0; rh_seq := 5; rh_ack := 0 |}) with
  | Some b => b | None => [] end.

Lemma reliable_frame_ok : bytes_ok reliable_frame /\ zlen reliable_frame <= isize_max.
Proof. split; [apply bytes_ok_dec; by vm_compute|by vm_compute]. Qed.

Lemma rewrite_keeps_packet_witness :
  exists b' o n h, rewrite_reliable_header_owned reliable_frame 0 300 9 = Ok (Some b') /\
    is_ok (fst (unpack_packet_with_role sample_book b' false no_admission)) = true /\
    reliable_header_span b' = Ok (Some (o, n, h)).
Proof.
  destruct (unpack_packet_with_role sample_book reliable_frame false no_admission)
    as [[p|e] a] eqn:E; [|by vm_compute in E].
  destruct (rewrite_reliable_header_owned reliable_frame 0 300 9) as [[b'|]|] eqn:Er;
    [|by vm_compute in Er..].
  destruct (rewrite_keeps_packet sample_book reliable_frame false no_admission p a 0 300 9 b')
    as [Hu [o Hs]]; [apply reliable_frame_ok..|by apply no_probe_admits|exact E|by vm_compute|
      by repeat split; vm_compute|done|exact Er|].
  exists b', o. rewrite Hu, Hs. eexists _, _. split; [reflexivity|]. split; reflexivity.
Defined.

Lemma rewrite_in_place_agrees_witness :
  exists b', rewrite_reliable_header reliable_frame 0 6 0 = Ok (true, b') /\
    rewrite_reliable_header_owned reliable_frame 0 6 0 = Ok (Some b') /\ b' <> reliable_frame.
Proof.
  destruct (rewrite_reliable_header reliable_frame 0 6 0) as [[[] b']|] eqn:Er;
    [|by vm_compute in Er..].
  exists b'. split; [reflexivity|]. split.
  - apply (rewrite_in_place_agrees reliable_frame 0 6 0 true b'); [by repeat split; vm_compute|exact Er].
  - vm_compute in Er. injection Er as <-. vm_compute. discriminate.
Defined.

Lemma ack_frame_spec_witness :
  let '(b, book) := pack_reliable_ack ∅ (str "ROCKET") 100 1000 42 in
  (exists env, peek_frame_info book b = Ok (env, Some (ack_header 42)) /\ te_ty env = 100 /\
    te_endpoints env = [] /\ te_timestamp_ms env = 1000 /\
    te_source_address env = sender_address_u32 (str "ROCKET")) /\
  forall bk managed adm, unpack_packet_with_role bk b managed adm
    = (Err (Unpack "reliable control frame"), adm).
Proof.
  apply (ack_frame_spec (L := sample_laws) ∅ (str "ROCKET") 100 1000 42);
    (split; [lia|vm_compute; discriminate]).
Defined.
