(* ===== verification/Queue.v ===== *)
(** * The bounded queues (src/src/queue.rs)

    [BoundedDeque]: a double-ended queue with a byte budget, an element cap and
    fallible growth, its FIFO and prioritised admission, and the transactional
    replacement of retained entries.  The allocator, the size of an entry and the
    optional parking of an entry are the [QueueEnv] the operations are written
    against.  The fair service order is in [QueueFair]. *)

From stdpp Require Import sorting.
From S2P Require Import Prelude Schema MemoryAdmission.

Open Scope Z_scope.

(** ** The environment of a queue

    [ByteCost] of the source with the [size_of] of an entry; [reserve_exact] is
    [VecDeque::try_reserve_exact] at a length and a capacity: the new capacity, or
    [None] when the allocator refuses.  [compact_store] is the Cargo feature
    [compact-packet-store]; without it [park_for_queue] is not called. *)
Class QueueEnv (T : Type) : Type := {
  byte_cost : T -> Z;
  park_entry : T -> result T;
  item_size : Z;
  reserve_exact : forall len cap additional : Z, option Z;
  compact_store : bool;
}.

Class QueueLaws (T : Type) {QE : QueueEnv T} : Prop := {
  byte_cost_range : forall v, is_u64 (byte_cost v);
  reserve_exact_room : forall len cap additional c,
    reserve_exact len cap additional = Some c -> cap <= c /\ len + additional <= c;
}.

Definition park_for_queue {T} `{QueueEnv T} (v : T) : result T :=
  if compact_store then park_entry v else Ok v.

(** ** The growth multiplier

    An [f64] is its bit pattern. *)

Definition f64_nan (b : Z) : bool := 9218868437227405312 <? Z.land b 9223372036854775807.
Definition f64_one : Z := 4607182418800017408.
Definition f64_1_01 : Z := 4607227454796291113.
Definition f64_16 : Z := 4625196817309499392.
Definition f64_negative (b : Z) : bool := negb (Z.shiftr b 63 =? 0).

(** [x < 1.0], [x > 1.0] and [x == 1.0]. *)
Definition f64_lt_one (b : Z) : bool := negb (f64_nan b) && (f64_negative b || (b <? f64_one)).
Definition f64_gt_one (b : Z) : bool :=
  negb (f64_nan b) && negb (f64_negative b) && (f64_one <? b).
Definition f64_is_one (b : Z) : bool := b =? f64_one.

Definition float_to_ratio (bits : Z) : Z * Z :=
  let den := 1024 in
  if f64_nan bits then (den + 1, den)
  else
    let num :=
      if f64_negative bits || (bits <? f64_1_01) then 1034
      else if f64_16 <=? bits then 16 * den
      else
        let exponent := Z.land (Z.shiftr bits 52) 2047 - 1023 in
        let significand := Z.lor (Z.land bits (2 ^ 52 - 1)) (2 ^ 52) in
        Z.shiftr significand (42 - exponent) in
    (num, den).

(** ** The queue *)

Definition PRIORITY_TURN_PENDING : Z := 1.
Definition PRIORITY_TURN_ACTIVE : Z := 2.
Definition PRIORITY_TURN_NESTED_ADMISSION : Z := 4.

(** [q] is the content of the ring and [capacity] its allocated slots. *)
Record BoundedDeque (T : Type) : Type := {
  q : list T;
  capacity : Z;
  max_bytes : Z;
  cur_bytes : Z;
  max_elems : Z;
  grow_num : Z;
  grow_den : Z;
  fixed_capacity : bool;
  fair_priority_cursor : Z;
  fair_owed_priority : Z;
  fair_owed_flags : Z;
}.
Arguments q {T}. Arguments capacity {T}. Arguments max_bytes {T}. Arguments cur_bytes {T}.
Arguments max_elems {T}. Arguments grow_num {T}. Arguments grow_den {T}.
Arguments fixed_capacity {T}. Arguments fair_priority_cursor {T}.
Arguments fair_owed_priority {T}. Arguments fair_owed_flags {T}.

Section Queue.
Context {T : Type} {QE : QueueEnv T}.
Abbreviation deque := (BoundedDeque T).

(** The queue with another content and byte count. *)
Definition with_content (d : deque) (l : list T) (bytes : Z) : deque :=
  {| q := l; capacity := capacity d; max_bytes := max_bytes d; cur_bytes := bytes;
     max_elems := max_elems d; grow_num := grow_num d; grow_den := grow_den d;
     fixed_capacity := fixed_capacity d; fair_priority_cursor := fair_priority_cursor d;
     fair_owed_priority := fair_owed_priority d; fair_owed_flags := fair_owed_flags d |}.

Definition with_capacity (d : deque) (c : Z) : deque :=
  {| q := q d; capacity := c; max_bytes := max_bytes d; cur_bytes := cur_bytes d;
     max_elems := max_elems d; grow_num := grow_num d; grow_den := grow_den d;
     fixed_capacity := fixed_capacity d; fair_priority_cursor := fair_priority_cursor d;
     fair_owed_priority := fair_owed_priority d; fair_owed_flags := fair_owed_flags d |}.

Definition with_fairness (d : deque) (cursor owed flags : Z) : deque :=
  {| q := q d; capacity := capacity d; max_bytes := max_bytes d; cur_bytes := cur_bytes d;
     max_elems := max_elems d; grow_num := grow_num d; grow_den := grow_den d;
     fixed_capacity := fixed_capacity d; fair_priority_cursor := cursor;
     fair_owed_priority := owed; fair_owed_flags := flags |}.

(** *** Construction *)

(** Halve the request until it is admitted; [None] only without fuel. *)
Fixpoint admitted_initial_capacity (fuel : nat) (c item_bytes : Z) (adm : Admission)
    : option (Z * Admission) :=
  if c =? 0 then Some (0, adm)
  else
    match fuel with
    | O => None
    | S fuel =>
        let bytes := sat_add (c * item_bytes) 64 in
        match check bytes bytes adm with
        | (Ok _, adm) => Some (c, adm)
        | (Err _, adm) => admitted_initial_capacity fuel (c / 2) item_bytes adm
        end
    end.

(** The capacity of the first ring. *)
Fixpoint allocate_initial_ring (fuel : nat) (c item_bytes : Z) (adm : Admission)
    : option (Z * Admission) :=
  match fuel with
  | O => None
  | S fuel =>
      match admitted_initial_capacity 64 c item_bytes adm with
      | None => None
      | Some (c, adm) =>
          if c =? 0 then Some (0, adm)
          else match reserve_exact 0 0 c with
               | Some cap => Some (cap, adm)
               | None => allocate_initial_ring fuel (c / 2) item_bytes adm
               end
      end
  end.

(** [new]; [None] is one of its panics. *)
Definition new (max_b starting_bytes grow_mult : Z) (adm : Admission)
    : option (deque * Admission) :=
  if max_b <? starting_bytes then None
  else if max_b =? 0 then None
  else if f64_lt_one grow_mult then None
  else
    let min_cost := Z.max item_size 1 in
    let max_e := Z.max (max_b / min_cost) 1 in
    let starting_elems := starting_bytes / min_cost in
    let start_cap := if compact_store && f64_gt_one grow_mult then max_e
                     else Z.max 1 (Z.min starting_elems max_e) in
    let '(num, den) := float_to_ratio grow_mult in
    match allocate_initial_ring 65 start_cap min_cost adm with
    | None => None
    | Some (cap, adm) =>
        Some ({| q := []; capacity := cap; max_bytes := max_b; cur_bytes := 0;
                 max_elems := max_e; grow_num := num; grow_den := den;
                 fixed_capacity := f64_is_one grow_mult || compact_store;
                 fair_priority_cursor := u8_max; fair_owed_priority := 0;
                 fair_owed_flags := 0 |}, adm)
    end.

(** *** Removal *)

Definition clear (d : deque) : deque :=
  with_fairness (with_content d [] 0) u8_max (fair_owed_priority d)
    (Z.land (fair_owed_flags d) PRIORITY_TURN_ACTIVE).

Definition pop_front (d : deque) : option T * deque :=
  match q d with
  | [] => (None, d)
  | v :: l => (Some v, with_content d l (sat_sub (cur_bytes d) (byte_cost v)))
  end.

Definition pop_back (d : deque) : option T * deque :=
  match last (q d) with
  | None => (None, d)
  | Some v => (Some v, with_content d (removelast (q d)) (sat_sub (cur_bytes d) (byte_cost v)))
  end.

Definition remove_pos (idx : nat) (d : deque) : option T * deque :=
  match q d !! idx with
  | None => (None, d)
  | Some v => (Some v, with_content d (delete idx (q d)) (sat_sub (cur_bytes d) (byte_cost v)))
  end.

Definition remove_value (eqb : T -> T -> bool) (needle : T) (d : deque) : deque :=
  match list_find (fun x => eqb x needle = true) (q d) with
  | Some (idx, _) => snd (remove_pos idx d)
  | None => d
  end.

(** The loop of [retain_observed]; the list collects what is evicted. *)
Fixpoint retain_loop (fuel idx : nat) (keep : T -> bool) (d : deque) (evicted : list T)
    : deque * list T :=
  match fuel with
  | O => (d, evicted)
  | S fuel =>
      match q d !! idx with
      | None => (d, evicted)
      | Some v =>
          if keep v then retain_loop fuel (S idx) keep d evicted
          else
            let '(old, d) := remove_pos idx d in
            retain_loop fuel idx keep d
              (match old with Some old => evicted ++ [old] | None => evicted end)
      end
  end.

(** Each round keeps or removes one of the entries present at the start. *)
Definition retain_observed (keep : T -> bool) (d : deque) : deque * list T :=
  retain_loop (length (q d)) 0 keep d [].

Definition lowest_priority (priority_of : T -> Z) (d : deque) : option Z :=
  option_map priority_of (last (q d)).

(** *** Growth *)

Definition growth_target (d : deque) : Z :=
  let scaled := sat_add (sat_mul (capacity d) (grow_num d)) (grow_den d - 1) in
  Z.min (Z.max (scaled / grow_den d) (capacity d + 1)) (max_elems d).

Definition ensure_room_for_one (d : deque) (adm : Admission) : bool * deque * Admission :=
  let len := zlen (q d) in
  let cap := capacity d in
  if len <? cap then (true, d, adm)
  else if fixed_capacity d then (true, snd (pop_front d), adm)
  else if max_elems d <=? len then (true, snd (pop_front d), adm)
  else if max_elems d <=? cap then (true, snd (pop_front d), adm)
  else
    let target_cap := growth_target d in
    let add := sat_sub target_cap cap in
    if 0 <? add then
      let bytes := sat_add (sat_mul target_cap item_size) 32 in
      match check bytes bytes adm with
      | (Err _, adm) => (false, d, adm)
      | (Ok _, adm) =>
          match reserve_exact len cap add with
          | None => (false, d, adm)
          | Some c => (true, with_capacity d c, adm)
          end
      end
    else (true, snd (pop_front d), adm).

(** *** FIFO admission *)

(** [while !is_empty && cur_bytes + cost > max_bytes { pop_front }]. *)
Fixpoint drain_front (l : list T) (cur cost maxb : Z) : list T * Z :=
  match l with
  | [] => ([], cur)
  | v :: l' => if maxb <? wrap64 (cur + cost)
               then drain_front l' (sat_sub cur (byte_cost v)) cost maxb else (l, cur)
  end.

Definition prepare_push_fifo (cost : Z) (d : deque) (adm : Admission)
    : result unit * deque * Admission :=
  if capacity d =? 0 then (Err (Io "queue unavailable"), d, adm)
  else if max_bytes d <? cost
  then (Err (PacketTooLarge "Item exceeds maximum byte budget"), d, adm)
  else
    let '(l, cur) := drain_front (q d) (cur_bytes d) cost (max_bytes d) in
    let d := with_content d l cur in
    let d := if max_elems d <=? zlen (q d) then snd (pop_front d) else d in
    let '(room, d, adm) := ensure_room_for_one d adm in
    (Ok tt, if room then d else snd (pop_front d), adm).

Definition push_back (v : T) (d : deque) (adm : Admission) : result unit * deque * Admission :=
  match park_for_queue v with
  | Err e => (Err e, d, adm)
  | Ok v =>
      let cost := byte_cost v in
      match prepare_push_fifo cost d adm with
      | (Err e, d, adm) => (Err e, d, adm)
      | (Ok _, d, adm) =>
          (Ok tt, with_content d (q d ++ [v]) (sat_add (cur_bytes d) cost), adm)
      end
  end.

(** *** Prioritised admission *)

(** [VecDeque::partition_point] for a predicate that holds on a prefix. *)
Fixpoint partition_point (p : T -> bool) (l : list T) : nat :=
  match l with
  | [] => O
  | x :: l => if p x then S (partition_point p l) else O
  end.

Definition insert_prioritized_prepared (v : T) (cost new_priority : Z) (priority_of : T -> Z)
    (d : deque) : deque :=
  let at_tail := match last (q d) with
                 | None => true | Some tail => new_priority <=? priority_of tail end in
  let at_head := match head (q d) with
                 | None => false | Some h => priority_of h <? new_priority end in
  let l :=
    if at_tail then q d ++ [v]
    else if at_head then v :: q d
    else
      let index := partition_point (fun x => new_priority <=? priority_of x) (q d) in
      take index (q d) ++ v :: drop index (q d) in
  with_content d l (sat_add (cur_bytes d) cost).

Definition over_limit (cost : Z) (d : deque) : bool :=
  (max_bytes d <? sat_add (cur_bytes d) cost) || (max_elems d <=? zlen (q d))
  || (fixed_capacity d && (capacity d <=? zlen (q d))).

(** May an entry of priority [old] make room for one of priority [new]? *)
Definition protected_from (old_priority new_priority : Z) : bool :=
  (new_priority <? old_priority) || ((new_priority =? 254) && (old_priority =? new_priority)).

(** One eviction: the entry and the queue without it, or the refusal. *)
Definition evict_fn : Type := deque -> result (option T * deque).

Definition evict_tail (priority_of : T -> Z) (new_priority : Z) : evict_fn := fun d =>
  let tail_priority := match last (q d) with Some t => priority_of t | None => 0 end in
  if protected_from tail_priority new_priority then Err (Io "priority queue saturated")
  else match pop_back d with
       | (None, _) => Err (Io "queue unavailable")
       | (Some old, d) => Ok (Some old, d)
       end.

Definition evict_victim (priority_of : T -> Z) (new_priority : Z)
    (victim : deque -> option nat) : evict_fn := fun d =>
  match victim d with
  | None => Err (Io "priority queue saturated")
  | Some index =>
      match q d !! index with
      | None => Err (Io "priority queue saturated")
      | Some old =>
          if protected_from (priority_of old) new_priority
          then Err (Io "priority queue saturated")
          else Ok (remove_pos index d)
      end
  end.

(** The admission loop: [None] only without fuel. *)
Fixpoint admit_loop (fuel : nat) (evict : evict_fn) (cost : Z) (d : deque) (adm : Admission)
    (evicted : list T) : option (result unit * deque * Admission * list T) :=
  match fuel with
  | O => None
  | S fuel =>
      let '(ready, d, adm) :=
        if over_limit cost d then (false, d, adm) else ensure_room_for_one d adm in
      if ready then Some (Ok tt, d, adm, evicted)
      else match evict d with
           | Err e => Some (Err e, d, adm, evicted)
           | Ok (old, d) =>
               admit_loop fuel evict cost d adm
                 (match old with Some old => evicted ++ [old] | None => evicted end)
           end
  end.

(** Every eviction shortens the queue, and an empty one is never over its limits. *)
Definition push_admitted (evict : T -> evict_fn) (v : T) (priority_of : T -> Z) (d : deque)
    (adm : Admission) : option (result unit * deque * Admission * list T) :=
  match park_for_queue v with
  | Err e => Some (Err e, d, adm, [])
  | Ok v =>
      if capacity d =? 0 then Some (Err (Io "queue unavailable"), d, adm, [])
      else
        let cost := byte_cost v in
        if max_bytes d <? cost
        then Some (Err (PacketTooLarge "Item exceeds maximum byte budget"), d, adm, [])
        else
          match admit_loop (S (length (q d))) (evict v) cost d adm [] with
          | Some (Ok _, d, adm, evicted) =>
              Some (Ok tt, insert_prioritized_prepared v cost (priority_of v) priority_of d,
                    adm, evicted)
          | r => r
          end
  end.

Definition push_back_prioritized_observed (v : T) (priority_of : T -> Z) (d : deque)
    (adm : Admission) : option (result unit * deque * Admission * list T) :=
  push_admitted (fun v => evict_tail priority_of (priority_of v)) v priority_of d adm.

Definition push_back_prioritized_select (v : T) (priority_of : T -> Z)
    (victim : deque -> T -> option nat) (d : deque) (adm : Admission)
    : option (result unit * deque * Admission * list T) :=
  push_admitted (fun v => evict_victim priority_of (priority_of v) (fun d => victim d v))
    v priority_of d adm.

(** *** Updates and prepared groups *)

Definition update_metadata (index : nat) (update : T -> T) (d : deque) : deque :=
  with_content d (alter update index (q d)) (cur_bytes d).

Definition update_admitted (index : nat) (new_cost : Z) (update : T -> T) (d : deque)
    : result unit * deque :=
  match q d !! index with
  | None => (Err BadArg, d)
  | Some old =>
      let used := sat_add (sat_sub (cur_bytes d) (byte_cost old)) new_cost in
      if max_bytes d <? used then (Err (Io "queue full"), d)
      else (Ok tt, with_content d (alter update index (q d)) used)
  end.

Fixpoint checked_sum (n : Z) (costs : list Z) : option Z :=
  match costs with
  | [] => Some n
  | c :: costs => match checked_add n c with
                  | Some n => checked_sum n costs | None => None end
  end.

Definition fits_prepared_batch (costs : list Z) (d : deque) : bool :=
  match checked_add (zlen (q d)) (zlen costs), checked_sum (cur_bytes d) costs with
  | Some len, Some bytes => (len <=? max_elems d) && (len <=? capacity d)
                            && (bytes <=? max_bytes d)
  | _, _ => false
  end.

(** [None] is the failed assertion. *)
Definition push_prepared_batch_item (v : T) (cost priority : Z) (priority_of : T -> Z)
    (d : deque) : option deque :=
  if fits_prepared_batch [cost] d
  then Some (insert_prioritized_prepared v cost priority priority_of d) else None.

Definition fits_replacement_group (index : nat) (costs : list Z) (d : deque) : bool :=
  match q d !! index, checked_sub (zlen costs) 1 with
  | Some old, Some extra =>
      match checked_add (zlen (q d)) extra,
            checked_sub (cur_bytes d) (byte_cost old) with
      | Some len, Some used =>
          match checked_sum used costs with
          | Some bytes => (len <=? max_elems d) && (len <=? capacity d)
                          && (bytes <=? max_bytes d)
          | None => false
          end
      | _, _ => false
      end
  | _, _ => false
  end.

(** [None] is one of its panics. *)
Definition replace_prepared_item (index : nat) (item : T) (cost : Z) (d : deque)
    : option deque :=
  match q d !! index with
  | None => None
  | Some old =>
      match checked_sub (cur_bytes d) (byte_cost old) with
      | None => None
      | Some used => match checked_add used cost with
                     | None => None
                     | Some bytes => Some (with_content d (<[index := item]> (q d)) bytes)
                     end
      end
  end.

Definition replace_prepared_group (index : nat) (values : list (T * Z)) (priority_of : T -> Z)
    (d : deque) : option deque :=
  match values with
  | [] => None
  | (first, cost) :: rest =>
      match replace_prepared_item index first cost d with
      | None => None
      | Some d =>
          Some (foldl (fun d '(item, cost) =>
                  insert_prioritized_prepared item cost (priority_of item) priority_of d) d rest)
      end
  end.

End Queue.

(** ** The invariant *)

Section Invariant.
Context {T : Type} {QE : QueueEnv T} {QL : QueueLaws T}.
Abbreviation deque := (BoundedDeque T).

Definition total_cost (l : list T) : Z := foldr (fun v n => byte_cost v + n) 0 l.

Record queue_ok (d : deque) : Prop := {
  qo_cur : cur_bytes d = total_cost (q d);
  qo_budget : cur_bytes d <= max_bytes d;
  qo_max : 1 <= max_bytes d <= isize_max;
  qo_len : zlen (q d) <= max_elems d;
  qo_cap : zlen (q d) <= capacity d;
  qo_elems : 1 <= max_elems d <= u64_max;
}.

(** Descending priority from the front. *)
Definition by_priority (priority_of : T -> Z) (l : list T) : Prop :=
  StronglySorted (fun a b => priority_of b <= priority_of a) l.

Lemma total_cost_cons v l : total_cost (v :: l) = byte_cost v + total_cost l.
Proof. done. Qed.

Lemma total_cost_app l k : total_cost (l ++ k) = total_cost l + total_cost k.
Proof.
  induction l as [|v l IH]; [done|]. cbn [app]. rewrite !total_cost_cons, IH. lia.
Qed.

Lemma total_cost_nonneg l : 0 <= total_cost l.
Proof.
  induction l as [|v l IH]; [done|]. rewrite total_cost_cons.
  pose proof (byte_cost_range v). solve_u.
Qed.

Lemma total_cost_middle l v k : total_cost (l ++ v :: k) = total_cost (l ++ k) + byte_cost v.
Proof. rewrite !total_cost_app, total_cost_cons. lia. Qed.

(** Removing one entry, wherever it is, keeps the books. *)
Lemma remove_ok d l v k :
  queue_ok d -> q d = l ++ v :: k ->
  queue_ok (with_content d (l ++ k) (sat_sub (cur_bytes d) (byte_cost v))).
Proof.
  intros [H1 H2 H3 H4 H5 H6] Hq. rewrite Hq in *.
  pose proof (byte_cost_range v). pose proof (total_cost_nonneg (l ++ k)).
  rewrite total_cost_middle in H1. rewrite zlen_app in *. unfold zlen in *. cbn [length] in *.
  split; cbn [q cur_bytes max_bytes max_elems capacity with_content]; rewrite ?zlen_app;
    solve_u.
Qed.

Lemma pop_front_ok d : queue_ok d -> queue_ok (snd (pop_front d)).
Proof.
  intros H. unfold pop_front. destruct (q d) as [|v l] eqn:Eq; [done|].
  apply (remove_ok d [] v l H Eq).
Qed.

Lemma last_split (l : list T) v : last l = Some v -> l = removelast l ++ [v].
Proof.
  intros H. apply last_Some in H as [l' ->]. by rewrite removelast_last.
Qed.

Lemma pop_back_ok d : queue_ok d -> queue_ok (snd (pop_back d)).
Proof.
  intros H. unfold pop_back. destruct (last (q d)) as [v|] eqn:El; [|done].
  apply last_split in El. pose proof (remove_ok d _ v [] H El) as Hr.
  by rewrite app_nil_r in Hr.
Qed.

Lemma remove_pos_split idx d v :
  q d !! idx = Some v ->
  q d = take idx (q d) ++ v :: drop (S idx) (q d) /\
  remove_pos idx d = (Some v, with_content d (take idx (q d) ++ drop (S idx) (q d))
                                (sat_sub (cur_bytes d) (byte_cost v))).
Proof.
  intros H. split; [symmetry; by apply take_drop_middle|]. unfold remove_pos. rewrite H.
  by rewrite delete_take_drop.
Qed.

Lemma remove_pos_ok idx d : queue_ok d -> queue_ok (snd (remove_pos idx d)).
Proof.
  intros H. destruct (q d !! idx) as [v|] eqn:El.
  - destruct (remove_pos_split idx d v El) as [Hq ->]. by apply (remove_ok d _ v).
  - unfold remove_pos. by rewrite El.
Qed.

Lemma clear_ok d : queue_ok d -> queue_ok (clear d).
Proof.
  intros [H1 H2 H3 H4 H5 H6]. pose proof (zlen_nonneg (q d)).
  split; cbn [clear with_content with_fairness q cur_bytes max_bytes max_elems capacity];
    unfold zlen in *; cbn; solve_u.
Qed.

Lemma retain_loop_spec fuel idx keep d ev :
  queue_ok d -> (length (q d) <= idx + fuel)%nat -> (idx <= length (q d))%nat ->
  let '(d', ev') := retain_loop fuel idx keep d ev in
  queue_ok d' /\
  q d' = take idx (q d) ++ List.filter keep (drop idx (q d)) /\
  ev' = ev ++ List.filter (fun v => negb (keep v)) (drop idx (q d)).
Proof.
  revert idx d ev. induction fuel as [|fuel IH]; intros idx d ev Hok Hf Hi; cbn [retain_loop].
  - rewrite drop_ge, take_ge, !app_nil_r by lia. done.
  - destruct (q d !! idx) as [v|] eqn:El.
    2: { apply lookup_ge_None in El. rewrite drop_ge, take_ge, !app_nil_r by lia. done. }
    pose proof (lookup_lt_Some _ _ _ El) as Hlt. rewrite (drop_S _ _ _ El). cbn [List.filter].
    destruct (keep v) eqn:Ek; cbn [negb].
    + specialize (IH (S idx) d ev Hok ltac:(lia) ltac:(lia)).
      destruct (retain_loop fuel (S idx) keep d ev) as [d' ev']. destruct IH as (IH1 & IH2 & IH3).
      split; [done|]. rewrite IH2, IH3. rewrite (take_S_r _ _ _ El), <- app_assoc. done.
    + destruct (remove_pos_split idx d v El) as [Hq ->].
      set (d1 := with_content d _ _).
      assert (length (take idx (q d)) = idx) as Ht by (rewrite length_take; lia).
      assert (q d1 = take idx (q d) ++ drop (S idx) (q d)) as Hq1 by done.
      specialize (IH idx d1 (ev ++ [v]) ltac:(by apply (remove_ok d _ v))).
      rewrite Hq1, length_app, length_drop, Ht, take_app_length', drop_app_length' in IH by done.
      specialize (IH ltac:(lia) ltac:(lia)).
      destruct (retain_loop fuel idx keep d1 (ev ++ [v])) as [d' ev'].
      by rewrite <- app_assoc in IH.
Qed.

(** ** Growth *)

(** What [ensure_room_for_one] leaves alone. *)
Record same_queue (d d' : deque) : Prop := {
  sq_q : q d' = q d;
  sq_cur : cur_bytes d' = cur_bytes d;
  sq_max : max_bytes d' = max_bytes d;
  sq_elems : max_elems d' = max_elems d;
  sq_fixed : fixed_capacity d' = fixed_capacity d;
  sq_cap : capacity d <= capacity d';
}.

Lemma same_queue_refl d : same_queue d d.
Proof. split; done || lia. Qed.

Lemma same_queue_ok d d' : queue_ok d -> same_queue d d' -> queue_ok d'.
Proof. intros [H1 H2 H3 H4 H5 H6] [S1 S2 S3 S4 S5 S6]. split; rewrite ?S1, ?S2, ?S3, ?S4; lia. Qed.

(** Below the caps the ring grows, or the call reports that it could not. *)
Lemma ensure_room_grows d adm :
  queue_ok d -> zlen (q d) < max_elems d ->
  (fixed_capacity d = true -> zlen (q d) < capacity d) ->
  let '(room, d', _) := ensure_room_for_one d adm in
  same_queue d d' /\
  (if room then zlen (q d) < capacity d' else d' = d /\ zlen (q d) = capacity d).
Proof.
  intros Hok Hlen Hfix. unfold ensure_room_for_one.
  destruct (Z.ltb_spec (zlen (q d)) (capacity d)) as [H1|H1]; [split; [apply same_queue_refl|done]|].
  destruct (fixed_capacity d) eqn:Ef; [specialize (Hfix eq_refl); lia|].
  rewrite (proj2 (Z.leb_gt _ _)) by lia. pose proof (qo_cap _ Hok).
  rewrite (proj2 (Z.leb_gt _ _)) by lia.
  assert (capacity d + 1 <= growth_target d) as Ht by (unfold growth_target; lia).
  rewrite sat_sub_le, (proj2 (Z.ltb_lt _ _)) by lia.
  destruct (check _ _ adm) as [[[]|e] adm1].
  2: { split; [apply same_queue_refl|]. split; [done|lia]. }
  destruct (reserve_exact _ _ _) as [c|] eqn:Er.
  2: { split; [apply same_queue_refl|]. split; [done|lia]. }
  apply reserve_exact_room in Er as [Hc1 Hc2].
  split; [|cbn [capacity with_capacity]; lia]. by split.
Qed.

(** ** Insertion *)

Lemma partition_point_le p (l : list T) : (partition_point p l <= length l)%nat.
Proof. induction l as [|x l IH]; cbn; [lia|]. destruct (p x); lia. Qed.

Lemma partition_point_prefix p (l : list T) :
  Forall (fun x => p x = true) (take (partition_point p l) l).
Proof. induction l as [|x l IH]; cbn; [constructor|]. destruct (p x) eqn:E; constructor; done. Qed.

(** Where a new entry of priority [n] goes. *)
Definition band_end (n : Z) (priority_of : T -> Z) (l : list T) : nat :=
  partition_point (fun x => n <=? priority_of x) l.

Lemma band_end_split n pr l :
  by_priority pr l ->
  Forall (fun x => n <= pr x) (take (band_end n pr l) l) /\
  Forall (fun x => pr x < n) (drop (band_end n pr l) l).
Proof.
  intros Hs. split.
  - eapply Forall_impl; [apply partition_point_prefix|]. cbn. intros x Hx. by apply Z.leb_le.
  - unfold band_end. induction Hs as [|x l Hs IH Hx]; cbn; [constructor|].
    destruct (Z.leb_spec n (pr x)) as [|Hlt]; [done|]. constructor; [done|].
    eapply Forall_impl; [exact Hx|]. cbn. intros; lia.
Qed.

Lemma band_end_all n pr l : Forall (fun x => n <= pr x) l -> band_end n pr l = length l.
Proof.
  unfold band_end. induction 1 as [|x l Hx Hl IH]; cbn; [done|].
  by rewrite (proj2 (Z.leb_le _ _) Hx), IH.
Qed.

Lemma insert_position v cost n pr d :
  by_priority pr (q d) ->
  q (insert_prioritized_prepared v cost n pr d)
  = take (band_end n pr (q d)) (q d) ++ v :: drop (band_end n pr (q d)) (q d).
Proof.
  intros Hs. unfold insert_prioritized_prepared. cbn [q with_content].
  destruct (last (q d)) as [t|] eqn:El.
  2: { apply last_None in El. by rewrite El. }
  destruct (Z.leb_spec n (pr t)) as [Ht|Ht].
  - rewrite band_end_all; [by rewrite firstn_all, drop_all|].
    apply last_split in El. rewrite El in Hs |- *. unfold by_priority in Hs.
    apply Forall_app. split; [|by constructor].
    apply Forall_forall. intros x Hx. transitivity (pr t); [done|].
    apply (StronglySorted_app_1_elem_of _ _ _ x t Hs); [done|by left].
  - destruct (head (q d)) as [h|] eqn:Eh; [|by destruct (q d)].
    destruct (Z.ltb_spec (pr h) n) as [Hh|Hh]; [|done].
    destruct (q d) as [|x l]; [done|]. injection Eh as ->.
    unfold band_end. cbn. by rewrite (proj2 (Z.leb_gt _ _) Hh).
Qed.

Lemma insert_sorted v pr l n :
  pr v = n -> by_priority pr l ->
  by_priority pr (take (band_end n pr l) l ++ v :: drop (band_end n pr l) l).
Proof.
  intros Hv Hs. unfold by_priority in *. destruct (band_end_split n pr l Hs) as [H1 H2].
  rewrite <- (take_drop (band_end n pr l) l) in Hs at 1.
  apply StronglySorted_app in Hs as (Hc & Hs1 & Hs2).
  apply StronglySorted_app. split; [|split; [done|]].
  - intros a b Ha [->|Hb]%elem_of_cons.
    + rewrite Forall_forall in H1. rewrite Hv. by apply H1.
    + by apply Hc.
  - constructor; [done|]. eapply Forall_impl; [exact H2|]. cbn. lia.
Qed.

(** There is room for an entry of cost [c]. *)
Definition fits (c : Z) (d : deque) : Prop :=
  cur_bytes d + c <= max_bytes d /\ zlen (q d) < max_elems d /\ zlen (q d) < capacity d.

Lemma insert_ok v n pr d :
  queue_ok d -> fits (byte_cost v) d -> by_priority pr (q d) ->
  queue_ok (insert_prioritized_prepared v (byte_cost v) n pr d).
Proof.
  intros Hok (Hb & He & Hc) Hs.
  pose proof (insert_position v (byte_cost v) n pr d Hs) as Hq.
  destruct Hok as [H1 H2 H3 H4 H5 H6]. pose proof (byte_cost_range v).
  assert (zlen (q (insert_prioritized_prepared v (byte_cost v) n pr d)) = zlen (q d) + 1) as Hl.
  { rewrite Hq. rewrite <- (take_drop (band_end n pr (q d)) (q d)) at 5.
    rewrite !zlen_app. unfold zlen. cbn [length]. lia. }
  assert (cur_bytes (insert_prioritized_prepared v (byte_cost v) n pr d)
          = cur_bytes d + byte_cost v) as Hcur.
  { cbn. rewrite sat_add_small; [done|]. solve_u. }
  split.
  - rewrite Hcur, Hq, total_cost_middle, take_drop. lia.
  - rewrite Hcur. done.
  - done.
  - rewrite Hl. cbn [max_elems with_content insert_prioritized_prepared]. lia.
  - rewrite Hl. cbn [capacity with_content insert_prioritized_prepared]. lia.
  - done.
Qed.

(** ** The admission loop *)

Lemma over_limit_false c d :
  is_u64 c -> queue_ok d -> over_limit c d = false ->
  cur_bytes d + c <= max_bytes d /\ zlen (q d) < max_elems d /\
  (fixed_capacity d = true -> zlen (q d) < capacity d).
Proof.
  unfold over_limit. intros Hc [H1 H2 H3 H4 H5 H6] H. bool_to_prop.
  pose proof (total_cost_nonneg (q d)).
  split; [|split; [lia|]].
  - revert H. solve_u.
  - intros Hf. rewrite Hf in *. cbn [andb] in *. bool_to_prop. lia.
Qed.

Lemma over_limit_empty c d :
  is_u64 c -> c <= max_bytes d -> 1 <= capacity d -> queue_ok d -> q d = [] ->
  over_limit c d = false.
Proof.
  intros Hc Hm Hcap [H1 H2 H3 H4 H5 H6] He. unfold over_limit. rewrite H1, He in *.
  change (total_cost []) with 0 in *. change (zlen []) with 0 in *.
  rewrite !orb_false_iff, Z.ltb_ge, Z.leb_gt, andb_false_iff, Z.leb_gt.
  split_and!; [solve_u|lia|right; lia].
Qed.

(** The static part of a queue. *)
Definition same_config (d d' : deque) : Prop :=
  max_bytes d' = max_bytes d /\ max_elems d' = max_elems d /\
  fixed_capacity d' = fixed_capacity d /\ capacity d <= capacity d'.

(** [P evicted content] is preserved by every eviction. *)
Definition evicts (evict : evict_fn) (P : list T -> list T -> Prop) : Prop :=
  forall d ev o d', queue_ok d -> P ev (q d) -> evict d = Ok (o, d') ->
    exists v, o = Some v /\ queue_ok d' /\ same_config d d' /\
      (length (q d') < length (q d))%nat /\ P (ev ++ [v]) (q d').

Lemma admit_loop_spec evict P fuel c d adm ev :
  evicts evict P -> is_u64 c -> c <= max_bytes d -> 1 <= capacity d ->
  queue_ok d -> P ev (q d) -> (length (q d) < fuel)%nat ->
  exists res d' adm' ev',
    admit_loop fuel evict c d adm ev = Some (res, d', adm', ev') /\
    queue_ok d' /\ same_config d d' /\ P ev' (q d') /\
    match res with Ok _ => fits c d' | Err e => evict d' = Err e /\ q d' <> [] end.
Proof.
  intros Hev Hc. revert d adm ev. induction fuel as [|fuel IH]; intros d adm ev Hm Hcap Hok HP Hf;
    [lia|]. cbn [admit_loop].
  assert (forall d1 adm1, same_queue d d1 -> q d1 <> [] ->
    exists res d' adm' ev',
      match evict d1 with
      | Err e => Some (Err e, d1, adm1, ev)
      | Ok (old, d) => admit_loop fuel evict c d adm1
          (match old with Some old => ev ++ [old] | None => ev end)
      end = Some (res, d', adm', ev') /\
      queue_ok d' /\ same_config d d' /\ P ev' (q d') /\
      match res with Ok _ => fits c d' | Err e => evict d' = Err e /\ q d' <> [] end) as Hstep.
  { intros d1 adm1 Hsame Hne. pose proof (same_queue_ok _ _ Hok Hsame) as Hok1.
    destruct Hsame as [S1 S2 S3 S4 S5 S6]. rewrite <- S1 in HP, Hf.
    destruct (evict d1) as [[o d2]|e] eqn:Ee.
    - destruct (Hev d1 ev o d2 Hok1 HP Ee) as (v & -> & Hok2 & (C1 & C2 & C3 & C4) & Hl & HP2).
      destruct (IH d2 adm1 (ev ++ [v])) as (res & d' & adm' & ev' & H1 & H2 & (D1 & D2 & D3 & D4) & H4);
        [lia|lia|done|done|lia|].
      exists res, d', adm', ev'. split; [done|]. split; [done|]. split; [|done].
      unfold same_config. rewrite D1, D2, D3, C1, C2, C3. split_and!; done || lia.
    - exists (Err e), d1, adm1, ev. by split_and!. }
  destruct (over_limit c d) eqn:Eo.
  { apply Hstep; [apply same_queue_refl|]. intros He. revert Eo. by rewrite over_limit_empty. }
  apply over_limit_false in Eo as (E1 & E2 & E3); [|done..].
  pose proof (ensure_room_grows d adm Hok E2 E3) as Hg.
  destruct (ensure_room_for_one d adm) as [[room d1] adm1]. destruct Hg as [Hsame Hroom].
  destruct room.
  2: { apply Hstep; [done|]. destruct Hroom as [-> Hl]. intros He. unfold zlen in Hl.
       rewrite He in Hl. cbn [length] in Hl. lia. }
  pose proof Hsame as [S1 S2 S3 S4 S5 S6].
  exists (Ok tt), d1, adm1, ev. split; [done|]. split; [by eapply same_queue_ok|].
  split; [by split_and!|]. rewrite S1. split; [done|]. unfold fits. rewrite S1, S2, S3, S4. done.
Qed.

(** Nothing is evicted while the entry fits. *)
Lemma admit_loop_fits evict fuel c d adm ev :
  is_u64 c -> queue_ok d -> fits c d ->
  admit_loop (S fuel) evict c d adm ev = Some (Ok tt, d, adm, ev).
Proof.
  intros Hc [H1 H2 H3 H4 H5 H6] (F1 & F2 & F3). cbn [admit_loop].
  pose proof (total_cost_nonneg (q d)).
  assert (over_limit c d = false) as ->.
  { unfold over_limit. rewrite !orb_false_iff, Z.ltb_ge, Z.leb_gt, andb_false_iff, Z.leb_gt.
    split_and!; [solve_u|lia|right; lia]. }
  unfold ensure_room_for_one. by rewrite (proj2 (Z.ltb_lt _ _) F3).
Qed.

Lemma evict_tail_evicts q0 pr n :
  evicts (evict_tail pr n) (fun ev l => q0 = l ++ rev ev /\
    Forall (fun x => protected_from (pr x) n = false) ev).
Proof.
  intros d ev o d' Hok [Hq Hev] He. unfold evict_tail in He. pose proof (pop_back_ok d Hok) as Hpop.
  unfold pop_back in *.
  destruct (last (q d)) as [v|] eqn:El; [|by case_match].
  destruct (protected_from (pr v) n) eqn:Ep; [done|]. injection He as <- <-.
  apply last_split in El as Hl. exists v. split; [done|]. split; [done|].
  split; [by split_and!|]. cbn [q with_content]. split; [|split].
  - rewrite Hl at 2. rewrite length_app. cbn. lia.
  - rewrite rev_app_distr. cbn. rewrite Hq, Hl at 1. by rewrite <- app_assoc.
  - apply Forall_app. auto.
Qed.

Lemma evict_victim_evicts q0 pr n victim :
  evicts (evict_victim pr n victim) (fun ev l => Permutation q0 (l ++ ev) /\ sublist l q0 /\
    Forall (fun x => protected_from (pr x) n = false) ev).
Proof.
  intros d ev o d' Hok (Hq & Hsub & Hev) He. unfold evict_victim in He.
  destruct (victim d) as [idx|]; [|done]. destruct (q d !! idx) as [v|] eqn:El; [|done].
  destruct (protected_from (pr v) n) eqn:Ep; [done|].
  destruct (remove_pos_split idx d v El) as [Hs Hr]. rewrite Hr in He. injection He as <- <-.
  pose proof (remove_pos_ok idx d Hok) as Hok'. rewrite Hr in Hok'. cbn [snd] in Hok'.
  exists v. split; [done|]. split; [done|]. split; [by split_and!|]. cbn [q with_content].
  split_and!.
  - rewrite Hs at 3. rewrite !length_app. cbn. lia.
  - rewrite Hq, Hs at 1. rewrite <- !app_assoc. apply Permutation_app_head.
    cbn. rewrite Permutation_middle, (Permutation_app_comm ev [v]). cbn. 
    by rewrite <- Permutation_middle.
  - etransitivity; [|exact Hsub]. rewrite Hs at 3. apply sublist_app; [done|]. by apply sublist_cons.
  - apply Forall_app. auto.
Qed.

(** ** FIFO admission *)

(** [d'] is [d] without its first [k] entries. *)
Definition dropped (k : nat) (d d' : deque) : Prop :=
  queue_ok d' /\ same_config d d' /\ q d' = drop k (q d) /\ cur_bytes d' <= cur_bytes d.

Lemma same_config_trans d d1 d2 : same_config d d1 -> same_config d1 d2 -> same_config d d2.
Proof. intros (A1 & A2 & A3 & A4) (B1 & B2 & B3 & B4). split_and!; congruence || lia. Qed.

Lemma dropped_trans j k d d1 d2 : dropped j d d1 -> dropped k d1 d2 -> dropped (j + k) d d2.
Proof.
  intros (A1 & A2 & A3 & A4) (B1 & B2 & B3 & B4). split; [done|].
  split; [by eapply same_config_trans|]. rewrite B3, A3, drop_drop. split; [done|lia].
Qed.

Lemma dropped_front d :
  queue_ok d -> q d <> [] -> dropped 1 d (snd (pop_front d)).
Proof.
  intros Hok Hne. pose proof (pop_front_ok d Hok) as H. unfold pop_front in *.
  destruct (q d) as [|v l] eqn:Eq; [done|]. split; [done|]. split; [by split_and!|].
  split; [by rewrite Eq|]. cbn. pose proof (byte_cost_range v). pose proof (qo_cur _ Hok).
  pose proof (total_cost_nonneg (q d)). solve_u.
Qed.

Lemma drain_front_spec cost maxb l :
  0 <= cost <= maxb -> maxb <= isize_max -> total_cost l <= maxb ->
  exists k, drain_front l (total_cost l) cost maxb = (drop k l, total_cost (drop k l)) /\
    total_cost (drop k l) + cost <= maxb /\ total_cost (drop k l) <= total_cost l /\
    (total_cost l + cost <= maxb -> k = 0%nat).
Proof.
  intros Hc Hm. induction l as [|v l IH]; intros Hl; cbn [drain_front].
  - exists 0%nat. cbn. split_and!; done || lia.
  - pose proof (total_cost_nonneg (v :: l)). pose proof (total_cost_nonneg l).
    pose proof (byte_cost_range v).
    rewrite total_cost_cons in *. rewrite wrap64_small by solve_u.
    destruct (Z.ltb_spec maxb (byte_cost v + total_cost l + cost)) as [Hlt|Hge].
    + rewrite sat_sub_le by solve_u.
      replace (byte_cost v + total_cost l - byte_cost v) with (total_cost l) by lia.
      destruct IH as (k & -> & B1 & B2 & _); [solve_u|]. exists (S k). cbn [drop].
      split_and!; try done; solve_u.
    + exists 0%nat. cbn [drop]. rewrite total_cost_cons. split_and!; done || lia.
Qed.

(** One slot is free afterwards, at the price of at most one entry. *)
Lemma ensure_room_fifo d adm :
  queue_ok d -> zlen (q d) < max_elems d -> 1 <= capacity d ->
  let '(room, d1, _) := ensure_room_for_one d adm in
  exists k, dropped k d (if room then d1 else snd (pop_front d1)) /\
    zlen (q (if room then d1 else snd (pop_front d1)))
      < capacity (if room then d1 else snd (pop_front d1)) /\
    (zlen (q d) < capacity d -> k = 0%nat).
Proof.
  intros Hok Hlen Hcap. pose proof (qo_cap _ Hok) as Hle.
  assert (zlen (q d) = capacity d -> dropped 1 d (snd (pop_front d)) /\
    zlen (q (snd (pop_front d))) < capacity (snd (pop_front d))) as Hpop.
  { intros Heq. assert (q d <> []) as Hne by (intros He; unfold zlen in Heq; rewrite He in Heq; cbn [length] in Heq; lia).
    pose proof (dropped_front d Hok Hne) as Hd. split; [done|].
    destruct Hd as (_ & (_ & _ & _ & Hc) & -> & _).
    unfold zlen in *. rewrite length_drop. destruct (q d); [done|]. cbn [length] in *. lia. }
  destruct (decide (fixed_capacity d = true /\ zlen (q d) = capacity d)) as [[Hf Heq]|Hn].
  - unfold ensure_room_for_one. rewrite (proj2 (Z.ltb_ge _ _)), Hf by lia.
    exists 1%nat. destruct (Hpop Heq). split_and!; done || lia.
  - pose proof (ensure_room_grows d adm Hok Hlen) as Hg.
    destruct (ensure_room_for_one d adm) as [[room d1] adm1].
    destruct Hg as [Hsame Hroom].
    { intros Hf. destruct (decide (zlen (q d) = capacity d)); [tauto|lia]. }
    destruct room.
    + exists 0%nat. pose proof (same_queue_ok _ _ Hok Hsame) as Hok1.
      destruct Hsame as [S1 S2 S3 S4 S5 S6]. rewrite S1. split; [|by split].
      split; [done|]. split; [by split_and!|]. by rewrite S1, S2.
    + destruct Hroom as [-> Heq]. exists 1%nat. destruct (Hpop Heq). split_and!; done || lia.
Qed.

Lemma prepare_push_fifo_spec c d adm :
  queue_ok d -> is_u64 c -> 1 <= capacity d -> c <= max_bytes d ->
  exists k d' adm', prepare_push_fifo c d adm = (Ok tt, d', adm') /\
    dropped k d d' /\ fits c d' /\ (fits c d -> k = 0%nat).
Proof.
  intros Hok Hc Hcap Hm. unfold prepare_push_fifo.
  rewrite (proj2 (Z.eqb_neq _ _)), (proj2 (Z.ltb_ge _ _)) by lia.
  pose proof (qo_cur _ Hok) as Hcur. pose proof (qo_budget _ Hok). pose proof (qo_max _ Hok).
  rewrite Hcur. destruct (drain_front_spec c (max_bytes d) (q d)) as (k1 & -> & B1 & B2 & B3);
    [solve_u|lia|lia|].
  set (d1 := with_content d _ _).
  assert (dropped k1 d d1) as D1.
  { split; [|split; [by split_and!|split; [done|cbn; lia]]]. destruct Hok as [O1 O2 O3 O4 O5 O6].
    split; cbn [d1 with_content q cur_bytes max_bytes max_elems capacity]; try done; try lia;
      unfold zlen in *; rewrite length_drop; lia. }
  set (d2 := if max_elems d1 <=? zlen (q d1) then snd (pop_front d1) else d1).
  assert (exists k2, dropped k2 d1 d2 /\ zlen (q d2) < max_elems d2 /\
    (zlen (q d1) < max_elems d1 -> k2 = 0%nat)) as (k2 & D2 & L2 & Z2).
  { destruct D1 as (Hok1 & _). unfold d2.
    destruct (Z.leb_spec (max_elems d1) (zlen (q d1))) as [Hle|Hlt].
    - exists 1%nat. pose proof (qo_elems _ Hok1). pose proof (qo_len _ Hok1).
      assert (q d1 <> []) as Hne by (intros He; unfold zlen in Hle; rewrite He in Hle; cbn [length] in Hle; lia).
      pose proof (dropped_front d1 Hok1 Hne) as Hd. split; [done|].
      destruct Hd as (_ & (_ & He & _ & _) & -> & _). split; [|lia]. rewrite He.
      unfold zlen in *. rewrite length_drop. destruct (q d1); [done|]. cbn [length] in *. lia.
    - exists 0%nat. split; [|done]. split; [done|]. split; [by split_and!|]. by split. }
  clearbody d2. destruct D2 as (Hok2 & C2 & Q2 & M2).
  assert (1 <= capacity d2) as Hcap2 by (destruct C2 as (_ & _ & _ & C2); cbn in C2; lia).
  pose proof (ensure_room_fifo d2 adm Hok2 L2 Hcap2) as Hr.
  destruct (ensure_room_for_one d2 adm) as [[room d3] adm3].
  destruct Hr as (k3 & D3 & L3 & Z3). set (d4 := if room then d3 else _) in *. clearbody d4.
  assert (dropped (k1 + k2 + k3) d d4) as D by (eapply dropped_trans; [eapply dropped_trans;
    [exact D1|by split_and!]|exact D3]).
  exists (k1 + k2 + k3)%nat, d4, adm3. split; [done|]. split; [done|].
  destruct D3 as (Hok4 & (X1 & X2 & X3 & X4) & Q4 & M4). destruct C2 as (Y1 & Y2 & Y3 & Y4).
  split.
  - split; [|split; [|done]].
    + rewrite X1, Y1. cbn [d1 with_content max_bytes cur_bytes] in *. lia.
    + rewrite X2, Q4. unfold zlen in *. rewrite length_drop. lia.
  - intros (F1 & F2 & F3). specialize (B3 ltac:(lia)). subst k1.
    specialize (Z2 F2). subst k2. rewrite Z3; [done|]. rewrite Q2.
    change (zlen (q d) < capacity d2). change (capacity d <= capacity d2) in Y4. lia.
Qed.

(** ** Sorted queues *)

Lemma by_priority_sublist pr l k : sublist l k -> by_priority pr k -> by_priority pr l.
Proof.
  unfold by_priority. induction 1 as [|x l k Hs IH|x l k Hs IH]; intros Hk.
  - constructor.
  - apply StronglySorted_cons in Hk as [Hx Hk]. constructor; [by apply IH|].
    rewrite Forall_forall in Hx |- *. intros y Hy. apply Hx. by eapply elem_of_sublist.
  - apply StronglySorted_cons in Hk as [_ Hk]. by apply IH.
Qed.

(** ** Prioritised pushes *)

(** [w] joins the end of its priority band in [kept]. *)
Definition joins_band (pr : T -> Z) (w : T) (kept l : list T) : Prop :=
  exists before after, kept = before ++ after /\ l = before ++ w :: after /\
    Forall (fun x => pr w <= pr x) before /\ Forall (fun x => pr x < pr w) after.

(** Both prioritised pushes: [P] relates the evicted entries to what is kept, and
    every kept queue is in priority order. *)
Lemma push_admitted_spec evict P v pr d adm :
  (forall w, evicts (evict w) (P w)) -> (forall w, P w [] (q d)) ->
  (forall w ev l, P w ev l -> by_priority pr l) -> queue_ok d ->
  exists res d' adm' ev,
    push_admitted evict v pr d adm = Some (res, d', adm', ev) /\ queue_ok d' /\
    by_priority pr (q d') /\
    match park_for_queue v with
    | Err e => res = Err e /\ d' = d /\ ev = []
    | Ok w =>
        (fits (byte_cost w) d -> res = Ok tt /\ ev = []) /\
        exists kept, P w ev kept /\
        match res with
        | Ok _ => joins_band pr w kept (q d')
        | Err e => q d' = kept /\
            ((capacity d = 0 /\ d' = d) \/ (max_bytes d < byte_cost w /\ d' = d) \/
             (evict w d' = Err e /\ kept <> []))
        end
    end.
Proof.
  intros Hev H0 Hsort Hok. unfold push_admitted.
  destruct (park_for_queue v) as [w|e].
  2: { exists (Err e), d, adm, []. split_and!; try done. eapply (Hsort v), H0. }
  pose proof (Hsort _ _ _ (H0 w)) as Hs. pose proof (byte_cost_range w) as Hc.
  destruct (Z.eqb_spec (capacity d) 0) as [Hz|Hz].
  { exists (Err (Io "queue unavailable")), d, adm, []. split_and!; try done.
    - intros (_ & _ & Hf). pose proof (zlen_nonneg (q d)). lia.
    - exists (q d). split_and!; auto. }
  destruct (Z.ltb_spec (max_bytes d) (byte_cost w)) as [Hm|Hm].
  { exists (Err (PacketTooLarge "Item exceeds maximum byte budget")), d, adm, [].
    split_and!; try done.
    - intros (Hf & _). pose proof (total_cost_nonneg (q d)). pose proof (qo_cur _ Hok). lia.
    - exists (q d). split_and!; auto. }
  pose proof (qo_cap _ Hok). pose proof (zlen_nonneg (q d)).
  destruct (admit_loop_spec (evict w) (P w) (S (length (q d))) (byte_cost w) d adm [])
    as (res & d' & adm' & ev & Hrun & Hok' & Hcfg & HP & Hres); [done..|lia|done|apply H0|lia|].
  rewrite Hrun. assert (fits (byte_cost w) d -> res = Ok tt /\ ev = []) as Hfit.
  { intros Hf. rewrite admit_loop_fits in Hrun by done. by injection Hrun as <- _ _ <-. }
  destruct res as [[]|e].
  - pose proof (Hsort _ _ _ HP) as Hs'.
    pose proof (insert_position w (byte_cost w) (pr w) pr d' Hs') as Hq.
    exists (Ok tt), (insert_prioritized_prepared w (byte_cost w) (pr w) pr d'), adm', ev.
    split; [done|]. split; [by apply insert_ok|].
    split; [rewrite Hq; by apply insert_sorted|]. split; [by intros Hf; split; [|by apply Hfit]|].
    exists (q d'). split; [done|]. destruct (band_end_split (pr w) pr (q d') Hs') as [B1 B2].
    eexists _, _. split; [symmetry; apply (take_drop (band_end (pr w) pr (q d')))|].
    by split.
  - exists (Err e), d', adm', ev. split; [done|]. split; [done|]. split; [by eapply Hsort|].
    split; [done|]. exists (q d'). split; [done|]. split; [done|]. right; right. exact Hres.
Qed.

(** ** Properties *)

(** C35: a prioritised push always terminates and keeps the queue in its byte,
    element and capacity bounds and in priority order.  It evicts from the tail
    only, never an entry that outranks the new one (nor an equal one of the
    control band 254), and nothing when the new entry fits; an accepted entry
    joins the end of its priority band, and a refusal after evictions means the
    remaining tail is protected from the new entry. *)
Theorem push_back_prioritized_spec v pr d adm :
  queue_ok d -> by_priority pr (q d) ->
  exists res d' adm' ev,
    push_back_prioritized_observed v pr d adm = Some (res, d', adm', ev) /\ queue_ok d' /\
    by_priority pr (q d') /\
    match park_for_queue v with
    | Err e => res = Err e /\ d' = d /\ ev = []
    | Ok w =>
        Forall (fun x => protected_from (pr x) (pr w) = false) ev /\
        (fits (byte_cost w) d -> res = Ok tt /\ ev = []) /\
        exists kept, q d = kept ++ rev ev /\
        match res with
        | Ok _ => joins_band pr w kept (q d')
        | Err _ => q d' = kept /\
            (capacity d = 0 \/ max_bytes d < byte_cost w \/
             exists t, last kept = Some t /\ protected_from (pr t) (pr w) = true)
        end
    end.
Proof.
  intros Hok Hs. unfold push_back_prioritized_observed.
  destruct (push_admitted_spec (fun v => evict_tail pr (pr v))
    (fun w ev l => q d = l ++ rev ev /\
       Forall (fun x => protected_from (pr x) (pr w) = false) ev) v pr d adm)
    as (res & d' & adm' & ev & Hrun & Hok' & Hs' & H); [|by rewrite app_nil_r| |done|].
  { intros w. apply evict_tail_evicts. }
  { intros w ev l [Hq _]. rewrite Hq in Hs. by apply StronglySorted_app in Hs as (_ & ? & _). }
  exists res, d', adm', ev. split_and!; try done. destruct (park_for_queue v) as [w|e]; [|done].
  destruct H as (Hfit & kept & [Hq Hev] & H). split_and!; try done. exists kept. split; [done|].
  destruct res as [[]|e]; [done|]. destruct H as (Hk & Hwhy). split; [done|].
  destruct Hwhy as [[? _]|[[? _]|[He Hne]]]; [tauto|tauto|]. right; right.
  unfold evict_tail in He. rewrite Hk in He.
  destruct (last kept) as [t|] eqn:El; [|by apply last_None in El].
  exists t. split; [done|]. destruct (protected_from _ _); [done|].
  unfold pop_back in He. by rewrite Hk, El in He.
Qed.

(** With a victim selector of the caller the same bounds and order hold:
    whatever entry the selector names is evicted only if it does not outrank the
    new one, the order of the others is kept, and the push always terminates. *)
Theorem push_back_prioritized_select_spec v pr victim d adm :
  queue_ok d -> by_priority pr (q d) ->
  exists res d' adm' ev,
    push_back_prioritized_select v pr victim d adm = Some (res, d', adm', ev) /\ queue_ok d' /\
    by_priority pr (q d') /\
    match park_for_queue v with
    | Err e => res = Err e /\ d' = d /\ ev = []
    | Ok w =>
        Forall (fun x => protected_from (pr x) (pr w) = false) ev /\
        (fits (byte_cost w) d -> res = Ok tt /\ ev = []) /\
        exists kept, Permutation (q d) (kept ++ ev) /\ sublist kept (q d) /\
        match res with Ok _ => joins_band pr w kept (q d') | Err _ => q d' = kept end
    end.
Proof.
  intros Hok Hs. unfold push_back_prioritized_select.
  destruct (push_admitted_spec (fun v => evict_victim pr (pr v) (fun d => victim d v))
    (fun w ev l => Permutation (q d) (l ++ ev) /\ sublist l (q d) /\
       Forall (fun x => protected_from (pr x) (pr w) = false) ev) v pr d adm)
    as (res & d' & adm' & ev & Hrun & Hok' & Hs' & H); [| | |done|].
  { intros w. apply evict_victim_evicts. }
  { by rewrite app_nil_r. }
  { intros w ev l (_ & Hsub & _). by eapply by_priority_sublist. }
  exists res, d', adm', ev. split_and!; try done. destruct (park_for_queue v) as [w|e]; [|done].
  destruct H as (Hfit & kept & (Hq & Hsub & Hev) & H). split_and!; try done.
  exists kept. split_and!; try done. destruct res; [done|]. tauto.
Qed.

(** A FIFO push either reports why the entry can never be queued and
    changes nothing, or appends it, after dropping a prefix of the oldest
    entries (none when it fits), and keeps all bounds. *)
Theorem push_back_spec v d adm :
  queue_ok d ->
  let '(res, d', _) := push_back v d adm in
  match park_for_queue v with
  | Err e => res = Err e /\ d' = d
  | Ok w =>
      if capacity d =? 0 then res = Err (Io "queue unavailable") /\ d' = d
      else if max_bytes d <? byte_cost w
      then res = Err (PacketTooLarge "Item exceeds maximum byte budget") /\ d' = d
      else res = Ok tt /\ queue_ok d' /\
           exists k, q d' = drop k (q d) ++ [w] /\ (fits (byte_cost w) d -> k = 0%nat)
  end.
Proof.
  intros Hok. unfold push_back. destruct (park_for_queue v) as [w|e]; [|done].
  pose proof (byte_cost_range w) as Hc.
  destruct (Z.eqb_spec (capacity d) 0) as [Hz|Hz]; [unfold prepare_push_fifo; by rewrite Hz|].
  destruct (Z.ltb_spec (max_bytes d) (byte_cost w)) as [Hm|Hm].
  { unfold prepare_push_fifo. by rewrite (proj2 (Z.eqb_neq _ _) Hz), (proj2 (Z.ltb_lt _ _) Hm). }
  pose proof (qo_cap _ Hok). pose proof (zlen_nonneg (q d)).
  destruct (prepare_push_fifo_spec (byte_cost w) d adm Hok Hc ltac:(lia) Hm)
    as (k & d' & adm' & -> & (Hok' & Hcfg & Hq & _) & (F1 & F2 & F3) & Hk).
  split; [done|]. split; [|exists k; cbn [q with_content]; by rewrite Hq].
  destruct Hok' as [H1 H2 H3 H4 H5 H6]. pose proof (total_cost_nonneg (q d')).
  rewrite sat_add_small by solve_u.
  split; cbn [q cur_bytes max_bytes max_elems capacity with_content]; try done.
  - rewrite H1, total_cost_app, total_cost_cons. cbn. lia.
  - rewrite zlen_app. unfold zlen at 2. cbn [length]. lia.
  - rewrite zlen_app. unfold zlen at 2. cbn [length]. lia.
Qed.

(** ** Construction *)

Lemma admitted_capacity_spec n c ib adm :
  0 <= c < 2 ^ Z.of_nat n ->
  exists c' adm', admitted_initial_capacity n c ib adm = Some (c', adm') /\ 0 <= c' <= c.
Proof.
  revert c adm. induction n as [|n IH]; intros c adm Hc; cbn [admitted_initial_capacity].
  - assert (c = 0) as -> by (change (2 ^ Z.of_nat 0) with 1 in Hc; lia). by exists 0, adm.
  - destruct (Z.eqb_spec c 0) as [->|]; [by exists 0, adm|].
    destruct (check _ _ adm) as [[[]|e] adm1]; [by exists c, adm1; split; [|lia]|].
    rewrite Nat2Z.inj_succ, Z.pow_succ_r in Hc by lia.
    pose proof (Z.div_pos c 2 ltac:(lia) ltac:(lia)).
    pose proof (Z.div_le_upper_bound c 2 c ltac:(lia) ltac:(lia)).
    assert (c / 2 < 2 ^ Z.of_nat n) by (apply Z.div_lt_upper_bound; lia).
    destruct (IH (c / 2) adm1 ltac:(lia)) as (c' & adm' & -> & ?). exists c', adm'. split; [done|lia].
Qed.

Lemma allocate_ring_spec n c ib adm :
  0 <= c < 2 ^ Z.of_nat n -> (n <= 64)%nat ->
  exists cap adm', allocate_initial_ring (S n) c ib adm = Some (cap, adm') /\ 0 <= cap.
Proof.
  revert c adm. induction n as [|n IH]; intros c adm Hc Hn; cbn [allocate_initial_ring].
  - assert (c = 0) as -> by (change (2 ^ Z.of_nat 0) with 1 in Hc; lia). by exists 0, adm.
  - destruct (admitted_capacity_spec 64 c ib adm) as (c1 & adm1 & -> & Hc1).
    { split; [lia|]. eapply Z.lt_le_trans; [apply Hc|]. apply Z.pow_le_mono_r; lia. }
    destruct (Z.eqb_spec c1 0) as [->|]; [by exists 0, adm1|].
    destruct (reserve_exact 0 0 c1) as [cap|] eqn:Er.
    { apply reserve_exact_room in Er as [? ?]. by exists cap, adm1. }
    rewrite Nat2Z.inj_succ, Z.pow_succ_r in Hc by lia.
    apply (IH (c1 / 2) adm1); [|lia]. split; [apply Z.div_pos; lia|].
    apply Z.div_lt_upper_bound; lia.
Qed.

(** A finite multiplier in normal range, decoded. *)
Lemma f64_fields bits :
  f64_1_01 <= bits < f64_16 ->
  let e := bits / 2 ^ 52 - 1023 in
  let m := bits mod 2 ^ 52 + 2 ^ 52 in
  0 <= e <= 3 /\ 2 ^ 52 <= m < 2 ^ 53 /\
  float_to_ratio bits = (m / 2 ^ (42 - e), 1024).
Proof.
  intros Hb e m. unfold f64_1_01, f64_16 in Hb.
  assert (0 <= e <= 3) as He.
  { unfold e. pose proof (Z.div_lt_upper_bound bits (2 ^ 52) 1027 ltac:(lia) ltac:(lia)).
    pose proof (Z.div_le_lower_bound bits (2 ^ 52) 1023 ltac:(lia) ltac:(lia)). lia. }
  pose proof (Z.mod_pos_bound bits (2 ^ 52) ltac:(lia)) as Hm.
  assert (f64_nan bits = false) as Hn.
  { unfold f64_nan. change 9223372036854775807 with (Z.ones 63).
    rewrite Z.land_ones, Z.mod_small by lia. apply Z.ltb_ge. lia. }
  assert (f64_negative bits = false) as Hneg.
  { unfold f64_negative. rewrite Z.shiftr_div_pow2, Z.div_small by lia. done. }
  split; [done|]. split; [lia|]. unfold float_to_ratio. rewrite Hn, Hneg.
  unfold f64_1_01, f64_16. rewrite (proj2 (Z.ltb_ge _ _)), (proj2 (Z.leb_gt _ _)) by lia.
  cbn [orb]. change 2047 with (Z.ones 11). change (2 ^ 52 - 1) with (Z.ones 52).
  rewrite (Z.shiftr_div_pow2 bits 52), !Z.land_ones by lia.
  assert (bits / 2 ^ 52 = e + 1023) as Hd by (unfold e; lia).
  rewrite Hd, (Z.mod_small (e + 1023)) by lia.
  change (2 ^ 52) with (Z.shiftl 1 52) at 2. rewrite lor_shiftl_add by lia.
  replace (42 - (e + 1023 - 1023)) with (42 - e) by lia.
  rewrite Z.shiftr_div_pow2 by lia. by rewrite Z.mul_1_l.
Qed.

Lemma float_to_ratio_range bits : 1025 <= fst (float_to_ratio bits) <= 16384.
Proof.
  destruct (f64_nan bits) eqn:En; [unfold float_to_ratio; rewrite En; cbn; lia|].
  destruct (f64_negative bits || (bits <? f64_1_01)) eqn:E1;
    [unfold float_to_ratio; rewrite En, E1; cbn; lia|].
  destruct (f64_16 <=? bits) eqn:E2; [unfold float_to_ratio; rewrite En, E1, E2; cbn; lia|].
  apply orb_false_iff in E1 as [_ E1]. bool_to_prop.
  destruct (f64_fields bits ltac:(lia)) as (He & Hm & ->). cbn [fst].
  set (e := bits / 2 ^ 52 - 1023) in *. set (m := bits mod 2 ^ 52 + 2 ^ 52) in *.
  assert (e = 0 \/ e = 1 \/ e = 2 \/ e = 3) as Hcases by lia.
  assert (e = 0 -> 4548635623644201 <= m) as H0.
  { unfold e, m, f64_1_01 in *. intros He0. pose proof (Z.div_mod bits (2 ^ 52) ltac:(lia)). lia. }
  destruct Hcases as [H|[H|[H|H]]]; rewrite H; [specialize (H0 H)|clear H0..];
    match goal with |- context [2 ^ (42 - ?k)] =>
      let d := eval vm_compute in (2 ^ (42 - k)) in change (2 ^ (42 - k)) with d end;
    (split; [apply Z.div_le_lower_bound; lia|]; apply Z.lt_succ_r, Z.div_lt_upper_bound; lia).
Qed.

(** A queue with a positive budget, an initial size within it and a
    multiplier that is not below one is always constructed (the halving loops
    terminate), empty and within its bounds; its growth ratio lies strictly
    above 1 and at most 16, and for a multiplier in [1.01, 16) it is the
    multiplier truncated to 1/1024. *)
Theorem new_spec max_b starting mult adm :
  1 <= max_b <= isize_max -> 0 <= starting <= max_b -> f64_lt_one mult = false ->
  exists d adm', new max_b starting mult adm = Some (d, adm') /\
    queue_ok d /\ q d = [] /\ max_bytes d = max_b /\
    max_elems d = Z.max (max_b / Z.max item_size 1) 1 /\
    grow_den d = 1024 /\ 1024 < grow_num d <= 16 * 1024 /\
    (f64_1_01 <= mult < f64_16 ->
     let e := mult / 2 ^ 52 - 1023 in
     let m := mult mod 2 ^ 52 + 2 ^ 52 in
     grow_num d * 2 ^ 52 <= 1024 * (m * 2 ^ e) < (grow_num d + 1) * 2 ^ 52).
Proof.
  intros Hm Hs Hf. unfold new.
  rewrite (proj2 (Z.ltb_ge _ _)), (proj2 (Z.eqb_neq _ _)), Hf by lia. cbv zeta.
  pose proof (float_to_ratio_range mult) as Hr.
  assert (snd (float_to_ratio mult) = 1024) as Hden
    by (unfold float_to_ratio; destruct (f64_nan mult); done).
  destruct (float_to_ratio mult) as [num den] eqn:Efr. cbn [fst snd] in Hr, Hden. subst den.
  set (me := Z.max (max_b / Z.max item_size 1) 1).
  assert (1 <= me <= max_b) as Hme.
  { unfold me. split; [lia|]. apply Z.max_lub; [|lia].
    apply Z.div_le_upper_bound; [lia|]. nia. }
  set (sc := if compact_store && f64_gt_one mult then me else _).
  assert (1 <= sc <= me) as Hsc by (unfold sc; destruct (_ && _); lia).
  assert (2 ^ Z.of_nat 64 = u64_max + 1) as H64 by reflexivity.
  destruct (allocate_ring_spec 64 sc (Z.max item_size 1) adm) as (cap & adm1 & -> & Hcap);
    [solve_u|lia|].
  eexists _, adm1. split; [reflexivity|]. split; [|split_and!; try done; cbn; try lia].
  - split; cbn [q cur_bytes max_bytes max_elems capacity]; try done; try lia;
      change (zlen []) with 0; solve_u.
  - intros Hrange. destruct (f64_fields mult Hrange) as (He & Hmm & Heq).
    rewrite Efr in Heq. injection Heq as ->.
    set (e := mult / 2 ^ 52 - 1023) in *. set (m := mult mod 2 ^ 52 + 2 ^ 52) in *.
    pose proof (Z.div_mod m (2 ^ (42 - e)) ltac:(pose proof (Z.pow_pos_nonneg 2 (42 - e)); lia)) as Hd.
    pose proof (Z.mod_pos_bound m (2 ^ (42 - e)) ltac:(apply Z.pow_pos_nonneg; lia)) as Hb.
    set (n := m / 2 ^ (42 - e)) in *. set (r := m mod 2 ^ (42 - e)) in *. clearbody n r.
    assert (2 ^ 52 = 1024 * (2 ^ (42 - e) * 2 ^ e)) as H52.
    { rewrite <- Z.pow_add_r by lia. replace (42 - e + e) with 42 by lia. done. }
    pose proof (Z.pow_pos_nonneg 2 e ltac:(lia) ltac:(lia)).
    rewrite H52. nia.
Qed.

(** ** Removal *)

(** Every removal keeps the byte count and the bounds exact: popping
    either end, removing by position or value, clearing and retaining by a
    predicate; retaining leaves exactly the entries that satisfy it, in order,
    and reports each of the others once. *)
Theorem removal_spec d idx eqb needle keep :
  queue_ok d ->
  queue_ok (snd (pop_front d)) /\ q d = option_list (fst (pop_front d)) ++ q (snd (pop_front d)) /\
  queue_ok (snd (pop_back d)) /\ q d = q (snd (pop_back d)) ++ option_list (fst (pop_back d)) /\
  queue_ok (snd (remove_pos idx d)) /\ fst (remove_pos idx d) = q d !! idx /\
  q (snd (remove_pos idx d)) = delete idx (q d) /\
  queue_ok (remove_value eqb needle d) /\ queue_ok (clear d) /\
  queue_ok (fst (retain_observed keep d)) /\
  q (fst (retain_observed keep d)) = List.filter keep (q d) /\
  snd (retain_observed keep d) = List.filter (fun v => negb (keep v)) (q d).
Proof.
  intros Hok.
  pose proof (retain_loop_spec (length (q d)) 0 keep d [] Hok ltac:(lia) ltac:(lia)) as Hr.
  unfold retain_observed. destruct (retain_loop _ _ _ _ _) as [d' ev']. destruct Hr as (R1 & R2 & R3).
  rewrite drop_0 in R2, R3. cbn [fst snd].
  split_and!; try done.
  - by apply pop_front_ok.
  - unfold pop_front. destruct (q d) eqn:Eq; cbn; by rewrite ?Eq.
  - by apply pop_back_ok.
  - unfold pop_back. destruct (last (q d)) as [v|] eqn:El; cbn [fst snd option_list q with_content].
    + by apply last_split.
    + by rewrite app_nil_r.
  - by apply remove_pos_ok.
  - unfold remove_pos. destruct (q d !! idx) eqn:El; cbn; done.
  - unfold remove_pos. destruct (q d !! idx) eqn:El; cbn; [done|].
    apply lookup_ge_None in El. by rewrite delete_take_drop, take_ge, drop_ge, app_nil_r by lia.
  - unfold remove_value. destruct (list_find _ _) as [[i x]|]; [by apply remove_pos_ok|done].
  - by apply clear_ok.
Qed.

(** ** Prepared groups *)

Definition sum_costs (costs : list Z) : Z := foldr Z.add 0 costs.

Lemma checked_sum_spec n costs m : checked_sum n costs = Some m -> m = n + sum_costs costs.
Proof.
  revert n. induction costs as [|c costs IH]; intros n; cbn; [intros [= ->]; lia|].
  unfold checked_add. destruct (_ <=? _); [|done]. intros H%IH. unfold sum_costs in *. lia.
Qed.

(** Entries with their recorded costs. *)
Definition costs_true (values : list (T * Z)) : Prop :=
  Forall (fun v => byte_cost (fst v) = snd v) values.

(** Room for a whole group. *)
Definition fits_all (values : list (T * Z)) (d : deque) : Prop :=
  cur_bytes d + sum_costs (map snd values) <= max_bytes d /\
  zlen (q d) + zlen values <= max_elems d /\ zlen (q d) + zlen values <= capacity d.

Lemma insert_content_permutation v c n pr d :
  by_priority pr (q d) -> Permutation (q (insert_prioritized_prepared v c n pr d)) (v :: q d).
Proof.
  intros Hs. rewrite insert_position by done. rewrite <- Permutation_middle. by rewrite take_drop.
Qed.

Lemma sum_costs_nonneg values : costs_true values -> 0 <= sum_costs (map snd values).
Proof.
  induction 1 as [|[v c] values Hc Hv IH]; [done|]. cbn [map sum_costs foldr snd fst] in *.
  pose proof (byte_cost_range v). unfold sum_costs in IH. solve_u.
Qed.

(** One step of a group. *)
Lemma fits_all_step v c values pr d :
  queue_ok d -> by_priority pr (q d) -> costs_true ((v, c) :: values) ->
  fits_all ((v, c) :: values) d ->
  let d' := insert_prioritized_prepared v c (pr v) pr d in
  fits c d /\ queue_ok d' /\ by_priority pr (q d') /\ fits_all values d' /\
  capacity d' = capacity d /\ Permutation (q d') (v :: q d).
Proof.
  intros Hok Hs Hc (F1 & F2 & F3). apply Forall_cons in Hc as [Hc Hcs]. cbn [fst snd] in Hc.
  pose proof (sum_costs_nonneg values Hcs) as Hn.
  assert (zlen ((v, c) :: values) = zlen values + 1) as Hl by (unfold zlen; cbn [length]; lia).
  cbn [map sum_costs foldr snd] in F1. unfold sum_costs in Hn. rewrite Hl in *.
  pose proof (zlen_nonneg values). subst c.
  assert (fits (byte_cost v) d) as Hfit by (split; [lia|split; lia]).
  pose proof (insert_content_permutation v (byte_cost v) (pr v) pr d Hs) as Hp.
  pose proof (insert_ok v (pr v) pr d Hok Hfit Hs) as Hok'.
  split; [done|]. split; [done|]. split; [rewrite insert_position by done; by apply insert_sorted|].
  split; [|done].
  assert (zlen (q (insert_prioritized_prepared v (byte_cost v) (pr v) pr d)) = zlen (q d) + 1) as Hz.
  { unfold zlen. rewrite Hp. cbn [length]. lia. }
  split; [|rewrite Hz; cbn [capacity max_elems insert_prioritized_prepared with_content]; lia].
  rewrite (qo_cur _ Hok'). rewrite (qo_cur _ Hok) in F1.
  assert (forall l k, Permutation l k -> total_cost l = total_cost k) as Hperm.
  { induction 1; rewrite ?total_cost_cons; lia || congruence. }
  rewrite (Hperm _ _ Hp), total_cost_cons. unfold sum_costs. cbn. lia.
Qed.

Lemma insert_all values pr d :
  queue_ok d -> by_priority pr (q d) -> costs_true values -> fits_all values d ->
  let d' := foldl (fun d '(item, cost) =>
              insert_prioritized_prepared item cost (pr item) pr d) d values in
  queue_ok d' /\ by_priority pr (q d') /\ capacity d' = capacity d /\
  Permutation (q d') (map fst values ++ q d).
Proof.
  revert d. induction values as [|[v c] values IH]; intros d Hok Hs Hc Hf; cbn [foldl]; [done|].
  destruct (fits_all_step v c values pr d Hok Hs Hc Hf) as (_ & Hok' & Hs' & Hf' & Hcap & Hp).
  apply Forall_cons in Hc as [_ Hc]. destruct (IH _ Hok' Hs' Hc Hf') as (R1 & R2 & R3 & R4).
  split_and!; [done|done|congruence|]. rewrite R4, Hp. cbn [map fst app].
  symmetry. apply Permutation_middle.
Qed.

Lemma by_priority_map pr l :
  by_priority pr l <-> StronglySorted (fun a b => b <= a) (map pr l).
Proof.
  unfold by_priority. induction l as [|x l IH]; cbn [map]; [split; constructor|].
  rewrite !StronglySorted_cons, IH, Forall_map. done.
Qed.

Fixpoint push_prepared_batch (values : list (T * Z)) (pr : T -> Z) (d : deque) : option deque :=
  match values with
  | [] => Some d
  | (v, c) :: values =>
      match push_prepared_batch_item v c (pr v) pr d with
      | Some d => push_prepared_batch values pr d
      | None => None
      end
  end.

(** A batch that [fits_prepared_batch] accepted is committed in full, item
    by item: no assertion fails, nothing is evicted and no capacity is
    allocated, and the queue keeps its bounds and its priority order. *)
Theorem prepared_batch_commits values pr d :
  queue_ok d -> by_priority pr (q d) -> costs_true values ->
  fits_prepared_batch (map snd values) d = true ->
  exists d', push_prepared_batch values pr d = Some d' /\ queue_ok d' /\
    by_priority pr (q d') /\ capacity d' = capacity d /\
    Permutation (q d') (map fst values ++ q d).
Proof.
  intros Hok Hs Hc Hf.
  assert (fits_all values d) as Hall.
  { unfold fits_prepared_batch, checked_add in Hf. destruct (_ <=? u64_max); [|done].
    destruct (checked_sum _ _) as [m|] eqn:Em; [|done]. apply checked_sum_spec in Em as ->.
    bool_to_prop. unfold fits_all, zlen in *. rewrite length_map in *. split_and!; lia. }
  clear Hf. revert d Hok Hs Hall. induction values as [|[v c] values IH]; intros d Hok Hs Hf.
  { by exists d. }
  destruct (fits_all_step v c values pr d Hok Hs Hc Hf) as ((F1 & F2 & F3) & Hok' & Hs' & Hf' & Hcap & Hp).
  apply Forall_cons in Hc as [Hcv Hc]. destruct (IH Hc _ Hok' Hs' Hf') as (d' & R1 & R2 & R3 & R4 & R5).
  exists d'. cbn [push_prepared_batch]. unfold push_prepared_batch_item.
  assert (fits_prepared_batch [c] d = true) as ->.
  { unfold fits_prepared_batch, checked_sum, checked_add. change (zlen [c]) with 1.
    pose proof (qo_max _ Hok). pose proof (byte_cost_range v). cbn [fst snd] in Hcv.
    pose proof (qo_cap _ Hok). pose proof (total_cost_nonneg (q d)). pose proof (qo_cur _ Hok).
    destruct (Z.leb_spec (zlen (q d) + 1) u64_max) as [|Hx].
    - rewrite (proj2 (Z.leb_le (cur_bytes d + c) _)) by solve_u.
      rewrite !(proj2 (Z.leb_le _ _)) by lia. done.
    - pose proof (qo_elems _ Hok). lia. }
  split_and!; [done|done|done|congruence|]. rewrite R5, Hp. cbn [map fst app].
  symmetry. apply Permutation_middle.
Qed.

(** Replacing an entry by one of the same priority. *)
Lemma replace_item_ok i v c old pr d :
  queue_ok d -> by_priority pr (q d) -> q d !! i = Some old -> byte_cost v = c ->
  pr v = pr old -> cur_bytes d - byte_cost old + c <= max_bytes d ->
  exists d', replace_prepared_item i v c d = Some d' /\ queue_ok d' /\ by_priority pr (q d') /\
    same_config d d' /\ capacity d' = capacity d /\ zlen (q d') = zlen (q d) /\
    cur_bytes d' = cur_bytes d - byte_cost old + c /\
    Permutation (q d') (v :: delete i (q d)).
Proof.
  intros Hok Hs Hi Hc Hp Hb.
  assert (q d = take i (q d) ++ old :: drop (S i) (q d)) as Hq by (by rewrite take_drop_middle).
  pose proof (qo_cur _ Hok) as Hcur. pose proof (byte_cost_range v). pose proof (byte_cost_range old).
  assert (byte_cost old <= cur_bytes d).
  { rewrite Hcur, Hq, total_cost_middle.
    pose proof (total_cost_nonneg (take i (q d) ++ drop (S i) (q d))). lia. }
  pose proof (qo_max _ Hok).
  assert (<[i:=v]> (q d) = take i (q d) ++ v :: drop (S i) (q d)) as Hins
    by (apply insert_take_drop; by eapply lookup_lt_Some).
  assert (length (<[i:=v]> (q d)) = length (q d)) as Hlen by apply length_insert.
  eexists. split.
  { unfold replace_prepared_item, checked_sub, checked_add. rewrite Hi.
    rewrite (proj2 (Z.leb_le _ _)) by lia. rewrite (proj2 (Z.leb_le _ _)) by solve_u. reflexivity. }
  destruct Hok as [O1 O2 O3 O4 O5 O6]. split_and!; cbn [q cur_bytes capacity with_content];
    try done.
  - split; cbn [q cur_bytes max_bytes max_elems capacity with_content]; try done; try lia.
    + rewrite O1, Hq at 1. rewrite Hins, !total_cost_middle. lia.
    + unfold zlen in *. by rewrite Hlen.
    + unfold zlen in *. by rewrite Hlen.
  - rewrite by_priority_map in *. replace (map pr (<[i:=v]> (q d))) with (map pr (q d)); [done|].
    rewrite Hins. rewrite Hq at 1. by rewrite !map_app; cbn [map]; rewrite Hp.
  - unfold zlen. by rewrite Hlen.
  - rewrite Hins, delete_take_drop. symmetry. apply Permutation_middle.
Qed.

(** Replacing a retained entry by a group that [fits_replacement_group]
    accepts never panics, evicts nothing and allocates nothing: the queue holds
    the other entries and the whole group, within its bounds and in priority
    order (the first entry of the group taking over the slot and priority). *)
Theorem replacement_group_commits i v c values old pr d :
  queue_ok d -> by_priority pr (q d) -> q d !! i = Some old -> pr v = pr old ->
  costs_true ((v, c) :: values) ->
  fits_replacement_group i (c :: map snd values) d = true ->
  exists d', replace_prepared_group i ((v, c) :: values) pr d = Some d' /\ queue_ok d' /\
    by_priority pr (q d') /\ capacity d' = capacity d /\
    Permutation (q d') (v :: map fst values ++ delete i (q d)).
Proof.
  intros Hok Hs Hi Hp Hc Hf. unfold fits_replacement_group in Hf. rewrite Hi in Hf.
  unfold checked_sub, checked_add in Hf. pose proof (zlen_nonneg values).
  assert (zlen (c :: map snd values) = zlen values + 1) as Hl
    by (unfold zlen; cbn [length]; rewrite length_map; lia).
  rewrite Hl in Hf. rewrite (proj2 (Z.leb_le _ _)) in Hf by lia.
  destruct (zlen (q d) + _ <=? u64_max); [|done].
  destruct (byte_cost old <=? cur_bytes d); [|done].
  destruct (checked_sum _ _) as [m|] eqn:Em; [|done].
  apply checked_sum_spec in Em as ->. cbn [sum_costs foldr] in Hf.
  fold (sum_costs (map snd values)) in Hf. bool_to_prop.
  apply Forall_cons in Hc as [Hcv Hc]. cbn [fst snd] in Hcv.
  pose proof (sum_costs_nonneg values Hc).
  destruct (replace_item_ok i v c old pr d Hok Hs Hi Hcv Hp) as
    (d1 & Hr & Hok1 & Hs1 & (C1 & C2 & _) & Hcap & Hlen & Hcur & Hperm); [lia|].
  destruct (insert_all values pr d1 Hok1 Hs1 Hc) as (R1 & R2 & R3 & R4).
  { unfold fits_all. rewrite Hlen, Hcur, C1, C2, Hcap. split_and!; lia. }
  eexists. unfold replace_prepared_group. rewrite Hr. split; [reflexivity|].
  split_and!; [done|done|congruence|]. rewrite R4, Hperm. symmetry. apply Permutation_middle.
Qed.

(** An entry is updated in place only when its new cost still fits: then
    the books are exact and no other entry changed; otherwise nothing did. *)
Theorem update_admitted_spec i new_cost update d :
  queue_ok d -> is_u64 new_cost ->
  (forall old, q d !! i = Some old -> byte_cost (update old) = new_cost) ->
  let '(res, d') := update_admitted i new_cost update d in
  queue_ok d' /\
  match q d !! i with
  | None => res = Err BadArg /\ d' = d
  | Some old =>
      if max_bytes d <? cur_bytes d - byte_cost old + new_cost
      then res = Err (Io "queue full") /\ d' = d
      else res = Ok tt /\ q d' = <[i := update old]> (q d)
  end.
Proof.
  intros Hok Hn Hu. unfold update_admitted. destruct (q d !! i) as [old|] eqn:Hi; [|done].
  assert (q d = take i (q d) ++ old :: drop (S i) (q d)) as Hq by (by rewrite take_drop_middle).
  pose proof (qo_cur _ Hok) as Hcur. pose proof (byte_cost_range old). pose proof (qo_max _ Hok).
  assert (byte_cost old <= cur_bytes d).
  { rewrite Hcur, Hq, total_cost_middle.
    pose proof (total_cost_nonneg (take i (q d) ++ drop (S i) (q d))). lia. }
  rewrite sat_sub_le by lia.
  assert ((max_bytes d <? sat_add (cur_bytes d - byte_cost old) new_cost)
          = (max_bytes d <? cur_bytes d - byte_cost old + new_cost)) as ->.
  { destruct (Z.ltb_spec (max_bytes d) (cur_bytes d - byte_cost old + new_cost));
      [apply Z.ltb_lt|apply Z.ltb_ge]; solve_u. }
  destruct (Z.ltb_spec (max_bytes d) (cur_bytes d - byte_cost old + new_cost)) as [Hlt|Hge]; [done|].
  assert (alter update i (q d) = <[i := update old]> (q d)) as Ha
    by (rewrite list_insert_alter; apply list_alter_ext; [congruence|done]).
  rewrite Ha. split; [|done]. specialize (Hu old eq_refl).
  rewrite sat_add_small by solve_u.
  assert (length (<[i:=update old]> (q d)) = length (q d)) as Hlen by apply length_insert.
  destruct Hok as [O1 O2 O3 O4 O5 O6].
  split; cbn [q cur_bytes max_bytes max_elems capacity with_content]; try done; try lia.
  - rewrite insert_take_drop by (by eapply lookup_lt_Some). rewrite O1, Hq at 1.
    rewrite !total_cost_middle. lia.
  - unfold zlen in *. by rewrite Hlen.
  - unfold zlen in *. by rewrite Hlen.
Qed.
End Invariant.

(** ** Concrete instances

    Entries with a priority and a byte cost, an allocator that grants up to eight
    slots. *)

Record SampleEntry : Type := { se_priority : Z; se_cost : Z; se_tag : Z }.

Definition sample_cost (e : SampleEntry) : Z := Z.max 0 (Z.min (se_cost e) 1000).

#[export] Instance sample_queue_env : QueueEnv SampleEntry := {|
  byte_cost := sample_cost;
  park_entry := Ok;
  item_size := 24;
  reserve_exact := fun len cap add => if len + add <=? 8 then Some (Z.max cap (len + add)) else None;
  compact_store := false;
|}.

#[export] Instance sample_queue_laws : QueueLaws SampleEntry.
Proof.
  split; cbn.
  - intros v. unfold sample_cost. solve_u.
  - intros len cap add c. destruct (len + add <=? 8); [|done]. intros [= <-]. lia.
Qed.

Definition open_admission : Admission := {| probe := None; probe_v2 := None; rejected := 0 |}.

Definition entry (p c t : Z) : SampleEntry := {| se_priority := p; se_cost := c; se_tag := t |}.

(** Three entries of 40 bytes in a queue of 100 bytes and two elements. *)
Definition sample_queue (l : list SampleEntry) (bytes : Z) : BoundedDeque SampleEntry :=
  {| q := l; capacity := 2; max_bytes := 100; cur_bytes := bytes; max_elems := 4;
     grow_num := 2048; grow_den := 1024; fixed_capacity := false;
     fair_priority_cursor := 255; fair_owed_priority := 0; fair_owed_flags := 0 |}.

Definition two_entries : BoundedDeque SampleEntry :=
  sample_queue [entry 200 40 1; entry 10 40 2] 80.

Lemma two_entries_ok : queue_ok two_entries /\ by_priority se_priority (q two_entries).
Proof.
  split; [split; vm_compute; repeat split; discriminate|]. repeat constructor; cbn; lia.
Qed.

Lemma push_back_prioritized_spec_witness :
  exists d adm ev,
    push_back_prioritized_observed (entry 100 60 3) se_priority two_entries open_admission
      = Some (Ok tt, d, adm, ev) /\ queue_ok d /\
    map se_tag (q d) = [1; 3] /\ map se_tag ev = [2].
Proof.
  destruct (push_back_prioritized_spec (entry 100 60 3) se_priority two_entries open_admission)
    as (res & d & adm & ev & Hrun & Hok & _); [apply two_entries_ok..|].
  pose proof Hrun as Hrun'. vm_compute in Hrun'. injection Hrun' as <- <- <- <-.
  eexists _, _, _. split; [exact Hrun|]. split; [exact Hok|]. split; reflexivity.
Defined.

Lemma push_back_prioritized_select_spec_witness :
  exists d adm ev,
    push_back_prioritized_select (entry 100 60 3) se_priority (fun _ _ => Some 1%nat)
      two_entries open_admission = Some (Ok tt, d, adm, ev) /\ queue_ok d /\
    map se_tag (q d) = [1; 3] /\ map se_tag ev = [2].
Proof.
  destruct (push_back_prioritized_select_spec (entry 100 60 3) se_priority (fun _ _ => Some 1%nat)
    two_entries open_admission) as (res & d & adm & ev & Hrun & Hok & _); [apply two_entries_ok..|].
  pose proof Hrun as Hrun'. vm_compute in Hrun'. injection Hrun' as <- <- <- <-.
  eexists _, _, _. split; [exact Hrun|]. split; [exact Hok|]. split; reflexivity.
Defined.

Lemma push_back_spec_witness :
  let '(res, d, _) := push_back (entry 1 30 3) two_entries open_admission in
  res = Ok tt /\ queue_ok d /\ map se_tag (q d) = [2; 3].
Proof.
  pose proof (push_back_spec (entry 1 30 3) two_entries open_admission) as H.
  specialize (H (proj1 two_entries_ok)).
  destruct (push_back (entry 1 30 3) two_entries open_admission) as [[res d] adm] eqn:E.
  destruct H as (Hres & Hok & _). split; [exact Hres|]. split; [exact Hok|].
  vm_compute in E. injection E as _ <- _. reflexivity.
Defined.

Lemma new_spec_witness :
  exists d adm, new (T := SampleEntry) 4096 96 4609434218613702656 open_admission = Some (d, adm) /\
    queue_ok d /\ grow_num d = 1536 /\ capacity d = 4.
Proof.
  destruct (new_spec (T := SampleEntry) 4096 96 4609434218613702656 open_admission)
    as (d & adm & Hrun & Hok & _); [solve_u|lia|reflexivity|].
  pose proof Hrun as Hrun'. vm_compute in Hrun'. injection Hrun' as <- <-.
  eexists _, _. split; [exact Hrun|]. split; [exact Hok|]. split; reflexivity.
Defined.

Lemma removal_spec_witness :
  queue_ok (snd (remove_pos 1 two_entries)) /\ map se_tag (q (snd (remove_pos 1 two_entries))) = [1].
Proof.
  split; [|reflexivity].
  apply (removal_spec two_entries 1 (fun _ _ => true) (entry 0 0 0) (fun _ => true)
           (proj1 two_entries_ok)).
Defined.

Lemma prepared_batch_commits_witness :
  exists d, push_prepared_batch [(entry 100 20 5, 20)] se_priority
      (with_capacity two_entries 3) = Some d /\ queue_ok d /\ map se_tag (q d) = [1; 5; 2].
Proof.
  destruct (prepared_batch_commits [(entry 100 20 5, 20)] se_priority (with_capacity two_entries 3))
    as (d & Hrun & Hok & _).
  - split; vm_compute; repeat split; discriminate.
  - apply two_entries_ok.
  - repeat constructor.
  - reflexivity.
  - exists d. split; [exact Hrun|]. split; [exact Hok|].
    vm_compute in Hrun. injection Hrun as <-. reflexivity.
Defined.

Lemma replacement_group_commits_witness :
  exists d, replace_prepared_group 1 [(entry 10 20 5, 20); (entry 50 30 6, 30)] se_priority
      (with_capacity two_entries 3) = Some d /\ queue_ok d /\ map se_tag (q d) = [1; 6; 5].
Proof.
  destruct (replacement_group_commits 1 (entry 10 20 5) 20 [(entry 50 30 6, 30)] (entry 10 40 2)
    se_priority (with_capacity two_entries 3)) as (d & Hrun & Hok & _).
  - split; vm_compute; repeat split; discriminate.
  - apply two_entries_ok.
  - reflexivity.
  - reflexivity.
  - repeat constructor.
  - reflexivity.
  - exists d. split; [exact Hrun|]. split; [exact Hok|].
    vm_compute in Hrun. injection Hrun as <-. reflexivity.
Defined.

Lemma update_admitted_spec_witness :
  let '(res, d) := update_admitted 1 55 (fun e => entry (se_priority e) 55 9) two_entries in
  res = Ok tt /\ queue_ok d /\ cur_bytes d = 95.
Proof.
  pose proof (update_admitted_spec 1 55 (fun e => entry (se_priority e) 55 9) two_entries
    (proj1 two_entries_ok) ltac:(solve_u) ltac:(reflexivity)) as H.
  destruct (update_admitted 1 55 (fun e => entry (se_priority e) 55 9) two_entries) as [res d] eqn:E.
  destruct H as [Hok [Hres _]]. split; [exact Hres|]. split; [exact Hok|].
  vm_compute in E. injection E as _ <-. reflexivity.
Defined.

(** A refused push may already have evicted lower-priority entries: the 60-byte
    entry of priority 100 removes the entry of priority 10 and is refused all the
    same, because the entry of priority 200 holds the rest of the budget. *)
Lemma refused_push_evicts :
  exists d adm,
    push_back_prioritized_observed (entry 100 60 3) se_priority
      (sample_queue [entry 200 50 1; entry 10 20 2] 70) open_admission
      = Some (Err (Io "priority queue saturated"), d, adm, [entry 10 20 2]) /\
    q d = [entry 200 50 1].
Proof. eexists _, _. split; vm_compute; reflexivity. Qed.
