(* ===== verification/QueueFair.v ===== *)
(** * Fair service of the queues (src/src/queue.rs)

    The order in which entries leave a prioritised queue: the burst-bounded
    selection that rotates through the waiting lower bands, its bulk variant for
    sorted queues, and the deferred turns of the router, where a lower band keeps
    its claim on a service opportunity until a transport has admitted its entry.
    No band starves as long as no urgent entry waits ineligible. *)

From stdpp Require Import sorting relations.
From S2P Require Import Prelude Schema MemoryAdmission Queue.

Open Scope Z_scope.

(** [u8] arithmetic. *)
Definition wrapping_sub8 (a b : Z) : Z := wrap8 (a - b).
Definition sat_add8 (a b : Z) : Z := Z.min u8_max (a + b).

Section Fair.
Context {T : Type} {QE : QueueEnv T}.
Abbreviation deque := (BoundedDeque T).

(** ** Selection *)

(** The first entry that satisfies [p], with its index. *)
Fixpoint first_ready (p : T -> bool) (l : list T) (i : nat) : option (nat * T) :=
  match l with
  | [] => None
  | x :: l => if p x then Some (i, x) else first_ready p l (S i)
  end.

(** The scan behind the front: the chosen lower band so far is its index, its
    priority and its distance behind the cursor; [lower = front] means none. *)
Fixpoint scan_lower (eligible : T -> bool) (priority_of : T -> Z) (cursor front_priority : Z)
    (front : nat) (l : list T) (i : nat) (best : nat * Z * Z) : nat * Z :=
  match l with
  | [] => fst best
  | x :: l =>
      let priority := priority_of x in
      let best :=
        if negb (eligible x) then best
        else if front_priority <=? priority then best
        else
          let '(lower, _, best_distance) := best in
          let distance := wrapping_sub8 (wrapping_sub8 cursor priority) 1 in
          if (lower =? front)%nat || (distance <? best_distance)
          then (i, priority, distance) else best in
      scan_lower eligible priority_of cursor front_priority front l (S i) best
  end.

(** The selection on the ring: the index, the burst counter and the cursor. *)
Definition fair_select (priority_of : T -> Z) (eligible : T -> bool) (max_burst : Z)
    (l : list T) (burst cursor : Z) : option (nat * Z * Z) :=
  match first_ready eligible l 0 with
  | None => None
  | Some (front, x) =>
      let front_priority := priority_of x in
      let '(lower, lower_priority) :=
        scan_lower eligible priority_of cursor front_priority front (drop (S front) l) (S front)
          (front, front_priority, u8_max) in
      if negb (lower =? front)%nat && (max_burst <=? burst)
      then Some (lower, 0, lower_priority)
      else Some (front, if negb (lower =? front)%nat then sat_add8 burst 1 else 0, cursor)
  end.

(** The queue after a selection, the burst counter and the index. *)
Definition select_front_fair_with_context (priority_of : T -> Z)
    (eligible : list T -> T -> bool) (burst max_burst : Z) (d : deque)
    : option nat * Z * deque :=
  match fair_select priority_of (eligible (q d)) max_burst (q d) burst (fair_priority_cursor d) with
  | None => (None, burst, d)
  | Some (index, burst, cursor) =>
      (Some index, burst, with_fairness d cursor (fair_owed_priority d) (fair_owed_flags d))
  end.

Definition pop_front_fair_with_context (priority_of : T -> Z) (eligible : list T -> T -> bool)
    (burst max_burst : Z) (d : deque) : option T * Z * deque :=
  match select_front_fair_with_context priority_of eligible burst max_burst d with
  | (None, burst, d) => (None, burst, d)
  | (Some index, burst, d) => let '(v, d) := remove_pos index d in (v, burst, d)
  end.

(** [pop_front_fair_if] and [pop_front_fair] ignore the context. *)
Definition pop_front_fair_if (priority_of : T -> Z) (eligible : T -> bool) (burst max_burst : Z)
    (d : deque) : option T * Z * deque :=
  pop_front_fair_with_context priority_of (fun _ => eligible) burst max_burst d.

Definition pop_front_fair (priority_of : T -> Z) (burst max_burst : Z) (d : deque)
    : option T * Z * deque :=
  pop_front_fair_if priority_of (fun _ => true) burst max_burst d.

(** The bulk variant: the first entry of the lowest band once per burst. *)
Fixpoint index_of (p : T -> bool) (l : list T) : nat :=
  match l with
  | [] => O
  | x :: l => if p x then O else S (index_of p l)
  end.

Definition pop_front_bulk_fair (priority_of : T -> Z) (burst max_burst : Z) (d : deque)
    : option T * Z * deque :=
  match head (q d) with
  | None => (None, 0, d)
  | Some h =>
      let front := priority_of h in
      let lowest := match last (q d) with Some t => priority_of t | None => front end in
      if (200 <=? front) || (front =? lowest)
      then let '(v, d) := pop_front d in (v, 0, d)
      else if burst <? max_burst
      then let '(v, d) := pop_front d in (v, burst + 1, d)
      else
        let '(v, d) := remove_pos (index_of (fun x => priority_of x =? lowest) (q d)) d in
        (v, 0, d)
  end.

(** ** Deferred turns *)

Definition flag_set (flags mask : Z) : bool := negb (Z.land flags mask =? 0).

(** [iter().position(..)]. *)
Definition position (p : T -> bool) (l : list T) : option nat :=
  option_map fst (first_ready p l 0).

(** The second half of [select_front_fair_deferred]: a normal selection, which takes
    the turn when it passes over a higher band. *)
Definition deferred_fallback (priority_of : T -> Z) (eligible : list T -> T -> bool)
    (burst max_burst : Z) (d : deque) : option (nat * bool) * Z * deque :=
  let before_burst := burst in
  let before_cursor := fair_priority_cursor d in
  match select_front_fair_with_context priority_of eligible burst max_burst d with
  | (None, burst, d) => (None, burst, d)
  | (Some index, burst, d) =>
      let priority := match q d !! index with Some x => priority_of x | None => 0 end in
      let burst := if flag_set (fair_owed_flags d) PRIORITY_TURN_PENDING
                   then Z.min (Z.max before_burst burst) max_burst else burst in
      if (fair_owed_flags d =? 0) && existsb (fun x => priority <? priority_of x) (q d)
      then (Some (index, true), before_burst,
            with_fairness d before_cursor priority
              (Z.lor PRIORITY_TURN_PENDING PRIORITY_TURN_ACTIVE))
      else (Some (index, false), burst, d)
  end.

(** The selected index, whether it owns the turn, the counter and the queue. *)
Definition select_front_fair_deferred (priority_of : T -> Z) (eligible : list T -> T -> bool)
    (burst max_burst : Z) (d : deque) : option (nat * bool) * Z * deque :=
  if flag_set (fair_owed_flags d) PRIORITY_TURN_PENDING
     && negb (flag_set (fair_owed_flags d) PRIORITY_TURN_ACTIVE)
  then
    match (if burst <? max_burst
           then position (fun x => (priority_of x =? u8_max) && eligible (q d) x) (q d)
           else None) with
    | Some index => (Some (index, false), sat_add8 burst 1, d)
    | None =>
        match position (fun x => (priority_of x =? fair_owed_priority d) && eligible (q d) x)
                (q d) with
        | Some index =>
            (Some (index, true), burst,
             with_fairness d (fair_priority_cursor d) (fair_owed_priority d)
               (Z.lor (fair_owed_flags d) PRIORITY_TURN_ACTIVE))
        | None =>
            deferred_fallback priority_of eligible burst max_burst
              (if existsb (fun x => priority_of x =? fair_owed_priority d) (q d) then d
               else with_fairness d (fair_priority_cursor d) (fair_owed_priority d) 0)
        end
    end
  else deferred_fallback priority_of eligible burst max_burst d.

Definition cancel_deferred_turn (d : deque) : deque :=
  with_fairness d (fair_priority_cursor d) (fair_owed_priority d)
    (Z.land (fair_owed_flags d) PRIORITY_TURN_ACTIVE).

(** [!(ACTIVE | NESTED)] on a [u8]. *)
Definition clear_active (flags : Z) : Z :=
  Z.land flags (Z.lxor u8_max (Z.lor PRIORITY_TURN_ACTIVE PRIORITY_TURN_NESTED_ADMISSION)).

Definition finish_deferred_turn (priority : Z) (owns admitted retained : bool) (burst : Z)
    (d : deque) : Z * deque :=
  let with_flags d flags :=
    with_fairness d (fair_priority_cursor d) (fair_owed_priority d) flags in
  let d := if negb owns && admitted && flag_set (fair_owed_flags d) PRIORITY_TURN_ACTIVE
           then with_flags d (Z.lor (fair_owed_flags d) PRIORITY_TURN_NESTED_ADMISSION) else d in
  if negb owns || negb (flag_set (fair_owed_flags d) PRIORITY_TURN_ACTIVE)
     || negb (fair_owed_priority d =? priority)
  then (burst, d)
  else if admitted || negb retained then
    if flag_set (fair_owed_flags d) PRIORITY_TURN_PENDING
    then (0, with_fairness d priority (fair_owed_priority d) 0)
    else (burst, with_flags d 0)
  else
    (if negb (flag_set (fair_owed_flags d) PRIORITY_TURN_NESTED_ADMISSION) then 0 else burst,
     with_flags d (clear_active (fair_owed_flags d))).

(** ** Facts about the selection *)

Lemma first_ready_spec p l i :
  match first_ready p l i with
  | None => Forall (fun x => p x = false) l
  | Some (k, x) => exists j, k = (i + j)%nat /\ l !! j = Some x /\ p x = true /\
                             Forall (fun x => p x = false) (take j l)
  end.
Proof.
  revert i. induction l as [|x l IH]; intros i; cbn [first_ready]; [constructor|].
  destruct (p x) eqn:Ep.
  - exists 0%nat. split; [lia|]. split_and!; done || constructor.
  - specialize (IH (S i)). destruct (first_ready p l (S i)) as [[k y]|]; [|by constructor].
    destruct IH as (j & -> & Hj & Hy & Hall). exists (S j). split; [lia|]. split_and!; try done.
    cbn [take]. by constructor.
Qed.

(** An eligible entry of a band below the front. *)
Definition lower_entry (eligible : T -> bool) (pr : T -> Z) (fp : Z) (x : T) : Prop :=
  eligible x = true /\ pr x < fp.

Definition distance (cursor p : Z) : Z := wrapping_sub8 (wrapping_sub8 cursor p) 1.

(** What the scan has found after the entries [seen], all of them behind the front:
    nothing, or the entry whose band comes first behind the cursor. *)
Definition scan_state (eligible : T -> bool) (pr : T -> Z) (cursor fp : Z) (front i0 : nat)
    (seen : list T) (best : nat * Z * Z) : Prop :=
  let '(lower, lp, dist) := best in
  (lower = front /\ Forall (fun x => ~ lower_entry eligible pr fp x) seen) \/
  (exists j x, seen !! j = Some x /\ lower = (i0 + j)%nat /\ lower_entry eligible pr fp x /\
     lp = pr x /\ dist = distance cursor lp /\
     forall y, y ∈ seen -> lower_entry eligible pr fp y -> dist <= distance cursor (pr y)).

Lemma scan_lower_spec eligible pr cursor fp front i0 seen l best :
  (front < i0)%nat -> scan_state eligible pr cursor fp front i0 seen best ->
  exists dist, let '(lower, lp) := scan_lower eligible pr cursor fp front l
                                     (i0 + length seen) best in
    scan_state eligible pr cursor fp front i0 (seen ++ l) (lower, lp, dist).
Proof.
  intros Hf. revert seen best. induction l as [|x l IH]; intros seen [[lower lp] dist] Hs;
    cbn [scan_lower].
  { rewrite app_nil_r. by exists dist. }
  assert (seen ++ x :: l = (seen ++ [x]) ++ l) as -> by (by rewrite <- app_assoc).
  replace (S (i0 + length seen)) with (i0 + length (seen ++ [x]))%nat
    by (rewrite length_app; cbn; lia).
  apply IH. clear IH. cbv zeta. fold (distance cursor (pr x)).
  (* entries that are not candidates leave the state alone *)
  assert (~ lower_entry eligible pr fp x ->
          scan_state eligible pr cursor fp front i0 (seen ++ [x]) (lower, lp, dist)) as Hskip.
  { intros Hx. destruct Hs as [[-> Hall]|(j & y & Hj & -> & Hy & -> & -> & Hmin)].
    - left. split; [done|]. apply Forall_app. auto.
    - right. exists j, y. split; [by apply lookup_app_l_Some|]. split_and!; try done.
      intros z [Hz|Hz%list_elem_of_singleton]%elem_of_app Hle; [by apply Hmin|]. subst z. done. }
  unfold lower_entry in Hskip. destruct (eligible x) eqn:Ee; cbn [negb]; [|apply Hskip; by intros []].
  destruct (Z.leb_spec fp (pr x)) as [Hp|Hp]; [apply Hskip; intros []; lia|]. clear Hskip.
  assert (lower_entry eligible pr fp x) as Hx by done.
  assert (forall y, y ∈ seen ++ [x] -> y ∈ seen \/ y = x) as Hin
    by (intros y [|Hy%list_elem_of_singleton]%elem_of_app; auto).
  destruct Hs as [[-> Hall]|(j & y & Hj & -> & Hy & -> & -> & Hmin)].
  - rewrite Nat.eqb_refl. cbn [orb]. right. exists (length seen), x.
    split; [by rewrite lookup_app_r, Nat.sub_diag by lia|]. split_and!; try done.
    intros z [Hz| ->]%Hin Hle; [|done]. rewrite Forall_forall in Hall. by apply Hall in Hz.
  - rewrite (proj2 (Nat.eqb_neq (i0 + j) front)) by lia. cbn [orb].
    destruct (Z.ltb_spec (distance cursor (pr x)) (distance cursor (pr y))) as [Hd|Hd].
    + right. exists (length seen), x. split; [by rewrite lookup_app_r, Nat.sub_diag by lia|].
      split_and!; try done. intros z [Hz| ->]%Hin Hle; [|done]. specialize (Hmin z Hz Hle). lia.
    + right. exists j, y. split; [by apply lookup_app_l_Some|]. split_and!; try done.
      intros z [Hz| ->]%Hin Hle; [by apply Hmin|done].
Qed.


(** The candidates behind the front. *)
Definition waiting_below (eligible : T -> bool) (pr : T -> Z) (l : list T) (front : nat)
    (x : T) (y : T) : Prop :=
  y ∈ drop (S front) l /\ lower_entry eligible pr (pr x) y.

(** The front of the ready entries. *)
Definition ready_front (eligible : T -> bool) (l : list T) (front : nat) (x : T) : Prop :=
  l !! front = Some x /\ eligible x = true /\
  Forall (fun y => eligible y = false) (take front l).

Lemma fair_select_cases pr eligible mb l burst cursor :
  match fair_select pr eligible mb l burst cursor with
  | None => Forall (fun x => eligible x = false) l
  | Some (index, burst', cursor') =>
      exists front x, ready_front eligible l front x /\
      ((index = front /\ burst' = 0 /\ cursor' = cursor /\
        forall y, ~ waiting_below eligible pr l front x y) \/
       (index = front /\ burst < mb /\ burst' = sat_add8 burst 1 /\ cursor' = cursor /\
        exists y, waiting_below eligible pr l front x y) \/
       (mb <= burst /\ burst' = 0 /\ exists y, l !! index = Some y /\
        waiting_below eligible pr l front x y /\ cursor' = pr y /\
        forall z, waiting_below eligible pr l front x z ->
          distance cursor (pr y) <= distance cursor (pr z)))
  end.
Proof.
  unfold fair_select. pose proof (first_ready_spec eligible l 0) as Hf.
  destruct (first_ready eligible l 0) as [[front x]|]; [|done].
  destruct Hf as (j & -> & Hj & Hx & Hall). cbn [Nat.add].
  destruct (scan_lower_spec eligible pr cursor (pr x) j (S j) [] (drop (S j) l)
    (j, pr x, u8_max)) as [dist Hs]; [lia|left; by split|].
  cbn [length] in Hs. rewrite Nat.add_0_r in Hs. cbn [app] in Hs.
  destruct (scan_lower _ _ _ _ _ _ _ _) as [lower lp].
  assert (ready_front eligible l j x) as Hready by done.
  destruct Hs as [[-> Hnone]|(k & y & Hk & -> & Hy & -> & -> & Hmin)].
  - rewrite Nat.eqb_refl. cbn [negb andb]. exists j, x. split; [done|]. left. split_and!; try done.
    intros y [Hin Hlow]. rewrite Forall_forall in Hnone. by apply (Hnone y Hin).
  - rewrite (proj2 (Nat.eqb_neq (S j + k) j)) by lia. cbn [negb andb].
    assert (waiting_below eligible pr l j x y) as Hw
      by (split; [by eapply list_elem_of_lookup_2|done]).
    destruct (Z.leb_spec mb burst) as [Hb|Hb]; exists j, x; split; try done; right.
    + right. split_and!; try done. exists y. split.
      { rewrite lookup_drop in Hk. done. }
      split_and!; try done. intros z [Hz1 Hz2]. by apply Hmin.
    + left. split_and!; try done. by exists y.
Qed.

(** ** Bounded waiting *)

(** One look at the queue: its content and which entries are ready. *)
Abbreviation snapshot := (list T * (T -> bool))%type.

(** The priorities served when the queue is looked at [snaps] one after the other,
    whatever was pushed and popped in between. *)
Fixpoint served (pr : T -> Z) (mb : Z) (snaps : list snapshot) (burst cursor : Z) : list Z :=
  match snaps with
  | [] => []
  | (l, eligible) :: snaps =>
      match fair_select pr eligible mb l burst cursor with
      | None => served pr mb snaps burst cursor
      | Some (index, burst, cursor) =>
          match l !! index with
          | Some x => pr x :: served pr mb snaps burst cursor
          | None => served pr mb snaps burst cursor
          end
      end
  end.

(** An entry of the band [p] is ready behind a front of a higher band. *)
Definition band_waits (pr : T -> Z) (p : Z) (snap : snapshot) : Prop :=
  exists front x y, ready_front (snd snap) (fst snap) front x /\
    waiting_below (snd snap) pr (fst snap) front x y /\ pr y = p.

Lemma ready_front_unique eligible l i x j y :
  ready_front eligible l i x -> ready_front eligible l j y -> i = j /\ x = y.
Proof.
  assert (forall i x j y, ready_front eligible l i x -> ready_front eligible l j y -> (i <= j)%nat)
    as Hle.
  { intros i' x' j' y' (Hi & Hx & Hall) (Hj & Hy & _). destruct (decide (i' <= j')%nat); [done|].
    rewrite Forall_forall in Hall. exfalso. specialize (Hall y').
    rewrite Hall in Hy; [done|]. apply list_elem_of_lookup_2 with j'. rewrite lookup_take_lt by lia. done. }
  intros H1 H2. pose proof (Hle _ _ _ _ H1 H2). pose proof (Hle _ _ _ _ H2 H1).
  assert (i = j) as -> by lia. split; [done|]. destruct H1 as (H1 & _), H2 as (H2 & _). congruence.
Qed.

(** Serving another band brings the cursor closer to [p]. *)
Lemma distance_step c p p' :
  is_u8 c -> is_u8 p -> is_u8 p' -> p' <> p -> distance c p' <= distance c p ->
  distance p' p < distance c p.
Proof.
  unfold distance, wrapping_sub8, wrap8. rewrite !Zminus_mod_idemp_l. intros. unfold_u. pose proof (Z.div_mod (c - p' - 1) 256 ltac:(lia)).
  pose proof (Z.div_mod (c - p - 1) 256 ltac:(lia)).
  pose proof (Z.div_mod (p' - p - 1) 256 ltac:(lia)).
  pose proof (Z.mod_pos_bound (c - p' - 1) 256 ltac:(lia)).
  pose proof (Z.mod_pos_bound (c - p - 1) 256 ltac:(lia)).
  pose proof (Z.mod_pos_bound (p' - p - 1) 256 ltac:(lia)).
  lia.
Qed.

Lemma distance_range c p : 0 <= distance c p <= 255.
Proof.
  unfold distance, wrapping_sub8, wrap8.
  pose proof (Z.mod_pos_bound ((c - p) mod 256 - 1) 256 ltac:(lia)). lia.
Qed.

(** Selections that may pass before the band [p] is served. *)
Definition patience (mb burst cursor p : Z) : Z :=
  distance cursor p * (mb + 1) + Z.max 0 (mb - burst).

(** The bare selection, one after the other: a band of which an entry is ready at every
    look is served within 256 * (burst + 1) of them. *)
Lemma served_waiting pr mb p snaps burst cursor :
  is_u8 mb -> is_u8 burst -> is_u8 cursor -> (forall x, is_u8 (pr x)) ->
  Forall (band_waits pr p) snaps -> 256 * (mb + 1) <= zlen snaps ->
  p ∈ served pr mb snaps burst cursor.
Proof.
  intros Hmb Hb Hc Hpr Hw Hlen.
  assert (patience mb burst cursor p < zlen snaps) as Hpat.
  { unfold patience. pose proof (distance_range cursor p).
    assert (distance cursor p * (mb + 1) <= 255 * (mb + 1))
      by (apply Z.mul_le_mono_nonneg_r; solve_u). solve_u. }
  clear Hlen. revert burst cursor Hb Hc Hpat.
  induction Hw as [|[l eligible] snaps (front & x & y & Hfront & Hwait & Hp) Hw IH];
    intros burst cursor Hb Hc Hpat.
  { unfold patience in Hpat. pose proof (distance_range cursor p). change (zlen []) with 0 in Hpat.
    exfalso. unfold_u. nia. }
  assert (zlen ((l, eligible) :: snaps) = zlen snaps + 1) as Hz by (unfold zlen; cbn [length]; lia).
  rewrite Hz in Hpat. cbn [fst snd] in *. cbn [served].
  pose proof (fair_select_cases pr eligible mb l burst cursor) as Hs.
  destruct (fair_select pr eligible mb l burst cursor) as [[[index burst'] cursor']|].
  2: { destruct Hfront as (Hl & He & _). rewrite Forall_forall in Hs.
       rewrite Hs in He; [done|by eapply list_elem_of_lookup_2]. }
  destruct Hs as (front' & x' & Hfront' & Hs).
  destruct (ready_front_unique _ _ _ _ _ _ Hfront Hfront') as [<- <-]. clear Hfront'.
  destruct Hs as [(-> & -> & -> & Hno)|[(-> & Hlt & -> & -> & _)|(Hge & -> & z & Hz' & Hzw & -> & Hmin)]].
  - exfalso. by apply (Hno y).
  - destruct Hfront as (Hl & _). rewrite Hl. apply elem_of_cons. right. apply IH; [|done|].
    + unfold sat_add8. solve_u.
    + unfold patience in *. unfold sat_add8. unfold_u. lia.
  - rewrite Hz'. apply elem_of_cons. destruct (decide (pr z = p)) as [->|Hne]; [by left|]. right.
    apply IH; [solve_u|apply Hpr|].
    assert (is_u8 p) as Hpu by (rewrite <- Hp; apply Hpr).
    specialize (Hmin y Hwait). rewrite Hp in Hmin.
    pose proof (distance_step cursor p (pr z) Hc Hpu (Hpr z) Hne Hmin).
    unfold patience in *. unfold_u. nia.
Qed.

(** A fair pop removes exactly one ready entry and keeps every bound: the
    first ready entry, or, once the burst is spent and a lower band waits, the
    first entry of the waiting band that follows the cursor; with nothing ready
    it changes nothing. *)
Theorem pop_front_fair_spec {QL : QueueLaws T} pr eligible burst mb d :
  queue_ok d ->
  let '(v, burst', d') := pop_front_fair_if pr eligible burst mb d in
  queue_ok d' /\
  match v with
  | None => d' = d /\ burst' = burst /\ Forall (fun x => eligible x = false) (q d)
  | Some v =>
      exists before after front x,
        q d = before ++ v :: after /\ q d' = before ++ after /\ eligible v = true /\
        ready_front eligible (q d) front x /\
        (v = x \/ (mb <= burst /\ pr v < pr x /\
           forall z, waiting_below eligible pr (q d) front x z ->
             distance (fair_priority_cursor d) (pr v) <= distance (fair_priority_cursor d) (pr z)))
  end.
Proof.
  intros Hok. unfold pop_front_fair_if, pop_front_fair_with_context, select_front_fair_with_context.
  pose proof (fair_select_cases pr eligible mb (q d) burst (fair_priority_cursor d)) as Hs.
  destruct (fair_select _ _ _ _ _ _) as [[[index burst'] cursor']|]; [|done].
  destruct Hs as (front & x & Hfront & Hs).
  set (d1 := with_fairness d _ _ _).
  assert (queue_ok d1) as Hok1 by (destruct Hok; by split).
  assert (exists v, q d !! index = Some v /\ eligible v = true /\
    (v = x \/ (mb <= burst /\ pr v < pr x /\
       forall z, waiting_below eligible pr (q d) front x z ->
         distance (fair_priority_cursor d) (pr v) <= distance (fair_priority_cursor d) (pr z))))
    as (v & Hv & He & Hwhy).
  { pose proof Hfront as (Hl & Hx & _).
    destruct Hs as [(-> & _)|[(-> & _)|(Hge & _ & z & Hz & [_ Hlow] & _ & Hmin)]];
      [exists x; auto..|]. exists z. destruct Hlow. auto 10. }
  destruct (remove_pos_split index d1 v Hv) as [Hq Hr]. pose proof (remove_pos_ok index d1 Hok1) as Hok2.
  rewrite Hr in *. cbn [snd] in Hok2. split; [done|]. eexists _, _, front, x. by split_and!.
Qed.

(** ** Bulk service *)

Lemma index_of_spec p (l : list T) x :
  x ∈ l -> p x = true ->
  exists y, l !! index_of p l = Some y /\ p y = true /\
    Forall (fun z => p z = false) (take (index_of p l) l).
Proof.
  induction l as [|z l IH]; [by intros ?%not_elem_of_nil|]. intros Hin Hp. cbn [index_of].
  destruct (p z) eqn:Ez; [by exists z; split_and!; try constructor|].
  apply elem_of_cons in Hin as [->|Hin]; [congruence|].
  destruct (IH Hin Hp) as (y & Hy & Hpy & Hall). exists y. split_and!; try done.
  cbn [take]. by constructor.
Qed.

(** On a queue in priority order the bulk pop takes the front while it is
    control traffic (200 and up), while one band is queued, or during a burst; a
    spent burst takes the oldest entry of the lowest band and starts a new one. *)
Theorem pop_front_bulk_fair_spec {QL : QueueLaws T} pr burst mb d :
  queue_ok d -> by_priority pr (q d) ->
  let '(v, burst', d') := pop_front_bulk_fair pr burst mb d in
  queue_ok d' /\
  match head (q d), last (q d), v with
  | Some h, Some t, Some v =>
      exists before after, q d = before ++ v :: after /\ q d' = before ++ after /\
      if (200 <=? pr h) || (pr h =? pr t) then before = [] /\ burst' = 0
      else if burst <? mb then before = [] /\ burst' = burst + 1
      else burst' = 0 /\ pr v = pr t /\ Forall (fun x => pr v < pr x) before
  | None, _, None => d' = d /\ burst' = 0
  | _, _, _ => False
  end.
Proof.
  intros Hok Hs. unfold pop_front_bulk_fair.
  destruct (head (q d)) as [h|] eqn:Eh; [|split; [done|by destruct (last (q d))]].
  destruct (last (q d)) as [t|] eqn:El.
  2: { apply last_None in El. by rewrite El in Eh. }
  pose proof (pop_front_ok d Hok) as Hpop. unfold pop_front in *.
  destruct (q d) as [|x l] eqn:Eq; [done|]. injection Eh as ->. cbn [snd] in Hpop.
  destruct ((200 <=? pr h) || (pr h =? pr t)) eqn:E1; [split; [done|]; by exists [], l|].
  destruct (burst <? mb) eqn:E2; [split; [done|]; by exists [], l|].
  pose proof (remove_pos_ok (index_of (fun x => pr x =? pr t) (h :: l)) d Hok) as Hr.
  assert (t ∈ h :: l) as Ht by (apply last_Some_elem_of in El; done).
  destruct (index_of_spec (fun x => pr x =? pr t) (h :: l) t Ht (Z.eqb_refl (pr t)))
    as (y & Hy & Hpy & Hall).
  rewrite <- Eq in *. destruct (remove_pos_split _ d y Hy) as [Hq Hrm]. rewrite Hrm in *.
  cbn [snd] in Hr. split; [done|]. eexists _, _. split; [exact Hq|]. split; [done|].
  bool_to_prop. split_and!; [done|done|].
  apply last_split in El. apply Forall_forall. intros z Hz. rewrite Forall_forall in Hall.
  specialize (Hall z Hz). cbn in Hall. bool_to_prop. rewrite Hpy.
  assert (pr t <= pr z); [|lia].
  apply elem_of_take in Hz as (i & Hi & _). apply list_elem_of_lookup_2 in Hi.
  rewrite El in Hi, Hs. apply elem_of_app in Hi as [Hi|Hi%list_elem_of_singleton]; [|by subst z].
  apply (StronglySorted_app_1_elem_of _ _ _ z t Hs); [done|by left].
Qed.

(** ** Deferred turns *)

(** The reachable flag bytes: a nested admission is only recorded during a turn. *)
Definition turn_flags_ok (f : Z) : Prop :=
  f = 0 \/ f = 1 \/ f = 2 \/ f = 3 \/ f = 6 \/ f = 7.

(** What the owner of a queue does to it, with the burst counter. *)
Inductive turn_step (pr : T -> Z) : Z * deque -> Z * deque -> Prop :=
| turn_select eligible mb burst d r burst' d' :
    select_front_fair_deferred pr eligible burst mb d = (r, burst', d') ->
    turn_step pr (burst, d) (burst', d')
| turn_finish p owns admitted retained burst d burst' d' :
    finish_deferred_turn p owns admitted retained burst d = (burst', d') ->
    turn_step pr (burst, d) (burst', d')
| turn_cancel burst d : turn_step pr (burst, d) (burst, cancel_deferred_turn d)
| turn_clear burst d : turn_step pr (burst, d) (burst, clear d)
| turn_content burst d l n : turn_step pr (burst, d) (burst, with_content d l n).

Lemma turn_flags_cases f :
  turn_flags_ok f ->
  turn_flags_ok (Z.land f PRIORITY_TURN_ACTIVE) /\
  turn_flags_ok (clear_active f) /\
  (flag_set f PRIORITY_TURN_ACTIVE = true ->
   turn_flags_ok (Z.lor f PRIORITY_TURN_NESTED_ADMISSION)) /\
  (flag_set f PRIORITY_TURN_PENDING = true -> flag_set f PRIORITY_TURN_ACTIVE = false -> f = 1).
Proof.
  intros [->|[->|[->|[->|[->| ->]]]]]; vm_compute; repeat split; auto 10; discriminate.
Qed.

Lemma fair_selected_ready pr eligible burst mb d i burst' d' :
  select_front_fair_with_context pr eligible burst mb d = (Some i, burst', d') ->
  exists cursor, d' = with_fairness d cursor (fair_owed_priority d) (fair_owed_flags d) /\
  exists x, q d !! i = Some x /\ eligible (q d) x = true.
Proof.
  unfold select_front_fair_with_context. intros H.
  pose proof (fair_select_cases pr (eligible (q d)) mb (q d) burst (fair_priority_cursor d)) as Hs.
  destruct (fair_select _ _ _ _ _ _) as [[[index b] cursor]|]; [|done]. injection H as <- <- <-.
  exists cursor. split; [done|]. destruct Hs as (front & x & (Hl & He & _) & Hs).
  destruct Hs as [(-> & _)|[(-> & _)|(_ & _ & z & Hz & [_ [Hez _]] & _)]]; eauto.
Qed.

(** The outcome of a deferred selection. *)
Definition deferred_outcome (pr : T -> Z) (eligible : list T -> T -> bool) (d : deque)
    (r : option (nat * bool)) (d' : deque) : Prop :=
  q d' = q d /\
  match r with
  | None => fair_owed_flags d' = fair_owed_flags d \/ fair_owed_flags d' = 0
  | Some (i, owns) =>
      exists x, q d !! i = Some x /\ eligible (q d) x = true /\
      if owns
      then flag_set (fair_owed_flags d) PRIORITY_TURN_ACTIVE = false /\
           fair_owed_flags d' = 3 /\ fair_owed_priority d' = pr x
      else fair_owed_flags d' = fair_owed_flags d \/
           (fair_owed_flags d' = 0 /\ flag_set (fair_owed_flags d) PRIORITY_TURN_ACTIVE = false)
  end.

Lemma position_ready p (l : list T) i :
  position p l = Some i -> exists x, l !! i = Some x /\ p x = true.
Proof.
  unfold position. pose proof (first_ready_spec p l 0) as H.
  destruct (first_ready p l 0) as [[k x]|]; [|done]. intros [= ->].
  destruct H as (j & -> & Hj & Hp & _). eauto.
Qed.

Lemma deferred_fallback_outcome pr eligible burst mb d d1 r burst' d' :
  q d1 = q d ->
  fair_owed_flags d1 = fair_owed_flags d \/
    (fair_owed_flags d1 = 0 /\ flag_set (fair_owed_flags d) PRIORITY_TURN_ACTIVE = false) ->
  deferred_fallback pr eligible burst mb d1 = (r, burst', d') -> deferred_outcome pr eligible d r d'.
Proof.
  intros Hq Hfl. unfold deferred_fallback.
  destruct (select_front_fair_with_context pr eligible burst mb d1) as [[[i|] b] d2] eqn:Es.
  - apply fair_selected_ready in Es as (cursor & -> & x & Hx & He). cbn [q with_fairness].
    rewrite Hq in Hx, He. cbn [fair_owed_flags with_fairness].
    destruct ((fair_owed_flags d1 =? 0) && _) eqn:Ez; intros [= <- _ <-].
    + split; [done|]. exists x. rewrite Hq, Hx. split_and!; try done.
      apply andb_true_iff in Ez as [Ez _]. apply Z.eqb_eq in Ez.
      destruct Hfl as [Hfl|[_ Hfl]]; [|done]. by rewrite <- Hfl, Ez.
    + split; [done|]. by exists x.
  - unfold select_front_fair_with_context in Es.
    destruct (fair_select _ _ _ _ _ _) as [[[]]|]; [done|].
    injection Es as _ <-. intros [= <- _ <-]. split; [done|]. tauto.
Qed.

Lemma deferred_select_outcome pr eligible burst mb d r burst' d' :
  turn_flags_ok (fair_owed_flags d) ->
  select_front_fair_deferred pr eligible burst mb d = (r, burst', d') ->
  deferred_outcome pr eligible d r d'.
Proof.
  intros Hok. unfold select_front_fair_deferred.
  destruct (flag_set (fair_owed_flags d) PRIORITY_TURN_PENDING) eqn:Ep; cbn [andb];
    [|by apply deferred_fallback_outcome; auto].
  destruct (flag_set (fair_owed_flags d) PRIORITY_TURN_ACTIVE) eqn:Ea; cbn [negb];
    [by apply deferred_fallback_outcome; auto|].
  destruct (if burst <? mb then _ else None) as [i|] eqn:Ec.
  { intros [= <- _ <-]. split; [done|]. destruct (burst <? mb); [|done].
    apply position_ready in Ec as (x & Hx & Hp). apply andb_true_iff in Hp as [_ Hp].
    exists x. split_and!; auto. }
  clear Ec. destruct (position _ _) as [i|] eqn:Eo.
  { intros [= <- _ <-]. split; [done|]. apply position_ready in Eo as (x & Hx & Hp).
    apply andb_true_iff in Hp as [Hp He]. apply Z.eqb_eq in Hp. exists x.
    pose proof (turn_flags_cases _ Hok) as (_ & _ & _ & H1). rewrite (H1 Ep Ea). by split_and!. }
  destruct (existsb _ _); apply deferred_fallback_outcome; auto.
Qed.

(** From an idle queue, whatever sequence of selections, completions,
    cancellations, clears and pushes follows, the turn state stays coherent: a
    nested admission is recorded only while a turn is active.  A selection
    always names a ready entry; it takes the turn only when no turn was active,
    and then the queue owes exactly that entry's band. *)
Theorem deferred_turn_invariant pr d0 burst0 burst d eligible mb :
  rtc (turn_step pr) (burst0, d0) (burst, d) -> fair_owed_flags d0 = 0 ->
  turn_flags_ok (fair_owed_flags d) /\
  let '(r, _, d') := select_front_fair_deferred pr eligible burst mb d in
  deferred_outcome pr eligible d r d'.
Proof.
  intros Hrtc H0.
  assert (turn_flags_ok (fair_owed_flags d)) as Hok.
  { assert (turn_flags_ok (fair_owed_flags (snd (burst0, d0)))) as Hinit by (cbn; rewrite H0; by left).
    change d with (snd (burst, d)). revert Hinit. clear H0.
    induction Hrtc as [s|s1 s2 s3 Hstep Hrtc IH]; intros Hi; [done|]. apply IH. clear IH.
    destruct Hstep as [el mb' b d1 r b' d2 Hsel|p owns adm ret b d1 b' d2 Hfin|b d1|b d1|b d1 l n];
      cbn [snd] in *.
    - apply deferred_select_outcome in Hsel as [_ Hsel]; [|done]. destruct r as [[i []]|].
      + destruct Hsel as (x & _ & _ & _ & -> & _). unfold turn_flags_ok. auto 10.
      + destruct Hsel as (x & _ & _ & [->|[-> _]]); [done|by left].
      + destruct Hsel as [->| ->]; [done|by left].
    - pose proof (turn_flags_cases _ Hi) as (_ & H2 & H3 & _). unfold finish_deferred_turn in Hfin.
      destruct (negb owns && adm && flag_set (fair_owed_flags d1) PRIORITY_TURN_ACTIVE) eqn:En.
      + apply andb_true_iff in En as [En Hact]. apply andb_true_iff in En as [En _].
        rewrite En in Hfin. cbn [orb] in Hfin. injection Hfin as <- <-. by apply H3.
      + destruct (_ || _); [by injection Hfin as <- <-|].
        destruct (adm || negb ret); [|injection Hfin as _ <-; exact H2].
        destruct (flag_set _ PRIORITY_TURN_PENDING); injection Hfin as _ <-; by left.
    - apply turn_flags_cases in Hi. apply Hi.
    - apply turn_flags_cases in Hi. apply Hi.
    - done. }
  split; [done|]. destruct (select_front_fair_deferred pr eligible burst mb d) as [[r b'] d'] eqn:Es.
  by eapply deferred_select_outcome.
Qed.

(** Does some look of the router give the owed band its turn? *)
Fixpoint turn_granted (pr : T -> Z) (mb : Z) (snaps : list snapshot) (burst : Z) (d : deque) : bool :=
  match snaps with
  | [] => false
  | (l, eligible) :: snaps =>
      let '(r, burst, d) :=
        select_front_fair_deferred pr (fun _ => eligible) burst mb (with_content d l (cur_bytes d)) in
      match r with
      | Some (_, true) => true
      | _ => turn_granted pr mb snaps burst d
      end
  end.

(** An owed turn is granted within the burst bound: while an entry of the
    owed band is ready at every look, at most [mb] control entries pass it. *)
Theorem owed_turn_granted pr mb snaps burst d :
  is_u8 mb -> is_u8 burst -> fair_owed_flags d = PRIORITY_TURN_PENDING ->
  Forall (fun s : snapshot => exists x, x ∈ s.1 /\ s.2 x = true /\ pr x = fair_owed_priority d) snaps ->
  mb + 1 <= zlen snaps ->
  turn_granted pr mb snaps burst d = true.
Proof.
  intros Hmb Hb Hf Hw Hlen.
  assert (Z.max 0 (mb - burst) < zlen snaps) as Hpat by solve_u. clear Hlen.
  revert burst d Hb Hf Hw Hpat.
  induction snaps as [|[l eligible] snaps IH]; intros burst d Hb Hf Hw Hpat.
  { change (zlen []) with 0 in Hpat. lia. }
  assert (zlen ((l, eligible) :: snaps) = zlen snaps + 1) as Hz by (unfold zlen; cbn [length]; lia).
  apply Forall_cons in Hw as [(x & Hx & He & Hp) Hw]. cbn [fst snd] in *.
  cbn [turn_granted]. unfold select_front_fair_deferred.
  cbn [fair_owed_flags with_content fair_owed_priority q]. rewrite Hf. cbn [negb andb].
  change (flag_set PRIORITY_TURN_PENDING PRIORITY_TURN_PENDING) with true.
  change (flag_set PRIORITY_TURN_PENDING PRIORITY_TURN_ACTIVE) with false. cbn [negb andb].
  destruct (if burst <? mb then _ else None) as [i|] eqn:Ec.
  - destruct (Z.ltb_spec burst mb) as [Hlt|]; [|done]. apply IH; try done.
    + unfold sat_add8. solve_u.
    + unfold sat_add8. unfold_u. lia.
  - pose proof (first_ready_spec (fun x => (pr x =? fair_owed_priority d) && eligible x) l 0) as Hfr.
    unfold position.
    destruct (first_ready (fun x => (pr x =? fair_owed_priority d) && eligible x) l 0) as [[k y]|]; [done|].
    rewrite Forall_forall in Hfr. specialize (Hfr x Hx). cbn in Hfr.
    by rewrite Hp, Z.eqb_refl, He in Hfr.
Qed.
(** *** The turns of the router

    One turn is a selection, the service of the entry outside the lock, and the report
    whether it was admitted and whether the entry is still in the queue; the queue may
    change in any way from one turn to the next. *)
Record look : Type := { at_look : snapshot; was_admitted : bool; was_retained : bool }.

(** The bands of the entries selected. *)
Fixpoint serviced (pr : T -> Z) (mb : Z) (looks : list look) (burst : Z) (d : deque) : list Z :=
  match looks with
  | [] => []
  | k :: looks =>
      let '(l, eligible) := at_look k in
      let '(r, burst, d) := select_front_fair_deferred pr (fun _ => eligible) burst mb (with_content d l (cur_bytes d)) in
      match r with
      | Some (index, owns) =>
          match l !! index with
          | Some x => let '(burst, d) := finish_deferred_turn (pr x) owns (was_admitted k) (was_retained k) burst d in
                      pr x :: serviced pr mb looks burst d
          | None => serviced pr mb looks burst d
          end
      | None => serviced pr mb looks burst d
      end
  end.

(** No entry outranks the first ready one: none of a higher band waits for a retry or
    is in the hands of a transport. *)
Definition unblocked (pr : T -> Z) (snap : snapshot) : Prop :=
  forall front x, ready_front (snd snap) (fst snap) front x -> forall y, y ∈ fst snap -> pr y <= pr x.

(** The turn was used: the entry was admitted, or it left the queue. *)
Definition used_turn (k : look) : Prop := was_admitted k || negb (was_retained k) = true.

(** Turns that are used, at looks that nothing blocks, are the bare selection. *)
Lemma serviced_served pr mb looks : forall burst d,
  fair_owed_flags d = 0 -> Forall (fun k => unblocked pr (at_look k) /\ used_turn k) looks ->
  serviced pr mb looks burst d = served pr mb (map at_look looks) burst (fair_priority_cursor d).
Proof.
  induction looks as [|k looks IH]; intros burst d Hf Hall; [done|]. apply Forall_cons in Hall as [[Hu Ht] Hall].
  cbn [serviced map served]. destruct (at_look k) as [l eligible] eqn:Ek. cbn [fst snd] in *.
  unfold select_front_fair_deferred. cbn [fair_owed_flags with_content]. rewrite Hf.
  change (flag_set 0 PRIORITY_TURN_PENDING) with false. cbn [andb]. unfold deferred_fallback, select_front_fair_with_context.
  cbn [q with_content fair_priority_cursor fair_owed_priority fair_owed_flags].
  pose proof (fair_select_cases pr eligible mb l burst (fair_priority_cursor d)) as Hs.
  destruct (fair_select pr eligible mb l burst (fair_priority_cursor d)) as [[[index burst'] cursor']|]; [|by rewrite IH].
  destruct Hs as (front & x & Hx & Hs). pose proof (Hu front x Hx) as Htop. cbn [fst] in Htop.
  cbn [with_fairness fair_owed_flags q with_content fair_priority_cursor fair_owed_priority]. rewrite Hf.
  change (flag_set 0 PRIORITY_TURN_PENDING) with false. rewrite Z.eqb_refl. cbn [andb].
  assert (index = front -> existsb (fun y => (match l !! index with Some z => pr z | None => 0 end) <? pr y) l = false) as Hno.
  { intros ->. destruct Hx as (Hx & _). rewrite Hx. apply not_true_iff_false. intros (y & Hy%list_elem_of_In & Hlt%Z.ltb_lt)%existsb_exists.
    specialize (Htop y Hy). lia. }
  assert (forall b c, finish_deferred_turn (pr x) false (was_admitted k) (was_retained k) b
    (with_fairness (with_content d l (cur_bytes d)) c (fair_owed_priority d) 0) = (b, with_fairness (with_content d l (cur_bytes d)) c (fair_owed_priority d) 0)) as Hfin.
  { intros b c. unfold finish_deferred_turn. cbn [negb andb orb with_fairness fair_owed_flags].
    change (flag_set 0 PRIORITY_TURN_ACTIVE) with false. by rewrite andb_false_r. }
  destruct Hs as [(-> & -> & -> & _)|[(-> & _ & -> & -> & _)|(_ & -> & z & Hz & Hw & -> & _)]].
  1,2: rewrite Hno by done; destruct Hx as (Hx & _); rewrite Hx, Hfin; f_equal; by rewrite IH.
  rewrite Hz. assert (existsb (fun y => pr z <? pr y) l = true) as ->.
  { apply existsb_exists. exists x. destruct Hx as (Hx & _). split; [apply list_elem_of_In; by eapply list_elem_of_lookup_2|].
    apply Z.ltb_lt. destruct Hw as (_ & _ & Hlt). exact Hlt. }
  unfold finish_deferred_turn. cbn [negb andb orb with_fairness fair_owed_flags fair_owed_priority].
  change (flag_set (Z.lor PRIORITY_TURN_PENDING PRIORITY_TURN_ACTIVE) PRIORITY_TURN_ACTIVE) with true.
  change (flag_set (Z.lor PRIORITY_TURN_PENDING PRIORITY_TURN_ACTIVE) PRIORITY_TURN_PENDING) with true.
  rewrite Hz, Z.eqb_refl, (Ht : was_admitted k || negb (was_retained k) = true). cbn [negb orb]. f_equal. by rewrite IH.
Qed.

(** C34: no band starves as long as nothing blocks the turns.  The transmit queue of the
    router is served in turns: a selection, and when its entry has been offered to the
    transport the report of the outcome.  Let an entry of a lower band [p] be ready at
    every look, let no entry of a band above the ready ones wait ineligible (for a retry,
    or claimed by a transport), and let the selected entries be admitted or leave the
    queue.  From a queue that owes no turn an entry of the band [p] is then selected
    within 256 * (burst + 1) turns, whichever entries come and go from one to the next
    and whichever other bands compete.  (A [clear] in between or a cancelled turn is not
    considered: they start the fairness anew.  The second condition is needed: with one
    blocked urgent entry the lower bands starve, see [blocked_entry_starves].) *)
Theorem bounded_waiting pr mb p looks burst d :
  is_u8 mb -> is_u8 burst -> is_u8 (fair_priority_cursor d) -> (forall x, is_u8 (pr x)) -> fair_owed_flags d = 0 ->
  Forall (fun k => band_waits pr p (at_look k) /\ unblocked pr (at_look k) /\ used_turn k) looks ->
  256 * (mb + 1) <= zlen looks ->
  p ∈ serviced pr mb looks burst d.
Proof.
  intros Hmb Hb Hc Hpr Hf Hall Hlen. rewrite serviced_served; [|done|].
  - apply served_waiting; try done.
    + apply Forall_map. eapply Forall_impl; [exact Hall|]. by intros k (H & _).
    + unfold zlen in *. by rewrite length_map.
  - eapply Forall_impl; [exact Hall|]. by intros k (_ & H).
Qed.
End Fair.

(** ** Concrete instances *)

(** A protected entry, a bulk entry and a background entry, all ready. *)
Definition three_bands : list SampleEntry := [entry 250 10 1; entry 100 10 2; entry 10 10 3].

Definition band (e : SampleEntry) : Z := Z.max 0 (Z.min 255 (se_priority e)).

Definition bands_queue : BoundedDeque SampleEntry :=
  {| q := three_bands; capacity := 4; max_bytes := 100; cur_bytes := 30; max_elems := 4;
     grow_num := 2048; grow_den := 1024; fixed_capacity := false;
     fair_priority_cursor := 255; fair_owed_priority := 0; fair_owed_flags := 0 |}.

Lemma bands_queue_ok : queue_ok bands_queue /\ by_priority band (q bands_queue).
Proof.
  split; [split; vm_compute; repeat split; discriminate|].
  repeat constructor; vm_compute; discriminate.
Qed.

Definition ready_look : look := {| at_look := (three_bands, fun _ => true); was_admitted := true; was_retained := false |}.

Lemma bounded_waiting_witness : 10 ∈ serviced band 2 (replicate 768 ready_look) 0 bands_queue.
Proof.
  apply bounded_waiting.
  - solve_u.
  - solve_u.
  - vm_compute. by split.
  - intros x. unfold band. solve_u.
  - reflexivity.
  - apply Forall_replicate. split; [|split; [|reflexivity]].
    + exists 0%nat, (entry 250 10 1), (entry 10 10 3). split; [|split].
      * split; [reflexivity|split; [reflexivity|constructor]].
      * split; [right; left|split; reflexivity].
      * reflexivity.
    + intros front x (Hx & _ & Hall) y Hy. cbn [at_look ready_look fst snd] in *.
      destruct front as [|front]; [|apply Forall_cons in Hall as [Hall _]; discriminate].
      injection Hx as <-. unfold three_bands in Hy. repeat (apply elem_of_cons in Hy as [->|Hy]; [vm_compute; discriminate|]).
      by apply not_elem_of_nil in Hy.
  - vm_compute. discriminate.
Defined.

(** *** A blocked urgent entry

    The urgent entry waits for its retry.  Every turn of the band below is then owned,
    because a higher entry is in the queue, and its completion resets the burst: while
    that band is resupplied, the ready entry of the lowest band is never selected. *)
Definition blocked_look : look :=
  {| at_look := (three_bands, fun e => negb (band e =? 250)); was_admitted := true; was_retained := false |}.

Definition blocked_queue : BoundedDeque SampleEntry := with_fairness (with_content bands_queue three_bands 30) 100 100 0.

Lemma blocked_entry_starves n : serviced band 2 (replicate n blocked_look) 0 blocked_queue = replicate n 100.
Proof.
  assert (forall looks, serviced band 2 (blocked_look :: looks) 0 blocked_queue = 100 :: serviced band 2 looks 0 blocked_queue) as H
    by (intros looks; vm_compute; reflexivity).
  induction n as [|n IH]; [done|]. cbn [replicate]. by rewrite H, IH.
Qed.

Lemma pop_front_fair_spec_witness :
  let '(v, burst, d) := pop_front_fair_if band (fun _ => true) 2 2 bands_queue in
  queue_ok d /\ option_map se_tag v = Some 2 /\ burst = 0 /\ fair_priority_cursor d = 100.
Proof.
  pose proof (pop_front_fair_spec band (fun _ => true) 2 2 bands_queue (proj1 bands_queue_ok)) as H.
  destruct (pop_front_fair_if band (fun _ => true) 2 2 bands_queue) as [[v burst] d] eqn:E.
  destruct H as [Hok _]. split; [exact Hok|].
  vm_compute in E. injection E as <- <- <-. repeat split; reflexivity.
Defined.

Lemma pop_front_bulk_fair_spec_witness :
  let '(v, burst, d) := pop_front_bulk_fair band 3 3
    (with_content bands_queue [entry 100 10 1; entry 50 10 2; entry 10 10 3; entry 10 10 4] 40) in
  queue_ok d /\ option_map se_tag v = Some 3 /\ burst = 0.
Proof.
  pose proof (pop_front_bulk_fair_spec band 3 3
    (with_content bands_queue [entry 100 10 1; entry 50 10 2; entry 10 10 3; entry 10 10 4] 40)) as H.
  specialize (H ltac:(split; vm_compute; repeat split; discriminate)
    ltac:(repeat constructor; vm_compute; discriminate)).
  destruct (pop_front_bulk_fair _ _ _ _) as [[v burst] d] eqn:E.
  destruct H as [Hok _]. split; [exact Hok|].
  vm_compute in E. injection E as <- <- _. repeat split; reflexivity.
Defined.

(** A lower band selected after a spent burst takes the turn. *)
Lemma deferred_turn_invariant_witness :
  let '(r, _, d) := select_front_fair_deferred band (fun _ _ => true) 2 2 bands_queue in
  deferred_outcome band (fun _ _ => true) bands_queue r d /\
  option_map snd r = Some true /\ fair_owed_flags d = 3 /\ fair_owed_priority d = 100.
Proof.
  destruct (deferred_turn_invariant band bands_queue 2 2 bands_queue (fun _ _ => true) 2)
    as [_ H]; [apply rtc_refl|reflexivity|].
  destruct (select_front_fair_deferred band (fun _ _ => true) 2 2 bands_queue) as [[r b] d] eqn:E.
  split; [exact H|]. vm_compute in E. injection E as <- _ <-. repeat split; reflexivity.
Defined.

Lemma owed_turn_granted_witness :
  turn_granted band 2 (replicate 3 ([entry 255 10 1; entry 100 10 2], fun _ => true)) 0
    (with_fairness bands_queue 255 100 PRIORITY_TURN_PENDING) = true.
Proof.
  apply owed_turn_granted.
  - solve_u.
  - solve_u.
  - reflexivity.
  - apply Forall_replicate. exists (entry 100 10 2). split; [right; left|split; reflexivity].
  - vm_compute. discriminate.
Defined.

