(* ===== verification/SmallSort.v ===== *)
(** * Sorting of routing lists ([src/small_sort.rs])

    The sort of the embedded build is a heapsort in place; other builds use the
    standard library's.  The list is the slice, an out-of-range access is [None]
    (a panic), and the loops of the code carry fuel.  Indices stay below the
    length of a slice, so the [usize] arithmetic on them does not wrap. *)

From Stdlib Require Import ZArith List Lia.
From stdpp Require Import base list sorting tactics.
From S2P Require Import Prelude.

Section SmallSort.
Context `{OrdKey T}.

(** ** The model *)

(** [a <= b] of [Ord]. *)
Definition kle (a b : T) : Prop := kcmp a b <> Gt.
#[export] Instance kle_dec : RelDecision kle.
Proof. intros a b. unfold kle. destruct (kcmp a b); solve [left; done|right; auto]. Defined.

(** [values[i] < values[j]]. *)
Definition less (values : list T) (i j : nat) : option bool :=
  x ← values !! i; y ← values !! j; Some (kltb x y).

(** [values.swap(i, j)]. *)
Definition swap (values : list T) (i j : nat) : option (list T) :=
  x ← values !! i; y ← values !! j; Some (<[i := y]> (<[j := x]> values)).

(** The larger child of [root] below [end]. *)
Definition larger_child (values : list T) (root end_ : nat) : option nat :=
  let child := (root * 2 + 1)%nat in
  if (child + 1 <? end_)%nat
  then lt ← less values child (child + 1); Some (if lt : bool then (child + 1)%nat else child)
  else Some child.

Fixpoint sift (fuel : nat) (values : list T) (root end_ : nat) : option (list T) :=
  match fuel with
  | O => None
  | S fuel =>
      if (root <? end_ / 2)%nat then
        child ← larger_child values root end_;
        lt ← less values root child;
        if lt : bool then values ← swap values root child; sift fuel values child end_
        else Some values
      else Some values
  end.

(** [for root in (0..n).rev()]: the heap is built bottom-up. *)
Fixpoint build_heap (n : nat) (values : list T) : option (list T) :=
  match n with
  | O => Some values
  | S root =>
      values ← sift (S (length values)) values root (length values);
      build_heap root values
  end.

(** [for end in (1..=n).rev()]: the maximum moves behind the shrinking heap. *)
Fixpoint extract_all (n : nat) (values : list T) : option (list T) :=
  match n with
  | O => Some values
  | S n' =>
      values ← swap values 0 n;
      values ← sift (S (length values)) values 0 n;
      extract_all n' values
  end.

Definition heap_sort (values : list T) : option (list T) :=
  let len := length values in
  values ← build_heap (len / 2) values;
  extract_all (len - 1) values.

(** [sort]: what [sort_unstable] returns on a total order is the sorted list. *)
Definition sort (embedded : bool) (values : list T) : option (list T) :=
  if embedded then heap_sort values else Some (merge_sort kle values).

(** ** The order *)

Lemma kle_refl a : kle a a.
Proof. unfold kle. by rewrite kcmp_refl. Qed.

Lemma kle_cases a b : kle a b <-> klt a b \/ a = b.
Proof. unfold kle, klt. rewrite <- kcmp_eq. destruct (kcmp a b); naive_solver. Qed.

#[export] Instance kle_trans : Transitive kle.
Proof.
  intros a b c Hab Hbc. apply kle_cases. apply kle_cases in Hab as [Hab| ->], Hbc as [Hbc| ->]; auto.
  left. by apply klt_trans with b.
Qed.

#[export] Instance kle_total : Total kle.
Proof. intros a b. unfold kle. rewrite (kcmp_antisym a b). destruct (kcmp a b); auto. Qed.

#[export] Instance kle_antisymm : AntiSymm (=) kle.
Proof.
  intros a b Hab Hba. apply kle_cases in Hab as [Hab| ->]; [|done].
  unfold kle in Hba. rewrite (kcmp_antisym a b), Hab in Hba. done.
Qed.

Lemma kltb_kle a b : kltb a b = true -> kle a b.
Proof. unfold kltb, kle. by destruct (kcmp a b). Qed.

Lemma kltb_false_kle a b : kltb a b = false -> kle b a.
Proof. unfold kltb, kle. rewrite (kcmp_antisym a b). by destruct (kcmp a b). Qed.

(** ** Swaps *)

(** The exchange of two positions, as a map on indices. *)
Definition exchange (i j k : nat) : nat :=
  if decide (k = i) then j else if decide (k = j) then i else k.

Lemma swap_spec v i j :
  (i < length v)%nat -> (j < length v)%nat ->
  exists v', swap v i j = Some v' /\ v' ≡ₚ v /\ forall k, v' !! k = v !! exchange i j k.
Proof.
  intros Hi Hj. unfold swap. destruct (lookup_lt_is_Some_2 v i Hi) as [x Hx].
  destruct (lookup_lt_is_Some_2 v j Hj) as [y Hy]. rewrite Hx, Hy. cbn.
  assert (forall k, (<[i:=y]> (<[j:=x]> v)) !! k = v !! exchange i j k) as Hk.
  { intros k. unfold exchange. repeat case_decide; subst.
    - rewrite list_lookup_insert_eq; [done|by rewrite length_insert].
    - rewrite list_lookup_insert_ne, list_lookup_insert_eq by done. done.
    - by rewrite !list_lookup_insert_ne by done. }
  eexists. split; [done|]. split; [|done]. apply Permutation_inj. split; [by rewrite !length_insert|].
  exists (exchange i j). split; [|done].
  intros a b. unfold exchange. repeat case_decide; naive_solver.
Qed.

Lemma less_spec v i j x y :
  v !! i = Some x -> v !! j = Some y -> less v i j = Some (kltb x y).
Proof. intros Hi Hj. unfold less. by rewrite Hi, Hj. Qed.

(** ** The heap invariant *)

(** Position [j] holds at most what position [i] holds. *)
Definition below (v : list T) (j i : nat) : Prop :=
  forall x y, v !! j = Some x -> v !! i = Some y -> kle x y.

Lemma below_refl v k : below v k k.
Proof. intros x y H1 H2. rewrite H1 in H2. injection H2 as ->. apply kle_refl. Qed.

Lemma below_at v j i x y :
  v !! j = Some x -> v !! i = Some y -> kle x y -> below v j i.
Proof. intros Hj Hi Hle a b Ha Hb. congruence. Qed.

Definition child (i j : nat) : Prop := (j = 2 * i + 1 \/ j = 2 * i + 2)%nat.

(** Every edge from [lo] on and below [end] is ordered. *)
Definition heap (lo end_ : nat) (v : list T) : Prop :=
  forall i j, (lo <= i)%nat -> child i j -> (j < end_)%nat -> below v j i.

(** The same, except for the edges that leave [w]; the children of [w] are
    still below its parent. *)
Definition weak_heap (lo end_ w : nat) (v : list T) : Prop :=
  (forall i j, (lo <= i)%nat -> i <> w -> child i j -> (j < end_)%nat -> below v j i) /\
  (forall p j, (lo <= p)%nat -> child p w -> child w j -> (j < end_)%nat -> below v j p).

Lemma below_swap v v' w c :
  (forall k, v' !! k = v !! exchange w c k) ->
  forall j i, below v' j i <-> below v (exchange w c j) (exchange w c i).
Proof. intros Hk j i. unfold below. by rewrite !Hk. Qed.

Lemma larger_child_spec v w end_ :
  (w < end_ / 2)%nat -> (end_ <= length v)%nat ->
  exists c, larger_child v w end_ = Some c /\ child w c /\ (c < end_)%nat /\
  forall j, child w j -> (j < end_)%nat -> below v j c.
Proof.
  intros Hw Hlen. assert (2 * w + 2 <= end_)%nat as Hc.
  { pose proof (Nat.Div0.div_mod end_ 2). pose proof (Nat.mod_upper_bound end_ 2). lia. }
  unfold larger_child. replace (w * 2 + 1)%nat with (2 * w + 1)%nat by lia.
  destruct (Nat.ltb_spec (2 * w + 1 + 1) end_) as [Hlt|Hge].
  - destruct (lookup_lt_is_Some_2 v (2 * w + 1)) as [x Hx]; [lia|].
    destruct (lookup_lt_is_Some_2 v (2 * w + 1 + 1)) as [y Hy]; [lia|].
    rewrite (less_spec _ _ _ x y) by done. cbn [mbind option_bind]. eexists. split; [done|].
    assert (2 * w + 2 = 2 * w + 1 + 1)%nat as E2 by lia.
    destruct (kltb x y) eqn:E; (split; [unfold child; lia|split; [lia|]]);
      intros j [->| ->] _; rewrite ?E2; try apply below_refl.
    + apply (below_at _ _ _ x y); [done..|]. by apply kltb_kle.
    + apply (below_at _ _ _ y x); [done..|]. by apply kltb_false_kle.
  - eexists. split; [done|]. split; [by left|]. split; [lia|].
    intros j [->| ->] Hj; [apply below_refl|lia].
Qed.

(** Exchanging the weak node with its larger child moves the weakness down. *)
Lemma weak_heap_swap lo end_ w c v v' x y :
  weak_heap lo end_ w v -> (lo <= w)%nat -> child w c -> (c < end_)%nat ->
  (forall j, child w j -> (j < end_)%nat -> below v j c) ->
  v !! w = Some x -> v !! c = Some y -> kle x y ->
  (forall k, v' !! k = v !! exchange w c k) -> weak_heap lo end_ c v'.
Proof.
  intros [H1 H2] Hlo Hwc Hc Hmax Hx Hy Hxy Hk. pose proof (below_swap _ _ _ _ Hk) as Hb.
  assert (w < c)%nat by (unfold child in *; lia).
  split.
  - intros i j Hi Hic Hij Hj. apply Hb. unfold exchange. unfold child in *.
    destruct (decide (i = w)) as [->|Hiw].
    + rewrite (decide_False (P := j = w)) by lia. destruct (decide (j = c)) as [->|Hjc].
      * by apply (below_at _ _ _ x y).
      * apply Hmax; [lia|done].
    + rewrite (decide_False (P := i = c)) by done. destruct (decide (j = w)) as [->|Hjw].
      * apply H2; [done|unfold child; lia..].
      * rewrite (decide_False (P := j = c)) by lia. apply H1; [done|done|unfold child; lia|done].
  - intros p j Hp Hpc Hcj Hj. apply Hb. unfold exchange. unfold child in *.
    assert (p = w) as -> by lia. rewrite (decide_True (P := w = w)) by done.
    rewrite (decide_False (P := j = w)), (decide_False (P := j = c)) by lia.
    apply H1; [lia|lia|unfold child; lia|done].
Qed.

Lemma weak_heap_done lo end_ w v :
  weak_heap lo end_ w v -> (forall j, child w j -> (j < end_)%nat -> below v j w) -> heap lo end_ v.
Proof.
  intros [H1 _] Hw i j Hi Hij Hj. destruct (decide (i = w)) as [->|]; [by apply Hw|by apply H1].
Qed.

(** The swapped part stays below [end], so does everything it permutes. *)
Lemma exchange_above w c end_ k :
  (w < end_)%nat -> (c < end_)%nat -> (end_ <= k)%nat -> exchange w c k = k.
Proof. intros. unfold exchange. by rewrite !decide_False by lia. Qed.

(** [sift] returns, repairs the heap, and permutes only the part below [end]. *)
Lemma sift_spec fuel lo end_ w v :
  (w <= end_)%nat -> (end_ < fuel + w)%nat -> (lo <= w)%nat -> (end_ <= length v)%nat ->
  weak_heap lo end_ w v ->
  exists v', sift fuel v w end_ = Some v' /\ heap lo end_ v' /\ v' ≡ₚ v /\
             forall k, (end_ <= k)%nat -> v' !! k = v !! k.
Proof.
  revert w v. induction fuel as [|fuel IH]; intros w v Hw Hf Hlo Hlen Hweak; [lia|].
  cbn [sift]. destruct (Nat.ltb_spec w (end_ / 2)) as [Hlt|Hge].
  - destruct (larger_child_spec v w end_) as (c & -> & Hwc & Hc & Hmax); [done..|].
    assert (w < c)%nat by (unfold child in *; lia).
    destruct (lookup_lt_is_Some_2 v w) as [x Hx]; [lia|].
    destruct (lookup_lt_is_Some_2 v c) as [y Hy]; [lia|].
    cbn [mbind option_bind]. rewrite (less_spec _ _ _ x y) by done. cbn [mbind option_bind].
    destruct (kltb x y) eqn:E.
    + destruct (swap_spec v w c) as (v1 & -> & Hp & Hk); [lia..|]. cbn [mbind option_bind].
      destruct (IH c v1) as (v' & -> & Hh & Hp' & Hk'); [lia..| | |].
      * by rewrite (Permutation_length Hp).
      * apply weak_heap_swap with w v x y; auto using kltb_kle.
      * exists v'. split; [done|]. split; [done|]. split; [by rewrite Hp'|].
        intros k Hge. rewrite Hk' by done. by rewrite Hk, exchange_above with (end_ := end_) by lia.
    + exists v. split; [done|]. split; [|done]. apply weak_heap_done with w; [done|].
      intros j Hj Hje a b Ha Hb. assert (b = x) as -> by congruence.
      transitivity y; [by apply (Hmax j Hj Hje)|by apply kltb_false_kle].
  - exists v. split; [done|]. split; [|done]. apply weak_heap_done with w; [done|].
    intros j Hj Hje. exfalso. unfold child in Hj.
    pose proof (Nat.Div0.div_mod end_ 2). pose proof (Nat.mod_upper_bound end_ 2). lia.
Qed.

Lemma build_heap_spec n v :
  (n <= length v / 2)%nat -> heap n (length v) v ->
  exists v', build_heap n v = Some v' /\ heap 0 (length v) v' /\ v' ≡ₚ v.
Proof.
  revert v. induction n as [|n IH]; intros v Hn Hh; [by exists v|]. cbn [build_heap].
  assert (n < length v)%nat.
  { pose proof (Nat.Div0.div_mod (length v) 2). lia. }
  destruct (sift_spec (S (length v)) n (length v) n v) as (v1 & -> & Hh1 & Hp1 & _); [lia..| |].
  { split; [intros i j Hi Hin; apply Hh; lia|]. unfold child. intros p j. lia. }
  cbn [mbind option_bind]. destruct (IH v1) as (v' & -> & Hh' & Hp').
  - rewrite (Permutation_length Hp1). lia.
  - by rewrite (Permutation_length Hp1).
  - exists v'. rewrite (Permutation_length Hp1) in Hh'. split; [done|]. split; [done|]. by rewrite Hp'.
Qed.

(** ** Extraction *)

(** The root of a heap is its greatest element. *)
Lemma heap_root end_ v k : heap 0 end_ v -> (k < end_)%nat -> (end_ <= length v)%nat -> below v k 0.
Proof.
  intros Hh. induction k as [k IH] using lt_wf_ind. intros Hk Hlen.
  destruct k as [|k]; [apply below_refl|]. set (p := (k / 2)%nat).
  pose proof (Nat.Div0.div_mod k 2) as Hd. pose proof (Nat.mod_upper_bound k 2). fold p in Hd.
  destruct (lookup_lt_is_Some_2 v p) as [z Hz]; [lia|].
  intros x y Hx Hy. transitivity z.
  - apply (Hh p (S k)); [lia|unfold child; lia|done..].
  - apply (IH p); [lia|lia|done..].
Qed.

(** A permutation that keeps the part from [end] on permutes the part below. *)
Lemma permuted_below (v v' : list T) end_ k x :
  v' ≡ₚ v -> (forall k, (end_ <= k)%nat -> v' !! k = v !! k) -> (k < end_)%nat ->
  v' !! k = Some x -> exists j, (j < end_)%nat /\ v !! j = Some x.
Proof.
  intros Hp Hk Hlt Hx. assert (drop end_ v' = drop end_ v) as Hd.
  { apply list_eq. intros i. rewrite !lookup_drop. apply Hk. lia. }
  assert (take end_ v' ≡ₚ take end_ v) as Ht.
  { apply (Permutation_app_inv_r (drop end_ v)). by rewrite <- Hd at 1; rewrite !take_drop. }
  assert (x ∈ take end_ v) as Hin.
  { rewrite <- Ht. apply list_elem_of_lookup_2 with k. by rewrite lookup_take_lt. }
  apply list_elem_of_lookup_1 in Hin as [j Hj]. apply lookup_take_Some in Hj as [Hj Hje]. eauto.
Qed.

(** From [end] on the list is sorted and above everything before it. *)
Definition sorted_from (end_ : nat) (v : list T) : Prop :=
  forall i j, (i < j)%nat -> (end_ <= j)%nat -> below v i j.

Lemma extract_step v n v1 v2 :
  heap 0 (S n) v -> sorted_from (S n) v -> (S n <= length v)%nat ->
  v1 ≡ₚ v -> (forall k, v1 !! k = v !! exchange 0 n k) ->
  v2 ≡ₚ v1 -> (forall k, (n <= k)%nat -> v2 !! k = v1 !! k) -> sorted_from n v2.
Proof.
  intros Hh Hs Hlen Hp1 Hk1 Hp2 Hk2 i j Hij Hj x y Hx Hy.
  assert (forall k z, (k < n)%nat -> v2 !! k = Some z -> exists j, (j < S n)%nat /\ v !! j = Some z)
    as Hlow.
  { intros k z Hk Hz. destruct (permuted_below v1 v2 n k z) as (m & Hm & Hv); [done..|].
    rewrite Hk1 in Hv. exists (exchange 0 n m). split; [|done].
    unfold exchange. repeat case_decide; lia. }
  rewrite Hk2, Hk1 in Hy by done.
  destruct (decide (j = n)) as [->|Hjn].
  - destruct (Hlow i x Hij Hx) as (m & Hm & Hv).
    apply (heap_root (S n) v m); [done..|]. rewrite <- Hy. unfold exchange.
    destruct (decide (n = 0%nat)) as [->|]; [lia|]. by rewrite decide_True.
  - rewrite exchange_above with (end_ := S n) in Hy by lia.
    destruct (decide (i < n)%nat) as [Hlt|Hge].
    + destruct (Hlow i x Hlt Hx) as (m & Hm & Hv). apply (Hs m j); [lia..|done|done].
    + rewrite Hk2, Hk1 in Hx by lia.
      assert (exists m, (m < j)%nat /\ v !! m = Some x) as (m & Hm & Hv).
      { exists (exchange 0 n i). split; [|done]. unfold exchange. repeat case_decide; lia. }
      apply (Hs m j); [lia..|done|done].
Qed.

Lemma extract_all_spec n v :
  (S n <= length v)%nat -> heap 0 (S n) v -> sorted_from (S n) v ->
  exists v', extract_all n v = Some v' /\ sorted_from 0 v' /\ v' ≡ₚ v.
Proof.
  revert v. induction n as [|n IH]; intros v Hlen Hh Hs.
  { exists v. split; [done|]. split; [|done]. intros i j Hij _. apply Hs; lia. }
  cbn [extract_all].
  destruct (swap_spec v 0 (S n)) as (v1 & -> & Hp1 & Hk1); [lia..|]. cbn [mbind option_bind].
  pose proof (Permutation_length Hp1) as Hl1.
  destruct (sift_spec (S (length v1)) 0 (S n) 0 v1) as (v2 & -> & Hh2 & Hp2 & Hk2); [lia..| |].
  { split; [|unfold child; intros p j; lia]. intros i j _ Hi Hij Hj. unfold child in Hij.
    apply (below_swap _ _ _ _ Hk1). unfold exchange. rewrite !decide_False by lia.
    apply Hh; unfold child; lia. }
  cbn [mbind option_bind]. pose proof (Permutation_length Hp2) as Hl2.
  destruct (IH v2) as (v' & -> & Hs' & Hp'); [lia|done| |].
  - by apply (extract_step v (S n) v1 v2).
  - exists v'. split; [done|]. split; [done|]. by rewrite Hp', Hp2.
Qed.

Lemma sorted_from_Sorted v : sorted_from 0 v -> StronglySorted kle v.
Proof.
  induction v as [|x v IH]; intros Hs; [constructor|]. apply StronglySorted_cons. split.
  - apply Forall_lookup. intros j y Hy. apply (Hs 0%nat (S j)); [lia|lia|done|done].
  - apply IH. intros i j Hij _. intros a b Ha Hb. apply (Hs (S i) (S j)); [lia|lia|done|done].
Qed.

Lemma heap_sort_spec v :
  exists v', heap_sort v = Some v' /\ StronglySorted kle v' /\ v' ≡ₚ v.
Proof.
  unfold heap_sort. destruct (build_heap_spec (length v / 2) v) as (v1 & -> & Hh & Hp); [lia| |].
  { intros i j Hi Hij Hj. unfold child in Hij. pose proof (Nat.Div0.div_mod (length v) 2).
    pose proof (Nat.mod_upper_bound (length v) 2). lia. }
  cbn [mbind option_bind]. pose proof (Permutation_length Hp) as Hl.
  destruct v as [|x v].
  { apply Permutation_nil_r in Hp as ->. exists []. split; [done|]. split; [constructor|done]. }
  destruct (extract_all_spec (length (x :: v) - 1) v1) as (v' & -> & Hs & Hp').
  - rewrite Hl. cbn. lia.
  - replace (S (length (x :: v) - 1)) with (length (x :: v)) by (cbn; lia). done.
  - intros i j Hij Hj a b Ha Hb. apply lookup_lt_Some in Hb. rewrite Hl in Hb. cbn in *. lia.
  - exists v'. split; [done|]. split; [by apply sorted_from_Sorted|by rewrite Hp'].
Qed.

(** ** Properties *)

(** Sorting never panics and terminates on every list; both builds return the
    same list, the ascending arrangement of the same elements. *)
Theorem sort_spec embedded v :
  exists v', sort embedded v = Some v' /\ v' ≡ₚ v /\ StronglySorted kle v' /\
             sort (negb embedded) v = Some v'.
Proof.
  destruct (heap_sort_spec v) as (v' & Hrun & Hs & Hp).
  assert (v' = merge_sort kle v) as Hm.
  { apply (StronglySorted_unique kle); [done| |].
    - apply StronglySorted_merge_sort; apply _.
    - rewrite Hp. symmetry. apply merge_sort_Permutation. }
  exists v'. destruct embedded; cbn [sort negb]; rewrite Hrun, <- Hm; auto.
Qed.

End SmallSort.
