(* ===== verification/SmallMap.v ===== *)
(** * The compact ordered map ([src/small_map.rs])

    Small router tables of the embedded build are a vector of entries in key
    order, searched by bisection; other builds use the standard library's B-tree
    map.  The vector is a list, an access outside it is [None] (a panic).  The
    refinement theorem relates every operation to a finite map whose traversals
    go in key order, which is what the B-tree map promises. *)

From Stdlib Require Import ZArith List Lia.
From stdpp Require Import base list sorting gmap tactics.
From S2P Require Import Prelude SmallSort.

Module SmallMap.
Section Model.
Context `{OrdKey K} {V : Type}.

(** ** The model *)

Record SmallMap : Type := { entries : list (K * V) }.

Definition default : SmallMap := {| entries := [] |}.
Definition new_map : SmallMap := default.

(** [binary_search_by] of the standard library: [size] candidates from [base]. *)
Fixpoint bisect (fuel : nat) (l : list (K * V)) (key : K) (base size : nat) : option nat :=
  match fuel with
  | O => None
  | S fuel =>
      if (1 <? size)%nat then
        let half := (size / 2)%nat in
        let mid := (base + half)%nat in
        e ← l !! mid;
        bisect fuel l key (match kcmp (fst e) key with Gt => base | _ => mid end) (size - half)
      else Some base
  end.

Definition binary_search (l : list (K * V)) (key : K) : option (nat + nat) :=
  if is_empty l then Some (inr 0%nat)
  else
    base ← bisect (S (length l)) l key 0 (length l);
    e ← l !! base;
    Some (match kcmp (fst e) key with
          | Eq => inl base | Lt => inr (S base) | Gt => inr base end).

(** [Ok i] is [inl i], [Err i] the insertion point [inr i]. *)
Definition position (m : SmallMap) (key : K) : option (nat + nat) :=
  binary_search (entries m) key.

Definition len (m : SmallMap) : nat := length (entries m).
Definition map_is_empty (m : SmallMap) : bool := is_empty (entries m).
Definition map_clear (m : SmallMap) : SmallMap := {| entries := [] |}.

(** Every operation returns [None] where the code panics. *)
Definition get (m : SmallMap) (key : K) : option (option V) :=
  p ← position m key;
  match p with
  | inl i => e ← entries m !! i; Some (Some (snd e))
  | inr _ => Some None
  end.

(** What the holder of [get_mut]'s reference leaves behind. *)
Definition get_mut (m : SmallMap) (key : K) (update : V -> V) : option (option V * SmallMap) :=
  p ← position m key;
  match p with
  | inl i => e ← entries m !! i;
             Some (Some (snd e), {| entries := <[i := (fst e, update (snd e))]> (entries m) |})
  | inr _ => Some (None, m)
  end.

Definition contains_key (m : SmallMap) (key : K) : option bool :=
  p ← position m key; Some (match p with inl _ => true | inr _ => false end).

(** [Vec::insert] panics beyond the end, [Vec::remove] at or beyond it. *)
Definition vec_insert {A} (i : nat) (x : A) (l : list A) : option (list A) :=
  if (length l <? i)%nat then None else Some (take i l ++ x :: drop i l).
Definition vec_remove {A} (i : nat) (l : list A) : option (A * list A) :=
  x ← l !! i; Some (x, take i l ++ drop (S i) l).

Definition insert (m : SmallMap) (key : K) (value : V) : option (option V * SmallMap) :=
  p ← position m key;
  match p with
  | inl i => e ← entries m !! i;
             Some (Some (snd e), {| entries := <[i := (fst e, value)]> (entries m) |})
  | inr i => l ← vec_insert i (key, value) (entries m); Some (None, {| entries := l |})
  end.

(** An emptied map gives its allocation back. *)
Definition release_empty (m : SmallMap) : SmallMap :=
  if map_is_empty m then map_clear m else m.

Definition remove (m : SmallMap) (key : K) : option (option V * SmallMap) :=
  p ← position m key;
  match p with
  | inl i => '(e, l) ← vec_remove i (entries m);
             Some (Some (snd e), release_empty {| entries := l |})
  | inr _ => Some (None, m)
  end.

Definition first_key_value (m : SmallMap) : option (K * V) := head (entries m).

Definition pop_first (m : SmallMap) : option (option (K * V) * SmallMap) :=
  if map_is_empty m then Some (None, m)
  else '(e, l) ← vec_remove 0 (entries m); Some (Some e, release_empty {| entries := l |}).

(** [retain] sees each entry once, in order, and may change its value. *)
Definition retain (f : K -> V -> bool * V) (m : SmallMap) : SmallMap :=
  release_empty {| entries := omap (fun '(k, v) =>
    let '(keep, v) := f k v in if keep then Some (k, v) else None) (entries m) |}.

Definition iter (m : SmallMap) : list (K * V) := entries m.
Definition keys (m : SmallMap) : list K := map fst (entries m).
Definition values (m : SmallMap) : list V := map snd (entries m).
Definition iter_mut (f : K -> V -> V) (m : SmallMap) : SmallMap :=
  {| entries := map (fun '(k, v) => (k, f k v)) (entries m) |}.

(** An entry remembers the position its key was found at. *)
Record Entry : Type := { en_map : SmallMap; en_key : K; en_position : nat + nat }.

Definition entry_at (m : SmallMap) (key : K) : option Entry :=
  p ← position m key; Some {| en_map := m; en_key := key; en_position := p |}.

(** The value the returned reference shows, and the map afterwards. *)
Definition or_insert_with (e : Entry) (value : unit -> V) : option (V * SmallMap) :=
  '(i, l) ← match en_position e with
            | inl i => Some (i, entries (en_map e))
            | inr i => l ← vec_insert i (en_key e, value tt) (entries (en_map e)); Some (i, l)
            end;
  x ← l !! i; Some (snd x, {| entries := l |}).

Definition or_insert (e : Entry) (value : V) : option (V * SmallMap) :=
  or_insert_with e (fun _ => value).

Fixpoint extend (m : SmallMap) (items : list (K * V)) : option SmallMap :=
  match items with
  | [] => Some m
  | (k, v) :: items => '(_, m) ← insert m k v; extend m items
  end.

Definition from_iter (items : list (K * V)) : option SmallMap := extend new_map items.

(** [map[&key]] panics on a missing key. *)
Definition index (m : SmallMap) (key : K) : option V :=
  r ← get m key; r.

End Model.
Arguments SmallMap _ _ : clear implicits.
Arguments Entry _ _ : clear implicits.

(** ** Bisection *)

Section Facts.
Context `{OrdKey K} {V : Type}.
Implicit Types (l : list (K * V)) (m : SmallMap K V) (k : K).

Definition before (a b : K * V) : Prop := klt (fst a) (fst b).
Definition ordered_entries : list (K * V) -> Prop := StronglySorted before.

#[export] Instance before_trans : Transitive before.
Proof. intros a b c. apply klt_trans. Qed.

Lemma ordered_lookup l i j a b :
  ordered_entries l -> l !! i = Some a -> l !! j = Some b -> (i < j)%nat -> before a b.
Proof.
  intros Hs. revert i j. induction Hs as [|x l Hs IH Hx]; intros i j Hi Hj Hij; [done|].
  destruct j as [|j]; [lia|]. cbn in Hj. destruct i as [|i]; cbn in Hi.
  - injection Hi as <-. rewrite Forall_lookup in Hx. by apply (Hx j).
  - apply (IH i j); [done..|lia].
Qed.

(** Everything from [i] on is above the key. *)
Definition above_from l k (i : nat) : Prop :=
  forall j e, (i <= j)%nat -> l !! j = Some e -> klt k (fst e).

Lemma bisect_spec fuel l k base size :
  ordered_entries l -> (size <= fuel)%nat -> (1 <= size)%nat -> (base + size <= length l)%nat ->
  above_from l k (base + size) ->
  (base = 0%nat \/ exists e, l !! base = Some e /\ kcmp (fst e) k <> Gt) ->
  exists b, bisect fuel l k base size = Some b /\ (b < length l)%nat /\ above_from l k (S b) /\
            (b = 0%nat \/ exists e, l !! b = Some e /\ kcmp (fst e) k <> Gt).
Proof.
  intros Hs. revert base size. induction fuel as [|fuel IH]; intros base size Hf H1 Hl Ha Hb; [lia|].
  cbn [bisect]. destruct (Nat.ltb_spec 1 size) as [Hlt|Hge].
  2: { exists base. split; [done|]. split; [lia|]. split; [|done].
       intros j e Hj. apply Ha. lia. }
  set (half := (size / 2)%nat). assert (1 <= half /\ half * 2 <= size)%nat as [Hh1 Hh2].
  { subst half. pose proof (Nat.Div0.div_mod size 2). pose proof (Nat.mod_upper_bound size 2). lia. }
  destruct (lookup_lt_is_Some_2 l (base + half)) as [e He]; [lia|]. rewrite He. cbn [mbind option_bind].
  destruct (kcmp (fst e) k) eqn:E.
  1, 2: apply IH; [lia..| |right; exists e; by rewrite E];
    intros j e' Hj; apply Ha; lia.
  apply IH; [lia..| |done]. intros j e' Hj He'. apply kcmp_gt in E.
  destruct (decide (j = base + half)%nat) as [->|]; [by simplify_eq|].
  apply klt_trans with (fst e); [done|].
  apply (ordered_lookup l (base + half) j); [done..|lia].
Qed.

(** Where a key is, or where it belongs. *)
Inductive located l k : nat + nat -> Prop :=
| located_at l1 v l2 : l = l1 ++ (k, v) :: l2 -> located l k (inl (length l1))
| located_gap l1 l2 :
    l = l1 ++ l2 -> Forall (fun e => klt (fst e) k) l1 -> Forall (fun e => klt k (fst e)) l2 ->
    located l k (inr (length l1)).

Lemma gap_at l k i :
  (i <= length l)%nat -> above_from l k i ->
  (forall j e, (j < i)%nat -> l !! j = Some e -> klt (fst e) k) -> located l k (inr i).
Proof.
  intros Hi Ha Hb. rewrite <- (length_take_le l i) by done.
  apply located_gap with (drop i l); [by rewrite take_drop|apply Forall_lookup..].
  - intros j e Hj. apply lookup_take_Some in Hj as [Hj Hlt]. by apply (Hb j).
  - intros j e Hj. rewrite lookup_drop in Hj. apply (Ha (i + j)%nat); [lia|done].
Qed.

Lemma position_spec m k :
  ordered_entries (entries m) ->
  exists p, position m k = Some p /\ located (entries m) k p.
Proof.
  unfold position, binary_search. intros Hs. set (l := entries m) in *.
  destruct (is_empty l) eqn:El.
  { destruct l; [|done]. eexists. split; [done|]. by apply (located_gap [] k [] []). }
  destruct l as [|e0 l0] eqn:E0; [done|]. rewrite <- E0 in *. clear El.
  assert (1 <= length l)%nat by (rewrite E0; cbn; lia).
  destruct (bisect_spec (S (length l)) l k 0 (length l)) as (b & -> & Hb & Ha & Hle); [done|lia..| |by left|].
  { intros j e Hj He. apply lookup_lt_Some in He. lia. }
  cbn [mbind option_bind]. destruct (lookup_lt_is_Some_2 l b Hb) as [[k' v] He]. rewrite He.
  cbn [mbind option_bind fst]. eexists. split; [done|].
  assert (forall j e, (j < b)%nat -> l !! j = Some e -> klt (fst e) k') as Hlow.
  { intros j e Hj Hl. apply (ordered_lookup l j b e (k', v)); [done..|lia]. }
  destruct (kcmp k' k) eqn:E.
  - apply kcmp_eq in E as ->. rewrite <- (length_take_le l b) at 1 by lia.
    apply located_at with v (drop (S b) l). by rewrite <- (drop_S _ _ _ He), take_drop.
  - apply gap_at; [lia|done|]. intros j e Hj Hl.
    destruct (decide (j = b)) as [->|]; [by simplify_eq|].
    apply klt_trans with k'; [apply (Hlow j); [lia|done]|done].
  - destruct Hle as [->|(e & He' & Hgt)]; [|simplify_eq; by cbn in Hgt; rewrite E in Hgt].
    apply kcmp_gt in E. apply gap_at; [lia| |intros; lia]. intros j e _ Hl.
    destruct (decide (j = 0%nat)) as [->|]; [by simplify_eq|].
    apply klt_trans with k'; [done|]. apply (ordered_lookup l 0 j (k', v)); [done..|lia].
Qed.

End Facts.

(** ** Positions of a vector *)

Lemma lookup_at {A} (l1 : list A) x l2 : (l1 ++ x :: l2) !! length l1 = Some x.
Proof. by apply list_lookup_middle. Qed.

Lemma vec_insert_at {A} (l1 l2 : list A) x :
  vec_insert (length l1) x (l1 ++ l2) = Some (l1 ++ x :: l2).
Proof.
  unfold vec_insert. destruct (Nat.ltb_spec (length (l1 ++ l2)) (length l1)) as [Hlt|_].
  - rewrite length_app in Hlt. lia.
  - by rewrite take_app_length, drop_app_length.
Qed.

Lemma vec_remove_at {A} (l1 l2 : list A) x :
  vec_remove (length l1) (l1 ++ x :: l2) = Some (x, l1 ++ l2).
Proof.
  unfold vec_remove. rewrite lookup_at. cbn [mbind option_bind]. rewrite take_app_length.
  replace (S (length l1)) with (length l1 + 1)%nat by lia. by rewrite drop_app_add.
Qed.

Lemma insert_at {A} (l1 l2 : list A) x y : <[length l1 := y]> (l1 ++ x :: l2) = l1 ++ y :: l2.
Proof. by rewrite insert_app_r_alt, Nat.sub_diag by lia. Qed.

(** ** The reference map *)

Section Refinement.
Context `{OrdKey K} `{Countable K} {V : Type}.
Implicit Types (l : list (K * V)) (m : SmallMap K V) (g : gmap K V) (k : K).

Definition key_le (a b : K * V) : Prop := kle (fst a) (fst b).
#[export] Instance key_le_dec : RelDecision key_le.
Proof. intros a b. unfold key_le. apply _. Defined.

(** The traversal of an ordered map: ascending keys. *)
Definition ascending_entries (g : gmap K V) : list (K * V) := merge_sort key_le (map_to_list g).

(** The calls of the tables' users, with what they return. *)
Inductive map_op : Type :=
| Op_get (k : K) | Op_contains_key (k : K) | Op_get_mut (k : K) (f : V -> V)
| Op_insert (k : K) (v : V) | Op_remove (k : K) | Op_or_insert (k : K) (v : V)
| Op_first | Op_pop_first | Op_retain (f : K -> V -> bool * V) | Op_iter_mut (f : K -> V -> V)
| Op_iter | Op_len | Op_clear.

Inductive map_out : Type :=
| Out_value (v : option V) | Out_bool (b : bool) | Out_entry (e : option (K * V))
| Out_items (l : list (K * V)) | Out_len (n : nat) | Out_unit.

Definition small_step (op : map_op) (m : SmallMap K V) : option (map_out * SmallMap K V) :=
  match op with
  | Op_get k => v ← get m k; Some (Out_value v, m)
  | Op_contains_key k => b ← contains_key m k; Some (Out_bool b, m)
  | Op_get_mut k f => '(v, m) ← get_mut m k f; Some (Out_value v, m)
  | Op_insert k v => '(o, m) ← insert m k v; Some (Out_value o, m)
  | Op_remove k => '(o, m) ← remove m k; Some (Out_value o, m)
  | Op_or_insert k v => e ← entry_at m k; '(x, m) ← or_insert e v; Some (Out_value (Some x), m)
  | Op_first => Some (Out_entry (first_key_value m), m)
  | Op_pop_first => '(e, m) ← pop_first m; Some (Out_entry e, m)
  | Op_retain f => Some (Out_unit, retain f m)
  | Op_iter_mut f => Some (Out_unit, iter_mut f m)
  | Op_iter => Some (Out_items (iter m), m)
  | Op_len => Some (Out_len (len m), m)
  | Op_clear => Some (Out_unit, map_clear m)
  end.

Definition kept (f : K -> V -> bool * V) (k : K) (v : V) : option V :=
  let '(keep, v) := f k v in if keep then Some v else None.

Definition ordered_step (op : map_op) (g : gmap K V) : map_out * gmap K V :=
  match op with
  | Op_get k => (Out_value (g !! k), g)
  | Op_contains_key k => (Out_bool (bool_decide (is_Some (g !! k))), g)
  | Op_get_mut k f => (Out_value (g !! k), alter f k g)
  | Op_insert k v => (Out_value (g !! k), <[k := v]> g)
  | Op_remove k => (Out_value (g !! k), delete k g)
  | Op_or_insert k v =>
      match g !! k with
      | Some x => (Out_value (Some x), g)
      | None => (Out_value (Some v), <[k := v]> g)
      end
  | Op_first => (Out_entry (head (ascending_entries g)), g)
  | Op_pop_first =>
      match ascending_entries g with
      | [] => (Out_entry None, g)
      | e :: _ => (Out_entry (Some e), delete (fst e) g)
      end
  | Op_retain f => (Out_unit, map_imap (kept f) g)
  | Op_iter_mut f => (Out_unit, map_imap (fun k v => Some (f k v)) g)
  | Op_iter => (Out_items (ascending_entries g), g)
  | Op_len => (Out_len (size g), g)
  | Op_clear => (Out_unit, ∅)
  end.

Fixpoint small_run (ops : list map_op) (m : SmallMap K V) : option (list map_out * SmallMap K V) :=
  match ops with
  | [] => Some ([], m)
  | op :: ops => '(o, m) ← small_step op m; '(os, m) ← small_run ops m; Some (o :: os, m)
  end.

Fixpoint ordered_run (ops : list map_op) (g : gmap K V) : list map_out * gmap K V :=
  match ops with
  | [] => ([], g)
  | op :: ops => let '(o, g) := ordered_step op g in
                 let '(os, g) := ordered_run ops g in (o :: os, g)
  end.

(** ** The simulation *)

(** The entries are the map, in key order. *)
Definition represents m g : Prop :=
  ordered_entries (entries m) /\ list_to_map (entries m) = g.

Lemma ordered_NoDup l : ordered_entries l -> NoDup (l.*1).
Proof.
  induction 1 as [|x l Hs IH Hx]; [constructor|]. cbn. constructor; [|done].
  intros Hin. apply list_elem_of_fmap in Hin as (y & Hy & Hin). rewrite Forall_forall in Hx.
  apply Hx in Hin. unfold before in Hin. rewrite Hy in Hin. by apply klt_irrefl in Hin.
Qed.

Lemma ordered_middle l1 k v v' l2 :
  ordered_entries (l1 ++ (k, v) :: l2) -> ordered_entries (l1 ++ (k, v') :: l2).
Proof.
  unfold ordered_entries. rewrite !StronglySorted_app, !StronglySorted_cons.
  unfold before. cbn. intros (H1 & H2 & H3). split; [|done].
  intros x y Hx Hy. apply elem_of_cons in Hy as [->|Hy]; [|apply H1; [done|by right]].
  apply (H1 x (k, v)); [done|by left].
Qed.

Lemma ordered_insert l1 k v l2 :
  ordered_entries (l1 ++ l2) -> Forall (fun e => klt (fst e) k) l1 ->
  Forall (fun e => klt k (fst e)) l2 -> ordered_entries (l1 ++ (k, v) :: l2).
Proof.
  unfold ordered_entries. rewrite !StronglySorted_app, !StronglySorted_cons. unfold before. cbn.
  intros (Hx & H1 & H2) Hl Hr. rewrite Forall_forall in Hl. split_and!; auto.
  intros x y Hx1 Hy. apply elem_of_cons in Hy as [->|Hy]; [by apply Hl|by apply Hx].
Qed.

Lemma ordered_remove l1 e l2 : ordered_entries (l1 ++ e :: l2) -> ordered_entries (l1 ++ l2).
Proof.
  unfold ordered_entries. rewrite !StronglySorted_app, !StronglySorted_cons.
  intros (Hx & H1 & _ & H2). split_and!; auto. intros x y ? ?. apply Hx; [done|by right].
Qed.

Lemma to_map_middle l1 k v l2 :
  NoDup ((l1 ++ (k, v) :: l2).*1) ->
  list_to_map (M := gmap K V) (l1 ++ (k, v) :: l2) = <[k := v]> (list_to_map (l1 ++ l2)) /\
  list_to_map (M := gmap K V) (l1 ++ l2) !! k = None.
Proof.
  intros Hn. assert (l1 ++ (k, v) :: l2 ≡ₚ (k, v) :: l1 ++ l2) as Hp by by rewrite Permutation_middle.
  split; [by rewrite (list_to_map_proper _ _ Hn Hp)|].
  apply not_elem_of_list_to_map_1. rewrite Hp in Hn. cbn in Hn. by apply NoDup_cons in Hn as [? _].
Qed.

Lemma gap_lookup l1 l2 k :
  Forall (fun e => klt (fst e) k) l1 -> Forall (fun e => klt k (fst e)) l2 ->
  list_to_map (M := gmap K V) (l1 ++ l2) !! k = None.
Proof.
  intros Hl Hr. apply not_elem_of_list_to_map_1. intros Hin.
  apply list_elem_of_fmap in Hin as ([k' v] & -> & Hin). apply elem_of_app in Hin as [Hin|Hin].
  - rewrite Forall_forall in Hl. apply Hl in Hin. by apply klt_irrefl in Hin.
  - rewrite Forall_forall in Hr. apply Hr in Hin. by apply klt_irrefl in Hin.
Qed.

(** Ordered traversal of the represented map gives the entries back. *)
Lemma ascending_represents m g : represents m g -> ascending_entries g = entries m.
Proof.
  intros [Hs <-]. apply (StronglySorted_unique_strong before).
  - intros x y _ _ Hxy Hyx. by apply klt_asym in Hxy.
  - assert (NoDup ((ascending_entries (list_to_map (entries m))).*1)) as Hn.
    { unfold ascending_entries. rewrite merge_sort_Permutation. apply NoDup_fst_map_to_list. }
    assert (StronglySorted key_le (ascending_entries (list_to_map (entries m)))) as Hk.
    { apply StronglySorted_merge_sort; intros a; unfold key_le; [|].
      - intros b c. apply kle_trans.
      - intros b. apply kle_total. }
    revert Hn Hk. generalize (ascending_entries (list_to_map (entries m))). clear.
    induction l as [|x l IH]; intros Hn Hk; [constructor|].
    cbn in Hn. apply NoDup_cons in Hn as [Hx Hn]. apply StronglySorted_cons in Hk as [Hle Hk].
    apply StronglySorted_cons. split; [|by apply IH].
    rewrite Forall_forall in Hle |- *. intros y Hy. apply Hle in Hy as Hxy.
    apply kle_cases in Hxy as [Hlt|Heq]; [done|]. exfalso. apply Hx. rewrite Heq.
    by apply list_elem_of_fmap_2.
  - done.
  - unfold ascending_entries. rewrite merge_sort_Permutation. apply map_to_list_to_map.
    by apply ordered_NoDup.
Qed.

Lemma represents_nil g : represents {| entries := [] |} g <-> g = ∅.
Proof. split; [by intros [_ <-]|intros ->; split; [constructor|done]]. Qed.

Lemma release_empty_represents m g : represents m g -> represents (release_empty m) g.
Proof.
  unfold release_empty, map_is_empty, map_clear. intros Hr. destruct m as [[|e l]]; done.
Qed.

(** What the bisection finds is what the map holds. *)
Inductive find_result m g k : nat + nat -> Prop :=
| found l1 v l2 :
    entries m = l1 ++ (k, v) :: l2 -> g !! k = Some v -> find_result m g k (inl (length l1))
| missing l1 l2 :
    entries m = l1 ++ l2 -> g !! k = None ->
    (forall v, represents {| entries := l1 ++ (k, v) :: l2 |} (<[k := v]> g)) ->
    find_result m g k (inr (length l1)).

Lemma position_represents m g k :
  represents m g -> exists p, position m k = Some p /\ find_result m g k p.
Proof.
  intros [Hs <-]. destruct (position_spec m k Hs) as (p & Hp & Hl). exists p. split; [done|].
  destruct Hl as [l1 v l2 He|l1 l2 He Hl Hr].
  - apply found with v l2; [done|]. rewrite He in *.
    destruct (to_map_middle l1 k v l2) as [-> _]; [by apply ordered_NoDup|]. apply lookup_insert_eq.
  - apply missing with l2; [done|rewrite He; by apply gap_lookup|]. intros v. rewrite He in Hs |- *.
    assert (ordered_entries (l1 ++ (k, v) :: l2)) as Hs' by by apply ordered_insert.
    split; [done|]. cbn [entries].
    by destruct (to_map_middle l1 k v l2) as [-> _]; [apply ordered_NoDup|].
Qed.

Lemma replace_represents m g l1 k v v' l2 :
  represents m g -> entries m = l1 ++ (k, v) :: l2 ->
  represents {| entries := l1 ++ (k, v') :: l2 |} (<[k := v']> g).
Proof.
  intros [Hs <-] He. rewrite He in *. split; [by apply ordered_middle with v|]. cbn [entries].
  destruct (to_map_middle l1 k v l2) as [-> _]; [by apply ordered_NoDup|].
  destruct (to_map_middle l1 k v' l2) as [-> _].
  { apply ordered_NoDup. by apply ordered_middle with v. }
  by rewrite insert_insert_eq.
Qed.

Lemma remove_represents m g l1 k v l2 :
  represents m g -> entries m = l1 ++ (k, v) :: l2 ->
  represents {| entries := l1 ++ l2 |} (delete k g).
Proof.
  intros [Hs <-] He. rewrite He in *. split; [by apply ordered_remove with (k, v)|]. cbn [entries].
  destruct (to_map_middle l1 k v l2) as [-> Hn]; [by apply ordered_NoDup|].
  by rewrite delete_insert_id.
Qed.

(** A traversal that maps or filters values by their keys. *)
Lemma traverse_represents (f : K -> V -> option V) l :
  ordered_entries l ->
  represents {| entries := omap (fun '(k, v) => v ← f k v; Some (k, v)) l |}
    (map_imap f (list_to_map l)).
Proof.
  induction 1 as [|[k v] l Hs IH Hx]; [apply represents_nil; apply map_imap_empty|].
  destruct IH as [Hso Hm]. cbn [entries] in *.
  change (list_to_map ((k, v) :: l)) with (<[k := v]> (list_to_map l : gmap K V)).
  rewrite map_imap_insert.
  assert (Forall (before (k, v)) (omap (fun '(k, v) => v ← f k v; Some (k, v)) l)) as Hx'.
  { rewrite Forall_forall in Hx |- *. intros [k' v'] Hin.
    apply list_elem_of_omap in Hin as ([k1 v1] & Hin & He).
    destruct (f k1 v1); [|done]. injection He as <- <-. by apply (Hx (k1, v1)). }
  assert ((list_to_map l : gmap K V) !! k = None) as Hn.
  { apply not_elem_of_list_to_map_1. intros Hin. apply list_elem_of_fmap in Hin as (y & -> & Hin).
    rewrite Forall_forall in Hx. apply Hx in Hin. by apply klt_irrefl in Hin. }
  cbn [omap list_omap]. destruct (f k v) as [w|]; cbn [mbind option_bind].
  - split; cbn [entries].
    + apply StronglySorted_cons. split; [|done].
      rewrite Forall_forall in Hx' |- *. intros y Hy. by apply Hx' in Hy.
    + by rewrite <- Hm.
  - split; [done|]. cbn [entries]. rewrite Hm, delete_id; [done|].
    rewrite map_lookup_imap, Hn. done.
Qed.

Lemma represents_size m g : represents m g -> size g = length (entries m).
Proof.
  intros [Hs <-]. rewrite map_size_list_to_map by by apply ordered_NoDup. done.
Qed.

(** *** Each operation *)

Definition simulates (m : SmallMap K V) (g : gmap K V) (op : map_op) : Prop :=
  exists m', small_step op m = Some (fst (ordered_step op g), m') /\
             represents m' (snd (ordered_step op g)).

Ltac locate m g k :=
  let p := fresh "p" in let Hp := fresh "Hp" in let Hf := fresh "Hf" in
  destruct (position_represents m g k) as (p & Hp & Hf); [done|];
  destruct Hf as [l1 v0 l2 He Hg|l1 l2 He Hg Hins];
  rewrite Hp; cbn [mbind option_bind]; rewrite ?He, ?lookup_at, ?Hg;
  cbn [mbind option_bind fst snd].

Lemma simulates_lookup m g k :
  represents m g -> simulates m g (Op_get k) /\ simulates m g (Op_contains_key k).
Proof.
  intros Hr. split; exists m; (split; [|done]); cbn [small_step ordered_step fst];
    unfold get, contains_key; locate m g k; done.
Qed.

Lemma simulates_update m g k f : represents m g -> simulates m g (Op_get_mut k f).
Proof.
  intros Hr. unfold simulates. cbn [small_step ordered_step fst snd]. unfold get_mut. locate m g k.
  - eexists. split; [done|]. rewrite insert_at.
    replace (alter f k g) with (<[k := f v0]> g); [by apply (replace_represents m g l1 k v0)|].
    apply map_eq. intros j. destruct (decide (j = k)) as [->|Hne].
    + by rewrite lookup_insert_eq, lookup_alter_eq, Hg.
    + by rewrite lookup_insert_ne, lookup_alter_ne by done.
  - eexists. split; [done|]. rewrite alter_id; [done|]. by rewrite Hg.
Qed.

Lemma simulates_insert m g k v : represents m g -> simulates m g (Op_insert k v).
Proof.
  intros Hr. unfold simulates. cbn [small_step ordered_step fst snd]. unfold insert. locate m g k.
  - eexists. split; [done|]. rewrite insert_at. by apply (replace_represents m g l1 k v0).
  - rewrite vec_insert_at. cbn [mbind option_bind]. eexists. split; [done|]. apply Hins.
Qed.

Lemma simulates_remove m g k : represents m g -> simulates m g (Op_remove k).
Proof.
  intros Hr. unfold simulates. cbn [small_step ordered_step fst snd]. unfold remove. locate m g k.
  - rewrite vec_remove_at. cbn [mbind option_bind]. eexists. split; [done|].
    apply release_empty_represents. by apply (remove_represents m g l1 k v0).
  - eexists. split; [done|]. by rewrite delete_id.
Qed.

Lemma simulates_or_insert m g k v : represents m g -> simulates m g (Op_or_insert k v).
Proof.
  intros Hr. unfold simulates. cbn [small_step ordered_step].
  unfold entry_at, or_insert, or_insert_with. locate m g k.
  - cbn [en_position en_map]. rewrite He. cbn [mbind option_bind]. rewrite lookup_at.
    cbn [mbind option_bind fst snd]. eexists. split; [done|]. rewrite <- He. by destruct m.
  - cbn [en_position en_map en_key]. rewrite He, vec_insert_at. cbn [mbind option_bind].
    rewrite lookup_at. cbn [mbind option_bind fst snd]. eexists. split; [done|]. apply Hins.
Qed.

Lemma simulates_pop m g :
  represents m g -> simulates m g Op_first /\ simulates m g Op_pop_first.
Proof.
  intros Hr. unfold simulates. cbn [small_step ordered_step].
  rewrite (ascending_represents m g Hr). split; [by exists m|].
  unfold pop_first, map_is_empty. destruct (entries m) as [|[k v] l] eqn:He; cbn [is_empty].
  - by exists m.
  - change (vec_remove 0 ((k, v) :: l)) with (Some ((k, v), l)). cbn [mbind option_bind fst snd].
    eexists. split; [done|].
    apply release_empty_represents. by apply (remove_represents m g [] k v l).
Qed.

Lemma simulates_retain m g f : represents m g -> simulates m g (Op_retain f).
Proof.
  intros [Hs <-]. eexists. split; [done|]. cbn [ordered_step snd]. unfold retain.
  apply release_empty_represents. destruct (traverse_represents (kept f) (entries m) Hs) as [H1 H2].
  assert (forall l, omap (fun '(k, v) => let '(keep, v) := f k v in
            if keep then Some (k, v) else None) l
          = omap (fun '(k, v) => v ← kept f k v; Some (k, v)) l) as E.
  { intros l. apply list_omap_ext, Forall2_same_length_lookup_2; [done|]. intros i [k v] y Hx Hy.
    simplify_eq. unfold kept. by destruct (f k v) as [[] w]. }
  by rewrite E.
Qed.

Lemma simulates_iter_mut m g f : represents m g -> simulates m g (Op_iter_mut f).
Proof.
  intros [Hs <-]. eexists. split; [done|]. cbn [ordered_step snd]. unfold iter_mut.
  pose proof (traverse_represents (fun k v => Some (f k v)) (entries m) Hs) as Ht.
  assert (forall l, map (fun '(k, v) => (k, f k v)) l
          = omap (fun '(k, v) => v ← (Some (f k v)); Some (k, v)) l) as E.
  { induction l as [|[k v] l IH]; [done|]. cbn. by rewrite IH. }
  by rewrite E.
Qed.

Lemma small_step_simulates op m g : represents m g -> simulates m g op.
Proof.
  intros Hr. destruct op; auto using simulates_update, simulates_insert, simulates_remove,
    simulates_or_insert, simulates_retain, simulates_iter_mut; try by apply simulates_lookup.
  1, 2: by apply simulates_pop.
  - exists m. split; [|done]. cbn. by rewrite (ascending_represents m g Hr).
  - exists m. split; [|done]. cbn. by rewrite (represents_size m g Hr).
  - eexists. split; [done|]. by apply represents_nil.
Qed.

Lemma small_run_simulates ops m g :
  represents m g ->
  exists m', small_run ops m = Some (fst (ordered_run ops g), m') /\
             represents m' (snd (ordered_run ops g)).
Proof.
  revert m g. induction ops as [|op ops IH]; intros m g Hr; [by exists m|]. cbn [small_run ordered_run].
  destruct (small_step_simulates op m g Hr) as (m1 & -> & Hr1). cbn [mbind option_bind].
  destruct (ordered_step op g) as [o g1]. cbn [fst snd] in *.
  destruct (IH m1 g1 Hr1) as (m' & -> & Hr'). cbn [mbind option_bind].
  destruct (ordered_run ops g1) as [os g']. by exists m'.
Qed.

Lemma from_iter_extend items m g :
  represents m g ->
  exists m', extend m items = Some m' /\ represents m' (foldl (fun g '(k, v) => <[k := v]> g) g items).
Proof.
  revert m g. induction items as [|[k v] items IH]; intros m g Hr; [by exists m|]. cbn [extend foldl].
  destruct (simulates_insert m g k v Hr) as (m1 & Hrun & Hr1). cbn [small_step] in Hrun.
  destruct (insert m k v) as [[o m2]|]; [|done]. cbn [mbind option_bind] in *.
  injection Hrun as _ ->. by apply IH.
Qed.

(** ** Properties *)

(** C40: a table built from any entries and driven by any sequence of calls never
    panics and answers every call as an ordered map does; what it holds at the
    end, traversed, is that map in key order. *)
Theorem small_map_refines items ops :
  let g0 := foldl (fun g '(k, v) => <[k := v]> g) (∅ : gmap K V) items in
  exists m0 m, from_iter items = Some m0 /\
    small_run ops m0 = Some (fst (ordered_run ops g0), m) /\
    iter m = ascending_entries (snd (ordered_run ops g0)).
Proof.
  intros g0. destruct (from_iter_extend items new_map ∅) as (m0 & Hm0 & Hrm).
  { by apply represents_nil. }
  destruct (small_run_simulates ops m0 g0 Hrm) as (m & Hrun & Hr). exists m0, m.
  split; [done|]. split; [done|]. unfold iter. symmetry. by apply ascending_represents.
Qed.

End Refinement.
End SmallMap.
