(* ===== verification/Calendar.v ===== *)
(** * Calendar time ([src/timesync.rs])

    Network time as calendar fields, complete or partial, and its conversion from
    and to Unix nanoseconds.  The signed 32-bit and 128-bit intermediate values of
    the code cannot overflow (an [i32] year spans less than 2^63 days), so they
    are plain integers; the casts and conversions that can fail are written out. *)

From S2P Require Import Prelude.
From stdpp Require Import list.

Open Scope Z_scope.

(** ** The model *)

Record PartialNetworkTime : Type := {
  pt_year : option Z; pt_month : option Z; pt_day : option Z;
  pt_hour : option Z; pt_minute : option Z; pt_second : option Z;
  pt_nanosecond : option Z;
}.

Record NetworkTime : Type := {
  year : Z; month : Z; day : Z; hour : Z; minute : Z; second : Z; nanosecond : Z;
}.

Definition partial_default : PartialNetworkTime :=
  {| pt_year := None; pt_month := None; pt_day := None; pt_hour := None; pt_minute := None;
     pt_second := None; pt_nanosecond := None |}.

(** [From<NetworkTime>]. *)
Definition partial_from (t : NetworkTime) : PartialNetworkTime :=
  {| pt_year := Some (year t); pt_month := Some (month t); pt_day := Some (day t);
     pt_hour := Some (hour t); pt_minute := Some (minute t); pt_second := Some (second t);
     pt_nanosecond := Some (nanosecond t) |}.

Definition i32_max : Z := 2147483647.
Definition try_i32 (v : Z) : option Z := if (- i32_max - 1 <=? v) && (v <=? i32_max) then Some v else None.
Definition try_u64 (v : Z) : option Z := if (0 <=? v) && (v <=? u64_max) then Some v else None.

(** Euclidean division and remainder by a positive divisor are [Z.div] and
    [Z.modulo]. *)
Definition days_from_civil (year month day : Z) : Z :=
  let era := year / 400 in
  let yoe := year mod 400 - (if month <=? 2 then 1 else 0) in
  let '(era, yoe) := if yoe <? 0 then (era - 1, yoe + 400) else (era, yoe) in
  let mp := month + (if 2 <? month then -3 else 9) in
  let doy := (153 * mp + 2) / 5 + day - 1 in
  let doe := yoe * 365 + yoe / 4 - yoe / 100 + doy in
  era * 146097 + doe - 719468.

(** [None] when the year exceeds an [i32]. *)
Definition civil_from_days (z : Z) : option (Z * Z * Z) :=
  let z := z + 719468 in
  let era := z / 146097 in
  let doe := wrap32 (z - era * 146097) in
  let yoe := (doe - doe / 1460 + doe / 36524 - doe / 146096) / 365 in
  let y := yoe + era * 400 in
  let doy := doe - (365 * yoe + yoe / 4 - yoe / 100) in
  let mp := (5 * doy + 2) / 153 in
  let d := doy - (153 * mp + 2) / 5 + 1 in
  let m := if mp <? 10 then mp + 3 else mp - 9 in
  y ← try_i32 (y + (if m <=? 2 then 1 else 0)); Some (y, m, d).

Definition from_unix_ns (unix_ns : Z) : option NetworkTime :=
  if unix_ns <? 0 then None
  else
    secs ← try_u64 (unix_ns / 1000000000);
    let nanos := wrap32 (unix_ns mod 1000000000) in
    let days := secs / 86400 in
    let sod := wrap32 (secs mod 86400) in
    '(y, m, d) ← civil_from_days days;
    Some {| year := y; month := wrap8 m; day := wrap8 d;
            hour := wrap8 (sod / 3600); minute := wrap8 (sod mod 3600 / 60);
            second := wrap8 (sod mod 60); nanosecond := nanos |}.

Definition as_unix_ns (t : NetworkTime) : option Z :=
  if negb ((1 <=? month t) && (month t <=? 12)) || negb ((1 <=? day t) && (day t <=? 31))
     || (23 <? hour t) || (59 <? minute t) || (59 <? second t) || (1000000000 <=? nanosecond t)
  then None
  else
    let days := days_from_civil (year t) (month t) (day t) in
    let secs := days * 86400 + hour t * 3600 + minute t * 60 + second t in
    Some (secs * 1000000000 + nanosecond t).

Definition as_unix_ms (t : NetworkTime) : option Z :=
  unix_ns ← as_unix_ns t;
  if unix_ns <? 0 then None else try_u64 (unix_ns / 1000000).

Definition from_unix_ms (unix_ms : Z) : PartialNetworkTime :=
  match from_unix_ns (unix_ms * 1000000) with
  | Some full => partial_from full
  | None => partial_default
  end.

Definition is_some_field (o : option Z) : bool := match o with Some _ => true | None => false end.
Definition is_complete_date (t : PartialNetworkTime) : bool :=
  is_some_field (pt_year t) && is_some_field (pt_month t) && is_some_field (pt_day t).
Definition is_complete_time (t : PartialNetworkTime) : bool :=
  is_some_field (pt_hour t) && is_some_field (pt_minute t) && is_some_field (pt_second t).

Definition to_network_time (t : PartialNetworkTime) : option NetworkTime :=
  y ← pt_year t; mo ← pt_month t; d ← pt_day t;
  h ← pt_hour t; mi ← pt_minute t; s ← pt_second t;
  Some {| year := y; month := mo; day := d; hour := h; minute := mi; second := s;
          nanosecond := default 0 (pt_nanosecond t) |}.

Definition advance_network_time (base : NetworkTime) (elapsed_ns : Z) : option NetworkTime :=
  unix_ns ← as_unix_ns base; from_unix_ns (unix_ns + elapsed_ns).

(** ** The calendar *)

Definition leap (y : Z) : bool :=
  (y mod 4 =? 0) && (negb (y mod 100 =? 0) || (y mod 400 =? 0)).

Definition days_in_month (y m : Z) : Z :=
  if m =? 2 then (if leap y then 29 else 28)
  else if (m =? 4) || (m =? 6) || (m =? 9) || (m =? 11) then 30 else 31.

Definition valid_date (y m d : Z) : Prop := 1 <= m <= 12 /\ 1 <= d <= days_in_month y m.

(** The date of the following day. *)
Definition next_day (y m d : Z) : Z * Z * Z :=
  if d <? days_in_month y m then (y, m, d + 1)
  else if m <? 12 then (y, m + 1, 1) else (y + 1, 1, 1).

Definition valid_time (t : NetworkTime) : Prop :=
  - i32_max - 1 <= year t <= i32_max /\ valid_date (year t) (month t) (day t) /\
  0 <= hour t <= 23 /\ 0 <= minute t <= 59 /\ 0 <= second t <= 59 /\
  0 <= nanosecond t < 1000000000.

Ltac by_div := Z.to_euclidean_division_equations; lia.

Lemma month_cases m : 1 <= m <= 12 ->
  m = 1 \/ m = 2 \/ m = 3 \/ m = 4 \/ m = 5 \/ m = 6 \/ m = 7 \/ m = 8 \/ m = 9 \/ m = 10
  \/ m = 11 \/ m = 12.
Proof. lia. Qed.

Lemma leap_cases y :
  (leap y = true /\ y mod 4 = 0 /\ (y mod 100 <> 0 \/ y mod 400 = 0)) \/
  (leap y = false /\ (y mod 4 <> 0 \/ y mod 100 = 0 /\ y mod 400 <> 0)).
Proof.
  unfold leap. destruct (Z.eqb_spec (y mod 4) 0), (Z.eqb_spec (y mod 100) 0),
    (Z.eqb_spec (y mod 400) 0); cbn; lia.
Qed.

(** Years that start in March: the day number as one closed expression. *)
Definition march_year (y m : Z) : Z := if m <=? 2 then y - 1 else y.
Definition march_days (y : Z) : Z := 365 * y + y / 4 - y / 100 + y / 400.
Definition month_start (m : Z) : Z := (153 * (m + (if 2 <? m then -3 else 9)) + 2) / 5.

Lemma march_era y : march_days y = y / 400 * 146097 + march_days (y mod 400).
Proof. unfold march_days. by_div. Qed.

Lemma days_from_civil_march y m d :
  days_from_civil y m d = march_days (march_year y m) + month_start m + d - 719469.
Proof.
  rewrite march_era. unfold days_from_civil, march_year, march_days, month_start.
  destruct (m <=? 2) eqn:E.
  - destruct (Z.ltb_spec (y mod 400 - 1) 0).
    + replace ((y - 1) / 400) with (y / 400 - 1) by by_div.
      replace ((y - 1) mod 400) with (y mod 400 - 1 + 400) by by_div. by_div.
    + replace ((y - 1) / 400) with (y / 400) by by_div.
      replace ((y - 1) mod 400) with (y mod 400 - 1) by by_div. by_div.
  - destruct (Z.ltb_spec (y mod 400 - 0) 0) as [Hlt|_]; [exfalso; by_div|].
    rewrite Z.sub_0_r. by_div.
Qed.

Lemma march_step y :
  march_days (y + 1) - march_days y = if leap (y + 1) then 366 else 365.
Proof.
  unfold march_days. destruct (leap_cases (y + 1)) as [[-> H]|[-> H]]; by_div.
Qed.

(** Evaluate what depends on a literal month only. *)
Ltac eval_months :=
  repeat match goal with
  | |- context [Z.pos ?a + 1] =>
      let v := eval vm_compute in (Z.pos a + 1) in change (Z.pos a + 1) with v
  | |- context [month_start (Z.pos ?a)] =>
      let v := eval vm_compute in (month_start (Z.pos a)) in change (month_start (Z.pos a)) with v
  | |- context [Z.pos ?a <=? Z.pos ?b] =>
      let v := eval vm_compute in (Z.pos a <=? Z.pos b) in change (Z.pos a <=? Z.pos b) with v
  end; cbv beta iota.

(** The day number counts days: it grows by one from each date to the next. *)
Lemma days_next y m d :
  valid_date y m d ->
  let '(y', m', d') := next_day y m d in
  valid_date y' m' d' /\ days_from_civil y' m' d' = days_from_civil y m d + 1.
Proof.
  intros [Hm Hd]. unfold next_day. destruct (Z.ltb_spec d (days_in_month y m)) as [Hlt|Hge].
  { split; [unfold valid_date; lia|]. rewrite !days_from_civil_march. lia. }
  assert (d = days_in_month y m) as -> by lia. clear Hd Hge.
  assert (forall y m, 28 <= days_in_month y m) as Hmin.
  { intros. unfold days_in_month. repeat case_match; lia. }
  apply month_cases in Hm.
  destruct Hm as [->|[->|[->|[->|[->|[->|[->|[->|[->|[->|[->| ->]]]]]]]]]]]; cbn;
    (split; [unfold valid_date; match goal with |- context [days_in_month ?a ?b] =>
              pose proof (Hmin a b) end; lia|]);
    rewrite !days_from_civil_march; unfold march_year; eval_months;
    try (rewrite ?Z.add_simpl_r; lia).
  pose proof (march_step (y - 1)) as Hs. replace (y - 1 + 1) with y in Hs by lia.
  destruct (leap y); lia.
Qed.

(** ** From day numbers to dates *)

Lemma civil_era doe :
  0 <= doe < 146097 ->
  let yoe := (doe - doe / 1460 + doe / 36524 - doe / 146096) / 365 in
  let doy := doe - (365 * yoe + yoe / 4 - yoe / 100) in
  0 <= yoe < 400 /\ 0 <= doy /\ doy < march_days (yoe + 1) - march_days yoe /\
  march_days yoe + doy = doe.
Proof. intros H yoe doy. subst yoe doy. unfold march_days. split_and!; by_div. Qed.

(** The month that holds the [doy]-th day after the first of March. *)
Lemma civil_month y doy :
  0 <= doy < (if leap (y + 1) then 366 else 365) ->
  let mp := (5 * doy + 2) / 153 in
  let d := doy - (153 * mp + 2) / 5 + 1 in
  let m := if mp <? 10 then mp + 3 else mp - 9 in
  let y' := y + (if m <=? 2 then 1 else 0) in
  valid_date y' m d /\ march_year y' m = y /\ month_start m + d - 1 = doy /\ 0 <= mp < 12.
Proof.
  intros Hd mp d m y'. assert (0 <= mp < 12) as Hmp.
  { subst mp. destruct (leap (y + 1)); by_div. }
  assert (153 * mp <= 5 * doy + 2 < 153 * (mp + 1)) as Hb by (subst mp; by_div).
  clearbody mp.
  assert (mp = 0 \/ mp = 1 \/ mp = 2 \/ mp = 3 \/ mp = 4 \/ mp = 5 \/ mp = 6 \/ mp = 7 \/ mp = 8
          \/ mp = 9 \/ mp = 10 \/ mp = 11) as Hc by lia.
  subst d m y'.
  assert (forall e : Z, e = 0 -> y + e = y) as Hz by lia.
  destruct Hc as [->|[->|[->|[->|[->|[->|[->|[->|[->|[->|[->| ->]]]]]]]]]]];
    unfold valid_date, march_year;
    repeat match goal with
    | |- context [(153 * ?a + 2) / 5] =>
        let v := eval vm_compute in ((153 * a + 2) / 5) in change ((153 * a + 2) / 5) with v
    | |- context [?a <? 10] =>
        let v := eval vm_compute in (a <? 10) in change (a <? 10) with v
    end; cbv beta iota;
    repeat match goal with
    | |- context [Z.pos ?a + 3] =>
        let v := eval vm_compute in (Z.pos a + 3) in change (Z.pos a + 3) with v
    | |- context [Z.pos ?a - 9] =>
        let v := eval vm_compute in (Z.pos a - 9) in change (Z.pos a - 9) with v
    end; try change (0 + 3) with 3; eval_months; cbn [days_in_month];
    unfold days_in_month; cbn [Z.eqb Pos.eqb orb]; rewrite ?Z.add_simpl_r, ?Z.add_0_r;
    split_and!; try lia; destruct (leap (y + 1)); lia.
Qed.

Lemma march_days_mono a b : a <= b -> march_days a + 365 * (b - a) <= march_days b.
Proof. unfold march_days. intros. by_div. Qed.

Lemma month_start_bounds m d y :
  valid_date y m d ->
  0 <= month_start m + d - 1 < (if leap y then 366 else 365) /\
  (m <= 2 -> 306 <= month_start m + d - 1) /\ (2 < m -> month_start m + d - 1 <= 305) /\
  (5 * (month_start m + d - 1) + 2) / 153 = m + (if 2 <? m then -3 else 9).
Proof.
  intros [Hm Hd]. apply month_cases in Hm. unfold days_in_month in Hd.
  destruct Hm as [->|[->|[->|[->|[->|[->|[->|[->|[->|[->|[->| ->]]]]]]]]]]];
    cbn [Z.eqb Pos.eqb orb] in Hd; eval_months;
    match goal with |- context [2 <? ?a] =>
      let v := eval vm_compute in (2 <? a) in change (2 <? a) with v end;
    try destruct (leap y); split_and!; try lia; by_div.
Qed.

(** Dates of later years have greater day numbers. *)
Lemma year_order Y y m d :
  valid_date y m d -> (Y <= y <-> days_from_civil Y 1 1 <= days_from_civil y m d).
Proof.
  intros Hv. destruct (month_start_bounds m d y Hv) as (H0 & H1 & H2 & _).
  assert ((if leap y then 366 else 365) <= 366) as Hlen by (destruct (leap y); lia).
  rewrite !days_from_civil_march. unfold march_year at 1. eval_months.
  unfold march_year. destruct (Z.leb_spec m 2) as [Hm|Hm].
  - split; intros H.
    + pose proof (march_days_mono (Y - 1) (y - 1)). lia.
    + destruct (Z.le_gt_cases Y y) as [|Hlt]; [done|]. pose proof (march_days_mono (y - 1) (Y - 1)). lia.
  - split; intros H.
    + pose proof (march_days_mono (Y - 1) y). lia.
    + destruct (Z.le_gt_cases Y y) as [|Hlt]; [done|]. pose proof (march_days_mono y (Y - 1)). lia.
Qed.

(** The day number determines the date. *)
Lemma days_from_civil_inj y m d y' m' d' :
  valid_date y m d -> valid_date y' m' d' ->
  days_from_civil y m d = days_from_civil y' m' d' -> y = y' /\ m = m' /\ d = d'.
Proof.
  intros Hv Hv' He. assert (y = y') as <-.
  { destruct (year_order y y' m' d' Hv') as [_ H1]. destruct (year_order y' y m d Hv) as [_ H2].
    destruct (year_order y y m d Hv) as [H3 _]. destruct (year_order y' y' m' d' Hv') as [H4 _].
    lia. }
  destruct (month_start_bounds m d y Hv) as (Hlen & H1 & H2 & Hm).
  destruct (month_start_bounds m' d' y Hv') as (Hlen' & H1' & H2' & Hm').
  pose proof (march_step (y - 1)) as Hstep. replace (y - 1 + 1) with y in Hstep by lia.
  rewrite <- Hstep in Hlen, Hlen'.
  rewrite !days_from_civil_march in He. unfold march_year in He. destruct Hv as [Hr _], Hv' as [Hr' _].
  assert (m = m') as <-; [|lia].
  destruct (Z.leb_spec m 2), (Z.leb_spec m' 2).
  2, 3: lia.
  all: assert (month_start m + d = month_start m' + d') as E by lia; rewrite E, Hm' in Hm;
    destruct (Z.ltb_spec 2 m), (Z.ltb_spec 2 m'); lia.
Qed.

Lemma civil_from_days_spec z :
  0 <= z ->
  match civil_from_days z with
  | Some (y, m, d) => valid_date y m d /\ days_from_civil y m d = z /\ 1970 <= y <= i32_max
  | None => days_from_civil (i32_max + 1) 1 1 <= z
  end.
Proof.
  intros Hz. unfold civil_from_days. set (era := (z + 719468) / 146097).
  assert (0 <= z + 719468 - era * 146097 < 146097) as Hdoe by (subst era; by_div).
  rewrite wrap32_small by (unfold_u; lia). remember (z + 719468 - era * 146097) as doe eqn:Ed.
  destruct (civil_era doe Hdoe) as (Hy & Hd0 & Hd1 & Hsum).
  set (yoe := (doe - doe / 1460 + doe / 36524 - doe / 146096) / 365) in *.
  set (doy := doe - (365 * yoe + yoe / 4 - yoe / 100)) in *.
  assert (march_days (yoe + era * 400) = era * 146097 + march_days yoe) as Hm.
  { unfold march_days. clearbody yoe era. by_div. }
  assert (march_days (yoe + era * 400 + 1) = era * 146097 + march_days (yoe + 1)) as Hm1.
  { unfold march_days. clearbody yoe era. by_div. }
  pose proof (march_step (yoe + era * 400)) as Hstep.
  destruct (civil_month (yoe + era * 400) doy) as (Hv & Hmy & Hms & _).
  { rewrite <- Hstep, Hm, Hm1. lia. }
  set (m := if (5 * doy + 2) / 153 <? 10 then (5 * doy + 2) / 153 + 3 else (5 * doy + 2) / 153 - 9) in *.
  set (d := doy - (153 * ((5 * doy + 2) / 153) + 2) / 5 + 1) in *.
  set (y := yoe + era * 400 + (if m <=? 2 then 1 else 0)) in *.
  assert (days_from_civil y m d = z) as Hdays.
  { rewrite days_from_civil_march, Hmy, Hm. lia. }
  pose proof (year_order 1970 y m d Hv) as H1970. pose proof (year_order (i32_max + 1) y m d Hv) as Hmax.
  rewrite Hdays in H1970, Hmax. change (days_from_civil 1970 1 1) with 0 in H1970.
  unfold try_i32. destruct ((- i32_max - 1 <=? y) && (y <=? i32_max)) eqn:E; cbn [mbind option_bind].
  - bool_to_prop. split; [done|]. split; [done|]. lia.
  - apply andb_false_iff in E as [E|E]; bool_to_prop; unfold i32_max in *; lia.
Qed.

(** ** Unix time *)

Lemma from_unix_ns_spec ns :
  0 <= ns ->
  match from_unix_ns ns with
  | Some t => valid_time t /\ 1970 <= year t /\ as_unix_ns t = Some ns
  | None => days_from_civil (i32_max + 1) 1 1 * 86400000000000 <= ns
  end.
Proof.
  intros Hns. unfold from_unix_ns. destruct (Z.ltb_spec ns 0) as [|_]; [lia|]. unfold try_u64.
  destruct ((0 <=? ns / 1000000000) && (ns / 1000000000 <=? u64_max)) eqn:Es; cbn [mbind option_bind].
  2: { change (days_from_civil (i32_max + 1) 1 1) with 784351576777.
       apply andb_false_iff in Es as [Es|Es]; bool_to_prop; unfold_u; by_div. }
  clear Es. set (secs := ns / 1000000000). assert (0 <= secs) by (subst secs; by_div).
  pose proof (civil_from_days_spec (secs / 86400) ltac:(by_div)) as Hc.
  destruct (civil_from_days (secs / 86400)) as [[[y m] d]|]; cbn [mbind option_bind].
  2: { revert Hc. subst secs. generalize (days_from_civil (i32_max + 1) 1 1). intros D. by_div. }
  destruct Hc as (Hv & Hdays & Hy). destruct Hv as [Hm Hd].
  assert (days_in_month y m <= 31) as Hdim by (unfold days_in_month; repeat case_match; lia).
  rewrite !(wrap32_small (ns mod 1000000000)), !(wrap32_small (secs mod 86400)) by (unfold_u; by_div).
  rewrite !wrap8_small by (unfold_u; by_div).
  split; [|split; [apply Hy|]].
  - unfold valid_time, valid_date; cbn. unfold i32_max in *. split_and!; try lia; by_div.
  - unfold as_unix_ns; cbn [year month day hour minute second nanosecond].
    repeat match goal with |- context [?a <=? ?b] => first [
      rewrite (proj2 (Z.leb_le a b)) by (first [lia|by_div])
      | rewrite (proj2 (Z.leb_gt a b)) by (first [lia|by_div])] end.
    repeat match goal with |- context [?a <? ?b] =>
      rewrite (proj2 (Z.ltb_ge a b)) by (first [lia|by_div]) end.
    cbn [negb andb orb]. f_equal. rewrite Hdays. subst secs. by_div.
Qed.

Lemma as_unix_ns_valid t :
  valid_time t ->
  exists n, as_unix_ns t = Some n /\ n < days_from_civil (i32_max + 1) 1 1 * 86400000000000 /\
            n = (days_from_civil (year t) (month t) (day t) * 86400 + hour t * 3600 + minute t * 60
                 + second t) * 1000000000 + nanosecond t.
Proof.
  intros (Hy & Hv & Hh & Hmi & Hs & Hn). pose proof Hv as [Hm Hd].
  assert (days_in_month (year t) (month t) <= 31) by (unfold days_in_month; repeat case_match; lia).
  eexists. split; [|split; [|done]].
  - unfold as_unix_ns.
    repeat match goal with |- context [?a <=? ?b] => first [
      rewrite (proj2 (Z.leb_le a b)) by lia | rewrite (proj2 (Z.leb_gt a b)) by lia] end.
    repeat match goal with |- context [?a <? ?b] => rewrite (proj2 (Z.ltb_ge a b)) by lia end.
    done.
  - destruct (year_order (i32_max + 1) _ _ _ Hv) as [_ Ho].
    revert Ho. generalize (days_from_civil (i32_max + 1) 1 1). intros D Ho.
    destruct (Z.le_gt_cases D (days_from_civil (year t) (month t) (day t))); [|lia].
    specialize (Ho ltac:(lia)). lia.
Qed.

Lemma as_unix_ns_inj t t' n :
  valid_time t -> valid_time t' -> as_unix_ns t = Some n -> as_unix_ns t' = Some n -> t = t'.
Proof.
  intros Ht Ht' H H'. destruct (as_unix_ns_valid t Ht) as (k & Hk & _ & E).
  destruct (as_unix_ns_valid t' Ht') as (k' & Hk' & _ & E').
  assert (k = n) as -> by congruence. assert (k' = n) as -> by congruence.
  destruct Ht as (_ & Hv & H1 & H2 & H3 & H4), Ht' as (_ & Hv' & H1' & H2' & H3' & H4').
  destruct (days_from_civil_inj _ _ _ _ _ _ Hv Hv') as (? & ? & ?); [lia|].
  destruct t, t'; cbn in *; f_equal; lia.
Qed.

(** The conversions between calendar time and Unix time are exact.  The day
    number is zero on 1970-01-01 and grows by one from each date to the next;
    every non-negative Unix time up to the last representable year becomes a
    valid time that converts back to it, only later ones are refused; and every
    valid time from 1970 on is the one its Unix time becomes. *)
Theorem calendar_exact ns t y m d :
  0 <= ns -> valid_time t -> valid_date y m d ->
  match from_unix_ns ns with
  | Some t' => valid_time t' /\ as_unix_ns t' = Some ns
  | None => days_from_civil (i32_max + 1) 1 1 * 86400000000000 <= ns
  end /\
  (exists n, as_unix_ns t = Some n /\ (0 <= n -> from_unix_ns n = Some t)) /\
  days_from_civil 1970 1 1 = 0 /\
  (let '(y', m', d') := next_day y m d in
   valid_date y' m' d' /\ days_from_civil y' m' d' = days_from_civil y m d + 1).
Proof.
  intros Hns Ht Hd. split.
  { pose proof (from_unix_ns_spec ns Hns) as H. destruct (from_unix_ns ns); naive_solver. }
  split; [|split; [done|by apply days_next]].
  destruct (as_unix_ns_valid t Ht) as (n & Hn & Hrange). exists n. split; [done|]. intros H0.
  pose proof (from_unix_ns_spec n H0) as Hs. destruct (from_unix_ns n) as [t'|].
  - destruct Hs as (Ht' & _ & Hn'). f_equal. by apply (as_unix_ns_inj t' t n).
  - lia.
Qed.

Definition leap_day : NetworkTime :=
  {| year := 2024; month := 2; day := 29; hour := 23; minute := 59; second := 59;
     nanosecond := 999999999 |}.

Lemma calendar_exact_witness :
  exists n, as_unix_ns leap_day = Some n /\ from_unix_ns n = Some leap_day.
Proof.
  destruct (calendar_exact 0 leap_day 2024 2 29) as (_ & (n & Hn & Hback) & _).
  - lia.
  - unfold valid_time, valid_date. vm_compute. repeat split; discriminate.
  - unfold valid_date. vm_compute. repeat split; discriminate.
  - exists n. split; [done|]. apply Hback. vm_compute in Hn. injection Hn as <-. lia.
Defined.

(** A day past the end of its month is not refused: it stands for a day of the
    next month. *)
Lemma thirtieth_of_february :
  as_unix_ns {| year := 2023; month := 2; day := 30; hour := 0; minute := 0; second := 0;
                nanosecond := 0 |}
  = as_unix_ns {| year := 2023; month := 3; day := 2; hour := 0; minute := 0; second := 0;
                  nanosecond := 0 |}.
Proof. reflexivity. Qed.
