(* ===== verification/SlewedClock.v ===== *)
(** * The slewed network clock ([SlewedNetworkClock] of [src/timesync.rs])

    A clock anchored at a monotonic instant that approaches each observed network
    time at a bounded rate.  Nanoseconds are [i128] values with the saturating
    operations of the code written out. *)

From stdpp Require Import relations.
From S2P Require Import Prelude.

Open Scope Z_scope.

(** ** The model *)

Definition i128_max : Z := 2 ^ 127 - 1.
Definition sat128 (z : Z) : Z := Z.max (- i128_max - 1) (Z.min i128_max z).

Record SlewedNetworkClock : Type := {
  anchor_mono_ns : Z;
  anchor_unix_ns : Z;
  pending_adjust_ns : Z;
  max_slew_ppm : Z;
  initialized : bool;
}.

Definition clock_default : SlewedNetworkClock :=
  {| anchor_mono_ns := 0; anchor_unix_ns := 0; pending_adjust_ns := 0; max_slew_ppm := 50000;
     initialized := false |}.

Definition clock_new (ppm : Z) : SlewedNetworkClock :=
  {| anchor_mono_ns := 0; anchor_unix_ns := 0; pending_adjust_ns := 0;
     max_slew_ppm := Z.min ppm 999999; initialized := false |}.

Definition is_initialized (c : SlewedNetworkClock) : bool := initialized c.

Definition read_unix_ns (c : SlewedNetworkClock) (now_mono_ns : Z) : option Z :=
  if negb (initialized c) then None
  else
    let elapsed_ns := sat_sub now_mono_ns (anchor_mono_ns c) in
    let max_adjust_ns := Z.quot (sat128 (elapsed_ns * max_slew_ppm c)) 1000000 in
    let applied_adjust_ns :=
      if 0 <=? pending_adjust_ns c then Z.min (pending_adjust_ns c) max_adjust_ns
      else - Z.min (- pending_adjust_ns c) max_adjust_ns in
    Some (sat128 (sat128 (anchor_unix_ns c + elapsed_ns) + applied_adjust_ns)).

Definition read_unix_ms (c : SlewedNetworkClock) (now_mono_ns : Z) : option Z :=
  match read_unix_ns c now_mono_ns with
  | None => None
  | Some unix_ns =>
      if unix_ns <? 0 then None
      else let ms := Z.quot unix_ns 1000000 in if ms <=? u64_max then Some ms else None
  end.

(** A clock that shows [unix_ns] at [now] and owes [pending]. *)
Definition anchored (c : SlewedNetworkClock) (now unix_ns pending : Z) : SlewedNetworkClock :=
  {| anchor_mono_ns := now; anchor_unix_ns := unix_ns; pending_adjust_ns := pending;
     max_slew_ppm := max_slew_ppm c; initialized := true |}.

Definition steer_unix_ms (c : SlewedNetworkClock) (now_mono_ns target_unix_ms : Z)
    : SlewedNetworkClock :=
  let target_unix_ns := target_unix_ms * 1000000 in
  if negb (initialized c) then anchored c now_mono_ns target_unix_ns 0
  else
    let current_unix_ns :=
      match read_unix_ns c now_mono_ns with Some r => r | None => target_unix_ns end in
    anchored c now_mono_ns current_unix_ns (sat128 (target_unix_ns - current_unix_ns)).

(** The forward jump sets the anchor of an initialised clock. *)
Definition steer_verified_response_ms (c : SlewedNetworkClock) (now_mono_ns target_unix_ms : Z)
    : SlewedNetworkClock :=
  let target_ns := target_unix_ms * 1000000 in
  if negb (max_slew_ppm c =? 0)
     && match read_unix_ns c now_mono_ns with
        | Some current => 5000000000 <? sat128 (target_ns - current)
        | None => false
        end
  then {| anchor_mono_ns := now_mono_ns; anchor_unix_ns := target_ns; pending_adjust_ns := 0;
          max_slew_ppm := max_slew_ppm c; initialized := initialized c |}
  else steer_unix_ms c now_mono_ns target_unix_ms.

(** Steering at instants that do not go back. *)
Inductive clock_step : Z * SlewedNetworkClock -> Z * SlewedNetworkClock -> Prop :=
| step_steer t c now target :
    t <= now -> is_u64 now -> is_u64 target ->
    clock_step (t, c) (now, steer_unix_ms c now target)
| step_verified t c now target :
    t <= now -> is_u64 now -> is_u64 target ->
    clock_step (t, c) (now, steer_verified_response_ms c now target).

(** ** Readings *)

Definition target_max : Z := u64_max * 1000000.

(** What the clock owes always leads back to an observed time, and the anchor is
    ahead of every observation by at most the time that went by. *)
Definition clock_ok (t : Z) (c : SlewedNetworkClock) : Prop :=
  0 <= max_slew_ppm c <= 999999 /\ 0 <= t /\
  (initialized c = true ->
   0 <= anchor_mono_ns c <= t /\
   0 <= anchor_unix_ns c <= target_max + anchor_mono_ns c /\
   0 <= anchor_unix_ns c + pending_adjust_ns c <= target_max).

(** [adjust] moved as far as [limit] allows. *)
Definition clip (adjust limit : Z) : Z := Z.max (- limit) (Z.min adjust limit).

(** The reading without saturation. *)
Definition reading (c : SlewedNetworkClock) (now : Z) : Z :=
  let elapsed := now - anchor_mono_ns c in
  anchor_unix_ns c + elapsed + clip (pending_adjust_ns c) (elapsed * max_slew_ppm c / 1000000).

Lemma sat128_small z : - 2 ^ 126 <= z <= 2 ^ 126 -> sat128 z = z.
Proof. unfold sat128, i128_max. lia. Qed.

Lemma slew_limit e p :
  0 <= e -> 0 <= p <= 999999 -> 0 <= e * p / 1000000 <= e.
Proof. intros. split; [apply Z.div_pos; nia|]. apply Z.div_le_upper_bound; nia. Qed.

Lemma slew_limit_mono e e' p :
  0 <= e <= e' -> 0 <= p <= 999999 ->
  e * p / 1000000 <= e' * p / 1000000 <= e * p / 1000000 + (e' - e).
Proof.
  intros. split; [apply Z.div_le_mono; nia|].
  assert (0 <= (e' - e) * (1000000 - p)) by nia.
  rewrite <- Z.div_add by lia. apply Z.div_le_mono; lia.
Qed.

Lemma read_reading t c now :
  clock_ok t c -> initialized c = true -> t <= now -> is_u64 now ->
  read_unix_ns c now = Some (reading c now).
Proof.
  intros (Hp & Ht & Hi) Hini Hle Hnow. destruct (Hi Hini) as (Hm & Hu & Hg). unfold read_unix_ns.
  rewrite Hini. cbn [negb]. unfold reading, target_max in *. f_equal.
  assert (sat_sub now (anchor_mono_ns c) = now - anchor_mono_ns c) as -> by solve_u.
  set (e := now - anchor_mono_ns c) in *. assert (0 <= e <= u64_max) as He by solve_u.
  unfold u64_max in *.
  rewrite (sat128_small (e * max_slew_ppm c)) by nia. rewrite Z.quot_div_nonneg by nia.
  pose proof (slew_limit e (max_slew_ppm c) (proj1 He) Hp) as Hl.
  set (lim := e * max_slew_ppm c / 1000000) in *. clearbody lim.
  rewrite (sat128_small (anchor_unix_ns c + e)) by (unfold_u; lia). unfold clip.
  destruct (Z.leb_spec 0 (pending_adjust_ns c)); rewrite sat128_small by (unfold_u; lia); lia.
Qed.

Lemma reading_anchored c now u p later :
  reading (anchored c now u p) later
  = u + (later - now) + clip p ((later - now) * max_slew_ppm c / 1000000).
Proof. done. Qed.

(** Readings do not go back, stay non-negative and bounded. *)
Lemma reading_mono t c t1 t2 :
  clock_ok t c -> initialized c = true -> t <= t1 <= t2 -> reading c t1 <= reading c t2.
Proof.
  intros (Hp & _ & Hi) Hini Ht. destruct (Hi Hini) as (Hm & _). unfold reading, clip.
  pose proof (slew_limit_mono (t1 - anchor_mono_ns c) (t2 - anchor_mono_ns c) (max_slew_ppm c)).
  lia.
Qed.

Lemma reading_bounds t c now :
  clock_ok t c -> initialized c = true -> t <= now -> 0 <= reading c now <= target_max + now.
Proof.
  intros (Hp & _ & Hi) Hini Ht. destruct (Hi Hini) as (Hm & Hu & Hg). unfold reading, clip.
  pose proof (slew_limit (now - anchor_mono_ns c) (max_slew_ppm c)). lia.
Qed.

Lemma anchored_ok c now u p :
  0 <= max_slew_ppm c <= 999999 -> 0 <= now -> 0 <= u <= target_max + now ->
  0 <= u + p <= target_max -> clock_ok now (anchored c now u p).
Proof. intros. unfold clock_ok, anchored. cbn. lia. Qed.

Lemma steer_initialized t c now target :
  clock_ok t c -> initialized c = true -> t <= now -> is_u64 now -> is_u64 target ->
  steer_unix_ms c now target = anchored c now (reading c now) (target * 1000000 - reading c now).
Proof.
  intros Hok Hini Ht Hn Htg. unfold steer_unix_ms. rewrite Hini. cbn [negb].
  rewrite (read_reading t) by done. pose proof (reading_bounds t c now Hok Hini Ht).
  rewrite sat128_small; [done|]. unfold target_max in *. solve_u.
Qed.

Lemma steer_ok t c now target :
  clock_ok t c -> t <= now -> is_u64 now -> is_u64 target ->
  clock_ok now (steer_unix_ms c now target).
Proof.
  intros Hok Ht Hn Htg. pose proof Hok as (Hp & H0 & _).
  assert (0 <= target * 1000000 <= target_max) by (unfold target_max; solve_u).
  destruct (initialized c) eqn:E.
  - rewrite (steer_initialized t) by done. pose proof (reading_bounds t c now Hok E Ht).
    apply anchored_ok; lia.
  - unfold steer_unix_ms. rewrite E. cbn [negb]. apply anchored_ok; lia.
Qed.

(** A verified response steers, or jumps forward to the observed time. *)
Lemma verified_cases t c now target :
  clock_ok t c -> t <= now -> is_u64 now -> is_u64 target ->
  steer_verified_response_ms c now target = steer_unix_ms c now target \/
  (initialized c = true /\ max_slew_ppm c <> 0 /\
   5000000000 < target * 1000000 - reading c now /\
   steer_verified_response_ms c now target = anchored c now (target * 1000000) 0).
Proof.
  intros Hok Ht Hn Htg. unfold steer_verified_response_ms.
  destruct (initialized c) eqn:E; [|left; unfold read_unix_ns; rewrite E; cbn; by rewrite andb_false_r].
  rewrite (read_reading t) by done. pose proof (reading_bounds t c now Hok E Ht).
  rewrite sat128_small by (unfold target_max in *; solve_u).
  destruct (negb _ && _) eqn:Ej; [|by left]. right. apply andb_true_iff in Ej as [Ez Ej].
  apply negb_true_iff in Ez. bool_to_prop. done.
Qed.

Lemma verified_ok t c now target :
  clock_ok t c -> t <= now -> is_u64 now -> is_u64 target ->
  clock_ok now (steer_verified_response_ms c now target).
Proof.
  intros Hok Ht Hn Htg. destruct (verified_cases t c now target) as [->|(_ & _ & _ & ->)]; [done..| |].
  - by apply (steer_ok t).
  - pose proof Hok as (Hp & H0 & _). apply anchored_ok; unfold target_max; solve_u.
Qed.

Lemma clock_reachable_ok ppm t c :
  is_u32 ppm -> rtc clock_step (0, clock_new ppm) (t, c) -> clock_ok t c.
Proof.
  intros Hppm Hrtc. change (clock_ok (fst (t, c)) (snd (t, c))).
  assert (clock_ok (fst (0, clock_new ppm)) (snd (0, clock_new ppm))) as H0.
  { cbn. unfold clock_ok, clock_new. cbn. solve_u. }
  revert H0. induction Hrtc as [|x y z Hstep _ IH]; [done|]. intros Hx. apply IH. clear IH.
  destruct Hstep; cbn [fst snd] in *; [by apply (steer_ok t0)|by apply (verified_ok t0)].
Qed.

(** ** Properties *)

(** Whatever times were observed before, readings of the clock never go
    back.  Steering an initialised clock leaves its reading unchanged and then
    moves it towards the target by at most the slew rate, so that it shows the
    target exactly once the owed difference has been slewed; the first
    observation sets the clock.  A verified response steers likewise or, when it
    is more than five seconds ahead, sets the clock to it. *)
Theorem slewed_clock_spec ppm t c now target later :
  is_u32 ppm -> rtc clock_step (0, clock_new ppm) (t, c) ->
  t <= now <= later -> is_u64 later -> is_u64 target ->
  let elapsed := later - now in
  let goal := target * 1000000 in
  match read_unix_ns c now with
  | None => read_unix_ns (steer_unix_ms c now target) later = Some (goal + elapsed) /\
            steer_verified_response_ms c now target = steer_unix_ms c now target
  | Some r =>
      (exists r', read_unix_ns c later = Some r' /\ r <= r') /\
      (let r' := r + elapsed + clip (goal - r) (elapsed * Z.min ppm 999999 / 1000000) in
       read_unix_ns (steer_unix_ms c now target) later = Some r' /\ r <= r' /\
       (Z.abs (goal - r) <= elapsed * Z.min ppm 999999 / 1000000 -> r' = goal + elapsed)) /\
      (steer_verified_response_ms c now target = steer_unix_ms c now target \/
       r + 5000000000 < goal /\
       read_unix_ns (steer_verified_response_ms c now target) later = Some (goal + elapsed))
  end.
Proof.
  intros Hppm Hrtc Ht Hl Htg elapsed goal. pose proof (clock_reachable_ok ppm t c Hppm Hrtc) as Hok.
  pose proof (proj1 Hok) as Hsl.
  assert (is_u64 now) as Hn.
  { destruct Hok as (_ & H0 & _). solve_u. }
  pose proof (steer_ok t c now target Hok ltac:(lia) Hn Htg) as Hs.
  assert (max_slew_ppm c = Z.min ppm 999999) as Hppm'.
  { change c with (snd (t, c)). change (Z.min ppm 999999) with (max_slew_ppm (snd (0, clock_new ppm))).
    clear -Hrtc. induction Hrtc as [|x y z Hstep _ IH]; [done|]. rewrite IH. destruct Hstep; cbn [snd].
    - unfold steer_unix_ms. by repeat case_match.
    - unfold steer_verified_response_ms, steer_unix_ms. by repeat case_match. }
  assert (forall c', clock_ok now c' -> initialized c' = true ->
            read_unix_ns c' later = Some (reading c' later)) as Hread.
  { intros c' Hc' Hi'. apply (read_reading now); [done|done|lia|done]. }
  destruct (initialized c) eqn:Hini.
  - rewrite (read_reading t) by (done || lia).
    assert (read_unix_ns c later = Some (reading c later)) as ->.
    { apply (read_reading t); [done|done|lia|done]. }
    pose proof (reading_mono t c now later Hok Hini ltac:(lia)) as Hmono.
    rewrite (steer_initialized t) in Hs |- * by (done || lia). fold goal in Hs |- *.
    rewrite (Hread _ Hs eq_refl). rewrite (reading_anchored c) by done. fold elapsed. rewrite Hppm'.
    pose proof (slew_limit elapsed (Z.min ppm 999999) ltac:(lia) ltac:(solve_u)) as Hlim.
    set (lim := elapsed * Z.min ppm 999999 / 1000000) in *. set (r := reading c now) in *.
    split; [by exists (reading c later)|]. split.
    { split; [done|]. unfold clip. lia. }
    destruct (verified_cases t c now target) as [->|(_ & _ & Hj & Hv)]; [done|lia|done|done| |].
    + left. by rewrite (steer_initialized t) by (done || lia).
    + right. fold goal r in Hj. split; [lia|].
      pose proof (verified_ok t c now target Hok ltac:(lia) Hn Htg) as Hvo. rewrite Hv in Hvo |- *.
      rewrite (Hread _ Hvo eq_refl), (reading_anchored c) by done. fold elapsed goal. f_equal.
      unfold clip. pose proof (slew_limit elapsed (max_slew_ppm c) ltac:(lia) Hsl). lia.
  - assert (read_unix_ns c now = None) as Hnone by (unfold read_unix_ns; by rewrite Hini).
    rewrite Hnone. destruct (verified_cases t c now target) as [->|(Hc & _)];
      [done|lia|done|done| |congruence]. split; [|done].
    assert (steer_unix_ms c now target = anchored c now goal 0) as Hst.
    { unfold steer_unix_ms. by rewrite Hini. }
    rewrite Hst in Hs |- *. rewrite (Hread _ Hs eq_refl), (reading_anchored c) by done. fold elapsed.
    f_equal. unfold clip. pose proof (slew_limit elapsed (max_slew_ppm c) ltac:(lia) Hsl). lia.
Qed.

(** Ten seconds behind: the clock does not jump, and has caught up later. *)
Lemma slewed_clock_spec_witness :
  let c := steer_unix_ms (clock_new 100000) 0 1000 in
  read_unix_ns (steer_unix_ms c 5000 11000) 200000000000 = Some (11000000000 + 199999995000).
Proof.
  pose proof (slewed_clock_spec 100000 0 (steer_unix_ms (clock_new 100000) 0 1000) 5000 11000
    200000000000) as H.
  destruct H as (_ & (H & _ & Heq) & _); [solve_u| |lia|solve_u|solve_u|].
  - apply rtc_once. constructor; solve_u.
  - cbv zeta. rewrite H, Heq; [reflexivity|vm_compute; discriminate].
Defined.
