(* ===== verification/PeerRecord.v ===== *)
(** * Records of peers ([src/peer_record.rs])

    Maps from a peer's name to a boxed record.  A change is prepared first, where
    an allocation may be refused, and then committed without failing.  A box is
    its value; the allocator's answers and the size of the record are given by
    [PeerEnv]. *)

From stdpp Require Import gmap.
From S2P Require Import Prelude Schema MemoryAdmission SmallSort SmallMap.

Open Scope Z_scope.

(** [record_size] is [size_of] of the record, [pointer_size] of a pointer;
    [box_allocates] and [string_allocates] say whether the allocator serves. *)
Class PeerEnv (T : Type) : Type := {
  record_size : Z;
  pointer_size : Z;
  box_allocates : T -> bool;
  string_allocates : bytes -> bool;
}.

Abbreviation peers T := (gmap bytes T).

Section PeerRecord.
Context {T : Type} `{PeerEnv T}.

(** ** The model *)

Definition allocation_bytes : Z :=
  sat_add (sat_add record_size pointer_size) (4 * pointer_size).

Definition try_string (value : bytes) : result bytes :=
  if string_allocates value then Ok value else Err (Io "memory pressure").

Definition try_box (value : T) (adm : Admission) : result T * Admission :=
  if record_size =? 0 then (Ok value, adm)
  else
    match check allocation_bytes record_size adm with
    | (Err e, adm) => (Err e, adm)
    | (Ok _, adm) => (if box_allocates value then Ok value else Err (Io "memory pressure"), adm)
    end.

Inductive Prepared : Type :=
| Existing (key : bytes) (value : T)
| New (key : bytes) (value : T).

Definition prepare (map : peers T) (key : bytes) (value : T) (adm : Admission)
    : result Prepared * Admission :=
  match map !! key with
  | Some _ => (Ok (Existing key value), adm)
  | None =>
      match try_box value adm with
      | (Err e, adm) => (Err e, adm)
      | (Ok value, adm) => (key ← try_string key; Ok (New key value), adm)
      end
  end.

(** [None]: the prepared peer is no longer present (a panic). *)
Definition commit (p : Prepared) (map : peers T) : option (peers T) :=
  match p with
  | Existing key value => _ ← map !! key; Some (<[key := value]> map)
  | New key value => Some (<[key := value]> map)
  end.

(** [try_clone_map] goes through the map in key order. *)
Fixpoint clone_entries (l : list (bytes * T)) (out : peers T) (adm : Admission)
    : result (peers T) * Admission :=
  match l with
  | [] => (Ok out, adm)
  | (name, value) :: l =>
      match try_box value adm with
      | (Err e, adm) => (Err e, adm)
      | (Ok record, adm) =>
          match try_string name with
          | Err e => (Err e, adm)
          | Ok name => clone_entries l (<[name := record]> out) adm
          end
      end
  end.

Definition try_clone_map (map : peers T) (adm : Admission) : result (peers T) * Admission :=
  clone_entries (SmallMap.ascending_entries map) ∅ adm.

(** ** Facts *)

(** A box keeps its value; a refusal is memory pressure. *)
Lemma try_box_cases value adm :
  fst (try_box value adm) = Ok value \/ fst (try_box value adm) = Err (Io "memory pressure").
Proof.
  unfold try_box. destruct (record_size =? 0); [by left|].
  pose proof (check_work_step allocation_bytes record_size WORK_GENERAL adm) as Hc.
  unfold check. destruct Hc as [-> | ->]; [|by right]. destruct (box_allocates value); auto.
Qed.

(** Preparing and committing against the same map inserts the record, or
    memory is short and nothing happened. *)
Lemma prepare_commit map key value adm :
  match prepare map key value adm with
  | (Ok p, _) => commit p map = Some (<[key := value]> map)
  | (Err e, _) => e = Io "memory pressure" /\ map !! key = None
  end.
Proof.
  unfold prepare. destruct (map !! key) eqn:E; [by cbn; rewrite E|].
  pose proof (try_box_cases value adm) as Hb. destruct (try_box value adm) as [r a]. cbn in Hb.
  destruct Hb as [->| ->]; [|done]. unfold try_string. by destruct (string_allocates key).
Qed.

(** A cloned map is the map. *)
Lemma try_clone_map_ok map adm :
  match try_clone_map map adm with
  | (Ok out, _) => out = map
  | (Err e, _) => e = Io "memory pressure"
  end.
Proof.
  unfold try_clone_map.
  assert (forall l out adm, NoDup (l.*1) -> (forall k, k ∈ l.*1 -> out !! k = None) ->
    match clone_entries l out adm with
    | (Ok out', _) => out' = list_to_map l ∪ out
    | (Err e, _) => e = Io "memory pressure" end) as Hgen.
  { clear adm. induction l as [|[k v] l IH]; intros out adm Hn Hd; cbn [clone_entries].
    - symmetry. apply (left_id_L ∅ (∪)).
    - pose proof (try_box_cases v adm) as Hb. destruct (try_box v adm) as [r a]. cbn in Hb.
      destruct Hb as [->| ->]; [|done]. unfold try_string.
      destruct (string_allocates k); [|done].
      cbn in Hn, Hd. apply NoDup_cons in Hn as [Hk Hn].
      specialize (IH (<[k := v]> out) a Hn). destruct (clone_entries l _ a) as [[out'|e] a'].
      + rewrite IH.
        * cbn. apply map_eq. intros j. rewrite !lookup_union.
          destruct (decide (j = k)) as [->|Hne].
          -- rewrite !lookup_insert_eq, not_elem_of_list_to_map_1 by done. by destruct (out !! k).
          -- by rewrite !lookup_insert_ne by done.
        * intros j Hj. rewrite lookup_insert_ne by (intros ->; done). apply Hd. by right.
      + apply IH. intros j Hj. rewrite lookup_insert_ne by (intros ->; done). apply Hd. by right. }
  specialize (Hgen (SmallMap.ascending_entries map) ∅ adm).
  assert (SmallMap.ascending_entries map ≡ₚ map_to_list map) as Hp.
  { unfold SmallMap.ascending_entries. apply sorting.merge_sort_Permutation. }
  assert (NoDup ((SmallMap.ascending_entries map).*1)) as Hn.
  { rewrite Hp. apply NoDup_fst_map_to_list. }
  destruct (clone_entries _ ∅ adm) as [[out|e] a].
  - rewrite Hgen; [|done|intros; apply lookup_empty]. rewrite map_union_empty.
    rewrite (list_to_map_proper _ _ Hn Hp). apply list_to_map_to_list.
  - apply Hgen; [done|intros; apply lookup_empty].
Qed.

End PeerRecord.
Arguments Prepared _ : clear implicits.
