(* ===== verification/TimeSync.v ===== *)
(** * Time synchronisation ([src/timesync.rs])

    The network clock assembled from named, possibly partial sources; the tracker
    that elects the time source; the arithmetic of a request/response exchange;
    and the announce, request and response packets. *)

From stdpp Require Import gmap sorting.
From S2P Require Import Prelude Schema Packet MemoryAdmission SmallSort SmallMap Calendar PeerRecord.

Open Scope Z_scope.

(** ** The network clock *)

Record NetworkTimeSourceState : Type := {
  src_priority : Z;
  updated_mono_ms : Z;
  src_anchor_mono_ns : Z;
  ttl_ms : option Z;
  src_time : PartialNetworkTime;
}.

Record NetworkTimeReading : Type := {
  reading_time : PartialNetworkTime;
  unix_time_ms : option Z;
}.

Abbreviation NetworkClock := (peers NetworkTimeSourceState).

Section NetworkClock.
Context {PE : PeerEnv NetworkTimeSourceState}.

Definition prepare_source (clock : NetworkClock) (source : bytes) (priority : Z)
    (time : PartialNetworkTime) (updated_mono_ms anchor_mono_ns : Z) (ttl_ms : option Z)
    (adm : Admission) : result (Prepared NetworkTimeSourceState) * Admission :=
  prepare clock source
    {| src_priority := priority; updated_mono_ms := updated_mono_ms;
       src_anchor_mono_ns := anchor_mono_ns; ttl_ms := ttl_ms; src_time := time |} adm.

Definition commit_source (clock : NetworkClock) (update : Prepared NetworkTimeSourceState)
    : option NetworkClock := commit update clock.

(** The result, the clock and the probes; [None] is a panic. *)
Definition try_update_source (clock : NetworkClock) (source : bytes) (priority : Z)
    (time : PartialNetworkTime) (updated_mono_ms anchor_mono_ns : Z) (ttl_ms : option Z)
    (adm : Admission) : option (result unit * NetworkClock * Admission) :=
  match prepare_source clock source priority time updated_mono_ms anchor_mono_ns ttl_ms adm with
  | (Err e, adm) => Some (Err e, clock, adm)
  | (Ok update, adm) => clock ← commit_source clock update; Some (Ok tt, clock, adm)
  end.

Definition update_source (clock : NetworkClock) (source : bytes) (priority : Z)
    (time : PartialNetworkTime) (updated_mono_ms anchor_mono_ns : Z) (ttl_ms : option Z)
    (adm : Admission) : option (NetworkClock * Admission) :=
  '(_, clock, adm) ← try_update_source clock source priority time updated_mono_ms anchor_mono_ns
                       ttl_ms adm;
  Some (clock, adm).

End NetworkClock.

Definition remove_source (clock : NetworkClock) (source : bytes) : NetworkClock :=
  delete source clock.

Definition unexpired (now_mono_ms : Z) (src : NetworkTimeSourceState) : bool :=
  match ttl_ms src with
  | Some ttl => sat_sub now_mono_ms (updated_mono_ms src) <=? ttl
  | None => true
  end.

Definition prune_expired (clock : NetworkClock) (now_mono_ms : Z) : NetworkClock :=
  filter (fun e => unexpired now_mono_ms (snd e) = true) clock.

(** [name < best_name] of strings. *)
Definition name_ltb (a b : bytes) : bool := kltb a b.

Definition better (a b : bytes * NetworkTimeSourceState) : bool :=
  (src_priority (snd a) <? src_priority (snd b))
  || ((src_priority (snd a) =? src_priority (snd b)) && name_ltb (fst a) (fst b)).

Fixpoint best_source_loop (predicate : NetworkTimeSourceState -> bool)
    (sources : list (bytes * NetworkTimeSourceState))
    (best : option (bytes * NetworkTimeSourceState)) : option (bytes * NetworkTimeSourceState) :=
  match sources with
  | [] => best
  | s :: sources =>
      if negb (predicate (snd s)) then best_source_loop predicate sources best
      else best_source_loop predicate sources
             (match best with
              | None => Some s
              | Some b => if better s b then Some s else Some b
              end)
  end.

Definition best_source (sources : list (bytes * NetworkTimeSourceState))
    (predicate : NetworkTimeSourceState -> bool) : option (bytes * NetworkTimeSourceState) :=
  best_source_loop predicate sources None.

Definition complete_reading (advanced : NetworkTime) : NetworkTimeReading :=
  {| reading_time := partial_from advanced; unix_time_ms := as_unix_ms advanced |}.

(** The best source of one field, and the field. *)
Definition best_field (sources : list (bytes * NetworkTimeSourceState))
    (field : PartialNetworkTime -> option Z) : option NetworkTimeSourceState :=
  option_map snd (best_source sources (fun src => is_some_field (field (src_time src)))).

(** The fields merged from their best sources, and the reading they make. *)
Definition merged_time (sources : list (bytes * NetworkTimeSourceState)) : PartialNetworkTime :=
  let get field := best_field sources field ≫= (fun src => field (src_time src)) in
  {| pt_year := get pt_year; pt_month := get pt_month; pt_day := get pt_day;
     pt_hour := get pt_hour; pt_minute := get pt_minute; pt_second := get pt_second;
     pt_nanosecond := get pt_nanosecond |}.

Definition or_else {A} (a b : option A) : option A := match a with Some x => Some x | None => b end.

Definition with_nanosecond (t : PartialNetworkTime) (ns : option Z) : PartialNetworkTime :=
  {| pt_year := pt_year t; pt_month := pt_month t; pt_day := pt_day t; pt_hour := pt_hour t;
     pt_minute := pt_minute t; pt_second := pt_second t; pt_nanosecond := ns |}.

Definition merged_reading (sources : list (bytes * NetworkTimeSourceState)) (now_mono_ns : Z)
    : option NetworkTimeReading :=
  let merged := merged_time sources in
  let time_src := or_else (or_else (best_field sources pt_second) (best_field sources pt_minute))
                    (best_field sources pt_hour) in
  match time_src with
  | Some time_src =>
      if is_complete_date merged && is_complete_time merged then
        let merged := with_nanosecond merged (or_else (pt_nanosecond merged) (Some 0)) in
        match to_network_time merged with
        | None => None
        | Some base =>
            match advance_network_time base (sat_sub now_mono_ns (src_anchor_mono_ns time_src)) with
            | Some advanced => Some (complete_reading advanced)
            | None => Some {| reading_time := merged; unix_time_ms := None |}
            end
        end
      else Some {| reading_time := merged; unix_time_ms := None |}
  | None => Some {| reading_time := merged; unix_time_ms := None |}
  end.

Definition is_complete (src : NetworkTimeSourceState) : bool :=
  match to_network_time (src_time src) with Some _ => true | None => false end.

Definition current_time (clock : NetworkClock) (now_mono_ns : Z) : option NetworkTimeReading :=
  let sources := SmallMap.ascending_entries clock in
  match sources with
  | [] => None
  | _ =>
      match best_source sources is_complete with
      | Some (_, src) =>
          match to_network_time (src_time src) with
          | Some base =>
              match advance_network_time base (sat_sub now_mono_ns (src_anchor_mono_ns src)) with
              | Some advanced => Some (complete_reading advanced)
              | None => merged_reading sources now_mono_ns
              end
          | None => merged_reading sources now_mono_ns
          end
      | None => merged_reading sources now_mono_ns
      end
  end.

(** ** The tracker *)

Inductive TimeSyncRole : Type := Consumer | Source | Auto.

Record TimeSyncConfig : Type := {
  role : TimeSyncRole;
  cfg_priority : Z;
  source_timeout_ms : Z;
  announce_interval_ms : Z;
  request_interval_ms : Z;
  consumer_promotion_enabled : bool;
  cfg_max_slew_ppm : Z;
}.

Definition config_default : TimeSyncConfig :=
  {| role := Consumer; cfg_priority := 100; source_timeout_ms := 5000;
     announce_interval_ms := 1000; request_interval_ms := 1000;
     consumer_promotion_enabled := true; cfg_max_slew_ppm := 50000 |}.

Record TimeSyncSource : Type := {
  ts_sender : bytes;
  ts_priority : Z;
  last_announce_ms : Z;
  last_time_ms : Z;
}.

Inductive TimeSyncLeader : Type :=
| Local (priority : Z)
| Remote (source : TimeSyncSource).

Inductive TimeSyncUpdate : Type := NoChange | SourceChanged.

Record TimeSyncAnnounceFields : Type := { ann_priority : Z; ann_time_ms : Z }.
Record TimeSyncRequestFields : Type := { req_seq : Z; req_t1_ms : Z }.
Record TimeSyncResponseFields : Type := {
  rsp_seq : Z; rsp_t1_ms : Z; rsp_t2_ms : Z; rsp_t3_ms : Z;
}.

Record TimeSyncTracker : Type := {
  cfg : TimeSyncConfig;
  local_id : bytes;
  sources : peers TimeSyncSource;
  current_source_id : option bytes;
}.

Definition with_sources (t : TimeSyncTracker) (s : peers TimeSyncSource) : TimeSyncTracker :=
  {| cfg := cfg t; local_id := local_id t; sources := s; current_source_id := current_source_id t |}.

(** [local_id] is the device identifier at the time of the call. *)
Definition tracker_new (cfg : TimeSyncConfig) (local_id : bytes) : TimeSyncTracker :=
  {| cfg := cfg; local_id := local_id; sources := ∅; current_source_id := None |}.

Definition current_source (t : TimeSyncTracker) : option TimeSyncSource :=
  sender ← current_source_id t; sources t !! sender.

Definition source_is_active (src : TimeSyncSource) (now_ms timeout_ms : Z) : bool :=
  sat_sub now_ms (last_announce_ms src) <=? timeout_ms.

(** [a.priority.cmp(&b.priority).then_with(|| a.sender.cmp(&b.sender))]. *)
Definition cmp_source (a b : TimeSyncSource) : comparison :=
  match ts_priority a ?= ts_priority b with
  | Eq => kcmp (ts_sender a) (ts_sender b)
  | c => c
  end.

(** [Iterator::min_by] keeps the first of equal elements. *)
Definition min_by {A} (cmp : A -> A -> comparison) (l : list A) : option A :=
  match l with
  | [] => None
  | x :: l => Some (foldl (fun m y => match cmp m y with Gt => y | _ => m end) x l)
  end.

(** The values of the sources in the order of their keys. *)
Definition source_values (t : TimeSyncTracker) : list TimeSyncSource :=
  map snd (SmallMap.ascending_entries (sources t)).

Definition active (t : TimeSyncTracker) (now_ms : Z) (src : TimeSyncSource) : bool :=
  source_is_active src now_ms (source_timeout_ms (cfg t)).

Definition best_active_source (t : TimeSyncTracker) (now_ms : Z) : option TimeSyncSource :=
  min_by cmp_source (List.filter (active t now_ms) (source_values t)).

Definition best_active_source_id (t : TimeSyncTracker) (now_ms : Z) : option bytes :=
  option_map ts_sender (best_active_source t now_ms).

Definition reselect_source (t : TimeSyncTracker) (now_ms : Z) : TimeSyncUpdate * TimeSyncTracker :=
  let prev := current_source_id t in
  let t := {| cfg := cfg t; local_id := local_id t; sources := sources t;
              current_source_id := best_active_source_id t now_ms |} in
  (if decide (current_source_id t = prev) then NoChange else SourceChanged, t).

Definition refresh (t : TimeSyncTracker) (now_ms : Z) : TimeSyncUpdate * TimeSyncTracker :=
  reselect_source
    (with_sources t (filter (fun e => active t now_ms (snd e) = true) (sources t))) now_ms.

Definition no_source (o : option TimeSyncSource) : bool :=
  match o with None => true | Some _ => false end.

Definition local_candidate_priority (t : TimeSyncTracker) (now_ms : Z) (has_usable_time : bool)
    : option Z :=
  match role (cfg t) with
  | Consumer =>
      if has_usable_time && consumer_promotion_enabled (cfg t)
         && no_source (best_active_source t now_ms)
      then Some (cfg_priority (cfg t)) else None
  | Source => Some (cfg_priority (cfg t))
  | Auto =>
      if has_usable_time && no_source (best_active_source t now_ms)
      then Some (cfg_priority (cfg t)) else None
  end.

Definition leader (t : TimeSyncTracker) (now_ms : Z) (has_usable_time : bool)
    : option TimeSyncLeader :=
  match local_candidate_priority t now_ms has_usable_time, best_active_source t now_ms with
  | Some priority, Some remote =>
      if (priority <? ts_priority remote)
         || ((priority =? ts_priority remote) && name_ltb (local_id t) (ts_sender remote))
      then Some (Local priority) else Some (Remote remote)
  | Some priority, None => Some (Local priority)
  | None, Some remote => Some (Remote remote)
  | None, None => None
  end.

Definition local_announce_priority (t : TimeSyncTracker) (now_ms : Z) (has_usable_time : bool)
    : option Z :=
  match leader t now_ms has_usable_time with
  | Some (Local priority) =>
      let tie_exists :=
        existsb (fun src => ts_priority src =? priority)
          (List.filter (active t now_ms) (source_values t)) in
      Some (if tie_exists then sat_sub priority 1 else priority)
  | _ => None
  end.

Definition should_announce (t : TimeSyncTracker) (now_ms : Z) (has_usable_time : bool) : bool :=
  match local_announce_priority t now_ms has_usable_time with Some _ => true | None => false end.

Definition should_serve := should_announce.

Definition is_source_active (t : TimeSyncTracker) (now_ms : Z) : bool :=
  match current_source t with Some s => active t now_ms s | None => false end.

Record PreparedTrackerSource : Type := {
  pt_ignore : bool;
  pt_sender : bytes;
  pt_priority : Z;
  pt_recv_ms : Z;
  pt_time_ms : Z;
  pt_insert : option (Prepared TimeSyncSource);
}.

Section Tracker.
Context {PE : PeerEnv TimeSyncSource}.

Definition prepare_tracker_source (t : TimeSyncTracker) (sender : bytes)
    (ann : TimeSyncAnnounceFields) (recv_ms : Z) (adm : Admission)
    : result PreparedTrackerSource * Admission :=
  let ignore := bool_decide (sender = local_id t) in
  let prepared insert :=
    {| pt_ignore := ignore; pt_sender := sender; pt_priority := ann_priority ann;
       pt_recv_ms := recv_ms; pt_time_ms := ann_time_ms ann; pt_insert := insert |} in
  if ignore || bool_decide (is_Some (sources t !! sender)) then (Ok (prepared None), adm)
  else
    match try_string sender with
    | Err e => (Err e, adm)
    | Ok name =>
        match prepare (sources t) sender
                {| ts_sender := name; ts_priority := ann_priority ann;
                   last_announce_ms := recv_ms; last_time_ms := ann_time_ms ann |} adm with
        | (Err e, adm) => (Err e, adm)
        | (Ok insert, adm) => (Ok (prepared (Some insert)), adm)
        end
    end.

(** [None]: the prepared source is no longer present (a panic). *)
Definition commit_tracker_source (t : TimeSyncTracker) (update : PreparedTrackerSource)
    : option (TimeSyncUpdate * TimeSyncTracker) :=
  if pt_ignore update then Some (NoChange, t)
  else
    s ← match pt_insert update with
        | Some insert => commit insert (sources t)
        | None =>
            source ← sources t !! pt_sender update;
            Some (<[pt_sender update :=
                     {| ts_sender := ts_sender source; ts_priority := pt_priority update;
                        last_announce_ms := pt_recv_ms update;
                        last_time_ms := pt_time_ms update |}]> (sources t))
        end;
    Some (reselect_source (with_sources t s) (pt_recv_ms update)).

End Tracker.

(** ** Samples *)

Record TimeSyncSample : Type := { offset_ms : Z; delay_ms : Z }.

(** [as i64] of an [i128]. *)
Definition as_i64 (z : Z) : Z := (z + 2 ^ 63) mod 2 ^ 64 - 2 ^ 63.

Definition compute_offset_delay (t1_ms t2_ms t3_ms t4_ms : Z) : TimeSyncSample :=
  let offset := Z.quot ((t2_ms - t1_ms) + (t3_ms - t4_ms)) 2 in
  let delay := (t4_ms - t1_ms) - (t3_ms - t2_ms) in
  {| offset_ms := as_i64 offset; delay_ms := if delay <? 0 then 0 else wrap64 delay |}.

Definition compute_network_time_sample (t1 t2 t3 t4 : Z) : Z * Z :=
  let round_trip := sat_sub t4 t1 in
  let server_processing := sat_sub t3 t2 in
  let one_way_delay := sat_sub round_trip server_processing / 2 in
  (sat_add t3 one_way_delay, one_way_delay).

(** ** Messages *)

Definition TIMESYNC_ANNOUNCE_WORDS : nat := 2.
Definition TIMESYNC_REQUEST_WORDS : nat := 2.
Definition TIMESYNC_RESPONSE_WORDS : nat := 4.

Section Messages.
Context (reg : Registry) (tun : Tuning).

(** [Packet::from_u64_slice] with the device identifier as sender. *)
Definition from_u64_slice (device : bytes) (counter : Z) (ty : DataType) (values : list Z)
    (eps : list DataEndpoint) (timestamp : Z) : result Packet * Z :=
  from_prim_le_slice_with_sender reg tun counter 8 ty values eps device timestamp.

Definition build_timesync_announce (device : bytes) (counter priority time_ms : Z) :=
  from_u64_slice device counter ty_TimeSyncAnnounce [priority; time_ms]
    (mm_endpoints (message_meta reg ty_TimeSyncAnnounce)) time_ms.

Definition build_timesync_announce_with_sender (sender : bytes) (counter priority time_ms : Z) :=
  packet_new reg tun counter ty_TimeSyncAnnounce [ep_TimeSync] sender time_ms
    (concat (map (le_bytes 8) [priority; time_ms])).

Definition build_timesync_request (device : bytes) (counter seq t1_ms : Z) :=
  from_u64_slice device counter ty_TimeSyncRequest [seq; t1_ms]
    (mm_endpoints (message_meta reg ty_TimeSyncRequest)) t1_ms.

Definition build_timesync_response (device : bytes) (counter seq t1_ms t2_ms t3_ms : Z) :=
  from_u64_slice device counter ty_TimeSyncResponse [seq; t1_ms; t2_ms; t3_ms]
    (mm_endpoints (message_meta reg ty_TimeSyncResponse)) t3_ms.

Definition decode_u64_payload (pkt : Packet) (expected_ty : DataType) (expected_words : nat)
    : result (list Z) :=
  if negb (ty pkt =? expected_ty) then Err InvalidType
  else
    vals ← data_as_u64 reg tun pkt;
    if negb (length vals =? expected_words)%nat
    then Err (SizeMismatch (Z.of_nat expected_words * 8) (zlen vals * 8))
    else Ok vals.

(** [vals[i]] of a decoded payload. *)
Definition word (vals : list Z) (i : nat) : Z := nth i vals 0.

Definition decode_timesync_announce (pkt : Packet) : result TimeSyncAnnounceFields :=
  vals ← decode_u64_payload pkt ty_TimeSyncAnnounce TIMESYNC_ANNOUNCE_WORDS;
  Ok {| ann_priority := word vals 0; ann_time_ms := word vals 1 |}.

Definition decode_timesync_request (pkt : Packet) : result TimeSyncRequestFields :=
  vals ← decode_u64_payload pkt ty_TimeSyncRequest TIMESYNC_REQUEST_WORDS;
  Ok {| req_seq := word vals 0; req_t1_ms := word vals 1 |}.

Definition decode_timesync_response (pkt : Packet) : result TimeSyncResponseFields :=
  vals ← decode_u64_payload pkt ty_TimeSyncResponse TIMESYNC_RESPONSE_WORDS;
  Ok {| rsp_seq := word vals 0; rsp_t1_ms := word vals 1; rsp_t2_ms := word vals 2;
        rsp_t3_ms := word vals 3 |}.

(** [handle_announce]: the outer [None] is a panic. *)
Definition handle_announce {PE : PeerEnv TimeSyncSource} (t : TimeSyncTracker) (pkt : Packet)
    (recv_ms : Z) (adm : Admission)
    : option (result TimeSyncUpdate * TimeSyncTracker * Admission) :=
  match decode_timesync_announce pkt with
  | Err e => Some (Err e, t, adm)
  | Ok ann =>
      if bool_decide (sender pkt = local_id t) then Some (Ok NoChange, t, adm)
      else
        match prepare_tracker_source t (sender pkt) ann recv_ms adm with
        | (Err e, adm) => Some (Err e, t, adm)
        | (Ok update, adm) =>
            '(u, t) ← commit_tracker_source t update; Some (Ok u, t, adm)
        end
  end.

End Messages.

(** ** Elections: facts *)

(** The order of the elections: lower priority values first, then names. *)
Definition rank_lt (a b : Z * bytes) : Prop := fst a < fst b \/ (fst a = fst b /\ klt (snd a) (snd b)).

Lemma rank_lt_trans a b c : rank_lt a b -> rank_lt b c -> rank_lt a c.
Proof.
  unfold rank_lt. intros [H|[H H']] [I|[I I']]; [left; lia..|]. right. split; [lia|].
  by apply klt_trans with (snd b).
Qed.

Lemma rank_lt_irrefl a : ~ rank_lt a a.
Proof. unfold rank_lt. intros [H|[_ H]]; [lia|by apply klt_irrefl in H]. Qed.

Lemma rank_total a b : rank_lt a b \/ a = b \/ rank_lt b a.
Proof.
  unfold rank_lt. destruct a as [p x], b as [p' y]. cbn.
  destruct (Z.lt_trichotomy p p') as [?|[->|?]]; [auto| |auto].
  destruct (kcmp x y) eqn:E; [apply kcmp_eq in E as ->; auto|auto|apply kcmp_gt in E; auto].
Qed.

Lemma rank_ltb p x p' y :
  (p <? p') || ((p =? p') && name_ltb x y) = true <-> rank_lt (p, x) (p', y).
Proof.
  unfold rank_lt, name_ltb. cbn. rewrite orb_true_iff, andb_true_iff, Z.ltb_lt, Z.eqb_eq.
  by rewrite kltb_klt.
Qed.

Definition source_rank (s : TimeSyncSource) : Z * bytes := (ts_priority s, ts_sender s).
Definition entry_rank (e : bytes * NetworkTimeSourceState) : Z * bytes :=
  (src_priority (snd e), fst e).

Lemma better_rank a b : better a b = true <-> rank_lt (entry_rank a) (entry_rank b).
Proof. apply rank_ltb. Qed.

Lemma cmp_source_rank a b :
  match cmp_source a b with
  | Lt => rank_lt (source_rank a) (source_rank b)
  | Eq => source_rank a = source_rank b
  | Gt => rank_lt (source_rank b) (source_rank a)
  end.
Proof.
  unfold cmp_source, source_rank, rank_lt. cbn [fst snd].
  destruct (Z.compare_spec (ts_priority a) (ts_priority b)) as [E|E|E]; [|lia|lia].
  destruct (kcmp (ts_sender a) (ts_sender b)) eqn:Ek.
  - apply kcmp_eq in Ek. by f_equal.
  - auto.
  - apply kcmp_gt in Ek. auto.
Qed.

(** The elected entry of a list: it qualifies and outranks every other entry
    that does. *)
Definition elected {A} (rank : A -> Z * bytes) (p : A -> bool) (l : list A) (r : option A) : Prop :=
  match r with
  | None => Forall (fun x => p x = false) l
  | Some b => b ∈ l /\ p b = true /\
              Forall (fun x => p x = true -> rank x = rank b \/ rank_lt (rank b) (rank x)) l
  end.

Lemma best_source_loop_spec p l best :
  match best_source_loop p l best with
  | None => best = None /\ Forall (fun x => p (snd x) = false) l
  | Some b =>
      (best = Some b \/ (b ∈ l /\ p (snd b) = true)) /\
      (forall b0, best = Some b0 -> entry_rank b0 = entry_rank b \/ rank_lt (entry_rank b) (entry_rank b0)) /\
      Forall (fun x => p (snd x) = true ->
                entry_rank x = entry_rank b \/ rank_lt (entry_rank b) (entry_rank x)) l
  end.
Proof.
  revert best. induction l as [|x l IH]; intros best; cbn [best_source_loop].
  - destruct best as [b|]; [|by auto]. split; [by left|]. split; [|done]. intros ? [= ->]. by left.
  - destruct (p (snd x)) eqn:Ep; cbn [negb].
    + set (best' := match best with None => Some x | Some b => if better x b then Some x else Some b end).
      specialize (IH best'). destruct (best_source_loop p l best') as [b|] eqn:E.
      * destruct IH as (Hb & Hbest & Hall). split; [|split].
        -- destruct Hb as [Hb|[Hb Hp]]; [|right; by split; [right|]]. unfold best' in Hb.
           destruct best as [b0|]; [destruct (better x b0); [|by left]|];
             injection Hb as <-; right; (split; [by left|done]).
        -- intros b0 ->. unfold best' in Hbest. destruct (better x b0) eqn:Ebt; [|by apply Hbest].
           right. apply better_rank in Ebt. destruct (Hbest x eq_refl) as [<-|]; [done|].
           by apply rank_lt_trans with (entry_rank x).
        -- apply Forall_cons. split; [|done]. intros _. unfold best' in Hbest.
           destruct best as [b0|]; [destruct (better x b0) eqn:Ebt|]; [by apply Hbest| |by apply Hbest].
           destruct (rank_total (entry_rank b0) (entry_rank x)) as [Hlt|[Heq|Hlt]].
           ++ right. destruct (Hbest b0 eq_refl) as [<-|]; [done|]. by apply rank_lt_trans with (entry_rank b0).
           ++ rewrite <- Heq. by apply Hbest.
           ++ apply better_rank in Hlt. congruence.
      * destruct IH as [IH _]. unfold best' in IH. destruct best as [b0|]; [by destruct (better x b0)|done].
    + specialize (IH best). destruct (best_source_loop p l best) as [b|].
      * destruct IH as ([Hb|[Hb Hp]] & Hbest & Hall).
        -- split; [by left|]. split; [done|]. apply Forall_cons. split; [congruence|done].
        -- split; [right; by split; [right|]|]. split; [done|]. apply Forall_cons. split; [congruence|done].
      * destruct IH as [-> IH]. split; [done|]. by apply Forall_cons.
Qed.

Lemma best_source_elected p l : elected entry_rank (fun e => p (snd e)) l (best_source l p).
Proof.
  unfold best_source, elected. pose proof (best_source_loop_spec p l None) as H.
  destruct (best_source_loop p l None) as [b|]; [|by destruct H].
  destruct H as ([H|[H Hp]] & _ & Hall); done.
Qed.

Lemma min_by_elected l p :
  elected source_rank p l (min_by cmp_source (List.filter p l)).
Proof.
  assert (forall l x, let m := foldl (fun m y => match cmp_source m y with Gt => y | _ => m end) x l in
    (m = x \/ m ∈ l) /\ (source_rank x = source_rank m \/ rank_lt (source_rank m) (source_rank x)) /\
    Forall (fun y => source_rank y = source_rank m \/ rank_lt (source_rank m) (source_rank y)) l) as Hfold.
  { clear. induction l as [|y l IH]; intros x; cbn [foldl]; [auto|].
    set (x' := match cmp_source x y with Gt => y | _ => x end).
    destruct (IH x') as (Hm & Hx & Hl). set (m := foldl _ x' l) in *.
    pose proof (cmp_source_rank x y) as Hc. unfold x' in *. clear x'.
    assert (forall a b, source_rank b = source_rank m \/ rank_lt (source_rank m) (source_rank b) ->
      source_rank a = source_rank b \/ rank_lt (source_rank b) (source_rank a) ->
      source_rank a = source_rank m \/ rank_lt (source_rank m) (source_rank a)) as Htr.
    { intros a b [Hb|Hb] [Ha|Ha]; [left; congruence|right; by rewrite <- Hb|right; by rewrite Ha|].
      right. by apply rank_lt_trans with (source_rank b). }
    destruct (cmp_source x y) eqn:E.
    - split; [destruct Hm; [by left|right; by right]|]. split; [done|]. apply Forall_cons.
      split; [|done]. apply (Htr y x Hx). by left.
    - split; [destruct Hm; [by left|right; by right]|]. split; [done|]. apply Forall_cons.
      split; [|done]. apply (Htr y x Hx). by right.
    - split; [right; destruct Hm as [->|Hm]; [by left|by right]|].
      split; [apply (Htr x y Hx); by right|]. apply Forall_cons. split; [done|done]. }
  assert (forall x, x ∈ List.filter p l <-> x ∈ l /\ p x = true) as Hf.
  { intros x. rewrite !list_elem_of_In. apply filter_In. }
  unfold elected, min_by. destruct (List.filter p l) as [|x l'] eqn:E.
  - apply Forall_forall. intros x Hx. destruct (p x) eqn:Ep; [|done].
    assert (x ∈ []) as Hn by (by apply Hf). by apply elem_of_nil in Hn.
  - destruct (Hfold l' x) as (Hm & Hx & Hl). set (m := foldl _ x l') in *.
    assert (m ∈ x :: l') as Hin by (destruct Hm as [->|Hm]; [by left|by right]).
    apply Hf in Hin as [Hin Hp]. split; [done|]. split; [done|].
    apply Forall_forall. intros y Hy Hpy. assert (y ∈ x :: l') as Hyl by (by apply Hf).
    apply elem_of_cons in Hyl as [->|Hyl]; [done|]. rewrite Forall_forall in Hl. by apply Hl.
Qed.

(** ** The network clock: facts *)

Lemma elem_of_ascending {A} (g : peers A) n (s : A) :
  (n, s) ∈ SmallMap.ascending_entries g <-> g !! n = Some s.
Proof.
  unfold SmallMap.ascending_entries. rewrite merge_sort_Permutation. apply elem_of_map_to_list.
Qed.

(** The source of a clock that is elected among those that satisfy [p]. *)
Definition elected_source (clock : NetworkClock) (p : NetworkTimeSourceState -> bool)
    (r : option (bytes * NetworkTimeSourceState)) : Prop :=
  match r with
  | None => forall n s, clock !! n = Some s -> p s = false
  | Some (n, s) =>
      clock !! n = Some s /\ p s = true /\
      forall n' s', clock !! n' = Some s' -> p s' = true ->
        n' = n \/ rank_lt (src_priority s, n) (src_priority s', n')
  end.

Lemma best_source_clock clock p :
  elected_source clock p (best_source (SmallMap.ascending_entries clock) p).
Proof.
  pose proof (best_source_elected p (SmallMap.ascending_entries clock)) as H. unfold elected in H.
  destruct (best_source _ p) as [[n s]|]; cbn [elected_source].
  - destruct H as (Hin & Hp & Hall). split; [by apply elem_of_ascending|]. split; [done|].
    intros n' s' Hl Hp'. rewrite Forall_forall in Hall.
    apply elem_of_ascending in Hl. apply Hall in Hl as [Heq|Hlt]; [|by right|done].
    left. by injection Heq.
  - intros n s Hl. rewrite Forall_forall in H. apply elem_of_ascending in Hl. by apply (H (n, s)).
Qed.

(** [rd] shows [base] advanced by [elapsed] nanoseconds. *)
Definition shows (base : NetworkTime) (elapsed : Z) (rd : NetworkTimeReading) : Prop :=
  exists n t, as_unix_ns base = Some n /\ as_unix_ns t = Some (n + elapsed) /\ valid_time t /\
              rd = complete_reading t.

Lemma advance_shows base e t : advance_network_time base e = Some t -> shows base e (complete_reading t).
Proof.
  unfold advance_network_time. destruct (as_unix_ns base) as [n|] eqn:En; [|done].
  cbn [mbind option_bind]. intros H. exists n, t. split; [done|].
  assert (0 <= n + e) as H0.
  { unfold from_unix_ns in H. destruct (Z.ltb_spec (n + e) 0); [done|done]. }
  pose proof (from_unix_ns_spec _ H0) as Hs. rewrite H in Hs. destruct Hs as (Hv & _ & Hn).
  by split.
Qed.

(** The fields of a merged time come each from its own elected source. *)
Definition time_fields : list (PartialNetworkTime -> option Z) :=
  [pt_year; pt_month; pt_day; pt_hour; pt_minute; pt_second; pt_nanosecond].

Definition merged_of (clock : NetworkClock) (m : PartialNetworkTime) : Prop :=
  Forall (fun field => exists r,
    elected_source clock (fun s => is_some_field (field (src_time s))) r /\
    field m = r ≫= (fun e => field (src_time (snd e)))) time_fields.

Lemma best_field_merged clock field :
  exists r, elected_source clock (fun s => is_some_field (field (src_time s))) r /\
    best_field (SmallMap.ascending_entries clock) field ≫= (fun src => field (src_time src))
      = r ≫= (fun e => field (src_time (snd e))).
Proof.
  exists (best_source (SmallMap.ascending_entries clock)
            (fun s => is_some_field (field (src_time s)))).
  split; [apply best_source_clock|]. unfold best_field. by destruct (best_source _ _) as [[]|].
Qed.

Lemma merged_time_of clock : merged_of clock (merged_time (SmallMap.ascending_entries clock)).
Proof. repeat constructor; apply best_field_merged. Qed.

(** A merged reading shows the merged fields, or the complete time they make. *)
Definition merged_shows (m : PartialNetworkTime) (rd : NetworkTimeReading) : Prop :=
  (exists base elapsed, to_network_time m = Some base /\ shows base elapsed rd) \/
  (unix_time_ms rd = None /\ with_nanosecond (reading_time rd) (pt_nanosecond m) = m).

Lemma merged_reading_shows l now :
  exists rd, merged_reading l now = Some rd /\ merged_shows (merged_time l) rd.
Proof.
  unfold merged_reading. set (m := merged_time l). set (src := or_else _ _).
  assert (with_nanosecond m (pt_nanosecond m) = m) as Hid by (by destruct m).
  assert (forall ns, with_nanosecond (with_nanosecond m ns) (pt_nanosecond m) = m) as Hid'.
  { intros ns. by destruct m. }
  clearbody m src. destruct src as [src|]; [|by eexists; split; [done|right]].
  destruct (is_complete_date m && is_complete_time m) eqn:E; [|by eexists; split; [done|right]].
  assert (to_network_time (with_nanosecond m (or_else (pt_nanosecond m) (Some 0)))
          = to_network_time m) as ->.
  { unfold to_network_time. cbn. by destruct (pt_nanosecond m). }
  destruct (to_network_time m) as [base|] eqn:Eb.
  - destruct (advance_network_time base _) as [t|] eqn:Ea; (eexists; split; [done|]).
    + left. eexists base, _. split; [done|]. apply advance_shows. exact Ea.
    + right. split; [done|]. apply Hid'.
  - exfalso. revert Eb E. unfold to_network_time, is_complete_date, is_complete_time.
    destruct (pt_year m), (pt_month m), (pt_day m), (pt_hour m), (pt_minute m), (pt_second m); done.
Qed.

(** The network clock has no reading exactly when it has no source.
    Otherwise it shows the complete source of best rank (priority, then name)
    advanced by the time since its anchor, as a valid calendar time.  When there
    is no complete source, or its time cannot be advanced, it shows the time
    merged field by field, each field from the best source that has it. *)
Theorem current_time_spec clock now :
  match current_time clock now with
  | None => clock = ∅
  | Some rd =>
      clock <> ∅ /\ exists full, elected_source clock is_complete full /\
      ((exists n src base, full = Some (n, src) /\ to_network_time (src_time src) = Some base /\
          shows base (sat_sub now (src_anchor_mono_ns src)) rd) \/
       ((forall n src base, full = Some (n, src) -> to_network_time (src_time src) = Some base ->
           advance_network_time base (sat_sub now (src_anchor_mono_ns src)) = None) /\
        exists m, merged_of clock m /\ merged_shows m rd))
  end.
Proof.
  unfold current_time. set (l := SmallMap.ascending_entries clock).
  assert (l = [] <-> clock = ∅) as Hl.
  { split; [|intros ->; unfold l, SmallMap.ascending_entries; by rewrite map_to_list_empty].
    intros Hl. apply map_empty. intros n. destruct (clock !! n) eqn:E; [|done].
    apply elem_of_ascending in E. fold l in E. rewrite Hl in E. by apply elem_of_nil in E. }
  pose proof (best_source_clock clock is_complete) as Hfull. fold l in Hfull.
  destruct (merged_reading_shows l now) as (rd & Hrd & Hm). pose proof (merged_time_of clock) as Hmo.
  fold l in Hmo.
  destruct l as [|e l'] eqn:El; [by apply Hl|].
  assert (clock <> ∅) as Hne by (intros Hc; by apply Hl in Hc). rewrite <- El in *. clear El e l'.
  destruct (best_source l is_complete) as [[n src]|] eqn:Eb.
  - destruct (to_network_time (src_time src)) as [base|] eqn:Et.
    + destruct (advance_network_time base _) as [t|] eqn:Ea.
      * split; [done|]. eexists. split; [exact Hfull|]. left. exists n, src, base.
        split; [done|]. split; [done|]. by apply advance_shows.
      * rewrite Hrd. split; [done|]. eexists. split; [exact Hfull|]. right.
        split; [|by eexists]. intros ? ? ? [= <- <-] Ht. congruence.
    + destruct Hfull as (_ & Hc & _). unfold is_complete in Hc. by rewrite Et in Hc.
  - rewrite Hrd. split; [done|]. eexists. split; [exact Hfull|]. right. split; [done|by eexists].
Qed.

(** ** The tracker: facts *)

(** Every source is stored under its own name, never under the node's. *)
Definition tracker_ok (t : TimeSyncTracker) : Prop :=
  forall name s, sources t !! name = Some s -> ts_sender s = name /\ name <> local_id t.

Lemma elem_of_source_values t s :
  s ∈ source_values t <-> exists name, sources t !! name = Some s.
Proof.
  unfold source_values. rewrite list_elem_of_fmap. split.
  - intros ([n s'] & -> & Hin). exists n. by apply elem_of_ascending.
  - intros [n Hn]. exists (n, s). split; [done|by apply elem_of_ascending].
Qed.

(** The best active source: it is active and outranks every other active one. *)
Definition best_of (t : TimeSyncTracker) (now_ms : Z) (r : option TimeSyncSource) : Prop :=
  match r with
  | None => forall name s, sources t !! name = Some s -> active t now_ms s = false
  | Some b =>
      sources t !! ts_sender b = Some b /\ active t now_ms b = true /\
      forall name s, sources t !! name = Some s -> active t now_ms s = true ->
        s = b \/ rank_lt (source_rank b) (source_rank s)
  end.

Lemma best_active_source_best t now_ms :
  tracker_ok t -> best_of t now_ms (best_active_source t now_ms).
Proof.
  intros Hok. unfold best_active_source.
  pose proof (min_by_elected (source_values t) (active t now_ms)) as H. unfold elected in H.
  destruct (min_by _ _) as [b|]; cbn [best_of].
  - destruct H as (Hin & Ha & Hall). apply elem_of_source_values in Hin as [n Hn].
    destruct (Hok n b Hn) as [<- _]. split; [done|]. split; [done|].
    intros n' s Hs Has. rewrite Forall_forall in Hall.
    destruct (Hall s) as [Heq|Hlt]; [apply elem_of_source_values; eauto|done| |by right].
    left. destruct (Hok n' s Hs) as [<- _]. injection Heq as _ Heq. rewrite Heq in Hs. congruence.
  - intros n s Hs. rewrite Forall_forall in H. apply H. apply elem_of_source_values. eauto.
Qed.

Lemma best_of_unique t now_ms a b : best_of t now_ms a -> best_of t now_ms b -> a = b.
Proof.
  destruct a as [a|], b as [b|]; cbn [best_of]; [|intros (H1 & H2 & _) H|intros H (H1 & H2 & _)|done].
  - intros (Ha & Haa & Hra) (Hb & Hba & Hrb).
    destruct (Hra _ _ Hb Hba) as [->|H1]; [done|]. destruct (Hrb _ _ Ha Haa) as [->|H2]; [done|].
    exfalso. apply (rank_lt_irrefl (source_rank a)). by apply rank_lt_trans with (source_rank b).
  - apply H in H1. congruence.
  - apply H in H1. congruence.
Qed.

Lemma reselect_spec t now_ms :
  tracker_ok t ->
  let '(u, t') := reselect_source t now_ms in
  tracker_ok t' /\ cfg t' = cfg t /\ local_id t' = local_id t /\ sources t' = sources t /\
  (exists best, best_of t now_ms best /\ current_source_id t' = option_map ts_sender best) /\
  (u = NoChange <-> current_source_id t' = current_source_id t).
Proof.
  intros Hok. unfold reselect_source. cbn [current_source_id].
  split; [exact Hok|]. split; [done|]. split; [done|]. split; [done|]. split.
  - exists (best_active_source t now_ms). split; [by apply best_active_source_best|done].
  - cbn. destruct (decide _); naive_solver.
Qed.

(** Storing an announced source and electing anew. *)
Lemma announce_update (t : TimeSyncTracker) (name : bytes) (ann : TimeSyncAnnounceFields) (now_ms : Z) (s : peers TimeSyncSource) :
  tracker_ok t -> name <> local_id t ->
  s = <[name := {| ts_sender := name; ts_priority := ann_priority ann;
                   last_announce_ms := now_ms; last_time_ms := ann_time_ms ann |}]> (sources t) ->
  let '(u, t') := reselect_source (with_sources t s) now_ms in
  tracker_ok t' /\ sources t' = s /\
  (exists best, best_of t' now_ms best /\ current_source_id t' = option_map ts_sender best) /\
  (u = NoChange <-> current_source_id t' = current_source_id t).
Proof.
  intros Hok Hne Hs. assert (tracker_ok (with_sources t s)) as Hok'.
  { intros n x. cbn. rewrite Hs. destruct (decide (n = name)) as [->|Hn].
    - rewrite lookup_insert_eq. by intros [= <-].
    - rewrite lookup_insert_ne by done. apply Hok. }
  pose proof (reselect_spec (with_sources t s) now_ms Hok') as H.
  destruct (reselect_source (with_sources t s) now_ms) as [u t'].
  destruct H as (Ht & Hc & _ & Hsrc & (best & Hb & Hcur) & Hu). split; [done|].
  split; [exact Hsrc|]. split; [|exact Hu]. exists best. split; [|done].
  revert Hb. unfold best_of, active. by rewrite Hsrc, Hc.
Qed.

Lemma commit_prepared {PE : PeerEnv TimeSyncSource} (t : TimeSyncTracker) (name : bytes) (ann : TimeSyncAnnounceFields) (now_ms : Z) adm :
  tracker_ok t -> name <> local_id t ->
  match prepare_tracker_source t name ann now_ms adm with
  | (Err e, _) => e = Io "memory pressure"
  | (Ok update, _) =>
      exists s, s = <[name := {| ts_sender := name; ts_priority := ann_priority ann;
                   last_announce_ms := now_ms; last_time_ms := ann_time_ms ann |}]> (sources t) /\
      commit_tracker_source t update = Some (reselect_source (with_sources t s) now_ms)
  end.
Proof.
  intros Hok Hne. unfold prepare_tracker_source. rewrite (bool_decide_eq_false_2 _ Hne). cbn [orb].
  destruct (sources t !! name) as [x|] eqn:Ex.
  - rewrite bool_decide_eq_true_2 by eauto. eexists. split; [done|].
    unfold commit_tracker_source. cbn. rewrite Ex. cbn. by destruct (Hok name x Ex) as [-> _].
  - rewrite bool_decide_eq_false_2 by (intros [? ?]; congruence).
    unfold try_string at 1. destruct (string_allocates name); [|done].
    pose proof (prepare_commit (sources t) name {| ts_sender := name; ts_priority := ann_priority ann;
       last_announce_ms := now_ms; last_time_ms := ann_time_ms ann |} adm) as Hp.
    destruct (prepare _ _ _ adm) as [[pr|e] adm'].
    + eexists. split; [done|]. unfold commit_tracker_source. cbn [pt_ignore pt_insert pt_recv_ms].
      by rewrite Hp.
    + by destruct Hp.
Qed.

Lemma refresh_best t now_ms best :
  best_of (with_sources t (filter (fun e => active t now_ms (snd e) = true) (sources t))) now_ms best ->
  best_of t now_ms best.
Proof.
  destruct best as [b|]; unfold best_of; cbn [sources].
  - intros (Hb & Ha & Hall). apply map_lookup_filter_Some in Hb as [Hb _]. split; [done|].
    split; [done|]. intros n s Hs Has. apply (Hall n); [|done]. by apply map_lookup_filter_Some.
  - intros Hall n s Hs. destruct (active t now_ms s) eqn:Ea; [|done].
    rewrite <- Ea. apply (Hall n). by apply map_lookup_filter_Some.
Qed.

(** Handling an announce never panics.  A packet that is not an announce,
    or memory pressure, changes nothing; the node's own announces are ignored;
    otherwise the sender's entry, and only it, becomes what was announced, the
    elected source is the best active one at the time of reception, and the
    update reports whether it changed.  [refresh] drops exactly the inactive
    sources and elects likewise. *)
Theorem tracker_update_spec {PE : PeerEnv TimeSyncSource} reg tun t pkt (now_ms : Z) adm :
  tracker_ok t ->
  (exists res t' adm', handle_announce reg tun t pkt now_ms adm = Some (res, t', adm') /\
    tracker_ok t' /\
    match res with
    | Err e => t' = t /\
        (decode_timesync_announce reg tun pkt = Err e \/ e = Io "memory pressure")
    | Ok u =>
        exists ann, decode_timesync_announce reg tun pkt = Ok ann /\
        (sender pkt = local_id t /\ u = NoChange /\ t' = t \/
         sender pkt <> local_id t /\
         sources t' = <[sender pkt := {| ts_sender := sender pkt; ts_priority := ann_priority ann;
                          last_announce_ms := now_ms; last_time_ms := ann_time_ms ann |}]>
                        (sources t) /\
         (exists best, best_of t' now_ms best /\ current_source_id t' = option_map ts_sender best) /\
         (u = NoChange <-> current_source_id t' = current_source_id t))
    end) /\
  let '(u, t') := refresh t now_ms in
  tracker_ok t' /\
  (forall name s, sources t' !! name = Some s <-> sources t !! name = Some s /\ active t now_ms s = true) /\
  (exists best, best_of t now_ms best /\ current_source_id t' = option_map ts_sender best) /\
  (u = NoChange <-> current_source_id t' = current_source_id t).
Proof.
  intros Hok. split.
  - unfold handle_announce. destruct (decode_timesync_announce reg tun pkt) as [ann|e] eqn:Ed.
    2: { eexists _, _, _. split; [done|]. split; [done|]. by auto. }
    destruct (decide (sender pkt = local_id t)) as [Hid|Hne].
    { rewrite bool_decide_eq_true_2 by done. eexists _, _, _. split; [done|]. split; [done|].
      exists ann. auto. }
    rewrite (bool_decide_eq_false_2 _ Hne).
    pose proof (commit_prepared t (sender pkt) ann now_ms adm Hok Hne) as Hc.
    destruct (prepare_tracker_source t (sender pkt) ann now_ms adm) as [[update|e] adm'].
    2: { eexists _, _, _. split; [done|]. split; [done|]. by auto. }
    destruct Hc as (s & Hs & ->). cbn [mbind option_bind].
    pose proof (announce_update t (sender pkt) ann now_ms s Hok Hne Hs) as Hu.
    destruct (reselect_source (with_sources t s) now_ms) as [u t'].
    destruct Hu as (Hok' & Hsrc & Hbest & Hch). eexists _, _, _. split; [done|]. split; [done|].
    exists ann. split; [done|]. right. rewrite <- Hs. auto.
  - unfold refresh. set (t1 := with_sources t _). assert (tracker_ok t1) as Hok1.
    { intros n s Hs. apply map_lookup_filter_Some in Hs as [Hs _]. by apply (Hok n s). }
    pose proof (reselect_spec t1 now_ms Hok1) as H. destruct (reselect_source t1 now_ms) as [u t'].
    destruct H as (Hok' & _ & _ & Hsrc & (best & Hb & Hcur) & Hu). split; [done|].
    split; [|split; [|exact Hu]].
    + intros n s. rewrite Hsrc. unfold t1. cbn [sources with_sources].
      by rewrite map_lookup_filter_Some.
    + exists best. split; [by apply refresh_best|done].
Qed.

(** ** Leadership *)

(** The lexicographic order of names. *)
Inductive lex_lt : bytes -> bytes -> Prop :=
| lex_prefix x l : lex_lt [] (x :: l)
| lex_head x y l k : x < y -> lex_lt (x :: l) (y :: k)
| lex_tail x l k : lex_lt l k -> lex_lt (x :: l) (x :: k).

Lemma klt_lex (l k : bytes) : klt l k <-> lex_lt l k.
Proof.
  unfold klt. cbn [kcmp OrdKey_bytes]. revert k. induction l as [|x l IH]; intros [|y k]; cbn [bytes_compare].
  - split; [done|inversion 1].
  - split; [constructor|done].
  - split; [done|inversion 1].
  - destruct (Z.compare_spec x y) as [->|H|H].
    + rewrite IH. split; [by constructor|]. inversion 1; [lia|done].
    + split; [by constructor|done].
    + split; [done|]. inversion 1; lia.
Qed.

Lemma leader_local t now_ms usable p :
  tracker_ok t ->
  leader t now_ms usable = Some (Local p) <->
  local_candidate_priority t now_ms usable = Some p /\
  forall name s, sources t !! name = Some s -> active t now_ms s = true ->
    rank_lt (p, local_id t) (source_rank s).
Proof.
  intros Hok. pose proof (best_active_source_best t now_ms Hok) as Hb. unfold leader.
  destruct (local_candidate_priority t now_ms usable) as [q|];
    [|destruct (best_active_source t now_ms); split; [done|by intros []|done|by intros []]].
  destruct (best_active_source t now_ms) as [b|]; cbn [best_of] in Hb.
  - destruct Hb as (Hl & Ha & Hall).
    destruct ((q <? ts_priority b) || ((q =? ts_priority b) && name_ltb (local_id t) (ts_sender b))) eqn:E.
    + apply rank_ltb in E. split; [|by intros [[= ->] _]]. intros [= <-]. split; [done|].
      intros n s Hs Has. destruct (Hall n s Hs Has) as [->|Hlt]; [done|].
      by apply rank_lt_trans with (source_rank b).
    + split; [done|]. intros [[= ->] H]. specialize (H _ _ Hl Ha). apply rank_ltb in H. congruence.
  - split; [|by intros [[= ->] _]]. intros [= <-]. split; [done|].
    intros n s Hs Has. apply Hb in Hs. congruence.
Qed.

(** C39: two nodes do not both serve time.  Let node A lead and announce the priority
    [x], and let A know node B as an active source of a priority that B does not undercut
    when it leads (B's own or, if B led a tie, one less).  Then A leads by the order:
    its priority is less than the one B announced, or they are equal and A's name is
    lexicographically smaller, and in that case A announces one less than its
    priority (as long as that is not zero).  And B, once it has heard the announce,
    follows a remote source that is A as it announced itself or one that comes before
    it in this order, and neither announces nor serves. *)
Theorem exclusive_leadership a b now_a now_b usable_a usable_b x sb sa :
  tracker_ok a -> tracker_ok b ->
  local_announce_priority a now_a usable_a = Some x ->
  sources a !! local_id b = Some sb -> active a now_a sb = true ->
  sources b !! local_id a = Some sa -> active b now_b sa = true -> ts_priority sa = x ->
  (forall p, local_candidate_priority b now_b usable_b = Some p -> ts_priority sb <= p) ->
  0 <= cfg_priority (cfg a) ->
  (cfg_priority (cfg a) < ts_priority sb \/ cfg_priority (cfg a) = ts_priority sb /\ lex_lt (local_id a) (local_id b)) /\
  (cfg_priority (cfg a) = ts_priority sb -> 0 < ts_priority sb -> x = ts_priority sb - 1) /\
  (exists r, leader b now_b usable_b = Some (Remote r) /\
     (ts_priority r < x \/ ts_priority r = x /\ (ts_sender r = local_id a \/ lex_lt (ts_sender r) (local_id a)))) /\
  should_announce b now_b usable_b = false /\ should_serve b now_b usable_b = false.
Proof.
  intros Ha Hb Hx Hsb Hab Hsa Hba Hpx Hcand Hcfg. unfold local_announce_priority in Hx.
  destruct (leader a now_a usable_a) as [[p|r]|] eqn:El; [|done|done].
  apply leader_local in El as [Hc Hall]; [|done]. specialize (Hall _ _ Hsb Hab) as Hlt.
  destruct (Ha _ _ Hsb) as [Hsbn _]. destruct (Hb _ _ Hsa) as [Hsan _].
  assert (p = cfg_priority (cfg a)) as ->.
  { unfold local_candidate_priority in Hc. by repeat case_match; simplify_eq. }
  assert (x <= cfg_priority (cfg a)) as Hxp.
  { injection Hx as <-. destruct (existsb _ _); [|lia]. unfold sat_sub. lia. }
  unfold source_rank, rank_lt in Hlt. cbn [fst snd] in Hlt. rewrite Hsbn, klt_lex in Hlt. split; [exact Hlt|]. split.
  { intros Htie Hpos. injection Hx as <-. rewrite (proj2 (existsb_exists _ _)); [unfold sat_sub; lia|]. exists sb.
    split; [apply filter_In; split; [apply list_elem_of_In, elem_of_source_values; eauto|done]|by apply Z.eqb_eq]. }
  assert (forall p', leader b now_b usable_b <> Some (Local p')) as Hno.
  { intros p' Hl. apply leader_local in Hl as [Hc' Hall']; [|done]. specialize (Hall' _ _ Hsa Hba). apply Hcand in Hc'.
    unfold source_rank, rank_lt in Hall'. cbn [fst snd] in Hall'. rewrite Hsan in Hall'. rewrite <- klt_lex in Hlt.
    destruct Hlt as [Hlt|[He Hlt]], Hall' as [Hall'|[He' Hall']]; try lia. by apply klt_asym in Hlt. }
  assert (exists r, leader b now_b usable_b = Some (Remote r) /\ best_active_source b now_b = Some r) as (r & Hr & Hbr).
  { unfold leader in Hno |- *. pose proof (best_active_source_best b now_b Hb) as Hbest. destruct (best_active_source b now_b) as [r|].
    - exists r. split; [|done]. destruct (local_candidate_priority b now_b usable_b); [|done]. destruct (_ || _); [by edestruct Hno|done].
    - cbn in Hbest. apply Hbest in Hsa. congruence. }
  split; [|unfold should_serve, should_announce, local_announce_priority; by rewrite Hr]. exists r. split; [done|].
  pose proof (best_active_source_best b now_b Hb) as Hbest. rewrite Hbr in Hbest. destruct Hbest as (_ & _ & Hbest).
  destruct (Hbest _ _ Hsa Hba) as [<-|Hlt']; [right; by split; [|left]|]. unfold source_rank, rank_lt in Hlt'. cbn [fst snd] in Hlt'.
  rewrite Hsan, Hpx, klt_lex in Hlt'. tauto.
Qed.

(** ** Samples and messages: facts *)

Lemma as_i64_small z : - 2 ^ 63 <= z < 2 ^ 63 -> as_i64 z = z.
Proof. intros. unfold as_i64. rewrite Z.mod_small by lia. lia. Qed.

(** The four-timestamp computation.  Let the responder's clock be ahead by
    [theta], the request travel for [d1] and the response for [d2].  The computed
    delay is [d1 + d2], and the computed offset misses [theta] by at most half the
    asymmetry of the path, rounding included; it is exact on a symmetric path.
    The network time estimated at the requester is the true one when the path is
    symmetric. *)
Theorem offset_delay_spec t1 t2 t3 t4 theta d1 d2 :
  is_u64 t1 -> is_u64 t2 -> is_u64 t3 -> is_u64 t4 -> t2 <= t3 ->
  0 <= d1 -> 0 <= d2 -> d1 + d2 <= u64_max ->
  t2 = t1 + d1 + theta -> t4 = t3 - theta + d2 -> Z.abs theta + d1 + d2 < 2 ^ 63 ->
  let s := compute_offset_delay t1 t2 t3 t4 in
  delay_ms s = d1 + d2 /\
  2 * Z.abs (offset_ms s - theta) <= Z.abs (d1 - d2) + 1 /\
  (d1 = d2 -> offset_ms s = theta) /\
  (d1 = d2 -> t3 + d1 <= u64_max -> compute_network_time_sample t1 t2 t3 t4 = (t3 + d1, d1)).
Proof.
  intros H1 H2 H3 H4 H23 Hd1 Hd2 Hd Ht2 Ht4 Hth s. unfold s, compute_offset_delay.
  cbn [delay_ms offset_ms].
  replace ((t4 - t1) - (t3 - t2)) with (d1 + d2) by lia.
  replace ((t2 - t1) + (t3 - t4)) with (2 * theta + (d1 - d2)) by lia.
  rewrite (proj2 (Z.ltb_ge (d1 + d2) 0)) by lia. rewrite wrap64_small by solve_u.
  assert (2 * Z.abs (Z.quot (2 * theta + (d1 - d2)) 2 - theta) <= Z.abs (d1 - d2) + 1) as Hq.
  { Z.to_euclidean_division_equations; lia. }
  assert (Z.abs (Z.quot (2 * theta + (d1 - d2)) 2) <= Z.abs theta + d1 + d2) as Hb.
  { Z.to_euclidean_division_equations; lia. }
  rewrite as_i64_small by lia. split; [done|]. split; [done|]. split.
  - intros ->. rewrite Z.sub_diag, Z.add_0_r, Z.mul_comm. by apply Z.quot_mul.
  - intros <- Hmax. unfold compute_network_time_sample.
    assert (sat_sub (sat_sub t4 t1) (sat_sub t3 t2) = 2 * d1) as -> by (unfold sat_sub; lia).
    rewrite (Z.mul_comm 2 d1), Z.div_mul by lia. f_equal. unfold sat_add. lia.
Qed.

(** The built-in definitions of the three message types. *)
Definition timesync_schema (reg : Registry) : Prop :=
  element (message_meta reg ty_TimeSyncAnnounce) = Static 2 UInt64 CData /\
  element (message_meta reg ty_TimeSyncRequest) = Static 2 UInt64 CData /\
  element (message_meta reg ty_TimeSyncResponse) = Static 4 UInt64 CData /\
  Forall (fun ty => mm_endpoints (message_meta reg ty) <> [])
    [ty_TimeSyncAnnounce; ty_TimeSyncRequest; ty_TimeSyncResponse].

Lemma from_u64_slice_words reg tun device counter ty0 n values eps ts :
  element (message_meta reg ty0) = Static n UInt64 CData -> zlen values = n -> 8 * n < 2 ^ 64 ->
  eps <> [] ->
  exists p c, from_u64_slice reg tun device counter ty0 values eps ts = (Ok p, c) /\
    ty p = ty0 /\ sender p = device /\ timestamp p = ts /\ pkt_endpoints p = eps /\
    payload p = concat (map (le_bytes 8) values) /\ wire_shape p = None.
Proof.
  intros He Hn Hb Heps. unfold from_u64_slice, from_prim_le_slice_with_sender.
  change (get_message_meta reg ty0) with (message_meta reg ty0). rewrite He.
  cbn [data_type data_type_size negb Z.eqb Z.of_nat].
  rewrite Hn, Z.eqb_refl. cbn [negb]. by apply packet_new_words with n CData.
Qed.

Lemma decode_words reg tun p ty0 n values :
  ty p = ty0 -> element (message_meta reg ty0) = Static (Z.of_nat n) UInt64 CData ->
  wire_shape p = None -> length values = n -> Forall is_u64 values ->
  payload p = concat (map (le_bytes 8) values) ->
  decode_u64_payload reg tun p ty0 n = Ok values.
Proof.
  intros Ht He Hw Hn Hv Hp. unfold decode_u64_payload. rewrite Ht, Z.eqb_refl. cbn [negb].
  rewrite (data_as_u64_words reg tun p values); [|done| |done].
  - cbn [mbind result_bind]. by rewrite Hn, Nat.eqb_refl.
  - unfold effective_element, effective_element_of. by rewrite Hw, Ht, He.
Qed.

(** Every announce, request and response built from [u64] values is a packet,
    carries the right time stamp, and decodes to the values it was built from;
    a packet of another type is refused. *)
Theorem timesync_messages_roundtrip reg tun device counter a b c d :
  timesync_schema reg -> is_u64 a -> is_u64 b -> is_u64 c -> is_u64 d ->
  (exists p k, build_timesync_announce reg tun device counter a b = (Ok p, k) /\ timestamp p = b /\
     decode_timesync_announce reg tun p = Ok {| ann_priority := a; ann_time_ms := b |} /\
     decode_timesync_request reg tun p = Err InvalidType) /\
  (exists p k, build_timesync_announce_with_sender reg tun device counter a b = (Ok p, k) /\
     sender p = device /\
     decode_timesync_announce reg tun p = Ok {| ann_priority := a; ann_time_ms := b |}) /\
  (exists p k, build_timesync_request reg tun device counter a b = (Ok p, k) /\ timestamp p = b /\
     decode_timesync_request reg tun p = Ok {| req_seq := a; req_t1_ms := b |} /\
     decode_timesync_response reg tun p = Err InvalidType) /\
  (exists p k, build_timesync_response reg tun device counter a b c d = (Ok p, k) /\
     timestamp p = d /\
     decode_timesync_response reg tun p
       = Ok {| rsp_seq := a; rsp_t1_ms := b; rsp_t2_ms := c; rsp_t3_ms := d |} /\
     decode_timesync_announce reg tun p = Err InvalidType).
Proof.
  intros (Ha & Hr & Hs & Heps) H1 H2 H3 H4. rewrite !Forall_cons in Heps.
  destruct Heps as (Ea & Er & Es & _).
  assert (forall p ty0 n, ty p <> ty0 -> decode_u64_payload reg tun p ty0 n = Err InvalidType) as Hno.
  { intros p ty0 n Hne. unfold decode_u64_payload. by rewrite (proj2 (Z.eqb_neq _ _) Hne). }
  split_and!.
  - destruct (from_u64_slice_words reg tun device counter ty_TimeSyncAnnounce 2 [a; b]
      (mm_endpoints (message_meta reg ty_TimeSyncAnnounce)) b) as (p & k & Hb & Ht & _ & Hts & _ & Hp & Hw);
      [done..|]. exists p, k. split; [done|]. split; [done|]. split.
    + unfold decode_timesync_announce. rewrite (decode_words reg tun p _ _ [a; b]); auto.
    + unfold decode_timesync_request. by rewrite Hno by by rewrite Ht.
  - destruct (packet_new_words reg tun counter ty_TimeSyncAnnounce 2 CData [a; b] [ep_TimeSync] device b)
      as (p & k & Hb & Ht & Hsn & _ & _ & Hp & Hw); [done..|]. exists p, k. split; [done|].
    split; [done|]. unfold decode_timesync_announce. rewrite (decode_words reg tun p _ _ [a; b]); auto.
  - destruct (from_u64_slice_words reg tun device counter ty_TimeSyncRequest 2 [a; b]
      (mm_endpoints (message_meta reg ty_TimeSyncRequest)) b) as (p & k & Hb & Ht & _ & Hts & _ & Hp & Hw);
      [done..|]. exists p, k. split; [done|]. split; [done|]. split.
    + unfold decode_timesync_request. rewrite (decode_words reg tun p _ _ [a; b]); auto.
    + unfold decode_timesync_response. by rewrite Hno by by rewrite Ht.
  - destruct (from_u64_slice_words reg tun device counter ty_TimeSyncResponse 4 [a; b; c; d]
      (mm_endpoints (message_meta reg ty_TimeSyncResponse)) d) as (p & k & Hb & Ht & _ & Hts & _ & Hp & Hw);
      [done..|]. exists p, k. split; [done|]. split; [done|]. split.
    + unfold decode_timesync_response. rewrite (decode_words reg tun p _ _ [a; b; c; d]); auto 6.
    + unfold decode_timesync_announce. by rewrite Hno by by rewrite Ht.
Qed.

(** ** Witnesses *)

(** An allocator that always serves. *)
#[local] Instance generous_peers T : PeerEnv T :=
  {| record_size := 48; pointer_size := 8; box_allocates := fun _ => true;
     string_allocates := fun _ => true |}.

Definition timesync_registry : Registry :=
  let meta n := {| mm_name := "TS"; mm_description := EmptyString; element := Static n UInt64 CData;
                   mm_endpoints := [ep_TimeSync]; reliable := RNone; priority := 245;
                   e2e_encryption := PreferOff |} in
  {| endpoints := []; types := [(ty_TimeSyncAnnounce, meta 2); (ty_TimeSyncRequest, meta 2);
                                (ty_TimeSyncResponse, meta 4)];
     next_endpoint_id := 8; next_type_id := 102 |}.

Lemma timesync_messages_roundtrip_witness :
  exists p k, build_timesync_response timesync_registry sample_tuning (str "GCS") 9 1 2 3 4 = (Ok p, k) /\
    decode_timesync_response timesync_registry sample_tuning p
      = Ok {| rsp_seq := 1; rsp_t1_ms := 2; rsp_t2_ms := 3; rsp_t3_ms := 4 |}.
Proof.
  destruct (timesync_messages_roundtrip timesync_registry sample_tuning (str "GCS") 9 1 2 3 4)
    as (_ & _ & _ & p & k & Hb & _ & Hd & _); [|solve_u..|].
  - unfold timesync_schema. repeat constructor; discriminate.
  - exists p, k. by split.
Defined.

Lemma offset_delay_spec_witness :
  offset_ms (compute_offset_delay 1000 5030 5040 1070) = 4000.
Proof.
  destruct (offset_delay_spec 1000 5030 5040 1070 4000 30 30) as (_ & _ & H & _);
    [solve_u..|apply H; reflexivity].
Defined.

Definition node (id : bytes) (prio : Z) (peer : bytes) (peer_prio : Z) : TimeSyncTracker :=
  {| cfg := {| role := Source; cfg_priority := prio; source_timeout_ms := 5000;
               announce_interval_ms := 1000; request_interval_ms := 1000;
               consumer_promotion_enabled := true; cfg_max_slew_ppm := 50000 |};
     local_id := id;
     sources := {[ peer := {| ts_sender := peer; ts_priority := peer_prio;
                              last_announce_ms := 1000; last_time_ms := 0 |} ]};
     current_source_id := Some peer |}.

Lemma node_ok id prio peer peer_prio : peer <> id -> tracker_ok (node id prio peer peer_prio).
Proof. intros Hne n s Hs. cbn in Hs. by apply lookup_singleton_Some in Hs as [<- <-]. Qed.

(** Two sources of one priority: "A" wins the tie, announces 99, and "B" follows. *)
Lemma exclusive_leadership_witness :
  local_announce_priority (node (str "A") 100 (str "B") 100) 2000 true = Some 99 /\
  should_serve (node (str "B") 100 (str "A") 99) 2000 true = false.
Proof.
  split; [by vm_compute|].
  destruct (exclusive_leadership (node (str "A") 100 (str "B") 100) (node (str "B") 100 (str "A") 99)
    2000 2000 true true 99
    {| ts_sender := str "B"; ts_priority := 100; last_announce_ms := 1000; last_time_ms := 0 |}
    {| ts_sender := str "A"; ts_priority := 99; last_announce_ms := 1000; last_time_ms := 0 |})
    as (_ & _ & _ & _ & H); [by apply node_ok..|by vm_compute|by vm_compute|by vm_compute|by vm_compute
    |by vm_compute|by vm_compute| |by vm_compute|exact H].
  intros p Hp. vm_compute in Hp. injection Hp as <-. by vm_compute.
Defined.

Lemma tracker_update_spec_witness :
  let t := node (str "A") 100 (str "B") 100 in
  let '(u, t') := refresh t 7000 in sources t' !! str "B" = None /\ current_source_id t' = None.
Proof.
  cbv zeta.
  destruct (tracker_update_spec timesync_registry sample_tuning (node (str "A") 100 (str "B") 100)
    sample_packet 7000 {| probe := None; probe_v2 := None; rejected := 0 |}) as [_ H].
  { by apply node_ok. }
  destruct (refresh _ 7000) as [u t'] eqn:E. destruct H as (_ & Hsrc & _).
  vm_compute in E. injection E as <- <-. split; [|reflexivity].
  destruct (_ !! str "B") as [s|] eqn:El; [|done]. apply Hsrc in El as [El Ha].
  cbn in El. apply lookup_singleton_Some in El as [_ <-]. by vm_compute in Ha.
Defined.
