(* ===== verification/SideFrame.v ===== *)
(** * Frames of side transports ([src/side_transport.rs])

    The wrapper of a side's frames with its checksum, the split of a large frame
    into chunks that are encoded one at a time, the resumption of an interrupted
    transfer, and the chunks of a packet that is never assembled into a frame.
    A transmit callback is a function from its state and the bytes to a result
    and its state.  Slice indices and [usize] counters that stay below the length
    of a buffer are natural numbers. *)

From S2P Require Import Prelude Schema Packet MemoryAdmission WireEnv WireSample WireReader WireFrame.

Open Scope Z_scope.

Definition SIDE_TX_PROGRESS_TIMEOUT_MS : Z := 2000.
Definition SIDE_TRANSPORT_MAGIC : bytes := str "SDT".
Definition SIDE_TRANSPORT_KIND_FULL : Z := 1.
Definition SIDE_TRANSPORT_KIND_COMPACT : Z := 2.
Definition SIDE_TRANSPORT_KIND_CHUNK : Z := 3.
Definition SIDE_TRANSPORT_KIND_COMPACT_DELTA : Z := 4.
Definition SIDE_TRANSPORT_KIND_COMPACT_SAME_TIMESTAMP : Z := 5.
Definition SIDE_TRANSPORT_CHUNK_OVERHEAD : nat := 16.

Section SideFrame.
Context {E : WireEnv}.

(** ** The wrapper *)

Definition wrap_side_transport_frame_parts (kind : Z) (parts : list bytes) : bytes :=
  let data := SIDE_TRANSPORT_MAGIC ++ [kind] ++ concat parts in
  data ++ le_bytes 4 (crc32_bytes data).

Definition wrap_side_transport_frame (kind : Z) (body : bytes) : bytes :=
  wrap_side_transport_frame_parts kind [body].

Definition parse_side_transport_wrapper (b : bytes) : result (option (Z * bytes)) :=
  if (length b <? 3 + 1 + 4)%nat then Ok None
  else if negb (bool_decide (take 3 b = SIDE_TRANSPORT_MAGIC)) then Ok None
  else
    let data_len := (length b - 4)%nat in
    let expected := from_le (take 4 (drop data_len b)) in
    let data := take data_len b in
    if negb (crc32_bytes data =? expected) then Err (Unpack "side transport crc32 mismatch")
    else Ok (Some (nth 3 data 0, drop 4 data)).

(** ** Chunked frames *)

Record SideTransportFrames : Type := {
  sf_frame : bytes;
  payload_budget : nat;
  transfer_id : Z;
  sf_index : nat;
  sf_total : nat;
}.

Definition single (frame : bytes) : SideTransportFrames :=
  {| sf_frame := frame; payload_budget := 0; transfer_id := 0; sf_index := 0; sf_total := 1 |}.

Definition div_ceil (a b : nat) : nat := ((a + b - 1) / b)%nat.

(** [((hash >> 32) as u32 ^ hash as u32).max(1)]. *)
Definition fold_transfer_id (hash : Z) : Z :=
  Z.max 1 (Z.lxor (wrap32 (Z.shiftr hash 32)) (wrap32 hash)).

Definition split (frame : bytes) (max_frame_bytes : nat) (sender : bytes)
    : result SideTransportFrames :=
  if (max_frame_bytes <=? SIDE_TRANSPORT_CHUNK_OVERHEAD)%nat then Err BadArg
  else
    let budget := (max_frame_bytes - SIDE_TRANSPORT_CHUNK_OVERHEAD)%nat in
    let total := div_ceil (length frame) budget in
    if 65535 <? Z.of_nat total then Err (PacketTooLarge "too many chunks")
    else
      let seed := hash_bytes_u64 5871781006564002453 sender in
      let hash := hash_bytes_u64 seed frame in
      Ok {| sf_frame := frame; payload_budget := budget; transfer_id := fold_transfer_id hash;
            sf_index := 0; sf_total := total |}.

Definition starts_with (pre l : bytes) : bool := bool_decide (take (length pre) l = pre).

Definition history_dependent (f : SideTransportFrames) : bool :=
  starts_with SIDE_TRANSPORT_MAGIC (sf_frame f).

Definition bootstraps_template (f : SideTransportFrames) : bool :=
  history_dependent f
  && match sf_frame f !! 3%nat with Some k => k =? SIDE_TRANSPORT_KIND_FULL | None => false end.

Definition progress_key (f : SideTransportFrames) : Z :=
  hash_bytes_u64 (hash_bytes_u64 13121354635739219985 (le_bytes 8 (Z.of_nat (payload_budget f))))
    (sf_frame f).

Definition with_index (f : SideTransportFrames) (index : nat) : SideTransportFrames :=
  {| sf_frame := sf_frame f; payload_budget := payload_budget f; transfer_id := transfer_id f;
     sf_index := index; sf_total := sf_total f |}.

(** [as u16] of the index and the total. *)
Definition chunk (f : SideTransportFrames) (index : nat) : bytes :=
  let start := (index * payload_budget f)%nat in
  let end_ := Nat.min (start + payload_budget f) (length (sf_frame f)) in
  wrap_side_transport_frame_parts SIDE_TRANSPORT_KIND_CHUNK
    [le_bytes 4 (transfer_id f); le_bytes 2 (Z.of_nat index mod 65536);
     le_bytes 2 (Z.of_nat (sf_total f) mod 65536); take (end_ - start) (drop start (sf_frame f))].

(** The iterator. *)
Definition next (f : SideTransportFrames) : option bytes * SideTransportFrames :=
  if (sf_index f =? sf_total f)%nat then (None, f)
  else
    let index := sf_index f in
    let f := with_index f (S index) in
    (Some (if (payload_budget f =? 0)%nat then sf_frame f else chunk f index), f).

Definition admits_next (f : SideTransportFrames) (adm : Admission) : bool * Admission :=
  if (sf_index f <? sf_total f)%nat && negb (payload_budget f =? 0)%nat then
    let remaining := (length (sf_frame f) - sf_index f * payload_budget f)%nat in
    let b := sat_add (Z.of_nat (Nat.min remaining (payload_budget f)))
               (Z.of_nat SIDE_TRANSPORT_CHUNK_OVERHEAD) in
    match check (sat_add b 256) (sat_add b 32) adm with
    | (Ok _, adm) => (true, adm)
    | (Err _, adm) => (false, adm)
    end
  else (true, adm).

Definition wire_len (f : SideTransportFrames) : nat :=
  length (sf_frame f)
  + (if (payload_budget f =? 0)%nat then 0 else sf_total f * SIDE_TRANSPORT_CHUNK_OVERHEAD).

(** The loop of [send_resuming]: the result, the frames, the next chunk to send,
    the callback's state and the probes; [None] only without fuel. *)
Section Send.
Context {S : Type} (send : S -> bytes -> result unit * S).

Fixpoint send_loop (fuel : nat) (f : SideTransportFrames) (next_chunk : nat) (s : S) (adm : Admission)
    : option (result unit * SideTransportFrames * nat * S * Admission) :=
  match fuel with
  | O => None
  | Datatypes.S fuel =>
      match admits_next f adm with
      | (false, adm) => Some (Err (Io "memory pressure"), f, next_chunk, s, adm)
      | (true, adm) =>
          match next f with
          | (None, f) => Some (Ok tt, f, next_chunk, s, adm)
          | (Some frame, f) =>
              match send s frame with
              | (Err e, s) => Some (Err e, f, next_chunk, s, adm)
              | (Ok _, s) => send_loop fuel f (sf_index f) s adm
              end
          end
      end
  end.

Definition send_resuming (f : SideTransportFrames) (next_chunk : nat) (s : S) (adm : Admission)
    : option (result unit * SideTransportFrames * nat * S * Admission) :=
  if (sf_total f <? next_chunk)%nat then Some (Err BadArg, f, next_chunk, s, adm)
  else send_loop (Datatypes.S (sf_total f)) (with_index f next_chunk) next_chunk s adm.

(** ** Streamed chunks of a packet *)

(** The part of a chunk's range that lies in a segment at [offset]. *)
Fixpoint segment_slices (parts : list bytes) (offset start end_ : nat) : list bytes :=
  match parts with
  | [] => []
  | part :: parts =>
      let low := Nat.min (start - offset) (length part) in
      let high := Nat.min (end_ - offset) (length part) in
      take (high - low) (drop low part) :: segment_slices parts (offset + length part) start end_
  end.

Definition streamed_chunk (parts : list bytes) (len budget total : nat) (transfer : Z) (index : nat)
    : bytes :=
  let start := (index * budget)%nat in
  let end_ := Nat.min (start + budget) len in
  wrap_side_transport_frame_parts SIDE_TRANSPORT_KIND_CHUNK
    ([le_bytes 4 transfer; le_bytes 2 (Z.of_nat index mod 65536); le_bytes 2 (Z.of_nat total)]
     ++ segment_slices parts 0 start end_).

(** [for index in *next_chunk..total]: [count] rounds from [index]. *)
Fixpoint stream_loop (count : nat) (parts : list bytes) (len budget total max_frame_bytes : nat)
    (transfer : Z) (index next_chunk : nat) (s : S) (adm : Admission)
    : result unit * nat * S * Admission :=
  match count with
  | O => (Ok tt, next_chunk, s, adm)
  | Datatypes.S count =>
      let m := Z.of_nat max_frame_bytes in
      match check (sat_add m 256) (sat_add m 32) adm with
      | (Err e, adm) => (Err e, next_chunk, s, adm)
      | (Ok _, adm) =>
          match send s (streamed_chunk parts len budget total transfer index) with
          | (Err e, s) => (Err e, next_chunk, s, adm)
          | (Ok _, s) =>
              stream_loop count parts len budget total max_frame_bytes transfer
                (Datatypes.S index) (Datatypes.S index) s adm
          end
      end
  end.

(** The callback of [with_plain_packet_parts]. *)
Definition send_parts (header payload : bytes) (max_frame_bytes : nat) (sender : bytes)
    (next_chunk : nat) (s : S) (adm : Admission)
    : result (nat * nat * nat) * nat * S * Admission :=
  let crc := le_bytes 4 (crc32_bytes (header ++ payload)) in
  let parts := [header; payload; crc] in
  let len := (length header + length payload + length crc)%nat in
  let budget := (max_frame_bytes - SIDE_TRANSPORT_CHUNK_OVERHEAD)%nat in
  let total := div_ceil len budget in
  if 65535 <? Z.of_nat total then (Err (PacketTooLarge "too many chunks"), next_chunk, s, adm)
  else
    let hash := foldl hash_bytes_u64 (hash_bytes_u64 5871781006564002453 sender) parts in
    let transfer := fold_transfer_id hash in
    if (total <? next_chunk)%nat then (Err BadArg, next_chunk, s, adm)
    else
      match stream_loop (total - next_chunk) parts len budget total max_frame_bytes transfer
              next_chunk next_chunk s adm with
      | (Err e, next_chunk, s, adm) => (Err e, next_chunk, s, adm)
      | (Ok _, next_chunk, s, adm) =>
          (Ok (len, (len + total * SIDE_TRANSPORT_CHUNK_OVERHEAD)%nat, total), next_chunk, s, adm)
      end.

(** [None] where building the packet's header panics. *)
Definition send_packet_chunks (book : AddressBook) (packet : Packet) (max_frame_bytes : nat)
    (sender : bytes) (next_chunk : nat) (s : S) (adm : Admission)
    : option (result (nat * nat * nat) * nat * S * Admission) * AddressBook :=
  if (max_frame_bytes <=? SIDE_TRANSPORT_CHUNK_OVERHEAD)%nat
  then (Some (Err BadArg, next_chunk, s, adm), book)
  else
    let '(parts, book) := with_plain_packet_parts book packet in
    (match parts with
     | None => None
     | Some (Err e) => Some (Err e, next_chunk, s, adm)
     | Some (Ok (header, payload)) =>
         Some (send_parts header payload max_frame_bytes sender next_chunk s adm)
     end, book).

End Send.

Definition canonical_packet_progress_key (packet_id : Z) (max_frame_bytes : Z) : Z :=
  hash_bytes_u64 packet_id (le_bytes 8 max_frame_bytes).

(** ** Progress of interrupted transfers *)

Record SideTxCursor : Type := { cu_key : Z; cu_next : nat; last_progress_ms : Z }.

(** Four slots. *)
Definition SideTxProgress : Type := list (option SideTxCursor).
Definition progress_default : SideTxProgress := replicate 4 None.

Definition stale (now : Z) (c : SideTxCursor) : bool :=
  SIDE_TX_PROGRESS_TIMEOUT_MS <? sat_sub now (last_progress_ms c).

Definition expire_slot (now : Z) (slot : option SideTxCursor) : option SideTxCursor :=
  match slot with
  | Some c => if stale now c then None else Some c
  | None => None
  end.

Definition slot_has (key : Z) (slot : option SideTxCursor) : bool :=
  match slot with Some c => cu_key c =? key | None => false end.

Definition slot_free (slot : option SideTxCursor) : bool :=
  match slot with None => true | Some _ => false end.

(** The first slot that satisfies [p]. *)
Fixpoint find_slot (p : option SideTxCursor -> bool) (slots : list (option SideTxCursor)) : option nat :=
  match slots with
  | [] => None
  | s :: slots => if p s then Some 0%nat else option_map S (find_slot p slots)
  end.

Definition begin_ (key now : Z) (slots : SideTxProgress) : result nat * list (option SideTxCursor) :=
  let slots := map (expire_slot now) slots in
  match find_slot (slot_has key) slots with
  | Some i =>
      (Ok (match slots !! i with Some (Some c) => cu_next c | _ => 0%nat end), slots)
  | None =>
      match find_slot slot_free slots with
      | None => (Err (Io "side chunk progress saturated"), slots)
      | Some i =>
          (Ok 0%nat, <[i := Some {| cu_key := key; cu_next := 0; last_progress_ms := now |}]> slots)
      end
  end.

Definition is_io (r : result unit) : bool := match r with Err (Io _) => true | _ => false end.
Definition is_ok (r : result unit) : bool := match r with Ok _ => true | _ => false end.

Definition finish (key : Z) (next : nat) (now : Z) (res : result unit) (slots : list (option SideTxCursor))
    : SideTxProgress :=
  match find_slot (slot_has key) slots with
  | None => slots
  | Some i =>
      alter (fun slot =>
        if is_ok res || (next =? 0)%nat || negb (is_io res) then None
        else match slot with
             | Some c => Some {| cu_key := cu_key c; cu_next := next;
                                 last_progress_ms := if (cu_next c <? next)%nat then now
                                                     else last_progress_ms c |}
             | None => None
             end) i slots
  end.

(** ** Wrapping *)

Lemma wrap_parts kind parts :
  wrap_side_transport_frame_parts kind parts
  = SIDE_TRANSPORT_MAGIC ++ kind :: concat parts
    ++ le_bytes 4 (crc32_bytes (SIDE_TRANSPORT_MAGIC ++ kind :: concat parts)).
Proof. unfold wrap_side_transport_frame_parts. cbn [app]. by rewrite <- !app_assoc. Qed.

Lemma wrap_concat kind parts parts' :
  concat parts = concat parts' ->
  wrap_side_transport_frame_parts kind parts = wrap_side_transport_frame_parts kind parts'.
Proof. intros H. unfold wrap_side_transport_frame_parts. by rewrite H. Qed.

Lemma length_wrap kind parts :
  length (wrap_side_transport_frame_parts kind parts) = (8 + length (concat parts))%nat.
Proof.
  rewrite wrap_parts, length_app. cbn [length]. rewrite length_app, length_le_bytes.
  change (length SIDE_TRANSPORT_MAGIC) with 3%nat. lia.
Qed.

Lemma parse_wrap {L : WireEnvLaws E} kind parts :
  parse_side_transport_wrapper (wrap_side_transport_frame_parts kind parts)
  = Ok (Some (kind, concat parts)).
Proof.
  unfold parse_side_transport_wrapper. rewrite length_wrap.
  rewrite (proj2 (Nat.ltb_ge _ _)) by lia. rewrite wrap_parts.
  set (data := SIDE_TRANSPORT_MAGIC ++ kind :: concat parts).
  replace (SIDE_TRANSPORT_MAGIC ++ kind :: concat parts ++ le_bytes 4 (crc32_bytes data))
    with (data ++ le_bytes 4 (crc32_bytes data)) by (unfold data; by rewrite <- app_assoc).
  replace (8 + length (concat parts) - 4)%nat with (length data) by (unfold data; cbn; lia).
  rewrite take_app_length, drop_app_length. rewrite (take_ge (le_bytes _ _)) by (by rewrite length_le_bytes).
  rewrite from_le_bytes by (pose proof (crc32_range data); change (256 ^ Z.of_nat 4) with (2 ^ 32); solve_u).
  rewrite Z.eqb_refl. unfold data. cbn. done.
Qed.

(** ** Chunks *)

(** What a transfer consists of: frame [i] of it. *)
Definition frame_at (f : SideTransportFrames) (i : nat) : bytes :=
  if (payload_budget f =? 0)%nat then sf_frame f else chunk f i.

(** The payload of chunk [i]. *)
Definition chunk_payload (f : SideTransportFrames) (i : nat) : bytes :=
  take (payload_budget f) (drop (i * payload_budget f) (sf_frame f)).

Lemma div_ceil_spec a b : (0 < b)%nat -> (div_ceil a b * b < a + b /\ a <= div_ceil a b * b)%nat.
Proof.
  intros Hb. unfold div_ceil. pose proof (Nat.div_mod (a + b - 1) b ltac:(lia)) as Hd.
  pose proof (Nat.mod_upper_bound (a + b - 1) b ltac:(lia)). lia.
Qed.

(** A split transfer: the budget, the total, the identifier. *)
Record split_ok (f : SideTransportFrames) : Prop := {
  so_budget : (0 < payload_budget f)%nat;
  so_total : sf_total f = div_ceil (length (sf_frame f)) (payload_budget f);
  so_limit : Z.of_nat (sf_total f) <= 65535;
  so_transfer : 1 <= transfer_id f <= u32_max;
}.

Lemma fold_transfer_id_range hash : is_u64 hash -> 1 <= fold_transfer_id hash <= u32_max.
Proof.
  intros Hh. unfold fold_transfer_id, wrap32. split; [lia|].
  apply Z.max_lub; [done|]. assert (Z.lxor (Z.shiftr hash 32 mod 4294967296) (hash mod 4294967296)
    < 2 ^ 32) as Hx; [|by apply Z.lt_succ_r].
  assert (forall z, 0 <= z mod 4294967296 < 2 ^ 32) as Hm by (intros; apply Z.mod_pos_bound; lia).
  pose proof (Hm (Z.shiftr hash 32)). pose proof (Hm hash).
  set (a := Z.shiftr hash 32 mod 4294967296) in *. set (b := hash mod 4294967296) in *.
  destruct (Z.eq_dec (Z.lxor a b) 0) as [->|Hne]; [done|].
  apply Z.log2_lt_pow2; [pose proof (proj2 (Z.lxor_nonneg a b)); lia|].
  assert (forall z, 0 <= z < 2 ^ 32 -> Z.log2 z < 32) as Hlog.
  { intros z Hz. destruct (Z.eq_dec z 0) as [->|]; [done|]. apply Z.log2_lt_pow2; lia. }
  pose proof (Z.log2_lxor a b). pose proof (Hlog a). pose proof (Hlog b). lia.
Qed.

Lemma split_split_ok frame max sender f :
  split frame max sender = Ok f ->
  split_ok f /\ sf_frame f = frame /\ sf_index f = 0%nat /\
  (max = payload_budget f + SIDE_TRANSPORT_CHUNK_OVERHEAD)%nat.
Proof.
  unfold split. destruct (Nat.leb_spec max SIDE_TRANSPORT_CHUNK_OVERHEAD) as [|Hlt]; [done|].
  destruct (65535 <? _) eqn:El; [done|]. intros [= <-]. bool_to_prop.
  split; [|split; [done|split; [done|cbn; lia]]]. split; cbn; [lia|done|done|].
  apply fold_transfer_id_range, hash_bytes_u64_range, hash_bytes_u64_range. solve_u.
Qed.

Lemma chunk_slice f i :
  (let start := (i * payload_budget f)%nat in
   let end_ := Nat.min (start + payload_budget f) (length (sf_frame f)) in
   take (end_ - start) (drop start (sf_frame f))) = chunk_payload f i.
Proof.
  cbv zeta. unfold chunk_payload. set (st := (i * payload_budget f)%nat).
  destruct (Nat.le_gt_cases (st + payload_budget f) (length (sf_frame f))).
  - rewrite Nat.min_l by done. f_equal. lia.
  - rewrite Nat.min_r by lia. rewrite !take_ge; [done| |]; rewrite length_drop; lia.
Qed.

Lemma chunk_body f i :
  chunk f i = wrap_side_transport_frame_parts SIDE_TRANSPORT_KIND_CHUNK
    [le_bytes 4 (transfer_id f); le_bytes 2 (Z.of_nat i mod 65536);
     le_bytes 2 (Z.of_nat (sf_total f) mod 65536); chunk_payload f i].
Proof. unfold chunk. by rewrite chunk_slice. Qed.

Lemma length_chunk f i : (length (chunk f i) <= payload_budget f + SIDE_TRANSPORT_CHUNK_OVERHEAD)%nat.
Proof.
  rewrite chunk_body, length_wrap. cbn [concat]. rewrite !length_app, !length_le_bytes. cbn [length].
  unfold chunk_payload, SIDE_TRANSPORT_CHUNK_OVERHEAD. rewrite length_take. lia.
Qed.

(** The payloads of all chunks are the frame. *)
Lemma chunk_payloads_from f n :
  concat (map (chunk_payload f) (seq 0 n)) = take (n * payload_budget f) (sf_frame f).
Proof.
  induction n as [|n IH]; [done|]. rewrite seq_S, map_app, concat_app, IH. cbn [map concat].
  rewrite app_nil_r. unfold chunk_payload. rewrite Nat.add_0_l. rewrite take_take_drop. f_equal. lia.
Qed.

Lemma chunk_payloads f :
  split_ok f -> concat (map (chunk_payload f) (seq 0 (sf_total f))) = sf_frame f.
Proof.
  intros [Hb Ht _ _]. rewrite chunk_payloads_from. apply take_ge. rewrite Ht.
  pose proof (div_ceil_spec (length (sf_frame f)) _ Hb). lia.
Qed.

(** ** Resumption *)

(** A callback that also keeps what it accepted. *)
Definition recording {S} (send : S -> bytes -> result unit * S) (s : S * list bytes) (b : bytes)
    : result unit * (S * list bytes) :=
  let '(r, s') := send (fst s) b in (r, (s', if is_ok r then snd s ++ [b] else snd s)).

Lemma recording_eq {S} (send : S -> bytes -> result unit * S) s log b :
  recording send (s, log) b
  = ((send s b).1, ((send s b).2, if is_ok (send s b).1 then log ++ [b] else log)).
Proof. unfold recording. cbn [fst snd]. by destruct (send s b). Qed.

Lemma next_frame f :
  sf_index f <> sf_total f ->
  next f = (Some (frame_at f (sf_index f)), with_index f (S (sf_index f))).
Proof.
  intros Hne. unfold next. rewrite (proj2 (Nat.eqb_neq _ _) Hne). by destruct f.
Qed.

Lemma next_end f : sf_index f = sf_total f -> next f = (None, f).
Proof. intros He. unfold next. by rewrite He, Nat.eqb_refl. Qed.

Lemma admits_next_refused f adm :
  (sf_index f <= sf_total f)%nat -> fst (admits_next f adm) = false -> (sf_index f < sf_total f)%nat.
Proof.
  unfold admits_next. destruct (Nat.ltb_spec (sf_index f) (sf_total f)); [done|]. by cbn.
Qed.

(** What one call of the loop gives: the frames from [from] to [n'] are
    accepted, in order, and the loop ends with success only at the last one. *)
Definition sent_from {S} (f : SideTransportFrames) (from : nat) (log : list bytes)
    (out : option (result unit * SideTransportFrames * nat * (S * list bytes) * Admission)) : Prop :=
  exists res f' n' s' adm',
    out = Some (res, f', n', (s', log ++ map (frame_at f) (seq from (n' - from))), adm') /\
    (from <= n' <= sf_total f)%nat /\ (res = Ok tt <-> n' = sf_total f) /\
    with_index f' 0 = with_index f 0.

Lemma sent_nothing {S} f log (res : result unit) f' (s : S) adm :
  (sf_index f <= sf_total f)%nat -> (res = Ok tt <-> sf_index f = sf_total f) ->
  with_index f' 0 = with_index f 0 ->
  sent_from f (sf_index f) log (Some (res, f', sf_index f, (s, log), adm)).
Proof.
  intros Hle Hr Hf. exists res, f', (sf_index f), s, adm. rewrite Nat.sub_diag. cbn [seq map].
  by rewrite app_nil_r.
Qed.

Lemma send_loop_spec {S} (send : S -> bytes -> result unit * S) fuel f s log adm :
  (sf_index f <= sf_total f)%nat -> (sf_total f < fuel + sf_index f)%nat ->
  sent_from f (sf_index f) log (send_loop (recording send) fuel f (sf_index f) (s, log) adm).
Proof.
  revert f s log adm. induction fuel as [|fuel IH]; intros f s log adm Hle Hf; [lia|].
  cbn [send_loop]. destruct (admits_next f adm) as [[] adm1] eqn:Ea.
  2: { pose proof (admits_next_refused f adm Hle ltac:(by rewrite Ea)).
       apply sent_nothing; [done| |done]. split; [done|lia]. }
  destruct (Nat.eq_dec (sf_index f) (sf_total f)) as [He|Hne].
  { rewrite next_end by done. by apply sent_nothing. }
  rewrite next_frame, recording_eq by done.
  destruct (send s (frame_at f (sf_index f))) as [[[]|e] s1]; cbn [fst snd is_ok].
  2: { apply sent_nothing; [done| |done]. split; [done|lia]. }
  destruct (IH (with_index f (Datatypes.S (sf_index f))) s1 (log ++ [frame_at f (sf_index f)]) adm1)
    as (res & f' & n' & s' & adm' & H & Hn & Hr & Hf'); [cbn; lia|cbn; lia|].
  cbn [sf_index sf_total with_index] in H, Hn, Hr. change (Datatypes.S (sf_index f)) with (0 + Datatypes.S (sf_index f))%nat in H at 1.
  exists res, f', n', s', adm'. split; [|split; [lia|done]].
  etransitivity; [exact H|]. do 3 f_equal. f_equal.
  replace (n' - sf_index f)%nat with (Datatypes.S (n' - Datatypes.S (sf_index f))) by lia.
  cbn [seq map]. rewrite <- app_assoc. done.
Qed.

(** Sending a transfer from its [next]-th frame terminates, whatever the
    callback and the probes answer.  The callback accepts exactly the frames from
    [next] to the new value of [next], in order and each once, so that repeated
    calls neither skip nor repeat a frame; the call succeeds exactly when the
    last frame is accepted.  The frames of a split transfer are chunks no longer
    than the limit whose payloads make up the frame. *)
Theorem send_resuming_spec {S} (send : S -> bytes -> result unit * S) f next_chunk s log adm frame max sender :
  (next_chunk <= sf_total f)%nat ->
  (exists res f' n' s' adm',
    send_resuming (recording send) f next_chunk (s, log) adm
    = Some (res, f', n', (s', log ++ map (frame_at f) (seq next_chunk (n' - next_chunk))), adm') /\
    (next_chunk <= n' <= sf_total f)%nat /\ (res = Ok tt <-> n' = sf_total f) /\
    map (frame_at f') (seq 0 (sf_total f')) = map (frame_at f) (seq 0 (sf_total f))) /\
  (split frame max sender = Ok f ->
   Forall (fun c => (length c <= max)%nat) (map (frame_at f) (seq 0 (sf_total f))) /\
   concat (map (chunk_payload f) (seq 0 (sf_total f))) = frame).
Proof.
  intros Hle. split.
  - unfold send_resuming. rewrite (proj2 (Nat.ltb_ge _ _)) by lia.
    destruct (send_loop_spec send (Datatypes.S (sf_total f)) (with_index f next_chunk) s log adm)
      as (res & f' & n' & s' & adm' & H & Hn & Hr & Hf'); [cbn; lia|cbn; lia|].
    cbn [sf_index with_index] in H. exists res, f', n', s', adm'. split; [exact H|]. split; [done|].
    split; [done|]. injection Hf' as Hf1 Hf2 Hf3 Hf4. rewrite Hf4. apply map_ext. intros i.
    unfold frame_at, chunk. by rewrite Hf1, Hf2, Hf3, Hf4.
  - intros Hs. apply split_split_ok in Hs as (Hok & Hfr & _ & ->). split.
    + apply Forall_map, Forall_forall. intros i _. unfold frame_at.
      pose proof (so_budget f Hok). destruct (Nat.eqb_spec (payload_budget f) 0); [lia|]. apply length_chunk.
    + rewrite <- Hfr. by apply chunk_payloads.
Qed.

(** ** Streamed chunks *)

Lemma hash_parts h parts : foldl hash_bytes_u64 h parts = hash_bytes_u64 h (concat parts).
Proof.
  revert h. induction parts as [|part parts IH]; intros h; [done|].
  cbn [foldl concat]. rewrite IH. unfold hash_bytes_u64. by rewrite foldl_app.
Qed.

Lemma segment_slices_concat parts offset start end_ :
  concat (segment_slices parts offset start end_)
  = take (end_ - Nat.max start offset) (drop (start - offset) (concat parts)).
Proof.
  revert offset. induction parts as [|part parts IH]; intros offset.
  { cbn. by rewrite drop_nil, take_nil. }
  cbn [segment_slices concat]. rewrite IH, drop_app, take_app, length_drop.
  destruct (Nat.le_gt_cases (start - offset) (length part)) as [Hl|Hl].
  - rewrite (Nat.min_l (start - offset)) by done. f_equal.
    + destruct (Nat.le_gt_cases (end_ - offset) (length part)).
      * rewrite Nat.min_l by done. f_equal. lia.
      * rewrite Nat.min_r by lia. rewrite !take_ge; [done| |]; rewrite length_drop; lia.
    + f_equal; [lia|]. f_equal. lia.
  - rewrite (Nat.min_r (start - offset)) by lia. rewrite !(drop_ge part), !take_nil by lia.
    cbn. f_equal; [lia|]. f_equal. lia.
Qed.

Lemma join_parts header payload :
  concat [header; payload; le_bytes 4 (crc32_bytes (header ++ payload))]
  = join_frame_with_crc header payload.
Proof. unfold join_frame_with_crc. cbn [concat]. by rewrite app_nil_r. Qed.

(** A streamed chunk is the chunk of the split frame. *)
Lemma streamed_chunk_eq f parts i :
  split_ok f -> concat parts = sf_frame f ->
  streamed_chunk parts (length (sf_frame f)) (payload_budget f) (sf_total f) (transfer_id f) i
  = frame_at f i.
Proof.
  intros [Hb Ht Hl _] Hc. unfold frame_at. destruct (Nat.eqb_spec (payload_budget f) 0); [lia|].
  unfold streamed_chunk, chunk. apply wrap_concat.
  rewrite (Z.mod_small (Z.of_nat (sf_total f))) by lia.
  rewrite concat_app, segment_slices_concat, Hc, Nat.sub_0_r, Nat.max_0_r. cbn [concat].
  by rewrite !app_nil_r, <- !app_assoc.
Qed.

Lemma stream_loop_spec {S} (send : S -> bytes -> result unit * S) f parts max count from s log adm :
  split_ok f -> concat parts = sf_frame f -> (from + count = sf_total f)%nat ->
  exists res n' s' adm',
    stream_loop (recording send) count parts (length (sf_frame f)) (payload_budget f) (sf_total f)
      max (transfer_id f) from from (s, log) adm
    = (res, n', (s', log ++ map (frame_at f) (seq from (n' - from))), adm') /\
    (from <= n' <= sf_total f)%nat /\ (res = Ok tt <-> n' = sf_total f).
Proof.
  intros Hok Hc. revert from s log adm. induction count as [|count IH]; intros from s log adm Hf; cbn [stream_loop].
  - exists (Ok tt), from, s, adm. rewrite Nat.sub_diag. cbn. rewrite app_nil_r. repeat split; lia.
  - assert (forall (e : TelemetryError) (s' : S) (adm' : Admission), exists res n' s1 adm1,
      (Err e : result unit, from, (s', log), adm')
      = (res, n', (s1, log ++ map (frame_at f) (seq from (n' - from))), adm1) /\
      (from <= n' <= sf_total f)%nat /\ (res = Ok tt <-> n' = sf_total f)) as Hstop.
    { intros e s' adm'. exists (Err e), from, s', adm'. rewrite Nat.sub_diag. cbn.
      rewrite app_nil_r. split; [done|]. split; [lia|]. split; [done|lia]. }
    destruct (check _ _ adm) as [[|e] adm1]; [|apply Hstop].
    rewrite streamed_chunk_eq, recording_eq by done.
    destruct (send s (frame_at f from)) as [[[]|e] s1]; cbn [fst snd is_ok]; [|apply Hstop].
    destruct (IH (Datatypes.S from) s1 (log ++ [frame_at f from]) adm1)
      as (res & n' & s' & adm' & -> & Hn & Hr); [lia|].
    exists res, n', s', adm'. split; [|split; [lia|done]].
    replace (n' - from)%nat with (Datatypes.S (n' - Datatypes.S from)) by lia.
    cbn [seq map]. by rewrite <- app_assoc.
Qed.

(** What streaming does, in terms of the split of the joined frame. *)
Definition streams_split {S} (frame : bytes) (max : nat) (sender : bytes) (next_chunk : nat) (s : S)
    (log : list bytes) (adm : Admission)
    (out : result (nat * nat * nat) * nat * (S * list bytes) * Admission) : Prop :=
  match split frame max sender with
  | Err e => out = (Err e, next_chunk, (s, log), adm)
  | Ok f =>
      if (sf_total f <? next_chunk)%nat then out = (Err BadArg, next_chunk, (s, log), adm)
      else exists res n' s' adm',
        out = (res, n', (s', log ++ map (frame_at f) (seq next_chunk (n' - next_chunk))), adm') /\
        (next_chunk <= n' <= sf_total f)%nat /\
        match res with
        | Ok (len, wire, total) =>
            n' = sf_total f /\ len = length frame /\ wire = wire_len f /\ total = sf_total f
        | Err _ => (n' < sf_total f)%nat
        end
  end.

Lemma send_parts_split {S} (send : S -> bytes -> result unit * S) header payload max sender next_chunk s log adm :
  (SIDE_TRANSPORT_CHUNK_OVERHEAD < max)%nat ->
  streams_split (join_frame_with_crc header payload) max sender next_chunk s log adm
    (send_parts (recording send) header payload max sender next_chunk (s, log) adm).
Proof.
  intros Hm. unfold streams_split, send_parts. set (parts := [header; payload; _]).
  assert (concat parts = join_frame_with_crc header payload) as Hc by apply join_parts.
  assert (length header + length payload + length (le_bytes 4 (crc32_bytes (header ++ payload)))
    = length (join_frame_with_crc header payload))%nat as ->.
  { unfold join_frame_with_crc. rewrite !length_app. lia. }
  destruct (split (join_frame_with_crc header payload) max sender) as [f|e] eqn:Es.
  - pose proof (split_split_ok _ _ _ _ Es) as (Hok & Hfr & _ & Hmax).
    revert Es. unfold split. rewrite (proj2 (Nat.leb_gt _ _)) by done.
    destruct (65535 <? _) eqn:El; [done|]. intros [= Ef].
    assert (transfer_id f = fold_transfer_id (foldl hash_bytes_u64 (hash_bytes_u64 5871781006564002453 sender) parts)) as <-.
    { rewrite hash_parts, Hc. by rewrite <- Ef. }
    replace (max - SIDE_TRANSPORT_CHUNK_OVERHEAD)%nat with (payload_budget f) by lia.
    rewrite <- Hfr, <- (so_total f Hok). destruct (Nat.ltb_spec (sf_total f) next_chunk) as [|Hn]; [done|].
    destruct (stream_loop_spec send f parts max (sf_total f - next_chunk) next_chunk s log adm Hok)
      as (res & n' & s' & adm' & -> & Hn' & Hr); [by rewrite Hfr|lia|].
    destruct res as [[]|e].
    + eexists _, n', s', adm'. split; [reflexivity|]. split; [lia|].
      split; [by apply Hr|]. split; [done|]. split; [|done].
      unfold wire_len. pose proof (so_budget f Hok). by destruct (Nat.eqb_spec (payload_budget f) 0); [lia|].
    + eexists _, n', s', adm'. split; [reflexivity|]. split; [lia|].
      assert (n' <> sf_total f); [|lia]. intros Hx. by apply Hr in Hx.
  - revert Es. unfold split. rewrite (proj2 (Nat.leb_gt _ _)) by done.
    destruct (65535 <? _) eqn:El; [|done]. by intros [= <-].
Qed.

(** Sending a packet as streamed chunks, never assembling its frame, has the
    effect of assembling the frame (header, payload and checksum) and splitting
    it: the same errors, the same chunks in the same order from the same next
    chunk, and on success the lengths of the frame and of the wire.  A limit
    that leaves no room for a payload is rejected before the packet is encoded. *)
Theorem send_packet_chunks_spec {S} (send : S -> bytes -> result unit * S) book packet max sender
    next_chunk s log adm :
  let '(out, book') := send_packet_chunks (recording send) book packet max sender next_chunk (s, log) adm in
  if (max <=? SIDE_TRANSPORT_CHUNK_OVERHEAD)%nat
  then out = Some (Err BadArg, next_chunk, (s, log), adm) /\ book' = book
  else
    book' = snd (with_plain_packet_parts book packet) /\
    match fst (with_plain_packet_parts book packet) with
    | None => out = None
    | Some (Err e) => out = Some (Err e, next_chunk, (s, log), adm)
    | Some (Ok (header, payload)) =>
        exists o, out = Some o /\
          streams_split (join_frame_with_crc header payload) max sender next_chunk s log adm o
    end.
Proof.
  unfold send_packet_chunks. destruct (Nat.leb_spec max SIDE_TRANSPORT_CHUNK_OVERHEAD) as [|Hm]; [done|].
  destruct (with_plain_packet_parts book packet) as [parts book']. cbn [fst snd]. split; [done|].
  destruct parts as [[[header payload]|e]|]; [|done|done].
  eexists. split; [reflexivity|]. by apply send_parts_split.
Qed.

(** ** Progress of interrupted transfers *)

Lemma find_slot_spec p slots i :
  find_slot p slots = Some i <->
  exists s, slots !! i = Some s /\ p s = true /\ forall j s', (j < i)%nat -> slots !! j = Some s' -> p s' = false.
Proof.
  revert i. induction slots as [|x slots IH]; intros i; cbn [find_slot].
  { split; [done|]. by intros (? & ? & _). }
  destruct (p x) eqn:Ep.
  - split.
    + intros [= <-]. exists x. repeat split; [done|lia].
    + intros (s & Hs & Hp & Hlt). destruct i; [done|]. rewrite (Hlt 0%nat x) in Ep; [done|lia|done].
  - split.
    + destruct (find_slot p slots) as [j|] eqn:Ef; [|done]. intros [= <-].
      destruct (proj1 (IH j) eq_refl) as (s & Hs & Hp & Hlt). exists s. split; [done|]. split; [done|].
      intros [|k] s' Hk Hl; [by injection Hl as <-|]. apply (Hlt k); [lia|done].
    + intros (s & Hs & Hp & Hlt). destruct i as [|i]; [injection Hs as <-; congruence|].
      assert (find_slot p slots = Some i) as ->; [|done]. apply IH. exists s. split; [done|]. split; [done|].
      intros k s' Hk Hl. apply (Hlt (Datatypes.S k)); [lia|done].
Qed.

Lemma find_slot_none p slots :
  find_slot p slots = None <-> forall j s, slots !! j = Some s -> p s = false.
Proof.
  induction slots as [|x slots IH]; cbn [find_slot]; [done|].
  destruct (p x) eqn:Ep.
  - split; [done|]. intros H. specialize (H 0%nat x eq_refl). congruence.
  - destruct (find_slot p slots) as [j|] eqn:Ef.
    + split; [done|]. intros H. enough (Some j = None) by done. apply IH.
      intros k s Hk. by apply (H (Datatypes.S k)).
    + split; [|done]. intros _ [|j] s; [by intros [= <-]|]. intros Hl. by eapply IH.
Qed.

Definition holds (slots : list (option SideTxCursor)) (c : SideTxCursor) : Prop :=
  exists i, slots !! i = Some (Some c).

(** No two slots hold the same transfer. *)
Definition keys_unique (slots : list (option SideTxCursor)) : Prop :=
  forall i j c d, slots !! i = Some (Some c) -> slots !! j = Some (Some d) ->
    cu_key c = cu_key d -> i = j.

Lemma expire_lookup now slots i c :
  map (expire_slot now) slots !! i = Some (Some c)
  <-> slots !! i = Some (Some c) /\ stale now c = false.
Proof.
  rewrite list_lookup_fmap. destruct (slots !! i) as [[d|]|]; cbn.
  - destruct (stale now d) eqn:Ed; split; [done| |intros [= <-]; done|intros [[= ->] _]; done].
    intros [[= ->] ?]. congruence.
  - split; [done|]. by intros [? _].
  - split; [done|]. by intros [? _].
Qed.

Lemma expire_unique now slots : keys_unique slots -> keys_unique (map (expire_slot now) slots).
Proof. intros Hu i j c d [Hi _]%expire_lookup [Hj _]%expire_lookup. by apply Hu. Qed.

Lemma find_key_none key slots c :
  find_slot (slot_has key) slots = None -> holds slots c -> cu_key c <> key.
Proof.
  intros Hn [i Hi] Hk. pose proof (proj1 (find_slot_none _ _) Hn i _ Hi) as H. cbn in H. by bool_to_prop.
Qed.

Lemma find_key_some key slots i :
  find_slot (slot_has key) slots = Some i -> exists c, slots !! i = Some (Some c) /\ cu_key c = key.
Proof.
  intros (s & Hs & Hp & _)%find_slot_spec. destruct s as [c|]; [|done]. cbn in Hp. bool_to_prop. by exists c.
Qed.

Lemma insert_unique slots i c :
  keys_unique slots -> (forall d j, slots !! j = Some (Some d) -> cu_key d = cu_key c -> j = i) ->
  keys_unique (<[i := Some c]> slots).
Proof.
  intros Hu Hn j k d e Hj Hk Hde.
  apply list_lookup_insert_Some in Hj as [(<- & [= <-] & _)|[Hij Hj]];
  apply list_lookup_insert_Some in Hk as [(<- & [= <-] & _)|[Hik Hk]].
  - done.
  - symmetry. by apply (Hn e).
  - by apply (Hn d).
  - by eapply Hu.
Qed.

Lemma holds_insert slots i old c d :
  slots !! i = Some old ->
  holds (<[i := c]> slots) d
  <-> c = Some d \/ (exists j, j <> i /\ slots !! j = Some (Some d)).
Proof.
  intros Hi. split.
  - intros [j [(<- & Hd & _)|[Hij Hj]]%list_lookup_insert_Some]; [by left|right; by exists j].
  - intros [->|(j & Hij & Hj)].
    + exists i. apply list_lookup_insert_eq. by eapply lookup_lt_Some.
    + exists j. by rewrite list_lookup_insert_ne.
Qed.

Lemma alter_insert {A} (g : A -> A) (l : list A) i x : l !! i = Some x -> alter g i l = <[i := g x]> l.
Proof.
  intros Hi. apply list_eq. intros j. destruct (decide (i = j)) as [->|Hij].
  - rewrite list_lookup_alter_eq, Hi, list_lookup_insert_eq; [done|]. by eapply lookup_lt_Some.
  - by rewrite list_lookup_alter_ne, list_lookup_insert_ne.
Qed.

Lemma begin_spec key now slots :
  keys_unique slots ->
  let '(r, slots') := begin_ key now slots in
  keys_unique slots' /\ length slots' = length slots /\
  (forall c, cu_key c <> key -> holds slots' c <-> holds slots c /\ stale now c = false) /\
  match r with
  | Ok n => exists c, holds slots' c /\ cu_key c = key /\ cu_next c = n /\
      ((holds slots c /\ stale now c = false) \/
       (n = 0%nat /\ last_progress_ms c = now /\
        forall d, holds slots d -> cu_key d = key -> stale now d = true))
  | Err e => e = Io "side chunk progress saturated" /\
      forall i s, slots !! i = Some s -> exists c, s = Some c /\ cu_key c <> key /\ stale now c = false
  end.
Proof.
  intros Hu%(expire_unique now). unfold begin_. set (live := map (expire_slot now) slots) in *.
  assert (forall c, holds live c <-> holds slots c /\ stale now c = false) as Hlive.
  { intros c. unfold holds, live. setoid_rewrite expire_lookup. firstorder. }
  assert (length live = length slots) as Hlen by apply length_map.
  destruct (find_slot (slot_has key) live) as [i|] eqn:Ef.
  - pose proof (find_key_some _ _ _ Ef) as (c & Hi & Hk). rewrite Hi.
    split; [done|]. split; [done|]. split; [intros; apply Hlive|].
    exists c. assert (holds live c) as Hc by by exists i. split; [done|]. split; [done|]. split; [done|].
    left. by apply Hlive.
  - destruct (find_slot slot_free live) as [i|] eqn:En.
    + apply find_slot_spec in En as (s & Hs & Hp & _). destruct s; [done|].
      split; [|split; [by rewrite length_insert|split]].
      * apply insert_unique; [done|]. intros d j Hj Hd. exfalso.
        apply (find_key_none key live d Ef); [by exists j|done].
      * intros c Hc. rewrite <- Hlive, (holds_insert _ _ None) by done. split.
        -- intros [[= <-]|(j & _ & Hj)]; [done|by exists j].
        -- intros [j Hj]. right. exists j. split; [intros ->; congruence|done].
      * exists {| cu_key := key; cu_next := 0; last_progress_ms := now |}.
        split; [|split; [done|split; [done|right]]].
        { apply (holds_insert _ _ None); [done|]. by left. }
        split; [done|]. split; [done|]. intros d Hd Hk. destruct (stale now d) eqn:Est; [done|].
        exfalso. apply (find_key_none key live d Ef); [|done]. by apply Hlive.
    + split; [done|]. split; [done|]. split; [intros; apply Hlive|]. split; [done|].
      intros i s Hi. assert (live !! i = Some (expire_slot now s)) as Hl
        by (unfold live; by rewrite list_lookup_fmap, Hi).
      pose proof (proj1 (find_slot_none _ _) En i _ Hl) as Hs.
      destruct (expire_slot now s) as [c|] eqn:Ee; [|done]. exists c.
      assert (holds live c) as Hc by by exists i.
      split; [|split; [by apply (find_key_none key live)|by apply Hlive]].
      destruct s as [d|]; [|done]. cbn in Ee. destruct (stale now d); [done|congruence].
Qed.

Lemma finish_spec key next now res slots :
  keys_unique slots ->
  let slots' := finish key next now res slots in
  keys_unique slots' /\ length slots' = length slots /\
  (forall c, cu_key c <> key -> holds slots' c <-> holds slots c) /\
  forall c, holds slots c -> cu_key c = key ->
    forall d, holds slots' d /\ cu_key d = key <->
      is_io res = true /\ next <> 0%nat /\
      d = {| cu_key := key; cu_next := next;
             last_progress_ms := if (cu_next c <? next)%nat then now else last_progress_ms c |}.
Proof.
  intros Hu. cbv zeta. unfold finish. destruct (find_slot (slot_has key) slots) as [i|] eqn:Ef.
  2: { split; [done|]. split; [done|]. split; [done|]. intros c Hc Hk. exfalso.
       by apply (find_key_none key slots c Ef Hc). }
  pose proof (find_key_some _ _ _ Ef) as (c & Hi & Hk).
  rewrite (alter_insert _ _ _ _ Hi).
  assert (forall d, holds slots d -> cu_key d = key -> d = c) as Hone.
  { intros d [j Hj] Hd. rewrite (Hu j i d c Hj Hi) in Hj by congruence. congruence. }
  assert (forall d j, slots !! j = Some (Some d) -> cu_key d = key -> j = i) as Hat.
  { intros d j Hj Hd. apply (Hu j i d c Hj Hi). congruence. }
  split; [|split; [by rewrite length_insert|split]].
  - destruct (is_ok res || _ || _); [|by apply insert_unique; [|intros d j Hj Hd; apply (Hat d); [|rewrite Hd]]].
    intros j k d e Hj Hk' Hde.
    apply list_lookup_insert_Some in Hj as [(_ & ? & _)|[_ Hj]]; [done|].
    apply list_lookup_insert_Some in Hk' as [(_ & ? & _)|[_ Hk']]; [done|]. by eapply Hu.
  - intros d Hd. rewrite (holds_insert _ _ (Some c)) by done. split.
    + intros [Heq|(j & _ & Hj)]; [|by exists j]. destruct (is_ok res || _ || _); [done|].
      by injection Heq as <-.
    + intros [j Hj]. right. exists j. split; [intros ->; congruence|done].
  - intros c' Hc Hck d. rewrite (Hone c' Hc Hck). clear c' Hc Hck.
    rewrite (holds_insert _ _ (Some c)) by done.
    assert (is_ok res || (next =? 0)%nat || negb (is_io res)
      = negb (is_io res && negb (next =? 0)%nat)) as ->.
    { destruct res as [|[]]; cbn; rewrite ?orb_true_r; try done. by destruct (next =? 0)%nat. }
    assert (is_io res = true /\ next <> 0%nat <-> is_io res && negb (next =? 0)%nat = true) as Hb.
    { rewrite andb_true_iff, negb_true_iff, Nat.eqb_neq. done. }
    rewrite (and_assoc (is_io res = true)), Hb.
    destruct (is_io res && negb (next =? 0)%nat); cbn [negb].
    + rewrite Hk. split.
      * intros [[[= <-]|(j & Hj & Hd)] Hdk]; [done|]. by destruct (Hj (Hat d j Hd Hdk)).
      * intros [_ ->]. split; [by left|done].
    + split; [|by intros [? _]]. intros [[?|(j & Hj & Hd)] Hdk]; [done|]. by destruct (Hj (Hat d j Hd Hdk)).
Qed.

(** At most one cursor per transfer.  [begin] drops exactly the cursors
    whose last progress is more than the timeout ago; it resumes a live transfer
    at its cursor, starts an unknown one at zero, and fails only when every slot
    holds another live transfer.  [finish] changes the transfer's cursor alone:
    an input/output failure after at least one frame keeps it at the new
    position, anything else frees it; so a transfer interrupted at [next] is
    resumed there within the timeout of its last progress. *)
Theorem progress_spec key next now res slots :
  keys_unique slots ->
  (let '(r, slots') := begin_ key now slots in
   keys_unique slots' /\ length slots' = length slots /\
   (forall c, cu_key c <> key -> holds slots' c <-> holds slots c /\ stale now c = false) /\
   match r with
   | Ok n => exists c, holds slots' c /\ cu_key c = key /\ cu_next c = n /\
       ((holds slots c /\ stale now c = false) \/
        (n = 0%nat /\ last_progress_ms c = now /\
         forall d, holds slots d -> cu_key d = key -> stale now d = true))
   | Err e => e = Io "side chunk progress saturated" /\
       forall i s, slots !! i = Some s -> exists c, s = Some c /\ cu_key c <> key /\ stale now c = false
   end) /\
  (let slots' := finish key next now res slots in
   keys_unique slots' /\ length slots' = length slots /\
   (forall c, cu_key c <> key -> holds slots' c <-> holds slots c) /\
   forall c, holds slots c -> cu_key c = key ->
     forall d, holds slots' d /\ cu_key d = key <->
       is_io res = true /\ next <> 0%nat /\
       d = {| cu_key := key; cu_next := next;
              last_progress_ms := if (cu_next c <? next)%nat then now else last_progress_ms c |}).
Proof.
  intros Hu. split; [by apply begin_spec|by apply finish_spec].
Qed.

End SideFrame.

(** ** Concrete transfers *)

(** A transport that accepts [s] frames, then is busy. *)
Definition sample_send (s : nat) (b : bytes) : result unit * nat :=
  match s with O => (Err (Io "busy"), O) | Datatypes.S s => (Ok tt, s) end.

Definition sample_frames : SideTransportFrames :=
  Eval vm_compute in
    match split (str "a frame that is longer than one chunk") 28 (str "GB") with
    | Ok f => f | Err _ => single [] end.

(** Two frames are sent, the third is refused; the next call resumes with it. *)
Example sample_interrupted :
  match send_resuming (recording sample_send) sample_frames 0 (2%nat, []) no_admission with
  | Some (Err (Io _), f, n, (_, sent), adm) =>
      n = 2%nat /\
      match send_resuming (recording sample_send) f n (9%nat, sent) adm with
      | Some (Ok _, _, n, (_, sent), _) =>
          n = 4%nat /\ sent = map (frame_at sample_frames) (seq 0 4)
      | _ => False
      end
  | _ => False
  end.
Proof. vm_compute. repeat split; reflexivity. Qed.

Lemma send_resuming_spec_witness :
  (forall f s adm, send_resuming (recording sample_send) sample_frames 1 (2%nat, []) no_admission
    = Some (Ok tt, f, 3%nat, s, adm) -> False) /\
  concat (map (chunk_payload sample_frames) (seq 0 4)) = str "a frame that is longer than one chunk".
Proof.
  destruct (send_resuming_spec sample_send sample_frames 1 2%nat [] no_admission
    (str "a frame that is longer than one chunk") 28 (str "GB"))
    as [(res & f' & n' & s' & adm' & H & Hn & Hr & _) Hs].
  - cbn. lia.
  - split.
    + intros f s adm Hx. rewrite H in Hx. injection Hx as -> _ -> _ _.
      apply proj1 in Hr. specialize (Hr eq_refl). discriminate.
    + apply Hs. vm_compute. reflexivity.
Defined.

Lemma progress_spec_witness :
  fst (begin_ 7 5000 (finish 7 3 4000 (Err (Io "busy")) (snd (begin_ 7 1000 progress_default))))
  = Ok 3%nat /\
  keys_unique (snd (begin_ 7 1000 progress_default)).
Proof.
  split; [vm_compute; reflexivity|].
  apply (progress_spec 7 0 1000 (Ok tt) progress_default). intros i j c d Hi.
  apply lookup_replicate in Hi as [Hi _]. discriminate.
Defined.
