(* ===== verification/OrdMap.v ===== *)
(** * Ordered maps

    A [BTreeMap] with integer keys as a [gmap] whose iteration is in the order of
    its keys: the entries in that order and the entry with the least key. *)

From Stdlib Require Import Sorting.Sorted.
From stdpp Require Import sorting.
From stdpp Require Export gmap.
From S2P Require Import Prelude.

Open Scope Z_scope.

Definition key_le {A} (x y : Z * A) : Prop := fst x <= fst y.

#[export] Instance key_le_dec {A} : RelDecision (@key_le A).
Proof. intros x y. unfold key_le. apply _. Defined.

#[export] Instance key_le_total {A} : Total (@key_le A).
Proof. intros x y. unfold key_le. lia. Qed.

#[export] Instance key_le_trans {A} : Transitive (@key_le A).
Proof. intros x y z. unfold key_le. lia. Qed.

(** The entries of a [BTreeMap] in the order it iterates them. *)
Definition entries {A} (m : gmap Z A) : list (Z * A) := merge_sort key_le (map_to_list m).

(** [first_key_value], [keys().next()]. *)
Definition first_entry {A} (m : gmap Z A) : option (Z * A) := head (entries m).

(** ** Laws *)

Lemma entries_perm {A} (m : gmap Z A) : entries m ≡ₚ map_to_list m.
Proof. apply merge_sort_Permutation. Qed.

Lemma entries_lookup {A} (m : gmap Z A) k a : (k, a) ∈ entries m <-> m !! k = Some a.
Proof. rewrite entries_perm. apply elem_of_map_to_list. Qed.

Lemma entries_sorted {A} (m : gmap Z A) : StronglySorted key_le (entries m).
Proof. apply StronglySorted_merge_sort; apply _. Qed.

Lemma delete_size {A} (m : gmap Z A) k a : m !! k = Some a -> size m = S (size (delete k m)).
Proof.
  intros H. rewrite <- (insert_delete_id m k a H) at 1. apply map_size_insert_None, lookup_delete_eq.
Qed.

Lemma entries_empty {A} : entries (∅ : gmap Z A) = [].
Proof. done. Qed.

(** The first entry is one with the least key. *)
Lemma first_entry_some {A} (m : gmap Z A) k a :
  first_entry m = Some (k, a) <-> m !! k = Some a /\ forall k' a', m !! k' = Some a' -> k <= k'.
Proof.
  unfold first_entry. pose proof (entries_sorted m) as Hs. pose proof (entries_lookup m) as Hl.
  destruct (entries m) as [|[k0 a0] l]; cbn [head].
  - split; [done|]. intros [Hk _]. apply Hl in Hk. by apply not_elem_of_nil in Hk.
  - apply StronglySorted_inv in Hs as [_ Hall]. rewrite Forall_forall in Hall.
    assert (m !! k0 = Some a0) as H0 by (apply Hl; by left).
    assert (forall k' a', m !! k' = Some a' -> k0 <= k') as Hmin.
    { intros k' a' Hk'. apply Hl in Hk'. apply elem_of_cons in Hk' as [[= -> ->]|Hin]; [done|].
      apply (Hall _ Hin). }
    split; [by intros [= <- <-]|]. intros [Hk Hle].
    assert (k = k0) as -> by (pose proof (Hmin _ _ Hk); pose proof (Hle _ _ H0); lia). congruence.
Qed.

Lemma first_entry_none {A} (m : gmap Z A) : first_entry m = None <-> m = ∅.
Proof.
  split; [|by intros ->]. unfold first_entry. pose proof (entries_lookup m) as Hl.
  destruct (entries m) as [|e l] eqn:Ee; [|done]. intros _. apply map_empty. intros k.
  destruct (m !! k) as [a|] eqn:Ea; [|done]. apply Hl in Ea. by apply not_elem_of_nil in Ea.
Qed.
