(* ===== verification/SideAssembly.v ===== *)
(** * Reassembly of chunked frames ([SideChunkAssembly] of src/src/side_transport.rs)

    The partial transfers a side retains: one bounded vector of descriptors per
    transfer, the bytes charged for them, the eviction and expiry of transfers,
    and the assembly of a complete one.  [SideReceive] puts them into the router:
    the expiry at every frame, the shared budget and the admission of a fragment.

    A reservation of exact capacity gets that capacity; the failure of an
    allocation is not modelled, its admission check is. *)

From Stdlib Require Import Sorting.Sorted.
From S2P Require Import Prelude OrdMap Schema Packet MemoryAdmission WireEnv WireSample WireReader WireFrame.
From S2P Require Import SideFrame.

Open Scope Z_scope.

(** ** One transfer *)

Record SideChunkAssembly : Type := {
  last_seen_ms : Z;
  asm_total : Z;
  received : list (option bytes);
  received_count : Z;
}.

Definition asm_default : SideChunkAssembly :=
  {| last_seen_ms := 0; asm_total := 0; received := []; received_count := 0 |}.

Definition FRAGMENT_OVERHEAD : Z := 48.
(** [size_of::<Option<Arc<[u8]>>>()]. *)
Definition DESCRIPTOR_SIZE : Z := 16.

Definition descriptor_bytes (total : Z) : Z := sat_mul total DESCRIPTOR_SIZE.

Definition contains_index (a : SideChunkAssembly) (index : nat) : bool :=
  match received a !! index with Some (Some _) => true | _ => false end.

(** [received.iter().flatten()]. *)
Definition present (l : list (option bytes)) : list bytes := omap id l.

Fixpoint sum_lengths (l : list bytes) : Z :=
  match l with [] => 0 | b :: l => zlen b + sum_lengths l end.

Definition byte_cost (a : SideChunkAssembly) : Z :=
  sat_add (sat_add (sum_lengths (present (received a)))
                   (sat_mul (received_count a) FRAGMENT_OVERHEAD))
          (sat_mul (zlen (received a)) DESCRIPTOR_SIZE).

Definition fragment_cost (len descriptor_cost : Z) : Z :=
  sat_add (sat_add len FRAGMENT_OVERHEAD) descriptor_cost.

Definition insert_with (a : SideChunkAssembly) (index : nat) (now : Z) (make : bytes) (adm : Admission)
    : result Z * SideChunkAssembly * Admission :=
  if asm_total a <=? Z.of_nat index then (Err (Unpack "invalid side chunk index"), a, adm)
  else if negb (is_empty (received a)) && negb (zlen (received a) =? asm_total a)
  then (Err (Unpack "side chunk total changed"), a, adm)
  else if contains_index a index then (Ok 0, a, adm)
  else
    let store (a : SideChunkAssembly) (descriptor_cost : Z) :=
      (Ok (fragment_cost (zlen make) descriptor_cost),
       {| last_seen_ms := now; asm_total := asm_total a;
          received := <[index := Some make]> (received a);
          received_count := received_count a + 1 |}) in
    if is_empty (received a) then
      let descriptor_cost := descriptor_bytes (asm_total a) in
      match check (sat_add descriptor_cost 128) (sat_add descriptor_cost 32) adm with
      | (Err e, adm) => (Err e, a, adm)
      | (Ok _, adm) =>
          (store {| last_seen_ms := last_seen_ms a; asm_total := asm_total a;
                    received := replicate (Z.to_nat (asm_total a)) None;
                    received_count := received_count a |} descriptor_cost, adm)
      end
    else (store a 0, adm).

(** *** Assembly *)

Definition div_ceil_z (a b : Z) : Z := (a + b - 1) / b.

(** [append]: the output and its capacity. *)
Definition append_with (len step : Z) (out : bytes) (cap : Z) (b : bytes) (adm : Admission)
    : result (bytes * Z) * Admission :=
  let end_ := sat_add (zlen out) (zlen b) in
  if cap <? end_ then
    let target := Z.min (sat_mul (div_ceil_z end_ step) step) len in
    match check (Z.max (sat_add target 128) 1024) (sat_add target 32) adm with
    | (Err e, adm) => (Err e, adm)
    | (Ok _, adm) => (Ok (out ++ b, zlen out + (target - zlen out)), adm)
    end
  else (Ok (out ++ b, cap), adm).

(** Up to two small fragments go through the scratch buffer of 256 bytes. *)
Fixpoint assemble_loop (len step : Z) (fragments : list (option bytes)) (out : bytes) (cap : Z)
    (adm : Admission) : result bytes * Admission :=
  match fragments with
  | [] => (Ok out, adm)
  | None :: _ => (Err (Unpack "side chunk gap"), adm)
  | Some chunk :: rest =>
      let alone :=
        match append_with len step out cap chunk adm with
        | (Err e, adm) => (Err e, adm)
        | (Ok (out, cap), adm) => assemble_loop len step rest out cap adm
        end in
      if zlen chunk <=? 256 then
        match rest with
        | Some next :: rest' =>
            if zlen next <=? 256 - zlen chunk then
              match append_with len step out cap (chunk ++ next) adm with
              | (Err e, adm) => (Err e, adm)
              | (Ok (out, cap), adm) => assemble_loop len step rest' out cap adm
              end
            else alone
        | _ => alone
        end
      else alone
  end.

Fixpoint sum_checked (l : list bytes) (n : Z) : option Z :=
  match l with
  | [] => Some n
  | b :: l => match checked_add n (zlen b) with Some n => sum_checked l n | None => None end
  end.

Definition assemble (a : SideChunkAssembly) (adm : Admission) : result bytes * Admission :=
  if negb (received_count a =? asm_total a) then (Err (Unpack "side chunk gap"), adm)
  else match sum_checked (present (received a)) 0 with
  | None => (Err (PacketTooLarge "side chunk size overflow"), adm)
  | Some len =>
      let step := Z.max (div_ceil_z len 8) 128 in
      match check (sat_add len 512) (sat_add len 32) adm with
      | (Ok _, adm) => assemble_loop len step (received a) [] len adm
      | (Err (Io m), adm) =>
          if decide (m = "memory pressure") then assemble_loop len step (received a) [] 0 adm
          else (Err (Io m), adm)
      | (Err e, adm) => (Err e, adm)
      end
  end.

(** ** The transfers of a side *)

Abbreviation Chunks := (gmap Z SideChunkAssembly).

Fixpoint oldest_loop (keep : option Z) (l : list (Z * SideChunkAssembly)) (victim : option Z) (time : Z)
    : option (Z * Z) :=
  match l with
  | [] => match victim with Some id => Some (id, time) | None => None end
  | (id, a) :: l =>
      if negb (bool_decide (keep = Some id))
         && (match victim with None => true | Some _ => last_seen_ms a <? time end)
      then oldest_loop keep l (Some id) (last_seen_ms a)
      else oldest_loop keep l victim time
  end.

Definition oldest (chunks : Chunks) (keep : option Z) : option (Z * Z) :=
  oldest_loop keep (entries chunks) None u64_max.

Definition remove (chunks : Chunks) (buffered : Z) (id : Z)
    : option SideChunkAssembly * Chunks * Z :=
  match chunks !! id with
  | None => (None, chunks, buffered)
  | Some a => (Some a, delete id chunks, sat_sub buffered (byte_cost a))
  end.

Definition ASSEMBLY_TIMEOUT_MS : Z := 2000.

Definition asm_stale (now : Z) (a : SideChunkAssembly) : bool :=
  ASSEMBLY_TIMEOUT_MS <? sat_sub now (last_seen_ms a).

(** The first stale transfer, in the order of the map. *)
Definition first_stale (now : Z) (chunks : Chunks) : option Z :=
  option_map fst (List.find (fun e => asm_stale now (snd e)) (entries chunks)).

(** The [while let] of [expire]; [None] only without fuel. *)
Fixpoint expire_loop (fuel : nat) (now : Z) (chunks : Chunks) (buffered reclaimed : Z)
    : option (Z * Chunks * Z) :=
  match fuel with
  | O => None
  | S fuel =>
      match first_stale now chunks with
      | None => Some (reclaimed, chunks, buffered)
      | Some id =>
          let '(_, chunks, buffered) := remove chunks buffered id in
          expire_loop fuel now chunks buffered (Z.min u32_max (reclaimed + 1))
      end
  end.

Definition expire (chunks : Chunks) (buffered now : Z) : option (Z * Chunks * Z) :=
  expire_loop (S (size chunks)) now chunks buffered 0.

Fixpoint room_loop (fuel : nat) (transfer cost budget : Z) (chunks : Chunks) (buffered : Z)
    : option (result Z * Chunks * Z) :=
  match fuel with
  | O => None
  | S fuel =>
      if budget <? sat_add buffered cost then
        match oldest chunks (Some transfer) with
        | None =>
            let '(_, chunks, buffered) := remove chunks buffered transfer in
            Some (Err (PacketTooLarge "side chunk receive budget"), chunks, buffered)
        | Some (victim, _) =>
            let '(_, chunks, buffered) := remove chunks buffered victim in
            room_loop fuel transfer cost budget chunks buffered
        end
      else Some (Ok cost, chunks, buffered)
  end.

Definition no_descriptors (chunks : Chunks) (transfer : Z) : bool :=
  match chunks !! transfer with None => true | Some a => is_empty (received a) end.

Definition make_room (chunks : Chunks) (buffered transfer : Z) (index : nat) (total payload_len budget : Z)
    : option (result Z * Chunks * Z) :=
  let descriptor_cost := if no_descriptors chunks transfer then descriptor_bytes total else 0 in
  let cost := fragment_cost payload_len descriptor_cost in
  if (budget / 64 <? total) || (budget <? cost) then
    let '(_, chunks, buffered) := remove chunks buffered transfer in
    Some (Err (PacketTooLarge "side chunk receive budget"), chunks, buffered)
  else if match chunks !! transfer with Some a => contains_index a index | None => false end
  then Some (Ok 0, chunks, buffered)
  else room_loop (S (size chunks)) transfer cost budget chunks buffered.

(** ** Receiving a chunk *)

Definition parse_chunk_body (body : bytes) : result (Z * nat * Z * bytes) :=
  if (length body <? 8)%nat then Err (Unpack "short side chunk frame")
  else
    let transfer := from_le (take 4 body) in
    let index := from_le (take 2 (drop 4 body)) in
    let total := from_le (take 2 (drop 6 body)) in
    if (total =? 0) || (total <=? index) then Err (Unpack "invalid side chunk index")
    else Ok (transfer, Z.to_nat index, total, drop 8 body).

(** What a side keeps of its partial transfers. *)
Record RxChunks : Type := {
  rx_chunks : Chunks;
  rx_chunk_bytes : Z;
  rx_chunk_reclaims : Z;
}.

Definition rx_default : RxChunks := {| rx_chunks := ∅; rx_chunk_bytes := 0; rx_chunk_reclaims := 0 |}.

Definition take_chunk (id : Z) (reclaimed : bool) (rx : RxChunks)
    : option SideChunkAssembly * RxChunks :=
  match remove (rx_chunks rx) (rx_chunk_bytes rx) id with
  | (None, chunks, buffered) =>
      (None, {| rx_chunks := chunks; rx_chunk_bytes := buffered; rx_chunk_reclaims := rx_chunk_reclaims rx |})
  | (Some a, chunks, buffered) =>
      (Some a, {| rx_chunks := chunks; rx_chunk_bytes := buffered;
                  rx_chunk_reclaims := if reclaimed then Z.min u32_max (rx_chunk_reclaims rx + 1)
                                       else rx_chunk_reclaims rx |})
  end.

(** The chunk is stored, and a complete transfer taken out and assembled. *)
Definition store_chunk (transfer : Z) (index : nat) (total : Z) (payload : bytes) (now : Z)
    (rx : RxChunks) (adm : Admission) : result (option bytes) * RxChunks * Admission :=
  let entry := default asm_default (rx_chunks rx !! transfer) in
  let entry := {| last_seen_ms := last_seen_ms entry; asm_total := total;
                  received := received entry; received_count := received_count entry |} in
  let '(added, entry, adm) := insert_with entry index now payload adm in
  let rx := {| rx_chunks := <[transfer := entry]> (rx_chunks rx);
               rx_chunk_bytes := rx_chunk_bytes rx; rx_chunk_reclaims := rx_chunk_reclaims rx |} in
  match added with
  | Err e => (Err e, rx, adm)
  | Ok added =>
      let rx := {| rx_chunks := rx_chunks rx; rx_chunk_bytes := sat_add (rx_chunk_bytes rx) added;
                   rx_chunk_reclaims := rx_chunk_reclaims rx |} in
      if received_count entry =? total then
        match take_chunk transfer false rx with
        | (None, rx) => (Err (Unpack "side chunk missing"), rx, adm)
        | (Some entry, rx) =>
            match assemble entry adm with
            | (Ok frame, adm) => (Ok (Some frame), rx, adm)
            | (Err e, adm) =>
                (Err e, {| rx_chunks := rx_chunks rx; rx_chunk_bytes := rx_chunk_bytes rx;
                           rx_chunk_reclaims := Z.min u32_max (rx_chunk_reclaims rx + 1) |}, adm)
            end
        end
      else (Ok None, rx, adm)
  end.

(** The part of [make_side_chunk_room] that concerns the side's own transfers;
    [budget] is what the router leaves to them. *)
Definition side_chunk_room (transfer : Z) (index : nat) (total payload_len budget : Z) (rx : RxChunks)
    : option (result Z * RxChunks) :=
  let existing := rx_chunks rx !! transfer in
  if match existing with
     | Some a => negb (asm_total a =? 0) && negb (asm_total a =? total)
     | None => false
     end
  then Some (Err (Unpack "side chunk total mismatch"), snd (take_chunk transfer true rx))
  else
    match make_room (rx_chunks rx) (rx_chunk_bytes rx) transfer index total payload_len budget with
    | None => None
    | Some (room, chunks, buffered) =>
        let before := size (rx_chunks rx) in
        let rx := {| rx_chunks := chunks; rx_chunk_bytes := buffered;
                     rx_chunk_reclaims :=
                       Z.min u32_max (rx_chunk_reclaims rx + Z.of_nat (before - size chunks)) |} in
        Some (match room with
        | Err e => (Err e, rx)
        | Ok cost =>
            if cost =? 0 then (Ok 0, rx)
            else if match existing with None => (4 <=? size chunks)%nat | Some _ => false end then
              match oldest chunks None with
              | Some (id, _) => (Ok cost, snd (take_chunk id true rx))
              | None => (Ok cost, rx)
              end
            else (Ok cost, rx)
        end)
    end.

(** ** Costs *)

Lemma sum_lengths_concat l : sum_lengths l = zlen (concat l).
Proof. induction l as [|b l IH]; [done|]. cbn [sum_lengths concat]. by rewrite zlen_app, IH. Qed.

Definition raw_cost (a : SideChunkAssembly) : Z :=
  zlen (concat (present (received a))) + received_count a * 48 + zlen (received a) * 16.

(** The shape of a retained transfer. *)
Record asm_ok (a : SideChunkAssembly) : Prop := {
  ao_total : is_u16 (asm_total a);
  ao_length : received a = [] \/ zlen (received a) = asm_total a;
  ao_count : received_count a = zlen (present (received a));
}.

Lemma present_le l : zlen (present l) <= zlen l.
Proof.
  unfold zlen. induction l as [|[b|] l IH]; [done| |]; cbn [present omap list_omap id length] in *;
  unfold present in IH; cbn in *; lia.
Qed.

Lemma byte_cost_raw a : asm_ok a -> byte_cost a = Z.min u64_max (raw_cost a).
Proof.
  intros [_ _ Hc]. unfold byte_cost, raw_cost, FRAGMENT_OVERHEAD, DESCRIPTOR_SIZE, sat_add, sat_mul.
  rewrite sum_lengths_concat. pose proof (zlen_nonneg (present (received a))).
  pose proof (zlen_nonneg (concat (present (received a)))). pose proof (zlen_nonneg (received a)).
  unfold_u. lia.
Qed.

Lemma byte_cost_nonneg a : asm_ok a -> 0 <= byte_cost a.
Proof.
  intros Ha. rewrite byte_cost_raw by done. unfold raw_cost. rewrite (ao_count a Ha).
  pose proof (zlen_nonneg (present (received a))).
  pose proof (zlen_nonneg (concat (present (received a)))). pose proof (zlen_nonneg (received a)).
  unfold_u. lia.
Qed.

(** What the transfers of a map cost. *)
Definition total_cost (m : Chunks) : Z := map_fold (fun _ a n => byte_cost a + n) 0 m.

Lemma total_cost_insert m k a :
  m !! k = None -> total_cost (<[k := a]> m) = byte_cost a + total_cost m.
Proof.
  intros Hk. unfold total_cost. rewrite map_fold_insert_L; [done| |done]. intros. lia.
Qed.

Lemma total_cost_delete m k a :
  m !! k = Some a -> total_cost m = byte_cost a + total_cost (delete k m).
Proof.
  intros Hk. rewrite <- (insert_delete_id m k a Hk) at 1. apply total_cost_insert. apply lookup_delete_eq.
Qed.

Lemma chunks_cost_nonneg m : map_Forall (fun _ => asm_ok) m -> 0 <= total_cost m.
Proof.
  induction m as [|k a m Hk IH] using map_ind; intros Hm; [done|].
  rewrite total_cost_insert by done. apply map_Forall_insert in Hm as [Ha Hm]; [|done].
  pose proof (byte_cost_nonneg a Ha). pose proof (IH Hm). lia.
Qed.

(** The accounting invariant of a side. *)
Record chunks_ok (m : Chunks) (buffered : Z) : Prop := {
  co_asm : map_Forall (fun _ => asm_ok) m;
  co_bytes : buffered = total_cost m;
  co_max : buffered <= u64_max;
}.

Lemma remove_spec m buffered k :
  chunks_ok m buffered ->
  remove m buffered k = (m !! k, delete k m, total_cost (delete k m)) /\
  chunks_ok (delete k m) (total_cost (delete k m)).
Proof.
  intros [Ha -> Hm]. unfold remove. destruct (m !! k) as [a|] eqn:Ek.
  - assert (map_Forall (fun _ => asm_ok) (delete k m)) as Hd by by apply map_Forall_delete.
    pose proof (chunks_cost_nonneg _ Hd). pose proof (byte_cost_nonneg a (Ha k a Ek)).
    rewrite (total_cost_delete _ _ _ Ek) in Hm |- *. split; [|split; [done|done|lia]].
    rewrite sat_sub_le by lia. f_equal. lia.
  - by rewrite delete_id.
Qed.

(** ** The oldest transfer *)

Lemma oldest_loop_spec keep l victim time :
  StronglySorted key_le l ->
  (forall v, victim = Some v -> forall e, e ∈ l -> v <= fst e) ->
  match oldest_loop keep l victim time with
  | None => victim = None /\ forall id a, (id, a) ∈ l -> keep = Some id
  | Some (id, t) =>
      ((victim = Some id /\ t = time) \/
       (keep <> Some id /\ exists a, (id, a) ∈ l /\ last_seen_ms a = t)) /\
      (forall v, victim = Some v -> t < time \/ t = time /\ id = v) /\
      forall id' a, (id', a) ∈ l -> keep <> Some id' ->
        t < last_seen_ms a \/ (t = last_seen_ms a /\ id <= id')
  end.
Proof.
  revert victim time. induction l as [|[k a] l IH]; intros victim time Hs Hv; cbn [oldest_loop].
  { destruct victim as [v|].
    - split; [by left|]. split; [intros w [= <-]; by right|]. intros ? ? []%not_elem_of_nil.
    - split; [done|]. intros ? ? []%not_elem_of_nil. }
  apply StronglySorted_inv in Hs as [Hs Hall]. rewrite Forall_forall in Hall.
  assert (forall id' a', (id', a') ∈ (k, a) :: l <-> (id' = k /\ a' = a) \/ (id', a') ∈ l) as Hin.
  { intros id' a'. rewrite elem_of_cons. split; [intros [[= -> ->]|]; auto|]. intros [[-> ->]|]; auto. }
  case_bool_decide as Hk; cbn [negb andb].
  - specialize (IH victim time Hs). destruct (oldest_loop keep l victim time) as [[id t]|].
    + destruct IH as (H1 & H2 & H3); [intros v Hvv e He; apply Hv; [done|]; apply elem_of_cons; auto|].
      split; [destruct H1 as [?|(? & b & ? & ?)]; [by left|right; split; [done|exists b; rewrite Hin; auto]]|].
      split; [done|]. intros id' a' [[-> ->]|Ha]%Hin Hne; [done|]. by apply H3.
    + destruct IH as (H1 & H2); [intros v Hvv e He; apply Hv; [done|]; apply elem_of_cons; auto|].
      split; [done|]. intros id' a' [[-> ->]|Ha]%Hin; [done|]. by eapply H2.
  - destruct (match victim with None => true | Some _ => last_seen_ms a <? time end) eqn:Eb.
    + specialize (IH (Some k) (last_seen_ms a) Hs).
      destruct (oldest_loop keep l (Some k) (last_seen_ms a)) as [[id t]|].
      2: { destruct IH as [? _]; [|done]. intros v [= <-] e He. by apply (Hall e). }
      destruct IH as (H1 & H2 & H3); [intros v [= <-] e He; by apply (Hall e)|].
      split; [right; destruct H1 as [[[= <-] ->]|(? & b & ? & ?)]|].
      * split; [done|]. exists a. rewrite Hin. auto.
      * split; [done|]. exists b. rewrite Hin. auto.
      * split; [intros v ->; bool_to_prop; destruct (H2 k eq_refl); lia|].
        intros id' a' [[-> ->]|Ha]%Hin Hne; [|by apply H3].
        destruct (H2 k eq_refl) as [?|[? ->]]; [by left|right; lia].
    + destruct victim as [v|]; [|done]. specialize (IH (Some v) time Hs).
      destruct (oldest_loop keep l (Some v) time) as [[id t]|].
      2: { destruct IH as [? _]; [|done]. intros w Hw e He. apply Hv; [done|]. apply elem_of_cons; auto. }
      destruct IH as (H1 & H2 & H3); [intros w Hw e He; apply Hv; [done|]; apply elem_of_cons; auto|].
      split; [destruct H1 as [?|(? & b & ? & ?)]; [by left|right; split; [done|exists b; rewrite Hin; auto]]|].
      split; [done|]. intros id' a' [[-> ->]|Ha]%Hin Hne; [|by apply H3].
      bool_to_prop. destruct (H2 v eq_refl) as [?|[-> ->]]; [left; lia|].
      destruct (Z.eq_dec time (last_seen_ms a)); [right|left; lia]. split; [done|].
      apply (Hv v eq_refl (k, a)). apply elem_of_cons. auto.
Qed.

(** The least recently extended transfer other than [keep], ties to the least
    identifier. *)
Lemma oldest_some m keep id t :
  oldest m keep = Some (id, t) ->
  keep <> Some id /\ exists a, m !! id = Some a /\ last_seen_ms a = t /\
  forall id' a', m !! id' = Some a' -> keep <> Some id' ->
    t < last_seen_ms a' \/ (t = last_seen_ms a' /\ id <= id').
Proof.
  intros Ho. pose proof (oldest_loop_spec keep (entries m) None u64_max (entries_sorted m)) as H.
  unfold oldest in Ho. rewrite Ho in H. destruct H as (H1 & _ & H3); [done|].
  destruct H1 as [[? _]|(Hk & a & Ha & Ht)]; [done|]. split; [done|]. exists a.
  split; [by apply entries_lookup|]. split; [done|]. intros id' a' Ha'%entries_lookup. by apply H3.
Qed.

Lemma oldest_none m keep : oldest m keep = None -> forall id a, m !! id = Some a -> keep = Some id.
Proof.
  intros Ho. pose proof (oldest_loop_spec keep (entries m) None u64_max (entries_sorted m)) as H.
  unfold oldest in Ho. rewrite Ho in H. destruct H as (_ & H); [done|].
  intros id a Ha%entries_lookup. by eapply H.
Qed.

(** ** Expiry *)

Definition fresh (now : Z) (m : Chunks) : Chunks := filter (fun e => asm_stale now (snd e) = false) m.

Lemma first_stale_some now m id :
  first_stale now m = Some id -> exists a, m !! id = Some a /\ asm_stale now a = true.
Proof.
  unfold first_stale. destruct (List.find _ _) as [[k a]|] eqn:Ef; [|done]. intros [= <-].
  apply List.find_some in Ef as [Hin Hs]. exists a. split; [|done].
  apply entries_lookup. by apply list_elem_of_In.
Qed.

Lemma first_stale_none now m : first_stale now m = None -> fresh now m = m.
Proof.
  unfold first_stale. destruct (List.find _ _) as [[k a]|] eqn:Ef; [done|]. intros _.
  apply map_filter_id. intros k a Hm%entries_lookup. cbn.
  apply (List.find_none _ _ Ef (k, a)). by apply list_elem_of_In.
Qed.

Lemma fresh_delete now m id a :
  m !! id = Some a -> asm_stale now a = true -> fresh now (delete id m) = fresh now m.
Proof.
  intros Hm Hs. unfold fresh. rewrite map_filter_delete. apply delete_id.
  apply map_lookup_filter_None. right. intros b Hb. rewrite Hm in Hb. injection Hb as <-. cbn. congruence.
Qed.

Lemma expire_loop_spec fuel now m buffered n :
  chunks_ok m buffered -> (size m < fuel)%nat -> 0 <= n <= u32_max ->
  expire_loop fuel now m buffered n
  = Some (Z.min u32_max (n + (Z.of_nat (size m) - Z.of_nat (size (fresh now m)))), fresh now m,
          total_cost (fresh now m)) /\
  chunks_ok (fresh now m) (total_cost (fresh now m)).
Proof.
  revert m buffered n. induction fuel as [|fuel IH]; intros m buffered n Hm Hf Hn; [lia|].
  cbn [expire_loop]. destruct (first_stale now m) as [id|] eqn:Ef.
  - apply first_stale_some in Ef as (a & Ha & Hs).
    destruct (remove_spec m buffered id Hm) as [-> Hd].
    pose proof (delete_size m id a Ha) as Hsz.
    destruct (IH _ _ (Z.min u32_max (n + 1)) Hd) as [-> Hok]; [lia|solve_u|].
    rewrite (fresh_delete _ _ _ _ Ha Hs) in Hok |- *. split; [|done]. do 3 f_equal.
    assert (size (fresh now m) <= size (delete id m))%nat.
    { rewrite <- (fresh_delete now m id a Ha Hs). apply map_size_filter. }
    unfold_u. lia.
  - rewrite (first_stale_none _ _ Ef). split.
    + do 3 f_equal; [unfold_u; lia|apply co_bytes, Hm].
    + rewrite <- (co_bytes _ _ Hm). done.
Qed.

(** ** Room for a fragment *)

Definition own_cost (m : Chunks) (transfer : Z) : Z :=
  match m !! transfer with Some a => byte_cost a | None => 0 end.

(** The transfers other than [keep] that are gone were no younger than those
    that remain. *)
Definition evicts_oldest (keep : Z) (m m' : Chunks) : Prop :=
  forall id a id' a', m !! id = Some a -> m' !! id = None -> m' !! id' = Some a' -> id' <> keep ->
    last_seen_ms a <= last_seen_ms a'.

Lemma only_own m transfer :
  (forall id a, m !! id = Some a -> Some transfer = Some id) -> total_cost m = own_cost m transfer.
Proof.
  intros H. unfold own_cost. destruct (m !! transfer) as [a|] eqn:Ea.
  - rewrite (total_cost_delete _ _ _ Ea). assert (delete transfer m = ∅) as ->.
    { apply map_empty. intros id. destruct (decide (id = transfer)) as [->|Hne]; [apply lookup_delete_eq|].
      rewrite lookup_delete_ne by done. destruct (m !! id) as [b|] eqn:Eb; [|done].
      apply H in Eb. congruence. }
    change (total_cost ∅) with 0. lia.
  - assert (m = ∅) as ->; [|done]. apply map_empty. intros id.
    destruct (m !! id) as [b|] eqn:Eb; [|done]. pose proof (H id b Eb). congruence.
Qed.

Lemma room_loop_spec fuel transfer cost budget m buffered :
  chunks_ok m buffered -> (size m < fuel)%nat ->
  exists r m' buffered',
    room_loop fuel transfer cost budget m buffered = Some (r, m', buffered') /\
    chunks_ok m' buffered' /\ m' ⊆ m /\ (m' = m \/ budget < sat_add buffered cost) /\
    match r with
    | Ok c => c = cost /\ sat_add buffered' cost <= budget /\ m' !! transfer = m !! transfer /\
              evicts_oldest transfer m m'
    | Err e => e = PacketTooLarge "side chunk receive budget" /\ m' !! transfer = None /\
               budget < sat_add (own_cost m transfer) cost
    end.
Proof.
  revert m buffered. induction fuel as [|fuel IH]; intros m buffered Hm Hf; [lia|]. cbn [room_loop].
  destruct (Z.ltb_spec budget (sat_add buffered cost)) as [Hlt|Hge].
  2: { exists (Ok cost), m, buffered. split; [done|]. split; [done|]. split; [done|]. split; [by left|].
       split; [done|]. split; [done|]. split; [done|]. intros id a id' a' H1 H2. congruence. }
  destruct (oldest m (Some transfer)) as [[victim t]|] eqn:Eo.
  - apply oldest_some in Eo as (Hv & a & Ha & Ht & Hmin).
    destruct (remove_spec m buffered victim Hm) as [-> Hd].
    pose proof (delete_size m victim a Ha) as Hsz.
    assert (delete victim m !! transfer = m !! transfer) as Ht'.
    { apply lookup_delete_ne. intros ->. done. }
    destruct (IH _ _ Hd ltac:(lia)) as (r & m' & b' & -> & Hok & Hsub & _ & Hr).
    exists r, m', b'. split; [done|]. split; [done|].
    split; [etransitivity; [done|apply delete_subseteq]|]. split; [by right|].
    unfold own_cost in *. rewrite Ht' in Hr. destruct r as [c|e]; [|done].
    destruct Hr as (-> & Hb & Hk & Hev). split; [done|]. split; [done|]. split; [done|].
    intros id b id' b2 Hid Hn Hid' Hne. destruct (decide (id = victim)) as [->|Hnv].
    + rewrite Ha in Hid. injection Hid as <-.
      assert (m !! id' = Some b2) as Hm' by (eapply lookup_weaken; [done|]; etransitivity; [exact Hsub|apply delete_subseteq]).
      destruct (Hmin id' b2 Hm') as [?|[? _]]; [congruence|lia|lia].
    + apply (Hev id b id' b2); [|done..]. by rewrite lookup_delete_ne.
  - destruct (remove_spec m buffered transfer Hm) as [-> Hd].
    exists (Err (PacketTooLarge "side chunk receive budget")), (delete transfer m), (total_cost (delete transfer m)).
    split; [done|]. split; [done|]. split; [apply delete_subseteq|]. split; [by right|]. split; [done|].
    split; [apply lookup_delete_eq|].
    rewrite <- (only_own m transfer (oldest_none _ _ Eo)), <- (co_bytes _ _ Hm). done.
Qed.

Definition room_cost (m : Chunks) (transfer total payload_len : Z) : Z :=
  fragment_cost payload_len (if no_descriptors m transfer then descriptor_bytes total else 0).

Definition retained (m : Chunks) (transfer : Z) (index : nat) : bool :=
  match m !! transfer with Some a => contains_index a index | None => false end.

Lemma make_room_ok m buffered transfer index total payload_len budget :
  chunks_ok m buffered ->
  let cost := room_cost m transfer total payload_len in
  exists r m' buffered',
    make_room m buffered transfer index total payload_len budget = Some (r, m', buffered') /\
    chunks_ok m' buffered' /\ m' ⊆ m /\
    match r with
    | Ok c =>
        m' !! transfer = m !! transfer /\ total <= budget / 64 /\ cost <= budget /\
        if retained m transfer index then c = 0 /\ m' = m
        else c = cost /\ sat_add buffered' cost <= budget /\ evicts_oldest transfer m m' /\
             (m' = m \/ budget < sat_add buffered cost)
    | Err e =>
        e = PacketTooLarge "side chunk receive budget" /\ m' !! transfer = None /\
        (budget / 64 < total \/ budget < cost \/
         (retained m transfer index = false /\ budget < sat_add (own_cost m transfer) cost))
    end.
Proof.
  intros Hm. cbv zeta. unfold make_room. fold (room_cost m transfer total payload_len).
  fold (retained m transfer index).
  set (cost := room_cost m transfer total payload_len).
  destruct ((budget / 64 <? total) || (budget <? cost)) eqn:Eb.
  - destruct (remove_spec m buffered transfer Hm) as [-> Hd]. apply orb_true_iff in Eb.
    eexists _, _, _. split; [done|]. split; [done|]. split; [apply delete_subseteq|]. split; [done|].
    split; [apply lookup_delete_eq|]. rewrite !Z.ltb_lt in Eb. tauto.
  - apply orb_false_iff in Eb as [Hb1 Hb2]. bool_to_prop. destruct (retained m transfer index).
    + eexists _, _, _. done.
    + destruct (room_loop_spec (S (size m)) transfer cost budget m buffered Hm ltac:(lia))
        as (r & m' & b' & -> & Hok & Hsub & Hev & Hr).
      exists r, m', b'. split; [done|]. split; [done|]. split; [done|].
      destruct r as [c|e]; destruct Hr as (-> & Hr); [|tauto]. destruct Hr as (? & ? & ?). done.
Qed.

(** ** Insertion and assembly *)

Lemma check_cases additional largest adm :
  check additional largest adm = (Ok tt, adm) \/
  (has_probe adm = true /\
   exists adm', check additional largest adm = (Err (Io "memory pressure"), adm')).
Proof.
  unfold check, check_work, reject, has_probe, supports_work_kinds. destruct (probe_v2 adm) as [p|].
  - destruct (p _ _ _); eauto.
  - destruct (probe adm) as [p|]; [destruct (p _ _)|]; eauto.
Qed.

Lemma present_insert l i b :
  l !! i = Some None -> exists l1 l2, l = l1 ++ None :: l2 /\ <[i := Some b]> l = l1 ++ Some b :: l2 /\
    present l = present l1 ++ present l2 /\ present (<[i := Some b]> l) = present l1 ++ b :: present l2.
Proof.
  intros Hi. exists (take i l), (drop (S i) l). pose proof (take_drop_middle l i None Hi) as Hl.
  assert (<[i := Some b]> l = take i l ++ Some b :: drop (S i) l) as Hins.
  { apply insert_take_drop. by eapply lookup_lt_Some. }
  split; [done|]. split; [done|]. rewrite Hins. rewrite <- Hl at 1. unfold present.
  rewrite !omap_app. done.
Qed.

Lemma contains_index_lookup a i :
  zlen (received a) = asm_total a -> Z.of_nat i < asm_total a -> contains_index a i = false ->
  received a !! i = Some None.
Proof.
  intros Hl Hi Hc. unfold contains_index in Hc. destruct (received a !! i) as [[b|]|] eqn:E; [done|done|].
  apply lookup_ge_None in E. unfold zlen in Hl. lia.
Qed.

Definition fresh_descriptors (a : SideChunkAssembly) : SideChunkAssembly :=
  if is_empty (received a) then
    {| last_seen_ms := last_seen_ms a; asm_total := asm_total a;
       received := replicate (Z.to_nat (asm_total a)) None; received_count := received_count a |}
  else a.

Definition with_fragment (a : SideChunkAssembly) (index : nat) (now : Z) (b : bytes) : SideChunkAssembly :=
  {| last_seen_ms := now; asm_total := asm_total a; received := <[index := Some b]> (received a);
     received_count := received_count a + 1 |}.

Lemma present_replicate n : present (replicate n None) = [].
Proof. induction n as [|n IH]; [done|]. exact IH. Qed.

Lemma fresh_descriptors_ok a :
  asm_ok a -> asm_ok (fresh_descriptors a) /\ zlen (received (fresh_descriptors a)) = asm_total a /\
  present (received (fresh_descriptors a)) = present (received a) /\
  (forall i, contains_index (fresh_descriptors a) i = contains_index a i) /\
  raw_cost (fresh_descriptors a)
  = raw_cost a + (if is_empty (received a) then asm_total a * 16 else 0).
Proof.
  intros [Ht Hl Hc]. unfold fresh_descriptors, raw_cost. destruct (received a) as [|x l] eqn:Er; cbn [is_empty].
  - assert (zlen (replicate (Z.to_nat (asm_total a)) (@None bytes)) = asm_total a) as Hz.
    { unfold zlen. rewrite length_replicate. unfold is_u16 in Ht. lia. }
    cbn [received asm_total received_count]. rewrite present_replicate, Hz.
    split; [split; cbn [received asm_total received_count]|].
    + done.
    + by right.
    + by rewrite present_replicate, Hc.
    + split; [done|]. split; [done|]. split; [|unfold zlen; cbn [concat length present omap list_omap]; lia].
      intros i. unfold contains_index. cbn [received]. rewrite Er.
      destruct (replicate _ None !! i) as [[b|]|] eqn:Ei; [|done..].
      by apply lookup_replicate in Ei as [? _].
  - rewrite Er. split; [by split; rewrite ?Er|]. destruct Hl as [?|Hl]; [done|].
    split; [done|]. split; [done|]. split; [done|lia].
Qed.

(** The outcomes of [insert_with]. *)
Lemma insert_with_cases a i now b adm :
  asm_ok a ->
  let out := insert_with a i now b adm in
  let desc := if is_empty (received a) then descriptor_bytes (asm_total a) else 0 in
  (asm_total a <= Z.of_nat i /\ out = (Err (Unpack "invalid side chunk index"), a, adm)) \/
  (Z.of_nat i < asm_total a /\ contains_index a i = true /\ out = (Ok 0, a, adm)) \/
  (Z.of_nat i < asm_total a /\ contains_index a i = false /\
   ((received a = [] /\ has_probe adm = true /\ exists adm', out = (Err (Io "memory pressure"), a, adm')) \/
    out = (Ok (fragment_cost (zlen b) desc), with_fragment (fresh_descriptors a) i now b, adm))).
Proof.
  intros Ha. cbv zeta. unfold insert_with. destruct (Z.leb_spec (asm_total a) (Z.of_nat i)) as [|Hi]; [by left|].
  right. assert (negb (is_empty (received a)) && negb (zlen (received a) =? asm_total a) = false) as ->.
  { destruct (ao_length a Ha) as [->| ->]; [done|]. by rewrite Z.eqb_refl, andb_false_r. }
  destruct (contains_index a i); [by left|]. right. split; [done|]. split; [done|].
  unfold fresh_descriptors. destruct (received a) as [|x l] eqn:Er; cbn [is_empty].
  - set (d := descriptor_bytes (asm_total a)).
    destruct (check_cases (sat_add d 128) (sat_add d 32) adm) as [->|(Hp & adm' & ->)]; [by right|].
    left. split; [done|]. split; [done|]. by exists adm'.
  - right. unfold with_fragment. by rewrite Er.
Qed.

Lemma with_fragment_ok a i now b :
  asm_ok a -> zlen (received a) = asm_total a -> Z.of_nat i < asm_total a -> contains_index a i = false ->
  asm_ok (with_fragment a i now b) /\
  raw_cost (with_fragment a i now b) = raw_cost a + zlen b + 48.
Proof.
  intros [Ht Hl Hc] Hz Hi Hn. pose proof (contains_index_lookup a i Hz Hi Hn) as Hi'.
  destruct (present_insert _ _ b Hi') as (l1 & l2 & _ & _ & Hp & Hp').
  assert (zlen (<[i := Some b]> (received a)) = zlen (received a)) as Hzl
    by (unfold zlen; by rewrite length_insert).
  split.
  - split; cbn [with_fragment asm_total received received_count]; [done|right; by rewrite Hzl|].
    rewrite Hc, Hp, Hp'. unfold zlen. rewrite !length_app. cbn [length]. lia.
  - unfold raw_cost. cbn [with_fragment received received_count]. rewrite Hzl, Hp, Hp'.
    rewrite !concat_app, !zlen_app. cbn [concat]. rewrite zlen_app. lia.
Qed.

(** The cost an accepted fragment reports is what the transfer's cost grows by. *)
Lemma insert_cost a i now b :
  asm_ok a -> Z.of_nat i < asm_total a -> contains_index a i = false ->
  let desc := if is_empty (received a) then descriptor_bytes (asm_total a) else 0 in
  let a' := with_fragment (fresh_descriptors a) i now b in
  asm_ok a' /\ byte_cost a + fragment_cost (zlen b) desc <= raw_cost a' /\
  (byte_cost a + fragment_cost (zlen b) desc <= u64_max ->
   byte_cost a' = byte_cost a + fragment_cost (zlen b) desc).
Proof.
  intros Ha Hi Hn. cbv zeta. destruct (fresh_descriptors_ok a Ha) as (Hf & Hz & _ & Hc & Hr).
  assert (asm_total (fresh_descriptors a) = asm_total a) as Ht
    by (unfold fresh_descriptors; by destruct (is_empty _)).
  destruct (with_fragment_ok (fresh_descriptors a) i now b Hf) as [Hok Hraw];
    [by rewrite Hz, Ht|by rewrite Ht|by rewrite Hc|].
  split; [done|]. rewrite !byte_cost_raw by done. rewrite Hraw, Hr.
  assert (0 <= raw_cost a) by (pose proof (byte_cost_nonneg a Ha) as H; rewrite byte_cost_raw in H by done; lia).
  pose proof (ao_total a Ha). pose proof (zlen_nonneg b).
  unfold fragment_cost, descriptor_bytes, FRAGMENT_OVERHEAD, DESCRIPTOR_SIZE, sat_add, sat_mul.
  destruct (is_empty (received a)); unfold_u; lia.
Qed.

Lemma append_cases len step out cap b adm :
  (exists cap' adm', append_with len step out cap b adm = (Ok (out ++ b, cap'), adm') /\
     (zlen out + zlen b <= cap -> cap' = cap /\ adm' = adm)) \/
  (cap < zlen out + zlen b /\
   exists adm', append_with len step out cap b adm = (Err (Io "memory pressure"), adm')).
Proof.
  unfold append_with. destruct (Z.ltb_spec cap (sat_add (zlen out) (zlen b))) as [Hlt|Hge].
  - assert (cap < zlen out + zlen b) by (unfold sat_add in Hlt; lia).
    destruct (check_cases (Z.max (sat_add (Z.min (sat_mul (div_ceil_z (sat_add (zlen out) (zlen b)) step) step) len) 128) 1024)
      (sat_add (Z.min (sat_mul (div_ceil_z (sat_add (zlen out) (zlen b)) step) step) len) 32) adm)
      as [->|(_ & adm' & ->)].
    + left. eexists _, _. split; [reflexivity|]. lia.
    + right. split; [done|]. by eexists.
  - left. by eexists _, _.
Qed.

(** The grown buffer holds what is appended and never exceeds the frame: the
    reservation [target - out.len()] does not underflow. *)
Lemma append_capacity len step out cap b out' cap' adm adm' :
  128 <= step -> zlen out + zlen b <= len -> len + step <= u64_max -> zlen out <= cap <= len ->
  append_with len step out cap b adm = (Ok (out', cap'), adm') ->
  out' = out ++ b /\ zlen out' <= cap' <= len.
Proof.
  intros Hs Hl Hm Hc. pose proof (zlen_nonneg out). pose proof (zlen_nonneg b). unfold append_with.
  rewrite sat_add_small by lia. destruct (Z.ltb_spec cap (zlen out + zlen b)) as [Hlt|Hge].
  - set (e := zlen out + zlen b) in *.
    assert (e <= div_ceil_z e step * step < e + step) as Hd
      by (unfold div_ceil_z; Z.to_euclidean_division_equations; nia).
    assert (sat_mul (div_ceil_z e step) step = div_ceil_z e step * step) as -> by (unfold sat_mul; lia).
    destruct (check _ _ adm) as [[|]]; [|done]. intros [= <- <- _]. rewrite zlen_app. fold e.
    split; [done|lia].
  - intros [= <- <- _]. rewrite zlen_app. split; [done|lia].
Qed.

Lemma assemble_loop_map n len step bs out cap adm :
  (length bs <= n)%nat ->
  (exists adm', assemble_loop len step (map Some bs) out cap adm = (Ok (out ++ concat bs), adm') /\
     (zlen out + zlen (concat bs) <= cap -> adm' = adm)) \/
  (cap < zlen out + zlen (concat bs) /\
   exists adm', assemble_loop len step (map Some bs) out cap adm = (Err (Io "memory pressure"), adm')).
Proof.
  revert bs out cap adm. induction n as [|n IH]; intros [|b bs] out cap adm Hn; cbn [length] in Hn.
  1, 3: left; exists adm; cbn; by rewrite app_nil_r.
  1: lia.
  assert (forall b rest, (length rest <= n)%nat ->
    (exists adm',
       match append_with len step out cap b adm with
       | (Err e, adm) => (Err e, adm)
       | (Ok (out, cap), adm) => assemble_loop len step (map Some rest) out cap adm
       end = (Ok (out ++ b ++ concat rest), adm') /\
       (zlen out + zlen (b ++ concat rest) <= cap -> adm' = adm)) \/
    (cap < zlen out + zlen (b ++ concat rest) /\ exists adm',
       match append_with len step out cap b adm with
       | (Err e, adm) => (Err e, adm)
       | (Ok (out, cap), adm) => assemble_loop len step (map Some rest) out cap adm
       end = (Err (Io "memory pressure"), adm'))) as Hstep.
  { intros c rest Hr. rewrite zlen_app. pose proof (zlen_nonneg (concat rest)).
    destruct (append_cases len step out cap c adm) as [(cap' & adm' & -> & Hc)|[Hc [adm' ->]]].
    - destruct (IH rest (out ++ c) cap' adm' Hr) as [(adm2 & -> & Ha)|(Ha & adm2 & ->)];
        rewrite zlen_app in Ha.
      + left. exists adm2. rewrite <- app_assoc. split; [done|]. intros Hle.
        destruct Hc as [-> ->]; [lia|]. apply Ha. lia.
      + right. split; [|by exists adm2]. destruct (Z.le_gt_cases (zlen out + zlen c) cap); [|lia].
        destruct Hc as [-> _]; lia.
    - right. split; [lia|by exists adm']. }
  cbn [map assemble_loop concat]. destruct (zlen b <=? 256); [|apply Hstep; lia].
  destruct bs as [|c bs]; cbn [map]; [apply (Hstep b []); cbn; lia|].
  destruct (zlen c <=? 256 - zlen b); [|apply (Hstep b (c :: bs)); cbn [length] in *; lia].
  cbn [concat length] in *. rewrite (app_assoc b c). apply Hstep. lia.
Qed.

Lemma present_all l : zlen (present l) = zlen l -> l = map Some (present l).
Proof.
  induction l as [|[b|] l IH]; [done| |].
  - change (present (Some b :: l)) with (b :: present l). cbn [map]. unfold zlen. cbn [length].
    intros H. f_equal. apply IH. unfold zlen. lia.
  - change (present (None :: l)) with (present l). pose proof (present_le l). unfold zlen in *.
    cbn [length]. intros He. exfalso. lia.
Qed.

Lemma sum_checked_some l n :
  0 <= n -> n + zlen (concat l) <= u64_max -> sum_checked l n = Some (n + zlen (concat l)).
Proof.
  revert n. induction l as [|b l IH]; intros n H0 Hn; cbn [sum_checked concat] in *.
  { f_equal. change (zlen []) with 0. lia. }
  rewrite zlen_app in *. pose proof (zlen_nonneg (concat l)). pose proof (zlen_nonneg b).
  unfold checked_add. rewrite (proj2 (Z.leb_le _ _)) by lia. rewrite IH by lia. f_equal. lia.
Qed.

Definition complete (a : SideChunkAssembly) : Prop :=
  forall i, Z.of_nat i < asm_total a -> contains_index a i = true.

Lemma complete_count a : asm_ok a -> received_count a = asm_total a <-> complete a.
Proof.
  intros [Ht Hl Hc]. split.
  - intros He i Hi. destruct Hl as [Hl|Hl].
    { rewrite Hl in Hc. change (zlen (present [])) with 0 in Hc. lia. }
    rewrite Hc in He. pose proof (present_all (received a) ltac:(congruence)) as Hp.
    unfold contains_index. rewrite Hp, list_lookup_fmap.
    destruct (present (received a) !! i) as [b|] eqn:Eb; [done|]. apply lookup_ge_None in Eb.
    unfold zlen in *. lia.
  - intros Hcomp. destruct (Z.eq_dec (asm_total a) 0) as [H0|H0].
    { destruct Hl as [Hl|Hl]; [by rewrite Hc, Hl, H0|]. rewrite Hc, H0. pose proof (present_le (received a)).
      pose proof (zlen_nonneg (present (received a))). lia. }
    destruct Hl as [Hl|Hl].
    { specialize (Hcomp 0%nat). unfold contains_index in Hcomp. rewrite Hl in Hcomp.
      unfold is_u16 in Ht. discriminate Hcomp. lia. }
    rewrite Hc, <- Hl. assert (exists bs, received a = map Some bs) as [bs ->].
    { assert (Forall (fun o => is_Some o) (received a)) as Hf.
      { apply Forall_lookup. intros i o Ho. specialize (Hcomp i).
        unfold contains_index in Hcomp. rewrite Ho in Hcomp. destruct o; [by eexists|].
        apply lookup_lt_Some in Ho. unfold zlen in Hl. discriminate Hcomp. lia. }
      clear -Hf. induction Hf as [|o l [b ->] _ [bs ->]]; [by exists []|by exists (b :: bs)]. }
    clear. unfold zlen. induction bs as [|b bs IH]; [done|].
    change (present (map Some (b :: bs))) with (b :: present (map Some bs)). cbn [map length]. lia.
Qed.

Lemma complete_received a :
  asm_ok a -> complete a -> received_count a = asm_total a /\ received a = map Some (present (received a)).
Proof.
  intros Ha Hc. apply (complete_count a Ha) in Hc. split; [done|].
  destruct (ao_length a Ha) as [->|Hl]; [done|]. apply present_all. pose proof (ao_count a Ha). congruence.
Qed.

(** A complete transfer whose whole frame is admitted is assembled. *)
Lemma assemble_eager a adm :
  let frame := concat (present (received a)) in
  asm_ok a -> complete a -> zlen frame <= u64_max ->
  check (sat_add (zlen frame) 512) (sat_add (zlen frame) 32) adm = (Ok tt, adm) ->
  assemble a adm = (Ok frame, adm).
Proof.
  cbv zeta. intros Ha Hc Hmax Hadm. destruct (complete_received a Ha Hc) as [He Hp].
  unfold assemble. rewrite He, Z.eqb_refl. cbn [negb].
  rewrite sum_checked_some by (done || lia). rewrite Z.add_0_l, Hadm.
  set (bs := present (received a)) in *. set (len := zlen (concat bs)) in *. rewrite Hp.
  destruct (assemble_loop_map _ len (Z.max (div_ceil_z len 8) 128) bs [] len adm (le_n _))
    as [(adm' & -> & Hx)|[Hlt _]].
  - rewrite Hx; [done|]. change (zlen []) with 0. fold len. lia.
  - change (zlen []) with 0 in Hlt. fold len in Hlt. lia.
Qed.

(** A transfer is assembled exactly when every index was received.
    The result is then the fragments in the order of their indices, whatever
    merging of small fragments and growth of the buffer produced it; the only
    failure is a refusal of the admission probe, which must have refused the
    whole frame in one allocation first. *)
Theorem assemble_spec a adm :
  asm_ok a ->
  let frame := concat (present (received a)) in
  zlen frame <= u64_max ->
  (~ complete a /\ assemble a adm = (Err (Unpack "side chunk gap"), adm)) \/
  (complete a /\ ((exists adm', assemble a adm = (Ok frame, adm')) \/
    ((exists adm', assemble a adm = (Err (Io "memory pressure"), adm')) /\
     fst (check (sat_add (zlen frame) 512) (sat_add (zlen frame) 32) adm)
     = Err (Io "memory pressure")))).
Proof.
  intros Ha. cbv zeta. intros Hmax.
  destruct (Z.eq_dec (received_count a) (asm_total a)) as [He|He].
  2: { left. rewrite <- (complete_count a Ha). split; [done|]. unfold assemble.
       by rewrite (proj2 (Z.eqb_neq _ _) He). }
  right. assert (complete a) as Hc by by apply complete_count. split; [done|].
  set (len := zlen (concat (present (received a)))) in *.
  destruct (check_cases (sat_add len 512) (sat_add len 32) adm) as [Hadm|(_ & adm' & Hadm)].
  { left. exists adm. by apply assemble_eager. }
  destruct (complete_received a Ha Hc) as [_ Hp]. unfold assemble.
  rewrite He, Z.eqb_refl, sum_checked_some, Z.add_0_l by (done || lia). fold len. rewrite Hadm. cbn [negb fst].
  rewrite decide_True by done. subst len. set (bs := present (received a)) in *. rewrite Hp.
  destruct (assemble_loop_map _ (zlen (concat bs)) (Z.max (div_ceil_z (zlen (concat bs)) 8) 128) bs [] 0 adm' (le_n _))
    as [(adm2 & -> & _)|(_ & adm2 & ->)]; [left; by exists adm2|right].
  split; [by exists adm2|done].
Qed.

(** ** Storing a chunk *)

Definition entry_of (m : Chunks) (transfer total : Z) : SideChunkAssembly :=
  let entry := default asm_default (m !! transfer) in
  {| last_seen_ms := last_seen_ms entry; asm_total := total; received := received entry;
     received_count := received_count entry |}.

Definition set_chunks (rx : RxChunks) (m : Chunks) : RxChunks :=
  {| rx_chunks := m; rx_chunk_bytes := total_cost m; rx_chunk_reclaims := rx_chunk_reclaims rx |}.

Lemma asm_default_ok : asm_ok asm_default.
Proof. split; [done|by left|done]. Qed.

Lemma entry_of_ok m transfer total :
  map_Forall (fun _ => asm_ok) m -> is_u16 total ->
  (forall a, m !! transfer = Some a -> asm_total a = 0 \/ asm_total a = total) ->
  asm_ok (entry_of m transfer total).
Proof.
  intros Hm Ht Hx. unfold entry_of. destruct (m !! transfer) as [a|] eqn:Ea; cbn [default from_option id].
  - destruct (Hm _ _ Ea) as [_ Hl Hc]. split; [done| |done]. cbn [received asm_total].
    destruct Hl as [->|Hl]; [by left|]. destruct (Hx a eq_refl) as [H0| <-]; [|by right].
    left. destruct (received a) as [|x l]; [done|]. unfold zlen in Hl. cbn [length] in Hl. lia.
  - split; [done|by left|done].
Qed.

Lemma entry_retained m transfer total i :
  contains_index (entry_of m transfer total) i = retained m transfer i.
Proof. unfold retained, entry_of, contains_index. by destruct (m !! transfer). Qed.

Lemma entry_cost m transfer total : byte_cost (entry_of m transfer total) = own_cost m transfer.
Proof. unfold own_cost, entry_of, byte_cost. by destruct (m !! transfer). Qed.

Lemma entry_room m transfer total len :
  fragment_cost len (if is_empty (received (entry_of m transfer total)) then descriptor_bytes total else 0)
  = room_cost m transfer total len.
Proof. unfold room_cost, no_descriptors, entry_of. by destruct (m !! transfer). Qed.

Lemma total_cost_set m k a : total_cost (<[k := a]> m) + own_cost m k = byte_cost a + total_cost m.
Proof.
  rewrite <- insert_delete_eq, total_cost_insert by apply lookup_delete_eq. unfold own_cost.
  destruct (m !! k) as [b|] eqn:Eb.
  - rewrite (total_cost_delete m k b Eb). lia.
  - rewrite delete_id by done. lia.
Qed.

Lemma size_insert_le (m : Chunks) k a : (size (<[k := a]> m) <= S (size m))%nat.
Proof. rewrite map_size_insert. destruct (m !! k); unfold id; lia. Qed.

(** The transfer with the fragment added. *)
Definition stored (m : Chunks) (transfer : Z) (index : nat) (total : Z) (payload : bytes) (now : Z)
    : SideChunkAssembly :=
  with_fragment (fresh_descriptors (entry_of m transfer total)) index now payload.

Lemma store_chunk_cases transfer index total payload now rx adm :
  chunks_ok (rx_chunks rx) (rx_chunk_bytes rx) -> is_u16 total -> Z.of_nat index < total ->
  (forall a, rx_chunks rx !! transfer = Some a -> asm_total a = 0 \/ asm_total a = total) ->
  retained (rx_chunks rx) transfer index = false ->
  rx_chunk_bytes rx + room_cost (rx_chunks rx) transfer total (zlen payload) <= u64_max ->
  let m := rx_chunks rx in
  let e := stored m transfer index total payload now in
  let out := store_chunk transfer index total payload now rx adm in
  chunks_ok (<[transfer := e]> m) (rx_chunk_bytes rx + room_cost m transfer total (zlen payload)) /\
  ((exists adm', out = (Err (Io "memory pressure"),
      set_chunks rx (<[transfer := entry_of m transfer total]> m), adm') /\
      chunks_ok (<[transfer := entry_of m transfer total]> m) (rx_chunk_bytes rx) /\
      has_probe adm = true) \/
   (received_count e <> total /\ out = (Ok None, set_chunks rx (<[transfer := e]> m), adm)) \/
   (received_count e = total /\
    out = match assemble e adm with
          | (Ok frame, adm) => (Ok (Some frame), set_chunks rx (delete transfer m), adm)
          | (Err err, adm) =>
              (Err err, {| rx_chunks := delete transfer m; rx_chunk_bytes := total_cost (delete transfer m);
                           rx_chunk_reclaims := Z.min u32_max (rx_chunk_reclaims rx + 1) |}, adm)
          end)).
Proof.
  intros Hm Ht Hi Hx Hr Hb. cbv zeta. set (m := rx_chunks rx) in *.
  set (e0 := entry_of m transfer total). set (cost := room_cost m transfer total (zlen payload)) in *.
  assert (asm_ok e0) as He0 by (apply entry_of_ok; [apply Hm|done|done]).
  assert (contains_index e0 index = false) as Hc0 by (unfold e0; by rewrite entry_retained).
  destruct (insert_cost e0 index now payload He0 Hi Hc0) as (Hok & _ & Hcost).
  change (with_fragment (fresh_descriptors e0) index now payload)
    with (stored m transfer index total payload now) in Hok, Hcost.
  set (e := stored m transfer index total payload now) in *.
  change (asm_total e0) with total in Hcost. unfold e0 in Hcost. rewrite entry_room, entry_cost in Hcost. fold cost in Hcost.
  pose proof (co_bytes _ _ Hm) as Hbytes. fold m in Hbytes.
  assert (own_cost m transfer <= rx_chunk_bytes rx) as Hown.
  { rewrite Hbytes. unfold own_cost. destruct (m !! transfer) as [a|] eqn:Ea.
    - rewrite (total_cost_delete _ _ _ Ea). assert (map_Forall (fun _ => asm_ok) (delete transfer m)) as Hd
        by (apply map_Forall_delete, Hm). pose proof (chunks_cost_nonneg _ Hd). lia.
    - apply chunks_cost_nonneg, Hm. }
  specialize (Hcost ltac:(lia)).
  assert (total_cost (<[transfer := e]> m) = rx_chunk_bytes rx + cost) as Htot.
  { pose proof (total_cost_set m transfer e) as H. lia. }
  assert (chunks_ok (<[transfer := e]> m) (rx_chunk_bytes rx + cost)) as Hok'.
  { split; [|by rewrite Htot|lia]. apply map_Forall_insert_2; [done|apply Hm]. }
  split; [done|]. unfold store_chunk. fold m. fold (entry_of m transfer total). fold e0.
  destruct (insert_with_cases e0 index now payload adm He0) as [[Hbad _]|[(_ & Hbad & _)|(_ & _ & Hcase)]].
  { change (asm_total e0) with total in Hbad. lia. }
  { congruence. }
  change (asm_total e0) with total in Hcase. rewrite (entry_room m transfer total) in Hcase. fold cost in Hcase.
  destruct Hcase as [(Hemp & Hprobe & adm' & ->)| ->].
  - left. exists adm'. assert (total_cost (<[transfer := e0]> m) = rx_chunk_bytes rx) as Hz.
    { pose proof (total_cost_set m transfer e0) as H. unfold e0 in H at 2. rewrite entry_cost in H.
      lia. }
    split; [by rewrite <- Hz; unfold set_chunks|]. split; [|done].
    split; [|by rewrite Hz|apply Hm]. apply map_Forall_insert_2; [done|apply Hm].
  - right. change (with_fragment (fresh_descriptors e0) index now payload) with e. cbn [rx_chunks rx_chunk_bytes rx_chunk_reclaims].
    rewrite sat_add_small by done. destruct (Z.eqb_spec (received_count e) total) as [He|He].
    + right. split; [done|]. unfold take_chunk. cbn [rx_chunks rx_chunk_bytes rx_chunk_reclaims].
      destruct (remove_spec _ _ transfer Hok') as [-> _]. rewrite lookup_insert_eq, delete_insert_eq. done.
    + left. split; [done|]. by rewrite <- Htot.
Qed.

(** ** Receiving *)

Definition MAX_TRANSFERS : nat := 4.

(** The invariant of a side's partial transfers. *)
Record rx_ok (rx : RxChunks) : Prop := {
  rx_accounted : chunks_ok (rx_chunks rx) (rx_chunk_bytes rx);
  rx_few : (size (rx_chunks rx) <= MAX_TRANSFERS)%nat;
}.

Lemma take_chunk_ok id r rx :
  chunks_ok (rx_chunks rx) (rx_chunk_bytes rx) ->
  rx_chunks (snd (take_chunk id r rx)) = delete id (rx_chunks rx) /\
  chunks_ok (rx_chunks (snd (take_chunk id r rx))) (rx_chunk_bytes (snd (take_chunk id r rx))) /\
  rx_chunk_bytes (snd (take_chunk id r rx)) <= rx_chunk_bytes rx.
Proof.
  intros Hm. unfold take_chunk. destruct (remove_spec _ _ id Hm) as [-> Hd].
  assert (total_cost (delete id (rx_chunks rx)) <= rx_chunk_bytes rx).
  { rewrite (co_bytes _ _ Hm). destruct (rx_chunks rx !! id) as [a|] eqn:Ea.
    - rewrite (total_cost_delete _ _ _ Ea). pose proof (byte_cost_nonneg a (co_asm _ _ Hm _ _ Ea)). lia.
    - by rewrite delete_id. }
  by destruct (rx_chunks rx !! id).
Qed.

Lemma room_cost_pos m transfer total len : 0 <= len -> 0 <= total -> 0 < room_cost m transfer total len.
Proof.
  intros Hl Ht. unfold room_cost, fragment_cost, descriptor_bytes, FRAGMENT_OVERHEAD, DESCRIPTOR_SIZE.
  destruct (no_descriptors m transfer); unfold_u; lia.
Qed.

Lemma chunks_size_le (m m' : Chunks) : m' ⊆ m -> (size m' <= size m)%nat.
Proof. apply map_subseteq_size. Qed.

(** What making room leaves. *)
Record roomy (transfer total : Z) (index : nat) (len budget : Z) (rx rx' : RxChunks) : Prop := {
  ro_ok : rx_ok rx';
  ro_sub : rx_chunks rx' ⊆ rx_chunks rx;
  ro_bytes : rx_chunk_bytes rx' <= rx_chunk_bytes rx;
  ro_total : forall a, rx_chunks rx' !! transfer = Some a -> asm_total a = 0 \/ asm_total a = total;
  ro_own : rx_chunks rx' !! transfer = rx_chunks rx !! transfer;
  ro_retry : retained (rx_chunks rx) transfer index = true -> rx_chunks rx' = rx_chunks rx;
  ro_room : retained (rx_chunks rx) transfer index = false ->
    sat_add (rx_chunk_bytes rx') (room_cost (rx_chunks rx) transfer total len) <= budget /\
    (rx_chunks rx !! transfer = None -> (size (rx_chunks rx') < MAX_TRANSFERS)%nat);
}.

Lemma room_ok_bytes m m' buffered buffered' :
  chunks_ok m buffered -> chunks_ok m' buffered' -> m' ⊆ m -> buffered' <= buffered.
Proof.
  intros [Ha Hb _] [Ha' -> _] Hsub. rewrite Hb. clear Hb. revert m Ha Hsub.
  induction m' as [|k a m' Hk IH] using map_ind; intros m Ha Hsub.
  { apply (chunks_cost_nonneg m Ha). }
  apply map_Forall_insert in Ha' as [Hak Ha']; [|done].
  assert (m !! k = Some a) as Hmk.
  { eapply lookup_weaken; [apply lookup_insert_eq|done]. }
  rewrite total_cost_insert, (total_cost_delete m k a) by done.
  assert (total_cost m' <= total_cost (delete k m)); [|lia]. apply IH; [done|by apply map_Forall_delete|].
  rewrite <- (delete_insert_id m' k a) by done. by apply delete_mono.
Qed.

Lemma side_chunk_room_ok transfer index total len budget rx :
  rx_ok rx -> 0 <= len -> 0 <= total ->
  exists r rx', side_chunk_room transfer index total len budget rx = Some (r, rx') /\
  match r with
  | Ok c => roomy transfer total index len budget rx rx' /\
      c = (if retained (rx_chunks rx) transfer index then 0 else room_cost (rx_chunks rx) transfer total len)
  | Err e => rx_ok rx' /\ rx_chunk_bytes rx' <= rx_chunk_bytes rx /\ rx_chunks rx' !! transfer = None /\
      let m := rx_chunks rx in let cost := room_cost m transfer total len in
      (e = Unpack "side chunk total mismatch" /\
       exists a, m !! transfer = Some a /\ asm_total a <> 0 /\ asm_total a <> total) \/
      (e = PacketTooLarge "side chunk receive budget" /\
       (budget / 64 < total \/ budget < cost \/
         (retained m transfer index = false /\ budget < sat_add (own_cost m transfer) cost)))
  end.
Proof.
  intros [Hm Hfew] Hl Ht. unfold side_chunk_room. set (m := rx_chunks rx) in *.
  assert (forall m' b', chunks_ok m' b' -> m' ⊆ m -> forall n,
    rx_ok {| rx_chunks := m'; rx_chunk_bytes := b'; rx_chunk_reclaims := n |}) as Hrx.
  { intros m' b' Hok Hsub n. split; [done|]. cbn. pose proof (chunks_size_le m m' Hsub). lia. }
  destruct (match m !! transfer with Some a => _ | None => false end) eqn:Etot.
  - destruct (take_chunk_ok transfer true rx Hm) as (Hd & Hok & Hle). fold m in Hd. eexists _, _. split; [reflexivity|].
    split; [|split; [done|split; [|left; split; [done|]]]].
    + split; [done|]. rewrite Hd. pose proof (chunks_size_le m (delete transfer m) (delete_subseteq _ _)). lia.
    + rewrite Hd. apply lookup_delete_eq.
    + fold m. destruct (m !! transfer) as [a|]; [|done]. exists a. split; [done|].
      by apply andb_true_iff in Etot as [?%negb_true_iff%Z.eqb_neq ?%negb_true_iff%Z.eqb_neq].
  - destruct (make_room_ok m (rx_chunk_bytes rx) transfer index total len budget Hm)
      as (r & m' & b' & -> & Hok & Hsub & Hr). cbv zeta in Hr.
    pose proof (room_ok_bytes _ _ _ _ Hm Hok Hsub) as Hble.
    destruct r as [c|e].
    2: { eexists _, _. split; [reflexivity|]. split; [by apply Hrx|]. split; [done|]. split; [apply Hr|].
         right. destruct Hr as (He & _ & Hwhy). split; [exact He|]. exact Hwhy. }
    destruct Hr as (Hown & _ & _ & Hr).
    assert (forall a, m !! transfer = Some a -> asm_total a = 0 \/ asm_total a = total) as Htot.
    { intros a Ha. rewrite Ha in Etot. destruct (Z.eqb_spec (asm_total a) 0); [by left|].
      destruct (Z.eqb_spec (asm_total a) total); [by right|]. done. }
    destruct (retained m transfer index) eqn:Eret.
    { destruct Hr as [-> ->]. eexists _, _. split; [reflexivity|]. split; [|done]. split; try done.
      all: first [by apply Hrx | cbn; fold m; intros; congruence]. }
    destruct Hr as (-> & Hbud & _ & _). pose proof (room_cost_pos m transfer total len Hl Ht) as Hpos.
    rewrite (proj2 (Z.eqb_neq _ _)) by lia.
    destruct (match m !! transfer with None => _ | Some _ => false end) eqn:Efull.
    + destruct (oldest m' None) as [[id t]|] eqn:Eo.
      * set (rx1 := {| rx_chunks := m'; rx_chunk_bytes := b'; rx_chunk_reclaims := _ |}).
        destruct (take_chunk_ok id true rx1 Hok) as (Hd & Hok2 & Hle). cbn [rx_chunks rx1] in Hd.
        apply oldest_some in Eo as (_ & a & Ha & _).
        destruct (m !! transfer) as [a'|] eqn:Et; [done|].
        assert (id <> transfer) as Hne by congruence. pose proof (delete_size m' id a Ha) as Hsz.
        pose proof (chunks_size_le m m' Hsub) as Hs1. unfold MAX_TRANSFERS in *.
        eexists _, _. split; [reflexivity|]. split; [|done]. split; fold m; rewrite ?Hd.
        -- split; [done|]. rewrite Hd. unfold MAX_TRANSFERS. lia.
        -- etransitivity; [apply delete_subseteq|done].
        -- cbn [rx_chunk_bytes rx1] in Hle. lia.
        -- intros b. rewrite lookup_delete_ne, Hown by done. apply Htot.
        -- by rewrite lookup_delete_ne, Hown, Et.
        -- congruence.
        -- intros _. split; [|intros _; unfold MAX_TRANSFERS; lia].
           cbn [rx_chunk_bytes rx1] in Hle. unfold sat_add in *. lia.
      * exfalso. assert (m' = ∅) as ->.
        { apply map_empty. intros id. destruct (m' !! id) as [a|] eqn:Ea; [|done].
          by pose proof (oldest_none m' None Eo id a Ea). }
        rewrite map_size_empty in Efull. by destruct (m !! transfer).
    + eexists _, _. split; [reflexivity|]. split; [|done]. split; cbn [rx_chunks rx_chunk_bytes]; fold m.
      * by apply Hrx.
      * done.
      * done.
      * rewrite Hown. apply Htot.
      * done.
      * congruence.
      * intros _. split; [done|]. intros Hnone. rewrite Hnone in Efull.
        apply Nat.leb_gt in Efull. done.
Qed.

Lemma parse_chunk_body_ok body transfer index total payload :
  bytes_ok body -> parse_chunk_body body = Ok (transfer, index, total, payload) ->
  is_u32 transfer /\ is_u16 total /\ Z.of_nat index < total /\ payload = drop 8 body.
Proof.
  intros Hb. unfold parse_chunk_body. destruct (Nat.ltb_spec (length body) 8) as [|Hlen]; [done|].
  destruct (_ || _) eqn:E; [done|]. intros [= <- <- <- <-]. apply orb_false_iff in E as [E1 E2]. bool_to_prop.
  assert (forall n k, (n + k <= 8)%nat -> 0 <= from_le (take n (drop k body)) < 256 ^ Z.of_nat n) as Hr.
  { intros n k Hnk. pose proof (from_le_range (take n (drop k body)) ltac:(by apply Forall_take, Forall_drop)) as H.
    unfold zlen in H. rewrite length_take_le in H; [done|]. rewrite length_drop. lia. }
  pose proof (Hr 4%nat 0%nat ltac:(lia)) as H4. rewrite drop_0 in H4. pose proof (Hr 2%nat 4%nat ltac:(lia)).
  pose proof (Hr 2%nat 6%nat ltac:(lia)). change (256 ^ Z.of_nat 4) with 4294967296 in *.
  change (256 ^ Z.of_nat 2) with 65536 in *. split; [unfold_u; lia|]. split; [unfold_u; lia|]. split; [lia|done].
Qed.

(** A stored chunk keeps the accounting. *)
Lemma store_chunk_ok transfer index total payload now budget rx adm :
  rx_ok rx -> is_u16 total -> Z.of_nat index < total ->
  (forall a, rx_chunks rx !! transfer = Some a -> asm_total a = 0 \/ asm_total a = total) ->
  retained (rx_chunks rx) transfer index = false ->
  rx_chunk_bytes rx + room_cost (rx_chunks rx) transfer total (zlen payload) <= budget -> budget <= u64_max ->
  (rx_chunks rx !! transfer = None -> (size (rx_chunks rx) < MAX_TRANSFERS)%nat) ->
  exists r rx' adm', store_chunk transfer index total payload now rx adm = (r, rx', adm') /\
    rx_ok rx' /\ rx_chunk_bytes rx' <= Z.max budget (rx_chunk_bytes rx).
Proof.
  intros Hok Ht Hi Htot Eret Hfit Hmax Hsize.
  destruct (store_chunk_cases transfer index total payload now rx adm (rx_accounted _ Hok) Ht Hi Htot Eret
    ltac:(lia)) as (Hins & Hcase). cbv zeta in Hcase.
  set (e := stored (rx_chunks rx) transfer index total payload now) in *.
  assert (forall a, (size (<[transfer := a]> (rx_chunks rx)) <= MAX_TRANSFERS)%nat) as Hsz.
  { intros a. rewrite map_size_insert. destruct (rx_chunks rx !! transfer) eqn:Et; [apply Hok|].
    specialize (Hsize eq_refl). lia. }
  destruct (remove_spec _ _ transfer (rx_accounted _ Hok)) as [_ Hdel].
  assert (size (delete transfer (rx_chunks rx)) <= MAX_TRANSFERS)%nat as Hdsz.
  { pose proof (chunks_size_le _ _ (delete_subseteq (rx_chunks rx) transfer)). pose proof (rx_few _ Hok). lia. }
  pose proof (room_ok_bytes _ _ _ _ (rx_accounted _ Hok) Hdel (delete_subseteq _ _)) as Hdle.
  destruct Hcase as [(adm' & -> & Hok' & _)|[[_ ->]|[_ ->]]].
  - eexists _, _, _. split; [reflexivity|]. pose proof (co_bytes _ _ Hok') as Hb'.
    split; [|cbn; lia]. split; [|apply Hsz]. unfold set_chunks. cbn. by rewrite <- Hb'.
  - eexists _, _, _. split; [reflexivity|]. pose proof (co_bytes _ _ Hins) as Hb'.
    split; [|cbn; lia]. split; [|apply Hsz]. unfold set_chunks. cbn. by rewrite <- Hb'.
  - destruct (assemble e adm) as [[frame|err] adm'].
    + eexists _, _, _. split; [reflexivity|]. split; [by split|cbn; lia].
    + eexists _, _, _. split; [reflexivity|]. split; [by split|cbn; lia].
Qed.

(** ** Reassembly of a split frame *)

Section Reassembly.
Context {E : WireEnv} {L : WireEnvLaws E}.
Context (f : SideTransportFrames) (Hf : split_ok f) (Hne : sf_frame f <> []).
Context (budget : Z) (Hbud : Z.of_nat (sf_total f) <= budget / 64)
  (Hcost : zlen (sf_frame f) + 64 * Z.of_nat (sf_total f) <= budget) (Hmax : budget < u64_max).

Let total := Z.of_nat (sf_total f).

Lemma total_pos : 0 < total <= 65535.
Proof. clear budget Hbud Hcost Hmax.
  unfold total. pose proof (so_limit f Hf). pose proof (so_total f Hf) as Ht.
  pose proof (div_ceil_spec (length (sf_frame f)) _ (so_budget f Hf)).
  assert (0 < length (sf_frame f))%nat by (destruct (sf_frame f); [done|cbn; lia]).
  rewrite <- Ht in *. destruct (sf_total f); lia.
Qed.

(** What a receiver that has the chunks of [l] holds. *)
Definition have (l : list nat) : list (option bytes) :=
  map (fun i => if decide (i ∈ l) then Some (chunk_payload f i) else None) (seq 0 (sf_total f)).

Lemma have_lookup l i : (i < sf_total f)%nat ->
  have l !! i = Some (if decide (i ∈ l) then Some (chunk_payload f i) else None).
Proof. intros Hi. unfold have. rewrite list_lookup_fmap, lookup_seq_lt by done. done. Qed.

Lemma length_have l : length (have l) = sf_total f.
Proof. unfold have. by rewrite length_map, length_seq. Qed.

Lemma have_nil : have [] = replicate (sf_total f) None.
Proof.
  apply list_eq. intros i. destruct (Nat.lt_ge_cases i (sf_total f)).
  - rewrite have_lookup, lookup_replicate_2 by done. by rewrite decide_False by apply not_elem_of_nil.
  - rewrite !lookup_ge_None_2; [done| |]; rewrite ?length_have, ?length_replicate; lia.
Qed.

Lemma have_insert l i : (i < sf_total f)%nat -> <[i := Some (chunk_payload f i)]> (have l) = have (i :: l).
Proof.
  intros Hi. apply list_eq. intros j. destruct (Nat.lt_ge_cases j (sf_total f)) as [Hj|Hj].
  - rewrite (have_lookup (i :: l)) by done. destruct (decide (i = j)) as [->|Hij].
    + rewrite list_lookup_insert_eq by by rewrite length_have. by rewrite decide_True by left.
    + rewrite list_lookup_insert_ne, have_lookup by done. f_equal.
      apply decide_ext. rewrite elem_of_cons. split; [by right|intros [->|]; done].
  - rewrite !lookup_ge_None_2; [done| |]; rewrite ?length_insert, ?length_have; lia.
Qed.

Lemma have_all l : (forall i, (i < sf_total f)%nat -> i ∈ l) -> have l = map (fun i => Some (chunk_payload f i)) (seq 0 (sf_total f)).
Proof.
  intros Hl. apply map_ext_in. intros i Hi. apply in_seq in Hi. rewrite decide_True; [done|]. apply Hl. lia.
Qed.

Lemma present_some (l : list bytes) : present (map Some l) = l.
Proof. induction l as [|b l IH]; [done|]. cbn [map]. change (present (Some b :: map Some l)) with (b :: present (map Some l)). by rewrite IH. Qed.

Lemma have_size l : zlen (concat (present (have l))) <= zlen (sf_frame f).
Proof.
  rewrite <- (chunk_payloads f Hf). unfold have. induction (seq 0 (sf_total f)) as [|i js IH]; [done|].
  cbn [map concat]. rewrite zlen_app. pose proof (zlen_nonneg (chunk_payload f i)). case_decide.
  - change (present (Some ?b :: ?k)) with (b :: present k). cbn [concat]. rewrite zlen_app. lia.
  - change (present (None :: ?k)) with (present k). lia.
Qed.

(** The receiver's state: the chunks of [l] are retained, the transfer is not
    complete. *)
Definition partial (l : list nat) (rx : RxChunks) : Prop :=
  rx_ok rx /\
  match l with
  | [] => rx_chunks rx !! transfer_id f = None
  | _ => exists a, rx_chunks rx !! transfer_id f = Some a /\ asm_total a = total /\ received a = have l
  end.

Definition chunk_body_of (i : nat) : bytes :=
  concat [le_bytes 4 (transfer_id f); le_bytes 2 (Z.of_nat i mod 65536);
          le_bytes 2 (Z.of_nat (sf_total f) mod 65536); chunk_payload f i].

Lemma frame_chunk_body i :
  parse_side_transport_wrapper (frame_at f i) = Ok (Some (SIDE_TRANSPORT_KIND_CHUNK, chunk_body_of i)).
Proof.
  unfold frame_at. pose proof (so_budget f Hf). destruct (Nat.eqb_spec (payload_budget f) 0); [lia|].
  by rewrite chunk_body, parse_wrap.
Qed.

Lemma parse_chunk_body_of i :
  (i < sf_total f)%nat ->
  parse_chunk_body (chunk_body_of i) = Ok (transfer_id f, i, total, chunk_payload f i).
Proof.
  intros Hi. pose proof total_pos as Ht. unfold total in *. unfold parse_chunk_body, chunk_body_of. cbn [concat].
  rewrite app_nil_r, !Z.mod_small by lia. set (t := le_bytes 4 _). set (x := le_bytes 2 _). set (n := le_bytes 2 _). set (b := chunk_payload f i).
  assert (length t = 4%nat) as Hlt by apply length_le_bytes.
  assert (length x = 2%nat) as Hlx by apply length_le_bytes.
  assert (length n = 2%nat) as Hln by apply length_le_bytes.
  rewrite !length_app, Hlt, Hlx, Hln. cbn [Nat.ltb Nat.leb Nat.add].
  assert (take 4 (t ++ x ++ n ++ b) = t) as -> by (rewrite <- Hlt; apply take_app_length).
  assert (drop 4 (t ++ x ++ n ++ b) = x ++ n ++ b) as -> by (rewrite <- Hlt; apply drop_app_length).
  assert (take 2 (x ++ n ++ b) = x) as -> by (rewrite <- Hlx; apply take_app_length).
  assert (drop 6 (t ++ x ++ n ++ b) = n ++ b) as ->.
  { rewrite app_assoc. replace 6%nat with (length (t ++ x)) by (rewrite length_app; lia). apply drop_app_length. }
  assert (take 2 (n ++ b) = n) as -> by (rewrite <- Hln; apply take_app_length).
  assert (drop 8 (t ++ x ++ n ++ b) = b) as ->.
  { rewrite !app_assoc. replace 8%nat with (length ((t ++ x) ++ n)) by (rewrite !length_app; lia). apply drop_app_length. }
  pose proof (so_transfer f Hf). unfold t, x, n.
  rewrite !from_le_bytes by (change (256 ^ Z.of_nat 4) with 4294967296; change (256 ^ Z.of_nat 2) with 65536; unfold_u; lia).
  rewrite (proj2 (Z.eqb_neq _ _)), (proj2 (Z.leb_gt _ _)) by lia.
  cbn [orb]. by rewrite Nat2Z.id.
Qed.

Lemma chunk_payload_size i : zlen (chunk_payload f i) <= zlen (sf_frame f).
Proof. unfold chunk_payload, zlen. rewrite length_take, length_drop. lia. Qed.

Lemma partial_lookup l rx a :
  partial l rx -> rx_chunks rx !! transfer_id f = Some a ->
  asm_ok a /\ asm_total a = total /\ received a = have l /\ l <> [].
Proof.
  intros [Hok Hl] Ha. split; [apply (co_asm _ _ (rx_accounted _ Hok) _ _ Ha)|].
  destruct l as [|x l]; [congruence|]. destruct Hl as (b & Hb & Ht & Hr).
  assert (a = b) as -> by congruence. done.
Qed.

Lemma partial_retained l rx i :
  partial l rx -> (i < sf_total f)%nat ->
  retained (rx_chunks rx) (transfer_id f) i = bool_decide (i ∈ l).
Proof.
  intros Hp Hi. unfold retained. destruct (rx_chunks rx !! transfer_id f) as [a|] eqn:Ea.
  - destruct (partial_lookup l rx a Hp Ea) as (_ & _ & Hr & _). unfold contains_index.
    rewrite Hr, have_lookup by done. by case_bool_decide as Hil; [rewrite decide_True|rewrite decide_False].
  - destruct Hp as [_ Hl]. destruct l as [|x l]; [by rewrite bool_decide_false by apply not_elem_of_nil|].
    destruct Hl as (a & Ha & _). congruence.
Qed.

Lemma partial_total l rx a :
  partial l rx -> rx_chunks rx !! transfer_id f = Some a -> asm_total a = total.
Proof. intros Hp Ha. by destruct (partial_lookup l rx a Hp Ha) as (_ & ? & _). Qed.

Lemma partial_chunks l rx rx' :
  partial l rx -> rx_ok rx' -> rx_chunks rx' !! transfer_id f = rx_chunks rx !! transfer_id f ->
  partial l rx'.
Proof. intros [_ Hl] Hok Hs. split; [done|]. by rewrite Hs. Qed.

(** The entry after storing chunk [i]. *)
Lemma partial_stored l rx i now :
  partial l rx -> (i < sf_total f)%nat -> i ∉ l ->
  let e := stored (rx_chunks rx) (transfer_id f) i total (chunk_payload f i) now in
  asm_ok e /\ asm_total e = total /\ received e = have (i :: l) /\
  own_cost (rx_chunks rx) (transfer_id f)
  + room_cost (rx_chunks rx) (transfer_id f) total (zlen (chunk_payload f i)) <= budget.
Proof.
  intros Hp Hi Hni. cbv zeta. unfold stored. set (e0 := entry_of _ _ _).
  pose proof total_pos as Hpos.
  assert (asm_ok e0) as He0.
  { apply entry_of_ok; [apply (proj1 Hp)|unfold is_u16, u16_max; lia|].
    intros a Ha. right. by apply (partial_total l rx). }
  assert (contains_index e0 i = false) as Hc.
  { unfold e0. rewrite entry_retained, (partial_retained l) by done. by apply bool_decide_false. }
  destruct (insert_cost e0 i now (chunk_payload f i) He0) as (Hok & Hle & _);
    [change (asm_total e0) with total; unfold total; lia|done|].
  change (asm_total e0) with total in Hle. unfold e0 in Hle at 1 2. rewrite entry_room, entry_cost in Hle.
  destruct (fresh_descriptors_ok e0 He0) as (_ & Hz & _).
  assert (received (fresh_descriptors e0) = have l) as Hrec.
  { unfold fresh_descriptors. change (asm_total e0) with total.
    unfold e0, entry_of. destruct (rx_chunks rx !! transfer_id f) as [a|] eqn:Ea; cbn [default from_option id received].
    - destruct (partial_lookup l rx a Hp Ea) as (_ & _ & Hr & _). rewrite Hr.
      assert (is_empty (have l) = false) as ->.
      { pose proof (length_have l) as Hlen. destruct (have l); [|done]. cbn in Hlen. unfold total in Hpos. lia. }
      done.
    - cbn [is_empty asm_default received]. destruct l as [|x l].
      + rewrite have_nil. unfold total. by rewrite Nat2Z.id.
      + destruct Hp as [_ (a & Ha & _)]. congruence. }
  assert (received (with_fragment (fresh_descriptors e0) i now (chunk_payload f i)) = have (i :: l)) as Hrec'.
  { cbn [with_fragment received]. by rewrite Hrec, have_insert. }
  assert (asm_total (fresh_descriptors e0) = total) as Htot
    by (unfold fresh_descriptors; by destruct (is_empty (received e0))).
  split; [done|]. split; [done|]. split; [done|]. etransitivity; [exact Hle|].
  unfold raw_cost. rewrite (ao_count _ Hok), Hrec'. pose proof (have_size (i :: l)).
  pose proof (present_le (have (i :: l))). assert (zlen (have (i :: l)) = total) by (unfold zlen, total; by rewrite length_have).
  unfold total in *. lia.
Qed.

(** The room step never refuses a chunk of the transfer. *)
Lemma partial_fits l rx i :
  partial l rx -> (i < sf_total f)%nat ->
  let cost := room_cost (rx_chunks rx) (transfer_id f) total (zlen (chunk_payload f i)) in
  ~ (budget / 64 < total \/ budget < cost \/
     (retained (rx_chunks rx) (transfer_id f) i = false /\ budget < sat_add (own_cost (rx_chunks rx) (transfer_id f)) cost)).
Proof.
  intros Hp Hi. cbv zeta.
  assert (room_cost (rx_chunks rx) (transfer_id f) total (zlen (chunk_payload f i)) <= budget) as Hle.
  { pose proof (chunk_payload_size i). pose proof (zlen_nonneg (chunk_payload f i)). pose proof total_pos. fold total in Hcost.
    unfold room_cost, fragment_cost, descriptor_bytes, sat_add, sat_mul, FRAGMENT_OVERHEAD, DESCRIPTOR_SIZE.
    destruct (no_descriptors _ _); lia. }
  fold total in Hbud. intros [?|[?|[Hret Hown]]]; [lia|lia|].
  rewrite (partial_retained l) in Hret by done. apply bool_decide_eq_false in Hret.
  destruct (partial_stored l rx i 0 Hp Hi Hret) as (_ & _ & _ & Hs). unfold sat_add in Hown. lia.
Qed.

Definition covers (l : list nat) : Prop := forall j, (j < sf_total f)%nat -> j ∈ l.

Lemma check_open additional largest adm :
  has_probe adm = false -> check additional largest adm = (Ok tt, adm).
Proof. intros Hp. destruct (check_cases additional largest adm) as [|(Hx & _)]; [done|congruence]. Qed.

Lemma have_complete e l :
  asm_ok e -> asm_total e = total -> received e = have l -> received_count e = total <-> covers l.
Proof.
  intros Hok Ht Hr. rewrite <- Ht, (complete_count e Hok). unfold complete, covers. rewrite Ht.
  assert (forall i, (i < sf_total f)%nat -> contains_index e i = true <-> i ∈ l) as Hc.
  { intros i Hi. unfold contains_index. rewrite Hr, have_lookup by done. by case_decide. }
  split.
  - intros H j Hj. apply Hc; [done|]. apply H. unfold total. lia.
  - intros H j Hj. unfold total in Hj. apply Hc; [lia|]. apply H. lia.
Qed.

(** What storing a new chunk of the transfer does. *)
Lemma partial_store l rx i now adm :
  partial l rx -> (i < sf_total f)%nat -> i ∉ l -> has_probe adm = false ->
  rx_chunk_bytes rx + room_cost (rx_chunks rx) (transfer_id f) total (zlen (chunk_payload f i)) <= budget ->
  (rx_chunks rx !! transfer_id f = None -> (size (rx_chunks rx) < MAX_TRANSFERS)%nat) ->
  exists r rx', store_chunk (transfer_id f) i total (chunk_payload f i) now rx adm = (Ok r, rx', adm) /\
    ((~ covers (i :: l) /\ r = None /\ partial (i :: l) rx' /\
      (forall a, rx_chunks rx' !! transfer_id f = Some a -> last_seen_ms a = now)) \/
     (covers (i :: l) /\ r = Some (sf_frame f) /\ partial [] rx')).
Proof.
  intros Hp Hi Hil Hadm Hfit Hsize. pose proof total_pos as Hpos.
  destruct (partial_stored l rx i now Hp Hi Hil) as (Hok & Ht & Hrec & _).
  assert (retained (rx_chunks rx) (transfer_id f) i = false) as Hret
    by (rewrite (partial_retained l) by done; by apply bool_decide_false).
  destruct (store_chunk_cases (transfer_id f) i total (chunk_payload f i) now rx adm
    (rx_accounted _ (proj1 Hp)) ltac:(unfold is_u16, u16_max; lia) ltac:(unfold total; lia)
    ltac:(intros a Ha; right; by apply (partial_total l rx)) Hret ltac:(lia)) as (Hins & Hcase). cbv zeta in Hcase.
  set (e := stored _ _ _ _ _ _) in *.
  assert (forall m b n, chunks_ok m b -> (size m <= MAX_TRANSFERS)%nat ->
    rx_ok {| rx_chunks := m; rx_chunk_bytes := total_cost m; rx_chunk_reclaims := n |}) as Hrx.
  { intros m b n Hm Hs. split; [|done]. cbn. by rewrite <- (co_bytes _ _ Hm). }
  destruct Hcase as [(adm' & _ & _ & Hpr)|[[Hc ->]|[Hc ->]]]; [congruence| |].
  - eexists _, _. split; [reflexivity|]. left. rewrite (have_complete e (i :: l) Hok Ht Hrec) in Hc.
    split; [done|]. split; [done|]. split; [split|].
    + apply (Hrx _ _ _ Hins). rewrite map_size_insert.
      destruct (rx_chunks rx !! transfer_id f) as [a|] eqn:Ea; [apply (rx_few _ (proj1 Hp))|].
      specialize (Hsize eq_refl). unfold MAX_TRANSFERS in *. lia.
    + exists e. split; [apply lookup_insert_eq|done].
    + intros a. cbn [set_chunks rx_chunks]. rewrite lookup_insert_eq. by intros [= <-].
  - rewrite (have_complete e (i :: l) Hok Ht Hrec) in Hc.
    assert (present (received e) = map (chunk_payload f) (seq 0 (sf_total f))) as Hpres.
    { rewrite Hrec, have_all by done. rewrite <- (present_some (map _ _)), map_map. done. }
    assert (assemble e adm = (Ok (sf_frame f), adm)) as ->.
    { rewrite <- (chunk_payloads f Hf), <- Hpres. apply assemble_eager; [done| | |by apply check_open].
      - apply (complete_count e Hok). rewrite Ht. by apply (have_complete e (i :: l)).
      - rewrite Hpres, chunk_payloads by done. lia. }
    eexists _, _. split; [reflexivity|]. right. split; [done|]. split; [done|]. split; [|apply lookup_delete_eq].
    destruct (remove_spec _ _ (transfer_id f) (rx_accounted _ (proj1 Hp))) as [_ Hdel].
    apply (Hrx _ _ _ Hdel). pose proof (rx_few _ (proj1 Hp)).
    pose proof (chunks_size_le _ _ (delete_subseteq (rx_chunks rx) (transfer_id f))). lia.
Qed.

End Reassembly.

(** ** Concrete transfers *)

Lemma rx_default_ok : rx_ok rx_default.
Proof. split; [split; [by intros ? ? ?|done|by vm_compute]|vm_compute; lia]. Qed.

Lemma sample_split_ok : split_ok sample_frames.
Proof.
  assert (split (str "a frame that is longer than one chunk") 28 (str "GB") = Ok sample_frames) as H
    by (vm_compute; reflexivity).
  apply (split_split_ok _ _ _ _ H).
Qed.

Definition sample_assembly : SideChunkAssembly :=
  {| last_seen_ms := 5; asm_total := 2; received := [Some (str "ab"); Some (str "c")]; received_count := 2 |}.

Lemma assemble_spec_witness :
  fst (assemble sample_assembly no_admission) = Ok (str "abc").
Proof.
  assert (asm_ok sample_assembly) as Hok by (split; [vm_compute; split; discriminate|by right|done]).
  destruct (assemble_spec sample_assembly no_admission Hok) as [[Hn _]|[_ [[adm' ->]|[_ H]]]].
  - vm_compute. discriminate.
  - destruct Hn. intros [|[|i]] Hi; [reflexivity|reflexivity|]. cbn in Hi. lia.
  - reflexivity.
  - discriminate H.
Defined.
