(* ===== verification/SideTemplate.v ===== *)
(** * Header-template compression (src/src/side_transport.rs, src/src/router.rs)

    The header of a frame minus what varies between frames of one stream is a
    template.  A sender that has transmitted a full frame afterwards sends only
    the template's identifier and the varying fields; the receiver rebuilds the
    frame and its checksum.  This is the codec; the dictionaries of the two ends
    are in [SideLink]. *)

From S2P Require Import Prelude Varint Schema Packet MemoryAdmission WireEnv WireSample WireReader.
From S2P Require Import WireEndpoints WireFrame WireRoundtrip WirePeek WireRewrite SideFrame.

Open Scope Z_scope.

(** ** Templates *)

Record SideHeaderTemplateView : Type := {
  tv_hash : Z;
  tv_base_flags : Z;
  tv_prefix : bytes;
  tv_between : bytes;
  tv_reliable_flags : option Z;
  tv_reliable_compact : bool;
}.

(** Both ranges in one buffer. *)
Record SideHeaderTemplate : Type := {
  st_hash : Z;
  st_base_flags : Z;
  st_header : bytes;
  st_prefix_len : nat;
  st_reliable_flags : option Z;
  st_reliable_compact : bool;
}.

Definition into_owned (v : SideHeaderTemplateView) : SideHeaderTemplate :=
  {| st_hash := tv_hash v; st_base_flags := tv_base_flags v; st_header := tv_prefix v ++ tv_between v;
     st_prefix_len := length (tv_prefix v); st_reliable_flags := tv_reliable_flags v;
     st_reliable_compact := tv_reliable_compact v |}.

Definition prefix (t : SideHeaderTemplate) : bytes := take (st_prefix_len t) (st_header t).
Definition between (t : SideHeaderTemplate) : bytes := drop (st_prefix_len t) (st_header t).

Definition source_address (t : SideHeaderTemplate) : option Z :=
  match read_u64 (between t) 0 with (Ok v, _) => try_u32 v | _ => None end.

Definition template_data_type (reg : Registry) (t : SideHeaderTemplate) : option DataType :=
  match read_u64 (prefix t) 1 with
  | (Ok v, _) => try_u32 v ≫= data_type_try_from_u32 reg
  | _ => None
  end.

Definition is_ack (t : SideHeaderTemplate) : bool :=
  if match st_reliable_flags t with Some f => has_flag f RELIABLE_FLAG_ACK_ONLY | None => false end
  then true
  else match read_u64 (prefix t) 1 with
       | (Ok ty, _) => (ty =? ty_ReliableAck) || (ty =? ty_ReliablePartialAck)
       | _ => false
       end.

(** [flags & !(COMPRESSED | NONCE)]. *)
Definition template_base_flags (flags : Z) : Z :=
  Z.land flags (Z.lxor 255 (Z.lor FLAG_COMPRESSED_PAYLOAD FLAG_PACKET_NONCE)).

(** ** Extraction *)

(** [*data.get(off)], then [off += 1]. *)
Definition prelude_byte : reader Z := fun r =>
  match buf r !! off r with
  | Some b => Ok (b, {| buf := buf r; off := S (off r) |})
  | None => Err (Unpack "short prelude")
  end.

(** [data.len() < off + n], then [off += n]: unchecked additions, as compiled
    without overflow checks. *)
Definition skip (n : Z) : reader unit := fun r =>
  let end_ := wrap64 (Z.of_nat (off r) + n) in
  if zlen (buf r) <? end_ then Err (Unpack "short buffer")
  else Ok (tt, {| buf := buf r; off := Z.to_nat end_ |}).

Definition get_off : reader nat := fun r => Ok (off r, r).

(** The endpoint and contract parts, skipped. *)
Definition skip_endpoints (flags nep : Z) : reader unit :=
  let bitmap_bytes := if has_flag flags FLAG_ENDPOINT_BITMAP_PRESENT then EP_BITMAP_BYTES else 0 in
  _ ← skip bitmap_bytes;
  (if has_flag flags FLAG_ENDPOINT_LIST_PRESENT then
     if negb (bitmap_bytes =? 0) then fail_with (Unpack "ambiguous endpoint encoding")
     else read_endpoint_loop (Z.to_nat nep) None
   else mret tt).

Definition skip_contract (flags : Z) : reader unit :=
  if has_flag flags FLAG_WIRE_CONTRACT then len ← read_uleb128; skip len else mret tt.

(** What the scan of the header leaves: fields and offsets. *)
Record TemplateScan : Type := {
  sc_flags : Z; sc_ty : DataType; sc_size_off : nat; sc_size : Z; sc_timestamp : Z; sc_nonce : Z;
  sc_between : nat; sc_off : nat;
}.

Definition scan_template : reader TemplateScan :=
  flags ← prelude_byte;
  nep ← prelude_byte;
  ty ← read_uleb_u32 "bad data type";
  size_off ← get_off;
  size ← read_uleb128;
  ts ← read_uleb128;
  nonce ← (if has_flag flags FLAG_PACKET_NONCE then read_uleb_u16 "packet nonce too large" else mret 0);
  between ← get_off;
  _ ← read_uleb_u32 "source address too large";
  _ ← skip_endpoints flags nep;
  _ ← skip_contract flags;
  off ← get_off;
  mret {| sc_flags := flags; sc_ty := ty; sc_size_off := size_off; sc_size := size; sc_timestamp := ts;
          sc_nonce := nonce; sc_between := between; sc_off := off |}.

Section SideTemplate.
Context {E : WireEnv}.

Record TemplateExtract : Type := {
  ex_view : SideHeaderTemplateView;
  ex_ty : DataType;
  ex_flags : Z;
  ex_size : Z;
  ex_timestamp : Z;
  ex_nonce : Z;
  ex_reliable : option (Z * Z);
  ex_payload : bytes;
}.

Definition template_hash (base_flags : Z) (prefix between : bytes) (reliable_flags : option Z) : Z :=
  let h := hash_bytes_u64 15111065705945891315 [base_flags] in
  let h := hash_bytes_u64 h prefix in
  let h := hash_bytes_u64 h between in
  match reliable_flags with Some f => hash_bytes_u64 h [f] | None => h end.

Definition extract_side_header_template_view (b : bytes) : result TemplateExtract :=
  if zlen b <? CRC32_BYTES + 4 then Err (Unpack "short buffer")
  else
    let data := take (length b - 4) b in
    sc ← sub_reader scan_template data;
    span ← reliable_header_span b;
    '(rel_flags, seq_ack, compact, payload_off) ←
      match span with
      | Some (rel_off, rel_len, h) =>
          if (length data <? rel_off + rel_len)%nat then Err (Unpack "short buffer")
          else Ok (Some (rh_flags h), Some (rh_seq h, rh_ack h),
                   has_flag (sc_flags sc) FLAG_COMPACT_RELIABLE_HEADER, (rel_off + rel_len)%nat)
      | None => Ok (None, None, false, sc_off sc)
      end;
    if (length data <? payload_off)%nat then Err (Unpack "short buffer")
    else
      let payload := drop payload_off data in
      let prefix := drop 1 (take (sc_size_off sc) data) in
      let between_end := match span with Some (rel_off, _, _) => rel_off | None => payload_off end in
      let between := drop (sc_between sc) (take between_end data) in
      let base_flags := template_base_flags (sc_flags sc) in
      Ok {| ex_view := {| tv_hash := template_hash base_flags prefix between rel_flags;
                          tv_base_flags := base_flags; tv_prefix := prefix; tv_between := between;
                          tv_reliable_flags := rel_flags; tv_reliable_compact := compact |};
            ex_ty := sc_ty sc; ex_flags := sc_flags sc; ex_size := sc_size sc;
            ex_timestamp := sc_timestamp sc; ex_nonce := sc_nonce sc; ex_reliable := seq_ack;
            ex_payload := payload |}.

(** The same with an owned template. *)
Definition extract_side_header_template (b : bytes) : result (SideHeaderTemplate * TemplateExtract) :=
  x ← extract_side_header_template_view b; Ok (into_owned (ex_view x), x).

(** ** Compact frames *)

Inductive SideCompactTimestampMode : Type := Absolute | Delta | Omitted.

(** The body the sender builds; the timestamp field is what the mode carries. *)
Definition compact_body (template_id : Z) (timestamp_field : option Z) (x : TemplateExtract) : bytes :=
  [ex_flags x] ++ write_uleb128 template_id ++ write_uleb128 (ex_size x)
  ++ match timestamp_field with Some t => write_uleb128 t | None => [] end
  ++ (if has_flag (ex_flags x) FLAG_PACKET_NONCE then write_uleb128 (ex_nonce x) else [])
  ++ match ex_reliable x with Some (seq, ack) => write_uleb128 seq ++ write_uleb128 ack | None => [] end
  ++ ex_payload x.

(** The receiver's first look: flags, template and the rest. *)
Definition parse_compact_body (body : bytes) : result (Z * Z * bytes) :=
  match body with
  | [] => Err (Unpack "short side compact frame")
  | flags :: _ =>
      '(id, rest) ← sub_reader (_ ← prelude_byte; id ← read_uleb_u32 "side template id too large";
                                o ← get_off; mret (id, drop o body)) body;
      Ok (flags, id, rest)
  end.

(** The fields of a compact body. *)
Definition compact_fields (t : SideHeaderTemplate) (flags : Z) (mode : SideCompactTimestampMode)
    (timestamp_base : option Z) : reader (Z * Z * option Z * option (Z * Z) * nat) :=
  size ← read_uleb128;
  ts ← match mode with
       | Absolute => read_uleb128
       | Delta =>
           field ← read_uleb128;
           base ← lift (ok_or timestamp_base (Unpack "missing side compact timestamp context"));
           lift (ok_or (checked_add base field) (Unpack "side compact timestamp delta overflow"))
       | Omitted => lift (ok_or timestamp_base (Unpack "missing side compact timestamp context"))
       end;
  nonce ← (if has_flag flags FLAG_PACKET_NONCE then n ← read_uleb128; mret (Some n) else mret None);
  seq_ack ← match st_reliable_flags t with
            | Some _ =>
                seq ← read_uleb_u32 "side compact reliable seq too large";
                ack ← read_uleb_u32 "side compact reliable ack too large";
                mret (Some (seq, ack))
            | None => mret None
            end;
  o ← get_off;
  mret (size, ts, nonce, seq_ack, o).

Definition reconstruct_side_compact_frame (t : SideHeaderTemplate) (flags : Z) (body : bytes)
    (mode : SideCompactTimestampMode) (timestamp_base : option Z) : result (bytes * Z) :=
  if is_empty body then Err (Unpack "short side compact frame")
  else if negb (template_base_flags flags =? st_base_flags t)
  then Err (Unpack "side compact flags mismatch")
  else
    '(size, ts, nonce, seq_ack, o) ← sub_reader (compact_fields t flags mode timestamp_base) body;
    let payload := drop o body in
    let raw := [flags] ++ prefix t ++ write_uleb128 size ++ write_uleb128 ts
               ++ match nonce with Some n => write_uleb128 n | None => [] end ++ between t in
    rel ← match st_reliable_flags t with
          | Some f =>
              '(seq, ack) ← ok_or seq_ack (Unpack "missing side compact reliable");
              Ok (write_reliable_header_encoded {| rh_flags := f; rh_seq := seq; rh_ack := ack |}
                    (st_reliable_compact t))
          | None => Ok []
          end;
    Ok (append_crc32 (raw ++ rel ++ payload), ts).

(** ** Reading a layout *)

Lemma reads_uleb_u64 e v : bytes_ok e -> reads read_uleb128 e v -> is_u64 v /\ e <> [].
Proof.
  intros He R. specialize (R [] []). rewrite app_nil_r in R. unfold read_uleb128, at_ in R. cbn [buf off app length] in R.
  pose proof (read_u64_bounds e 0 He) as (_ & Hlen & H). destruct (read_u64 e 0) as [[v'|] o]; [|done].
  injection R as -> _. destruct (H v eq_refl) as [Hv Ho]. split; [done|]. intros ->.
  cbn in Hlen, Ho. lia.
Qed.

Lemma reads_lifted {A B} (p : reader A) (g : A -> result B) e v :
  local p -> reads (p ≫= fun a => lift (g a)) e v -> exists a, reads p e a /\ g a = Ok v.
Proof.
  intros Hp H. pose proof H as H0. specialize (H0 [] []). rewrite app_nil_r in H0.
  apply bind_ok_inv in H0 as (a & r1 & Ha & Hg). apply lift_ok_inv in Hg as [Hg Hr]. subst r1.
  apply Hp in Ha as (enc & rest & He & Hat & R). cbn [app] in Hat. apply at_inj in Hat as [Heq _].
  subst enc. by exists a.
Qed.

Lemma reads_uleb_u32_inv m e v : bytes_ok e -> reads (read_uleb_u32 m) e v -> reads read_uleb128 e v /\ is_u32 v /\ e <> [].
Proof.
  intros He R. apply reads_lifted in R as (a & R & Hv); [|apply local_uleb128].
  apply ok_or_ok, try_u32_some in Hv as [-> Hv]. destruct (reads_uleb_u64 e a He R) as [Hu Hn].
  split; [done|]. split; [solve_u|done].
Qed.

Lemma reads_uleb_u16_inv m e v : bytes_ok e -> reads (read_uleb_u16 m) e v -> reads read_uleb128 e v /\ is_u16 v.
Proof.
  intros He R. apply reads_lifted in R as (a & R & Hv); [|apply local_uleb128].
  apply ok_or_ok in Hv. unfold try_u16 in Hv. destruct (Z.leb_spec a u16_max); [|done]. injection Hv as <-.
  destruct (reads_uleb_u64 e a He R) as [Hu _]. split; [done|solve_u].
Qed.

(** The fields whose bytes are free in a template. *)
Record fields_ok (u : UnpackPrefix) : Prop := {
  fo_size : is_u64 (up_dsz u);
  fo_ts : is_u64 (up_timestamp u);
  fo_nonce : is_u16 (up_nonce u);
}.

Lemma layout_fields ly u :
  bytes_ok (layout_head u ly) -> layout_ok ly u ->
  fields_ok u /\ bytes_ok (layout_head u ly) /\ (6 <= length (layout_head u ly))%nat /\
  reads (read_uleb_u32 "bad data type") (ly_ty ly) (up_ty u).
Proof.
  intros Hb [(ty_v & Rty & Hty) Rd Rts Rn Rs Re Rc _]. pose proof Hb as Hb0. unfold layout_head, layout_rest in Hb.
  apply Forall_cons in Hb as [Hfl Hb]. apply Forall_cons in Hb as [Hnep Hb].
  apply Forall_app in Hb as [H1 Hb]. apply Forall_app in Hb as [H2 Hb]. apply Forall_app in Hb as [H3 Hb].
  apply Forall_app in Hb as [H4 Hb]. apply Forall_app in Hb as [H5 Hb].
  destruct (reads_uleb_u64 _ _ H1 Rty) as [Hv1 N1]. destruct (reads_uleb_u64 _ _ H2 Rd) as [Hv2 N2].
  destruct (reads_uleb_u64 _ _ H3 Rts) as [Hv3 N3].
  destruct (reads_uleb_u32_inv _ _ _ H5 Rs) as (_ & _ & N5).
  split; [|split; [done|split]].
  - split; [done|done|]. destruct (has_flag _ FLAG_PACKET_NONCE).
    + by apply reads_uleb_u16_inv in Rn as [_ ?].
    + specialize (Rn [] []). rewrite app_nil_r in Rn. injection Rn as <- _ _. solve_u.
  - unfold layout_head, layout_rest. cbn [length]. rewrite !length_app.
    destruct (ly_ty ly), (ly_dsz ly), (ly_ts ly), (ly_src ly); try done. cbn [length]. lia.
  - unfold data_type_id_from_wire in Hty. apply ok_or_ok in Hty.
    unfold read_uleb_u32. eapply reads_map; [exact Rty|]. apply reads_lift. by rewrite Hty.
Qed.

Lemma reads_prelude_byte b : reads prelude_byte [b] b.
Proof.
  intros pre rest. unfold prelude_byte, at_ at 1 2 3 4. cbn [buf off].
  rewrite lookup_app_r, Nat.sub_diag by lia. cbn [app lookup list_lookup]. do 2 f_equal.
  unfold at_. by rewrite <- app_assoc, length_app, Nat.add_1_r.
Qed.

Lemma bind_get_off {B} (k : nat -> reader B) pre rest :
  (get_off ≫= k) (at_ pre rest) = k (length pre) (at_ pre rest).
Proof. done. Qed.

Lemma bind_skip {B} (k : unit -> reader B) n pre e rest :
  zlen e = n -> zlen (pre ++ e ++ rest) <= isize_max ->
  (skip n ≫= k) (at_ pre (e ++ rest)) = k tt (at_ (pre ++ e) rest).
Proof.
  intros <- Hmax. rewrite !zlen_app in Hmax. pose proof (zlen_nonneg rest). pose proof (zlen_nonneg e).
  unfold skip, mbind, reader_bind, at_ at 1 2 3 4. cbn [buf off]. fold (zlen pre).
  rewrite wrap64_small by (pose proof (zlen_nonneg pre); solve_u).
  rewrite !zlen_app, (proj2 (Z.ltb_ge _ _)) by lia. f_equal. unfold at_. rewrite app_assoc. f_equal.
  rewrite length_app. unfold zlen. lia.
Qed.

Lemma reads_endpoint_loop nep e x :
  reads (read_endpoint_list nep) e x -> reads (read_endpoint_loop (Z.to_nat nep) None) e tt.
Proof.
  intros H pre rest. specialize (H pre rest). unfold read_endpoint_list in H.
  destruct (read_endpoint_loop _ None _) as [[[] r']|]; [|done]. by injection H as _ ->.
Qed.

Lemma run_skip_endpoints flags nep e x pre rest :
  reads (endpoint_bytes_reader flags nep) e x -> zlen (pre ++ e ++ rest) <= isize_max ->
  skip_endpoints flags nep (at_ pre (e ++ rest)) = Ok (tt, at_ (pre ++ e) rest).
Proof.
  intros R Hmax. unfold endpoint_bytes_reader in R. unfold skip_endpoints. cbv zeta.
  destruct (has_flag flags FLAG_ENDPOINT_LIST_PRESENT), (has_flag flags FLAG_ENDPOINT_BITMAP_PRESENT).
  - by specialize (R [] []).
  - rewrite (bind_skip _ 0 pre [] (e ++ rest)) by done. rewrite app_nil_r. by apply (reads_endpoint_loop _ _ x).
  - specialize (R [] []). rewrite app_nil_r in R. apply read_bytes_inv in R as (l & He & Hat & Hl); [|done].
    apply at_inj in Hat as [Hat _]. cbn [app] in Hat. subst x. by rewrite (bind_skip _ EP_BITMAP_BYTES).
  - specialize (R [] []). rewrite app_nil_r in R. injection R as _ _ Hlen. destruct e; [|done].
    rewrite (bind_skip _ 0 pre [] rest) by done. done.
Qed.

Lemma run_skip_contract flags e c pre rest :
  bytes_ok e -> reads (decode_wire_contract (has_flag flags FLAG_WIRE_CONTRACT)) e c ->
  zlen (pre ++ e ++ rest) <= isize_max ->
  skip_contract flags (at_ pre (e ++ rest)) = Ok (tt, at_ (pre ++ e) rest).
Proof.
  intros He R Hmax. unfold decode_wire_contract in R. unfold skip_contract.
  specialize (R [] []). rewrite app_nil_r in R. destruct (has_flag flags FLAG_WIRE_CONTRACT); cbn [negb] in R.
  - apply bind_ok_inv in R as (len & r1 & H1 & R). apply local_uleb128 in H1 as (e1 & l1 & -> & -> & R1).
    apply bind_ok_inv in R as (body & r2 & H2 & R). apply lift_ok_inv in R as [_ Hat].
    rewrite zlen_app in Hmax. pose proof (zlen_nonneg pre). rewrite <- app_assoc, zlen_app in Hmax.
    pose proof (zlen_nonneg e1).
    apply read_bytes_inv in H2 as (l2 & -> & Hr & Hl).
    + rewrite Hr in Hat. apply at_inj in Hat as [_ Hn]. subst l2. rewrite app_nil_r in *.
      rewrite <- app_assoc, (bind_reads _ _ _ _ _ _ R1).
      pose proof (bind_skip (fun _ : unit => mret tt) len (pre ++ e1) body rest Hl) as Hs.
      unfold mbind, reader_bind in Hs. destruct (skip len _) as [[[] r]|]; rewrite !zlen_app in *.
      * rewrite <- !app_assoc in *. apply Hs. lia.
      * discriminate Hs. lia.
    + apply Forall_app in He as [He _]. by apply (reads_uleb_u64 e1 len He) in R1 as [[? _] _].
  - injection R as _ _ Hlen. destruct e; [|done]. by rewrite app_nil_r.
Qed.

Definition before_between (u : UnpackPrefix) (ly : Layout) : bytes :=
  up_flags u :: up_nep u :: ly_ty ly ++ ly_dsz ly ++ ly_ts ly ++ ly_nonce ly.

Lemma layout_head_split u ly :
  layout_head u ly = before_between u ly ++ ly_src ly ++ ly_eps ly ++ ly_contract ly.
Proof. unfold layout_head, layout_rest, before_between. cbn [app]. by rewrite <- !app_assoc. Qed.

Lemma scan_layout u ly tail :
  layout_ok ly u -> bytes_ok (layout_head u ly) -> zlen (layout_head u ly ++ tail) <= isize_max ->
  sub_reader scan_template (layout_head u ly ++ tail)
  = Ok {| sc_flags := up_flags u; sc_ty := up_ty u; sc_size_off := (2 + length (ly_ty ly))%nat;
          sc_size := up_dsz u; sc_timestamp := up_timestamp u; sc_nonce := up_nonce u;
          sc_between := length (before_between u ly); sc_off := length (layout_head u ly) |}.
Proof.
  intros Hly Hb Hmax. destruct (layout_fields ly u Hb Hly) as (_ & _ & _ & Rty).
  destruct Hly as [_ Rd Rts Rn Rs Re Rc _].
  destruct (reads_endpoint_bytes _ _ _ _ _ _ _ (up_flags u) eq_refl eq_refl Re) as [x Rx].
  assert (bytes_ok (ly_contract ly)) as Hbc.
  { rewrite layout_head_split, !Forall_app in Hb. tauto. }
  rewrite layout_head_split in Hmax |- *. unfold before_between in Hmax |- *.
  apply sub_reader_ok. eexists. unfold scan_template.
  rewrite (cons_app1 (up_flags u)), (cons_app1 (up_nep u)) in Hmax |- *. rewrite <- !app_assoc in Hmax |- *.
  rewrite (bind_reads _ _ _ _ _ _ (reads_prelude_byte _)), (bind_reads _ _ _ _ _ _ (reads_prelude_byte _)).
  rewrite (bind_reads _ _ _ _ _ _ Rty), bind_get_off, (bind_reads _ _ _ _ _ _ Rd),
    (bind_reads _ _ _ _ _ _ Rts), (bind_reads _ _ _ _ _ _ Rn), bind_get_off, (bind_reads _ _ _ _ _ _ Rs).
  match type of Hmax with zlen ?l <= _ => set (all := l) in Hmax end.
  erewrite bind_run; [|apply (run_skip_endpoints _ _ _ x); [exact Rx|by rewrite <- !app_assoc]].
  erewrite bind_run; [|apply (run_skip_contract _ _ (up_contract u)); [done|exact Rc|by rewrite <- !app_assoc]].
  rewrite bind_get_off. unfold mret, reader_ret. rewrite <- !app_assoc. cbn [app].
  reflexivity.
Qed.

Definition template_of (u : UnpackPrefix) (ly : Layout) : SideHeaderTemplateView :=
  let base := template_base_flags (up_flags u) in
  let p := up_nep u :: ly_ty ly in
  let m := ly_src ly ++ ly_eps ly ++ ly_contract ly in
  let rf := option_map rh_flags (up_reliable u) in
  {| tv_hash := template_hash base p m rf; tv_base_flags := base; tv_prefix := p; tv_between := m;
     tv_reliable_flags := rf;
     tv_reliable_compact := match up_reliable u with
                            | Some _ => has_flag (up_flags u) FLAG_COMPACT_RELIABLE_HEADER
                            | None => false end |}.

Definition extract_of (u : UnpackPrefix) (ly : Layout) (pl : bytes) : TemplateExtract :=
  {| ex_view := template_of u ly; ex_ty := up_ty u; ex_flags := up_flags u; ex_size := up_dsz u;
     ex_timestamp := up_timestamp u; ex_nonce := up_nonce u;
     ex_reliable := option_map (fun h => (rh_seq h, rh_ack h)) (up_reliable u); ex_payload := pl |}.

Lemma extract_layout u ly rel pl :
  layout_ok ly u -> rel_ok rel u -> bytes_ok (layout_head u ly) ->
  zlen (layout_head u ly ++ rel ++ pl) <= isize_max ->
  extract_side_header_template_view (append_crc32 (layout_head u ly ++ rel ++ pl))
  = Ok (extract_of u ly pl).
Proof.
  intros Hly Hrel Hb Hmax. unfold extract_side_header_template_view.
  destruct (layout_fields ly u Hb Hly) as (_ & _ & Hlen & _).
  assert (zlen (append_crc32 (layout_head u ly ++ rel ++ pl)) = zlen (layout_head u ly ++ rel ++ pl) + 4) as ->.
  { unfold append_crc32. rewrite zlen_app. f_equal. }
  rewrite (proj2 (Z.ltb_ge _ _)) by (rewrite zlen_app; pose proof (zlen_nonneg (rel ++ pl));
    unfold CRC32_BYTES; unfold zlen in *; lia).
  rewrite take_data, (scan_layout u ly (rel ++ pl)), result_bind_run by done. cbn [sc_flags sc_ty sc_size_off sc_size sc_timestamp sc_nonce sc_between sc_off].
  rewrite span_of_frame, (header_span_layout u ly rel pl Hly Hrel) by apply layout_not_nil.
  rewrite result_bind_run.
  assert (drop 1 (take (2 + length (ly_ty ly)) (layout_head u ly ++ rel ++ pl)) = up_nep u :: ly_ty ly) as ->.
  { unfold layout_head, layout_rest. cbn [app take drop Nat.add]. do 2 f_equal. rewrite <- !app_assoc. apply take_app_length. }
  assert (drop (length (before_between u ly)) (take (length (layout_head u ly)) (layout_head u ly ++ rel ++ pl))
    = ly_src ly ++ ly_eps ly ++ ly_contract ly) as Hbetween.
  { rewrite take_app_length, layout_head_split. apply drop_app_length. }
  assert (drop (length (layout_head u ly) + length rel) (layout_head u ly ++ rel ++ pl) = pl) as Hpl.
  { rewrite app_assoc, <- length_app. apply drop_app_length. }
  unfold rel_ok in Hrel. unfold extract_of, template_of.
  destruct (up_reliable u) as [h|] eqn:Eh.
  - rewrite (proj2 (Nat.ltb_ge _ _)) by (rewrite !length_app; lia). rewrite result_bind_run. cbn beta iota.
    rewrite (proj2 (Nat.ltb_ge _ _)) by (rewrite !length_app; lia). by rewrite Hbetween, Hpl.
  - assert (rel = []) as ->.
    { destruct (has_rel u); [destruct Hrel as (h & _ & ? & _); done|apply Hrel]. }
    rewrite result_bind_run. cbn beta iota. cbn [length app] in *. rewrite Nat.add_0_r in Hpl.
    rewrite (proj2 (Nat.ltb_ge _ _)) by (rewrite !length_app; lia). by rewrite Hbetween, Hpl.
Qed.

(** ** The reliable header of an accepted frame *)

Lemma rel_header rel u h :
  bytes_ok rel -> rel_ok rel u -> up_reliable u = Some h ->
  let c := has_flag (up_flags u) FLAG_COMPACT_RELIABLE_HEADER in
  has_rel u = true /\ header_ok h /\ decoded_header h c = h /\
  has_flag (rh_flags h) RELIABLE_FLAG_ACK_ONLY = false.
Proof.
  intros Hb Hrel Hh c. unfold rel_ok in Hrel. destruct (has_rel u); [|destruct Hrel; congruence].
  destruct Hrel as (h' & R & Hh' & Ha). assert (h' = h) as -> by congruence. split; [done|].
  enough (header_ok h /\ decoded_header h c = h) by tauto. fold c in R. specialize (R [] []). rewrite app_nil_r in R.
  unfold read_reliable_header_encoded in R. destruct c.
  - unfold read_reliable_header_compact in R.
    apply bind_ok_inv in R as (f & r1 & H1 & R). apply read_byte_inv in H1 as (l1 & -> & ->).
    apply Forall_cons in Hb as [Hf Hb].
    apply bind_ok_inv in R as (seq & r2 & H2 & R). apply bind_ok_inv in R as (ack & r3 & H3 & R).
    injection R as <- _.
    assert (forall m g pre l v r, (if g : bool then read_uleb_u32 m else mret 0) (at_ pre l) = Ok (v, r) ->
      bytes_ok l -> is_u32 v /\ exists pre' l', r = at_ pre' l' /\ bytes_ok l') as Hopt.
    { intros m [] pre l v r H Hl.
      - apply local_uleb_u32 in H as (e & l' & -> & -> & R). apply Forall_app in Hl as [He Hl].
        apply reads_uleb_u32_inv in R as (_ & ? & _); [|done]. split; [done|]. by eexists _, _.
      - injection H as <- <-. split; [solve_u|]. by eexists _, _. }
    apply Hopt in H2 as [Hs (pre' & l' & -> & Hl')]; [|done]. apply Hopt in H3 as [Hk _]; [|done].
    assert (is_u8 (Z.land f RELIABLE_PUBLIC_FLAGS_MASK)) as H8.
    { split; [apply Z.land_nonneg; left; solve_u|].
      apply Z.lt_succ_r. change (Z.succ u8_max) with (2 ^ 8).
      destruct (Z.eq_dec (Z.land f RELIABLE_PUBLIC_FLAGS_MASK) 0) as [->|Hne]; [done|].
      apply Z.log2_lt_pow2; [pose proof (proj2 (Z.land_nonneg f RELIABLE_PUBLIC_FLAGS_MASK)); unfold is_u8 in Hf; lia|].
      pose proof (Z.log2_land f RELIABLE_PUBLIC_FLAGS_MASK ltac:(solve_u) ltac:(done)) as Hlog.
      change (Z.log2 RELIABLE_PUBLIC_FLAGS_MASK) with 7 in Hlog. lia. }
    split; [done|]. unfold decoded_header, public_header. cbn [rh_flags rh_seq rh_ack]. f_equal.
    by rewrite <- Z.land_assoc.
  - unfold read_reliable_header in R.
    apply bind_ok_inv in R as (f & r1 & H1 & R). apply read_byte_inv in H1 as (l1 & -> & ->).
    apply Forall_cons in Hb as [Hf Hb].
    assert (forall pre l v r, read_u32_le (at_ pre l) = Ok (v, r) ->
      bytes_ok l -> is_u32 v /\ exists pre' l', r = at_ pre' l' /\ bytes_ok l') as Hle.
    { intros pre l v r H Hl. apply bind_ok_inv in H as (x & r' & Hx & H).
      apply read_bytes_inv in Hx as (l' & -> & -> & Hx); [|lia]. apply Forall_app in Hl as [Hx0 Hl].
      injection H as <- <-. split; [|by eexists _, _].
      pose proof (from_le_range x Hx0) as Hr. rewrite Hx in Hr. change (256 ^ 4) with (2 ^ 32) in Hr. solve_u. }
    apply bind_ok_inv in R as (seq & r2 & H2 & R). apply bind_ok_inv in R as (ack & r3 & H3 & R).
    injection R as <- _. apply Hle in H2 as [Hs (pre' & l' & -> & Hl')]; [|done].
    apply Hle in H3 as [Hk _]; [|done]. done.
Qed.

(** ** Reconstruction *)

Definition canonical (u : UnpackPrefix) (ly : Layout) : Layout :=
  {| ly_ty := ly_ty ly; ly_dsz := write_uleb128 (up_dsz u); ly_ts := write_uleb128 (up_timestamp u);
     ly_nonce := if has_flag (up_flags u) FLAG_PACKET_NONCE then write_uleb128 (up_nonce u) else [];
     ly_src := ly_src ly; ly_eps := ly_eps ly; ly_contract := ly_contract ly |}.

Definition canonical_rel (u : UnpackPrefix) : bytes :=
  match up_reliable u with
  | Some h => write_reliable_header_encoded h (has_flag (up_flags u) FLAG_COMPACT_RELIABLE_HEADER)
  | None => []
  end.

Lemma canonical_layout u ly :
  layout_ok ly u -> bytes_ok (layout_head u ly) -> layout_ok (canonical u ly) u.
Proof.
  intros Hly Hb. destruct (layout_fields ly u Hb Hly) as ([Hd Ht Hn] & _).
  destruct Hly as [L1 L2 L3 L4 L5 L6 L7 L8].
  split; cbn [canonical ly_ty ly_dsz ly_ts ly_nonce ly_src ly_eps ly_contract]; try done.
  - by apply reads_uleb128.
  - by apply reads_uleb128.
  - destruct (has_flag _ FLAG_PACKET_NONCE); [by apply reads_uleb_u16|].
    specialize (L4 [] []). rewrite app_nil_r in L4. injection L4 as <- _ _. apply reads_ret.
Qed.

Lemma canonical_rel_ok rel u :
  bytes_ok rel -> rel_ok rel u -> rel_ok (canonical_rel u) u.
Proof.
  intros Hb Hrel. unfold canonical_rel. destruct (up_reliable u) as [h|] eqn:Eh.
  - destruct (rel_header rel u h Hb Hrel Eh) as (Hh & Hok & Hdec & Ha). unfold rel_ok. rewrite Hh.
    exists h. split; [|done]. rewrite <- Hdec at 2. by apply reads_reliable_header.
  - unfold rel_ok in *. destruct (has_rel u); [destruct Hrel as (h & _ & ? & _); congruence|done].
Qed.

(** What a mode puts in the timestamp field. *)
Definition timestamp_field_ok (mode : SideCompactTimestampMode) (base : option Z) (ts : Z)
    (field : option Z) : Prop :=
  match mode with
  | Absolute => field = Some ts
  | Delta => exists b, base = Some b /\ 0 <= b <= ts /\ field = Some (ts - b)
  | Omitted => base = Some ts /\ field = None
  end.

Definition compact_rest (field : option Z) (x : TemplateExtract) : bytes :=
  write_uleb128 (ex_size x)
  ++ match field with Some t => write_uleb128 t | None => [] end
  ++ (if has_flag (ex_flags x) FLAG_PACKET_NONCE then write_uleb128 (ex_nonce x) else [])
  ++ match ex_reliable x with Some (seq, ack) => write_uleb128 seq ++ write_uleb128 ack | None => [] end
  ++ ex_payload x.

Lemma parse_compact id field x :
  is_u32 id -> parse_compact_body (compact_body id field x) = Ok (ex_flags x, id, compact_rest field x).
Proof.
  intros Hid. unfold parse_compact_body, compact_body. cbn [app].
  fold (compact_rest field x). set (body := ex_flags x :: _).
  assert (sub_reader (_ ← prelude_byte; id ← read_uleb_u32 "side template id too large";
    o ← get_off; mret (id, drop o body)) body = Ok (id, compact_rest field x)) as ->; [|done].
  unfold body at 2. apply sub_reader_ok. eexists. rewrite (cons_app1 (ex_flags x)).
  rewrite (bind_reads _ _ _ _ _ _ (reads_prelude_byte _)), (bind_reads _ _ _ _ _ _ (reads_uleb_u32 id _ Hid)).
  rewrite bind_get_off. unfold mret, reader_ret. do 3 f_equal.
  unfold body. rewrite (cons_app1 (ex_flags x)), app_assoc. apply drop_app_length.
Qed.

Lemma write_uleb128_not_nil v : is_u64 v -> write_uleb128 v <> [].
Proof.
  intros Hv He. pose proof (uleb128_size_length v Hv) as H. rewrite He in H.
  pose proof (uleb128_size_le v Hv). change (zlen []) with 0 in H. lia.
Qed.

Lemma run_compact_fields u ly rel pl mode base field :
  fields_ok u -> bytes_ok rel -> rel_ok rel u ->
  timestamp_field_ok mode base (up_timestamp u) field ->
  let x := extract_of u ly pl in
  exists o, sub_reader (compact_fields (into_owned (ex_view x)) (up_flags u) mode base) (compact_rest field x)
    = Ok (up_dsz u, up_timestamp u,
          if has_flag (up_flags u) FLAG_PACKET_NONCE then Some (up_nonce u) else None,
          option_map (fun h => (rh_seq h, rh_ack h)) (up_reliable u), o) /\
    drop o (compact_rest field x) = pl.
Proof.
  intros [Hd Ht Hn] Hb Hrel Hf. cbv zeta.
  set (x := extract_of u ly pl).
  set (nonce := if has_flag (up_flags u) FLAG_PACKET_NONCE then write_uleb128 (up_nonce u) else []).
  set (ts := match field with Some t => write_uleb128 t | None => [] end).
  set (sa := match up_reliable u with Some h => write_uleb128 (rh_seq h) ++ write_uleb128 (rh_ack h) | None => [] end).
  assert (compact_rest field x = write_uleb128 (up_dsz u) ++ ts ++ nonce ++ sa ++ pl) as ->.
  { unfold compact_rest. cbn [x extract_of ex_size ex_flags ex_nonce ex_reliable ex_payload]. fold nonce ts.
    do 4 f_equal. unfold sa. by destruct (up_reliable u). }
  exists (length (write_uleb128 (up_dsz u) ++ ts ++ nonce ++ sa)). split.
  2: { replace (write_uleb128 (up_dsz u) ++ ts ++ nonce ++ sa ++ pl) with
         ((write_uleb128 (up_dsz u) ++ ts ++ nonce ++ sa) ++ pl) by (by rewrite <- !app_assoc).
       apply drop_app_length. }
  apply sub_reader_ok. eexists. unfold compact_fields.
  rewrite (bind_reads _ _ _ _ _ _ (reads_uleb128 _ Hd)).
  erewrite (bind_reads _ _ ts (up_timestamp u)).
  2: { unfold ts. destruct mode; cbn in Hf.
       - rewrite Hf. by apply reads_uleb128.
       - destruct Hf as (b & -> & Hb' & ->).
         eapply reads_map; [apply reads_uleb128; solve_u|]. eapply (reads_bind _ _ [] []); [by apply reads_lift|].
         apply reads_lift. unfold checked_add. rewrite (proj2 (Z.leb_le _ _)) by solve_u. cbn. do 2 f_equal. lia.
       - destruct Hf as [-> ->]. by apply reads_lift. }
  erewrite (bind_reads _ _ nonce (if has_flag (up_flags u) FLAG_PACKET_NONCE then Some (up_nonce u) else None)).
  2: { unfold nonce. destruct (has_flag _ FLAG_PACKET_NONCE); [|apply reads_ret].
       eapply reads_map; [apply reads_uleb128; eauto with sed_arith|apply reads_ret]. }
  erewrite (bind_reads _ _ sa (option_map (fun h => (rh_seq h, rh_ack h)) (up_reliable u))).
  2: { unfold sa. cbn [x extract_of ex_view template_of into_owned st_reliable_flags tv_reliable_flags].
       destruct (up_reliable u) as [h|] eqn:Eh; cbn [option_map]; [|apply reads_ret].
       destruct (rel_header rel u h Hb Hrel Eh) as (_ & (_ & Hs & Hk) & _).
       eapply reads_bind; [by apply reads_uleb_u32|]. eapply reads_map; [by apply reads_uleb_u32|]. apply reads_ret. }
  rewrite bind_get_off. cbn [app]. unfold mret, reader_ret. by rewrite <- !app_assoc.
Qed.

Lemma reconstruct_layout u ly rel pl mode base field :
  layout_ok ly u -> bytes_ok (layout_head u ly) -> bytes_ok rel -> rel_ok rel u ->
  timestamp_field_ok mode base (up_timestamp u) field ->
  let x := extract_of u ly pl in
  reconstruct_side_compact_frame (into_owned (ex_view x)) (up_flags u) (compact_rest field x) mode base
  = Ok (append_crc32 (layout_head u (canonical u ly) ++ canonical_rel u ++ pl), up_timestamp u).
Proof.
  intros Hly Hb Hbr Hrel Hf x. destruct (layout_fields ly u Hb Hly) as (Hfields & _).
  unfold reconstruct_side_compact_frame.
  assert (is_empty (compact_rest field x) = false) as ->.
  { unfold compact_rest. pose proof (write_uleb128_not_nil _ (fo_size u Hfields)) as Hnn.
    cbn [x extract_of ex_size]. by destruct (write_uleb128 (up_dsz u)). }
  assert (st_base_flags (into_owned (ex_view x)) = template_base_flags (up_flags u)) as -> by done.
  rewrite Z.eqb_refl. cbn [negb].
  destruct (run_compact_fields u ly rel pl mode base field Hfields Hbr Hrel Hf) as (o & Hrun & Hdrop).
  cbv zeta in Hrun, Hdrop. fold x in Hrun, Hdrop. rewrite Hrun, result_bind_run. cbn beta iota. rewrite Hdrop.
  assert (prefix (into_owned (ex_view x)) = up_nep u :: ly_ty ly) as -> by (apply take_app_length).
  assert (between (into_owned (ex_view x)) = ly_src ly ++ ly_eps ly ++ ly_contract ly) as -> by (apply drop_app_length).
  assert ([up_flags u] ++ (up_nep u :: ly_ty ly) ++ write_uleb128 (up_dsz u) ++ write_uleb128 (up_timestamp u)
    ++ match (if has_flag (up_flags u) FLAG_PACKET_NONCE then Some (up_nonce u) else None) with
       | Some n => write_uleb128 n | None => [] end ++ ly_src ly ++ ly_eps ly ++ ly_contract ly
    = layout_head u (canonical u ly)) as ->.
  { unfold layout_head, layout_rest, canonical. cbn [app ly_ty ly_dsz ly_ts ly_nonce ly_src ly_eps ly_contract].
    do 2 f_equal. do 3 f_equal. by destruct (has_flag _ FLAG_PACKET_NONCE). }
  unfold canonical_rel. cbn [x extract_of ex_view template_of into_owned st_reliable_flags tv_reliable_flags
    st_reliable_compact tv_reliable_compact].
  destruct (up_reliable u) as [h|]; cbn [option_map ok_or]; rewrite !result_bind_run.
  - by destruct h.
  - done.
Qed.

Lemma canonical_bytes u ly :
  layout_ok ly u -> bytes_ok (layout_head u ly) -> bytes_ok (layout_head u (canonical u ly)).
Proof.
  intros Hly Hb. destruct (layout_fields ly u Hb Hly) as ([Hd Ht Hn] & _).
  unfold layout_head, layout_rest in *. cbn [canonical ly_ty ly_dsz ly_ts ly_nonce ly_src ly_eps ly_contract].
  rewrite !Forall_cons, !Forall_app in *. destruct Hb as (? & ? & ? & ? & ? & ? & ? & ? & ?).
  assert (forall v, is_u64 v -> bytes_ok (write_uleb128 v)) as Hw by (intros v [? _]; by apply write_uleb128_ok).
  split_and!; try done; auto.
  destruct (has_flag _ FLAG_PACKET_NONCE); [|done]. apply Hw. eauto with sed_arith.
Qed.

Lemma canonical_size u ly rel pl :
  layout_ok ly u -> bytes_ok (layout_head u ly) -> bytes_ok rel -> rel_ok rel u ->
  zlen (layout_head u (canonical u ly) ++ canonical_rel u ++ pl)
  <= zlen (layout_head u ly ++ rel ++ pl) + 60.
Proof.
  intros Hly Hb Hbr Hrel. destruct (layout_fields ly u Hb Hly) as ([Hd Ht Hn] & _).
  assert (zlen (canonical_rel u) <= 21) as Hr.
  { unfold canonical_rel. destruct (up_reliable u) as [h|] eqn:Eh; [|by vm_compute].
    destruct (rel_header rel u h Hbr Hrel Eh) as (_ & Hok & _). rewrite write_reliable_header_size by done.
    destruct Hok as (_ & Hs & Hk). unfold reliable_wire_size, reliable_compact_size, RELIABLE_HEADER_BYTES.
    pose proof (uleb128_size_le (rh_seq h) (is_u32_u64 _ Hs)). pose proof (uleb128_size_le (rh_ack h) (is_u32_u64 _ Hk)).
    destruct (has_flag _ _), (seq_present h), (ack_present h); lia. }
  assert (zlen (if has_flag (up_flags u) FLAG_PACKET_NONCE then write_uleb128 (up_nonce u) else []) <= 10) as Hno.
  { destruct (has_flag _ FLAG_PACKET_NONCE); [|by vm_compute].
    rewrite uleb128_size_length by eauto with sed_arith. apply uleb128_size_le. eauto with sed_arith. }
  unfold layout_head, layout_rest. cbn [canonical ly_ty ly_dsz ly_ts ly_nonce ly_src ly_eps ly_contract].
  assert (forall (x : Z) l, zlen (x :: l) = 1 + zlen l) as Hc by (intros; unfold zlen; cbn [length]; lia).
  rewrite !zlen_app, !Hc, !zlen_app, !uleb128_size_length by done.
  pose proof (uleb128_size_le _ Hd). pose proof (uleb128_size_le _ Ht). pose proof (zlen_nonneg rel).
  pose proof (zlen_nonneg (ly_dsz ly)). pose proof (zlen_nonneg (ly_ts ly)). pose proof (zlen_nonneg (ly_nonce ly)). lia.
Qed.

(** Header-template compression is lossless.  The template of an accepted,
    unsealed frame can be extracted; the compact body made from it parses to the
    same flags and identifier; and in every timestamp mode whose context the
    receiver has, the rebuilt frame has the frame's timestamp and unpacks to the
    same packet.  The rebuilt frame has the same template and fields, so that
    rebuilding is idempotent. *)
Lemma template_lossless {L : WireEnvLaws E} book b managed adm p adm' id mode base field :
  bytes_ok b -> zlen b + 64 <= isize_max -> admits_all adm ->
  unpack_packet_with_role book b managed adm = (Ok p, adm') ->
  has_flag (flags_byte b) FLAG_E2E_ENCRYPTED_PAYLOAD = false ->
  is_u32 id ->
  exists t x, extract_side_header_template b = Ok (t, x) /\
    (timestamp_field_ok mode base (ex_timestamp x) field ->
     exists rest b',
       parse_compact_body (compact_body id field x) = Ok (ex_flags x, id, rest) /\
       reconstruct_side_compact_frame t (ex_flags x) rest mode base = Ok (b', ex_timestamp x) /\
       unpack_packet_with_role book b' managed adm = (Ok p, adm) /\
       extract_side_header_template b' = Ok (t, x)).
Proof.
  intros Hb Hmax Hadm H He Hid.
  apply accepted_layout in H as (u & ly & rel & pl & w & r' & p0 & adm1 & -> & Hly & Hrel & Hfits & Hbytes &
    Hf & Hd & Hpl & Hw & Hl & Hp); [|done|lia].
  change (has_flag (up_flags u) FLAG_E2E_ENCRYPTED_PAYLOAD = false) in He.
  rewrite !Forall_app in Hbytes. destruct Hbytes as (Hbh & Hbr & Hbp).
  assert (zlen (layout_head u ly ++ rel ++ pl) + 64 <= isize_max) as Hmax'.
  { unfold append_crc32 in Hmax. rewrite zlen_app in Hmax. pose proof (zlen_nonneg (le_bytes 4 (crc32_bytes (layout_head u ly ++ rel ++ pl)))). lia. }
  exists (into_owned (template_of u ly)), (extract_of u ly pl).
  assert (forall ly rel, layout_ok ly u -> rel_ok rel u -> bytes_ok (layout_head u ly) ->
    zlen (layout_head u ly ++ rel ++ pl) <= isize_max ->
    extract_side_header_template (append_crc32 (layout_head u ly ++ rel ++ pl))
    = Ok (into_owned (template_of u ly), extract_of u ly pl)) as Hex.
  { intros ly' rel' H1 H2 H3 H4. unfold extract_side_header_template. by rewrite extract_layout by done. }
  split; [apply Hex; [done..|lia]|]. intros Hfield. change (ex_timestamp _) with (up_timestamp u) in *.
  exists (compact_rest field (extract_of u ly pl)),
    (append_crc32 (layout_head u (canonical u ly) ++ canonical_rel u ++ pl)).
  pose proof (canonical_layout u ly Hly Hbh) as Hcl. pose proof (canonical_rel_ok rel u Hbr Hrel) as Hcr.
  split; [by apply parse_compact|]. split; [by apply (reconstruct_layout u ly rel pl)|].
  destruct (payload_moved _ (layout_head u (canonical u ly) ++ canonical_rel u ++ pl) u u _
    (layout_head u (canonical u ly) ++ canonical_rel u) _ _ _ He He eq_refl eq_refl Hw) as [r'' Hw'].
  split.
  - erewrite unpack_layout; [by rewrite <- Hp|done|done|done| |exact Hw'|exact Hl].
    destruct (has_rel u) eqn:Ehr; [by eapply layout_need|].
    unfold prefix_fits in *. unfold rel_ok in Hrel, Hcr. rewrite Ehr in Hrel, Hcr.
    destruct Hrel as [-> _], Hcr as [-> _]. exact Hfits.
  - apply (Hex (canonical u ly) (canonical_rel u)); [done|done|by apply canonical_bytes|].
    pose proof (canonical_size u ly rel pl Hly Hbh Hbr Hrel). lia.
Qed.
End SideTemplate.
