(* ===== verification/SideLink.v ===== *)
(** * Template dictionaries of a link (src/src/router.rs)

    What the two ends of a side keep of header templates: the sender's bounded
    dictionary with its periodic full refresh, the receiver's, the eviction of
    both, and the frames that go between them; and what becomes of a frame when two
    templates have one 32-bit identifier.  Admission, peer liveness and the
    consumption of discovery packets, which the receive path interleaves, and the
    statistics are not part of this file.

    [RouterMap] is a [BTreeMap], or the sorted vector of [SmallMap], which refines
    a map with the same iteration order. *)

From S2P Require Import Prelude OrdMap Varint Schema Packet MemoryAdmission WireEnv WireSample WireReader.
From S2P Require Import WireEndpoints WireFrame WireRoundtrip WirePeek WireRewrite SideFrame SideTemplate.

Open Scope Z_scope.

(** ** The sender's dictionary *)

Record TxDict : Type := {
  tx_template_ids : gmap Z Z;
  tx_templates : gmap Z SideHeaderTemplate;
  tx_last_timestamps : gmap Z Z;
  tx_compact_uses : gmap Z Z;
}.

Definition tx_empty : TxDict :=
  {| tx_template_ids := ∅; tx_templates := ∅; tx_last_timestamps := ∅; tx_compact_uses := ∅ |}.

Definition tx_template_count (tx : TxDict) : nat := size (tx_template_ids tx).

Definition FULL_REFRESH_AFTER_COMPACT_FRAMES : Z := 8.

Definition refresh_transmit_header_templates (tx : TxDict) : TxDict :=
  {| tx_template_ids := tx_template_ids tx; tx_templates := tx_templates tx;
     tx_last_timestamps := tx_last_timestamps tx;
     tx_compact_uses := (fun _ => u8_max) <$> tx_compact_uses tx |}.

(** One round of [trim_tx_templates_to]. *)
Definition drop_tx_template (hash id : Z) (tx : TxDict) : TxDict :=
  {| tx_template_ids := delete hash (tx_template_ids tx); tx_templates := delete hash (tx_templates tx);
     tx_last_timestamps := delete id (tx_last_timestamps tx);
     tx_compact_uses := delete id (tx_compact_uses tx) |}.

Fixpoint trim_loop (rounds : nat) (limit : nat) (tx : TxDict) (removed : nat) : TxDict * nat :=
  match rounds with
  | O => (tx, removed)
  | S rounds =>
      if (limit <? tx_template_count tx)%nat then
        match first_entry (tx_template_ids tx) with
        | None => (tx, removed)
        | Some (hash, id) => trim_loop rounds limit (drop_tx_template hash id tx) (S removed)
        end
      else (tx, removed)
  end.

(** Every round removes an entry: as many rounds as entries are enough. *)
Definition trim_tx_templates_to (limit : nat) (tx : TxDict) : TxDict * nat :=
  trim_loop (tx_template_count tx) limit tx 0.

Definition insert_tx_template (t : SideHeaderTemplate) (id : Z) (max : nat) (tx : TxDict) : TxDict * bool :=
  if (max =? 0)%nat then (tx, false)
  else
    let '(tx, evicted) :=
      match tx_template_ids tx !! st_hash t with
      | Some _ => (tx, false)
      | None => let '(tx, n) := trim_tx_templates_to (max - 1) tx in (tx, (0 <? n)%nat)
      end in
    ({| tx_template_ids := <[st_hash t := id]> (tx_template_ids tx);
        tx_templates := <[st_hash t := t]> (tx_templates tx);
        tx_last_timestamps := tx_last_timestamps tx;
        tx_compact_uses := <[id := 0]> (tx_compact_uses tx) |}, evicted).

Definition set_tx_timestamp (id ts : Z) (tx : TxDict) : TxDict :=
  {| tx_template_ids := tx_template_ids tx; tx_templates := tx_templates tx;
     tx_last_timestamps := <[id := ts]> (tx_last_timestamps tx);
     tx_compact_uses := tx_compact_uses tx |}.

Definition template_id_of (hash : Z) : Z := fold_transfer_id hash.

(** The identifier of the frame's template and whether to use it. *)
Definition choose_template (limit : nat) (ty : DataType) (v : SideHeaderTemplateView) (timestamp : Z)
    (tx : TxDict) : Z * bool * TxDict :=
  let '(tx, _) := trim_tx_templates_to limit tx in
  match tx_template_ids tx !! tv_hash v with
  | Some id =>
      let uses := default 0 (tx_compact_uses tx !! id) in
      let use_compact := (uses <? FULL_REFRESH_AFTER_COMPACT_FRAMES) && negb (is_discovery_type ty) in
      let uses := if use_compact then Z.min u8_max (uses + 1) else 0 in
      (id, use_compact,
       {| tx_template_ids := tx_template_ids tx; tx_templates := tx_templates tx;
          tx_last_timestamps := tx_last_timestamps tx;
          tx_compact_uses := <[id := uses]> (tx_compact_uses tx) |})
  | None =>
      let id := template_id_of (tv_hash v) in
      let '(tx, _) := insert_tx_template (into_owned v) id limit tx in
      (id, false, if (0 <? limit)%nat then set_tx_timestamp id timestamp tx else tx)
  end.

(** ** The receiver's dictionary *)

Record RxDict : Type := {
  rx_templates : gmap Z Z;
  rx_templates_by_id : gmap Z SideHeaderTemplate;
  rx_last_timestamps : gmap Z Z;
}.

Definition rx_empty : RxDict :=
  {| rx_templates := ∅; rx_templates_by_id := ∅; rx_last_timestamps := ∅ |}.

Definition rx_template_count (rx : RxDict) : nat := size (rx_templates_by_id rx).

(** The same header under another identifier is forgotten. *)
Definition forget_renamed (t : SideHeaderTemplate) (id : Z) (rx : RxDict) : RxDict :=
  match rx_templates rx !! st_hash t with
  | Some old_id =>
      if negb (old_id =? id) then
        {| rx_templates := delete (st_hash t) (rx_templates rx);
           rx_templates_by_id := delete old_id (rx_templates_by_id rx);
           rx_last_timestamps := delete old_id (rx_last_timestamps rx) |}
      else rx
  | None => rx
  end.

(** So is the hash of another header under the same identifier. *)
Definition forget_replaced (t : SideHeaderTemplate) (id : Z) (rx : RxDict) : RxDict :=
  match rx_templates_by_id rx !! id with
  | Some previous =>
      if negb (st_hash previous =? st_hash t) then
        {| rx_templates := delete (st_hash previous) (rx_templates rx);
           rx_templates_by_id := rx_templates_by_id rx;
           rx_last_timestamps := delete id (rx_last_timestamps rx) |}
      else rx
  | None => rx
  end.

Definition evict_rx_template (id : Z) (max : nat) (rx : RxDict) : RxDict * bool :=
  if (max <=? rx_template_count rx)%nat
     && match rx_templates_by_id rx !! id with None => true | Some _ => false end
  then match first_entry (rx_templates rx) with
       | Some (old_hash, old_id) =>
           ({| rx_templates := delete old_hash (rx_templates rx);
               rx_templates_by_id := delete old_id (rx_templates_by_id rx);
               rx_last_timestamps := delete old_id (rx_last_timestamps rx) |}, true)
       | None => (rx, false)
       end
  else (rx, false).

Definition insert_rx_template (id : Z) (t : SideHeaderTemplate) (max : nat) (rx : RxDict) : RxDict * bool :=
  if (max =? 0)%nat then (rx, false)
  else
    let '(rx, evicted) := evict_rx_template id max (forget_replaced t id (forget_renamed t id rx)) in
    ({| rx_templates := <[st_hash t := id]> (rx_templates rx);
        rx_templates_by_id := <[id := t]> (rx_templates_by_id rx);
        rx_last_timestamps := rx_last_timestamps rx |}, evicted).

Definition set_rx_timestamp (id ts : Z) (rx : RxDict) : RxDict :=
  {| rx_templates := rx_templates rx; rx_templates_by_id := rx_templates_by_id rx;
     rx_last_timestamps := <[id := ts]> (rx_last_timestamps rx) |}.

(** ** Frames of the link *)

Section SideLink.
Context {E : WireEnv}.

(** The wrapped form of a canonical frame on a side that compresses headers. *)
Definition encode_side_frame (limit : nat) (raw : bytes) (tx : TxDict) : result (bytes * TxDict) :=
  x ← extract_side_header_template_view raw;
  let '(id, use_compact, tx) := choose_template limit (ex_ty x) (ex_view x) (ex_timestamp x) tx in
  Ok (if use_compact
      then (wrap_side_transport_frame SIDE_TRANSPORT_KIND_COMPACT
              (compact_body id (Some (ex_timestamp x)) x), set_tx_timestamp id (ex_timestamp x) tx)
      else (wrap_side_transport_frame SIDE_TRANSPORT_KIND_FULL (write_uleb128 id ++ raw), tx)).

Definition receive_full (max : nat) (body : bytes) (rx : RxDict) : result (option bytes) * RxDict :=
  match sub_reader (id ← read_uleb_u32 "side template id too large"; o ← get_off; mret (id, drop o body)) body with
  | Err e => (Err e, rx)
  | Ok (id, raw) =>
      (Ok (Some raw),
       match extract_side_header_template raw with
       | Ok (t, x) =>
           let rx := fst (insert_rx_template id t max rx) in
           if (0 <? max)%nat then set_rx_timestamp id (ex_timestamp x) rx else rx
       | Err _ => rx
       end)
  end.

(** [local_services]: the role of the receiver hosts endpoints. *)
Definition receive_compact (local_services : bool) (kind : Z) (body : bytes) (rx : RxDict)
    : result (option bytes) * RxDict :=
  match parse_compact_body body with
  | Err e => (Err e, rx)
  | Ok (flags, id, rest) =>
      match rx_templates_by_id rx !! id with
      | None =>
          (if local_services then Ok None else Err (Unpack "unknown side compact template"), rx)
      | Some t =>
          let contextual := one_of kind [SIDE_TRANSPORT_KIND_COMPACT_DELTA;
                                         SIDE_TRANSPORT_KIND_COMPACT_SAME_TIMESTAMP] in
          let base := if contextual then rx_last_timestamps rx !! id else None in
          let mode := if kind =? SIDE_TRANSPORT_KIND_COMPACT_DELTA then Delta
                      else if kind =? SIDE_TRANSPORT_KIND_COMPACT_SAME_TIMESTAMP then Omitted
                      else Absolute in
          match reconstruct_side_compact_frame t flags rest mode base with
          | Err e => (Err e, rx)
          | Ok (frame, ts) => (Ok (Some frame), set_rx_timestamp id ts rx)
          end
      end
  end.

Definition decode_side_frame (local_services : bool) (max : nat) (wire : bytes) (rx : RxDict)
    : result (option bytes) * RxDict :=
  match parse_side_transport_wrapper wire with
  | Err e => (Err e, rx)
  | Ok None => (Ok (Some wire), rx)
  | Ok (Some (kind, body)) =>
      if kind =? SIDE_TRANSPORT_KIND_FULL then receive_full max body rx
      else if one_of kind [SIDE_TRANSPORT_KIND_COMPACT; SIDE_TRANSPORT_KIND_COMPACT_DELTA;
                           SIDE_TRANSPORT_KIND_COMPACT_SAME_TIMESTAMP]
      then receive_compact local_services kind body rx
      else (Err (Unpack "unknown side transport frame"), rx)
  end.


(** ** What the dictionaries hold *)

(** Every identifier is the one of its template. *)
Definition tx_ids_ok (tx : TxDict) : Prop :=
  forall h id, tx_template_ids tx !! h = Some id -> id = template_id_of h.

Lemma drop_tx_ids_ok h id tx : tx_ids_ok tx -> tx_ids_ok (drop_tx_template h id tx).
Proof.
  intros Hok h' id' H. cbn [drop_tx_template tx_template_ids] in H.
  apply lookup_delete_Some in H as [_ H]. by apply Hok.
Qed.

Lemma trim_ids_ok rounds limit tx n : tx_ids_ok tx -> tx_ids_ok (fst (trim_loop rounds limit tx n)).
Proof.
  revert tx n. induction rounds as [|rounds IH]; intros tx n Hok; cbn [trim_loop]; [done|].
  destruct (_ <? _)%nat; [|done]. destruct (first_entry _) as [[h id]|]; [|done].
  by apply IH, drop_tx_ids_ok.
Qed.

Lemma insert_tx_ids_ok t max tx :
  tx_ids_ok tx -> tx_ids_ok (fst (insert_tx_template t (template_id_of (st_hash t)) max tx)).
Proof.
  intros Hok. unfold insert_tx_template. destruct (max =? 0)%nat; [done|].
  assert (forall tx', tx_ids_ok tx' -> forall uses, tx_ids_ok
    {| tx_template_ids := <[st_hash t := template_id_of (st_hash t)]> (tx_template_ids tx');
       tx_templates := <[st_hash t := t]> (tx_templates tx');
       tx_last_timestamps := tx_last_timestamps tx'; tx_compact_uses := uses |}) as Hins.
  { intros tx' Hok' uses h id H. cbn [tx_template_ids] in H.
    apply lookup_insert_Some in H as [[<- <-]|[_ H]]; [done|by apply Hok']. }
  destruct (tx_template_ids tx !! st_hash t); [by apply Hins|].
  pose proof (trim_ids_ok (tx_template_count tx) (max - 1) tx 0 Hok) as Ht. unfold trim_tx_templates_to.
  destruct (trim_loop _ _ _ _) as [tx' n]. by apply Hins.
Qed.

Lemma choose_template_ok limit ty v ts tx :
  tx_ids_ok tx ->
  let '(id, _, tx') := choose_template limit ty v ts tx in
  id = template_id_of (tv_hash v) /\ tx_ids_ok tx'.
Proof.
  intros Hok. unfold choose_template, trim_tx_templates_to.
  pose proof (trim_ids_ok (tx_template_count tx) limit tx 0 Hok) as Ht.
  destruct (trim_loop _ _ _ _) as [tx1 n]. cbn [fst] in Ht.
  destruct (tx_template_ids tx1 !! tv_hash v) as [id|] eqn:Eid.
  - split; [by apply Ht|]. intros h id' H. by apply Ht.
  - pose proof (insert_tx_ids_ok (into_owned v) limit tx1 Ht) as Hi.
    change (st_hash (into_owned v)) with (tv_hash v) in Hi.
    destruct (insert_tx_template _ _ _ _) as [tx2 e]. split; [done|]. destruct (0 <? limit)%nat; [|done].
    intros h id' H. by apply Hi.
Qed.

Definition template_used (raws : list bytes) (t : SideHeaderTemplate) : Prop :=
  exists raw x, raw ∈ raws /\ extract_side_header_template raw = Ok (t, x).

Definition rx_ids_ok (raws : list bytes) (rx : RxDict) : Prop :=
  forall id t, rx_templates_by_id rx !! id = Some t ->
    id = template_id_of (st_hash t) /\ template_used raws t.

(** What an insertion can leave behind an identifier. *)
Lemma insert_rx_lookup id t max rx id' t' :
  rx_templates_by_id (fst (insert_rx_template id t max rx)) !! id' = Some t' ->
  (id' = id /\ t' = t) \/ rx_templates_by_id rx !! id' = Some t'.
Proof.
  unfold insert_rx_template. destruct (max =? 0)%nat; [by right|].
  assert (forall t' id', rx_templates_by_id (forget_renamed t id rx) !! id' = Some t' ->
    rx_templates_by_id rx !! id' = Some t') as H1.
  { intros t1 id1. unfold forget_renamed. destruct (rx_templates rx !! st_hash t); [|done].
    destruct (negb _); [|done]. cbn [rx_templates_by_id]. by intros [_ ?]%lookup_delete_Some. }
  set (rx1 := forget_renamed t id rx) in *.
  assert (rx_templates_by_id (forget_replaced t id rx1) = rx_templates_by_id rx1) as H2.
  { unfold forget_replaced. destruct (rx_templates_by_id rx1 !! id); [|done]. by destruct (negb _). }
  set (rx2 := forget_replaced t id rx1) in *.
  assert (forall t' id', rx_templates_by_id (fst (evict_rx_template id max rx2)) !! id' = Some t' ->
    rx_templates_by_id rx2 !! id' = Some t') as H3.
  { intros t1 id1. unfold evict_rx_template. destruct (_ && _); [|done].
    destruct (first_entry _) as [[oh oi]|]; [|done]. cbn [fst rx_templates_by_id].
    by intros [_ ?]%lookup_delete_Some. }
  destruct (evict_rx_template id max rx2) as [rx3 e]. cbn [fst rx_templates_by_id] in *.
  intros [[<- <-]|[_ H]]%lookup_insert_Some; [by left|right]. apply H1. rewrite <- H2. by apply H3.
Qed.

(** ** The link as a transition system *)

(** The two dictionaries and every frame transmitted so far, with the canonical
    frame it was made from. *)
Record Link : Type := { lk_tx : TxDict; lk_rx : RxDict; lk_sent : list (bytes * bytes) }.

Definition link_init : Link := {| lk_tx := tx_empty; lk_rx := rx_empty; lk_sent := [] |}.

(** The medium may lose, repeat and reorder frames: any transmitted frame can
    arrive at any time, any number of times.  Limits may change at every step. *)
Inductive link_step : Link -> Link -> Prop :=
| link_send l limit raw wire tx :
    encode_side_frame limit raw (lk_tx l) = Ok (wire, tx) ->
    link_step l {| lk_tx := tx; lk_rx := lk_rx l; lk_sent := (wire, raw) :: lk_sent l |}
| link_refresh l :
    link_step l {| lk_tx := refresh_transmit_header_templates (lk_tx l); lk_rx := lk_rx l;
                   lk_sent := lk_sent l |}
| link_trim l limit :
    link_step l {| lk_tx := fst (trim_tx_templates_to limit (lk_tx l)); lk_rx := lk_rx l;
                   lk_sent := lk_sent l |}
| link_receive l local_services max wire raw :
    (wire, raw) ∈ lk_sent l ->
    link_step l {| lk_tx := lk_tx l; lk_rx := snd (decode_side_frame local_services max wire (lk_rx l));
                   lk_sent := lk_sent l |}
| link_forget l :
    link_step l {| lk_tx := lk_tx l; lk_rx := rx_empty; lk_sent := lk_sent l |}.

Definition wire_of (wire raw : bytes) : Prop :=
  exists t x, extract_side_header_template raw = Ok (t, x) /\
    let id := template_id_of (st_hash t) in
    (wire = wrap_side_transport_frame SIDE_TRANSPORT_KIND_FULL (write_uleb128 id ++ raw) \/
     wire = wrap_side_transport_frame SIDE_TRANSPORT_KIND_COMPACT
              (compact_body id (Some (ex_timestamp x)) x)).

Record link_inv (l : Link) : Prop := {
  li_tx : tx_ids_ok (lk_tx l);
  li_rx : rx_ids_ok (map snd (lk_sent l)) (lk_rx l);
  li_sent : forall wire raw, (wire, raw) ∈ lk_sent l -> wire_of wire raw;
}.

Lemma extract_owned raw x :
  extract_side_header_template_view raw = Ok x -> extract_side_header_template raw = Ok (into_owned (ex_view x), x).
Proof. intros H. unfold extract_side_header_template. by rewrite H. Qed.

Lemma extract_view raw t x :
  extract_side_header_template raw = Ok (t, x) ->
  extract_side_header_template_view raw = Ok x /\ t = into_owned (ex_view x).
Proof.
  unfold extract_side_header_template. destruct (extract_side_header_template_view raw) as [y|]; [|done].
  rewrite result_bind_run. by intros [= <- <-].
Qed.

Lemma extract_hash raw t x :
  extract_side_header_template raw = Ok (t, x) -> is_u32 (template_id_of (st_hash t)).
Proof.
  intros [H ->]%extract_view. assert (is_u64 (tv_hash (ex_view x))) as Hh.
  { revert H. unfold extract_side_header_template_view. destruct (_ <? _); [done|].
    destruct (sub_reader _ _) as [sc|]; [|done]. rewrite result_bind_run.
    destruct (reliable_header_span raw) as [span|]; [|done]. rewrite result_bind_run.
    intros H. apply result_bind_ok in H as ([[[rf sa] c] po] & _ & H).
    destruct (_ <? _)%nat; [done|]. injection H as <-. cbn [ex_view tv_hash]. unfold template_hash.
    destruct rf; repeat apply hash_bytes_u64_range; by vm_compute. }
  cbn [into_owned st_hash]. unfold template_id_of. pose proof (fold_transfer_id_range _ Hh). solve_u.
Qed.

Lemma ok_pair_inj {A B} (a c : A) (b d : B) : @Ok (A * B) (a, b) = Ok (c, d) -> a = c /\ b = d.
Proof. intros H. by injection H. Qed.

Lemma encode_wire_of limit raw tx wire tx' :
  tx_ids_ok tx -> encode_side_frame limit raw tx = Ok (wire, tx') -> wire_of wire raw /\ tx_ids_ok tx'.
Proof.
  intros Hok. unfold encode_side_frame.
  destruct (extract_side_header_template_view raw) as [x|] eqn:Ex; [|done]. rewrite result_bind_run.
  pose proof (choose_template_ok limit (ex_ty x) (ex_view x) (ex_timestamp x) tx Hok) as Hc.
  destruct (choose_template _ _ _ _ _) as [[id compact] tx1]. destruct Hc as [-> Hok'].
  assert (extract_side_header_template raw = Ok (into_owned (ex_view x), x)) as Hex by by apply extract_owned.
  intros Heq. destruct compact; cbv iota in Heq; apply ok_pair_inj in Heq as [<- <-].
  - split; [|by intros h id H; apply Hok']. exists (into_owned (ex_view x)), x. split; [exact Hex|].
    right. reflexivity.
  - split; [|done]. exists (into_owned (ex_view x)), x. split; [exact Hex|]. left. reflexivity.
Qed.

(** *** Receiving a transmitted frame *)

Lemma parse_wrapped {L : WireEnvLaws E} kind body :
  parse_side_transport_wrapper (wrap_side_transport_frame kind body) = Ok (Some (kind, body)).
Proof. unfold wrap_side_transport_frame. rewrite parse_wrap. cbn [concat]. by rewrite app_nil_r. Qed.

Lemma receive_full_run max id raw rx :
  is_u32 id ->
  receive_full max (write_uleb128 id ++ raw) rx
  = (Ok (Some raw),
     match extract_side_header_template raw with
     | Ok (t, x) =>
         let rx := fst (insert_rx_template id t max rx) in
         if (0 <? max)%nat then set_rx_timestamp id (ex_timestamp x) rx else rx
     | Err _ => rx
     end).
Proof.
  intros Hid. unfold receive_full. set (body := write_uleb128 id ++ raw).
  assert (sub_reader (id ← read_uleb_u32 "side template id too large"; o ← get_off; mret (id, drop o body)) body
    = Ok (id, raw)) as ->; [|done].
  apply sub_reader_ok. eexists. unfold body at 2. rewrite (bind_reads _ _ _ _ _ _ (reads_uleb_u32 id _ Hid)).
  rewrite bind_get_off. unfold mret, reader_ret. do 3 f_equal. apply drop_app_length.
Qed.

Lemma decode_full {L : WireEnvLaws E} local max id raw rx t x :
  is_u32 id -> extract_side_header_template raw = Ok (t, x) ->
  decode_side_frame local max (wrap_side_transport_frame SIDE_TRANSPORT_KIND_FULL (write_uleb128 id ++ raw)) rx
  = (Ok (Some raw),
     let rx := fst (insert_rx_template id t max rx) in
     if (0 <? max)%nat then set_rx_timestamp id (ex_timestamp x) rx else rx).
Proof.
  intros Hid Hex. unfold decode_side_frame. rewrite parse_wrapped.
  change (SIDE_TRANSPORT_KIND_FULL =? SIDE_TRANSPORT_KIND_FULL) with true. cbv iota.
  rewrite receive_full_run by done. by rewrite Hex.
Qed.

Lemma decode_compact {L : WireEnvLaws E} local max id x field rx :
  is_u32 id ->
  decode_side_frame local max (wrap_side_transport_frame SIDE_TRANSPORT_KIND_COMPACT (compact_body id field x)) rx
  = match rx_templates_by_id rx !! id with
    | None => (if local then Ok None else Err (Unpack "unknown side compact template"), rx)
    | Some t =>
        match reconstruct_side_compact_frame t (ex_flags x) (compact_rest field x) Absolute None with
        | Err e => (Err e, rx)
        | Ok (frame, ts) => (Ok (Some frame), set_rx_timestamp id ts rx)
        end
    end.
Proof.
  intros Hid. unfold decode_side_frame. rewrite parse_wrapped.
  change (SIDE_TRANSPORT_KIND_COMPACT =? SIDE_TRANSPORT_KIND_FULL) with false.
  change (one_of SIDE_TRANSPORT_KIND_COMPACT _) with true. cbv iota.
  unfold receive_compact. by rewrite parse_compact by done.
Qed.

Lemma set_rx_timestamp_lookup id ts rx : rx_templates_by_id (set_rx_timestamp id ts rx) = rx_templates_by_id rx.
Proof. done. Qed.

Lemma decode_ids_ok {L : WireEnvLaws E} raws local max wire raw rx :
  rx_ids_ok raws rx -> raw ∈ raws -> wire_of wire raw ->
  rx_ids_ok raws (snd (decode_side_frame local max wire rx)).
Proof.
  intros Hok Hin (t & x & Hex & Hw). cbv zeta in Hw. pose proof (extract_hash raw t x Hex) as Hid.
  destruct Hw as [-> | ->].
  - rewrite (decode_full local max _ raw rx t x) by done. cbn [snd]. cbv zeta.
    intros id' t' H. assert (rx_templates_by_id (fst (insert_rx_template (template_id_of (st_hash t)) t max rx)) !! id' = Some t') as H'
      by (by destruct (0 <? max)%nat).
    apply insert_rx_lookup in H' as [[-> ->]|H']; [|by apply Hok]. split; [done|]. by exists raw, x.
  - rewrite decode_compact by done. destruct (rx_templates_by_id rx !! _) as [t'|]; [|done].
    destruct (reconstruct_side_compact_frame _ _ _ _ _) as [[b ts]|]; done.
Qed.

Lemma rx_ids_mono raws raws' rx : raws ⊆ raws' -> rx_ids_ok raws rx -> rx_ids_ok raws' rx.
Proof.
  intros Hsub Hok id t H. destruct (Hok id t H) as [-> (raw & x & Hin & Hex)]. split; [done|].
  exists raw, x. split; [by apply Hsub|done].
Qed.

Lemma link_inv_reachable {L : WireEnvLaws E} l : rtc link_step link_init l -> link_inv l.
Proof.
  apply (rtc_ind_r (fun l => link_inv l)).
  - split; [intros h id H|intros id t H|intros wire raw H]; cbn in H.
    + by rewrite lookup_empty in H.
    + by rewrite lookup_empty in H.
    + by apply not_elem_of_nil in H.
  - clear l. intros l l' _ Hstep [Htx Hrx Hsent]. destruct Hstep as [l limit raw wire tx Henc|l|l limit|l local max wire raw Hin|l]; cbn [lk_tx lk_rx lk_sent] in *.
    + destruct (encode_wire_of _ _ _ _ _ Htx Henc) as [Hw Htx']. split; cbn [lk_tx lk_rx lk_sent map snd]; [done| |].
      * eapply rx_ids_mono; [|exact Hrx]. intros r Hr. by right.
      * intros wire' raw' [[= -> ->]|H]%elem_of_cons; [done|by apply Hsent].
    + split; [exact Htx|done|done].
    + split; [by apply trim_ids_ok|done|done].
    + split; [done| |done]. cbn [lk_rx lk_sent]. apply (decode_ids_ok _ _ _ _ raw); [done| |by apply Hsent].
      apply list_elem_of_fmap. by exists (wire, raw).
    + split; [done| |done]. intros id t H. cbn in H. by rewrite lookup_empty in H.
Qed.

(** Two templates in use have the same 32-bit identifier. *)
Definition collides (raws : list bytes) : Prop :=
  exists t1 t2, template_used raws t1 /\ template_used raws t2 /\
    template_id_of (st_hash t1) = template_id_of (st_hash t2) /\ t1 <> t2.

Definition collision_free (raws : list bytes) : Prop :=
  forall t1 t2, template_used raws t1 -> template_used raws t2 ->
    template_id_of (st_hash t1) = template_id_of (st_hash t2) -> t1 = t2.

#[local] Instance template_eq_dec : EqDecision SideHeaderTemplate.
Proof. solve_decision. Defined.

Definition templates_of (raws : list bytes) : list SideHeaderTemplate :=
  omap (fun raw => match extract_side_header_template raw with Ok (t, _) => Some t | Err _ => None end) raws.

Lemma templates_of_spec raws t : t ∈ templates_of raws <-> template_used raws t.
Proof.
  unfold templates_of. rewrite list_elem_of_omap. split.
  - intros (raw & Hin & H). destruct (extract_side_header_template raw) as [[t' x]|] eqn:Ex; [|done]. injection H as ->. by exists raw, x.
  - intros (raw & x & Hin & Hex). exists raw. by rewrite Hex.
Qed.

Lemma collides_dec raws : collides raws \/ collision_free raws.
Proof.
  set (ts := templates_of raws).
  destruct (decide (Exists (fun t1 => Exists (fun t2 => template_id_of (st_hash t1) = template_id_of (st_hash t2) /\ t1 <> t2) ts) ts)) as [H|H].
  - left. apply Exists_exists in H as (t1 & H1 & H). apply Exists_exists in H as (t2 & H2 & Hid & Hne).
    exists t1, t2. by rewrite <- !templates_of_spec.
  - right. intros t1 t2 H1%templates_of_spec H2%templates_of_spec Hid. destruct (decide (t1 = t2)) as [|Hne]; [done|].
    destruct H. apply Exists_exists. exists t1. split; [done|]. apply Exists_exists. by exists t2.
Qed.

Lemma collision_free_not raws : collision_free raws -> ~ collides raws.
Proof. intros Hf (t1 & t2 & H1 & H2 & Hid & Hne). by apply Hne, Hf. Qed.

(** The receiver holds another template under the identifier of a compact frame, one
    that was sent on the link as well, and rebuilds the frame with it. *)
Definition confused (raws : list bytes) (rx : RxDict) (wire raw : bytes) (r : result (option bytes)) : Prop :=
  exists t x t', extract_side_header_template raw = Ok (t, x) /\
    wire = wrap_side_transport_frame SIDE_TRANSPORT_KIND_COMPACT (compact_body (template_id_of (st_hash t)) (Some (ex_timestamp x)) x) /\
    rx_templates_by_id rx !! template_id_of (st_hash t) = Some t' /\ t' <> t /\
    template_used raws t' /\ template_id_of (st_hash t') = template_id_of (st_hash t) /\
    r = ('(b', _) ← reconstruct_side_compact_frame t' (ex_flags x) (compact_rest (Some (ex_timestamp x)) x) Absolute None; Ok (Some b')).

(** A frame that receivers accept, without end-to-end encryption. *)
Record accepted (book : AddressBook) (managed : bool) (raw : bytes) (p : Packet) : Prop := {
  ac_bytes : bytes_ok raw;
  ac_size : zlen raw + 64 <= isize_max;
  ac_plain : has_flag (flags_byte raw) FLAG_E2E_ENCRYPTED_PAYLOAD = false;
  ac_unpacks : exists adm adm', unpack_packet_with_role book raw managed adm = (Ok p, adm');
}.

(** Acceptance under some admission is acceptance under every open one. *)
Lemma accepted_open {L : WireEnvLaws E} book managed raw p adm :
  accepted book managed raw p -> admits_all adm ->
  unpack_packet_with_role book raw managed adm = (Ok p, adm).
Proof.
  intros [Hb Hs _ (adm0 & adm1 & Hu)] Hadm.
  apply accepted_layout in Hu as (u & ly & rel & pl & w & r' & p0 & adm2 & -> & Hly & Hrel & Hfits & _ &
    _ & _ & _ & Hw & Hl & Hp); [|done|lia].
  erewrite unpack_layout; [by rewrite <- Hp|done|done|done|done|exact Hw|exact Hl].
Qed.

(** The receiver's step on a compact frame whose template it has. *)
Lemma compact_delivers {L : WireEnvLaws E} book managed raw p t x id :
  accepted book managed raw p -> extract_side_header_template raw = Ok (t, x) -> is_u32 id ->
  exists b', reconstruct_side_compact_frame t (ex_flags x) (compact_rest (Some (ex_timestamp x)) x) Absolute None
    = Ok (b', ex_timestamp x) /\
    forall adm, admits_all adm -> unpack_packet_with_role book b' managed adm = (Ok p, adm).
Proof.
  intros Hacc Hex Hid. pose proof Hacc as [Hb Hs Hp _].
  pose proof (fun adm => accepted_open book managed raw p adm Hacc) as Hu.
  assert (forall adm, admits_all adm -> exists b',
    reconstruct_side_compact_frame t (ex_flags x) (compact_rest (Some (ex_timestamp x)) x) Absolute None
    = Ok (b', ex_timestamp x) /\ unpack_packet_with_role book b' managed adm = (Ok p, adm)) as H.
  { intros adm Hadm.
    destruct (template_lossless book raw managed adm p adm id Absolute None (Some (ex_timestamp x)) Hb Hs Hadm (Hu adm Hadm) Hp Hid)
      as (t' & x' & Hex' & H). rewrite Hex in Hex'. apply ok_pair_inj in Hex' as [<- <-].
    destruct (H eq_refl) as (rest & b' & Hrest & Hrec & Hun & _).
    rewrite parse_compact in Hrest by done. apply ok_pair_inj in Hrest as [_ <-]. by exists b'. }
  destruct (H no_admission) as (b' & Hrec & _); [by apply no_probe_admits|].
  exists b'. split; [done|]. intros adm Hadm. destruct (H adm Hadm) as (b2 & Hrec2 & Hun).
  rewrite Hrec in Hrec2. apply ok_pair_inj in Hrec2 as [<- _]. done.
Qed.

(** C5: what a lossy link makes of a frame on a side that compresses headers, whatever
    was sent, refreshed, trimmed, lost, repeated, reordered or forgotten by a restarted
    receiver before.  A transmitted frame that arrives either is rebuilt to one that
    unpacks to the packet it was made from, or its template is unknown and it is dropped
    (refused by a receiver without endpoints), or it is confused: it is compact, and the
    receiver holds for its 32-bit identifier another template, also used on this link,
    with the same identifier, and rebuilds the frame with that one's header.  So without
    two templates of one identifier no frame is turned into another, and with them only
    compact frames are. *)
Theorem link_safety {L : WireEnvLaws E} l wire raw book managed p local max :
  rtc link_step link_init l -> (wire, raw) ∈ lk_sent l -> accepted book managed raw p ->
  let r := fst (decode_side_frame local max wire (lk_rx l)) in
  (match r with
   | Ok (Some b') => forall adm, admits_all adm -> unpack_packet_with_role book b' managed adm = (Ok p, adm)
   | Ok None => local = true
   | Err e => local = false /\ e = Unpack "unknown side compact template"
   end) \/
  confused (map snd (lk_sent l)) (lk_rx l) wire raw r /\ collides (map snd (lk_sent l)).
Proof.
  intros Hl Hin Hacc. apply link_inv_reachable in Hl as [_ Hrx Hsent].
  assert (raw ∈ map snd (lk_sent l)) as Hraw by (apply list_elem_of_fmap; by exists (wire, raw)).
  destruct (Hsent _ _ Hin) as (t & x & Hex & Hw). cbv zeta in Hw |- *.
  pose proof (extract_hash raw t x Hex) as Hid. destruct Hw as [-> | ->].
  - left. rewrite (decode_full local max _ raw _ t x) by done. cbn [fst]. intros adm Hadm. by apply accepted_open.
  - rewrite decode_compact by done. destruct (rx_templates_by_id (lk_rx l) !! _) as [t'|] eqn:Et.
    2: { left. cbn [fst]. by destruct local. }
    destruct (Hrx _ _ Et) as [Heq Hused]. destruct (decide (t' = t)) as [->|Hne].
    + left. destruct (compact_delivers book managed raw p t x _ Hacc Hex Hid) as (b' & -> & Hun). exact Hun.
    + right. split; [|exists t', t; split_and!; [done|by exists raw, x|done..]].
      exists t, x, t'. split_and!; try done. by destruct (reconstruct_side_compact_frame _ _ _ _ _) as [[b ts]|].
Qed.

(** ** A link that delivers in order *)

Definition transmit (local : bool) (limit : nat) (raw : bytes) (s : TxDict * RxDict)
    : result (option bytes) * (TxDict * RxDict) :=
  match encode_side_frame limit raw (fst s) with
  | Err e => (Err e, s)
  | Ok (wire, tx) =>
      let '(r, rx) := decode_side_frame local limit wire (snd s) in (r, (tx, rx))
  end.

Fixpoint transmit_all (local : bool) (limit : nat) (raws : list bytes) (s : TxDict * RxDict)
    : list (result (option bytes)) * (TxDict * RxDict) :=
  match raws with
  | [] => ([], s)
  | raw :: raws =>
      let '(r, s) := transmit local limit raw s in
      let '(rs, s) := transmit_all local limit raws s in (r :: rs, s)
  end.

(** The dictionaries of both ends hold the same templates. *)
Record synced (raws : list bytes) (limit : nat) (tx : TxDict) (rx : RxDict) : Prop := {
  sy_hashes : rx_templates rx = tx_template_ids tx;
  sy_tx : tx_ids_ok tx;
  sy_rx : rx_ids_ok raws rx;
  sy_find : forall h id, tx_template_ids tx !! h = Some id ->
    exists t, rx_templates_by_id rx !! id = Some t /\ st_hash t = h;
  sy_back : forall id t, rx_templates_by_id rx !! id = Some t -> tx_template_ids tx !! st_hash t = Some id;
  sy_size : size (rx_templates_by_id rx) = size (tx_template_ids tx);
  sy_limit : (size (tx_template_ids tx) <= limit)%nat;
}.

Lemma trim_stop rounds limit tx n :
  (tx_template_count tx <= limit)%nat -> trim_loop rounds limit tx n = (tx, n).
Proof.
  intros H. destruct rounds; cbn [trim_loop]; [done|]. by rewrite (proj2 (Nat.ltb_ge _ _)).
Qed.

Lemma size_pos_entry (m : gmap Z Z) : (0 < size m)%nat -> exists h id, first_entry m = Some (h, id).
Proof.
  intros H. destruct (first_entry m) as [[h id]|] eqn:E1; [by exists h, id|].
  apply first_entry_none in E1. subst m. rewrite map_size_empty in H. lia.
Qed.

Lemma size_delete_entry (m : gmap Z Z) h id : m !! h = Some id -> size m = S (size (delete h m)).
Proof. apply delete_size. Qed.

(** Making room for one template drops at most the least hash. *)
Lemma trim_one limit tx :
  (tx_template_count tx <= S limit)%nat ->
  trim_tx_templates_to limit tx
  = if (limit <? tx_template_count tx)%nat then
      match first_entry (tx_template_ids tx) with
      | Some (h, id) => (drop_tx_template h id tx, 1%nat)
      | None => (tx, 0%nat)
      end
    else (tx, 0%nat).
Proof.
  intros Hle. unfold trim_tx_templates_to. destruct (Nat.ltb_spec limit (tx_template_count tx)) as [Hlt|Hge].
  - destruct (tx_template_count tx) as [|n] eqn:En; [lia|]. cbn [trim_loop]. rewrite En.
    rewrite (proj2 (Nat.ltb_lt _ _)) by lia.
    destruct (first_entry (tx_template_ids tx)) as [[h id]|] eqn:Ef; [|done].
    apply first_entry_some in Ef as [Hh _]. apply trim_stop.
    unfold tx_template_count in *. cbn [drop_tx_template tx_template_ids].
    pose proof (delete_size _ _ _ Hh). lia.
  - by apply trim_stop.
Qed.

(** Storing a template both ends have. *)
Lemma insert_rx_known raws limit tx rx t id :
  synced raws limit tx rx -> (0 < limit)%nat -> tx_template_ids tx !! st_hash t = Some id ->
  template_used raws t ->
  synced raws limit tx (fst (insert_rx_template id t limit rx)).
Proof.
  intros [Hh Htx Hrx Hfind Hback Hsz Hlim] Hpos Hid Hu. unfold insert_rx_template.
  rewrite (proj2 (Nat.eqb_neq _ _)) by lia.
  assert (forget_renamed t id rx = rx) as ->.
  { unfold forget_renamed. rewrite Hh, Hid. by rewrite Z.eqb_refl. }
  destruct (Hfind _ _ Hid) as (t0 & Ht0 & Hh0).
  assert (forget_replaced t id rx = rx) as ->.
  { unfold forget_replaced. rewrite Ht0, Hh0. by rewrite Z.eqb_refl. }
  assert (evict_rx_template id limit rx = (rx, false)) as ->.
  { unfold evict_rx_template. rewrite Ht0. by rewrite andb_false_r. }
  split; cbn [fst rx_templates rx_templates_by_id]; [|done| | | | |done].
  - rewrite Hh. by apply insert_id.
  - intros id' t' H. cbn [rx_templates_by_id] in H. apply lookup_insert_Some in H as [[<- <-]|[_ H]]; [|by apply Hrx].
    split; [by apply Htx|done].
  - intros h' id' H. destruct (decide (id' = id)) as [->|Hne].
    + exists t. rewrite lookup_insert_eq. split; [done|]. destruct (Hfind _ _ H) as (t1 & Ht1 & <-). congruence.
    + rewrite lookup_insert_ne by done. by apply Hfind.
  - intros id' t' H. apply lookup_insert_Some in H as [[<- <-]|[_ H]]; [done|by apply Hback].
  - by rewrite map_size_insert, Ht0.
Qed.

(** Evicting the least hash at both ends. *)
Lemma synced_drop raws limit tx rx h0 id0 :
  synced raws limit tx rx -> tx_template_ids tx !! h0 = Some id0 ->
  synced raws limit (drop_tx_template h0 id0 tx)
    {| rx_templates := delete h0 (rx_templates rx); rx_templates_by_id := delete id0 (rx_templates_by_id rx);
       rx_last_timestamps := delete id0 (rx_last_timestamps rx) |}.
Proof.
  intros [Hh Htx Hrx Hfind Hback Hsz Hlim] H0. destruct (Hfind _ _ H0) as (t0 & Ht0 & Hh0).
  pose proof (delete_size _ _ _ H0) as S1. pose proof (delete_size _ _ _ Ht0) as S2.
  split; cbn [drop_tx_template tx_template_ids rx_templates rx_templates_by_id].
  - by rewrite Hh.
  - by apply drop_tx_ids_ok.
  - intros id t H. cbn [rx_templates_by_id] in H. apply lookup_delete_Some in H as [_ H]. by apply Hrx.
  - intros h id [Hne H]%lookup_delete_Some. destruct (Hfind _ _ H) as (t & Ht & Heq). exists t. split; [|done].
    rewrite lookup_delete_ne; [done|]. intros ->. congruence.
  - intros id t [Hne H]%lookup_delete_Some. pose proof (Hback _ _ H) as Hb.
    rewrite lookup_delete_ne; [done|]. intros Heq. rewrite <- Heq in Hb. congruence.
  - lia.
  - lia.
Qed.

(** Storing a template neither end has, where there is room. *)
Lemma synced_insert raws limit tx rx t :
  synced raws limit tx rx -> (size (tx_template_ids tx) < limit)%nat ->
  tx_template_ids tx !! st_hash t = None -> template_used raws t ->
  rx_templates_by_id rx !! template_id_of (st_hash t) = None ->
  forall ts tt us tt', synced raws limit
    {| tx_template_ids := <[st_hash t := template_id_of (st_hash t)]> (tx_template_ids tx);
       tx_templates := tt; tx_last_timestamps := ts; tx_compact_uses := us |}
    {| rx_templates := <[st_hash t := template_id_of (st_hash t)]> (rx_templates rx);
       rx_templates_by_id := <[template_id_of (st_hash t) := t]> (rx_templates_by_id rx);
       rx_last_timestamps := tt' |}.
Proof.
  intros [Hh Htx Hrx Hfind Hback Hsz Hlim] Hroom Hnew Hu Hfree ts tt us tt'.
  split; cbn [tx_template_ids rx_templates rx_templates_by_id].
  - by rewrite Hh.
  - intros h id H. cbn [tx_template_ids] in H. apply lookup_insert_Some in H as [[<- <-]|[_ H]]; [done|by apply Htx].
  - intros id t' H. cbn [rx_templates_by_id] in H. apply lookup_insert_Some in H as [[<- <-]|[_ H]]; [done|by apply Hrx].
  - intros h id [[<- <-]|[Hne H]]%lookup_insert_Some.
    + exists t. by rewrite lookup_insert_eq.
    + destruct (Hfind _ _ H) as (t' & Ht' & Heq). exists t'. split; [|done].
      rewrite lookup_insert_ne; [done|]. intros <-. congruence.
  - intros id t' [[<- <-]|[Hne H]]%lookup_insert_Some; [by rewrite lookup_insert_eq|].
    pose proof (Hback _ _ H) as Hb. rewrite lookup_insert_ne; [done|]. intros Heq. rewrite <- Heq in Hb. congruence.
  - by rewrite !map_size_insert, Hnew, Hfree, Hsz.
  - rewrite map_size_insert, Hnew. lia.
Qed.

(** A template new to both ends: what the sender stores and, once the full frame
    has arrived, the receiver. *)
Lemma insert_new raws limit tx rx t :
  synced raws limit tx rx -> (0 < limit)%nat -> collision_free raws ->
  tx_template_ids tx !! st_hash t = None -> template_used raws t ->
  let id := template_id_of (st_hash t) in
  synced raws limit (fst (insert_tx_template t id limit tx)) (fst (insert_rx_template id t limit rx)).
Proof.
  intros Hsy Hpos Hfree Hnew Hu id. pose proof Hsy as [Hh Htx Hrx Hfind Hback Hsz Hlim].
  assert (rx_templates_by_id rx !! id = None) as Hid.
  { destruct (rx_templates_by_id rx !! id) as [t'|] eqn:Et; [|done]. destruct (Hrx _ _ Et) as [Heq Hu'].
    assert (t' = t) as -> by by apply Hfree. rewrite (Hback _ _ Et) in Hnew. done. }
  unfold insert_tx_template, insert_rx_template. rewrite (proj2 (Nat.eqb_neq _ _)) by lia. rewrite Hnew.
  assert (forget_renamed t id rx = rx) as -> by (unfold forget_renamed; by rewrite Hh, Hnew).
  assert (forget_replaced t id rx = rx) as -> by (unfold forget_replaced; by rewrite Hid).
  unfold evict_rx_template. rewrite Hid, andb_true_r. unfold rx_template_count. rewrite Hsz.
  rewrite trim_one by (unfold tx_template_count; lia). unfold tx_template_count.
  destruct (Nat.leb_spec limit (size (tx_template_ids tx))) as [Hfull|Hroom].
  - rewrite (proj2 (Nat.ltb_lt _ _)) by lia. rewrite Hh.
    destruct (size_pos_entry (tx_template_ids tx)) as (h0 & id0 & Hf0); [lia|]. rewrite Hf0.
    apply first_entry_some in Hf0 as [H0 _]. pose proof (synced_drop raws limit tx rx h0 id0 Hsy H0) as Hsd.
    pose proof (delete_size _ _ _ H0) as Hsd1. rewrite Hh in Hsd.
    cbn [fst]. apply (synced_insert raws limit _ _ t Hsd); [|by apply lookup_delete_None; right|done|].
    + cbn [drop_tx_template tx_template_ids]. lia.
    + cbn [rx_templates_by_id]. apply lookup_delete_None. by right.
  - rewrite (proj2 (Nat.ltb_ge _ _)) by lia. cbn [fst]. by apply synced_insert.
Qed.

Lemma synced_ext raws limit tx tx' rx rx' :
  synced raws limit tx rx -> tx_template_ids tx' = tx_template_ids tx -> rx_templates rx' = rx_templates rx ->
  rx_templates_by_id rx' = rx_templates_by_id rx -> synced raws limit tx' rx'.
Proof.
  intros [H1 H2 H3 H4 H5 H6 H7] E1 E2 E3. split; rewrite ?E1, ?E2, ?E3; try done.
  - intros h id H. rewrite E1 in H. by apply H2.
  - intros id t H. rewrite E3 in H. by apply H3.
Qed.

(** One frame over a synced link arrives, and leaves it synced. *)
Lemma transmit_ok {L : WireEnvLaws E} raws limit local raw tx rx book managed p :
  synced raws limit tx rx -> (0 < limit)%nat -> collision_free raws -> raw ∈ raws ->
  accepted book managed raw p -> (exists t x, extract_side_header_template raw = Ok (t, x)) ->
  exists b' tx' rx', transmit local limit raw (tx, rx) = (Ok (Some b'), (tx', rx')) /\
    synced raws limit tx' rx' /\
    forall adm, admits_all adm -> unpack_packet_with_role book b' managed adm = (Ok p, adm).
Proof.
  intros Hsy Hpos Hfree Hin Hacc (t & x & Hex). pose proof (extract_hash raw t x Hex) as Hid.
  destruct (extract_view _ _ _ Hex) as [Hv Ht].
  assert (template_used raws t) as Hu by by exists raw, x.
  unfold transmit, encode_side_frame. cbn [fst snd]. rewrite Hv, result_bind_run.
  unfold choose_template, trim_tx_templates_to. rewrite trim_stop by apply (sy_limit _ _ _ _ Hsy).
  assert (tv_hash (ex_view x) = st_hash t) as Hh by by rewrite Ht. rewrite Hh. clear Hh.
  assert (forall tx1 rx1, synced raws limit tx1 rx1 ->
    exists b' tx' rx',
      (let '(r, rx2) := (Ok (Some raw), (if (0 <? limit)%nat then set_rx_timestamp (template_id_of (st_hash t)) (ex_timestamp x) rx1 else rx1))
       in (r, (tx1, rx2))) = (Ok (Some b'), (tx', rx')) /\ synced raws limit tx' rx' /\
      forall adm, admits_all adm -> unpack_packet_with_role book b' managed adm = (Ok p, adm)) as Hraw.
  { intros tx1 rx1 Hsy1. eexists _, _, _. split; [reflexivity|]. split; [|intros adm Hadm; by apply accepted_open].
    eapply synced_ext; [exact Hsy1|done| |]; by destruct (0 <? limit)%nat. }
  destruct (tx_template_ids tx !! st_hash t) as [id|] eqn:Eid.
  - assert (id = template_id_of (st_hash t)) as -> by by apply (sy_tx _ _ _ _ Hsy).
    set (uses := default 0 _). set (compact := (uses <? _) && _). clearbody compact uses.
    set (tx1 := {| tx_template_ids := tx_template_ids tx; tx_templates := _; tx_last_timestamps := _; tx_compact_uses := _ |}).
    assert (synced raws limit tx1 rx) as Hsy1 by by eapply synced_ext.
    destruct compact.
    + rewrite decode_compact by done.
      destruct (sy_find _ _ _ _ Hsy _ _ Eid) as (t' & Ht' & Hh'). rewrite Ht'.
      assert (t' = t) as ->.
      { apply Hfree; [by eapply (sy_rx _ _ _ _ Hsy)|done|by rewrite Hh']. }
      destruct (compact_delivers book managed raw p t x _ Hacc Hex Hid) as (b' & -> & Hun).
      eexists b', _, _. split; [reflexivity|]. split; [|exact Hun]. by eapply synced_ext.
    + rewrite (decode_full local limit _ raw rx t x) by done. cbv zeta. apply Hraw.
      by apply insert_rx_known.
  - rewrite <- Ht. pose proof (insert_new raws limit tx rx t Hsy Hpos Hfree Eid Hu) as Hsy1. cbv zeta in Hsy1.
    destruct (insert_tx_template _ _ _ _) as [tx1 e]. cbn [fst] in Hsy1.
    rewrite (decode_full local limit _ raw rx t x) by done. cbv zeta. apply Hraw.
    destruct (0 <? limit)%nat; [|done]. by eapply synced_ext.
Qed.

Lemma accepted_extracts {L : WireEnvLaws E} book managed raw p :
  accepted book managed raw p -> exists t x, extract_side_header_template raw = Ok (t, x).
Proof.
  intros Hacc. pose proof Hacc as [Hb Hs Hp _].
  destruct (template_lossless book raw managed no_admission p no_admission 0 Absolute None None Hb Hs)
    as (t & x & Hex & _); [by apply no_probe_admits|by apply accepted_open, no_probe_admits|done|solve_u|]. by exists t, x.
Qed.

Lemma transmit_all_take local limit n : forall raws s,
  fst (transmit_all local limit (take n raws) s) = take n (fst (transmit_all local limit raws s)).
Proof.
  induction n as [|n IH]; intros [|raw raws] s; cbn [take transmit_all]; [done..|].
  destruct (transmit local limit raw s) as [r s1]. specialize (IH raws s1).
  destruct (transmit_all local limit (take n raws) s1) as [rs1 s2], (transmit_all local limit raws s1) as [rs2 s3]. cbn in *. by f_equal.
Qed.

(** Frames whose templates have different identifiers. *)
Lemma transmit_run {L : WireEnvLaws E} local limit book managed frames :
  (0 < limit)%nat -> collision_free (map fst frames) ->
  Forall (fun f => accepted book managed (fst f) (snd f)) frames ->
  let '(rs, (tx, rx)) := transmit_all local limit (map fst frames) (tx_empty, rx_empty) in
  Forall2 (fun r f => exists b', r = Ok (Some b') /\
    forall adm, admits_all adm -> unpack_packet_with_role book b' managed adm = (Ok (snd f), adm)) rs frames /\
  rx_templates rx = tx_template_ids tx /\ (rx_template_count rx <= limit)%nat.
Proof.
  intros Hpos Hfree Hacc. set (raws := map fst frames) in Hfree.
  assert (forall fs tx rx, Forall (fun f => accepted book managed (fst f) (snd f)) fs ->
    (forall f, f ∈ fs -> fst f ∈ raws) -> synced raws limit tx rx ->
    let '(rs, (tx', rx')) := transmit_all local limit (map fst fs) (tx, rx) in
    Forall2 (fun r f => exists b', r = Ok (Some b') /\
      forall adm, admits_all adm -> unpack_packet_with_role book b' managed adm = (Ok (snd f), adm)) rs fs /\
    synced raws limit tx' rx') as Hrun.
  { clear Hacc. intros fs. induction fs as [|f fs IH]; intros tx rx Hacc Hin Hsy; cbn [map transmit_all]; [done|].
    apply Forall_cons in Hacc as [Hf Hacc].
    destruct (transmit_ok raws limit local (fst f) tx rx book managed (snd f) Hsy Hpos Hfree)
      as (b' & tx1 & rx1 & -> & Hsy1 & Hun); [apply Hin; by left|done|by eapply accepted_extracts|].
    specialize (IH tx1 rx1 Hacc (fun g Hg => Hin g (list_elem_of_further _ _ _ Hg)) Hsy1).
    destruct (transmit_all local limit (map fst fs) (tx1, rx1)) as [rs [tx' rx']]. destruct IH as [IH Hsy'].
    split; [|done]. constructor; [|done]. by exists b'. }
  specialize (Hrun frames tx_empty rx_empty Hacc).
  destruct (transmit_all local limit (map fst frames) (tx_empty, rx_empty)) as [rs [tx rx]].
  destruct Hrun as [Hrs Hsy].
  - intros f Hf. apply list_elem_of_fmap. by exists f.
  - split; try done; try (intros ? ? H; cbn in H; by rewrite lookup_empty in H).
    cbn [tx_empty tx_template_ids]. rewrite map_size_empty. lia.
  - split; [done|]. split; [apply Hsy|]. unfold rx_template_count.
    rewrite (sy_size _ _ _ _ Hsy). apply Hsy.
Qed.

(** C6: header compression over a link that delivers in order, with the same positive
    limit at both ends.  As long as no two templates sent so far have one 32-bit
    identifier it is transparent: however small the limit and however often templates
    are evicted, the two dictionaries evict the same entries, every frame arrives, as a
    frame that unpacks to the packet it was made from, and both ends know the same
    templates, at most the limit.  (What happens to a frame after that, [link_safety]
    says.) *)
Theorem link_in_order {L : WireEnvLaws E} local limit book managed frames n :
  (0 < limit)%nat -> Forall (fun f => accepted book managed (fst f) (snd f)) frames ->
  collides (map fst (take n frames)) \/
  Forall2 (fun r f => exists b', r = Ok (Some b') /\
    forall adm, admits_all adm -> unpack_packet_with_role book b' managed adm = (Ok (snd f), adm))
    (take n (fst (transmit_all local limit (map fst frames) (tx_empty, rx_empty)))) (take n frames) /\
  (let '(tx, rx) := snd (transmit_all local limit (map fst (take n frames)) (tx_empty, rx_empty)) in
   rx_templates rx = tx_template_ids tx /\ (rx_template_count rx <= limit)%nat).
Proof.
  intros Hpos Hacc. destruct (collides_dec (map fst (take n frames))) as [|Hfree]; [by left|right].
  pose proof (transmit_run local limit book managed (take n frames) Hpos Hfree (Forall_take _ n _ Hacc)) as H.
  rewrite <- transmit_all_take. rewrite <- firstn_map in H |- *.
  destruct (transmit_all local limit (take n (map fst frames)) _) as [rs [tx rx]]. exact H.
Qed.
End SideLink.

(** ** A concrete link *)

Definition link_packet (from : string) (ts : Z) : Packet :=
  {| ty := 100; data_size := 2; sender := str from; pkt_endpoints := [3; 7]; timestamp := ts; nonce := 77;
     payload := [1; 2]; wire_shape := None; wire_target_senders_opt := None |}.

Definition link_frame (from : string) (ts : Z) : bytes :=
  match fst (pack_packet_inner ∅ (link_packet from ts) None) with Some b => b | None => [] end.

Definition link_frames : list bytes :=
  Eval vm_compute in [link_frame "ROCKET" 1000; link_frame "ROCKET" 1010; link_frame "GROUND" 1010;
                      link_frame "ROCKET" 1020].

Definition link_received (raw : bytes) : Packet :=
  match fst (unpack_packet_with_role ∅ raw false no_admission) with Ok p => p | Err _ => sample_packet end.

Definition link_pairs : list (bytes * Packet) :=
  Eval vm_compute in map (fun raw => (raw, link_received raw)) link_frames.

Lemma link_pairs_accepted : Forall (fun f => accepted ∅ false (fst f) (snd f)) link_pairs.
Proof.
  repeat (apply Forall_cons; split; [split; [apply bytes_ok_dec; by vm_compute|by vm_compute|by vm_compute|
    exists no_admission, no_admission; vm_compute; reflexivity]|]). constructor.
Qed.

(** The two streams have two templates, with two identifiers. *)
Definition link_templates : list SideHeaderTemplate :=
  Eval vm_compute in
    flat_map (fun raw => match extract_side_header_template raw with Ok (t, _) => [t] | Err _ => [] end)
      [link_frame "ROCKET" 1000; link_frame "GROUND" 1010].

Lemma link_collision_free raws :
  forallb (fun raw => bool_decide (raw ∈ link_frames)) raws = true -> collision_free raws.
Proof.
  intros Hall. rewrite forallb_forall in Hall.
  assert (raws ⊆ link_frames) as Hsub.
  { intros raw Hraw. apply list_elem_of_In in Hraw. specialize (Hall raw Hraw). by apply bool_decide_eq_true in Hall. }
  assert (forall t, template_used raws t -> t ∈ link_templates) as Hin.
  { intros t (raw & x & Hraw & Hex). apply Hsub in Hraw. unfold link_frames in Hraw.
    repeat (apply elem_of_cons in Hraw as [->|Hraw]; [vm_compute in Hex; injection Hex as <- _;
      unfold link_templates; first [by left|right; by left]|]).
    by apply not_elem_of_nil in Hraw. }
  intros t1 t2 H1%Hin H2%Hin. unfold link_templates in H1, H2.
  repeat (apply elem_of_cons in H1 as [->|H1]; [repeat (apply elem_of_cons in H2 as [->|H2];
    [first [done|vm_compute; discriminate]|]); by apply not_elem_of_nil in H2|]).
  by apply not_elem_of_nil in H1.
Qed.

(** With room for one template the second stream evicts the first, which comes
    back as a full frame. *)
Lemma link_in_order_witness :
  exists rs s, transmit_all true 1 (map fst link_pairs) (tx_empty, rx_empty) = (rs, s) /\
    Forall2 (fun r f => exists b', r = Ok (Some b') /\
      fst (unpack_packet_with_role ∅ b' false no_admission) = Ok (snd f)) rs link_pairs /\
    rx_template_count (snd s) = 1%nat.
Proof.
  destruct (link_in_order true 1 ∅ false link_pairs 4 ltac:(lia) link_pairs_accepted) as [Hc|[H _]].
  { exfalso. eapply collision_free_not; [|exact Hc]. apply link_collision_free. vm_compute. reflexivity. }
  destruct (transmit_all true 1 (map fst link_pairs) (tx_empty, rx_empty)) as [rs [tx rx]] eqn:Et.
  exists rs, (tx, rx). split; [reflexivity|]. split.
  - assert (take 4 rs = rs) as Hrs by (vm_compute in Et; injection Et as <- _ _; reflexivity).
    cbn [fst] in H. rewrite Hrs in H. change (take 4 link_pairs) with link_pairs in H.
    eapply Forall2_impl; [exact H|]. intros r f (b' & Hr & Hu). exists b'. split; [exact Hr|].
    rewrite Hu; [reflexivity|]. apply no_probe_admits. reflexivity.
  - vm_compute in Et. injection Et as _ _ <-. reflexivity.
Defined.

(** Two frames of one stream were sent; the compact one arrives first. *)
Definition lossy_link : Link :=
  let f1 := nth 0 link_frames [] in
  let f2 := nth 1 link_frames [] in
  match encode_side_frame 4 f1 tx_empty with
  | Ok (w1, tx1) =>
      match encode_side_frame 4 f2 tx1 with
      | Ok (w2, tx2) => {| lk_tx := tx2; lk_rx := rx_empty; lk_sent := [(w2, f2); (w1, f1)] |}
      | Err _ => link_init
      end
  | Err _ => link_init
  end.

Lemma lossy_link_reachable : rtc link_step link_init lossy_link.
Proof.
  unfold lossy_link. destruct (encode_side_frame 4 (nth 0 link_frames []) tx_empty) as [[w1 tx1]|] eqn:E1; [|apply rtc_refl].
  destruct (encode_side_frame 4 (nth 1 link_frames []) tx1) as [[w2 tx2]|] eqn:E2; [|apply rtc_refl].
  eapply rtc_l; [apply (link_send link_init 4 _ w1 tx1 E1)|].
  eapply rtc_l; [apply (link_send {| lk_tx := tx1; lk_rx := rx_empty; lk_sent := [(w1, nth 0 link_frames [])] |} 4 _ w2 tx2 E2)|].
  apply rtc_refl.
Qed.

Definition lossy_sent : list (bytes * bytes) := Eval vm_compute in lk_sent lossy_link.

Lemma lossy_sent_eq : lk_sent lossy_link = lossy_sent.
Proof. vm_compute. reflexivity. Qed.

Lemma link_safety_witness :
  let wire := fst (nth 0 lossy_sent ([], [])) in
  let raw := snd (nth 0 lossy_sent ([], [])) in
  match fst (decode_side_frame true 4 wire (lk_rx lossy_link)) with
  | Ok (Some b') => fst (unpack_packet_with_role ∅ b' false no_admission) = Ok (link_received raw)
  | Ok None => true = true
  | Err e => true = false /\ e = Unpack "unknown side compact template"
  end.
Proof.
  cbv zeta. pose proof (link_safety lossy_link (fst (nth 0 lossy_sent ([], []))) (snd (nth 0 lossy_sent ([], [])))
    ∅ false (link_received (snd (nth 0 lossy_sent ([], [])))) true 4 lossy_link_reachable) as H.
  rewrite lossy_sent_eq in H.
  assert (collision_free (map snd lossy_sent)) as Hc.
  { apply link_collision_free. vm_compute. reflexivity. }
  assert (accepted ∅ false (snd (nth 0 lossy_sent ([], []))) (link_received (snd (nth 0 lossy_sent ([], []))))) as Ha.
  { pose proof link_pairs_accepted as Ha. rewrite Forall_forall in Ha.
    assert (snd (nth 0 lossy_sent ([], [])) = fst (nth 1 link_pairs ([], sample_packet))) as -> by reflexivity.
    assert (link_received (fst (nth 1 link_pairs ([], sample_packet))) = snd (nth 1 link_pairs ([], sample_packet)))
      as -> by (vm_compute; reflexivity).
    apply Ha. right. by left. }
  destruct (H ltac:(by left) Ha) as [H1|[_ H1]]; [clear H; rename H1 into H|by destruct (collision_free_not _ Hc)]. clear Hc.
  destruct (fst (decode_side_frame _ _ _ _)) as [[b'|]|e]; [|exact H..].
  rewrite H; [reflexivity|]. by apply no_probe_admits.
Defined.

(** *** Two boards with one identifier

    The templates of these two boards share a 32-bit identifier.  The second board's
    full frame replaces the first's template at the receiver, while the sender still
    counts both as known: the next compact frame of the first arrives, with a fresh
    checksum, as a packet of the second. *)
Definition confused_frames : list bytes :=
  Eval vm_compute in [link_frame "NODE24634" 1000; link_frame "NODE116066" 1010; link_frame "NODE24634" 1020].

Lemma template_confusion :
  let senders raw := match fst (unpack_packet_with_role ∅ raw false no_admission) with Ok p => Some (sender_address_u32 (sender p), timestamp p) | Err _ => None end in
  map senders confused_frames = [Some (sender_address_u32 (str "NODE24634"), 1000); Some (sender_address_u32 (str "NODE116066"), 1010);
                                 Some (sender_address_u32 (str "NODE24634"), 1020)] /\
  map (fun r => match r with Ok (Some b) => senders b | _ => None end) (fst (transmit_all true 4 confused_frames (tx_empty, rx_empty))) =
    [Some (sender_address_u32 (str "NODE24634"), 1000); Some (sender_address_u32 (str "NODE116066"), 1010);
     Some (sender_address_u32 (str "NODE116066"), 1020)] /\
  sender_address_u32 (str "NODE24634") <> sender_address_u32 (str "NODE116066").
Proof. vm_compute. by split_and!. Qed.
