(* ===== verification/HopReliable.v ===== *)
(** * Reliable delivery over one hop (src/src/router.rs)

    Frames of reliable types cross a side under a sequence number and stay in a
    window until the neighbour acknowledges them; the receiver of an ordered
    stream delivers in sequence, buffers what runs ahead and asks for what is
    missing.  [HopState] holds the fields [reliable_tx] and [reliable_rx] of the
    router; each block the source runs under the state lock is one function on it,
    so that the steps of [HopLink] interleave as the locks allow. *)

From stdpp Require Import sorting.
From S2P Require Import Prelude Schema MemoryAdmission WireReader OrdMap.

Open Scope Z_scope.

(** ** State *)

Abbreviation RouterSideId := Z (only parsing).

(** Shared immutable bytes: [owner] is the identity of the allocation. *)
Record SharedBytes : Type := { owner : Z; shared : bytes }.

Definition same_owner (a b : SharedBytes) : bool := owner a =? owner b.

(** Equality of the contents; the 32-byte windows of the source read it all. *)
Definition equal_bytes (a b : SharedBytes) : bool :=
  if same_owner a b then true else bool_decide (shared a = shared b).

Inductive FirstHopOffer : Type := Complete | Pending | Active | AckedActive.

#[export] Instance FirstHopOffer_eq_dec : EqDecision FirstHopOffer.
Proof. solve_decision. Defined.

Definition pending (o : FirstHopOffer) : bool :=
  match o with Complete => false | _ => true end.
Definition active (o : FirstHopOffer) : bool :=
  match o with Active | AckedActive => true | _ => false end.

Record ReliableSent : Type := {
  sent_bytes : SharedBytes;
  offer_stamp : Z;
  first_offer : FirstHopOffer;
  retries : Z;
  queued : bool;
  partial_acked : bool;
}.

(** [next_seq = 0] is an ordered stream that failed; it never recovers. *)
Record ReliableTxState : Type := {
  next_seq : Z;
  sent_order : list Z;
  sent : gmap Z ReliableSent;
}.

Inductive ControlRxMode : Type := HopWindow | Reserved | BoundReceipt.

Record ReliableRxState : Type := {
  expected_seq : Z;
  buffered : gmap Z SharedBytes;
  control_mode : ControlRxMode;
  control_token : Z;
}.

Abbreviation stream_key := (Z * Z)%type (only parsing).

Record HopState : Type := {
  reliable_tx : gmap stream_key ReliableTxState;
  reliable_rx : gmap stream_key ReliableRxState;
}.

(** The runtime tuning the window reads (config.rs). *)
Record ReliableTuning : Type := {
  reliable_retransmit_ms : Z;
  reliable_max_retries : Z;
  reliable_max_pending : Z;
}.

Definition reliable_key (side : RouterSideId) (ty : DataType) : stream_key := (side, ty).

Definition new_tx : ReliableTxState := {| next_seq := 1; sent_order := []; sent := ∅ |}.
Definition new_rx : ReliableRxState :=
  {| expected_seq := 1; buffered := ∅; control_mode := HopWindow; control_token := 0 |}.

(** [entry(key).or_insert_with(..)]: the stream, created when absent. *)
Definition reliable_tx_state (st : HopState) (side : RouterSideId) (ty : DataType) : ReliableTxState :=
  default new_tx (reliable_tx st !! reliable_key side ty).
Definition reliable_rx_state (st : HopState) (side : RouterSideId) (ty : DataType) : ReliableRxState :=
  default new_rx (reliable_rx st !! reliable_key side ty).

Definition set_tx (st : HopState) (k : stream_key) (s : ReliableTxState) : HopState :=
  {| reliable_tx := <[k := s]> (reliable_tx st); reliable_rx := reliable_rx st |}.
Definition set_rx (st : HopState) (k : stream_key) (s : ReliableRxState) : HopState :=
  {| reliable_tx := reliable_tx st; reliable_rx := <[k := s]> (reliable_rx st) |}.

(** Field updates of a row and of a stream. *)
Definition set_first_offer (o : FirstHopOffer) (r : ReliableSent) : ReliableSent :=
  {| sent_bytes := sent_bytes r; offer_stamp := offer_stamp r; first_offer := o;
     retries := retries r; queued := queued r; partial_acked := partial_acked r |}.
Definition set_queued (q : bool) (r : ReliableSent) : ReliableSent :=
  {| sent_bytes := sent_bytes r; offer_stamp := offer_stamp r; first_offer := first_offer r;
     retries := retries r; queued := q; partial_acked := partial_acked r |}.
Definition set_partial (p : bool) (r : ReliableSent) : ReliableSent :=
  {| sent_bytes := sent_bytes r; offer_stamp := offer_stamp r; first_offer := first_offer r;
     retries := retries r; queued := queued r; partial_acked := p |}.
Definition set_stamp (t : Z) (r : ReliableSent) : ReliableSent :=
  {| sent_bytes := sent_bytes r; offer_stamp := t; first_offer := first_offer r;
     retries := retries r; queued := queued r; partial_acked := partial_acked r |}.
Definition set_retries (n : Z) (r : ReliableSent) : ReliableSent :=
  {| sent_bytes := sent_bytes r; offer_stamp := offer_stamp r; first_offer := first_offer r;
     retries := n; queued := queued r; partial_acked := partial_acked r |}.

Definition set_row (seq : Z) (r : ReliableSent) (s : ReliableTxState) : ReliableTxState :=
  {| next_seq := next_seq s; sent_order := sent_order s; sent := <[seq := r]> (sent s) |}.

(** [sent.remove(&seq); sent_order.retain(|x| *x != seq)]. *)
Definition drop_row (seq : Z) (s : ReliableTxState) : ReliableTxState :=
  {| next_seq := next_seq s; sent_order := filter (fun x => x <> seq) (sent_order s);
     sent := delete seq (sent s) |}.

(** [next_seq = 0; sent.clear(); sent_order.clear()]. *)
Definition fail_stream (s : ReliableTxState) : ReliableTxState :=
  {| next_seq := 0; sent_order := []; sent := ∅ |}.

Definition is_ordered (reg : Registry) (ty : DataType) : bool :=
  match reliable_mode reg ty with Ordered => true | _ => false end.
Definition is_unordered (reg : Registry) (ty : DataType) : bool :=
  match reliable_mode reg ty with Unordered => true | _ => false end.

(** Errors that ask for another attempt. *)
Definition is_transient_tx_error (e : TelemetryError) : bool :=
  match e with
  | Io msg => bool_decide (msg ∈ ["side tx busy"%string; "memory pressure"%string;
                "reliable window full"%string; "shared priority queue saturated"%string])
  | _ => false
  end.

Definition stream_failed : TelemetryError := HandlerError "ordered hop stream failed".

(** ** Acknowledgements *)

(** [handle_reliable_ack], the loop of an ordered stream over [sent_order]. *)
Fixpoint ack_prefix (ack : Z) (order : list Z) (rows : gmap Z ReliableSent)
    : list Z * gmap Z ReliableSent :=
  match order with
  | [] => ([], rows)
  | seq :: rest =>
      if ack <? seq then (order, rows)
      else
        match rows !! seq with
        | Some row =>
            if pending (first_offer row) then
              (order, if active (first_offer row)
                      then <[seq := set_first_offer AckedActive row]> rows else rows)
            else ack_prefix ack rest (delete seq rows)
        | None => ack_prefix ack rest (delete seq rows)
        end
  end.

Definition ack_ordered (ack : Z) (s : ReliableTxState) : ReliableTxState :=
  let '(order, rows) := ack_prefix ack (sent_order s) (sent s) in
  {| next_seq := next_seq s; sent_order := order; sent := rows |}.

Definition ack_unordered (ack : Z) (s : ReliableTxState) : ReliableTxState :=
  match sent s !! ack with
  | None => s
  | Some row =>
      if pending (first_offer row) then
        if active (first_offer row) then set_row ack (set_first_offer AckedActive row) s else s
      else drop_row ack s
  end.

Definition handle_reliable_ack (reg : Registry) (side : RouterSideId) (ty : DataType) (ack : Z)
    (st : HopState) : HopState :=
  match reliable_tx st !! reliable_key side ty with
  | None => st
  | Some s =>
      set_tx st (reliable_key side ty)
        (if is_unordered reg ty then ack_unordered ack s else ack_ordered ack s)
  end.

Definition handle_reliable_partial_ack (side : RouterSideId) (ty : DataType) (seq : Z)
    (st : HopState) : HopState :=
  match reliable_tx st !! reliable_key side ty with
  | None => st
  | Some s =>
      match sent s !! seq with
      | None => st
      | Some row =>
          if pending (first_offer row) then st
          else set_tx st (reliable_key side ty) (set_row seq (set_partial true row) s)
      end
  end.

(** ** Completion of an offer *)

(** The rows of one stream after the callback returned [res]. *)
Definition settle_offer (ordered : bool) (seq : Z) (row : ReliableSent) (res : result unit)
    (now : Z) (replay : bool) (s : ReliableTxState) : ReliableTxState :=
  match res with
  | Ok _ =>
      match first_offer row with
      | AckedActive => drop_row seq s
      | o =>
          let n := if replay then if pending o then retries row
                                  else Z.min u32_max (retries row + 1)
                   else retries row in
          set_row seq (set_queued false (set_stamp now (set_first_offer Complete (set_retries n row)))) s
      end
  | Err e =>
      if is_transient_tx_error e then
        set_row seq (set_queued false
          (if pending (first_offer row) then set_first_offer Pending row else row)) s
      else if ordered then fail_stream s
      else drop_row seq s
  end.

(** [complete_hop_offer]; [now] is the clock read before the lock is taken. *)
Definition complete_hop_offer (reg : Registry) (side : RouterSideId) (ty : DataType) (seq : Z)
    (b : SharedBytes) (res : result unit) (now : Z) (replay : bool) (st : HopState)
    : result unit * HopState :=
  match reliable_tx st !! reliable_key side ty with
  | None => (Ok tt, st)
  | Some s =>
      if is_ordered reg ty && (next_seq s =? 0) then (Err stream_failed, st)
      else
        match sent s !! seq with
        | None => (Ok tt, st)
        | Some row =>
            if same_owner (sent_bytes row) b then
              (Ok tt, set_tx st (reliable_key side ty)
                        (settle_offer (is_ordered reg ty) seq row res now replay s))
            else (Ok tt, st)
        end
  end.

(** ** First transmission *)

(** Sizes of the 64-bit layout ([size_of]). *)
Definition size_of_usize : Z := 8.
Definition size_of_ReliableSent : Z := 32.
Definition size_of_sent_entry : Z := 40.

Definition bit_length (n : Z) : Z := if n <=? 0 then 0 else Z.log2 n + 1.

(** The probe of the map growth: the node, times the depth a tree of [rows] may
    have, and the frame. *)
Definition reserve_admission (rows len : Z) : check_fn :=
  let node := sat_add (sat_mul size_of_sent_entry 11) (24 * size_of_usize) in
  let levels := bit_length (sat_add rows 1) + 2 in
  check (sat_add (sat_mul node levels) len) node.

(** The search for a frame already retained: the same origin, not yet offered
    completely, and the same wire under its own sequence number. *)
Fixpoint find_retained (origin : Z) (encode : Z -> result (option SharedBytes))
    (rows : list (Z * ReliableSent)) : result bool :=
  match rows with
  | [] => Ok false
  | (seq, row) :: rows =>
      if pending (first_offer row) then
        if offer_stamp row =? origin then
          match encode seq with
          | Err e => Err e
          | Ok (Some candidate) =>
              if equal_bytes (sent_bytes row) candidate then Ok true
              else find_retained origin encode rows
          | Ok None => find_retained origin encode rows
          end
        else find_retained origin encode rows
      else find_retained origin encode rows
  end.

(** The sequence number the next frame would take, and the rows retained. *)
Definition window_slot (tun : ReliableTuning) (side : RouterSideId) (ty : DataType) (st : HopState)
    : result (Z * Z) :=
  match reliable_tx st !! reliable_key side ty with
  | None => Ok (1, 0)
  | Some s =>
      if next_seq s =? 0 then Err stream_failed
      else if reliable_max_pending tun <=? Z.of_nat (size (sent s))
      then Err (Io "reliable window full")
      else Ok (next_seq s, Z.of_nat (size (sent s)))
  end.

Definition first_row (origin : Z) (b : SharedBytes) : ReliableSent :=
  {| sent_bytes := b; offer_stamp := origin; first_offer := Active; retries := 0;
     queued := true; partial_acked := false |}.

(** [seq.wrapping_add(1)] past zero. *)
Definition seq_after (seq : Z) : Z :=
  let next := wrap32 (seq + 1) in if next =? 0 then 1 else next.

(** The locked block that commits a sequence number.  [used] is what
    [shared_queue_bytes_used] reports, [same_side] whether the side still has the
    handler the frames were encoded for. *)
Definition commit_hop_offer (tun : ReliableTuning) (side : RouterSideId) (ty : DataType)
    (seq origin : Z) (b : SharedBytes) (same_side : bool) (used budget : Z) (st : HopState)
    : result HopState :=
  if negb same_side then Err (Io "side tx owner changed")
  else
    let cost := sat_add (zlen (shared b)) (size_of_ReliableSent + 3 * size_of_usize) in
    if budget <? sat_add used cost then Err (Io "memory pressure")
    else
      let s := reliable_tx_state st side ty in
      if negb (next_seq s =? seq) || bool_decide (is_Some (sent s !! seq))
      then Err (Io "reliable owner changed")
      else if reliable_max_pending tun <=? Z.of_nat (size (sent s))
      then Err (Io "reliable window full")
      else
        Ok (set_tx st (reliable_key side ty)
              {| next_seq := seq_after seq; sent_order := sent_order s ++ [seq];
                 sent := <[seq := first_row origin b]> (sent s) |}).

(** What the sending path takes from the rest of the router: the frame under a
    sequence number ([encode_hop_owner]), its transport frames
    ([encode_side_transport_frames]), the handler of the side, the bytes in use,
    and the callback, which runs without the lock and may call back into the
    router, hence returns a state. *)
Record HopEgress : Type := {
  encode_hop_owner : Z -> result (option SharedBytes);
  encode_frames : SharedBytes -> result (list bytes);
  handler_kept : bool;
  bytes_in_use : Z;
  queue_budget : Z;
  offer_frames : list bytes -> HopState -> result unit * HopState;
  offer_whole : HopState -> result unit * HopState;
  egress_clock : Z;
}.

(** [send_reliable_to_admitted_side_impl] for a reliable type on a side with hop
    reliability, from the search for a retained frame on. *)
Definition send_reliable (reg : Registry) (tun : ReliableTuning) (side : RouterSideId)
    (ty : DataType) (origin : Z) (eg : HopEgress) (adm : Admission) (st : HopState)
    : result unit * Admission * HopState :=
  let rows := match reliable_tx st !! reliable_key side ty with
              | Some s => entries (sent s) | None => [] end in
  match find_retained origin (encode_hop_owner eg) rows with
  | Err e => (Err e, adm, st)
  | Ok true => (Ok tt, adm, st)
  | Ok false =>
      match window_slot tun side ty st with
      | Err e => (Err e, adm, st)
      | Ok (seq, rows) =>
          match encode_hop_owner eg seq with
          | Err e => (Err e, adm, st)
          | Ok None => let '(res, st) := offer_whole eg st in (res, adm, st)
          | Ok (Some b) =>
              match encode_frames eg b with
              | Err e => (Err e, adm, st)
              | Ok frames =>
                  let '(admitted, adm) := reserve_admission rows (zlen (shared b)) adm in
                  match admitted with
                  | Err e => (Err e, adm, st)
                  | Ok _ =>
                      match commit_hop_offer tun side ty seq origin b (handler_kept eg)
                              (bytes_in_use eg) (queue_budget eg) st with
                      | Err e => (Err e, adm, st)
                      | Ok st =>
                          let '(res, st) := offer_frames eg frames st in
                          let '(completion, st) :=
                            complete_hop_offer reg side ty seq b res (egress_clock eg) false st in
                          (match res with
                           | Ok _ => completion
                           | Err e => if is_transient_tx_error e then completion else Err e
                           end, adm, st)
                      end
                  end
              end
          end
      end
  end.

(** ** Replays *)

(** [push_transmit] of a replay marker: a marker already queued, or for a frame
    no longer retained, is dropped; [pushed] is what making room and the queue
    answer otherwise. *)
Definition push_replay (side : RouterSideId) (ty : DataType) (seq : Z) (pushed : result unit)
    (st : HopState) : result unit * HopState :=
  match reliable_tx st !! reliable_key side ty with
  | None => (Ok tt, st)
  | Some s =>
      match sent s !! seq with
      | None => (Ok tt, st)
      | Some row =>
          if queued row then (Ok tt, st)
          else
            match pushed with
            | Ok _ => (Ok tt, set_tx st (reliable_key side ty) (set_row seq (set_queued true row) s))
            | Err e => (Err e, st)
            end
      end
  end.

(** [set_replay_queued] when a marker leaves the queue unserved. *)
Definition set_replay_queued (side : RouterSideId) (ty : DataType) (seq : Z) (q : bool)
    (st : HopState) : HopState :=
  match reliable_tx st !! reliable_key side ty with
  | None => st
  | Some s =>
      match sent s !! seq with
      | None => st
      | Some row => set_tx st (reliable_key side ty) (set_row seq (set_queued q row) s)
      end
  end.

(** The two locked blocks of a replay: the marker is claimed, then the row
    activated.  [None]: the replay ends there with the given answer. *)
Definition claim_replay (side : RouterSideId) (ty : DataType) (seq : Z) (b : SharedBytes)
    (st : HopState) : result bool * HopState :=
  match reliable_tx st !! reliable_key side ty with
  | None => (Ok false, st)
  | Some s =>
      if next_seq s =? 0 then (Err stream_failed, st)
      else
        match sent s !! seq with
        | None => (Ok false, st)
        | Some row =>
            if same_owner (sent_bytes row) b
            then (Ok true, set_tx st (reliable_key side ty) (set_row seq (set_queued true row) s))
            else (Ok false, st)
        end
  end.

Definition activate_replay (side : RouterSideId) (ty : DataType) (seq : Z) (b : SharedBytes)
    (st : HopState) : bool * HopState :=
  match reliable_tx st !! reliable_key side ty with
  | None => (false, st)
  | Some s =>
      match sent s !! seq with
      | None => (false, st)
      | Some row =>
          if same_owner (sent_bytes row) b
          then (true, if pending (first_offer row)
                      then set_tx st (reliable_key side ty)
                             (set_row seq (set_first_offer Active row) s)
                      else st)
          else (false, st)
      end
  end.

(** [RouterTxItem::ReliableReplay] of [tx_item_impl]: [admitted] is the answer of
    [admit_side_tx], [raw_offer] the callback, [pushed] the answer of the queue
    when the marker is put back. *)
Definition replay_offer (reg : Registry) (side : RouterSideId) (ty : DataType) (seq : Z)
    (b : SharedBytes) (admitted : result unit) (raw_offer : HopState -> result unit * HopState)
    (now : Z) (pushed : result unit) (st : HopState) : result unit * HopState :=
  match claim_replay side ty seq b st with
  | (Err e, st) => (Err e, st)
  | (Ok false, st) => (Ok tt, st)
  | (Ok true, st) =>
      let offered :=
        match admitted with
        | Err e => Some (Err e, st)
        | Ok _ =>
            match activate_replay side ty seq b st with
            | (false, _) => None
            | (true, st) => Some (raw_offer st)
            end
        end in
      match offered with
      | None => (Ok tt, st)
      | Some (res, st) =>
          let '(completion, st) := complete_hop_offer reg side ty seq b res now true st in
          match res with
          | Err e =>
              if is_transient_tx_error e then
                match completion with
                | Err e => (Err e, st)
                | Ok _ => push_replay side ty seq pushed st
                end
              else (Err e, st)
          | Ok _ => (completion, st)
          end
      end
  end.

(** [queue_reliable_retransmit]: [dispatch] queues the replay of the row's bytes,
    or runs it at once when the caller is not the queue. *)
Definition mark_retransmit (side : RouterSideId) (ty : DataType) (seq : Z) (st : HopState)
    : result (option SharedBytes) * HopState :=
  let s := reliable_tx_state st side ty in
  let st := set_tx st (reliable_key side ty) s in
  if next_seq s =? 0 then (Err stream_failed, st)
  else
    match sent s !! seq with
    | Some row =>
        if queued row then (Ok None, st)
        else (Ok (Some (sent_bytes row)),
              set_tx st (reliable_key side ty) (set_row seq (set_partial false row) s))
    | None => (Ok None, st)
    end.

Definition queue_reliable_retransmit (side : RouterSideId) (ty : DataType) (seq : Z)
    (dispatch : SharedBytes -> HopState -> result unit * HopState) (st : HopState)
    : result unit * HopState :=
  match mark_retransmit side ty seq st with
  | (Err e, st) => (Err e, st)
  | (Ok None, st) => (Ok tt, st)
  | (Ok (Some b), st) => dispatch b st
  end.

(** ** Timeouts *)

Definition hop_key_le {A} (x y : stream_key * A) : Prop :=
  fst (fst x) < fst (fst y) \/ fst (fst x) = fst (fst y) /\ snd (fst x) <= snd (fst y).

#[export] Instance hop_key_le_dec {A} : RelDecision (@hop_key_le A).
Proof. intros x y. unfold hop_key_le. apply _. Defined.

(** The streams in the order of a [BTreeMap] keyed by pairs. *)
Definition streams {A} (m : gmap stream_key A) : list (stream_key * A) :=
  merge_sort hop_key_le (map_to_list m).

Inductive RowTimeout : Type :=
| Rest (s : ReliableTxState)        (** nothing to send *)
| Requeue                           (** another attempt *)
| Expired.                          (** the retries are spent *)

Definition row_timeout (tun : ReliableTuning) (now seq : Z) (s : ReliableTxState) : RowTimeout :=
  match sent s !! seq with
  | None => Rest s
  | Some row =>
      if queued row then Rest s
      else if negb (pending (first_offer row))
              && (wrap64 (now - offer_stamp row) <? reliable_retransmit_ms tun) then Rest s
      else if partial_acked row then Rest (set_row seq (set_stamp now (set_partial false row)) s)
      else if reliable_max_retries tun <=? retries row then Expired
      else Requeue
  end.

(** The rows of one stream: the stream afterwards, the sequence numbers to send
    again and whether the stream failed. *)
Fixpoint timeout_rows (tun : ReliableTuning) (ordered : bool) (now : Z) (order : list Z)
    (s : ReliableTxState) (again : list Z) : ReliableTxState * list Z * bool :=
  match order with
  | [] => (s, again, false)
  | seq :: order =>
      match row_timeout tun now seq s with
      | Rest s => timeout_rows tun ordered now order s again
      | Requeue => timeout_rows tun ordered now order s (again ++ [seq])
      | Expired =>
          if ordered then (fail_stream s, [], true)
          else timeout_rows tun ordered now order (drop_row seq s) again
      end
  end.

Definition timeout_stream (reg : Registry) (tun : ReliableTuning) (now : Z) (ty : DataType)
    (s : ReliableTxState) : ReliableTxState * list Z * bool :=
  match data_type_try_from_u32 reg ty with
  | None => (s, [], false)
  | Some ty => timeout_rows tun (is_ordered reg ty) now (sent_order s) s []
  end.

Fixpoint timeout_streams (reg : Registry) (tun : ReliableTuning) (now : Z)
    (l : list (stream_key * ReliableTxState)) (st : HopState)
    (again : list (stream_key * Z)) (failed : bool) : HopState * list (stream_key * Z) * bool :=
  match l with
  | [] => (st, again, failed)
  | (k, s) :: l =>
      let '(s, seqs, f) := timeout_stream reg tun now (snd k) s in
      timeout_streams reg tun now l (set_tx st k s) (again ++ map (fun q => (k, q)) seqs) (failed || f)
  end.

(** The requests go to the queue one by one; the first error is remembered. *)
Fixpoint requeue_all (dispatch : stream_key -> Z -> SharedBytes -> HopState -> result unit * HopState)
    (again : list (stream_key * Z)) (first : option TelemetryError) (st : HopState)
    : option TelemetryError * HopState :=
  match again with
  | [] => (first, st)
  | (k, seq) :: again =>
      let '(res, st) := queue_reliable_retransmit (fst k) (snd k) seq (dispatch k seq) st in
      let first := match first, res with Some e, _ => Some e | None, Err e => Some e | _, _ => None end in
      requeue_all dispatch again first st
  end.

Definition process_reliable_timeouts (reg : Registry) (tun : ReliableTuning) (now : Z)
    (dispatch : stream_key -> Z -> SharedBytes -> HopState -> result unit * HopState)
    (st : HopState) : result unit * HopState :=
  let '(st, again, failed) :=
    timeout_streams reg tun now (streams (reliable_tx st)) st [] false in
  let '(error, st) := requeue_all dispatch again None st in
  (if failed : bool then Err (HandlerError "ordered hop delivery exhausted retries")
   else match error with Some e => Err e | None => Ok tt end, st).

(** ** Receiving *)

(** The control packets of the hop, all about one stream. *)
Inductive HopControl : Type :=
| HopAck (seq : Z)
| HopPartialAck (seq : Z)
| HopRequest (seq : Z).

(** [buffer_reliable_rx]; [room] is the answer of [make_shared_queue_room], which
    frees other queues. *)
Definition buffer_reliable_rx (tun : ReliableTuning) (room : result unit) (seq : Z) (b : SharedBytes)
    (side : RouterSideId) (ty : DataType) (st : HopState) : result unit * HopState :=
  let known := match reliable_rx st !! reliable_key side ty with
               | Some s => bool_decide (is_Some (buffered s !! seq)) | None => false end in
  if known then (Ok tt, st)
  else
    match room with
    | Err e => (Err e, st)
    | Ok _ =>
        let s := reliable_rx_state st side ty in
        let kept := if reliable_max_pending tun <=? Z.of_nat (size (buffered s))
                    then match first_entry (buffered s) with
                         | Some (k, _) => delete k (buffered s) | None => buffered s end
                    else buffered s in
        (Ok tt, set_rx st (reliable_key side ty)
                  {| expected_seq := expected_seq s; buffered := <[seq := b]> kept;
                     control_mode := control_mode s; control_token := control_token s |})
    end.

(** The run of buffered frames from [next] on. *)
Fixpoint release_run (fuel : nat) (next : Z) (buf : gmap Z SharedBytes) (out : list SharedBytes)
    (last : Z) : Z * gmap Z SharedBytes * list SharedBytes * Z :=
  match fuel with
  | O => (next, buf, out, last)
  | S fuel =>
      match buf !! next with
      | None => (next, buf, out, last)
      | Some b => release_run fuel (seq_after next) (delete next buf) (out ++ [b]) next
      end
  end.

(** The in-sequence branch: the frame, the buffered run after it, and the last
    sequence number delivered. *)
Definition accept_in_sequence (seq : Z) (b : SharedBytes) (s : ReliableRxState)
    : ReliableRxState * list SharedBytes * Z :=
  let '(next, buf, out, last) :=
    release_run (size (buffered s)) (wrap32 (seq + 1)) (buffered s) [b] seq in
  ({| expected_seq := next; buffered := buf; control_mode := control_mode s;
      control_token := control_token s |}, out, last).

(** Control packets are emitted one after the other; the first refusal ends. *)
Fixpoint emit_all (emit : HopControl -> result unit) (l : list HopControl) (done : list HopControl)
    : result unit * list HopControl :=
  match l with
  | [] => (Ok tt, done)
  | c :: l => match emit c with
              | Ok _ => emit_all emit l (done ++ [c])
              | Err e => (Err e, done)
              end
  end.

(** The answer of the hop: [Ok None], the frame ends here; [Ok (Some later)], it
    goes on, and [later] follows it; with the control packets emitted. *)
Definition hop_answer : Type := result (option (list SharedBytes)) * list HopControl * HopState.

Definition answer (emit : HopControl -> result unit) (l : list HopControl)
    (out : option (list SharedBytes)) (st : HopState) : hop_answer :=
  let '(res, done) := emit_all emit l [] in
  (match res with Ok _ => Ok out | Err e => Err e end, done, st).

(** A sequenced frame of an ordered stream. *)
Definition receive_ordered (tun : ReliableTuning) (emit : HopControl -> result unit)
    (room : result unit) (side : RouterSideId) (ty : DataType) (seq : Z) (b : SharedBytes)
    (st : HopState) : hop_answer :=
  let s := reliable_rx_state st side ty in
  let st := set_rx st (reliable_key side ty) s in
  if seq <? expected_seq s then
    answer emit [HopAck (sat_sub (expected_seq s) 1)] None st
  else if expected_seq s <? seq then
    match buffer_reliable_rx tun room seq b side ty st with
    | (Err e, st) => (Err e, [], st)
    | (Ok _, st) => answer emit [HopPartialAck seq; HopRequest (expected_seq s)] None st
    end
  else
    let '(s', out, last) := accept_in_sequence seq b s in
    answer emit [HopAck last] (Some (tail out)) (set_rx st (reliable_key side ty) s').

(** The hop's share of [rx_item]: [header] is the reliable header of an intact
    frame of a reliable type, if any. *)
Definition receive_hop (reg : Registry) (tun : ReliableTuning) (emit : HopControl -> result unit)
    (room : result unit) (side : RouterSideId) (ty : DataType) (header : option ReliableHeader)
    (b : SharedBytes) (st : HopState) : hop_answer :=
  match header with
  | Some h =>
      if is_reliable_type reg ty then
        if has_flag (rh_flags h) RELIABLE_FLAG_ACK_ONLY
        then (Ok None, [], handle_reliable_ack reg side ty (rh_ack h) st)
        else if has_flag (rh_flags h) RELIABLE_FLAG_UNSEQUENCED then (Ok (Some []), [], st)
        else if has_flag (rh_flags h) RELIABLE_FLAG_UNORDERED
        then answer emit [HopAck (rh_seq h)] (Some []) st
        else receive_ordered tun emit room side ty (rh_seq h) b st
      else (Ok (Some []), [], st)
  | None => (Ok (Some []), [], st)
  end.

(** A frame whose checksum fails asks for a retransmission. *)
Definition receive_corrupt (reg : Registry) (emit : HopControl -> result unit)
    (side : RouterSideId) (ty : DataType) (header : option ReliableHeader) (st : HopState)
    : result unit * list HopControl * HopState :=
  match header with
  | Some h =>
      if is_reliable_type reg ty then
        if has_flag (rh_flags h) RELIABLE_FLAG_UNSEQUENCED then (Ok tt, [], st)
        else if has_flag (rh_flags h) RELIABLE_FLAG_UNORDERED
        then (emit_all emit [HopRequest (rh_seq h)] [], st)
        else
          let s := reliable_rx_state st side ty in
          (emit_all emit [HopRequest (Z.min (expected_seq s) (rh_seq h))] [],
           set_rx st (reliable_key side ty) s)
      else (Ok tt, [], st)
  | None => (Ok tt, [], st)
  end.

(** ** Samples *)

Definition hop_reg : Registry :=
  {| endpoints := []; next_endpoint_id := 200; next_type_id := 200;
     types := [(100, {| mm_name := "T"; mm_description := ""; element := Dynamic UInt8 CData;
                        mm_endpoints := [100]; reliable := Ordered; priority := 1;
                        e2e_encryption := PreferOff |})] |}.
Definition hop_tuning : ReliableTuning :=
  {| reliable_retransmit_ms := 200; reliable_max_retries := 2; reliable_max_pending := 4 |}.

Definition empty_hop : HopState := {| reliable_tx := ∅; reliable_rx := ∅ |}.

Definition frame_a : SharedBytes := {| owner := 1; shared := [10; 11] |}.
Definition frame_b : SharedBytes := {| owner := 2; shared := [20] |}.

Definition commit_or (st : HopState) (seq : Z) (b : SharedBytes) : HopState :=
  match commit_hop_offer hop_tuning 0 100 seq 7 b true 0 1000 st with Ok st => st | Err _ => st end.
Definition hop_sender1 : HopState := Eval vm_compute in commit_or empty_hop 1 frame_a.
Definition hop_sender2 : HopState := Eval vm_compute in commit_or hop_sender1 2 frame_b.
Definition hop_sender3 : HopState := Eval vm_compute in
  snd (complete_hop_offer hop_reg 0 100 1 frame_a (Ok tt) 50 false hop_sender2).
Definition hop_sender4 : HopState := Eval vm_compute in handle_reliable_ack hop_reg 0 100 2 hop_sender3.

Definition hop_frame (seq : Z) (b : SharedBytes) (st : HopState) : hop_answer :=
  receive_ordered hop_tuning (fun _ => Ok tt) (Ok tt) 3 100 seq b st.
Definition hop_receiver1 : HopState := Eval vm_compute in snd (hop_frame 2 frame_b empty_hop).
Definition hop_receiver2 : HopState := Eval vm_compute in snd (hop_frame 1 frame_a hop_receiver1).
