(* ===== verification/HopWindow.v ===== *)
(** * The retransmission window of a hop

    What the operations of [HopReliable] do to one stream: the window invariant
    [tx_ok], the preorder [keeps] every operation but a commit and an
    acknowledgement stays in, the exact effect of a cumulative acknowledgement,
    and the end of retransmission when the neighbour stays silent. *)

From stdpp Require Import sorting.
From S2P Require Import Prelude Schema MemoryAdmission WireReader OrdMap HopReliable.

Open Scope Z_scope.

(** ** The window of one stream *)

Record tx_ok (limit : Z) (s : ReliableTxState) : Prop := {
  tx_nodup : NoDup (sent_order s);
  tx_rows : forall q, q ∈ sent_order s <-> is_Some (sent s !! q);
  tx_seqs : forall q row, sent s !! q = Some row -> 1 <= q <= u32_max /\ is_u32 (retries row);
  tx_next : is_u32 (next_seq s);
  tx_failed : next_seq s = 0 -> sent s = ∅;
  tx_bound : zlen (sent_order s) <= limit;
}.

(** A row that is the same frame, not newly acknowledged. *)
Definition row_from (r r' : ReliableSent) : Prop :=
  sent_bytes r' = sent_bytes r /\ (first_offer r' = AckedActive -> first_offer r = AckedActive).

(** The stream failed, or went on with rows it already had; a row is given up
    only when it was acknowledged or the stream is not ordered. *)
Definition evolves (ordered : bool) (s s' : ReliableTxState) : Prop :=
  (next_seq s' = 0 /\ sent s' = ∅) \/
  (next_seq s' = next_seq s /\
   (forall q r', sent s' !! q = Some r' -> exists r, sent s !! q = Some r /\ row_from r r') /\
   (forall q r, sent s !! q = Some r -> sent s' !! q = None ->
      first_offer r = AckedActive \/ ordered = false)).

Definition keeps (ordered : bool) (s s' : ReliableTxState) : Prop :=
  (forall limit, tx_ok limit s -> tx_ok limit s') /\ evolves ordered s s'.

Lemma row_from_refl r : row_from r r.
Proof. by split. Qed.

#[export] Instance row_from_preorder : PreOrder row_from.
Proof. split; [by split|]. intros x y z [H1 H2] [H3 H4]. split; [congruence|auto]. Qed.

#[export] Instance keeps_preorder ordered : PreOrder (keeps ordered).
Proof.
  split.
  - intros s. split; [done|]. right. split; [done|]. split; [eauto using row_from_refl|congruence].
  - intros x y z [Hxy Exy] [Hyz Eyz]. split; [auto|].
    destruct Eyz as [?|(Nyz & Ryz & Dyz)]; [by left|].
    destruct Exy as [[Ny Ey]|(Nxy & Rxy & Dxy)].
    { left. split; [congruence|]. apply map_empty. intros q. destruct (sent z !! q) as [rz|] eqn:E; [|done].
      apply Ryz in E as (r & E & _). by rewrite Ey, lookup_empty in E. }
    right. split; [congruence|]. split.
    + intros q r' H. apply Ryz in H as (r & H & Hr). apply Rxy in H as (r0 & H & Hr0).
      exists r0. split; [done|]. by etrans.
    + intros q r Hx Hz. destruct (sent y !! q) as [r1|] eqn:Ey; [|by eapply Dxy].
      destruct (Dyz _ _ Ey Hz) as [Ha|Ha]; [|by right]. left.
      apply Rxy in Ey as (r0 & E0 & _ & Hr0). rewrite Hx in E0. injection E0 as <-. auto.
Qed.

Lemma new_tx_ok limit : 0 <= limit -> tx_ok limit new_tx.
Proof.
  intros H. constructor; cbn.
  - constructor.
  - intros q. rewrite lookup_empty. split; [intros E; by apply not_elem_of_nil in E|by intros [? ?]].
  - intros q row E. by rewrite lookup_empty in E.
  - solve_u.
  - done.
  - done.
Qed.

Lemma keeps_set_row ordered s q row row' :
  sent s !! q = Some row -> row_from row row' -> (is_u32 (retries row) -> is_u32 (retries row')) ->
  keeps ordered s (set_row q row' s).
Proof.
  intros E Hr Hn. split.
  - intros limit [H1 H2 H3 H4 H5 H6]. constructor; cbn; try done.
    + intros q'. rewrite H2. destruct (decide (q = q')) as [<-|Hne].
      * rewrite lookup_insert_eq, E. split; eauto.
      * by rewrite lookup_insert_ne.
    + intros q' r'. rewrite lookup_insert. case_decide as Hq; [|apply H3].
      intros [= <-]. subst q'. destruct (H3 _ _ E). auto.
    + intros Hz. rewrite (H5 Hz), lookup_empty in E. done.
  - right. split; [done|]. cbn. split.
    + intros q' r'. rewrite lookup_insert. case_decide as Hq; [|eauto using row_from_refl].
      intros [= <-]. subst q'. eauto.
    + intros q' r Hs. rewrite lookup_insert. case_decide; [done|congruence].
Qed.

Lemma drop_row_ok limit q s : tx_ok limit s -> tx_ok limit (drop_row q s).
Proof.
  intros [H1 H2 H3 H4 H5 H6]. constructor; cbn; try done.
  - by apply NoDup_filter.
  - intros q'. rewrite list_elem_of_filter, H2. destruct (decide (q' = q)) as [->|Hne].
    + rewrite lookup_delete_eq. split; [by intros [? _]|by intros [? ?]].
    + rewrite lookup_delete_ne by done. split; [by intros [_ ?]|done].
  - intros q' r'. rewrite lookup_delete. case_decide; [done|apply H3].
  - intros Hz. by rewrite (H5 Hz), delete_empty.
  - pose proof (length_filter (fun x => x <> q) (sent_order s)). unfold_u. lia.
Qed.

Lemma keeps_drop_row ordered s q row :
  sent s !! q = Some row -> first_offer row = AckedActive \/ ordered = false ->
  keeps ordered s (drop_row q s).
Proof.
  intros E Ha. split; [intros limit; apply drop_row_ok|].
  right. split; [done|]. cbn. split.
  - intros q' r'. rewrite lookup_delete. case_decide; [done|]. eauto using row_from_refl.
  - intros q' r Hs. rewrite lookup_delete. case_decide as Hq; [|congruence].
    subst q'. rewrite E in Hs. injection Hs as <-. done.
Qed.

Lemma keeps_fail ordered s : keeps ordered s (fail_stream s).
Proof.
  split; [|by left]. intros limit [H1 H2 H3 H4 H5 H6]. constructor; cbn.
  - constructor.
  - intros q. rewrite lookup_empty. split; [intros E; by apply not_elem_of_nil in E|by intros [? ?]].
  - intros q row E. by rewrite lookup_empty in E.
  - solve_u.
  - done.
  - unfold_u. cbn. lia.
Qed.

(** ** Every operation on rows stays in [keeps] *)

Ltac keep_row := eapply keeps_set_row; [eassumption|split; [done|cbn; try done; congruence]|cbn; try done; solve_u].

Lemma settle_offer_keeps ordered q row res now replay s :
  sent s !! q = Some row -> keeps ordered s (settle_offer ordered q row res now replay s).
Proof.
  intros E. unfold settle_offer. destruct res as [u|e].
  - destruct (first_offer row) eqn:Ef;
      try (eapply keeps_set_row; [exact E|split; [done|by cbn]|cbn; repeat case_match; solve_u]).
    eapply keeps_drop_row; [exact E|by left].
  - destruct (is_transient_tx_error e).
    + eapply keeps_set_row; [exact E| |by case_match]. case_match; [by split|]. split; [done|by cbn].
    + destruct ordered; [apply keeps_fail|]. eapply keeps_drop_row; [exact E|by right].
Qed.

Lemma row_timeout_keeps tun ordered now q s s' :
  row_timeout tun now q s = Rest s' -> keeps ordered s s'.
Proof.
  unfold row_timeout. destruct (sent s !! q) as [row|] eqn:E; [|by intros [= <-]].
  repeat case_match; try done; intros [= <-]; try done.
  eapply keeps_set_row; [exact E|by split|done].
Qed.

Lemma timeout_rows_keeps tun ordered now order : forall s again s' out f,
  timeout_rows tun ordered now order s again = (s', out, f) -> keeps ordered s s'.
Proof.
  induction order as [|q order IH]; intros s again s' out f; cbn [timeout_rows].
  { by intros [= <- <- <-]. }
  destruct (row_timeout tun now q s) as [s1| |] eqn:Et.
  - intros H%IH. etrans; [eapply row_timeout_keeps, Et|exact H].
  - apply IH.
  - destruct ordered; [intros [= <- <- <-]; apply keeps_fail|].
    intros H%IH. etrans; [|exact H]. unfold row_timeout in Et.
    destruct (sent s !! q) as [row|] eqn:E; [|done].
    eapply keeps_drop_row; [exact E|by right].
Qed.

Lemma timeout_stream_keeps reg tun now ty s s' out f :
  timeout_stream reg tun now ty s = (s', out, f) -> keeps (is_ordered reg ty) s s'.
Proof.
  unfold timeout_stream, data_type_try_from_u32.
  destruct (data_type_exists reg ty); [|by intros [= <- <- <-]]. apply timeout_rows_keeps.
Qed.

(** ** Commits and acknowledgements *)

Lemma seq_after_range seq : 0 <= seq -> 1 <= seq_after seq <= u32_max.
Proof.
  intros H. unfold seq_after, wrap32. pose proof (Z.mod_pos_bound (seq + 1) (2 ^ 32) ltac:(lia)).
  case_match; bool_to_prop; solve_u.
Qed.

Lemma seq_after_small seq : 0 <= seq < u32_max -> seq_after seq = seq + 1.
Proof.
  intros H. unfold seq_after, wrap32. rewrite Z.mod_small by solve_u.
  case_match; [bool_to_prop; lia|done].
Qed.

(** What a successful commit did. *)
Lemma commit_inv tun side ty seq origin b same used budget st st' :
  commit_hop_offer tun side ty seq origin b same used budget st = Ok st' ->
  let s := reliable_tx_state st side ty in
  next_seq s = seq /\ sent s !! seq = None /\
  Z.of_nat (size (sent s)) < reliable_max_pending tun /\
  sat_add used (sat_add (zlen (shared b)) (size_of_ReliableSent + 3 * size_of_usize)) <= budget /\
  st' = set_tx st (reliable_key side ty)
          {| next_seq := seq_after seq; sent_order := sent_order s ++ [seq];
             sent := <[seq := first_row origin b]> (sent s) |}.
Proof.
  unfold commit_hop_offer. destruct same; cbn [negb]; [|done].
  destruct (budget <? _) eqn:Eb; [done|].
  destruct (negb (next_seq _ =? seq) || _) eqn:Eq; [done|].
  destruct (reliable_max_pending tun <=? _) eqn:Ew; [done|]. intros [= <-].
  bool_to_prop. apply bool_decide_eq_false in H0. apply eq_None_not_Some in H0.
  repeat split; done.
Qed.

Lemma size_order limit s : tx_ok limit s -> Z.of_nat (size (sent s)) = zlen (sent_order s).
Proof.
  intros [H1 H2 _ _ _ _]. unfold zlen. f_equal.
  rewrite <- (size_dom (D := gset Z)).
  assert (dom (sent s) = list_to_set (sent_order s) :> gset Z) as ->.
  { apply set_eq. intros q. by rewrite elem_of_dom, elem_of_list_to_set, H2. }
  by apply size_list_to_set.
Qed.

Lemma commit_ok limit seq origin b s :
  tx_ok limit s -> next_seq s = seq -> sent s !! seq = None -> seq <> 0 ->
  Z.of_nat (size (sent s)) < limit ->
  tx_ok limit {| next_seq := seq_after seq; sent_order := sent_order s ++ [seq];
                 sent := <[seq := first_row origin b]> (sent s) |}.
Proof.
  intros Hok Hn Hs Hz Hl. pose proof (size_order _ _ Hok) as Hsz.
  destruct Hok as [H1 H2 H3 H4 H5 H6]. rewrite Hn in *.
  pose proof (seq_after_range seq ltac:(solve_u)). constructor; cbn.
  - apply NoDup_app. split; [done|]. split; [|apply NoDup_singleton].
    intros q Hq%H2 ->%list_elem_of_singleton. rewrite Hs in Hq. by destruct Hq.
  - intros q. rewrite elem_of_app, H2, list_elem_of_singleton. rewrite lookup_insert.
    case_decide as Hq; [subst q; naive_solver|]. split; [intros [?|?]; [done|congruence]|by left].
  - intros q row. rewrite lookup_insert. case_decide as Hq; [|apply H3].
    intros [= <-]. subst q. cbn. solve_u.
  - solve_u.
  - lia.
  - unfold zlen in *. rewrite length_app. cbn. lia.
Qed.

(** A cumulative acknowledgement gives up exactly an initial run of rows that were
    offered completely and are covered; the row it stops at is marked when its
    offer is in progress. *)
Lemma ack_prefix_spec ack order : forall rows order' rows',
  NoDup order -> (forall q, q ∈ order <-> is_Some (rows !! q)) ->
  ack_prefix ack order rows = (order', rows') ->
  exists gone, order = gone ++ order' /\
    Forall (fun q => q <= ack /\ exists r, rows !! q = Some r /\ first_offer r = Complete) gone /\
    (forall q, q ∈ gone -> rows' !! q = None) /\
    (forall q, q ∉ gone -> head order' <> Some q -> rows' !! q = rows !! q) /\
    match head order' with
    | None => True
    | Some q => exists r, rows !! q = Some r /\
        if ack <? q then rows' !! q = Some r
        else first_offer r <> Complete /\
             rows' !! q = Some (if active (first_offer r) then set_first_offer AckedActive r else r)
    end.
Proof.
  induction order as [|q order IH]; intros rows order' rows' Hnd Hdom; cbn [ack_prefix].
  { intros [= <- <-]. exists []. split_and!; try done. intros q Hq; by apply not_elem_of_nil in Hq. }
  apply NoDup_cons in Hnd as [Hq Hnd]. destruct (ack <? q) eqn:Ea.
  { intros [= <- <-]. destruct (proj1 (Hdom q) (list_elem_of_here _ _)) as [r Hr].
    exists []. split_and!; try done; [intros ? Hx; by apply not_elem_of_nil in Hx|]. cbn. rewrite Ea. eauto. }
  destruct (proj1 (Hdom q) (list_elem_of_here _ _)) as [r Hr]. rewrite Hr.
  destruct (pending (first_offer r)) eqn:Ep.
  { intros [= <- <-]. exists []. split_and!; try done.
    - intros ? Hx; by apply not_elem_of_nil in Hx.
    - intros q' _ Hne. cbn in Hne. case_match; [|done]. rewrite lookup_insert_ne; [done|congruence].
    - cbn. exists r. split; [done|]. rewrite Ea. split; [by destruct (first_offer r)|].
      destruct (active (first_offer r)); [by rewrite lookup_insert_eq|done]. }
  intros H. apply IH in H as (gone & -> & Hg & Hgone & Hrest & Hh); [|done|].
  2: { intros q'. destruct (decide (q' = q)) as [->|Hne].
       - rewrite lookup_delete_eq. split; [done|by intros [? ?]].
       - rewrite lookup_delete_ne by done. rewrite <- Hdom, elem_of_cons. naive_solver. }
  assert ((q ∉ gone) /\ head order' <> Some q) as [Hq1 Hq2].
  { rewrite elem_of_app in Hq. split; [naive_solver|]. intros Hh'. apply Hq. right.
    destruct order'; [done|]. injection Hh' as ->. apply list_elem_of_here. }
  assert (q <= ack) as Hle by (bool_to_prop; lia).
  exists (q :: gone). split; [done|]. split_and!.
  - constructor; [split; [done|]; exists r; split; [done|by destruct (first_offer r)]|].
    eapply Forall_impl; [exact Hg|]. intros x (Hx & r' & Hr' & Hc). split; [done|].
    exists r'. split; [|done]. rewrite lookup_delete in Hr'. by case_decide.
  - intros q' [->|Hin]%elem_of_cons; [|auto]. rewrite Hrest by done. apply lookup_delete_eq.
  - intros q' Hn Hh'. rewrite elem_of_cons in Hn.
    rewrite Hrest by (naive_solver). rewrite lookup_delete_ne; [done|naive_solver].
  - destruct (head order') as [q'|]; [|done]. destruct Hh as (r' & Hr' & Hh). exists r'.
    split; [|done]. rewrite lookup_delete in Hr'. by case_decide.
Qed.

(** ** A neighbour that stays silent *)

(** A marker served at once by a callback that accepts the frame. *)
Definition serve_replay (reg : Registry) (now : Z) (k : stream_key) (seq : Z) (b : SharedBytes)
    (st : HopState) : result unit * HopState :=
  replay_offer reg (fst k) (snd k) seq b (Ok tt) (fun st => (Ok tt, st)) now (Ok tt) st.

(** One round of maintenance: the timeouts, then the replays they ask for. *)
Definition silent_round (reg : Registry) (tun : ReliableTuning) (now : Z) (st : HopState)
    : result unit * HopState :=
  process_reliable_timeouts reg tun now (serve_replay reg now) st.

Definition silent_rounds (reg : Registry) (tun : ReliableTuning) (times : list Z) (st : HopState)
    : HopState :=
  foldl (fun st now => snd (silent_round reg tun now st)) st times.

Definition row_at (st : HopState) (k : stream_key) (q : Z) : option ReliableSent :=
  s ← reliable_tx st !! k; sent s !! q.
Definition next_at (st : HopState) (k : stream_key) : option Z := next_seq <$> reliable_tx st !! k.

(** Two states agree on a row and on the sequence number of its stream. *)
Definition same_row (k : stream_key) (q : Z) (st st' : HopState) : Prop :=
  row_at st' k q = row_at st k q /\ next_at st' k = next_at st k.

#[export] Instance same_row_preorder k q : PreOrder (same_row k q).
Proof. split; [by split|]. intros x y z [? ?] [? ?]. split; congruence. Qed.

Lemma same_row_set k q k' s s' st :
  reliable_tx st !! k' = Some s -> next_seq s' = next_seq s ->
  (k' = k -> sent s' !! q = sent s !! q) -> same_row k q st (set_tx st k' s').
Proof.
  intros E Hn Hs. unfold same_row, row_at, next_at. cbn. destruct (decide (k' = k)) as [->|Hne].
  - rewrite lookup_insert_eq, E. cbn. rewrite Hn. split; [auto|done].
  - by rewrite lookup_insert_ne.
Qed.

Lemma set_row_other q' row s q : q' <> q -> sent (set_row q' row s) !! q = sent s !! q.
Proof. intros H. cbn. by apply lookup_insert_ne. Qed.

Lemma drop_row_other q' s q : q' <> q -> sent (drop_row q' s) !! q = sent s !! q.
Proof. intros H. cbn. by apply lookup_delete_ne. Qed.

Lemma settle_ok_other ordered q' row now replay s q :
  q' <> q -> sent (settle_offer ordered q' row (Ok tt) now replay s) !! q = sent s !! q.
Proof. intros H. unfold settle_offer. case_match; by rewrite ?set_row_other, ?drop_row_other. Qed.

Lemma settle_ok_next ordered q' row now replay s :
  next_seq (settle_offer ordered q' row (Ok tt) now replay s) = next_seq s.
Proof. unfold settle_offer. by case_match. Qed.

(** A replay that is served touches no other row. *)
Lemma complete_frame reg side ty q' b now st k q res st' :
  (side, ty, q') <> (k, q) ->
  complete_hop_offer reg side ty q' b (Ok tt) now true st = (res, st') -> same_row k q st st'.
Proof.
  intros Hne. unfold complete_hop_offer, reliable_key.
  destruct (reliable_tx st !! (side, ty)) as [s|] eqn:E; [|by intros [= <- <-]].
  destruct (_ && _); [by intros [= <- <-]|].
  destruct (sent s !! q') as [row|] eqn:Er; [|by intros [= <- <-]].
  destruct (same_owner _ _); [|by intros [= <- <-]]. intros [<- <-]%pair_equal_spec.
  eapply same_row_set; [exact E|apply settle_ok_next|]. intros <-. apply settle_ok_other. congruence.
Qed.

Lemma claim_frame side ty q' b st k q res st' :
  (side, ty, q') <> (k, q) -> claim_replay side ty q' b st = (res, st') -> same_row k q st st'.
Proof.
  intros Hne. unfold claim_replay, reliable_key.
  destruct (reliable_tx st !! (side, ty)) as [s|] eqn:E; [|by intros [= <- <-]].
  destruct (next_seq s =? 0); [by intros [= <- <-]|].
  destruct (sent s !! q') as [row|] eqn:Er; [|by intros [= <- <-]].
  destruct (same_owner _ _); [|by intros [= <- <-]]. intros [= <- <-].
  eapply same_row_set; [exact E|done|]. intros <-. apply set_row_other. congruence.
Qed.

Lemma activate_frame side ty q' b st k q res st' :
  (side, ty, q') <> (k, q) -> activate_replay side ty q' b st = (res, st') -> same_row k q st st'.
Proof.
  intros Hne. unfold activate_replay, reliable_key.
  destruct (reliable_tx st !! (side, ty)) as [s|] eqn:E; [|by intros [= <- <-]].
  destruct (sent s !! q') as [row|] eqn:Er; [|by intros [= <- <-]].
  destruct (same_owner _ _); [|by intros [= <- <-]].
  destruct (pending _); intros [= <- <-]; [|done].
  eapply same_row_set; [exact E|done|]. intros <-. apply set_row_other. congruence.
Qed.

Lemma serve_frame reg now k' q' b st k q :
  (k', q') <> (k, q) -> same_row k q st (snd (serve_replay reg now k' q' b st)).
Proof.
  destruct k' as [side ty]. intros Hne. unfold serve_replay, replay_offer. cbn [fst snd].
  destruct (claim_replay side ty q' b st) as [[[] |e] st1] eqn:E1;
    pose proof (claim_frame _ _ _ _ _ _ _ _ _ Hne E1) as H1; [|done|done].
  destruct (activate_replay side ty q' b st1) as [[] st2] eqn:E2; [|done].
  pose proof (activate_frame _ _ _ _ _ _ _ _ _ Hne E2) as H2.
  destruct (complete_hop_offer reg side ty q' b (Ok tt) now true st2) as [r st3] eqn:E3.
  pose proof (complete_frame _ _ _ _ _ _ _ _ _ _ _ Hne E3) as H3. cbn. by repeat (etrans; [eassumption|]).
Qed.

Lemma mark_frame k' q' st k q res st' s :
  (k', q') <> (k, q) -> reliable_tx st !! k = Some s ->
  mark_retransmit (fst k') (snd k') q' st = (res, st') -> same_row k q st st'.
Proof.
  intros Hne Hk. unfold mark_retransmit, reliable_tx_state, reliable_key. rewrite <- surjective_pairing.
  assert (forall s0 s1, default new_tx (reliable_tx st !! k') = s0 -> next_seq s1 = next_seq s0 ->
            (k' = k -> sent s1 !! q = sent s0 !! q) -> same_row k q st (set_tx st k' s1)) as Hset.
  { intros s0 s1 H0 Hn Hs. destruct (decide (k' = k)) as [->|Hkk].
    - rewrite Hk in H0. cbn in H0. subst s0. eapply same_row_set; [exact Hk|done|done].
    - unfold same_row, row_at, next_at. cbn. by rewrite lookup_insert_ne. }
  assert (forall x, set_tx (set_tx st k' (default new_tx (reliable_tx st !! k'))) k' x = set_tx st k' x)
    as Hss by (intros x; unfold set_tx; cbn; by rewrite insert_insert_eq).
  destruct (next_seq _ =? 0); [intros [= <- <-]; by eapply Hset|].
  destruct (sent _ !! q') as [row|]; [|intros [= <- <-]; by eapply Hset].
  destruct (queued row); intros [= <- <-]; [by eapply Hset|]. rewrite Hss.
  eapply Hset; [done|done|]. intros <-. apply set_row_other. congruence.
Qed.

(** The row after a served replay. *)
Definition served (now : Z) (row : ReliableSent) : ReliableSent :=
  {| sent_bytes := sent_bytes row; offer_stamp := now; first_offer := Complete;
     retries := if pending (first_offer row) then retries row else Z.min u32_max (retries row + 1);
     queued := false; partial_acked := false |}.

Definition unacked (row : ReliableSent) : Prop :=
  queued row = false /\ (first_offer row = Complete \/ first_offer row = Pending).

Lemma same_owner_refl b : same_owner b b = true.
Proof. apply Z.eqb_refl. Qed.

(** The blocks of a replay on a row they find. *)
Section RowFound.
Context (side : Z) (ty : DataType) (q : Z) (st : HopState) (s : ReliableTxState) (row : ReliableSent).
Hypothesis stream_found : reliable_tx st !! (side, ty) = Some s.
Hypothesis stream_open : next_seq s <> 0.
Hypothesis row_found : sent s !! q = Some row.

Lemma next_open : (next_seq s =? 0) = false.
Proof. by apply Z.eqb_neq. Qed.

Lemma mark_run : queued row = false ->
  mark_retransmit side ty q st =
    (Ok (Some (sent_bytes row)), set_tx st (side, ty) (set_row q (set_partial false row) s)).
Proof.
  intros Hu. unfold mark_retransmit, reliable_tx_state, reliable_key. rewrite stream_found. cbn [default id].
  rewrite next_open, row_found, Hu. unfold set_tx. cbn. by rewrite insert_insert_eq.
Qed.

Lemma claim_run :
  claim_replay side ty q (sent_bytes row) st =
    (Ok true, set_tx st (side, ty) (set_row q (set_queued true row) s)).
Proof.
  unfold claim_replay, reliable_key. by rewrite stream_found, next_open, row_found, same_owner_refl.
Qed.

Lemma activate_run :
  activate_replay side ty q (sent_bytes row) st =
    (true, if pending (first_offer row)
           then set_tx st (side, ty) (set_row q (set_first_offer Active row) s) else st).
Proof. unfold activate_replay, reliable_key. by rewrite stream_found, row_found, same_owner_refl. Qed.

Lemma complete_run reg res now replay :
  complete_hop_offer reg side ty q (sent_bytes row) res now replay st =
    (Ok tt, set_tx st (side, ty) (settle_offer (is_ordered reg ty) q row res now replay s)).
Proof.
  unfold complete_hop_offer, reliable_key.
  by rewrite stream_found, next_open, andb_false_r, row_found, same_owner_refl.
Qed.
End RowFound.

Lemma set_row_twice q r r' s : set_row q r' (set_row q r s) = set_row q r' s.
Proof. unfold set_row. cbn. by rewrite insert_insert_eq. Qed.

Lemma set_tx_twice st k s s' : set_tx (set_tx st k s) k s' = set_tx st k s'.
Proof. unfold set_tx. cbn. by rewrite insert_insert_eq. Qed.

Lemma set_tx_lookup st k s : reliable_tx (set_tx st k s) !! k = Some s.
Proof. apply lookup_insert_eq. Qed.

Lemma set_row_lookup q r s : sent (set_row q r s) !! q = Some r.
Proof. apply lookup_insert_eq. Qed.

Lemma serve_row reg now k q st s row :
  reliable_tx st !! k = Some s -> next_seq s <> 0 -> sent s !! q = Some row -> unacked row ->
  let st' := snd (queue_reliable_retransmit (fst k) (snd k) q (serve_replay reg now k q) st) in
  row_at st' k q = Some (served now row) /\ next_at st' k = Some (next_seq s).
Proof.
  destruct k as [side ty]. intros Hk Hn Hq [Hu Ho]. unfold queue_reliable_retransmit. cbn [fst snd].
  rewrite (mark_run _ _ _ _ _ _ Hk Hn Hq Hu). unfold serve_replay, replay_offer. cbn [fst snd].
  set (r1 := set_partial false row). change (sent_bytes row) with (sent_bytes r1).
  rewrite (claim_run side ty q _ (set_row q r1 s) r1 (set_tx_lookup _ _ _) Hn (set_row_lookup _ _ _)).
  rewrite set_tx_twice, set_row_twice. set (r2 := set_queued true r1).
  change (sent_bytes r1) with (sent_bytes r2).
  rewrite (activate_run side ty q _ (set_row q r2 s) r2 (set_tx_lookup _ _ _) (set_row_lookup _ _ _)).
  rewrite set_tx_twice, set_row_twice. cbn [fst snd]. set (r3 := set_first_offer Active r2).
  change (pending (first_offer r2)) with (pending (first_offer row)).
  destruct (pending (first_offer row)) eqn:Ep.
  - change (sent_bytes r2) with (sent_bytes r3).
    rewrite (complete_run side ty q _ (set_row q r3 s) r3 (set_tx_lookup _ _ _) Hn (set_row_lookup _ _ _)).
    cbn [snd]. rewrite set_tx_twice. unfold settle_offer, row_at, next_at. cbn [first_offer set_first_offer r3].
    rewrite set_tx_lookup, set_row_twice. cbn -[set_row]. rewrite set_row_lookup.
    split; [|done]. unfold served. by rewrite Ep.
  - rewrite (complete_run side ty q _ (set_row q r2 s) r2 (set_tx_lookup _ _ _) Hn (set_row_lookup _ _ _)).
    cbn [snd]. rewrite set_tx_twice. unfold settle_offer, row_at, next_at.
    change (first_offer r2) with (first_offer row).
    destruct Ho as [Ho|Ho]; rewrite Ho in Ep |- *; [|done].
    rewrite set_tx_lookup, set_row_twice. cbn -[set_row]. rewrite set_row_lookup.
    split; [|done]. unfold served. by rewrite Ho.
Qed.

Lemma requeue_frame reg now k q : forall again first st s,
  (k, q) ∉ again -> reliable_tx st !! k = Some s ->
  same_row k q st (snd (requeue_all (serve_replay reg now) again first st)).
Proof.
  induction again as [|[k' q'] again IH]; intros first st s Hn Hk; cbn [requeue_all]; [done|].
  apply not_elem_of_cons in Hn as [Hne Hn].
  assert (same_row k q st (snd (queue_reliable_retransmit (fst k') (snd k') q'
                                  (serve_replay reg now k' q') st))) as Hs.
  { unfold queue_reliable_retransmit.
    destruct (mark_retransmit (fst k') (snd k') q' st) as [[[b|]|e] st1] eqn:Em;
      pose proof (mark_frame _ _ _ _ _ _ _ _ (not_eq_sym Hne) Hk Em) as H1; [|done|done].
    etrans; [exact H1|]. apply serve_frame. congruence. }
  destruct (queue_reliable_retransmit _ _ _ _ st) as [res st1]. cbn [snd] in Hs.
  destruct Hs as [Hs1 Hs2]. unfold next_at in Hs2. rewrite Hk in Hs2.
  destruct (reliable_tx st1 !! k) as [s1|] eqn:Hk1; [|done].
  etrans; [|eapply IH; [exact Hn|exact Hk1]]. split; [done|].
  unfold next_at. rewrite Hk, Hk1. done.
Qed.

Lemma requeue_app dispatch l1 : forall l2 first st,
  snd (requeue_all dispatch (l1 ++ l2) first st) =
  snd (requeue_all dispatch l2 (fst (requeue_all dispatch l1 first st))
         (snd (requeue_all dispatch l1 first st))).
Proof.
  induction l1 as [|[k q] l1 IH]; intros l2 first st; cbn [app requeue_all]; [done|].
  destruct (queue_reliable_retransmit _ _ _ _ st) as [res st1]. apply IH.
Qed.

(** One more attempt, or the end, for a row that is due. *)
Definition due (tun : ReliableTuning) (now : Z) (row : ReliableSent) : Prop :=
  pending (first_offer row) = true \/ reliable_retransmit_ms tun <= wrap64 (now - offer_stamp row).

Lemma row_timeout_other tun now q' s s1 q :
  q' <> q -> row_timeout tun now q' s = Rest s1 ->
  sent s1 !! q = sent s !! q /\ next_seq s1 = next_seq s.
Proof.
  unfold row_timeout. intros Hne. destruct (sent s !! q') as [row|]; [|by intros [= <-]].
  repeat case_match; try done; intros [= <-]; [done|done|]. split; [by apply set_row_other|done].
Qed.

Lemma row_timeout_due tun now q s row :
  sent s !! q = Some row -> unacked row -> due tun now row ->
  row_timeout tun now q s =
    if partial_acked row then Rest (set_row q (set_stamp now (set_partial false row)) s)
    else if reliable_max_retries tun <=? retries row then Expired else Requeue.
Proof.
  intros Hq [Hu _] Hd. unfold row_timeout. rewrite Hq, Hu.
  destruct (negb _ && _) eqn:E; [|done]. bool_to_prop. destruct Hd as [Hd|Hd]; [congruence|lia].
Qed.

(** The rows of an ordered stream in a round: it fails, or the row is let rest
    once, or it is sent again exactly once. *)
Lemma timeout_rows_row tun now order : forall s again s' out f q row,
  timeout_rows tun true now order s again = (s', out, f) ->
  NoDup order -> q ∉ again ->
  sent s !! q = Some row -> unacked row -> due tun now row ->
  (f = true /\ next_seq s' = 0 /\ out = []) \/
  (f = false /\ next_seq s' = next_seq s /\
   (((q ∉ order) /\ sent s' !! q = Some row /\ (q ∉ out)) \/
    (q ∈ order /\ partial_acked row = true /\ (q ∉ out) /\
     sent s' !! q = Some (set_stamp now (set_partial false row))) \/
    (q ∈ order /\ partial_acked row = false /\ retries row < reliable_max_retries tun /\
     sent s' !! q = Some row /\ exists o1 o2, out = o1 ++ q :: o2 /\ (q ∉ o1) /\ (q ∉ o2)))).
Proof.
  assert (forall order s again s' out f q r,
    timeout_rows tun true now order s again = (s', out, f) -> q ∉ order -> sent s !! q = Some r ->
    (f = true /\ next_seq s' = 0 /\ out = []) \/
    (f = false /\ next_seq s' = next_seq s /\ sent s' !! q = Some r /\
     exists o, out = again ++ o /\ q ∉ o)) as Hother.
  { clear. induction order as [|q' order IH]; intros s again s' out f q r H Hn Hq; cbn [timeout_rows] in H.
    { injection H as <- <- <-. right. split_and!; try done. exists []. rewrite app_nil_r.
      split; [done|apply not_elem_of_nil]. }
    apply not_elem_of_cons in Hn as [Hne Hn]. destruct (row_timeout tun now q' s) as [s1| |] eqn:Et.
    - destruct (row_timeout_other _ _ _ _ _ q (not_eq_sym Hne) Et) as [E1 E2].
      rewrite <- E2. rewrite <- E1 in Hq. by eapply IH.
    - destruct (IH _ _ _ _ _ _ _ H Hn Hq) as [?|(-> & -> & Hs & o & -> & Ho)]; [by left|].
      right. split_and!; try done. exists (q' :: o). rewrite <- app_assoc. split; [done|].
      by apply not_elem_of_cons.
    - injection H as <- <- <-. by left. }
  induction order as [|q' order IH]; intros s again s' out f q row H Hnd Ha Hq Hu Hd; cbn [timeout_rows] in H.
  { injection H as <- <- <-. right. split_and!; try done. left. split_and!; try done. apply not_elem_of_nil. }
  apply NoDup_cons in Hnd as [Hq' Hnd]. destruct (decide (q' = q)) as [->|Hne].
  - rewrite (row_timeout_due _ _ _ _ _ Hq Hu Hd) in H. destruct (partial_acked row) eqn:Ep.
    + eapply Hother in H as [?|(-> & -> & Hs & o & -> & Ho)];
        [by left| |exact Hq'|cbn; apply lookup_insert_eq].
      right. split_and!; try done. right. left. split_and!; try done; [apply list_elem_of_here|].
      rewrite elem_of_app. naive_solver.
    + destruct (reliable_max_retries tun <=? retries row) eqn:Em; [injection H as <- <- <-; by left|].
      bool_to_prop. eapply Hother in H as [?|(-> & -> & Hs & o & -> & Ho)]; [by left| |exact Hq'|exact Hq].
      right. split_and!; try done. right. right. split_and!; try done; [apply list_elem_of_here|].
      exists again, o. by rewrite <- app_assoc.
  - destruct (row_timeout tun now q' s) as [s1| |] eqn:Et.
    + destruct (row_timeout_other _ _ _ _ _ q Hne Et) as [E1 E2]. rewrite <- E1 in Hq.
      rewrite <- E2. pose proof (IH _ _ _ _ _ _ _ H Hnd Ha Hq Hu Hd) as Hi.
      destruct Hi as [?|(-> & -> & Hi)]; [by left|]. right. split_and!; try done.
      rewrite !elem_of_cons. naive_solver.
    + pose proof (IH _ _ _ _ _ q row H Hnd) as Hi. rewrite elem_of_app, list_elem_of_singleton in Hi.
      destruct Hi as [?|(-> & -> & Hi)]; try done; [naive_solver|by left|]. right. split_and!; try done.
      rewrite !elem_of_cons. naive_solver.
    + injection H as <- <- <-. by left.
Qed.

Lemma timeout_streams_other reg tun now k : forall l st again failed st' again' failed',
  k ∉ l.*1 -> timeout_streams reg tun now l st again failed = (st', again', failed') ->
  reliable_tx st' !! k = reliable_tx st !! k /\ (failed = true -> failed' = true) /\
  exists post, again' = again ++ post /\ forall q, (k, q) ∉ post.
Proof.
  induction l as [|[k' s] l IH]; intros st again failed st' again' failed' Hn; cbn [timeout_streams].
  { intros [= <- <- <-]. split_and!; try done. exists []. rewrite app_nil_r. split; [done|].
    intros q. apply not_elem_of_nil. }
  rewrite fmap_cons in Hn. apply not_elem_of_cons in Hn as [Hne Hn]. cbn [fst] in Hne.
  destruct (timeout_stream reg tun now (snd k') s) as [[s1 seqs] f]. intros H.
  apply IH in H as (E & Hf & post & -> & Hpost); [|done]. cbn in E.
  rewrite lookup_insert_ne in E by done. split; [done|]. split; [intros ->; by apply Hf|].
  eexists. rewrite <- app_assoc. split; [done|]. intros q. rewrite elem_of_app. intros [Hin|Hin].
  - apply list_elem_of_fmap in Hin as (x & [= -> _] & _). done.
  - by apply (Hpost q).
Qed.

Lemma timeout_streams_own reg tun now k s : forall l st again failed st' again' failed',
  NoDup l.*1 -> (k, s) ∈ l -> timeout_streams reg tun now l st again failed = (st', again', failed') ->
  exists s' out f pre post, timeout_stream reg tun now (snd k) s = (s', out, f) /\
    reliable_tx st' !! k = Some s' /\ again' = again ++ pre ++ map (fun q => (k, q)) out ++ post /\
    (forall q, (k, q) ∉ pre) /\ (forall q, (k, q) ∉ post) /\ (f = true -> failed' = true).
Proof.
  induction l as [|[k' s0] l IH]; intros st again failed st' again' failed' Hnd Hin; cbn [timeout_streams].
  { by apply not_elem_of_nil in Hin. }
  rewrite fmap_cons in Hnd. apply NoDup_cons in Hnd as [Hk' Hnd]. cbn [fst] in Hk'.
  destruct (timeout_stream reg tun now (snd k') s0) as [[s1 seqs] f] eqn:Et. intros H.
  apply elem_of_cons in Hin as [[= -> ->]|Hin].
  - apply (timeout_streams_other reg tun now k') in H as (E & Hf & post & -> & Hpost); [|done].
    rewrite set_tx_lookup in E. exists s1, seqs, f, [], post. rewrite <- app_assoc. split_and!; try done.
    + intros q. apply not_elem_of_nil.
    + intros ->. apply Hf. apply orb_true_r.
  - assert (k' <> k) as Hne.
    { intros ->. apply Hk'. apply list_elem_of_fmap. by exists (k, s). }
    eapply IH in H as (s' & out & f' & pre & post & E1 & E2 & -> & E3 & E4 & E5); [|done|done].
    exists s', out, f', (map (fun q => (k', q)) seqs ++ pre), post. split; [done|]. split; [done|].
    rewrite <- !app_assoc. split_and!; try done. intros q. rewrite elem_of_app. intros [Hq|Hq].
    + apply list_elem_of_fmap in Hq as (x & [= -> _] & _). done.
    + by apply (E3 q).
Qed.

#[export] Instance hop_key_le_total {A} : Total (@hop_key_le A).
Proof. intros x y. unfold hop_key_le. lia. Qed.

Lemma streams_nodup {A} (m : gmap stream_key A) : NoDup (streams m).*1.
Proof.
  unfold streams. rewrite (merge_sort_Permutation hop_key_le (map_to_list m)). apply NoDup_fst_map_to_list.
Qed.

Lemma streams_lookup {A} (m : gmap stream_key A) k a : (k, a) ∈ streams m <-> m !! k = Some a.
Proof.
  unfold streams. rewrite (merge_sort_Permutation hop_key_le (map_to_list m)). apply elem_of_map_to_list.
Qed.

(** Rounds a row may still see before its stream gives up. *)
Definition rounds_left (tun : ReliableTuning) (row : ReliableSent) : Z :=
  Z.max 0 (reliable_max_retries tun - retries row) + 1
  + (if partial_acked row then 1 else 0) + (if pending (first_offer row) then 1 else 0).

Definition stream_is_failed (st : HopState) (k : stream_key) : Prop :=
  exists s, reliable_tx st !! k = Some s /\ next_seq s = 0 /\ sent s = ∅ /\ sent_order s = [].

(** A request that is in the list once is served once. *)
Lemma requeue_once reg now k q l1 l2 st s row :
  (k, q) ∉ l1 -> (k, q) ∉ l2 ->
  reliable_tx st !! k = Some s -> next_seq s <> 0 -> sent s !! q = Some row -> unacked row ->
  let st' := snd (requeue_all (serve_replay reg now) (l1 ++ [(k, q)] ++ l2) None st) in
  row_at st' k q = Some (served now row) /\ next_at st' k = Some (next_seq s).
Proof.
  intros H1 H2 Hk Hn Hq Hu. cbn zeta. rewrite !requeue_app.
  destruct (requeue_frame reg now k q l1 None st s H1 Hk) as [E1 E2].
  set (f1 := fst _). clearbody f1. destruct (requeue_all _ l1 None st) as [o1 st1]. cbn [snd] in *.
  unfold row_at, next_at in E1, E2. rewrite Hk in E1, E2. cbn in E1, E2.
  destruct (reliable_tx st1 !! k) as [s1|] eqn:Ek1; [|done]. injection E2 as Hn1. cbn in E1. rewrite Hq in E1.
  destruct (serve_row reg now k q st1 s1 row Ek1 ltac:(congruence) E1 Hu) as [E3 E4].
  cbn [requeue_all]. destruct (queue_reliable_retransmit _ _ _ _ st1) as [res2 st2]. cbn [fst snd] in E3, E4 |- *.
  unfold next_at in E4. destruct (reliable_tx st2 !! k) as [s2|] eqn:Ek2; [|done].
  match goal with |- context [requeue_all _ l2 ?f st2] => set (f2 := f) end.
  destruct (requeue_frame reg now k q l2 f2 st2 s2 H2 Ek2) as [E5 E6].
  rewrite E5, E6. unfold next_at. rewrite Ek2, E4. split; [done|congruence].
Qed.

Lemma not_in_requests (k : stream_key) q out : (q ∉ out) -> (k, q) ∉ map (fun x : Z => (k, x)) out.
Proof. intros H Hin. apply list_elem_of_fmap in Hin as (y & [= <-] & Hy). done. Qed.

Lemma rest_rounds tun now row :
  partial_acked row = true ->
  1 <= rounds_left tun (set_stamp now (set_partial false row)) < rounds_left tun row.
Proof. intros Hp. unfold rounds_left. cbn. rewrite Hp. destruct (pending (first_offer row)); lia. Qed.

Lemma served_rounds tun now row :
  is_u32 (reliable_max_retries tun) -> partial_acked row = false ->
  retries row < reliable_max_retries tun ->
  1 <= rounds_left tun (served now row) < rounds_left tun row.
Proof.
  intros Hm Hp Hr. unfold rounds_left, served. cbn. rewrite Hp.
  destruct (pending (first_offer row)); solve_u.
Qed.

(** One silent round on a row that is due. *)
Lemma silent_round_row reg tun limit now k s q row st res st' :
  is_ordered reg (snd k) = true -> data_type_exists reg (snd k) = true ->
  is_u32 (reliable_max_retries tun) -> tx_ok limit s ->
  reliable_tx st !! k = Some s -> next_seq s <> 0 -> sent s !! q = Some row -> unacked row ->
  due tun now row -> silent_round reg tun now st = (res, st') ->
  (next_at st' k = Some 0 /\ res = Err (HandlerError "ordered hop delivery exhausted retries")) \/
  exists row', row_at st' k q = Some row' /\ next_at st' k = Some (next_seq s) /\
    unacked row' /\ offer_stamp row' = now /\ 1 <= rounds_left tun row' < rounds_left tun row.
Proof.
  intros Hord Hty Hmax Hok Hk Hn Hq Hu Hd. unfold silent_round, process_reliable_timeouts.
  destruct (timeout_streams reg tun now (streams (reliable_tx st)) st [] false)
    as [[st1 again] failed] eqn:Et.
  eapply (timeout_streams_own reg tun now k s) in Et
    as (s1 & out & f & pre & post & E1 & E2 & -> & Hpre & Hpost & Hf);
    [|apply streams_nodup|by apply streams_lookup].
  destruct (requeue_all _ _ _ st1) as [error st2] eqn:Er. intros [= <- <-].
  unfold timeout_stream, data_type_try_from_u32 in E1. rewrite Hty, Hord in E1.
  assert (q ∈ sent_order s) as Hqo by (apply (tx_rows _ _ Hok); by rewrite Hq).
  destruct (timeout_rows_row _ _ _ _ _ _ _ _ _ _ E1 (tx_nodup _ _ Hok) (not_elem_of_nil _) Hq Hu Hd)
    as [(-> & Hz & ->)|(-> & Hn1 & Hrow)].
  { left. cbn [map app] in Er. assert ((k, q) ∉ pre ++ post) as Hnone.
    { rewrite elem_of_app. intros [Hi|Hi]; [by apply (Hpre q)|by apply (Hpost q)]. }
    destruct (requeue_frame reg now k q _ None st1 s1 Hnone E2) as [_ H2]. rewrite Er in H2. cbn [snd] in H2.
    rewrite H2, Hf by done. unfold next_at. rewrite E2. cbn. by rewrite Hz. }
  right. cbn [app] in Er.
  destruct Hrow as [(Hno & _)|[(_ & Hp & Hno & Hs1)|(_ & Hp & Hr & Hs1 & o1 & o2 & -> & Ho1 & Ho2)]]; [done| |].
  - assert ((k, q) ∉ pre ++ map (fun q => (k, q)) out ++ post) as Hnone.
    { rewrite !elem_of_app. intros [Hi|[Hi|Hi]]; [by apply (Hpre q)|by apply (not_in_requests k q out)|by apply (Hpost q)]. }
    destruct (requeue_frame reg now k q _ None st1 s1 Hnone E2) as [H1 H2]. rewrite Er in H1, H2. cbn [snd] in H1, H2.
    exists (set_stamp now (set_partial false row)).
    rewrite H1, H2. unfold row_at, next_at. rewrite E2. cbn -[rounds_left]. rewrite Hs1, Hn1.
    split_and!; try done; by apply rest_rounds.
  - rewrite map_app in Er. cbn [map] in Er. rewrite <- app_assoc in Er. cbn [app] in Er.
    rewrite app_assoc in Er.
    destruct (requeue_once reg now k q (pre ++ map (fun q => (k, q)) o1) (map (fun q => (k, q)) o2 ++ post)
                st1 s1 row) as [H1 H2]; try done; [..|congruence|].
    { rewrite elem_of_app. intros [Hi|Hi]; [by apply (Hpre q)|by apply (not_in_requests k q o1)]. }
    { rewrite elem_of_app. intros [Hi|Hi]; [by apply (not_in_requests k q o2)|by apply (Hpost q)]. }
    cbn [app] in H1, H2. rewrite Er in H1, H2. cbn [snd] in H1, H2.
    exists (served now row). rewrite H1, H2. split_and!; try done; [congruence|split; [done|by left]|..];
      by apply served_rounds.
Qed.

(** ** Steps of the whole state *)

Definition stream_at (st : HopState) (k : stream_key) : ReliableTxState := default new_tx (reliable_tx st !! k).
Definition rx_at (st : HopState) (k : stream_key) : ReliableRxState := default new_rx (reliable_rx st !! k).

(** No commit, no acknowledgement, nothing received. *)
Definition quiet (reg : Registry) (st st' : HopState) : Prop :=
  (forall k, keeps (is_ordered reg (snd k)) (stream_at st k) (stream_at st' k)) /\
  (forall k, rx_at st' k = rx_at st k).

#[export] Instance quiet_preorder reg : PreOrder (quiet reg).
Proof.
  split.
  - intros x. split; [intros k; reflexivity|done].
  - intros x y z [H1 H2] [H3 H4]. split; [|congruence]. intros k. etrans; [apply H1|apply H3].
Qed.

Lemma quiet_set reg st k s' :
  keeps (is_ordered reg (snd k)) (stream_at st k) s' -> quiet reg st (set_tx st k s').
Proof.
  intros H. split; [|done]. intros k'. unfold stream_at at 2. cbn. destruct (decide (k = k')) as [<-|Hne].
  - by rewrite lookup_insert_eq.
  - by rewrite lookup_insert_ne.
Qed.

Lemma stream_at_some st k s : reliable_tx st !! k = Some s -> stream_at st k = s.
Proof. unfold stream_at. by intros ->. Qed.

Lemma quiet_row reg st k s q row row' :
  reliable_tx st !! k = Some s -> sent s !! q = Some row -> row_from row row' ->
  (is_u32 (retries row) -> is_u32 (retries row')) ->
  quiet reg st (set_tx st k (set_row q row' s)).
Proof. intros Hk Hq Hr Hn. apply quiet_set. rewrite (stream_at_some _ _ _ Hk). by eapply keeps_set_row. Qed.

Section QuietBlocks.
Context (reg : Registry) (side : Z) (ty : DataType) (q : Z).

Lemma complete_quiet b res now replay st r st' :
  complete_hop_offer reg side ty q b res now replay st = (r, st') -> quiet reg st st'.
Proof.
  unfold complete_hop_offer, reliable_key. destruct (reliable_tx st !! (side, ty)) as [s|] eqn:Hk; [|by intros [= <- <-]].
  destruct (_ && _); [by intros [= <- <-]|]. destruct (sent s !! q) as [row|] eqn:Hq; [|by intros [= <- <-]].
  destruct (same_owner _ _); [|by intros [= <- <-]]. intros [<- <-]%pair_equal_spec.
  apply quiet_set. rewrite (stream_at_some _ _ _ Hk). by apply settle_offer_keeps.
Qed.

Lemma partial_quiet st : quiet reg st (handle_reliable_partial_ack side ty q st).
Proof.
  unfold handle_reliable_partial_ack, reliable_key. destruct (reliable_tx st !! (side, ty)) as [s|] eqn:Hk; [|done].
  destruct (sent s !! q) as [row|] eqn:Hq; [|done]. destruct (pending _); [done|].
  by eapply quiet_row; [exact Hk|exact Hq| |].
Qed.

Lemma queued_quiet b st : quiet reg st (set_replay_queued side ty q b st).
Proof.
  unfold set_replay_queued, reliable_key. destruct (reliable_tx st !! (side, ty)) as [s|] eqn:Hk; [|done].
  destruct (sent s !! q) as [row|] eqn:Hq; [|done]. by eapply quiet_row; [exact Hk|exact Hq| |].
Qed.

Lemma push_quiet pushed st r st' : push_replay side ty q pushed st = (r, st') -> quiet reg st st'.
Proof.
  unfold push_replay, reliable_key. destruct (reliable_tx st !! (side, ty)) as [s|] eqn:Hk; [|by intros [= <- <-]].
  destruct (sent s !! q) as [row|] eqn:Hq; [|by intros [= <- <-]]. destruct (queued row); [by intros [= <- <-]|].
  destruct pushed; intros [= <- <-]; [|done]. by eapply quiet_row; [exact Hk|exact Hq| |].
Qed.

Lemma claim_quiet b st r st' : claim_replay side ty q b st = (r, st') -> quiet reg st st'.
Proof.
  unfold claim_replay, reliable_key. destruct (reliable_tx st !! (side, ty)) as [s|] eqn:Hk; [|by intros [= <- <-]].
  destruct (_ =? 0); [by intros [= <- <-]|]. destruct (sent s !! q) as [row|] eqn:Hq; [|by intros [= <- <-]].
  destruct (same_owner _ _); intros [= <- <-]; [|done]. by eapply quiet_row; [exact Hk|exact Hq| |].
Qed.

Lemma activate_quiet b st r st' : activate_replay side ty q b st = (r, st') -> quiet reg st st'.
Proof.
  unfold activate_replay, reliable_key. destruct (reliable_tx st !! (side, ty)) as [s|] eqn:Hk; [|by intros [= <- <-]].
  destruct (sent s !! q) as [row|] eqn:Hq; [|by intros [= <- <-]].
  destruct (same_owner _ _); [|by intros [= <- <-]]. destruct (pending _); intros [= <- <-]; [|done].
  by eapply quiet_row; [exact Hk|exact Hq| |].
Qed.

Lemma mark_quiet st r st' : mark_retransmit side ty q st = (r, st') -> quiet reg st st'.
Proof.
  unfold mark_retransmit, reliable_tx_state, reliable_key. fold (stream_at st (side, ty)).
  assert (quiet reg st (set_tx st (side, ty) (stream_at st (side, ty)))) as H0 by (by apply quiet_set).
  destruct (_ =? 0); [by intros [= <- <-]|]. destruct (sent _ !! q) as [row|] eqn:Hq; [|by intros [= <- <-]].
  destruct (queued row); intros [= <- <-]; [done|]. rewrite set_tx_twice.
  apply quiet_set. by eapply keeps_set_row; [exact Hq| |].
Qed.
End QuietBlocks.

Lemma timeout_streams_quiet reg tun now : forall l st again failed st' again' failed',
  (forall k s, (k, s) ∈ l -> stream_at st k = s) -> NoDup l.*1 ->
  timeout_streams reg tun now l st again failed = (st', again', failed') -> quiet reg st st'.
Proof.
  induction l as [|[k s] l IH]; intros st again failed st' again' failed' Hl Hnd; cbn [timeout_streams].
  { by intros [= <- <- <-]. }
  destruct (timeout_stream reg tun now (snd k) s) as [[s1 seqs] f] eqn:Et. rewrite fmap_cons in Hnd.
  apply NoDup_cons in Hnd as [Hk Hnd]. intros H. apply IH in H; [|..|done].
  - etrans; [|exact H]. apply quiet_set. rewrite (Hl k s (list_elem_of_here _ _)).
    by eapply timeout_stream_keeps.
  - intros k' s' Hin. rewrite <- (Hl k' s') by (by right). unfold stream_at. cbn.
    rewrite lookup_insert_ne; [done|]. intros <-. apply Hk. apply list_elem_of_fmap. by exists (k, s').
Qed.

Lemma timeouts_quiet reg tun now st st' again failed :
  timeout_streams reg tun now (streams (reliable_tx st)) st [] false = (st', again, failed) ->
  quiet reg st st'.
Proof.
  apply timeout_streams_quiet; [|apply streams_nodup]. intros k s H%streams_lookup. by apply stream_at_some.
Qed.

Lemma serve_quiet reg now k q b st : quiet reg st (snd (serve_replay reg now k q b st)).
Proof.
  unfold serve_replay, replay_offer.
  destruct (claim_replay _ _ q b st) as [[[]|e] st1] eqn:E1; apply (claim_quiet reg) in E1; [|done|done].
  destruct (activate_replay _ _ q b st1) as [[] st2] eqn:E2; apply (activate_quiet reg) in E2; [|done].
  destruct (complete_hop_offer _ _ _ _ _ _ _ _ st2) as [r st3] eqn:E3. apply complete_quiet in E3.
  cbn [snd]. by repeat (etrans; [eassumption|]).
Qed.

Lemma requeue_quiet reg now : forall again first st,
  quiet reg st (snd (requeue_all (serve_replay reg now) again first st)).
Proof.
  induction again as [|[k q] again IH]; intros first st; cbn [requeue_all]; [done|].
  unfold queue_reliable_retransmit.
  destruct (mark_retransmit _ _ q st) as [[[b|]|e] st1] eqn:Em; apply (mark_quiet reg) in Em;
    try (etrans; [exact Em|apply IH]).
  pose proof (serve_quiet reg now k q b st1) as Hs. destruct (serve_replay reg now k q b st1) as [res st2].
  etrans; [exact Em|]. etrans; [exact Hs|apply IH].
Qed.

Lemma silent_round_quiet reg tun now st : quiet reg st (snd (silent_round reg tun now st)).
Proof.
  unfold silent_round, process_reliable_timeouts.
  destruct (timeout_streams _ _ _ _ st [] false) as [[st1 again] failed] eqn:Et. apply timeouts_quiet in Et.
  pose proof (requeue_quiet reg now again None st1) as Hr.
  destruct (requeue_all _ again None st1) as [error st2]. etrans; [exact Et|exact Hr].
Qed.

(** ** Giving up *)

(** Rounds at least one retransmission interval apart. *)
Fixpoint spaced (tun : ReliableTuning) (prev : Z) (times : list Z) : Prop :=
  match times with
  | [] => True
  | t :: times => reliable_retransmit_ms tun <= wrap64 (t - prev) /\ spaced tun t times
  end.

(** The last round of [times] ended with the stream failed and reported. *)
Definition gives_up (reg : Registry) (tun : ReliableTuning) (k : stream_key) (times : list Z)
    (st : HopState) : Prop :=
  exists before t after, times = before ++ t :: after /\
    let st1 := silent_rounds reg tun before st in
    next_at (snd (silent_round reg tun t st1)) k = Some 0 /\
    fst (silent_round reg tun t st1) = Err (HandlerError "ordered hop delivery exhausted retries").

(** An ordered hop stream whose neighbour never answers does not
    retransmit for ever.  Take a frame of the stream that was offered, or refused
    for now, and is not waiting in the queue.  After as many rounds of maintenance
    as it has attempts left, each an interval after the one before and with every
    replay accepted by the side, one round has retired the whole stream and
    reported the failure to its caller. *)
Theorem silent_neighbour_gives_up reg tun limit k s q row t times st :
  is_ordered reg (snd k) = true -> data_type_exists reg (snd k) = true ->
  is_u32 (reliable_max_retries tun) -> tx_ok limit s ->
  reliable_tx st !! k = Some s -> next_seq s <> 0 -> sent s !! q = Some row -> unacked row ->
  due tun t row -> spaced tun t times -> rounds_left tun row <= zlen (t :: times) ->
  gives_up reg tun k (t :: times) st.
Proof.
  intros Hord Hty Hmax. revert s row t st.
  induction times as [|t' times IH]; intros s row t st Hok Hk Hn Hq Hu Hd Hsp Hlen;
    destruct (silent_round reg tun t st) as [res st'] eqn:Er;
    destruct (silent_round_row _ _ _ _ _ _ _ _ _ _ _ Hord Hty Hmax Hok Hk Hn Hq Hu Hd Er)
      as [[Hz Hres]|(row' & Hq' & Hn' & Hu' & Hst & Hlt)].
  - exists [], t, []. cbn. by rewrite Er.
  - unfold_u. cbn in Hlen. lia.
  - exists [], t, (t' :: times). cbn. by rewrite Er.
  - pose proof (silent_round_quiet reg tun t st) as [Hkeep _]. rewrite Er in Hkeep. cbn [snd] in Hkeep.
    unfold row_at, next_at in Hq', Hn'. destruct (reliable_tx st' !! k) as [s'|] eqn:Hk'; [|done].
    injection Hn' as Hn'. destruct (Hkeep k) as [Hok' _]. rewrite (stream_at_some _ _ _ Hk), (stream_at_some _ _ _ Hk') in Hok'.
    destruct Hsp as [Hsp1 Hsp].
    assert (due tun t' row') as Hd' by (right; by rewrite Hst).
    destruct (IH s' row' t' st' (Hok' _ Hok) Hk' ltac:(congruence) Hq' Hu' Hd' Hsp) as (before & t2 & after & -> & H1 & H2).
    { unfold_u. cbn in Hlen |- *. lia. }
    exists (t :: before), t2, after. split; [done|]. cbn. by rewrite Er.
Qed.

Definition sample_row : ReliableSent :=
  {| sent_bytes := frame_a; offer_stamp := 50; first_offer := Complete; retries := 0; queued := false;
     partial_acked := false |}.
Definition sample_stream : ReliableTxState := {| next_seq := 2; sent_order := [1]; sent := {[1 := sample_row]} |}.
Definition sample_hop : HopState :=
  {| reliable_tx := {[(0, 100) := sample_stream]}; reliable_rx := ∅ |}.

Lemma sample_stream_ok : tx_ok 4 sample_stream.
Proof.
  pose proof (commit_ok 4 1 7 frame_a new_tx (new_tx_ok 4 ltac:(lia)) eq_refl eq_refl ltac:(lia) ltac:(done)) as H.
  refine (proj1 (settle_offer_keeps true 1 (first_row 7 frame_a) (Ok tt) 50 false _ _) 4 H).
  vm_compute. reflexivity.
Qed.

Lemma silent_neighbour_gives_up_witness :
  gives_up hop_reg hop_tuning (0, 100) [300; 600; 900] sample_hop /\
  silent_rounds hop_reg hop_tuning [300; 600] sample_hop <> sample_hop.
Proof.
  split.
  - apply (silent_neighbour_gives_up hop_reg hop_tuning 4 (0, 100) sample_stream 1 sample_row 300 [600; 900]);
      try reflexivity; try done.
    + apply sample_stream_ok.
    + split; [done|by left].
    + right. vm_compute. done.
  - intros H. apply (f_equal (fun st => row_at st (0, 100) 1)) in H. vm_compute in H. done.
Defined.
