(* ===== verification/HopLink.v ===== *)
(** * A reliable hop: the steps of its ends and the link between them

    [hop_step] interleaves the locked blocks of [HopReliable] on one state, in any
    order and for any stream; [hop_ok] is kept by all of them.  [net_step] joins a
    sender and a receiver of one ordered stream by a link that loses, duplicates
    and reorders frames and control packets. *)

From stdpp Require Import relations sorting.
From S2P Require Import Prelude Schema MemoryAdmission WireReader OrdMap HopReliable HopWindow.

Open Scope Z_scope.

(** ** Steps of one end *)

Inductive hop_event : Type :=
| Internal
| Committed (k : stream_key) (b : SharedBytes)
| Acked (k : stream_key) (ack : Z)
| Received (k : stream_key) (seq : Z) (b : SharedBytes)
    (res : result (option (list SharedBytes))) (controls : list HopControl).

Section Steps.
Context (reg : Registry) (tun : ReliableTuning).

(** The blocks of [HopReliable] that run under the lock.  A commit carries a
    sequence number that [window_slot] gave, which is never zero. *)
Inductive hop_step : hop_event -> HopState -> HopState -> Prop :=
| step_commit side ty seq origin b same used budget st st' :
    seq <> 0 -> commit_hop_offer tun side ty seq origin b same used budget st = Ok st' ->
    hop_step (Committed (side, ty) b) st st'
| step_complete side ty seq b res now replay st r st' :
    complete_hop_offer reg side ty seq b res now replay st = (r, st') -> hop_step Internal st st'
| step_partial side ty seq st :
    hop_step Internal st (handle_reliable_partial_ack side ty seq st)
| step_mark side ty seq st r st' :
    mark_retransmit side ty seq st = (r, st') -> hop_step Internal st st'
| step_push side ty seq pushed st r st' :
    push_replay side ty seq pushed st = (r, st') -> hop_step Internal st st'
| step_queued side ty seq q st :
    hop_step Internal st (set_replay_queued side ty seq q st)
| step_claim side ty seq b st r st' :
    claim_replay side ty seq b st = (r, st') -> hop_step Internal st st'
| step_activate side ty seq b st r st' :
    activate_replay side ty seq b st = (r, st') -> hop_step Internal st st'
| step_timeouts now st st' again failed :
    timeout_streams reg tun now (streams (reliable_tx st)) st [] false = (st', again, failed) ->
    hop_step Internal st st'
| step_corrupt emit side ty header st r st' :
    receive_corrupt reg emit side ty header st = (r, st') -> hop_step Internal st st'
| step_ack side ty ack st :
    hop_step (Acked (side, ty) ack) st (handle_reliable_ack reg side ty ack st)
| step_receive emit room side ty seq b st res controls st' :
    is_u32 seq -> receive_ordered tun emit room side ty seq b st = (res, controls, st') ->
    hop_step (Received (side, ty) seq b res controls) st st'.

(** The receive window of one stream. *)
Record rx_ok (r : ReliableRxState) : Prop := {
  rx_expected : is_u32 (expected_seq r);
  rx_keys : forall q b, buffered r !! q = Some b -> is_u32 q;
  rx_bound : Z.of_nat (size (buffered r)) <= Z.max 1 (reliable_max_pending tun);
}.

Definition hop_ok (st : HopState) : Prop :=
  (forall k, tx_ok (reliable_max_pending tun) (stream_at st k)) /\ (forall k, rx_ok (rx_at st k)).

Lemma new_rx_ok : rx_ok new_rx.
Proof.
  constructor; cbn; [solve_u| |rewrite map_size_empty; lia].
  intros q b H. by rewrite lookup_empty in H.
Qed.

Lemma empty_hop_ok : 0 <= reliable_max_pending tun -> hop_ok empty_hop.
Proof. intros H. split; intros k; [by apply new_tx_ok|apply new_rx_ok]. Qed.

(** ** Acknowledgements *)

Lemma ack_ordered_ok limit ack s : tx_ok limit s -> tx_ok limit (ack_ordered ack s).
Proof.
  intros [H1 H2 H3 H4 H5 H6]. unfold ack_ordered.
  destruct (ack_prefix ack (sent_order s) (sent s)) as [order rows] eqn:E.
  destruct (ack_prefix_spec _ _ _ _ _ H1 H2 E) as (gone & Ho & Hg & Hgone & Hrest & Hhead).
  rewrite Ho in H1. apply NoDup_app in H1 as (_ & Hdisj & Hnd).
  assert (forall q, q ∈ order -> q ∉ gone) as Hng by (intros q Hq Hin; by apply (Hdisj q)).
  assert (forall q row, rows !! q = Some row ->
            exists r, sent s !! q = Some r /\ retries row = retries r) as Hback.
  { intros q row Hq. destruct (decide (q ∈ gone)) as [Hin|Hin]; [by rewrite Hgone in Hq|].
    destruct (decide (head order = Some q)) as [Hh|Hh].
    - rewrite Hh in Hhead. destruct Hhead as (r & Hr & Hcase). exists r. split; [done|].
      destruct (ack <? q); [congruence|]. destruct Hcase as [_ Hc]. rewrite Hq in Hc.
      injection Hc as ->. by case_match.
    - rewrite Hrest in Hq by done. eauto. }
  constructor; cbn; try done.
  - intros q. destruct (decide (q ∈ gone)) as [Hin|Hin].
    + rewrite (Hgone q Hin). split; [intros Hq; by apply Hng in Hq|by intros [? ?]].
    + transitivity (q ∈ sent_order s); [rewrite Ho, elem_of_app; naive_solver|]. rewrite H2.
      destruct (decide (head order = Some q)) as [Hh|Hh]; [|by rewrite Hrest].
      rewrite Hh in Hhead. destruct Hhead as (r & Hr & Hcase). rewrite Hr.
      destruct (ack <? q); [by rewrite Hcase|]. destruct Hcase as [_ ->]. by split.
  - intros q row Hq. destruct (Hback q row Hq) as (r & Hr & ->). by apply H3 in Hr.
  - intros Hz. apply map_empty. intros q. destruct (rows !! q) as [row|] eqn:Eq; [|done].
    destruct (Hback q row Eq) as (r & Hr & _). by rewrite (H5 Hz), lookup_empty in Hr.
  - rewrite Ho in H6. unfold zlen in *. rewrite length_app in H6. lia.
Qed.

Lemma ack_unordered_ok limit ack s : tx_ok limit s -> tx_ok limit (ack_unordered ack s).
Proof.
  unfold ack_unordered. destruct (sent s !! ack) as [row|] eqn:E; [|done].
  destruct (pending _); [|apply drop_row_ok]. destruct (active _); [|done].
  destruct 1 as [H1 H2 H3 H4 H5 H6]. constructor; cbn; try done.
  - intros q. rewrite H2, lookup_insert. case_decide as Hq; [subst q; rewrite E; split; eauto|done].
  - intros q r. rewrite lookup_insert. case_decide as Hq; [|apply H3]. intros [= <-]. subst q.
    by apply H3 in E.
  - intros Hz. by rewrite (H5 Hz), lookup_empty in E.
Qed.

(** What an acknowledgement may do to an ordered stream. *)
Lemma ack_ordered_evolves limit ack s :
  tx_ok limit s ->
  let s' := ack_ordered ack s in
  next_seq s' = next_seq s /\
  (forall q r', sent s' !! q = Some r' -> exists r, sent s !! q = Some r /\ sent_bytes r' = sent_bytes r /\
     (first_offer r' = AckedActive -> first_offer r = AckedActive \/ q <= ack)) /\
  (forall q r, sent s !! q = Some r -> sent s' !! q = None -> q <= ack).
Proof.
  intros [H1 H2 _ _ _ _]. cbn zeta. unfold ack_ordered.
  destruct (ack_prefix ack (sent_order s) (sent s)) as [order rows] eqn:E.
  destruct (ack_prefix_spec _ _ _ _ _ H1 H2 E) as (gone & Ho & Hg & Hgone & Hrest & Hhead). cbn.
  rewrite Forall_forall in Hg. split; [done|]. split.
  - intros q r' Hq. destruct (decide (q ∈ gone)) as [Hin|Hin]; [by rewrite Hgone in Hq|].
    destruct (decide (head order = Some q)) as [Hh|Hh]; [|rewrite Hrest in Hq by done; eauto].
    rewrite Hh in Hhead. destruct Hhead as (r & Hr & Hcase). exists r. split; [done|].
    destruct (ack <? q) eqn:Ea; [rewrite Hq in Hcase; injection Hcase as ->; auto|].
    bool_to_prop. destruct Hcase as [_ Hc]. rewrite Hq in Hc. injection Hc as ->. case_match; auto.
  - intros q r Hq Hn. destruct (decide (q ∈ gone)) as [Hin|Hin]; [by apply Hg in Hin as [? _]|].
    destruct (decide (head order = Some q)) as [Hh|Hh]; [|rewrite Hrest in Hn by done; congruence].
    rewrite Hh in Hhead. destruct Hhead as (r0 & _ & Hcase).
    destruct (ack <? q); [congruence|]. by destruct Hcase as [_ Hc]; rewrite Hn in Hc.
Qed.

Lemma ack_at side ty ack st k :
  stream_at (handle_reliable_ack reg side ty ack st) k =
    if decide (k = (side, ty)) then
      (if is_unordered reg ty then ack_unordered else ack_ordered) ack (stream_at st k)
    else stream_at st k.
Proof.
  unfold handle_reliable_ack, reliable_key, stream_at.
  destruct (reliable_tx st !! (side, ty)) as [s|] eqn:E.
  - cbn. case_decide as Hk; [subst k; rewrite lookup_insert_eq, E; cbn; by case_match|].
    by rewrite lookup_insert_ne.
  - case_decide as Hk; [|done]. subst k. rewrite E. cbn. by case_match.
Qed.

Lemma ack_rx side ty ack st k : rx_at (handle_reliable_ack reg side ty ack st) k = rx_at st k.
Proof. unfold handle_reliable_ack. by case_match. Qed.

(** ** Receiving *)

Lemma rx_set st k r : rx_at (set_rx st k r) k = r.
Proof. unfold rx_at. cbn. by rewrite lookup_insert_eq. Qed.

Lemma buffer_rx tun' room seq b side ty st r st' k :
  buffer_reliable_rx tun' room seq b side ty st = (r, st') ->
  reliable_tx st' = reliable_tx st /\
  (rx_at st' k = rx_at st k \/
   k = (side, ty) /\ exists kept, kept ⊆ buffered (rx_at st k) /\
     (Z.of_nat (size kept) <= Z.max 0 (reliable_max_pending tun' - 1) \/
      S (size kept) = size (buffered (rx_at st k))) /\
     expected_seq (rx_at st' k) = expected_seq (rx_at st k) /\
     buffered (rx_at st' k) = <[seq := b]> kept).
Proof.
  unfold buffer_reliable_rx, reliable_rx_state, reliable_key. fold (rx_at st (side, ty)).
  destruct (match reliable_rx st !! (side, ty) with Some s => _ | None => false end);
    [intros [= <- <-]; split; [done|by left]|].
  destruct room; [|intros [= <- <-]; split; [done|by left]]. intros [= <- <-]. split; [done|].
  destruct (decide (k = (side, ty))) as [->|Hne].
  2: { left. unfold rx_at. cbn. by rewrite lookup_insert_ne. }
  right. split; [done|]. rewrite rx_set. cbn [expected_seq buffered].
  destruct (reliable_max_pending tun' <=? _) eqn:Em; bool_to_prop.
  - destruct (first_entry _) as [[k0 b0]|] eqn:Ef.
    + apply first_entry_some in Ef as [Hk _]. apply delete_size in Hk.
      exists (delete k0 (buffered (rx_at st (side, ty)))). split; [apply delete_subseteq|]. auto.
    + apply first_entry_none in Ef. exists ∅. rewrite Ef. split; [done|].
      split; [left; rewrite map_size_empty; lia|done].
  - exists (buffered (rx_at st (side, ty))). split; [done|]. split; [left; lia|done].
Qed.

Lemma insert_size (m : gmap Z SharedBytes) k b :
  Z.of_nat (size (<[k := b]> m)) <= Z.of_nat (size m) + 1.
Proof. rewrite map_size_insert. case_match; unfold id; lia. Qed.

(** The run that is released: it stops at the first gap. *)
Lemma release_run_spec fuel : forall next buf out last next' buf' out' last',
  (size buf <= fuel)%nat -> release_run fuel next buf out last = (next', buf', out', last') ->
  buf' ⊆ buf /\ buf' !! next' = None /\ (0 <= next -> 0 <= next') /\
  (is_u32 next -> is_u32 next').
Proof.
  induction fuel as [|fuel IH]; intros next buf out last next' buf' out' last' Hf; cbn [release_run].
  { intros [= <- <- <- <-]. assert (buf = ∅) as -> by (apply map_size_empty_inv; lia).
    split_and!; try done. }
  destruct (buf !! next) as [b|] eqn:E; [|by intros [= <- <- <- <-]].
  pose proof (delete_size _ _ _ E) as Hs. intros H. apply IH in H as (H1 & H2 & H3 & H4); [|lia].
  split; [etrans; [exact H1|apply delete_subseteq]|]. split; [done|].
  split; intros Hn; [apply H3|apply H4]; pose proof (seq_after_range next); solve_u.
Qed.

Lemma answer_inv emit l out st res controls st' :
  answer emit l out st = (res, controls, st') ->
  st' = st /\ (res = Ok out \/ exists e, res = Err e) /\ (forall c, c ∈ controls -> c ∈ l).
Proof.
  unfold answer. assert (forall l done res controls, emit_all emit l done = (res, controls) ->
    forall c, c ∈ controls -> c ∈ done \/ c ∈ l) as Hemit.
  { clear. induction l as [|c l IH]; intros done res controls; cbn [emit_all].
    - intros [= <- <-]. auto.
    - destruct (emit c).
      + intros H x Hx. apply (IH _ _ _ H) in Hx. rewrite elem_of_app, list_elem_of_singleton in Hx.
        rewrite elem_of_cons. naive_solver.
      + intros [= <- <-]. auto. }
  destruct (emit_all emit l []) as [r d] eqn:E. intros [= <- <- <-]. split; [done|].
  split; [destruct r; eauto|]. intros c Hc. destruct (Hemit _ _ _ _ E c Hc) as [Hi|Hi]; [|done].
  by apply not_elem_of_nil in Hi.
Qed.

(** The three cases of a sequenced frame; nothing else of the state changes. *)
Inductive received (seq : Z) (b : SharedBytes) (r r' : ReliableRxState)
    (res : result (option (list SharedBytes))) (controls : list HopControl) : Prop :=
| received_old :
    seq < expected_seq r -> r' = r -> (forall later, res <> Ok (Some later)) ->
    (forall q, HopAck q ∈ controls -> q = sat_sub (expected_seq r) 1) ->
    received seq b r r' res controls
| received_ahead kept :
    expected_seq r < seq -> expected_seq r' = expected_seq r ->
    (r' = r \/ kept ⊆ buffered r /\ buffered r' = <[seq := b]> kept) ->
    (forall later, res <> Ok (Some later)) -> (forall q, HopAck q ∉ controls) ->
    received seq b r r' res controls
| received_next out last :
    seq = expected_seq r -> accept_in_sequence seq b r = (r', out, last) ->
    (res = Ok (Some (tail out)) \/ exists e, res = Err e) ->
    (forall q, HopAck q ∈ controls -> q = last) ->
    received seq b r r' res controls.

Lemma receive_cases tun' emit room side ty seq b st res controls st' :
  receive_ordered tun' emit room side ty seq b st = (res, controls, st') ->
  reliable_tx st' = reliable_tx st /\
  (forall k, k <> (side, ty) -> rx_at st' k = rx_at st k) /\
  received seq b (rx_at st (side, ty)) (rx_at st' (side, ty)) res controls.
Proof.
  unfold receive_ordered, reliable_rx_state, reliable_key. fold (rx_at st (side, ty)).
  set (r := rx_at st (side, ty)). set (st0 := set_rx st (side, ty) r).
  assert (forall k, rx_at st0 k = rx_at st k) as H0.
  { intros k. unfold st0, rx_at at 1. cbn. destruct (decide (k = (side, ty))) as [->|Hne].
    - by rewrite lookup_insert_eq.
    - by rewrite lookup_insert_ne. }
  destruct (seq <? expected_seq r) eqn:E1; bool_to_prop.
  { intros (-> & Hr & Hc)%answer_inv. split; [done|]. split; [by intros|].
    apply received_old; [done|by rewrite H0| |].
    - intros later ->. naive_solver.
    - intros q Hq%Hc%list_elem_of_singleton. congruence. }
  destruct (expected_seq r <? seq) eqn:E2; bool_to_prop.
  - destruct (buffer_reliable_rx tun' room seq b side ty st0) as [rb st1] eqn:Eb. intros Heq.
    assert (st' = st1 /\ (forall later, res <> Ok (Some later)) /\ (forall q, HopAck q ∉ controls))
      as (-> & Hres & Hc).
    { destruct rb.
      - apply answer_inv in Heq as (-> & Hr & Hc). split; [done|]. split; [naive_solver|].
        intros q Hq%Hc. rewrite !elem_of_cons in Hq. destruct Hq as [?|[?|Hq]]; [done|done|].
        by apply not_elem_of_nil in Hq.
      - injection Heq as <- <- <-. split_and!; try done. intros q. apply not_elem_of_nil. }
    split; [by destruct (buffer_rx _ _ _ _ _ _ _ _ _ (side, ty) Eb)|]. split.
    + intros k Hk. rewrite <- H0. destruct (buffer_rx _ _ _ _ _ _ _ _ _ k Eb) as [_ [?|[? _]]]; congruence.
    + destruct (buffer_rx _ _ _ _ _ _ _ _ _ (side, ty) Eb) as [_ [Hs|(_ & kept & Hk & _ & He & Hb)]]; rewrite H0 in *.
      * apply (received_ahead _ _ _ _ _ _ ∅); try done; [by rewrite Hs|by left].
      * apply (received_ahead _ _ _ _ _ _ kept); try done. by right.
  - destruct (accept_in_sequence seq b r) as [[r' out] last] eqn:Ea.
    intros (-> & Hr & Hc)%answer_inv. split; [done|]. split.
    + intros k Hk. unfold rx_at. cbn. rewrite !lookup_insert_ne by done. done.
    + eapply received_next; [lia| |done|].
      * rewrite Ea. unfold rx_at. cbn. by rewrite lookup_insert_eq.
      * intros q Hq%Hc%list_elem_of_singleton. congruence.
Qed.

Lemma receive_bound emit room side ty seq b st res controls st' :
  is_u32 seq -> receive_ordered tun emit room side ty seq b st = (res, controls, st') ->
  rx_ok (rx_at st (side, ty)) -> rx_ok (rx_at st' (side, ty)).
Proof.
  intros Hseq. unfold receive_ordered, reliable_rx_state, reliable_key. fold (rx_at st (side, ty)).
  set (r := rx_at st (side, ty)). set (st0 := set_rx st (side, ty) r).
  assert (rx_at st0 (side, ty) = r) as H0 by apply rx_set. intros Heq [H1 H2 H3]. revert Heq.
  destruct (seq <? expected_seq r); [intros (-> & _)%answer_inv; by rewrite H0|].
  destruct (expected_seq r <? seq).
  - destruct (buffer_reliable_rx tun room seq b side ty st0) as [rb st1] eqn:Eb. intros Heq.
    assert (st' = st1) as -> by (destruct rb; [by apply answer_inv in Heq as [-> _]|congruence]).
    destruct (buffer_rx _ _ _ _ _ _ _ _ _ (side, ty) Eb) as [_ [->|(_ & kept & Hk & Hsz & He & Hb)]];
      [by rewrite H0|]. rewrite H0 in *. constructor; rewrite ?He, ?Hb; [done| |].
    + intros q b'. rewrite lookup_insert. case_decide; [congruence|]. intros Hq.
      by eapply H2, lookup_weaken.
    + pose proof (insert_size kept seq b). destruct Hsz; lia.
  - unfold accept_in_sequence.
    destruct (release_run _ _ _ _ _) as [[[next buf] out] last] eqn:Er.
    intros (-> & _)%answer_inv. rewrite rx_set.
    apply release_run_spec in Er as (Hsub & _ & _ & Hn); [|done]. constructor; cbn.
    + apply Hn, wrap32_range.
    + intros q b' Hq. by eapply H2, lookup_weaken.
    + apply map_subseteq_size in Hsub. lia.
Qed.

(** ** The invariant of one end *)

(** What each event does to the streams. *)
Lemma step_cases ev st st' :
  hop_step ev st st' ->
  match ev with
  | Internal => quiet reg st st'
  | Committed k b => exists seq origin, seq <> 0 /\
      let s := stream_at st k in
      next_seq s = seq /\ sent s !! seq = None /\ Z.of_nat (size (sent s)) < reliable_max_pending tun /\
      st' = set_tx st k {| next_seq := seq_after seq; sent_order := sent_order s ++ [seq];
                           sent := <[seq := first_row origin b]> (sent s) |}
  | Acked k ack => st' = handle_reliable_ack reg (fst k) (snd k) ack st
  | Received k seq b res controls =>
      reliable_tx st' = reliable_tx st /\ (forall k', k' <> k -> rx_at st' k' = rx_at st k') /\
      is_u32 seq /\ received seq b (rx_at st k) (rx_at st' k) res controls /\
      (rx_ok (rx_at st k) -> rx_ok (rx_at st' k))
  end.
Proof.
  destruct 1 as [side ty seq origin b same used budget st st' Hz H| | | | | | | |
                 now st st' again failed H|emit side ty header st r st' H| |
                 emit room side ty seq b st res controls st' Hseq H].
  - apply commit_inv in H as (H1 & H2 & H3 & _ & ->).
    exists seq, origin. unfold stream_at, reliable_tx_state, reliable_key in *. auto.
  - by eapply complete_quiet.
  - apply partial_quiet.
  - by eapply mark_quiet.
  - by eapply push_quiet.
  - apply queued_quiet.
  - by eapply claim_quiet.
  - by eapply activate_quiet.
  - by eapply timeouts_quiet.
  - revert H. unfold receive_corrupt. destruct header as [h|]; [|by intros [= <- <-]].
    destruct (is_reliable_type reg ty); [|by intros [= <- <-]].
    repeat (destruct (has_flag _ _); [by intros [= <- <-]|]). intros [= <- <-].
    split; [by intros k|]. intros k. unfold rx_at at 1, reliable_rx_state, reliable_key. cbn.
    destruct (decide (k = (side, ty))) as [->|Hne]; [by rewrite lookup_insert_eq|by rewrite lookup_insert_ne].
  - done.
  - pose proof (receive_bound _ _ _ _ _ _ _ _ _ _ Hseq H). apply receive_cases in H as (? & ? & ?). auto.
Qed.

Lemma hop_step_ok ev st st' : hop_ok st -> hop_step ev st st' -> hop_ok st'.
Proof.
  intros [Htx Hrx] Hs%step_cases. destruct ev as [|k b|k ack|k seq b res controls].
  - destruct Hs as [Hk Hr]. split; intros k; [by apply Hk|by rewrite Hr].
  - destruct Hs as (seq & origin & Hz & Hn & Hfree & Hsize & ->). split; [|done].
    intros k'. unfold stream_at at 1. cbn. destruct (decide (k' = k)) as [->|Hne].
    + rewrite lookup_insert_eq. cbn. by apply commit_ok.
    + rewrite lookup_insert_ne by done. apply Htx.
  - subst st'. split; intros k'; [|by rewrite ack_rx]. destruct k as [side ty]. cbn [fst snd]. rewrite ack_at.
    case_decide; [|done]. case_match; [by apply ack_unordered_ok|by apply ack_ordered_ok].
  - destruct Hs as (Heq & Hother & _ & _ & Hok). split.
    + intros k'. unfold stream_at. rewrite Heq. apply Htx.
    + intros k'. destruct (decide (k' = k)) as [->|Hne]; [by apply Hok|]. by rewrite Hother.
Qed.
End Steps.

(** The state of the reliable hops stays well formed whatever
    the order in which commits, completions, acknowledgements, requests, replays,
    timeouts and received frames interleave: every window is duplicate free, its
    order lists exactly its rows, it holds no more than the configured number of
    frames, its sequence numbers are nonzero and 32 bits wide, a failed stream
    holds nothing; every receive buffer is bounded. *)
Theorem hop_invariant reg tun st :
  0 <= reliable_max_pending tun ->
  rtc (fun a b => exists ev, hop_step reg tun ev a b) empty_hop st ->
  hop_ok tun st.
Proof.
  intros Hmax Hr. assert (hop_ok tun empty_hop) as H0 by (by apply empty_hop_ok).
  revert H0. induction Hr as [|x y z (ev & Hs) _ IH]; [done|]. intros Hok. apply IH.
  by eapply hop_step_ok.
Qed.

Lemma hop_invariant_witness : hop_ok hop_tuning hop_sender3.
Proof.
  apply (hop_invariant hop_reg hop_tuning); [done|].
  eapply rtc_l. { exists (Committed (0, 100) frame_a).
    apply (step_commit _ _ 0 100 1 7 frame_a true 0 1000 _ hop_sender1); [done|vm_compute; reflexivity]. }
  eapply rtc_l. { exists (Committed (0, 100) frame_b).
    apply (step_commit _ _ 0 100 2 7 frame_b true 0 1000 _ hop_sender2); [done|vm_compute; reflexivity]. }
  eapply rtc_l. { exists Internal.
    apply (step_complete _ _ 0 100 1 frame_a (Ok tt) 50 false _ (Ok tt) hop_sender3). vm_compute. reflexivity. }
  apply rtc_refl.
Defined.
