(* ===== verification/HopNet.v ===== *)
(** * In-order delivery over a reliable hop

    The two ends of one ordered stream and everything that may be in flight between
    them.  The link forgets nothing and promises nothing: any frame accepted so far
    and any acknowledgement sent so far may arrive at any time, any number of times,
    in any order, or never. *)

From stdpp Require Import relations sorting.
From S2P Require Import Prelude Schema MemoryAdmission WireReader OrdMap HopReliable HopWindow HopLink.

Open Scope Z_scope.

(** [accepted] are the frames the sender committed, in the order of their sequence
    numbers; [passed] the frames the receiver's window has moved past, each with whether
    it was handed on; [acks] the acknowledgements it sent. *)
Record Net : Type := {
  na : HopState;
  nb : HopState;
  accepted : list bytes;
  passed : list (bytes * bool);
  acks : list Z;
}.

(** What the receiver handed on. *)
Definition handed_on (l : list (bytes * bool)) : list bytes := map fst (List.filter snd l).
Definition delivered (n : Net) : list bytes := handed_on (passed n).

Section Net.
Context (reg : Registry) (tun : ReliableTuning) (sa sb : RouterSideId) (ty : DataType).
Hypothesis ordered_type : reliable_mode reg ty = Ordered.

Definition touches_sender (ev : hop_event) : Prop :=
  match ev with Committed k _ => k = (sa, ty) | Acked k _ => k = (sa, ty) | _ => False end.
Definition touches_receiver (ev : hop_event) : Prop :=
  match ev with Received k _ _ _ _ => k = (sb, ty) | _ => False end.

(** The frames the window moves past with a frame.  They are handed on together, unless
    the router answers an error: the acknowledgement of a frame in sequence is queued
    after the window has moved, and when it cannot be the frame and the run behind it
    are dropped. *)
Definition passed_by (r : ReliableRxState) (seq : Z) (b : SharedBytes) (res : result (option (list SharedBytes))) : list (bytes * bool) :=
  match res with
  | Ok (Some later) => map (fun x => (shared x, true)) (b :: later)
  | Ok None => []
  | Err _ => if seq =? expected_seq r then map (fun x => (shared x, false)) (snd (fst (accept_in_sequence seq b r))) else []
  end.

(** The acknowledgements among the controls. *)
Definition acks_in (controls : list HopControl) : list Z :=
  omap (fun c => match c with HopAck q => Some q | _ => None end) controls.

(** A frame carries the sequence number it was committed under. *)
Inductive net_step : Net -> Net -> Prop :=
| net_commit n b a :
    hop_step reg tun (Committed (sa, ty) b) (na n) a ->
    net_step n {| na := a; nb := nb n; accepted := accepted n ++ [shared b];
                  passed := passed n; acks := acks n |}
| net_sender n ev a :
    ~ touches_sender ev -> hop_step reg tun ev (na n) a ->
    net_step n {| na := a; nb := nb n; accepted := accepted n; passed := passed n; acks := acks n |}
| net_receiver n ev b :
    ~ touches_receiver ev -> hop_step reg tun ev (nb n) b ->
    net_step n {| na := na n; nb := b; accepted := accepted n; passed := passed n; acks := acks n |}
| net_ack n ack a :
    ack ∈ acks n -> hop_step reg tun (Acked (sa, ty) ack) (na n) a ->
    net_step n {| na := a; nb := nb n; accepted := accepted n; passed := passed n; acks := acks n |}
| net_frame n seq b res controls s :
    1 <= seq -> accepted n !! Z.to_nat (seq - 1) = Some (shared b) ->
    hop_step reg tun (Received (sb, ty) seq b res controls) (nb n) s ->
    net_step n {| na := na n; nb := s; accepted := accepted n;
                  passed := passed n ++ passed_by (rx_at (nb n) (sb, ty)) seq b res; acks := acks n ++ acks_in controls |}.

(** Both ends before the stream is used; the rest of their state is arbitrary. *)
Definition net_start (n : Net) : Prop :=
  hop_ok tun (na n) /\ stream_at (na n) (sa, ty) = new_tx /\ rx_at (nb n) (sb, ty) = new_rx /\
  accepted n = [] /\ passed n = [] /\ acks n = [].

Record net_inv (n : Net) : Prop := {
  inv_ok : hop_ok tun (na n);
  inv_next : next_seq (stream_at (na n) (sa, ty)) = 0 \/
             next_seq (stream_at (na n) (sa, ty)) = zlen (accepted n) + 1;
  inv_rows : forall q row, sent (stream_at (na n) (sa, ty)) !! q = Some row ->
    1 <= q <= zlen (accepted n) /\ accepted n !! Z.to_nat (q - 1) = Some (shared (sent_bytes row)) /\
    (first_offer row = AckedActive -> q < expected_seq (rx_at (nb n) (sb, ty)));
  inv_owned : next_seq (stream_at (na n) (sa, ty)) <> 0 ->
    forall q, expected_seq (rx_at (nb n) (sb, ty)) <= q <= zlen (accepted n) ->
    is_Some (sent (stream_at (na n) (sa, ty)) !! q);
  inv_expected : 1 <= expected_seq (rx_at (nb n) (sb, ty)) <= zlen (accepted n) + 1;
  inv_passed : map fst (passed n) = take (Z.to_nat (expected_seq (rx_at (nb n) (sb, ty)) - 1)) (accepted n);
  inv_buffered : forall q b, buffered (rx_at (nb n) (sb, ty)) !! q = Some b ->
    1 <= q <= zlen (accepted n) /\ accepted n !! Z.to_nat (q - 1) = Some (shared b);
  inv_acks : forall q, q ∈ acks n -> q < expected_seq (rx_at (nb n) (sb, ty));
}.

Lemma start_inv n : net_start n -> net_inv n.
Proof.
  intros (Hok & Ha & Hb & H1 & H2 & H3). constructor; rewrite ?Ha, ?Hb, ?H1, ?H2, ?H3; cbn; try done.
  - by right.
  - intros _ q Hq. unfold_u. cbn in Hq. lia.
  - intros q Hq. by apply not_elem_of_nil in Hq.
Qed.

(** ** The sender's steps *)

(** A step that keeps the window, or only gives up acknowledged rows. *)
Lemma sender_inv n a :
  net_inv n -> hop_ok tun a -> evolves true (stream_at (na n) (sa, ty)) (stream_at a (sa, ty)) ->
  net_inv {| na := a; nb := nb n; accepted := accepted n; passed := passed n; acks := acks n |}.
Proof.
  intros [H1 H2 H3 H4 H5 H6 H7 H8] Hok He. constructor; cbn; try done.
  - destruct He as [[? _]|[-> _]]; auto.
  - destruct He as [[_ ->]|(_ & Hr & _)]; [intros q row Hq; by rewrite lookup_empty in Hq|].
    intros q row Hq. apply Hr in Hq as (r & Hq & Hb & Hf). apply H3 in Hq as (Hq1 & Hq2 & Hq3).
    rewrite Hb. auto.
  - destruct He as [[? _]|(-> & _ & Hd)]; [done|]. intros Hn q Hq. destruct (H4 Hn q Hq) as [r Hr].
    destruct (sent (stream_at a (sa, ty)) !! q) eqn:E; [eauto|]. destruct (Hd q r Hr E) as [Hf|]; [|done].
    destruct (H3 q r Hr) as (_ & _ & Hlt). specialize (Hlt Hf). lia.
Qed.

Lemma ordered_flags : is_ordered reg ty = true /\ is_unordered reg ty = false.
Proof. unfold is_ordered, is_unordered. by rewrite ordered_type. Qed.

Lemma other_event_evolves ev a a' :
  ~ touches_sender ev -> hop_step reg tun ev a a' ->
  evolves true (stream_at a (sa, ty)) (stream_at a' (sa, ty)).
Proof.
  intros Hev Hs%step_cases. destruct ev as [|k b|k ack|k seq b res controls]; cbn in Hev.
  - destruct Hs as [Hk _]. specialize (Hk (sa, ty)). cbn [snd] in Hk.
    rewrite (proj1 ordered_flags) in Hk. apply Hk.
  - destruct Hs as (seq & origin & _ & _ & _ & _ & ->). unfold stream_at at 2. cbn.
    rewrite lookup_insert_ne by done. apply (keeps_preorder true).
  - subst a'. destruct k as [side ty']. cbn [fst snd]. rewrite ack_at.
    rewrite decide_False by congruence. apply (keeps_preorder true).
  - destruct Hs as (Heq & _). unfold stream_at. rewrite Heq. apply (keeps_preorder true).
Qed.

Lemma ack_inv n ack :
  net_inv n -> ack ∈ acks n ->
  net_inv {| na := handle_reliable_ack reg sa ty ack (na n); nb := nb n; accepted := accepted n;
             passed := passed n; acks := acks n |}.
Proof.
  intros Hi Hack. pose proof (hop_step_ok reg tun _ _ _ (inv_ok _ Hi) (step_ack reg tun sa ty ack (na n))) as Hok.
  destruct Hi as [H1 H2 H3 H4 H5 H6 H7 H8]. pose proof (H8 _ Hack) as Hlt.
  pose proof (ack_at reg sa ty ack (na n) (sa, ty)) as Hat. rewrite decide_True in Hat by done.
  rewrite (proj2 ordered_flags) in Hat.
  destruct (ack_ordered_evolves _ ack _ (proj1 H1 (sa, ty))) as (En & Er & Ed).
  constructor; cbn [na nb accepted passed acks]; rewrite ?Hat, ?En; try done.
  - intros q row Hq. apply Er in Hq as (r & Hq & -> & Hf). apply H3 in Hq as (Hq1 & Hq2 & Hq3).
    split_and!; try done; try lia. intros Hr. destruct (Hf Hr); [auto|lia].
  - intros Hn q Hq. destruct (H4 Hn q Hq) as [r Hr].
    destruct (sent (ack_ordered ack _) !! q) eqn:E; [eauto|]. pose proof (Ed q r Hr E). lia.
Qed.

Lemma lookup_app_keep {A} (l : list A) x i y : l !! i = Some y -> (l ++ [x]) !! i = Some y.
Proof. apply lookup_app_l_Some. Qed.

Lemma commit_step_inv n b a :
  net_inv n -> zlen (accepted n ++ [shared b]) < u32_max ->
  hop_step reg tun (Committed (sa, ty) b) (na n) a ->
  net_inv {| na := a; nb := nb n; accepted := accepted n ++ [shared b];
             passed := passed n; acks := acks n |}.
Proof.
  intros Hi Hlen Hs. pose proof (hop_step_ok reg tun _ _ _ (inv_ok _ Hi) Hs) as Hok.
  apply step_cases in Hs as (seq & origin & Hz & Hn & Hfree & _ & ->).
  destruct Hi as [H1 H2 H3 H4 H5 H6 H7 H8]. rewrite Hn in *.
  assert (zlen (accepted n ++ [shared b]) = zlen (accepted n) + 1) as El
    by (unfold zlen; rewrite length_app; cbn; lia).
  destruct H2 as [?|Hseq]; [done|]. pose proof (Nat2Z.is_nonneg (length (accepted n))) as Hnn.
  assert (stream_at (set_tx (na n) (sa, ty) {| next_seq := seq_after seq;
            sent_order := sent_order (stream_at (na n) (sa, ty)) ++ [seq];
            sent := <[seq := first_row origin b]> (sent (stream_at (na n) (sa, ty))) |}) (sa, ty) =
          {| next_seq := seq_after seq;
            sent_order := sent_order (stream_at (na n) (sa, ty)) ++ [seq];
            sent := <[seq := first_row origin b]> (sent (stream_at (na n) (sa, ty))) |}) as Hat.
  { unfold stream_at at 1. cbn. by rewrite lookup_insert_eq. }
  constructor; cbn [na nb accepted passed acks]; rewrite ?Hat, ?El; cbn [next_seq sent]; try done.
  - right. rewrite seq_after_small; unfold zlen in *; solve_u.
  - intros q row. rewrite lookup_insert. case_decide as Hq.
    + intros [= <-]. subst q. cbn. split; [unfold zlen in *; lia|]. split; [|done].
      rewrite Hseq. unfold zlen. rewrite lookup_app_r by lia.
      by replace (Z.to_nat (Z.of_nat (length (accepted n)) + 1 - 1) - length (accepted n))%nat with O by lia.
    + intros Hr. apply H3 in Hr as (? & Hl & ?). split; [lia|]. split; [by apply lookup_app_keep|done].
  - intros _ q Hq. rewrite lookup_insert. case_decide; [eauto|]. apply H4; [done|lia].
  - lia.
  - rewrite take_app_le; [done|]. unfold zlen in *. lia.
  - intros q b' Hq. apply H7 in Hq as [? Hl]. split; [lia|]. by apply lookup_app_keep.
Qed.

(** ** The receiver's steps *)

Lemma other_event_rx ev b b' :
  ~ touches_receiver ev -> hop_step reg tun ev b b' -> rx_at b' (sb, ty) = rx_at b (sb, ty).
Proof.
  intros Hev Hs%step_cases. destruct ev as [|k x|k ack|k seq x res controls]; cbn in Hev.
  - by destruct Hs as [_ ->].
  - by destruct Hs as (seq & origin & _ & _ & _ & _ & ->).
  - subst b'. apply ack_rx.
  - destruct Hs as (_ & Ho & _). apply Ho. congruence.
Qed.

(** Below the largest sequence number, the run released is the frames numbered
    consecutively from [next] on. *)
Lemma release_exact limit : forall fuel next buf out last next' buf' out' last',
  (forall q b, buf !! q = Some b -> q <= limit) -> limit < u32_max ->
  next = last + 1 -> 0 <= last <= limit ->
  release_run fuel next buf out last = (next', buf', out', last') ->
  next' = last' + 1 /\ last <= last' <= limit /\
  exists l, out' = out ++ l /\ zlen l = last' - last /\
    forall i x, l !! i = Some x -> buf !! (next + Z.of_nat i) = Some x.
Proof.
  induction fuel as [|fuel IH]; intros next buf out last next' buf' out' last' Hb Hl -> Hlast; cbn [release_run].
  { intros [= <- <- <- <-]. split; [done|]. split; [lia|]. exists []. rewrite app_nil_r.
    split; [done|]. split; [unfold zlen; cbn; lia|done]. }
  destruct (buf !! (last + 1)) as [b|] eqn:E.
  2: { intros [= <- <- <- <-]. split; [done|]. split; [lia|]. exists []. rewrite app_nil_r.
       split; [done|]. split; [unfold zlen; cbn; lia|done]. }
  pose proof (Hb _ _ E) as Hle. rewrite seq_after_small by lia. intros H.
  apply IH in H as (-> & Hr & l & -> & Hlen & Hall); [|..]; try lia.
  - split; [done|]. split; [lia|]. exists (b :: l). rewrite <- app_assoc. split; [done|].
    split; [unfold zlen in *; cbn; lia|]. intros [|i] x Hx; cbn in Hx.
    + injection Hx as <-. by rewrite Z.add_0_r.
    + apply Hall in Hx. rewrite lookup_delete in Hx. case_decide; [done|].
      rewrite <- Hx. f_equal. lia.
  - intros q x Hq. rewrite lookup_delete in Hq. case_decide; [done|]. by eapply Hb.
Qed.

(** Appending the frames that follow keeps a prefix. *)
Lemma take_extend {A} (all : list A) n (l : list A) :
  (n <= length all)%nat -> (forall i x, l !! i = Some x -> all !! (n + i)%nat = Some x) ->
  take n all ++ l = take (n + length l) all.
Proof.
  intros Hn Hl. apply list_eq. intros i. destruct (decide (i < n)%nat) as [Hi|Hi].
  - rewrite lookup_app_l by (rewrite length_take; lia). rewrite !lookup_take; repeat case_decide; try done; lia.
  - rewrite lookup_app_r by (rewrite length_take; lia). rewrite length_take, Nat.min_l by done.
    rewrite lookup_take. case_decide as Hd.
    + destruct (l !! (i - n)%nat) as [x|] eqn:E.
      * apply Hl in E. by replace (n + (i - n))%nat with i in E by lia.
      * apply lookup_ge_None in E. lia.
    + apply lookup_ge_None. lia.
Qed.

Lemma accept_inv n b r' out last seq :
  net_inv n -> zlen (accepted n) < u32_max ->
  seq = expected_seq (rx_at (nb n) (sb, ty)) -> seq <= zlen (accepted n) ->
  accepted n !! Z.to_nat (seq - 1) = Some (shared b) ->
  accept_in_sequence seq b (rx_at (nb n) (sb, ty)) = (r', out, last) ->
  expected_seq r' = last + 1 /\ seq <= last <= zlen (accepted n) /\
  buffered r' ⊆ buffered (rx_at (nb n) (sb, ty)) /\
  out = b :: tail out /\
  map fst (passed n) ++ map shared out = take (Z.to_nat last) (accepted n).
Proof.
  intros [H1 H2 H3 H4 H5 H6 H7 H8] Hlen Hseq Hle Hb. unfold accept_in_sequence.
  destruct (release_run _ _ _ _ _) as [[[next buf] o] l0] eqn:Er. intros [= <- <- <-].
  pose proof Er as Er'. apply release_run_spec in Er' as (Hsub & _); [|done].
  rewrite (Z.mod_small (seq + 1)) in Er || (unfold wrap32 in Er; rewrite Z.mod_small in Er by solve_u).
  eapply (release_exact (zlen (accepted n))) in Er as (-> & Hl & l & -> & Hlz & Hall); try done; try lia.
  2: { intros q x Hq. apply H7 in Hq. lia. }
  cbn [expected_seq buffered]. split; [done|]. split; [lia|]. split; [done|]. split; [done|].
  rewrite H6, <- Hseq, take_extend.
  - f_equal. rewrite length_map, length_app. cbn. unfold zlen in *. lia.
  - unfold zlen in *. lia.
  - intros i x Hx. rewrite list_lookup_fmap in Hx. apply fmap_Some in Hx as (y & Hy & ->).
    destruct i as [|i]; cbn in Hy.
    + injection Hy as <-. by rewrite Nat.add_0_r.
    + apply Hall, H7 in Hy as [_ Hy]. rewrite <- Hy. f_equal. lia.
Qed.

Lemma acks_in_elem q controls : q ∈ acks_in controls -> HopAck q ∈ controls.
Proof.
  unfold acks_in. intros H. apply list_elem_of_omap in H as (c & Hc & E). destruct c; naive_solver.
Qed.

(** Receiving moves the window of the receiver forward only. *)
Lemma receiver_inv n s d extra :
  net_inv n ->
  let r := rx_at (nb n) (sb, ty) in let r' := rx_at s (sb, ty) in
  expected_seq r <= expected_seq r' <= zlen (accepted n) + 1 ->
  (forall q b, buffered r' !! q = Some b ->
     1 <= q <= zlen (accepted n) /\ accepted n !! Z.to_nat (q - 1) = Some (shared b)) ->
  map fst (passed n) ++ map fst d = take (Z.to_nat (expected_seq r' - 1)) (accepted n) ->
  (forall q, q ∈ extra -> q < expected_seq r') ->
  net_inv {| na := na n; nb := s; accepted := accepted n; passed := passed n ++ d;
             acks := acks n ++ extra |}.
Proof.
  intros [H1 H2 H3 H4 H5 H6 H7 H8] r r' He Hb Hd Hx. constructor; cbn; try done.
  - intros q row Hq. apply H3 in Hq as (? & ? & Hf). split_and!; try done; try lia. intros Ha.
    specialize (Hf Ha). fold r in Hf. fold r'. lia.
  - intros Hn q Hq. apply H4; [done|]. fold r. fold r' in Hq. lia.
  - fold r in H5. fold r'. lia.
  - by rewrite map_app.
  - intros q Hq. fold r'. apply elem_of_app in Hq as [Hq|Hq]; [|auto]. apply H8 in Hq. fold r in Hq. lia.
Qed.

Lemma frame_inv n seq b res controls s :
  net_inv n -> zlen (accepted n) < u32_max ->
  1 <= seq -> accepted n !! Z.to_nat (seq - 1) = Some (shared b) ->
  received seq b (rx_at (nb n) (sb, ty)) (rx_at s (sb, ty)) res controls ->
  net_inv {| na := na n; nb := s; accepted := accepted n;
             passed := passed n ++ passed_by (rx_at (nb n) (sb, ty)) seq b res; acks := acks n ++ acks_in controls |}.
Proof.
  intros Hi Hlen Hs1 Hl Hr. pose proof Hi as [H1 H2 H3 H4 H5 H6 H7 H8].
  assert (seq <= zlen (accepted n)) as Hs2.
  { apply lookup_lt_Some in Hl. unfold zlen. lia. }
  assert ((forall later, res <> Ok (Some later)) -> seq <> expected_seq (rx_at (nb n) (sb, ty)) ->
    passed_by (rx_at (nb n) (sb, ty)) seq b res = []) as Hnone.
  { unfold passed_by. intros H ?%Z.eqb_neq. repeat case_match; naive_solver. }
  destruct Hr as [Hold Heq Hn Ha|kept Hahead He Hb Hn Ha|out last Hseq Hacc Hok Ha].
  - apply receiver_inv; rewrite ?Heq; [done|lia|done| |].
    + rewrite Hnone by (done || lia). by rewrite app_nil_r.
    + intros q Hq%acks_in_elem%Ha. subst q. solve_u.
  - apply receiver_inv; rewrite ?He; [done|lia| | |].
    + intros q x. destruct Hb as [->|[Hk ->]]; [apply H7|]. rewrite lookup_insert. case_decide as Hq.
      * intros [= <-]. subst q. auto.
      * intros Hx. eapply H7, lookup_weaken; done.
    + rewrite Hnone by (done || lia). by rewrite app_nil_r.
    + intros q Hq%acks_in_elem. by apply Ha in Hq.
  - destruct (accept_inv _ _ _ _ _ _ Hi Hlen Hseq Hs2 Hl Hacc) as (E & Hlast & Hsub & Hout & Hd).
    apply receiver_inv; rewrite ?E; [done|lia| | |].
    + intros q x Hx. eapply H7, lookup_weaken; done.
    + assert (map fst (passed_by (rx_at (nb n) (sb, ty)) seq b res) = map shared out) as ->.
      { destruct Hok as [->|[e ->]]; cbn [passed_by]; [|rewrite (proj2 (Z.eqb_eq _ _) Hseq), Hacc]; rewrite map_map; [|done].
        by rewrite <- Hout. }
      rewrite Hd. f_equal. lia.
    + intros q Hq%acks_in_elem%Ha. lia.
Qed.

Lemma net_step_inv n n' : net_step n n' -> zlen (accepted n') < u32_max -> net_inv n -> net_inv n'.
Proof.
  destruct 1 as [n b a Hs|n ev a Hev Hs|n ev b Hev Hs|n ack a Hack Hs|n seq b res controls s Hs1 Hl Hs];
    cbn [accepted]; intros Hlen Hi.
  - by eapply commit_step_inv.
  - apply sender_inv; [done| |by eapply other_event_evolves]. eapply hop_step_ok; [apply Hi|exact Hs].
  - pose proof (other_event_rx _ _ _ Hev Hs) as Hr. destruct Hi. by constructor; cbn; rewrite ?Hr.
  - apply step_cases in Hs. cbn [fst snd] in Hs. subst a. by apply ack_inv.
  - apply step_cases in Hs as (_ & _ & _ & Hr & _). by eapply frame_inv.
Qed.

Lemma accepted_grows n n' : net_step n n' -> zlen (accepted n) <= zlen (accepted n').
Proof. destruct 1; cbn; unfold zlen; rewrite ?length_app; cbn; lia. Qed.

Lemma net_inv_reachable n n' :
  rtc net_step n n' -> zlen (accepted n') < u32_max -> net_inv n -> net_inv n'.
Proof.
  induction 1 as [|x y z Hs Hr IH]; [done|]. intros Hlen Hi. apply IH; [done|].
  eapply net_step_inv; [exact Hs| |done].
  assert (zlen (accepted y) <= zlen (accepted z)); [|lia].
  clear -Hr. induction Hr as [|a b c Hs _ IH]; [lia|]. apply accepted_grows in Hs. lia.
Qed.
End Net.

(** ** The theorem *)

Lemma handed_on_sublist l : sublist (handed_on l) (map fst l).
Proof. induction l as [|[x []] l IH]; cbn; [done|by constructor|by constructor]. Qed.

Lemma handed_on_all l : Forall (fun x => snd x = true) l -> handed_on l = map fst l.
Proof. induction 1 as [|[x b] l Hb _ IH]; [done|]. cbn in Hb. subst b. cbn. by f_equal. Qed.

(** C4: over a link that loses, duplicates and reorders, the receiver of an ordered hop
    stream moves past the frames the sender committed one after the other, in order and
    once, below 2^32 of them.  What it hands on are these frames without the ones that
    came in sequence while their acknowledgement could not be queued, with the runs
    released behind them: the receiver drops those for good, although it counts and
    acknowledges them from then on.  Where no such refusal occurred what was handed on is
    an initial part of what was committed.  And nothing is given up early: as long as the
    stream of the sender has not failed, every committed frame the receiver did not move
    past is still in the sender's window, with its bytes, under its number. *)
Theorem hop_exactly_once reg tun sa sb ty n n' :
  reliable_mode reg ty = Ordered -> net_start tun sa sb ty n -> rtc (net_step reg tun sa sb ty) n n' ->
  zlen (accepted n') < u32_max ->
  map fst (passed n') `prefix_of` accepted n' /\
  sublist (delivered n') (accepted n') /\
  (Forall (fun x => snd x = true) (passed n') -> delivered n' `prefix_of` accepted n') /\
  (next_seq (stream_at (na n') (sa, ty)) <> 0 ->
   forall i x, (length (passed n') <= i)%nat -> accepted n' !! i = Some x ->
   exists row, sent (stream_at (na n') (sa, ty)) !! (Z.of_nat i + 1) = Some row /\
               shared (sent_bytes row) = x).
Proof.
  intros Hord Hstart Hr Hlen.
  pose proof (net_inv_reachable _ _ _ _ _ Hord _ _ Hr Hlen (start_inv _ _ _ _ _ Hstart)) as [H1 H2 H3 H4 H5 H6 H7 H8].
  assert (map fst (passed n') `prefix_of` accepted n') as Hp by (rewrite H6; apply prefix_take).
  split; [done|]. split. { destruct Hp as [t Ht]. unfold delivered. rewrite Ht. apply sublist_inserts_r, handed_on_sublist. }
  split; [intros Hall; unfold delivered; by rewrite handed_on_all|]. intros Hn i x Hi Hx.
  pose proof (lookup_lt_Some _ _ _ Hx) as Hl.
  assert (Z.of_nat (length (passed n')) = expected_seq (rx_at (nb n') (sb, ty)) - 1) as Hd.
  { rewrite <- (length_map fst), H6, length_take. unfold zlen in *. lia. }
  destruct (H4 Hn (Z.of_nat i + 1)) as [row Hrow]; [unfold zlen; lia|].
  exists row. split; [done|]. apply H3 in Hrow as (_ & Hrow & _).
  replace (Z.to_nat (Z.of_nat i + 1 - 1)) with i in Hrow by lia. congruence.
Qed.

(** ** A run *)

Definition net_of (a b : HopState) (acc : list bytes) (went : list (bytes * bool)) (acks : list Z) : Net :=
  {| na := a; nb := b; accepted := acc; passed := went; acks := acks |}.

(** Two frames are committed, the second arrives first, the first follows; the
    cumulative acknowledgement finds the first frame offered and the second still
    in its callback. *)
Lemma sample_run :
  rtc (net_step hop_reg hop_tuning 0 3 100)
    (net_of empty_hop empty_hop [] [] [])
    (net_of hop_sender4 hop_receiver2 [[10; 11]; [20]] [([10; 11], true); ([20], true)] [2]).
Proof.
  eapply rtc_l. { apply (net_commit _ _ _ _ _ _ frame_a hop_sender1).
    apply (step_commit _ _ 0 100 1 7 frame_a true 0 1000); [done|vm_compute; reflexivity]. }
  eapply rtc_l. { apply (net_commit _ _ _ _ _ _ frame_b hop_sender2).
    apply (step_commit _ _ 0 100 2 7 frame_b true 0 1000); [done|vm_compute; reflexivity]. }
  eapply rtc_l. { apply (net_sender _ _ _ _ _ _ Internal hop_sender3); [by intros []|].
    apply (step_complete _ _ 0 100 1 frame_a (Ok tt) 50 false _ (Ok tt)). vm_compute. reflexivity. }
  eapply rtc_l. { apply (net_frame _ _ _ _ _ _ 2 frame_b (Ok None) [HopPartialAck 2; HopRequest 1] hop_receiver1);
    [done|done|]. apply (step_receive _ _ (fun _ => Ok tt) (Ok tt) 3 100); [split; done|vm_compute; reflexivity]. }
  eapply rtc_l. { apply (net_frame _ _ _ _ _ _ 1 frame_a (Ok (Some [frame_b])) [HopAck 2] hop_receiver2);
    [done|done|]. apply (step_receive _ _ (fun _ => Ok tt) (Ok tt) 3 100); [split; done|vm_compute; reflexivity]. }
  eapply rtc_l. { apply (net_ack _ _ _ _ _ _ 2 hop_sender4);
    [apply list_elem_of_In; vm_compute; auto|].
    replace hop_sender4 with (handle_reliable_ack hop_reg 0 100 2 hop_sender3) by (vm_compute; reflexivity).
    apply step_ack. }
  apply rtc_refl.
Qed.

Lemma hop_exactly_once_witness :
  [[10; 11]; [20]] `prefix_of` [[10; 11]; [20]] /\
  size (sent (stream_at hop_sender4 (0, 100))) = 1%nat.
Proof.
  split; [|vm_compute; reflexivity].
  refine (proj1 (hop_exactly_once hop_reg hop_tuning 0 3 100
    (net_of empty_hop empty_hop [] [] [])
    (net_of hop_sender4 hop_receiver2 [[10; 11]; [20]] [([10; 11], true); ([20], true)] [2]) _ _ sample_run _)).
  - reflexivity.
  - split; [by apply empty_hop_ok|]. done.
  - vm_compute. reflexivity.
Defined.
