(* ===== verification/HopControl.v ===== *)
(** * Control packets of a reliable hop, and the edges of its numbering

    The acknowledgement, partial acknowledgement and request as packets, what the
    neighbour reads from them, and two boundary behaviours of the receiver: an
    acknowledgement that cannot be queued, and the end of the 32-bit numbers. *)

From S2P Require Import Prelude Schema Packet SchemaRegistry MemoryAdmission WireReader OrdMap HopReliable HopWindow HopLink.

Open Scope Z_scope.

(** ** Packets *)

Definition control_type (c : HopControl) : DataType :=
  match c with
  | HopAck _ => ty_ReliableAck
  | HopPartialAck _ => ty_ReliablePartialAck
  | HopRequest _ => ty_ReliablePacketRequest
  end.

Definition control_seq (c : HopControl) : Z :=
  match c with HopAck q => q | HopPartialAck q => q | HopRequest q => q end.

(** The payload of [reliable_control_packet]: type and sequence number. *)
Definition reliable_control_payload (ty : DataType) (seq : Z) : bytes := le_bytes 4 ty ++ le_bytes 4 seq.

(** [queue_reliable_ack], [queue_reliable_partial_ack] and
    [queue_reliable_packet_request] build their packet this way; the nonce comes
    from the process-wide counter. *)
Definition reliable_control_packet (reg : Registry) (tun : Tuning) (counter : Z) (sender : bytes)
    (now : Z) (ty : DataType) (c : HopControl) : result Packet * Z :=
  packet_new reg tun counter (control_type c) (mm_endpoints (message_meta reg (control_type c)))
    sender now (reliable_control_payload ty (control_seq c)).

Definition data_as_u32 (reg : Registry) (tun : Tuning) (p : Packet) : result (list Z) :=
  as_le_bytes reg tun p UInt32 4.

(** The hop's half of [handle_internal_reliable_packet], for a packet that is not
    an end-to-end receipt: [Ok None] when it is not a control packet. *)
Definition read_hop_control (reg : Registry) (tun : Tuning) (p : Packet)
    : result (option (DataType * HopControl)) :=
  if negb (one_of (Packet.ty p) [ty_ReliableAck; ty_ReliablePartialAck; ty_ReliablePacketRequest])
  then Ok None
  else
    vals ← data_as_u32 reg tun p;
    match vals with
    | [t; seq] =>
        ty ← ok_or (data_type_try_from_u32 reg t) InvalidType;
        Ok (Some (ty, if Packet.ty p =? ty_ReliableAck then HopAck seq
                      else if Packet.ty p =? ty_ReliablePartialAck then HopPartialAck seq
                      else HopRequest seq))
    | _ => Err (Unpack "bad reliable control payload")
    end.

Definition handle_hop_control (reg : Registry) (side : RouterSideId)
    (dispatch : stream_key -> Z -> SharedBytes -> HopState -> result unit * HopState)
    (tc : DataType * HopControl) (st : HopState) : result unit * HopState :=
  let '(ty, c) := tc in
  match c with
  | HopAck seq => (Ok tt, handle_reliable_ack reg side ty seq st)
  | HopPartialAck seq => (Ok tt, handle_reliable_partial_ack side ty seq st)
  | HopRequest seq => queue_reliable_retransmit side ty seq (dispatch (reliable_key side ty) seq) st
  end.

(** ** Round trip *)

Lemma control_words ty seq :
  reliable_control_payload ty seq = concat (map (le_bytes 4) [ty; seq]).
Proof. unfold reliable_control_payload. cbn [map concat]. by rewrite app_nil_r. Qed.

(** A control packet about a registered type is always
    built, and the neighbour reads from it the kind, the type and the sequence
    number that went in. *)
Theorem hop_control_roundtrip reg tun counter snd now ty c :
  element (message_meta reg (control_type c)) = Static 2 UInt32 CData ->
  mm_endpoints (message_meta reg (control_type c)) <> [] ->
  data_type_exists reg ty = true -> is_u32 ty -> is_u32 (control_seq c) ->
  exists p counter', reliable_control_packet reg tun counter snd now ty c = (Ok p, counter') /\
    read_hop_control reg tun p = Ok (Some (ty, c)).
Proof.
  intros He Heps Hex Hty Hseq. unfold reliable_control_packet, packet_new, new_with_nonce, new_with_owned_wire_contract.
  destruct (next_packet_nonce counter) as [nn cn].
  destruct (mm_endpoints (message_meta reg (control_type c))) as [|e0 eps] eqn:Eeps; [done|].
  unfold effective_element_of. rewrite He. cbn [validate_payload_against_element data_type_size].
  assert (zlen (reliable_control_payload ty (control_seq c)) = 8) as -> by reflexivity.
  cbn [negb mbind result_bind]. eexists _, _. split; [reflexivity|].
  unfold read_hop_control. cbn [Packet.ty].
  assert (one_of (control_type c) [ty_ReliableAck; ty_ReliablePartialAck; ty_ReliablePacketRequest] = true)
    as -> by (by destruct c).
  cbn [negb]. unfold data_as_u32, as_le_bytes, ensure_kind, effective_element, effective_element_of.
  cbn [Packet.ty wire_shape payload]. rewrite He. cbn [data_type]. rewrite decide_True by done.
  cbn [mbind result_bind]. rewrite control_words, length_concat_le, Nat.Div0.mod_mul, Nat.div_mul by lia.
  cbn [Nat.eqb negb]. rewrite chunks_le_concat.
  - rewrite !result_bind_run. unfold data_type_try_from_u32. rewrite Hex. by destruct c.
  - change (256 ^ Z.of_nat 4) with (2 ^ 32). repeat constructor; solve_u.
Qed.

Definition control_reg : Registry :=
  {| endpoints := []; next_endpoint_id := 200; next_type_id := 200;
     types := (ty_ReliableAck, {| mm_name := "A"; mm_description := ""; element := Static 2 UInt32 CData;
                 mm_endpoints := [0]; reliable := RNone; priority := 250; e2e_encryption := PreferOff |})
              :: types hop_reg |}.

Definition control_tuning : Tuning :=
  {| payload_compress_threshold := 16; static_string_length := 32; static_hex_length := 32 |}.

Lemma hop_control_roundtrip_witness :
  exists p counter', reliable_control_packet control_reg control_tuning 1 (str "A") 5 100 (HopAck 7) = (Ok p, counter') /\
    read_hop_control control_reg control_tuning p = Ok (Some (100, HopAck 7)).
Proof.
  apply (hop_control_roundtrip control_reg control_tuning 1 (str "A") 5 100 (HopAck 7)); try reflexivity; done.
Defined.

(** ** The edges *)

(** The number after the last one is 1 for the sender and 0 for the receiver,
    which skips zero only inside a released run: once it has delivered the last
    number it asks for 0, which no frame carries, and hands on nothing more. *)
Lemma receiver_stalls_at_wrap reg tun ev st st' k :
  hop_step reg tun ev st st' -> expected_seq (rx_at st k) = 0 ->
  (forall seq b res controls, ev = Received k seq b res controls ->
     1 <= seq -> expected_seq (rx_at st' k) = 0 /\ forall later, res <> Ok (Some later)) /\
  ((forall seq b res controls, ev <> Received k seq b res controls) ->
     rx_at st' k = rx_at st k).
Proof.
  intros Hs%step_cases Hz. split.
  - intros seq b res controls -> Hseq. destruct Hs as (_ & _ & _ & Hr & _).
    destruct Hr as [Hold _ _ _|kept Hahead He _ Hn _|out last Hx _ _ _]; [lia| |lia].
    split; [congruence|done].
  - intros Hne. destruct ev as [|k' b|k' ack|k' seq b res controls].
    + apply Hs.
    + by destruct Hs as (seq & origin & _ & _ & _ & _ & ->).
    + subst st'. apply ack_rx.
    + destruct Hs as (_ & Ho & _). apply Ho. intros ->. by eapply Hne.
Qed.

(** The largest sequence number ends an ordered stream.  The frame
    that carries it is delivered and leaves the receiver expecting 0, while the
    sender goes on with 1. *)
Theorem sequence_wrap tun emit room side ty b st :
  expected_seq (rx_at st (side, ty)) = u32_max ->
  buffered (rx_at st (side, ty)) = ∅ -> (forall c, emit c = Ok tt) ->
  let '(res, controls, st') := receive_ordered tun emit room side ty u32_max b st in
  res = Ok (Some []) /\ controls = [HopAck u32_max] /\ expected_seq (rx_at st' (side, ty)) = 0 /\
  seq_after u32_max = 1.
Proof.
  intros He Hb Hem. unfold receive_ordered, reliable_rx_state, reliable_key. fold (rx_at st (side, ty)).
  rewrite He, Z.ltb_irrefl. unfold accept_in_sequence. rewrite Hb, map_size_empty. cbn [release_run].
  unfold answer. cbn. rewrite Hem. cbn. unfold rx_at. cbn. by rewrite lookup_insert_eq.
Qed.

Lemma sequence_wrap_witness :
  expected_seq (rx_at (snd (receive_ordered hop_tuning (fun _ => Ok tt) (Ok tt) 3 100 u32_max frame_a
    (set_rx empty_hop (3, 100) {| expected_seq := u32_max; buffered := ∅; control_mode := HopWindow;
                                  control_token := 0 |}))) (3, 100)) = 0.
Proof.
  pose proof (sequence_wrap hop_tuning (fun _ => Ok tt) (Ok tt) 3 100 frame_a
    (set_rx empty_hop (3, 100) {| expected_seq := u32_max; buffered := ∅; control_mode := HopWindow;
                                  control_token := 0 |}) eq_refl eq_refl (fun _ => eq_refl)) as H.
  destruct (receive_ordered _ _ _ _ _ _ _ _) as [[res controls] st']. apply H.
Defined.

(** A frame in sequence whose acknowledgement cannot be queued: the window has
    moved on, the frame is not handed on, and its retransmission counts as old. *)
Lemma unqueued_ack_loses tun emit room side ty seq b st e :
  expected_seq (rx_at st (side, ty)) = seq -> buffered (rx_at st (side, ty)) = ∅ ->
  0 <= seq < u32_max -> (forall c, emit c = Err e) ->
  let '(res, controls, st') := receive_ordered tun emit room side ty seq b st in
  res = Err e /\ controls = [] /\ expected_seq (rx_at st' (side, ty)) = seq + 1.
Proof.
  intros He Hb Hs Hem. unfold receive_ordered, reliable_rx_state, reliable_key. fold (rx_at st (side, ty)).
  rewrite He, Z.ltb_irrefl. unfold accept_in_sequence. rewrite Hb, map_size_empty. cbn [release_run].
  unfold answer. cbn. rewrite Hem. cbn. unfold rx_at. cbn. rewrite lookup_insert_eq. cbn.
  unfold wrap32. rewrite Z.mod_small by solve_u. done.
Qed.

(** ** Refusals *)

(** A send that answers with an error its caller may try
    again has retained nothing: no sequence number was taken and no frame kept, so
    the next attempt cannot put the packet on the hop twice.  (A refusal by the
    side itself, after the commit, is answered with success: the hop owns the
    frame.) *)
Theorem hop_transient_refusal reg tun side ty origin eg adm st e adm' st' :
  (forall seq, encode_hop_owner eg seq <> Ok None) ->
  send_reliable reg tun side ty origin eg adm st = (Err e, adm', st') ->
  is_transient_tx_error e = true -> st' = st.
Proof.
  intros Henc. unfold send_reliable.
  destruct (find_retained _ _ _) as [[]|e0]; [done| |congruence].
  destruct (window_slot tun side ty st) as [[seq rows]|e0]; [|congruence].
  destruct (encode_hop_owner eg seq) as [[b|]|e0] eqn:Ee; [|by destruct (Henc seq)|congruence].
  destruct (encode_frames eg b) as [frames|e0]; [|congruence].
  destruct (reserve_admission _ _ adm) as [[u|e0] adm1]; [|congruence].
  destruct (commit_hop_offer _ _ _ _ _ _ _ _ _ st) as [st1|e0]; [|congruence].
  destruct (offer_frames eg frames st1) as [res st2].
  destruct (complete_hop_offer _ _ _ _ _ _ _ _ st2) as [completion st3] eqn:Ec.
  assert (forall e, completion = Err e -> is_transient_tx_error e = false) as Hc.
  { intros e0 ->. revert Ec. unfold complete_hop_offer, reliable_key.
    destruct (reliable_tx st2 !! (side, ty)); [|done]. destruct (_ && _); [by intros [= <- <-]|].
    destruct (sent _ !! seq); [|done]. by destruct (same_owner _ _). }
  intros H He. exfalso. destruct res as [u0|e0].
  - injection H as -> _ _. by rewrite (Hc e eq_refl) in He.
  - destruct (is_transient_tx_error e0) eqn:Et.
    + injection H as -> _ _. by rewrite (Hc e eq_refl) in He.
    + injection H as -> _ _. congruence.
Qed.

Definition sample_egress : HopEgress :=
  {| encode_hop_owner := fun seq => Ok (Some {| owner := 9; shared := [seq] |});
     encode_frames := fun b => Ok [shared b]; handler_kept := true; bytes_in_use := 990;
     queue_budget := 1000; offer_frames := fun _ st => (Ok tt, st); offer_whole := fun st => (Ok tt, st);
     egress_clock := 10 |}.

Lemma hop_transient_refusal_witness :
  exists adm', send_reliable hop_reg hop_tuning 0 100 5 sample_egress
      {| probe := None; probe_v2 := None; rejected := 0 |} hop_sender1 = (Err (Io "memory pressure"), adm', hop_sender1).
Proof.
  destruct (send_reliable hop_reg hop_tuning 0 100 5 sample_egress
      {| probe := None; probe_v2 := None; rejected := 0 |} hop_sender1) as [[r adm'] st'] eqn:E.
  assert (r = Err (Io "memory pressure")) as ->.
  { apply (f_equal (fun x => fst (fst x))) in E. vm_compute in E. congruence. }
  exists adm'. rewrite (hop_transient_refusal hop_reg hop_tuning 0 100 5 sample_egress
    {| probe := None; probe_v2 := None; rejected := 0 |} hop_sender1 _ _ _ ltac:(done) E eq_refl). reflexivity.
Defined.
