(* ===== verification/SortedList.v ===== *)
(** * Sorted lists without repetition

    [sort] followed by [dedup], as the routing code keeps its sets of endpoints,
    names and boards: the ascending list of the elements of a list. *)

From stdpp Require Import sorting.
From S2P Require Import Prelude SmallSort.

Section SortedList.
Context `{OrdKey T} `{EqDecision T}.

(** [Vec::dedup]: an element equal to the one kept before it goes. *)
Fixpoint dedup_after (last : T) (l : list T) : list T :=
  match l with
  | [] => []
  | x :: l => if decide (x = last) then dedup_after last l else x :: dedup_after x l
  end.

Definition vec_dedup (l : list T) : list T :=
  match l with [] => [] | x :: l => x :: dedup_after x l end.

(** [small_sort::sort] and [dedup]; [SmallSort.sort_spec] shows that either build
    sorts this way. *)
Definition sort_dedup (l : list T) : list T := vec_dedup (merge_sort kle l).

Abbreviation ascends := (StronglySorted klt).

Lemma dedup_after_elem last l x : x ∈ last :: dedup_after last l <-> x ∈ last :: l.
Proof.
  revert last. induction l as [|y l IH]; intros last; cbn [dedup_after]; [done|]. case_decide as Hy.
  - subst y. rewrite IH. rewrite !elem_of_cons. naive_solver.
  - rewrite elem_of_cons, IH, !elem_of_cons. done.
Qed.

Lemma vec_dedup_elem l x : x ∈ vec_dedup l <-> x ∈ l.
Proof. destruct l as [|y l]; [done|]. apply dedup_after_elem. Qed.

Lemma dedup_after_ascends last l :
  StronglySorted kle (last :: l) -> ascends (last :: dedup_after last l).
Proof.
  revert last. induction l as [|y l IH]; intros last Hs; cbn [dedup_after]; [by repeat constructor|].
  apply StronglySorted_inv in Hs as [Hs Hl]. apply Forall_cons in Hl as [Hy Hl]. case_decide as Heq.
  - apply IH. subst y. apply StronglySorted_inv in Hs as [Hs _]. by constructor.
  - pose proof (IH y Hs) as Hd. constructor; [done|]. apply kle_cases in Hy as [Hy|]; [|congruence].
    apply StronglySorted_inv in Hd as [_ Hd]. constructor; [done|].
    eapply Forall_impl; [exact Hd|]. intros z Hz. by eapply klt_trans.
Qed.

Lemma sort_dedup_ascends l : ascends (sort_dedup l).
Proof.
  unfold sort_dedup. assert (StronglySorted kle (merge_sort kle l)) as Hs
    by (apply StronglySorted_merge_sort; apply _).
  destruct (merge_sort kle l) as [|x s]; [constructor|]. by apply dedup_after_ascends.
Qed.

Lemma sort_dedup_elem l x : x ∈ sort_dedup l <-> x ∈ l.
Proof. unfold sort_dedup. by rewrite vec_dedup_elem, (merge_sort_Permutation kle l). Qed.

(** An ascending list is determined by its elements. *)
Lemma ascends_ext l1 : forall l2, ascends l1 -> ascends l2 -> (forall x, x ∈ l1 <-> x ∈ l2) -> l1 = l2.
Proof.
  induction l1 as [|x l1 IH]; intros [|y l2] H1 H2 He; [done|..].
  - pose proof (proj2 (He y) (list_elem_of_here _ _)) as Hy. by apply not_elem_of_nil in Hy.
  - pose proof (proj1 (He x) (list_elem_of_here _ _)) as Hx. by apply not_elem_of_nil in Hx.
  - apply StronglySorted_inv in H1 as [H1 F1]. apply StronglySorted_inv in H2 as [H2 F2].
    rewrite Forall_forall in F1, F2.
    assert (x = y) as ->.
    { assert (x ∈ y :: l2) as Hx by (apply He; by left). assert (y ∈ x :: l1) as Hy by (apply He; by left).
      apply elem_of_cons in Hx as [|Hx]; [done|]. apply elem_of_cons in Hy as [|Hy]; [done|].
      destruct (klt_irrefl x). eapply klt_trans; [by apply F1|by apply F2]. }
    f_equal. apply IH; [done|done|]. intros z. specialize (He z). rewrite !elem_of_cons in He.
    split; intros Hz.
    + destruct (proj1 He (or_intror Hz)) as [->|]; [|done]. by destruct (klt_irrefl y); apply F1.
    + destruct (proj2 He (or_intror Hz)) as [->|]; [|done]. by destruct (klt_irrefl y); apply F2.
Qed.

Lemma sort_dedup_id l : ascends l -> sort_dedup l = l.
Proof. intros Hl. apply ascends_ext; [apply sort_dedup_ascends|done|apply sort_dedup_elem]. Qed.

Lemma sort_dedup_ext l1 l2 : (forall x, x ∈ l1 <-> x ∈ l2) -> sort_dedup l1 = sort_dedup l2.
Proof.
  intros He. apply ascends_ext; try apply sort_dedup_ascends. intros x. by rewrite !sort_dedup_elem.
Qed.

Lemma ascends_filter (P : T -> Prop) `{forall x, Decision (P x)} l : ascends l -> ascends (filter P l).
Proof.
  induction 1 as [|x l Hs IH Hf]; [constructor|]. rewrite filter_cons. case_decide; [|done].
  constructor; [done|]. rewrite Forall_forall in Hf |- *. intros y [_ Hy]%list_elem_of_filter. auto.
Qed.

Lemma ascends_nodup l : ascends l -> NoDup l.
Proof.
  induction 1 as [|x l Hs IH Hf]; constructor; [|done]. intros Hx. rewrite Forall_forall in Hf.
  by apply (klt_irrefl x), Hf.
Qed.
End SortedList.

(** ** Records sorted by a key *)

Section ByKey.
Context `{OrdKey K} `{EqDecision K} {A : Type} (key : A -> K).

Definition by_key (a b : A) : Prop := kle (key a) (key b).

#[export] Instance by_key_dec : RelDecision by_key.
Proof. intros a b. unfold by_key. apply _. Defined.

#[export] Instance by_key_total : Total by_key.
Proof. intros a b. unfold by_key. apply kle_total. Qed.

#[export] Instance by_key_trans : Transitive by_key.
Proof. intros a b c. unfold by_key. apply kle_trans. Qed.

(** [dedup_by] on equal keys: the first of a run stays. *)
Fixpoint dedup_by_after (last : A) (l : list A) : list A :=
  match l with
  | [] => []
  | x :: l => if decide (key x = key last) then dedup_by_after last l else x :: dedup_by_after x l
  end.

Definition dedup_by (l : list A) : list A :=
  match l with [] => [] | x :: l => x :: dedup_by_after x l end.

(** Sorting by the key and dropping repeated keys.  Entries with equal keys keep
    their order here; [sort_unstable_by] leaves open which of them comes first. *)
Definition sort_by_key (l : list A) : list A := dedup_by (merge_sort by_key l).

Abbreviation key_ascends := (StronglySorted (fun a b => klt (key a) (key b))).

Lemma dedup_by_after_sublist last l : dedup_by_after last l `sublist_of` l.
Proof.
  revert last. induction l as [|x l IH]; intros last; cbn [dedup_by_after]; [done|].
  case_decide; [apply sublist_cons, IH|apply sublist_skip, IH].
Qed.

Lemma dedup_by_after_ascends last l :
  StronglySorted by_key (last :: l) -> key_ascends (last :: dedup_by_after last l).
Proof.
  revert last. induction l as [|y l IH]; intros last Hs; cbn [dedup_by_after]; [by repeat constructor|].
  apply StronglySorted_inv in Hs as [Hs Hl]. apply Forall_cons in Hl as [Hy Hl]. case_decide as Heq.
  - apply IH. apply StronglySorted_inv in Hs as [Hs _]. by constructor.
  - pose proof (IH y Hs) as Hd. constructor; [done|]. apply kle_cases in Hy as [Hy|]; [|congruence].
    apply StronglySorted_inv in Hd as [_ Hd]. constructor; [done|].
    eapply Forall_impl; [exact Hd|]. intros z Hz. by eapply klt_trans.
Qed.

Lemma sort_by_key_ascends l : key_ascends (sort_by_key l).
Proof.
  unfold sort_by_key. assert (StronglySorted by_key (merge_sort by_key l)) as Hs
    by (apply StronglySorted_merge_sort; apply _).
  destruct (merge_sort by_key l) as [|x s]; [constructor|]. by apply dedup_by_after_ascends.
Qed.

Lemma sort_by_key_incl l x : x ∈ sort_by_key l -> x ∈ l.
Proof.
  unfold sort_by_key. pose proof (merge_sort_Permutation by_key l) as Hp.
  destruct (merge_sort by_key l) as [|y s]; rewrite <- Hp; [done|]. cbn [dedup_by].
  intros Hx. eapply elem_of_sublist; [exact Hx|]. apply sublist_skip, dedup_by_after_sublist.
Qed.

Lemma dedup_by_after_id last l :
  NoDup (key last :: map key l) -> dedup_by_after last l = l.
Proof.
  revert last. induction l as [|x l IH]; intros last Hn; cbn [dedup_by_after]; [done|].
  cbn [map] in Hn. apply NoDup_cons in Hn as [Hl Hn].
  rewrite decide_False; [by rewrite IH|]. intros He. apply Hl. rewrite He. by left.
Qed.

(** With distinct keys nothing is dropped. *)
Lemma sort_by_key_elem l x : NoDup (map key l) -> x ∈ sort_by_key l <-> x ∈ l.
Proof.
  intros Hn. unfold sort_by_key. pose proof (merge_sort_Permutation by_key l) as Hp.
  rewrite <- Hp in Hn. destruct (merge_sort by_key l) as [|y s]; rewrite <- Hp; [done|]. cbn [dedup_by].
  by rewrite dedup_by_after_id.
Qed.

Lemma key_ascends_nodup l : key_ascends l -> NoDup (map key l).
Proof.
  induction 1 as [|x l Hs IH Hf]; cbn; constructor; [|done]. intros Hx.
  apply list_elem_of_fmap in Hx as (y & He & Hy). rewrite Forall_forall in Hf.
  specialize (Hf y Hy). cbn in Hf. rewrite He in Hf. by apply klt_irrefl in Hf.
Qed.

(** Entries with the same key in a list of distinct keys are the same entry. *)
Lemma same_key l a b : NoDup (map key l) -> a ∈ l -> b ∈ l -> key a = key b -> a = b.
Proof.
  induction l as [|x l IH]; intros Hn Ha Hb He; [by apply not_elem_of_nil in Ha|].
  cbn in Hn. apply NoDup_cons in Hn as [Hx Hn].
  apply elem_of_cons in Ha as [->|Ha], Hb as [->|Hb]; [done|..|auto].
  - destruct Hx. rewrite He. apply list_elem_of_fmap. eauto.
  - destruct Hx. rewrite <- He. apply list_elem_of_fmap. eauto.
Qed.

(** A list ascending by key is determined by its entries. *)
Lemma key_ascends_ext l1 : forall l2,
  key_ascends l1 -> key_ascends l2 -> (forall x, x ∈ l1 <-> x ∈ l2) -> l1 = l2.
Proof.
  induction l1 as [|x l1 IH]; intros [|y l2] H1 H2 He; [done|..].
  - pose proof (proj2 (He y) (list_elem_of_here _ _)) as Hy. by apply not_elem_of_nil in Hy.
  - pose proof (proj1 (He x) (list_elem_of_here _ _)) as Hx. by apply not_elem_of_nil in Hx.
  - apply StronglySorted_inv in H1 as [H1 F1]. apply StronglySorted_inv in H2 as [H2 F2].
    rewrite Forall_forall in F1, F2. cbn in F1, F2.
    assert (x = y) as ->.
    { assert (x ∈ y :: l2) as Hx by (apply He; by left). assert (y ∈ x :: l1) as Hy by (apply He; by left).
      apply elem_of_cons in Hx as [|Hx]; [done|]. apply elem_of_cons in Hy as [|Hy]; [done|].
      destruct (klt_irrefl (key x)). eapply klt_trans; [by apply F1|by apply F2]. }
    f_equal. apply IH; [done|done|]. intros z. specialize (He z). rewrite !elem_of_cons in He.
    split; intros Hz.
    + destruct (proj1 He (or_intror Hz)) as [->|]; [|done]. by destruct (klt_irrefl (key y)); apply F1.
    + destruct (proj2 He (or_intror Hz)) as [->|]; [|done]. by destruct (klt_irrefl (key y)); apply F2.
Qed.

Lemma sort_by_key_id l : key_ascends l -> sort_by_key l = l.
Proof.
  intros Hl. apply key_ascends_ext; [apply sort_by_key_ascends|done|].
  intros x. by apply sort_by_key_elem, key_ascends_nodup.
Qed.
End ByKey.

Abbreviation key_ascends key := (StronglySorted (fun a b => klt (key a) (key b))).
Abbreviation ascends := (StronglySorted klt).
