(* ===== verification/Topology.v ===== *)
(** * The topology graph of discovery (src/src/discovery.rs)

    What the boards of the network reach and whom they are connected to, as sorted
    lists of nodes: normalisation, merging, deltas and summaries. *)

From stdpp Require Import sorting.
From S2P Require Import Prelude Schema SmallSort SortedList.

Open Scope Z_scope.

(** ** Nodes *)

Record TopologyBoardNode : Type := {
  sender_id : bytes;
  reachable_endpoints : list DataEndpoint;
  reachable_timesync_sources : list bytes;
  connections : list bytes;
}.

#[export] Instance TopologyBoardNode_eq_dec : EqDecision TopologyBoardNode.
Proof. solve_decision. Defined.

Record TopologyLink : Type := { link_source : bytes; link_target : bytes }.

Record DiscoveryTopologyUpdate : Type := {
  incremental : bool;
  boards : list TopologyBoardNode;
  removed : list bytes;
}.

Definition is_router_control_endpoint (ep : DataEndpoint) : bool :=
  one_of ep [ep_TelemetryError; ep_TimeSync; ep_Discovery].
Definition is_discovery_endpoint (ep : DataEndpoint) : bool := ep =? ep_Discovery.

(** ** Normalisation *)

Definition sort_dedup_strings (items : list bytes) : list bytes := sort_dedup items.

Definition normalize_board (b : TopologyBoardNode) : TopologyBoardNode :=
  {| sender_id := sender_id b;
     reachable_endpoints :=
       sort_dedup (filter (fun ep => is_router_control_endpoint ep = false) (reachable_endpoints b));
     reachable_timesync_sources := sort_dedup_strings (reachable_timesync_sources b);
     connections := sort_dedup_strings (filter (fun peer => peer <> sender_id b) (connections b)) |}.

Definition normalize_topology_boards (boards : list TopologyBoardNode) : list TopologyBoardNode :=
  sort_by_key sender_id (map normalize_board boards).

(** ** Links *)

Definition link_between (b : TopologyBoardNode) (peer : bytes) : TopologyLink :=
  match kcmp (sender_id b) peer with
  | Gt => {| link_source := peer; link_target := sender_id b |}
  | _ => {| link_source := sender_id b; link_target := peer |}
  end.

Definition board_links (b : TopologyBoardNode) : list TopologyLink :=
  map (link_between b) (filter (fun peer => peer <> sender_id b) (connections b)).

Definition link_le (a b : TopologyLink) : Prop :=
  match kcmp (link_source a) (link_source b) with
  | Lt => True | Gt => False | Eq => kle (link_target a) (link_target b)
  end.

#[export] Instance link_le_dec : RelDecision link_le.
Proof. intros a b. unfold link_le. destruct (kcmp (link_source a) (link_source b)); apply _. Defined.

#[export] Instance TopologyLink_eq_dec : EqDecision TopologyLink.
Proof. solve_decision. Defined.

Definition topology_links_from_boards (boards : list TopologyBoardNode) : list TopologyLink :=
  vec_dedup (merge_sort link_le (concat (map board_links boards))).

(** ** Merging *)

(** Of the nodes with one name the last stays. *)
Fixpoint keep_last (boards : list TopologyBoardNode) : list TopologyBoardNode :=
  match boards with
  | [] => []
  | b :: rest =>
      if existsb (fun node => bool_decide (sender_id node = sender_id b)) rest
      then keep_last rest else b :: keep_last rest
  end.

(** Items not yet in the list go to its end. *)
Fixpoint push_missing {T} `{EqDecision T} (acc items : list T) : list T :=
  match items with
  | [] => acc
  | x :: items => push_missing (if decide (x ∈ acc) then acc else acc ++ [x]) items
  end.

Definition extend_board (entry board : TopologyBoardNode) : TopologyBoardNode :=
  {| sender_id := sender_id entry;
     reachable_endpoints := push_missing (reachable_endpoints entry) (reachable_endpoints board);
     reachable_timesync_sources :=
       push_missing (reachable_timesync_sources entry) (reachable_timesync_sources board);
     connections := push_missing (connections entry) (connections board) |}.

Fixpoint merge_board (dst : list TopologyBoardNode) (board : TopologyBoardNode)
    : list TopologyBoardNode :=
  match dst with
  | [] => [board]
  | entry :: dst =>
      if decide (sender_id entry = sender_id board) then extend_board entry board :: dst
      else entry :: merge_board dst board
  end.

Definition merge_topology_boards (dst src : list TopologyBoardNode) : list TopologyBoardNode :=
  normalize_topology_boards (foldl merge_board (keep_last dst) src).

(** ** Summaries *)

Definition summarize_topology_boards (boards : list TopologyBoardNode)
    : list DataEndpoint * list bytes :=
  let eps := foldl (fun acc b => push_missing acc
               (filter (fun ep => is_router_control_endpoint ep = false) (reachable_endpoints b))) [] boards in
  let sources := foldl (fun acc b => push_missing acc (reachable_timesync_sources b)) [] boards in
  (filter (fun ep => is_router_control_endpoint ep = false) (sort_dedup eps), sort_dedup_strings sources).

(** ** Updates *)

(** The node takes the place of the one with its name, or goes to the end; the
    flag tells whether anything changed. *)
Fixpoint replace_board (retained : list TopologyBoardNode) (board : TopologyBoardNode)
    : list TopologyBoardNode * bool :=
  match retained with
  | [] => ([board], true)
  | old :: rest =>
      if decide (sender_id old = sender_id board) then
        if decide (old = board) then (old :: rest, false) else (board :: rest, true)
      else let '(rest, changed) := replace_board rest board in (old :: rest, changed)
  end.

Definition replace_boards (retained new : list TopologyBoardNode) (changed : bool)
    : list TopologyBoardNode * bool :=
  foldl (fun acc b => let '(r, c) := replace_board (fst acc) b in (r, snd acc || c)) (retained, changed) new.

Definition named (id : bytes) (l : list TopologyBoardNode) : bool :=
  existsb (fun b => bool_decide (sender_id b = id)) l.

Definition apply_topology_update (retained : list TopologyBoardNode) (update : DiscoveryTopologyUpdate)
    : list TopologyBoardNode * bool :=
  if incremental update then
    let kept := filter (fun b => bool_decide (sender_id b ∈ removed update) = false \/
                                 named (sender_id b) (boards update) = true) retained in
    let changed := negb (length retained =? length kept)%nat in
    let '(retained, changed) := replace_boards kept (boards update) changed in
    (if changed then normalize_topology_boards retained else retained, changed)
  else if decide (retained = boards update) then (retained, false)
  else (boards update, true).

(** [apply_shared_topology_update]: the retained graph is shared; [make_mut] makes
    it unique before it changes, which a value already is. *)
Definition apply_shared_topology_update (retained : list TopologyBoardNode)
    (update : DiscoveryTopologyUpdate) : list TopologyBoardNode * bool :=
  if incremental update then apply_topology_update retained update
  else if decide (retained = boards update) then (retained, false)
  else (boards update, true).

Definition find_board (id : bytes) (l : list TopologyBoardNode) : option TopologyBoardNode :=
  head (filter (fun b => sender_id b = id) l).

Definition topology_delta (previous current : list TopologyBoardNode)
    : list TopologyBoardNode * list bytes :=
  (filter (fun node => find_board (sender_id node) previous <> Some node) current,
   map sender_id (filter (fun old => named (sender_id old) current = false) previous)).

(** ** What a graph says

    The facts a list of boards states; merging is their union. *)

Inductive Fact : Type :=
| FNode (id : bytes)
| FEndpoint (id : bytes) (ep : DataEndpoint)
| FSource (id s : bytes)
| FConnection (id peer : bytes).

Definition states (b : TopologyBoardNode) (f : Fact) : Prop :=
  match f with
  | FNode id => sender_id b = id
  | FEndpoint id ep => sender_id b = id /\ ep ∈ reachable_endpoints b
  | FSource id s => sender_id b = id /\ s ∈ reachable_timesync_sources b
  | FConnection id peer => sender_id b = id /\ peer ∈ connections b
  end.

Definition facts (l : list TopologyBoardNode) (f : Fact) : Prop := exists b, b ∈ l /\ states b f.

(** Facts that normalisation keeps. *)
Definition worth (f : Fact) : Prop :=
  match f with
  | FEndpoint _ ep => is_router_control_endpoint ep = false
  | FConnection id peer => peer <> id
  | _ => True
  end.

(** A normalised node and a normalised graph. *)
Record board_canonical (b : TopologyBoardNode) : Prop := {
  bc_endpoints : ascends (reachable_endpoints b);
  bc_sources : ascends (reachable_timesync_sources b);
  bc_connections : ascends (connections b);
  bc_application : Forall (fun ep => is_router_control_endpoint ep = false) (reachable_endpoints b);
  bc_others : Forall (fun peer => peer <> sender_id b) (connections b);
}.

Record canonical (l : list TopologyBoardNode) : Prop := {
  can_boards : Forall board_canonical l;
  can_sorted : key_ascends sender_id l;
}.

Abbreviation distinct l := (NoDup (map sender_id l)).

Lemma normalize_board_canonical b : board_canonical (normalize_board b).
Proof.
  constructor; cbn; try apply sort_dedup_ascends.
  - apply Forall_forall. intros ep Hep. apply sort_dedup_elem, list_elem_of_filter in Hep. by destruct Hep.
  - apply Forall_forall. intros p Hp. apply sort_dedup_elem, list_elem_of_filter in Hp. by destruct Hp.
Qed.

Lemma filter_all {A} (P : A -> Prop) `{forall x, Decision (P x)} l : Forall P l -> filter P l = l.
Proof. induction 1; [done|]. rewrite filter_cons, decide_True by done. by f_equal. Qed.

Lemma forall_filter {A} (P Q : A -> Prop) `{forall x, Decision (Q x)} l :
  Forall P l -> Forall P (filter Q l).
Proof. rewrite !Forall_forall. intros Hl x [_ Hx]%list_elem_of_filter. auto. Qed.

Lemma normalize_board_id b : board_canonical b -> normalize_board b = b.
Proof.
  intros [H1 H2 H3 H4 H5]. unfold normalize_board, sort_dedup_strings.
  rewrite !filter_all, !sort_dedup_id by done. by destruct b.
Qed.

Lemma normalize_canonical l : canonical (normalize_topology_boards l).
Proof.
  constructor; [|apply sort_by_key_ascends]. apply Forall_forall. intros b Hb.
  apply sort_by_key_incl, list_elem_of_fmap in Hb as (b' & -> & _). apply normalize_board_canonical.
Qed.

Lemma normalize_id l : canonical l -> normalize_topology_boards l = l.
Proof.
  intros [H1 H2]. unfold normalize_topology_boards.
  replace (map normalize_board l) with l; [by apply sort_by_key_id|].
  clear H2. induction H1; [done|]. cbn. rewrite normalize_board_id by done. by f_equal.
Qed.

Lemma states_normalize b f : states (normalize_board b) f <-> states b f /\ worth f.
Proof.
  destruct f; cbn; unfold sort_dedup_strings; rewrite ?sort_dedup_elem, ?list_elem_of_filter; naive_solver.
Qed.

Lemma map_id_normalize l : map sender_id (map normalize_board l) = map sender_id l.
Proof. by induction l as [|b l IH]; cbn; [|rewrite IH]. Qed.

Lemma facts_normalize l f :
  distinct l -> facts (normalize_topology_boards l) f <-> facts l f /\ worth f.
Proof.
  intros Hd. unfold facts, normalize_topology_boards. split.
  - intros (b & Hb & Hf). apply sort_by_key_elem in Hb; [|by rewrite map_id_normalize].
    apply list_elem_of_fmap in Hb as (b' & -> & Hb). apply states_normalize in Hf as [Hf Hw]. eauto.
  - intros [(b & Hb & Hf) Hw]. exists (normalize_board b). rewrite states_normalize. split; [|done].
    apply sort_by_key_elem; [by rewrite map_id_normalize|]. apply list_elem_of_fmap. eauto.
Qed.

Lemma canonical_distinct l : canonical l -> distinct l.
Proof. intros [_ H]. by apply key_ascends_nodup. Qed.

Lemma canonical_worth l f : canonical l -> facts l f -> worth f.
Proof.
  intros [H _] (b & Hb & Hf). rewrite Forall_forall in H. destruct (H _ Hb) as [_ _ _ H4 H5].
  rewrite Forall_forall in H4. rewrite Forall_forall in H5.
  destruct f; cbn in *; naive_solver.
Qed.

(** A normalised graph is determined by its facts. *)
Lemma canonical_node_eq b1 b2 :
  board_canonical b1 -> board_canonical b2 -> (forall f, states b1 f <-> states b2 f) -> b1 = b2.
Proof.
  intros [A1 A2 A3 _ _] [B1 B2 B3 _ _] Hf.
  assert (sender_id b1 = sender_id b2) as Hid by (by apply (Hf (FNode (sender_id b2)))).
  destruct b1 as [i1 e1 s1 c1], b2 as [i2 e2 s2 c2]; cbn in *. subst i2. f_equal.
  - apply ascends_ext; [done|done|]. intros x. specialize (Hf (FEndpoint i1 x)). cbn in Hf. naive_solver.
  - apply ascends_ext; [done|done|]. intros x. specialize (Hf (FSource i1 x)). cbn in Hf. naive_solver.
  - apply ascends_ext; [done|done|]. intros x. specialize (Hf (FConnection i1 x)). cbn in Hf. naive_solver.
Qed.

Lemma fact_id_states b f l :
  distinct l -> b ∈ l ->
  match f with FNode i | FEndpoint i _ | FSource i _ | FConnection i _ => i = sender_id b end ->
  facts l f <-> states b f.
Proof.
  intros Hd Hb Hi. split; [|by exists b]. intros (b' & Hb' & Hf).
  assert (b' = b) as ->; [|done]. apply (same_key sender_id l); [done..|]. destruct f; cbn in *; naive_solver.
Qed.

Lemma canonical_subset l1 l2 b :
  canonical l1 -> canonical l2 -> (forall f, facts l1 f <-> facts l2 f) -> b ∈ l1 -> b ∈ l2.
Proof.
  intros H1 H2 Hf Hb. assert (facts l2 (FNode (sender_id b))) as (b2 & Hb2 & Hid) by (apply Hf; by exists b).
  cbn in Hid. assert (b = b2) as ->; [|done]. destruct H1 as [C1 S1], H2 as [C2 S2].
  rewrite Forall_forall in C1, C2. apply canonical_node_eq; [by apply C1|by apply C2|].
  intros f. destruct (decide (match f with FNode i | FEndpoint i _ | FSource i _ | FConnection i _ => i end
                              = sender_id b)) as [Hi|Hi].
  - rewrite <- (fact_id_states b f l1), <- (fact_id_states b2 f l2); try done;
      try (by apply key_ascends_nodup); destruct f; congruence.
  - destruct f; cbn in *; rewrite Hid; naive_solver.
Qed.

Lemma canonical_ext l1 l2 :
  canonical l1 -> canonical l2 -> (forall f, facts l1 f <-> facts l2 f) -> l1 = l2.
Proof.
  intros H1 H2 Hf. apply (key_ascends_ext sender_id); [apply H1|apply H2|].
  intros b. split; apply canonical_subset; done.
Qed.

(** ** Merging is union of facts *)

Lemma push_missing_elem {T} `{EqDecision T} (items : list T) : forall acc x,
  x ∈ push_missing acc items <-> x ∈ acc \/ x ∈ items.
Proof.
  induction items as [|y items IH]; intros acc x; cbn [push_missing].
  - split; [by left|]. intros [|Hx]; [done|by apply not_elem_of_nil in Hx].
  - rewrite IH, elem_of_cons. case_decide as Hy; [|rewrite elem_of_app, list_elem_of_singleton]; naive_solver.
Qed.

Lemma states_extend e b f :
  sender_id e = sender_id b -> states (extend_board e b) f <-> states e f \/ states b f.
Proof. intros He. destruct f; cbn; rewrite ?push_missing_elem; naive_solver. Qed.

Lemma facts_cons b l f : facts (b :: l) f <-> states b f \/ facts l f.
Proof.
  unfold facts. split.
  - intros (x & Hx & Hf). apply elem_of_cons in Hx as [->|Hx]; eauto.
  - intros [Hf|(x & Hx & Hf)]; [exists b; split; [by left|done]|exists x; split; [by right|done]].
Qed.

Lemma facts_merge_board dst b f : facts (merge_board dst b) f <-> facts dst f \/ states b f.
Proof.
  induction dst as [|e dst IH]; cbn [merge_board].
  - rewrite facts_cons. unfold facts. split; [intros [?|(x & Hx & _)]; [auto|by apply not_elem_of_nil in Hx]|].
    intros [(x & Hx & _)|]; [by apply not_elem_of_nil in Hx|auto].
  - case_decide as He; rewrite !facts_cons; [rewrite states_extend by done; naive_solver|].
    rewrite IH. naive_solver.
Qed.

Lemma merge_board_ids dst b x :
  x ∈ map sender_id (merge_board dst b) <-> x ∈ map sender_id dst \/ x = sender_id b.
Proof.
  induction dst as [|e dst IH]; cbn [merge_board map].
  - rewrite list_elem_of_singleton. split; [auto|]. intros [Hx|]; [by apply not_elem_of_nil in Hx|done].
  - case_decide as He; cbn [map sender_id extend_board]; rewrite !elem_of_cons; [naive_solver|].
    rewrite IH. naive_solver.
Qed.

Lemma merge_board_distinct dst b : distinct dst -> distinct (merge_board dst b).
Proof.
  induction dst as [|e dst IH]; cbn [merge_board map]; intros Hn; [apply NoDup_singleton|].
  apply NoDup_cons in Hn as [He Hn]. case_decide as Heq; cbn [map sender_id extend_board].
  - by apply NoDup_cons.
  - apply NoDup_cons. split; [|by apply IH]. rewrite merge_board_ids. naive_solver.
Qed.

Lemma fold_merge_distinct src : forall dst, distinct dst -> distinct (foldl merge_board dst src).
Proof. induction src as [|b src IH]; intros dst Hd; [done|]. by apply IH, merge_board_distinct. Qed.

Lemma facts_fold_merge src : forall dst f,
  facts (foldl merge_board dst src) f <-> facts dst f \/ facts src f.
Proof.
  induction src as [|b src IH]; intros dst f; cbn [foldl].
  - split; [auto|]. intros [|(x & Hx & _)]; [done|by apply not_elem_of_nil in Hx].
  - rewrite IH, facts_merge_board, facts_cons. naive_solver.
Qed.

Lemma named_spec id l : named id l = true <-> id ∈ map sender_id l.
Proof.
  unfold named. rewrite existsb_exists. split.
  - intros (b & Hb & He%bool_decide_eq_true). apply list_elem_of_fmap. exists b. split; [done|].
    by apply list_elem_of_In.
  - intros (b & He & Hb)%list_elem_of_fmap. exists b. split; [by apply list_elem_of_In|].
    by apply bool_decide_eq_true.
Qed.

Lemma keep_last_sublist l : keep_last l `sublist_of` l.
Proof.
  induction l as [|b l IH]; cbn [keep_last]; [done|]. case_match; [by apply sublist_cons|by apply sublist_skip].
Qed.

Lemma keep_last_distinct l : distinct (keep_last l).
Proof.
  induction l as [|b l IH]; cbn [keep_last]; [constructor|]. fold (named (sender_id b) l).
  destruct (named (sender_id b) l) eqn:E; [done|]. cbn. apply NoDup_cons. split; [|done]. intros Hin.
  assert (named (sender_id b) l = true); [|congruence]. apply named_spec.
  apply list_elem_of_fmap in Hin as (x & Hx & Hin). apply list_elem_of_fmap. exists x. split; [done|].
  eapply elem_of_sublist; [exact Hin|apply keep_last_sublist].
Qed.

Lemma keep_last_id l : distinct l -> keep_last l = l.
Proof.
  induction l as [|b l IH]; intros Hn; cbn [keep_last]; [done|]. cbn [map] in Hn.
  apply NoDup_cons in Hn as [Hb Hn]. fold (named (sender_id b) l).
  destruct (named (sender_id b) l) eqn:E; [by apply named_spec in E|]. by rewrite IH.
Qed.

Lemma facts_merge dst src f :
  facts (merge_topology_boards dst src) f <->
  (facts (keep_last dst) f \/ facts src f) /\ worth f.
Proof.
  unfold merge_topology_boards. rewrite facts_normalize; [by rewrite facts_fold_merge|].
  apply fold_merge_distinct, keep_last_distinct.
Qed.

Lemma merge_canonical dst src : canonical (merge_topology_boards dst src).
Proof. apply normalize_canonical. Qed.

Lemma facts_merge_canonical a b f :
  canonical a -> facts (merge_topology_boards a b) f <-> facts a f \/ (facts b f /\ worth f).
Proof.
  intros Ha. rewrite facts_merge, keep_last_id by (by apply canonical_distinct).
  pose proof (canonical_worth a f Ha). naive_solver.
Qed.

(** ** Updates *)

Lemma replace_board_spec b : forall l l' c,
  distinct l -> replace_board l b = (l', c) ->
  (forall x, x ∈ l' <-> x = b \/ (x ∈ l /\ sender_id x <> sender_id b)) /\
  distinct l' /\ (c = false <-> b ∈ l) /\ (c = false -> l' = l).
Proof.
  induction l as [|e l IH]; intros l' c Hn; cbn [replace_board].
  { intros [= <- <-]. split_and!; try done; [|apply NoDup_singleton|].
    - intros x. rewrite list_elem_of_singleton. split; [auto|]. intros [|[Hx _]]; [done|by apply not_elem_of_nil in Hx].
    - split; [done|]. intros Hx. by apply not_elem_of_nil in Hx. }
  cbn [map] in Hn. apply NoDup_cons in Hn as [He Hn].
  assert (forall x, x ∈ l -> sender_id x <> sender_id e) as Hother.
  { intros x Hx Hid. apply He. rewrite <- Hid. apply list_elem_of_fmap. eauto. }
  case_decide as Hid.
  - case_decide as Heq; intros [= <- <-]; cbn [map].
    + subst e. split_and!; try done; [|by apply NoDup_cons|].
      * intros x. rewrite elem_of_cons. specialize (Hother x). naive_solver.
      * split; [intros _; by left|done].
    + split_and!; try done.
      * intros x. rewrite !elem_of_cons. specialize (Hother x). rewrite Hid in Hother. naive_solver.
      * apply NoDup_cons. by rewrite <- Hid.
      * split; [done|]. intros [->|Hb]%elem_of_cons; [done|]. by destruct (Hother b Hb).
  - destruct (replace_board l b) as [rest c0] eqn:Er. intros [= <- <-].
    destruct (IH _ _ Hn eq_refl) as (H1 & H2 & H3 & H4). cbn [map]. split_and!.
    + intros x. rewrite !elem_of_cons, H1. naive_solver.
    + apply NoDup_cons. split; [|done]. intros Hin. apply list_elem_of_fmap in Hin as (x & Hx & Hin).
      apply H1 in Hin as [->|[Hin _]]; [done|]. by apply (Hother x).
    + rewrite H3, elem_of_cons. naive_solver.
    + intros Hc. by rewrite (H4 Hc).
Qed.

Lemma replace_boards_spec new : forall l c l' c',
  distinct l -> distinct new -> replace_boards l new c = (l', c') ->
  (forall x, x ∈ l' <-> x ∈ new \/ (x ∈ l /\ sender_id x ∉ map sender_id new)) /\
  distinct l' /\ (c' = false <-> c = false /\ forall b, b ∈ new -> b ∈ l) /\ (c' = false -> l' = l).
Proof.
  unfold replace_boards. induction new as [|b new IH]; intros l c l' c' Hl Hnew; cbn [foldl].
  { intros [= <- <-]. split_and!; try done.
    - intros x. cbn. split; [intros Hx; right; split; [done|apply not_elem_of_nil]|].
      intros [Hx|[Hx _]]; [by apply not_elem_of_nil in Hx|done].
    - split; [intros Hc; split; [done|]; intros b Hb; by apply not_elem_of_nil in Hb|by intros [? _]]. }
  cbn [map] in Hnew. apply NoDup_cons in Hnew as [Hb Hnew].
  cbn [fst snd]. destruct (replace_board l b) as [l1 c1] eqn:Er.
  destruct (replace_board_spec _ _ _ _ Hl Er) as (H1 & H2 & H3 & H4). intros H.
  apply IH in H as (G1 & G2 & G3 & G4); [|done|done].
  assert (forall x, x ∈ new -> sender_id x <> sender_id b) as Hother.
  { intros x Hx Hid. apply Hb. rewrite <- Hid. apply list_elem_of_fmap. eauto. }
  split_and!; [|done| |].
  - intros x. rewrite G1, H1. cbn [map]. rewrite !elem_of_cons. split.
    + intros [Hx|[[->|[Hx Hid]] Hn]]; [by left; right|by left; left|]. right. split; [done|].
      by intros [|].
    + intros [[->|Hx]|[Hx Hn]]; [right; split; [by left|done]|by left|]. right.
      split; [right; split; [done|]|]; intros Hi; apply Hn; [by left|by right].
  - rewrite G3, orb_false_iff, H3. split.
    + intros [[Hc Hbl] Hall]. split; [done|]. intros x [->|Hx]%elem_of_cons; [done|].
      apply Hall, H1 in Hx as [->|[? _]]; done.
    + intros [Hc Hall]. assert (b ∈ l) as Hbl by (apply Hall; by left). split; [done|].
      intros x Hx. apply H1. right. split; [apply Hall; by right|]. by apply Hother.
  - intros Hc. rewrite (G4 Hc). apply G3 in Hc as [[_ Hc1]%orb_false_iff _]. by apply H4.
Qed.

Lemma filter_length_all {A} (P : A -> Prop) `{forall x, Decision (P x)} l :
  length l = length (filter P l) -> filter P l = l.
Proof.
  induction l as [|x l IH]; [done|]. rewrite filter_cons. case_decide; cbn; intros Hl.
  - f_equal. apply IH. lia.
  - pose proof (length_filter P l). lia.
Qed.

Lemma find_board_spec id l b : distinct l -> find_board id l = Some b <-> b ∈ l /\ sender_id b = id.
Proof.
  intros Hd. unfold find_board. destruct (filter _ l) as [|x s] eqn:E; cbn [head].
  - split; [done|]. intros [Hb Hid]. assert (b ∈ filter (fun b => sender_id b = id) l) as Hin
      by (by apply list_elem_of_filter). rewrite E in Hin. by apply not_elem_of_nil in Hin.
  - assert (x ∈ filter (fun b => sender_id b = id) l) as Hx by (rewrite E; by left).
    apply list_elem_of_filter in Hx as [Hid Hx]. split; [by intros [= <-]|].
    intros [Hb Hib]. f_equal. apply (same_key sender_id l); [done..|congruence].
Qed.

Lemma distinct_filter (P : TopologyBoardNode -> Prop) `{forall x, Decision (P x)} l :
  distinct l -> distinct (filter P l).
Proof.
  induction l as [|b l IH]; intros Hn; [done|]. cbn [map] in Hn. apply NoDup_cons in Hn as [Hb Hn].
  rewrite filter_cons. case_decide; [|auto]. cbn. apply NoDup_cons. split; [|auto].
  intros Hin. apply Hb. apply list_elem_of_fmap in Hin as (x & Hx & [_ Hin]%list_elem_of_filter).
  apply list_elem_of_fmap. eauto.
Qed.

(** The nodes an incremental update leaves. *)
Lemma apply_incremental l u :
  canonical l -> incremental u = true -> canonical (boards u) ->
  let '(l', c) := apply_topology_update l u in
  canonical l' /\
  (forall x, x ∈ l' <-> x ∈ boards u \/
     (x ∈ l /\ (sender_id x ∉ map sender_id (boards u)) /\ (sender_id x ∉ removed u))) /\
  (c = false -> l' = l).
Proof.
  intros Hl Hu Hb. unfold apply_topology_update. rewrite Hu.
  set (kept := filter _ l). assert (distinct kept) as Hk by (by apply distinct_filter, canonical_distinct).
  destruct (replace_boards kept (boards u) _) as [l1 c] eqn:Er.
  destruct (replace_boards_spec _ _ _ _ _ Hk (canonical_distinct _ Hb) Er) as (H1 & H2 & H3 & H4).
  assert (forall x, x ∈ l1 <-> x ∈ boards u \/
     (x ∈ l /\ (sender_id x ∉ map sender_id (boards u)) /\ (sender_id x ∉ removed u))) as Hx.
  { intros x. rewrite H1. unfold kept. rewrite list_elem_of_filter, named_spec, bool_decide_eq_false.
    naive_solver. }
  assert (forall x, x ∈ l1 -> normalize_board x = x) as Hid.
  { intros x [Hi|[Hi _]]%Hx; apply normalize_board_id.
    - destruct Hb as [Hb _]. rewrite Forall_forall in Hb. auto.
    - destruct Hl as [Hl' _]. rewrite Forall_forall in Hl'. auto. }
  destruct c.
  - split; [apply normalize_canonical|]. split; [|done]. intros x. rewrite <- Hx.
    unfold normalize_topology_boards. rewrite sort_by_key_elem by (by rewrite map_id_normalize).
    rewrite list_elem_of_fmap. split.
    + intros (y & -> & Hy). by rewrite Hid.
    + intros Hi. exists x. by rewrite Hid.
  - assert (l1 = l) as ->.
    { rewrite H4 by done.  destruct (proj1 H3 eq_refl) as [Hc _].
      apply negb_false_iff, Nat.eqb_eq in Hc. by apply filter_length_all. }
    split_and!; done.
Qed.

Lemma delta_changed previous current x :
  canonical previous ->
  x ∈ fst (topology_delta previous current) <-> x ∈ current /\ (x ∉ previous).
Proof.
  intros Hp. cbn [topology_delta fst]. rewrite list_elem_of_filter, find_board_spec by (by apply canonical_distinct).
  naive_solver.
Qed.

Lemma delta_removed previous current x :
  sender_id x ∈ snd (topology_delta previous current) <->
  sender_id x ∈ map sender_id previous /\ (sender_id x ∉ map sender_id current).
Proof.
  cbn [topology_delta snd]. split.
  - intros (y & Hy & [Hn Hin]%list_elem_of_filter)%list_elem_of_fmap. rewrite Hy.
    split; [apply list_elem_of_fmap; eauto|]. intros Hc'%named_spec. congruence.
  - intros [(y & Hy & Hin)%list_elem_of_fmap Hn]. apply list_elem_of_fmap. exists y. split; [done|].
    apply list_elem_of_filter. split; [|done]. apply not_true_iff_false. rewrite named_spec. by rewrite <- Hy.
Qed.

Lemma delta_canonical previous current :
  canonical current -> canonical (fst (topology_delta previous current)).
Proof.
  intros [C1 C2]. cbn [topology_delta fst]. constructor; [by apply forall_filter|].
  clear C1. induction C2 as [|x l Hs IH Hf]; [constructor|]. rewrite filter_cons.
  case_decide; [|done]. constructor; [done|]. by apply forall_filter.
Qed.

Lemma own_id (l : list TopologyBoardNode) x : x ∈ l -> sender_id x ∈ map sender_id l.
Proof. intros H. apply list_elem_of_fmap. eauto. Qed.

Lemma apply_delta previous current rm :
  canonical previous -> canonical current -> (forall x, x ∈ rm <-> x ∈ snd (topology_delta previous current)) ->
  apply_topology_update previous {| incremental := true; boards := fst (topology_delta previous current);
                                    removed := rm |} =
    (current, negb (bool_decide (previous = current))).
Proof.
  intros Hp Hc Hrm. pose proof (canonical_distinct _ Hp) as Dp. pose proof (canonical_distinct _ Hc) as Dc.
  pose proof (fun x => delta_changed previous current x Hp) as Hb.
  assert (forall x, sender_id x ∈ rm <-> sender_id x ∈ map sender_id previous /\ (sender_id x ∉ map sender_id current))
    as Hr by (intros x; rewrite Hrm; apply delta_removed).
  pose proof (apply_incremental previous {| incremental := true; boards := fst (topology_delta previous current);
    removed := rm |} Hp eq_refl (delta_canonical _ _ Hc)) as H.
  destruct (apply_topology_update _ _) as [l c] eqn:Ea. cbn [boards removed] in H. destruct H as (Hl & Hx & Hsame).
  assert (l = current) as ->.
  { apply (key_ascends_ext sender_id); [apply Hl|apply Hc|]. intros x. rewrite Hx, Hb, Hr. split.
    - intros [[? _]|(Hin & Hnb & Hnr)]; [done|].
      destruct (decide (sender_id x ∈ map sender_id current)) as [Hcur|Hn]; [|by destruct Hnr; auto using own_id].
      apply list_elem_of_fmap in Hcur as (y & Hy & Hyc). destruct (decide (y ∈ previous)) as [Hyp|Hyp].
      + by rewrite (same_key sender_id previous x y Dp Hin Hyp Hy).
      + destruct Hnb. rewrite Hy. by apply own_id, Hb.
    - intros Hin. destruct (decide (x ∈ previous)) as [Hxp|]; [|auto]. right. split; [done|]. split.
      + intros (y & Hy & [Hyc Hyn]%Hb)%list_elem_of_fmap. by rewrite (same_key sender_id current x y Dc Hin Hyc Hy) in Hxp.
      + intros [_ Hn]. by apply Hn, own_id. }
  f_equal. destruct c; [|by rewrite bool_decide_eq_true_2 by (symmetry; auto)].
  case_bool_decide as Heq; [|done]. exfalso. revert Ea. rewrite Heq in *.
  assert (fst (topology_delta current current) = []) as ->
    by (apply elem_of_nil_inv; intros x Hin; apply Hb in Hin; naive_solver).
  unfold apply_topology_update. cbn [incremental boards removed replace_boards foldl].
  rewrite filter_all; [by rewrite Nat.eqb_refl|]. apply Forall_forall. intros x Hin. left.
  apply bool_decide_eq_false. rewrite Hr. intros [_ Hn]. by apply Hn, own_id.
Qed.

(** The delta between two normalised graphs carries one exactly
    into the other: applying it to the first gives the second, and it counts as a
    change precisely when they differ. *)
Theorem topology_delta_roundtrip previous current :
  canonical previous -> canonical current ->
  apply_topology_update previous {| incremental := true; boards := fst (topology_delta previous current);
                                    removed := snd (topology_delta previous current) |} =
    (current, negb (bool_decide (previous = current))).
Proof. intros Hp Hc. by apply apply_delta. Qed.

(** A graph is the set of what it says, and merging is union.
    Merging any graph into another gives a normalised graph that says what either
    said, less the control endpoints and the links of a board to itself. *)
Theorem topology_merge_union dst src :
  canonical (merge_topology_boards dst src) /\
  forall f, facts (merge_topology_boards dst src) f <->
            (facts (keep_last dst) f \/ facts src f) /\ worth f.
Proof. split; [apply merge_canonical|]. intros f. apply facts_merge. Qed.

Lemma facts_foldl_merge views : forall own f,
  canonical own ->
  facts (foldl merge_topology_boards own views) f <->
  facts own f \/ (worth f /\ exists v, v ∈ views /\ facts v f).
Proof.
  induction views as [|v views IH]; intros own f Hown; cbn [foldl].
  - split; [auto|]. intros [|(_ & v & Hv & _)]; [done|by apply not_elem_of_nil in Hv].
  - rewrite IH by apply merge_canonical. rewrite facts_merge_canonical by done. setoid_rewrite elem_of_cons.
    naive_solver.
Qed.

Lemma foldl_merge_canonical views : forall own,
  canonical own -> canonical (foldl merge_topology_boards own views).
Proof. induction views as [|v views IH]; intros own Hown; [done|]. apply IH, merge_canonical. Qed.

(** C32: a board that merges the views its neighbours announce
    ends with the same graph whatever the order in which they arrive and however
    often each is repeated. *)
Theorem topology_converges own views1 views2 :
  canonical own -> (forall v, v ∈ views1 <-> v ∈ views2) ->
  foldl merge_topology_boards own views1 = foldl merge_topology_boards own views2.
Proof.
  intros Hown Hv. apply canonical_ext; try by apply foldl_merge_canonical.
  intros f. rewrite !facts_foldl_merge by done. setoid_rewrite Hv. done.
Qed.

(** ** Links and summaries *)

(** The links are the connections, each once, with the smaller name first. *)
Lemma topology_links_elem l s t :
  {| link_source := s; link_target := t |} ∈ topology_links_from_boards l <->
  klt s t /\ (facts l (FConnection s t) \/ facts l (FConnection t s)).
Proof.
  unfold topology_links_from_boards.
  rewrite vec_dedup_elem, (merge_sort_Permutation link_le), list_elem_of_In, in_concat.
  setoid_rewrite <- list_elem_of_In. split.
  - intros (ls & (b & -> & Hb)%list_elem_of_fmap & Hl).
    apply list_elem_of_fmap in Hl as (p & Hl & [Hp Hin]%list_elem_of_filter).
    unfold link_between in Hl. unfold klt.
    destruct (kcmp (sender_id b) p) eqn:E; simplify_eq; [rewrite kcmp_eq in E; congruence| |].
    + split; [done|]. left. exists b. by cbn.
    + split; [by rewrite kcmp_antisym, E|]. right. exists b. by cbn.
  - intros [Hlt Hf].
    assert (forall b p, b ∈ l -> p ∈ connections b -> p <> sender_id b ->
      link_between b p = {| link_source := s; link_target := t |} ->
      exists ls, ls ∈ map board_links l /\ {| link_source := s; link_target := t |} ∈ ls) as Hmk.
    { intros b p Hb Hp Hne He. exists (board_links b). split; [apply list_elem_of_fmap; eauto|].
      apply list_elem_of_fmap. exists p. split; [done|]. by apply list_elem_of_filter. }
    assert (s <> t) as Hst by (intros ->; by apply klt_irrefl in Hlt). unfold klt in Hlt.
    destruct Hf as [(b & Hb & <- & Hp)|(b & Hb & <- & Hp)].
    + apply (Hmk b t); try done. unfold link_between. by rewrite Hlt.
    + apply (Hmk b s); try done. unfold link_between. by rewrite kcmp_antisym, Hlt.
Qed.

Lemma summarize_fold {T} `{EqDecision T} (f : TopologyBoardNode -> list T) l : forall acc x,
  x ∈ foldl (fun acc b => push_missing acc (f b)) acc l <-> x ∈ acc \/ exists b, b ∈ l /\ x ∈ f b.
Proof.
  induction l as [|b l IH]; intros acc x; cbn [foldl].
  - split; [auto|]. intros [|(b & Hb & _)]; [done|by apply not_elem_of_nil in Hb].
  - rewrite IH, push_missing_elem. setoid_rewrite elem_of_cons. naive_solver.
Qed.

(** A summary lists, ascending, every application endpoint and time source that
    some board reaches. *)
Lemma summarize_spec l :
  let '(eps, sources) := summarize_topology_boards l in
  ascends eps /\ ascends sources /\
  (forall ep, ep ∈ eps <-> is_router_control_endpoint ep = false /\ exists id, facts l (FEndpoint id ep)) /\
  (forall s, s ∈ sources <-> exists id, facts l (FSource id s)).
Proof.
  unfold summarize_topology_boards, sort_dedup_strings. split_and!.
  - apply ascends_filter, sort_dedup_ascends.
  - apply sort_dedup_ascends.
  - intros ep. rewrite list_elem_of_filter, sort_dedup_elem, summarize_fold.
    setoid_rewrite list_elem_of_filter. unfold facts. cbn. split.
    + intros [Hep [Hn|(b & Hb & _ & Hin)]]; [by apply not_elem_of_nil in Hn|]. split; [done|]. by exists (sender_id b), b.
    + intros (Hep & id & b & Hb & _ & Hin). split; [done|]. right. eauto.
  - intros s. rewrite sort_dedup_elem, summarize_fold. unfold facts. cbn. split.
    + intros [Hn|(b & Hb & Hin)]; [by apply not_elem_of_nil in Hn|]. by exists (sender_id b), b.
    + intros (id & b & Hb & _ & Hin). right. eauto.
Qed.

(** ** Samples *)

Definition board (id : bytes) (eps : list Z) (srcs cons : list bytes) : TopologyBoardNode :=
  {| sender_id := id; reachable_endpoints := eps; reachable_timesync_sources := srcs; connections := cons |}.

Definition graph_a : list TopologyBoardNode := [board [65] [100; 102] [[7]] [[66]]; board [66] [101] [] [[65]]].
Definition graph_b : list TopologyBoardNode := [board [65] [100] [] [[66]; [67]]; board [67] [101] [] [[65]]].

Lemma graph_a_canonical : canonical graph_a.
Proof.
  replace graph_a with (normalize_topology_boards graph_a) by (vm_compute; reflexivity).
  apply normalize_canonical.
Qed.

Lemma graph_b_canonical : canonical graph_b.
Proof.
  replace graph_b with (normalize_topology_boards graph_b) by (vm_compute; reflexivity).
  apply normalize_canonical.
Qed.

Lemma topology_delta_roundtrip_witness :
  apply_topology_update graph_a {| incremental := true; boards := graph_b; removed := [[66]] |} = (graph_b, true).
Proof.
  pose proof (topology_delta_roundtrip graph_a graph_b graph_a_canonical graph_b_canonical) as H.
  replace (fst (topology_delta graph_a graph_b)) with graph_b in H by (vm_compute; reflexivity).
  replace (snd (topology_delta graph_a graph_b)) with [[66]] in H by (vm_compute; reflexivity).
  rewrite H. vm_compute. reflexivity.
Defined.

Lemma topology_converges_witness :
  foldl merge_topology_boards [] [graph_a; graph_b; graph_a] = foldl merge_topology_boards [] [graph_b; graph_a].
Proof.
  apply (topology_converges [] [graph_a; graph_b; graph_a] [graph_b; graph_a]).
  - repeat constructor.
  - intros v. rewrite !elem_of_cons. naive_solver.
Defined.
