(* ===== verification/Election.v ===== *)
(** * The election of the discovery master (src/src/discovery.rs)

    Every board elects the same board from the same topology: the one that reaches
    most boards, with the smallest eccentricity, then the smallest total distance,
    then the smallest name.  The distances come from a breadth-first search over
    indices, with [usize::MAX] for a node not reached. *)

From stdpp Require Import sorting gmap.
From S2P Require Import Prelude Schema SmallSort SortedList Topology.

Open Scope Z_scope.

(** ** The graph *)

Abbreviation Graph := (gmap (list Z) (list bytes)).

(** [nodes.entry(a).or_default()], and the same with a push. *)
Definition touch (a : bytes) (nodes : Graph) : Graph := <[a := default [] (nodes !! a)]> nodes.
Definition push_peer (a b : bytes) (nodes : Graph) : Graph := <[a := default [] (nodes !! a) ++ [b]]> nodes.

Definition add_board (nodes : Graph) (b : TopologyBoardNode) : Graph :=
  foldl (fun nodes peer => push_peer (sender_id b) peer (push_peer peer (sender_id b) nodes))
    (touch (sender_id b) nodes) (connections b).

Definition board_graph (local : bytes) (boards : list TopologyBoardNode) : Graph :=
  sort_dedup <$> touch local (foldl add_board ∅ boards).

(** [nodes.keys()]: the names in order. *)
Definition graph_names (nodes : Graph) : list bytes := merge_sort kle (map fst (map_to_list nodes)).

(** [names.binary_search(&peer)] on the ordered names. *)
Definition index_of (names : list bytes) (peer : bytes) : option nat :=
  fst <$> list_find (fun n => n = peer) names.

Definition neighbours (nodes : Graph) (names : list bytes) (i : nat) : list nat :=
  match names !! i with
  | Some name => omap (index_of names) (default [] (nodes !! name))
  | None => []
  end.

(** ** Breadth-first search *)

Section Bfs.
Context (adj : nat -> list nat).

(** One neighbour of a node at distance [d]. *)
Definition relax (d : Z) (acc : list Z * list nat) (j : nat) : list Z * list nat :=
  let '(dist, frontier) := acc in
  match dist !! j with
  | Some x => if x =? usize_max then (<[j := d + 1]> dist, frontier ++ [j]) else (dist, frontier)
  | None => (dist, frontier)
  end.

Fixpoint bfs_loop (fuel idx : nat) (dist : list Z) (frontier : list nat) : list Z * list nat :=
  match fuel with
  | O => (dist, frontier)
  | S fuel =>
      match frontier !! idx with
      | None => (dist, frontier)
      | Some cur =>
          let d := default 0 (dist !! cur) in
          let '(dist, frontier) := foldl (relax d) (dist, frontier) (adj cur) in
          bfs_loop fuel (S idx) dist frontier
      end
  end.

(** Every index enters the frontier at most once: [n] rounds are enough. *)
Definition bfs (n source : nat) : list Z * list nat :=
  bfs_loop (S n) 0 (<[source := 0]> (replicate n usize_max)) [source].
End Bfs.

(** ** The election *)

Record Score : Type := { sc_sender : bytes; sc_unreachable : Z; sc_max_hops : Z; sc_total_hops : Z }.

(** [reachable.sum()] is below the square of the number of names, so that it fits a
    [usize] for fewer than 2^32 of them, which the theorems assume. *)
Definition score_of (nodes : Graph) (names : list bytes) (i : nat) (sender : bytes) : Score :=
  let '(dist, frontier) := bfs (neighbours nodes names) (length names) i in
  let reachable := filter (fun d => d <> usize_max) dist in
  {| sc_sender := sender; sc_unreachable := sat_sub (zlen names) (zlen frontier);
     sc_max_hops := foldr Z.max 0 reachable; sc_total_hops := foldr Z.add 0 reachable |}.

(** The comparison of the candidate with the best so far. *)
Definition better (c best : Score) : bool :=
  (sc_unreachable c <? sc_unreachable best)
  || ((sc_unreachable c =? sc_unreachable best) && (sc_max_hops c <? sc_max_hops best))
  || ((sc_unreachable c =? sc_unreachable best) && (sc_max_hops c =? sc_max_hops best)
      && (sc_total_hops c <? sc_total_hops best))
  || ((sc_unreachable c =? sc_unreachable best) && (sc_max_hops c =? sc_max_hops best)
      && (sc_total_hops c =? sc_total_hops best) && kltb (sc_sender c) (sc_sender best)).

Definition elect_discovery_master (local_sender : bytes) (boards : list TopologyBoardNode) : bytes :=
  let nodes := board_graph local_sender boards in
  let names := graph_names nodes in
  sc_sender (foldl (fun best c => if better c best then c else best)
    {| sc_sender := local_sender; sc_unreachable := usize_max; sc_max_hops := usize_max;
       sc_total_hops := usize_max |}
    (imap (score_of nodes names) names)).

(** ** Distances *)

(** A walk of [k] steps along a relation. *)
Inductive walk {A} (edge : A -> A -> Prop) : nat -> A -> A -> Prop :=
| walk_here x : walk edge 0 x x
| walk_step k x y z : walk edge k x y -> edge y z -> walk edge (S k) x z.

(** [d] is the distance, the length of a shortest walk. *)
Definition distance {A} (edge : A -> A -> Prop) (x y : A) (d : nat) : Prop :=
  walk edge d x y /\ forall k, walk edge k x y -> (d <= k)%nat.

Section BfsProof.
Context (adj : nat -> list nat) (n source : nat).
Hypothesis in_range : forall i j, j ∈ adj i -> (j < n)%nat.
Hypothesis source_in : (source < n)%nat.
Hypothesis size_fits : Z.of_nat n <= usize_max.

Abbreviation edge := (fun i j => j ∈ adj i).

(** [dist] gives the frontier its distances, in order; a node's distance is no
    larger than its position. *)
Record searching (dist : list Z) (frontier : list nat) : Prop := {
  se_len : length dist = n;
  se_nodup : NoDup frontier;
  se_range : forall j, j ∈ frontier -> (j < n)%nat;
  se_seen : forall j, (j < n)%nat -> (dist !! j <> Some usize_max <-> j ∈ frontier);
  se_walk : forall j, j ∈ frontier -> exists k, dist !! j = Some (Z.of_nat k) /\ walk edge k source j;
  se_order : forall a b i j x y, frontier !! a = Some i -> frontier !! b = Some j -> (a <= b)%nat ->
    dist !! i = Some x -> dist !! j = Some y -> x <= y;
  se_pos : forall a i x, frontier !! a = Some i -> dist !! i = Some x -> x <= Z.of_nat a;
  se_source : frontier !! 0%nat = Some source /\ dist !! source = Some 0;
}.

(** Every node before [idx] has its neighbours in the frontier. *)
Definition expanded (idx : nat) (dist : list Z) (frontier : list nat) : Prop :=
  forall a i x j, (a < idx)%nat -> frontier !! a = Some i -> dist !! i = Some x -> j ∈ adj i ->
    j ∈ frontier /\ exists y, dist !! j = Some y /\ y <= x + 1.

(** No node of the frontier is further than one step beyond [d]. *)
Definition within (d : Z) (dist : list Z) (frontier : list nat) : Prop :=
  forall j y, j ∈ frontier -> dist !! j = Some y -> y <= d + 1.

(** The search only adds. *)
Definition grows (dist : list Z) (frontier : list nat) (dist' : list Z) (frontier' : list nat) : Prop :=
  frontier `prefix_of` frontier' /\ forall j, j ∈ frontier -> dist' !! j = dist !! j.

Lemma grows_refl dist frontier : grows dist frontier dist frontier.
Proof. by split. Qed.

Lemma grows_elem dist f dist' f' j : grows dist f dist' f' -> j ∈ f -> j ∈ f'.
Proof. intros [[k ->] _] Hj. apply elem_of_app. by left. Qed.

Lemma grows_trans d1 f1 d2 f2 d3 f3 : grows d1 f1 d2 f2 -> grows d2 f2 d3 f3 -> grows d1 f1 d3 f3.
Proof.
  intros H12 H23. split; [etrans; [apply H12|apply H23]|]. intros j Hj.
  rewrite (proj2 H23) by (by eapply grows_elem). by apply (proj2 H12).
Qed.

Lemma frontier_small dist frontier : searching dist frontier -> (length frontier <= n)%nat.
Proof.
  intros H. rewrite <- (length_seq n 0). apply submseteq_length, NoDup_submseteq; [apply H|].
  intros j Hj. apply elem_of_seq. pose proof (se_range _ _ H j Hj). lia.
Qed.

Lemma relax_step idx cur d dist frontier j :
  searching dist frontier -> within d dist frontier ->
  frontier !! idx = Some cur -> dist !! cur = Some d -> j ∈ adj cur ->
  let '(dist', frontier') := relax d (dist, frontier) j in
  searching dist' frontier' /\ within d dist' frontier' /\ grows dist frontier dist' frontier' /\
  j ∈ frontier' /\ exists y, dist' !! j = Some y /\ y <= d + 1.
Proof.
  intros Hs Hw Hc Hd Hj. pose proof (in_range _ _ Hj) as Hjn. unfold relax.
  pose proof Hs as [H1 H2 H3 H4 H5 H6 H7 H8].
  destruct (lookup_lt_is_Some_2 dist j) as [x Hx]; [lia|]. rewrite Hx.
  destruct (x =? usize_max) eqn:E; bool_to_prop.
  2: { assert (j ∈ frontier) as Hin by (apply H4; [done|congruence]).
       split_and!; try done. exists x. split; [done|]. by eapply Hw. }
  subst x. assert (j ∉ frontier) as Hnot by (rewrite <- H4 by done; intros Hne; by apply Hne).
  assert (forall i, i ∈ frontier -> <[j := d + 1]> dist !! i = dist !! i) as Hold
    by (intros i Hi; apply list_lookup_insert_ne; intros ->; done).
  assert (<[j := d + 1]> dist !! j = Some (d + 1)) as Hnew by (apply list_lookup_insert_eq; lia).
  assert (cur ∈ frontier) as Hcur by (by apply list_elem_of_lookup_2 in Hc).
  pose proof (lookup_lt_Some _ _ _ Hc) as Hci. pose proof (H7 _ _ _ Hc Hd) as Hdpos.
  assert (forall a i, (frontier ++ [j]) !! a = Some i ->
            (frontier !! a = Some i /\ i ∈ frontier) \/ (a = length frontier /\ i = j)) as Hat.
  { intros a i [Ha|[Ha Hl]]%lookup_app_Some; [left; split; [done|by apply list_elem_of_lookup_2 in Ha]|].
    apply list_lookup_singleton_Some in Hl as [Hz <-]. right. split; [lia|done]. }
  assert (d + 1 <= usize_max - 1 \/ d + 1 < usize_max) as Hfit.
  { pose proof (frontier_small _ _ Hs). destruct (decide (length frontier = n)) as [Hfull|]; [|right; lia].
    exfalso. apply Hnot. assert (seq 0 n ⊆+ frontier) as Hsub.
    { apply Permutation_submseteq. symmetry. apply submseteq_length_Permutation; [|rewrite length_seq; lia].
      apply NoDup_submseteq; [done|]. intros i Hi. apply elem_of_seq. pose proof (H3 i Hi). lia. }
    eapply elem_of_submseteq; [|exact Hsub]. apply elem_of_seq. lia. }
  split; [|split; [|split; [|split]]].
  - constructor.
    + by rewrite length_insert.
    + apply NoDup_app. split; [done|]. split; [|apply NoDup_singleton].
      intros i Hi ->%list_elem_of_singleton. done.
    + intros i [Hi| ->%list_elem_of_singleton]%elem_of_app; [by apply H3|done].
    + intros i Hi. rewrite elem_of_app, list_elem_of_singleton. destruct (decide (i = j)) as [->|Hne].
      * rewrite Hnew. split; [by right|]. intros _ [= He]. lia.
      * rewrite list_lookup_insert_ne by done. rewrite H4 by done. naive_solver.
    + intros i [Hi| ->%list_elem_of_singleton]%elem_of_app.
      * destruct (H5 i Hi) as (k & Hk & Hwalk). exists k. by rewrite Hold.
      * destruct (H5 cur Hcur) as (k & Hk & Hwalk). rewrite Hd in Hk. injection Hk as ->.
        exists (S k). split; [rewrite Hnew; f_equal; lia|]. by eapply walk_step.
    + intros a b i i' y z Ha Hb Hab Hy Hz. apply Hat in Ha as [[Ha Hi]|[-> ->]], Hb as [[Hb Hi']|[-> ->]].
      * rewrite Hold in Hy, Hz by done. eapply (H6 a b); done.
      * rewrite Hold in Hy by done. rewrite Hnew in Hz. injection Hz as <-. by eapply Hw.
      * apply lookup_lt_Some in Hb. lia.
      * rewrite Hy in Hz. injection Hz as ->. lia.
    + intros a i y Ha Hy. apply Hat in Ha as [[Ha Hi]|[-> ->]].
      * rewrite Hold in Hy by done. by eapply H7.
      * rewrite Hnew in Hy. injection Hy as <-. lia.
    + destruct H8 as [H80 H81]. split; [by apply lookup_app_l_Some|]. rewrite Hold; [done|].
      by apply list_elem_of_lookup_2 in H80.
  - intros i y [Hi| ->%list_elem_of_singleton]%elem_of_app Hy.
    + rewrite Hold in Hy by done. by eapply Hw.
    + rewrite Hnew in Hy. injection Hy as <-. lia.
  - split; [by apply prefix_app_r|done].
  - apply elem_of_app. right. apply list_elem_of_here.
  - exists (d + 1). split; [done|lia].
Qed.

Lemma relax_all idx cur d l : forall dist frontier,
  searching dist frontier -> within d dist frontier ->
  frontier !! idx = Some cur -> dist !! cur = Some d -> (forall j, j ∈ l -> j ∈ adj cur) ->
  let '(dist', frontier') := foldl (relax d) (dist, frontier) l in
  searching dist' frontier' /\ within d dist' frontier' /\ grows dist frontier dist' frontier' /\
  forall j, j ∈ l -> j ∈ frontier' /\ exists y, dist' !! j = Some y /\ y <= d + 1.
Proof.
  induction l as [|j l IH]; intros dist frontier Hs Hw Hc Hd Hl; cbn [foldl].
  { split_and!; try done. intros j Hj. by apply not_elem_of_nil in Hj. }
  pose proof (relax_step idx cur d dist frontier j Hs Hw Hc Hd (Hl j (list_elem_of_here _ _))) as Hr.
  destruct (relax d (dist, frontier) j) as [d1 f1]. destruct Hr as (Hs1 & Hw1 & Hg1 & Hj1 & Hy1).
  assert (f1 !! idx = Some cur) as Hc1 by (destruct Hg1 as [[k ->] _]; by apply lookup_app_l_Some).
  assert (d1 !! cur = Some d) as Hd1
    by (rewrite (proj2 Hg1); [done|by apply list_elem_of_lookup_2 in Hc]).
  pose proof (IH d1 f1 Hs1 Hw1 Hc1 Hd1 (fun i Hi => Hl i (list_elem_of_further _ _ _ Hi))) as H.
  destruct (foldl (relax d) (d1, f1) l) as [d2 f2]. destruct H as (Hs2 & Hw2 & Hg2 & Hall).
  split; [done|]. split; [done|]. split; [by eapply grows_trans|].
  intros i [-> |Hi]%elem_of_cons; [|auto]. split; [by eapply grows_elem|].
  destruct Hy1 as (y & Hy & Hle). exists y. by rewrite (proj2 Hg2).
Qed.

(** The loop ends with every node of the frontier expanded. *)
Lemma bfs_loop_spec fuel : forall idx dist frontier,
  searching dist frontier -> expanded idx dist frontier ->
  (forall cur d, frontier !! idx = Some cur -> dist !! cur = Some d -> within d dist frontier) ->
  (n < fuel + idx)%nat ->
  let '(dist', frontier') := bfs_loop adj fuel idx dist frontier in
  searching dist' frontier' /\ expanded (length frontier') dist' frontier'.
Proof.
  induction fuel as [|fuel IH]; intros idx dist frontier Hs He Hw Hf; cbn [bfs_loop].
  { split; [done|]. intros a i x j Ha. apply He. pose proof (frontier_small _ _ Hs). lia. }
  destruct (frontier !! idx) as [cur|] eqn:Hc.
  2: { apply lookup_ge_None in Hc. split; [done|]. intros a i x j Ha. apply He. lia. }
  pose proof (list_elem_of_lookup_2 _ _ _ Hc) as Hcur.
  destruct (se_walk _ _ Hs cur Hcur) as (k & Hk & _). rewrite Hk. cbn [default].
  pose proof (relax_all idx cur (Z.of_nat k) (adj cur) dist frontier Hs (Hw cur _ eq_refl Hk) Hc Hk
                (fun _ H => H)) as Hr.
  destruct (foldl _ (dist, frontier) (adj cur)) as [d1 f1]. destruct Hr as (Hs1 & Hw1 & Hg1 & Hall).
  assert (f1 !! idx = Some cur) as Hc1 by (destruct Hg1 as [[f ->] _]; by apply lookup_app_l_Some).
  assert (d1 !! cur = Some (Z.of_nat k)) as Hd1 by (by rewrite (proj2 Hg1)).
  apply IH; [done| | |lia].
  - intros a i x j Ha Hi Hx Hj. destruct (decide (a = idx)) as [-> |Hne].
    + rewrite Hc1 in Hi. injection Hi as <-. rewrite Hd1 in Hx. injection Hx as <-. by apply Hall.
    + pose proof (lookup_lt_Some _ _ _ Hc) as Hidx.
      destruct (lookup_lt_is_Some_2 frontier a) as [i' Hi']; [lia|].
      assert (f1 !! a = Some i') as Hi1 by (destruct Hg1 as [[f ->] _]; by apply lookup_app_l_Some).
      rewrite Hi in Hi1. injection Hi1 as <-. pose proof (list_elem_of_lookup_2 _ _ _ Hi') as Hin.
      rewrite (proj2 Hg1) in Hx by done. destruct (He a i x j ltac:(lia) Hi' Hx Hj) as (Hjf & y & Hy & Hle).
      split; [by eapply grows_elem|]. exists y. by rewrite (proj2 Hg1).
  - intros c d Hc' Hd j y Hj Hy.
    pose proof (se_order _ _ Hs1 idx (S idx) cur c _ _ Hc1 Hc' ltac:(lia) Hd1 Hd).
    pose proof (Hw1 j y Hj Hy). lia.
Qed.

Lemma bfs_start : searching (<[source := 0]> (replicate n usize_max)) [source].
Proof.
  assert (<[source := 0]> (replicate n usize_max) !! source = Some 0) as H0
    by (apply list_lookup_insert_eq; by rewrite length_replicate).
  assert (forall a i, [source] !! a = Some i -> a = 0%nat /\ i = source) as Hat
    by (intros a i [-> ->]%list_lookup_singleton_Some; done).
  constructor.
  - by rewrite length_insert, length_replicate.
  - apply NoDup_singleton.
  - intros j ->%list_elem_of_singleton. done.
  - intros j Hj. rewrite list_elem_of_singleton. destruct (decide (j = source)) as [-> |Hne].
    + rewrite H0. split; [done|]. intros _ [= He].
    + rewrite list_lookup_insert_ne by done. rewrite lookup_replicate_2 by done. split; [|done]. by intros [].
  - intros j ->%list_elem_of_singleton. exists 0%nat. split; [done|constructor].
  - intros a b i j x y [-> ->]%Hat [-> ->]%Hat _ Hx Hy. rewrite Hx in Hy. injection Hy as ->. lia.
  - intros a i x [-> ->]%Hat Hx. rewrite H0 in Hx. injection Hx as <-. lia.
  - split; done.
Qed.

(** Breadth-first search finds every distance, and reaches exactly the nodes that
    have one. *)
Lemma bfs_correct :
  let '(dist, frontier) := bfs adj n source in
  length dist = n /\ NoDup frontier /\ (forall j, j ∈ frontier -> (j < n)%nat) /\
  forall j, (j < n)%nat ->
    (j ∈ frontier <-> exists k, walk edge k source j) /\
    (j ∈ frontier -> exists d, distance edge source j d /\ dist !! j = Some (Z.of_nat d)) /\
    (dist !! j <> Some usize_max <-> j ∈ frontier).
Proof.
  unfold bfs.
  pose proof (bfs_loop_spec (S n) 0 _ _ bfs_start) as H.
  destruct (bfs_loop adj (S n) 0 _ [source]) as [dist frontier]. destruct H as [Hs He].
  - intros a i x j Ha. lia.
  - intros c d Hc Hd j y Hj Hy. apply list_lookup_singleton_Some in Hc as [_ <-].
    apply list_elem_of_singleton in Hj as ->. rewrite Hd in Hy. injection Hy as ->. lia.
  - lia.
  - assert (forall k j, walk edge k source j -> j ∈ frontier /\ exists y, dist !! j = Some y /\ y <= Z.of_nat k) as Hreach.
    { induction k as [|k IH]; intros j Hwalk; inversion Hwalk as [|k' x y z Hw Hedge]; subst.
      - destruct (se_source _ _ Hs) as [H0 H1]. split; [by apply list_elem_of_lookup_2 in H0|].
        exists 0. split; [done|lia].
      - destruct (IH _ Hw) as (Hin & x & Hx & Hle). apply list_elem_of_lookup in Hin as [a Ha].
        destruct (He a y x j (lookup_lt_Some _ _ _ Ha) Ha Hx Hedge) as (Hj & z & Hz & Hzle).
        split; [done|]. exists z. split; [done|lia]. }
    split; [apply Hs|]. split; [apply Hs|]. split; [apply Hs|]. intros j Hj.
    split; [|split; [|by apply Hs]].
    + split; [|by intros (k & Hk%Hreach); apply Hk]. intros Hin.
      destruct (se_walk _ _ Hs j Hin) as (k & _ & Hk). eauto.
    + intros Hin. destruct (se_walk _ _ Hs j Hin) as (k & Hk & Hwalk). exists k. split; [|done].
      split; [done|]. intros k' (_ & y & Hy & Hle)%Hreach. rewrite Hk in Hy. injection Hy as <-. lia.
Qed.
End BfsProof.

(** ** The graph of the boards *)

Definition has_node (nodes : Graph) (x : bytes) : Prop := is_Some (nodes !! x).
Definition has_edge (nodes : Graph) (x y : bytes) : Prop := exists l, nodes !! x = Some l /\ y ∈ l.

(** Two boards are linked when either lists the other. *)
Definition linked (boards : list TopologyBoardNode) (x y : bytes) : Prop :=
  exists b, b ∈ boards /\ ((sender_id b = x /\ y ∈ connections b) \/ (sender_id b = y /\ x ∈ connections b)).

Definition on_map (boards : list TopologyBoardNode) (x : bytes) : Prop :=
  exists b, b ∈ boards /\ (sender_id b = x \/ x ∈ connections b).

Lemma touch_node a nodes x : has_node (touch a nodes) x <-> x = a \/ has_node nodes x.
Proof.
  unfold has_node, touch. destruct (decide (a = x)) as [-> |Hne].
  - rewrite lookup_insert_eq. split; [by left|]. intros _. eauto.
  - rewrite lookup_insert_ne by done. naive_solver.
Qed.

Lemma touch_edge a nodes x y : has_edge (touch a nodes) x y <-> has_edge nodes x y.
Proof.
  unfold has_edge, touch. destruct (decide (a = x)) as [-> |Hne]; [|by rewrite lookup_insert_ne].
  rewrite lookup_insert_eq. destruct (nodes !! x) as [l|]; cbn.
  - naive_solver.
  - split; [intros (l & [= <-] & Hy); by apply not_elem_of_nil in Hy|by intros (l & ? & _)].
Qed.

Lemma push_node a b nodes x : has_node (push_peer a b nodes) x <-> x = a \/ has_node nodes x.
Proof.
  unfold has_node, push_peer. destruct (decide (a = x)) as [-> |Hne].
  - rewrite lookup_insert_eq. split; [by left|]. intros _. eauto.
  - rewrite lookup_insert_ne by done. naive_solver.
Qed.

Lemma push_edge a b nodes x y :
  has_edge (push_peer a b nodes) x y <-> (x = a /\ y = b) \/ has_edge nodes x y.
Proof.
  unfold has_edge, push_peer. destruct (decide (a = x)) as [-> |Hne].
  2: { rewrite lookup_insert_ne by done. naive_solver. }
  rewrite lookup_insert_eq. destruct (nodes !! x) as [l|]; cbn.
  - split; [intros (l' & [= <-] & [Hy|Hy%list_elem_of_singleton]%elem_of_app); eauto|].
    intros [[_ ->]|(l' & [= <-] & Hy)]; eexists; (split; [done|]); rewrite elem_of_app, list_elem_of_singleton; auto.
  - split; [intros (l' & [= <-] & Hy%list_elem_of_singleton); auto|].
    intros [[_ ->]|(l' & ? & _)]; [|done]. eexists. split; [done|]. apply list_elem_of_here.
Qed.

Lemma add_peers_spec id x y peers : forall nodes,
  has_node nodes id ->
  let g := foldl (fun nodes peer => push_peer id peer (push_peer peer id nodes)) nodes peers in
  (has_node g x <-> x ∈ peers \/ has_node nodes x) /\
  (has_edge g x y <-> (x = id /\ y ∈ peers) \/ (y = id /\ x ∈ peers) \/ has_edge nodes x y).
Proof.
  induction peers as [|p l IH]; intros nodes Hid; cbn [foldl].
  - setoid_rewrite elem_of_nil. naive_solver.
  - destruct (IH (push_peer id p (push_peer p id nodes))) as [-> ->].
    { rewrite !push_node. auto. }
    rewrite !push_node, !push_edge, !elem_of_cons. naive_solver.
Qed.

Lemma add_board_spec nodes b x y :
  (has_node (add_board nodes b) x <-> x = sender_id b \/ x ∈ connections b \/ has_node nodes x) /\
  (has_edge (add_board nodes b) x y <->
     (x = sender_id b /\ y ∈ connections b) \/ (y = sender_id b /\ x ∈ connections b) \/ has_edge nodes x y).
Proof.
  unfold add_board. destruct (add_peers_spec (sender_id b) x y (connections b) (touch (sender_id b) nodes)) as [-> ->].
  { apply touch_node. by left. }
  rewrite touch_node, touch_edge. naive_solver.
Qed.

Lemma add_boards_spec boards x y : forall nodes,
  (has_node (foldl add_board nodes boards) x <-> on_map boards x \/ has_node nodes x) /\
  (has_edge (foldl add_board nodes boards) x y <-> linked boards x y \/ has_edge nodes x y).
Proof.
  unfold on_map, linked. induction boards as [|b boards IH]; intros nodes; cbn [foldl].
  - setoid_rewrite elem_of_nil. naive_solver.
  - destruct (IH (add_board nodes b)) as [-> ->]. destruct (add_board_spec nodes b x y) as [-> ->].
    setoid_rewrite elem_of_cons. naive_solver.
Qed.

Lemma board_graph_spec local boards x y :
  (has_node (board_graph local boards) x <-> x = local \/ on_map boards x) /\
  (has_edge (board_graph local boards) x y <-> linked boards x y).
Proof.
  unfold board_graph.
  assert (forall (g : Graph), (has_node (sort_dedup <$> g) x <-> has_node g x) /\
                              (has_edge (sort_dedup <$> g) x y <-> has_edge g x y)) as Hmap.
  { intros g. unfold has_node, has_edge. rewrite lookup_fmap. destruct (g !! x) as [l|]; cbn.
    - split; [split; eauto|]. split; intros (l' & [= <-] & Hy); eexists; (split; [done|]);
        by rewrite ?sort_dedup_elem in *.
    - split; [done|]. split; by intros (l' & ? & _). }
  destruct (Hmap (touch local (foldl add_board ∅ boards))) as [-> ->]. rewrite touch_node, touch_edge.
  destruct (add_boards_spec boards x y ∅) as [-> ->]. unfold has_node, has_edge. rewrite lookup_empty.
  naive_solver.
Qed.

(** The graph depends on what the boards state only. *)
Lemma board_graph_ext l1 l2 b1 b2 :
  (forall x, x = l1 \/ on_map b1 x <-> x = l2 \/ on_map b2 x) ->
  (forall x y, linked b1 x y <-> linked b2 x y) ->
  board_graph l1 b1 = board_graph l2 b2.
Proof.
  intros Hn He. apply map_eq. intros x.
  pose proof (proj1 (board_graph_spec l1 b1 x x)) as N1. pose proof (proj1 (board_graph_spec l2 b2 x x)) as N2.
  pose proof (fun y => proj2 (board_graph_spec l1 b1 x y)) as E1.
  pose proof (fun y => proj2 (board_graph_spec l2 b2 x y)) as E2.
  rewrite Hn, <- N2 in N1. unfold has_node, has_edge in *.
  assert (forall l b s, board_graph l b !! x = Some s -> exists p, s = sort_dedup p) as Hsd.
  { intros l b s. unfold board_graph. rewrite lookup_fmap. intros (p & _ & ->)%fmap_Some. eauto. }
  destruct (board_graph l1 b1 !! x) as [s1|] eqn:G1, (board_graph l2 b2 !! x) as [s2|] eqn:G2; try done.
  - destruct (Hsd _ _ _ G1) as [p1 ->], (Hsd _ _ _ G2) as [p2 ->]. f_equal.
    apply ascends_ext; try apply sort_dedup_ascends. intros y.
    specialize (E1 y). specialize (E2 y). rewrite He, <- E2 in E1. naive_solver.
  - by destruct N1 as [[? ?] _].
  - by destruct N1 as [_ [? ?]].
Qed.

(** ** Names and indices *)

Lemma graph_names_ascend nodes : ascends (graph_names nodes).
Proof.
  unfold graph_names. assert (NoDup (map fst (map_to_list nodes))) as Hn by apply NoDup_fst_map_to_list.
  assert (StronglySorted kle (merge_sort kle (map fst (map_to_list nodes)))) as Hs
    by (apply StronglySorted_merge_sort; apply _).
  rewrite <- (merge_sort_Permutation kle (map fst (map_to_list nodes))) in Hn.
  induction Hs as [|x l Hs IH Hf]; [constructor|]. apply NoDup_cons in Hn as [Hx Hn].
  constructor; [auto|]. rewrite Forall_forall in Hf |- *. intros y Hy.
  destruct (proj1 (kle_cases x y) (Hf y Hy)) as [?| ->]; done.
Qed.

Lemma graph_names_elem nodes x : x ∈ graph_names nodes <-> has_node nodes x.
Proof.
  unfold graph_names, has_node. rewrite (merge_sort_Permutation kle). split.
  - intros ([k l] & -> & H)%list_elem_of_fmap. apply elem_of_map_to_list in H. cbn. rewrite H. eauto.
  - intros [l H]. apply list_elem_of_fmap. exists (x, l). split; [done|]. by apply elem_of_map_to_list.
Qed.

Lemma name_index_spec names y j : NoDup names -> index_of names y = Some j <-> names !! j = Some y.
Proof.
  intros Hn. unfold index_of. split.
  - intros ([j' y'] & H & [= ->])%fmap_Some. apply list_find_Some in H as (H & -> & _). done.
  - intros H. destruct (list_find _ names) as [[j' y']|] eqn:E.
    + cbn. apply list_find_Some in E as (E & -> & _). f_equal. by eapply NoDup_lookup.
    + apply list_find_None in E. rewrite Forall_forall in E.
      apply list_elem_of_lookup_2 in H. by apply E in H.
Qed.

(** ** Scores *)

(** What the score of a candidate means: [reach] are the nodes it has a walk to. *)
Definition is_score (edge : bytes -> bytes -> Prop) (names : list bytes) (x : bytes) (s : Score) : Prop :=
  exists reach hops, NoDup reach /\
    (forall y, y ∈ reach <-> y ∈ names /\ exists k, walk edge k x y) /\
    Forall2 (distance edge x) reach hops /\
    sc_sender s = x /\ sc_unreachable s = zlen names - zlen reach /\
    sc_max_hops s = Z.of_nat (foldr Nat.max 0%nat hops) /\
    sc_total_hops s = Z.of_nat (foldr Nat.add 0%nat hops).

Section ScoreProof.
Context (nodes : Graph) (names : list bytes).
Hypothesis names_nodup : NoDup names.
Hypothesis names_nodes : forall x, x ∈ names <-> has_node nodes x.
Hypothesis edges_nodes : forall x y, has_edge nodes x y -> has_node nodes x /\ has_node nodes y.
Hypothesis names_fit : zlen names <= usize_max.

Lemma neighbours_spec i j :
  j ∈ neighbours nodes names i <->
  exists x y, names !! i = Some x /\ names !! j = Some y /\ has_edge nodes x y.
Proof.
  unfold neighbours. destruct (names !! i) as [x|]; [|split; [intros H; by apply not_elem_of_nil in H|naive_solver]].
  rewrite list_elem_of_omap. split.
  - intros (y & Hy & Hj%name_index_spec); [|done]. exists x, y. split_and!; try done.
    unfold has_edge. destruct (nodes !! x) as [l|]; [by exists l|by apply not_elem_of_nil in Hy].
  - intros (x' & y & [= <-] & Hj & (l & Hl & Hy)). exists y. rewrite Hl. split; [done|]. by apply name_index_spec.
Qed.

Lemma neighbours_range i j : j ∈ neighbours nodes names i -> (j < length names)%nat.
Proof. intros (x & y & _ & Hy & _)%neighbours_spec. by apply lookup_lt_Some in Hy. Qed.

Lemma walk_names k i j x y :
  names !! i = Some x -> names !! j = Some y ->
  walk (fun i j => j ∈ neighbours nodes names i) k i j <-> walk (has_edge nodes) k x y.
Proof.
  intros Hi. revert j y. induction k as [|k IH]; intros j y Hj.
  - split; intros Hw; inversion Hw; subst.
    + assert (x = y) as -> by congruence. constructor.
    + assert (i = j) as -> by (by eapply NoDup_lookup). constructor.
  - split; intros Hw; inversion Hw as [|k' a b c Hk He]; subst.
    + apply neighbours_spec in He as (u & v & Hu & Hv & He). rewrite Hj in Hv. injection Hv as <-.
      econstructor; [|exact He]. by eapply IH.
    + destruct (edges_nodes _ _ He) as [Hb _]. apply names_nodes, list_elem_of_lookup in Hb as [m Hm].
      econstructor; [by eapply (IH m b Hm)|]. apply neighbours_spec. eauto.
Qed.

Lemma distance_names i j x y d :
  names !! i = Some x -> names !! j = Some y ->
  distance (fun i j => j ∈ neighbours nodes names i) i j d <-> distance (has_edge nodes) x y d.
Proof.
  intros Hi Hj. unfold distance. rewrite (walk_names d i j x y Hi Hj).
  setoid_rewrite (fun k => walk_names k i j x y Hi Hj). done.
Qed.


(** The values of a list that satisfy [P], by their indices. *)
Lemma filter_by_index (P : Z -> Prop) `{forall d, Decision (P d)} (l : list Z) :
  filter P l = map (fun j => default 0 (l !! j)) (filter (fun j => P (default 0 (l !! j))) (seq 0 (length l))).
Proof.
  induction l as [|d l IH] using rev_ind; [done|].
  rewrite filter_app, length_app, Nat.add_1_r, seq_S, filter_app, map_app. cbn [Nat.add].
  assert (forall j, j ∈ seq 0 (length l) -> (l ++ [d]) !! j = l !! j) as Hj
    by (intros j Hj%elem_of_seq; apply lookup_app_l; lia).
  f_equal.
  - rewrite IH. generalize dependent (seq 0 (length l)). intros js _ Hj.
    induction js as [|j js IHj]; [done|]. rewrite !filter_cons, (Hj j) by (by left).
    assert (forall i, i ∈ js -> (l ++ [d]) !! i = l !! i) as Hj' by (intros i Hi; apply Hj; by right).
    case_decide; cbn [map]; rewrite ?(Hj j) by (by left); [f_equal|]; by apply IHj.
  - assert (default 0 ((l ++ [d]) !! length l) = d) as E by (by rewrite lookup_app_r, Nat.sub_diag by lia).
    rewrite !filter_cons, !filter_nil. destruct (decide (P d)) as [Hp|Hp].
    + rewrite decide_True by (by rewrite E). cbn [map]. by rewrite E.
    + by rewrite decide_False by (by rewrite E).
Qed.

Lemma foldr_max_nat (hops : list nat) : foldr Z.max 0 (map Z.of_nat hops) = Z.of_nat (foldr Nat.max 0%nat hops).
Proof. induction hops as [|h l IH]; cbn; [done|]. rewrite IH. lia. Qed.

Lemma foldr_add_nat (hops : list nat) : foldr Z.add 0 (map Z.of_nat hops) = Z.of_nat (foldr Nat.add 0%nat hops).
Proof. induction hops as [|h l IH]; cbn; [done|]. rewrite IH. lia. Qed.

(** Distances along a list of indices. *)
Lemma hops_of (P : nat -> nat -> Prop) js (val : nat -> Z) :
  (forall j, j ∈ js -> exists d, P j d /\ val j = Z.of_nat d) ->
  exists hops, Forall2 P js hops /\ map val js = map Z.of_nat hops.
Proof.
  induction js as [|j js IH]; intros H; [by exists []|].
  destruct (H j (list_elem_of_here _ _)) as (d & Hd & Hv).
  destruct IH as (hops & Hf & Hm); [intros i Hi; apply H; by right|].
  exists (d :: hops). split; [by constructor|]. cbn. congruence.
Qed.

Lemma names_of_indices js :
  (forall j, j ∈ js -> (j < length names)%nat) ->
  exists l, Forall2 (fun j x => names !! j = Some x) js l.
Proof.
  induction js as [|j js IH]; intros H; [by exists []|].
  destruct (lookup_lt_is_Some_2 names j) as [x Hx]; [apply H; by left|].
  destruct IH as [l Hl]; [intros i Hi; apply H; by right|]. exists (x :: l). by constructor.
Qed.

Lemma foldr_perm (l l' : list Z) : l ≡ₚ l' -> foldr Z.add 0 l = foldr Z.add 0 l'.
Proof. induction 1; cbn; lia. Qed.

(** The indices whose distance counts are the frontier. *)
Lemma counted_indices (dist : list Z) (frontier : list nat) :
  length dist = length names -> (forall j, j ∈ frontier -> (j < length names)%nat) ->
  (forall j, (j < length names)%nat -> dist !! j <> Some usize_max <-> j ∈ frontier) ->
  forall j, j ∈ filter (fun j => default 0 (dist !! j) <> usize_max) (seq 0 (length dist)) <-> j ∈ frontier.
Proof.
  intros Hlen Hr Hseen j. rewrite list_elem_of_filter, elem_of_seq, Hlen.
  assert (forall i, (i < length names)%nat -> default 0 (dist !! i) <> usize_max <-> dist !! i <> Some usize_max) as Hd.
  { intros i Hi. destruct (lookup_lt_is_Some_2 dist i) as [d ->]; [lia|]. cbn. naive_solver. }
  split.
  - intros [Hne Hj]. apply Hseen; [lia|]. apply Hd; [lia|done].
  - intros Hin. pose proof (Hr j Hin). split; [apply Hd; [done|]; by apply Hseen|lia].
Qed.

Lemma frontier_bound (frontier : list nat) :
  NoDup frontier -> (forall j, j ∈ frontier -> (j < length names)%nat) -> (length frontier <= length names)%nat.
Proof.
  intros Hn Hr. rewrite <- (length_seq (length names) 0). apply submseteq_length, NoDup_submseteq; [done|].
  intros j Hj. apply elem_of_seq. pose proof (Hr j Hj). lia.
Qed.

Lemma score_is_score i x :
  names !! i = Some x -> is_score (has_edge nodes) names x (score_of nodes names i x).
Proof.
  intros Hi. pose proof (lookup_lt_Some _ _ _ Hi) as Hlt. unfold score_of.
  pose proof (bfs_correct (neighbours nodes names) (length names) i neighbours_range Hlt names_fit) as Hb.
  destruct (bfs _ _ i) as [dist frontier]. destruct Hb as (Hlen & Hnd & Hr & Hb).
  pose proof (counted_indices dist frontier Hlen Hr (fun j Hj => proj2 (proj2 (Hb j Hj)))) as Hjs.
  rewrite filter_by_index. set (js := filter _ (seq 0 (length dist))) in *.
  assert (NoDup js) as Hjn by (apply NoDup_filter, NoDup_seq).
  assert (js ≡ₚ frontier) as Hperm by (by apply NoDup_Permutation).
  destruct (hops_of (distance (fun i j => j ∈ neighbours nodes names i) i) js (fun j => default 0 (dist !! j)))
    as (hops & Hd & ->).
  { intros j Hj%Hjs. destruct (Hb j (Hr j Hj)) as (_ & Hdist & _).
    destruct (Hdist Hj) as (d & Hd & Hl). exists d. by rewrite Hl. }
  destruct (names_of_indices js) as [reach Hreach]; [by intros j Hj%Hjs%Hr|].
  exists reach, hops. cbn. rewrite foldr_max_nat, foldr_add_nat.
  assert (length reach = length frontier) as Hlr
    by (rewrite <- Hperm; symmetry; by eapply Forall2_length).
  split_and!; try done.
  - clear Hd. apply NoDup_alt. intros a b y Ha Hb'.
    destruct (Forall2_lookup_r _ _ _ _ _ Hreach Ha) as (ja & Hja & Hya).
    destruct (Forall2_lookup_r _ _ _ _ _ Hreach Hb') as (jb & Hjb & Hyb).
    assert (ja = jb) as -> by (eapply NoDup_lookup; [exact names_nodup|exact Hya|exact Hyb]).
    exact (NoDup_lookup js a b jb Hjn Hja Hjb).
  - intros y. split.
    + intros (a & Ha)%list_elem_of_lookup. destruct (Forall2_lookup_r _ _ _ _ _ Hreach Ha) as (j & Hj & Hy).
      split; [by apply list_elem_of_lookup_2 in Hy|]. apply list_elem_of_lookup_2, Hjs in Hj.
      destruct (proj1 (proj1 (Hb j (Hr j Hj))) Hj) as [k Hk]. exists k. by eapply walk_names.
    + intros [[j Hy]%list_elem_of_lookup [k Hk]]. pose proof (lookup_lt_Some _ _ _ Hy) as Hjl.
      assert (j ∈ js) as Hj.
      { apply Hjs. apply (proj1 (Hb j Hjl)). exists k. by eapply walk_names. }
      apply list_elem_of_lookup in Hj as [a Ha]. destruct (Forall2_lookup_l _ _ _ _ _ Hreach Ha) as (y' & Hy' & Hyj).
      assert (y = y') as -> by congruence. by apply list_elem_of_lookup_2 in Hy'.
  - apply Forall2_same_length_lookup. split.
    { rewrite <- (Forall2_length _ _ _ Hreach). by eapply Forall2_length. }
    intros a y d Hy Hda. destruct (Forall2_lookup_r _ _ _ _ _ Hreach Hy) as (j & Hj & Hyj).
    destruct (Forall2_lookup_r _ _ _ _ _ Hd Hda) as (j' & Hj' & Hdj). rewrite Hj in Hj'. injection Hj' as <-.
    by eapply distance_names.
  - unfold zlen. rewrite Hlr. pose proof (frontier_bound frontier Hnd Hr). solve_u.
Qed.
End ScoreProof.

(** ** The order of candidates *)

Lemma better_spec c b :
  better c b = true <->
  sc_unreachable c < sc_unreachable b \/
  (sc_unreachable c = sc_unreachable b /\
    (sc_max_hops c < sc_max_hops b \/
     (sc_max_hops c = sc_max_hops b /\
       (sc_total_hops c < sc_total_hops b \/
        (sc_total_hops c = sc_total_hops b /\ klt (sc_sender c) (sc_sender b)))))).
Proof.
  unfold better, kltb, klt. rewrite !orb_true_iff, !andb_true_iff, !Z.ltb_lt, !Z.eqb_eq.
  destruct (kcmp (sc_sender c) (sc_sender b)); naive_solver.
Qed.

Lemma better_irrefl c : better c c = false.
Proof.
  apply not_true_iff_false. rewrite better_spec. pose proof (klt_irrefl (sc_sender c)). naive_solver lia.
Qed.

Lemma better_trans a b c : better a b = true -> better b c = true -> better a c = true.
Proof.
  rewrite !better_spec. pose proof (klt_trans (sc_sender a) (sc_sender b) (sc_sender c)).
  intros [?|(? & [?|(? & [?|(? & ?)])])] [?|(? & [?|(? & [?|(? & ?)])])];
    first [left; lia|right; split; [lia|];
      first [left; lia|right; split; [lia|]; first [left; lia|right; split; [lia|auto]]]].
Qed.

Lemma better_total a b : better a b = true \/ better b a = true \/
  (sc_sender a = sc_sender b /\ sc_unreachable a = sc_unreachable b /\
   sc_max_hops a = sc_max_hops b /\ sc_total_hops a = sc_total_hops b).
Proof.
  rewrite !better_spec.
  destruct (Z.lt_trichotomy (sc_unreachable a) (sc_unreachable b)) as [?|[Hu|?]];
    [by left; left| |by right; left; left; lia].
  destruct (Z.lt_trichotomy (sc_max_hops a) (sc_max_hops b)) as [?|[Hm|?]];
    [left; right; split; [done|by left]| |right; left; right; split; [done|left; lia]].
  destruct (Z.lt_trichotomy (sc_total_hops a) (sc_total_hops b)) as [?|[Ht|?]];
    [left; right; split; [done|]; right; split; [done|by left]| |
     right; left; right; split; [done|]; right; split; [done|left; lia]].
  pose proof (kcmp_antisym (sc_sender a) (sc_sender b)) as Ha. pose proof (kcmp_eq (sc_sender a) (sc_sender b)) as He.
  unfold klt. destruct (kcmp (sc_sender a) (sc_sender b)); cbn in Ha.
  - right. right. split_and!; try done. by apply He.
  - left. right. split; [done|]. right. split; [done|]. right. by split.
  - right. left. right. split; [done|]. right. split; [done|]. right. by split.
Qed.

Definition choose (best c : Score) : Score := if better c best then c else best.

Lemma choose_best l : forall init,
  let r := foldl choose init l in
  (r = init \/ r ∈ l) /\ better init r = false /\ forall c, c ∈ l -> better c r = false.
Proof.
  induction l as [|c l IH]; intros init; cbn [foldl].
  { split; [by left|]. split; [apply better_irrefl|]. intros c Hc. by apply not_elem_of_nil in Hc. }
  destruct (IH (choose init c)) as (H1 & H2 & H3). set (r := foldl choose (choose init c) l) in *.
  assert (better init r = false /\ better c r = false) as [Hi Hc].
  { unfold choose in H2. destruct (better c init) eqn:E.
    - split; [|done]. apply not_true_iff_false. intros Hb. by rewrite (better_trans _ _ _ E Hb) in H2.
    - split; [done|]. apply not_true_iff_false. intros Hb.
      destruct (better_total r init) as [Hri|[Hri|(E1 & E2 & E3 & E4)]].
      + by rewrite (better_trans _ _ _ Hb Hri) in E.
      + congruence.
      + apply not_true_iff_false in E. apply E. rewrite better_spec in Hb |- *. by rewrite <- E1, <- E2, <- E3, <- E4. }
  split; [|split; [done|]].
  - unfold choose in H1. case_match; rewrite elem_of_cons; naive_solver.
  - intros x [-> |Hx]%elem_of_cons; auto.
Qed.

Lemma elect_fold local boards :
  elect_discovery_master local boards =
  sc_sender (foldl choose {| sc_sender := local; sc_unreachable := usize_max; sc_max_hops := usize_max;
                             sc_total_hops := usize_max |}
    (imap (score_of (board_graph local boards) (graph_names (board_graph local boards)))
       (graph_names (board_graph local boards)))).
Proof. done. Qed.

(** ** The elected board *)

Section Elected.
Context (local : bytes) (boards : list TopologyBoardNode).

Definition candidates : list bytes := graph_names (board_graph local boards).
Definition candidate_scores : list Score := imap (score_of (board_graph local boards) candidates) candidates.

Hypothesis names_fit : zlen candidates <= usize_max.

Lemma candidates_nodup : NoDup candidates.
Proof. apply ascends_nodup, graph_names_ascend. Qed.

Lemma candidates_elem x : x ∈ candidates <-> x = local \/ on_map boards x.
Proof.
  unfold candidates. rewrite graph_names_elem. exact (proj1 (board_graph_spec local boards x x)).
Qed.

Lemma linked_walk k x y : walk (has_edge (board_graph local boards)) k x y <-> walk (linked boards) k x y.
Proof.
  revert y. induction k as [|k IH]; intros y; split; intros Hw; inversion Hw; subst; econstructor;
    try (by apply IH; eassumption); by apply (board_graph_spec local boards).
Qed.

Lemma is_score_linked x s :
  is_score (has_edge (board_graph local boards)) candidates x s -> is_score (linked boards) candidates x s.
Proof.
  intros (reach & hops & H1 & H2 & H3 & H4). exists reach, hops. split; [done|]. split; [|split; [|done]].
  - intros y. rewrite H2. setoid_rewrite linked_walk. done.
  - eapply Forall2_impl; [exact H3|]. intros y d [Hd Hm]. split; [by apply linked_walk|].
    intros k Hk. apply Hm. by apply linked_walk.
Qed.

Lemma candidate_is_score i x :
  candidates !! i = Some x -> is_score (linked boards) candidates x (score_of (board_graph local boards) candidates i x).
Proof.
  intros Hi. apply is_score_linked. apply score_is_score; [exact candidates_nodup| | |exact names_fit|exact Hi].
  - intros y. apply graph_names_elem.
  - intros y z He. split; [destruct He as (l & Hl & _); unfold has_node; rewrite Hl; eauto|].
    apply (board_graph_spec local boards z z). apply (board_graph_spec local boards) in He as (b & Hb & Hyz).
    right. exists b. split; [done|]. naive_solver.
Qed.

Lemma candidate_scores_elem c :
  c ∈ candidate_scores <-> exists i x, candidates !! i = Some x /\ c = score_of (board_graph local boards) candidates i x.
Proof.
  unfold candidate_scores. rewrite list_elem_of_lookup. setoid_rewrite list_lookup_imap.
  setoid_rewrite fmap_Some. naive_solver.
Qed.

(** The best of the scores is the score of the elected board. *)
Lemma elected_best :
  exists best, best ∈ candidate_scores /\ sc_sender best = elect_discovery_master local boards /\
    forall c, c ∈ candidate_scores -> better c best = false.
Proof.
  rewrite elect_fold. fold candidates. fold candidate_scores.
  set (init := {| sc_sender := local; sc_unreachable := usize_max; sc_max_hops := usize_max;
    sc_total_hops := usize_max |}). destruct (choose_best candidate_scores init) as (H1 & H2 & H3).
  set (r := foldl choose init candidate_scores) in *. exists r. split; [|done].
  destruct H1 as [H1|]; [|done]. exfalso.
  destruct (proj1 (list_elem_of_lookup _ _) (proj2 (candidates_elem local) (or_introl eq_refl))) as [i Hi].
  assert (score_of (board_graph local boards) candidates i local ∈ candidate_scores) as Hc
    by (apply candidate_scores_elem; eauto).
  pose proof (H3 _ Hc) as Hb. rewrite H1 in Hb. apply not_true_iff_false in Hb. apply Hb, better_spec. left.
  destruct (candidate_is_score i local Hi) as (reach & hops & _ & Hreach & _ & _ & -> & _). cbn.
  assert (local ∈ reach) as Hin.
  { apply Hreach. split; [by apply list_elem_of_lookup_2 in Hi|]. exists 0%nat. constructor. }
  destruct reach as [|y reach]; [by apply not_elem_of_nil in Hin|]. unfold zlen in *. cbn. lia.
Qed.
End Elected.

(** A score is determined by its board. *)
Lemma distance_unique {A} (edge : A -> A -> Prop) x y d1 d2 :
  distance edge x y d1 -> distance edge x y d2 -> d1 = d2.
Proof. intros [W1 M1] [W2 M2]. specialize (M1 _ W2). specialize (M2 _ W1). lia. Qed.

Lemma hops_perm {A} (P : A -> nat -> Prop) l1 l2 :
  l1 ≡ₚ l2 -> (forall y d1 d2, P y d1 -> P y d2 -> d1 = d2) ->
  forall h1 h2, Forall2 P l1 h1 -> Forall2 P l2 h2 -> h1 ≡ₚ h2.
Proof.
  intros Hp HP. assert (exists h, True) as _ by (by exists 0%nat).
  assert (forall l h h', Forall2 P l h -> Forall2 P l h' -> h = h') as Heq.
  { intros l h h' Hf. revert h'. induction Hf as [|y d l h Hd Hf IH]; intros h' Hf'; inversion Hf'; subst; [done|].
    f_equal; [by eapply HP|by apply IH]. }
  assert (forall l1 l2, l1 ≡ₚ l2 -> forall h1, Forall2 P l1 h1 -> exists h, h1 ≡ₚ h /\ Forall2 P l2 h) as Hex.
  { clear -P. induction 1 as [|y l l' Hl IH|y z l|l l' l'' H1 IH1 H2 IH2]; intros h1 Hf.
    - inversion Hf; subst. by exists [].
    - inversion Hf; subst. destruct (IH _ H3) as (h & Hh & Hf'). exists (y0 :: h). split; [by constructor|by constructor].
    - inversion Hf as [|? d1 ? ? Hd1 Hf1]; subst. inversion Hf1 as [|? d2 ? ? Hd2 Hf2]; subst.
      eexists (d2 :: d1 :: _). split; [by constructor|by repeat constructor].
    - destruct (IH1 _ Hf) as (h & Hh & Hf'). destruct (IH2 _ Hf') as (h' & Hh' & Hf''). exists h'.
      split; [by etrans|done]. }
  intros h1 h2 Hf1 Hf2. destruct (Hex _ _ Hp _ Hf1) as (h & Hh & Hf). by rewrite (Heq _ _ _ Hf2 Hf).
Qed.

Lemma is_score_unique edge names x s1 s2 :
  is_score edge names x s1 -> is_score edge names x s2 -> s1 = s2.
Proof.
  intros (r1 & h1 & N1 & R1 & D1 & S1 & U1 & M1 & T1) (r2 & h2 & N2 & R2 & D2 & S2 & U2 & M2 & T2).
  assert (r1 ≡ₚ r2) as Hp by (apply NoDup_Permutation; [done|done|]; intros y; by rewrite R1, R2).
  pose proof (hops_perm (distance edge x) r1 r2 Hp (fun y d1 d2 => distance_unique edge x y d1 d2) h1 h2 D1 D2) as Hh.
  destruct s1 as [s1 u1 m1 t1], s2 as [s2 u2 m2 t2]; cbn in *. f_equal; [congruence|..].
  - unfold zlen in *. rewrite Hp in U1. congruence.
  - rewrite M1, M2. f_equal. clear -Hh. induction Hh; cbn; lia.
  - rewrite T1, T2. f_equal. clear -Hh. induction Hh; cbn; lia.
Qed.

(** The elected board is one of the candidates, and no candidate
    beats it: none reaches more boards, or as many with a smaller greatest
    distance, or the same with a smaller total distance, or the same with a
    smaller name.  Reach and distances are those of the links the boards state. *)
Theorem election_spec local boards :
  zlen (candidates local boards) < 2 ^ 32 ->
  elect_discovery_master local boards ∈ candidates local boards /\
  exists best, is_score (linked boards) (candidates local boards) (elect_discovery_master local boards) best /\
    forall x s, x ∈ candidates local boards -> is_score (linked boards) (candidates local boards) x s ->
      better s best = false.
Proof.
  intros Hlt. assert (zlen (candidates local boards) <= usize_max) as Hfit by solve_u.
  destruct (elected_best local boards Hfit) as (best & Hin & <- & Hmin).
  apply candidate_scores_elem in Hin as (i & x & Hi & Hbest).
  pose proof (candidate_is_score local boards Hfit i x Hi) as Hs. rewrite <- Hbest in Hs.
  assert (sc_sender best = x) as -> by (by destruct Hs as (? & ? & _ & _ & _ & ? & _)).
  split; [by apply list_elem_of_lookup_2 in Hi|]. exists best. split; [done|].
  intros y s [j Hj]%list_elem_of_lookup Hy.
  rewrite (is_score_unique _ _ _ _ _ Hy (candidate_is_score local boards Hfit j y Hj)).
  apply Hmin. apply candidate_scores_elem. eauto.
Qed.

Lemma facts_links boards x y :
  linked boards x y <-> facts boards (FConnection x y) \/ facts boards (FConnection y x).
Proof. unfold linked, facts. cbn. naive_solver. Qed.

Lemma facts_map boards x :
  on_map boards x <-> facts boards (FNode x) \/ exists y, facts boards (FConnection y x).
Proof. unfold on_map, facts. cbn. naive_solver. Qed.

(** C8: boards that hold the same view of the network, each of
    them part of it, elect the same master, whatever the order and grouping of
    what they were told. *)
Theorem election_agreement local1 local2 boards1 boards2 :
  zlen (candidates local1 boards1) < 2 ^ 32 ->
  (forall f, facts boards1 f <-> facts boards2 f) ->
  on_map boards1 local1 -> on_map boards1 local2 ->
  elect_discovery_master local1 boards1 = elect_discovery_master local2 boards2.
Proof.
  intros Hlt Hf H1 H2. assert (zlen (candidates local1 boards1) <= usize_max) as Hfit by solve_u.
  assert (forall x, on_map boards1 x <-> on_map boards2 x) as Hmap.
  { intros x. rewrite !facts_map. setoid_rewrite Hf. done. }
  assert (board_graph local1 boards1 = board_graph local2 boards2) as Hg.
  { apply board_graph_ext.
    - intros x. rewrite <- Hmap. naive_solver.
    - intros x y. by rewrite !facts_links, !Hf. }
  assert (candidates local1 boards1 = candidates local2 boards2) as Hc by (unfold candidates; by rewrite Hg).
  assert (candidate_scores local1 boards1 = candidate_scores local2 boards2) as Hs
    by (unfold candidate_scores; by rewrite Hc, Hg).
  destruct (elected_best local1 boards1 Hfit) as (b1 & I1 & <- & M1).
  destruct (elected_best local2 boards2) as (b2 & I2 & <- & M2); [by rewrite <- Hc|].
  rewrite <- Hs in I2, M2. specialize (M1 _ I2). specialize (M2 _ I1).
  destruct (better_total b1 b2) as [Hb|[Hb|[Hb _]]]; congruence.
Qed.

(** ** A network of five boards in a line *)

Definition line_boards : list TopologyBoardNode :=
  [board [65] [] [] [[66]]; board [66] [] [] [[67]]; board [67] [] [] [[68]]; board [68] [] [] [[69]];
   board [69] [] [] []].

Lemma election_spec_witness :
  elect_discovery_master [69] line_boards = [67] /\
  elect_discovery_master [69] line_boards ∈ candidates [69] line_boards.
Proof.
  split; [vm_compute; reflexivity|].
  apply (election_spec [69] line_boards). vm_compute. done.
Defined.

Lemma election_agreement_witness :
  elect_discovery_master [65] line_boards = elect_discovery_master [69] (reverse line_boards).
Proof.
  apply (election_agreement [65] [69] line_boards (reverse line_boards)).
  - vm_compute. done.
  - intros f. unfold facts. setoid_rewrite elem_of_reverse. done.
  - exists (board [65] [] [] [[66]]). split; [by left|by left].
  - exists (board [69] [] [] []). split; [unfold line_boards; rewrite !elem_of_cons; auto 8|by left].
Defined.
