(* ===== verification/DiscoveryWire.v ===== *)
(** * Reading and writing discovery payloads (src/src/discovery.rs)

    The primitive readers and writers that all discovery payloads share.  A reader
    works on the bytes behind the cursor of the source and returns those it
    leaves.  The answers of the allocator to [try_reserve_exact] are a parameter. *)

From S2P Require Import Prelude Schema Packet.

Open Scope Z_scope.

(** ** Readers *)

Definition parser (A : Type) : Type := bytes -> result (A * bytes).

#[export] Instance parser_ret : MRet parser := fun A a l => Ok (a, l).
#[export] Instance parser_bind : MBind parser :=
  fun A B f p l => match p l with Ok (a, l) => f a l | Err e => Err e end.

Definition p_result {A} (r : result A) : parser A :=
  fun l => match r with Ok a => Ok (a, l) | Err e => Err e end.

(** The next [n] bytes. *)
Definition slice (n : Z) (label : string) : parser bytes := fun l =>
  if zlen l <? n then Err (Unpack label) else Ok (take (Z.to_nat n) l, drop (Z.to_nat n) l).

Definition read_u8 (label : string) : parser Z := b ← slice 1 label; mret (nth 0 b 0).
Definition read_u32 (label : string) : parser Z := b ← slice 4 label; mret (from_le b).
Definition read_u64_le (label : string) : parser Z := b ← slice 8 label; mret (from_le b).

(** [core::str::from_utf8]. *)
Definition from_utf8 (raw : bytes) (label : string) : result bytes :=
  if utf8_valid raw then Ok raw else Err (Unpack label).

Definition decode_string (label : string) : parser bytes :=
  len ← read_u32 label; raw ← slice len label; p_result (from_utf8 raw label).

(** The same on borrowed bytes: [cursor + len] fits a 64-bit [usize]. *)
Definition borrowed_schema_string (label : string) : parser bytes := decode_string label.

Definition skip_string (label : string) : parser unit :=
  len ← read_u32 label; _ ← slice len label; mret tt.

(** [for _ in 0..count]. *)
Fixpoint times {A} (n : nat) (p : parser A) : parser (list A) :=
  match n with
  | O => mret []
  | S n => x ← p; xs ← times n p; mret (x :: xs)
  end.

Section Bounded.
Context (reserve : Z -> bool).

(** The wire count is checked against the bytes left before storage for [count]
    elements is reserved. *)
Definition bounded_wire_vec (count min : Z) (label : string) : parser unit := fun l =>
  if (min =? 0) || (zlen l / min <? count) then Err (Unpack label)
  else if reserve count then Ok (tt, l) else Err (Unpack label).

(** A counted sequence. *)
Definition wire_vec {A} (count min : Z) (label : string) (p : parser A) : parser (list A) :=
  _ ← bounded_wire_vec count min label; times (Z.to_nat count) p.
End Bounded.

(** The check that nothing is left. *)
Definition at_end (label : string) : parser unit := fun l =>
  if is_empty l then Ok (tt, l) else Err (Unpack label).

Definition run {A} (p : parser A) (l : bytes) : result A :=
  match p l with Ok (a, _) => Ok a | Err e => Err e end.

(** ** Writers *)

Definition encode_u32 (v : Z) : bytes := le_bytes 4 v.

Definition encode_string (value : bytes) : result bytes :=
  match try_u32 (zlen value) with
  | Some n => Ok (le_bytes 4 n ++ value)
  | None => Err (Pack "discovery schema string too long")
  end.

(** A loop of fallible writes. *)
Fixpoint encode_all {A} (f : A -> result bytes) (l : list A) : result bytes :=
  match l with
  | [] => Ok []
  | x :: l => b ← f x; rest ← encode_all f l; Ok (b ++ rest)
  end.

Definition encode_strings (l : list bytes) : result bytes := encode_all encode_string l.

(** [encode_slice_le] of 32-bit words. *)
Definition encode_words (l : list Z) : bytes := concat (map (le_bytes 4) l).

(** ** What a reader reads *)

Lemma ok_inj {A} (a b : A) : Ok a = Ok b -> a = b.
Proof. congruence. Qed.

Definition parses {A} (p : parser A) (enc : bytes) (v : A) : Prop :=
  forall rest, p (enc ++ rest) = Ok (v, rest).

Lemma parses_ret {A} (v : A) : parses (mret v) [] v.
Proof. done. Qed.

Lemma parses_bind {A B} (p : parser A) (k : A -> parser B) e1 e2 v w :
  parses p e1 v -> parses (k v) e2 w -> parses (p ≫= k) (e1 ++ e2) w.
Proof.
  intros H1 H2 rest. rewrite <- app_assoc. unfold mbind, parser_bind. by rewrite H1, H2.
Qed.

Lemma parses_map {A B} (p : parser A) (k : A -> parser B) e v w :
  parses p e v -> parses (k v) [] w -> parses (p ≫= k) e w.
Proof. intros. rewrite <- (app_nil_r e). by eapply parses_bind. Qed.

Lemma parses_then {A B} (p : parser A) (k : A -> parser B) e v w :
  parses p [] v -> parses (k v) e w -> parses (p ≫= k) e w.
Proof. intros H1 H2. exact (parses_bind p k [] e v w H1 H2). Qed.

Lemma parses_result {A} (r : result A) v : r = Ok v -> parses (p_result r) [] v.
Proof. by intros ->. Qed.

Lemma parses_slice n label enc : zlen enc = n -> parses (slice n label) enc enc.
Proof.
  intros <- rest. unfold slice. rewrite zlen_app.
  destruct (Z.ltb_spec (zlen enc + zlen rest) (zlen enc)); [pose proof (zlen_nonneg rest); lia|].
  unfold zlen. by rewrite Nat2Z.id, take_app_length, drop_app_length.
Qed.

Lemma parses_word (k : nat) n label v :
  n = Z.of_nat k -> 0 <= v < 256 ^ Z.of_nat k ->
  parses (b ← slice n label; mret (from_le b)) (le_bytes k v) v.
Proof.
  intros -> Hv. eapply parses_map; [apply parses_slice; unfold zlen; by rewrite length_le_bytes|].
  rewrite from_le_bytes by done. apply parses_ret.
Qed.

Lemma parses_u32 label v : is_u32 v -> parses (read_u32 label) (le_bytes 4 v) v.
Proof. intros. apply parses_word; [done|solve_u]. Qed.

Lemma parses_u64 label v : is_u64 v -> parses (read_u64_le label) (le_bytes 8 v) v.
Proof. intros. apply parses_word; [done|solve_u]. Qed.

Lemma parses_u8 label v : parses (read_u8 label) [v] v.
Proof. eapply parses_map; [by apply parses_slice|]. apply parses_ret. Qed.

Lemma encode_string_ok s e : encode_string s = Ok e <-> zlen s <= u32_max /\ e = le_bytes 4 (zlen s) ++ s.
Proof.
  unfold encode_string, try_u32. destruct (Z.leb_spec (zlen s) u32_max); split; naive_solver lia.
Qed.

Lemma parses_string label s e :
  encode_string s = Ok e -> utf8_valid s = true -> parses (decode_string label) e s.
Proof.
  intros [Hl ->]%encode_string_ok Hu. pose proof (zlen_nonneg s).
  eapply parses_bind; [apply parses_u32; solve_u|]. eapply parses_map; [by apply parses_slice|].
  apply parses_result. unfold from_utf8. by rewrite Hu.
Qed.

Lemma parses_skip label s e : encode_string s = Ok e -> parses (skip_string label) e tt.
Proof.
  intros [Hl ->]%encode_string_ok. pose proof (zlen_nonneg s).
  eapply parses_bind; [apply parses_u32; solve_u|]. eapply parses_map; [by apply parses_slice|].
  apply parses_ret.
Qed.

Lemma parses_times {A} (p : parser A) encs vs :
  Forall2 (parses p) encs vs -> parses (times (length vs) p) (concat encs) vs.
Proof.
  induction 1 as [|e v encs vs He Hf IH]; cbn [length times concat]; [apply parses_ret|].
  eapply parses_bind; [exact He|]. eapply parses_map; [exact IH|]. apply parses_ret.
Qed.

(** A counted sequence of elements of at least [min] bytes. *)
Lemma parses_vec {A} reserve (p : parser A) count min label encs vs :
  Forall2 (parses p) encs vs -> Forall (fun e => min <= zlen e) encs -> 0 < min ->
  count = zlen vs -> reserve count = true ->
  parses (wire_vec reserve count min label p) (concat encs) vs.
Proof.
  intros Hp Hmin Hpos -> Hr rest. unfold wire_vec, mbind, parser_bind, bounded_wire_vec.
  assert (zlen vs * min <= zlen (concat encs ++ rest)) as Hlen.
  { rewrite zlen_app. pose proof (zlen_nonneg rest). enough (zlen vs * min <= zlen (concat encs)) by lia.
    clear -Hp Hmin. induction Hp as [|e v encs vs He Hf IH]; [unfold zlen; cbn; lia|].
    apply Forall_cons in Hmin as [? ?]. specialize (IH ltac:(done)). cbn [concat]. rewrite zlen_app.
    unfold zlen in *. cbn [length]. nia. }
  rewrite (proj2 (Z.eqb_neq min 0)) by lia. cbn [orb].
  rewrite (proj2 (Z.ltb_ge (zlen (concat encs ++ rest) / min) (zlen vs))) by (apply Z.div_le_lower_bound; lia).
  rewrite Hr. unfold zlen. rewrite Nat2Z.id. by apply parses_times.
Qed.

Lemma parses_words reserve label label' l :
  Forall is_u32 l -> reserve (zlen l) = true ->
  parses (wire_vec reserve (zlen l) 4 label (read_u32 label')) (encode_words l) l.
Proof.
  intros Hl Hr. apply parses_vec; try done.
  - clear Hr. induction Hl; cbn; constructor; auto using parses_u32.
  - apply Forall_fmap, Forall_true. intros v. unfold compose, zlen. by rewrite length_le_bytes.
Qed.

Lemma encode_all_ok {A} (f : A -> result bytes) l e :
  encode_all f l = Ok e <-> exists encs, Forall2 (fun x b => f x = Ok b) l encs /\ e = concat encs.
Proof.
  revert e. induction l as [|x l IH]; intros e; cbn [encode_all].
  - split; [intros [= <-]; by exists []|]. intros (encs & Hf & ->). by inversion Hf.
  - rewrite result_bind_ok. setoid_rewrite result_bind_ok. split.
    + intros (b & Hb & rest & (encs & Hf & ->)%IH & [= <-]). exists (b :: encs). by split; [constructor|].
    + intros (encs & Hf & ->). inversion Hf; subst. eexists. split; [done|]. eexists. split; [by apply IH; eauto|done].
Qed.

Lemma parses_strings reserve label label' l e :
  encode_strings l = Ok e -> Forall (fun s => utf8_valid s = true) l -> reserve (zlen l) = true ->
  parses (wire_vec reserve (zlen l) 4 label (decode_string label')) e l.
Proof.
  intros (encs & Hf & ->)%encode_all_ok Hu Hr. apply parses_vec; try done.
  - clear Hr. induction Hf as [|s b l encs Hs Hf IH]; [constructor|]. apply Forall_cons in Hu as [? ?].
    constructor; [by apply parses_string|auto].
  - clear Hu Hr. induction Hf as [|s b l encs Hs Hf IH]; constructor; [|done].
    apply encode_string_ok in Hs as [_ ->]. unfold zlen. rewrite length_app, length_le_bytes. lia.
Qed.

Lemma bind_assoc_parser {A B C} (p : parser A) (k : A -> parser B) (h : B -> parser C) l :
  ((p ≫= k) ≫= h) l = (p ≫= fun a => k a ≫= h) l.
Proof. unfold mbind, parser_bind. by destruct (p l) as [[? ?]|]. Qed.

(** One step of a reader that starts with a known encoding. *)
Lemma parse_step {A B} (p : parser A) (k : A -> parser B) e v rest :
  parses p e v -> (p ≫= k) (e ++ rest) = k v rest.
Proof. intros H. unfold mbind, parser_bind. by rewrite H. Qed.

Lemma parse_skip {A B} (p : parser A) (k : A -> parser B) v rest :
  parses p [] v -> (p ≫= k) rest = k v rest.
Proof. exact (parse_step p k [] v rest). Qed.

Lemma parse_inv {A B} (p : parser A) (k : A -> parser B) l b l' :
  (p ≫= k) l = Ok (b, l') -> exists a l1, p l = Ok (a, l1) /\ k a l1 = Ok (b, l').
Proof. unfold mbind, parser_bind. destruct (p l) as [[a l1]|]; [eauto|done]. Qed.

Lemma run_ok {A} (p : parser A) l a : run p l = Ok a -> exists l', p l = Ok (a, l').
Proof. unfold run. destruct (p l) as [[b l']|]; [|done]. intros ->%ok_inj. eauto. Qed.

Lemma run_parses {A} (p : parser A) enc v : parses p enc v -> run p enc = Ok v.
Proof. intros H. unfold run. specialize (H []). rewrite app_nil_r in H. by rewrite H. Qed.

Lemma parses_end {A B} (p : parser A) (f : A -> B) label enc v :
  parses p enc v -> run (x ← p; _ ← at_end label; mret (f x)) enc = Ok (f v).
Proof.
  intros H. unfold run, mbind, parser_bind. specialize (H []). rewrite app_nil_r in H. by rewrite H.
Qed.
