(* ===== verification/DiscoveryCodec.v ===== *)
(** * Discovery messages (src/src/discovery.rs)

    The cadence of announcements and the packets of discovery other than the
    topology and the schema: announces, time sources, requests, link capabilities
    and address advertisements, each built and decoded. *)

From S2P Require Import Prelude Schema Packet SchemaRegistry SchemaMerge SmallSort SortedList Topology DiscoveryWire.

Open Scope Z_scope.

(** ** Cadence *)

Definition DISCOVERY_FAST_INTERVAL_MS : Z := 250.
Definition DISCOVERY_SLOW_INTERVAL_MS : Z := 5000.

Record DiscoveryCadenceState : Type := { current_interval_ms : Z; next_announce_ms : Z }.

Definition cadence_default : DiscoveryCadenceState :=
  {| current_interval_ms := DISCOVERY_FAST_INTERVAL_MS; next_announce_ms := 0 |}.

Definition on_topology_change (c : DiscoveryCadenceState) (now_ms : Z) : DiscoveryCadenceState :=
  {| current_interval_ms := DISCOVERY_FAST_INTERVAL_MS; next_announce_ms := now_ms |}.

Definition on_announce_sent (c : DiscoveryCadenceState) (now_ms : Z) : DiscoveryCadenceState :=
  {| current_interval_ms := Z.min (sat_mul (current_interval_ms c) 2) DISCOVERY_SLOW_INTERVAL_MS;
     next_announce_ms := sat_add now_ms (current_interval_ms c) |}.

Definition due (c : DiscoveryCadenceState) (now_ms : Z) : bool := next_announce_ms c <=? now_ms.

(** ** Capabilities of a link *)

Record LinkCapabilities : Type := {
  lc_version : Z;
  lc_flags : Z;
  lc_profile : Z;
  lc_max_frame_bytes : Z;
  lc_compact_header_target_bytes : Z;
  lc_max_side_transport_templates : Z;
}.

#[export] Instance LinkCapabilities_eq_dec : EqDecision LinkCapabilities.
Proof. solve_decision. Defined.

Definition encode_link_capabilities (c : LinkCapabilities) : bytes :=
  [lc_version c] ++ le_bytes 4 (lc_flags c) ++ [lc_profile c] ++ le_bytes 4 (lc_max_frame_bytes c) ++
  le_bytes 4 (lc_compact_header_target_bytes c) ++ le_bytes 4 (lc_max_side_transport_templates c).

(** The word at a fixed place of a payload of known size. *)
Definition word_at (o : nat) (l : bytes) : Z := from_le (take 4 (drop o l)).

Definition decode_link_capabilities_payload (payload : bytes) : result LinkCapabilities :=
  if negb (zlen payload =? 18) then Err (Unpack "discovery link capabilities width")
  else Ok {| lc_version := nth 0 payload 0; lc_flags := word_at 1 payload; lc_profile := nth 5 payload 0;
             lc_max_frame_bytes := word_at 6 payload; lc_compact_header_target_bytes := word_at 10 payload;
             lc_max_side_transport_templates := word_at 14 payload |}.

(** ** Address advertisements *)

Record AddressAdvertisement : Type := {
  ad_hostname : bytes;
  ad_address : Z;
  ad_requested_address : Z;
  ad_mode : Z;
  ad_state : Z;
  ad_birth_ms : Z;
  ad_owner_hash : Z;
  ad_endpoints : list DataEndpoint;
  ad_network_variables : list DataType;
  ad_timesync_sources : list bytes;
  ad_link_capabilities : LinkCapabilities;
}.

#[export] Instance AddressAdvertisement_eq_dec : EqDecision AddressAdvertisement.
Proof. solve_decision. Defined.

Definition counted (n : Z) (label : string) : result bytes :=
  match try_u32 n with Some n => Ok (le_bytes 4 n) | None => Err (Pack label) end.

Definition address_payload (ad : AddressAdvertisement) : result bytes :=
  let head := [2; ad_mode ad; ad_state ad] ++ le_bytes 4 (ad_address ad) ++
              le_bytes 4 (ad_requested_address ad) ++ le_bytes 8 (ad_birth_ms ad) ++
              le_bytes 8 (ad_owner_hash ad) in
  host ← encode_string (ad_hostname ad);
  let eps := sort_dedup (filter (fun ep => is_discovery_endpoint ep = false) (ad_endpoints ad)) in
  ep_count ← counted (zlen eps) "discovery address endpoint count";
  let vars := sort_dedup (ad_network_variables ad) in
  var_count ← counted (zlen vars) "discovery address network variable count";
  let sources := sort_dedup_strings (ad_timesync_sources ad) in
  source_count ← counted (zlen sources) "discovery address source count";
  srcs ← encode_strings sources;
  Ok (head ++ host ++ ep_count ++ encode_words eps ++ var_count ++ encode_words vars ++ source_count ++
      srcs ++ encode_link_capabilities (ad_link_capabilities ad)).

(** [AddressView]: the lists stay as they are on the wire. *)
Record AddressView : Type := {
  view_hostname : bytes;
  view_address : Z;
  view_requested_address : Z;
  view_mode : Z;
  view_state : Z;
  view_birth_ms : Z;
  view_owner_hash : Z;
  view_raw_endpoints : bytes;
  view_raw_variables : bytes;
  view_raw_sources : bytes;
  view_link_capabilities : LinkCapabilities;
}.

(** [as_chunks::<4>] read as words. *)
Definition words_of (raw : bytes) : list Z := chunks_le (length raw / 4) 4 raw.

Definition view_endpoints (v : AddressView) : list DataEndpoint :=
  filter (fun ep => is_discovery_endpoint ep = false) (words_of (view_raw_endpoints v)).
Definition view_variables (v : AddressView) : list DataType :=
  filter (fun ty => is_discovery_type ty = false) (words_of (view_raw_variables v)).

(** The iterator ends with the bytes, or at the first string that does not read;
    every string takes four bytes or more. *)
Fixpoint strings_of (fuel : nat) (raw : bytes) : list bytes :=
  match fuel, raw with
  | O, _ | _, [] => []
  | S fuel, _ =>
      match borrowed_schema_string "discovery address source" raw with
      | Ok (s, raw) => s :: strings_of fuel raw
      | Err _ => []
      end
  end.
Definition view_sources (v : AddressView) : list bytes :=
  filter (fun s => is_empty s = false) (strings_of (length (view_raw_sources v)) (view_raw_sources v)).

Definition borrowed_u32s (count : Z) (label : string) : parser bytes := fun l =>
  if zlen l / 4 <? count then Err (Unpack label) else slice (count * 4) label l.

(** The bytes a reader passes. *)
Definition passed {A} (p : parser A) : parser bytes := fun l =>
  match p l with Ok (_, l') => Ok (take (length l - length l') l, l') | Err e => Err e end.

(** The check on a count of strings, without a reservation. *)
Definition count_fits (count : Z) (label : string) : parser unit := fun l =>
  if zlen l / 4 <? count then Err (Unpack label) else Ok (tt, l).

(** All that is left is the link contract. *)
Definition trailing_capabilities : parser LinkCapabilities := fun l =>
  match decode_link_capabilities_payload l with Ok c => Ok (c, []) | Err e => Err e end.

Definition guard (b : bool) (label : string) : parser unit :=
  p_result (if b then Ok tt else Err (Unpack label)).

Definition decode_address_view (payload : bytes) : result AddressView :=
  run (version ← read_u8 "discovery address version";
       _ ← guard ((version =? 1) || (version =? 2)) "discovery address version";
       mode ← read_u8 "discovery address mode";
       state ← read_u8 "discovery address state";
       address ← read_u32 "discovery address current";
       requested ← read_u32 "discovery address requested";
       birth ← read_u64_le "discovery address birth";
       owner ← read_u64_le "discovery address owner";
       host ← borrowed_schema_string "discovery address hostname";
       ep_count ← read_u32 "discovery address endpoint count";
       eps ← borrowed_u32s ep_count "discovery address endpoint count";
       vars ← (if 2 <=? version then
                 var_count ← read_u32 "discovery address network variable count";
                 borrowed_u32s var_count "discovery address network variable count"
               else mret []);
       count ← read_u32 "discovery address source count";
       _ ← count_fits count "discovery address source count";
       sources ← passed (times (Z.to_nat count) (borrowed_schema_string "discovery address source"));
       link ← trailing_capabilities;
       _ ← guard (negb (is_empty host || (address =? 0))) "bad discovery address";
       mret {| view_hostname := host; view_address := address; view_requested_address := requested;
               view_mode := mode; view_state := state; view_birth_ms := birth; view_owner_hash := owner;
               view_raw_endpoints := eps; view_raw_variables := vars; view_raw_sources := sources;
               view_link_capabilities := link |}) payload.

(** ** Packets *)

Section Codec.
Context (reg : Registry) (tun : Tuning) (reserve : Z -> bool).

(** Every discovery packet is addressed to the discovery endpoint. *)
Definition discovery_packet (counter : Z) (kind : DataType) (sender : bytes) (timestamp_ms : Z)
    (payload : result bytes) : result Packet * Z :=
  match payload with
  | Ok payload => packet_new reg tun counter kind [ep_Discovery] sender timestamp_ms payload
  | Err e => (Err e, counter)
  end.

Definition build_discovery_announce (counter : Z) (sender : bytes) (timestamp_ms : Z)
    (endpoints : list DataEndpoint) : result Packet * Z :=
  discovery_packet counter ty_DiscoveryAnnounce sender timestamp_ms (Ok (encode_words endpoints)).

Definition decode_discovery_payload (payload : bytes) : result (list DataEndpoint) :=
  if negb (zlen payload mod 4 =? 0) then Err (Unpack "discovery payload width")
  else Ok (sort_dedup (filter (fun ep => is_discovery_endpoint ep = false) (words_of payload))).

Definition expect {A} (kind : DataType) (decode : bytes -> result A) (p : Packet) : result A :=
  if negb (ty p =? kind) then Err InvalidType else decode (payload p).

Definition decode_discovery_announce (p : Packet) : result (list DataEndpoint) :=
  expect ty_DiscoveryAnnounce decode_discovery_payload p.

Definition timesync_sources_payload (sources : list bytes) : result bytes :=
  let deduped := sort_dedup sources in
  body ← encode_all (fun s => match try_u32 (zlen s) with
                              | Some n => Ok (le_bytes 4 n ++ s)
                              | None => Err (Pack "discovery source id too long")
                              end) deduped;
  Ok (le_bytes 4 (wrap32 (zlen deduped)) ++ body).

Definition build_discovery_timesync_sources (counter : Z) (sender : bytes) (timestamp_ms : Z)
    (sources : list bytes) : result Packet * Z :=
  discovery_packet counter ty_DiscoveryTimeSyncSources sender timestamp_ms (timesync_sources_payload sources).

Definition source_entry : parser bytes :=
  len ← read_u32 "discovery timesync source len";
  raw ← slice len "discovery timesync source bytes";
  p_result (from_utf8 raw "discovery timesync source utf8").

Definition decode_discovery_timesync_sources_payload (payload : bytes) : result (list bytes) :=
  run (count ← read_u32 "discovery timesync source count";
       out ← wire_vec reserve count 4 "discovery timesync source count" source_entry;
       _ ← at_end "discovery timesync trailing bytes";
       mret (sort_dedup (filter (fun s => is_empty s = false) out))) payload.

Definition decode_discovery_timesync_sources (p : Packet) : result (list bytes) :=
  expect ty_DiscoveryTimeSyncSources decode_discovery_timesync_sources_payload p.

Definition build_discovery_topology_request (counter : Z) (sender : bytes) (timestamp_ms : Z)
    : result Packet * Z :=
  discovery_packet counter ty_DiscoveryTopologyRequest sender timestamp_ms (Ok []).
Definition build_discovery_schema_request (counter : Z) (sender : bytes) (timestamp_ms : Z)
    : result Packet * Z :=
  discovery_packet counter ty_DiscoverySchemaRequest sender timestamp_ms (Ok []).
Definition build_discovery_leave (counter : Z) (sender : bytes) (timestamp_ms : Z) : result Packet * Z :=
  discovery_packet counter ty_DiscoveryLeave sender timestamp_ms (Ok []).

(** *** Requests for the schemas of some boards *)

Definition SCHEMA_REQUEST_MAX_TARGETS : Z := 8.
Definition schema_request_magic : bytes := [83; 82; 81; 1].

Definition target (targets : bytes) (i : nat) : bytes := take 4 (drop (i * 4) targets).

Definition target_refused (targets : bytes) (i : nat) : bool :=
  bool_decide (target targets i = [0; 0; 0; 0]) ||
  existsb (fun old => bool_decide (target targets old = target targets i)) (seq 0 i).

Definition schema_request_targets (payload : bytes) : option bytes :=
  if (zlen payload <? 5) || negb (bool_decide (take 4 payload = schema_request_magic)) then None
  else
    let count := nth 4 payload 0 in
    if (count =? 0) || (SCHEMA_REQUEST_MAX_TARGETS <? count) || negb (zlen payload =? 5 + count * 4) then None
    else
      let targets := drop 5 payload in
      if existsb (target_refused targets) (seq 0 (Z.to_nat count)) then None else Some targets.

Definition scoped_request_payload (addresses : list Z) : result bytes :=
  if is_empty addresses || (SCHEMA_REQUEST_MAX_TARGETS <? zlen addresses) then Err BadArg
  else
    let body := schema_request_magic ++ [wrap8 (zlen addresses)] ++ encode_words addresses in
    match schema_request_targets body with Some _ => Ok body | None => Err BadArg end.

Definition build_scoped_discovery_schema_request (counter : Z) (sender : bytes) (timestamp_ms : Z)
    (addresses : list Z) : result Packet * Z :=
  discovery_packet counter ty_DiscoverySchemaRequest sender timestamp_ms (scoped_request_payload addresses).

(** *** Link capabilities, variables, addresses *)

Definition build_discovery_link_capabilities (counter : Z) (sender : bytes) (timestamp_ms : Z)
    (capabilities : LinkCapabilities) : result Packet * Z :=
  discovery_packet counter ty_DiscoveryLinkCapabilities sender timestamp_ms
    (Ok (encode_link_capabilities capabilities)).
Definition decode_discovery_link_capabilities (p : Packet) : result LinkCapabilities :=
  expect ty_DiscoveryLinkCapabilities decode_link_capabilities_payload p.

Definition build_managed_variable_request (counter : Z) (sender : bytes) (timestamp_ms : Z) (kind : DataType)
    : result Packet * Z :=
  discovery_packet counter ty_ManagedVariableRequest sender timestamp_ms (Ok (encode_words [kind])).
Definition decode_managed_variable_request (p : Packet) : result DataType :=
  expect ty_ManagedVariableRequest (fun payload =>
    if negb (zlen payload =? 4) then Err (Unpack "managed variable request width")
    else Ok (from_le payload)) p.

Definition build_discovery_address (counter : Z) (sender : bytes) (timestamp_ms : Z)
    (ad : AddressAdvertisement) : result Packet * Z :=
  discovery_packet counter ty_DiscoveryAddress sender timestamp_ms (address_payload ad).

(** Room for the elements of a raw list. *)
Definition room (raw : bytes) (count : Z) (label : string) : result unit :=
  run (bounded_wire_vec reserve count 4 label) raw.

Definition decode_discovery_address (p : Packet) : result AddressAdvertisement :=
  expect ty_DiscoveryAddress (fun payload =>
    ad ← decode_address_view payload;
    _ ← room (view_raw_endpoints ad) (zlen (view_raw_endpoints ad) / 4) "discovery address endpoint count";
    let eps := sort_dedup (view_endpoints ad) in
    _ ← room (view_raw_variables ad) (zlen (view_raw_variables ad) / 4)
          "discovery address network variable count";
    let vars := sort_dedup (view_variables ad) in
    _ ← room (view_raw_sources ad) (zlen (view_sources ad)) "discovery address source count";
    let sources := sort_dedup_strings (view_sources ad) in
    Ok {| ad_hostname := view_hostname ad; ad_address := view_address ad;
          ad_requested_address := view_requested_address ad; ad_mode := view_mode ad;
          ad_state := view_state ad; ad_birth_ms := view_birth_ms ad; ad_owner_hash := view_owner_hash ad;
          ad_endpoints := eps; ad_network_variables := vars; ad_timesync_sources := sources;
          ad_link_capabilities := view_link_capabilities ad |}) p.
End Codec.

(** ** Words and strings on the wire *)

Lemma words_of_encode l : Forall is_u32 l -> words_of (encode_words l) = l.
Proof.
  intros Hl. unfold words_of, encode_words. rewrite length_concat_le, Nat.div_mul by done.
  apply chunks_le_concat. eapply Forall_impl; [exact Hl|]. solve_u.
Qed.

Lemma encode_words_size l : zlen (encode_words l) = zlen l * 4.
Proof. unfold encode_words, zlen. rewrite length_concat_le. lia. Qed.

Lemma words_of_range raw : bytes_ok raw -> Forall is_u32 (words_of raw).
Proof.
  unfold words_of. generalize (length raw / 4)%nat as n. intros n. revert raw.
  induction n as [|n IH]; intros raw Hr; cbn [chunks_le]; constructor; [|by apply IH, Forall_drop].
  pose proof (from_le_range _ (Forall_take _ 4 _ Hr)) as Hw. unfold zlen in Hw. rewrite length_take in Hw.
  assert (256 ^ Z.of_nat (4 `min` length raw) <= 256 ^ 4) by (apply Z.pow_le_mono_r; lia). solve_u.
Qed.

Lemma parses_borrowed_u32s l label :
  parses (borrowed_u32s (zlen l) label) (encode_words l) (encode_words l).
Proof.
  intros rest. unfold borrowed_u32s.
  destruct (Z.ltb_spec (zlen (encode_words l ++ rest) / 4) (zlen l)) as [Hl|_].
  - rewrite zlen_app, encode_words_size in Hl. pose proof (zlen_nonneg rest).
    assert (zlen l <= (zlen l * 4 + zlen rest) / 4) by (apply Z.div_le_lower_bound; lia). lia.
  - apply parses_slice. by rewrite encode_words_size.
Qed.

Lemma parses_passed {A} (p : parser A) enc v : parses p enc v -> parses (passed p) enc enc.
Proof.
  intros H rest. unfold passed. rewrite H, length_app.
  by replace (length enc + length rest - length rest)%nat with (length enc) by lia; rewrite take_app_length.
Qed.

Lemma capabilities_size c : zlen (encode_link_capabilities c) = 18.
Proof. unfold encode_link_capabilities, zlen. by rewrite !length_app, !length_le_bytes. Qed.

Definition capabilities_ok (c : LinkCapabilities) : Prop :=
  is_u32 (lc_flags c) /\ is_u32 (lc_max_frame_bytes c) /\ is_u32 (lc_compact_header_target_bytes c) /\
  is_u32 (lc_max_side_transport_templates c).

Lemma capabilities_decode c :
  capabilities_ok c -> decode_link_capabilities_payload (encode_link_capabilities c) = Ok c.
Proof.
  intros (H1 & H2 & H3 & H4). unfold decode_link_capabilities_payload.
  rewrite capabilities_size. cbn [Z.eqb negb Pos.eqb].
  assert (forall pre v post, is_u32 v -> word_at (length pre) (pre ++ le_bytes 4 v ++ post) = v) as Hw.
  { intros pre v post Hv. unfold word_at. rewrite drop_app_length, take_app_length' by (by rewrite length_le_bytes).
    apply from_le_bytes. solve_u. }
  destruct c as [ver fl pr mf ct mt]. unfold encode_link_capabilities. cbn [lc_version lc_flags lc_profile
    lc_max_frame_bytes lc_compact_header_target_bytes lc_max_side_transport_templates] in *. f_equal.
  pose proof (Hw [ver] fl ([pr] ++ le_bytes 4 mf ++ le_bytes 4 ct ++ le_bytes 4 mt) H1) as E1.
  pose proof (Hw ([ver] ++ le_bytes 4 fl ++ [pr]) mf (le_bytes 4 ct ++ le_bytes 4 mt) H2) as E2.
  pose proof (Hw ([ver] ++ le_bytes 4 fl ++ [pr] ++ le_bytes 4 mf) ct (le_bytes 4 mt) H3) as E3.
  pose proof (Hw ([ver] ++ le_bytes 4 fl ++ [pr] ++ le_bytes 4 mf ++ le_bytes 4 ct) mt [] H4) as E4.
  rewrite !length_app, !length_le_bytes in E2. rewrite !length_app, !length_le_bytes in E3.
  rewrite !length_app, !length_le_bytes in E4. rewrite <- ?app_assoc, ?app_nil_r in *.
  cbn [length Nat.add] in E1, E2, E3, E4. rewrite E1, E2, E3, E4. f_equal.
Qed.

(** The iterator of a view gives the strings that were written. *)
Lemma strings_of_encode l e :
  encode_strings l = Ok e -> Forall (fun s => utf8_valid s = true) l ->
  forall fuel, (length l <= fuel)%nat -> strings_of fuel e = l.
Proof.
  intros (encs & Hf & ->)%encode_all_ok Hu. induction Hf as [|s b l encs Hs Hf IH]; intros fuel Hl; cbn in Hl.
  { by destruct fuel. }
  apply Forall_cons in Hu as [Hu1 Hu]. destruct fuel as [|fuel]; [lia|]. cbn [concat strings_of].
  pose proof (parses_string "discovery address source" s b Hs Hu1 (concat encs)) as Hp.
  fold (borrowed_schema_string "discovery address source") in Hp. rewrite Hp, IH by (done || lia).
  destruct (b ++ concat encs) eqn:E; [|done]. exfalso. apply app_nil in E as [-> _].
  by apply encode_string_ok in Hs as [_ Hs].
Qed.

Lemma encode_strings_length l e : encode_strings l = Ok e -> (4 * length l <= length e)%nat.
Proof.
  intros (encs & Hf & ->)%encode_all_ok. induction Hf as [|s b l encs Hs Hf IH]; cbn; [lia|].
  apply encode_string_ok in Hs as [_ ->]. rewrite !length_app, length_le_bytes. lia.
Qed.

(** ** Addresses *)

Record address_ok (ad : AddressAdvertisement) : Prop := {
  ao_hostname : utf8_valid (ad_hostname ad) = true;
  ao_named : ad_hostname ad <> [];
  ao_address : is_u32 (ad_address ad);
  ao_addressed : ad_address ad <> 0;
  ao_requested : is_u32 (ad_requested_address ad);
  ao_birth : is_u64 (ad_birth_ms ad);
  ao_owner : is_u64 (ad_owner_hash ad);
  ao_endpoints : Forall is_u32 (ad_endpoints ad);
  ao_variables : Forall is_u32 (ad_network_variables ad);
  ao_sources : Forall (fun s => utf8_valid s = true) (ad_timesync_sources ad);
  ao_link : capabilities_ok (ad_link_capabilities ad);
}.

(** What an advertisement says: sets without the discovery endpoint, the types of
    discovery and empty names. *)
Definition normalize_address (ad : AddressAdvertisement) : AddressAdvertisement :=
  {| ad_hostname := ad_hostname ad; ad_address := ad_address ad;
     ad_requested_address := ad_requested_address ad; ad_mode := ad_mode ad; ad_state := ad_state ad;
     ad_birth_ms := ad_birth_ms ad; ad_owner_hash := ad_owner_hash ad;
     ad_endpoints := sort_dedup (filter (fun ep => is_discovery_endpoint ep = false) (ad_endpoints ad));
     ad_network_variables := sort_dedup (filter (fun ty => is_discovery_type ty = false) (ad_network_variables ad));
     ad_timesync_sources := sort_dedup (filter (fun s => is_empty s = false) (ad_timesync_sources ad));
     ad_link_capabilities := ad_link_capabilities ad |}.

Lemma counted_ok n label e : counted n label = Ok e <-> n <= u32_max /\ e = le_bytes 4 n.
Proof. unfold counted, try_u32. destruct (Z.leb_spec n u32_max); split; naive_solver lia. Qed.

Lemma forall_sort_dedup {T} `{OrdKey T} `{EqDecision T} (P : T -> Prop) l : Forall P l -> Forall P (sort_dedup l).
Proof. rewrite !Forall_forall. intros Hl x Hx. apply Hl. by rewrite sort_dedup_elem in Hx. Qed.

Lemma sort_dedup_filter {T} `{OrdKey T} `{EqDecision T} (P : T -> Prop) `{forall x, Decision (P x)} l :
  sort_dedup (filter P (sort_dedup l)) = sort_dedup (filter P l).
Proof.
  apply ascends_ext; [apply sort_dedup_ascends..|]. intros x.
  rewrite !sort_dedup_elem, !list_elem_of_filter, sort_dedup_elem. done.
Qed.

Lemma filter_twice {A} (P : A -> Prop) `{forall x, Decision (P x)} (l : list A) : filter P (filter P l) = filter P l.
Proof. apply filter_all, Forall_forall. by intros x [Hx _]%list_elem_of_filter. Qed.

Section AddressProof.
Context (ad : AddressAdvertisement) (Hok : address_ok ad).

Definition sent_endpoints : list DataEndpoint :=
  sort_dedup (filter (fun ep => is_discovery_endpoint ep = false) (ad_endpoints ad)).
Definition sent_variables : list DataType := sort_dedup (ad_network_variables ad).
Definition sent_sources : list bytes := sort_dedup (ad_timesync_sources ad).

Lemma sent_endpoints_range : Forall is_u32 sent_endpoints.
Proof. apply forall_sort_dedup, forall_filter, (ao_endpoints ad Hok). Qed.

Lemma sent_variables_range : Forall is_u32 sent_variables.
Proof. apply forall_sort_dedup, (ao_variables ad Hok). Qed.

Lemma sent_sources_text : Forall (fun s => utf8_valid s = true) sent_sources.
Proof. apply forall_sort_dedup, (ao_sources ad Hok). Qed.

Definition sent_view (srcs : bytes) : AddressView :=
  {| view_hostname := ad_hostname ad; view_address := ad_address ad;
     view_requested_address := ad_requested_address ad; view_mode := ad_mode ad; view_state := ad_state ad;
     view_birth_ms := ad_birth_ms ad; view_owner_hash := ad_owner_hash ad;
     view_raw_endpoints := encode_words sent_endpoints; view_raw_variables := encode_words sent_variables;
     view_raw_sources := srcs; view_link_capabilities := ad_link_capabilities ad |}.

Lemma parses_sources label srcs :
  encode_strings sent_sources = Ok srcs ->
  parses (times (Z.to_nat (zlen sent_sources)) (borrowed_schema_string label)) srcs sent_sources.
Proof.
  intros (encs & Hf & ->)%encode_all_ok. unfold zlen. rewrite Nat2Z.id. apply parses_times.
  pose proof sent_sources_text as Hu. induction Hf as [|s b l encs Hs Hf IH]; [constructor|].
  apply Forall_cons in Hu as [Hu1 Hu]. constructor; [by apply parses_string|by apply IH].
Qed.

Lemma count_fits_enough srcs rest label :
  encode_strings sent_sources = Ok srcs -> count_fits (zlen sent_sources) label (srcs ++ rest) = Ok (tt, srcs ++ rest).
Proof.
  intros Hs. unfold count_fits. pose proof (encode_strings_length _ _ Hs).
  destruct (Z.ltb_spec (zlen (srcs ++ rest) / 4) (zlen sent_sources)) as [Hl|]; [|done].
  assert (zlen sent_sources <= zlen (srcs ++ rest) / 4); [|lia].
  apply Z.div_le_lower_bound; [done|]. unfold zlen. rewrite length_app. lia.
Qed.

Lemma address_view_of pl :
  address_payload ad = Ok pl ->
  exists srcs, encode_strings sent_sources = Ok srcs /\ decode_address_view pl = Ok (sent_view srcs).
Proof.
  unfold address_payload, sort_dedup_strings. fold sent_endpoints sent_variables sent_sources.
  intros (host & Hh & Hr)%result_bind_ok. apply result_bind_ok in Hr as (ec & [He ->]%counted_ok & Hr).
  apply result_bind_ok in Hr as (vc & [Hv ->]%counted_ok & Hr).
  apply result_bind_ok in Hr as (sc & [Hs ->]%counted_ok & Hr).
  apply result_bind_ok in Hr as (srcs & Hsrc & <-%ok_inj). exists srcs. split; [exact Hsrc|].
  destruct Hok as [Hu Hn Ha Hz Hq Hb Ho _ _ _ Hl].
  pose proof (zlen_nonneg sent_endpoints). pose proof (zlen_nonneg sent_variables).
  pose proof (zlen_nonneg sent_sources).
  unfold decode_address_view, run. rewrite <- !app_assoc.
  change ([2; ad_mode ad; ad_state ad] ++ ?x) with ([2] ++ [ad_mode ad] ++ [ad_state ad] ++ x).
  rewrite (parse_step _ _ _ _ _ (parses_u8 _ 2)). cbn [Z.eqb Pos.eqb orb guard].
  rewrite (parse_skip _ _ tt) by (by apply parses_result).
  rewrite (parse_step _ _ _ _ _ (parses_u8 _ _)), (parse_step _ _ _ _ _ (parses_u8 _ _)).
  rewrite (parse_step _ _ _ _ _ (parses_u32 _ _ Ha)), (parse_step _ _ _ _ _ (parses_u32 _ _ Hq)).
  rewrite (parse_step _ _ _ _ _ (parses_u64 _ _ Hb)), (parse_step _ _ _ _ _ (parses_u64 _ _ Ho)).
  rewrite (parse_step _ _ _ _ _ (parses_string _ _ _ Hh Hu)).
  rewrite (parse_step _ _ (le_bytes 4 (zlen sent_endpoints)) (zlen sent_endpoints)) by (apply parses_u32; solve_u).
  rewrite (parse_step _ _ _ _ _ (parses_borrowed_u32s _ _)). cbn [Z.leb Z.compare Pos.compare Pos.compare_cont].
  rewrite bind_assoc_parser, (parse_step _ _ (le_bytes 4 (zlen sent_variables)) (zlen sent_variables)) by (apply parses_u32; solve_u).
  rewrite (parse_step _ _ _ _ _ (parses_borrowed_u32s _ _)).
  rewrite (parse_step _ _ (le_bytes 4 (zlen sent_sources)) (zlen sent_sources)) by (apply parses_u32; solve_u).
  unfold mbind at 1, parser_bind at 1. rewrite (count_fits_enough _ _ _ Hsrc).
  rewrite (parse_step _ _ _ _ _ (parses_passed _ _ _ (parses_sources _ _ Hsrc))).
  unfold mbind at 1, parser_bind at 1, trailing_capabilities. rewrite capabilities_decode by done.
  rewrite (parse_skip _ _ tt); [done|]. apply parses_result.
  destruct (Z.eqb_spec (ad_address ad) 0); [done|]. by destruct (ad_hostname ad).
Qed.
End AddressProof.

(** ** Packets built and decoded *)

(** The registry holds the types of discovery as the protocol defines them. *)
Definition protocol_schema (reg : Registry) : Prop :=
  forall kind, is_discovery_type kind = true ->
    element (message_meta reg kind) = Dynamic (if kind =? ty_DiscoveryAnnounce then UInt32 else UInt8) CData.

Lemma discovery_packet_ok reg tun counter kind sender0 ts pl :
  protocol_schema reg -> is_discovery_type kind = true ->
  (kind = ty_DiscoveryAnnounce -> zlen pl mod 4 = 0) ->
  exists p c, discovery_packet reg tun counter kind sender0 ts (Ok pl) = (Ok p, c) /\
    ty p = kind /\ payload p = pl /\ sender p = sender0 /\ timestamp p = ts /\ pkt_endpoints p = [ep_Discovery].
Proof.
  intros Hs Hk Hl. unfold discovery_packet, packet_new, new_with_nonce, new_with_owned_wire_contract.
  destruct (next_packet_nonce counter) as [n c]. unfold effective_element_of. rewrite (Hs kind Hk).
  unfold validate_payload_against_element, validate_dynamic_len_and_content_for_element.
  destruct (Z.eqb_spec kind ty_DiscoveryAnnounce) as [Ha|Ha]; cbn [data_type element_width].
  - rewrite (Hl Ha). cbn. eexists _, _. by split.
  - rewrite Z.mod_1_r. cbn. eexists _, _. by split.
Qed.

Lemma expect_ok {A} kind (decode : bytes -> result A) p pl :
  ty p = kind -> payload p = pl -> expect kind decode p = decode pl.
Proof. intros Ht <-. unfold expect. by rewrite Ht, Z.eqb_refl. Qed.

Lemma announce_decode eps :
  Forall is_u32 eps ->
  decode_discovery_payload (encode_words eps) = Ok (sort_dedup (filter (fun ep => is_discovery_endpoint ep = false) eps)).
Proof.
  intros He. unfold decode_discovery_payload. by rewrite encode_words_size, Z_mod_mult, words_of_encode.
Qed.

Lemma sources_decode reserve sources pl :
  (forall n, reserve n = true) -> Forall (fun s => utf8_valid s = true) sources ->
  zlen (sort_dedup sources) <= u32_max -> timesync_sources_payload sources = Ok pl ->
  decode_discovery_timesync_sources_payload reserve pl = Ok (sort_dedup (filter (fun s => is_empty s = false) sources)).
Proof.
  intros Hr Hu Hn (body & Hb & <-%ok_inj)%result_bind_ok. pose proof (zlen_nonneg (sort_dedup sources)) as H0.
  assert (parses (wire_vec reserve (zlen (sort_dedup sources)) 4 "discovery timesync source count" source_entry)
            body (sort_dedup sources)) as Hp.
  { apply encode_all_ok in Hb as (encs & Hf & ->).
    assert (Forall2 (fun s b => encode_string s = Ok b) (sort_dedup sources) encs) as Hf'.
    { eapply Forall2_impl; [exact Hf|]. intros s b. unfold encode_string. cbn beta. by destruct (try_u32 (zlen s)). }
    assert (Forall (fun s => utf8_valid s = true) (sort_dedup sources)) as Hu' by (by apply forall_sort_dedup).
    clear Hf. apply parses_vec; try done.
    - clear -Hf' Hu'. induction Hf' as [|s b l encs Hs Hf IH]; [constructor|]. apply Forall_cons in Hu' as [Hs' Hu].
      constructor; [|by apply IH]. apply encode_string_ok in Hs as [Hl ->]. pose proof (zlen_nonneg s).
      eapply parses_bind; [apply parses_u32; solve_u|]. eapply parses_map; [by apply parses_slice|].
      apply parses_result. unfold from_utf8. by rewrite Hs'.
    - clear -Hf'. induction Hf' as [|s b l encs Hs Hf IH]; constructor; [|done].
      apply encode_string_ok in Hs as [_ ->]. unfold zlen. rewrite length_app, length_le_bytes. lia. }
  unfold decode_discovery_timesync_sources_payload. unfold run. rewrite wrap32_small by solve_u.
  rewrite (parse_step _ _ (le_bytes 4 (zlen (sort_dedup sources))) (zlen (sort_dedup sources)))
    by (apply parses_u32; solve_u).
  rewrite <- (app_nil_r body), (parse_step _ _ _ _ _ Hp). cbn. f_equal. apply sort_dedup_filter.
Qed.

(** Announces, time sources, link capabilities and variable
    requests come back from the packets built for them, lists as the ascending
    sets they stand for, without the discovery endpoint and empty names. *)
Theorem discovery_messages_roundtrip reg tun reserve counter sender0 ts :
  protocol_schema reg -> (forall n, reserve n = true) ->
  (forall eps, Forall is_u32 eps ->
     exists p c, build_discovery_announce reg tun counter sender0 ts eps = (Ok p, c) /\
       decode_discovery_announce p = Ok (sort_dedup (filter (fun ep => is_discovery_endpoint ep = false) eps))) /\
  (forall sources pl, Forall (fun s => utf8_valid s = true) sources -> zlen (sort_dedup sources) <= u32_max ->
     timesync_sources_payload sources = Ok pl ->
     exists p c, build_discovery_timesync_sources reg tun counter sender0 ts sources = (Ok p, c) /\
       decode_discovery_timesync_sources reserve p = Ok (sort_dedup (filter (fun s => is_empty s = false) sources))) /\
  (forall caps, capabilities_ok caps ->
     exists p c, build_discovery_link_capabilities reg tun counter sender0 ts caps = (Ok p, c) /\
       decode_discovery_link_capabilities p = Ok caps) /\
  (forall kind, is_u32 kind ->
     exists p c, build_managed_variable_request reg tun counter sender0 ts kind = (Ok p, c) /\
       decode_managed_variable_request p = Ok kind).
Proof.
  intros Hs Hr. split_and!.
  - intros eps He. destruct (discovery_packet_ok reg tun counter ty_DiscoveryAnnounce sender0 ts (encode_words eps))
      as (p & c & Hp & Ht & Hl & _); [done|done|intros _; by rewrite encode_words_size, Z_mod_mult|].
    exists p, c. split; [exact Hp|]. unfold decode_discovery_announce. rewrite (expect_ok _ _ _ _ Ht Hl).
    by apply announce_decode.
  - intros sources pl Hu Hn Hpl. destruct (discovery_packet_ok reg tun counter ty_DiscoveryTimeSyncSources sender0 ts pl)
      as (p & c & Hp & Ht & Hl & _); [done..|]. exists p, c.
    unfold build_discovery_timesync_sources, decode_discovery_timesync_sources. rewrite Hpl.
    split; [exact Hp|]. rewrite (expect_ok _ _ _ _ Ht Hl). by apply sources_decode.
  - intros caps Hc. destruct (discovery_packet_ok reg tun counter ty_DiscoveryLinkCapabilities sender0 ts
      (encode_link_capabilities caps)) as (p & c & Hp & Ht & Hl & _); [done..|]. exists p, c. split; [exact Hp|].
    unfold decode_discovery_link_capabilities. rewrite (expect_ok _ _ _ _ Ht Hl). by apply capabilities_decode.
  - intros kind Hk. destruct (discovery_packet_ok reg tun counter ty_ManagedVariableRequest sender0 ts
      (encode_words [kind])) as (p & c & Hp & Ht & Hl & _); [done..|]. exists p, c. split; [exact Hp|].
    unfold decode_managed_variable_request. rewrite (expect_ok _ _ _ _ Ht Hl).
    rewrite encode_words_size. change (zlen [kind] * 4 =? 4) with true. cbn [negb].
    unfold encode_words. cbn [map concat]. rewrite app_nil_r, from_le_bytes by solve_u. done.
Qed.

Lemma is_empty_filter_length (l : list bytes) : zlen (filter (fun s => is_empty s = false) l) <= zlen l.
Proof. unfold zlen. pose proof (length_filter (fun s : bytes => is_empty s = false) l). lia. Qed.

Lemma room_ok reserve raw count label :
  (forall n, reserve n = true) -> count <= zlen raw / 4 -> room reserve raw count label = Ok tt.
Proof.
  intros Hr Hc. unfold room, run, bounded_wire_vec. cbn [Z.eqb orb].
  destruct (Z.ltb_spec (zlen raw / 4) count); [lia|]. by rewrite Hr.
Qed.

(** An address advertisement comes back from its packet as the
    sets it stands for. *)
Theorem address_roundtrip reg tun reserve counter sender0 ts ad pl :
  protocol_schema reg -> (forall n, reserve n = true) -> address_ok ad -> address_payload ad = Ok pl ->
  exists p c, build_discovery_address reg tun counter sender0 ts ad = (Ok p, c) /\
    decode_discovery_address reserve p = Ok (normalize_address ad).
Proof.
  intros Hs Hr Hok Hpl. destruct (address_view_of ad Hok pl Hpl) as (srcs & Hsrc & Hv).
  destruct (discovery_packet_ok reg tun counter ty_DiscoveryAddress sender0 ts pl)
    as (p & c & Hp & Ht & Hl & _); [done..|]. exists p, c.
  unfold build_discovery_address, decode_discovery_address. rewrite Hpl. split; [exact Hp|].
  rewrite (expect_ok _ _ _ _ Ht Hl), Hv, result_bind_run.
  assert (view_sources (sent_view ad srcs) = filter (fun s => is_empty s = false) (sent_sources ad)) as Hvs.
  { unfold view_sources, sent_view. cbn [view_raw_sources]. f_equal.
    apply strings_of_encode; [done|by apply sent_sources_text|].
    pose proof (encode_strings_length _ _ Hsrc). lia. }
  rewrite Hvs, !room_ok, !result_bind_run; try done; try lia.
  2: { pose proof (is_empty_filter_length (sent_sources ad)) as Hf.
    pose proof (encode_strings_length _ _ Hsrc) as Hlen. etrans; [exact Hf|].
    apply Z.div_le_lower_bound; [done|]. unfold sent_view, zlen. cbn [view_raw_sources]. lia. }
  unfold view_endpoints, view_variables, sent_view. cbn [view_raw_endpoints view_raw_variables view_hostname
    view_address view_requested_address view_mode view_state view_birth_ms view_owner_hash view_link_capabilities].
  rewrite !words_of_encode by (by apply sent_endpoints_range || by apply sent_variables_range).
  unfold normalize_address, sort_dedup_strings, sent_endpoints, sent_variables, sent_sources.
  by rewrite !sort_dedup_filter, filter_twice.
Qed.

(** *** Scoped requests *)

Lemma target_encode l i v : l !! i = Some v -> target (encode_words l) i = le_bytes 4 v.
Proof.
  intros Hi. rewrite <- (take_drop_middle l i v Hi). unfold target, encode_words.
  pose proof (lookup_lt_Some _ _ _ Hi) as Hlt. rewrite map_app, concat_app, drop_app_length'
    by (rewrite length_concat_le, length_take; lia).
  cbn [map concat]. by rewrite take_app_length' by (by rewrite length_le_bytes).
Qed.

Lemma le_word_inj v w : is_u32 v -> is_u32 w -> le_bytes 4 v = le_bytes 4 w -> v = w.
Proof. intros Hv Hw He. rewrite <- (from_le_bytes 4 v), <- (from_le_bytes 4 w), He by solve_u. done. Qed.

Lemma target_refused_spec l i v :
  Forall is_u32 l -> l !! i = Some v ->
  target_refused (encode_words l) i = false <-> v <> 0 /\ (v ∉ take i l).
Proof.
  intros Hl Hi. unfold target_refused. pose proof (lookup_lt_Some _ _ _ Hi) as Hlt.
  assert (is_u32 v) as Hv by (by eapply Forall_lookup_1). rewrite (target_encode l i v Hi).
  rewrite orb_false_iff, bool_decide_eq_false. change [0; 0; 0; 0] with (le_bytes 4 0).
  assert (le_bytes 4 v <> le_bytes 4 0 <-> v <> 0) as ->.
  { split; intros H; contradict H; [by rewrite H|]. apply le_word_inj; [done|done|exact H]. }
  apply and_iff_compat_l. rewrite <- not_true_iff_false. apply not_iff_compat. rewrite existsb_exists. split.
  - intros (old & Ho & He%bool_decide_eq_true). apply in_seq in Ho.
    destruct (lookup_lt_is_Some_2 l old) as [w Hw]; [lia|].
    rewrite (target_encode _ _ _ Hw) in He. apply le_word_inj in He; [|by eapply Forall_lookup_1|done]. subst w.
    apply list_elem_of_lookup. exists old. rewrite lookup_take. by rewrite decide_True by lia.
  - intros (old & Ho)%list_elem_of_lookup. apply lookup_take_Some in Ho as [Ho Hlo]. exists old.
    split; [apply in_seq; lia|]. apply bool_decide_eq_true. by rewrite (target_encode _ _ _ Ho).
Qed.

Lemma targets_refused_spec l :
  Forall is_u32 l ->
  existsb (target_refused (encode_words l)) (seq 0 (length l)) = false <-> NoDup l /\ (0 ∉ l).
Proof.
  intros Hl. rewrite <- not_true_iff_false, existsb_exists. split.
  - intros Hn. assert (forall i v, l !! i = Some v -> v <> 0 /\ (v ∉ take i l)) as H.
    { intros i v Hi. apply (target_refused_spec l i v Hl Hi). apply not_true_iff_false. intros Ht. apply Hn.
      exists i. split; [|done]. apply in_seq. apply lookup_lt_Some in Hi. lia. }
    split.
    + apply NoDup_alt. intros i j v Hi Hj. destruct (Nat.lt_trichotomy i j) as [Hij|[|Hij]]; [exfalso|done|exfalso].
      * apply (proj2 (H j v Hj)). apply list_elem_of_lookup. exists i. rewrite lookup_take. by rewrite decide_True by lia.
      * apply (proj2 (H i v Hi)). apply list_elem_of_lookup. exists j. rewrite lookup_take. by rewrite decide_True by lia.
    + intros [i Hi]%list_elem_of_lookup. by destruct (H i 0 Hi).
  - intros [Hd H0] (i & Hi%in_seq & Ht). destruct (lookup_lt_is_Some_2 l i) as [v Hv]; [lia|].
    assert (target_refused (encode_words l) i = false); [|congruence].
    apply (target_refused_spec l i v Hl Hv). split.
    + intros ->. by apply H0, list_elem_of_lookup_2 with i.
    + intros (j & Hj)%list_elem_of_lookup. apply lookup_take_Some in Hj as [Hj Hji].
      pose proof (NoDup_lookup _ _ _ _ Hd Hj Hv). lia.
Qed.

(** A request for the schemas of some boards is built exactly for
    one to eight distinct non-zero addresses, and its receiver reads these. *)
Theorem scoped_request_spec addresses :
  Forall is_u32 addresses ->
  let ok := addresses <> [] /\ zlen addresses <= SCHEMA_REQUEST_MAX_TARGETS /\ NoDup addresses /\ (0 ∉ addresses) in
  match scoped_request_payload addresses with
  | Ok body => ok /\ words_of <$> schema_request_targets body = Some addresses
  | Err e => ~ ok /\ e = BadArg
  end.
Proof.
  intros Hl ok. unfold scoped_request_payload.
  destruct (is_empty addresses || _) eqn:E; cbn [orb].
  { split; [|done]. intros (Hne & Hlen & _). apply orb_true_iff in E as [E|E%Z.ltb_lt]; [|lia].
    by destruct addresses. }
  apply orb_false_iff in E as [Ene Elen%Z.ltb_ge].
  assert (0 < zlen addresses) as Hpos by (destruct addresses; [done|unfold zlen; cbn; lia]).
  assert (zlen addresses <= 8) as H8 by exact Elen.
  set (body := schema_request_magic ++ _ ++ _).
  assert (schema_request_targets body =
    if existsb (target_refused (encode_words addresses)) (seq 0 (length addresses)) then None
    else Some (encode_words addresses)) as Hb.
  { unfold schema_request_targets, body. rewrite wrap8_small by solve_u.
    assert (zlen (schema_request_magic ++ [zlen addresses] ++ encode_words addresses) = 5 + zlen addresses * 4) as Hz.
    { rewrite !zlen_app, encode_words_size. unfold schema_request_magic, zlen. cbn [length]. lia. }
    rewrite Hz. destruct (Z.ltb_spec (5 + zlen addresses * 4) 5); [lia|].
    cbn [schema_request_magic app take nth drop].
    rewrite bool_decide_eq_true_2 by done. cbn [orb negb]. rewrite (proj2 (Z.eqb_neq _ 0)), Z.eqb_refl by lia.
    rewrite (proj2 (Z.ltb_ge _ _)) by lia. cbn [orb negb]. unfold zlen. by rewrite Nat2Z.id. }
  rewrite Hb. pose proof (targets_refused_spec addresses Hl) as Ht.
  destruct (existsb (target_refused (encode_words addresses)) (seq 0 (length addresses))).
  - split; [|done]. intros (_ & _ & Hok). by apply Ht in Hok.
  - destruct (proj1 Ht eq_refl) as [Hd H0]. split.
    + unfold ok. split; [by destruct addresses|]. done.
    + rewrite Hb. change (Some (words_of (encode_words addresses)) = Some addresses).
      by rewrite words_of_encode.
Qed.

(** *** Addresses off the wire *)

Lemma guard_inv b label l u l' : guard b label l = Ok (u, l') -> b = true /\ l' = l.
Proof. unfold guard, p_result. destruct b; [|done]. intros H%ok_inj. by injection H as _ <-. Qed.

Lemma ret_inv {A} (a b : A) l l' : (mret a : parser A) l = Ok (b, l') -> b = a.
Proof. intros H%ok_inj. by injection H as <- _. Qed.

(** A view exists only for a named board with an address. *)
Lemma view_addressed pl v : decode_address_view pl = Ok v -> view_hostname v <> [] /\ view_address v <> 0.
Proof.
  unfold decode_address_view. intros (l' & H)%run_ok.
  repeat (apply parse_inv in H as (? & ? & ?Hp & H)). apply ret_inv in H as ->. cbn [view_hostname view_address].
  match goal with Hg : guard (negb _) _ _ = Ok _ |- _ => apply guard_inv in Hg as [Hb _] end.
  apply negb_true_iff, orb_false_iff in Hb as [Hh Ha%Z.eqb_neq].
  split; [|done]. intros ->. done.
Qed.

Lemma sort_dedup_filter_own {T} `{OrdKey T} `{EqDecision T} (P : T -> Prop) `{forall x, Decision (P x)} (l : list T) :
  sort_dedup (filter P (sort_dedup (filter P l))) = sort_dedup (filter P l).
Proof. by rewrite sort_dedup_filter, filter_twice. Qed.

(** Whatever bytes arrive as an address advertisement, what is
    accepted names a board and its address, and is in normal form: building it
    again and decoding changes nothing. *)
Theorem decoded_address_canonical reserve p ad :
  decode_discovery_address reserve p = Ok ad ->
  ad_hostname ad <> [] /\ ad_address ad <> 0 /\ normalize_address ad = ad.
Proof.
  unfold decode_discovery_address, expect. destruct (negb _); [done|].
  intros (v & Hv & H)%result_bind_ok. apply view_addressed in Hv as [Hh Ha].
  do 3 apply result_bind_ok in H as (? & _ & H). apply ok_inj in H as <-.
  split; [done|]. split; [done|]. unfold normalize_address, view_endpoints, view_variables, view_sources, sort_dedup_strings.
  cbn [ad_hostname ad_address ad_requested_address ad_mode ad_state ad_birth_ms ad_owner_hash ad_endpoints
       ad_network_variables ad_timesync_sources ad_link_capabilities].
  by rewrite !sort_dedup_filter_own.
Qed.

(** *** Cadence *)

(** After a change of the topology the interval doubles with every announce, from a
    quarter of a second to five seconds. *)
Lemma cadence_backoff c t sent :
  current_interval_ms (foldl on_announce_sent (on_topology_change c t) sent) =
    Z.min DISCOVERY_SLOW_INTERVAL_MS (DISCOVERY_FAST_INTERVAL_MS * 2 ^ zlen sent).
Proof.
  induction sent as [|x sent IH] using rev_ind; [done|]. rewrite foldl_app. cbn [foldl on_announce_sent current_interval_ms].
  rewrite IH, zlen_app. change (zlen [x]) with 1. rewrite Z.pow_add_r by (done || apply zlen_nonneg).
  assert (0 < 2 ^ zlen sent) by (apply Z.pow_pos_nonneg; [done|apply zlen_nonneg]).
  unfold sat_mul, DISCOVERY_SLOW_INTERVAL_MS, DISCOVERY_FAST_INTERVAL_MS, u64_max. lia.
Qed.

(** An announce is due at once after a change, and after an announce not before the
    interval that was current. *)
Lemma cadence_due c now t :
  is_u64 now -> is_u64 (current_interval_ms c) -> is_u64 t ->
  due (on_topology_change c now) now = true /\
  (due (on_announce_sent c now) t = true <-> Z.min u64_max (now + current_interval_ms c) <= t).
Proof.
  intros Hn Hi Ht. unfold due. cbn [on_topology_change on_announce_sent next_announce_ms].
  rewrite !Z.leb_le. unfold sat_add. split; [lia|done].
Qed.

(** ** Samples *)

Lemma initial_protocol_schema : protocol_schema initial_registry.
Proof.
  intros kind Hk. unfold is_discovery_type, one_of in Hk. apply existsb_exists in Hk as (k & Hin & ->%Z.eqb_eq).
  repeat destruct Hin as [<-|Hin]; try (vm_compute; reflexivity). destruct Hin.
Qed.

Definition grants (n : Z) : bool := true.

Definition sample_capabilities : LinkCapabilities :=
  {| lc_version := 1; lc_flags := 7; lc_profile := 2; lc_max_frame_bytes := 512;
     lc_compact_header_target_bytes := 8; lc_max_side_transport_templates := 16 |}.

Definition sample_address : AddressAdvertisement :=
  {| ad_hostname := [71; 87]; ad_address := 7; ad_requested_address := 0; ad_mode := 0; ad_state := 1;
     ad_birth_ms := 12345; ad_owner_hash := 99; ad_endpoints := [105; ep_Discovery; 101; 105];
     ad_network_variables := [120; ty_DiscoveryAddress]; ad_timesync_sources := [[84]; []; [67; 76]];
     ad_link_capabilities := sample_capabilities |}.

Lemma sample_capabilities_ok : capabilities_ok sample_capabilities.
Proof. unfold capabilities_ok, is_u32; cbn; unfold u32_max; lia. Qed.

Lemma sample_address_ok : address_ok sample_address.
Proof.
  constructor; try exact sample_capabilities_ok; try reflexivity; try discriminate;
    try (unfold is_u32, is_u64, u32_max, u64_max; cbn; lia).
  - repeat (apply Forall_cons; split; [unfold is_u32, u32_max, ep_Discovery; lia|]). constructor.
  - repeat (apply Forall_cons; split; [unfold is_u32, u32_max, ty_DiscoveryAddress; lia|]). constructor.
  - repeat (apply Forall_cons; split; [reflexivity|]). constructor.
Qed.

Definition sample_address_payload : bytes :=
  Eval vm_compute in match address_payload sample_address with Ok pl => pl | Err _ => [] end.

Lemma discovery_messages_roundtrip_witness :
  exists p c, build_discovery_timesync_sources initial_registry sample_tuning 5 [71] 9 [[84]; []; [67]] = (Ok p, c) /\
    decode_discovery_timesync_sources grants p = Ok [[67]; [84]].
Proof.
  pose proof (discovery_messages_roundtrip initial_registry sample_tuning grants 5 [71] 9 initial_protocol_schema
    (fun n => eq_refl)) as H. destruct H as [_ [Hs _]].
  apply (Hs [[84]; []; [67]] [3; 0; 0; 0; 0; 0; 0; 0; 1; 0; 0; 0; 67; 1; 0; 0; 0; 84]).
  - repeat constructor.
  - vm_compute. done.
  - vm_compute. reflexivity.
Defined.

Lemma address_roundtrip_witness :
  exists p c, build_discovery_address initial_registry sample_tuning 5 [71] 9 sample_address = (Ok p, c) /\
    decode_discovery_address grants p = Ok (normalize_address sample_address).
Proof.
  apply (address_roundtrip initial_registry sample_tuning grants 5 [71] 9 sample_address sample_address_payload
    initial_protocol_schema (fun n => eq_refl) sample_address_ok).
  vm_compute. reflexivity.
Defined.

Lemma scoped_request_spec_witness :
  scoped_request_payload [7; 7] = Err BadArg /\ ~ NoDup [7; 7].
Proof.
  split; [vm_compute; reflexivity|]. intros Hd.
  pose proof (scoped_request_spec [7; 7]) as H.
  assert (Forall is_u32 [7; 7]) as Hw by (repeat (apply Forall_cons; split; [unfold is_u32, u32_max; lia|]); constructor). specialize (H Hw).
  change (scoped_request_payload [7; 7]) with (@Err bytes BadArg) in H. cbv zeta iota beta in H. destruct H as [H _].
  apply H. split_and!; [done|vm_compute; done|exact Hd|].
  rewrite !elem_of_cons. intros [Hx|[Hx|Hx]]; [done|done|by apply not_elem_of_nil in Hx].
Defined.

Definition sample_address_packet : result Packet :=
  fst (build_discovery_address initial_registry sample_tuning 5 [71] 9 sample_address).

Definition sample_decoded : AddressAdvertisement :=
  Eval vm_compute in normalize_address sample_address.

Lemma decoded_address_canonical_witness :
  match sample_address_packet with
  | Ok p => decode_discovery_address grants p = Ok sample_decoded /\ normalize_address sample_decoded = sample_decoded
  | Err _ => False
  end.
Proof.
  destruct sample_address_packet as [p|e] eqn:E; [|vm_compute in E; done].
  assert (decode_discovery_address grants p = Ok sample_decoded) as Hd.
  { assert (Ok p = sample_address_packet) as Hp by done. vm_compute in Hp. apply ok_inj in Hp as ->.
    vm_compute. reflexivity. }
  split; [exact Hd|]. by apply (decoded_address_canonical grants p sample_decoded).
Defined.
