(* ===== verification/TopologyCodec.v ===== *)
(** * Topology messages (src/src/discovery.rs)

    The payloads that carry a topology graph or a delta between two, their decoders
    and the test that recognises an update which changes nothing. *)

From S2P Require Import Prelude Schema Packet SchemaRegistry SchemaMerge SmallSort SortedList Topology DiscoveryWire DiscoveryCodec.

Open Scope Z_scope.

Definition DISCOVERY_TOPOLOGY_DELTA_MARKER : Z := 0.

(** ** Encoding *)

(** [windows(2).all(|pair| pair[0] < pair[1])]. *)
Fixpoint strictly {T} `{OrdKey T} (l : list T) : bool :=
  match l with
  | a :: (b :: _) as l => kltb a b && strictly l
  | _ => true
  end.

Definition board_in_order (b : TopologyBoardNode) : bool :=
  forallb (fun ep => negb (is_router_control_endpoint ep)) (reachable_endpoints b)
  && strictly (reachable_endpoints b)
  && strictly (reachable_timesync_sources b)
  && forallb (fun peer => negb (bool_decide (peer = sender_id b))) (connections b)
  && strictly (connections b).

Definition boards_in_order (boards : list TopologyBoardNode) : bool :=
  strictly (map sender_id boards) && forallb board_in_order boards.

(** The size of the payload, counted with saturation. *)
Definition count_strings (l : list bytes) (length : Z) : Z :=
  foldl (fun length s => sat_add (sat_add length 4) (zlen s)) length l.

Definition count_board (length : Z) (b : TopologyBoardNode) : Z :=
  count_strings (reachable_timesync_sources b ++ connections b)
    (sat_add (sat_add (sat_add length 16) (zlen (sender_id b))) (sat_mul (zlen (reachable_endpoints b)) 4)).

Definition payload_length (boards : list TopologyBoardNode) (removed : option (list bytes)) : Z :=
  let length := foldl count_board 4 boards in
  match removed with
  | Some removed => count_strings removed (sat_add length 8)
  | None => length
  end.

Definition encode_board (b : TopologyBoardNode) : result bytes :=
  id ← encode_string (sender_id b);
  srcs ← encode_strings (reachable_timesync_sources b);
  peers ← encode_strings (connections b);
  Ok (id ++ le_bytes 4 (wrap32 (zlen (reachable_endpoints b))) ++ encode_words (reachable_endpoints b) ++
      le_bytes 4 (wrap32 (zlen (reachable_timesync_sources b))) ++ srcs ++
      le_bytes 4 (wrap32 (zlen (connections b))) ++ peers).

Section Topology.
Context (reg : Registry) (tun : Tuning) (reserve : Z -> bool).

Definition topology_payload (boards : list TopologyBoardNode) (removed : option (list bytes)) : result bytes :=
  let ordered := boards_in_order boards in
  let normalized := if ordered then boards else normalize_topology_boards boards in
  if ordered && negb (reserve (payload_length normalized removed)) then Err (Io "memory pressure")
  else
    let marker := if removed is Some _ then le_bytes 4 DISCOVERY_TOPOLOGY_DELTA_MARKER else [] in
    body ← encode_all encode_board normalized;
    tail ← match removed with
           | Some removed => names ← encode_strings removed; Ok (le_bytes 4 (wrap32 (zlen removed)) ++ names)
           | None => Ok []
           end;
    Ok (marker ++ le_bytes 4 (wrap32 (zlen normalized)) ++ body ++ tail).

Definition build_discovery_topology (counter : Z) (sender : bytes) (timestamp_ms : Z)
    (boards : list TopologyBoardNode) : result Packet * Z :=
  discovery_packet reg tun counter ty_DiscoveryTopology sender timestamp_ms (topology_payload boards None).

Definition build_discovery_topology_delta (counter : Z) (sender : bytes) (timestamp_ms : Z)
    (boards : list TopologyBoardNode) (removed : list bytes) : result Packet * Z :=
  discovery_packet reg tun counter ty_DiscoveryTopology sender timestamp_ms (topology_payload boards (Some removed)).

(** ** Decoding *)

Definition decode_board : parser TopologyBoardNode :=
  id ← decode_string "discovery topology sender id";
  ep_count ← read_u32 "discovery topology endpoint count";
  eps ← wire_vec reserve ep_count 4 "discovery topology endpoint count" (read_u32 "discovery topology endpoint");
  src_count ← read_u32 "discovery topology timesync source count";
  srcs ← wire_vec reserve src_count 4 "discovery topology timesync source count"
           (decode_string "discovery topology timesync source");
  peer_count ← read_u32 "discovery topology connection count";
  peers ← wire_vec reserve peer_count 4 "discovery topology connection count"
            (decode_string "discovery topology connection");
  mret {| sender_id := id;
          reachable_endpoints := filter (fun ep => is_discovery_endpoint ep = false) eps;
          reachable_timesync_sources := filter (fun s => is_empty s = false) srcs;
          connections := filter (fun s => is_empty s = false) peers |}.

Definition decode_topology_boards (count : Z) : parser (list TopologyBoardNode) :=
  wire_vec reserve count 16 "discovery topology board count" decode_board.

Definition decode_discovery_topology_payload (payload : bytes) : result (list TopologyBoardNode) :=
  run (count ← read_u32 "discovery topology board count";
       boards ← decode_topology_boards count;
       _ ← at_end "discovery topology trailing bytes";
       mret (normalize_topology_boards boards)) payload.

Definition decode_topology_delta : parser DiscoveryTopologyUpdate :=
  count ← read_u32 "discovery topology delta count";
  boards ← decode_topology_boards count;
  removed_count ← read_u32 "discovery topology removal count";
  removed ← wire_vec reserve removed_count 4 "discovery topology removal count"
              (decode_string "discovery topology removed sender id");
  _ ← at_end "discovery topology trailing bytes";
  mret {| incremental := true; boards := normalize_topology_boards boards; removed := sort_dedup removed |}.

Definition decode_topology_update_payload (payload : bytes) : result DiscoveryTopologyUpdate :=
  match read_u32 "discovery topology board count" payload with
  | Err e => Err e
  | Ok (first, rest) =>
      if first =? DISCOVERY_TOPOLOGY_DELTA_MARKER then run decode_topology_delta rest
      else
        boards ← decode_discovery_topology_payload payload;
        Ok {| incremental := false; boards := boards; removed := [] |}
  end.

Definition decode_discovery_topology_update (p : Packet) : result DiscoveryTopologyUpdate :=
  expect ty_DiscoveryTopology decode_topology_update_payload p.

Definition decode_discovery_topology (p : Packet) : result (list TopologyBoardNode) :=
  u ← decode_discovery_topology_update p; Ok (boards u).

Definition topology_payload_is_incremental (payload : bytes) : bool :=
  bool_decide (take 4 payload = le_bytes 4 DISCOVERY_TOPOLOGY_DELTA_MARKER).

(** ** The update that changes nothing *)

Definition word (input : bytes) : option (Z * bytes) :=
  if zlen input <? 4 then None else Some (from_le (take 4 input), drop 4 input).

Definition text (input : bytes) : option (bytes * bytes) :=
  '(count, input) ← word input;
  if zlen input <? count then None
  else
    let head := take (Z.to_nat count) input in
    if utf8_valid head then Some (head, drop (Z.to_nat count) input) else None.

Fixpoint match_words (l : list Z) (input : bytes) : option bytes :=
  match l with
  | [] => Some input
  | v :: l => '(w, input) ← word input; if w =? v then match_words l input else None
  end.

Fixpoint match_texts (l : list bytes) (input : bytes) : option bytes :=
  match l with
  | [] => Some input
  | v :: l => '(s, input) ← text input; if decide (s = v) then match_texts l input else None
  end.

Definition match_count (n : Z) (input : bytes) : option bytes :=
  '(w, input) ← word input; if w =? n then Some input else None.

Definition match_board (b : TopologyBoardNode) (input : bytes) : option bytes :=
  input ← match_count (zlen (reachable_endpoints b)) input;
  input ← match_words (reachable_endpoints b) input;
  input ← match_count (zlen (reachable_timesync_sources b)) input;
  input ← match_texts (reachable_timesync_sources b) input;
  input ← match_count (zlen (connections b)) input;
  match_texts (connections b) input.

Fixpoint match_boards (n : nat) (previous : option bytes) (retained : list TopologyBoardNode) (input : bytes)
    : option bytes :=
  match n with
  | O => Some input
  | S n =>
      '(name, input) ← text input;
      if match previous with Some previous => negb (kltb previous name) | None => false end then None
      else
        b ← find_board name retained;
        input ← match_board b input;
        match_boards n (Some name) retained input
  end.

Fixpoint match_removed (n : nat) (retained : list TopologyBoardNode) (input : bytes) : option bytes :=
  match n with
  | O => Some input
  | S n => '(name, input) ← text input; if named name retained then None else match_removed n retained input
  end.

Definition topology_payload_matches_retained (payload : bytes) (retained : list TopologyBoardNode) : option bool :=
  '(first, input) ← word payload;
  let full := negb (first =? DISCOVERY_TOPOLOGY_DELTA_MARKER) in
  '(count, input) ← (if full then Some (first, input) else word input);
  if (full && negb (count =? zlen retained)) || (zlen input / 16 <? count) then None
  else
    input ← match_boards (Z.to_nat count) None retained input;
    input ← (if full then Some input
             else
               '(n, input) ← word input;
               if zlen input / 4 <? n then None else match_removed (Z.to_nat n) retained input);
    if is_empty input then Some full else None.
End Topology.

(** ** The order test *)

Lemma strictly_spec {T} `{OrdKey T} (l : list T) : strictly l = true <-> StronglySorted klt l.
Proof.
  induction l as [|a l IH]; [split; [constructor|done]|]. destruct l as [|b l].
  { split; [intros _; repeat constructor|done]. }
  change (strictly (a :: b :: l)) with (kltb a b && strictly (b :: l)). rewrite andb_true_iff, IH, kltb_klt. split.
  - intros [Hab Hs]. constructor; [done|]. constructor; [done|]. apply StronglySorted_inv in Hs as [_ Hb].
    eapply Forall_impl; [exact Hb|]. intros c Hc. by eapply klt_trans.
  - intros Hs. apply StronglySorted_inv in Hs as [Hs Ha]. split; [by inversion Ha|done].
Qed.

Lemma board_in_order_spec b : board_in_order b = true <-> board_canonical b.
Proof.
  unfold board_in_order. rewrite !andb_true_iff, !strictly_spec, !forallb_forall.
  setoid_rewrite negb_true_iff. setoid_rewrite bool_decide_eq_false. setoid_rewrite <- list_elem_of_In.
  split.
  - intros ((((H1 & H2) & H3) & H4) & H5). constructor; try done; by apply Forall_forall.
  - intros [H1 H2 H3 H4 H5]. rewrite Forall_forall in H4. rewrite Forall_forall in H5. done.
Qed.

Lemma sorted_map_key {A} (key : A -> bytes) (l : list A) :
  StronglySorted klt (map key l) <-> StronglySorted (fun a b => klt (key a) (key b)) l.
Proof.
  induction l as [|a l IH]; cbn [map]; [split; constructor|].
  assert (Forall (klt (key a)) (map key l) <-> Forall (fun b => klt (key a) (key b)) l) as Ha
    by apply (Forall_fmap key).
  split; intros Hs; apply StronglySorted_inv in Hs as [Hs H]; (constructor; [by apply IH|by apply Ha]).
Qed.

Lemma boards_in_order_spec l : boards_in_order l = true <-> canonical l.
Proof.
  unfold boards_in_order. rewrite andb_true_iff, strictly_spec, sorted_map_key, forallb_forall. split.
  - intros [H1 H2]. constructor; [|done]. apply Forall_forall. intros b Hb. apply board_in_order_spec, H2.
    by apply list_elem_of_In.
  - intros [H1 H2]. split; [done|]. rewrite Forall_forall in H1. intros b Hb%list_elem_of_In.
    by apply board_in_order_spec, H1.
Qed.

Lemma normalized_boards boards :
  (if boards_in_order boards then boards else normalize_topology_boards boards) = normalize_topology_boards boards.
Proof.
  destruct (boards_in_order boards) eqn:E; [|done]. symmetry. apply normalize_id. by apply boards_in_order_spec.
Qed.

(** ** What a payload holds *)

Lemma topology_payload_ok reserve boards removed pl :
  topology_payload reserve boards removed = Ok pl ->
  exists body, encode_all encode_board (normalize_topology_boards boards) = Ok body /\
    let count := le_bytes 4 (wrap32 (zlen (normalize_topology_boards boards))) in
    match removed with
    | None => pl = count ++ body
    | Some removed => exists names, encode_strings removed = Ok names /\
        pl = le_bytes 4 0 ++ count ++ body ++ le_bytes 4 (wrap32 (zlen removed)) ++ names
    end.
Proof.
  unfold topology_payload. rewrite normalized_boards. destruct (_ && _); [done|].
  intros (body & Hb & H)%result_bind_ok. exists body. split; [done|].
  destruct removed as [removed|].
  - apply result_bind_ok in H as (tail & Ht & <-%ok_inj). apply result_bind_ok in Ht as (names & Hn & <-%ok_inj).
    exists names. done.
  - rewrite result_bind_run in H. apply ok_inj in H as <-. by rewrite app_nil_r.
Qed.

(** *** Its size *)

Definition strings_size (l : list bytes) : Z := foldr (fun s n => 4 + zlen s + n) 0 l.
Definition board_size (b : TopologyBoardNode) : Z :=
  16 + zlen (sender_id b) + 4 * zlen (reachable_endpoints b) +
  strings_size (reachable_timesync_sources b ++ connections b).

Lemma strings_size_cons s l : strings_size (s :: l) = 4 + zlen s + strings_size l.
Proof. done. Qed.

Lemma strings_size_nonneg l : 0 <= strings_size l.
Proof. induction l as [|s l IH]; [done|]. rewrite strings_size_cons. pose proof (zlen_nonneg s). lia. Qed.

Lemma board_size_pos b : 16 <= board_size b.
Proof.
  unfold board_size. pose proof (zlen_nonneg (sender_id b)). pose proof (zlen_nonneg (reachable_endpoints b)).
  pose proof (strings_size_nonneg (reachable_timesync_sources b ++ connections b)). lia.
Qed.

Lemma count_strings_spec l n :
  0 <= n <= u64_max -> count_strings l n = Z.min u64_max (n + strings_size l).
Proof.
  unfold count_strings. revert n. induction l as [|s l IH]; intros n Hn; cbn [foldl]; [cbn; lia|].
  rewrite strings_size_cons. pose proof (zlen_nonneg s). pose proof (strings_size_nonneg l).
  rewrite IH; unfold sat_add; lia.
Qed.

Lemma count_board_spec n b :
  0 <= n <= u64_max -> count_board n b = Z.min u64_max (n + board_size b).
Proof.
  intros Hn. unfold count_board, board_size. pose proof (zlen_nonneg (sender_id b)).
  pose proof (zlen_nonneg (reachable_endpoints b)).
  pose proof (strings_size_nonneg (reachable_timesync_sources b ++ connections b)).
  rewrite count_strings_spec; unfold sat_add, sat_mul; lia.
Qed.

Definition boards_size (l : list TopologyBoardNode) : Z := foldr (fun b n => board_size b + n) 0 l.

Lemma boards_size_cons b l : boards_size (b :: l) = board_size b + boards_size l.
Proof. done. Qed.

Lemma boards_size_nonneg l : 0 <= boards_size l.
Proof. induction l as [|b l IH]; [done|]. rewrite boards_size_cons. pose proof (board_size_pos b). lia. Qed.

Lemma count_boards_spec l n :
  0 <= n <= u64_max -> foldl count_board n l = Z.min u64_max (n + boards_size l).
Proof.
  revert n. induction l as [|b l IH]; intros n Hn; cbn [foldl]; [cbn; lia|].
  rewrite boards_size_cons. pose proof (board_size_pos b). pose proof (boards_size_nonneg l).
  rewrite count_board_spec by done. rewrite IH; lia.
Qed.

Lemma payload_length_spec boards removed :
  payload_length boards removed =
    Z.min u64_max (4 + boards_size boards + match removed with Some r => 8 + strings_size r | None => 0 end).
Proof.
  unfold payload_length. pose proof (boards_size_nonneg boards). rewrite count_boards_spec by (unfold u64_max; lia).
  destruct removed as [r|]; [|lia]. pose proof (strings_size_nonneg r).
  rewrite count_strings_spec; unfold sat_add, u64_max; lia.
Qed.

Lemma encode_strings_size l e : encode_strings l = Ok e -> zlen e = strings_size l.
Proof.
  intros (encs & Hf & ->)%encode_all_ok. induction Hf as [|s b l encs Hs Hf IH]; [done|].
  apply encode_string_ok in Hs as [_ ->]. cbn [concat]. rewrite strings_size_cons, !zlen_app, IH. unfold zlen at 1. rewrite length_le_bytes. lia.
Qed.

Lemma strings_size_app l1 l2 : strings_size (l1 ++ l2) = strings_size l1 + strings_size l2.
Proof. induction l1 as [|s l1 IH]; [done|]. cbn [app]. rewrite !strings_size_cons. lia. Qed.

Lemma encode_board_size b e : encode_board b = Ok e -> zlen e = board_size b.
Proof.
  intros (id & Hi & H)%result_bind_ok. apply result_bind_ok in H as (srcs & Hs & H).
  apply result_bind_ok in H as (peers & Hp & <-%ok_inj). apply encode_string_ok in Hi as [_ ->].
  apply encode_strings_size in Hs, Hp. rewrite !zlen_app, encode_words_size, Hs, Hp. unfold board_size.
  rewrite strings_size_app. unfold zlen. rewrite !length_le_bytes. lia.
Qed.

Lemma encode_boards_size l e : encode_all encode_board l = Ok e -> zlen e = boards_size l.
Proof.
  intros (encs & Hf & ->)%encode_all_ok. induction Hf as [|b e l encs Hb Hf IH]; [done|].
  cbn [concat]. by rewrite boards_size_cons, zlen_app, IH, (encode_board_size _ _ Hb).
Qed.

(** The space reserved for a topology payload is exactly its size,
    so that building it never reallocates and its debug assertion holds. *)
Theorem topology_payload_size reserve boards removed pl :
  topology_payload reserve boards removed = Ok pl -> zlen pl <= u64_max ->
  payload_length (normalize_topology_boards boards) removed = zlen pl.
Proof.
  intros (body & Hb & H)%topology_payload_ok Hpl. rewrite payload_length_spec.
  apply encode_boards_size in Hb. cbv zeta in H. destruct removed as [r|].
  - destruct H as (names & Hn%encode_strings_size & ->). rewrite !zlen_app, Hb, Hn in *.
    unfold zlen in *. rewrite !length_le_bytes in *. lia.
  - subst pl. rewrite zlen_app, Hb in *. unfold zlen in *. rewrite length_le_bytes in *. lia.
Qed.

(** ** Round trips *)

(** A node that fits a payload and loses nothing in it. *)
Record board_wire (b : TopologyBoardNode) : Prop := {
  bw_id : utf8_valid (sender_id b) = true;
  bw_endpoints : Forall is_u32 (reachable_endpoints b);
  bw_sources : Forall (fun s => utf8_valid s = true /\ s <> []) (reachable_timesync_sources b);
  bw_connections : Forall (fun s => utf8_valid s = true /\ s <> []) (connections b);
  bw_endpoint_count : zlen (reachable_endpoints b) <= u32_max;
  bw_source_count : zlen (reachable_timesync_sources b) <= u32_max;
  bw_connection_count : zlen (connections b) <= u32_max;
}.

Lemma texts_kept (l : list bytes) :
  Forall (fun s => utf8_valid s = true /\ s <> []) l -> filter (fun s => is_empty s = false) l = l.
Proof. intros H. apply filter_all. eapply Forall_impl; [exact H|]. intros s [_ Hs]. by destruct s. Qed.

Lemma texts_valid (l : list bytes) :
  Forall (fun s => utf8_valid s = true /\ s <> []) l -> Forall (fun s => utf8_valid s = true) l.
Proof. intros H. eapply Forall_impl; [exact H|]. by intros s [? _]. Qed.

Lemma application_not_discovery (l : list DataEndpoint) :
  Forall (fun ep => is_router_control_endpoint ep = false) l ->
  filter (fun ep => is_discovery_endpoint ep = false) l = l.
Proof.
  intros H. apply filter_all. eapply Forall_impl; [exact H|]. intros ep. cbn beta.
  unfold is_router_control_endpoint, is_discovery_endpoint, one_of. cbn. rewrite !orb_false_iff. naive_solver.
Qed.

Lemma parses_count label n : 0 <= n <= u32_max -> parses (read_u32 label) (le_bytes 4 (wrap32 n)) n.
Proof. intros H. rewrite wrap32_small by solve_u. apply parses_u32. solve_u. Qed.

Section RoundTrip.
Context (reserve : Z -> bool) (grant : forall n, reserve n = true).

Lemma parses_board b e :
  board_canonical b -> board_wire b -> encode_board b = Ok e -> parses (decode_board reserve) e b.
Proof using grant.
  intros Hc [H1 H2 H3 H4 H5 H6 H7] (id & Hi & H)%result_bind_ok. apply result_bind_ok in H as (srcs & Hs & H).
  apply result_bind_ok in H as (peers & Hp & <-%ok_inj).
  pose proof (zlen_nonneg (reachable_endpoints b)). pose proof (zlen_nonneg (reachable_timesync_sources b)).
  pose proof (zlen_nonneg (connections b)). unfold decode_board.
  eapply parses_bind; [by apply parses_string|].
  eapply parses_bind; [by apply parses_count|]. eapply parses_bind; [by apply parses_words|].
  eapply parses_bind; [by apply parses_count|]. eapply parses_bind; [apply parses_strings; auto using texts_valid|].
  eapply parses_bind; [by apply parses_count|]. eapply parses_map; [apply parses_strings; auto using texts_valid|].
  rewrite application_not_discovery by apply (bc_application b Hc). rewrite !texts_kept by done.
  destruct b. apply parses_ret.
Qed.

Lemma parses_boards l body :
  Forall board_canonical l -> Forall board_wire l -> encode_all encode_board l = Ok body ->
  parses (decode_topology_boards reserve (zlen l)) body l.
Proof using grant.
  intros Hc Hw (encs & Hf & ->)%encode_all_ok. apply parses_vec; try done.
  - induction Hf as [|b e l encs Hb Hf IH]; [constructor|].
    apply Forall_cons in Hc as [? ?], Hw as [? ?]. constructor; [by apply parses_board|auto].
  - clear Hc Hw. induction Hf as [|b e l encs Hb Hf IH]; constructor; [|done].
    rewrite (encode_board_size _ _ Hb). apply board_size_pos.
Qed.

Lemma topology_full_decode boards pl :
  Forall board_wire (normalize_topology_boards boards) -> zlen (normalize_topology_boards boards) <= u32_max ->
  topology_payload reserve boards None = Ok pl ->
  decode_discovery_topology_payload reserve pl = Ok (normalize_topology_boards boards).
Proof using grant.
  intros Hw Hn (body & Hb & ->)%topology_payload_ok. pose proof (normalize_canonical boards) as Hc.
  set (l := normalize_topology_boards boards) in *. pose proof (zlen_nonneg l).
  unfold decode_discovery_topology_payload.
  assert (parses (count ← read_u32 "discovery topology board count"; decode_topology_boards reserve count)
    (le_bytes 4 (wrap32 (zlen l)) ++ body) l) as Hp.
  { eapply parses_bind; [by apply parses_count|]. apply parses_boards; [apply Hc|done|done]. }
  unfold run. specialize (Hp []). rewrite app_nil_r in Hp. apply parse_inv in Hp as (n & l1 & H1 & H2).
  unfold mbind at 1, parser_bind at 1. rewrite H1. unfold mbind at 1, parser_bind at 1. rewrite H2.
  unfold mbind, parser_bind, at_end, is_empty, mret, parser_ret. by rewrite normalize_id.
Qed.

Lemma topology_delta_decode boards removed pl :
  Forall board_wire (normalize_topology_boards boards) -> zlen (normalize_topology_boards boards) <= u32_max ->
  Forall (fun s => utf8_valid s = true) removed -> zlen removed <= u32_max ->
  topology_payload reserve boards (Some removed) = Ok pl ->
  decode_topology_update_payload reserve pl =
    Ok {| incremental := true; boards := normalize_topology_boards boards; removed := sort_dedup removed |}.
Proof using grant.
  intros Hw Hn Hr Hrn (body & Hb & names & Hs & ->)%topology_payload_ok.
  pose proof (normalize_canonical boards) as Hc. set (l := normalize_topology_boards boards) in *.
  pose proof (zlen_nonneg l). pose proof (zlen_nonneg removed). unfold decode_topology_update_payload.
  rewrite (parses_u32 _ 0); [|unfold is_u32, u32_max; lia]. cbn [Z.eqb DISCOVERY_TOPOLOGY_DELTA_MARKER].
  unfold decode_topology_delta, run.
  rewrite (parse_step _ _ _ (zlen l)) by (by apply parses_count).
  rewrite (parse_step _ _ _ l) by (apply parses_boards; [apply Hc|done|done]).
  rewrite (parse_step _ _ _ (zlen removed)) by (by apply parses_count).
  rewrite <- (app_nil_r names), (parse_step _ _ _ removed) by (by apply parses_strings).
  unfold mbind, parser_bind, at_end, is_empty, mret, parser_ret. by rewrite normalize_id.
Qed.
End RoundTrip.

Lemma full_update reserve l pl :
  (forall n, reserve n = true) -> canonical l -> l <> [] -> Forall board_wire l -> zlen l <= u32_max ->
  topology_payload reserve l None = Ok pl ->
  decode_topology_update_payload reserve pl = Ok {| incremental := false; boards := l; removed := [] |}.
Proof.
  intros Hg Hc Hne Hw Hn Hf. pose proof (normalize_id l Hc) as Hid. unfold decode_topology_update_payload.
  rewrite (topology_full_decode reserve Hg l) by (by rewrite ?Hid).
  apply topology_payload_ok in Hf as (body & _ & ->). rewrite Hid.
  assert (0 < zlen l) by (destruct l; [done|unfold zlen; cbn; lia]).
  rewrite (parses_count _ (zlen l)) by lia. unfold DISCOVERY_TOPOLOGY_DELTA_MARKER.
  by rewrite (proj2 (Z.eqb_neq (zlen l) 0)) by lia.
Qed.

Lemma delta_removed_names (P : bytes -> Prop) previous current :
  Forall (fun b => P (sender_id b)) previous -> Forall P (snd (topology_delta previous current)).
Proof.
  intros H. cbn [topology_delta snd]. apply Forall_fmap. unfold compose. by apply forall_filter.
Qed.

Lemma delta_sizes previous current :
  zlen (fst (topology_delta previous current)) <= zlen current /\
  zlen (snd (topology_delta previous current)) <= zlen previous.
Proof.
  cbn [topology_delta fst snd]. unfold zlen. rewrite length_map. split.
  - pose proof (length_filter (fun node => find_board (sender_id node) previous <> Some node) current). lia.
  - pose proof (length_filter (fun old => named (sender_id old) current = false) previous). lia.
Qed.

(** C7: a sender's graph arrives as the graph in normal form, and
    the delta between the graphs of two announcements, sent as a packet and applied
    by a receiver that holds the first, gives the receiver the second. *)
Theorem topology_transfer reg tun reserve counter sender0 ts previous current pl_full pl_delta :
  protocol_schema reg -> (forall n, reserve n = true) -> canonical previous -> canonical current ->
  current <> [] -> Forall board_wire current -> zlen current <= u32_max ->
  Forall board_wire previous -> zlen previous <= u32_max ->
  topology_payload reserve current None = Ok pl_full ->
  topology_payload reserve (fst (topology_delta previous current)) (Some (snd (topology_delta previous current)))
    = Ok pl_delta ->
  (exists p c u, build_discovery_topology reg tun reserve counter sender0 ts current = (Ok p, c) /\
     decode_discovery_topology_update reserve p = Ok u /\
     apply_topology_update previous u = (current, negb (bool_decide (previous = current)))) /\
  (exists p c u, build_discovery_topology_delta reg tun reserve counter sender0 ts
       (fst (topology_delta previous current)) (snd (topology_delta previous current)) = (Ok p, c) /\
     decode_discovery_topology_update reserve p = Ok u /\
     apply_topology_update previous u = (current, negb (bool_decide (previous = current)))).
Proof.
  intros Hs Hg Hp Hc Hne Hwc Hnc Hwp Hnp Hf Hd. split.
  - destruct (discovery_packet_ok reg tun counter ty_DiscoveryTopology sender0 ts pl_full)
      as (p & c & Hb & Ht & Hl & _); [done..|]. exists p, c, {| incremental := false; boards := current; removed := [] |}.
    unfold build_discovery_topology. rewrite Hf. split; [exact Hb|].
    unfold decode_discovery_topology_update. rewrite (expect_ok _ _ _ _ Ht Hl). split.
    + by apply full_update.
    + unfold apply_topology_update. cbn [incremental boards]. case_decide as He.
      * subst. by rewrite bool_decide_eq_true_2.
      * by rewrite bool_decide_eq_false_2.
  - destruct (discovery_packet_ok reg tun counter ty_DiscoveryTopology sender0 ts pl_delta)
      as (p & c & Hb & Ht & Hl & _); [done..|].
    exists p, c, {| incremental := true; boards := fst (topology_delta previous current);
                    removed := sort_dedup (snd (topology_delta previous current)) |}.
    unfold build_discovery_topology_delta. rewrite Hd. split; [exact Hb|].
    unfold decode_discovery_topology_update. rewrite (expect_ok _ _ _ _ Ht Hl). split.
    + pose proof (delta_canonical previous current Hc) as Hcd. destruct (delta_sizes previous current).
      pose proof (topology_delta_decode reserve Hg (fst (topology_delta previous current))
        (snd (topology_delta previous current)) pl_delta) as H'. rewrite normalize_id in H' by done.
      apply H'; try done; try lia.
      * by apply forall_filter.
      * apply delta_removed_names. eapply Forall_impl; [exact Hwp|]. by intros b [].
    + apply apply_delta; [done..|]. intros x. apply sort_dedup_elem.
Qed.

(** ** Recognising an update that changes nothing *)

Lemma word_read input w rest label :
  word input = Some (w, rest) -> read_u32 label input = Ok (w, rest) /\ zlen input = zlen rest + 4.
Proof.
  unfold word, read_u32, mbind, parser_bind, slice. destruct (Z.ltb_spec (zlen input) 4); [done|].
  intros H'. injection H' as <- <-. split; [done|]. unfold zlen in *. rewrite length_drop. lia.
Qed.

Lemma text_read input s rest label :
  text input = Some (s, rest) -> decode_string label input = Ok (s, rest) /\ zlen rest + 4 <= zlen input.
Proof.
  unfold text. destruct (word input) as [[n l1]|] eqn:Ew; [|done]. cbn [mbind option_bind].
  destruct (word_read input n l1 label Ew) as [Hr Hl]. destruct (Z.ltb_spec (zlen l1) n); [done|].
  destruct (utf8_valid _) eqn:Eu; [|done]. intros H'. injection H' as <- <-. split.
  - unfold decode_string, mbind at 1, parser_bind at 1. rewrite Hr. unfold mbind, parser_bind, slice.
    destruct (Z.ltb_spec (zlen l1) n); [lia|]. unfold p_result, from_utf8. by rewrite Eu.
  - unfold zlen in *. rewrite length_drop. lia.
Qed.

Lemma match_count_read n input rest label :
  match_count n input = Some rest -> read_u32 label input = Ok (n, rest) /\ zlen input = zlen rest + 4.
Proof.
  unfold match_count. destruct (word input) as [[w l1]|] eqn:Ew; [|done]. cbn [mbind option_bind].
  destruct (Z.eqb_spec w n) as [->|]; [|done]. intros [= <-]. by apply word_read.
Qed.

Lemma match_words_read l label : forall input rest,
  match_words l input = Some rest ->
  times (length l) (read_u32 label) input = Ok (l, rest) /\ zlen input = zlen rest + 4 * zlen l.
Proof.
  induction l as [|v l IH]; intros input rest; cbn [match_words times length].
  { intros [= <-]. split; [done|]. unfold zlen. cbn. lia. }
  destruct (word input) as [[w l1]|] eqn:Ew; [|done]. cbn [mbind option_bind].
  destruct (Z.eqb_spec w v) as [->|]; [|done]. intros Hm. destruct (IH _ _ Hm) as [Ht Hl].
  destruct (word_read _ _ _ label Ew) as [Hr Hl1]. unfold mbind, parser_bind. rewrite Hr, Ht. split; [done|].
  unfold zlen in *. cbn [length]. lia.
Qed.

Lemma match_texts_read l label : forall input rest,
  match_texts l input = Some rest ->
  times (length l) (decode_string label) input = Ok (l, rest) /\ zlen rest + 4 * zlen l <= zlen input.
Proof.
  induction l as [|v l IH]; intros input rest; cbn [match_texts times length].
  { intros [= <-]. split; [done|]. unfold zlen. cbn. lia. }
  destruct (text input) as [[w l1]|] eqn:Ew; [|done]. cbn [mbind option_bind].
  destruct (decide (w = v)) as [->|]; [|done]. intros Hm. destruct (IH _ _ Hm) as [Ht Hl].
  destruct (text_read _ _ _ label Ew) as [Hr Hl1]. unfold mbind, parser_bind. rewrite Hr, Ht. split; [done|].
  unfold zlen in *. cbn [length]. lia.
Qed.

(** A node without empty names, as the decoder leaves them. *)
Definition no_blanks (b : TopologyBoardNode) : Prop :=
  Forall (fun s => s <> []) (reachable_timesync_sources b) /\ Forall (fun s => s <> []) (connections b).

Definition retained_ok (l : list TopologyBoardNode) : Prop := canonical l /\ Forall no_blanks l.

Lemma blanks_kept (l : list bytes) : Forall (fun s => s <> []) l -> filter (fun s => is_empty s = false) l = l.
Proof. intros H. apply filter_all. eapply Forall_impl; [exact H|]. intros s Hs. by destruct s. Qed.

Section Matching.
Context (reserve : Z -> bool) (grant : forall n, reserve n = true).

Lemma vec_of_times {A} (p : parser A) (n : nat) count min label input xs rest :
  0 < min -> n = Z.to_nat count -> times n p input = Ok (xs, rest) ->
  zlen rest + min * Z.of_nat n <= zlen input ->
  wire_vec reserve count min label p input = Ok (xs, rest).
Proof using grant.
  intros Hm -> Ht Hl. unfold wire_vec, mbind, parser_bind, bounded_wire_vec. pose proof (zlen_nonneg rest).
  rewrite (proj2 (Z.eqb_neq min 0)) by lia. cbn [orb].
  rewrite (proj2 (Z.ltb_ge (zlen input / min) count)) by (apply Z.div_le_lower_bound; nia).
  by rewrite grant.
Qed.

Lemma match_board_read b input rest0 rest :
  board_canonical b -> no_blanks b -> text input = Some (sender_id b, rest0) -> match_board b rest0 = Some rest ->
  decode_board reserve input = Ok (b, rest) /\ zlen rest + 16 <= zlen input.
Proof using grant.
  intros Hc [Hs Hp] Ht Hm. unfold match_board in Hm.
  apply bind_Some in Hm as (i1 & H1 & Hm). apply bind_Some in Hm as (i2 & H2 & Hm).
  apply bind_Some in Hm as (i3 & H3 & Hm). apply bind_Some in Hm as (i4 & H4 & Hm).
  apply bind_Some in Hm as (i5 & H5 & H6).
  destruct (text_read _ _ _ "discovery topology sender id" Ht) as [R0 L0].
  destruct (match_count_read _ _ _ "discovery topology endpoint count" H1) as [R1 L1].
  destruct (match_words_read _ "discovery topology endpoint" _ _ H2) as [R2 L2].
  destruct (match_count_read _ _ _ "discovery topology timesync source count" H3) as [R3 L3].
  destruct (match_texts_read _ "discovery topology timesync source" _ _ H4) as [R4 L4].
  destruct (match_count_read _ _ _ "discovery topology connection count" H5) as [R5 L5].
  destruct (match_texts_read _ "discovery topology connection" _ _ H6) as [R6 L6].
  pose proof (zlen_nonneg (reachable_endpoints b)). pose proof (zlen_nonneg (reachable_timesync_sources b)).
  pose proof (zlen_nonneg (connections b)). split; [|unfold zlen in *; lia].
  unfold decode_board. unfold mbind, parser_bind. rewrite R0, R1.
  rewrite (vec_of_times _ _ _ 4 _ _ _ _ eq_refl (eq_sym (Nat2Z.id _)) R2) by (unfold zlen in *; lia). rewrite R3.
  rewrite (vec_of_times _ _ _ 4 _ _ _ _ eq_refl (eq_sym (Nat2Z.id _)) R4) by (unfold zlen in *; lia). rewrite R5.
  rewrite (vec_of_times _ _ _ 4 _ _ _ _ eq_refl (eq_sym (Nat2Z.id _)) R6) by (unfold zlen in *; lia).
  rewrite application_not_discovery by apply (bc_application b Hc). rewrite !blanks_kept by done.
  by destruct b.
Qed.

Lemma match_boards_read retained : forall n previous input rest,
  retained_ok retained -> match_boards n previous retained input = Some rest ->
  exists bs, times n (decode_board reserve) input = Ok (bs, rest) /\ length bs = n /\
    (forall b, b ∈ bs -> b ∈ retained) /\ key_ascends sender_id bs /\
    (forall p b, previous = Some p -> b ∈ bs -> klt p (sender_id b)) /\ zlen rest + 16 * Z.of_nat n <= zlen input.
Proof using grant.
  intros n. induction n as [|n IH]; intros previous input rest Hok; cbn [match_boards times].
  { intros [= <-]. exists []. split_and!; [done|done| |constructor| |lia].
    - intros b Hb. by apply not_elem_of_nil in Hb.
    - intros p b _ Hb. by apply not_elem_of_nil in Hb. }
  intros [[name i1] [Et Hm]]%bind_Some.
  destruct (match previous with Some p => negb (kltb p name) | None => false end) eqn:Ep; [done|].
  apply bind_Some in Hm as (b & Hb & Hm). apply bind_Some in Hm as (i2 & Hmb & Hm).
  destruct Hok as [Hc Hbl]. apply find_board_spec in Hb as [Hin Hid]; [|by apply canonical_distinct]. subst name.
  assert (board_canonical b) as Hcb by (destruct Hc as [Hc _]; rewrite Forall_forall in Hc; auto).
  assert (no_blanks b) as Hnb by (rewrite Forall_forall in Hbl; auto).
  destruct (match_board_read b _ _ _ Hcb Hnb Et Hmb) as [Hr Hl].
  destruct (IH _ _ _ (conj Hc Hbl) Hm) as (bs & Ht & Hlen & Hsub & Hs & Hlt & Hz).
  exists (b :: bs). unfold mbind, parser_bind. rewrite Hr, Ht. split_and!; try done; try lia; cbn; try lia.
  - intros x [->|Hx]%elem_of_cons; auto.
  - constructor; [done|]. apply Forall_forall. intros x Hx. by apply (Hlt (sender_id b)).
  - intros p x -> [->|Hx]%elem_of_cons; apply negb_false_iff, kltb_klt in Ep; [done|].
    eapply klt_trans; [exact Ep|]. by apply (Hlt (sender_id b)).
Qed.

Lemma match_removed_read label retained : forall n input rest,
  match_removed n retained input = Some rest ->
  exists names, times n (decode_string label) input = Ok (names, rest) /\
    (forall s, s ∈ names -> s ∉ map sender_id retained) /\ zlen rest + 4 * Z.of_nat n <= zlen input.
Proof.
  intros n. induction n as [|n IH]; intros input rest; cbn [match_removed times].
  { intros [= <-]. exists []. split_and!; [done| |lia]. intros s Hs. by apply not_elem_of_nil in Hs. }
  intros [[name i1] [Et Hm]]%bind_Some. destruct (named name retained) eqn:En; [done|].
  destruct (IH _ _ Hm) as (names & Ht & Hn & Hz). destruct (text_read _ _ _ label Et) as [Hr Hl].
  exists (name :: names). unfold mbind, parser_bind. rewrite Hr, Ht. split_and!; [done| |lia].
  intros s [->|Hs]%elem_of_cons; [|auto]. intros Hin%named_spec. congruence.
Qed.
End Matching.

(** What the decoder accepts is in normal form and without empty names, and
    applying it keeps the retained graph so. *)
Lemma normalize_no_blanks l : Forall no_blanks l -> Forall no_blanks (normalize_topology_boards l).
Proof.
  rewrite !Forall_forall. intros H b Hb. unfold normalize_topology_boards in Hb.
  apply sort_by_key_incl, list_elem_of_fmap in Hb as (b' & -> & Hb). destruct (H b' Hb) as [H1 H2].
  unfold no_blanks, normalize_board, sort_dedup_strings. cbn [reachable_timesync_sources connections].
  split; apply forall_sort_dedup; [done|by apply forall_filter].
Qed.

Lemma decode_board_no_blanks reserve input b rest : decode_board reserve input = Ok (b, rest) -> no_blanks b.
Proof.
  unfold decode_board. intros H. repeat (apply parse_inv in H as (? & ? & _ & H)). apply ret_inv in H as ->.
  split; cbn; apply Forall_forall; intros s [Hs _]%list_elem_of_filter; by destruct s.
Qed.

Lemma times_forall {A} (p : parser A) (P : A -> Prop) : (forall l a l', p l = Ok (a, l') -> P a) ->
  forall n l xs l', times n p l = Ok (xs, l') -> Forall P xs.
Proof.
  intros Hp. induction n as [|n IH]; intros l xs l' H; cbn [times] in H.
  { by apply ret_inv in H as ->. }
  apply parse_inv in H as (x & l1 & H1 & H). apply parse_inv in H as (ys & l2 & H2 & H).
  apply ret_inv in H as ->. constructor; eauto.
Qed.

Lemma decode_boards_no_blanks reserve count input bs rest :
  decode_topology_boards reserve count input = Ok (bs, rest) -> Forall no_blanks bs.
Proof.
  unfold decode_topology_boards, wire_vec. intros (u & l1 & _ & H)%parse_inv.
  eapply times_forall; [|exact H]. apply decode_board_no_blanks.
Qed.

Lemma decode_update_retained reserve pl u :
  decode_topology_update_payload reserve pl = Ok u -> retained_ok (boards u).
Proof.
  assert (forall bs, Forall no_blanks bs -> retained_ok (normalize_topology_boards bs)) as Hn
    by (intros bs Hb; split; [apply normalize_canonical|by apply normalize_no_blanks]).
  unfold decode_topology_update_payload. destruct (read_u32 _ pl) as [[first rest]|]; [|done].
  destruct (Z.eqb_spec first DISCOVERY_TOPOLOGY_DELTA_MARKER).
  - intros (l' & H)%run_ok. unfold decode_topology_delta in H. apply parse_inv in H as (n & l1 & _ & H).
    apply parse_inv in H as (bs & l2 & Hb & H). repeat (apply parse_inv in H as (? & ? & _ & H)).
    apply ret_inv in H as ->. by apply Hn, (decode_boards_no_blanks reserve n l1 bs l2).
  - intros (bs & Hb & <-%ok_inj)%result_bind_ok. cbn [boards]. unfold decode_discovery_topology_payload in Hb.
    apply run_ok in Hb as (l' & H). apply parse_inv in H as (n' & l1 & _ & H).
    apply parse_inv in H as (bs' & l2 & Hb & H). apply parse_inv in H as (? & ? & _ & H).
    apply ret_inv in H as ->. by apply Hn, (decode_boards_no_blanks reserve n' l1 bs' l2).
Qed.

Lemma apply_update_retained retained u :
  retained_ok retained -> retained_ok (boards u) -> retained_ok (fst (apply_topology_update retained u)).
Proof.
  intros [Hc Hb] [Hcu Hbu]. destruct (incremental u) eqn:Ei.
  - pose proof (apply_incremental retained u Hc Ei Hcu) as H. destruct (apply_topology_update retained u) as [l c].
    destruct H as (Hl & Hx & _). split; [done|]. rewrite Forall_forall in *. intros x Hin.
    apply Hx in Hin as [|[? _]]; auto.
  - unfold apply_topology_update. rewrite Ei. case_decide; by split.
Qed.

(** A subset of a graph in the order of its names, as long as the graph, is the graph. *)
Lemma whole_graph retained bs :
  canonical retained -> key_ascends sender_id bs -> (forall b, b ∈ bs -> b ∈ retained) ->
  length bs = length retained -> bs = retained.
Proof.
  intros Hc Hs Hsub Hl. apply (key_ascends_ext sender_id); [done|apply Hc|]. intros b. split; [apply Hsub|].
  assert (NoDup bs) as Hd by (eapply NoDup_fmap_1, key_ascends_nodup, Hs).
  assert (bs ≡ₚ retained) as Hp.
  { apply submseteq_length_Permutation; [by apply NoDup_submseteq|lia]. }
  by rewrite Hp.
Qed.

(** An update that repeats nodes of the graph and removes names it does not hold. *)
Lemma idle_delta retained bs names :
  canonical retained -> key_ascends sender_id bs -> (forall b, b ∈ bs -> b ∈ retained) ->
  (forall s, s ∈ names -> s ∉ map sender_id retained) ->
  apply_topology_update retained {| incremental := true; boards := bs; removed := names |} = (retained, false).
Proof.
  intros Hc Hs Hsub Hn. unfold apply_topology_update. cbn [incremental boards removed].
  rewrite filter_all.
  2: { apply Forall_forall. intros b Hb. left. apply bool_decide_eq_false. intros Hin. apply (Hn _ Hin).
    by apply own_id. }
  rewrite Nat.eqb_refl. cbn [negb].
  destruct (replace_boards retained bs false) as [l c] eqn:E.
  destruct (replace_boards_spec _ _ _ _ _ (canonical_distinct _ Hc) (key_ascends_nodup sender_id bs Hs) E)
    as (_ & _ & Hsame & Hl). assert (c = false) as -> by (by apply Hsame). by rewrite Hl.
Qed.

(** When the fast test recognises a received payload as one that
    changes nothing, decoding it succeeds and applying the update leaves the graph
    as it is; the test also tells a full graph from a delta. *)
Theorem topology_match_sound reserve retained pl full :
  (forall n, reserve n = true) -> retained_ok retained ->
  topology_payload_matches_retained pl retained = Some full ->
  exists u, decode_topology_update_payload reserve pl = Ok u /\ incremental u = negb full /\
    apply_topology_update retained u = (retained, false).
Proof.
  intros Hg Hok Hm. unfold topology_payload_matches_retained in Hm.
  apply bind_Some in Hm as ([first i1] & Hf & Hm). apply bind_Some in Hm as ([count i2] & Hc & Hm).
  destruct (_ || _) eqn:Eb; [done|]. apply orb_false_iff in Eb as [Elen Eroom%Z.ltb_ge].
  apply bind_Some in Hm as (i3 & Hbs & Hm). apply bind_Some in Hm as (i4 & Hr & Hm).
  destruct (is_empty i4) eqn:Ee; [|done]. assert (i4 = []) as -> by (by destruct i4). injection Hm as Hfull.
  destruct (match_boards_read reserve Hg retained _ _ _ _ Hok Hbs) as (bs & Ht & Hlen & Hsub & Hs & _ & Hz).
  destruct (word_read _ _ _ "discovery topology board count" Hf) as [Rf _].
  unfold decode_topology_update_payload. rewrite Rf. subst full.
  assert (Forall board_canonical bs) as Hcb.
  { destruct Hok as [[Hcr _] _]. rewrite Forall_forall in *. auto. }
  assert (canonical bs) as Hcan by (by constructor).
  assert (decode_topology_boards reserve count i2 = Ok (bs, i3)) as Hd 
    by exact (vec_of_times reserve Hg _ _ count 16 _ _ _ _ eq_refl eq_refl Ht Hz).
  destruct (first =? DISCOVERY_TOPOLOGY_DELTA_MARKER) eqn:E0; cbn [negb andb] in *.
  - clear Elen. apply bind_Some in Hr as ([n i5] & Hn & Hr). destruct (_ <? n) eqn:En; [done|].
    destruct (match_removed_read "discovery topology removed sender id" retained _ _ _ Hr) as (names & Hnt & Hnn & Hnz).
    destruct (word_read _ _ _ "discovery topology delta count" Hc) as [Rc _].
    destruct (word_read _ _ _ "discovery topology removal count" Hn) as [Rn _].
    exists {| incremental := true; boards := bs; removed := sort_dedup names |}. split; [|split; [done|]].
    + unfold run, decode_topology_delta. unfold mbind, parser_bind. rewrite Rc, Hd, Rn.
      rewrite (vec_of_times reserve Hg _ _ n 4 _ _ _ _ eq_refl eq_refl Hnt) by done. cbn [at_end is_empty].
      unfold mret, parser_ret. by rewrite normalize_id.
    + apply idle_delta; [apply Hok|done|done|]. intros s Hin. apply Hnn. by rewrite sort_dedup_elem in Hin.
  - injection Hc as <- <-. injection Hr as ->. apply negb_false_iff, Z.eqb_eq in Elen.
    assert (bs = retained) as -> by (apply whole_graph; [apply Hok|done|done|unfold zlen in Elen; lia]).
    exists {| incremental := false; boards := retained; removed := [] |}. split; [|split; [done|]].
    + unfold decode_discovery_topology_payload, run, mbind, parser_bind. rewrite Rf, Hd. cbn [at_end is_empty].
      unfold mret, parser_ret. cbn. by rewrite normalize_id.
    + unfold apply_topology_update. cbn [incremental boards]. by rewrite decide_True.
Qed.

(** *** A repeated announcement is recognised *)

Lemma word_encode v rest : is_u32 v -> word (le_bytes 4 v ++ rest) = Some (v, rest).
Proof.
  intros Hv. unfold word. rewrite zlen_app. pose proof (zlen_nonneg rest).
  unfold zlen at 1. rewrite length_le_bytes. destruct (Z.ltb_spec (Z.of_nat 4 + zlen rest) 4); [lia|].
  rewrite take_app_length', drop_app_length' by (by rewrite length_le_bytes). rewrite from_le_bytes by solve_u. done.
Qed.

Lemma text_encode s e rest : encode_string s = Ok e -> utf8_valid s = true -> text (e ++ rest) = Some (s, rest).
Proof.
  intros [Hl ->]%encode_string_ok Hu. pose proof (zlen_nonneg s). pose proof (zlen_nonneg rest).
  unfold text. rewrite <- app_assoc, word_encode by solve_u. cbn [mbind option_bind]. rewrite zlen_app.
  destruct (Z.ltb_spec (zlen s + zlen rest) (zlen s)); [lia|]. unfold zlen. rewrite Nat2Z.id.
  rewrite take_app_length, drop_app_length. by rewrite Hu.
Qed.

Lemma match_count_encode n rest : 0 <= n <= u32_max -> match_count n (le_bytes 4 (wrap32 n) ++ rest) = Some rest.
Proof.
  intros Hn. unfold match_count. rewrite wrap32_small, word_encode by solve_u. cbn [mbind option_bind].
  by rewrite Z.eqb_refl.
Qed.

Lemma match_words_encode l rest : Forall is_u32 l -> match_words l (encode_words l ++ rest) = Some rest.
Proof.
  induction 1 as [|v l Hv Hl IH]; [done|]. cbn [match_words].
  change (encode_words (v :: l)) with (le_bytes 4 v ++ encode_words l).
  rewrite <- app_assoc, word_encode by done. cbn [mbind option_bind]. by rewrite Z.eqb_refl.
Qed.

Lemma match_texts_encode l e rest :
  encode_strings l = Ok e -> Forall (fun s => utf8_valid s = true) l -> match_texts l (e ++ rest) = Some rest.
Proof.
  intros (encs & Hf & ->)%encode_all_ok. induction Hf as [|s b l encs Hs Hf IH]; intros Hu; [done|].
  apply Forall_cons in Hu as [? ?]. cbn [match_texts concat]. rewrite <- app_assoc, (text_encode s) by done.
  cbn [mbind option_bind]. rewrite decide_True by done. auto.
Qed.

Lemma match_board_encode b e rest :
  board_wire b -> encode_board b = Ok e ->
  exists input, text (e ++ rest) = Some (sender_id b, input) /\ match_board b input = Some rest.
Proof.
  intros [H1 H2 H3 H4 H5 H6 H7] (id & Hi & H)%result_bind_ok. apply result_bind_ok in H as (srcs & Hs & H).
  apply result_bind_ok in H as (peers & Hp & <-%ok_inj). eexists. rewrite <- !app_assoc.
  split; [by apply text_encode|].
  pose proof (zlen_nonneg (reachable_endpoints b)). pose proof (zlen_nonneg (reachable_timesync_sources b)).
  pose proof (zlen_nonneg (connections b)). unfold match_board.
  rewrite match_count_encode by done. cbn [mbind option_bind]. rewrite match_words_encode by done.
  cbn [mbind option_bind]. rewrite match_count_encode by done. cbn [mbind option_bind].
  rewrite (match_texts_encode _ srcs) by auto using texts_valid. cbn [mbind option_bind].
  rewrite match_count_encode by done. cbn [mbind option_bind]. by apply match_texts_encode; auto using texts_valid.
Qed.

Lemma match_boards_encode retained : forall l previous encs rest,
  canonical retained -> (forall b, b ∈ l -> b ∈ retained) -> key_ascends sender_id l ->
  (forall p b, previous = Some p -> b ∈ l -> klt p (sender_id b)) ->
  Forall board_wire l -> Forall2 (fun b e => encode_board b = Ok e) l encs ->
  match_boards (length l) previous retained (concat encs ++ rest) = Some rest.
Proof.
  induction l as [|b l IH]; intros previous encs rest Hc Hsub Hs Hp Hw Hf; inversion Hf as [|? e ? encs' He Hf']; subst; [done|].
  apply Forall_cons in Hw as [Hwb Hw]. apply StronglySorted_inv in Hs as [Hs Hlt]. rewrite Forall_forall in Hlt.
  cbn [length match_boards concat]. rewrite <- app_assoc.
  destruct (match_board_encode b e (concat encs' ++ rest) Hwb He) as (input & Ht & Hm). rewrite Ht.
  cbn [mbind option_bind].
  assert ((match previous with Some p => negb (kltb p (sender_id b)) | None => false end) = false) as ->.
  { destruct previous as [p|]; [|done]. apply negb_false_iff, kltb_klt, Hp; [done|by left]. }
  assert (find_board (sender_id b) retained = Some b) as ->.
  { apply find_board_spec; [by apply canonical_distinct|]. split; [|done]. apply Hsub. by left. }
  cbn [mbind option_bind]. rewrite Hm. cbn [mbind option_bind]. apply IH; try done.
  - intros x Hx. apply Hsub. by right.
  - intros p x [= <-] Hx. by apply Hlt.
Qed.

(** A neighbour that announces its whole graph again
    is recognised without decoding. *)
Theorem topology_match_complete reserve retained pl :
  canonical retained -> retained <> [] -> Forall board_wire retained -> zlen retained <= u32_max ->
  topology_payload reserve retained None = Ok pl ->
  topology_payload_matches_retained pl retained = Some true.
Proof.
  intros Hc Hne Hw Hn (body & Hb & ->)%topology_payload_ok. rewrite normalize_id in * by done.
  assert (0 < zlen retained) as Hpos by (destruct retained; [done|unfold zlen; cbn; lia]).
  unfold topology_payload_matches_retained. rewrite wrap32_small, word_encode by solve_u. cbn [mbind option_bind].
  unfold DISCOVERY_TOPOLOGY_DELTA_MARKER. rewrite (proj2 (Z.eqb_neq (zlen retained) 0)) by lia.
  cbn [negb andb mbind option_bind]. rewrite Z.eqb_refl. cbn [negb orb].
  pose proof (encode_boards_size _ _ Hb) as Hsz.
  assert (16 * zlen retained <= zlen body) as Hroom.
  { rewrite Hsz. clear. induction retained as [|b l IH]; [done|]. rewrite boards_size_cons.
    pose proof (board_size_pos b). unfold zlen in *. cbn [length]. lia. }
  rewrite (proj2 (Z.ltb_ge _ _)) by (apply Z.div_le_lower_bound; lia).
  apply encode_all_ok in Hb as (encs & Hf & ->). rewrite <- (app_nil_r (concat encs)). unfold zlen at 1. rewrite Nat2Z.id.
  rewrite (match_boards_encode retained retained None encs []); [done|done|done|apply Hc|done|done|done].
Qed.

(** ** Samples *)

Lemma sample_wire l :
  forallb (fun b => utf8_valid (sender_id b)
    && forallb (fun ep => (0 <=? ep) && (ep <=? u32_max)) (reachable_endpoints b)
    && forallb (fun s => utf8_valid s && negb (is_empty s)) (reachable_timesync_sources b ++ connections b)
    && (zlen (reachable_endpoints b) <=? u32_max) && (zlen (reachable_timesync_sources b) <=? u32_max)
    && (zlen (connections b) <=? u32_max)) l = true -> Forall board_wire l.
Proof.
  intros H. apply Forall_forall. intros b Hb%list_elem_of_In. apply (proj1 (forallb_forall _ _) H) in Hb.
  rewrite !andb_true_iff, !Z.leb_le, forallb_app, andb_true_iff in Hb.
  destruct Hb as (((((H1 & H2) & H3 & H4) & H5) & H6) & H7).
  assert (forall l, forallb (fun s => utf8_valid s && negb (is_empty s)) l = true ->
    Forall (fun s => utf8_valid s = true /\ s <> []) l) as Ht.
  { intros ss Hs. apply Forall_forall. intros s Hin%list_elem_of_In. apply (proj1 (forallb_forall _ _) Hs) in Hin.
    apply andb_true_iff in Hin as [? Hne%negb_true_iff]. split; [done|]. by intros ->. }
  constructor; try done; try by apply Ht. apply Forall_forall. intros ep Hep%list_elem_of_In.
  apply (proj1 (forallb_forall _ _) H2), andb_true_iff in Hep as [?%Z.leb_le ?%Z.leb_le]. by split.
Qed.

Definition payload_of (boards : list TopologyBoardNode) (removed : option (list bytes)) : bytes :=
  match topology_payload grants boards removed with Ok pl => pl | Err _ => [] end.

Definition graph_b_payload : bytes := Eval vm_compute in payload_of graph_b None.
Definition graph_delta_payload : bytes := Eval vm_compute in
  payload_of (fst (topology_delta graph_a graph_b)) (Some (snd (topology_delta graph_a graph_b))).

Lemma topology_payload_size_witness :
  topology_payload grants graph_b None = Ok graph_b_payload /\
  payload_length (normalize_topology_boards graph_b) None = zlen graph_b_payload.
Proof.
  split; [vm_compute; reflexivity|]. apply (topology_payload_size grants graph_b None graph_b_payload).
  - vm_compute. reflexivity.
  - vm_compute. discriminate.
Defined.

Lemma topology_transfer_witness :
  exists p c u, build_discovery_topology_delta initial_registry sample_tuning grants 5 [71] 9
      (fst (topology_delta graph_a graph_b)) (snd (topology_delta graph_a graph_b)) = (Ok p, c) /\
    decode_discovery_topology_update grants p = Ok u /\
    apply_topology_update graph_a u = (graph_b, negb (bool_decide (graph_a = graph_b))).
Proof.
  pose proof (topology_transfer initial_registry sample_tuning grants 5 [71] 9 graph_a graph_b graph_b_payload
    graph_delta_payload initial_protocol_schema (fun n => eq_refl) graph_a_canonical graph_b_canonical) as H.
  destruct H as [_ H]; [discriminate|apply sample_wire; vm_compute; reflexivity|vm_compute; discriminate|
    apply sample_wire; vm_compute; reflexivity|vm_compute; discriminate|vm_compute; reflexivity|
    vm_compute; reflexivity|exact H].
Defined.

Lemma graph_b_retained : retained_ok graph_b.
Proof.
  split; [exact graph_b_canonical|]. pose proof (sample_wire graph_b ltac:(vm_compute; reflexivity)) as H.
  eapply Forall_impl; [exact H|]. intros b [_ _ H1 H2 _ _ _].
  split; [eapply Forall_impl; [exact H1|]|eapply Forall_impl; [exact H2|]]; by intros s [_ ?].
Qed.

Lemma topology_match_sound_witness :
  topology_payload_matches_retained graph_b_payload graph_b = Some true /\
  exists u, decode_topology_update_payload grants graph_b_payload = Ok u /\
    apply_topology_update graph_b u = (graph_b, false).
Proof.
  assert (topology_payload_matches_retained graph_b_payload graph_b = Some true) as Hm by (vm_compute; reflexivity).
  split; [exact Hm|].
  pose proof (topology_match_sound grants graph_b graph_b_payload true (fun n => eq_refl) graph_b_retained Hm) as H.
  destruct H as (u & H1 & _ & H2). exists u. split; [exact H1|exact H2].
Defined.

Lemma topology_match_complete_witness :
  topology_payload_matches_retained graph_b_payload graph_b = Some true.
Proof.
  apply (topology_match_complete grants graph_b graph_b_payload graph_b_canonical); [discriminate|..].
  - apply sample_wire. vm_compute. reflexivity.
  - vm_compute. discriminate.
  - vm_compute. reflexivity.
Defined.
