(* ===== verification/SchemaCodec.v ===== *)
(** * Schema messages (src/src/discovery.rs)

    The payload that carries a catalogue of endpoint and type definitions: built
    from a snapshot, decoded in the three versions of the format, and scanned
    against the registry without decoding what is known already. *)

From S2P Require Import Prelude Schema SchemaIdentity Packet SchemaRegistry SchemaMerge SmallSort SortedList Topology DiscoveryWire DiscoveryCodec.

Open Scope Z_scope.

(** ** Names

    A name is a [String] of the registry; on the wire it is its bytes. *)

Fixpoint unstr (b : bytes) : string :=
  match b with
  | [] => EmptyString
  | c :: b => String (Ascii.ascii_of_N (Z.to_N c)) (unstr b)
  end.

Definition decode_name (label : string) : parser string := b ← decode_string label; mret (unstr b).

(** ** Encoding *)

Definition encode_element (e : MessageElement) : bytes :=
  match e with
  | Static count dt class =>
      [0] ++ le_bytes 4 (wrap32 count) ++ [message_data_type_code dt; message_class_code class]
  | Dynamic dt class => [1] ++ le_bytes 4 0 ++ [message_data_type_code dt; message_class_code class]
  end.

Definition encode_endpoint_def (descriptions : bool) (d : OwnedEndpointDefinition) : result bytes :=
  name ← encode_string (str (em_name (snd d)));
  desc ← encode_string (if descriptions then str (em_description (snd d)) else []);
  Ok (le_bytes 4 (fst d) ++ [bool_u8 (link_local_only (snd d))] ++ name ++ desc).

Definition encode_type_def (descriptions : bool) (d : OwnedDataTypeDefinition) : result bytes :=
  let m := snd d in
  name ← encode_string (str (mm_name m));
  desc ← encode_string (if descriptions then str (mm_description m) else []);
  Ok (le_bytes 4 (fst d) ++ name ++ desc ++ encode_element (element m) ++
      [reliable_code (reliable m); priority m; e2e_encryption_policy_code (e2e_encryption m)] ++
      le_bytes 4 (wrap32 (zlen (mm_endpoints m))) ++ encode_words (mm_endpoints m)).

Definition schema_payload (descriptions : bool) (s : OwnedRuntimeSchemaSnapshot) : result bytes :=
  eps ← encode_all (encode_endpoint_def descriptions) (snap_endpoints s);
  tys ← encode_all (encode_type_def descriptions) (snap_types s);
  Ok (le_bytes 4 3 ++ le_bytes 4 (wrap32 (zlen (snap_endpoints s))) ++ eps ++
      le_bytes 4 (wrap32 (zlen (snap_types s))) ++ tys).

Section Codec.
Context (reg : Registry) (tun : Tuning) (reserve : Z -> bool).

(** The static snapshot's descriptions are sent by the std build. *)
Definition build_discovery_schema_from_snapshot (std : bool) (counter : Z) (sender : bytes) (timestamp_ms : Z)
    (s : OwnedRuntimeSchemaSnapshot) : result Packet * Z :=
  discovery_packet reg tun counter ty_DiscoverySchema sender timestamp_ms (schema_payload std s).

Definition build_discovery_schema_from_owned_snapshot (counter : Z) (sender : bytes) (timestamp_ms : Z)
    (s : OwnedRuntimeSchemaSnapshot) : result Packet * Z :=
  discovery_packet reg tun counter ty_DiscoverySchema sender timestamp_ms (schema_payload false s).

Definition build_discovery_schema (counter : Z) (sender : bytes) (timestamp_ms : Z) : result Packet * Z :=
  build_discovery_schema_from_owned_snapshot counter sender timestamp_ms (export_schema reg).

(** ** Decoding

    [std] is the Cargo feature: without it descriptions are skipped and only
    version 3 is read. *)

Definition code_of {A} (decode : Z -> option A) (label : string) : parser A :=
  code ← read_u8 label; p_result (ok_or (decode code) (Unpack label)).

Definition version_known (std : bool) (version : Z) : bool :=
  if std then (version =? 1) || (version =? 2) || (version =? 3) else version =? 3.

Definition decode_description (std : bool) (version : Z) (label : string) : parser string :=
  if std then (if 2 <=? version then decode_name label else mret EmptyString)
  else _ ← skip_string label; mret EmptyString.

Definition decode_endpoint_def (std : bool) (version : Z) : parser OwnedEndpointDefinition :=
  id ← read_u32 "discovery schema endpoint id";
  flags ← read_u8 "discovery schema endpoint flags";
  name ← decode_name "discovery schema endpoint name";
  desc ← decode_description std version "discovery schema endpoint description";
  mret (id, {| em_name := name; em_description := desc; link_local_only := negb (flags =? 0) |}).

Definition element_of (kind count : Z) (dt : MessageDataType) (class : MessageClass) : result MessageElement :=
  if kind =? 0 then Ok (Static count dt class)
  else if kind =? 1 then Ok (Dynamic dt class)
  else Err (Unpack "discovery schema element kind").

Definition decode_type_def (std : bool) (version : Z) : parser OwnedDataTypeDefinition :=
  id ← read_u32 "discovery schema type id";
  name ← decode_name "discovery schema type name";
  desc ← decode_description std version "discovery schema type description";
  kind ← read_u8 "discovery schema element kind";
  count ← read_u32 "discovery schema element count";
  dt ← code_of message_data_type_from_code "discovery schema data type";
  class ← code_of message_class_from_code "discovery schema class";
  el ← p_result (element_of kind count dt class);
  mode ← code_of reliable_from_code "discovery schema reliable";
  prio ← read_u8 "discovery schema priority";
  enc ← (if negb std || (3 <=? version)
         then code_of e2e_encryption_policy_from_code "discovery schema e2e cryptography"
         else mret PreferOff);
  ep_count ← read_u32 "discovery schema type endpoint count";
  eps ← wire_vec reserve ep_count 4 "discovery schema type endpoint count"
          (read_u32 "discovery schema type endpoint");
  mret (id, {| mm_name := name; mm_description := desc; element := el; mm_endpoints := eps;
               reliable := mode; priority := prio; e2e_encryption := enc |}).

Definition read_schema (std : bool) : parser OwnedRuntimeSchemaSnapshot :=
  version ← read_u32 "discovery schema version";
  _ ← guard (version_known std version) "discovery schema version";
  ep_count ← read_u32 "discovery schema endpoint count";
  eps ← wire_vec reserve ep_count 13 "discovery schema endpoint count" (decode_endpoint_def std version);
  ty_count ← read_u32 "discovery schema type count";
  tys ← wire_vec reserve ty_count 19 "discovery schema type count" (decode_type_def std version);
  _ ← at_end "discovery schema trailing bytes";
  mret {| snap_endpoints := eps; snap_types := tys |}.

Definition decode_discovery_schema_payload (std : bool) (payload : bytes) : result OwnedRuntimeSchemaSnapshot :=
  run (read_schema std) payload.

Definition decode_discovery_schema (std : bool) (p : Packet) : result OwnedRuntimeSchemaSnapshot :=
  expect ty_DiscoverySchema (decode_discovery_schema_payload std) p.

(** An unchanged catalogue may reuse a transfer under way. *)
Definition same_schema_snapshot (existing incoming : Packet) : bool :=
  (ty existing =? ty_DiscoverySchema) && (ty incoming =? ty_DiscoverySchema)
  && bool_decide (sender existing = sender incoming)
  && bool_decide (pkt_endpoints existing = pkt_endpoints incoming)
  && bool_decide (wire_target_senders existing = wire_target_senders incoming)
  && bool_decide (payload existing = payload incoming).
End Codec.

(** ** What goes over the wire *)

Definition text_ok (s : string) : Prop := utf8_valid (str s) = true.

Record endpoint_wire (d : OwnedEndpointDefinition) : Prop := {
  ew_id : is_u32 (fst d);
  ew_name : text_ok (em_name (snd d));
  ew_description : text_ok (em_description (snd d));
}.

Record type_wire (d : OwnedDataTypeDefinition) : Prop := {
  tw_id : is_u32 (fst d);
  tw_name : text_ok (mm_name (snd d));
  tw_description : text_ok (mm_description (snd d));
  tw_element : match element (snd d) with Static n _ _ => is_u32 n | Dynamic _ _ => True end;
  tw_endpoints : Forall is_u32 (mm_endpoints (snd d));
  tw_endpoint_count : zlen (mm_endpoints (snd d)) <= u32_max;
}.

Record snapshot_wire (s : OwnedRuntimeSchemaSnapshot) : Prop := {
  sw_endpoints : Forall endpoint_wire (snap_endpoints s);
  sw_types : Forall type_wire (snap_types s);
  sw_endpoint_count : zlen (snap_endpoints s) <= u32_max;
  sw_type_count : zlen (snap_types s) <= u32_max;
}.

(** A snapshot without its descriptions. *)
Definition bare_endpoint (d : OwnedEndpointDefinition) : OwnedEndpointDefinition :=
  (fst d, {| em_name := em_name (snd d); em_description := EmptyString; link_local_only := link_local_only (snd d) |}).
Definition bare_type (d : OwnedDataTypeDefinition) : OwnedDataTypeDefinition :=
  (fst d, {| mm_name := mm_name (snd d); mm_description := EmptyString; element := element (snd d);
             mm_endpoints := mm_endpoints (snd d); reliable := reliable (snd d); priority := priority (snd d);
             e2e_encryption := e2e_encryption (snd d) |}).
Definition bare (s : OwnedRuntimeSchemaSnapshot) : OwnedRuntimeSchemaSnapshot :=
  {| snap_endpoints := map bare_endpoint (snap_endpoints s); snap_types := map bare_type (snap_types s) |}.

Lemma unstr_str s : unstr (str s) = s.
Proof. induction s as [|c s IH]; cbn; [done|]. by rewrite N2Z.id, Ascii.ascii_N_embedding, IH. Qed.

Lemma parses_name label s e :
  encode_string (str s) = Ok e -> text_ok s -> parses (decode_name label) e s.
Proof.
  intros He Hs. eapply parses_map; [by apply parses_string|]. rewrite unstr_str. apply parses_ret.
Qed.

Lemma parses_description (sent std : bool) label s e :
  encode_string (if sent then str s else []) = Ok e -> text_ok s ->
  parses (decode_description std 3 label) e (if sent && std then s else EmptyString).
Proof.
  intros He Hs. unfold decode_description. destruct std; cbn [Z.leb Z.compare Pos.compare Pos.compare_cont].
  - destruct sent; cbn [andb]; [by apply parses_name|]. by apply parses_name.
  - rewrite andb_false_r. eapply parses_map; [by eapply parses_skip|]. apply parses_ret.
Qed.

Lemma reliable_code_inv m : reliable_from_code (reliable_code m) = Some m.
Proof. by destruct m. Qed.

Lemma e2e_code_inv p : e2e_encryption_policy_from_code (e2e_encryption_policy_code p) = Some p.
Proof. by destruct p. Qed.

Lemma parses_code {A} (f : Z -> option A) label code v : f code = Some v -> parses (code_of f label) [code] v.
Proof. intros Hf. eapply parses_map; [apply parses_u8|]. apply parses_result. by rewrite Hf. Qed.

(** What arrives: the definitions, with their descriptions or without. *)
Definition arrived_endpoint (keep : bool) (d : OwnedEndpointDefinition) : OwnedEndpointDefinition :=
  if keep then d else bare_endpoint d.
Definition arrived_type (keep : bool) (d : OwnedDataTypeDefinition) : OwnedDataTypeDefinition :=
  if keep then d else bare_type d.
Definition arrived (keep : bool) (s : OwnedRuntimeSchemaSnapshot) : OwnedRuntimeSchemaSnapshot :=
  {| snap_endpoints := map (arrived_endpoint keep) (snap_endpoints s);
     snap_types := map (arrived_type keep) (snap_types s) |}.

Section RoundTrip.
Context (reserve : Z -> bool) (grant : forall n, reserve n = true) (sent std : bool).

Lemma parses_endpoint_def d e :
  endpoint_wire d -> encode_endpoint_def sent d = Ok e ->
  parses (decode_endpoint_def std 3) e (arrived_endpoint (sent && std) d).
Proof.
  intros [H1 H2 H3] (name & Hn & H)%result_bind_ok. apply result_bind_ok in H as (desc & Hd & <-%ok_inj).
  unfold decode_endpoint_def.
  eapply parses_bind; [by apply parses_u32|]. eapply parses_bind; [apply parses_u8|].
  eapply parses_bind; [by apply parses_name|]. eapply parses_map; [by apply parses_description|].
  assert (negb (bool_u8 (link_local_only (snd d)) =? 0) = link_local_only (snd d)) as -> by (by destruct (link_local_only (snd d))).
  destruct d as [id [name0 desc0 ll]]. unfold arrived_endpoint, bare_endpoint. cbn [fst snd em_name em_description link_local_only].
  destruct (sent && std); apply parses_ret.
Qed.

Lemma parses_element_of label el :
  match el with Static n _ _ => is_u32 n | Dynamic _ _ => True end ->
  parses (kind ← read_u8 label;
          count ← read_u32 "discovery schema element count";
          dt ← code_of message_data_type_from_code "discovery schema data type";
          class ← code_of message_class_from_code "discovery schema class";
          p_result (element_of kind count dt class)) (encode_element el) el.
Proof.
  intros Hel.
  assert (forall kind v dt class, is_u32 v -> element_of kind v dt class = Ok el ->
    encode_element el = [kind] ++ le_bytes 4 v ++ [message_data_type_code dt] ++ [message_class_code class] ->
    parses (kind ← read_u8 label;
            count ← read_u32 "discovery schema element count";
            dt ← code_of message_data_type_from_code "discovery schema data type";
            class ← code_of message_class_from_code "discovery schema class";
            p_result (element_of kind count dt class)) (encode_element el) el) as H.
  { intros kind v dt class Hv He ->. eapply parses_bind; [apply parses_u8|]. eapply parses_bind; [by apply parses_u32|].
    eapply parses_bind; [apply parses_code, message_data_type_code_inv|].
    eapply parses_map; [apply parses_code, message_class_code_inv|]. by apply parses_result. }
  destruct el as [n dt class|dt class].
  - apply (H 0 n dt class); [done|done|]. cbn [encode_element]. by rewrite wrap32_small.
  - apply (H 1 0 dt class); [unfold is_u32, u32_max; lia|done|done].
Qed.

Lemma parses_type_def d e :
  type_wire d -> encode_type_def sent d = Ok e ->
  parses (decode_type_def reserve std 3) e (arrived_type (sent && std) d).
Proof using grant.
  intros [H1 H2 H3 H4 H5 H6] (name & Hn & H)%result_bind_ok. apply result_bind_ok in H as (desc & Hd & <-%ok_inj).
  pose proof (zlen_nonneg (mm_endpoints (snd d))). unfold decode_type_def.
  eapply parses_bind; [by apply parses_u32|]. eapply parses_bind; [by apply parses_name|].
  eapply parses_bind; [by apply parses_description|].
  intros rest. rewrite <- app_assoc.
  pose proof (parses_element_of "discovery schema element kind" (element (snd d)) H4) as Hel.
  specialize (Hel (([reliable_code (reliable (snd d)); priority (snd d);
    e2e_encryption_policy_code (e2e_encryption (snd d))] ++ le_bytes 4 (wrap32 (zlen (mm_endpoints (snd d)))) ++
    encode_words (mm_endpoints (snd d))) ++ rest)).
  apply parse_inv in Hel as (kind & l1 & E1 & Hel). apply parse_inv in Hel as (count & l2 & E2 & Hel).
  apply parse_inv in Hel as (dt & l3 & E3 & Hel). apply parse_inv in Hel as (class & l4 & E4 & Hel).
  unfold mbind at 1, parser_bind at 1. rewrite E1. unfold mbind at 1, parser_bind at 1. rewrite E2.
  unfold mbind at 1, parser_bind at 1. rewrite E3. unfold mbind at 1, parser_bind at 1. rewrite E4.
  unfold mbind at 1, parser_bind at 1. rewrite Hel. rewrite <- !app_assoc.
  change ([reliable_code (reliable (snd d)); priority (snd d); e2e_encryption_policy_code (e2e_encryption (snd d))] ++ ?x)
    with ([reliable_code (reliable (snd d))] ++ [priority (snd d)] ++
          [e2e_encryption_policy_code (e2e_encryption (snd d))] ++ x).
  rewrite (parse_step _ _ _ _ _ (parses_code _ _ _ _ (reliable_code_inv _))).
  rewrite (parse_step _ _ _ _ _ (parses_u8 _ _)). rewrite orb_true_r.
  rewrite (parse_step _ _ _ _ _ (parses_code _ _ _ _ (e2e_code_inv _))).
  rewrite (parse_step _ _ _ (zlen (mm_endpoints (snd d)))) by (rewrite wrap32_small by solve_u; apply parses_u32; solve_u).
  rewrite (parse_step _ _ _ (mm_endpoints (snd d))) by (by apply parses_words).
  destruct d as [id []]. by destruct (sent && std).
Qed.

Lemma endpoint_def_size d e : encode_endpoint_def sent d = Ok e -> 13 <= zlen e.
Proof.
  intros (name & Hn & H)%result_bind_ok. apply result_bind_ok in H as (desc & Hd & <-%ok_inj).
  apply encode_string_ok in Hn as [_ ->], Hd as [_ ->]. rewrite !zlen_app. unfold zlen. rewrite !length_le_bytes. cbn [length]. lia.
Qed.

Lemma type_def_size d e : encode_type_def sent d = Ok e -> 19 <= zlen e.
Proof.
  intros (name & Hn & H)%result_bind_ok. apply result_bind_ok in H as (desc & Hd & <-%ok_inj).
  apply encode_string_ok in Hn as [_ ->], Hd as [_ ->]. rewrite !zlen_app. unfold zlen. rewrite !length_le_bytes. cbn [length]. lia.
Qed.

Lemma parses_defs {D} (wire : D -> Prop) (enc : D -> result bytes) (p : parser D) (f : D -> D) min label l body :
  (forall d e, wire d -> enc d = Ok e -> parses p e (f d)) -> (forall d e, enc d = Ok e -> min <= zlen e) -> 0 < min ->
  Forall wire l -> encode_all enc l = Ok body ->
  parses (wire_vec reserve (zlen l) min label p) body (map f l).
Proof using grant.
  intros Hp Hsz Hm Hw (encs & Hf & ->)%encode_all_ok. apply parses_vec; try done.
  - induction Hf as [|d e l encs Hd Hf IH]; [constructor|]. apply Forall_cons in Hw as [? ?].
    cbn [map]. constructor; auto.
  - clear Hw. induction Hf as [|d e l encs Hd Hf IH]; constructor; eauto.
  - unfold zlen. by rewrite length_map.
Qed.

Lemma schema_payload_decode s pl :
  snapshot_wire s -> schema_payload sent s = Ok pl ->
  decode_discovery_schema_payload reserve std pl = Ok (arrived (sent && std) s).
Proof using grant.
  intros [H1 H2 H3 H4] (eps & He & H)%result_bind_ok. apply result_bind_ok in H as (tys & Ht & <-%ok_inj).
  pose proof (zlen_nonneg (snap_endpoints s)). pose proof (zlen_nonneg (snap_types s)).
  unfold decode_discovery_schema_payload, read_schema, run.
  rewrite (parse_step _ _ _ 3) by (apply parses_u32; unfold is_u32, u32_max; lia).
  rewrite (parse_skip _ _ tt) by (apply parses_result; by destruct std).
  rewrite (parse_step _ _ _ (zlen (snap_endpoints s))) by (rewrite wrap32_small by solve_u; apply parses_u32; solve_u).
  rewrite (parse_step _ _ _ (map (arrived_endpoint (sent && std)) (snap_endpoints s)))
    by (eapply parses_defs; eauto using parses_endpoint_def, endpoint_def_size; done).
  rewrite (parse_step _ _ _ (zlen (snap_types s))) by (rewrite wrap32_small by solve_u; apply parses_u32; solve_u).
  rewrite <- (app_nil_r tys), (parse_step _ _ _ (map (arrived_type (sent && std)) (snap_types s)))
    by (eapply parses_defs; eauto using parses_type_def, type_def_size; done).
  done.
Qed.
End RoundTrip.

(** A catalogue sent as a packet arrives whole: with its descriptions
    when both ends carry them, and otherwise with every definition but for the
    descriptions. *)
Theorem schema_wire_roundtrip reg tun reserve (sent std : bool) counter sender0 ts s pl :
  protocol_schema reg -> (forall n, reserve n = true) -> snapshot_wire s -> schema_payload sent s = Ok pl ->
  exists p c, build_discovery_schema_from_snapshot reg tun sent counter sender0 ts s = (Ok p, c) /\
    decode_discovery_schema reserve std p = Ok (if sent && std then s else bare s).
Proof.
  intros Hs Hg Hw Hpl.
  destruct (discovery_packet_ok reg tun counter ty_DiscoverySchema sender0 ts pl) as (p & c & Hp & Ht & Hl & _); [done..|].
  exists p, c. unfold build_discovery_schema_from_snapshot, decode_discovery_schema. rewrite Hpl. split; [exact Hp|].
  rewrite (expect_ok _ _ _ _ Ht Hl), (schema_payload_decode reserve Hg sent std s pl Hw Hpl). f_equal.
  unfold arrived, arrived_endpoint, arrived_type, bare. destruct (sent && std); [|done].
  rewrite !map_id. by destruct s.
Qed.

(** ** Scanning against the registry

    The answers of [memory_admission::check] and of the allocator, and the sizes of
    the two definition types, are parameters. *)

Definition find_endpoint_meta (reg : Registry) (ep : DataEndpoint) : option EndpointMeta :=
  snd <$> head (filter (fun e => fst e = ep) (endpoints reg)).

Definition get_endpoint_meta (reg : Registry) (ep : DataEndpoint) : EndpointMeta :=
  default {| em_name := "UNKNOWN_ENDPOINT"; em_description := EmptyString; link_local_only := false |}
    (find_endpoint_meta reg ep).

(** A definition off the wire that says nothing new. *)
Definition known_endpoint (reg : Registry) (d : OwnedEndpointDefinition) : bool :=
  let meta := get_endpoint_meta reg (fst d) in
  endpoint_exists reg (fst d) && bool_decide (em_name meta = em_name (snd d))
  && (negb (link_local_only (snd d)) || link_local_only meta).

Definition known_type_head (meta : option MessageMeta) (name : string) (el : MessageElement) (mode : ReliableMode)
    (prio : Z) (enc : E2eEncryptionPolicy) : bool :=
  match meta with
  | Some meta => bool_decide (mm_name meta = name) && bool_decide (element meta = el)
      && bool_decide (reliable meta = mode) && (prio <=? priority meta)
      && bool_decide (e2e_encryption meta = enc)
  | None => false
  end.

Definition knows_endpoint (meta : option MessageMeta) (ep : DataEndpoint) : bool :=
  match meta with Some meta => one_of ep (mm_endpoints meta) | None => false end.

Definition known_type (reg : Registry) (d : OwnedDataTypeDefinition) : bool :=
  let meta := try_get_message_meta reg (fst d) in
  known_type_head meta (mm_name (snd d)) (element (snd d)) (reliable (snd d)) (priority (snd d))
    (e2e_encryption (snd d))
  && forallb (knows_endpoint meta) (mm_endpoints (snd d)).

Section Scan.
Context (reg : Registry) (reserve : Z -> bool) (admission : Z -> Z -> result unit) (endpoint_size type_size : Z).

(** The check on a count, without a reservation. *)
Definition count_room (count min : Z) (label : string) : parser unit := fun l =>
  if zlen l / min <? count then Err (Unpack label) else Ok (tt, l).

Definition reserve_one : result unit := if reserve 1 then Ok tt else Err (Io "memory pressure").

Definition charge (bytes : Z) : result unit := admission (sat_add (sat_mul bytes 3) 1024) (sat_add bytes 128).

Definition scan_endpoint (retain : bool) : parser (bool * option OwnedEndpointDefinition) :=
  id ← read_u32 "discovery schema endpoint id";
  flags ← read_u8 "discovery schema endpoint flags";
  name ← decode_name "discovery schema endpoint name";
  let def := (id, {| em_name := name; em_description := EmptyString; link_local_only := negb (flags =? 0) |}) in
  let equivalent := known_endpoint reg def in
  _ ← skip_string "discovery schema endpoint description";
  if retain && negb equivalent then
    _ ← p_result (charge (sat_add (zlen (str name)) endpoint_size));
    _ ← p_result reserve_one;
    mret (equivalent, Some def)
  else mret (equivalent, None).

Definition scan_type (retain : bool) : parser (bool * option OwnedDataTypeDefinition) :=
  id ← read_u32 "discovery schema type id";
  let meta := try_get_message_meta reg id in
  name ← decode_name "discovery schema type name";
  _ ← skip_string "discovery schema type description";
  kind ← read_u8 "discovery schema element kind";
  _ ← guard (negb (1 <? kind)) "discovery schema element kind";
  count ← read_u32 "discovery schema element count";
  dt ← code_of message_data_type_from_code "discovery schema data type";
  class ← code_of message_class_from_code "discovery schema class";
  mode ← code_of reliable_from_code "discovery schema reliable";
  prio ← read_u8 "discovery schema priority";
  enc ← code_of e2e_encryption_policy_from_code "discovery schema e2e cryptography";
  ep_count ← read_u32 "discovery schema type endpoint count";
  _ ← count_room ep_count 4 "discovery schema type endpoint count";
  let el := if kind =? 0 then Static count dt class else Dynamic dt class in
  eps ← times (Z.to_nat ep_count) (read_u32 "discovery schema type endpoint");
  let equivalent := known_type_head meta name el mode prio enc && forallb (knows_endpoint meta) eps in
  if retain && negb equivalent then
    _ ← p_result (charge (sat_add (sat_add (zlen (str name)) (sat_mul ep_count 4)) type_size));
    _ ← p_result reserve_one;
    _ ← p_result (if reserve ep_count then Ok tt else Err (Unpack "discovery schema type endpoint count"));
    mret (equivalent, Some (id, {| mm_name := name; mm_description := EmptyString; element := el;
                                   mm_endpoints := eps; reliable := mode; priority := prio;
                                   e2e_encryption := enc |}))
  else mret (equivalent, None).

Definition scan_schema (retain : bool) : parser (bool * OwnedRuntimeSchemaSnapshot) :=
  version ← read_u32 "discovery schema version";
  _ ← guard (version =? 3) "discovery schema version";
  ep_count ← read_u32 "discovery schema endpoint count";
  _ ← count_room ep_count 13 "discovery schema endpoint count";
  eps ← times (Z.to_nat ep_count) (scan_endpoint retain);
  ty_count ← read_u32 "discovery schema type count";
  _ ← count_room ty_count 19 "discovery schema type count";
  tys ← times (Z.to_nat ty_count) (scan_type retain);
  _ ← at_end "discovery schema trailing bytes";
  mret (forallb fst eps && forallb fst tys,
        {| snap_endpoints := omap snd eps; snap_types := omap snd tys |}).

Definition scan_schema_changes (retain : bool) (payload : bytes) : result (bool * OwnedRuntimeSchemaSnapshot) :=
  run (scan_schema retain) payload.

Definition discovery_schema_payload_is_fully_known (payload : bytes) : result bool :=
  p ← scan_schema_changes false payload; Ok (fst p).

Definition decode_schema_changes (payload : bytes) : result OwnedRuntimeSchemaSnapshot :=
  p ← scan_schema_changes true payload; Ok (snd p).
End Scan.

(** *** The scan and the decoder agree *)

(** Two readers that refuse the same inputs, read as far and give related values. *)
Definition tracks {A B} (p : parser A) (q : parser B) (R : A -> B -> Prop) : Prop :=
  forall l, bytes_ok l ->
    match p l with
    | Ok (a, l') => exists b, q l = Ok (b, l') /\ R a b /\ bytes_ok l'
    | Err _ => exists e, q l = Err e
    end.

Lemma tracks_bind {A B A' B'} (p : parser A) (q : parser B) R (k : A -> parser A') (h : B -> parser B') S :
  tracks p q R -> (forall a b, R a b -> tracks (k a) (h b) S) -> tracks (p ≫= k) (q ≫= h) S.
Proof.
  intros Hp Hk l Hl. specialize (Hp l Hl). unfold mbind, parser_bind.
  destruct (p l) as [[a l1]|e].
  - destruct Hp as (b & -> & Hab & Hl1). exact (Hk a b Hab l1 Hl1).
  - destruct Hp as [e' ->]. eauto.
Qed.

Lemma tracks_ret {A B} (a : A) (b : B) (R : A -> B -> Prop) : R a b -> tracks (mret a) (mret b) R.
Proof. intros H l Hl. exists b. done. Qed.

Lemma tracks_result {A B} (a : result A) (b : result B) (R : A -> B -> Prop) :
  match a, b with Ok a, Ok b => R a b | Err _, Err _ => True | _, _ => False end ->
  tracks (p_result a) (p_result b) R.
Proof. intros H l Hl. destruct a, b; cbn; try done; eauto. Qed.

Lemma tracks_slice n label : tracks (slice n label) (slice n label) (fun a b => a = b /\ bytes_ok a).
Proof.
  intros l Hl. unfold slice. destruct (zlen l <? n); [eauto|]. eexists. split; [done|]. split; [|by apply Forall_drop].
  split; [done|by apply Forall_take].
Qed.

Lemma tracks_u8 label : tracks (read_u8 label) (read_u8 label) (fun a b => a = b /\ is_u8 a).
Proof.
  eapply tracks_bind; [apply tracks_slice|]. intros a b [<- Ha]. apply tracks_ret. split; [done|].
  destruct Ha as [|x l Hx _]; [unfold is_u8, u8_max; cbn; lia|done].
Qed.

Lemma tracks_u32 label : tracks (read_u32 label) (read_u32 label) eq.
Proof. eapply tracks_bind; [apply tracks_slice|]. intros a b [<- _]. by apply tracks_ret. Qed.

Lemma tracks_string label : tracks (decode_string label) (decode_string label) eq.
Proof.
  eapply tracks_bind; [apply tracks_u32|]. intros a b <-. eapply tracks_bind; [apply tracks_slice|].
  intros a' b' [<- _]. apply tracks_result. unfold from_utf8. by destruct (utf8_valid a').
Qed.

Lemma tracks_name label : tracks (decode_name label) (decode_name label) eq.
Proof. eapply tracks_bind; [apply tracks_string|]. intros a b <-. by apply tracks_ret. Qed.

Lemma tracks_skip label : tracks (skip_string label) (skip_string label) eq.
Proof.
  eapply tracks_bind; [apply tracks_u32|]. intros a b <-. eapply tracks_bind; [apply tracks_slice|].
  intros a' b' [<- _]. by apply tracks_ret.
Qed.

Lemma tracks_code {A} (f : Z -> option A) label : tracks (code_of f label) (code_of f label) eq.
Proof.
  eapply tracks_bind; [apply tracks_u8|]. intros a b [<- _]. apply tracks_result. by destruct (f a).
Qed.

Lemma tracks_times {A B} (p : parser A) (q : parser B) R n :
  tracks p q R -> tracks (times n p) (times n q) (Forall2 R).
Proof.
  intros H. induction n as [|n IH]; cbn [times]; [by apply tracks_ret|].
  eapply tracks_bind; [exact H|]. intros a b Hab. eapply tracks_bind; [exact IH|]. intros xs ys Hxy.
  apply tracks_ret. by constructor.
Qed.

(** Reserving and reading against checking and reading. *)
Lemma tracks_vec {A B} reserve (p : parser A) (q : parser B) R count min label :
  (forall n, reserve n = true) -> 0 < min -> tracks p q R ->
  tracks (wire_vec reserve count min label p)
         (_ ← count_room count min label; times (Z.to_nat count) q) (Forall2 R).
Proof.
  intros Hg Hm Hp. eapply (tracks_bind _ _ (fun _ _ => True)); [|intros _ _ _; by apply tracks_times].
  intros l Hl. unfold bounded_wire_vec, count_room. rewrite (proj2 (Z.eqb_neq min 0)) by lia. cbn [orb].
  destruct (_ <? count); [eauto|]. rewrite Hg. eauto.
Qed.

(** A reader that always fails. *)
Definition fails {A} (p : parser A) : Prop := forall l, exists e, p l = Err e.

Lemma fails_bind {A B} (p : parser A) (k : A -> parser B) : (forall a, fails (k a)) -> fails (p ≫= k).
Proof. intros H l. unfold mbind, parser_bind. destruct (p l) as [[a l']|e]; [apply H|eauto]. Qed.

Lemma fails_first {A B} (p : parser A) (k : A -> parser B) : fails p -> fails (p ≫= k).
Proof. intros H l. unfold mbind, parser_bind. destruct (H l) as [e ->]. eauto. Qed.

Lemma tracks_fails {A B} (p : parser A) (q : parser B) R : fails p -> fails q -> tracks p q R.
Proof. intros Hp Hq l _. destruct (Hp l) as [e ->]. apply Hq. Qed.

(** What a scan reports of a definition. *)
Definition reported {D} (known : D -> bool) (d : D) (r : bool * option D) : Prop :=
  r = (known d, if known d then None else Some d).

Section ScanProof.
Context (reg : Registry) (reserve : Z -> bool) (admission : Z -> Z -> result unit) (endpoint_size type_size : Z).
Context (grant : forall n, reserve n = true) (admitted : forall a b, admission a b = Ok tt).

Lemma tracks_known {D} (p : parser (bool * option D)) (known : D -> bool) (d : D) :
  (forall l, p l = Ok ((known d, if known d then None else Some d), l)) -> tracks (mret d) p (reported known).
Proof. intros Hp l Hl. eexists. rewrite Hp. split; [done|]. by split. Qed.

Lemma charge_ok n l : p_result (charge admission n) l = Ok (tt, l).
Proof using admitted. unfold charge. by rewrite admitted. Qed.

Lemma reserve_one_ok l : p_result (reserve_one reserve) l = Ok (tt, l).
Proof using grant. unfold reserve_one. by rewrite grant. Qed.

Lemma tracks_description label :
  tracks (decode_description false 3 label) (skip_string label) (fun d _ => d = EmptyString).
Proof.
  intros l Hl. pose proof (tracks_skip label l Hl) as Hs. unfold decode_description, mbind, parser_bind.
  destruct (skip_string label l) as [[u l']|e]; [|exact Hs]. destruct Hs as (b & Hb & _ & Hl').
  injection Hb as <-. exists u. by split.
Qed.

Lemma tracks_endpoint :
  tracks (decode_endpoint_def false 3) (scan_endpoint reg reserve admission endpoint_size true)
    (reported (known_endpoint reg)).
Proof using grant admitted.
  eapply tracks_bind; [apply tracks_u32|]. intros id b <-. eapply tracks_bind; [apply tracks_u8|].
  intros flags b [<- _]. eapply tracks_bind; [apply tracks_name|]. intros name b <-. cbv zeta.
  eapply tracks_bind; [apply tracks_description|]. intros d u ->. apply tracks_known. intros l.
  destruct (known_endpoint reg _); [done|]. cbn [andb negb]. unfold mbind, parser_bind.
  by rewrite charge_ok, reserve_one_ok.
Qed.

Lemma type_kind kind count dt class :
  is_u8 kind -> (1 <? kind) = false ->
  element_of kind count dt class = Ok (if kind =? 0 then Static count dt class else Dynamic dt class).
Proof.
  intros Hk H1%Z.ltb_ge. unfold element_of. destruct (Z.eqb_spec kind 0); [done|].
  rewrite (proj2 (Z.eqb_eq kind 1)); [done|]. unfold is_u8 in Hk. lia.
Qed.

Lemma tracks_type :
  tracks (decode_type_def reserve false 3) (scan_type reg reserve admission type_size true)
    (reported (known_type reg)).
Proof using grant admitted.
  eapply tracks_bind; [apply tracks_u32|]. intros id b <-. cbv zeta.
  eapply tracks_bind; [apply tracks_name|]. intros name b <-.
  eapply tracks_bind; [apply tracks_description|]. intros d u ->.
  eapply tracks_bind; [apply tracks_u8|]. intros kind b [<- Hk]. destruct (1 <? kind) eqn:Ek.
  { apply tracks_fails; [|by apply fails_first; intros l; eexists]. do 3 (apply fails_bind; intros ?).
    apply fails_first. intros l. unfold element_of. apply Z.ltb_lt in Ek.
    rewrite (proj2 (Z.eqb_neq kind 0)), (proj2 (Z.eqb_neq kind 1)) by lia. by eexists. }
  intros l Hl. rewrite (parse_skip (guard (negb false) _) _ tt) by (by apply parses_result). revert l Hl.
  change (tracks (?p) (?q) ?R) with (tracks p q R).
  eapply (tracks_bind _ _ eq); [apply tracks_u32|]. intros count b <-.
  eapply tracks_bind; [apply tracks_code|]. intros dt b <-. eapply tracks_bind; [apply tracks_code|]. intros class b <-.
  intros l Hl. rewrite (parse_skip (p_result (element_of kind count dt class)) _ _ _ (parses_result _ _ (type_kind _ _ _ _ Hk Ek))).
  revert l Hl. eapply (tracks_bind _ _ eq); [apply tracks_code|]. intros mode b <-.
  eapply tracks_bind; [apply tracks_u8|]. intros prio b [<- _].
  eapply tracks_bind; [apply tracks_code|]. intros enc b <-. eapply tracks_bind; [apply tracks_u32|]. intros n b <-.
  intros l Hl. rewrite <- bind_assoc_parser. revert l Hl.
  eapply (tracks_bind _ _ (Forall2 eq)); [apply tracks_vec; [done|done|apply tracks_u32]|]. intros eps eps' <-%list_eq_Forall2.
  apply tracks_known. intros l. unfold known_type. cbn [fst snd mm_name element reliable priority e2e_encryption mm_endpoints].
  destruct (_ && forallb _ eps); [done|]. cbn [andb negb]. unfold mbind, parser_bind.
  by rewrite charge_ok, reserve_one_ok, grant.
Qed.
End ScanProof.

Lemma reported_all {D} (known : D -> bool) l r :
  Forall2 (reported known) l r ->
  forallb fst r = forallb known l /\ omap snd r = filter (fun d => known d = false) l.
Proof.
  induction 1 as [|d x l r -> Hf [IH1 IH2]]; [done|]. rewrite filter_cons, <- IH2. cbn [forallb]. rewrite IH1.
  split; [done|]. change (omap snd ((known d, if known d then None else Some d) :: r))
    with (match (if known d then None else Some d) with Some y => y :: omap snd r | None => omap snd r end).
  destruct (known d); [by rewrite decide_False by done|by rewrite decide_True by done].
Qed.

Lemma tracks_end label : tracks (at_end label) (at_end label) (fun _ _ => True).
Proof. intros l Hl. unfold at_end. destruct (is_empty l); eauto. Qed.

(** C11: scanning a catalogue against the registry accepts exactly the
    payloads the decoder accepts, and hands on exactly the decoded definitions the
    registry does not hold in equivalent form. *)
Theorem schema_scan_agrees reg reserve admission endpoint_size type_size pl :
  (forall n, reserve n = true) -> (forall a b, admission a b = Ok tt) -> bytes_ok pl ->
  match decode_discovery_schema_payload reserve false pl with
  | Ok s =>
      scan_schema_changes reg reserve admission endpoint_size type_size true pl =
        Ok (forallb (known_endpoint reg) (snap_endpoints s) && forallb (known_type reg) (snap_types s),
            {| snap_endpoints := filter (fun d => known_endpoint reg d = false) (snap_endpoints s);
               snap_types := filter (fun d => known_type reg d = false) (snap_types s) |})
  | Err _ => exists e, scan_schema_changes reg reserve admission endpoint_size type_size true pl = Err e
  end.
Proof.
  intros Hg Ha Hpl. unfold decode_discovery_schema_payload, scan_schema_changes, run.
  assert (tracks (read_schema reserve false) (scan_schema reg reserve admission endpoint_size type_size true)
    (fun s r => r = (forallb (known_endpoint reg) (snap_endpoints s) && forallb (known_type reg) (snap_types s),
       {| snap_endpoints := filter (fun d => known_endpoint reg d = false) (snap_endpoints s);
          snap_types := filter (fun d => known_type reg d = false) (snap_types s) |}))) as H.
  { eapply tracks_bind; [apply tracks_u32|]. intros version b <-. unfold version_known.
    destruct (Z.eqb_spec version 3) as [->|].
    2: { apply tracks_fails; apply fails_first; intros l; by eexists. }
    eapply (tracks_bind _ _ eq); [by apply tracks_result|]. intros _ _ _.
    eapply tracks_bind; [apply tracks_u32|]. intros n b <-. intros l Hl. rewrite <- bind_assoc_parser. revert l Hl.
    eapply (tracks_bind _ _ (Forall2 (reported (known_endpoint reg)))).
    { apply tracks_vec; [done|done|]. by apply tracks_endpoint. }
    intros eps eps' [He1 He2]%reported_all. eapply (tracks_bind _ _ eq); [apply tracks_u32|]. intros m b <-.
    intros l Hl. rewrite <- bind_assoc_parser. revert l Hl.
    eapply (tracks_bind _ _ (Forall2 (reported (known_type reg)))).
    { apply tracks_vec; [done|done|]. by apply tracks_type. }
    intros tys tys' [Ht1 Ht2]%reported_all. eapply (tracks_bind _ _ (fun _ _ => True)); [apply tracks_end|].
    intros _ _ _. apply tracks_ret. cbn [snap_endpoints snap_types]. by rewrite He1, He2, Ht1, Ht2. }
  specialize (H pl Hpl). destruct (read_schema _ _ pl) as [[s l']|e]; [|destruct H as [e' ->]; eauto].
  destruct H as (r & -> & -> & _). done.
Qed.

(** ** Version 1

    A definition of version 1 has no description: an endpoint takes nine bytes and
    its name.  The check on the count asks for thirteen all the same, and refuses
    catalogues of short names that read well. *)

Definition short_names : bytes :=
  concat (map (fun id => le_bytes 4 id ++ [0] ++ le_bytes 4 1 ++ [65]) [300; 301; 302]).
Definition version_one_payload : bytes := le_bytes 4 1 ++ le_bytes 4 3 ++ short_names ++ le_bytes 4 0.

Lemma version_one_refused :
  decode_discovery_schema_payload grants true version_one_payload = Err (Unpack "discovery schema endpoint count") /\
  times 3 (decode_endpoint_def true 1) short_names =
    Ok (map (fun id => (id, {| em_name := "A"; em_description := ""; link_local_only := false |})) [300; 301; 302], []).
Proof. split; vm_compute; reflexivity. Qed.

(** ** Samples *)

Definition sample_snapshot : OwnedRuntimeSchemaSnapshot := Eval vm_compute in export_schema sample_a.
Definition sample_schema_payload : bytes :=
  Eval vm_compute in match schema_payload true sample_snapshot with Ok pl => pl | Err _ => [] end.

Lemma u32_by_test l : forallb (fun v => (0 <=? v) && (v <=? u32_max)) l = true -> Forall is_u32 l.
Proof.
  intros H. apply Forall_forall. intros v Hv%list_elem_of_In. apply (proj1 (forallb_forall _ _) H) in Hv.
  by apply andb_true_iff in Hv as [?%Z.leb_le ?%Z.leb_le].
Qed.

Lemma sample_snapshot_wire : snapshot_wire sample_snapshot.
Proof.
  constructor.
  - unfold sample_snapshot. cbn [snap_endpoints].
    repeat (apply Forall_cons; split; [split; [split; discriminate|vm_compute; reflexivity..]|]). constructor.
  - unfold sample_snapshot. cbn [snap_types].
    repeat (apply Forall_cons; split; [split; [split; discriminate|vm_compute; reflexivity|vm_compute; reflexivity|
      first [exact I|split; discriminate]|apply u32_by_test; vm_compute; reflexivity|vm_compute; discriminate]|]).
    constructor.
  - vm_compute. discriminate.
  - vm_compute. discriminate.
Qed.

Lemma schema_wire_roundtrip_witness :
  exists p c, build_discovery_schema_from_snapshot initial_registry sample_tuning true 5 [71] 9 sample_snapshot = (Ok p, c) /\
    decode_discovery_schema grants false p = Ok (bare sample_snapshot).
Proof.
  apply (schema_wire_roundtrip initial_registry sample_tuning grants true false 5 [71] 9 sample_snapshot
    sample_schema_payload initial_protocol_schema (fun n => eq_refl) sample_snapshot_wire).
  vm_compute. reflexivity.
Defined.

Definition admission_open (a b : Z) : result unit := Ok tt.

Definition bare_payload : bytes :=
  Eval vm_compute in match schema_payload false sample_snapshot with Ok pl => pl | Err _ => [] end.

Lemma bare_payload_bytes : bytes_ok bare_payload.
Proof.
  apply Forall_forall. intros v Hv%list_elem_of_In.
  assert (forallb (fun v => (0 <=? v) && (v <=? u8_max)) bare_payload = true) as H by (vm_compute; reflexivity).
  apply (proj1 (forallb_forall _ _) H) in Hv. by apply andb_true_iff in Hv as [?%Z.leb_le ?%Z.leb_le].
Qed.

(** A board that knows the protocol only learns the radio and its type. *)
Lemma schema_scan_agrees_witness :
  decode_discovery_schema_payload grants false bare_payload = Ok (bare sample_snapshot) /\
  scan_schema_changes initial_registry grants admission_open 48 80 true bare_payload =
    Ok (false, {| snap_endpoints := filter (fun d => known_endpoint initial_registry d = false)
                                      (snap_endpoints (bare sample_snapshot));
                  snap_types := filter (fun d => known_type initial_registry d = false)
                                  (snap_types (bare sample_snapshot)) |}).
Proof.
  assert (decode_discovery_schema_payload grants false bare_payload = Ok (bare sample_snapshot)) as Hd
    by (vm_compute; reflexivity).
  split; [exact Hd|].
  pose proof (schema_scan_agrees initial_registry grants admission_open 48 80 bare_payload (fun n => eq_refl)
    (fun a b => eq_refl) bare_payload_bytes) as H.
  rewrite Hd in H. rewrite H. vm_compute. reflexivity.
Defined.
