(* ===== verification/AddressBook.v ===== *)
(** * The address book of a router (src/src/router.rs)

    Every board has a host name and a numeric address.  A router keeps its own
    identity, a record of every board that advertised itself to it and the map from
    addresses to names, resolves conflicts with its own identity, and attributes
    packets to names. *)

From stdpp Require Import gmap.
From S2P Require Import Prelude Schema Packet SmallSort SortedList Topology DiscoveryWire DiscoveryCodec.

Open Scope Z_scope.

Abbreviation Name := (list Z).
Abbreviation NodeAddress := Z.

(** ** Identities *)

Inductive AddressAssignmentMode : Type :=
| ModeDynamic
| ModeRequested (address : NodeAddress)
| ModeStatic (address : NodeAddress).

#[export] Instance AddressAssignmentMode_eq_dec : EqDecision AddressAssignmentMode.
Proof. solve_decision. Defined.

Definition mode_code (m : AddressAssignmentMode) : Z :=
  match m with ModeDynamic => 0 | ModeRequested _ => 1 | ModeStatic _ => 2 end.
Definition mode_requested_address (m : AddressAssignmentMode) : NodeAddress :=
  match m with ModeDynamic => 0 | ModeRequested a | ModeStatic a => a end.
Definition address_mode_from_code (mode requested : Z) : AddressAssignmentMode :=
  let requested' := if requested =? 0 then 1 else requested in
  if mode =? 2 then ModeStatic requested' else if mode =? 1 then ModeRequested requested' else ModeDynamic.

Inductive AddressChangeReason : Type :=
| Configured | DynamicConflict | RequestedConflict | StaticConflict | HostnameConflict.

Record AddressChange : Type := {
  old_hostname : Name;
  new_hostname : Name;
  old_address : NodeAddress;
  new_address : NodeAddress;
  change_reason : AddressChangeReason;
}.

Record AddressBookEntry : Type := {
  hostname : Name;
  address : NodeAddress;
  requested_address : NodeAddress;
  mode : AddressAssignmentMode;
  birth_ms : Z;
  owner_hash : Z;
  last_seen_ms : Z;
}.

#[export] Instance AddressBookEntry_eq_dec : EqDecision AddressBookEntry.
Proof. solve_decision. Defined.

Definition with_hostname (n : Name) (e : AddressBookEntry) : AddressBookEntry :=
  {| hostname := n; address := address e; requested_address := requested_address e; mode := mode e;
     birth_ms := birth_ms e; owner_hash := owner_hash e; last_seen_ms := last_seen_ms e |}.
Definition with_address (a : NodeAddress) (e : AddressBookEntry) : AddressBookEntry :=
  {| hostname := hostname e; address := a; requested_address := requested_address e; mode := mode e;
     birth_ms := birth_ms e; owner_hash := owner_hash e; last_seen_ms := last_seen_ms e |}.
Definition seen_at (now : Z) (e : AddressBookEntry) : AddressBookEntry :=
  {| hostname := hostname e; address := address e; requested_address := requested_address e; mode := mode e;
     birth_ms := birth_ms e; owner_hash := owner_hash e; last_seen_ms := now |}.

(** ** Names and numbers *)

Definition sender_hash (sender : Name) : Z :=
  match strip_prefix addr_prefix sender ≫= parse_u32 with
  | Some a => a
  | None => hash_bytes_u64 0x517CC1B727220A95 sender
  end.

Definition fallback_address_for_hostname (n : Name) : NodeAddress :=
  let hash := sender_hash n in
  let a := Z.lxor (wrap32 hash) (wrap32 (Z.shiftr hash 32)) in
  if a =? 0 then 1 else a.

(** The order of claims to an address: the kind of assignment, then the earlier
    birth, then the smaller owner.  [true] when the first wins. *)
Definition mode_rank (m : AddressAssignmentMode) : Z :=
  match m with ModeStatic _ => 2 | ModeRequested _ => 1 | ModeDynamic => 0 end.

Definition identity_wins (a b : AddressBookEntry) : bool :=
  (birth_ms a <? birth_ms b) || ((birth_ms a =? birth_ms b) && (owner_hash a <? owner_hash b)).

Definition address_wins (a b : AddressBookEntry) : bool :=
  (mode_rank (mode b) <? mode_rank (mode a)) ||
  ((mode_rank (mode a) =? mode_rank (mode b)) && identity_wins a b).

(** ** The state *)

Record AddressState : Type := {
  local_services : bool;
  local_address : AddressBookEntry;
  address_book : gmap Name AddressBookEntry;
  address_by_value : gmap NodeAddress Name;
  protocol_sender : Name;
  cadence : DiscoveryCadenceState;
}.

Definition set_maps (book : gmap Name AddressBookEntry) (by_value : gmap NodeAddress Name) (st : AddressState)
    : AddressState :=
  {| local_services := local_services st; local_address := local_address st; address_book := book;
     address_by_value := by_value; protocol_sender := protocol_sender st; cadence := cadence st |}.

(** [new_with_clock]: the identity a router starts with. *)
Definition new_identity (services : bool) (name : Name) (m : AddressAssignmentMode) (instance_seq now : Z)
    : AddressState :=
  let requested := mode_requested_address m in
  let local :=
    {| hostname := name;
       address := if requested =? 0 then fallback_address_for_hostname name else requested;
       requested_address := requested; mode := m;
       birth_ms := sat_add (sat_mul now 1000000) instance_seq;
       owner_hash := Z.lxor (sender_hash name) instance_seq; last_seen_ms := now |} in
  {| local_services := services; local_address := local;
     address_book := if services then {[name := local]} else ∅;
     address_by_value := if services then {[address local := name]} else ∅;
     protocol_sender := name; cadence := cadence_default |}.

(** ** Free addresses and names *)

(** Of the [u32::MAX] rounds of the source as many as there are taken addresses,
    and one more, are enough. *)
Fixpoint allocate_loop (fuel : nat) (taken : gmap NodeAddress Name) (candidate : NodeAddress) : NodeAddress :=
  match fuel with
  | O => 1
  | S fuel =>
      if negb (candidate =? 0) && bool_decide (taken !! candidate = None) then candidate
      else
        let candidate := wrap32 (candidate + 1) in
        allocate_loop fuel taken (if candidate =? 0 then 1 else candidate)
  end.

Definition allocate_free_address (st : AddressState) (seed : NodeAddress) : NodeAddress :=
  allocate_loop (S (size (address_by_value st))) (address_by_value st) (if seed =? 0 then 1 else seed).

Definition hex_digit (d : Z) : Z := if d <? 10 then 48 + d else 87 + d.
Fixpoint hex_loop (fuel : nat) (v : Z) (acc : bytes) : bytes :=
  match fuel with
  | O => acc
  | S fuel =>
      let acc := hex_digit (v mod 16) :: acc in
      if v / 16 =? 0 then acc else hex_loop fuel (v / 16) acc
  end.

(** [{:08x}]. *)
Definition format_hex8 (v : Z) : bytes :=
  let digits := hex_loop 16 v [] in replicate (8 - length digits) 48 ++ digits.
Definition format_decimal (v : Z) : bytes := decimal_loop 10 v [].

Definition name_taken (st : AddressState) (n : Name) : bool :=
  bool_decide (is_Some (address_book st !! n)) || bool_decide (hostname (local_address st) = n).

(** The suffixes differ: one more than there are names taken is enough. *)
Fixpoint unique_loop (fuel : nat) (st : AddressState) (base : Name) (suffix : Z) (candidate : Name) : option Name :=
  if name_taken st candidate then
    match fuel with
    | O => None
    | S fuel => unique_loop fuel st base (Z.min u32_max (suffix + 1)) (base ++ [45] ++ format_decimal suffix)
    end
  else Some candidate.

Definition unique_hostname (st : AddressState) (base : Name) (owner : Z) : option Name :=
  if negb (name_taken st base) then Some base
  else
    let stem := if is_empty base then str "node" else base in
    let numbered := stem ++ [45] ++ format_hex8 owner in
    unique_loop (S (size (address_book st))) st numbered 1 numbered.

(** ** The local identity *)

(** [spare] is the record reserved for an identity that has none yet.  Marking the
    sides for an incremental announcement is not part of this state. *)
Definition update_local_identity (st : AddressState) (local : AddressBookEntry) (reason : AddressChangeReason)
    (spare : bool) (now : Z) : result AddressChange * AddressState :=
  let old := local_address st in
  let '(record, book) := (address_book st !! hostname old, delete (hostname old) (address_book st)) in
  if bool_decide (record = None) && negb spare then (Err (Io "local identity changed"), st)
  else
    let local := seen_at now local in
    (Ok {| old_hostname := hostname old; new_hostname := hostname local; old_address := address old;
           new_address := address local; change_reason := reason |},
     {| local_services := local_services st; local_address := local;
        address_book := <[hostname local := local]> book;
        address_by_value := <[address local := hostname local]> (delete (address old) (address_by_value st));
        protocol_sender := hostname local; cadence := on_topology_change (cadence st) now |}).

Definition set_sender (st : AddressState) (name : Name) (now : Z) : AddressState :=
  if negb (local_services st) then
    {| local_services := local_services st; local_address := local_address st; address_book := address_book st;
       address_by_value := address_by_value st; protocol_sender := name; cadence := cadence st |}
  else
    let old := local_address st in
    let local := {| hostname := name;
                    address := match mode old with ModeDynamic => fallback_address_for_hostname name | _ => address old end;
                    requested_address := match mode old with ModeDynamic => 0 | _ => requested_address old end;
                    mode := mode old; birth_ms := birth_ms old; owner_hash := sender_hash name;
                    last_seen_ms := last_seen_ms old |} in
    snd (update_local_identity st local Configured false now).

Definition configured_address (m : AddressAssignmentMode) (n : Name) : NodeAddress :=
  match m with
  | ModeDynamic => fallback_address_for_hostname n
  | ModeRequested a | ModeStatic a => if a =? 0 then 1 else a
  end.

Section Ingest.
(** Whether the allocator and the admission probe grant a record. *)
Context (try_box : result unit).

Definition set_address_assignment (st : AddressState) (m : AddressAssignmentMode) (now : Z)
    : result AddressChange * AddressState :=
  let old := local_address st in
  let local := {| hostname := hostname old; address := configured_address m (hostname old);
                  requested_address := mode_requested_address m; mode := m; birth_ms := birth_ms old;
                  owner_hash := owner_hash old; last_seen_ms := last_seen_ms old |} in
  let spare := if bool_decide (is_Some (address_book st !! hostname old)) then Ok false else _ ← try_box; Ok true in
  match spare with
  | Err e => (Err e, st)
  | Ok spare => update_local_identity st local Configured spare now
  end.

(** ** Advertisements *)

Definition advertised_entry (ad : AddressAdvertisement) (now : Z) : AddressBookEntry :=
  {| hostname := ad_hostname ad; address := ad_address ad; requested_address := ad_requested_address ad;
     mode := address_mode_from_code (ad_mode ad) (ad_requested_address ad); birth_ms := ad_birth_ms ad;
     owner_hash := ad_owner_hash ad; last_seen_ms := now |}.

(** The peer has a record that this advertisement updates. *)
Definition known_peer (st : AddressState) (n : Name) (owner : Z) : bool :=
  match address_book st !! n with Some e => owner_hash e =? owner | None => false end.

(** [PreparedAddressRecords]: which records were reserved. *)
Record PreparedAddressRecords : Type := { fresh_peer : bool; local_spare : bool }.

Definition prepare_address_record (st : AddressState) (ad : AddressAdvertisement) (now : Z)
    : result PreparedAddressRecords :=
  let remote := advertised_entry ad now in
  fresh ← (if known_peer st (ad_hostname ad) (ad_owner_hash ad) then Ok false else _ ← try_box; Ok true);
  let local := local_address st in
  let moves_local :=
    negb (owner_hash remote =? owner_hash local) &&
    ((bool_decide (hostname remote = hostname local) && identity_wins remote local)
     || ((address remote =? address local) && address_wins remote local)) in
  spare ← (if moves_local && negb (bool_decide (is_Some (address_book st !! hostname local)))
           then _ ← try_box; Ok true else Ok false);
  Ok {| fresh_peer := fresh; local_spare := spare |}.

Definition conflict_reason (m : AddressAssignmentMode) : AddressChangeReason :=
  match m with ModeStatic _ => StaticConflict | ModeRequested _ => RequestedConflict | ModeDynamic => DynamicConflict end.

(** A new address for an entry whose own is taken. *)
Definition relocated (st : AddressState) (e : AddressBookEntry) : AddressBookEntry :=
  with_address (allocate_free_address st (Z.max (requested_address e) (fallback_address_for_hostname (hostname e)))) e.

(** What the conflict with the local identity comes to: the local change, the record
    of the peer as it will be kept, whether anything changed, the state.  [None] is
    the loop of [unique_hostname_locked] running out, which does not happen. *)
Definition resolve_conflict (st : AddressState) (remote : AddressBookEntry) (spare : bool) (now : Z)
    : option (result (option AddressChange * AddressBookEntry * bool) * AddressState) :=
  let local := local_address st in
  let foreign := negb (owner_hash remote =? owner_hash local) in
  let hostname_conflict := bool_decide (hostname remote = hostname local) && foreign in
  let address_conflict := (address remote =? address local) && foreign in
  let move next reason :=
    match update_local_identity st next reason spare now with
    | (Ok change, st) => (Ok (Some change, remote, true), st)
    | (Err e, st) => (Err e, st)
    end in
  if hostname_conflict && identity_wins remote local then
    name ← unique_hostname st (hostname local) (owner_hash local);
    Some (move (with_hostname name local) HostnameConflict)
  else if address_conflict && address_wins remote local then
    Some (move (relocated st local) (conflict_reason (mode local)))
  else if hostname_conflict then
    name ← unique_hostname st (hostname remote) (owner_hash remote);
    Some (Ok (None, with_hostname name remote, true), st)
  else if address_conflict then Some (Ok (None, relocated st remote, true), st)
  else Some (Ok (None, remote, false), st).

(** [notify_address_change], which calls the application's handlers. *)
Context (notify : AddressChange -> result unit).

(** [None] is a panic: the record of a known peer is gone. *)
Definition ingest_prepared_address (st : AddressState) (ad : AddressAdvertisement)
    (prepared : PreparedAddressRecords) (now : Z) : option (result bool * AddressState) :=
  let remote := advertised_entry ad now in
  if negb (fresh_peer prepared) && negb (known_peer st (hostname remote) (owner_hash remote))
  then Some (Err (Io "peer identity changed"), st)
  else
    '(outcome, st) ← resolve_conflict st remote (local_spare prepared) now;
    match outcome with
    | Err e => Some (Err e, st)
    | Ok (change, remote, changed) =>
        if negb (fresh_peer prepared) && bool_decide (address_book st !! ad_hostname ad = None) then None
        else
          let book := if fresh_peer prepared then address_book st else delete (ad_hostname ad) (address_book st) in
          let st := set_maps (<[hostname remote := remote]> book)
                      (<[address remote := hostname remote]> (address_by_value st)) st in
          match change with
          | Some change => Some (_ ← notify change; Ok changed, st)
          | None => Some (Ok changed, st)
          end
    end.

Definition ingest_address_advertisement (st : AddressState) (ad : AddressAdvertisement) (now : Z)
    : option (result bool * AddressState) :=
  match prepare_address_record st ad now with
  | Err e => Some (Err e, st)
  | Ok prepared => ingest_prepared_address st ad prepared now
  end.
End Ingest.

(** ** Attribution *)

(** The names discovery holds: announcers with the nodes of their graphs. *)
Abbreviation Announcers := (list (Name * list TopologyBoardNode)).

Definition discovered_names (announcers : Announcers) : list Name :=
  concat (map (fun '(announcer, boards) =>
    announcer :: concat (map (fun b => sender_id b :: connections b) boards)) announcers).

Definition consider (address : NodeAddress) (acc : option Name * bool) (candidate : Name) : option Name * bool :=
  if negb (sender_address_u32 candidate =? address) then acc
  else
    match fst acc with
    | None => (Some candidate, snd acc)
    | Some existing => if decide (existing = candidate) then acc else (fst acc, true)
    end.

Definition hostname_for_address (st : AddressState) (announcers : Announcers) (address : NodeAddress) : option Name :=
  match address_by_value st !! address with
  | Some n => Some n
  | None =>
      let '(found, collision) :=
        foldl (consider address) (None, false)
          (map (fun e => hostname (snd e)) (map_to_list (address_book st)) ++ discovered_names announcers) in
      if collision then None else found
  end.

Definition parse_alias (sender : Name) : option NodeAddress := strip_prefix addr_prefix sender ≫= parse_u32.

Definition canonical_sender (st : AddressState) (announcers : Announcers) (sender : Name) : Name :=
  match parse_alias sender with
  | None => sender
  | Some a => default sender (hostname_for_address st announcers a)
  end.

Definition digits_only (l : bytes) : bool := forallb (in_range 48 57) l.

Definition sender_matches_hostname (st : AddressState) (announcers : Announcers) (sender expected : Name) : bool :=
  if is_empty sender || is_empty expected || one_of 0 sender || one_of 0 expected
     || bool_decide (is_Some (strip_prefix addr_prefix expected)) then false
  else
    match strip_prefix addr_prefix sender with
    | None => bool_decide (sender = expected)
    | Some value =>
        if is_empty value || negb (digits_only value) then false
        else
          match parse_u32 value with
          | None => false
          | Some a => bool_decide (hostname_for_address st announcers a = Some expected)
          end
    end.

(** The entry of a board known by name only. *)
Definition named_entry (n : Name) (a : NodeAddress) (now : Z) : AddressBookEntry :=
  {| hostname := n; address := a; requested_address := 0; mode := ModeDynamic; birth_ms := 0;
     owner_hash := sender_hash n; last_seen_ms := now |}.

(** [resolve_hostname], after the expired routes have been pruned. *)
Definition resolve_hostname (st : AddressState) (announcers : Announcers) (n : Name) (now : Z)
    : option AddressBookEntry :=
  match address_book st !! n with
  | Some e => Some e
  | None =>
      let a := sender_address_u32 n in
      if bool_decide (hostname_for_address st announcers a = Some n) then Some (named_entry n a now) else None
  end.

Definition resolve_address (st : AddressState) (announcers : Announcers) (a : NodeAddress) (now : Z)
    : option AddressBookEntry :=
  match address_by_value st !! a ≫= fun n => address_book st !! n with
  | Some e => Some e
  | None =>
      n ← hostname_for_address st announcers a;
      match address_book st !! n with
      | Some e => Some e
      | None => Some (named_entry n a now)
      end
  end.

(** ** Free addresses *)

Definition next_address (c : NodeAddress) : NodeAddress := let c := wrap32 (c + 1) in if c =? 0 then 1 else c.

(** The candidates run through the non-zero addresses in a circle. *)
Lemma next_address_spec c : 1 <= c <= u32_max -> next_address c = c mod u32_max + 1 /\ 1 <= next_address c <= u32_max.
Proof.
  intros Hc. unfold next_address, wrap32, u32_max in *. destruct (Z.eq_dec c 4294967295) as [->|Hn]; [done|].
  rewrite !Z.mod_small by lia. destruct (Z.eqb_spec (c + 1) 0); lia.
Qed.

Fixpoint candidate_at (k : nat) (c : NodeAddress) : NodeAddress :=
  match k with O => c | S k => candidate_at k (next_address c) end.

Lemma candidate_at_spec k : forall c, 1 <= c <= u32_max -> candidate_at k c = (c - 1 + Z.of_nat k) mod u32_max + 1.
Proof.
  induction k as [|k IH]; intros c Hc; cbn [candidate_at].
  - rewrite Z.mod_small by lia. lia.
  - destruct (next_address_spec c Hc) as [He Hr]. rewrite (IH _ Hr), He. f_equal.
    replace (c mod u32_max + 1 - 1 + Z.of_nat k) with (c mod u32_max + Z.of_nat k) by lia.
    rewrite Z.add_mod_idemp_l by done. f_equal. lia.
Qed.

Lemma allocate_loop_spec fuel : forall taken c,
  1 <= c <= u32_max ->
  (forall k, (k < fuel)%nat -> is_Some (taken !! candidate_at k c)) \/
  (1 <= allocate_loop fuel taken c <= u32_max /\ taken !! allocate_loop fuel taken c = None).
Proof.
  induction fuel as [|fuel IH]; intros taken c Hc; [left; lia|]. cbn [allocate_loop].
  rewrite (proj2 (Z.eqb_neq c 0)) by lia. cbn [negb andb].
  case_bool_decide as Hn; [right; done|]. fold (next_address c).
  destruct (IH taken (next_address c)) as [Hall|Hok]; [by apply next_address_spec| |by right].
  left. intros [|k] Hk; cbn [candidate_at]; [by apply not_eq_None_Some|]. apply Hall. lia.
Qed.

(** A circle of more candidates than taken addresses meets a free one. *)
Lemma pigeonhole {K V} `{Countable K} (m : gmap K V) (f : nat -> K) (n : nat) :
  (forall i j, (i < n)%nat -> (j < n)%nat -> f i = f j -> i = j) ->
  (forall i, (i < n)%nat -> is_Some (m !! f i)) -> (n <= size m)%nat.
Proof.
  intros Hinj Hin. rewrite <- (size_dom m). rewrite <- (length_seq n 0), <- (length_map f).
  assert (NoDup (map f (seq 0 n))) as Hd.
  { apply NoDup_fmap_2_strong; [|apply NoDup_seq]. intros i j Hi%elem_of_seq Hj%elem_of_seq. apply Hinj; lia. }
  rewrite <- (size_list_to_set (C := gset K)) by done. apply subseteq_size. intros x Hx.
  apply elem_of_list_to_set, list_elem_of_fmap in Hx as (i & -> & Hi%elem_of_seq). apply elem_of_dom, Hin. lia.
Qed.

Lemma candidate_at_inj c i j :
  1 <= c <= u32_max -> Z.of_nat i < u32_max -> Z.of_nat j < u32_max -> candidate_at i c = candidate_at j c -> i = j.
Proof.
  intros Hc Hi Hj. rewrite !candidate_at_spec by done. intros He.
  assert (forall k, (c - 1 + Z.of_nat k) mod u32_max = (c - 1 + Z.of_nat k) - u32_max * ((c - 1 + Z.of_nat k) / u32_max)) as Hm
    by (intros k; pose proof (Z.div_mod (c - 1 + Z.of_nat k) u32_max ltac:(done)); lia).
  rewrite !Hm in He. unfold u32_max in *.
  assert (0 <= (c - 1 + Z.of_nat i) / 4294967295 < 2) by (split; [apply Z.div_pos|apply Z.div_lt_upper_bound]; lia).
  assert (0 <= (c - 1 + Z.of_nat j) / 4294967295 < 2) by (split; [apply Z.div_pos|apply Z.div_lt_upper_bound]; lia).
  lia.
Qed.

(** Not all of one candidate more than there are keys are keys. *)
Lemma some_candidate_free {A} (m : gmap Z A) c :
  1 <= c <= u32_max -> Z.of_nat (size m) < u32_max ->
  ~ (forall k, (k < S (size m))%nat -> is_Some (m !! candidate_at k c)).
Proof.
  intros Hc Hsz Hall. assert (S (size m) <= size m)%nat; [|lia].
  apply (pigeonhole m (fun k => candidate_at k c)); [|done]. intros i j Hi Hj. apply candidate_at_inj; [done|lia..].
Qed.

Lemma allocate_free_spec st seed :
  is_u32 seed -> Z.of_nat (size (address_by_value st)) < u32_max ->
  let a := allocate_free_address st seed in
  1 <= a <= u32_max /\ address_by_value st !! a = None.
Proof.
  intros Hs Hsz. unfold allocate_free_address. set (c := if seed =? 0 then 1 else seed).
  assert (1 <= c <= u32_max) as Hc by (unfold c; destruct (Z.eqb_spec seed 0); unfold is_u32, u32_max in *; lia).
  destruct (allocate_loop_spec (S (size (address_by_value st))) (address_by_value st) c Hc) as [Hall|]; [|done].
  by destruct (some_candidate_free (address_by_value st) c Hc Hsz).
Qed.

(** ** Free names *)

Lemma format_decimal_inj a b : is_u32 a -> is_u32 b -> format_decimal a = format_decimal b -> a = b.
Proof.
  intros Ha Hb He. pose proof (sender_address_alias a Ha) as H1. pose proof (sender_address_alias b Hb) as H2.
  unfold format_sender_address in *. unfold format_decimal in He. rewrite He in H1. congruence.
Qed.

Lemma name_taken_spec st n : name_taken st n = true <-> is_Some (address_book st !! n) \/ hostname (local_address st) = n.
Proof. unfold name_taken. rewrite orb_true_iff, !bool_decide_eq_true. done. Qed.

Definition name_at (base : Name) (k : nat) : Name := base ++ [45] ++ format_decimal (Z.of_nat k).

Lemma unique_loop_spec fuel st base : forall k candidate,
  Z.of_nat k + Z.of_nat fuel <= u32_max ->
  match unique_loop fuel st base (Z.of_nat k) candidate with
  | Some n => name_taken st n = false
  | None => name_taken st candidate = true /\ forall i, (k <= i < k + fuel)%nat -> name_taken st (name_at base i) = true
  end.
Proof.
  induction fuel as [|fuel IH]; intros k candidate Hk; cbn [unique_loop].
  - destruct (name_taken st candidate) eqn:E; [|done]. split; [done|]. lia.
  - destruct (name_taken st candidate) eqn:E; [|done].
    replace (Z.min u32_max (Z.of_nat k + 1)) with (Z.of_nat (S k)) by lia.
    specialize (IH (S k) (name_at base k) ltac:(lia)). unfold name_at in IH at 1.
    destruct (unique_loop fuel st base (Z.of_nat (S k)) _); [done|]. destruct IH as [H1 H2]. split; [done|].
    intros i Hi. destruct (decide (i = k)) as [->|Hne]; [exact H1|]. apply H2. lia.
Qed.

Lemma name_at_inj base i j :
  Z.of_nat i <= u32_max -> Z.of_nat j <= u32_max -> name_at base i = name_at base j -> i = j.
Proof.
  intros Hi Hj. unfold name_at. intros He%app_inv_head%app_inv_head.
  apply format_decimal_inj in He; unfold is_u32; lia.
Qed.

Lemma unique_hostname_spec st base owner :
  Z.of_nat (size (address_book st)) + 2 < u32_max ->
  exists n, unique_hostname st base owner = Some n /\ name_taken st n = false.
Proof.
  intros Hsz. unfold unique_hostname. destruct (name_taken st base) eqn:E; cbn [negb]; [|eauto].
  set (numbered := _ ++ [45] ++ format_hex8 owner).
  pose proof (unique_loop_spec (S (size (address_book st))) st numbered 1 numbered ltac:(lia)) as H.
  change (Z.of_nat 1) with 1 in H. destruct (unique_loop _ st numbered 1 numbered) as [n|]; [eauto|]. exfalso.
  destruct H as [H0 H]. set (f := fun k : nat => match k with O => numbered | S k => name_at numbered (S k) end).
  assert (forall k, (k < S (S (size (address_book st))))%nat ->
    is_Some (<[hostname (local_address st) := local_address st]> (address_book st) !! f k)) as Hall.
  { intros k Hk. assert (name_taken st (f k) = true) as Ht by (destruct k; [done|apply H; lia]).
    apply name_taken_spec in Ht as [Ht|<-]; [|rewrite lookup_insert_eq; by eexists].
    apply lookup_insert_is_Some. destruct (decide (hostname (local_address st) = f k)); [by left|by right]. }
  apply (pigeonhole _ f) in Hall.
  - rewrite map_size_insert in Hall. destruct (address_book st !! _); cbn in Hall; lia.
  - intros i j Hi Hj. unfold f. destruct i as [|i], j as [|j]; [done| | |].
    + intros He. apply (f_equal length) in He. unfold name_at in He. rewrite length_app in He. cbn in He. lia.
    + intros He. apply (f_equal length) in He. unfold name_at in He. rewrite length_app in He. cbn in He. lia.
    + intros He. apply name_at_inj in He; lia.
Qed.

(** ** One identity in the book *)

(** The own identity is in both maps, and every record is under its name. *)
Record registered (st : AddressState) : Prop := {
  reg_name : address_book st !! hostname (local_address st) = Some (local_address st);
  reg_address : address_by_value st !! address (local_address st) = Some (hostname (local_address st));
  reg_keys : forall n e, address_book st !! n = Some e -> hostname e = n;
}.

(** Room for one more name and one more address. *)
Definition room_left (st : AddressState) : Prop :=
  Z.of_nat (size (address_book st)) + 2 < u32_max /\ Z.of_nat (size (address_by_value st)) < u32_max.

Lemma new_identity_registered name m seq now : registered (new_identity true name m seq now).
Proof.
  constructor; cbn; [by rewrite lookup_singleton_eq..|]. intros n e. by intros [<- <-]%lookup_singleton_Some.
Qed.

Lemma fallback_range n : is_u32 (fallback_address_for_hostname n).
Proof.
  unfold fallback_address_for_hostname. set (a := Z.lxor _ _).
  assert (is_u32 a) as Ha.
  { pose proof (wrap32_range (sender_hash n)) as H1. pose proof (wrap32_range (Z.shiftr (sender_hash n) 32)) as H2.
    unfold a, is_u32, u32_max in *.
    split; [apply Z.lxor_nonneg; lia|].
    destruct (Z.eq_dec (Z.lxor (wrap32 (sender_hash n)) (wrap32 (Z.shiftr (sender_hash n) 32))) 0) as [->|Hne]; [done|].
    enough (Z.lxor (wrap32 (sender_hash n)) (wrap32 (Z.shiftr (sender_hash n) 32)) < 2 ^ 32) by lia.
    apply Z.log2_lt_pow2; [pose proof (Z.lxor_nonneg (wrap32 (sender_hash n)) (wrap32 (Z.shiftr (sender_hash n) 32))); lia|].
    assert (forall x, 0 <= x <= 4294967295 -> Z.log2 x < 32) as Hlog.
    { intros x Hx. destruct (Z.eq_dec x 0) as [->|]; [done|]. apply Z.log2_lt_pow2; lia. }
    pose proof (Z.log2_lxor (wrap32 (sender_hash n)) (wrap32 (Z.shiftr (sender_hash n) 32)) ltac:(lia) ltac:(lia)).
    pose proof (Hlog _ H1). pose proof (Hlog _ H2). lia. }
  destruct (a =? 0); [unfold is_u32, u32_max; lia|done].
Qed.

Lemma relocated_spec st e :
  is_u32 (requested_address e) -> room_left st ->
  1 <= address (relocated st e) <= u32_max /\ address_by_value st !! address (relocated st e) = None.
Proof.
  intros Hr [_ Hs]. unfold relocated. cbn [address with_address]. apply allocate_free_spec; [|done].
  pose proof (fallback_range (hostname e)). unfold is_u32 in *. lia.
Qed.

(** Taking a new identity whose name and address are free keeps it registered. *)
Lemma update_registered st next reason spare now :
  registered st ->
  (hostname next = hostname (local_address st) \/ address_book st !! hostname next = None) ->
  exists change st', update_local_identity st next reason spare now = (Ok change, st') /\
    registered st' /\ local_address st' = seen_at now next /\
    address_book st' = <[hostname next := seen_at now next]> (delete (hostname (local_address st)) (address_book st)) /\
    address_by_value st' =
      <[address next := hostname next]> (delete (address (local_address st)) (address_by_value st)).
Proof.
  intros [H1 H2 H3] Hn. unfold update_local_identity. rewrite H1. cbn [andb negb].
  rewrite bool_decide_eq_false_2 by done. cbn [andb].
  eexists _, _. split; [done|]. split; [|done]. constructor; cbn [local_address address_book address_by_value seen_at hostname address].
  - by rewrite lookup_insert_eq.
  - by rewrite lookup_insert_eq.
  - intros n e. destruct (decide (n = hostname next)) as [->|Hne]; [rewrite lookup_insert_eq; by intros [= <-]|].
    rewrite lookup_insert_ne by done. intros [_ He]%lookup_delete_Some. by apply H3.
Qed.

Section IngestProof.
Context (try_box : result unit) (boxes : try_box = Ok tt).
Context (notify : AddressChange -> result unit).

Lemma prepare_ok st ad now :
  registered st ->
  prepare_address_record try_box st ad now =
    Ok {| fresh_peer := negb (known_peer st (ad_hostname ad) (ad_owner_hash ad)); local_spare := false |}.
Proof using boxes.
  intros [H1 _ _]. unfold prepare_address_record. rewrite boxes, H1. cbn [is_Some].
  rewrite (bool_decide_eq_true_2 (is_Some (Some _))) by eauto. cbn [negb]. rewrite andb_false_r.
  by destruct (known_peer st _ _).
Qed.

(** The peer's record goes in under a name and an address of its own. *)
Lemma store_peer st remote (known : bool) (old : Name) :
  registered st -> hostname remote <> hostname (local_address st) -> address remote <> address (local_address st) ->
  (known = true -> old <> hostname (local_address st)) ->
  let st' := set_maps (<[hostname remote := remote]> (if known then delete old (address_book st) else address_book st))
               (<[address remote := hostname remote]> (address_by_value st)) st in
  registered st' /\ local_address st' = local_address st /\ address_book st' !! hostname remote = Some remote /\
  address_by_value st' !! address remote = Some (hostname remote).
Proof.
  intros [H1 H2 H3] Hn Ha Ho st'. split; [|split; [done|split; apply lookup_insert_eq]].
  constructor; cbn [st' set_maps local_address address_book address_by_value].
  - rewrite lookup_insert_ne by done. destruct known; [|done]. rewrite lookup_delete_ne by auto. done.
  - by rewrite lookup_insert_ne.
  - intros n e. destruct (decide (n = hostname remote)) as [->|Hne]; [rewrite lookup_insert_eq; by intros [= <-]|].
    rewrite lookup_insert_ne by done. destruct known; [intros [_ He]%lookup_delete_Some; by apply H3|apply H3].
Qed.

(** How an advertisement ends once the conflict is resolved. *)
Lemma ingest_stored st st1 ad now remote change changed :
  registered st -> registered st1 ->
  resolve_conflict st (advertised_entry ad now) false now = Some (Ok (change, remote, changed), st1) ->
  hostname remote <> hostname (local_address st1) -> address remote <> address (local_address st1) ->
  (known_peer st (ad_hostname ad) (ad_owner_hash ad) = true ->
     ad_hostname ad <> hostname (local_address st1) /\ is_Some (address_book st1 !! ad_hostname ad)) ->
  exists r st', ingest_address_advertisement try_box notify st ad now = Some (r, st') /\ registered st' /\
    local_address st' = local_address st1 /\ address_book st' !! hostname remote = Some remote /\
    address_by_value st' !! address remote = Some (hostname remote).
Proof using boxes.
  intros Hst Hst1 Hr Hn Ha Hk. unfold ingest_address_advertisement. rewrite (prepare_ok st ad now Hst).
  unfold ingest_prepared_address. cbn [fresh_peer local_spare]. rewrite negb_involutive.
  change (hostname (advertised_entry ad now)) with (ad_hostname ad).
  change (owner_hash (advertised_entry ad now)) with (ad_owner_hash ad). rewrite andb_negb_r, Hr.
  cbn [mbind option_bind].
  assert (known_peer st (ad_hostname ad) (ad_owner_hash ad) && bool_decide (address_book st1 !! ad_hostname ad = None) = false)
    as ->.
  { destruct (known_peer st _ _); [|done]. apply bool_decide_eq_false. destruct (Hk eq_refl) as [_ [e ->]]. done. }
  pose proof (store_peer st1 remote (known_peer st (ad_hostname ad) (ad_owner_hash ad)) (ad_hostname ad) Hst1 Hn Ha
    (fun H => proj1 (Hk H))) as Hs. destruct (known_peer st _ _); cbn [negb] in *; destruct change as [c|];
    eexists _, _; (split; [done|exact Hs]).
Qed.
End IngestProof.

(** The names and the address of two identities clash. *)
Definition same_name (a b : AddressBookEntry) : bool := bool_decide (hostname a = hostname b).
Definition same_address (a b : AddressBookEntry) : bool := address a =? address b.

Lemma known_own_name st n owner :
  registered st -> n = hostname (local_address st) -> owner <> owner_hash (local_address st) ->
  known_peer st n owner = false.
Proof. intros [H1 _ _] -> Ho. unfold known_peer. rewrite H1. apply Z.eqb_neq. congruence. Qed.

Lemma known_some st n owner : known_peer st n owner = true -> is_Some (address_book st !! n).
Proof. unfold known_peer. destruct (address_book st !! n); [eauto|done]. Qed.

(** Two registered identities with names and addresses of their own: [e] for the peer. *)
Definition apart (st : AddressState) (e : AddressBookEntry) : Prop :=
  registered st /\ address_book st !! hostname e = Some e /\ address_by_value st !! address e = Some (hostname e) /\
  hostname e <> hostname (local_address st) /\ address e <> address (local_address st).

Section Clash.
Context (try_box : result unit) (boxes : try_box = Ok tt) (notify : AddressChange -> result unit).
Context (st : AddressState) (ad : AddressAdvertisement) (now : Z).
Context (reg : registered st) (room : room_left st).

Abbreviation local := (local_address st).
Abbreviation remote := (advertised_entry ad now).

Hypothesis foreign : owner_hash remote <> owner_hash local.
Hypothesis own_request : is_u32 (requested_address local).
Hypothesis peer_request : is_u32 (ad_requested_address ad).

Lemma foreign_test : negb (owner_hash remote =? owner_hash local) = true.
Proof using foreign. by apply negb_true_iff, Z.eqb_neq. Qed.

Lemma settle st1 e change changed :
  registered st1 -> resolve_conflict st remote false now = Some (Ok (change, e, changed), st1) ->
  hostname e <> hostname (local_address st1) -> address e <> address (local_address st1) ->
  (known_peer st (ad_hostname ad) (ad_owner_hash ad) = true ->
     ad_hostname ad <> hostname (local_address st1) /\ is_Some (address_book st1 !! ad_hostname ad)) ->
  exists r st', ingest_address_advertisement try_box notify st ad now = Some (r, st') /\ apart st' e /\
    local_address st' = local_address st1.
Proof using boxes reg.
  intros H1 Hr Hn Ha Hk.
  destruct (ingest_stored try_box boxes notify st st1 ad now e change changed reg H1 Hr Hn Ha Hk)
    as (r & st' & Hi & Hreg & Hl & Hb & Hv).
  exists r, st'. split; [done|]. split; [|done]. unfold apart. by rewrite Hl.
Qed.

Lemma no_local_record :
  ad_hostname ad = hostname local -> known_peer st (ad_hostname ad) (ad_owner_hash ad) = true -> False.
Proof using reg foreign. intros Hn Hk. by rewrite (known_own_name st (ad_hostname ad) (ad_owner_hash ad) reg Hn foreign) in Hk. Qed.

(** The own name goes to an older owner. *)
Lemma name_lost :
  hostname remote = hostname local -> address remote <> address local -> identity_wins remote local = true ->
  exists r st', ingest_address_advertisement try_box notify st ad now = Some (r, st') /\ apart st' remote /\
    hostname (local_address st') <> hostname local /\ address (local_address st') = address local.
Proof using boxes reg room foreign.
  intros Hn Ha Hw. destruct (unique_hostname_spec st (hostname local) (owner_hash local)) as (name & Hu & Hfree);
    [apply room|]. assert (~ (is_Some (address_book st !! name) \/ hostname local = name)) as Hnot
    by (rewrite <- name_taken_spec; by rewrite Hfree).
  assert (address_book st !! name = None) as Hnone by (apply eq_None_not_Some; tauto).
  destruct (update_registered st (with_hostname name local) HostnameConflict false now reg (or_intror Hnone))
    as (change & st1 & Hup & Hreg1 & Hl1 & _).
  destruct (settle st1 remote (Some change) true) as (r & st' & Hi & Hap & Hl); try done.
  - unfold resolve_conflict. rewrite foreign_test, !andb_true_r, bool_decide_eq_true_2, Hw by done. cbn [andb].
    rewrite Hu. cbn [mbind option_bind]. by rewrite Hup.
  - rewrite Hl1. intros He. apply Hnot. right. rewrite <- Hn. exact He.
  - by rewrite Hl1.
  - intros Hk. by destruct (no_local_record Hn Hk).
  - exists r, st'. split; [done|]. split; [done|]. rewrite Hl, Hl1. split; [|done]. intros He. apply Hnot. right. symmetry. exact He.
Qed.

(** The own name stays and the peer is recorded under another. *)
Lemma name_kept :
  hostname remote = hostname local -> address remote <> address local -> identity_wins remote local = false ->
  exists r st' name, ingest_address_advertisement try_box notify st ad now = Some (r, st') /\
    apart st' (with_hostname name remote) /\ local_address st' = local.
Proof using boxes reg room foreign.
  intros Hn Ha Hw. destruct (unique_hostname_spec st (hostname remote) (owner_hash remote)) as (name & Hu & Hfree);
    [apply room|]. assert (~ (is_Some (address_book st !! name) \/ hostname local = name)) as Hnot
    by (rewrite <- name_taken_spec; by rewrite Hfree).
  destruct (settle st (with_hostname name remote) None true) as (r & st' & Hi & Hap & Hl); try done.
  - unfold resolve_conflict. rewrite foreign_test, !andb_true_r, bool_decide_eq_true_2, Hw by done. cbn [andb].
    rewrite (proj2 (Z.eqb_neq (address remote) (address local))) by done. cbn [andb]. by rewrite Hu.
  - intros He. apply Hnot. right. symmetry. exact He.
  - intros Hk. by destruct (no_local_record Hn Hk).
  - by exists r, st', name.
Qed.

Lemma known_kept (st1 : AddressState) :
  hostname remote <> hostname local -> (forall n, n <> hostname local -> is_Some (address_book st !! n) -> is_Some (address_book st1 !! n)) ->
  hostname (local_address st1) = hostname local ->
  known_peer st (ad_hostname ad) (ad_owner_hash ad) = true ->
  ad_hostname ad <> hostname (local_address st1) /\ is_Some (address_book st1 !! ad_hostname ad).
Proof. intros Hn Hb Hl Hk. rewrite Hl. split; [done|]. apply Hb; [done|]. by eapply known_some. Qed.

(** The own address goes to a better claim. *)
Lemma address_lost :
  hostname remote <> hostname local -> address remote = address local -> address_wins remote local = true ->
  exists r st', ingest_address_advertisement try_box notify st ad now = Some (r, st') /\ apart st' remote /\
    hostname (local_address st') = hostname local /\ address (local_address st') <> address local.
Proof using boxes reg room foreign own_request.
  intros Hn Ha Hw. destruct (relocated_spec st local own_request room) as [_ Hfree].
  assert (address (relocated st local) <> address local) as Hmoved
    by (intros He; rewrite He, (reg_address st reg) in Hfree; done).
  destruct (update_registered st (relocated st local) (conflict_reason (mode local)) false now reg (or_introl eq_refl))
    as (change & st1 & Hup & Hreg1 & Hl1 & Hb1 & _).
  destruct (settle st1 remote (Some change) true) as (r & st' & Hi & Hap & Hl); try done.
  - unfold resolve_conflict. rewrite foreign_test, !andb_true_r, bool_decide_eq_false_2 by done. cbn [andb].
    rewrite Ha, Z.eqb_refl, Hw. cbn [andb]. by rewrite Hup.
  - by rewrite Hl1.
  - rewrite Hl1, Ha. cbn [address seen_at]. by apply not_eq_sym.
  - apply known_kept; [done| |by rewrite Hl1]. intros n Hne Hs. rewrite Hb1. cbn.
    by rewrite lookup_insert_ne, lookup_delete_ne.
  - exists r, st'. split; [done|]. split; [done|]. rewrite Hl, Hl1. done.
Qed.

(** The own address stays and the peer is recorded at another. *)
Lemma address_kept :
  hostname remote <> hostname local -> address remote = address local -> address_wins remote local = false ->
  exists r st', ingest_address_advertisement try_box notify st ad now = Some (r, st') /\
    apart st' (relocated st remote) /\ local_address st' = local.
Proof using boxes reg room foreign peer_request.
  intros Hn Ha Hw. destruct (relocated_spec st remote peer_request room) as [_ Hfree].
  destruct (settle st (relocated st remote) None true) as (r & st' & Hi & Hap & Hl); try done.
  - unfold resolve_conflict. rewrite foreign_test, !andb_true_r, bool_decide_eq_false_2 by done. cbn [andb].
    by rewrite Ha, Z.eqb_refl, Hw.
  - intros He. rewrite He, (reg_address st reg) in Hfree. done.
  - by apply known_kept.
  - by exists r, st'.
Qed.

(** No clash. *)
Lemma no_clash :
  hostname remote <> hostname local -> address remote <> address local ->
  exists r st', ingest_address_advertisement try_box notify st ad now = Some (r, st') /\ apart st' remote /\
    local_address st' = local.
Proof using boxes reg foreign.
  intros Hn Ha. destruct (settle st remote None false) as (r & st' & Hi & Hap & Hl); try done.
  - unfold resolve_conflict. rewrite bool_decide_eq_false_2, (proj2 (Z.eqb_neq (address remote) (address local))) by done.
    done.
  - by apply known_kept.
  - by exists r, st'.
Qed.
End Clash.

Lemma ingest_outcome try_box notify st ad now :
  try_box = Ok tt -> registered st -> room_left st ->
  is_u32 (requested_address (local_address st)) -> is_u32 (ad_requested_address ad) ->
  let local := local_address st in
  let remote := advertised_entry ad now in
  owner_hash remote <> owner_hash local -> same_name remote local && same_address remote local = false ->
  exists r st' e, ingest_address_advertisement try_box notify st ad now = Some (r, st') /\ apart st' e /\
    owner_hash e = owner_hash remote /\
    (if same_name remote local && identity_wins remote local then
       e = remote /\ hostname (local_address st') <> hostname local /\ address (local_address st') = address local
     else if same_address remote local && address_wins remote local then
       e = remote /\ hostname (local_address st') = hostname local /\ address (local_address st') <> address local
     else local_address st' = local).
Proof.
  intros Hbox Hreg Hroom Hlreq Hreq local remote Hown Hone. unfold same_name, same_address in *.
  case_bool_decide as Hn; cbn [andb] in *.
  - apply Z.eqb_neq in Hone. destruct (identity_wins remote local) eqn:Hw; cbn [andb].
    + destruct (name_lost try_box Hbox notify st ad now Hreg Hroom Hown Hn Hone Hw) as (r & st' & Hi & Hap & H).
      by exists r, st', remote.
    + destruct (name_kept try_box Hbox notify st ad now Hreg Hroom Hown Hn Hone Hw) as (r & st' & name & Hi & Hap & H).
      rewrite (proj2 (Z.eqb_neq _ _)) by done. by exists r, st', (with_hostname name remote).
  - destruct (Z.eqb_spec (address remote) (address local)) as [Ha|Ha]; cbn [andb].
    + destruct (address_wins remote local) eqn:Hw.
      * destruct (address_lost try_box Hbox notify st ad now Hreg Hroom Hown Hlreq Hn Ha Hw) as (r & st' & Hi & Hap & H).
        by exists r, st', remote.
      * destruct (address_kept try_box Hbox notify st ad now Hreg Hroom Hown Hreq Hn Ha Hw) as (r & st' & Hi & Hap & H).
        by exists r, st', (relocated st remote).
    + destruct (no_clash try_box Hbox notify st ad now Hreg Hown Hn Ha) as (r & st' & Hi & Hap & H).
      by exists r, st', remote.
Qed.

(** An advertisement that clashes with the own identity in the name or in
    the address (not in both) leaves two registered identities with names and
    addresses of their own.  The weaker claim gives way and nothing else: the own
    name is given up only to an older owner, the own address only to a better
    claim, and otherwise the own identity stays and the peer is recorded apart. *)
Theorem ingest_spec try_box notify st ad now :
  try_box = Ok tt -> registered st -> room_left st ->
  is_u32 (requested_address (local_address st)) -> is_u32 (ad_requested_address ad) ->
  let local := local_address st in
  let remote := advertised_entry ad now in
  owner_hash remote <> owner_hash local -> same_name remote local && same_address remote local = false ->
  exists r st' e, ingest_address_advertisement try_box notify st ad now = Some (r, st') /\ apart st' e /\
    owner_hash e = owner_hash remote /\
    (if same_name remote local && identity_wins remote local then
       e = remote /\ hostname (local_address st') <> hostname local /\ address (local_address st') = address local
     else if same_address remote local && address_wins remote local then
       e = remote /\ hostname (local_address st') = hostname local /\ address (local_address st') <> address local
     else local_address st' = local).
Proof. intros Hbox Hreg Hroom H1 H2 local remote H3 H4. by apply ingest_outcome. Qed.

(** *** Two boards that hear each other *)

(** [local_address_advertisement]. *)
Definition local_address_advertisement (st : AddressState) (eps : list DataEndpoint) (vars : list DataType)
    (sources : list bytes) (caps : LinkCapabilities) (state : Z) : AddressAdvertisement :=
  let e := local_address st in
  {| ad_hostname := hostname e; ad_address := address e; ad_requested_address := requested_address e;
     ad_mode := mode_code (mode e); ad_state := state; ad_birth_ms := birth_ms e; ad_owner_hash := owner_hash e;
     ad_endpoints := eps; ad_network_variables := vars; ad_timesync_sources := sources;
     ad_link_capabilities := caps |}.

Lemma rank_advertised m r : mode_rank (address_mode_from_code (mode_code m) r) = mode_rank m.
Proof. by destruct m. Qed.

Lemma identity_wins_total a b : owner_hash a <> owner_hash b -> identity_wins a b = negb (identity_wins b a).
Proof.
  intros Ho. unfold identity_wins. destruct (Z.ltb_spec (birth_ms a) (birth_ms b)), (Z.ltb_spec (birth_ms b) (birth_ms a)),
    (Z.eqb_spec (birth_ms a) (birth_ms b)), (Z.eqb_spec (birth_ms b) (birth_ms a)),
    (Z.ltb_spec (owner_hash a) (owner_hash b)), (Z.ltb_spec (owner_hash b) (owner_hash a)); cbn; try done; lia.
Qed.

Lemma address_wins_total a b : owner_hash a <> owner_hash b -> address_wins a b = negb (address_wins b a).
Proof.
  intros Ho. unfold address_wins. rewrite (identity_wins_total a b Ho).
  destruct (Z.ltb_spec (mode_rank (mode b)) (mode_rank (mode a))), (Z.ltb_spec (mode_rank (mode a)) (mode_rank (mode b))),
    (Z.eqb_spec (mode_rank (mode a)) (mode_rank (mode b))), (Z.eqb_spec (mode_rank (mode b)) (mode_rank (mode a)));
    cbn; try done; try lia; by rewrite ?negb_involutive.
Qed.

Section Advertised.
Context (st : AddressState) (eps : list DataEndpoint) (vars : list DataType) (sources : list bytes)
  (caps : LinkCapabilities) (state now : Z).

Abbreviation sent := (advertised_entry (local_address_advertisement st eps vars sources caps state) now).

Lemma advertised_name e : same_name sent e = same_name (local_address st) e.
Proof. done. Qed.
Lemma advertised_address e : same_address sent e = same_address (local_address st) e.
Proof. done. Qed.
Lemma advertised_identity e : identity_wins sent e = identity_wins (local_address st) e.
Proof. done. Qed.
Lemma advertised_wins e : address_wins sent e = address_wins (local_address st) e.
Proof.
  unfold address_wins.
  change (mode sent) with
    (address_mode_from_code (mode_code (mode (local_address st))) (requested_address (local_address st))).
  by rewrite rank_advertised.
Qed.
End Advertised.

(** *** Any state, any clash

    What an advertisement does to the own identity, whatever the book holds for others. *)

(** The own address is somebody's, and there is room for four more records. *)
Definition placed (st : AddressState) : Prop := is_Some (address_by_value st !! address (local_address st)).
Definition roomy (n : nat) (st : AddressState) : Prop :=
  Z.of_nat (size (address_book st) + n) + 2 < u32_max /\ Z.of_nat (size (address_by_value st) + n) < u32_max.

Lemma roomy_left n st : roomy n st -> room_left st.
Proof. unfold roomy, room_left. lia. Qed.

Lemma registered_placed st : registered st -> placed st.
Proof. intros [_ H _]. by eexists. Qed.

(** The claim to name and address, without these. *)
Definition same_claim (e e' : AddressBookEntry) : Prop :=
  requested_address e' = requested_address e /\ mode e' = mode e /\ birth_ms e' = birth_ms e /\ owner_hash e' = owner_hash e.

Lemma identity_wins_claim a b a' b' : same_claim a a' -> same_claim b b' -> identity_wins a' b' = identity_wins a b.
Proof. unfold identity_wins. by intros (_ & _ & -> & ->) (_ & _ & -> & ->). Qed.

Lemma address_wins_claim a b a' b' : same_claim a a' -> same_claim b b' -> address_wins a' b' = address_wins a b.
Proof.
  intros Ha Hb. unfold address_wins. rewrite (identity_wins_claim a b a' b' Ha Hb).
  destruct Ha as (_ & -> & _), Hb as (_ & -> & _). done.
Qed.

(** The own identity after an advertisement of [remote]. *)
Definition yielded (remote l l' : AddressBookEntry) : Prop :=
  same_claim l l' /\
  (if same_name remote l && identity_wins remote l then hostname l' <> hostname l /\ address l' = address l
   else if same_address remote l && address_wins remote l then hostname l' = hostname l /\ address l' <> address l
   else l' = l).

Lemma size_insert_one {K V} `{Countable K} (m : gmap K V) k v : (size (<[k := v]> m) <= S (size m))%nat.
Proof. rewrite map_size_insert. destruct (m !! k); cbn; lia. Qed.

Lemma size_delete_le {K V} `{Countable K} (m : gmap K V) k : (size (delete k m) <= size m)%nat.
Proof. rewrite map_size_delete. destruct (m !! k); cbn; lia. Qed.

Lemma update_run st next reason spare now :
  (address_book st !! hostname (local_address st) = None -> spare = true) ->
  exists change st', update_local_identity st next reason spare now = (Ok change, st') /\ local_address st' = seen_at now next /\
    (forall n, n <> hostname (local_address st) -> is_Some (address_book st !! n) -> is_Some (address_book st' !! n)) /\
    placed st' /\ (size (address_book st') <= S (size (address_book st)))%nat /\
    (size (address_by_value st') <= S (size (address_by_value st)))%nat.
Proof.
  intros Hs. unfold update_local_identity.
  assert (bool_decide (address_book st !! hostname (local_address st) = None) && negb spare = false) as ->.
  { case_bool_decide as H; [by rewrite (Hs H)|done]. }
  eexists _, _. split; [done|]. split; [done|]. unfold placed. cbn [local_address address_book address_by_value seen_at address hostname].
  split_and!; [|by rewrite lookup_insert_eq|etransitivity; [apply size_insert_one|apply le_n_S, size_delete_le]..].
  intros n Hn Hb. destruct (decide (n = hostname next)) as [->|]; [by rewrite lookup_insert_eq|].
  by rewrite lookup_insert_ne, lookup_delete_ne.
Qed.

Section AnyClash.
Context (try_box : result unit) (boxes : try_box = Ok tt) (notify : AddressChange -> result unit).

(** An advertisement once the records are reserved. *)
Lemma ingest_reserved st ad now :
  exists spare, ((owner_hash (advertised_entry ad now) <> owner_hash (local_address st) ->
      (same_name (advertised_entry ad now) (local_address st) && identity_wins (advertised_entry ad now) (local_address st))
      || (same_address (advertised_entry ad now) (local_address st) && address_wins (advertised_entry ad now) (local_address st)) = true ->
      address_book st !! hostname (local_address st) = None -> spare = true)) /\
    forall st1 change e changed,
      resolve_conflict st (advertised_entry ad now) spare now = Some (Ok (change, e, changed), st1) ->
      (known_peer st (ad_hostname ad) (ad_owner_hash ad) = true -> is_Some (address_book st1 !! ad_hostname ad)) ->
      exists r st', ingest_address_advertisement try_box notify st ad now = Some (r, st') /\ local_address st' = local_address st1 /\
        (placed st1 -> placed st') /\ (size (address_book st') <= S (size (address_book st1)))%nat /\
        (size (address_by_value st') <= S (size (address_by_value st1)))%nat.
Proof using boxes.
  unfold ingest_address_advertisement, prepare_address_record. rewrite boxes. set (remote := advertised_entry ad now).
  set (moves := negb (owner_hash remote =? owner_hash (local_address st)) && _).
  set (known := known_peer st (ad_hostname ad) (ad_owner_hash ad)).
  set (exists_ := bool_decide (is_Some (address_book st !! hostname (local_address st)))).
  exists (moves && negb exists_). split.
  - intros Ho Hw Hnone. assert (exists_ = false) as -> by (apply bool_decide_eq_false; rewrite Hnone; by intros []).
    subst moves. rewrite (proj2 (Z.eqb_neq _ _)) by done. cbn [negb andb]. rewrite andb_true_r. exact Hw.
  - intros st1 change e changed Hr Hk.
    assert (((if known then Ok false else _ ← Ok tt; Ok true) : result bool) = Ok (negb known)) as -> by by destruct known.
    rewrite result_bind_run.
    assert (((if moves && negb exists_ then _ ← Ok tt; Ok true else Ok false) : result bool) = Ok (moves && negb exists_)) as ->
      by by destruct (moves && negb exists_).
    rewrite result_bind_run. unfold ingest_prepared_address. cbn [fresh_peer local_spare]. rewrite negb_involutive.
    change (hostname remote) with (ad_hostname ad). change (owner_hash remote) with (ad_owner_hash ad).
    fold known. rewrite andb_negb_r. fold remote. rewrite Hr. cbn [mbind option_bind].
    assert (known && bool_decide (address_book st1 !! ad_hostname ad = None) = false) as ->.
    { destruct known; [|done]. apply bool_decide_eq_false. destruct (Hk eq_refl) as [x ->]. done. }
    set (st' := set_maps _ _ st1). assert (exists r, (match change with
      | Some c => Some (_ ← notify c; Ok changed, st') | None => Some (Ok changed, st') end) = Some (r, st')) as [r ->]
      by (destruct change; eauto).
    exists r, st'. split; [done|]. split; [done|]. unfold placed, st'. cbn [set_maps local_address address_book address_by_value].
    split_and!.
    + intros Hp. destruct (decide (address (local_address st1) = address e)) as [->|]; [by rewrite lookup_insert_eq|by rewrite lookup_insert_ne].
    + etransitivity; [apply size_insert_one|]. destruct (negb known); [done|]. apply le_n_S, size_delete_le.
    + apply size_insert_one.
Qed.

(** A known peer of another name stays known. *)
Lemma ingest_yields st ad now :
  placed st -> room_left st -> is_u32 (requested_address (local_address st)) -> is_u32 (ad_requested_address ad) ->
  owner_hash (advertised_entry ad now) <> owner_hash (local_address st) ->
  (known_peer st (ad_hostname ad) (ad_owner_hash ad) = true -> ad_hostname ad <> hostname (local_address st)) ->
  exists r st', ingest_address_advertisement try_box notify st ad now = Some (r, st') /\
    yielded (advertised_entry ad now) (local_address st) (local_address st') /\ placed st' /\
    (size (address_book st') <= 2 + size (address_book st))%nat /\ (size (address_by_value st') <= 2 + size (address_by_value st))%nat.
Proof using boxes.
  intros Hp Hroom Hq Hpq Ho Hk. destruct (ingest_reserved st ad now) as (spare & Hspare & Hrun).
  specialize (Hspare Ho). set (remote := advertised_entry ad now) in *. set (l := local_address st) in *.
  unfold yielded. unfold resolve_conflict in Hrun. fold l in Hrun. unfold same_name, same_address in *.
  assert (negb (owner_hash remote =? owner_hash l) = true) as Hf by (apply negb_true_iff; by apply Z.eqb_neq).
  rewrite Hf, !andb_true_r in Hrun.
  assert (forall n : Name, is_Some (address_book st !! ad_hostname ad) -> ad_hostname ad <> hostname l ->
     forall st1, (forall n, n <> hostname l -> is_Some (address_book st !! n) -> is_Some (address_book st1 !! n)) ->
     is_Some (address_book st1 !! ad_hostname ad)) as Hkeep by auto.
  destruct (bool_decide (hostname remote = hostname l) && identity_wins remote l) eqn:E1.
  - destruct (unique_hostname_spec st (hostname l) (owner_hash l) (proj1 Hroom)) as (name & Hu & Hfree).
    destruct (update_run st (with_hostname name l) HostnameConflict spare now) as (change & st1 & Hup & Hl1 & Hb1 & Hp1 & Hs1 & Hs2); [by apply Hspare|].
    rewrite Hu in Hrun. cbn [mbind option_bind] in Hrun. rewrite Hup in Hrun.
    destruct (Hrun _ _ _ _ eq_refl) as (r & st' & Hi & Hl & Hpl & Hz1 & Hz2).
    { intros Hkn. apply Hb1; [by apply Hk|by eapply known_some]. }
    exists r, st'. split; [exact Hi|]. rewrite Hl, Hl1. split; [|split; [by apply Hpl|lia]].
    split; [done|]. cbn [hostname address with_hostname seen_at]. split; [|done].
    intros He. assert (name_taken st name = true) as Ht by (apply name_taken_spec; by right). congruence.
  - destruct ((address remote =? address l) && address_wins remote l) eqn:E2.
    + destruct (relocated_spec st l Hq Hroom) as [_ Hfree].
      destruct (update_run st (relocated st l) (conflict_reason (mode l)) spare now) as (change & st1 & Hup & Hl1 & Hb1 & Hp1 & Hs1 & Hs2); [by apply Hspare|].
      rewrite Hup in Hrun. destruct (Hrun _ _ _ _ eq_refl) as (r & st' & Hi & Hl & Hpl & Hz1 & Hz2).
      { intros Hkn. apply Hb1; [by apply Hk|by eapply known_some]. }
      exists r, st'. split; [exact Hi|]. rewrite Hl, Hl1. split; [|split; [by apply Hpl|lia]].
      split; [done|]. split; [done|]. intros He. cbn [address seen_at] in He. rewrite He in Hfree. destruct Hp as [x Hx]. fold l in Hx. congruence.
    + assert (exists e changed, resolve_conflict st remote spare now = Some (Ok (None, e, changed), st)) as (e & changed & Hr).
      { unfold resolve_conflict. fold l. rewrite Hf, !andb_true_r, E1, E2. destruct (bool_decide (hostname remote = hostname l)); [|destruct (_ =? _); eauto].
        destruct (unique_hostname_spec st (hostname remote) (owner_hash remote) (proj1 Hroom)) as (name & -> & _). cbn. eauto. }
      unfold resolve_conflict in Hr. fold l in Hr. rewrite Hf, !andb_true_r, E1, E2 in Hr.
      destruct (Hrun _ _ _ _ Hr (known_some _ _ _)) as (r & st' & Hi & Hl & Hpl & Hz1 & Hz2).
      exists r, st'. split; [exact Hi|]. rewrite Hl. split; [|split; [by apply Hpl|lia]]. done.
Qed.

(** The own owner is no foreign one: nothing is resolved. *)
Lemma ingest_own st ad now :
  owner_hash (advertised_entry ad now) = owner_hash (local_address st) ->
  exists r st', ingest_address_advertisement try_box notify st ad now = Some (r, st') /\ local_address st' = local_address st.
Proof using boxes.
  intros Ho. destruct (ingest_reserved st ad now) as (spare & _ & Hrun). unfold resolve_conflict in Hrun.
  rewrite Ho, Z.eqb_refl in Hrun. cbn [negb] in Hrun. rewrite !andb_false_r in Hrun. cbn [andb] in Hrun.
  destruct (Hrun _ _ _ _ eq_refl (known_some _ _ _)) as (r & st' & Hi & Hl & _). by exists r, st'.
Qed.
End AnyClash.


(** Two boards hear each other's advertisement, each as the other was before. *)
Definition exchange (try_box : result unit) (notify : AddressChange -> result unit) (eps : list DataEndpoint) (vars : list DataType)
    (sources : list bytes) (caps : LinkCapabilities) (state now_a now_b : Z) (s : AddressState * AddressState) : option (AddressState * AddressState) :=
  let advertise st := local_address_advertisement st eps vars sources caps state in
  '(_, a) ← ingest_address_advertisement try_box notify (fst s) (advertise (snd s)) now_a;
  '(_, b) ← ingest_address_advertisement try_box notify (snd s) (advertise (fst s)) now_b;
  Some (a, b).

Section Exchange.
Context (try_box : result unit) (boxes : try_box = Ok tt) (notify : AddressChange -> result unit).
Context (eps : list DataEndpoint) (vars : list DataType) (sources : list bytes) (caps : LinkCapabilities) (state : Z).

Abbreviation exchange := (exchange try_box notify eps vars sources caps state).

Lemma yielded_advertised st e e' now :
  yielded (advertised_entry (local_address_advertisement st eps vars sources caps state) now) e e' -> yielded (local_address st) e e'.
Proof. unfold yielded. by rewrite advertised_name, advertised_identity, advertised_address, advertised_wins. Qed.

Lemma exchange_yields now_a now_b n a b :
  let la := local_address a in let lb := local_address b in
  placed a -> placed b -> roomy (2 + n) a -> roomy (2 + n) b -> is_u32 (requested_address la) -> is_u32 (requested_address lb) ->
  owner_hash la <> owner_hash lb ->
  (known_peer a (hostname lb) (owner_hash lb) = true -> hostname lb <> hostname la) ->
  (known_peer b (hostname la) (owner_hash la) = true -> hostname la <> hostname lb) ->
  exists a' b', exchange now_a now_b (a, b) = Some (a', b') /\ yielded lb la (local_address a') /\ yielded la lb (local_address b') /\
    placed a' /\ placed b' /\ roomy n a' /\ roomy n b'.
Proof using boxes.
  intros la lb Pa Pb Ra Rb Qa Qb Ho Ka Kb. unfold AddressBook.exchange. cbn [fst snd].
  destruct (ingest_yields try_box boxes notify a (local_address_advertisement b eps vars sources caps state) now_a Pa (roomy_left _ _ Ra) Qa Qb)
    as (ra & a' & -> & Ya & Pa' & Sa); [exact (not_eq_sym Ho)|exact Ka|].
  destruct (ingest_yields try_box boxes notify b (local_address_advertisement a eps vars sources caps state) now_b Pb (roomy_left _ _ Rb) Qb Qa)
    as (rb & b' & -> & Yb & Pb' & Sb); [exact Ho|exact Kb|].
  exists a', b'. split; [done|]. split; [by eapply yielded_advertised|]. split; [by eapply yielded_advertised|].
  unfold roomy in *. split_and!; try done; lia.
Qed.

Lemma exchange_own now_a now_b a b :
  owner_hash (local_address a) = owner_hash (local_address b) ->
  exists a' b', exchange now_a now_b (a, b) = Some (a', b') /\ local_address a' = local_address a /\ local_address b' = local_address b.
Proof using boxes.
  intros Ho. unfold AddressBook.exchange. cbn [fst snd].
  destruct (ingest_own try_box boxes notify a (local_address_advertisement b eps vars sources caps state) now_a) as (ra & a' & -> & Ha); [exact (eq_sym Ho)|].
  destruct (ingest_own try_box boxes notify b (local_address_advertisement a eps vars sources caps state) now_b) as (rb & b' & -> & Hb); [exact Ho|].
  by exists a', b'.
Qed.
End Exchange.

(** Which of the clashes of two boards the first of them loses. *)
Definition loses_name (own other : AddressBookEntry) : bool := same_name own other && identity_wins other own.
Definition loses_address (own other : AddressBookEntry) : bool := same_address own other && address_wins other own.

(** What two exchanges make of two boards with different owners. *)
Lemma two_rounds la lb la1 lb1 la2 lb2 :
  owner_hash la <> owner_hash lb -> yielded lb la la1 -> yielded la lb lb1 ->
  hostname la1 <> hostname lb1 /\
  (yielded lb1 la1 la2 -> yielded la1 lb1 lb2 ->
   hostname la2 <> hostname lb2 /\ address la2 <> address lb2 /\
   (hostname la2 = hostname la <-> loses_name la lb = false) /\ (hostname lb2 = hostname lb <-> loses_name lb la = false) /\
   (address la2 = address la <-> loses_address la lb = false) /\ (address lb2 = address lb <-> loses_address lb la = false)).
Proof.
  intros Ho [Ca Ya] [Cb Yb]. pose proof (identity_wins_total la lb Ho) as Hi. pose proof (address_wins_total la lb Ho) as Hw.
  unfold loses_name, loses_address. unfold yielded at 1 2. rewrite (identity_wins_claim lb la lb1 la1 Cb Ca), (identity_wins_claim la lb la1 lb1 Ca Cb),
    (address_wins_claim lb la lb1 la1 Cb Ca), (address_wins_claim la lb la1 lb1 Ca Cb).
  assert (forall a b, reflect (hostname a = hostname b) (same_name a b)) as En by (intros; apply bool_decide_reflect).
  assert (forall a b, reflect (address a = address b) (same_address a b)) as Ea by (intros; apply Z.eqb_spec).
  rewrite Hi, Hw in *. clear Hi Hw Ho Ca Cb.
  destruct (En la lb), (En lb la), (Ea la lb), (Ea lb la); try congruence;
    destruct (identity_wins lb la), (address_wins lb la); cbn [negb andb] in Ya, Yb |- *; destruct_and?;
    (split; [intuition congruence|]); intros [_ Ya2] [_ Yb2];
    destruct (En lb1 la1), (En la1 lb1), (Ea lb1 la1), (Ea la1 lb1); try (exfalso; intuition congruence); cbn [andb] in Ya2, Yb2;
    destruct_and?; intuition congruence.
Qed.

Lemma same_sym a b : same_name a b = same_name b a /\ same_address a b = same_address b a.
Proof. split; [by apply bool_decide_ext|apply Z.eqb_sym]. Qed.

Lemma loses_once_name a b : owner_hash a <> owner_hash b -> same_name a b = true -> loses_name b a = negb (loses_name a b).
Proof. intros Ho Hs. unfold loses_name. rewrite (proj1 (same_sym b a)), Hs, (identity_wins_total a b Ho). done. Qed.

Lemma loses_once_address a b : owner_hash a <> owner_hash b -> same_address a b = true -> loses_address b a = negb (loses_address a b).
Proof. intros Ho Hs. unfold loses_address. rewrite (proj2 (same_sym b a)), Hs, (address_wins_total a b Ho). done. Qed.

(** A clash in one thing, or in none. *)
Lemma one_clash try_box notify eps vars sources caps state now_a now_b a b a1 b1 a2 b2 :
  let la := local_address a in let lb := local_address b in
  let la1 := local_address a1 in let lb1 := local_address b1 in
  try_box = Ok tt -> registered a -> registered b -> room_left a -> room_left b ->
  is_u32 (requested_address la) -> is_u32 (requested_address lb) -> owner_hash la <> owner_hash lb ->
  exchange try_box notify eps vars sources caps state now_a now_b (a, b) = Some (a1, b1) ->
  yielded lb la la1 -> yielded la lb lb1 -> yielded lb1 la1 (local_address a2) -> yielded la1 lb1 (local_address b2) ->
  same_name la lb && same_address la lb = false ->
  registered a1 /\ registered b1 /\ local_address a2 = la1 /\ local_address b2 = lb1.
Proof.
  intros la lb la1 lb1 Hbox Ha Hb Ra Rb Qa Qb Ho Hx Y1 Z1 Y2 Z2 Hone. destruct (same_sym la lb) as [Sn Sa].
  unfold exchange in Hx. cbn [fst snd] in Hx.
  destruct (ingest_outcome try_box notify a (local_address_advertisement b eps vars sources caps state) now_a Hbox Ha Ra Qa Qb)
    as (ra & a' & ea & Ia & (Rga & _) & _); [exact (not_eq_sym Ho)|rewrite advertised_name, advertised_address; fold la lb; by rewrite <- Sn, <- Sa|].
  destruct (ingest_outcome try_box notify b (local_address_advertisement a eps vars sources caps state) now_b Hbox Hb Rb Qb Qa)
    as (rb & b' & eb & Ib & (Rgb & _) & _); [exact Ho|by rewrite advertised_name, advertised_address|].
  rewrite Ia in Hx. cbn [mbind option_bind] in Hx. rewrite Ib in Hx. cbn in Hx. injection Hx as <- <-. split; [done|]. split; [done|].
  destruct Y1 as [Ca Y1], Z1 as [Cb Z1], Y2 as [_ Y2], Z2 as [_ Z2].
  pose proof (identity_wins_total la lb Ho) as Hi. pose proof (address_wins_total la lb Ho) as Hw.
  assert (forall a b, reflect (hostname a = hostname b) (same_name a b)) as En by (intros; apply bool_decide_reflect).
  assert (forall a b, reflect (address a = address b) (same_address a b)) as Ea by (intros; apply Z.eqb_spec).
  rewrite Hi, Hw in *. clearbody la lb la1 lb1. clear Ia Ib Ca Cb Hi Hw Ho Sn Sa.
  destruct (En la lb), (En lb la), (Ea la lb), (Ea lb la); try congruence; try discriminate Hone;
    destruct (identity_wins lb la), (address_wins lb la); cbn [negb andb] in Y1, Z1; destruct_and?;
    destruct (En lb1 la1), (En la1 lb1), (Ea lb1 la1), (Ea la1 lb1); try (exfalso; intuition congruence); cbn [andb] in Y2, Z2; by split.
Qed.

(** C15: Two routers that hear each other's advertisement.  If they count as different
    owners then after two exchanges, whether they claimed one name, one address, both or
    neither, their names differ and their addresses differ; the name has moved exactly at
    the one that lost a clash of names (the younger), the address exactly at the one that
    lost a clash of addresses (the weaker kind of assignment, then the younger), and of
    two different owners exactly one loses a clash.  If they clashed in one thing or in
    none, one exchange is enough, both stay registered in their own books, and the second
    changes nothing.  (In a clash in both, the own entry in the book may be lost:
    [own_address_lost].)  If they have one owner hash, like the first routers of two
    devices with one host name, neither ever moves and the clash stays. *)
Theorem conflict_settles try_box notify a b now1 now2 now3 now4 eps vars sources caps state :
  try_box = Ok tt -> registered a -> registered b -> roomy 4 a -> roomy 4 b ->
  is_u32 (requested_address (local_address a)) -> is_u32 (requested_address (local_address b)) ->
  let la := local_address a in let lb := local_address b in
  let exchange := exchange try_box notify eps vars sources caps state in
  exists a1 b1 a2 b2, exchange now1 now2 (a, b) = Some (a1, b1) /\ exchange now3 now4 (a1, b1) = Some (a2, b2) /\
  let la2 := local_address a2 in let lb2 := local_address b2 in
  if owner_hash la =? owner_hash lb then la2 = la /\ lb2 = lb
  else
    hostname la2 <> hostname lb2 /\ address la2 <> address lb2 /\
    (hostname la2 = hostname la <-> loses_name la lb = false) /\ (hostname lb2 = hostname lb <-> loses_name lb la = false) /\
    (address la2 = address la <-> loses_address la lb = false) /\ (address lb2 = address lb <-> loses_address lb la = false) /\
    (same_name la lb = true -> loses_name lb la = negb (loses_name la lb)) /\
    (same_address la lb = true -> loses_address lb la = negb (loses_address la lb)) /\
    (same_name la lb && same_address la lb = false ->
       registered a1 /\ registered b1 /\ local_address a2 = local_address a1 /\ local_address b2 = local_address b1).
Proof.
  intros Hbox Ha Hb Ra Rb Qa Qb la lb exch. destruct (Z.eqb_spec (owner_hash la) (owner_hash lb)) as [Ho|Ho].
  - destruct (exchange_own try_box Hbox notify eps vars sources caps state now1 now2 a b Ho) as (a1 & b1 & E1 & A1 & B1).
    destruct (exchange_own try_box Hbox notify eps vars sources caps state now3 now4 a1 b1) as (a2 & b2 & E2 & A2 & B2); [rewrite A1, B1; exact Ho|].
    exists a1, b1, a2, b2. split; [exact E1|]. split; [exact E2|]. cbv zeta. rewrite A2, A1, B2, B1. by split.
  - destruct (exchange_yields try_box Hbox notify eps vars sources caps state now1 now2 2 a b) as (a1 & b1 & E1 & Y1 & Z1 & P1 & P2 & R1 & R2);
      [by apply registered_placed..|done|done|done|done|done| | |].
    { intros Hk He. exact (eq_true_false_abs _ Hk (known_own_name a _ _ Ha He (not_eq_sym Ho))). }
    { intros Hk He. exact (eq_true_false_abs _ Hk (known_own_name b _ _ Hb He Ho)). }
    fold la lb in Y1, Z1. destruct (two_rounds la lb (local_address a1) (local_address b1) (local_address a1) (local_address b1) Ho Y1 Z1) as [Hn1 _].
    pose proof Y1 as [(Q1 & _ & _ & O1) _]. pose proof Z1 as [(Q2 & _ & _ & O2) _].
    destruct (exchange_yields try_box Hbox notify eps vars sources caps state now3 now4 0 a1 b1) as (a2 & b2 & E2 & Y2 & Z2 & _);
      [done|done|done|done|by rewrite Q1|by rewrite Q2|by rewrite O1, O2|by intros _ ?|by intros _ ?|].
    exists a1, b1, a2, b2. split; [exact E1|]. split; [exact E2|].
    destruct (two_rounds la lb _ _ (local_address a2) (local_address b2) Ho Y1 Z1) as [_ Hr]. destruct (Hr Y2 Z2) as (H1 & H2 & H3 & H4 & H5 & H6).
    do 6 (split; [assumption|]). split; [by apply loses_once_name|]. split; [by apply loses_once_address|].
    intros Hone. pose proof (roomy_left _ _ Ra). pose proof (roomy_left _ _ Rb).
    exact (one_clash try_box notify eps vars sources caps state now1 now2 a b a1 b1 a2 b2 Hbox Ha Hb ltac:(assumption) ltac:(assumption) Qa Qb Ho E1 Y1 Z1 Y2 Z2 Hone).
Qed.

(** ** Whose address it is *)

Definition matching (a : NodeAddress) (c : Name) : Prop := sender_address_u32 c = a.

Lemma consider_known a l : forall n coll,
  foldl (consider a) (Some n, coll) l = (Some n, coll || existsb (fun c => (sender_address_u32 c =? a) && negb (bool_decide (n = c))) l).
Proof.
  induction l as [|c l IH]; intros n coll; cbn [foldl existsb]; [by rewrite orb_false_r|].
  unfold consider at 2. cbn [fst snd]. destruct (sender_address_u32 c =? a); cbn [negb andb orb]; [|apply IH].
  destruct (decide (n = c)) as [->|Hn].
  - rewrite IH, bool_decide_eq_true_2 by done. done.
  - rewrite IH, bool_decide_eq_false_2 by done. by rewrite orb_true_r.
Qed.

(** The search finds a name that all the candidates with the address agree on. *)
Lemma consider_all a l : forall n,
  (let '(found, coll) := foldl (consider a) (None, false) l in if coll then None else found) = Some n <->
  n ∈ l /\ matching a n /\ forall c, c ∈ l -> matching a c -> c = n.
Proof.
  induction l as [|c l IH]; intros n; cbn [foldl]; [split; [done|by intros [?%not_elem_of_nil _]]|].
  unfold consider at 2. cbn [fst snd]. unfold matching in *.
  destruct (Z.eqb_spec (sender_address_u32 c) a) as [Hc|Hc]; cbn [negb].
  - rewrite consider_known. cbn [orb]. destruct (existsb _ l) eqn:E.
    + split; [done|]. intros (_ & _ & Hall). apply existsb_exists in E as (d & Hd & Hb).
      apply andb_true_iff in Hb as [Hb1%Z.eqb_eq Hb2%negb_true_iff%bool_decide_eq_false_1]. exfalso. apply Hb2.
      rewrite (Hall c), (Hall d); [done|right; by apply list_elem_of_In|done|left|done].
    + split.
      * intros [= <-]. split; [left|]. split; [done|]. intros d Hd Hda. apply elem_of_cons in Hd as [->|Hd]; [done|].
        assert (existsb (fun x => (sender_address_u32 x =? a) && negb (bool_decide (c = x))) l <> true) as Hne by congruence.
        destruct (decide (c = d)) as [->|Hcd]; [done|]. exfalso. apply Hne, existsb_exists. exists d.
        split; [by apply list_elem_of_In|]. by rewrite (proj2 (Z.eqb_eq _ _) Hda), bool_decide_eq_false_2.
      * intros (_ & _ & Hall). f_equal. apply Hall; [left|done].
  - rewrite IH. split.
    + intros (H1 & H2 & H3). split; [by right|]. split; [done|].
      intros d [->|Hd]%elem_of_cons Hda; [done|by apply H3].
    + intros (H1 & H2 & H3). apply elem_of_cons in H1 as [->|H1]; [done|]. split; [done|]. split; [done|].
      intros d Hd. apply H3. by right.
Qed.

(** The names a router has heard of. *)
Definition heard (st : AddressState) (announcers : Announcers) (n : Name) : Prop :=
  is_Some (address_book st !! n)
  \/ exists announcer boards, (announcer, boards) ∈ announcers /\
       (n = announcer \/ exists b, b ∈ boards /\ (n = sender_id b \/ n ∈ connections b)).

Lemma heard_candidates st ann n :
  (forall m e, address_book st !! m = Some e -> hostname e = m) ->
  n ∈ map (fun e => hostname (snd e)) (map_to_list (address_book st)) ++ discovered_names ann <-> heard st ann n.
Proof.
  intros Hk. rewrite elem_of_app. unfold heard, discovered_names. f_equiv.
  - rewrite list_elem_of_fmap. split.
    + intros ([m e] & -> & He%elem_of_map_to_list). cbn [snd]. rewrite (Hk _ _ He). by exists e.
    + intros (e & He). exists (n, e). cbn [snd]. split; [by rewrite (Hk _ _ He)|by apply elem_of_map_to_list].
  - rewrite list_elem_of_In, in_concat. setoid_rewrite in_map_iff. split.
    + intros (x & ([announcer boards] & <- & Hin) & Hn). exists announcer, boards. rewrite list_elem_of_In.
      split; [done|]. destruct Hn as [->|Hn]; [by left|right].
      apply in_concat in Hn as (y & (b & <- & Hb)%in_map_iff & Hn). exists b. rewrite !list_elem_of_In.
      split; [done|]. destruct Hn as [->|Hn]; auto.
    + intros (announcer & boards & Hin%list_elem_of_In & Hn). eexists. split; [exists (announcer, boards); split; [done|done]|].
      destruct Hn as [->|(b & Hb%list_elem_of_In & Hn)]; [by left|right]. apply in_concat.
      exists (sender_id b :: connections b). split; [apply in_map_iff; by exists b|].
      destruct Hn as [->|Hn%list_elem_of_In]; [by left|by right].
Qed.

(** An address is attributed to the name registered for it, and when
    there is none, to a name the router has heard of whose own number it is, only if
    no other name it has heard of has the same number.  A sender is taken for a host
    only if it is that name, or an alias of an address attributed to it. *)
Theorem attribution st ann :
  registered st ->
  (forall a n, hostname_for_address st ann a = Some n <->
     address_by_value st !! a = Some n \/
     (address_by_value st !! a = None /\ heard st ann n /\ sender_address_u32 n = a /\
      forall c, heard st ann c -> sender_address_u32 c = a -> c = n)) /\
  (forall sender expected, sender_matches_hostname st ann sender expected = true ->
     sender = expected \/
     exists a, parse_alias sender = Some a /\ hostname_for_address st ann a = Some expected) /\
  (forall sender, canonical_sender st ann sender <> sender ->
     exists a, parse_alias sender = Some a /\
       hostname_for_address st ann a = Some (canonical_sender st ann sender)).
Proof.
  intros [_ _ Hk]. split_and!.
  - intros a n. unfold hostname_for_address. destruct (address_by_value st !! a) as [m|].
    { split; [by left|]. intros [H|(H & _)]; [done|discriminate H]. }
    rewrite consider_all, heard_candidates by done. unfold matching. split.
    + intros (H1 & H2 & H3). right. split_and!; try done. intros c Hc. apply H3. by apply heard_candidates.
    + intros [H|(_ & H1 & H2 & H3)]; [discriminate H|]. split_and!; try done.
      intros c Hc. apply H3. by rewrite <- heard_candidates.
  - intros sender expected. unfold sender_matches_hostname, parse_alias.
    destruct (_ || _); [discriminate|]. destruct (strip_prefix addr_prefix sender) as [value|]; cbn [mbind option_bind].
    + destruct (_ || _); [discriminate|]. destruct (parse_u32 value) as [a|]; [|discriminate].
      intros H%bool_decide_eq_true_1. right. by exists a.
    + intros H%bool_decide_eq_true_1. by left.
  - intros sender. unfold canonical_sender. destruct (parse_alias sender) as [a|]; [|done].
    destruct (hostname_for_address st ann a) as [n|] eqn:E; [|done]. intros _. by exists a.
Qed.

(** ** Boards *)

Definition sample_links : LinkCapabilities := sample_capabilities.

(** A board that took a host name only. *)
Definition sample_board (seq : Z) : AddressState := new_identity true (str "node") ModeDynamic seq 1.
(** A board whose operator gave it the number the name [node] maps to. *)
Definition sample_static : AddressState :=
  new_identity true (str "gps") (ModeStatic (address (local_address (sample_board 1)))) 2 5.

Definition heard_from (peer : AddressState) : AddressAdvertisement :=
  local_address_advertisement peer [] [] [] sample_links 0.

Lemma sample_room seq : roomy 4 (sample_board seq).
Proof.
  unfold roomy, sample_board, new_identity. cbn [address_book address_by_value].
  rewrite !map_size_singleton. unfold u32_max. lia.
Qed.

Lemma static_room : roomy 4 sample_static.
Proof.
  unfold roomy, sample_static, new_identity. cbn [address_book address_by_value].
  rewrite !map_size_singleton. unfold u32_max. lia.
Qed.

(** The board without an operator's number yields its address at once. *)
Lemma conflict_settles_witness :
  exists a1 b1 a2 b2,
    exchange (Ok tt) (fun _ => Ok tt) [] [] [] sample_links 0 7 8 (sample_board 1, sample_static) = Some (a1, b1) /\
    exchange (Ok tt) (fun _ => Ok tt) [] [] [] sample_links 0 9 9 (a1, b1) = Some (a2, b2) /\
    address (local_address a2) <> address (local_address b2) /\ address (local_address b2) = address (local_address sample_static) /\
    registered a1.
Proof.
  destruct (conflict_settles (Ok tt) (fun _ => Ok tt) (sample_board 1) sample_static 7 8 9 9 [] [] [] sample_links 0 eq_refl
    (new_identity_registered _ _ _ _) (new_identity_registered _ _ _ _) (sample_room 1) static_room
    ltac:(unfold is_u32, u32_max; vm_compute; by split) ltac:(unfold is_u32, u32_max; vm_compute; by split)) as (a1 & b1 & a2 & b2 & E1 & E2 & H).
  exists a1, b1, a2, b2. split; [exact E1|]. split; [exact E2|].
  assert ((owner_hash (local_address (sample_board 1)) =? owner_hash (local_address sample_static)) = false) as Ho by (vm_compute; reflexivity).
  cbv zeta in H. rewrite Ho in H. destruct H as (_ & Ha & _ & _ & _ & [_ Hb] & _ & _ & Hreg).
  split; [exact Ha|]. split; [apply Hb; vm_compute; reflexivity|]. apply Hreg. vm_compute. reflexivity.
Defined.

(** A younger board with the same name and a number of the operator's that is the same
    address: the first exchange moves its name and the address of the other. *)
Lemma both_clash_settles :
  let a := sample_board 1 in
  let b := new_identity true (str "node") (ModeStatic (address (local_address a))) 2 5 in
  match exchange (Ok tt) (fun _ => Ok tt) [] [] [] sample_links 0 7 8 (a, b) with
  | Some (a1, b1) =>
      hostname (local_address a1) = str "node" /\ address (local_address b1) = address (local_address b) /\
      hostname (local_address b1) <> str "node" /\ address (local_address a1) <> address (local_address b1) /\
      address_book a1 !! str "node" <> Some (local_address a1)
  | None => False
  end.
Proof. vm_compute. by split_and!. Qed.

(** The same for the board alone that hears the other. *)
Lemma ingest_spec_witness :
  exists r st' e,
    ingest_address_advertisement (Ok tt) (fun _ => Ok tt) (sample_board 1) (heard_from sample_static) 7 = Some (r, st') /\
    apart st' e /\ owner_hash e = owner_hash (advertised_entry (heard_from sample_static) 7) /\
    (if same_name (advertised_entry (heard_from sample_static) 7) (local_address (sample_board 1)) &&
        identity_wins (advertised_entry (heard_from sample_static) 7) (local_address (sample_board 1)) then
       e = advertised_entry (heard_from sample_static) 7 /\
       hostname (local_address st') <> hostname (local_address (sample_board 1)) /\
       address (local_address st') = address (local_address (sample_board 1))
     else if same_address (advertised_entry (heard_from sample_static) 7) (local_address (sample_board 1)) &&
        address_wins (advertised_entry (heard_from sample_static) 7) (local_address (sample_board 1)) then
       e = advertised_entry (heard_from sample_static) 7 /\
       hostname (local_address st') = hostname (local_address (sample_board 1)) /\
       address (local_address st') <> address (local_address (sample_board 1))
     else local_address st' = local_address (sample_board 1)).
Proof.
  apply (ingest_spec (Ok tt) (fun _ => Ok tt) (sample_board 1) (heard_from sample_static) 7);
    [done|apply new_identity_registered|apply (roomy_left 4), sample_room| | | |].
  - unfold is_u32, u32_max; vm_compute; by split.
  - unfold is_u32, u32_max; vm_compute; by split.
  - vm_compute. discriminate.
  - vm_compute. reflexivity.
Defined.

Lemma attribution_witness :
  registered (sample_board 1) /\
  hostname_for_address (sample_board 1) [] (address (local_address (sample_board 1))) = Some (str "node").
Proof.
  split; [apply new_identity_registered|].
  apply (attribution (sample_board 1) []); [apply new_identity_registered|]. left. vm_compute. reflexivity.
Defined.

(** ** Both the name and the address *)

Definition clash_advertisement (m birth owner : Z) : AddressAdvertisement :=
  let e := local_address (sample_board 1) in
  {| ad_hostname := hostname e; ad_address := address e; ad_requested_address := address e; ad_mode := m;
     ad_state := 0; ad_birth_ms := birth; ad_owner_hash := owner; ad_endpoints := []; ad_network_variables := [];
     ad_timesync_sources := []; ad_link_capabilities := sample_links |}.

(** What the advertisements received one after the other leave. *)
Fixpoint hear (ads : list AddressAdvertisement) (st : AddressState) : option AddressState :=
  match ads with
  | [] => Some st
  | ad :: ads => '(_, st) ← ingest_address_advertisement (Ok tt) (fun _ => Ok tt) st ad 7; hear ads st
  end.

(** A younger peer with the own name and with the own address as a static number
    makes the router move its address; the record stored for the peer then replaces
    the own record, which has the same name.  If the peer advertises an earlier
    birth next, the router gives up its name and takes that record for its own old
    one, and there is no record left where the peer's is expected. *)
Lemma known_peer_panic :
  is_Some (hear [clash_advertisement 2 (2 ^ 60) 77] (sample_board 1)) /\
  hear [clash_advertisement 2 (2 ^ 60) 77; clash_advertisement 2 0 77] (sample_board 1) = None.
Proof. split; [eexists|]; vm_compute; reflexivity. Qed.

(** A peer that loses the clash and goes on advertising the same name and address is
    recorded under one more name every time. *)
Lemma losing_peer_accumulates :
  (fun st => size (address_book st)) <$> hear (replicate 1 (clash_advertisement 0 (2 ^ 60) 77)) (sample_board 1) = Some 2%nat /\
  (fun st => size (address_book st)) <$> hear (replicate 4 (clash_advertisement 0 (2 ^ 60) 77)) (sample_board 1) = Some 5%nat.
Proof. split; vm_compute; reflexivity. Qed.

(** And the address that the router keeps is registered for the peer. *)
Lemma own_address_lost :
  (fun st => bool_decide (local_address st = local_address (sample_board 1))) <$>
    hear [clash_advertisement 0 (2 ^ 60) 77] (sample_board 1) = Some true /\
  (fun st => bool_decide (hostname_for_address st [] (address (local_address st)) = Some (hostname (local_address st)))) <$>
    hear [clash_advertisement 0 (2 ^ 60) 77] (sample_board 1) = Some false.
Proof. split; vm_compute; reflexivity. Qed.

(** The owner is told from the host name and the count of routers in the process, so
    the first routers of two devices with one host name are one owner: neither gives
    way, and the record of the other replaces the own one. *)
Lemma twin_devices_clash now1 now2 m1 m2 name seq :
  owner_hash (local_address (new_identity true name m1 seq now1)) =
  owner_hash (local_address (new_identity true name m2 seq now2)).
Proof. done. Qed.

Lemma twin_overwrites :
  (fun st => (bool_decide (local_address st = local_address (sample_board 1)),
              option_map birth_ms (address_book st !! str "node"))) <$>
    hear [heard_from (new_identity true (str "node") ModeDynamic 1 900)] (sample_board 1) =
  Some (true, Some 900000001).
Proof. vm_compute. reflexivity. Qed.
