(* ===== verification/P2pCodec.v ===== *)
(** * Point-to-point frames (src/src/router.rs)

    The two layers of a point-to-point payload: the frame that names the source
    board and both ports, and inside it, for streams, the stream segment. *)

From S2P Require Import Prelude Schema Packet DiscoveryWire.

Open Scope Z_scope.

Abbreviation P2pPort := Z.
Abbreviation P2pStreamId := Z.

Definition P2P_STREAM_MAGIC : bytes := str "SDSP".
Definition P2P_STREAM_VERSION : Z := 1.
Definition P2P_STREAM_SYN : Z := 1.
Definition P2P_STREAM_ACK : Z := 2.
Definition P2P_STREAM_FIN : Z := 4.
Definition P2P_STREAM_RST : Z := 8.
Definition P2P_STREAM_DATA : Z := 16.

Record P2pDecoded : Type := {
  source_hostname : bytes;
  source_address : Z;
  source_port : P2pPort;
  destination_port : P2pPort;
  p2p_body : bytes;
}.

Record P2pStreamDecoded : Type := {
  flags : Z;
  source_stream_id : P2pStreamId;
  destination_stream_id : P2pStreamId;
  sequence : Z;
  segment : bytes;
}.

(** [flags & bit != 0]. *)
Definition has_flag (fs bit : Z) : bool := negb (Z.land fs bit =? 0).

(** The [n]-byte integer at offset [o]. *)
Definition field (n o : nat) (l : bytes) : Z := from_le (take n (drop o l)).

Definition encode_p2p_payload (src_hostname : bytes) (src_address : Z) (src_port dst_port : P2pPort) (payload : bytes)
    : result bytes :=
  if u16_max <? zlen src_hostname then Err (Pack "p2p hostname too long")
  else if u32_max <? zlen payload then Err (Pack "p2p payload too long")
  else Ok ([1] ++ le_bytes 2 dst_port ++ le_bytes 2 src_port ++ le_bytes 4 src_address ++
           le_bytes 2 (zlen src_hostname) ++ le_bytes 4 (zlen payload) ++ src_hostname ++ payload).

(** The sums of a length and an offset saturate at the width of [usize], which the
    16- and 32-bit fields do not reach. *)
Definition decode_p2p_payload (payload : bytes) : result P2pDecoded :=
  if zlen payload <? 15 then Err (Unpack "p2p frame short")
  else if negb (nth 0 payload 0 =? 1) then Err (Unpack "p2p frame version")
  else
    let host_end := sat_add 15 (field 2 9 payload) in
    let body_end := sat_add host_end (field 4 11 payload) in
    if (zlen payload <? host_end) || negb (body_end =? zlen payload) then Err (Unpack "p2p frame length")
    else
      host ← from_utf8 (take (Z.to_nat (host_end - 15)) (drop 15 payload)) "p2p hostname utf8";
      Ok {| source_hostname := host; source_address := field 4 5 payload; source_port := field 2 3 payload;
            destination_port := field 2 1 payload; p2p_body := drop (Z.to_nat host_end) payload |}.

Definition encode_p2p_stream_payload (fs : Z) (source destination : P2pStreamId) (seq : Z) (payload : bytes)
    : result bytes :=
  if u32_max <? zlen payload then Err (Pack "p2p stream payload too long")
  else Ok (P2P_STREAM_MAGIC ++ [P2P_STREAM_VERSION; fs] ++ le_bytes 4 source ++ le_bytes 4 destination ++
           le_bytes 4 seq ++ le_bytes 4 (zlen payload) ++ payload).

(** [None]: not a segment of a stream. *)
Definition decode_p2p_stream_payload (payload : bytes) : result (option P2pStreamDecoded) :=
  if negb (bool_decide (take 4 payload = P2P_STREAM_MAGIC)) then Ok None
  else if zlen payload <? 22 then Err (Unpack "p2p stream frame short")
  else if negb (nth 4 payload 0 =? P2P_STREAM_VERSION) then Err (Unpack "p2p stream frame version")
  else if negb (sat_add 22 (field 4 18 payload) =? zlen payload) then Err (Unpack "p2p stream frame length")
  else Ok (Some {| flags := nth 5 payload 0; source_stream_id := field 4 6 payload;
                   destination_stream_id := field 4 10 payload; sequence := field 4 14 payload;
                   segment := drop 22 payload |}).

(** ** What the fields hold *)

Record p2p_ok (d : P2pDecoded) : Prop := {
  p2p_text : utf8_valid (source_hostname d) = true;
  p2p_host_len : zlen (source_hostname d) <= u16_max;
  p2p_body_len : zlen (p2p_body d) <= u32_max;
  p2p_address : is_u32 (source_address d);
  p2p_ports : is_u16 (source_port d) /\ is_u16 (destination_port d);
}.

Record stream_ok (f : P2pStreamDecoded) : Prop := {
  stream_flags : is_u8 (flags f);
  stream_len : zlen (segment f) <= u32_max;
  stream_ids : is_u32 (source_stream_id f) /\ is_u32 (destination_stream_id f) /\ is_u32 (sequence f);
}.

Definition encode_decoded (d : P2pDecoded) : result bytes :=
  encode_p2p_payload (source_hostname d) (source_address d) (source_port d) (destination_port d) (p2p_body d).
Definition encode_segment (f : P2pStreamDecoded) : result bytes :=
  encode_p2p_stream_payload (flags f) (source_stream_id f) (destination_stream_id f) (sequence f) (segment f).

(** ** Fields at their offsets *)

Lemma field_here n v l : 0 <= v < 256 ^ Z.of_nat n -> field n 0 (le_bytes n v ++ l) = v.
Proof.
  intros Hv. unfold field. rewrite drop_0, take_app_length' by (symmetry; apply length_le_bytes).
  by apply from_le_bytes.
Qed.

Lemma field_skip n o (pre l : bytes) : (length pre <= o)%nat -> field n o (pre ++ l) = field n (o - length pre) l.
Proof. intros Ho. unfold field. by rewrite drop_app_ge. Qed.

(** The field at an offset of a concatenation. *)
Ltac field_at :=
  repeat (rewrite field_skip by (rewrite ?length_le_bytes; cbn; lia); rewrite ?length_le_bytes; cbn [length Nat.sub]);
  apply field_here.

(** A field written back in front of what follows it. *)
Lemma field_rebuild n o l :
  bytes_ok l -> (o + n <= length l)%nat -> le_bytes n (field n o l) ++ drop (o + n) l = drop o l.
Proof.
  intros Hl Hn. unfold field. rewrite le_bytes_from_le.
  - by rewrite <- drop_drop, take_drop.
  - by apply Forall_take, Forall_drop.
  - rewrite length_take, length_drop. lia.
Qed.

Lemma byte_rebuild o l : (S o <= length l)%nat -> [nth o l 0] ++ drop (S o) l = drop o l.
Proof.
  revert l. induction o as [|o IH]; intros [|b l] Hl; cbn [length] in Hl; try lia; [done|].
  cbn [nth drop]. apply IH. lia.
Qed.

Lemma field_range n o l : bytes_ok l -> 0 <= field n o l < 256 ^ Z.of_nat n.
Proof.
  intros Hl. unfold field. pose proof (from_le_range (take n (drop o l)) ltac:(by apply Forall_take, Forall_drop)).
  assert (256 ^ zlen (take n (drop o l)) <= 256 ^ Z.of_nat n); [|lia].
  apply Z.pow_le_mono_r; [lia|]. unfold zlen. rewrite length_take. lia.
Qed.

Lemma nth_forall (b : bytes) o : bytes_ok b -> (o < length b)%nat -> is_u8 (nth o b 0).
Proof. intros Hb Ho. apply (proj1 (Forall_forall _ b) Hb), list_elem_of_In, nth_In, Ho. Qed.

Lemma decode_encode_p2p d b : p2p_ok d -> encode_decoded d = Ok b -> decode_p2p_payload b = Ok d.
Proof.
  intros [Ht Hh Hb Ha [Hs Hd]]. unfold encode_decoded, encode_p2p_payload.
  destruct (Z.ltb_spec u16_max (zlen (source_hostname d))); [discriminate|].
  destruct (Z.ltb_spec u32_max (zlen (p2p_body d))); [discriminate|]. intros <-%ok_inj.
  set (host := source_hostname d) in *. set (body := p2p_body d) in *. set (rest := host ++ body).
  unfold decode_p2p_payload.
  set (l := [1] ++ le_bytes 2 (destination_port d) ++ le_bytes 2 (source_port d) ++ le_bytes 4 (source_address d) ++
            le_bytes 2 (zlen host) ++ le_bytes 4 (zlen body) ++ rest).
  assert (0 <= zlen host /\ 0 <= zlen body) as [Hz0 Hz1] by (unfold zlen; lia).
  assert (zlen l = 15 + zlen host + zlen body) as Hl.
  { unfold l, rest, zlen. rewrite !length_app, !length_le_bytes. cbn [length]. lia. }
  assert (field 2 9 l = zlen host) as -> by (field_at; change (256 ^ _) with 65536; solve_u).
  assert (field 4 11 l = zlen body) as -> by (field_at; change (256 ^ _) with 4294967296; solve_u).
  assert (field 4 5 l = source_address d) as -> by (field_at; change (256 ^ _) with 4294967296; solve_u).
  assert (field 2 3 l = source_port d) as -> by (field_at; change (256 ^ _) with 65536; solve_u).
  assert (field 2 1 l = destination_port d) as -> by (field_at; change (256 ^ _) with 65536; solve_u).
  assert (drop 15 l = rest) as Hd15 by done.
  assert (sat_add 15 (zlen host) = 15 + zlen host) as -> by solve_u.
  assert (sat_add (15 + zlen host) (zlen body) = 15 + zlen host + zlen body) as -> by solve_u.
  change (nth 0 l 0 =? 1) with true. rewrite Hl, (Z.eqb_refl (_ + _)). destruct (Z.ltb_spec (15 + zlen host + zlen body) 15); [lia|].
  destruct (Z.ltb_spec (15 + zlen host + zlen body) (15 + zlen host)); [lia|]. cbn [negb orb].
  replace (Z.to_nat (15 + zlen host - 15)) with (length host) by (unfold zlen; lia).
  rewrite Hd15. unfold rest at 1. rewrite take_app_length.
  unfold from_utf8. rewrite Ht. cbn [mbind result_bind].
  replace (Z.to_nat (15 + zlen host)) with (15 + length host)%nat by (unfold zlen; lia).
  rewrite <- drop_drop, Hd15. unfold rest. rewrite drop_app_length. unfold host, body. destruct d; reflexivity.
Qed.

(** Whatever is accepted is the encoding of what it decodes to. *)
Lemma encode_decode_p2p b d :
  bytes_ok b -> zlen b <= usize_max -> decode_p2p_payload b = Ok d -> p2p_ok d /\ encode_decoded d = Ok b.
Proof.
  intros Hb Hu. unfold decode_p2p_payload. destruct (Z.ltb_spec (zlen b) 15) as [|Hlen]; [discriminate|].
  destruct (Z.eqb_spec (nth 0 b 0) 1) as [Hv|]; cbn [negb]; [|discriminate].
  pose proof (field_range 2 9 b Hb) as R1. pose proof (field_range 4 11 b Hb) as R2.
  pose proof (field_range 4 5 b Hb) as R3. pose proof (field_range 2 3 b Hb) as R4. pose proof (field_range 2 1 b Hb) as R5.
  change (256 ^ Z.of_nat 2) with 65536 in R1, R4, R5. change (256 ^ Z.of_nat 4) with 4294967296 in R2, R3.
  assert (sat_add 15 (field 2 9 b) = 15 + field 2 9 b) as -> by solve_u.
  assert (sat_add (15 + field 2 9 b) (field 4 11 b) = 15 + field 2 9 b + field 4 11 b) as -> by solve_u.
  destruct (Z.ltb_spec (zlen b) (15 + field 2 9 b)) as [|H1]; [discriminate|].
  destruct (Z.eqb_spec (15 + field 2 9 b + field 4 11 b) (zlen b)) as [H2|]; cbn [negb orb]; [|discriminate].
  unfold from_utf8. destruct (utf8_valid _) eqn:Hutf; cbn [mbind result_bind]; [|discriminate]. intros <-%ok_inj.
  assert (length b = 15 + Z.to_nat (field 2 9 b) + Z.to_nat (field 4 11 b))%nat as Hn by (unfold zlen in *; lia).
  replace (15 + field 2 9 b - 15) with (field 2 9 b) in * by lia.
  assert (zlen (take (Z.to_nat (field 2 9 b)) (drop 15 b)) = field 2 9 b) as Hh.
  { unfold zlen. rewrite length_take, length_drop. lia. }
  assert (zlen (drop (Z.to_nat (15 + field 2 9 b)) b) = field 4 11 b) as Hbody.
  { unfold zlen. rewrite length_drop. lia. }
  split; [split; cbn [source_hostname source_address source_port destination_port p2p_body];
          rewrite ?Hh, ?Hbody; [done|solve_u..|split; solve_u]|].
  unfold encode_decoded, encode_p2p_payload. cbn [source_hostname source_address source_port destination_port p2p_body].
  rewrite Hh, Hbody. destruct (Z.ltb_spec u16_max (field 2 9 b)); [solve_u|].
  destruct (Z.ltb_spec u32_max (field 4 11 b)); [solve_u|]. f_equal.
  replace (Z.to_nat (15 + field 2 9 b)) with (15 + Z.to_nat (field 2 9 b))%nat by lia.
  rewrite <- drop_drop, take_drop, (field_rebuild 4 11), (field_rebuild 2 9), (field_rebuild 4 5), (field_rebuild 2 3),
    (field_rebuild 2 1) by (done || lia).
  rewrite <- Hv. apply (byte_rebuild 0). lia.
Qed.

Lemma decode_encode_segment f b : stream_ok f -> encode_segment f = Ok b -> decode_p2p_stream_payload b = Ok (Some f).
Proof.
  intros [Hf Hs (Ha & Hd & Hq)]. unfold encode_segment, encode_p2p_stream_payload.
  destruct (Z.ltb_spec u32_max (zlen (segment f))); [discriminate|]. intros <-%ok_inj.
  set (l := P2P_STREAM_MAGIC ++ _). unfold decode_p2p_stream_payload.
  assert (zlen l = 22 + zlen (segment f)) as Hl.
  { unfold l, zlen. rewrite !length_app, !length_le_bytes.
    change (length P2P_STREAM_MAGIC) with 4%nat. cbn [length]. lia. }
  pose proof (zlen_nonneg (segment f)).
  assert (field 4 18 l = zlen (segment f)) as -> by (field_at; change (256 ^ _) with 4294967296; solve_u).
  assert (field 4 6 l = source_stream_id f) as -> by (field_at; change (256 ^ _) with 4294967296; solve_u).
  assert (field 4 10 l = destination_stream_id f) as -> by (field_at; change (256 ^ _) with 4294967296; solve_u).
  assert (field 4 14 l = sequence f) as -> by (field_at; change (256 ^ _) with 4294967296; solve_u).
  rewrite bool_decide_eq_true_2 by done. change (nth 4 l 0 =? P2P_STREAM_VERSION) with true. cbn [negb].
  assert (sat_add 22 (zlen (segment f)) = 22 + zlen (segment f)) as -> by solve_u.
  rewrite Hl, (Z.eqb_refl (_ + _)). destruct (Z.ltb_spec (22 + zlen (segment f)) 22); [lia|]. cbn [negb].
  change (nth 5 l 0) with (flags f). change (drop 22 l) with (segment f). destruct f; reflexivity.
Qed.

Lemma encode_decode_segment b f :
  bytes_ok b -> zlen b <= usize_max -> decode_p2p_stream_payload b = Ok (Some f) -> stream_ok f /\ encode_segment f = Ok b.
Proof.
  intros Hb Hu. unfold decode_p2p_stream_payload. case_bool_decide as Hm; cbn [negb]; [|discriminate].
  destruct (Z.ltb_spec (zlen b) 22) as [|Hlen]; [discriminate|].
  destruct (Z.eqb_spec (nth 4 b 0) P2P_STREAM_VERSION) as [Hv|]; cbn [negb]; [|discriminate].
  pose proof (field_range 4 18 b Hb) as R1. pose proof (field_range 4 6 b Hb) as R2.
  pose proof (field_range 4 10 b Hb) as R3. pose proof (field_range 4 14 b Hb) as R4.
  change (256 ^ Z.of_nat 4) with 4294967296 in R1, R2, R3, R4.
  assert (sat_add 22 (field 4 18 b) = 22 + field 4 18 b) as -> by solve_u.
  destruct (Z.eqb_spec (22 + field 4 18 b) (zlen b)) as [H2|]; cbn [negb]; [|discriminate]. intros Hf%ok_inj%(inj Some). subst f.
  assert (zlen (drop 22 b) = field 4 18 b) as Hbody by (unfold zlen in *; rewrite length_drop; lia).
  assert (22 <= length b)%nat as Hn by (unfold zlen in *; lia).
  split; [split; cbn [flags segment source_stream_id destination_stream_id sequence]; rewrite ?Hbody;
          [apply nth_forall; [done|lia]|solve_u|split_and!; solve_u]|].
  unfold encode_segment, encode_p2p_stream_payload. cbn [flags segment source_stream_id destination_stream_id sequence].
  rewrite Hbody. destruct (Z.ltb_spec u32_max (field 4 18 b)); [solve_u|]. f_equal.
  rewrite (field_rebuild 4 18), (field_rebuild 4 14), (field_rebuild 4 10), (field_rebuild 4 6) by (done || lia).
  rewrite <- Hv, <- Hm. change [nth 4 b 0; nth 5 b 0] with ([nth 4 b 0] ++ [nth 5 b 0]).
  rewrite <- app_assoc, (byte_rebuild 5), (byte_rebuild 4) by lia. apply take_drop.
Qed.

Lemma encoded_body d b : bytes_ok b -> encode_decoded d = Ok b -> bytes_ok (p2p_body d) /\ zlen (p2p_body d) <= zlen b.
Proof.
  unfold encode_decoded, encode_p2p_payload. intros Hb. destruct (_ <? _); [discriminate|].
  destruct (_ <? _); [discriminate|]. intros <-%ok_inj. rewrite !Forall_app in Hb. split; [apply Hb|].
  unfold zlen. rewrite !length_app. lia.
Qed.

Lemma encoded_segment_len f b : encode_segment f = Ok b -> zlen b = 22 + zlen (segment f).
Proof.
  unfold encode_segment, encode_p2p_stream_payload. destruct (_ <? _); [discriminate|]. intros <-%ok_inj.
  unfold zlen. rewrite !length_app, !length_le_bytes. change (length P2P_STREAM_MAGIC) with 4%nat. cbn [length]. lia.
Qed.

Lemma encoded_segment_ok f b : bytes_ok (segment f) -> is_u8 (flags f) -> encode_segment f = Ok b ->
  bytes_ok b /\ zlen b = 22 + zlen (segment f).
Proof.
  intros Hs Hf He. split; [|by apply encoded_segment_len].
  unfold encode_segment, encode_p2p_stream_payload in He. destruct (_ <? _); [discriminate|].
  apply ok_inj in He as <-. rewrite !Forall_app. split_and!; try apply le_bytes_ok; [by vm_compute; repeat constructor| |done].
  constructor; [by vm_compute|by constructor].
Qed.

(** Both layers of a point-to-point payload are exact: what is encoded
    decodes to the same fields, and bytes that are accepted, of whatever origin, are
    the encoding of the fields they decode to. *)
Theorem p2p_frames :
  (forall d b, p2p_ok d -> encode_decoded d = Ok b -> decode_p2p_payload b = Ok d) /\
  (forall b d, bytes_ok b -> zlen b <= usize_max -> decode_p2p_payload b = Ok d ->
     p2p_ok d /\ encode_decoded d = Ok b) /\
  (forall f b, stream_ok f -> encode_segment f = Ok b -> decode_p2p_stream_payload b = Ok (Some f)) /\
  (forall b f, bytes_ok b -> zlen b <= usize_max -> decode_p2p_stream_payload b = Ok (Some f) ->
     stream_ok f /\ encode_segment f = Ok b).
Proof.
  split_and!; [apply decode_encode_p2p|apply encode_decode_p2p|apply decode_encode_segment|apply encode_decode_segment].
Qed.

Definition sample_message : P2pDecoded :=
  {| source_hostname := str "node"; source_address := 4660; source_port := 7; destination_port := 9; p2p_body := [1; 2; 3] |}.

Lemma p2p_frames_witness : exists b, encode_decoded sample_message = Ok b /\ decode_p2p_payload b = Ok sample_message.
Proof.
  eexists. split; [vm_compute; reflexivity|]. apply p2p_frames; [|vm_compute; reflexivity].
  constructor; [reflexivity|by vm_compute|by vm_compute|by vm_compute|split; by vm_compute].
Defined.
