(* ===== verification/P2pStream.v ===== *)
(** * Point-to-point messages and streams (src/src/router.rs)

    Messages to a port of a board, and streams between two boards: a session at
    each end, opened by a handshake of two segments, used by sequenced data and
    closed by either end.  What the rest of the router answers to a packet handed
    over for transmission, and what the application's handlers answer, are
    parameters; both kinds of call are recorded in the order they are made. *)

From stdpp Require Import gmap.
From S2P Require Import Prelude Schema Packet SchemaRegistry SchemaMerge OrdMap DiscoveryWire DiscoveryCodec AddressBook P2pCodec.

Open Scope Z_scope.

(** ** Sessions *)

Record P2pStreamSession : Type := {
  peer_hostname : Name;
  peer_address : NodeAddress;
  local_port : P2pPort;
  peer_port : P2pPort;
  peer_stream_id : P2pStreamId;
  next_sequence : Z;
  connected : bool;
  peer_address_bound : bool;
}.

Inductive P2pStreamEventKind : Type := Accepted | Connected | Data | Closed | Reset.

#[export] Instance P2pStreamEventKind_eq_dec : EqDecision P2pStreamEventKind.
Proof. solve_decision. Defined.

Record P2pStreamEvent : Type := {
  ev_kind : P2pStreamEventKind;
  ev_stream_id : P2pStreamId;
  ev_peer_stream_id : P2pStreamId;
  ev_sequence : Z;
  ev_peer_hostname : Name;
  ev_peer_address : NodeAddress;
  ev_local_port : P2pPort;
  ev_peer_port : P2pPort;
  ev_payload : bytes;
}.

(** A handler that the application installed, by its identity. *)
Abbreviation Handler := nat.

Inductive P2pAction : Type :=
| Transmit (p : Packet) (target : Z)
| HandleMessage (h : Handler) (m : P2pDecoded)
| HandleEvent (h : Handler) (e : P2pStreamEvent).

Record P2pState : Type := {
  board : AddressState;
  announcers : Announcers;
  p2p_port_handlers : gmap P2pPort (list Handler);
  p2p_stream_handlers : gmap P2pPort (list Handler);
  p2p_stream_sessions : gmap P2pStreamId P2pStreamSession;
  next_p2p_stream_id : P2pStreamId;
  nonce_counter : Z;
  actions : list P2pAction;
}.

Definition set_sessions (sessions : gmap P2pStreamId P2pStreamSession) (next : P2pStreamId) (st : P2pState) : P2pState :=
  {| board := board st; announcers := announcers st; p2p_port_handlers := p2p_port_handlers st;
     p2p_stream_handlers := p2p_stream_handlers st; p2p_stream_sessions := sessions; next_p2p_stream_id := next;
     nonce_counter := nonce_counter st; actions := actions st |}.
Definition set_handlers (ports streams : gmap P2pPort (list Handler)) (st : P2pState) : P2pState :=
  {| board := board st; announcers := announcers st; p2p_port_handlers := ports; p2p_stream_handlers := streams;
     p2p_stream_sessions := p2p_stream_sessions st; next_p2p_stream_id := next_p2p_stream_id st;
     nonce_counter := nonce_counter st; actions := actions st |}.
Definition set_nonce (n : Z) (st : P2pState) : P2pState :=
  {| board := board st; announcers := announcers st; p2p_port_handlers := p2p_port_handlers st;
     p2p_stream_handlers := p2p_stream_handlers st; p2p_stream_sessions := p2p_stream_sessions st;
     next_p2p_stream_id := next_p2p_stream_id st; nonce_counter := n; actions := actions st |}.
Definition act (a : P2pAction) (st : P2pState) : P2pState :=
  {| board := board st; announcers := announcers st; p2p_port_handlers := p2p_port_handlers st;
     p2p_stream_handlers := p2p_stream_handlers st; p2p_stream_sessions := p2p_stream_sessions st;
     next_p2p_stream_id := next_p2p_stream_id st; nonce_counter := nonce_counter st; actions := actions st ++ [a] |}.

(** ** Steps

    A step fails with a panic ([None]) where the source does: a router whose role
    has no local services has no tables to look in. *)

Definition p2p (A : Type) : Type := P2pState -> option (result A * P2pState).

#[export] Instance p2p_ret : MRet p2p := fun A a st => Some (Ok a, st).
#[export] Instance p2p_bind : MBind p2p := fun A B f m st =>
  match m st with
  | None => None
  | Some (Err e, st) => Some (Err e, st)
  | Some (Ok a, st) => f a st
  end.

Definition lift {A} (r : result A) : p2p A := fun st => Some (r, st).
Definition fails {A} (e : TelemetryError) : p2p A := lift (Err e).
Definition gets {A} (f : P2pState -> A) : p2p A := fun st => Some (Ok (f st), st).
Definition modify (f : P2pState -> P2pState) : p2p unit := fun st => Some (Ok tt, f st).
Definition panic {A} : p2p A := fun _ => None.

(** [local_services.as_ref().expect("local services enabled")]. *)
Definition services : p2p unit := fun st => if local_services (board st) then Some (Ok tt, st) else None.

(** Of the [u32::MAX] rounds of the source as many as there are sessions and one more
    find an id; [0] is answered when all the ids are in use. *)
Fixpoint stream_id_loop (fuel : nat) (sessions : gmap P2pStreamId P2pStreamSession) (next : P2pStreamId)
    : P2pStreamId * P2pStreamId :=
  match fuel with
  | O => (0, next)
  | S fuel =>
      let id := Z.max next 1 in
      let next := Z.max (wrap32 (next + 1)) 1 in
      if bool_decide (sessions !! id = None) then (id, next) else stream_id_loop fuel sessions next
  end.

Definition allocate_p2p_stream_id : p2p P2pStreamId :=
  _ ← services;
  st ← gets id;
  let sessions := p2p_stream_sessions st in
  let '(id, next) := stream_id_loop (Z.to_nat (Z.min u32_max (1 + Z.of_nat (size sessions)))) sessions (next_p2p_stream_id st) in
  _ ← modify (set_sessions sessions next);
  mret id.

Definition insert_session (id : P2pStreamId) (s : P2pStreamSession) : p2p unit :=
  modify (fun st => set_sessions (<[id := s]> (p2p_stream_sessions st)) (next_p2p_stream_id st) st).
Definition remove_session (id : P2pStreamId) : p2p unit :=
  modify (fun st => set_sessions (delete id (p2p_stream_sessions st)) (next_p2p_stream_id st) st).

Definition p2p_target_address_bound (st : AddressState) (announcers : Announcers) (peer : AddressBookEntry) : option bool :=
  match address_book st !! hostname peer with
  | Some current => if bool_decide (current = peer) then Some true else None
  | None =>
      let compact := sender_address_u32 (hostname peer) in
      if (address peer =? compact) && bool_decide (hostname_for_address st announcers compact = Some (hostname peer))
      then Some false else None
  end.

Definition p2p_session_tuple_matches (book : gmap Name AddressBookEntry) (s : P2pStreamSession) (m : P2pDecoded) : bool :=
  let address_matches :=
    if peer_address_bound s then peer_address s =? source_address m
    else match book !! peer_hostname s with Some known => address known =? source_address m | None => true end in
  bool_decide (peer_hostname s = source_hostname m) && address_matches && (peer_port s =? source_port m)
  && (local_port s =? destination_port m).

(** The session of a segment that does not name it: the first in the order of ids. *)
Definition is_session_of (m : P2pDecoded) (f : P2pStreamDecoded) (s : P2pStreamSession) : bool :=
  (peer_stream_id s =? source_stream_id f) && (local_port s =? destination_port m)
  && (peer_port s =? source_port m) && (peer_address s =? source_address m)
  && bool_decide (peer_hostname s = source_hostname m).

Definition find_session (sessions : gmap P2pStreamId P2pStreamSession) (m : P2pDecoded) (f : P2pStreamDecoded)
    : option P2pStreamId :=
  fst <$> List.find (fun e => is_session_of m f (snd e)) (entries sessions).

(** A segment may use a session if it comes from the board and ports it is with, and
    from the stream it is with once that is known. *)
Definition session_bound (book : gmap Name AddressBookEntry) (sessions : gmap P2pStreamId P2pStreamSession)
    (id : P2pStreamId) (m : P2pDecoded) (f : P2pStreamDecoded) : bool :=
  match sessions !! id with
  | Some s => p2p_session_tuple_matches book s m
              && ((peer_stream_id s =? 0) || (peer_stream_id s =? source_stream_id f))
  | None => false
  end.

Record PendingP2pStreamEvent : Type := { pending_handlers : list Handler; pending_event : P2pStreamEvent }.

(** Where a reply goes, and the reply. *)
Definition Reply : Type := AddressBookEntry * P2pPort * P2pPort * bytes.

(** The entry of a peer to answer: its record, or what its frame says. *)
Definition peer_entry (st : P2pState) (n : Name) (a : NodeAddress) (now : Z) : AddressBookEntry :=
  match address_book (board st) !! n with
  | Some e => e
  | None => {| hostname := n; address := a; requested_address := a; mode := ModeDynamic; birth_ms := now;
               owner_hash := sender_hash n; last_seen_ms := now |}
  end.

Definition stream_handlers_of (st : P2pState) (port : P2pPort) : list Handler :=
  default [] (p2p_stream_handlers st !! port).

(** ** Segments received *)

(** [SYN]: a new session unless the segment is a repetition, and always an answer. *)
Definition accept_session (m : P2pDecoded) (f : P2pStreamDecoded) (now : Z)
    : p2p (list PendingP2pStreamEvent * option Reply) :=
  _ ← services;
  st ← gets id;
  '(id, events) ← match find_session (p2p_stream_sessions st) m f with
    | Some id => mret (id, [])
    | None =>
        id ← allocate_p2p_stream_id;
        if id =? 0 then fails (Io "p2p stream id exhausted")
        else
          _ ← insert_session id
                {| peer_hostname := source_hostname m; peer_address := source_address m;
                   local_port := destination_port m; peer_port := source_port m;
                   peer_stream_id := source_stream_id f; next_sequence := 1; connected := true;
                   peer_address_bound := true |};
          mret (id, [{| pending_handlers := stream_handlers_of st (destination_port m);
                        pending_event :=
                          {| ev_kind := Accepted; ev_stream_id := id; ev_peer_stream_id := source_stream_id f;
                             ev_sequence := sequence f; ev_peer_hostname := source_hostname m;
                             ev_peer_address := source_address m; ev_local_port := destination_port m;
                             ev_peer_port := source_port m; ev_payload := segment f |} |}])
    end;
  payload ← lift (encode_p2p_stream_payload (Z.lor P2P_STREAM_SYN P2P_STREAM_ACK) id (source_stream_id f) 0 []);
  mret (events, Some (peer_entry st (source_hostname m) (source_address m) now, source_port m, destination_port m, payload)).

(** [SYN] and [ACK]: the session opened here is answered. *)
Definition connect_session (m : P2pDecoded) (f : P2pStreamDecoded)
    : p2p (list PendingP2pStreamEvent * option Reply) :=
  if source_stream_id f =? 0 then mret ([], None)
  else
    _ ← services;
    st ← gets id;
    let id := destination_stream_id f in
    if negb (session_bound (address_book (board st)) (p2p_stream_sessions st) id m f) then mret ([], None)
    else
      match p2p_stream_sessions st !! id with
      | None => mret ([], None)
      | Some s =>
          _ ← insert_session id
                {| peer_hostname := peer_hostname s; peer_address := source_address m; local_port := local_port s;
                   peer_port := peer_port s; peer_stream_id := source_stream_id f; next_sequence := next_sequence s;
                   connected := true; peer_address_bound := true |};
          mret ([{| pending_handlers := stream_handlers_of st (local_port s);
                    pending_event :=
                      {| ev_kind := Connected; ev_stream_id := id; ev_peer_stream_id := source_stream_id f;
                         ev_sequence := sequence f; ev_peer_hostname := peer_hostname s;
                         ev_peer_address := source_address m; ev_local_port := local_port s;
                         ev_peer_port := peer_port s; ev_payload := segment f |} |}], None)
      end.

Definition segment_kind (fs : Z) : P2pStreamEventKind :=
  if has_flag fs P2P_STREAM_RST then Reset else if has_flag fs P2P_STREAM_FIN then Closed else Data.

(** [FIN], [RST] or [DATA]: an event of the session, which ends with the first two. *)
Definition use_session (m : P2pDecoded) (f : P2pStreamDecoded) : p2p (list PendingP2pStreamEvent * option Reply) :=
  _ ← services;
  st ← gets id;
  let kind := segment_kind (flags f) in
  let named := if destination_stream_id f =? 0 then find_session (p2p_stream_sessions st) m f
               else Some (destination_stream_id f) in
  match named with
  | None => mret ([], None)
  | Some id =>
      if negb (session_bound (address_book (board st)) (p2p_stream_sessions st) id m f) then mret ([], None)
      else
        match p2p_stream_sessions st !! id with
        | None => panic
        | Some s =>
            let event :=
              {| pending_handlers := stream_handlers_of st (local_port s);
                 pending_event :=
                   {| ev_kind := kind; ev_stream_id := id; ev_peer_stream_id := source_stream_id f;
                      ev_sequence := sequence f; ev_peer_hostname := peer_hostname s;
                      ev_peer_address := if peer_address_bound s then peer_address s else source_address m;
                      ev_local_port := local_port s; ev_peer_port := peer_port s; ev_payload := segment f |} |} in
            _ ← (if bool_decide (kind = Data) then mret tt else remove_session id);
            mret ([event], None)
        end
  end.

(** What a segment does to the sessions, under the lock. *)
Definition stream_step (m : P2pDecoded) (f : P2pStreamDecoded) (now : Z)
    : p2p (list PendingP2pStreamEvent * option Reply) :=
  if has_flag (flags f) P2P_STREAM_SYN && negb (has_flag (flags f) P2P_STREAM_ACK) then accept_session m f now
  else if has_flag (flags f) P2P_STREAM_SYN && has_flag (flags f) P2P_STREAM_ACK then connect_session m f
  else if has_flag (flags f) (Z.lor (Z.lor P2P_STREAM_FIN P2P_STREAM_RST) P2P_STREAM_DATA) then use_session m f
  else mret ([], None).

Section Router.
Context (reg : Registry) (tun : Tuning) (ts now : Z).
(** The answers of the packing of a packet for its target and of its transmission. *)
Context (attach transmit : Packet -> Z -> result unit).
(** The answers of the handlers. *)
Context (on_message : Handler -> P2pDecoded -> result unit) (on_event : Handler -> P2pStreamEvent -> result unit).

(** Handlers are called one after the other until one fails. *)
Fixpoint call_all {A} (call : Handler -> A -> P2pAction) (answer : Handler -> A -> result unit) (a : A)
    (hs : list Handler) : p2p unit :=
  match hs with
  | [] => mret tt
  | h :: hs => _ ← modify (act (call h a)); _ ← lift (answer h a); call_all call answer a hs
  end.

Fixpoint call_events (events : list PendingP2pStreamEvent) : p2p unit :=
  match events with
  | [] => mret tt
  | e :: events => _ ← call_all HandleEvent on_event (pending_event e) (pending_handlers e); call_events events
  end.

Section Open.
Context (send : AddressBookEntry -> P2pPort -> P2pPort -> bytes -> p2p unit).

Definition dispatch_p2p_stream_frame (m : P2pDecoded) (f : P2pStreamDecoded) : p2p unit :=
  '(events, reply) ← stream_step m f now;
  _ ← (match reply with
       | Some (dst, dst_port, src_port, payload) => send dst dst_port src_port payload
       | None => mret tt
       end);
  call_events events.

Definition dispatch_p2p_packet_with (p : Packet) : p2p unit :=
  if negb (ty p =? ty_P2pMessage) then mret tt
  else
    decoded ← lift (decode_p2p_payload (payload p));
    stream ← lift (decode_p2p_stream_payload (p2p_body decoded));
    match stream with
    | Some f =>
        st ← gets id;
        if negb (sender_matches_hostname (board st) (announcers st) (sender p) (source_hostname decoded)) then mret tt
        else dispatch_p2p_stream_frame decoded f
    | None =>
        _ ← services;
        st ← gets id;
        call_all HandleMessage on_message decoded (default [] (p2p_port_handlers st !! destination_port decoded))
    end.
End Open.

Definition send_p2p_with (dispatch : Packet -> p2p unit) (dst : AddressBookEntry) (dst_port src_port : P2pPort)
    (payload : bytes) : p2p unit :=
  if dst_port =? 0 then fails BadArg
  else
    st ← gets id;
    let local := local_address (board st) in
    payload ← lift (encode_p2p_payload (hostname local) (address local) src_port dst_port payload);
    let '(p, n) := packet_new reg tun (nonce_counter st) ty_P2pMessage [ep_Discovery] (hostname local) ts payload in
    _ ← modify (set_nonce n);
    p ← lift p;
    let target := sender_hash (hostname dst) in
    _ ← lift (attach p target);
    if target =? sender_hash (protocol_sender (board st)) then dispatch p
    else _ ← modify (act (Transmit p target)); lift (transmit p target).

(** A packet to the own name is dispatched at once, which may answer it: of segments
    only a [SYN] is answered, and its answer is not one, so the depth is two. *)
Fixpoint send_n (n : nat) : AddressBookEntry -> P2pPort -> P2pPort -> bytes -> p2p unit :=
  send_p2p_with (match n with O => fun _ => panic | S n => dispatch_p2p_packet_with (send_n n) end).

Definition send_p2p_to_entry : AddressBookEntry -> P2pPort -> P2pPort -> bytes -> p2p unit := send_n 2.
Definition dispatch_p2p_packet : Packet -> p2p unit := dispatch_p2p_packet_with send_p2p_to_entry.

(** ** What the application asks *)

Definition bind_p2p_port (port : P2pPort) (h : Handler) : p2p unit :=
  if port =? 0 then fails BadArg
  else _ ← services;
       modify (fun st => set_handlers (<[port := default [] (p2p_port_handlers st !! port) ++ [h]]> (p2p_port_handlers st))
                           (p2p_stream_handlers st) st).
Definition clear_p2p_port (port : P2pPort) : p2p unit :=
  _ ← services; modify (fun st => set_handlers (delete port (p2p_port_handlers st)) (p2p_stream_handlers st) st).
Definition bind_p2p_stream_port (port : P2pPort) (h : Handler) : p2p unit :=
  if port =? 0 then fails BadArg
  else _ ← services;
       modify (fun st => set_handlers (p2p_port_handlers st)
                           (<[port := default [] (p2p_stream_handlers st !! port) ++ [h]]> (p2p_stream_handlers st)) st).
Definition clear_p2p_stream_port (port : P2pPort) : p2p unit :=
  _ ← services; modify (fun st => set_handlers (p2p_port_handlers st) (delete port (p2p_stream_handlers st)) st).

Definition found {A} (r : option A) : p2p A := match r with Some a => mret a | None => fails BadArg end.

Definition send_p2p_to_hostname (n : Name) (dst_port src_port : P2pPort) (payload : bytes) : p2p unit :=
  st ← gets id;
  dst ← found (resolve_hostname (board st) (announcers st) n now);
  send_p2p_to_entry dst dst_port src_port payload.
Definition send_p2p_to_address (a : NodeAddress) (dst_port src_port : P2pPort) (payload : bytes) : p2p unit :=
  st ← gets id;
  dst ← found (resolve_address (board st) (announcers st) a now);
  send_p2p_to_entry dst dst_port src_port payload.

Definition open_p2p_stream_to_entry (dst : AddressBookEntry) (dst_port src_port : P2pPort) : p2p P2pStreamId :=
  if (dst_port =? 0) || (src_port =? 0) then fails BadArg
  else
    st ← gets id;
    bound ← (match p2p_target_address_bound (board st) (announcers st) dst with
             | Some bound => mret bound
             | None => fails (Io "p2p target identity changed")
             end);
    id ← allocate_p2p_stream_id;
    if id =? 0 then fails (Io "p2p stream id exhausted")
    else
      _ ← insert_session id
            {| peer_hostname := hostname dst; peer_address := address dst; local_port := src_port; peer_port := dst_port;
               peer_stream_id := 0; next_sequence := 1; connected := false; peer_address_bound := bound |};
      payload ← lift (encode_p2p_stream_payload P2P_STREAM_SYN id 0 0 []);
      _ ← send_p2p_to_entry dst dst_port src_port payload;
      mret id.

Definition open_p2p_stream_to_hostname (n : Name) (dst_port src_port : P2pPort) : p2p P2pStreamId :=
  st ← gets id;
  dst ← found (resolve_hostname (board st) (announcers st) n now);
  open_p2p_stream_to_entry dst dst_port src_port.
Definition open_p2p_stream_to_address (a : NodeAddress) (dst_port src_port : P2pPort) : p2p P2pStreamId :=
  st ← gets id;
  dst ← found (resolve_address (board st) (announcers st) a now);
  open_p2p_stream_to_entry dst dst_port src_port.

Definition bump_sequence (s : P2pStreamSession) : P2pStreamSession :=
  {| peer_hostname := peer_hostname s; peer_address := peer_address s; local_port := local_port s;
     peer_port := peer_port s; peer_stream_id := peer_stream_id s;
     next_sequence := Z.max (wrap32 (next_sequence s + 1)) 1; connected := connected s;
     peer_address_bound := peer_address_bound s |}.

(** The handshake is repeated until the peer has answered it. *)
Definition send_p2p_stream_control (id : P2pStreamId) (fs : Z) (payload : bytes) : p2p unit :=
  _ ← services;
  st ← gets (fun st => st);
  match p2p_stream_sessions st !! id with
  | None => fails BadArg
  | Some s =>
      _ ← insert_session id (bump_sequence s);
      let dst := peer_entry st (peer_hostname s) (peer_address s) now in
      _ ← (if (peer_stream_id s =? 0) && negb (has_flag fs P2P_STREAM_SYN) then
             syn ← lift (encode_p2p_stream_payload P2P_STREAM_SYN id 0 0 []);
             send_p2p_to_entry dst (peer_port s) (local_port s) syn
           else mret tt);
      payload ← lift (encode_p2p_stream_payload fs id (peer_stream_id s) (next_sequence s) payload);
      _ ← send_p2p_to_entry dst (peer_port s) (local_port s) payload;
      if has_flag fs (Z.lor P2P_STREAM_FIN P2P_STREAM_RST) then _ ← services; remove_session id else mret tt
  end.

Definition send_p2p_stream (id : P2pStreamId) (payload : bytes) : p2p unit :=
  send_p2p_stream_control id P2P_STREAM_DATA payload.
Definition close_p2p_stream (id : P2pStreamId) : p2p unit := send_p2p_stream_control id P2P_STREAM_FIN [].
Definition reset_p2p_stream (id : P2pStreamId) : p2p unit := send_p2p_stream_control id P2P_STREAM_RST [].
End Router.

(** ** Well-formed states *)

Record board_ok (st : P2pState) : Prop := {
  bo_services : local_services (board st) = true;
  bo_text : utf8_valid (hostname (local_address (board st))) = true;
  bo_bytes : bytes_ok (hostname (local_address (board st)));
  bo_address : is_u32 (address (local_address (board st)));
  bo_book : forall n e, address_book (board st) !! n = Some e -> is_u32 (address e);
}.

Record session_ok (s : P2pStreamSession) : Prop := {
  so_address : is_u32 (peer_address s);
  so_ports : is_u16 (local_port s) /\ is_u16 (peer_port s);
  so_peer : is_u32 (peer_stream_id s);
  so_sequence : 1 <= next_sequence s <= u32_max;
}.

(** Sessions have ids from 1, and fields of their widths. *)
Record p2p_wf (st : P2pState) : Prop := {
  wf_board : board_ok st;
  wf_next : 1 <= next_p2p_stream_id st <= u32_max;
  wf_sessions : forall id s, p2p_stream_sessions st !! id = Some s -> 1 <= id <= u32_max /\ session_ok s;
}.

(** A step that never panics and keeps the states well formed; its results satisfy
    [post]. *)
Definition keeps {A} (m : p2p A) (post : A -> Prop) : Prop :=
  forall st, p2p_wf st -> exists r st', m st = Some (r, st') /\ p2p_wf st' /\ board st' = board st /\
    (forall a, r = Ok a -> post a).

Create HintDb p2p.

Lemma keeps_ret {A} (a : A) (post : A -> Prop) : post a -> keeps (mret a) post.
Proof. intros Ha st Hst. exists (Ok a), st. split_and!; try done. by intros a' <-%ok_inj. Qed.

Lemma keeps_lift {A} (r : result A) (post : A -> Prop) : (forall a, r = Ok a -> post a) -> keeps (lift r) post.
Proof. intros Hr st Hst. by exists r, st. Qed.

Lemma keeps_fails {A} e (post : A -> Prop) : keeps (fails e) post.
Proof. by apply keeps_lift. Qed.

Lemma keeps_services : keeps services (fun _ => True).
Proof. intros st Hst. exists (Ok tt), st. unfold services. rewrite (bo_services _ (wf_board _ Hst)). by split_and!. Qed.

Lemma keeps_bind {A B} (m : p2p A) (f : A -> p2p B) mid post :
  keeps m mid -> (forall a, mid a -> keeps (f a) post) -> keeps (m ≫= f) post.
Proof.
  intros Hm Hf st Hst. destruct (Hm st Hst) as (r & st1 & E1 & W1 & B1 & P1).
  unfold mbind, p2p_bind. rewrite E1. destruct r as [a|e].
  - destruct (Hf a (P1 a eq_refl) st1 W1) as (r2 & st2 & E2 & W2 & B2 & P2). exists r2, st2. rewrite B2, B1. by split_and!.
  - exists (Err e), st1. by split_and!.
Qed.

Lemma keeps_gets {B} (f : P2pState -> p2p B) post :
  (forall st, p2p_wf st -> keeps (f st) post) -> keeps (gets id ≫= f) post.
Proof. intros Hf st Hst. by apply Hf. Qed.

Lemma keeps_weaken {A} (m : p2p A) (p q : A -> Prop) : keeps m p -> (forall a, p a -> q a) -> keeps m q.
Proof. intros Hm Hpq st Hst. destruct (Hm st Hst) as (r & st1 & E & W & B & P). exists r, st1. split_and!; eauto. Qed.

Lemma keeps_act a : keeps (modify (act a)) (fun _ => True).
Proof.
  intros st [[] Hn Hss]. eexists (Ok tt), _. split; [reflexivity|]. split; [|by split].
  by constructor; [constructor|..].
Qed.

Lemma keeps_insert id s : 1 <= id <= u32_max -> session_ok s -> keeps (insert_session id s) (fun _ => True).
Proof.
  intros Hid Hs st [[] Hn Hss]. eexists (Ok tt), _. split; [reflexivity|]. split; [|by split].
  constructor; [by constructor|done|]. intros id' s'. cbn [set_sessions p2p_stream_sessions].
  intros [[<- <-]|[_ H]]%lookup_insert_Some; [done|by apply Hss].
Qed.

Lemma keeps_remove id : keeps (remove_session id) (fun _ => True).
Proof.
  intros st [[] Hn Hss]. eexists (Ok tt), _. split; [reflexivity|]. split; [|by split].
  constructor; [by constructor|done|]. intros id' s'. cbn [set_sessions p2p_stream_sessions].
  intros [_ H]%lookup_delete_Some. by apply Hss.
Qed.

#[export] Hint Resolve keeps_ret keeps_fails keeps_services keeps_act keeps_insert keeps_remove : p2p.

(** *** Ids *)

Lemma wrapped_next n : 1 <= n <= u32_max -> Z.max (wrap32 (n + 1)) 1 = next_address n.
Proof.
  intros Hn. pose proof (wrap32_range (n + 1)) as Hr. unfold next_address.
  destruct (Z.eqb_spec (wrap32 (n + 1)) 0) as [->|]; [done|]. unfold_u. lia.
Qed.

(** The loop finds the first free id of the circle, if one of its rounds meets one. *)
Lemma stream_id_loop_spec fuel sessions : forall next,
  1 <= next <= u32_max ->
  let '(id, next') := stream_id_loop fuel sessions next in
  1 <= next' <= u32_max /\
  ((id = 0 /\ forall k, (k < fuel)%nat -> is_Some (sessions !! candidate_at k next)) \/
   (1 <= id <= u32_max /\ sessions !! id = None)).
Proof.
  induction fuel as [|fuel IH]; intros next Hn; cbn [stream_id_loop]; [split; [done|left; split; [done|lia]]|].
  rewrite wrapped_next, Z.max_l by lia. pose proof (proj2 (next_address_spec next Hn)) as Hr.
  case_bool_decide as Hf; [split; [done|by right]|].
  specialize (IH (next_address next) Hr). destruct (stream_id_loop _ _ _) as [id next'].
  destruct IH as [H1 [[H2 H3]|H]]; split; [done| |done|by right]. left. split; [done|].
  intros [|k] Hk; cbn [candidate_at]; [by apply not_eq_None_Some|]. apply H3. lia.
Qed.

(** An id is found as long as there is one. *)
Lemma stream_id_free sessions next :
  1 <= next <= u32_max -> Z.of_nat (size sessions) < u32_max ->
  let '(id, next') := stream_id_loop (Z.to_nat (Z.min u32_max (1 + Z.of_nat (size sessions)))) sessions next in
  1 <= next' <= u32_max /\ 1 <= id <= u32_max /\ sessions !! id = None.
Proof.
  intros Hn Hsz. replace (Z.to_nat _) with (S (size sessions)) by lia.
  pose proof (stream_id_loop_spec (S (size sessions)) sessions next Hn) as H.
  destruct (stream_id_loop _ _ _) as [id next']. destruct H as [H1 [[_ H2]|H2]]; [|done].
  by destruct (some_candidate_free sessions next Hn Hsz).
Qed.

Lemma keeps_allocate : keeps allocate_p2p_stream_id (fun id => id = 0 \/ 1 <= id <= u32_max).
Proof.
  intros st Hst. unfold allocate_p2p_stream_id. destruct (keeps_services st Hst) as (r & st1 & E & _).
  pose proof (wf_next _ Hst) as Hn.
  pose proof (stream_id_loop_spec (Z.to_nat (Z.min u32_max (1 + Z.of_nat (size (p2p_stream_sessions st)))))
                (p2p_stream_sessions st) (next_p2p_stream_id st) Hn) as H.
  unfold mbind, p2p_bind, services. rewrite (bo_services _ (wf_board _ Hst)). cbn [gets id].
  destruct (stream_id_loop _ _ _) as [id next']. unfold modify, mret, p2p_ret. eexists _, _. split; [reflexivity|].
  destruct Hst as [[] _ Hss], H as [H1 H2]. split; [by constructor; [constructor|..]|]. split; [done|].
  intros a <-%ok_inj. destruct H2 as [[H2 _]|[H2 _]]; auto.
Qed.
#[export] Hint Resolve keeps_allocate : p2p.

(** *** Segments *)

(** The answer to a [SYN], to any board. *)
Definition synack (pl : bytes) : Prop :=
  exists id source, is_u32 id /\ is_u32 source /\
    encode_p2p_stream_payload (Z.lor P2P_STREAM_SYN P2P_STREAM_ACK) id source 0 [] = Ok pl.

Definition reply_ok (r : list PendingP2pStreamEvent * option Reply) : Prop :=
  match snd r with
  | None => True
  | Some (_, dst_port, src_port, pl) => is_u16 dst_port /\ is_u16 src_port /\ synack pl
  end.

Lemma no_reply r : snd r = None -> reply_ok r.
Proof. unfold reply_ok. by intros ->. Qed.

Section Segment.
Context (m : P2pDecoded) (f : P2pStreamDecoded) (message : p2p_ok m) (segment_ok : stream_ok f).

Lemma find_session_some sessions id :
  find_session sessions m f = Some id -> exists s, sessions !! id = Some s /\ is_session_of m f s = true.
Proof.
  unfold find_session. destruct (List.find _ _) as [[id' s]|] eqn:E; [|done]. intros [= ->].
  apply find_some in E as [Hin Hs]. exists s. split; [|done]. by apply entries_lookup, list_elem_of_In.
Qed.

Lemma find_session_none sessions id s :
  find_session sessions m f = None -> sessions !! id = Some s -> is_session_of m f s = false.
Proof.
  unfold find_session. destruct (List.find _ _) as [e|] eqn:E; [done|]. intros _ Hs.
  apply (find_none _ _ E (id, s)). by apply list_elem_of_In, entries_lookup.
Qed.

Lemma keeps_accept now : keeps (accept_session m f now) reply_ok.
Proof using message segment_ok.
  destruct message as [_ _ _ Ha [Hs Hd]], segment_ok as [_ _ (Hi & _ & _)].
  unfold accept_session. eapply keeps_bind; [apply keeps_services|intros _ _]. apply keeps_gets. intros st Hst.
  apply (keeps_bind _ _ (fun r => 1 <= fst r <= u32_max)).
  - destruct (find_session _ m f) as [id|] eqn:E.
    + apply keeps_ret. apply find_session_some in E as (s & Hl & _). apply (wf_sessions _ Hst _ _ Hl).
    + eapply keeps_bind; [apply keeps_allocate|]. intros id Hid.
      destruct (Z.eqb_spec id 0) as [|Hz]; [apply keeps_fails|].
      assert (1 <= id <= u32_max) as Hr by (destruct Hid; [done|lia]).
      eapply keeps_bind; [apply keeps_insert; [done|]|intros _ _; by apply keeps_ret].
      constructor; cbn [peer_address local_port peer_port peer_stream_id next_sequence]; done.
  - intros [id events] Hid. cbn [fst] in Hid.
    eapply (keeps_bind _ _ (fun pl => synack pl)).
    + apply keeps_lift. intros pl Hpl. exists id, (source_stream_id f). split_and!; [unfold_u; lia|done|done].
    + intros pl Hpl. by apply keeps_ret.
Qed.

Lemma keeps_connect : keeps (connect_session m f) (fun r => snd r = None).
Proof using message segment_ok.
  destruct message as [_ _ _ Ha _], segment_ok as [_ _ (Hi & _ & _)].
  unfold connect_session. destruct (_ =? 0); [by apply keeps_ret|].
  eapply keeps_bind; [apply keeps_services|intros _ _]. apply keeps_gets. intros st Hst.
  destruct (negb _); [by apply keeps_ret|].
  destruct (p2p_stream_sessions st !! _) as [s|] eqn:E; [|by apply keeps_ret].
  destruct (wf_sessions _ Hst _ _ E) as [Hr [? ? ? ?]].
  eapply keeps_bind; [apply keeps_insert; [done|by constructor]|]. intros _ _. by apply keeps_ret.
Qed.

Lemma keeps_use : keeps (use_session m f) reply_ok.
Proof using.
  unfold use_session. eapply keeps_bind; [apply keeps_services|intros _ _]. apply keeps_gets. intros st Hst.
  destruct (if _ : bool then _ else _) as [id|]; [|by apply keeps_ret].
  unfold session_bound. destruct (p2p_stream_sessions st !! id) as [s|]; [|by apply keeps_ret].
  destruct (negb _); [by apply keeps_ret|].
  apply (keeps_bind _ _ (fun _ => True)); [|intros _ _; by apply keeps_ret].
  case_bool_decide; [by apply keeps_ret|apply keeps_remove].
Qed.

Lemma keeps_step now : keeps (stream_step m f now) reply_ok.
Proof using message segment_ok.
  unfold stream_step. destruct (has_flag _ P2P_STREAM_SYN), (has_flag _ P2P_STREAM_ACK); cbn [andb negb];
    [eapply keeps_weaken; [apply keeps_connect|apply no_reply]|apply keeps_accept|..];
    (destruct (has_flag _ _); [apply keeps_use|by apply keeps_ret]).
Qed.
End Segment.

(** The answer to a [SYN] is itself not answered. *)
Lemma synack_decodes pl :
  synack pl -> exists f, decode_p2p_stream_payload pl = Ok (Some f) /\ stream_ok f /\
    flags f = Z.lor P2P_STREAM_SYN P2P_STREAM_ACK.
Proof.
  intros (id & source & Hid & Hsrc & He).
  set (f := {| flags := Z.lor P2P_STREAM_SYN P2P_STREAM_ACK; source_stream_id := id; destination_stream_id := source;
               sequence := 0; segment := [] |}).
  assert (stream_ok f) as Hf.
  { constructor; [by vm_compute|by vm_compute|]. split_and!; [done|done|by vm_compute]. }
  exists f. split; [|done]. by apply (decode_encode_segment f).
Qed.

(** *** Packets *)

Lemma keeps_nonce n : keeps (modify (set_nonce n)) (fun _ => True).
Proof.
  intros st [[] Hn Hss]. eexists (Ok tt), _. split; [reflexivity|]. split; [|by split].
  by constructor; [constructor|..].
Qed.

Lemma packet_new_fields reg tun counter kind eps name ts pl p c :
  packet_new reg tun counter kind eps name ts pl = (Ok p, c) ->
  ty p = kind /\ payload p = pl /\ sender p = name.
Proof.
  unfold packet_new, new_with_nonce, new_with_owned_wire_contract. destruct (next_packet_nonce counter) as [n c'].
  destruct eps; [by intros [= ? ?]|]. destruct (validate_payload_against_element _ _ _); cbn [mbind result_bind];
    [|by intros [= ? ?]]. by intros [= <- <-].
Qed.

Section Total.
Context (reg : Registry) (tun : Tuning) (ts now : Z) (attach transmit : Packet -> Z -> result unit).
Context (on_message : Handler -> P2pDecoded -> result unit) (on_event : Handler -> P2pStreamEvent -> result unit).

Abbreviation Done := (fun _ : unit => True).
Abbreviation Sender := (AddressBookEntry -> P2pPort -> P2pPort -> bytes -> p2p unit).

Lemma keeps_call_all {A} (call : Handler -> A -> P2pAction) answer a hs : keeps (call_all call answer a hs) Done.
Proof.
  induction hs as [|h hs IH]; cbn [call_all]; [by apply keeps_ret|].
  eapply keeps_bind; [apply keeps_act|intros _ _]. by apply (keeps_bind _ _ (fun _ => True)); [apply keeps_lift|].
Qed.

Lemma keeps_call_events events : keeps (call_events on_event events) Done.
Proof.
  induction events as [|e events IH]; cbn [call_events]; [by apply keeps_ret|].
  by eapply keeps_bind; [apply keeps_call_all|].
Qed.

(** A sender that answers a [SYN]. *)
Definition answers (send : Sender) : Prop :=
  forall dst dp sp pl, is_u16 dp -> is_u16 sp -> synack pl -> keeps (send dst dp sp pl) Done.

Lemma keeps_frame send m f : answers send -> p2p_ok m -> stream_ok f ->
  keeps (dispatch_p2p_stream_frame now on_event send m f) Done.
Proof.
  intros Hs Hm Hf. unfold dispatch_p2p_stream_frame. eapply keeps_bind; [by apply keeps_step|].
  intros [events reply] Hr. apply (keeps_bind _ _ (fun _ => True)); [|intros; apply keeps_call_events].
  destruct reply as [[[[dst dp] sp] pl]|]; [|by apply keeps_ret]. by apply Hs; apply Hr.
Qed.

(** The answer to a [SYN] is dispatched without an answer. *)
Lemma keeps_synack_frame send m f : p2p_ok m -> stream_ok f -> flags f = Z.lor P2P_STREAM_SYN P2P_STREAM_ACK ->
  keeps (dispatch_p2p_stream_frame now on_event send m f) Done.
Proof.
  intros Hm Hf Hfl. unfold dispatch_p2p_stream_frame, stream_step. rewrite Hfl.
  change (has_flag _ P2P_STREAM_SYN && negb _) with false. change (has_flag _ P2P_STREAM_SYN && _) with true.
  eapply keeps_bind; [by apply keeps_connect|]. intros [events reply] Hr. cbn [snd] in Hr. subst reply.
  apply (keeps_bind _ _ (fun _ => True)); [by apply keeps_ret|intros; apply keeps_call_events].
Qed.

Lemma keeps_packet send p :
  (forall d, decode_p2p_payload (payload p) = Ok d -> p2p_ok d /\
     forall f, decode_p2p_stream_payload (p2p_body d) = Ok (Some f) -> stream_ok f /\
       (answers send \/ flags f = Z.lor P2P_STREAM_SYN P2P_STREAM_ACK)) ->
  keeps (dispatch_p2p_packet_with now on_message on_event send p) Done.
Proof.
  intros Hp. unfold dispatch_p2p_packet_with. destruct (negb _); [by apply keeps_ret|].
  eapply (keeps_bind _ _ (fun d => decode_p2p_payload (payload p) = Ok d)); [by apply keeps_lift|]. intros d Hd.
  destruct (Hp d Hd) as [Hm Hf].
  eapply (keeps_bind _ _ (fun s => decode_p2p_stream_payload (p2p_body d) = Ok s)); [by apply keeps_lift|].
  intros [f|] Hs; [destruct (Hf f Hs) as [Hok Hsend]|].
  - apply keeps_gets. intros st Hst. destruct (negb _); [by apply keeps_ret|].
    destruct Hsend; [by apply keeps_frame|by apply keeps_synack_frame].
  - eapply keeps_bind; [apply keeps_services|intros _ _]. apply keeps_gets. intros st Hst. apply keeps_call_all.
Qed.

Lemma keeps_send dispatch dst dp sp pl :
  is_u16 dp -> is_u16 sp ->
  (forall p d, decode_p2p_payload (payload p) = Ok d -> p2p_ok d -> p2p_body d = pl -> keeps (dispatch p) Done) ->
  keeps (send_p2p_with reg tun ts attach transmit dispatch dst dp sp pl) Done.
Proof.
  intros Hdp Hsp Hd. unfold send_p2p_with. destruct (dp =? 0); [apply keeps_fails|]. apply keeps_gets. intros st Hst.
  set (d := {| source_hostname := hostname (local_address (board st)); source_address := address (local_address (board st));
               source_port := sp; destination_port := dp; p2p_body := pl |}).
  eapply (keeps_bind _ _ (fun b => encode_decoded d = Ok b)); [by apply keeps_lift|]. intros b Hb.
  destruct (packet_new _ _ _ _ _ _ _ b) as [r n] eqn:Ep.
  eapply keeps_bind; [apply keeps_nonce|intros _ _].
  eapply (keeps_bind _ _ (fun p => r = Ok p)); [by apply keeps_lift|]. intros p ->.
  apply packet_new_fields in Ep as (_ & Hpl & _).
  apply (keeps_bind _ _ (fun _ => True)); [by apply keeps_lift|]. intros _ _.
  destruct (_ =? _); [|eapply keeps_bind; [apply keeps_act|intros _ _; by apply keeps_lift]].
  assert (p2p_ok d) as Hok.
  { destruct Hst as [[_ Ht _ Ha _] _ _]. unfold encode_decoded, encode_p2p_payload in Hb. cbn [d source_hostname p2p_body] in Hb.
    destruct (Z.ltb_spec u16_max (zlen (hostname (local_address (board st))))); [discriminate Hb|].
    destruct (Z.ltb_spec u32_max (zlen pl)); [discriminate Hb|]. by constructor. }
  apply (Hd p d); [|done|done]. rewrite Hpl. by apply decode_encode_p2p.
Qed.

Abbreviation send_n := (send_n reg tun ts now attach transmit on_message on_event).

Lemma keeps_send_answer n : answers (send_n (S n)).
Proof.
  intros dst dp sp pl Hdp Hsp Hpl. apply keeps_send; [done..|]. intros p d Hp Hd Hbody. apply keeps_packet.
  rewrite Hp. intros d' <-%ok_inj. split; [done|]. rewrite Hbody. destruct (synack_decodes pl Hpl) as (f & -> & Hf & Hfl).
  intros f' [= <-]. auto.
Qed.

Lemma keeps_send_any n dst dp sp pl :
  is_u16 dp -> is_u16 sp -> bytes_ok pl -> zlen pl <= usize_max -> keeps (send_n (S (S n)) dst dp sp pl) Done.
Proof.
  intros Hdp Hsp Hb Hl. apply keeps_send; [done..|]. intros p d Hp Hd Hbody. apply keeps_packet.
  rewrite Hp. intros d' <-%ok_inj. split; [done|]. rewrite Hbody. intros f Hf.
  split; [by apply (encode_decode_segment pl f)|]. left. apply keeps_send_answer.
Qed.

Lemma keeps_dispatch p :
  bytes_ok (payload p) -> zlen (payload p) <= usize_max ->
  keeps (dispatch_p2p_packet reg tun ts now attach transmit on_message on_event p) Done.
Proof.
  intros Hb Hl. apply keeps_packet. intros d Hd. destruct (encode_decode_p2p _ _ Hb Hl Hd) as [Hok He]. split; [done|].
  intros f Hf. destruct (encoded_body _ _ Hb He) as [Hbb Hbl]. split; [|left; apply keeps_send_answer].
  apply (encode_decode_segment (p2p_body d) f); [done|lia|done].
Qed.

Lemma syn_encoded id : is_u32 id -> exists pl, encode_p2p_stream_payload P2P_STREAM_SYN id 0 0 [] = Ok pl /\
  bytes_ok pl /\ zlen pl <= usize_max.
Proof.
  intros Hid. set (f := {| flags := P2P_STREAM_SYN; source_stream_id := id; destination_stream_id := 0; sequence := 0;
                           segment := [] |}).
  destruct (encode_segment f) as [pl|] eqn:E; [|discriminate E]. exists pl. split; [exact E|].
  destruct (encoded_segment_ok f pl) as [Hb Hl]; [by constructor|by vm_compute|done|]. split; [done|].
  rewrite Hl. by vm_compute.
Qed.

Lemma keeps_open dst dp sp : is_u16 dp -> is_u16 sp -> is_u32 (address dst) ->
  keeps (open_p2p_stream_to_entry reg tun ts now attach transmit on_message on_event dst dp sp) (fun id => 1 <= id <= u32_max).
Proof.
  intros Hdp Hsp Ha. unfold open_p2p_stream_to_entry. destruct (_ || _); [apply keeps_fails|]. apply keeps_gets. intros st Hst.
  apply (keeps_bind _ _ (fun _ => True)); [destruct (p2p_target_address_bound _ _ _); [by apply keeps_ret|apply keeps_fails]|].
  intros bound _. eapply keeps_bind; [apply keeps_allocate|]. intros id Hid.
  destruct (Z.eqb_spec id 0) as [|Hz]; [apply keeps_fails|]. assert (1 <= id <= u32_max) as Hr by (destruct Hid; [done|lia]).
  eapply keeps_bind; [apply keeps_insert; [done|by constructor]|intros _ _].
  destruct (syn_encoded id) as (pl & Hpl & Hb & Hl); [unfold_u; lia|]. rewrite Hpl.
  apply (keeps_bind _ _ (fun b => b = pl)); [apply keeps_lift; by intros ? <-%ok_inj|]. intros ? ->.
  eapply keeps_bind; [by apply keeps_send_any|]. intros _ _. by apply keeps_ret.
Qed.

Lemma keeps_control id fs pl : is_u8 fs -> bytes_ok pl ->
  keeps (send_p2p_stream_control reg tun ts now attach transmit on_message on_event id fs pl) Done.
Proof.
  intros Hfs Hb. unfold send_p2p_stream_control. eapply keeps_bind; [apply keeps_services|intros _ _].
  apply (keeps_gets (fun st => _)). intros st Hst. destruct (p2p_stream_sessions st !! id) as [s|] eqn:E; [|apply keeps_fails].
  destruct (wf_sessions _ Hst _ _ E) as [Hid Hs]. destruct Hs as [Hsa [Hlp Hpp] Hpi Hsq].
  eapply keeps_bind; [apply keeps_insert; [done|]|intros _ _].
  { constructor; cbn [bump_sequence peer_address local_port peer_port peer_stream_id next_sequence]; try done.
    rewrite wrapped_next by done. by apply next_address_spec. }
  apply (keeps_bind _ _ (fun _ => True)); [destruct (_ && _); [|by apply keeps_ret]|intros _ _].
  { destruct (syn_encoded id) as (syn & -> & Hsb & Hsl); [unfold_u; lia|].
    apply (keeps_bind _ _ (fun b => b = syn)); [apply keeps_lift; by intros ? <-%ok_inj|]. intros ? ->.
    by apply keeps_send_any. }
  set (f := {| flags := fs; source_stream_id := id; destination_stream_id := peer_stream_id s; sequence := next_sequence s;
               segment := pl |}).
  eapply (keeps_bind _ _ (fun b => encode_segment f = Ok b)); [by apply keeps_lift|]. intros b Hf.
  destruct (encoded_segment_ok f b) as [Hbb Hbl]; [done|done|done|].
  apply (keeps_bind _ _ (fun _ => True)).
  - apply keeps_send_any; [done..|]. rewrite Hbl. cbn [segment f]. unfold encode_segment, encode_p2p_stream_payload in Hf.
    destruct (Z.ltb_spec u32_max (zlen (segment f))) as [|Hlt]; [discriminate Hf|]. cbn [segment f] in Hlt. unfold_u. lia.
  - intros _ _. destruct (has_flag _ _); [|by apply keeps_ret]. eapply keeps_bind; [apply keeps_services|intros _ _].
    apply keeps_remove.
Qed.

(** *** Requests *)

(** What the application and the network ask of the component. *)
Inductive P2pRequest : Type :=
| BindPort (port : P2pPort) (h : Handler)
| ClearPort (port : P2pPort)
| BindStreamPort (port : P2pPort) (h : Handler)
| ClearStreamPort (port : P2pPort)
| SendToHostname (n : Name) (dst_port src_port : P2pPort) (payload : bytes)
| SendToAddress (a : NodeAddress) (dst_port src_port : P2pPort) (payload : bytes)
| OpenToHostname (n : Name) (dst_port src_port : P2pPort)
| OpenToAddress (a : NodeAddress) (dst_port src_port : P2pPort)
| StreamData (id : P2pStreamId) (payload : bytes)
| StreamClose (id : P2pStreamId)
| StreamReset (id : P2pStreamId)
| PacketReceived (p : Packet).

Definition serve (r : P2pRequest) : p2p unit :=
  match r with
  | BindPort port h => bind_p2p_port port h
  | ClearPort port => clear_p2p_port port
  | BindStreamPort port h => bind_p2p_stream_port port h
  | ClearStreamPort port => clear_p2p_stream_port port
  | SendToHostname n dp sp pl => send_p2p_to_hostname reg tun ts now attach transmit on_message on_event n dp sp pl
  | SendToAddress a dp sp pl => send_p2p_to_address reg tun ts now attach transmit on_message on_event a dp sp pl
  | OpenToHostname n dp sp =>
      _ ← open_p2p_stream_to_hostname reg tun ts now attach transmit on_message on_event n dp sp; mret tt
  | OpenToAddress a dp sp =>
      _ ← open_p2p_stream_to_address reg tun ts now attach transmit on_message on_event a dp sp; mret tt
  | StreamData id pl => send_p2p_stream reg tun ts now attach transmit on_message on_event id pl
  | StreamClose id => close_p2p_stream reg tun ts now attach transmit on_message on_event id
  | StreamReset id => reset_p2p_stream reg tun ts now attach transmit on_message on_event id
  | PacketReceived p => dispatch_p2p_packet reg tun ts now attach transmit on_message on_event p
  end.

(** The fields of a request have the widths of their types. *)
Definition request_ok (r : P2pRequest) : Prop :=
  match r with
  | SendToHostname _ dp sp pl => is_u16 dp /\ is_u16 sp /\ bytes_ok pl /\ zlen pl <= usize_max
  | SendToAddress a dp sp pl => is_u32 a /\ is_u16 dp /\ is_u16 sp /\ bytes_ok pl /\ zlen pl <= usize_max
  | OpenToHostname _ dp sp => is_u16 dp /\ is_u16 sp
  | OpenToAddress a dp sp => is_u32 a /\ is_u16 dp /\ is_u16 sp
  | StreamData _ pl => bytes_ok pl
  | PacketReceived p => bytes_ok (payload p) /\ zlen (payload p) <= usize_max
  | _ => True
  end.

Lemma keeps_found {A} (o : option A) (post : A -> Prop) : (forall a, o = Some a -> post a) -> keeps (found o) post.
Proof. destruct o; cbn [found]; intros H; [apply keeps_ret; eauto|apply keeps_fails]. Qed.

Lemma resolved_name st n e : p2p_wf st -> resolve_hostname (board st) (announcers st) n now = Some e -> is_u32 (address e).
Proof.
  intros Hst. unfold resolve_hostname. destruct (address_book (board st) !! n) as [e'|] eqn:E.
  - intros [= ->]. apply (bo_book _ (wf_board _ Hst) _ _ E).
  - case_bool_decide; [|done]. intros [= <-]. apply sender_address_range.
Qed.

Lemma resolved_address st a e : is_u32 a -> p2p_wf st -> resolve_address (board st) (announcers st) a now = Some e -> is_u32 (address e).
Proof.
  intros Ha Hst. pose proof (bo_book _ (wf_board _ Hst)) as Hb. unfold resolve_address.
  assert (forall n e, (match address_book (board st) !! n with Some e => Some e | None => Some (named_entry n a now) end)
            = Some e -> is_u32 (address e)) as Hn.
  { intros n e'. destruct (address_book (board st) !! n) as [e''|] eqn:E; intros [= <-]; [by eapply Hb|done]. }
  destruct (address_by_value (board st) !! a) as [n|]; cbn [mbind option_bind].
  1: destruct (address_book (board st) !! n) as [e'|] eqn:E; [intros [= ->]; by eapply Hb|].
  all: destruct (hostname_for_address _ _ _) as [n'|]; [apply Hn|done].
Qed.

Lemma keeps_handlers (f g : P2pState -> gmap P2pPort (list Handler)) :
  keeps (modify (fun st => set_handlers (f st) (g st) st)) Done.
Proof.
  intros st [[] Hn Hss]. eexists (Ok tt), _. split; [reflexivity|]. split; [|by split].
  by constructor; [constructor|..].
Qed.

Lemma keeps_serve r : request_ok r -> keeps (serve r) Done.
Proof.
  destruct r; cbn [serve request_ok]; intros Hr; destruct_and?.
  1,3: unfold bind_p2p_port, bind_p2p_stream_port; destruct (_ =? 0); [apply keeps_fails|];
       eapply keeps_bind; [apply keeps_services|intros _ _; apply (keeps_handlers (fun st => _) (fun st => _))].
  1,2: eapply keeps_bind; [apply keeps_services|intros _ _; apply (keeps_handlers (fun st => _) (fun st => _))].
  1,2: apply keeps_gets; intros st Hst; eapply (keeps_bind _ _ (fun _ => True)); [by apply keeps_found|];
       intros dst _; by apply keeps_send_any.
  1,2: apply (keeps_bind _ _ (fun _ => True)); [|intros _ _; by apply keeps_ret]; apply keeps_gets; intros st Hst;
       eapply (keeps_bind _ _ (fun e => is_u32 (address e))); [apply keeps_found; intros e|].
  1: by apply resolved_name. 2: by apply resolved_address.
  1,2: intros dst Hd; eapply keeps_weaken; [by apply keeps_open|done].
  1: by apply keeps_control. 1,2: by apply keeps_control. by apply keeps_dispatch.
Qed.
End Total.

(** No request and no packet received, with whatever bytes, makes the
    component panic or run on, however the router and the handlers answer: it always
    returns a result, and sessions keep ids from 1 and fields of their widths. *)
Theorem p2p_requests reg tun ts now attach transmit on_message on_event r st :
  p2p_wf st -> request_ok r ->
  exists result st', serve reg tun ts now attach transmit on_message on_event r st = Some (result, st') /\ p2p_wf st'.
Proof.
  intros Hst Hr. destruct (keeps_serve reg tun ts now attach transmit on_message on_event r Hr st Hst)
    as (res & st' & H1 & H2 & _). by exists res, st'.
Qed.

(** ** A conversation *)

Definition act_all (l : list P2pAction) (st : P2pState) : P2pState :=
  {| board := board st; announcers := announcers st; p2p_port_handlers := p2p_port_handlers st;
     p2p_stream_handlers := p2p_stream_handlers st; p2p_stream_sessions := p2p_stream_sessions st;
     next_p2p_stream_id := next_p2p_stream_id st; nonce_counter := nonce_counter st; actions := actions st ++ l |}.

Lemma act_all_cons x l st : act_all l (act x st) = act_all (x :: l) st.
Proof. unfold act_all, act; cbn. by rewrite <- app_assoc. Qed.
Lemma act_all_nil st : act_all [] st = st.
Proof. unfold act_all. rewrite app_nil_r. by destruct st. Qed.
Lemma act_all_app l k st : act_all k (act_all l st) = act_all (l ++ k) st.
Proof. unfold act_all; cbn. by rewrite <- app_assoc. Qed.

Lemma run_bind {A B} (m : p2p A) (f : A -> p2p B) st a st1 : m st = Some (Ok a, st1) -> (m ≫= f) st = f a st1.
Proof. intros H. unfold mbind, p2p_bind. by rewrite H. Qed.

Abbreviation name_of st := (hostname (local_address (board st))).
Abbreviation number_of st := (address (local_address (board st))).

(** A packet as the receiver holds it: its header names the sender in a way that the
    receiver resolves to the sender's name. *)
Definition arrives (p q : Packet) (st : P2pState) : Prop :=
  ty q = ty p /\ payload q = payload p /\
  sender_matches_hostname (board st) (announcers st) (sender q) (sender p) = true.

Section Conversation.
Context (reg : Registry) (tun : Tuning) (ts now : Z) (attach transmit : Packet -> Z -> result unit).
Context (on_message : Handler -> P2pDecoded -> result unit) (on_event : Handler -> P2pStreamEvent -> result unit).
(** The schema of the protocol, and nothing refuses. *)
Hypothesis schema : element (message_meta reg ty_P2pMessage) = Dynamic UInt8 CData.
Hypothesis attached : forall p t, attach p t = Ok tt.
Hypothesis transmitted : forall p t, transmit p t = Ok tt.
Hypothesis handled : forall h e, on_event h e = Ok tt.

Abbreviation send_n := (send_n reg tun ts now attach transmit on_message on_event).
Abbreviation open_to := (open_p2p_stream_to_entry reg tun ts now attach transmit on_message on_event).
Abbreviation control := (send_p2p_stream_control reg tun ts now attach transmit on_message on_event).
Abbreviation dispatch := (dispatch_p2p_packet reg tun ts now attach transmit on_message on_event).

Definition message_from (st : P2pState) (sp dp : P2pPort) (pl : bytes) : P2pDecoded :=
  {| source_hostname := name_of st; source_address := number_of st; source_port := sp; destination_port := dp;
     p2p_body := pl |}.

Lemma call_all_ok {A} (call : Handler -> A -> P2pAction) answer a hs st :
  (forall h, answer h a = Ok tt) ->
  call_all call answer a hs st = Some (Ok tt, act_all (map (fun h => call h a) hs) st).
Proof.
  intros Ha. revert st. induction hs as [|h hs IH]; intros st; cbn [call_all map]; [by rewrite act_all_nil|].
  unfold mbind, p2p_bind, modify, lift. rewrite Ha, IH. by rewrite act_all_cons.
Qed.

Definition calls (e : PendingP2pStreamEvent) : list P2pAction :=
  map (fun h => HandleEvent h (pending_event e)) (pending_handlers e).

Lemma call_events_ok events : forall st,
  call_events on_event events st = Some (Ok tt, act_all (concat (map calls events)) st).
Proof using handled.
  induction events as [|e events IH]; intros st; cbn [call_events map concat]; [by rewrite act_all_nil|].
  erewrite run_bind by (apply call_all_ok; intros; apply handled). by rewrite IH, act_all_app.
Qed.

(** A packet for another board is handed over for transmission. *)
Lemma send_remote n dst dp sp pl st :
  p2p_wf st -> 0 < dp <= u16_max -> is_u16 sp -> zlen pl <= u32_max -> zlen (name_of st) <= u16_max ->
  sender_hash (hostname dst) <> sender_hash (protocol_sender (board st)) ->
  exists p nonce, ty p = ty_P2pMessage /\ sender p = name_of st /\
    decode_p2p_payload (payload p) = Ok (message_from st sp dp pl) /\
    send_n n dst dp sp pl st = Some (Ok tt, act (Transmit p (sender_hash (hostname dst))) (set_nonce nonce st)).
Proof using schema attached transmitted.
  intros Hst Hdp Hsp Hpl Hn Hfar. set (d := message_from st sp dp pl).
  assert (p2p_ok d) as Hok by (destruct Hst as [[_ Ht _ Ha _] _ _]; constructor; cbn; try done; split; [done|unfold_u; lia]).
  destruct (encode_decoded d) as [b|] eqn:Eb.
  2: { unfold encode_decoded, encode_p2p_payload in Eb. cbn [d message_from source_hostname p2p_body] in Eb.
       rewrite !(proj2 (Z.ltb_ge _ _)) in Eb by done. discriminate. }
  destruct (packet_new reg tun (nonce_counter st) ty_P2pMessage [ep_Discovery] (name_of st) ts b) as [r nonce] eqn:Ep.
  assert (exists p, r = Ok p) as [p ->].
  { unfold packet_new, new_with_nonce, new_with_owned_wire_contract in Ep. destruct (next_packet_nonce _) as [x y].
    unfold effective_element_of in Ep. rewrite schema in Ep.
    unfold validate_payload_against_element, validate_dynamic_len_and_content_for_element in Ep.
    cbn [data_type element_width] in Ep. rewrite Z.mod_1_r in Ep. cbn in Ep. injection Ep as <- _. eauto. }
  exists p, nonce. destruct (packet_new_fields _ _ _ _ _ _ _ _ _ _ Ep) as (Hty & Hpay & Hsend).
  split; [done|]. split; [done|]. rewrite Hpay. split; [by apply decode_encode_p2p|].
  destruct n as [|n]; cbn [P2pStream.send_n]; unfold send_p2p_with; rewrite (proj2 (Z.eqb_neq dp 0)) by lia;
    (erewrite run_bind by reflexivity); cbn [id];
    (erewrite run_bind by (unfold lift; unfold encode_decoded in Eb; cbn [d message_from source_hostname source_address
                             source_port destination_port p2p_body] in Eb; rewrite Eb; reflexivity));
    rewrite Ep; unfold mbind, p2p_bind, modify, lift; rewrite attached, (proj2 (Z.eqb_neq _ _)) by done;
    by rewrite transmitted.
Qed.

Lemma dispatch_arrived st q m f :
  ty q = ty_P2pMessage -> decode_p2p_payload (payload q) = Ok m -> decode_p2p_stream_payload (p2p_body m) = Ok (Some f) ->
  sender_matches_hostname (board st) (announcers st) (sender q) (source_hostname m) = true ->
  dispatch q st = dispatch_p2p_stream_frame now on_event (send_p2p_to_entry reg tun ts now attach transmit on_message on_event) m f st.
Proof using.
  intros Hty Hm Hf Hs. unfold dispatch_p2p_packet, dispatch_p2p_packet_with. rewrite Hty, Z.eqb_refl. cbn [negb].
  erewrite run_bind by (unfold lift; by rewrite Hm). erewrite run_bind by (unfold lift; by rewrite Hf).
  cbv beta iota. erewrite run_bind by reflexivity. cbn [id]. by rewrite Hs.
Qed.

(** *** An open stream *)

(** The session of [a] is with the session [idb] of [b]. *)
Record half (a b : P2pState) (ida idb : P2pStreamId) (sa : P2pStreamSession) : Prop := {
  half_session : p2p_stream_sessions a !! ida = Some sa;
  half_name : peer_hostname sa = name_of b;
  half_address : peer_address sa = number_of b;
  half_bound : peer_address_bound sa = true;
  half_peer : peer_stream_id sa = idb;
  half_connected : connected sa = true;
}.

Definition paired (a b : P2pState) (ida idb : P2pStreamId) (sa sb : P2pStreamSession) : Prop :=
  half a b ida idb sa /\ half b a idb ida sb /\ local_port sa = peer_port sb /\ peer_port sa = local_port sb.

(** The name of [b] is not taken for the own one at [a], and its record is under it. *)
Record reaches (a b : P2pState) : Prop := {
  reach_far : sender_hash (name_of b) <> sender_hash (protocol_sender (board a));
  reach_key : forall e, address_book (board a) !! name_of b = Some e -> hostname e = name_of b;
  reach_name : zlen (name_of a) <= u16_max;
}.

Lemma peer_entry_name a b x now' : reaches a b -> hostname (peer_entry a (name_of b) x now') = name_of b.
Proof. intros H. unfold peer_entry. destruct (address_book _ !! _) as [e|] eqn:E; [by apply (reach_key _ _ H)|done]. Qed.

Definition control_ok (fs : Z) : Prop := fs = P2P_STREAM_DATA \/ fs = P2P_STREAM_FIN \/ fs = P2P_STREAM_RST.

Definition segment_from (fs : Z) (ida idb seq : Z) (pl : bytes) : P2pStreamDecoded :=
  {| flags := fs; source_stream_id := ida; destination_stream_id := idb; sequence := seq; segment := pl |}.

(** The end that sends. *)
Lemma control_sends a b ida sa fs pl :
  p2p_wf a -> reaches a b -> p2p_stream_sessions a !! ida = Some sa -> peer_hostname sa = name_of b ->
  peer_stream_id sa <> 0 -> 0 < peer_port sa -> control_ok fs -> zlen pl + 22 <= u32_max ->
  exists p nonce body, encode_segment (segment_from fs ida (peer_stream_id sa) (next_sequence sa) pl) = Ok body /\
    ty p = ty_P2pMessage /\ sender p = name_of a /\
    decode_p2p_payload (payload p) = Ok (message_from a (local_port sa) (peer_port sa) body) /\
    control ida fs pl a = Some (Ok tt,
      let st := act (Transmit p (sender_hash (name_of b)))
                  (set_nonce nonce (set_sessions (<[ida := bump_sequence sa]> (p2p_stream_sessions a)) (next_p2p_stream_id a) a)) in
      if bool_decide (fs = P2P_STREAM_DATA) then st
      else set_sessions (delete ida (p2p_stream_sessions st)) (next_p2p_stream_id st) st).
Proof using schema attached transmitted.
  intros Ha Hr Hs Hname Hpeer Hport Hfs Hpl. destruct (wf_sessions _ Ha _ _ Hs) as [Hid [Hsa [Hlp Hpp] Hpi Hsq]].
  set (f := segment_from fs ida (peer_stream_id sa) (next_sequence sa) pl).
  destruct (encode_segment f) as [body|] eqn:Eb.
  2: { unfold encode_segment, encode_p2p_stream_payload in Eb. cbn [f segment_from segment] in Eb.
       rewrite (proj2 (Z.ltb_ge _ _)) in Eb by lia. discriminate. }
  set (a1 := set_sessions (<[ida := bump_sequence sa]> (p2p_stream_sessions a)) (next_p2p_stream_id a) a).
  assert (p2p_wf a1) as Ha1.
  { destruct (keeps_insert ida (bump_sequence sa) Hid) with (st := a) as (r & st' & E & Hw & _); [|done|by injection E as <- <-].
    constructor; cbn [bump_sequence peer_address local_port peer_port peer_stream_id next_sequence]; try done.
    rewrite wrapped_next by done. by apply next_address_spec. }
  set (dst := peer_entry a (peer_hostname sa) (peer_address sa) now).
  assert (hostname dst = name_of b) as Hd by (unfold dst; rewrite Hname; by apply peer_entry_name).
  assert (zlen body <= u32_max) as Hbody by (rewrite (encoded_segment_len _ _ Eb); cbn [f segment_from segment]; lia).
  destruct (send_remote 2 dst (peer_port sa) (local_port sa) body a1 Ha1) as (p & nonce & Hty & Hsn & Hdec & Hsend);
    [unfold_u; lia|done|done|apply Hr|rewrite Hd; apply Hr|].
  exists p, nonce, body. split; [done|]. split; [done|]. split; [done|]. split; [done|].
  unfold send_p2p_stream_control. assert (services a = Some (Ok tt, a)) as Hsv
    by (unfold services; by rewrite (bo_services _ (wf_board _ Ha))).
  erewrite run_bind by exact Hsv. erewrite run_bind by reflexivity. rewrite Hs.
  erewrite run_bind by reflexivity. fold a1. rewrite (proj2 (Z.eqb_neq _ 0)) by done. cbn [andb].
  erewrite run_bind by reflexivity. erewrite run_bind by (unfold lift; by rewrite <- Eb).
  fold dst. unfold send_p2p_to_entry. erewrite run_bind by exact Hsend. rewrite Hd.
  destruct Hfs as [->|[->| ->]]; [done|..];
    (rewrite bool_decide_eq_false_2 by done; change (has_flag _ _) with true; cbv iota;
     erewrite run_bind; [reflexivity|]; unfold services; cbn [board act set_nonce a1 set_sessions];
     by rewrite (bo_services _ (wf_board _ Ha))).
Qed.

Definition sent_event (kind : P2pStreamEventKind) (a : P2pState) (ida idb seq : Z) (sb : P2pStreamSession) (pl : bytes)
    : P2pStreamEvent :=
  {| ev_kind := kind; ev_stream_id := idb; ev_peer_stream_id := ida; ev_sequence := seq; ev_peer_hostname := name_of a;
     ev_peer_address := number_of a; ev_local_port := local_port sb; ev_peer_port := peer_port sb; ev_payload := pl |}.

Lemma control_flags fs : control_ok fs ->
  has_flag fs P2P_STREAM_SYN = false /\
  has_flag fs (Z.lor (Z.lor P2P_STREAM_FIN P2P_STREAM_RST) P2P_STREAM_DATA) = true /\ is_u8 fs /\
  (segment_kind fs = Data <-> fs = P2P_STREAM_DATA).
Proof using. by intros [->|[->| ->]]. Qed.

Definition session_event (kind : P2pStreamEventKind) (id : P2pStreamId) (s : P2pStreamSession) (m : P2pDecoded)
    (f : P2pStreamDecoded) : P2pStreamEvent :=
  {| ev_kind := kind; ev_stream_id := id; ev_peer_stream_id := source_stream_id f; ev_sequence := sequence f;
     ev_peer_hostname := peer_hostname s;
     ev_peer_address := if peer_address_bound s then peer_address s else source_address m;
     ev_local_port := local_port s; ev_peer_port := peer_port s; ev_payload := segment f |}.

Lemma use_session_run b m f s :
  local_services (board b) = true -> destination_stream_id f <> 0 ->
  p2p_stream_sessions b !! destination_stream_id f = Some s ->
  session_bound (address_book (board b)) (p2p_stream_sessions b) (destination_stream_id f) m f = true ->
  let id := destination_stream_id f in
  use_session m f b =
    Some (Ok ([{| pending_handlers := stream_handlers_of b (local_port s);
                  pending_event := session_event (segment_kind (flags f)) id s m f |}], None),
          if bool_decide (segment_kind (flags f) = Data) then b
          else set_sessions (delete id (p2p_stream_sessions b)) (next_p2p_stream_id b) b).
Proof using.
  intros Hsv Hz Hs Hb. unfold use_session. erewrite run_bind by (unfold services; by rewrite Hsv).
  erewrite run_bind by reflexivity. cbv beta zeta. unfold id. rewrite (proj2 (Z.eqb_neq _ 0)) by done. rewrite Hb, Hs. cbn [negb].
  case_bool_decide; by erewrite run_bind by reflexivity.
Qed.

(** The end that receives. *)
Lemma segment_received a b q ida idb sb fs seq pl body :
  p2p_wf b -> half b a idb ida sb -> ida <> 0 -> control_ok fs ->
  is_u32 ida -> is_u32 seq -> zlen pl <= u32_max -> encode_segment (segment_from fs ida idb seq pl) = Ok body ->
  ty q = ty_P2pMessage -> decode_p2p_payload (payload q) = Ok (message_from a (peer_port sb) (local_port sb) body) ->
  sender_matches_hostname (board b) (announcers b) (sender q) (name_of a) = true ->
  dispatch q b = Some (Ok tt,
    act_all (map (fun h => HandleEvent h (sent_event (segment_kind fs) a ida idb seq sb pl)) (stream_handlers_of b (local_port sb)))
      (if bool_decide (fs = P2P_STREAM_DATA) then b
       else set_sessions (delete idb (p2p_stream_sessions b)) (next_p2p_stream_id b) b)).
Proof using handled.
  intros Hb [Hs Hname Haddr Hbd Hpeer _] Hz Hfs Hida Hseq Hpl He Hty Hm Hq.
  destruct (control_flags fs Hfs) as (F1 & F2 & F3 & F4). destruct (wf_sessions _ Hb _ _ Hs) as [Hidb _].
  assert (decode_p2p_stream_payload body = Ok (Some (segment_from fs ida idb seq pl))) as Hf.
  { apply decode_encode_segment; [|done]. constructor; [done|done|]. split_and!; [done|cbn; unfold_u; lia|done]. }
  rewrite (dispatch_arrived b q _ _ Hty Hm Hf Hq).
  unfold dispatch_p2p_stream_frame, stream_step. cbn [segment_from flags]. rewrite F1, F2. cbn [andb].
  assert (services b = Some (Ok tt, b)) as Hsv by (unfold services; by rewrite (bo_services _ (wf_board _ Hb))).
  assert (session_bound (address_book (board b)) (p2p_stream_sessions b) idb (message_from a (peer_port sb) (local_port sb) body)
            (segment_from fs ida idb seq pl) = true) as Hbound.
  { unfold session_bound, p2p_session_tuple_matches. rewrite Hs, Hbd, Hname, Haddr, Hpeer.
    cbn [message_from source_hostname source_address source_port destination_port segment_from source_stream_id].
    rewrite bool_decide_eq_true_2, !Z.eqb_refl by done. cbn [andb]. by rewrite orb_true_r. }
  erewrite run_bind; [|apply use_session_run with (s := sb); [apply Hb|cbn; lia|exact Hs|exact Hbound]].
  cbv beta iota. erewrite run_bind by reflexivity. rewrite call_events_ok. cbn [map concat calls pending_handlers pending_event].
  rewrite app_nil_r. cbn [segment_from flags destination_stream_id]. unfold session_event. rewrite Hbd, Hname, Haddr.
  by rewrite (bool_decide_ext _ _ F4).
Qed.

Lemma paired_sym a b ida idb sa sb : paired a b ida idb sa sb -> paired b a idb ida sb sa.
Proof using. intros (H1 & H2 & H3 & H4). by split_and!. Qed.

(** What a step that leaves the boards and this session alone keeps of a half. *)
Lemma half_mono a b a' b' ida idb sa sa' :
  half a b ida idb sa -> board b' = board b -> p2p_stream_sessions a' !! ida = Some sa' ->
  peer_hostname sa' = peer_hostname sa -> peer_address sa' = peer_address sa ->
  peer_address_bound sa' = peer_address_bound sa -> peer_stream_id sa' = peer_stream_id sa -> connected sa' = connected sa ->
  half a' b' ida idb sa'.
Proof using. intros [] Hb Hs H1 H2 H3 H4 H5. by constructor; rewrite ?Hb, ?H1, ?H2, ?H3, ?H4, ?H5. Qed.

Lemma wf_act_all l st : p2p_wf st -> p2p_wf (act_all l st).
Proof using. intros [[] Hn Hss]. by constructor; [constructor|..]. Qed.

Lemma wf_removed id st : p2p_wf st -> p2p_wf (set_sessions (delete id (p2p_stream_sessions st)) (next_p2p_stream_id st) st).
Proof using. intros Hst. destruct (keeps_remove id st Hst) as (r & st' & E & H & _). by injection E as <- <-. Qed.

(** One end sends a segment, and the other receives it. *)
Lemma segment_delivered a b ida idb sa sb fs pl :
  p2p_wf a -> p2p_wf b -> reaches a b -> paired a b ida idb sa sb -> 0 < peer_port sa -> control_ok fs ->
  bytes_ok pl -> zlen pl + 22 <= u32_max ->
  exists p a', control ida fs pl a = Some (Ok tt, a') /\ p2p_wf a' /\
    actions a' = actions a ++ [Transmit p (sender_hash (name_of b))] /\
    forall q, arrives p q b -> exists b', dispatch q b = Some (Ok tt, b') /\ p2p_wf b' /\
      actions b' = actions b ++ map (fun h => HandleEvent h (sent_event (segment_kind fs) a ida idb (next_sequence sa) sb pl))
                                  (stream_handlers_of b (local_port sb)) /\
      (if bool_decide (fs = P2P_STREAM_DATA) then paired a' b' ida idb (bump_sequence sa) sb
       else p2p_stream_sessions a' !! ida = None /\ p2p_stream_sessions b' !! idb = None).
Proof using schema attached transmitted handled.
  intros Ha Hb Hr (HA & HB & P1 & P2) Hport Hfs Hbytes Hpl. destruct (wf_sessions _ Ha _ _ (half_session _ _ _ _ _ HA)) as [Hida Hoka].
  destruct (wf_sessions _ Hb _ _ (half_session _ _ _ _ _ HB)) as [Hidb _].
  destruct (control_sends a b ida sa fs pl Ha Hr) as (p & nonce & body & Eb & Hty & Hsn & Hdec & Hrun);
    [apply HA|apply HA|rewrite (half_peer _ _ _ _ _ HA); lia|done..|].
  rewrite (half_peer _ _ _ _ _ HA) in Eb. destruct (control_flags fs Hfs) as (_ & _ & F3 & _).
  eexists p, _. split; [exact Hrun|]. split.
  { destruct (keeps_control reg tun ts now attach transmit on_message on_event ida fs pl F3 Hbytes a Ha)
      as (r & a' & E & Hw & _). rewrite Hrun in E. by injection E as <- <-. }
  split; [by case_bool_decide|]. intros q (Hqt & Hqp & Hq). eexists. split.
  { apply (segment_received a b q ida idb sb fs (next_sequence sa) pl body); try done; [lia|unfold_u; lia| |lia|..].
    - destruct Hoka. unfold_u. lia.
    - by rewrite Hqt.
    - rewrite Hqp. by rewrite <- P1, <- P2.
    - by rewrite <- Hsn. }
  split; [apply wf_act_all; case_bool_decide; [done|by apply wf_removed]|]. split; [by case_bool_decide|].
  case_bool_decide.
  - split_and!; [eapply half_mono; [exact HA|done|apply lookup_insert_eq|done..]| |done..].
    by eapply half_mono; [exact HB|done|apply HB|..].
  - split; cbn; apply lookup_delete_eq.
Qed.

(** *** The handshake *)

Lemma services_run st : p2p_wf st -> services st = Some (Ok tt, st).
Proof using. intros Hst. unfold services. by rewrite (bo_services _ (wf_board _ Hst)). Qed.

Lemma allocate_run st : p2p_wf st -> Z.of_nat (size (p2p_stream_sessions st)) < u32_max ->
  exists id next, 1 <= id <= u32_max /\ 1 <= next <= u32_max /\ p2p_stream_sessions st !! id = None /\
    allocate_p2p_stream_id st = Some (Ok id, set_sessions (p2p_stream_sessions st) next st).
Proof using.
  intros Hst Hsz. pose proof (stream_id_free (p2p_stream_sessions st) (next_p2p_stream_id st) (wf_next _ Hst) Hsz) as H.
  unfold allocate_p2p_stream_id. erewrite run_bind by (by apply services_run). erewrite run_bind by reflexivity.
  cbv beta zeta. cbn [id]. destruct (stream_id_loop _ _ _) as [i next]. destruct H as (H1 & H2 & H3).
  exists i, next. split_and!; try done; lia.
Qed.

(** The state after a new session has been entered. *)
Definition with_session (id : P2pStreamId) (s : P2pStreamSession) (next : P2pStreamId) (st : P2pState) : P2pState :=
  set_sessions (<[id := s]> (p2p_stream_sessions st)) next st.

Lemma wf_with_session id s next st :
  p2p_wf st -> 1 <= id <= u32_max -> 1 <= next <= u32_max -> session_ok s -> p2p_wf (with_session id s next st).
Proof using.
  intros [[] Hn Hss] Hid Hnext Hs. constructor; [by constructor|done|]. intros id' s'. cbn.
  intros [[<- <-]|[_ H]]%lookup_insert_Some; [done|by apply Hss].
Qed.

Definition opened (dst : AddressBookEntry) (sp dp : P2pPort) (bound : bool) : P2pStreamSession :=
  {| peer_hostname := hostname dst; peer_address := address dst; local_port := sp; peer_port := dp; peer_stream_id := 0;
     next_sequence := 1; connected := false; peer_address_bound := bound |}.

Lemma empty_segment fs ida idb : is_u8 fs -> is_u32 ida -> is_u32 idb ->
  exists body, encode_segment (segment_from fs ida idb 0 []) = Ok body /\ zlen body <= u32_max /\
    decode_p2p_stream_payload body = Ok (Some (segment_from fs ida idb 0 [])).
Proof using.
  intros Hf Ha Hb. destruct (encode_segment (segment_from fs ida idb 0 [])) as [body|] eqn:E; [|discriminate E].
  exists body. split; [done|]. split; [rewrite (encoded_segment_len _ _ E); by vm_compute|].
  apply decode_encode_segment; [|done]. constructor; [done|by vm_compute|]. split_and!; [done|done|by vm_compute].
Qed.

Lemma open_sends a b dst dp sp bound :
  p2p_wf a -> reaches a b -> hostname dst = name_of b -> is_u32 (address dst) ->
  p2p_target_address_bound (board a) (announcers a) dst = Some bound ->
  0 < dp <= u16_max -> 0 < sp <= u16_max -> Z.of_nat (size (p2p_stream_sessions a)) < u32_max ->
  exists ida next nonce p body, 1 <= ida <= u32_max /\ 1 <= next <= u32_max /\ p2p_stream_sessions a !! ida = None /\
    open_to dst dp sp a =
      Some (Ok ida, act (Transmit p (sender_hash (name_of b))) (set_nonce nonce (with_session ida (opened dst sp dp bound) next a))) /\
    ty p = ty_P2pMessage /\ sender p = name_of a /\
    decode_p2p_payload (payload p) = Ok (message_from a sp dp body) /\
    decode_p2p_stream_payload body = Ok (Some (segment_from P2P_STREAM_SYN ida 0 0 [])).
Proof using schema attached transmitted.
  intros Ha Hr Hd Hda Hbound Hdp Hsp Hsz. destruct (allocate_run a Ha Hsz) as (ida & next & Hid & Hnext & Hfree & Hal).
  destruct (empty_segment P2P_STREAM_SYN ida 0) as (body & Eb & Hbl & Hdec); [done|unfold_u; lia|done|].
  destruct (send_remote 2 dst dp sp body (with_session ida (opened dst sp dp bound) next a)) as (p & nonce & Hty & Hsn & Hpd & Hsend);
    [|done|unfold_u; lia|done|apply Hr|rewrite Hd; apply Hr|].
  { apply wf_with_session; try done. constructor; cbn; try done. split; unfold_u; lia. }
  exists ida, next, nonce, p, body. split_and!; try done; try lia.
  unfold open_p2p_stream_to_entry. rewrite !(proj2 (Z.eqb_neq _ 0)) by lia. cbn [orb]. erewrite run_bind by reflexivity.
  cbn [id]. rewrite Hbound. erewrite run_bind by reflexivity. erewrite run_bind by exact Hal. cbv beta.
  rewrite (proj2 (Z.eqb_neq ida 0)) by lia. erewrite run_bind by reflexivity.
  erewrite run_bind by (unfold lift; rewrite <- Eb; reflexivity). unfold send_p2p_to_entry.
  erewrite run_bind by exact Hsend. by rewrite Hd.
Qed.

Definition accepted (a : P2pState) (sp dp ida : Z) : P2pStreamSession :=
  {| peer_hostname := name_of a; peer_address := number_of a; local_port := dp; peer_port := sp; peer_stream_id := ida;
     next_sequence := 1; connected := true; peer_address_bound := true |}.

Abbreviation syn_ack := (Z.lor P2P_STREAM_SYN P2P_STREAM_ACK).

(** The answer of [b] to a [SYN] of [a] for its session [idb]. *)
Lemma syn_answered a b ida idb sp dp :
  p2p_wf b -> reaches b a -> 1 <= ida <= u32_max -> 1 <= idb <= u32_max -> is_u16 dp -> 0 < sp <= u16_max ->
  exists p nonce body, ty p = ty_P2pMessage /\ sender p = name_of b /\
    decode_p2p_payload (payload p) = Ok (message_from b dp sp body) /\
    decode_p2p_stream_payload body = Ok (Some (segment_from syn_ack idb ida 0 [])) /\
    encode_p2p_stream_payload syn_ack idb ida 0 [] = Ok body /\
    send_p2p_to_entry reg tun ts now attach transmit on_message on_event (peer_entry b (name_of a) (number_of a) now) sp dp body b =
      Some (Ok tt, act (Transmit p (sender_hash (name_of a))) (set_nonce nonce b)).
Proof using schema attached transmitted.
  intros Hb Hr Hida Hidb Hdp Hsp.
  destruct (empty_segment syn_ack idb ida) as (body & Eb & Hbl & Hdec); [by vm_compute|unfold_u; lia..|].
  destruct (send_remote 2 (peer_entry b (name_of a) (number_of a) now) sp dp body b Hb) as (p & nonce & Hty & Hsn & Hpd & Hsend);
    [lia|done|done|apply Hr|rewrite peer_entry_name by done; apply Hr|].
  exists p, nonce, body. split_and!; try done. rewrite peer_entry_name in Hsend by done. exact Hsend.
Qed.

Lemma dispatch_syn b q m f events reply st1 :
  ty q = ty_P2pMessage -> decode_p2p_payload (payload q) = Ok m -> decode_p2p_stream_payload (p2p_body m) = Ok (Some f) ->
  sender_matches_hostname (board b) (announcers b) (sender q) (source_hostname m) = true ->
  flags f = P2P_STREAM_SYN ->
  accept_session m f now b = Some (Ok (events, reply), st1) ->
  forall st2, match reply with
     | Some (dst, dp, sp, pl) => send_p2p_to_entry reg tun ts now attach transmit on_message on_event dst dp sp pl st1
     | None => Some (Ok tt, st1)
     end = Some (Ok tt, st2) ->
  dispatch q b = Some (Ok tt, act_all (concat (map calls events)) st2).
Proof using handled.
  intros Hty Hm Hf Hs Hfl Hacc st2 Hsend. rewrite (dispatch_arrived b q m f) by done.
  unfold dispatch_p2p_stream_frame, stream_step. rewrite Hfl. change (has_flag _ _ && negb _) with true. cbv iota.
  erewrite run_bind by exact Hacc. cbv beta iota. erewrite run_bind; [apply call_events_ok|].
  by destruct reply as [[[[dst dp] sp] pl]|].
Qed.

Lemma accept_fresh b m f :
  p2p_wf b -> Z.of_nat (size (p2p_stream_sessions b)) < u32_max -> find_session (p2p_stream_sessions b) m f = None ->
  exists idb next, 1 <= idb <= u32_max /\ 1 <= next <= u32_max /\ p2p_stream_sessions b !! idb = None /\
    let s := {| peer_hostname := source_hostname m; peer_address := source_address m; local_port := destination_port m;
                peer_port := source_port m; peer_stream_id := source_stream_id f; next_sequence := 1; connected := true;
                peer_address_bound := true |} in
    forall body, encode_p2p_stream_payload syn_ack idb (source_stream_id f) 0 [] = Ok body ->
    accept_session m f now b =
      Some (Ok ([{| pending_handlers := stream_handlers_of b (destination_port m);
                    pending_event := session_event Accepted idb s m f |}],
                Some (peer_entry b (source_hostname m) (source_address m) now, source_port m, destination_port m, body)),
            with_session idb s next b).
Proof using.
  intros Hb Hsz Hnone. destruct (allocate_run b Hb Hsz) as (idb & next & Hid & Hnext & Hfree & Hal).
  exists idb, next. split_and!; try done; try lia. intros s body Hbody. unfold accept_session.
  erewrite run_bind by (by apply services_run). erewrite run_bind by reflexivity. cbn [id]. rewrite Hnone.
  erewrite run_bind; [|erewrite run_bind by exact Hal; cbv beta; rewrite (proj2 (Z.eqb_neq idb 0)) by lia;
                       by erewrite run_bind by reflexivity].
  cbv beta iota. by erewrite run_bind by (unfold lift; rewrite Hbody; reflexivity).
Qed.

(** A repeated [SYN] is answered for the session it has opened. *)
Lemma accept_again b m f idb :
  p2p_wf b -> find_session (p2p_stream_sessions b) m f = Some idb ->
  forall body, encode_p2p_stream_payload syn_ack idb (source_stream_id f) 0 [] = Ok body ->
  accept_session m f now b =
    Some (Ok ([], Some (peer_entry b (source_hostname m) (source_address m) now, source_port m, destination_port m, body)), b).
Proof using.
  intros Hb Hsome body Hbody. unfold accept_session.
  erewrite run_bind by (by apply services_run). erewrite run_bind by reflexivity. cbn [id]. rewrite Hsome.
  erewrite run_bind by reflexivity. cbv beta iota. by erewrite run_bind by (unfold lift; rewrite Hbody; reflexivity).
Qed.

(** The new session is the only one the segment could mean. *)
Lemma find_session_new sessions m f id s :
  find_session sessions m f = None -> sessions !! id = None -> is_session_of m f s = true ->
  find_session (<[id := s]> sessions) m f = Some id.
Proof using.
  intros Hnone Hfree Hs. destruct (find_session (<[id := s]> sessions) m f) as [id'|] eqn:E.
  - apply find_session_some in E as (s' & [[-> _]|[Hne Hl]]%lookup_insert_Some & Hs'); [done|].
    by rewrite (find_session_none m f _ _ _ Hnone Hl) in Hs'.
  - by rewrite (find_session_none m f _ id s E) in Hs by apply lookup_insert_eq.
Qed.

(** The session of [a] once it has been answered. *)
Definition answered (b : P2pState) (sp dp idb : Z) : P2pStreamSession :=
  {| peer_hostname := name_of b; peer_address := number_of b; local_port := sp; peer_port := dp; peer_stream_id := idb;
     next_sequence := 1; connected := true; peer_address_bound := true |}.

Lemma answer_received a b q dst sp dp bound ida idb next body :
  p2p_wf a -> hostname dst = name_of b ->
  p2p_target_address_bound (board a) (announcers a) dst = Some bound ->
  (forall e, address_book (board a) !! name_of b = Some e -> address e = number_of b) ->
  1 <= idb <= u32_max -> p2p_stream_sessions a !! ida = Some (opened dst sp dp bound) -> next = next_p2p_stream_id a ->
  ty q = ty_P2pMessage -> decode_p2p_payload (payload q) = Ok (message_from b dp sp body) ->
  decode_p2p_stream_payload body = Ok (Some (segment_from syn_ack idb ida 0 [])) ->
  sender_matches_hostname (board a) (announcers a) (sender q) (name_of b) = true ->
  dispatch q a = Some (Ok tt,
    act_all (map (fun h => HandleEvent h (sent_event Connected b idb ida 0 (answered b sp dp idb) [])) (stream_handlers_of a sp))
      (with_session ida (answered b sp dp idb) next a)).
Proof using handled.
  intros Ha Hd Hbound Hbook Hidb Hs -> Hty Hm Hf Hq. rewrite (dispatch_arrived a q _ _ Hty Hm Hf Hq).
  assert (session_bound (address_book (board a)) (p2p_stream_sessions a) ida (message_from b dp sp body)
            (segment_from syn_ack idb ida 0 []) = true) as Hb.
  { unfold session_bound, p2p_session_tuple_matches. rewrite Hs. cbn [opened peer_address_bound peer_hostname peer_address
      peer_port local_port peer_stream_id message_from source_hostname source_address source_port destination_port].
    rewrite Hd, bool_decide_eq_true_2, !Z.eqb_refl by done. cbn [andb orb]. rewrite !andb_true_r.
    unfold p2p_target_address_bound in Hbound. rewrite Hd in Hbound.
    destruct (address_book (board a) !! name_of b) as [e|] eqn:E.
    - case_bool_decide; [|done]. injection Hbound as <-. subst e. by apply Z.eqb_eq, Hbook.
    - destruct (_ && _); [|done]. by injection Hbound as <-. }
  unfold dispatch_p2p_stream_frame, stream_step. cbn [segment_from flags].
  change (has_flag _ _ && negb _) with false. change (has_flag _ _ && has_flag _ _) with true. cbv iota.
  unfold connect_session. cbn [segment_from source_stream_id destination_stream_id].
  rewrite (proj2 (Z.eqb_neq idb 0)) by lia.
  erewrite run_bind; [|erewrite run_bind by (by apply services_run); erewrite run_bind by reflexivity; cbn [id];
                       cbv zeta; rewrite Hb, Hs; cbn [negb]; by erewrite run_bind by reflexivity].
  cbv beta iota. erewrite run_bind by reflexivity. rewrite call_events_ok. cbn [map concat]. rewrite app_nil_r.
  unfold calls, sent_event, with_session, answered. cbn. by rewrite Hd.
Qed.

(** A packet that brings the segment [f] from [a], as [b] holds it. *)
Definition brings (q : Packet) (a b : P2pState) (sp dp : P2pPort) (f : P2pStreamDecoded) : Prop :=
  ty q = ty_P2pMessage /\
  (exists body, decode_p2p_payload (payload q) = Ok (message_from a sp dp body) /\
     decode_p2p_stream_payload body = Ok (Some f)) /\
  sender_matches_hostname (board b) (announcers b) (sender q) (name_of a) = true.

(** [b] hears of the stream [ida] of [a] for the first time, and perhaps again. *)
Lemma syn_accepted a b sp dp ida :
  p2p_wf b -> reaches b a -> is_u32 (number_of a) -> 1 <= ida <= u32_max -> is_u16 dp -> 0 < sp <= u16_max ->
  Z.of_nat (size (p2p_stream_sessions b)) < u32_max ->
  (forall id s, p2p_stream_sessions b !! id = Some s -> peer_hostname s <> name_of a) ->
  exists idb b1 synack, 1 <= idb <= u32_max /\ p2p_wf b1 /\ board b1 = board b /\
    p2p_stream_sessions b1 !! idb = Some (accepted a sp dp ida) /\
    actions b1 = actions b ++ Transmit synack (sender_hash (name_of a)) ::
      map (fun h => HandleEvent h (sent_event Accepted a ida idb 0 (accepted a sp dp ida) [])) (stream_handlers_of b dp) /\
    ty synack = ty_P2pMessage /\ sender synack = name_of b /\
    (exists body, decode_p2p_payload (payload synack) = Ok (message_from b dp sp body) /\
       decode_p2p_stream_payload body = Ok (Some (segment_from syn_ack idb ida 0 []))) /\
    (forall q, brings q a b sp dp (segment_from P2P_STREAM_SYN ida 0 0 []) ->
       dispatch q b = Some (Ok tt, b1) /\
       exists b2 again, dispatch q b1 = Some (Ok tt, b2) /\ p2p_stream_sessions b2 = p2p_stream_sessions b1 /\
         actions b2 = actions b1 ++ [Transmit again (sender_hash (name_of a))]).
Proof using schema attached transmitted handled.
  intros Hb Rba Hna Hida Hdp Hsp Hszb Hnew. set (f := segment_from P2P_STREAM_SYN ida 0 0 []).
  assert (forall body, find_session (p2p_stream_sessions b) (message_from a sp dp body) f = None) as Hnone.
  { intros body. destruct (find_session _ _ f) as [id|] eqn:E; [|done]. apply find_session_some in E as (s & Hl & Hs).
    unfold is_session_of in Hs. apply andb_true_iff in Hs as [_ Hs%bool_decide_eq_true_1]. by destruct (Hnew _ _ Hl). }
  destruct (accept_fresh b (message_from a sp dp []) f Hb Hszb (Hnone [])) as (idb & nextb & Hidb & Hnextb & Hfreeb & Hacc).
  set (b0 := with_session idb (accepted a sp dp ida) nextb b).
  assert (p2p_wf b0) as Hb0.
  { apply wf_with_session; try done. constructor; cbn; [done|split; unfold_u; lia|unfold_u; lia|done]. }
  destruct (syn_answered a b0 ida idb sp dp Hb0) as (p2 & n2 & body2 & Hty2 & Hsn2 & Hdec2 & Hseg2 & Henc2 & Hsend2);
    [by destruct Rba|done..|].
  set (es := [{| pending_handlers := stream_handlers_of b dp;
                 pending_event := sent_event Accepted a ida idb 0 (accepted a sp dp ida) [] |}]).
  set (b1 := act_all (concat (map calls es)) (act (Transmit p2 (sender_hash (name_of a))) (set_nonce n2 b0))).
  assert (p2p_wf b1) as Hb1 by (apply wf_act_all; destruct Hb0 as [[] ? ?]; by constructor; [constructor|..]).
  destruct (syn_answered a b1 ida idb sp dp Hb1) as (p3 & n3 & body3 & Hty3 & Hsn3 & Hdec3 & Hseg3 & Henc3 & Hsend3);
    [by destruct Rba|done..|].
  exists idb, b1, p2. split_and!; try done; try lia.
  - apply (lookup_insert_eq (p2p_stream_sessions b)).
  - cbn. by rewrite app_nil_r, <- app_assoc.
  - by exists body2.
  - intros q (Hty & (body & Hm & Hf) & Hs). split.
    + exact (dispatch_syn b q _ f es _ b0 Hty Hm Hf Hs eq_refl (Hacc _ Henc2) _ Hsend2).
    + assert (find_session (p2p_stream_sessions b1) (message_from a sp dp body) f = Some idb) as Hfound.
      { apply find_session_new; [apply Hnone|done|]. unfold is_session_of. cbn.
        by rewrite !Z.eqb_refl, bool_decide_eq_true_2. }
      pose proof (accept_again b1 (message_from a sp dp body) f idb Hb1 Hfound body3 Henc3) as Hag.
      eexists _, p3. split; [exact (dispatch_syn b1 q _ f [] _ b1 Hty Hm Hf Hs eq_refl Hag _ Hsend3)|].
      split; [done|]. cbn. by rewrite app_nil_r.
Qed.

(** [a] opens a stream to [b] and the handshake runs. *)
Lemma handshake a b dst dp sp bound :
  p2p_wf a -> p2p_wf b -> reaches a b -> reaches b a -> hostname dst = name_of b -> is_u32 (address dst) ->
  p2p_target_address_bound (board a) (announcers a) dst = Some bound ->
  (forall e, address_book (board a) !! name_of b = Some e -> address e = number_of b) ->
  0 < dp <= u16_max -> 0 < sp <= u16_max ->
  Z.of_nat (size (p2p_stream_sessions a)) < u32_max -> Z.of_nat (size (p2p_stream_sessions b)) < u32_max ->
  (forall id s, p2p_stream_sessions b !! id = Some s -> peer_hostname s <> name_of a) ->
  exists ida idb a1 b1 syn synack, open_to dst dp sp a = Some (Ok ida, a1) /\
    actions a1 = actions a ++ [Transmit syn (sender_hash (name_of b))] /\
    actions b1 = actions b ++ Transmit synack (sender_hash (name_of a)) ::
      map (fun h => HandleEvent h (sent_event Accepted a ida idb 0 (accepted a sp dp ida) [])) (stream_handlers_of b dp) /\
    (forall q, arrives syn q b -> dispatch q b = Some (Ok tt, b1) /\
       exists b2 again, dispatch q b1 = Some (Ok tt, b2) /\ p2p_stream_sessions b2 = p2p_stream_sessions b1 /\
         actions b2 = actions b1 ++ [Transmit again (sender_hash (name_of a))]) /\
    (forall r, arrives synack r a -> exists a2, dispatch r a1 = Some (Ok tt, a2) /\ p2p_wf a2 /\ p2p_wf b1 /\
       actions a2 = actions a1 ++
         map (fun h => HandleEvent h (sent_event Connected b idb ida 0 (answered b sp dp idb) [])) (stream_handlers_of a sp) /\
       paired a2 b1 ida idb (answered b sp dp idb) (accepted a sp dp ida)).
Proof using schema attached transmitted handled.
  intros Ha Hb Rab Rba Hd Hda Hbound Hbook Hdp Hsp Hsza Hszb Hnew.
  destruct (open_sends a b dst dp sp bound) as (ida & next & nonce & syn & body & Hida & Hnext & Hfree & Hopen & Hty & Hsn & Hdec & Hseg);
    try done.
  destruct (syn_accepted a b sp dp ida) as (idb & b1 & synack & Hidb & Hb1 & Hbb & Hsb & Hact & Hty2 & Hsn2 & (body2 & Hdec2 & Hseg2) & Hq);
    try done; [apply Ha|unfold_u; lia|].
  set (a1 := act (Transmit syn (sender_hash (name_of b))) (set_nonce nonce (with_session ida (opened dst sp dp bound) next a))).
  assert (p2p_wf a1) as Ha1.
  { assert (p2p_wf (with_session ida (opened dst sp dp bound) next a)) as [[] ? ?]; [|by constructor; [constructor|..]].
    apply wf_with_session; try done. constructor; cbn; try done. split; unfold_u; lia. }
  exists ida, idb, a1, b1, syn, synack. do 3 (split; [done|]). split.
  - intros q (Hqt & Hqp & Hqs). apply Hq. split; [by rewrite Hqt|]. split; [exists body; by rewrite Hqp|by rewrite <- Hsn].
  - intros r (Hrt & Hrp & Hrs). eexists. split.
    { apply (answer_received a1 b r dst sp dp bound ida idb next body2); try done;
        [apply (lookup_insert_eq (p2p_stream_sessions a))|by rewrite Hrt|by rewrite Hrp|by rewrite <- Hsn2]. }
    split.
    { apply wf_act_all, wf_with_session; try done. constructor; cbn; [apply Hb|split; unfold_u; lia|unfold_u; lia|done]. }
    split; [done|]. split; [done|]. split_and!; [|by constructor; rewrite ?Hbb|done..].
    constructor; rewrite ?Hbb; try done. apply (lookup_insert_eq (p2p_stream_sessions a1)).
Qed.
End Conversation.

(** C13: a board that opens a stream to another one gets an id, and
    when the two segments of the handshake arrive both have a connected session bound
    to the other's, after one event at each end; a repeated [SYN] is answered again
    and changes nothing. *)
Theorem stream_handshake reg tun ts now attach transmit on_message on_event a b dst dp sp bound :
  element (message_meta reg ty_P2pMessage) = Dynamic UInt8 CData ->
  (forall p t, attach p t = Ok tt) -> (forall p t, transmit p t = Ok tt) -> (forall h e, on_event h e = Ok tt) ->
  p2p_wf a -> p2p_wf b -> reaches a b -> reaches b a -> hostname dst = name_of b -> is_u32 (address dst) ->
  p2p_target_address_bound (board a) (announcers a) dst = Some bound ->
  (forall e, address_book (board a) !! name_of b = Some e -> address e = number_of b) ->
  0 < dp <= u16_max -> 0 < sp <= u16_max ->
  Z.of_nat (size (p2p_stream_sessions a)) < u32_max -> Z.of_nat (size (p2p_stream_sessions b)) < u32_max ->
  (forall id s, p2p_stream_sessions b !! id = Some s -> peer_hostname s <> name_of a) ->
  let dispatch := dispatch_p2p_packet reg tun ts now attach transmit on_message on_event in
  exists ida idb a1 b1 syn synack,
    open_p2p_stream_to_entry reg tun ts now attach transmit on_message on_event dst dp sp a = Some (Ok ida, a1) /\
    actions a1 = actions a ++ [Transmit syn (sender_hash (name_of b))] /\
    actions b1 = actions b ++ Transmit synack (sender_hash (name_of a)) ::
      map (fun h => HandleEvent h (sent_event Accepted a ida idb 0 (accepted a sp dp ida) [])) (stream_handlers_of b dp) /\
    (forall q, arrives syn q b -> dispatch q b = Some (Ok tt, b1) /\
       exists b2 again, dispatch q b1 = Some (Ok tt, b2) /\ p2p_stream_sessions b2 = p2p_stream_sessions b1 /\
         actions b2 = actions b1 ++ [Transmit again (sender_hash (name_of a))]) /\
    (forall r, arrives synack r a -> exists a2, dispatch r a1 = Some (Ok tt, a2) /\ p2p_wf a2 /\ p2p_wf b1 /\
       actions a2 = actions a1 ++
         map (fun h => HandleEvent h (sent_event Connected b idb ida 0 (answered b sp dp idb) [])) (stream_handlers_of a sp) /\
       paired a2 b1 ida idb (answered b sp dp idb) (accepted a sp dp ida)).
Proof. intros. by eapply handshake. Qed.

(** C12: over a connected pair of sessions, in either direction, the
    segment that an end sends is reported at the other end, once to each handler of
    its port and in their order, under the right session with the sequence number,
    the sender and the bytes it was sent with; data keeps the pair connected, and a
    close or a reset ends both sessions. *)
Theorem stream_delivery reg tun ts now attach transmit on_message on_event a b ida idb sa sb fs pl :
  element (message_meta reg ty_P2pMessage) = Dynamic UInt8 CData ->
  (forall p t, attach p t = Ok tt) -> (forall p t, transmit p t = Ok tt) -> (forall h e, on_event h e = Ok tt) ->
  p2p_wf a -> p2p_wf b -> reaches a b -> paired a b ida idb sa sb -> 0 < peer_port sa -> control_ok fs ->
  bytes_ok pl -> zlen pl + 22 <= u32_max ->
  exists p a', send_p2p_stream_control reg tun ts now attach transmit on_message on_event ida fs pl a = Some (Ok tt, a') /\
    p2p_wf a' /\ actions a' = actions a ++ [Transmit p (sender_hash (name_of b))] /\
    forall q, arrives p q b -> exists b',
      dispatch_p2p_packet reg tun ts now attach transmit on_message on_event q b = Some (Ok tt, b') /\ p2p_wf b' /\
      actions b' = actions b ++ map (fun h => HandleEvent h (sent_event (segment_kind fs) a ida idb (next_sequence sa) sb pl))
                                  (stream_handlers_of b (local_port sb)) /\
      (if bool_decide (fs = P2P_STREAM_DATA) then paired a' b' ida idb (bump_sequence sa) sb
       else p2p_stream_sessions a' !! ida = None /\ p2p_stream_sessions b' !! idb = None).
Proof. intros. by eapply segment_delivered. Qed.

(** ** Isolation *)

(** What a step does not touch: the session [id], and its events. *)
Definition others (id : P2pStreamId) (events : list PendingP2pStreamEvent) : Prop :=
  Forall (fun e => ev_stream_id (pending_event e) <> id) events.

(** A step as what it does to its state. *)
Ltac run_step := unfold services, gets, modify, lift, fails, insert_session, remove_session, mret, p2p_ret, mbind, p2p_bind.

Section Isolation.
Context (st : P2pState) (id : P2pStreamId) (s : P2pStreamSession) (held : p2p_stream_sessions st !! id = Some s).
Context (m : P2pDecoded) (f : P2pStreamDecoded) (stranger : peer_hostname s <> source_hostname m).

Abbreviation apart_from r st' :=
  (p2p_stream_sessions st' !! id = Some s /\ board st' = board st /\ actions st' = actions st /\
   forall events reply, r = Ok (events, reply) -> others id events).

Lemma stream_id_loop_free fuel sessions : forall next,
  let '(i, _) := stream_id_loop fuel sessions next in i = 0 \/ sessions !! i = None.
Proof.
  induction fuel as [|fuel IH]; intros next; cbn [stream_id_loop]; [by left|].
  case_bool_decide; [by right|apply IH].
Qed.

Lemma not_bound : session_bound (address_book (board st)) (p2p_stream_sessions st) id m f = false.
Proof using held stranger.
  unfold session_bound, p2p_session_tuple_matches. rewrite held. by rewrite bool_decide_eq_false_2.
Qed.

(** A branch that reports nothing. *)
Ltac quiet :=
  intros [= <- <-]; split; [split_and!; try done; intros ? ? [= <- _]; constructor|by intros ? ? [= _ <-]].

Lemma accept_others now r st' :
  accept_session m f now st = Some (r, st') ->
  apart_from r st' /\ forall events dst dp sp pl, r = Ok (events, Some (dst, dp, sp, pl)) ->
    dst = peer_entry st (source_hostname m) (source_address m) now.
Proof using held.
  unfold accept_session, allocate_p2p_stream_id. run_step. destruct (local_services (board st)) eqn:Hsv; [|done]. cbn [Datatypes.id].
  destruct (find_session _ m f) as [i|] eqn:Ef.
  - destruct (encode_p2p_stream_payload _ i _ _ _); intros [= <- <-];
      (split; [split_and!; try done; intros ? ? [= <- _]; constructor|by intros ? ? ? ? ? [= _ <- _ _ _]]).
  - cbv beta. rewrite Hsv. cbv beta iota zeta. cbn [Datatypes.id].
    pose proof (stream_id_loop_free (Z.to_nat (Z.min u32_max (1 + Z.of_nat (size (p2p_stream_sessions st)))))
                  (p2p_stream_sessions st) (next_p2p_stream_id st)) as Hfree.
    destruct (stream_id_loop _ _ _) as [i next]. destruct (Z.eqb_spec i 0) as [|Hz].
    + by intros [= <- <-].
    + destruct Hfree as [|Hfree]; [done|]. assert (i <> id) as Hne by (intros ->; congruence). unfold modify, lift. cbv beta iota.
      destruct (encode_p2p_stream_payload _ i _ _ _); intros [= <- <-];
        (split; [split_and!; cbn; try done; try (by rewrite lookup_insert_ne by done); intros ? ? [= <- _]; (solve [constructor]||by apply Forall_singleton)
                |by intros ? ? ? ? ? [= _ <- _ _ _]]).
Qed.

Lemma connect_others r st' :
  connect_session m f st = Some (r, st') -> apart_from r st' /\ forall events reply, r = Ok (events, reply) -> reply = None.
Proof using held stranger.
  unfold connect_session. run_step. destruct (_ =? 0).
  { quiet. }
  destruct (local_services (board st)) eqn:Hsv; [|done]. cbn [Datatypes.id].
  destruct (decide (destination_stream_id f = id)) as [->|Hne].
  - rewrite not_bound. cbn [negb]. quiet.
  - destruct (negb _).
    { quiet. }
    destruct (p2p_stream_sessions st !! destination_stream_id f); intros [= <- <-];
      (split; [|by intros ? ? [= _ <-]]); split_and!; cbn; try done; try (by rewrite lookup_insert_ne by done);
      intros ? ? [= <- _]; (solve [constructor]||by apply Forall_singleton).
Qed.

Lemma use_others r st' :
  use_session m f st = Some (r, st') -> apart_from r st' /\ forall events reply, r = Ok (events, reply) -> reply = None.
Proof using held stranger.
  unfold use_session. run_step. destruct (local_services (board st)) eqn:Hsv; [|done]. cbn [Datatypes.id].
  destruct (if _ : bool then _ else _) as [i|].
  2: { quiet. }
  destruct (decide (i = id)) as [->|Hne].
  - rewrite not_bound. cbn [negb]. quiet.
  - destruct (negb _).
    { quiet. }
    destruct (p2p_stream_sessions st !! i); [|done].
    case_bool_decide; intros [= <- <-];
      (split; [|by intros ? ? [= _ <-]]); split_and!; cbn; try done; try (by rewrite lookup_delete_ne by done);
      intros ? ? [= <- _]; (solve [constructor]||by apply Forall_singleton).
Qed.

Lemma step_others now r st' :
  (forall n e, address_book (board st) !! n = Some e -> hostname e = n) ->
  stream_step m f now st = Some (r, st') ->
  apart_from r st' /\ forall events dst dp sp pl, r = Ok (events, Some (dst, dp, sp, pl)) -> hostname dst = source_hostname m.
Proof using held stranger.
  intros Hk. unfold stream_step. destruct (_ && _).
  { intros [H1 H2]%accept_others. split; [done|]. intros events dst dp sp pl Hr. rewrite (H2 _ _ _ _ _ Hr). unfold peer_entry.
    destruct (address_book _ !! _) as [e|] eqn:E; [by apply Hk|done]. }
  destruct (_ && _).
  { intros [H1 H2]%connect_others. split; [done|]. intros events dst dp sp pl Hr. by specialize (H2 _ _ Hr). }
  destruct (has_flag _ _).
  { intros [H1 H2]%use_others. split; [done|]. intros events dst dp sp pl Hr. by specialize (H2 _ _ Hr). }
  intros [= <- <-]. split; [split_and!; try done; intros ? ? [= <- _]; constructor|by intros ? ? ? ? ? [= _ ?]].
Qed.
End Isolation.

(** The actions that a step adds concern no event of [id]. *)
Definition adds (id : P2pStreamId) (st st' : P2pState) : Prop :=
  exists l, actions st' = actions st ++ l /\ forall h e, HandleEvent h e ∈ l -> ev_stream_id e <> id.

Lemma adds_same id st st' : actions st' = actions st -> adds id st st'.
Proof. intros H. exists []. rewrite app_nil_r. split; [done|]. by intros h e ?%not_elem_of_nil. Qed.

Lemma adds_trans id st1 st2 st3 : adds id st1 st2 -> adds id st2 st3 -> adds id st1 st3.
Proof.
  intros (l & H1 & H2) (k & H3 & H4). exists (l ++ k). rewrite H3, H1, app_assoc. split; [done|].
  intros h e [H|H]%elem_of_app; eauto.
Qed.

Lemma adds_act id a st : (forall h e, a = HandleEvent h e -> ev_stream_id e <> id) -> adds id st (act a st).
Proof. intros Ha. exists [a]. split; [done|]. intros h e H%list_elem_of_singleton. by eapply Ha. Qed.

Section IsolatedRuns.
Context (reg : Registry) (tun : Tuning) (ts now : Z) (attach transmit : Packet -> Z -> result unit).
Context (on_message : Handler -> P2pDecoded -> result unit) (on_event : Handler -> P2pStreamEvent -> result unit).

Lemma send_others n dst dp sp pl st r st' id :
  sender_hash (hostname dst) <> sender_hash (protocol_sender (board st)) ->
  send_n reg tun ts now attach transmit on_message on_event n dst dp sp pl st = Some (r, st') ->
  p2p_stream_sessions st' = p2p_stream_sessions st /\ adds id st st'.
Proof.
  intros Hfar Hrun. assert (exists d, send_p2p_with reg tun ts attach transmit d dst dp sp pl st = Some (r, st')) as [d H]
    by (destruct n; eauto).
  revert H. unfold send_p2p_with. destruct (dp =? 0); [intros [= _ <-]; split; [done|by apply adds_same]|].
  run_step. cbn [Datatypes.id]. destruct (encode_p2p_payload _ _ _ _ _); [|intros [= _ <-]; split; [done|by apply adds_same]].
  destruct (packet_new _ _ _ _ _ _ _ _) as [[p|e] c]; [|intros [= _ <-]; split; [done|by apply adds_same]].
  destruct (attach _ _); [|intros [= _ <-]; split; [done|by apply adds_same]].
  rewrite (proj2 (Z.eqb_neq _ _)) by done. intros [= _ <-]. split; [done|].
  apply (adds_trans _ _ (set_nonce c st)); [by apply adds_same|]. by apply adds_act.
Qed.

Lemma call_all_others {A} (call : Handler -> A -> P2pAction) answer a id hs : forall st r st',
  (forall h h' e, call h a = HandleEvent h' e -> ev_stream_id e <> id) ->
  call_all call answer a hs st = Some (r, st') ->
  p2p_stream_sessions st' = p2p_stream_sessions st /\ adds id st st'.
Proof.
  induction hs as [|h hs IH]; intros st r st' Hc; cbn [call_all]; [intros [= _ <-]; split; [done|by apply adds_same]|].
  run_step. assert (adds id st (act (call h a) st)) as H1 by (apply adds_act; intros; by eapply Hc).
  destruct (answer h a); [|intros [= _ <-]; by split].
  intros [H2 H3]%IH; [|done]. split; [done|by eapply adds_trans].
Qed.

Lemma call_events_others events id : forall st r st',
  others id events -> call_events on_event events st = Some (r, st') ->
  p2p_stream_sessions st' = p2p_stream_sessions st /\ adds id st st'.
Proof.
  induction events as [|e events IH]; intros st r st' Ho; cbn [call_events];
    [intros [= _ <-]; split; [done|by apply adds_same]|].
  apply Forall_cons in Ho as [He Ho]. unfold mbind, p2p_bind.
  destruct (call_all _ _ _ _ st) as [[[u|err] st1]|] eqn:E; [| |done].
  - apply (call_all_others _ _ _ id) in E as [E1 E2]; [|by intros h h' e' [= _ <-]].
    intros [H1 H2]%IH; [|done]. split; [congruence|by eapply adds_trans].
  - apply (call_all_others _ _ _ id) in E as [E1 E2]; [|by intros h h' e' [= _ <-]].
    intros [= _ <-]. by split.
Qed.
End IsolatedRuns.

(** C14: a packet that the router does not attribute to the peer of a
    session changes nothing of that session and causes no event of it, whatever the
    packet says. *)
Theorem stream_isolation reg tun ts now attach transmit on_message on_event st q id s r st' :
  (forall n e, address_book (board st) !! n = Some e -> hostname e = n) ->
  p2p_stream_sessions st !! id = Some s ->
  sender_matches_hostname (board st) (announcers st) (sender q) (peer_hostname s) = false ->
  (forall d, decode_p2p_payload (payload q) = Ok d ->
     sender_hash (source_hostname d) <> sender_hash (protocol_sender (board st))) ->
  dispatch_p2p_packet reg tun ts now attach transmit on_message on_event q st = Some (r, st') ->
  p2p_stream_sessions st' !! id = Some s /\
  exists l, actions st' = actions st ++ l /\ forall h e, HandleEvent h e ∈ l -> ev_stream_id e <> id.
Proof.
  intros Hk Hs Hq Hfar. unfold dispatch_p2p_packet, dispatch_p2p_packet_with. change (exists l, _) with (adds id st st').
  destruct (negb _); [intros [= _ <-]; split; [done|by apply adds_same]|].
  unfold lift at 1. unfold mbind at 1, p2p_bind at 1. destruct (decode_p2p_payload (payload q)) as [m|];
    [|intros [= _ <-]; split; [done|by apply adds_same]].
  unfold lift at 1. unfold mbind at 1, p2p_bind at 1. destruct (decode_p2p_stream_payload (p2p_body m)) as [[f|]|];
    [| |intros [= _ <-]; split; [done|by apply adds_same]].
  - unfold gets, mbind at 1, p2p_bind at 1. cbn [Datatypes.id].
    destruct (sender_matches_hostname _ _ _ (source_hostname m)) eqn:Hm; cbn [negb];
      [|intros [= _ <-]; split; [done|by apply adds_same]].
    assert (peer_hostname s <> source_hostname m) as Hne by (intros He; congruence).
    unfold dispatch_p2p_stream_frame, mbind at 1, p2p_bind at 1.
    destruct (stream_step m f now st) as [[[[events reply]|e] st1]|] eqn:Hstep; [| |done];
      apply (step_others st id s Hs m f Hne) in Hstep as ((H1 & H2 & H3 & H4) & H5); [|done| |done].
    2: { intros [= _ <-]. split; [done|by apply adds_same]. }
    specialize (H4 _ _ eq_refl). unfold mbind, p2p_bind.
    assert (adds id st st1) as S0 by (by apply adds_same). destruct reply as [[[[dst dp] sp] pl]|].
    + assert (sender_hash (hostname dst) <> sender_hash (protocol_sender (board st1))) as Hd
        by (rewrite (H5 _ _ _ _ _ eq_refl), H2; by apply Hfar).
      unfold send_p2p_to_entry. destruct (send_n _ _ _ _ _ _ _ _ _ dst dp sp pl st1) as [[[u|e] st2]|] eqn:E; [| |done];
        destruct (send_others _ _ _ _ _ _ _ _ _ _ _ _ _ _ _ _ id Hd E) as [S1 S2].
      * intros [E1 E2]%(call_events_others on_event events id); [|done]. rewrite E1, S1. split; [done|].
        eapply adds_trans; [exact S0|by eapply adds_trans].
      * intros [= _ <-]. rewrite S1. split; [done|by eapply adds_trans].
    + intros [E1 E2]%(call_events_others on_event events id); [|done]. rewrite E1. split; [done|by eapply adds_trans].
  - run_step. destruct (local_services (board st)); [|done]. cbn [Datatypes.id].
    intros [E1 E2]%(call_all_others _ _ _ id); [|by intros]. by rewrite E1.
Qed.

(** ** Two boards *)

(** A board that has heard of the other in a summary of the network only. *)
Definition sample_p2p (n peer : Name) (seq : Z) : P2pState :=
  {| board := new_identity true n ModeDynamic seq 1; announcers := [(peer, [])];
     p2p_port_handlers := {[9 := [3; 4]%nat]}; p2p_stream_handlers := {[9 := [1; 2]%nat; 7 := [5]%nat]};
     p2p_stream_sessions := ∅; next_p2p_stream_id := 1; nonce_counter := 0; actions := [] |}.

Definition node_board : P2pState := sample_p2p (str "node") (str "gps") 1.
Definition gps_board : P2pState := sample_p2p (str "gps") (str "node") 2.

Lemma sample_book n peer seq :
  address_book (board (sample_p2p n peer seq)) = {[n := local_address (board (sample_p2p n peer seq))]}.
Proof. done. Qed.

Lemma sample_p2p_wf n peer seq :
  utf8_valid n = true -> bytes_ok n -> p2p_wf (sample_p2p n peer seq).
Proof.
  intros Ht Hb. constructor; [|by vm_compute|by intros ? ? ?].
  assert (is_u32 (fallback_address_for_hostname n)) as Ha by apply fallback_range.
  constructor; try done. intros m e. rewrite sample_book. by intros [<- <-]%lookup_singleton_Some.
Qed.

Lemma node_wf : p2p_wf node_board.
Proof. apply sample_p2p_wf; [reflexivity|]. repeat (apply Forall_cons; split; [by vm_compute|]). by apply Forall_nil. Qed.
Lemma gps_wf : p2p_wf gps_board.
Proof. apply sample_p2p_wf; [reflexivity|]. repeat (apply Forall_cons; split; [by vm_compute|]). by apply Forall_nil. Qed.

Lemma node_reaches : reaches node_board gps_board.
Proof.
  constructor; [vm_compute; discriminate| |by vm_compute].
  intros e He. unfold node_board, gps_board in He. rewrite sample_book in He. by apply lookup_singleton_Some in He as [? _].
Qed.
Lemma gps_reaches : reaches gps_board node_board.
Proof.
  constructor; [vm_compute; discriminate| |by vm_compute].
  intros e He. unfold node_board, gps_board in He. rewrite sample_book in He. by apply lookup_singleton_Some in He as [? _].
Qed.

(** What the handlers and the rest of the router answer here. *)
Abbreviation fine2 := (fun _ _ => Ok tt).

Definition gps_entry : AddressBookEntry := named_entry (str "gps") (sender_address_u32 (str "gps")) 4.

Lemma stream_handshake_witness :
  exists ida a1, open_p2p_stream_to_entry initial_registry sample_tuning 0 4 fine2 fine2 fine2 fine2 gps_entry 9 7 node_board
    = Some (Ok ida, a1).
Proof.
  destruct (stream_handshake initial_registry sample_tuning 0 4 fine2 fine2 fine2 fine2 node_board gps_board gps_entry 9 7 false)
    as (ida & idb & a1 & b1 & syn & synack & H & _).
  - vm_compute. reflexivity.
  - reflexivity.
  - reflexivity.
  - reflexivity.
  - apply node_wf.
  - apply gps_wf.
  - apply node_reaches.
  - apply gps_reaches.
  - reflexivity.
  - apply sender_address_range.
  - vm_compute. reflexivity.
  - intros e He. unfold node_board, gps_board in He. rewrite sample_book in He. by apply lookup_singleton_Some in He as [? _].
  - by vm_compute.
  - by vm_compute.
  - by vm_compute.
  - by vm_compute.
  - intros id s Hs. vm_compute in Hs. discriminate Hs.
  - exists ida, a1. exact H.
Defined.

(** The two boards after a handshake. *)
Definition open_pair (ida idb : Z) : P2pState * P2pState :=
  (set_sessions {[ida := answered gps_board 7 9 idb]} 2 node_board,
   set_sessions {[idb := accepted node_board 7 9 ida]} 2 gps_board).

Lemma open_pair_wf (swap : bool) : p2p_wf ((if swap then snd else fst) (open_pair 1 1)).
Proof.
  destruct swap; (constructor; [|by vm_compute|]).
  1: constructor; apply (wf_board _ gps_wf). 2: constructor; apply (wf_board _ node_wf).
  all: intros id s Hs; unfold open_pair in Hs; cbn [fst snd set_sessions p2p_stream_sessions] in Hs;
    apply lookup_singleton_Some in Hs as [<- <-]; (split; [by vm_compute|]);
    (constructor; [by vm_compute|split; by vm_compute|by vm_compute|by vm_compute]).
Qed.

Lemma stream_delivery_witness :
  exists p a', send_p2p_stream_control initial_registry sample_tuning 0 4 fine2 fine2 fine2 fine2 1 P2P_STREAM_DATA [10; 20]
      (fst (open_pair 1 1)) = Some (Ok tt, a') /\ actions a' = [Transmit p (sender_hash (str "gps"))].
Proof.
  destruct (stream_delivery initial_registry sample_tuning 0 4 fine2 fine2 fine2 fine2 (fst (open_pair 1 1)) (snd (open_pair 1 1))
              1 1 (answered gps_board 7 9 1) (accepted node_board 7 9 1) P2P_STREAM_DATA [10; 20])
    as (p & a' & H1 & _ & H2 & _).
  - vm_compute. reflexivity.
  - reflexivity.
  - reflexivity.
  - reflexivity.
  - apply (open_pair_wf false).
  - apply (open_pair_wf true).
  - destruct node_reaches. by constructor.
  - split_and!; [constructor; reflexivity|constructor; reflexivity|reflexivity|reflexivity].
  - reflexivity.
  - by left.
  - repeat (apply Forall_cons; split; [by vm_compute|]). by apply Forall_nil.
  - by vm_compute.
  - exists p, a'. split; [exact H1|exact H2].
Defined.

Lemma p2p_requests_witness :
  exists result st', serve initial_registry sample_tuning 0 4 fine2 fine2 fine2 fine2 (SendToHostname (str "gps") 9 7 [1; 2]) node_board
    = Some (result, st') /\ p2p_wf st'.
Proof.
  apply p2p_requests; [apply node_wf|]. split_and!; try (by vm_compute).
  repeat (apply Forall_cons; split; [by vm_compute|]). by apply Forall_nil.
Defined.

(** A packet of a third board that names the session of another. *)
Definition intruder (body : bytes) : Packet :=
  {| ty := ty_P2pMessage; data_size := zlen body; sender := str "rogue"; pkt_endpoints := [ep_Discovery]; timestamp := 0;
     nonce := 0; payload := body; wire_shape := None; wire_target_senders_opt := None |}.
Definition intruder_frame : bytes :=
  Eval vm_compute in
    match encode_p2p_stream_payload P2P_STREAM_RST 1 1 1 [] with
    | Ok seg => match encode_p2p_payload (str "rogue") 77 9 7 seg with Ok b => b | Err _ => [] end
    | Err _ => []
    end.

Lemma stream_isolation_witness :
  exists r st', dispatch_p2p_packet initial_registry sample_tuning 0 4 fine2 fine2 fine2 fine2 (intruder intruder_frame)
                  (fst (open_pair 1 1)) = Some (r, st') /\
    p2p_stream_sessions st' !! 1 = Some (answered gps_board 7 9 1).
Proof.
  eexists _, _. split; [vm_compute; reflexivity|].
  eapply (stream_isolation initial_registry sample_tuning 0 4 fine2 fine2 fine2 fine2 (fst (open_pair 1 1)) (intruder intruder_frame) 1
            (answered gps_board 7 9 1)).
  - intros n e. change (board (fst (open_pair 1 1))) with (board node_board). unfold node_board. rewrite sample_book.
    by intros [<- <-]%lookup_singleton_Some.
  - vm_compute. reflexivity.
  - vm_compute. reflexivity.
  - intros d Hd. vm_compute in Hd. injection Hd as <-. vm_compute. discriminate.
  - vm_compute. reflexivity.
Defined.

(** A message of an application that starts with the four bytes of a segment is taken
    for one: it does not reach the handlers of its port. *)
Definition handed_over (pl : bytes) : option (result unit * list P2pAction) :=
  '(r, st) ← send_p2p_to_entry initial_registry sample_tuning 0 4 fine2 fine2 fine2 fine2
               (local_address (board node_board)) 9 7 pl node_board;
  Some (r, actions st).

Lemma plain_message_delivered :
  exists m, handed_over (str "SDS") = Some (Ok tt, [HandleMessage 3 m; HandleMessage 4 m]).
Proof. eexists. vm_compute. reflexivity. Qed.
Lemma message_taken_for_segment : handed_over (str "SDSP") = Some (Err (Unpack "p2p stream frame short"), []).
Proof. vm_compute. reflexivity. Qed.
