(* ===== verification/PayloadCodec.v ===== *)
(** * The codec ledger of a side (src/src/payload_codec.rs)

    Whether compressed payloads may be sent over a side: only while every board
    that has been heard on it lately is known to decode them.  The ledger keeps a
    record of each board that has advertised itself, a few slots for numbers that
    were heard and are not known, and a cached answer with the time it is good for.
    Also the credit that an expanded payload holds while it is out of its queue. *)

From S2P Require Import Prelude Schema Packet DiscoveryWire DiscoveryCodec.

Open Scope Z_scope.

Record Peer : Type := {
  p_sender : bytes;
  p_address : Z;
  p_alias : Z;
  p_owner : Z;
  p_birth : Z;
  p_last_seen : Z;
  p_supported : bool;
  p_confirmed : bool;
}.

Record Slot : Type := { slot_address : Z; slot_until : Z }.
Definition empty_slot : Slot := {| slot_address := 0; slot_until := 0 |}.

Record Ledger : Type := {
  peers : list Peer;
  peers_capacity : Z;
  names_bytes : Z;
  slots : list Slot;
  overflow_until : Z;
  codec_allowed : bool;
  ambiguous : bool;
  recheck_collisions : bool;
  next_expiry : Z;
  generation : Z;
}.

Definition ledger_default : Ledger :=
  {| peers := []; peers_capacity := 0; names_bytes := 0; slots := replicate 4 empty_slot; overflow_until := 0;
     codec_allowed := false; ambiguous := false; recheck_collisions := false; next_expiry := 0; generation := 0 |}.

(** [changed]. *)
Definition bump (l : Ledger) : Ledger :=
  {| peers := peers l; peers_capacity := peers_capacity l; names_bytes := names_bytes l; slots := slots l;
     overflow_until := overflow_until l; codec_allowed := codec_allowed l; ambiguous := ambiguous l;
     recheck_collisions := recheck_collisions l; next_expiry := next_expiry l;
     generation := wrap64 (generation l + 1) |}.
Definition bump_if (b : bool) (l : Ledger) : Ledger := if b then bump l else l.

Definition set_verdict (a : bool) (expiry : Z) (l : Ledger) : Ledger :=
  {| peers := peers l; peers_capacity := peers_capacity l; names_bytes := names_bytes l; slots := slots l;
     overflow_until := overflow_until l; codec_allowed := a; ambiguous := ambiguous l;
     recheck_collisions := recheck_collisions l; next_expiry := expiry; generation := generation l |}.
Definition set_slots (s : list Slot) (overflow : Z) (l : Ledger) : Ledger :=
  {| peers := peers l; peers_capacity := peers_capacity l; names_bytes := names_bytes l; slots := s;
     overflow_until := overflow; codec_allowed := codec_allowed l; ambiguous := ambiguous l;
     recheck_collisions := recheck_collisions l; next_expiry := next_expiry l; generation := generation l |}.
Definition set_peers (ps : list Peer) (capacity names : Z) (amb recheck : bool) (l : Ledger) : Ledger :=
  {| peers := ps; peers_capacity := capacity; names_bytes := names; slots := slots l;
     overflow_until := overflow_until l; codec_allowed := codec_allowed l; ambiguous := amb;
     recheck_collisions := recheck; next_expiry := next_expiry l; generation := generation l |}.
(** Records changed in place. *)
Definition edit_peers (ps : list Peer) (l : Ledger) : Ledger :=
  set_peers ps (peers_capacity l) (names_bytes l) (ambiguous l) (recheck_collisions l) l.

Definition seen (now : Z) (p : Peer) : Peer :=
  {| p_sender := p_sender p; p_address := p_address p; p_alias := p_alias p; p_owner := p_owner p; p_birth := p_birth p;
     p_last_seen := now; p_supported := p_supported p; p_confirmed := p_confirmed p |}.
Definition with_trust (supported confirmed : bool) (p : Peer) : Peer :=
  {| p_sender := p_sender p; p_address := p_address p; p_alias := p_alias p; p_owner := p_owner p; p_birth := p_birth p;
     p_last_seen := p_last_seen p; p_supported := supported; p_confirmed := confirmed |}.

(** [binary_search_by] on records in the ascending order of their names: the place of
    a name, or where it would be inserted. *)
Fixpoint search (ps : list Peer) (sender : bytes) : nat + nat :=
  match ps with
  | [] => inr 0%nat
  | p :: ps =>
      match kcmp sender (p_sender p) with
      | Eq => inl 0%nat
      | Lt => inr 0%nat
      | Gt => match search ps sender with inl i => inl (S i) | inr i => inr (S i) end
      end
  end.

(** The place of the first element that passes the test. *)
Fixpoint find_place {A} (test : A -> bool) (l : list A) : option nat :=
  match l with
  | [] => None
  | x :: l => if test x then Some 0%nat else S <$> find_place test l
  end.

Definition replace {A} (i : nat) (x : A) (l : list A) : list A := take i l ++ [x] ++ drop (S i) l.
Definition insert_at {A} (i : nat) (x : A) (l : list A) : list A := take i l ++ [x] ++ drop i l.
Definition remove_at {A} (i : nat) (l : list A) : list A := take i l ++ drop (S i) l.

(** Whether two boards have a number in common. *)
Definition numbers_meet (a1 a2 b1 b2 : Z) : bool := (a1 =? b1) || (a1 =? b2) || (a2 =? b1) || (a2 =? b2).
Definition peers_meet (p q : Peer) : bool := numbers_meet (p_address p) (p_alias p) (p_address q) (p_alias q).
Fixpoint collisions (ps : list Peer) : bool :=
  match ps with
  | [] => false
  | p :: ps => existsb (peers_meet p) ps || collisions ps
  end.

(** The bytes of an [Arc<str>]: the name, two counters, rounded up to words. *)
Definition name_bytes (n : bytes) : Z := (sat_add (zlen n) 16 + 7) / 8 * 8.

Section Ledger.
(** How long a board counts as heard, and the size of a record. *)
Context (ttl peer_size : Z).
(** The answers of the admission probes and of the allocator. *)
Context (admit_bytes : Z -> Z -> result unit) (reserve : bool).

Definition allowed (l : Ledger) (now : Z) : bool := codec_allowed l && (now <=? next_expiry l).
Definition retention_can_stay_compressed (l : Ledger) : bool := codec_allowed l.
Definition heap_bytes (l : Ledger) : Z := peers_capacity l * peer_size + names_bytes l.

Definition live (now : Z) (p : Peer) : bool := sat_sub now (p_last_seen p) <=? ttl.

(** A number that is heard and not known. *)
Definition note_pending (address now : Z) (l : Ledger) : Ledger :=
  let until := sat_add now ttl in
  let l :=
    match find_place (fun s => negb (slot_until s =? 0) && (slot_address s =? address)) (slots l) with
    | Some i => set_slots (replace i {| slot_address := address; slot_until := until |} (slots l)) (overflow_until l) l
    | None =>
        match find_place (fun s => (slot_until s <? now) || (slot_until s =? 0)) (slots l) with
        | Some i =>
            bump (set_slots (replace i {| slot_address := address; slot_until := until |} (slots l)) (overflow_until l) l)
        | None =>
            bump_if ((overflow_until l =? 0) || (overflow_until l <? now))
              (set_slots (slots l) (Z.max (overflow_until l) until) l)
        end
    end in
  let l := bump_if (codec_allowed l) l in
  set_verdict false (Z.min (next_expiry l) until) l.

(** Numbers count only when they mean one live board. *)
Definition unique_address (address now : Z) (l : Ledger) : option nat :=
  let matches p := ((p_address p =? address) || (p_alias p =? address)) && live now p in
  match find_place matches (peers l) with
  | Some i => if existsb matches (drop (S i) (peers l)) then None else Some i
  | None => None
  end.

Definition expire_slot (now : Z) (s : Slot) : Slot := if slot_until s <? now then empty_slot else s.

(** [recompute]: first records and slots whose time is over go, *)
Definition pruned (now : Z) (l : Ledger) : Ledger :=
  let kept := List.filter (live now) (peers l) in
  let removed := foldr (fun p n => name_bytes (p_sender p) + n) 0 (List.filter (fun p => negb (live now p)) (peers l)) in
  let recheck := negb (length (peers l) =? length kept)%nat || recheck_collisions l in
  set_slots (map (expire_slot now) (slots l)) (overflow_until l)
    (set_peers kept (if is_empty kept then 0 else peers_capacity l) (sat_sub (names_bytes l) removed)
       (if recheck then collisions kept else ambiguous l) false l).

Definition no_overflow (now : Z) (l : Ledger) : bool := (overflow_until l =? 0) || (overflow_until l <? now).

(** then the verdict is made *)
Definition verdict (now : Z) (l : Ledger) : bool :=
  negb (is_empty (peers l)) && no_overflow now l && negb (ambiguous l)
  && forallb (fun p => p_confirmed p && p_supported p && negb (p_address p =? 0)) (peers l)
  && forallb (fun s => slot_until s =? 0) (slots l).

(** with the time it is good for. *)
Definition lease_end (now : Z) (l : Ledger) : Z :=
  let expiry := foldr (fun p e => Z.min (sat_add (p_last_seen p) ttl) e) u64_max (peers l) in
  let expiry := foldr (fun s e => if slot_until s =? 0 then e else Z.min (slot_until s) e) expiry (slots l) in
  if no_overflow now l then expiry else Z.min expiry (overflow_until l).

Definition recompute (now : Z) (l : Ledger) : Ledger :=
  let l' := pruned now l in
  let v := verdict now l' in
  set_verdict v (lease_end now l')
    (bump_if (negb (eqb v (codec_allowed l)) || negb (length (peers l) =? length (peers l'))%nat) l').

Definition edit_peer (i : nat) (f : Peer -> Peer) (l : Ledger) : Ledger :=
  match peers l !! i with Some p => edit_peers (replace i (f p) (peers l)) l | None => l end.

Definition observe (address now : Z) (l : Ledger) : Ledger :=
  match unique_address address now l with
  | None => note_pending address now l
  | Some i =>
      let l := edit_peer i (seen now) l in
      if next_expiry l <=? now then recompute now l else l
  end.

Definition revoke_if_unsupported (address : Z) (supported : bool) (now : Z) (l : Ledger) : Ledger :=
  let l := observe address now l in
  if supported then l
  else
    match unique_address address now l with
    | None => l
    | Some i =>
        let l := match peers l !! i with
                 | Some p => if p_supported p then bump (edit_peer i (fun p => with_trust false (p_confirmed p) p) l) else l
                 | None => l
                 end in
        recompute now l
    end.

(** The next power of two, at least four. *)
Definition peers_target (n : nat) : Z := Z.max 4 (2 ^ Z.log2_up (Z.of_nat n + 1)).

(** The slot is for a number of the board that is learned. *)
Definition answered (address alias : Z) (s : Slot) : bool :=
  negb (slot_until s =? 0) && ((slot_address s =? address) || (slot_address s =? alias)).

(** The end of [learn]: slots that the record answers, and the verdict. *)
Definition settle_learned (address alias now : Z) (changed : bool) (l : Ledger) : Ledger :=
  let changed := changed || existsb (answered address alias) (slots l) in
  let l := set_slots (map (fun s => if answered address alias s then empty_slot else s) (slots l)) (overflow_until l) l in
  let l := bump_if changed l in
  if changed || (next_expiry l <=? now) then recompute now l else l.

Definition learn (address : Z) (sender : bytes) (owner birth : Z) (supported : bool) (now : Z) (l : Ledger)
    : result unit * Ledger :=
  let alias := sender_address_u32 sender in
  if is_empty sender then (Ok tt, note_pending address now l)
  else
    match search (peers l) sender with
    | inl i =>
        match peers l !! i with
        | None => (Ok tt, l)
        | Some p =>
            let same := (p_owner p =? owner) && (p_birth p =? birth) in
            let support := if same && p_confirmed p then p_supported p && supported else supported in
            let changed := negb same || negb (p_confirmed p) || negb (eqb support (p_supported p))
                           || negb (p_address p =? address) in
            let p' := {| p_sender := p_sender p; p_address := address; p_alias := alias; p_owner := owner;
                         p_birth := birth; p_last_seen := now; p_supported := support; p_confirmed := true |} in
            let l := set_peers (replace i p' (peers l)) (peers_capacity l) (names_bytes l) (ambiguous l)
                       (recheck_collisions l || negb (p_address p =? address)) l in
            (Ok tt, settle_learned address alias now changed l)
        end
    | inr i =>
        let grow := zlen (peers l) =? peers_capacity l in
        let target := peers_target (length (peers l)) in
        let vector := if grow then sat_mul target peer_size else 0 in
        let text := name_bytes sender in
        match admit_bytes (sat_add (sat_add vector text) 32) (sat_add (Z.max vector text) 32) with
        | Err e => (Err e, note_pending address now l)
        | Ok _ =>
            if grow && negb reserve then (Err (Io "memory pressure"), note_pending address now l)
            else
              let p := {| p_sender := sender; p_address := address; p_alias := alias; p_owner := owner; p_birth := birth;
                          p_last_seen := now; p_supported := supported; p_confirmed := true |} in
              let l := set_peers (insert_at i p (peers l)) (if grow then target else peers_capacity l)
                         (sat_add (names_bytes l) text) (ambiguous l || existsb (peers_meet p) (peers l))
                         (recheck_collisions l) l in
              (Ok tt, settle_learned address alias now true l)
        end
    end.

Definition hint_address (address : Z) (sender : bytes) (owner birth : Z) (supported : bool) (now : Z) (l : Ledger) : Ledger :=
  match search (peers l) sender with
  | inr _ => note_pending (sender_address_u32 sender) now (note_pending address now l)
  | inl i =>
      match peers l !! i with
      | None => l
      | Some p =>
          let different := negb (p_owner p =? owner) || negb (p_birth p =? birth) || negb (p_address p =? address) in
          if (different && p_confirmed p) || (negb supported && p_supported p) then
            let l := edit_peer i (with_trust false (if different then false else p_confirmed p)) l in
            bump (set_verdict false (next_expiry l) l)
          else l
      end
  end.

Definition LINK_CAPABILITY_PAYLOAD_COMPRESSION : Z := 64.

Definition address_payload_seen (payload : bytes) (accepted : bool) (now : Z) (l : Ledger) : result unit * Ledger :=
  match decode_address_view payload with
  | Err e => (Err e, l)
  | Ok ad =>
      let supported := negb (Z.land (lc_flags (view_link_capabilities ad)) LINK_CAPABILITY_PAYLOAD_COMPRESSION =? 0) in
      if accepted then
        learn (view_address ad) (view_hostname ad) (view_owner_hash ad) (view_birth_ms ad) supported now l
      else (Ok tt, hint_address (view_address ad) (view_hostname ad) (view_owner_hash ad) (view_birth_ms ad) supported now l)
  end.

Definition remove_address (address now : Z) (l : Ledger) : Ledger :=
  let l :=
    match unique_address address now l with
    | None => l
    | Some i =>
        match peers l !! i with
        | None => l
        | Some p => bump (set_peers (remove_at i (peers l)) (peers_capacity l)
                            (sat_sub (names_bytes l) (name_bytes (p_sender p))) (ambiguous l) true l)
        end
    end in
  recompute now
    (set_slots (map (fun s => if slot_address s =? address then empty_slot else s) (slots l)) (overflow_until l) l).

Definition discovery_packet_seen (p : Packet) (accepted : bool) (now : Z) (l : Ledger) : result unit * Ledger :=
  if ty p =? ty_DiscoveryAddress then address_payload_seen (payload p) accepted now l
  else if ty p =? ty_DiscoveryLinkCapabilities then
    match decode_discovery_link_capabilities p with
    | Err e => (Err e, l)
    | Ok caps =>
        (Ok tt, revoke_if_unsupported (sender_address_u32 (sender p))
                  (negb (Z.land (lc_flags caps) LINK_CAPABILITY_PAYLOAD_COMPRESSION =? 0)) now l)
    end
  else if (ty p =? ty_DiscoveryLeave) && accepted then (Ok tt, remove_address (sender_address_u32 (sender p)) now l)
  else (Ok tt, l).

(** Every record is forgotten; nothing is allowed until [until]. *)
Definition forget (until : Z) (l : Ledger) : Ledger :=
  bump (set_verdict false until (set_slots (slots l) until (set_peers [] 0 0 false false l))).

Definition evict_for_budget (l : Ledger) : bool * Ledger :=
  if heap_bytes l =? 0 then (false, l)
  else
    let until := foldr Z.max (overflow_until l)
                   (map (fun p => sat_add (p_last_seen p) ttl) (peers l) ++ map slot_until (slots l)) in
    (true, forget until l).

Definition evict (now : Z) (l : Ledger) : Ledger := forget (sat_add now ttl) l.

Definition expire (now : Z) (l : Ledger) : Ledger := if next_expiry l <? now then recompute now l else l.
End Ledger.

(** ** Lists by place *)

Lemma find_place_some {A} (test : A -> bool) l i :
  find_place test l = Some i -> exists x, l !! i = Some x /\ test x = true.
Proof.
  revert i. induction l as [|x l IH]; intros i; cbn [find_place]; [done|].
  destruct (test x) eqn:E; [intros [= <-]; by exists x|].
  destruct (find_place test l) as [j|]; [|done]. intros [= <-]. by apply IH.
Qed.

Lemma find_place_none {A} (test : A -> bool) l : find_place test l = None -> Forall (fun x => test x = false) l.
Proof.
  induction l as [|x l IH]; cbn [find_place]; [by constructor|]. destruct (test x) eqn:E; [done|].
  destruct (find_place test l); [done|]. intros _. constructor; auto.
Qed.

Lemma split_at {A} (l : list A) i x : l !! i = Some x -> l = take i l ++ x :: drop (S i) l.
Proof. intros H. by rewrite <- (take_drop_middle l i x H) at 1. Qed.

Lemma forall_replace {A} (P : A -> Prop) l i x : Forall P l -> P x -> Forall P (replace i x l).
Proof.
  intros Hl Hx. unfold replace. rewrite !Forall_app. split_and!; [by apply Forall_take|by constructor|by apply Forall_drop].
Qed.

Lemma forall_insert_at {A} (P : A -> Prop) l i x : Forall P l -> P x -> Forall P (insert_at i x l).
Proof.
  intros Hl Hx. unfold insert_at. rewrite !Forall_app. split_and!; [by apply Forall_take|by constructor|by apply Forall_drop].
Qed.

Lemma forall_remove_at {A} (P : A -> Prop) l i : Forall P l -> Forall P (remove_at i l).
Proof. intros Hl. unfold remove_at. rewrite Forall_app. split; [by apply Forall_take|by apply Forall_drop]. Qed.

(** What holds of some element still does when another one is replaced, or when it is
    replaced by one of which it holds. *)
Lemma exists_replace {A} (P : A -> Prop) l i x y :
  l !! i = Some x -> (P x -> P y) -> Exists P l -> Exists P (replace i y l).
Proof.
  intros Hi Hxy. rewrite (split_at l i x Hi) at 1. unfold replace. rewrite !Exists_app, !Exists_cons.
  intros [H|[H|H]]; auto.
Qed.

Lemma exists_insert_at {A} (P : A -> Prop) l i y : Exists P l -> Exists P (insert_at i y l).
Proof.
  intros H. rewrite <- (take_drop i l) in H. unfold insert_at. rewrite !Exists_app in *. destruct H; auto.
Qed.

Lemma exists_remove_at {A} (P : A -> Prop) l i x :
  l !! i = Some x -> ~ P x -> Exists P l -> Exists P (remove_at i l).
Proof.
  intros Hi Hx. rewrite (split_at l i x Hi) at 1. unfold remove_at. rewrite !Exists_app, Exists_cons.
  intros [H|[H|H]]; auto. done.
Qed.

Lemma search_found ps s i : search ps s = inl i -> exists p, ps !! i = Some p /\ p_sender p = s.
Proof.
  revert i. induction ps as [|p ps IH]; intros i; cbn [search]; [done|].
  destruct (kcmp s (p_sender p)) eqn:E; [intros [= <-]; exists p; split; [done|by symmetry; apply kcmp_eq]|done|].
  destruct (search ps s) as [j|]; [|done]. intros [= <-]. by apply IH.
Qed.

(** ** Common numbers *)

Lemma peers_meet_sym p q : peers_meet p q = peers_meet q p.
Proof.
  unfold peers_meet, numbers_meet. rewrite (Z.eqb_sym (p_address q) (p_address p)), (Z.eqb_sym (p_address q) (p_alias p)),
    (Z.eqb_sym (p_alias q) (p_address p)), (Z.eqb_sym (p_alias q) (p_alias p)).
  by destruct (p_address p =? p_address q), (p_address p =? p_alias q), (p_alias p =? p_address q), (p_alias p =? p_alias q).
Qed.

Lemma collisions_insert p ps i : collisions (insert_at i p ps) = existsb (peers_meet p) ps || collisions ps.
Proof.
  revert i. induction ps as [|q ps IH]; intros [|i]; try done. unfold insert_at in *. cbn [take drop app collisions existsb].
  rewrite IH, existsb_app. cbn [existsb app]. rewrite (peers_meet_sym q p).
  assert (existsb (peers_meet q) ps = existsb (peers_meet q) (take i ps) || existsb (peers_meet q) (drop i ps)) as ->
    by (by rewrite <- existsb_app, take_drop).
  destruct (peers_meet p q), (existsb (peers_meet q) (take i ps)), (existsb (peers_meet q) (drop i ps)),
    (existsb (peers_meet p) ps), (collisions ps); reflexivity.
Qed.

Definition numbers_of (ps : list Peer) : list (Z * Z) := map (fun p => (p_address p, p_alias p)) ps.

Lemma collisions_numbers ps : forall qs, numbers_of ps = numbers_of qs -> collisions ps = collisions qs.
Proof.
  assert (forall p p' ps qs, p_address p = p_address p' -> p_alias p = p_alias p' -> numbers_of ps = numbers_of qs ->
            existsb (peers_meet p) ps = existsb (peers_meet p') qs) as Hmeet.
  { intros p p' l. induction l as [|x l IH]; intros [|y k] H1 H2 Hn; try done. cbn [numbers_of map] in Hn.
    injection Hn as Hx1 Hx2 Hn. cbn [existsb]. rewrite (IH k H1 H2 Hn). unfold peers_meet. congruence. }
  induction ps as [|p ps IH]; intros [|q qs] Hn; try done. pose proof Hn as Hn'. cbn [numbers_of map] in Hn.
  injection Hn as H1 H2 Hn. cbn [collisions]. by rewrite (IH qs Hn), (Hmeet p q ps qs H1 H2 Hn).
Qed.

Lemma numbers_replace ps i p q :
  ps !! i = Some p -> p_address q = p_address p -> p_alias q = p_alias p -> numbers_of (replace i q ps) = numbers_of ps.
Proof.
  intros Hi H1 H2. rewrite (split_at ps i p Hi) at 2. unfold numbers_of, replace. rewrite !map_app. cbn [map]. by rewrite H1, H2.
Qed.

(** ** The invariant *)

Section Lease.
Context (ttl peer_size : Z) (ttl_pos : 0 <= ttl).
Context (admit_bytes : Z -> Z -> result unit) (reserve : bool).

Abbreviation recompute := (recompute ttl).
Abbreviation note_pending := (note_pending ttl).
Abbreviation observe := (observe ttl).
Abbreviation live := (live ttl).

(** A time whose lease can be represented. *)
Definition time_ok (now : Z) : Prop := 0 <= now /\ now + ttl <= u64_max.

(** The verdict [true] is for records that are all confirmed and support the codec,
    whose leases last to [next_expiry], and for no unknown numbers. *)
Record trusted (l : Ledger) : Prop := {
  tr_peers : peers l <> [];
  tr_apart : collisions (peers l) = false;
  tr_all : Forall (fun p => p_confirmed p = true /\ p_supported p = true /\ p_address p <> 0 /\
                            next_expiry l <= p_last_seen p + ttl) (peers l);
  tr_slots : Forall (fun s => slot_until s = 0) (slots l);
}.

(** The state at the time [t] of the last step. *)
Record ledger_ok (l : Ledger) (t : Z) : Prop := {
  ok_slots : Forall (fun s => 0 <= slot_until s <= t + ttl) (slots l);
  ok_overflow : 0 <= overflow_until l <= t + ttl;
  ok_seen : Forall (fun p => 0 <= p_last_seen p <= t) (peers l);
  ok_alias : Forall (fun p => p_alias p = sender_address_u32 (p_sender p)) (peers l);
  ok_rechecked : recheck_collisions l = false;
  ok_ambiguous : ambiguous l = false -> collisions (peers l) = false;
  ok_verdict : codec_allowed l = true -> trusted l /\ (overflow_until l = 0 \/ overflow_until l < t);
}.

Lemma ledger_ok_later l t t' : ledger_ok l t -> t <= t' -> ledger_ok l t'.
Proof using.
  intros [H1 H2 H3 H4 H5 H6 H7] Ht. constructor; try done.
  - eapply Forall_impl; [exact H1|]. cbn. lia.
  - lia.
  - eapply Forall_impl; [exact H3|]. cbn. lia.
  - intros Ha. destruct (H7 Ha) as [Hi [Ho|Ho]]; split; [done|by left|done|right; lia].
Qed.

(** What a state must satisfy for [recompute]. *)
Record before_recompute (l : Ledger) (t : Z) : Prop := {
  br_slots : Forall (fun s => 0 <= slot_until s <= t + ttl) (slots l);
  br_overflow : 0 <= overflow_until l <= t + ttl;
  br_seen : Forall (fun p => 0 <= p_last_seen p <= t) (peers l);
  br_alias : Forall (fun p => p_alias p = sender_address_u32 (p_sender p)) (peers l);
  br_ambiguous : recheck_collisions l = false -> ambiguous l = false -> collisions (peers l) = false;
}.

Lemma live_spec now p : time_ok now -> 0 <= p_last_seen p <= now -> (live now p = true <-> now <= p_last_seen p + ttl).
Proof using ttl_pos.
  intros Hn Hp. unfold PayloadCodec.live. rewrite Z.leb_le. unfold sat_sub. lia.
Qed.

Lemma filter_same_length {A} (f : A -> bool) l : length (List.filter f l) = length l -> List.filter f l = l.
Proof using.
  induction l as [|x l IH]; cbn [List.filter length]; [done|]. destruct (f x); cbn [length]; intros H.
  - f_equal. apply IH. lia.
  - pose proof (filter_length_le f l). lia.
Qed.

(** A minimum over a list is below each of its terms and its end. *)
Lemma min_below {A} (f : A -> Z) l e :
  foldr (fun x m => Z.min (f x) m) e l <= e /\ Forall (fun x => foldr (fun x m => Z.min (f x) m) e l <= f x) l.
Proof using.
  induction l as [|x l [IH1 IH2]]; cbn [foldr]; [split; [lia|constructor]|]. split; [lia|].
  constructor; [lia|]. eapply Forall_impl; [exact IH2|]. cbn. lia.
Qed.

Lemma slots_min_below l e :
  foldr (fun s e => if slot_until s =? 0 then e else Z.min (slot_until s) e) e l <= e.
Proof using. induction l as [|s l IH]; cbn [foldr]; [lia|]. destruct (_ =? _); lia. Qed.

(** Pruning leaves no unchecked collisions, and nothing that is over. *)
Lemma pruned_ok l now : time_ok now -> before_recompute l now ->
  before_recompute (pruned ttl now l) now /\ recheck_collisions (pruned ttl now l) = false /\
  (ambiguous (pruned ttl now l) = false -> collisions (peers (pruned ttl now l)) = false).
Proof using ttl_pos.
  intros Hn [H1 H2 H3 H4 H5]. set (kept := List.filter (live now) (peers l)).
  assert (forall P, Forall P (peers l) -> Forall P kept) as Hkept.
  { intros P HP. apply Forall_forall. intros p [Hp _]%list_elem_of_In%filter_In. rewrite Forall_forall in HP.
    by apply HP, list_elem_of_In. }
  assert (ambiguous (pruned ttl now l) = false -> collisions kept = false) as Hamb.
  { unfold pruned. cbn [set_slots set_peers ambiguous]. fold kept.
    destruct (negb (length (peers l) =? length kept)%nat || recheck_collisions l) eqn:E; [done|].
    apply orb_false_iff in E as [E1 E2]. apply negb_false_iff, Nat.eqb_eq in E1.
    unfold kept. rewrite filter_same_length by done. by apply H5. }
  split; [constructor|split; [done|exact Hamb]]; try done; try by apply Hkept.
  apply Forall_map. eapply Forall_impl; [exact H1|]. cbn. intros s Hs. unfold expire_slot.
  destruct (slot_until s <? now); cbn; [destruct Hn; lia|done].
Qed.

Lemma lease_end_below now l : Forall (fun p => lease_end ttl now l <= sat_add (p_last_seen p) ttl) (peers l).
Proof using.
  unfold lease_end. destruct (min_below (fun p => sat_add (p_last_seen p) ttl) (peers l) u64_max) as [_ Hp].
  pose proof (slots_min_below (slots l) (foldr (fun p e => Z.min (sat_add (p_last_seen p) ttl) e) u64_max (peers l))) as Hs.
  eapply Forall_impl; [exact Hp|]. cbn. intros p Hle. destruct (no_overflow now l); lia.
Qed.

(** A positive verdict means trust. *)
Lemma verdict_trusted now l : time_ok now -> before_recompute l now ->
  (ambiguous l = false -> collisions (peers l) = false) -> verdict now l = true ->
  trusted (set_verdict true (lease_end ttl now l) l) /\ (overflow_until l = 0 \/ overflow_until l < now).
Proof using ttl_pos.
  intros Hn Hb Hamb. unfold verdict. rewrite !andb_true_iff, !forallb_forall. intros ((((He & Hq) & Ha) & Hall) & Hsl).
  split; [|apply orb_true_iff in Hq as [Hq%Z.eqb_eq|Hq%Z.ltb_lt]; auto].
  constructor; cbn [set_verdict peers slots next_expiry].
  - by destruct (peers l).
  - apply Hamb. by apply negb_true_iff.
  - apply Forall_forall. intros p Hp. pose proof (lease_end_below now l) as Hle. rewrite Forall_forall in Hle.
    pose proof (br_seen _ _ Hb) as Hseen. rewrite Forall_forall in Hseen. specialize (Hle p Hp). specialize (Hseen p Hp).
    apply list_elem_of_In, Hall in Hp. rewrite !andb_true_iff in Hp. destruct Hp as [[Hc Hs] Hz].
    split_and!; [done|done|by apply Z.eqb_neq, negb_true_iff|unfold sat_add in Hle; lia].
  - apply Forall_forall. intros s Hs%list_elem_of_In. by apply Z.eqb_eq, Hsl.
Qed.

Lemma recompute_ok l now : time_ok now -> before_recompute l now -> ledger_ok (recompute now l) now.
Proof using ttl_pos.
  intros Hn Hb. destruct (pruned_ok l now Hn Hb) as (Hb' & Hr & Hamb). unfold PayloadCodec.recompute.
  assert (verdict now (pruned ttl now l) = true -> trusted (set_verdict true (lease_end ttl now (pruned ttl now l)) (pruned ttl now l)) /\
            (overflow_until (pruned ttl now l) = 0 \/ overflow_until (pruned ttl now l) < now)) as Hv
    by (by apply verdict_trusted).
  destruct Hb' as [B1 B2 B3 B4 B5]. unfold bump_if. destruct (_ || _);
    (constructor; [exact B1|exact B2|exact B3|exact B4|exact Hr|exact Hamb|]); intros Hc; cbn [set_verdict codec_allowed] in Hc;
    destruct (Hv Hc) as [[] Ho]; (split; [by constructor|exact Ho]).
Qed.

(** *** Steps *)

Lemma before_of_ok l t : ledger_ok l t -> before_recompute l t.
Proof using. intros []. by constructor. Qed.

Lemma ok_of_before l t :
  before_recompute l t -> recheck_collisions l = false ->
  (codec_allowed l = true -> trusted l /\ (overflow_until l = 0 \/ overflow_until l < t)) -> ledger_ok l t.
Proof using. intros [] Hr Hv. constructor; auto. Qed.

Lemma bump_if_ok b l t : ledger_ok (bump_if b l) t <-> ledger_ok l t.
Proof using. destruct b; [|done]. split; intros []; constructor; try done; intros Hc; destruct (ok_verdict0 Hc) as [[] ?]; by split. Qed.

Lemma before_bump_if b l t : before_recompute (bump_if b l) t <-> before_recompute l t.
Proof using. destruct b; [|done]. split; intros []; by constructor. Qed.

Lemma note_pending_ok a now l : time_ok now -> ledger_ok l now -> ledger_ok (note_pending a now l) now.
Proof using ttl_pos.
  intros [Hn0 Hn] Hl. unfold PayloadCodec.note_pending. set (until := sat_add now ttl).
  assert (0 <= until <= now + ttl) as Hu by (unfold until, sat_add; lia).
  assert (forall i, ledger_ok (set_verdict false 0 (set_slots (replace i {| slot_address := a; slot_until := until |} (slots l))
            (overflow_until l) l)) now) as Hslot.
  { intros i. destruct Hl. constructor; try done. by apply forall_replace. }
  assert (forall l1 e, ledger_ok (set_verdict false 0 l1) now -> ledger_ok (set_verdict false e (bump_if (codec_allowed l1) l1)) now) as Hfin.
  { intros l1 e []. destruct (codec_allowed l1); by constructor. }
  apply Hfin. destruct (find_place _ (slots l)); [apply Hslot|].
  destruct (find_place _ (slots l)) as [i|]; [by destruct (Hslot i); constructor|].
  assert (ledger_ok (set_verdict false 0 (set_slots (slots l) (Z.max (overflow_until l) until) l)) now) as Ho.
  { destruct Hl. constructor; try done. cbn. lia. }
  unfold bump_if. destruct (_ || _); [|done]. by destruct Ho; constructor.
Qed.

Lemma unique_address_some a now l i :
  unique_address ttl a now l = Some i ->
  exists p, peers l !! i = Some p /\ (p_address p = a \/ p_alias p = a) /\ live now p = true.
Proof using.
  unfold unique_address. destruct (find_place _ (peers l)) as [j|] eqn:E; [|done]. destruct (existsb _ _); [done|]. intros [= <-].
  apply find_place_some in E as (p & Hp & Ht). exists p. split; [done|]. apply andb_true_iff in Ht as [Ht Hl].
  apply orb_true_iff in Ht as [Ht%Z.eqb_eq|Ht%Z.eqb_eq]; auto.
Qed.

(** A record changed without its numbers and its name. *)
Lemma edit_before i f l t :
  before_recompute l t ->
  (forall p, peers l !! i = Some p -> p_address (f p) = p_address p /\ p_alias (f p) = p_alias p /\
     p_sender (f p) = p_sender p /\ 0 <= p_last_seen (f p) <= t) ->
  before_recompute (edit_peer i f l) t.
Proof using.
  intros [H1 H2 H3 H4 H5] Hf. unfold edit_peer. destruct (peers l !! i) as [p|] eqn:E; [|by constructor].
  destruct (Hf p eq_refl) as (F1 & F2 & F3 & F4). constructor; cbn [edit_peers set_peers slots overflow_until peers
    recheck_collisions ambiguous]; try done.
  - by apply forall_replace.
  - apply forall_replace; [done|]. rewrite F2, F3. rewrite Forall_forall in H4. by apply H4, (list_elem_of_lookup_2 _ i).
  - intros Hr Ha. rewrite (collisions_numbers _ (peers l)); [by apply H5|by apply (numbers_replace _ _ p)].
Qed.

(** A board that is heard again keeps what was known. *)
Lemma edit_seen_ok i f l t now :
  ledger_ok l t -> t <= now -> 0 <= now ->
  (forall p, peers l !! i = Some p -> p_address (f p) = p_address p /\ p_alias (f p) = p_alias p /\
     p_sender (f p) = p_sender p /\ p_last_seen (f p) = now /\ p_supported (f p) = p_supported p /\ p_confirmed (f p) = p_confirmed p) ->
  ledger_ok (edit_peer i f l) now.
Proof using.
  intros Hl Ht Hn Hf. apply ok_of_before.
  - apply edit_before; [by apply before_of_ok, (ledger_ok_later l t)|]. intros p Hp.
    destruct (Hf p Hp) as (F1 & F2 & F3 & F4 & _). split_and!; try done; lia.
  - unfold edit_peer. destruct (peers l !! i); apply Hl.
  - unfold edit_peer. destruct (peers l !! i) as [p|] eqn:E; [|by apply (ledger_ok_later l t)].
    destruct (Hf p eq_refl) as (F1 & F2 & F3 & F4 & F5 & F6). cbn [edit_peers set_peers codec_allowed]. intros Hc.
    destruct (ok_verdict _ _ Hl Hc) as [[T1 T2 T3 T4] Ho]. split; [|destruct Ho; [by left|right; cbn; lia]].
    constructor; cbn [edit_peers set_peers peers slots next_expiry].
    + unfold replace. by destruct (take i (peers l)).
    + rewrite (collisions_numbers _ (peers l)); [done|by apply (numbers_replace _ _ p)].
    + apply forall_replace; [done|]. rewrite Forall_forall in T3. pose proof (list_elem_of_lookup_2 _ _ _ E) as Hin.
      destruct (T3 p Hin) as (S1 & S2 & S3 & S4). pose proof (ok_seen _ _ Hl) as Hs. rewrite Forall_forall in Hs.
      specialize (Hs p Hin). rewrite F1, F4, F5, F6. split_and!; try done. lia.
    + done.
Qed.

Lemma observe_ok a now l t : time_ok now -> t <= now -> ledger_ok l t -> ledger_ok (observe a now l) now.
Proof using ttl_pos.
  intros Hn Ht Hl. unfold PayloadCodec.observe. destruct (unique_address ttl a now l) as [i|].
  - assert (ledger_ok (edit_peer i (seen now) l) now) as H by (apply (edit_seen_ok _ _ _ t); [done|done|apply Hn|done]).
    destruct (_ <=? now); [by apply recompute_ok, before_of_ok|done].
  - by apply note_pending_ok, (ledger_ok_later l t).
Qed.

Lemma revoke_ok a sup now l t : time_ok now -> t <= now -> ledger_ok l t ->
  ledger_ok (revoke_if_unsupported ttl a sup now l) now.
Proof using ttl_pos.
  intros Hn Ht Hl. unfold revoke_if_unsupported. pose proof (observe_ok a now l t Hn Ht Hl) as Ho.
  destruct sup; [done|]. destruct (unique_address ttl a now _) as [i|]; [|done]. apply recompute_ok; [done|].
  destruct (peers (observe a now l) !! i) as [p|] eqn:E; [|by apply before_of_ok].
  destruct (p_supported p); [|by apply before_of_ok]. apply (before_bump_if true). apply edit_before; [by apply before_of_ok|].
  intros q Hq. cbn. pose proof (ok_seen _ _ Ho) as Hs. rewrite Forall_forall in Hs.
  split_and!; try done; by apply (Hs q), (list_elem_of_lookup_2 _ i).
Qed.

Lemma before_slots l f t :
  (forall s, f s = s \/ f s = empty_slot) -> 0 <= t -> before_recompute l t ->
  before_recompute (set_slots (map f (slots l)) (overflow_until l) l) t.
Proof using ttl_pos.
  intros Hf Ht [H1 H2 H3 H4 H5]. constructor; try done. apply Forall_map. eapply Forall_impl; [exact H1|]. cbn.
  intros s Hs. destruct (Hf s) as [->| ->]; [done|cbn; lia].
Qed.

Lemma settle_learned_ok a b now changed l : time_ok now -> before_recompute l now ->
  (changed = false -> ledger_ok l now) -> ledger_ok (settle_learned ttl a b now changed l) now.
Proof using ttl_pos.
  intros Hn Hb Hl. unfold settle_learned. cbv zeta.
  assert (before_recompute (set_slots (map (fun s => if answered a b s then empty_slot else s) (slots l)) (overflow_until l) l) now) as Hb'
    by (apply before_slots; [intros s; destruct (answered a b s); auto|apply Hn|done]).
  destruct (changed || existsb (answered a b) (slots l)) eqn:E; cbn [orb].
  - apply recompute_ok; [done|]. by apply (before_bump_if true).
  - apply orb_false_iff in E as [-> E]. specialize (Hl eq_refl).
    assert (map (fun s => if answered a b s then empty_slot else s) (slots l) = slots l) as ->.
    { clear -E. induction (slots l) as [|s k IH]; [done|]. cbn [existsb map] in *. apply orb_false_iff in E as [E1 E2].
      by rewrite E1, (IH E2). }
    assert (ledger_ok (set_slots (slots l) (overflow_until l) l) now) as Hl'.
    { destruct Hl. constructor; try done. intros Hc. destruct (ok_verdict0 Hc) as [[] ?]. by split. }
    cbn [bump_if]. destruct (_ <=? now); [by apply recompute_ok, before_of_ok|done].
Qed.

Lemma learn_ok a n o b sup now l t : time_ok now -> t <= now -> ledger_ok l t ->
  ledger_ok (snd (learn ttl peer_size admit_bytes reserve a n o b sup now l)) now.
Proof using ttl_pos.
  intros Hn Ht Hl0. pose proof (ledger_ok_later _ _ _ Hl0 Ht) as Hl. pose proof (before_of_ok _ _ Hl) as [B1 B2 B3 B4 B5].
  unfold learn. destruct (is_empty n); [by apply note_pending_ok|]. destruct (search (peers l) n) as [i|i] eqn:Es.
  - destruct (search_found _ _ _ Es) as (p & Hp & Hname). rewrite Hp. cbn [snd].
    set (same := (p_owner p =? o) && (p_birth p =? b)).
    set (support := if same && p_confirmed p then p_supported p && sup else sup).
    set (p' := Build_Peer _ _ _ _ _ _ _ _).
    assert (p_alias p = sender_address_u32 n) as Halias.
    { rewrite Forall_forall in B4. rewrite <- Hname. by apply B4, (list_elem_of_lookup_2 _ i). }
    apply settle_learned_ok; [done|constructor; cbn [set_peers slots overflow_until peers recheck_collisions ambiguous]; try done|].
    + apply forall_replace; [done|]. cbn. destruct Hn. lia.
    + apply forall_replace; [done|]. cbn. by rewrite Hname.
    + intros [Hr Ha]%orb_false_iff Hamb. apply negb_false_iff, Z.eqb_eq in Ha.
      rewrite (collisions_numbers _ (peers l)); [by apply B5|]. by apply (numbers_replace _ _ p).
    + rewrite !orb_false_iff, !negb_false_iff. intros (((Hsame & Hc) & Hsup%eqb_prop) & Ha%Z.eqb_eq).
      assert (recheck_collisions l || negb (p_address p =? a) = false) as Hre by (by rewrite (ok_rechecked _ _ Hl), Ha, Z.eqb_refl).
      rewrite Hre. assert (ledger_ok (edit_peer i (fun _ => p') l) now) as He.
      { apply (edit_seen_ok _ _ _ t); [done|done|apply Hn|]. intros q Hq. assert (q = p) as -> by congruence. cbn.
        by rewrite Hc, Hsup, Hname. }
      unfold edit_peer in He. rewrite Hp in He. unfold edit_peers in He. by rewrite (ok_rechecked _ _ Hl) in He.
  - destruct (admit_bytes _ _); [|by apply note_pending_ok]. destruct (_ && _); [by apply note_pending_ok|]. cbn [snd].
    apply settle_learned_ok; [done| |done]. constructor; cbn [set_peers slots overflow_until peers recheck_collisions ambiguous]; try done.
    + apply forall_insert_at; [done|]. cbn. destruct Hn. lia.
    + by apply forall_insert_at.
    + intros Hr [Ha1 Ha2]%orb_false_iff. rewrite collisions_insert, Ha2. by apply B5.
Qed.

Lemma hint_ok a n o b sup now l t : time_ok now -> t <= now -> ledger_ok l t -> ledger_ok (hint_address ttl a n o b sup now l) now.
Proof using ttl_pos.
  intros Hn Ht Hl0. pose proof (ledger_ok_later _ _ _ Hl0 Ht) as Hl. unfold hint_address.
  destruct (search (peers l) n) as [i|i]; [|by do 2 (apply note_pending_ok; [done|])].
  destruct (peers l !! i) as [p|] eqn:Hp; [|done]. destruct (_ || _); [|done].
  set (f := with_trust _ _). assert (before_recompute (edit_peer i f l) now) as [].
  { apply edit_before; [by apply before_of_ok|]. intros q Hq. cbn. pose proof (ok_seen _ _ Hl) as Hs. rewrite Forall_forall in Hs.
    split_and!; try done; by apply (Hs q), (list_elem_of_lookup_2 _ i). }
  assert (recheck_collisions (edit_peer i f l) = false) as Hr by (unfold edit_peer; rewrite Hp; apply Hl).
  by constructor; auto.
Qed.

Lemma remove_address_ok a now l t : time_ok now -> t <= now -> ledger_ok l t -> ledger_ok (remove_address ttl a now l) now.
Proof using ttl_pos.
  intros Hn Ht Hl0. pose proof (ledger_ok_later _ _ _ Hl0 Ht) as Hl. unfold remove_address. apply recompute_ok; [done|].
  apply before_slots; [intros s; destruct (_ =? _); auto|apply Hn|].
  destruct (unique_address ttl a now l) as [i|]; [|by apply before_of_ok].
  destruct (peers l !! i) as [p|]; [|by apply before_of_ok]. apply (before_bump_if true).
  destruct Hl. constructor; cbn; try done; by apply forall_remove_at.
Qed.

Lemma forget_ok until now l t : 0 <= until <= now + ttl -> t <= now -> ledger_ok l t -> ledger_ok (forget until l) now.
Proof using.
  intros Hu Ht Hl0. pose proof (ledger_ok_later _ _ _ Hl0 Ht) as []. constructor; cbn; try done; constructor.
Qed.

Lemma max_of_range l e : forall lo hi, lo <= e <= hi -> Forall (fun x => x <= hi) l -> lo <= foldr Z.max e l <= hi.
Proof using.
  intros lo hi He. induction 1 as [|x l Hx Hl IH]; cbn [foldr]; lia.
Qed.

Lemma evict_for_budget_ok now l t : time_ok now -> t <= now -> ledger_ok l t -> ledger_ok (snd (evict_for_budget ttl peer_size l)) now.
Proof using ttl_pos.
  intros [Hn0 Hn] Ht Hl0. pose proof (ledger_ok_later _ _ _ Hl0 Ht) as Hl. unfold evict_for_budget.
  destruct (heap_bytes peer_size l =? 0); [done|]. cbn [snd]. apply (forget_ok _ _ _ now); [|lia|done].
  apply max_of_range; [apply Hl|]. rewrite Forall_app. split; apply Forall_map.
  - eapply Forall_impl; [apply Hl|]. cbn. intros p Hp. unfold sat_add. lia.
  - eapply Forall_impl; [apply Hl|]. cbn. lia.
Qed.

Lemma evict_ok now l t : time_ok now -> t <= now -> ledger_ok l t -> ledger_ok (evict ttl now l) now.
Proof using ttl_pos. intros [Hn0 Hn] Ht Hl. apply (forget_ok _ _ _ t); [unfold sat_add; lia|done|done]. Qed.

Lemma expire_ok now l t : time_ok now -> t <= now -> ledger_ok l t -> ledger_ok (expire ttl now l) now.
Proof using ttl_pos.
  intros Hn Ht Hl0. pose proof (ledger_ok_later _ _ _ Hl0 Ht) as Hl. unfold expire.
  destruct (_ <? _); [by apply recompute_ok, before_of_ok|done].
Qed.

(** ** Steps of a side *)

Inductive CodecStep : Type :=
| StepObserve (address : Z)
| StepRevoke (address : Z) (supported : bool)
| StepLearn (address : Z) (sender : bytes) (owner birth : Z) (supported : bool)
| StepHint (address : Z) (sender : bytes) (owner birth : Z) (supported : bool)
| StepRemove (address : Z)
| StepEvictForBudget
| StepEvict
| StepExpire.

Definition apply_step (now : Z) (s : CodecStep) (l : Ledger) : Ledger :=
  match s with
  | StepObserve a => observe a now l
  | StepRevoke a sup => revoke_if_unsupported ttl a sup now l
  | StepLearn a n o b sup => snd (learn ttl peer_size admit_bytes reserve a n o b sup now l)
  | StepHint a n o b sup => hint_address ttl a n o b sup now l
  | StepRemove a => remove_address ttl a now l
  | StepEvictForBudget => snd (evict_for_budget ttl peer_size l)
  | StepEvict => evict ttl now l
  | StepExpire => expire ttl now l
  end.

Fixpoint run_steps (steps : list (Z * CodecStep)) (l : Ledger) : Ledger :=
  match steps with [] => l | (now, s) :: steps => run_steps steps (apply_step now s l) end.

(** The clock does not go back; the last time. *)
Fixpoint in_order (t : Z) (steps : list (Z * CodecStep)) : Prop :=
  match steps with [] => True | (now, _) :: steps => t <= now /\ time_ok now /\ in_order now steps end.
Fixpoint last_time (t : Z) (steps : list (Z * CodecStep)) : Z :=
  match steps with [] => t | (now, _) :: steps => last_time now steps end.

Lemma step_ok now s l t : time_ok now -> t <= now -> ledger_ok l t -> ledger_ok (apply_step now s l) now.
Proof using ttl_pos.
  intros Hn Ht Hl. destruct s; cbn [apply_step].
  - by apply (observe_ok _ _ _ t).
  - by apply (revoke_ok _ _ _ _ t).
  - by apply (learn_ok _ _ _ _ _ _ _ t).
  - by apply (hint_ok _ _ _ _ _ _ _ t).
  - by apply (remove_address_ok _ _ _ t).
  - by apply (evict_for_budget_ok _ _ t).
  - by apply (evict_ok _ _ t).
  - by apply (expire_ok _ _ t).
Qed.

Lemma run_steps_ok steps : forall l t, in_order t steps -> ledger_ok l t -> ledger_ok (run_steps steps l) (last_time t steps).
Proof using ttl_pos.
  induction steps as [|[now s] steps IH]; intros l t Ho Hl; cbn [run_steps last_time]; [done|].
  destruct Ho as (Ht & Hn & Ho). apply IH; [done|]. by apply (step_ok now s l t).
Qed.

Lemma default_ok : ledger_ok ledger_default 0.
Proof using ttl_pos.
  constructor; cbn; try done; try lia. repeat (apply Forall_cons; split; [cbn; lia|]). by apply Forall_nil.
Qed.

(** ** Who is waited for *)

(** A number that is heard and not known, or a board that does not decode. *)
Inductive Party : Type := Number (a : Z) | Board (n : bytes) (a : Z).

(** The codec is held back for the party until [u]. *)
Definition held (party : Party) (u : Z) (l : Ledger) : Prop :=
  match party with
  | Number a => Exists (fun s => slot_address s = a /\ u <= slot_until s) (slots l)
  | Board n a => Exists (fun p => p_sender p = n /\ p_address p = a /\ p_supported p && p_confirmed p = false /\
                                  u <= p_last_seen p + ttl) (peers l)
  end \/ u <= overflow_until l.

(** The party is identified, or leaves. *)
Definition releases (party : Party) (s : CodecStep) : Prop :=
  match party, s with
  | Number a, StepLearn a' n _ _ _ => a' = a \/ sender_address_u32 n = a
  | Number a, StepRemove a' => a' = a
  | Board n _, StepLearn _ n' _ _ _ => n' = n
  | Board n a, StepRemove a' => a' = a \/ a' = sender_address_u32 n
  | _, _ => False
  end.

Lemma held_bound party u l t : ledger_ok l t -> held party u l -> u <= t + ttl.
Proof using.
  intros [H1 H2 H3 _ _ _ _] [H|H]; [|lia]. destruct party; apply Exists_exists in H as (x & Hx & H).
  - rewrite Forall_forall in H1. specialize (H1 x Hx). lia.
  - rewrite Forall_forall in H3. specialize (H3 x Hx). lia.
Qed.

Lemma held_same party u l l' :
  peers l' = peers l -> slots l' = slots l -> overflow_until l' = overflow_until l -> held party u l -> held party u l'.
Proof using. unfold held. by intros -> -> ->. Qed.

Lemma held_blocks party u l t now : 0 < u -> ledger_ok l t -> t <= now <= u -> held party u l -> allowed l now = false.
Proof using.
  intros Hu Hl Hn Hh. unfold allowed. destruct (codec_allowed l) eqn:Hc; [|done]. exfalso.
  destruct (ok_verdict _ _ Hl Hc) as [[_ _ H3 H4] Ho]. destruct Hh as [Hh|Hh]; [|destruct Ho; lia].
  rewrite Forall_forall in H3. rewrite Forall_forall in H4. destruct party; apply Exists_exists in Hh as (x & Hx & Hh).
  - specialize (H4 x Hx). lia.
  - destruct (H3 x Hx) as (T1 & T2 & _), Hh as (_ & _ & Hh & _). by rewrite T1, T2 in Hh.
Qed.

Lemma held_note party u a now l t :
  0 < u -> time_ok now -> t <= now <= u -> ledger_ok l t -> held party u l -> held party u (note_pending a now l).
Proof using.
  intros Hu [Hn0 Hn] Ht Hl Hh. pose proof (held_bound _ _ _ _ Hl Hh) as Hub.
  assert (sat_add now ttl = now + ttl) as Hs by (unfold sat_add; lia). unfold PayloadCodec.note_pending. rewrite Hs.
  assert (forall l1 e, held party u l1 -> held party u (set_verdict false e (bump_if (codec_allowed l1) l1))) as Hfin
    by (intros l1 e; apply held_same; by destruct (codec_allowed l1)).
  apply Hfin. set (mine := {| slot_address := a; slot_until := now + ttl |}).
  assert (forall i x, slots l !! i = Some x -> (u <= slot_until x -> slot_address x = a) ->
            held party u (set_slots (replace i mine (slots l)) (overflow_until l) l)) as Hrep.
  { intros i x Hi Hx. destruct Hh as [Hh|Hh]; [|by right]. left. destruct party; cbn; [|done].
    apply (exists_replace _ _ _ _ _ Hi); [|done]. intros [E1 E2]. specialize (Hx E2). cbn. split; [congruence|lia]. }
  set (q1 := find_place _ (slots l)). destruct q1 as [i|] eqn:E1.
  { apply find_place_some in E1 as (x & Hx & E). apply (Hrep i x Hx). apply andb_true_iff in E as [_ E%Z.eqb_eq]. done. }
  set (q2 := find_place _ (slots l)). destruct q2 as [i|] eqn:E2.
  { apply find_place_some in E2 as (x & Hx & E). apply (held_same _ _ (set_slots (replace i mine (slots l)) (overflow_until l) l));
      [done..|]. apply (Hrep i x Hx). apply orb_true_iff in E as [E%Z.ltb_lt|E%Z.eqb_eq]; lia. }
  apply (held_same _ _ (set_slots (slots l) (Z.max (overflow_until l) (now + ttl)) l)); try by destruct (_ || _).
  destruct Hh as [Hh|Hh]; [left|right; cbn; lia]. by destruct party.
Qed.

Lemma held_recompute party u now l : 0 < u -> time_ok now -> now <= u ->
  Forall (fun p => 0 <= p_last_seen p <= now) (peers l) -> held party u l -> held party u (recompute now l).
Proof using ttl_pos.
  intros Hu Hn Ht Hseen Hh. apply (held_same _ _ (pruned ttl now l)); try (unfold PayloadCodec.recompute, bump_if; by destruct (_ || _)).
  destruct Hh as [Hh|Hh]; [left|by right]. destruct party; apply Exists_exists in Hh as (x & Hx & Hh); apply Exists_exists.
  - exists x. split; [|done]. cbn [pruned set_slots slots]. apply list_elem_of_fmap. exists x. split; [|done].
    unfold expire_slot. rewrite (proj2 (Z.ltb_ge _ _)) by lia. done.
  - exists x. split; [|done]. cbn [pruned set_slots set_peers peers]. apply list_elem_of_In, filter_In.
    split; [by apply list_elem_of_In|]. rewrite Forall_forall in Hseen. apply live_spec; [done|by apply Hseen|lia].
Qed.

(** A record changed to no more trust and no earlier time. *)
Lemma held_edit party u i f l :
  (forall p, peers l !! i = Some p -> p_sender (f p) = p_sender p /\ p_address (f p) = p_address p /\
     p_last_seen p <= p_last_seen (f p) /\ (p_supported p && p_confirmed p = false -> p_supported (f p) && p_confirmed (f p) = false)) ->
  held party u l -> held party u (edit_peer i f l).
Proof using.
  intros Hf Hh. unfold edit_peer. destruct (peers l !! i) as [p|] eqn:E; [|done]. destruct (Hf p eq_refl) as (F1 & F2 & F3 & F4).
  destruct Hh as [Hh|Hh]; [left|by right]. destruct party; [done|]. cbn [edit_peers set_peers peers].
  apply (exists_replace _ _ _ _ _ E); [|done]. intros (E1 & E2 & E3 & E4). split_and!; [congruence|congruence|auto|lia].
Qed.

Lemma held_observe party u a now l t :
  0 < u -> time_ok now -> t <= now <= u -> ledger_ok l t -> held party u l -> held party u (observe a now l).
Proof using ttl_pos.
  intros Hu Hn Ht Hl Hh. unfold PayloadCodec.observe. destruct (unique_address ttl a now l) as [i|]; [|by apply (held_note _ _ _ _ _ t)].
  assert (held party u (edit_peer i (seen now) l)) as H.
  { apply held_edit; [|done]. intros p Hp. cbn. split_and!; try done. pose proof (ok_seen _ _ Hl) as Hs.
    rewrite Forall_forall in Hs. pose proof (list_elem_of_lookup_2 _ _ _ Hp) as Hin. specialize (Hs p Hin). lia. }
  destruct (_ <=? now); [|done]. apply held_recompute; [done|done|lia| |done].
  assert (ledger_ok (edit_peer i (seen now) l) now) as He by (apply (edit_seen_ok _ _ _ t); [done|lia|apply Hn|done]). apply He.
Qed.

Lemma held_settle party u a b now changed l :
  0 < u -> time_ok now -> now <= u -> Forall (fun p => 0 <= p_last_seen p <= now) (peers l) ->
  match party with Number x => x <> a /\ x <> b | Board _ _ => True end ->
  held party u l -> held party u (settle_learned ttl a b now changed l).
Proof using ttl_pos.
  intros Hu Hn Ht Hs Hp Hh. unfold settle_learned. cbv zeta.
  set (l1 := set_slots _ _ l). assert (held party u l1) as H1.
  { destruct Hh as [Hh|Hh]; [left|by right]. destruct party; [|done]. apply Exists_exists in Hh as (x & Hx & Hh).
    apply Exists_exists. exists x. split; [|done]. cbn [l1 set_slots slots]. apply list_elem_of_fmap. exists x. split; [|done].
    unfold answered. destruct Hh as [<- _], Hp as [Ha Hb]. rewrite (proj2 (Z.eqb_neq _ a)), (proj2 (Z.eqb_neq _ b)) by done.
    by rewrite andb_false_r. }
  assert (forall c, held party u (bump_if c l1)) as H2 by (intros c; apply (held_same _ _ l1); by destruct c).
  destruct (_ || _); [|apply H2]. apply held_recompute; try done. by destruct (changed || _).
Qed.

Lemma held_learn party u a n o b sup now l t :
  0 < u -> time_ok now -> t <= now <= u -> ledger_ok l t -> ~ releases party (StepLearn a n o b sup) ->
  held party u l -> held party u (snd (learn ttl peer_size admit_bytes reserve a n o b sup now l)).
Proof using ttl_pos.
  intros Hu Hn Ht Hl0 Hr Hh. pose proof (ledger_ok_later _ _ now Hl0 ltac:(lia)) as Hl.
  pose proof (fun x => held_note party u x now l t Hu Hn Ht Hl0 Hh) as Hnote.
  assert (match party with Number x => x <> a /\ x <> sender_address_u32 n | Board _ _ => True end) as Hx
    by (destruct party; [split; intros ->; apply Hr; cbn; auto|done]).
  unfold learn. destruct (is_empty n); [apply Hnote|]. destruct (search (peers l) n) as [i|i] eqn:Es.
  - destruct (search_found _ _ _ Es) as (p & Hp & Hname). rewrite Hp. cbn [snd].
    apply held_settle; [done|done|lia| |done|].
    + apply forall_replace; [apply Hl|]. cbn. destruct Hn. lia.
    + destruct Hh as [Hh|Hh]; [left|by right]. destruct party as [x|n' x]; [done|]. cbn [set_peers peers].
      apply (exists_replace _ _ _ _ _ Hp); [|done]. intros (E1 & _). exfalso. apply Hr. cbn. congruence.
  - destruct (admit_bytes _ _); [|apply Hnote]. destruct (_ && _); [apply Hnote|]. cbn [snd].
    apply held_settle; [done|done|lia| |done|].
    + apply forall_insert_at; [apply Hl|]. cbn. destruct Hn. lia.
    + destruct Hh as [Hh|Hh]; [left|by right]. destruct party as [x|n' x]; [done|]. by apply exists_insert_at.
Qed.

Lemma held_remove party u a now l t :
  0 < u -> time_ok now -> t <= now <= u -> ledger_ok l t -> ~ releases party (StepRemove a) ->
  held party u l -> held party u (remove_address ttl a now l).
Proof using ttl_pos.
  intros Hu Hn Ht Hl0 Hr Hh. pose proof (ledger_ok_later _ _ now Hl0 ltac:(lia)) as Hl. unfold remove_address.
  set (l1 := match unique_address ttl a now l with Some _ => _ | None => l end).
  assert (held party u l1 /\ Forall (fun p => 0 <= p_last_seen p <= now) (peers l1)) as [H1 S1].
  { unfold l1. destruct (unique_address ttl a now l) as [i|] eqn:E; [|split; [done|apply Hl]].
    destruct (unique_address_some _ _ _ _ E) as (p & Hp & Ha & _). rewrite Hp. split; [|apply forall_remove_at, Hl].
    destruct Hh as [Hh|Hh]; [left|by right]. destruct party as [x|n x]; [done|]. cbn [bump set_peers peers].
    apply (exists_remove_at _ _ _ _ Hp); [|done]. intros (E1 & E2 & _). apply Hr. cbn.
    pose proof (ok_alias _ _ Hl) as Hal. rewrite Forall_forall in Hal.
    specialize (Hal p (list_elem_of_lookup_2 _ _ _ Hp)). destruct Ha as [<-|<-]; [left; congruence|right; congruence]. }
  clearbody l1. apply held_recompute; [done|done|lia|exact S1|].
  destruct H1 as [H1|H1]; [left|by right]. destruct party as [x|n x]; [|done]. apply Exists_exists in H1 as (s & Hs & H1).
  apply Exists_exists. exists s. split; [|done]. cbn [set_slots slots]. apply list_elem_of_fmap. exists s. split; [|done].
  rewrite (proj2 (Z.eqb_neq _ _)); [done|]. intros He. apply Hr. cbn. destruct H1. congruence.
Qed.

Lemma le_max_of l : forall e x, x <= e \/ Exists (fun y => x <= y) l -> x <= foldr Z.max e l.
Proof using.
  induction l as [|y l IH]; intros e x [H|H]; cbn [foldr]; [done|by apply Exists_nil in H| |].
  - specialize (IH e x (or_introl H)). lia.
  - apply Exists_cons in H as [H|H]; [lia|]. specialize (IH e x (or_intror H)). lia.
Qed.

Lemma held_step party u s now l t :
  0 < u -> time_ok now -> t <= now <= u -> ledger_ok l t -> ~ releases party s -> held party u l ->
  held party u (apply_step now s l).
Proof using ttl_pos.
  intros Hu Hn Ht Hl0 Hr Hh. pose proof (ledger_ok_later _ _ now Hl0 ltac:(lia)) as Hl.
  pose proof (held_bound _ _ _ _ Hl0 Hh) as Hub. destruct s as [a|a sup|a n o b sup|a n o b sup|a| | |]; cbn [apply_step].
  - by apply (held_observe _ _ _ _ _ t).
  - unfold revoke_if_unsupported. pose proof (held_observe party u a now l t Hu Hn Ht Hl0 Hh) as Ho. destruct sup; [done|].
    pose proof (observe_ok a now l t Hn ltac:(lia) Hl0) as Hlo.
    destruct (unique_address ttl a now _) as [i|]; [|done]. set (l1 := match peers _ !! i with Some _ => _ | None => _ end).
    assert (held party u l1 /\ Forall (fun p => 0 <= p_last_seen p <= now) (peers l1)) as [H1 S1].
    { unfold l1. destruct (peers (observe a now l) !! i) as [p|] eqn:E; [|split; [done|apply Hlo]].
      destruct (p_supported p); [|split; [done|apply Hlo]]. split.
      - apply (held_same _ _ (edit_peer i (fun p => with_trust false (p_confirmed p) p) (observe a now l))); try done.
        apply held_edit; [|done]. intros q Hq. cbn. split_and!; try done; try lia.
      - cbn [bump peers]. unfold edit_peer. rewrite E. apply forall_replace; [apply Hlo|]. cbn.
        pose proof (ok_seen _ _ Hlo) as Hs. rewrite Forall_forall in Hs. by apply Hs, (list_elem_of_lookup_2 _ i). }
    apply held_recompute; [done|done|lia|done|done].
  - by apply (held_learn _ _ _ _ _ _ _ _ _ t).
  - unfold hint_address. destruct (search (peers l) n) as [i|i].
    2: { apply (held_note _ _ _ _ _ now); [done|done|lia|by apply note_pending_ok|]. by apply (held_note _ _ _ _ _ t). }
    destruct (peers l !! i) as [p|] eqn:Hp; [|done]. destruct (_ || _); [|done].
    eapply held_same; [..|apply held_edit; [|exact Hh]]; try reflexivity. intros q Hq. cbn. split_and!; try done; try lia.
  - by apply (held_remove _ _ _ _ _ t).
  - unfold evict_for_budget. destruct (_ =? 0); [done|]. cbn [snd]. right. cbn. apply le_max_of.
    destruct Hh as [Hh|Hh]; [right|by left]. rewrite Exists_app. destruct party as [a|n a]; apply Exists_exists in Hh as (x & Hx & Hh).
    + right. apply Exists_exists. exists (slot_until x). split; [by apply list_elem_of_fmap_2|lia].
    + left. apply Exists_exists. exists (sat_add (p_last_seen x) ttl). split; [apply list_elem_of_fmap; by exists x|].
      pose proof (ok_seen _ _ Hl) as Hs. rewrite Forall_forall in Hs. specialize (Hs x Hx). destruct Hn. unfold sat_add. lia.
  - right. cbn. destruct Hn. unfold sat_add. lia.
  - unfold expire. destruct (_ <? now); [|done]. apply held_recompute; [done|done|lia|apply Hl|done].
Qed.

Lemma held_run party u steps : forall l t,
  0 < u -> ledger_ok l t -> in_order t steps -> last_time t steps <= u -> Forall (fun e => ~ releases party (snd e)) steps ->
  held party u l -> held party u (run_steps steps l).
Proof using ttl_pos.
  induction steps as [|[now s] steps IH]; intros l t Hu Hl Ho Hlast Hr Hh; cbn [run_steps]; [done|].
  destruct Ho as (Ht & Hn & Ho). apply Forall_cons in Hr as [Hr1 Hr2]. cbn [last_time snd] in *.
  assert (now <= last_time now steps) as Hle.
  { clear -Ho. revert now Ho. induction steps as [|[n s] steps IH]; intros now Ho; cbn [last_time]; [lia|].
    destruct Ho as (H1 & H2 & H3). specialize (IH n H3). lia. }
  apply (IH _ now); [done|by apply (step_ok now s l t)|done|done|done|]. apply (held_step _ _ _ _ _ t); try done. lia.
Qed.

(** *** How a wait begins *)

(** Whom a step makes the side wait for. *)
Definition waits_for (t : Z) (s : CodecStep) (l : Ledger) : list Party :=
  match s with
  | StepObserve a | StepRevoke a _ =>
      match unique_address ttl a t l with None => [Number a] | Some _ => [] end
  | StepLearn a n _ _ false => [Number a; Board n a]
  | _ => []
  end.

Lemma exists_replaced {A} (P : A -> Prop) l i (x : A) : P x -> Exists P (replace i x l).
Proof using. intros H. unfold replace. rewrite !Exists_app, Exists_cons. auto. Qed.

Lemma exists_inserted {A} (P : A -> Prop) l i (x : A) : P x -> Exists P (insert_at i x l).
Proof using. intros H. unfold insert_at. rewrite !Exists_app, Exists_cons. auto. Qed.

Lemma note_pending_peers a now l : peers (note_pending a now l) = peers l.
Proof using.
  unfold PayloadCodec.note_pending. set (q1 := find_place _ (slots l)). destruct q1; [by destruct (codec_allowed _)|].
  set (q2 := find_place _ (slots l)). destruct q2; [by destruct (codec_allowed _)|].
  by destruct (_ || _); cbn [bump_if bump set_slots codec_allowed]; destruct (codec_allowed l).
Qed.

Lemma note_pending_holds a now l : time_ok now -> held (Number a) (now + ttl) (note_pending a now l).
Proof using.
  intros [Hn0 Hn]. assert (sat_add now ttl = now + ttl) as Hs by (unfold sat_add; lia).
  unfold PayloadCodec.note_pending. rewrite Hs.
  assert (forall l1 e, held (Number a) (now + ttl) l1 ->
            held (Number a) (now + ttl) (set_verdict false e (bump_if (codec_allowed l1) l1))) as Hfin
    by (intros l1 e; apply held_same; by destruct (codec_allowed l1)).
  apply Hfin. set (mine := {| slot_address := a; slot_until := now + ttl |}).
  set (q1 := find_place _ (slots l)). destruct q1 as [i|]; [left; by apply exists_replaced|].
  set (q2 := find_place _ (slots l)). destruct q2 as [i|]; [left; by apply exists_replaced|].
  right. destruct (_ || _); cbn; lia.
Qed.

Lemma learn_unsupported_holds a n o b now l t :
  0 < ttl -> time_ok now -> t <= now -> ledger_ok l t ->
  exists party, party ∈ [Number a; Board n a] /\
    held party (now + ttl) (snd (learn ttl peer_size admit_bytes reserve a n o b false now l)).
Proof using ttl_pos.
  intros Hp Hn Ht Hl0. pose proof (ledger_ok_later _ _ _ Hl0 Ht) as Hl.
  assert (0 < now + ttl) as Hu by (destruct Hn; lia).
  assert (Number a ∈ [Number a; Board n a]) as H1 by left.
  assert (Board n a ∈ [Number a; Board n a]) as H2 by (right; left).
  pose proof (note_pending_holds a now l Hn) as Hnote.
  unfold learn. destruct (is_empty n); [by exists (Number a)|]. destruct (search (peers l) n) as [i|i] eqn:Es.
  - destruct (search_found _ _ _ Es) as (p & Hpi & Hname). rewrite Hpi. exists (Board n a). split; [done|]. cbn [snd].
    apply held_settle; [done|done|lia| |done|].
    + apply forall_replace; [apply Hl|]. cbn. destruct Hn. lia.
    + left. apply exists_replaced. cbn. split_and!; [done|done| |lia]. by destruct (_ && p_confirmed p); rewrite ?andb_false_r.
  - destruct (admit_bytes _ _); [|by exists (Number a)]. destruct (_ && _); [by exists (Number a)|].
    exists (Board n a). split; [done|]. cbn [snd]. apply held_settle; [done|done|lia| |done|].
    + apply forall_insert_at; [apply Hl|]. cbn. destruct Hn. lia.
    + left. apply exists_inserted. cbn. split_and!; [done..|lia].
Qed.

Lemma waits_held now s l t :
  0 < ttl -> time_ok now -> t <= now -> ledger_ok l t -> waits_for now s l <> [] ->
  exists party, party ∈ waits_for now s l /\ held party (now + ttl) (apply_step now s l).
Proof using ttl_pos.
  intros Hp Hn Ht Hl Hw. destruct s as [a|a sup|a n o b []| | | | |]; try done; cbn [waits_for apply_step] in *.
  - destruct (unique_address ttl a now l) as [i|] eqn:E; [done|]. exists (Number a). split; [left|].
    unfold PayloadCodec.observe. rewrite E. by apply note_pending_holds.
  - destruct (unique_address ttl a now l) as [i|] eqn:E; [done|]. exists (Number a). split; [left|].
    unfold revoke_if_unsupported, PayloadCodec.observe. rewrite E.
    assert (unique_address ttl a now (note_pending a now l) = None) as ->
      by (unfold unique_address; rewrite note_pending_peers; exact E).
    by destruct sup; apply note_pending_holds.
  - by apply (learn_unsupported_holds _ _ _ _ _ _ t).
Qed.

Lemma run_app s1 s2 l : run_steps (s1 ++ s2) l = run_steps s2 (run_steps s1 l).
Proof using Type. revert l. induction s1 as [|[now s] s1 IH]; intros l; cbn; [done|apply IH]. Qed.

Lemma in_order_app s1 s2 t : in_order t (s1 ++ s2) <-> in_order t s1 /\ in_order (last_time t s1) s2.
Proof using. clear admit_bytes. revert t. induction s1 as [|[now s] s1 IH]; intros t; cbn; [tauto|]. rewrite IH. tauto. Qed.

(** C16: Compressed payloads are allowed on a side only while it is safe.  Whatever boards
    are heard, learned, hinted at, removed or evicted there, when the ledger allows the
    codec at a time then it has a record of some board, and every record is of a board
    that advertised itself, that decodes, that was heard within the lease and that
    shares its numbers with no other; and no number was heard that is not known. *)
Theorem codec_lease steps now l :
  in_order 0 steps -> last_time 0 steps <= now -> l = run_steps steps ledger_default -> allowed l now = true ->
  peers l <> [] /\ collisions (peers l) = false /\
  Forall (fun p => p_confirmed p = true /\ p_supported p = true /\ p_address p <> 0 /\ now <= p_last_seen p + ttl) (peers l) /\
  Forall (fun s => slot_until s = 0) (slots l) /\ (overflow_until l = 0 \/ overflow_until l < now).
Proof using ttl_pos.
  intros Ho Hn -> [Hc Hx%Z.leb_le]%andb_true_iff.
  destruct (ok_verdict _ _ (run_steps_ok steps _ 0 Ho default_ok) Hc) as [[T1 T2 T3 T4] Hov].
  split_and!; [done|done| |done|lia].
  eapply Forall_impl; [exact T3|]. cbn. intros p (H1 & H2 & H3 & H4). split_and!; try done. lia.
Qed.

(** A board that cannot decode is not sent compressed payloads for the whole lease.
    When a step hears a number that means no single known board, or learns of a board
    that does not decode (even if there is no memory for its record), then until the
    lease of that moment is over nothing allows the codec, neither other boards nor
    evictions of the ledger, save a step that identifies the party or sees it leave. *)
Theorem codec_waits before t s after now l :
  0 < ttl -> in_order 0 (before ++ (t, s) :: after) -> l = run_steps before ledger_default -> waits_for t s l <> [] ->
  Forall (fun e => Forall (fun party => ~ releases party (snd e)) (waits_for t s l)) after ->
  last_time t after <= now <= t + ttl ->
  allowed (run_steps (before ++ (t, s) :: after) ledger_default) now = false.
Proof using ttl_pos.
  intros Hp Ho -> Hw Hr Hn. apply in_order_app in Ho as [Ho1 (Ht & Htk & Ho2)].
  pose proof (run_steps_ok before _ 0 Ho1 default_ok) as Hl. rewrite run_app. cbn [run_steps].
  set (l0 := run_steps before ledger_default) in *.
  destruct (waits_held t s l0 _ Hp Htk Ht Hl Hw) as (party & Hin & Hh).
  pose proof (step_ok t s l0 _ Htk Ht Hl) as Hl1.
  assert (0 < t + ttl) as Hu by (destruct Htk; lia).
  apply (held_blocks party (t + ttl) _ (last_time t after)); [done|by apply run_steps_ok|done|].
  apply (held_run party _ after _ t); [done|done|done|lia| |done].
  eapply Forall_impl; [exact Hr|]. cbn. intros e He. rewrite Forall_forall in He. by apply He.
Qed.
End Lease.

(** ** Witnesses *)

Definition always (_ _ : Z) : result unit := Ok tt.

(** Two boards advertise themselves; the first is heard again. *)
Definition two_boards : list (Z * CodecStep) :=
  [(1, StepLearn 7 [97] 1 1 true); (2, StepLearn 8 [98] 2 1 true); (5, StepObserve 7)].

Example codec_lease_witness :
  allowed (run_steps 100 64 always true two_boards ledger_default) 9 = true /\
  Forall (fun p => p_supported p = true) (peers (run_steps 100 64 always true two_boards ledger_default)).
Proof.
  assert (allowed (run_steps 100 64 always true two_boards ledger_default) 9 = true) as H by (vm_compute; reflexivity).
  split; [exact H|].
  pose proof (codec_lease 100 64 ltac:(lia) always true two_boards 9 _
    ltac:(unfold time_ok, two_boards; cbn [in_order]; unfold time_ok, u64_max; lia)
    ltac:(cbn [last_time two_boards]; lia) eq_refl H) as (_ & _ & HF & _).
  eapply Forall_impl; [exact HF|]. cbn beta. intros p Hp. apply Hp.
Defined.

(** A stranger is heard; the evicted ledger still waits for it. *)
Example codec_waits_witness :
  allowed (run_steps 100 64 always true (two_boards ++ [(6, StepObserve 99); (7, StepEvictForBudget);
    (8, StepLearn 7 [97] 1 1 true)]) ledger_default) 50 = false.
Proof.
  apply (codec_waits 100 64 ltac:(lia) always true two_boards 6 (StepObserve 99)
    [(7, StepEvictForBudget); (8, StepLearn 7 [97] 1 1 true)] 50
    (run_steps 100 64 always true two_boards ledger_default)); [lia| |reflexivity| | |cbn [last_time]; lia].
  - unfold two_boards. cbn [in_order app]. unfold time_ok, u64_max. lia.
  - vm_compute. discriminate.
  - change (waits_for 100 6 (StepObserve 99) (run_steps 100 64 always true two_boards ledger_default)) with [Number 99].
    constructor; [|constructor; [|constructor]]; constructor; try constructor; cbn [snd releases]; intros H; [exact H|].
    destruct H as [H|H]; vm_compute in H; discriminate.
Defined.
