(* ===== verification/AdmissionFairness.v ===== *)
(** * Whose report yields (src/src/admission_fairness.rs)

    When a queue of reports is full the sender with the largest backlog gives one
    up; a sender that has a single report there when the admission begins does not.  A scan of the queue counts
    the reports of each sender in a scratch table of thirty-two slots; of the chosen
    sender, the most repeated type yields first.  Control traffic, reliable packets
    and frozen frames are never chosen.  The selector remembers its choice of a
    sender for the rest of one admission. *)

From S2P Require Import Prelude Schema Packet WireEnv WireReader WireFrame WirePeek SideTemplate MemoryAdmission Queue.

Open Scope Z_scope.

(** ** What may be chosen *)

(** Priorities of the protocol start here. *)
Definition CONTROL_BAND : Z := 200.

Definition eligible (reg : Registry) (ty : DataType) (priority : Z) (is_reliable frozen : bool) : bool :=
  match try_get_message_meta reg ty with Some _ => true | None => false end
  && (priority <? CONTROL_BAND) && (transport_priority reg ty <? CONTROL_BAND)
  && negb (ty =? ty_P2pMessage) && negb is_reliable && negb frozen.

Definition declared_reliable (meta : MessageMeta) : bool := match reliable meta with RNone => false | _ => true end.

(** The owner of a report: a number; filing it in the address book is an effect. *)
Definition packet_owner (reg : Registry) (book : AddressBook) (p : Packet) (priority : Z) : option Z * AddressBook :=
  match try_get_message_meta reg (ty p) with
  | None => (None, book)
  | Some meta =>
      if eligible reg (ty p) priority (declared_reliable meta) (negb (is_empty (wire_target_senders p)))
      then let '(a, book) := source_address_for_sender book (sender p) in (Some a, book)
      else (None, book)
  end.

Section Frames.
Context `{WE : WireEnv}.

Definition packed_owner (b : bytes) (priority : Z) : option Z :=
  if CONTROL_BAND <=? priority then None
  else match peek_routing_frame_info b with
       | Err _ => None
       | Ok frame =>
           let env := fi_envelope frame in
           if eligible we_registry (re_ty env) priority
                (re_is_reliable env || match fi_reliable frame with Some _ => true | None => false end)
                (negb (is_empty (targets_of (re_targets env))))
           then Some (re_source_address env) else None
       end.

Definition scheduler_priority (ty : DataType) : Z := transport_priority we_registry ty.

Definition incoming (b : bytes) : option (Z * Z) :=
  match scheduling_type b with
  | None => None
  | Some ty =>
      match try_get_message_meta we_registry ty with
      | None => None
      | Some _ => (fun owner => (owner, scheduler_priority ty)) <$> packed_owner b (scheduler_priority ty)
      end
  end.

Definition compact_incoming (t : SideHeaderTemplate) : option (Z * Z) :=
  match template_data_type we_registry t with
  | None => None
  | Some ty =>
      match try_get_message_meta we_registry ty with
      | None => None
      | Some meta =>
          if eligible we_registry ty (scheduler_priority ty)
               (declared_reliable meta || match st_reliable_flags t with Some _ => true | None => false end)
               (has_flag (st_base_flags t) FLAG_WIRE_CONTRACT)
          then (fun a => (a, scheduler_priority ty)) <$> source_address t
          else None
      end
  end.
End Frames.

(** ** The scratch table *)

Record Load : Type := { load_sender : Z; load_bytes : Z; load_count : Z }.
Record Loads : Type := { load_peers : list Load; overflow : bool }.

Definition LOAD_SLOTS : Z := 32.
Definition loads_new : Loads := {| load_peers := []; overflow := false |}.

Definition record (sender cost : Z) (l : Loads) : Loads :=
  match list_find (fun p => load_sender p = sender) (load_peers l) with
  | Some (i, p) =>
      {| load_peers := <[i := {| load_sender := sender; load_bytes := sat_add (load_bytes p) cost;
                                 load_count := load_count p + 1 |}]> (load_peers l);
         overflow := overflow l |}
  | None =>
      if zlen (load_peers l) =? LOAD_SLOTS then {| load_peers := load_peers l; overflow := true |}
      else {| load_peers := load_peers l ++ [{| load_sender := sender; load_bytes := sat_add 0 cost; load_count := 1 |}];
              overflow := overflow l |}
  end.

(** [max_by_key]: the last of the greatest. *)
Definition max_by_key {A} (key : A -> Z) (l : list A) : option A :=
  foldl (fun best x => match best with
                       | Some b => if key x <? key b then Some b else Some x
                       | None => Some x
                       end) None l.

Definition several (p : Load) : bool := 1 <? load_count p.

Definition queue_victim_owner (incoming : option Z) (l : Loads) : option Z :=
  if overflow l then None
  else match max_by_key load_bytes (List.filter several (load_peers l)) with
       | Some p => Some (load_sender p)
       | None => match incoming with
                 | Some s => if existsb (fun p => load_sender p =? s) (load_peers l) then Some s else None
                 | None => None
                 end
       end.

Definition incoming_bytes (incoming : Z) (l : Loads) : Z :=
  match List.find (fun p => load_sender p =? incoming) (load_peers l) with Some p => load_bytes p | None => 0 end.

Definition dominant_other (incoming : Z) (l : Loads) : option Z :=
  if overflow l then None
  else load_sender <$> max_by_key load_bytes
         (List.filter (fun p => negb (load_sender p =? incoming) && several p && (incoming_bytes incoming l <? load_bytes p))
                      (load_peers l)).

(** ** The selector *)

Section Selector.
Context {T : Type} `{QE : QueueEnv T}.
Context (owner stream : T -> option Z) (priority : T -> Z).

(** A table of the reports up to a priority, by a key. *)
Definition note_item (limit : Z) (key : T -> option Z) (l : Loads) (item : T) : Loads :=
  if priority item <=? limit then match key item with Some k => record k (byte_cost item) l | None => l end else l.
Definition table (limit : Z) (key : T -> option Z) (items : list T) (l : Loads) : Loads :=
  foldl (note_item limit key) l items.

(** The key of a stream, for the items of one sender. *)
Definition owned_stream (victim : Z) (item : T) : option Z :=
  if bool_decide (owner item = Some victim) then stream item else None.

(** May the item be given up for the victim's stream? *)
Definition candidate (limit victim : Z) (kind : option Z) (item : T) : bool :=
  (priority item <=? limit) && bool_decide (owner item = Some victim)
  && match kind with Some ty => bool_decide (stream item = Some ty) | None => true end.

(** [min_by_key] on priority and place: the first of the lowest. *)
Definition lowest (items : list (nat * T)) : option (nat * T) :=
  foldl (fun best x => match best with
                       | Some b => if priority (snd x) <? priority (snd b) then Some x else Some b
                       | None => Some x
                       end) None items.

Definition pick (limit victim : Z) (kind : option Z) (items : list T) : option (nat * T) :=
  lowest (List.filter (fun e => candidate limit victim kind (snd e)) (imap pair items)).

Definition queue_victim (items : list T) (inc : T) (selected : option Z) : option nat * option Z :=
  match owner inc with
  | None => (match length items with O => None | S n => Some n end, selected)
  | Some s =>
      let limit := priority inc in
      match (match selected with
             | Some v => Some v
             | None => queue_victim_owner (Some s) (table limit owner items loads_new)
             end) with
      | None => (None, None)
      | Some v =>
          let kind := queue_victim_owner (if v =? s then stream inc else None)
                        (table limit (owned_stream v) items loads_new) in
          (fst <$> pick limit v kind items, Some v)
      end
  end.

(** *** One admission with the selector

    [push_back_prioritized_select] with a selector that keeps its choice. *)

Fixpoint select_loop (fuel : nat) (inc : T) (selected : option Z) (cost : Z) (d : BoundedDeque T) (adm : Admission)
    (evicted : list T) : option (result unit * BoundedDeque T * Admission * list T) :=
  match fuel with
  | O => None
  | S fuel =>
      let '(ready, d, adm) := if over_limit cost d then (false, d, adm) else ensure_room_for_one d adm in
      if ready then Some (Ok tt, d, adm, evicted)
      else
        let '(victim, selected) := queue_victim (q d) inc selected in
        match evict_victim priority (priority inc) (fun _ => victim) d with
        | Err e => Some (Err e, d, adm, evicted)
        | Ok (old, d) =>
            select_loop fuel inc selected cost d adm (match old with Some old => evicted ++ [old] | None => evicted end)
        end
  end.

Definition push_fair (v : T) (d : BoundedDeque T) (adm : Admission)
    : option (result unit * BoundedDeque T * Admission * list T) :=
  match park_for_queue v with
  | Err e => Some (Err e, d, adm, [])
  | Ok v =>
      if capacity d =? 0 then Some (Err (Io "queue unavailable"), d, adm, [])
      else if max_bytes d <? byte_cost v
      then Some (Err (PacketTooLarge "Item exceeds maximum byte budget"), d, adm, [])
      else
        match select_loop (S (length (q d))) v None (byte_cost v) d adm [] with
        | Some (Ok _, d, adm, evicted) =>
            Some (Ok tt, insert_prioritized_prepared v (byte_cost v) (priority v) priority d, adm, evicted)
        | r => r
        end
  end.
End Selector.

(** ** The table counts *)

(** The reports of the table's key: keys and costs, in the order of the queue. *)
Definition count_of (k : Z) (rs : list (Z * Z)) : Z := zlen (List.filter (fun r => fst r =? k) rs).
Definition bytes_of (k : Z) (rs : list (Z * Z)) : Z :=
  foldr (fun r n => snd r + n) 0 (List.filter (fun r => fst r =? k) rs).
Definition loads_of (rs : list (Z * Z)) : Loads := foldl (fun l r => record (fst r) (snd r) l) loads_new rs.

Record counts (rs : list (Z * Z)) (l : Loads) : Prop := {
  cn_senders : NoDup (map load_sender (load_peers l));
  cn_slots : zlen (load_peers l) <= LOAD_SLOTS;
  cn_exact : forall p, p ∈ load_peers l ->
    load_count p = count_of (load_sender p) rs /\ load_bytes p = Z.min u64_max (bytes_of (load_sender p) rs) /\
    load_sender p ∈ map fst rs;
  cn_all : overflow l = false -> forall k, k ∈ map fst rs -> k ∈ map load_sender (load_peers l);
  cn_full : overflow l = true -> zlen (load_peers l) = LOAD_SLOTS;
  cn_over : overflow l = true -> LOAD_SLOTS < Z.of_nat (size (list_to_set (map fst rs) : gset Z));
}.

Lemma count_of_snoc k rs r : count_of k (rs ++ [r]) = count_of k rs + (if fst r =? k then 1 else 0).
Proof.
  unfold count_of, zlen. rewrite List.filter_app, length_app. cbn [List.filter]. destruct (fst r =? k); cbn [length]; lia.
Qed.

Lemma bytes_of_snoc k rs r : bytes_of k (rs ++ [r]) = bytes_of k rs + (if fst r =? k then snd r else 0).
Proof.
  unfold bytes_of. rewrite List.filter_app, foldr_app. cbn [List.filter]. destruct (fst r =? k); cbn [foldr];
    induction (List.filter _ rs) as [|x l IH]; cbn [foldr]; lia.
Qed.

Lemma bytes_of_nonneg k rs : Forall (fun r => 0 <= snd r) rs -> 0 <= bytes_of k rs.
Proof.
  intros H. unfold bytes_of. induction H as [|r rs Hr H IH]; cbn [List.filter foldr]; [lia|].
  destruct (fst r =? k); cbn [foldr]; lia.
Qed.

Lemma in_senders p l : p ∈ l -> load_sender p ∈ map load_sender l.
Proof. intros H. apply list_elem_of_fmap. by exists p. Qed.

Lemma count_absent k rs : k ∉ map fst rs -> count_of k rs = 0 /\ bytes_of k rs = 0.
Proof.
  unfold count_of, bytes_of. induction rs as [|r rs IH]; cbn [map List.filter]; [done|]. rewrite not_elem_of_cons.
  intros [Hk Hr]. destruct (Z.eqb_spec (fst r) k); [congruence|]. by apply IH.
Qed.

Lemma map_insert_same {A B} (f : A -> B) l i x y : l !! i = Some x -> f y = f x -> map f (<[i := y]> l) = map f l.
Proof.
  intros Hi Hf. change (f <$> <[i := y]> l = f <$> l). rewrite list_fmap_insert, Hf. apply list_insert_id.
  by rewrite list_lookup_fmap, Hi.
Qed.

Lemma counts_hit rs l k c i p :
  counts rs l -> 0 <= c -> Forall (fun r => 0 <= snd r) rs -> load_peers l !! i = Some p -> load_sender p = k ->
  counts (rs ++ [(k, c)])
    {| load_peers := <[i := {| load_sender := k; load_bytes := sat_add (load_bytes p) c; load_count := load_count p + 1 |}]>
                       (load_peers l); overflow := overflow l |}.
Proof.
  intros [H1 H2 H3 H4 HF H5] Hc Hrs Hi Hk. pose proof (list_elem_of_lookup_2 _ _ _ Hi) as Hin.
  destruct (H3 p Hin) as (P1 & P2 & P3). rewrite Hk in P1, P2, P3.
  assert (map load_sender (<[i := {| load_sender := k; load_bytes := sat_add (load_bytes p) c; load_count := load_count p + 1 |}]>
            (load_peers l)) = map load_sender (load_peers l)) as Hm by (by apply (map_insert_same _ _ _ p)).
  constructor; cbn [load_peers overflow].
  - by rewrite Hm.
  - unfold zlen in *. by rewrite length_insert.
  - intros x (j & Hj)%list_elem_of_lookup. rewrite count_of_snoc, bytes_of_snoc, map_app, elem_of_app. cbn [fst snd].
    destruct (decide (i = j)) as [<-|Hne].
    + rewrite list_lookup_insert_eq in Hj by (by eapply lookup_lt_Some). injection Hj as <-. cbn [load_sender load_count load_bytes].
      rewrite Z.eqb_refl, P1, P2. split_and!; [done| |by left]. unfold sat_add. pose proof (bytes_of_nonneg k rs Hrs). lia.
    + rewrite list_lookup_insert_ne in Hj by done. pose proof (list_elem_of_lookup_2 _ _ _ Hj) as Hx.
      destruct (H3 x Hx) as (X1 & X2 & X3).
      assert (load_sender x <> k) as Hxk.
      { intros E. apply Hne. apply (NoDup_lookup (map load_sender (load_peers l)) i j k H1);
          change (map load_sender (load_peers l)) with (load_sender <$> load_peers l); rewrite list_lookup_fmap.
        - by rewrite Hi, <- Hk. - by rewrite Hj, <- E. }
      rewrite (proj2 (Z.eqb_neq _ _)) by (intros E; by apply Hxk). split_and!; [lia|rewrite X2; lia|by left].
  - intros Ho y Hy. rewrite Hm. rewrite map_app, elem_of_app in Hy. destruct Hy as [Hy|Hy]; [by apply H4|].
    apply list_elem_of_singleton in Hy. cbn [fst] in Hy. subst y. rewrite <- Hk. by apply in_senders.
  - intros Ho. unfold zlen in *. rewrite length_insert. by apply HF.
  - intros Ho. specialize (H5 Ho). rewrite map_app, list_to_set_app_L.
    enough (size (list_to_set (map fst rs) : gset Z) <= size (list_to_set (map fst rs) ∪ list_to_set (map fst [(k, c)]) : gset Z))%nat by lia.
    apply subseteq_size. set_solver.
Qed.

Lemma counts_miss rs l k c :
  counts rs l -> 0 <= c -> k ∉ map load_sender (load_peers l) -> counts (rs ++ [(k, c)])
    (if zlen (load_peers l) =? LOAD_SLOTS then {| load_peers := load_peers l; overflow := true |}
     else {| load_peers := load_peers l ++ [{| load_sender := k; load_bytes := sat_add 0 c; load_count := 1 |}];
             overflow := overflow l |}).
Proof.
  intros [H1 H2 H3 H4 HF H5] Hc Hk.
  assert (forall p, p ∈ load_peers l -> load_count p = count_of (load_sender p) (rs ++ [(k, c)]) /\
            load_bytes p = Z.min u64_max (bytes_of (load_sender p) (rs ++ [(k, c)])) /\ load_sender p ∈ map fst (rs ++ [(k, c)])) as Hold.
  { intros p Hp. destruct (H3 p Hp) as (P1 & P2 & P3). rewrite count_of_snoc, bytes_of_snoc, map_app, elem_of_app. cbn [fst snd].
    rewrite (proj2 (Z.eqb_neq _ _)) by (intros ->; by apply Hk, in_senders). split_and!; [lia|rewrite P2; lia|by left]. }
  destruct (Z.eqb_spec (zlen (load_peers l)) LOAD_SLOTS) as [Hfull|Hroom].
  - constructor; cbn [load_peers overflow]; try done. intros _.
    set (S := list_to_set (k :: map load_sender (load_peers l)) : gset Z).
    assert (size S = Datatypes.S (length (load_peers l))) as HS.
    { unfold S. rewrite size_list_to_set by (by constructor). cbn [length]. by rewrite length_map. }
    enough (size S <= size (list_to_set (map fst (rs ++ [(k, c)])) : gset Z))%nat by (unfold zlen in *; lia).
    apply subseteq_size. intros x. unfold S. rewrite !elem_of_list_to_set, elem_of_cons, map_app, elem_of_app. cbn [map fst].
    intros [->|(p & -> & Hp)%list_elem_of_fmap]; [right; by left|left; by apply H3].
  - constructor; cbn [load_peers overflow].
    + rewrite map_app, NoDup_app. cbn [map load_sender]. split_and!; [done| |by apply NoDup_singleton].
      intros x Hx ->%list_elem_of_singleton. done.
    + rewrite zlen_app. unfold zlen in *. cbn [length]. lia.
    + intros p. rewrite elem_of_app. intros [Hp|Hp]; [by apply Hold|]. apply list_elem_of_singleton in Hp. subst p.
      cbn [load_sender load_count load_bytes]. rewrite count_of_snoc, bytes_of_snoc, map_app, elem_of_app. cbn [fst snd].
      rewrite Z.eqb_refl. unfold sat_add.
      assert (overflow l = false) as Ho by (destruct (overflow l); [by specialize (HF eq_refl)|done]).
      assert (k ∉ map fst rs) as Hout by (intros Hin; by apply Hk, H4).
      destruct (count_absent k rs Hout) as [-> ->]. split_and!; [done|lia|right; by left].
    + intros Ho x. rewrite !map_app, !elem_of_app. intros [Hx|Hx]; [left; by apply H4|right]. done.
    + intros Ho. by specialize (HF Ho).
    + intros Ho. by specialize (HF Ho).
Qed.

Lemma record_counts rs l k c :
  counts rs l -> 0 <= c -> Forall (fun r => 0 <= snd r) rs -> counts (rs ++ [(k, c)]) (record k c l).
Proof.
  intros Hl Hc Hrs. unfold record. destruct (list_find _ _) as [[i p]|] eqn:E.
  - apply list_find_Some in E as (Hi & Hk & _). by apply counts_hit.
  - apply counts_miss; [done|done|]. apply list_find_None in E. rewrite Forall_forall in E.
    intros (p & -> & Hp)%list_elem_of_fmap. by apply (E p).
Qed.

Lemma loads_of_counts rs : Forall (fun r => 0 <= snd r) rs -> counts rs (loads_of rs).
Proof.
  induction rs as [|[k c] rs IH] using rev_ind; intros H.
  - constructor; cbn; [constructor|done|intros ? []%not_elem_of_nil|done|done|done].
  - apply Forall_app in H as [H1 H2]. apply Forall_cons in H2 as [H2 _]. unfold loads_of. rewrite foldl_app. by apply record_counts; [apply IH| |].
Qed.

(** ** Greatest and lowest *)

Lemma max_by_key_app {A} (key : A -> Z) l x :
  max_by_key key (l ++ [x]) = match max_by_key key l with Some b => if key x <? key b then Some b else Some x | None => Some x end.
Proof. unfold max_by_key. by rewrite foldl_app. Qed.

Lemma max_by_key_spec {A} (key : A -> Z) l :
  match max_by_key key l with
  | Some b => b ∈ l /\ forall x, x ∈ l -> key x <= key b
  | None => l = []
  end.
Proof.
  induction l as [|x l IH] using rev_ind; [done|]. rewrite max_by_key_app. destruct (max_by_key key l) as [b|].
  - destruct IH as [H1 H2]. destruct (Z.ltb_spec (key x) (key b)).
    + split; [apply elem_of_app; by left|]. intros y [Hy|Hy%list_elem_of_singleton]%elem_of_app; [by apply H2|subst; lia].
    + split; [apply elem_of_app; right; by left|]. intros y [Hy|Hy%list_elem_of_singleton]%elem_of_app; [specialize (H2 y Hy); lia|subst; lia].
  - rewrite IH. cbn. split; [by left|]. intros y [->|Hy]%elem_of_cons; [lia|by apply not_elem_of_nil in Hy].
Qed.

(** ** The choice of a sender *)

(** A key with several reports and the greatest weight of those, or, if no key has
    several, the incoming one. *)
Definition chosen (inc : option Z) (rs : list (Z * Z)) (v : Z) : Prop :=
  v ∈ map fst rs /\
  ((2 <= count_of v rs /\ forall k, 2 <= count_of k rs -> Z.min u64_max (bytes_of k rs) <= bytes_of v rs) \/
   (inc = Some v /\ forall k, count_of k rs <= 1)).

Definition crowded (rs : list (Z * Z)) : Prop := LOAD_SLOTS < Z.of_nat (size (list_to_set (map fst rs) : gset Z)).

Lemma repeated_in rs l k : counts rs l -> overflow l = false -> 2 <= count_of k rs ->
  exists p, p ∈ List.filter several (load_peers l) /\ load_sender p = k.
Proof.
  intros Hl Ho Hk. assert (k ∈ map fst rs) as Hin.
  { destruct (decide (k ∈ map fst rs)) as [|Hn]; [done|]. destruct (count_absent k rs Hn). lia. }
  apply (cn_all _ _ Hl Ho) in Hin. apply list_elem_of_fmap in Hin as (p & -> & Hp). exists p. split; [|done].
  apply list_elem_of_In, filter_In. split; [by apply list_elem_of_In|]. destruct (cn_exact _ _ Hl p Hp) as (P1 & _).
  unfold several. rewrite P1. apply Z.ltb_lt. lia.
Qed.

Lemma queue_victim_owner_spec rs inc :
  Forall (fun r => 0 <= snd r) rs ->
  match queue_victim_owner inc (loads_of rs) with
  | Some v => chosen inc rs v /\ ~ crowded rs
  | None => crowded rs \/ ((forall k, count_of k rs <= 1) /\ forall s, inc = Some s -> s ∉ map fst rs)
  end.
Proof.
  intros Hrs. pose proof (loads_of_counts rs Hrs) as Hl. set (l := loads_of rs) in *. unfold queue_victim_owner.
  destruct (overflow l) eqn:Ho; [left; by apply (cn_over _ _ Hl)|].
  assert (~ crowded rs) as Hc.
  { unfold crowded. pose proof (cn_slots _ _ Hl) as Hs. intros Hc.
    enough (size (list_to_set (map fst rs) : gset Z) <= length (load_peers l))%nat by (unfold zlen in Hs; lia).
    rewrite <- (length_map load_sender), <- (size_list_to_set (C := gset Z) (map load_sender (load_peers l))) by apply Hl.
    apply subseteq_size. intros x. rewrite !elem_of_list_to_set. by apply (cn_all _ _ Hl). }
  pose proof (max_by_key_spec load_bytes (List.filter several (load_peers l))) as Hm.
  destruct (max_by_key _ _) as [b|].
  - destruct Hm as [Hb Hmax]. apply list_elem_of_In, filter_In in Hb as [Hb Hr]. apply list_elem_of_In in Hb.
    destruct (cn_exact _ _ Hl b Hb) as (B1 & B2 & B3). split; [|done]. split; [done|]. left. split.
    + apply Z.ltb_lt in Hr. lia.
    + intros k Hk. destruct (repeated_in rs l k Hl Ho Hk) as (p & Hp & <-). specialize (Hmax p Hp).
      apply list_elem_of_In, filter_In in Hp as [Hp _]. apply list_elem_of_In in Hp.
      destruct (cn_exact _ _ Hl p Hp) as (P1 & P2 & P3). lia.
  - assert (forall k, count_of k rs <= 1) as Hone.
    { intros k. destruct (Z.le_gt_cases (count_of k rs) 1) as [|Hk]; [done|].
      destruct (repeated_in rs l k Hl Ho ltac:(lia)) as (p & Hp & _). rewrite Hm in Hp. by apply not_elem_of_nil in Hp. }
    destruct inc as [s|]; [|right; split; [done|by intros s]].
    destruct (existsb _ _) eqn:E.
    + apply existsb_exists in E as (p & Hp%list_elem_of_In & <-%Z.eqb_eq). destruct (cn_exact _ _ Hl p Hp) as (_ & _ & P3).
      split; [|done]. split; [done|]. by right.
    + right. split; [done|]. intros s' [= <-] Hin. apply (cn_all _ _ Hl Ho) in Hin. apply list_elem_of_fmap in Hin as (p & -> & Hp).
      rewrite <- not_true_iff_false in E. apply E, existsb_exists. exists p. split; [by apply list_elem_of_In|by apply Z.eqb_eq].
Qed.

(** A sender that competes is not the incoming one and has several reports. *)
Lemma dominant_other_spec rs inc v :
  Forall (fun r => 0 <= snd r) rs -> dominant_other inc (loads_of rs) = Some v ->
  v <> inc /\ 2 <= count_of v rs /\ Z.min u64_max (bytes_of inc rs) < bytes_of v rs.
Proof.
  intros Hrs. pose proof (loads_of_counts rs Hrs) as Hl. set (l := loads_of rs) in *. unfold dominant_other.
  destruct (overflow l) eqn:Ho; [done|].
  pose proof (max_by_key_spec load_bytes (List.filter (fun p => negb (load_sender p =? inc) && several p && (incoming_bytes inc l <? load_bytes p)) (load_peers l))) as Hm.
  destruct (max_by_key _ _) as [b|]; [|done]. destruct Hm as [Hb _]. cbn [fmap option_fmap option_map]. intros [= <-].
  apply list_elem_of_In, filter_In in Hb as [Hb Hr]. apply list_elem_of_In in Hb.
  destruct (cn_exact _ _ Hl b Hb) as (B1 & B2 & B3). apply andb_true_iff in Hr as [Hr Hlt%Z.ltb_lt]. apply andb_true_iff in Hr as [Hne Hrep].
  apply negb_true_iff, Z.eqb_neq in Hne. apply Z.ltb_lt in Hrep. split_and!; [done|lia|].
  enough (Z.min u64_max (bytes_of inc rs) <= incoming_bytes inc l) by lia. unfold incoming_bytes.
  destruct (List.find _ _) as [p|] eqn:E.
  - apply List.find_some in E as [Hp%list_elem_of_In <-%Z.eqb_eq]. destruct (cn_exact _ _ Hl p Hp) as (P1 & P2 & P3). lia.
  - destruct (decide (inc ∈ map fst rs)) as [Hin|Hin]; [|destruct (count_absent _ _ Hin); lia].
    apply (cn_all _ _ Hl Ho) in Hin. apply list_elem_of_fmap in Hin as (p & Hps & Hp%list_elem_of_In).
    apply (List.find_none _ _ E) in Hp. subst inc. by rewrite Z.eqb_refl in Hp.
Qed.

(** ** The choice of a report *)

Section Choice.
Context {T : Type} `{QE : QueueEnv T} `{QL : !QueueLaws T}.
Context (owner stream : T -> option Z) (priority : T -> Z).

Abbreviation queue_victim := (queue_victim owner stream priority).
Abbreviation candidate := (candidate owner stream priority).

(** The reports up to a priority, by a key. *)
Definition reports (limit : Z) (key : T -> option Z) (items : list T) : list (Z * Z) :=
  omap (fun item => if priority item <=? limit then (fun k => (k, byte_cost item)) <$> key item else None) items.

Lemma table_foldl limit key items l :
  table priority limit key items l = foldl (fun l r => record (fst r) (snd r) l) l (reports limit key items).
Proof using.
  unfold table. revert l. induction items as [|x items IH]; intros l; [done|].
  unfold reports. cbn [foldl omap list_omap]. unfold note_item at 2. destruct (priority x <=? limit); [|apply IH].
  destruct (key x) as [k|]; cbn [fmap option_fmap option_map]; [|apply IH]. cbn [foldl fst snd]. apply IH.
Qed.

Lemma table_reports limit key items : table priority limit key items loads_new = loads_of (reports limit key items).
Proof using. apply table_foldl. Qed.

Lemma table_more limit key items rs : table priority limit key items (loads_of rs) = loads_of (rs ++ reports limit key items).
Proof using. unfold loads_of. by rewrite table_foldl, foldl_app. Qed.

Lemma reports_costs limit key items : Forall (fun r => 0 <= snd r) (reports limit key items).
Proof using QL.
  apply Forall_forall. intros r (x & Hx & Hr)%list_elem_of_omap. destruct (_ <=? _); [|done].
  destruct (key x); [|done]. injection Hr as <-. apply byte_cost_range.
Qed.

Lemma in_reports limit key items k :
  k ∈ map fst (reports limit key items) <-> exists x, x ∈ items /\ key x = Some k /\ priority x <= limit.
Proof using.
  split.
  - intros (r & -> & (x & Hx & Hr)%list_elem_of_omap)%list_elem_of_fmap. exists x.
    destruct (Z.leb_spec (priority x) limit); [|done]. destruct (key x); [|done]. by injection Hr as <-.
  - intros (x & Hx & Hk & Hp). apply list_elem_of_fmap. exists (k, byte_cost x). split; [done|].
    apply list_elem_of_omap. exists x. split; [done|]. by rewrite (proj2 (Z.leb_le _ _) Hp), Hk.
Qed.

(** [min_by_key]: some element of the list, and of no higher priority than any. *)
Lemma lowest_spec (l : list (nat * T)) :
  match lowest priority l with
  | Some b => b ∈ l /\ forall x, x ∈ l -> priority (snd b) <= priority (snd x)
  | None => l = []
  end.
Proof using.
  induction l as [|x l IH] using rev_ind; [done|]. unfold lowest in *. rewrite foldl_app. cbn [foldl].
  destruct (foldl _ None l) as [b|].
  - destruct IH as [H1 H2]. destruct (Z.ltb_spec (priority (snd x)) (priority (snd b))).
    + split; [apply elem_of_app; right; by left|]. intros y [Hy|Hy%list_elem_of_singleton]%elem_of_app; [specialize (H2 y Hy); lia|subst; lia].
    + split; [apply elem_of_app; by left|]. intros y [Hy|Hy%list_elem_of_singleton]%elem_of_app; [by apply H2|subst; lia].
  - rewrite IH. cbn. split; [by left|]. intros y [->|Hy]%elem_of_cons; [lia|by apply not_elem_of_nil in Hy].
Qed.

Lemma in_imap_pair (items : list T) i x : (i, x) ∈ imap pair items <-> items !! i = Some x.
Proof using.
  rewrite list_elem_of_lookup. split.
  - intros (j & Hj). rewrite list_lookup_imap in Hj. destruct (items !! j) as [y|] eqn:E; [|done]. by injection Hj as <- <-.
  - intros H. exists i. by rewrite list_lookup_imap, H.
Qed.

Lemma pick_spec limit v kind items :
  match pick owner stream priority limit v kind items with
  | Some (i, x) => items !! i = Some x /\ candidate limit v kind x = true /\
      (forall j y, items !! j = Some y -> candidate limit v kind y = true -> priority x <= priority y)
  | None => forall j y, items !! j = Some y -> candidate limit v kind y = false
  end.
Proof using.
  unfold pick. pose proof (lowest_spec (List.filter (fun e => candidate limit v kind (snd e)) (imap pair items))) as H.
  destruct (lowest _ _) as [[i x]|].
  - destruct H as [H1 H2]. apply list_elem_of_In, filter_In in H1 as [H1%list_elem_of_In Hc]. apply in_imap_pair in H1.
    split_and!; [done|done|]. intros j y Hj Hy. apply (H2 (j, y)). apply list_elem_of_In, filter_In. split; [|done].
    by apply list_elem_of_In, in_imap_pair.
  - intros j y Hj. apply not_true_iff_false. intros Hc.
    assert ((j, y) ∈ List.filter (fun e => candidate limit v kind (snd e)) (imap pair items)) as Hin.
    { apply list_elem_of_In, filter_In. split; [|done]. by apply list_elem_of_In, in_imap_pair. }
    rewrite H in Hin. by apply not_elem_of_nil in Hin.
Qed.

Lemma candidate_spec limit v kind x :
  candidate limit v kind x = true <->
  priority x <= limit /\ owner x = Some v /\ match kind with Some ty => stream x = Some ty | None => True end.
Proof using.
  unfold AdmissionFairness.candidate. rewrite !andb_true_iff, Z.leb_le, bool_decide_eq_true.
  destruct kind; [rewrite bool_decide_eq_true|]; tauto.
Qed.

(** Reports of the victim, by their type. *)
Definition victim_streams (limit v : Z) (items : list T) : list (Z * Z) := reports limit (owned_stream owner stream v) items.

Lemma in_victim_streams limit v items ty :
  ty ∈ map fst (victim_streams limit v items) <->
  exists x, x ∈ items /\ owner x = Some v /\ stream x = Some ty /\ priority x <= limit.
Proof using.
  unfold victim_streams. rewrite in_reports. unfold owned_stream. split.
  - intros (x & H1 & H2 & H3). exists x. case_bool_decide; [done|done].
  - intros (x & H1 & H2 & H3 & H4). exists x. split_and!; try done. by rewrite bool_decide_eq_true_2.
Qed.

(** A victim with a report has one to give up, of its most repeated type if it
    repeats one. *)
Definition yields (limit v : Z) (items : list T) (x : T) : Prop :=
  owner x = Some v /\ priority x <= limit /\
  (crowded (victim_streams limit v items) \/ (forall ty, count_of ty (victim_streams limit v items) <= 1) \/
   exists ty, stream x = Some ty /\ 2 <= count_of ty (victim_streams limit v items)).

Lemma pick_victim limit v inc items y :
  let kind := queue_victim_owner inc (table priority limit (owned_stream owner stream v) items loads_new) in
  y ∈ items -> owner y = Some v -> priority y <= limit ->
  exists i x, pick owner stream priority limit v kind items = Some (i, x) /\ items !! i = Some x /\ yields limit v items x.
Proof using QL.
  intros kind Hy Ho Hp. assert (exists x, x ∈ items /\ candidate limit v kind x = true) as (x & (j & Hj)%list_elem_of_lookup & Hx).
  { unfold kind. rewrite table_reports. fold (victim_streams limit v items).
    pose proof (queue_victim_owner_spec (victim_streams limit v items) inc (reports_costs _ _ _)) as Hs.
    destruct (queue_victim_owner inc (loads_of (victim_streams limit v items))) as [ty|] eqn:E.
    - destruct Hs as [[(x & H1 & H2 & H3 & H4)%in_victim_streams _] _]. exists x. split; [done|].
      apply candidate_spec. split; [exact H4|]. split; [exact H2|exact H3].
    - exists y. split; [done|]. by apply candidate_spec. }
  pose proof (pick_spec limit v kind items) as Hpick. destruct (pick _ _ _ _ _ _ _) as [[i z]|].
  2: { by rewrite (Hpick j x Hj) in Hx. }
  destruct Hpick as (H1 & H2 & _). exists i, z. split; [done|]. split; [done|]. apply candidate_spec in H2 as (H2 & H3 & H4).
  split; [done|]. split; [done|]. unfold kind in H4. rewrite table_reports in H4. fold (victim_streams limit v items) in H4.
  pose proof (queue_victim_owner_spec (victim_streams limit v items) inc (reports_costs _ _ _)) as Hs.
  destruct (queue_victim_owner inc (loads_of (victim_streams limit v items))) as [ty|] eqn:E.
  2: { destruct Hs as [Hs|[Hs _]]; [by left|right; by left]. }
  destruct Hs as [[_ [[Hs _]|[_ Hs]]] _]; [right; right; by exists ty|auto].
Qed.

(** C27: Which entry of a full queue yields to an incoming report of the sender [s].  At
    the first choice of an admission ([selected] is [None]) an entry is chosen exactly if
    there are at most thirty-two senders to compare and some sender has several reports
    or [s] has one; its sender has several reports, and none with several holds more
    bytes, unless nobody has several: then it is [s] itself.  The further choices of the
    same admission stay with that sender ([selected] is [Some v]): an entry is chosen
    exactly if it has a report left, be it its last.  Either way the entry is a report of
    that sender of no higher priority than the incoming one and, if the sender repeats a
    type, of a type it repeats, as long as it has at most thirty-two types.  So a sender's
    only report yields to another sender's only if the sender had several when the
    admission began. *)
Theorem victim_fair items inc s selected r sel :
  owner inc = Some s -> queue_victim items inc selected = (r, sel) ->
  let rs := reports (priority inc) owner items in
  match selected with
  | None =>
      match r with
      | Some i => exists x v, items !! i = Some x /\ sel = Some v /\ chosen (Some s) rs v /\ yields (priority inc) v items x
      | None => sel = None /\ (crowded rs \/ ((forall k, count_of k rs <= 1) /\ s ∉ map fst rs))
      end
  | Some v =>
      sel = Some v /\
      match r with
      | Some i => exists x, items !! i = Some x /\ yields (priority inc) v items x
      | None => v ∉ map fst rs
      end
  end.
Proof using QL.
  intros Ho Hq rs. unfold AdmissionFairness.queue_victim in Hq. rewrite Ho in Hq. destruct selected as [v|].
  - injection Hq as <- <-. split; [done|]. destruct (decide (v ∈ map fst rs)) as [Hv|Hv].
    + pose proof Hv as (y & Hy & Hoy & Hpy)%in_reports.
      destruct (pick_victim (priority inc) v (if v =? s then stream inc else None) items y Hy Hoy Hpy) as (i & x & Hp & Hi & Hx).
      cbv zeta in Hp. rewrite Hp. by exists x.
    + set (kind := queue_victim_owner _ _). pose proof (pick_spec (priority inc) v kind items) as Hp.
      destruct (pick _ _ _ _ _ _ _) as [[i x]|]; [|done]. destruct Hp as (Hi & (Hx1 & Hx2 & _)%candidate_spec & _).
      destruct Hv. apply in_reports. exists x. split; [by eapply list_elem_of_lookup_2|done].
  - rewrite table_reports in Hq. fold rs in Hq. pose proof (queue_victim_owner_spec rs (Some s) (reports_costs _ _ _)) as Hs.
    destruct (queue_victim_owner (Some s) (loads_of rs)) as [v|].
    2: { injection Hq as <- <-. split; [done|]. destruct Hs as [Hs|[Hs1 Hs2]]; [by left|right]. split; [done|by apply Hs2]. }
    destruct Hs as [Hc _]. pose proof Hc as [(y & Hy & Hoy & Hpy)%in_reports _].
    destruct (pick_victim (priority inc) v (if v =? s then stream inc else None) items y Hy Hoy Hpy) as (i & x & Hp & Hi & Hx).
    cbv zeta in Hp. rewrite Hp in Hq. cbn [fst fmap option_fmap option_map] in Hq. injection Hq as <- <-. by exists x, v.
Qed.
End Choice.

(** ** One admission *)

Section Admission.
Context {T : Type} `{QE : QueueEnv T} `{QL : !QueueLaws T}.
Context (owner stream : T -> option Z) (priority : T -> Z).

Abbreviation queue_victim := (queue_victim owner stream priority).
Abbreviation select_loop := (select_loop owner stream priority).
Abbreviation push_fair := (push_fair owner stream priority).

Definition first_choice (inc : T) (items : list T) : option Z :=
  match owner inc with
  | None => None
  | Some s => queue_victim_owner (Some s) (table priority (priority inc) owner items loads_new)
  end.

(** The selector of an admission, given the choice at its start. *)
Definition settled (inc : T) (choice : option Z) (d : BoundedDeque T) : option nat :=
  match owner inc, choice with
  | Some _, None => None
  | _, _ => fst (queue_victim (q d) inc choice)
  end.

Lemma ensure_room_keeps_content c (d : BoundedDeque T) adm : is_u64 c -> queue_ok d -> over_limit c d = false ->
  q (snd (fst (ensure_room_for_one d adm))) = q d.
Proof using QL.
  intros Hc Hok Ho. destruct (over_limit_false c d Hc Hok Ho) as (_ & H2 & H3).
  pose proof (ensure_room_grows d adm Hok H2 H3) as H. destruct (ensure_room_for_one d adm) as [[room d1] adm1]. apply H.
Qed.

Lemma select_loop_fixed inc choice c fuel : forall d adm ev,
  match owner inc with Some _ => choice <> None | None => True end ->
  select_loop fuel inc choice c d adm ev =
  admit_loop fuel (evict_victim priority (priority inc) (settled inc choice)) c d adm ev.
Proof using.
  induction fuel as [|fuel IH]; intros d adm ev Hc; [done|]. cbn [AdmissionFairness.select_loop admit_loop].
  destruct (if over_limit c d then _ else _) as [[ready d1] adm1]. destruct ready; [done|].
  assert (queue_victim (q d1) inc choice = (settled inc choice d1, choice)) as ->.
  { unfold settled, AdmissionFairness.queue_victim. destruct (owner inc); [by destruct choice|by destruct choice]. }
  change (evict_victim priority (priority inc) (fun _ => settled inc choice d1) d1)
    with (evict_victim priority (priority inc) (settled inc choice) d1).
  destruct (evict_victim _ _ _ d1) as [[old d2]|e]; [by apply IH|done].
Qed.

(** The first scan of an admission decides for all of it. *)
Lemma select_loop_settled inc c fuel d adm ev : is_u64 c -> queue_ok d ->
  select_loop fuel inc None c d adm ev =
  admit_loop fuel (evict_victim priority (priority inc) (settled inc (first_choice inc (q d)))) c d adm ev.
Proof using QL.
  intros Hc0 Hok. destruct (owner inc) as [s|] eqn:Eo.
  2: { rewrite select_loop_fixed by (by rewrite Eo). unfold first_choice. by rewrite Eo. }
  destruct fuel as [|fuel]; [done|]. cbn [AdmissionFairness.select_loop admit_loop].
  assert (q (snd (fst (if over_limit c d then (false, d, adm) else ensure_room_for_one d adm))) = q d) as Hq
    by (destruct (over_limit c d) eqn:E; [done|by apply (ensure_room_keeps_content c)]).
  destruct (if over_limit c d then _ else _) as [[ready d1] adm1]. cbn [fst snd] in Hq. destruct ready; [done|].
  assert (queue_victim (q d1) inc None = (settled inc (first_choice inc (q d)) d1, first_choice inc (q d))) as ->.
  { unfold settled, first_choice, AdmissionFairness.queue_victim. rewrite Eo, Hq. by destruct (queue_victim_owner _ _). }
  change (evict_victim priority (priority inc) (fun _ => settled inc (first_choice inc (q d)) d1) d1)
    with (evict_victim priority (priority inc) (settled inc (first_choice inc (q d))) d1).
  destruct (evict_victim _ _ _ d1) as [[old d2]|e] eqn:Ee; [|done]. apply select_loop_fixed. rewrite Eo. intros Hn.
  unfold evict_victim, settled in Ee. by rewrite Eo, Hn in Ee.
Qed.

Lemma push_fair_admitted v d adm : queue_ok d ->
  push_fair v d adm =
  push_admitted (fun w => evict_victim priority (priority w) (settled w (first_choice w (q d)))) v priority d adm.
Proof using QL.
  intros Hok. unfold AdmissionFairness.push_fair, push_admitted. destruct (park_for_queue v) as [w|]; [|done].
  destruct (_ =? _); [done|]. destruct (_ <? _); [done|]. by rewrite select_loop_settled by (done || apply byte_cost_range).
Qed.

(** Only reports of the one sender go. *)
Definition only_from (inc : T) (items : list T) (ev : list T) : Prop :=
  match owner inc with
  | None => True
  | Some _ => ev = [] \/ exists v, first_choice inc items = Some v /\
                Forall (fun x => owner x = Some v /\ priority x <= priority inc) ev
  end.

Lemma settled_evicts inc items :
  evicts (evict_victim priority (priority inc) (settled inc (first_choice inc items))) (fun ev l =>
    (Permutation items (l ++ ev) /\ sublist l items /\ Forall (fun x => protected_from (priority x) (priority inc) = false) ev) /\
    only_from inc items ev).
Proof using QL.
  intros d ev o d' Hok [HP HF] He.
  destruct (evict_victim_evicts items priority (priority inc) _ d ev o d' Hok HP He) as (x & -> & H1 & H2 & H3 & H4).
  exists x. split; [done|]. split; [done|]. split; [done|]. split; [done|]. split; [done|].
  unfold only_from in *. destruct (owner inc) as [s|] eqn:Eo; [|done]. right.
  unfold evict_victim in He. destruct (settled inc (first_choice inc items) d) as [i|] eqn:Es; [|done].
  unfold settled, AdmissionFairness.queue_victim in Es. rewrite Eo in Es.
  destruct (first_choice inc items) as [v|] eqn:Ef; [|done]. cbv zeta in Es. cbn [fst] in Es.
  pose proof (pick_spec owner stream priority (priority inc) v
    (queue_victim_owner (if v =? s then stream inc else None) (table priority (priority inc) (owned_stream owner stream v) (q d) loads_new)) (q d)) as Hp.
  destruct (pick _ _ _ _ _ _ _) as [[j y]|]; [|done]. cbn in Es. injection Es as <-. destruct Hp as (Hj & Hy & _).
  rewrite Hj in He. destruct (protected_from _ _); [done|]. unfold remove_pos in He. rewrite Hj in He. injection He as -> _.
  apply candidate_spec in Hy as (Hy1 & Hy2 & _). exists v. split; [done|]. apply Forall_app. split; [|by constructor].
  destruct HF as [->|(v' & Hv' & HF)]; [done|]. by injection Hv' as <-.
Qed.

Lemma first_choice_chosen inc s items v :
  owner inc = Some s -> first_choice inc items = Some v -> chosen (Some s) (reports priority (priority inc) owner items) v.
Proof using QL.
  intros Eo Ef. unfold first_choice in Ef. rewrite Eo, table_reports in Ef.
  pose proof (queue_victim_owner_spec (reports priority (priority inc) owner items) (Some s) (reports_costs _ _ _ _)) as Hc.
  rewrite Ef in Hc. apply Hc.
Qed.

Lemma push_fair_spec v w d adm :
  queue_ok d -> by_priority priority (q d) -> park_for_queue v = Ok w ->
  exists res d' adm' ev,
    push_fair v d adm = Some (res, d', adm', ev) /\ queue_ok d' /\ by_priority priority (q d') /\
    (fits (byte_cost w) d -> res = Ok tt /\ ev = []) /\ only_from w (q d) ev /\
    Forall (fun x => protected_from (priority x) (priority w) = false) ev /\
    exists kept, Permutation (q d) (kept ++ ev) /\ sublist kept (q d) /\
      match res with Ok _ => joins_band priority w kept (q d') | Err _ => q d' = kept end.
Proof using QL.
  intros Hok Hs Hv. rewrite push_fair_admitted by done.
  destruct (push_admitted_spec (fun w => evict_victim priority (priority w) (settled w (first_choice w (q d))))
    (fun w ev l => (Permutation (q d) (l ++ ev) /\ sublist l (q d) /\
       Forall (fun x => protected_from (priority x) (priority w) = false) ev) /\ only_from w (q d) ev) v priority d adm)
    as (res & d' & adm' & ev & Hrun & Hok' & Hs' & H); [| | |done|].
  { intros x. apply settled_evicts. }
  { intros x. rewrite app_nil_r. split_and!; try done. unfold only_from. destruct (owner x); [by left|done]. }
  { intros x ev l [(_ & Hsub & _) _]. by eapply by_priority_sublist. }
  rewrite Hv in H. destruct H as (Hfit & kept & [(Hq & Hsub & Hev) Hone] & H).
  exists res, d', adm', ev. do 6 (split; [done|]). exists kept. split; [done|]. split; [done|]. destruct res; [done|]. tauto.
Qed.

(** A whole admission takes from one sender.  Admitting a report of the sender [s]
    to a queue in priority order always ends and keeps the queue in its bounds and in
    order; it takes nothing if the report fits.  Everything it takes, however many
    entries that is, and whether or not room is made in the end, are reports of a single
    sender that had several of them when the admission began and the greatest backlog of
    those, or of [s] itself when nobody had several; and none outranks the new report.
    All other entries stay, in their order. *)
Theorem fair_admission v w s d adm :
  queue_ok d -> by_priority priority (q d) -> park_for_queue v = Ok w -> owner w = Some s ->
  exists res d' adm' ev,
    push_fair v d adm = Some (res, d', adm', ev) /\ queue_ok d' /\ by_priority priority (q d') /\
    (fits (byte_cost w) d -> res = Ok tt /\ ev = []) /\
    (ev = [] \/ exists victim, chosen (Some s) (reports priority (priority w) owner (q d)) victim /\
                 Forall (fun x => owner x = Some victim /\ priority x <= priority w) ev) /\
    exists kept, Permutation (q d) (kept ++ ev) /\ sublist kept (q d) /\
      match res with Ok _ => joins_band priority w kept (q d') | Err _ => q d' = kept end.
Proof using QL.
  intros Hok Hs Hv Hw. destruct (push_fair_spec v w d adm Hok Hs Hv) as (res & d' & adm' & ev & H1 & H2 & H3 & H4 & H5 & _ & H6).
  exists res, d', adm', ev. do 4 (split; [done|]). split; [|done].
  unfold only_from in H5. rewrite Hw in H5. destruct H5 as [->|(x & Hx & HF)]; [by left|right].
  exists x. split; [by apply first_choice_chosen|done].
Qed.
End Admission.

(** ** On a queue *)

(** Entries with an owner and a type; a negative owner cannot be chosen. *)
Record FairEntry : Type := { e_owner : Z; e_type : Z; e_priority : Z; e_cost : Z }.
#[export] Instance FairEntry_queue : QueueEnv FairEntry :=
  {| byte_cost e := Z.max 0 (Z.min (e_cost e) 1000); park_entry e := Ok e; item_size := 8;
     reserve_exact len cap additional := Some (Z.max cap (len + additional)); compact_store := false |}.
#[export] Instance FairEntry_laws : QueueLaws FairEntry.
Proof. split; [intros v; cbn; solve_u|]. intros len cap additional c [= <-]. lia. Qed.

Definition entry_owner (e : FairEntry) : option Z := if 0 <=? e_owner e then Some (e_owner e) else None.
Definition entry_stream (e : FairEntry) : option Z := Some (e_type e).
Definition report (o t c : Z) : FairEntry := {| e_owner := o; e_type := t; e_priority := 3; e_cost := c |}.
Definition report_queue (l : list FairEntry) (bytes : Z) : BoundedDeque FairEntry :=
  {| q := l; capacity := 16; max_bytes := bytes; cur_bytes := total_cost l; max_elems := 16; grow_num := 1; grow_den := 1;
     fixed_capacity := true; fair_priority_cursor := 255; fair_owed_priority := 0; fair_owed_flags := 0 |}.
Definition no_probe : Admission := {| probe := None; probe_v2 := None; rejected := 0 |}.

(** Sender 2 has two reports, sender 1 one; sender 3 brings another. *)
Definition busy : list FairEntry := [report 1 7 30; report 2 7 60; report 2 8 60].

Lemma busy_ok : queue_ok (report_queue busy 150) /\ by_priority e_priority busy.
Proof. split; [split; vm_compute; repeat split; discriminate|]. repeat constructor; cbn; lia. Qed.

Lemma victim_fair_witness :
  (exists x, busy !! 1%nat = Some x /\ yields entry_owner entry_stream e_priority 3 2 busy x) /\
  exists x, [report 1 7 30; report 2 8 60] !! 1%nat = Some x /\ yields entry_owner entry_stream e_priority 3 2 [report 1 7 30; report 2 8 60] x.
Proof.
  pose proof (victim_fair entry_owner entry_stream e_priority busy (report 3 7 20) 3 None (Some 1%nat) (Some 2) eq_refl ltac:(vm_compute; reflexivity))
    as (x & v & H1 & H2 & _ & H4). injection H2 as <-.
  pose proof (victim_fair entry_owner entry_stream e_priority [report 1 7 30; report 2 8 60] (report 3 7 100) 3 (Some 2) (Some 1%nat) (Some 2)
    eq_refl ltac:(vm_compute; reflexivity)) as (_ & y & H5 & H6).
  split; [by exists x|by exists y].
Defined.

Lemma fair_admission_witness :
  exists d adm ev, push_fair entry_owner entry_stream e_priority (report 3 7 20) (report_queue busy 150) no_probe = Some (Ok tt, d, adm, ev)
    /\ queue_ok d /\ ev = [report 2 7 60].
Proof.
  destruct busy_ok as [H1 H2].
  destruct (fair_admission entry_owner entry_stream e_priority (report 3 7 20) (report 3 7 20) 3 (report_queue busy 150) no_probe H1 H2 eq_refl eq_refl)
    as (res & d & adm & ev & Hrun & Hok & _).
  pose proof Hrun as Hrun'. vm_compute in Hrun'. injection Hrun' as <- <- <- <-.
  eexists _, _, _. split; [exact Hrun|]. split; [exact Hok|]. reflexivity.
Defined.

(** The choice is kept for the whole admission: a larger report of sender 3 takes both
    reports of sender 2, the second of which was by then its only one. *)
Lemma last_report_lost :
  exists d adm, push_fair entry_owner entry_stream e_priority (report 3 7 100) (report_queue busy 150) no_probe
    = Some (Ok tt, d, adm, [report 2 7 60; report 2 8 60]) /\ q d = [report 1 7 30; report 3 7 100].
Proof. eexists _, _. split; vm_compute; reflexivity. Qed.
