(* ===== verification/RouterQueues.v ===== *)
(** * The queues of a router and their budget (src/src/router.rs)

    Received and outgoing work, the partial transfers of the sides, the codec ledgers
    and the protected metadata share one byte budget.  Making room in it gives up
    codec ledgers first, then reports of the sender with the largest backlog, then
    whatever does not outrank the new work and is disposable; an original is given up
    only where it counts as a report.  This file models the queued items, what may be given up and the loops
    that make room, and the two pushes. *)

From S2P Require Import Prelude OrdMap Schema Packet WireEnv WireReader WireFrame WirePeek MemoryAdmission.
From S2P Require Import WireSample SideAssembly PayloadCodec AdmissionFairness Queue.

Open Scope Z_scope.

(** ** Queued items *)

Inductive RouterItem : Type := IPacket (p : Packet) | IPacked (b : bytes).

Record RouterRxItem : Type := { rx_src : option Z; rx_data : RouterItem; rx_priority : Z }.

Inductive RouterTxItem : Type :=
| Broadcast (data : RouterItem)
| EndToEndReplay (packet_id : Z)
| ToSide (src : option Z) (dst : Z) (data : RouterItem)
| ReliableReplay (dst : Z) (ty seq : Z) (b : bytes).

Inductive QueuedDelivery : Type :=
| Untracked | OrderedTail | Ordered | DeferredOrdered | DeferredUnordered | Unordered | ClaimedOrdered | ClaimedUnordered
| LocalOrderedSide | DeferredLocalOrderedSide | ClaimedLocalOrderedSide | ClaimedAnchoredLocalOrderedSide.

Record TxQueued : Type := {
  disposable : Z;
  tx_item : RouterTxItem;
  ignore_local : bool;
  tx_priority : Z;
  delivery_state : QueuedDelivery;
  accepted_type : Z;
  deferred_since_ms : Z;
  retry_after_ms : Z;
}.

Definition TX_DISPOSABLE : Z := 1.
Definition TX_E2E_CHILD : Z := 8.

Inductive ReplayMarkerKey : Type := MarkEndToEnd (id : Z) | MarkHop (side ty seq : Z).
#[export] Instance ReplayMarkerKey_eq_dec : EqDecision ReplayMarkerKey.
Proof. solve_decision. Defined.
#[export] Instance ReplayMarkerKey_countable : Countable ReplayMarkerKey.
Proof.
  refine (inj_countable' (fun k => match k with MarkEndToEnd i => inl i | MarkHop s t n => inr (s, t, n) end)
    (fun x => match x with inl i => MarkEndToEnd i | inr (s, t, n) => MarkHop s t n end) _).
  by intros [].
Defined.

Definition replay_marker_key (i : RouterTxItem) : option ReplayMarkerKey :=
  match i with
  | EndToEndReplay id => Some (MarkEndToEnd id)
  | ReliableReplay dst ty seq _ => Some (MarkHop dst ty seq)
  | _ => None
  end.

(** The sizes of the program's types, and the allocator behind each queue. *)
Class RouterLayout : Type := {
  size_packet : Z;
  size_small_payload : Z;
  size_endpoint : Z;
  size_shared : Z;
  inline_capacity : Z;
  size_rx_item : Z;
  size_tx_queued : Z;
  ring_reserve : forall item_size len cap additional : Z, option Z;
}.

Section Costs.
Context `{RL : RouterLayout}.

(** Short payloads are kept inline. *)
Definition payload_cost (b : bytes) : Z :=
  if (zlen b <=? inline_capacity) && (zlen b <=? 255) then zlen b else sat_add size_small_payload (zlen b).

Definition queue_byte_cost_saturated (p : Packet) : Z :=
  sat_add (sat_add (sat_add size_packet (zlen (sender p))) (sat_mul (zlen (pkt_endpoints p)) size_endpoint))
          (payload_cost (payload p)).

Definition item_cost (i : RouterItem) : Z :=
  match i with IPacket p => queue_byte_cost_saturated p | IPacked b => wrap64 (size_shared + zlen b) end.

Definition tx_item_cost (i : RouterTxItem) : Z :=
  match i with
  | Broadcast data | ToSide _ _ data => item_cost data
  | EndToEndReplay _ => 8
  | ReliableReplay _ _ _ b => wrap64 (size_shared + zlen b)
  end.

(** A flag, a priority and two times beside the item. *)
Definition cost_with_item (cost : Z) : Z := sat_add (sat_add (sat_add cost 1) 1) 16.
End Costs.

#[export] Instance rx_queue_env `{RL : RouterLayout} : QueueEnv RouterRxItem :=
  {| Queue.byte_cost x := item_cost (rx_data x); park_entry := Ok; item_size := size_rx_item;
     reserve_exact := ring_reserve size_rx_item; compact_store := false |}.
#[export] Instance tx_queue_env `{RL : RouterLayout} : QueueEnv TxQueued :=
  {| Queue.byte_cost x := cost_with_item (tx_item_cost (tx_item x)); park_entry := Ok; item_size := size_tx_queued;
     reserve_exact := ring_reserve size_tx_queued; compact_store := false |}.

Class RouterLaws `{RL : RouterLayout} : Prop := {
  sizes_nonneg : 0 <= size_packet /\ 0 <= size_small_payload /\ 0 <= size_endpoint;
  ring_reserve_room : forall item len cap additional c,
    ring_reserve item len cap additional = Some c -> cap <= c /\ len + additional <= c;
}.

(** ** What may be given up *)

Section Kinds.
Context `{WE : WireEnv}.

Definition is_internal_control_type (ty : DataType) : bool :=
  one_of ty [ty_ReliableAck; ty_ReliablePartialAck; ty_ReliablePacketRequest; ty_P2pMessage]
  || one_of ty [ty_TimeSyncAnnounce; ty_TimeSyncRequest; ty_TimeSyncResponse]
  || is_discovery_type ty.

Definition classify_transmit_disposable (x : TxQueued) : bool :=
  match tx_item x with
  | Broadcast data | ToSide _ _ data =>
      match data with
      | IPacket p =>
          is_internal_control_type (ty p)
          || (negb (is_reliable_type we_registry (ty p)) && is_empty (wire_target_senders p))
      | IPacked b =>
          match peek_routing_frame_info b with
          | Err _ => true
          | Ok frame =>
              let env := fi_envelope frame in
              is_internal_control_type (re_ty env)
              || (negb (is_reliable_type we_registry (re_ty env)) && match fi_reliable frame with None => true | Some _ => false end
                  && is_empty (targets_of (re_targets env)))
          end
      end
  | _ => true
  end.

(** The number of the owner; the book has a name for it already or learns it. *)
Definition fair_bulk_owner (data : RouterItem) (priority : Z) : option Z :=
  match data with
  | IPacket p => fst (packet_owner we_registry ∅ p priority)
  | IPacked b => packed_owner b priority
  end.

Definition tx_bulk_owner (x : TxQueued) : option Z :=
  if has_flag (disposable x) TX_E2E_CHILD then None
  else match tx_item x with
       | Broadcast data | ToSide _ _ data => fair_bulk_owner data (tx_priority x)
       | _ => None
       end.

Definition rx_bulk_owner (x : RouterRxItem) : option Z := fair_bulk_owner (rx_data x) (rx_priority x).

Definition bulk_stream (data : RouterItem) : option Z :=
  match data with IPacket p => Some (ty p) | IPacked b => scheduling_type b end.

Definition tx_bulk_stream (x : TxQueued) : option Z :=
  match tx_item x with Broadcast data | ToSide _ _ data => bulk_stream data | _ => None end.
Definition rx_bulk_stream (x : RouterRxItem) : option Z := bulk_stream (rx_data x).

(** [Router::item_data_type] and [Router::get_hash]. *)
Definition item_data_type (data : RouterItem) : result DataType :=
  match data with
  | IPacket p => Ok (ty p)
  | IPacked b => env ← peek_routing_envelope b; Ok (re_ty env)
  end.

Definition get_hash (data : RouterItem) : Z :=
  match data with
  | IPacket p => packet_id p
  | IPacked b => match packet_id_from_wire b with Ok id => id | Err _ => hash_bytes_u64 11400714819323198485 b end
  end.

Definition schema_response_owner (i : RouterTxItem) : option (Z * Z) :=
  match i with
  | ToSide _ dst data =>
      match item_data_type data with
      | Ok ty => if ty =? ty_DiscoverySchema then Some (dst, get_hash data) else None
      | Err _ => None
      end
  | _ => None
  end.

(** *** The two classifications

    A frame declares its reliability in its header; the schema here may say more. *)
Definition undeclared (data : RouterItem) : Prop :=
  match data with
  | IPacket _ => False
  | IPacked b => exists frame, peek_routing_frame_info b = Ok frame /\ re_is_reliable (fi_envelope frame) = false /\
                   is_reliable_type we_registry (re_ty (fi_envelope frame)) = true
  end.
#[export] Instance undeclared_dec data : Decision (undeclared data).
Proof.
  destruct data as [p|b]; cbn; [by right; intros []|]. destruct (peek_routing_frame_info b) as [fr|] eqn:E.
  - destruct (re_is_reliable (fi_envelope fr)) eqn:E1; [right; intros (f & [= <-] & ? & _); congruence|].
    destruct (is_reliable_type we_registry (re_ty (fi_envelope fr))) eqn:E2; [left; by exists fr|right; intros (f & [= <-] & _ & ?); congruence].
  - right. by intros (f & ? & _).
Defined.




End Kinds.

(** ** The shared pool *)

Inductive SchemaResponsePhase : Type := PhIdle | PhPrefixBuilding | PhCatalogWaiting | PhCatalogBuilding | PhOwned.
#[export] Instance SchemaResponsePhase_eq_dec : EqDecision SchemaResponsePhase.
Proof. solve_decision. Defined.

(** The answer to a schema request that is owed to a side. *)
Record SchemaResponse : Type := {
  sr_active : bool;
  sr_started : bool;
  sr_phase : SchemaResponsePhase;
  sr_packet_id : Z;
}.

Record SideBuffers : Type := { sb_rx : RxChunks; sb_codec : Ledger }.

(** [sides] is in the order of the side numbers; [announced] are the sides whose route
    has announcers; [replay_queued] has the mark of every retained replay record;
    [other_metadata] is the protected metadata besides the codec ledgers, which making
    room does not change. *)
Record Pool : Type := {
  received_queue : BoundedDeque RouterRxItem;
  transmit_queue : BoundedDeque TxQueued;
  sides : list (Z * SideBuffers);
  announced : list Z;
  replay_queued : gmap ReplayMarkerKey bool;
  responses : gmap Z SchemaResponse;
  other_metadata : Z;
  codec_reserved_bytes : Z;
  max_queue_budget : Z;
}.

Inductive RouterQueueKind : Type := Received | Transmit.
#[export] Instance RouterQueueKind_eq_dec : EqDecision RouterQueueKind.
Proof. solve_decision. Defined.

Definition set_received (d : BoundedDeque RouterRxItem) (st : Pool) : Pool :=
  {| received_queue := d; transmit_queue := transmit_queue st; sides := sides st; announced := announced st;
     replay_queued := replay_queued st; responses := responses st; other_metadata := other_metadata st;
     codec_reserved_bytes := codec_reserved_bytes st; max_queue_budget := max_queue_budget st |}.
Definition set_transmit (d : BoundedDeque TxQueued) (st : Pool) : Pool :=
  {| received_queue := received_queue st; transmit_queue := d; sides := sides st; announced := announced st;
     replay_queued := replay_queued st; responses := responses st; other_metadata := other_metadata st;
     codec_reserved_bytes := codec_reserved_bytes st; max_queue_budget := max_queue_budget st |}.
Definition set_sides (s : list (Z * SideBuffers)) (st : Pool) : Pool :=
  {| received_queue := received_queue st; transmit_queue := transmit_queue st; sides := s; announced := announced st;
     replay_queued := replay_queued st; responses := responses st; other_metadata := other_metadata st;
     codec_reserved_bytes := codec_reserved_bytes st; max_queue_budget := max_queue_budget st |}.
Definition set_marks (m : gmap ReplayMarkerKey bool) (r : gmap Z SchemaResponse) (st : Pool) : Pool :=
  {| received_queue := received_queue st; transmit_queue := transmit_queue st; sides := sides st; announced := announced st;
     replay_queued := m; responses := r; other_metadata := other_metadata st;
     codec_reserved_bytes := codec_reserved_bytes st; max_queue_budget := max_queue_budget st |}.
Definition set_reserved (n : Z) (st : Pool) : Pool :=
  {| received_queue := received_queue st; transmit_queue := transmit_queue st; sides := sides st; announced := announced st;
     replay_queued := replay_queued st; responses := responses st; other_metadata := other_metadata st;
     codec_reserved_bytes := n; max_queue_budget := max_queue_budget st |}.

Definition DISCOVERY_ROUTE_TTL_MS : Z := 30000.

Section Room.
Context `{WE : WireEnv} `{RL : RouterLayout} (peer_size : Z).

Definition set_replay_queued (key : ReplayMarkerKey) (queued : bool) (m : gmap ReplayMarkerKey bool) : gmap ReplayMarkerKey bool :=
  alter (fun _ => queued) key m.

Definition schema_response_owner_lost (owner : option (Z * Z)) (r : gmap Z SchemaResponse) : gmap Z SchemaResponse :=
  match owner with
  | None => r
  | Some (side, id) =>
      alter (fun x => if sr_active x && bool_decide (sr_phase x = PhOwned) && (sr_packet_id x =? id)
                      then {| sr_active := sr_active x; sr_started := false; sr_phase := PhCatalogWaiting; sr_packet_id := 0 |}
                      else x) side r
  end.

(** What the loss of a transmit entry is told to. *)
Definition tx_lost (x : TxQueued) (st : Pool) : Pool :=
  set_marks (match replay_marker_key (tx_item x) with
             | Some key => set_replay_queued key false (replay_queued st)
             | None => replay_queued st
             end)
            (schema_response_owner_lost (schema_response_owner (tx_item x)) (responses st)) st.

(** *** What is used *)

Definition usize_sum (l : list Z) : Z := wrap64 (foldr Z.add 0 l).
Definition side_chunk_bytes_used (st : Pool) : Z := usize_sum (map (fun s => rx_chunk_bytes (sb_rx (snd s))) (sides st)).
Definition protected_metadata_bytes_used (st : Pool) : Z :=
  sat_add (usize_sum (map (fun s => PayloadCodec.heap_bytes peer_size (sb_codec (snd s))) (sides st))) (other_metadata st).
Definition shared_queue_bytes_used (st : Pool) : Z :=
  sat_add (sat_add (sat_add (sat_add (cur_bytes (received_queue st)) (cur_bytes (transmit_queue st)))
                            (side_chunk_bytes_used st))
                   (protected_metadata_bytes_used st))
          (codec_reserved_bytes st).

(** *** Codec ledgers and partial transfers *)

(** [any]: the first ledger that has something to forget. *)
Fixpoint evict_first (l : list (Z * SideBuffers)) : bool * list (Z * SideBuffers) :=
  match l with
  | [] => (false, [])
  | (side, b) :: l =>
      let '(hit, codec) := evict_for_budget DISCOVERY_ROUTE_TTL_MS peer_size (sb_codec b) in
      if hit then (true, (side, {| sb_rx := sb_rx b; sb_codec := codec |}) :: l)
      else let '(hit, l) := evict_first l in (hit, (side, b) :: l)
  end.
Definition reclaim_codec_metadata (st : Pool) : bool * Pool :=
  let '(hit, l) := evict_first (sides st) in (hit, set_sides l st).

Fixpoint take_from (side id : Z) (l : list (Z * SideBuffers)) : bool * list (Z * SideBuffers) :=
  match l with
  | [] => (false, [])
  | (s, b) :: l =>
      if s =? side then
        let '(gone, rx) := take_chunk id true (sb_rx b) in
        (match gone with Some _ => true | None => false end, (s, {| sb_rx := rx; sb_codec := sb_codec b |}) :: l)
      else let '(hit, l) := take_from side id l in (hit, (s, b) :: l)
  end.
Definition discard_side_chunk (side id : Z) (st : Pool) : bool * Pool :=
  let '(hit, l) := take_from side id (sides st) in (hit, set_sides l st).

Fixpoint oldest_chunk (keep : option (Z * Z)) (l : list (Z * SideBuffers)) (victim : option (Z * Z)) (time : Z) : option (Z * Z) :=
  match l with
  | [] => victim
  | (side, b) :: l =>
      let preserved := match keep with Some (owner, id) => if owner =? side then Some id else None | None => None end in
      match oldest (rx_chunks (sb_rx b)) preserved with
      | Some (id, seen) =>
          if (match victim with None => true | Some _ => false end) || (seen <? time)
          then oldest_chunk keep l (Some (side, id)) seen
          else oldest_chunk keep l victim time
      | None => oldest_chunk keep l victim time
      end
  end.
Definition reclaim_oldest_side_chunk (keep : option (Z * Z)) (st : Pool) : bool * Pool :=
  match oldest_chunk keep (sides st) None u64_max with
  | Some (side, id) => discard_side_chunk side id st
  | None => (false, st)
  end.

(** The first of two times, then of two sides, then of two transfers. *)
Definition earlier (a b : Z * Z * Z) : bool :=
  let '(t1, s1, i1) := a in let '(t2, s2, i2) := b in
  (t1 <? t2) || ((t1 =? t2) && ((s1 <? s2) || ((s1 =? s2) && (i1 <? i2)))).
Definition incomplete (a : SideChunkAssembly) : bool :=
  negb ((asm_total a =? 0) || (received_count a =? 0) || (asm_total a <=? received_count a)).
Definition incomplete_of (st : Pool) : list (Z * Z * Z) :=
  concat (map (fun s => if one_of (fst s) (announced st) then []
                        else map (fun e => (last_seen_ms (snd e), fst s, fst e))
                               (List.filter (fun e => incomplete (snd e)) (entries (rx_chunks (sb_rx (snd s)))))) (sides st)).
Definition reclaim_unannounced_incomplete_chunk (st : Pool) : bool * Pool :=
  match foldl (fun best c => match best with Some b => if earlier c b then Some c else Some b | None => Some c end)
              None (incomplete_of st) with
  | Some (_, side, id) => discard_side_chunk side id st
  | None => (false, st)
  end.

(** *** Queued work *)

(** The last of the disposable entries with the lowest priority. *)
Definition transmit_eviction_candidate (items : list TxQueued) : option nat :=
  fst <$> foldl (fun best x => match best with
                               | Some b => if tx_priority (snd x) <=? tx_priority (snd b) then Some x else Some b
                               | None => Some x
                               end) None
            (List.filter (fun e => has_flag (disposable (snd e)) TX_DISPOSABLE) (imap pair items)).

Definition pop_shared_queue_item (preferred : RouterQueueKind) (st : Pool) : bool * Pool :=
  match preferred with
  | Received =>
      let '(x, d) := pop_back (received_queue st) in
      (match x with Some _ => true | None => false end, set_received d st)
  | Transmit =>
      match transmit_eviction_candidate (q (transmit_queue st)) with
      | None => (false, st)
      | Some i =>
          match remove_pos i (transmit_queue st) with
          | (None, _) => (false, st)
          | (Some x, d) => (true, tx_lost x (set_transmit d st))
          end
      end
  end.

Definition lowest_disposable (items : list TxQueued) : option Z :=
  foldl (fun best x => if has_flag (disposable x) TX_DISPOSABLE
                       then Some (match best with Some b => Z.min b (tx_priority x) | None => tx_priority x end) else best)
        None items.

Definition gives_way (incoming_priority p : Z) : bool :=
  (p <? incoming_priority) || (negb (incoming_priority =? 254) && (p =? incoming_priority)).

Definition lower_priority_shared_queue (incoming_priority : Z) (st : Pool) : option RouterQueueKind :=
  let offer (kind : RouterQueueKind) p := match p with
    | Some p => if gives_way incoming_priority p then [(kind, p)] else []
    | None => []
    end in
  match offer Received (lowest_priority rx_priority (received_queue st)), offer Transmit (lowest_disposable (q (transmit_queue st))) with
  | [(_, r)], [(_, t)] => Some (if r <=? t then Received else Transmit)
  | [_], [] => Some Received
  | [], [_] => Some Transmit
  | _, _ => None
  end.

Definition bulk_loads (priority : Z) (st : Pool) : Loads :=
  table tx_priority priority tx_bulk_owner (q (transmit_queue st))
    (table rx_priority priority rx_bulk_owner (q (received_queue st)) loads_new).

Definition competing_bulk_owner (inc priority : Z) (st : Pool) : option Z := dominant_other inc (bulk_loads priority st).

Definition victim_stream (owner priority : Z) (incoming_stream : option Z) (st : Pool) : option Z :=
  queue_victim_owner incoming_stream
    (table tx_priority priority (owned_stream tx_bulk_owner tx_bulk_stream owner) (q (transmit_queue st))
      (table rx_priority priority (owned_stream rx_bulk_owner rx_bulk_stream owner) (q (received_queue st)) loads_new)).

Definition reclaim_bulk_from (owner priority : Z) (incoming_stream : option Z) (st : Pool) : bool * Pool :=
  let kind := victim_stream owner priority incoming_stream st in
  let rx := pick rx_bulk_owner rx_bulk_stream rx_priority priority owner kind (q (received_queue st)) in
  let tx := pick tx_bulk_owner tx_bulk_stream tx_priority priority owner kind (q (transmit_queue st)) in
  let from_rx i := let '(x, d) := remove_pos i (received_queue st) in
                   (match x with Some _ => true | None => false end, set_received d st) in
  let from_tx i := let '(x, d) := remove_pos i (transmit_queue st) in
                   (match x with Some _ => true | None => false end, set_transmit d st) in
  match rx, tx with
  | Some (i, x), Some (j, y) => if rx_priority x <=? tx_priority y then from_rx i else from_tx j
  | Some (i, _), None => from_rx i
  | None, Some (j, _) => from_tx j
  | None, None => (false, st)
  end.

(** *** Making room *)

(** A packet of the network's own maintenance. *)
Definition known_maintenance (inc : option RouterItem) : bool :=
  match inc with
  | Some (IPacket p) => is_internal_control_type (ty p) && negb (ty p =? ty_P2pMessage)
  | _ => false
  end.

Definition saturated {A} : result A := Err (Io "shared priority queue saturated").

(** A report of the chosen sender, if one was chosen. *)
Definition reclaim_victim (victim owner : option Z) (limit : Z) (inc : option RouterItem) (st : Pool) : bool * Pool :=
  match victim with
  | Some v => reclaim_bulk_from v limit (if bool_decide (owner = Some v) then inc ≫= bulk_stream else None) st
  | None => (false, st)
  end.

(** The part below the optional reclaims: bulk by sender, then what gives way. *)
Definition reclaim_queued (incoming_priority : Z) (inc : option RouterItem) (fair_victim : option (option Z)) (st : Pool)
    : result (option (option Z)) * Pool :=
  let limit := Z.min incoming_priority 199 in
  let owner := inc ≫= fun data => fair_bulk_owner data incoming_priority in
  let victim := match fair_victim with Some v => v | None => queue_victim_owner owner (bulk_loads limit st) end in
  let '(reclaimed, st1) := reclaim_victim victim owner limit inc st in
  if reclaimed then (Ok (Some victim), st1)
  else match owner with
  | Some _ => (saturated, st1)
  | None =>
      match lower_priority_shared_queue incoming_priority st1 with
      | Some kind =>
          let '(popped, st2) := pop_shared_queue_item kind st1 in
          if popped then (Ok (Some victim), st2)
          else (Err (PacketTooLarge "Item exceeds maximum shared queue budget"), st2)
      | None =>
          if 200 <=? incoming_priority then
            let '(hit, st2) := reclaim_oldest_side_chunk None st1 in
            if hit then (Ok (Some victim), st2) else (saturated, st2)
          else (saturated, st1)
      end
  end.

(** [None] only without fuel. *)
Fixpoint shared_room_loop (fuel : nat) (cost incoming_priority : Z) (inc : option RouterItem) (fair_victim : option (option Z))
    (st : Pool) : option (result unit * Pool) :=
  match fuel with
  | O => None
  | S fuel =>
      if sat_add (shared_queue_bytes_used st) cost <=? max_queue_budget st then Some (Ok tt, st)
      else
        let '(hit, st) := reclaim_codec_metadata st in
        if hit then shared_room_loop fuel cost incoming_priority inc fair_victim st
        else
          let '(hit, st) := if (200 <=? incoming_priority) && known_maintenance inc
                            then reclaim_unannounced_incomplete_chunk st else (false, st) in
          if hit then shared_room_loop fuel cost incoming_priority inc fair_victim st
          else match reclaim_queued incoming_priority inc fair_victim st with
               | (Ok fair_victim, st) => shared_room_loop fuel cost incoming_priority inc fair_victim st
               | (Err e, st) => Some (Err e, st)
               end
  end.

(** Whatever makes room shortens a queue, or forgets a ledger or a transfer. *)
Definition chunk_count (st : Pool) : nat := foldr (fun s n => (size (rx_chunks (sb_rx (snd s))) + n)%nat) 0%nat (sides st).
Definition ledger_count (st : Pool) : nat :=
  length (List.filter (fun s => negb (PayloadCodec.heap_bytes peer_size (sb_codec (snd s)) =? 0)) (sides st)).
Definition weight (st : Pool) : nat :=
  (length (q (received_queue st)) + length (q (transmit_queue st)) + chunk_count st + ledger_count st)%nat.
Definition room_fuel (st : Pool) : nat := S (weight st).

Definition make_shared_queue_room (cost incoming_priority : Z) (inc : option RouterItem) (st : Pool) : option (result unit * Pool) :=
  if max_queue_budget st <? cost
  then Some (Err (PacketTooLarge "Item exceeds maximum shared queue budget"), st)
  else shared_room_loop (room_fuel st) cost incoming_priority inc None st.

(** *** Pushes *)

Definition push_received (x : RouterRxItem) (st : Pool) (adm : Admission) : option (result unit * Pool * Admission * list RouterRxItem) :=
  match make_shared_queue_room (Queue.byte_cost x) (rx_priority x) (Some (rx_data x)) st with
  | None => None
  | Some (Err e, st) => Some (Err e, st, adm, [])
  | Some (Ok _, st) =>
      match push_fair rx_bulk_owner rx_bulk_stream rx_priority x (received_queue st) adm with
      | None => None
      | Some (res, d, adm, ev) => Some (res, set_received d st, adm, ev)
      end
  end.

(** [fit_discovery_budget], after a growth of the discovery state. *)
Fixpoint fit_loop (fuel : nat) (st : Pool) : option Pool :=
  match fuel with
  | O => None
  | S fuel =>
      if shared_queue_bytes_used st <=? max_queue_budget st then Some st
      else
        let '(hit, st) := reclaim_codec_metadata st in
        if hit then fit_loop fuel st
        else match lower_priority_shared_queue 255 st with
             | Some kind => let '(popped, st) := pop_shared_queue_item kind st in if popped then fit_loop fuel st else Some st
             | None => Some st
             end
  end.
Definition fit_discovery_budget (st : Pool) : option Pool := fit_loop (room_fuel st) st.

(** *** The credit of an expanded payload *)

Definition acquire (n : Z) (st : Pool) : result Z * Pool :=
  match checked_add (shared_queue_bytes_used st) n with
  | Some used =>
      if max_queue_budget st <? used then (Err (Io "memory pressure"), st)
      else (Ok n, set_reserved (wrap64 (codec_reserved_bytes st + n)) st)
  | None => (Err (Io "memory pressure"), st)
  end.
(** The reservation afterwards holds nothing, so dropping it does no more. *)
Definition release_locked (n : Z) (st : Pool) : Z * Pool := (0, set_reserved (sat_sub (codec_reserved_bytes st) n) st).
Definition drop_reservation (n : Z) (st : Pool) : Pool := if n =? 0 then st else snd (release_locked n st).
End Room.

(** ** Lists with an entry removed *)

Lemma filter_removed {A} (f : A -> bool) l i x :
  l !! i = Some x -> f x = false -> List.filter f (take i l ++ drop (S i) l) = List.filter f l.
Proof.
  intros Hi Hf. rewrite <- (take_drop_middle l i x Hi) at 3. rewrite !List.filter_app. cbn [List.filter]. by rewrite Hf.
Qed.

Section RoomFacts.
Context `{WE : WireEnv} `{RL : RouterLayout} `{LW : !RouterLaws} (peer_size : Z).

Lemma item_cost_range i : is_u64 (item_cost i).
Proof using LW.
  destruct i as [p|b]; [|apply wrap64_range]. cbn. unfold queue_byte_cost_saturated, payload_cost. destruct sizes_nonneg as (H1 & H2 & H3).
  pose proof (zlen_nonneg (payload p)). pose proof (zlen_nonneg (sender p)). pose proof (zlen_nonneg (pkt_endpoints p)).
  assert (0 <= zlen (pkt_endpoints p) * size_endpoint) by lia.
  destruct (_ && _); unfold is_u64, sat_add, sat_mul, u64_max in *; lia.
Qed.

#[export] Instance rx_queue_laws : QueueLaws RouterRxItem.
Proof using LW. split; [intros v; apply item_cost_range|]. intros len cap add c. apply ring_reserve_room. Qed.

#[export] Instance tx_queue_laws : QueueLaws TxQueued.
Proof using LW.
  split; [|intros len cap add c; apply ring_reserve_room]. intros v. cbn. unfold cost_with_item.
  assert (is_u64 (tx_item_cost (tx_item v))) as H by (destruct (tx_item v); cbn; try apply item_cost_range; try apply wrap64_range; solve_u).
  revert H. solve_u.
Qed.

Abbreviation reclaim_codec_metadata := (reclaim_codec_metadata peer_size).
Abbreviation ledger_count := (ledger_count peer_size).
Abbreviation weight := (weight peer_size).

(** ** Ledgers and transfers *)

Definition chunks_in (l : list (Z * SideBuffers)) : nat := foldr (fun s n => (size (rx_chunks (sb_rx (snd s))) + n)%nat) 0%nat l.
Definition ledgers_in (l : list (Z * SideBuffers)) : nat :=
  length (List.filter (fun s => negb (PayloadCodec.heap_bytes peer_size (sb_codec (snd s)) =? 0)) l).

Lemma evict_first_spec l : match evict_first peer_size l with
  | (true, l') => (ledgers_in l' < ledgers_in l)%nat /\ chunks_in l' = chunks_in l
  | (false, l') => l' = l
  end.
Proof using.
  induction l as [|[side b] l IH]; [done|]. cbn [evict_first]. unfold evict_for_budget.
  destruct (PayloadCodec.heap_bytes peer_size (sb_codec b) =? 0) eqn:E.
  - destruct (evict_first peer_size l) as [[] l']; [|by subst]. destruct IH as [IH1 IH2]. unfold ledgers_in in *. cbn [List.filter chunks_in foldr snd].
    rewrite E. cbn [negb]. split; [done|]. unfold chunks_in in *. by rewrite IH2.
  - unfold ledgers_in. cbn [List.filter chunks_in foldr snd sb_codec sb_rx]. rewrite E. cbn [negb].
    assert (forall u, (PayloadCodec.heap_bytes peer_size (forget u (sb_codec b)) =? 0) = true) as H by (intros u; by apply Z.eqb_eq).
    rewrite H. cbn [negb length]. split; [lia|done].
Qed.

Lemma take_from_spec side id l : match take_from side id l with
  | (true, l') => (chunks_in l' < chunks_in l)%nat /\ ledgers_in l' = ledgers_in l
  | (false, l') => l' = l
  end.
Proof using.
  induction l as [|[s b] l IH]; [done|]. cbn [take_from]. destruct (s =? side).
  - unfold take_chunk, remove. destruct (rx_chunks (sb_rx b) !! id) as [a|] eqn:E.
    + cbn [chunks_in foldr snd sb_rx rx_chunks]. rewrite map_size_delete_Some by (by exists a).
      assert (size (rx_chunks (sb_rx b)) <> 0%nat) by (intros H; apply map_size_empty_inv in H; by rewrite H, lookup_empty in E).
      split; [lia|]. unfold ledgers_in. cbn [List.filter snd sb_codec]. by destruct (negb _).
    + by destruct b as [[] ?].
  - destruct (take_from side id l) as [[] l']; [|by subst]. destruct IH as [IH1 IH2]. cbn [chunks_in foldr snd]. split; [unfold chunks_in in *; lia|].
    unfold ledgers_in in *. cbn [List.filter snd]. destruct (negb _); cbn [length]; lia.
Qed.

(** Only the buffers of the sides changed. *)
Definition sides_only (st st' : Pool) : Prop := st' = set_sides (sides st') st.

Lemma reclaim_codec_spec st : match reclaim_codec_metadata st with
  | (true, st') => sides_only st st' /\ (weight st' < weight st)%nat
  | (false, st') => st' = st
  end.
Proof using.
  unfold RouterQueues.reclaim_codec_metadata. pose proof (evict_first_spec (sides st)) as H.
  destruct (evict_first peer_size (sides st)) as [[] l].
  - split; [done|]. unfold RouterQueues.weight, RouterQueues.ledger_count, chunk_count. cbn [set_sides received_queue transmit_queue sides].
    unfold chunks_in, ledgers_in in H. lia.
  - subst. by destruct st.
Qed.

Lemma discard_side_chunk_spec side id st : match discard_side_chunk side id st with
  | (true, st') => sides_only st st' /\ (weight st' < weight st)%nat
  | (false, st') => st' = st
  end.
Proof using.
  unfold discard_side_chunk. pose proof (take_from_spec side id (sides st)) as H. destruct (take_from side id (sides st)) as [[] l].
  - split; [done|]. unfold RouterQueues.weight, RouterQueues.ledger_count, chunk_count. cbn [set_sides received_queue transmit_queue sides].
    unfold chunks_in, ledgers_in in H. lia.
  - subst. by destruct st.
Qed.

Lemma reclaim_oldest_spec keep st : match reclaim_oldest_side_chunk keep st with
  | (true, st') => sides_only st st' /\ (weight st' < weight st)%nat
  | (false, st') => st' = st
  end.
Proof using. unfold reclaim_oldest_side_chunk. destruct (oldest_chunk _ _ _ _) as [[side id]|]; [apply discard_side_chunk_spec|done]. Qed.

Lemma reclaim_unannounced_spec st : match reclaim_unannounced_incomplete_chunk st with
  | (true, st') => sides_only st st' /\ (weight st' < weight st)%nat
  | (false, st') => st' = st
  end.
Proof using.
  unfold reclaim_unannounced_incomplete_chunk. destruct (foldl _ None _) as [[[t side] id]|]; [apply discard_side_chunk_spec|done].
Qed.

(** ** What is given up *)

(** Accepted originals: the entries whose flag says that they are not disposable; and
    those of them that do not count as a report of their sender. *)
Definition original (x : TxQueued) : bool := negb (has_flag (disposable x) TX_DISPOSABLE).
Definition settled_original (x : TxQueued) : bool := original x && bool_decide (tx_bulk_owner x = None).

(** Nothing of a higher priority than [limit] goes, no original that is no report, and
    the rest stays in its order. *)
Record gave (limit : Z) (st st' : Pool) : Prop := {
  gv_budget : max_queue_budget st' = max_queue_budget st;
  gv_metadata : other_metadata st' = other_metadata st;
  gv_reserved : codec_reserved_bytes st' = codec_reserved_bytes st;
  gv_received : sublist (q (received_queue st')) (q (received_queue st));
  gv_transmit : sublist (q (transmit_queue st')) (q (transmit_queue st));
  gv_rx_above : List.filter (fun x => limit <? rx_priority x) (q (received_queue st')) =
                List.filter (fun x => limit <? rx_priority x) (q (received_queue st));
  gv_tx_above : List.filter (fun x => limit <? tx_priority x) (q (transmit_queue st')) =
                List.filter (fun x => limit <? tx_priority x) (q (transmit_queue st));
  gv_kept : List.filter settled_original (q (transmit_queue st')) = List.filter settled_original (q (transmit_queue st));
  gv_rx_ok : queue_ok (received_queue st) -> queue_ok (received_queue st');
  gv_tx_ok : queue_ok (transmit_queue st) -> queue_ok (transmit_queue st');
}.

Lemma gave_refl limit st : gave limit st st.
Proof using. by constructor. Qed.

Lemma gave_trans limit a b c : gave limit a b -> gave limit b c -> gave limit a c.
Proof using.
  intros [A1 A2 A3 A4 A5 A6 A7 A8 A9 A10] [B1 B2 B3 B4 B5 B6 B7 B8 B9 B10].
  constructor; try congruence; try (by etransitivity); auto.
Qed.

Lemma gave_wider l1 l2 st st' : l1 <= l2 -> gave l1 st st' -> gave l2 st st'.
Proof using.
  intros Hl [A1 A2 A3 A4 A5 A6 A7 A8 A9 A10]. constructor; try done.
  - assert (forall l, List.filter (fun x => l2 <? rx_priority x) l =
      List.filter (fun x => l2 <? rx_priority x) (List.filter (fun x => l1 <? rx_priority x) l)) as H.
    { induction l as [|x l IH]; [done|]. cbn [List.filter]. destruct (Z.ltb_spec l1 (rx_priority x)); cbn [List.filter].
      - destruct (_ <? _); [by rewrite IH|done].
      - by rewrite (proj2 (Z.ltb_ge l2 (rx_priority x))) by lia. }
    rewrite H, A6, <- H. done.
  - assert (forall l, List.filter (fun x => l2 <? tx_priority x) l =
      List.filter (fun x => l2 <? tx_priority x) (List.filter (fun x => l1 <? tx_priority x) l)) as H.
    { induction l as [|x l IH]; [done|]. cbn [List.filter]. destruct (Z.ltb_spec l1 (tx_priority x)); cbn [List.filter].
      - destruct (_ <? _); [by rewrite IH|done].
      - by rewrite (proj2 (Z.ltb_ge l2 (tx_priority x))) by lia. }
    rewrite H, A7, <- H. done.
Qed.

Lemma gave_sides limit st st' : sides_only st st' -> gave limit st st'.
Proof using. intros ->. by constructor. Qed.

Lemma remove_pos_at {T} `{QueueEnv T} i x (d : BoundedDeque T) :
  q d !! i = Some x -> exists d', remove_pos i d = (Some x, d') /\ q d' = take i (q d) ++ drop (S i) (q d).
Proof using. intros Hi. destruct (remove_pos_split i d x Hi) as [_ ->]. by eexists. Qed.

Lemma sublist_removed {A} (l : list A) i : sublist (take i l ++ drop (S i) l) l.
Proof using. rewrite <- delete_take_drop. apply sublist_delete. Qed.

Lemma length_removed {A} (l : list A) i x : l !! i = Some x -> length l = S (length (take i l ++ drop (S i) l)).
Proof using. intros Hi. rewrite <- (take_drop_middle l i x Hi) at 1. rewrite !length_app. cbn. lia. Qed.

(** An entry removed from a queue, with whatever is told about it. *)
Lemma gave_received limit i x st d :
  q (received_queue st) !! i = Some x -> rx_priority x <= limit -> remove_pos i (received_queue st) = (Some x, d) ->
  gave limit st (set_received d st) /\ (weight (set_received d st) < weight st)%nat /\
  (forall f, f x = false -> List.filter f (q d) = List.filter f (q (received_queue st))).
Proof using LW.
  intros Hi Hp Hr. destruct (remove_pos_at i x (received_queue st) Hi) as (d' & Hd & Hq). rewrite Hr in Hd. injection Hd as <-.
  assert (forall f, f x = false -> List.filter f (q d) = List.filter f (q (received_queue st))) as Hf
    by (intros f H; rewrite Hq; by apply (filter_removed _ _ _ x)).
  split_and!; [|unfold RouterQueues.weight, chunk_count, RouterQueues.ledger_count; cbn [set_received received_queue transmit_queue sides];
    rewrite Hq, (length_removed _ _ _ Hi); lia|done].
  constructor; cbn [set_received received_queue transmit_queue max_queue_budget other_metadata codec_reserved_bytes]; try done.
  - rewrite Hq. apply sublist_removed.
  - apply Hf. by apply Z.ltb_ge.
  - intros Hok. pose proof (remove_pos_ok i _ Hok) as H. by rewrite Hr in H.
Qed.

Lemma gave_transmit limit i x st d m r :
  q (transmit_queue st) !! i = Some x -> tx_priority x <= limit -> settled_original x = false -> remove_pos i (transmit_queue st) = (Some x, d) ->
  gave limit st (set_marks m r (set_transmit d st)) /\ (weight (set_marks m r (set_transmit d st)) < weight st)%nat /\
  (forall f, f x = false -> List.filter f (q d) = List.filter f (q (transmit_queue st))).
Proof using LW.
  intros Hi Hp Hk Hr. destruct (remove_pos_at i x (transmit_queue st) Hi) as (d' & Hd & Hq). rewrite Hr in Hd. injection Hd as <-.
  assert (forall f, f x = false -> List.filter f (q d) = List.filter f (q (transmit_queue st))) as Hf
    by (intros f H; rewrite Hq; by apply (filter_removed _ _ _ x)).
  split_and!; [|unfold RouterQueues.weight, chunk_count, RouterQueues.ledger_count;
    cbn [set_marks set_transmit received_queue transmit_queue sides]; rewrite Hq, (length_removed _ _ _ Hi); lia|done].
  constructor; cbn [set_marks set_transmit received_queue transmit_queue max_queue_budget other_metadata codec_reserved_bytes]; try done.
  - rewrite Hq. apply sublist_removed.
  - apply Hf. by apply Z.ltb_ge.
  - by apply Hf.
  - intros Hok. pose proof (remove_pos_ok i _ Hok) as H. by rewrite Hr in H.
Qed.

(** *** Bulk of one sender *)

(** Only reports of [v] went. *)
Definition one_sender (v : Z) (st st' : Pool) : Prop :=
  List.filter (fun x => negb (bool_decide (rx_bulk_owner x = Some v))) (q (received_queue st')) =
  List.filter (fun x => negb (bool_decide (rx_bulk_owner x = Some v))) (q (received_queue st)) /\
  List.filter (fun x => negb (bool_decide (tx_bulk_owner x = Some v))) (q (transmit_queue st')) =
  List.filter (fun x => negb (bool_decide (tx_bulk_owner x = Some v))) (q (transmit_queue st)).

Lemma set_transmit_marks d st : set_transmit d st = set_marks (replay_queued st) (responses st) (set_transmit d st).
Proof using. done. Qed.

Lemma reclaim_bulk_spec v limit kind st : match reclaim_bulk_from v limit kind st with
  | (true, st') => gave limit st st' /\ (weight st' < weight st)%nat /\ one_sender v st st'
  | (false, st') => st' = st
  end.
Proof using LW.
  unfold reclaim_bulk_from. set (k := victim_stream v limit kind st).
  pose proof (pick_spec rx_bulk_owner rx_bulk_stream rx_priority limit v k (q (received_queue st))) as Hrx.
  pose proof (pick_spec tx_bulk_owner tx_bulk_stream tx_priority limit v k (q (transmit_queue st))) as Htx.
  assert (forall i x, q (received_queue st) !! i = Some x -> candidate rx_bulk_owner rx_bulk_stream rx_priority limit v k x = true ->
    match (let '(y, d) := remove_pos i (received_queue st) in (match y with Some _ => true | None => false end, set_received d st)) with
    | (true, st') => gave limit st st' /\ (weight st' < weight st)%nat /\ one_sender v st st' | (false, st') => st' = st end) as Frx.
  { intros i x Hi (Hp & Ho & _)%candidate_spec. destruct (remove_pos_at i x _ Hi) as (d & Hd & _). rewrite Hd.
    destruct (gave_received limit i x st d Hi Hp Hd) as (G1 & G2 & G3). split; [done|]. split; [done|]. split; [|done].
    apply G3. by rewrite bool_decide_eq_true_2. }
  assert (forall i x, q (transmit_queue st) !! i = Some x -> candidate tx_bulk_owner tx_bulk_stream tx_priority limit v k x = true ->
    match (let '(y, d) := remove_pos i (transmit_queue st) in (match y with Some _ => true | None => false end, set_transmit d st)) with
    | (true, st') => gave limit st st' /\ (weight st' < weight st)%nat /\ one_sender v st st' | (false, st') => st' = st end) as Ftx.
  { intros i x Hi (Hp & Ho & _)%candidate_spec. destruct (remove_pos_at i x _ Hi) as (d & Hd & _). rewrite Hd.
    assert (settled_original x = false) as Hk by (unfold settled_original, original; rewrite Ho; by rewrite andb_false_r).
    rewrite set_transmit_marks. destruct (gave_transmit limit i x st d (replay_queued st) (responses st) Hi Hp Hk Hd) as (G1 & G2 & G3).
    split; [done|]. split; [done|]. split; [done|]. apply G3. by rewrite bool_decide_eq_true_2. }
  destruct (pick rx_bulk_owner _ _ _ _ _ _) as [[i x]|], (pick tx_bulk_owner _ _ _ _ _ _) as [[j y]|]; try done.
  - destruct Hrx as (R1 & R2 & _), Htx as (T1 & T2 & _). destruct (_ <=? _); [by apply (Frx i x)|by apply (Ftx j y)].
  - destruct Hrx as (R1 & R2 & _). by apply (Frx i x).
  - destruct Htx as (T1 & T2 & _). by apply (Ftx j y).
Qed.

(** *** Whatever gives way *)

Lemma lowest_disposable_snoc l x :
  lowest_disposable (l ++ [x]) = if has_flag (disposable x) TX_DISPOSABLE
    then Some (match lowest_disposable l with Some b => Z.min b (tx_priority x) | None => tx_priority x end) else lowest_disposable l.
Proof using. unfold lowest_disposable. by rewrite foldl_app. Qed.

Lemma lowest_disposable_spec l : match lowest_disposable l with
  | Some t => (exists x, x ∈ l /\ has_flag (disposable x) TX_DISPOSABLE = true /\ tx_priority x = t) /\
              forall x, x ∈ l -> has_flag (disposable x) TX_DISPOSABLE = true -> t <= tx_priority x
  | None => forall x, x ∈ l -> has_flag (disposable x) TX_DISPOSABLE = false
  end.
Proof using.
  induction l as [|x l IH] using rev_ind; [intros x []%not_elem_of_nil|]. rewrite lowest_disposable_snoc.
  destruct (has_flag (disposable x) TX_DISPOSABLE) eqn:E.
  - destruct (lowest_disposable l) as [b|].
    + destruct IH as [(y & Hy & Hd & Hb) Hmin]. split.
      * destruct (Z.le_gt_cases b (tx_priority x)); [exists y|exists x]; rewrite elem_of_app, list_elem_of_singleton; split_and!; auto; lia.
      * intros z [Hz|Hz%list_elem_of_singleton]%elem_of_app Hzd; [specialize (Hmin z Hz Hzd); lia|subst; lia].
    + split; [exists x; rewrite elem_of_app, list_elem_of_singleton; auto|].
      intros z [Hz|Hz%list_elem_of_singleton]%elem_of_app Hzd; [by rewrite (IH z Hz) in Hzd|subst; lia].
  - destruct (lowest_disposable l) as [b|].
    + destruct IH as [(y & Hy & Hd & Hb) Hmin]. split; [exists y; rewrite elem_of_app; auto|].
      intros z [Hz|Hz%list_elem_of_singleton]%elem_of_app Hzd; [by apply Hmin|subst; congruence].
    + intros z [Hz|Hz%list_elem_of_singleton]%elem_of_app; [by apply IH|by subst].
Qed.

(** The last of the lowest. *)
Lemma last_lowest (l : list (nat * TxQueued)) :
  match foldl (fun best x => match best with
                             | Some b => if tx_priority (snd x) <=? tx_priority (snd b) then Some x else Some b
                             | None => Some x end) None l with
  | Some b => b ∈ l /\ forall x, x ∈ l -> tx_priority (snd b) <= tx_priority (snd x)
  | None => l = []
  end.
Proof using.
  induction l as [|x l IH] using rev_ind; [done|]. rewrite foldl_app. cbn [foldl]. destruct (foldl _ None l) as [b|].
  - destruct IH as [H1 H2]. destruct (Z.leb_spec (tx_priority (snd x)) (tx_priority (snd b))).
    + split; [apply elem_of_app; right; by left|]. intros y [Hy|Hy%list_elem_of_singleton]%elem_of_app; [specialize (H2 y Hy); lia|subst; lia].
    + split; [apply elem_of_app; by left|]. intros y [Hy|Hy%list_elem_of_singleton]%elem_of_app; [by apply H2|subst; lia].
  - rewrite IH. cbn. split; [by left|]. intros y [->|Hy]%elem_of_cons; [lia|by apply not_elem_of_nil in Hy].
Qed.

Lemma candidate_disposable l t : lowest_disposable l = Some t ->
  exists i x, transmit_eviction_candidate l = Some i /\ l !! i = Some x /\ has_flag (disposable x) TX_DISPOSABLE = true /\ tx_priority x = t.
Proof using.
  intros Ht. pose proof (lowest_disposable_spec l) as Hs. rewrite Ht in Hs. destruct Hs as [(y & (j & Hj)%list_elem_of_lookup & Hd & Hp) Hmin].
  unfold transmit_eviction_candidate. pose proof (last_lowest (List.filter (fun e => has_flag (disposable (snd e)) TX_DISPOSABLE) (imap pair l))) as Hl.
  assert ((j, y) ∈ List.filter (fun e => has_flag (disposable (snd e)) TX_DISPOSABLE) (imap pair l)) as Hin
    by (apply list_elem_of_In, filter_In; split; [by apply list_elem_of_In, in_imap_pair|done]).
  destruct (foldl _ None _) as [[i x]|].
  - destruct Hl as [H1 H2]. apply list_elem_of_In, filter_In in H1 as [H1%list_elem_of_In Hx]. apply in_imap_pair in H1.
    exists i, x. split_and!; [done|done|done|]. specialize (H2 _ Hin). cbn [snd] in *.
    specialize (Hmin x ltac:(by eapply list_elem_of_lookup_2) Hx). lia.
  - rewrite Hl in Hin. by apply not_elem_of_nil in Hin.
Qed.

Lemma gives_way_le p t : gives_way p t = true -> t <= p.
Proof using. unfold gives_way. rewrite orb_true_iff, andb_true_iff, Z.ltb_lt, Z.eqb_eq. lia. Qed.

Lemma pop_received_spec limit r st : lowest_priority rx_priority (received_queue st) = Some r -> r <= limit ->
  exists st', pop_shared_queue_item Received st = (true, st') /\ gave limit st st' /\ (weight st' < weight st)%nat.
Proof using LW.
  unfold lowest_priority. destruct (last (q (received_queue st))) as [x|] eqn:E; [|done]. intros [= <-] Hr.
  cbn [pop_shared_queue_item]. pose proof E as E'. apply last_Some in E' as [l Hl]. set (i := length l).
  assert (q (received_queue st) !! i = Some x) as Hi by (rewrite Hl; unfold i; by rewrite lookup_app_r, Nat.sub_diag by lia).
  assert (pop_back (received_queue st) = remove_pos i (received_queue st)) as ->.
  { unfold pop_back, remove_pos. rewrite E, Hi. do 2 f_equal. rewrite Hl, removelast_last, delete_take_drop. unfold i.
    rewrite take_app_length. rewrite drop_ge by (rewrite length_app; cbn; lia). by rewrite app_nil_r. }
  destruct (remove_pos_at i x _ Hi) as (d & Hd & _). rewrite Hd. eexists. split; [done|].
  destruct (gave_received limit i x st d Hi Hr Hd) as (G1 & G2 & _). done.
Qed.

Lemma pop_transmit_spec limit t st : lowest_disposable (q (transmit_queue st)) = Some t -> t <= limit ->
  exists st', pop_shared_queue_item Transmit st = (true, st') /\ gave limit st st' /\ (weight st' < weight st)%nat.
Proof using LW.
  intros Ht Hl. destruct (candidate_disposable _ _ Ht) as (i & x & Hc & Hi & Hx & Hp). cbn [pop_shared_queue_item]. rewrite Hc.
  destruct (remove_pos_at i x _ Hi) as (d & Hd & _). rewrite Hd. eexists. split; [done|]. unfold tx_lost.
  assert (settled_original x = false) as Hk by (unfold settled_original, original; by rewrite Hx).
  edestruct (gave_transmit limit i x st d) as (G1 & G2 & _); [done|lia|done|done|split; [exact G1|exact G2]].
Qed.

Lemma lower_priority_spec p kind st : lower_priority_shared_queue p st = Some kind ->
  exists st', pop_shared_queue_item kind st = (true, st') /\ gave p st st' /\ (weight st' < weight st)%nat.
Proof using LW.
  unfold lower_priority_shared_queue. intros H.
  destruct (lowest_priority rx_priority (received_queue st)) as [r|] eqn:Er, (lowest_disposable (q (transmit_queue st))) as [t|] eqn:Et.
  - destruct (gives_way p r) eqn:Gr, (gives_way p t) eqn:Gt; try done.
    + destruct (r <=? t); injection H as <-.
      * apply (pop_received_spec _ r); [done|by apply gives_way_le].
      * apply (pop_transmit_spec _ t); [done|by apply gives_way_le].
    + injection H as <-. apply (pop_received_spec _ r); [done|by apply gives_way_le].
    + injection H as <-. apply (pop_transmit_spec _ t); [done|by apply gives_way_le].
  - destruct (gives_way p r) eqn:Gr; [|done]. injection H as <-. apply (pop_received_spec _ r); [done|by apply gives_way_le].
  - destruct (gives_way p t) eqn:Gt; [|done]. injection H as <-. apply (pop_transmit_spec _ t); [done|by apply gives_way_le].
  - done.
Qed.

(** ** Making room *)

Abbreviation used := (shared_queue_bytes_used peer_size).
Abbreviation shared_room_loop := (shared_room_loop peer_size).

Lemma reclaim_victim_spec victim owner limit inc st : match reclaim_victim victim owner limit inc st with
  | (true, st') => gave limit st st' /\ (weight st' < weight st)%nat /\ (exists v, victim = Some v /\ one_sender v st st')
  | (false, st') => st' = st
  end.
Proof using LW.
  unfold reclaim_victim. destruct victim as [v|]; [|done].
  pose proof (reclaim_bulk_spec v limit (if bool_decide (owner = Some v) then inc ≫= bulk_stream else None) st) as H.
  destruct (reclaim_bulk_from _ _ _ _) as [[] st1]; [|done]. destruct H as (H1 & H2 & H3). split_and!; [done|done|by exists v].
Qed.

Lemma reclaim_queued_spec p inc fv st : match reclaim_queued p inc fv st with
  | (Ok _, st') => gave p st st' /\ (weight st' < weight st)%nat
  | (Err e, st') => e = Io "shared priority queue saturated" /\ gave p st st'
  end.
Proof using LW.
  unfold reclaim_queued. set (owner := inc ≫= _). set (victim := match fv with Some v => v | None => _ end).
  pose proof (reclaim_victim_spec victim owner (Z.min p 199) inc st) as H.
  destruct (reclaim_victim _ _ _ _ _) as [[] st1].
  { destruct H as (H1 & H2 & _). split; [|done]. by apply (gave_wider (Z.min p 199)); [lia|]. }
  subst st1.
  destruct owner; [split; [done|apply gave_refl]|].
  destruct (lower_priority_shared_queue p st) as [k|] eqn:E.
  - destruct (lower_priority_spec _ _ _ E) as (st' & -> & H1 & H2). done.
  - destruct (200 <=? p); [|split; [done|apply gave_refl]]. pose proof (reclaim_oldest_spec None st) as Ho.
    destruct (reclaim_oldest_side_chunk None st) as [[] st'].
    + destruct Ho as [Ho1 Ho2]. split; [by apply gave_sides|done].
    + subst. split; [done|apply gave_refl].
Qed.

Definition maintenance_chunk (p : Z) (inc : option RouterItem) (st : Pool) : bool * Pool :=
  if (200 <=? p) && known_maintenance inc then reclaim_unannounced_incomplete_chunk st else (false, st).

Lemma maintenance_chunk_spec p inc st : match maintenance_chunk p inc st with
  | (true, st') => sides_only st st' /\ (weight st' < weight st)%nat
  | (false, st') => st' = st
  end.
Proof using. unfold maintenance_chunk. destruct (_ && _); [apply reclaim_unannounced_spec|done]. Qed.

(** The loop, given what each kind of step keeps. *)
Lemma shared_room_loop_rule (I : option (option Z) -> Pool -> Prop) cost p inc :
  (forall fv st st', I fv st -> sides_only st st' -> I fv st') ->
  (forall fv st, I fv st -> match reclaim_queued p inc fv st with (Ok fv', st') => I fv' st' | (Err _, st') => exists fv', I fv' st' end) ->
  forall fuel fv st, (weight st < fuel)%nat -> I fv st ->
  exists res st' fv', shared_room_loop fuel cost p inc fv st = Some (res, st') /\ I fv' st' /\
    match res with
    | Ok _ => sat_add (used st') cost <= max_queue_budget st'
    | Err e => e = Io "shared priority queue saturated"
    end.
Proof using LW.
  intros Hs Hg. induction fuel as [|fuel IH]; intros fv st Hw HI; [lia|]. cbn [RouterQueues.shared_room_loop].
  destruct (Z.leb_spec (sat_add (used st) cost) (max_queue_budget st)) as [Hfit|_]; [by exists (Ok tt), st, fv|].
  pose proof (reclaim_codec_spec st) as Hc. destruct (reclaim_codec_metadata st) as [[] st1].
  { destruct Hc as [Hc1 Hc2]. apply IH; [lia|by apply (Hs _ st)]. }
  subst st1. fold (maintenance_chunk p inc st). pose proof (maintenance_chunk_spec p inc st) as Hm.
  destruct (maintenance_chunk p inc st) as [[] st1].
  { destruct Hm as [Hm1 Hm2]. apply IH; [lia|by apply (Hs _ st)]. }
  subst st1. specialize (Hg fv st HI). pose proof (reclaim_queued_spec p inc fv st) as Hgu.
  destruct (reclaim_queued p inc fv st) as [[fv'|e] st1].
  - destruct Hgu as [_ Hlt]. apply IH; [lia|done].
  - destruct Hg as (fv' & Hg). exists (Err e), st1, fv'. split; [done|]. split; [done|apply Hgu].
Qed.

Lemma shared_room_loop_spec cost p inc st :
  exists res st', shared_room_loop (room_fuel peer_size st) cost p inc None st = Some (res, st') /\ gave p st st' /\
    match res with
    | Ok _ => sat_add (used st') cost <= max_queue_budget st'
    | Err e => e = Io "shared priority queue saturated"
    end.
Proof using LW.
  destruct (shared_room_loop_rule (fun _ st' => gave p st st') cost p inc) with (fuel := room_fuel peer_size st) (fv := @None (option Z)) (st := st)
    as (res & st' & _ & H1 & H2 & H3); [| |unfold room_fuel; lia|apply gave_refl|by exists res, st'].
  - intros _ st1 st2 H Hs. eapply gave_trans; [exact H|by apply gave_sides].
  - intros fv st1 H. pose proof (reclaim_queued_spec p inc fv st1) as Hg. destruct (reclaim_queued p inc fv st1) as [[fv'|e] st2].
    + eapply gave_trans; [exact H|apply Hg].
    + exists None. eapply gave_trans; [exact H|apply Hg].
Qed.

(** Well-formed queues. *)
Definition pool_ok (st : Pool) : Prop :=
  queue_ok (received_queue st) /\ queue_ok (transmit_queue st) /\ by_priority rx_priority (q (received_queue st)).

Lemma gave_pool_ok limit st st' : gave limit st st' -> pool_ok st -> pool_ok st'.
Proof using.
  intros [A1 A2 A3 A4 A5 A6 A7 A8 A9 A10] (H1 & H2 & H3). split_and!; auto. by eapply by_priority_sublist.
Qed.

Lemma make_room_ends cost p inc st :
  exists res st', make_shared_queue_room peer_size cost p inc st = Some (res, st') /\ gave p st st' /\
    match res with
    | Ok _ => sat_add (used st') cost <= max_queue_budget st'
    | Err (PacketTooLarge _) => st' = st /\ max_queue_budget st < cost
    | Err e => e = Io "shared priority queue saturated"
    end.
Proof using LW.
  unfold make_shared_queue_room. destruct (Z.ltb_spec (max_queue_budget st) cost).
  - eexists _, st. split; [done|]. split; [apply gave_refl|done].
  - destruct (shared_room_loop_spec cost p inc st) as (res & st' & H1 & H2 & H3). exists res, st'. split; [done|]. split; [done|].
    destruct res; [done|]. by rewrite H3.
Qed.



(** ** Room for a report *)

(** The reports in both queues, by sender. *)
Definition pool_reports (limit : Z) (st : Pool) : list (Z * Z) :=
  reports rx_priority limit rx_bulk_owner (q (received_queue st)) ++ reports tx_priority limit tx_bulk_owner (q (transmit_queue st)).

Lemma bulk_loads_reports limit st : bulk_loads limit st = loads_of (pool_reports limit st).
Proof using. unfold bulk_loads. by rewrite table_reports, table_more. Qed.

Lemma pool_reports_costs limit st : Forall (fun r => 0 <= snd r) (pool_reports limit st).
Proof using LW. apply Forall_app. split; apply reports_costs; apply _. Qed.

Lemma one_sender_trans v a b c : one_sender v a b -> one_sender v b c -> one_sender v a c.
Proof using. intros [A1 A2] [B1 B2]. split; congruence. Qed.

Definition same_queues (st st' : Pool) : Prop := received_queue st' = received_queue st /\ transmit_queue st' = transmit_queue st.

(** A report is fair to the whole router.  Making room in the shared budget for a
    report of the sender [s] takes no queued work but reports of one sender, in both
    queues together: one that had several reports queued, with the greatest backlog of
    those, or [s] itself if nobody had several. *)
Theorem bulk_room cost p data s st res st' :
  fair_bulk_owner data p = Some s -> make_shared_queue_room peer_size cost p (Some data) st = Some (res, st') ->
  same_queues st st' \/ exists v, chosen (Some s) (pool_reports (Z.min p 199) st) v /\ one_sender v st st'.
Proof using LW.
  intros Ho. unfold make_shared_queue_room. destruct (_ <? _); [intros [= <- <-]; by left|].
  set (I := fun (fv : option (option Z)) st1 =>
    (fv = None /\ same_queues st st1) \/
    exists v, fv = Some v /\ (forall x, v = Some x -> chosen (Some s) (pool_reports (Z.min p 199) st) x /\ one_sender x st st1) /\
              (v = None -> same_queues st st1)).
  destruct (shared_room_loop_rule I cost p (Some data)) with (fuel := room_fuel peer_size st) (fv := @None (option Z)) (st := st)
    as (res1 & st1 & fv & H1 & HI & _); [| |unfold room_fuel; lia|by left|].
  - intros fv a b Ha Hs. rewrite Hs. destruct Ha as [[-> Ha]|(v & -> & Hv & Hn)]; [by left|right].
    exists v. split; [done|]. split; [exact Hv|exact Hn].
  - intros fv a Ha. unfold reclaim_queued. cbn [mbind option_bind]. rewrite Ho.
    set (victim := match fv with Some v => v | None => _ end).
    assert ((forall x, victim = Some x -> chosen (Some s) (pool_reports (Z.min p 199) st) x /\ one_sender x st a) /\
            (victim = None -> same_queues st a)) as [V1 V2].
    { destruct Ha as [[-> Ha]|(v & -> & Hv & Hn)]; [|done]. split; [|done]. unfold victim. intros x Hx.
      assert (bulk_loads (Z.min p 199) a = bulk_loads (Z.min p 199) st) as E by (destruct Ha as [E1 E2]; unfold bulk_loads; by rewrite E1, E2).
      rewrite E, bulk_loads_reports in Hx.
      pose proof (queue_victim_owner_spec (pool_reports (Z.min p 199) st) (Some s) (pool_reports_costs _ _)) as Hc.
      rewrite Hx in Hc. split; [apply Hc|]. destruct Ha as [E1 E2]. split; [by rewrite E1|by rewrite E2]. }
    pose proof (reclaim_victim_spec victim (Some s) (Z.min p 199) (Some data) a) as Hr.
    destruct (reclaim_victim _ _ _ _ _) as [[] b].
    + destruct Hr as (_ & _ & v & Ev & Hone). right. exists victim. split; [done|]. rewrite Ev in *. split; [|done].
      intros x [= <-]. destruct (V1 v eq_refl) as [C1 C2]. split; [done|by eapply one_sender_trans].
    + subst b. exists (Some victim). right. by exists victim.
  - intros H. rewrite H1 in H. injection H as <- <-. destruct HI as [[_ HI]|(v & -> & Hv & Hn)]; [by left|].
    destruct v as [v|]; [right; exists v; by apply Hv|left; by apply Hn].
Qed.

(** ** A received frame *)

Lemma total_cost_le (l k : list RouterRxItem) ev : Permutation l (k ++ ev) -> total_cost k <= total_cost l.
Proof using LW.
  intros H. assert (total_cost l = total_cost k + total_cost ev) as ->.
  { assert (forall a b : list RouterRxItem, total_cost (a ++ b) = total_cost a + total_cost b) as Happ
      by (intros a b; induction a as [|x a IH]; cbn [app]; [done|]; rewrite !total_cost_cons, IH; lia).
    rewrite <- Happ. induction H as [|x a b H IH|x y a|a b c H1 IH1 H2 IH2]; [done| | |]; rewrite ?total_cost_cons in *; lia. }
  pose proof (total_cost_nonneg ev). lia.
Qed.

(** Receiving keeps the budget.  Queueing a received frame always ends and keeps both
    queues well formed.  When the frame is accepted it is in the queue, behind the
    entries of its priority, and everything that shares the budget is within it; when
    it is refused it is not.  In neither case is a received entry of a higher priority
    lost, or an accepted original that is no report of its sender. *)
Theorem push_received_budget x st adm :
  pool_ok st -> exists res st' adm' ev,
    push_received peer_size x st adm = Some (res, st', adm', ev) /\ pool_ok st' /\
    List.filter settled_original (q (transmit_queue st')) = List.filter settled_original (q (transmit_queue st)) /\
    (forall y, y ∈ q (received_queue st) -> rx_priority x < rx_priority y -> y ∈ q (received_queue st')) /\
    match res with
    | Ok _ => used st' <= max_queue_budget st' /\ exists kept, joins_band rx_priority x kept (q (received_queue st')) /\ sublist kept (q (received_queue st))
    | Err _ => sublist (q (received_queue st')) (q (received_queue st))
    end.
Proof using LW.
  intros Hok. unfold push_received.
  destruct (make_room_ends (Queue.byte_cost x) (rx_priority x) (Some (rx_data x)) st) as (res & st1 & -> & Hg & Hfit).
  pose proof (gave_pool_ok _ _ _ Hg Hok) as Hok1.
  assert (forall y, y ∈ q (received_queue st) -> rx_priority x < rx_priority y -> y ∈ q (received_queue st1)) as Hin.
  { intros y Hy Hp. pose proof (gv_rx_above _ _ _ Hg) as Ha.
    assert (y ∈ List.filter (fun z => rx_priority x <? rx_priority z) (q (received_queue st))) as Hy'
      by (apply list_elem_of_In, filter_In; split; [by apply list_elem_of_In|by apply Z.ltb_lt]).
    rewrite <- Ha in Hy'. apply list_elem_of_In, filter_In in Hy' as [Hy' _]. by apply list_elem_of_In. }
  destruct res as [[]|e].
  2: { exists (Err e), st1, adm, []. split; [done|]. split; [done|]. split; [apply Hg|]. split; [done|]. apply Hg. }
  destruct Hok1 as (Q1 & Q2 & Q3).
  destruct (push_fair_spec rx_bulk_owner rx_bulk_stream rx_priority x x (received_queue st1) adm Q1 Q3 eq_refl)
    as (res & d' & adm' & ev & -> & D1 & D2 & _ & _ & Hev & keep & P1 & P2 & P3).
  exists res, (set_received d' st1), adm', ev. split; [done|]. split; [by split_and!|].
  split; [apply Hg|]. cbn [set_received received_queue transmit_queue max_queue_budget].
  assert (forall y, y ∈ q (received_queue st1) -> rx_priority x < rx_priority y -> y ∈ keep) as Hkeep.
  { intros y Hy Hp. rewrite P1 in Hy. apply elem_of_app in Hy as [Hy|Hy]; [done|]. rewrite Forall_forall in Hev. specialize (Hev y Hy).
    unfold protected_from in Hev. rewrite (proj2 (Z.ltb_lt _ _) Hp) in Hev. done. }
  split.
  - intros y Hy Hp. specialize (Hkeep y (Hin y Hy Hp) Hp). destruct res as [[]|e]; [|by rewrite P3].
    destruct P3 as (before & after & -> & -> & _). rewrite elem_of_app in Hkeep. rewrite elem_of_app, elem_of_cons. tauto.
  - destruct res as [[]|e]; [|by rewrite P3; etransitivity; [exact P2|apply Hg]]. split.
    + assert (cur_bytes d' <= cur_bytes (received_queue st1) + Queue.byte_cost x) as Hle.
      { rewrite (qo_cur _ D1), (qo_cur _ Q1). pose proof (total_cost_le _ _ _ P1) as Hk.
        destruct P3 as (before & after & -> & -> & _). revert Hk. clear.
        assert (forall a b : list RouterRxItem, total_cost (a ++ b) = total_cost a + total_cost b) as Happ
          by (intros a b; induction a as [|z a IH]; cbn [app]; [done|]; rewrite !total_cost_cons, IH; lia).
        rewrite !Happ, total_cost_cons. lia. }
      pose proof (byte_cost_range x) as Hcost. revert Hfit Hcost. unfold shared_queue_bytes_used, side_chunk_bytes_used, protected_metadata_bytes_used.
      cbn [set_received received_queue transmit_queue sides other_metadata codec_reserved_bytes max_queue_budget].
      unfold sat_add, is_u64. lia.
    + exists keep. split; [done|]. etransitivity; [exact P2|apply Hg].
Qed.
End RoomFacts.

(** ** Credits of expanded payloads, and growth of the routes *)

Section Credit.
Context `{WE : WireEnv} `{RL : RouterLayout} `{LW : !RouterLaws} (peer_size : Z).

Abbreviation used := (shared_queue_bytes_used peer_size).

(** The credit of an expanded payload stays within the budget: it is granted exactly
    when what is used and the payload fit, it is then part of what is used, and giving
    it back, however often, restores what was used. *)
Theorem credit_spec n st :
  0 <= n -> 0 <= codec_reserved_bytes st -> codec_reserved_bytes st + n <= u64_max -> 0 <= used st ->
  max_queue_budget st < u64_max ->
  match acquire peer_size n st with
  | (Ok m, st') =>
      m = n /\ used st + n <= max_queue_budget st /\ used st' = used st + n /\ used st' <= max_queue_budget st' /\
      drop_reservation n st' = st /\ drop_reservation (fst (release_locked n st')) (snd (release_locked n st')) = st
  | (Err e, st') => st' = st /\ max_queue_budget st < used st + n
  end.
Proof using.
  intros Hn Hr Hmax Hu Hb. unfold acquire, checked_add.
  destruct (Z.leb_spec (used st + n) u64_max) as [H|H]; [|split; [done|lia]].
  destruct (Z.ltb_spec (max_queue_budget st) (used st + n)) as [H1|H1]; [done|].
  rewrite wrap64_small by solve_u.
  assert (set_reserved (sat_sub (codec_reserved_bytes st + n) n) (set_reserved (codec_reserved_bytes st + n) st) = st) as Hback.
  { unfold sat_sub. destruct st. unfold set_reserved. cbn in *. f_equal. lia. }
  assert (used (set_reserved (codec_reserved_bytes st + n) st) = used st + n) as Hused.
  { set (X := sat_add (sat_add (sat_add (cur_bytes (received_queue st)) (cur_bytes (transmit_queue st))) (side_chunk_bytes_used st))
                      (protected_metadata_bytes_used peer_size st)).
    assert (used st = sat_add X (codec_reserved_bytes st)) as E1 by reflexivity.
    assert (used (set_reserved (codec_reserved_bytes st + n) st) = sat_add X (codec_reserved_bytes st + n)) as E2 by reflexivity.
    rewrite E2. rewrite E1 in *. clearbody X. unfold sat_add in *. lia. }
  split_and!; [done|lia|done|rewrite Hused; cbn; lia| |].
  - unfold drop_reservation. destruct (Z.eqb_spec n 0) as [->|]; [|exact Hback].
    rewrite Z.add_0_r. by destruct st.
  - exact Hback.
Qed.

(** Growth of the discovery state is followed by a loop that gives up ledgers and work
    of any priority, but no original that is no report. *)
Lemma fit_loop_spec fuel : forall st, (weight peer_size st < fuel)%nat ->
  exists st', fit_loop peer_size fuel st = Some st' /\ gave 255 st st' /\
    (used st' <= max_queue_budget st' \/ lower_priority_shared_queue 255 st' = None).
Proof using LW.
  induction fuel as [|fuel IH]; intros st Hw; [lia|]. cbn [fit_loop].
  destruct (Z.leb_spec (used st) (max_queue_budget st)) as [H|_]; [exists st; split; [done|]; split; [apply gave_refl|by left]|].
  pose proof (reclaim_codec_spec peer_size st) as Hc. destruct (reclaim_codec_metadata peer_size st) as [[] st1].
  { destruct Hc as [Hc1 Hc2]. destruct (IH st1 ltac:(lia)) as (st' & H1 & H2 & H3). exists st'. split; [done|]. split; [|done].
    eapply gave_trans; [by apply gave_sides|done]. }
  subst st1. destruct (lower_priority_shared_queue 255 st) as [kind|] eqn:E.
  - destruct (lower_priority_spec peer_size _ _ _ E) as (st1 & -> & H1 & H2).
    destruct (IH st1 ltac:(lia)) as (st' & H3 & H4 & H5). exists st'. split; [done|]. split; [|done]. eapply gave_trans; [exact H1|exact H4].
  - exists st. split; [done|]. split; [apply gave_refl|by right].
Qed.
End Credit.

(** ** A small router *)

#[export] Instance sample_layout : RouterLayout :=
  {| size_packet := 96; size_small_payload := 24; size_endpoint := 4; size_shared := 16; inline_capacity := 16;
     size_rx_item := 120; size_tx_queued := 144; ring_reserve item len cap additional := Some (Z.max cap (len + additional)) |}.
#[export] Instance sample_router_laws : RouterLaws.
Proof. split; [cbn; lia|]. intros item len cap additional c [= <-]. lia. Qed.

(** Counters of a board: a best-effort type of priority 20. *)
Definition counters (name : bytes) (t : Z) : Packet :=
  {| ty := 101; data_size := 24; sender := name; pkt_endpoints := [3]; timestamp := t; nonce := 77;
     payload := replicate 24 1; wire_shape := None; wire_target_senders_opt := None |}.
Definition received (name : bytes) (t : Z) : RouterRxItem := {| rx_src := Some 0; rx_data := IPacket (counters name t); rx_priority := 20 |}.
Definition ring {T} `{QueueEnv T} (l : list T) : BoundedDeque T :=
  {| q := l; capacity := 8; max_bytes := 4096; cur_bytes := total_cost l; max_elems := 8; grow_num := 1; grow_den := 1;
     fixed_capacity := true; fair_priority_cursor := 255; fair_owed_priority := 0; fair_owed_flags := 0 |}.
Definition pool (rx : list RouterRxItem) (tx : list TxQueued) (budget : Z) : Pool :=
  {| received_queue := ring rx; transmit_queue := ring tx; sides := []; announced := []; replay_queued := ∅; responses := ∅;
     other_metadata := 0; codec_reserved_bytes := 0; max_queue_budget := budget |}.

Definition busy_pool : Pool := pool [received (str "A") 1; received (str "A") 2; received (str "B") 3] [] 500.

Lemma busy_pool_ok : pool_ok busy_pool.
Proof.
  split; [|split].
  - split; vm_compute; repeat split; discriminate.
  - split; vm_compute; repeat split; discriminate.
  - repeat constructor; cbn; lia.
Qed.


Lemma bulk_room_witness :
  exists st', make_shared_queue_room 64 149 20 (Some (IPacket (counters (str "C") 4))) busy_pool = Some (Ok tt, st') /\
    exists v, one_sender v busy_pool st' /\ q (received_queue st') = [received (str "A") 2; received (str "B") 3].
Proof.
  destruct (make_shared_queue_room 64 149 20 (Some (IPacket (counters (str "C") 4))) busy_pool) as [[res st']|] eqn:E; [|by vm_compute in E].
  assert (fair_bulk_owner (IPacket (counters (str "C") 4)) 20 = Some (sender_address_u32 (str "C"))) as Ho by (vm_compute; reflexivity).
  destruct (bulk_room 64 149 20 (IPacket (counters (str "C") 4)) (sender_address_u32 (str "C")) busy_pool res st' Ho E)
    as [[H1 H2]|(v & _ & Hv)].
  - exfalso. vm_compute in E. injection E as <- <-. vm_compute in H1. discriminate.
  - exists st'. assert (res = Ok tt) as -> by (vm_compute in E; by injection E as <- <-). split; [done|]. exists v. split; [exact Hv|].
    vm_compute in E. injection E as <-. vm_compute. reflexivity.
Defined.

Lemma push_received_budget_witness :
  exists st' adm ev, push_received 64 (received (str "C") 4) busy_pool no_admission = Some (Ok tt, st', adm, ev) /\ pool_ok st'.
Proof.
  destruct (push_received_budget 64 (received (str "C") 4) busy_pool no_admission busy_pool_ok) as (res & st' & adm & ev & H & Hok & _).
  exists st', adm, ev. split; [|exact Hok]. pose proof H as H'. vm_compute in H'. by injection H' as <- _ _ _.
Defined.

Lemma credit_spec_witness : match acquire 64 20 busy_pool with (Ok m, st') => m = 20 /\ drop_reservation 20 st' = busy_pool | _ => False end.
Proof.
  pose proof (credit_spec 64 20 busy_pool ltac:(lia) ltac:(vm_compute; discriminate) ltac:(vm_compute; discriminate)
    ltac:(vm_compute; discriminate) ltac:(vm_compute; reflexivity)) as H.
  destruct (acquire 64 20 busy_pool) as [[m|e] st'] eqn:E; [|by vm_compute in E].
  destruct H as (H1 & _ & _ & _ & H2 & _). split; [exact H1|exact H2].
Defined.

(** *** A reliable original that is given up

    The type is reliable here; the board that packed the frame had a schema in which it
    was not.  The entry is not disposable, but it counts as a report. *)
Definition loose_registry : Registry :=
  {| endpoints := endpoints sample_registry;
     types := map (fun e => (fst e, {| mm_name := mm_name (snd e); mm_description := mm_description (snd e); element := element (snd e);
                                       mm_endpoints := mm_endpoints (snd e); reliable := RNone; priority := priority (snd e);
                                       e2e_encryption := e2e_encryption (snd e) |})) (types sample_registry);
     next_endpoint_id := 8; next_type_id := 102 |}.
Definition loose_frame (t : Z) : bytes :=
  default [] (fst (pack_packet (E := set_registry sample_env loose_registry) ∅
    {| ty := 100; data_size := 2; sender := str "ROCKET"; pkt_endpoints := [7; 3]; timestamp := t; nonce := 77; payload := [1; 2];
       wire_shape := None; wire_target_senders_opt := None |})).
Definition loose_original (t : Z) : TxQueued :=
  {| disposable := 0; tx_item := Broadcast (IPacked (loose_frame t)); ignore_local := false; tx_priority := 10; delivery_state := Ordered;
     accepted_type := 100; deferred_since_ms := 0; retry_after_ms := 0 |}.

Lemma undeclared_original_lost :
  classify_transmit_disposable (loose_original 1) = false /\ is_reliable_type we_registry 100 = true /\
  exists st', make_shared_queue_room 64 149 20 (Some (IPacket (counters (str "C") 4))) (pool [] [loose_original 1; loose_original 2] 220) = Some (Ok tt, st') /\
    q (transmit_queue st') = [loose_original 2].
Proof. split; [vm_compute; reflexivity|]. split; [vm_compute; reflexivity|]. eexists. split; vm_compute; reflexivity. Qed.
