(* ===== verification/SideReceive.v ===== *)
(** * Chunks received by a router (src/src/router.rs, src/src/memory_admission.rs)

    The receive path of a side's chunk frames over the whole [Pool] of [RouterQueues]:
    the partial transfers of all sides that are idle expire at every frame; a chunk makes
    room in what the budget leaves to partial transfers, at the cost of reports, then of
    the oldest other transfer; a fragment that is new passes the admission probe and is
    stored; the last one gives the frame, which is then decoded as a frame of the side.

    The frames of other kinds are in [SideTemplate] and [SideLink]. *)

From S2P Require Import Prelude OrdMap Schema Packet MemoryAdmission WireEnv WireSample WireReader WireFrame WirePeek.
From S2P Require Import SideFrame SideAssembly PayloadCodec AdmissionFairness Queue RouterQueues.

Open Scope Z_scope.

(** ** Admission of received bytes *)

Section Admit.
Context `{WE : WireEnv}.

Definition check_receive_with_role (b : bytes) (managed : bool) : check_fn := fun adm =>
  if negb (has_probe adm) then (Ok tt, adm)
  else
    let frame := match peek_routing_frame_info b with Ok frame => Some frame | Err _ => None end in
    let ack :=
      match frame with
      | Some frame =>
          header_ack_only (fi_reliable frame)
          || one_of (re_ty (fi_envelope frame)) [ty_ReliableAck; ty_ReliablePartialAck; ty_DiscoveryAnnounce]
      | None => false
      end in
    if negb ack && supports_work_kinds adm && (zlen b <=? 128)
       && match b with flags :: _ => Z.land flags 17 =? 0 | [] => false end
       && match frame with
          | Some frame =>
              let env := fi_envelope frame in
              let owners := zlen (targets_of (re_targets env)) in
              protected_discovery_request_shape we_registry (re_ty env) (fi_empty_payload frame)
                (bool_decide (routing_endpoints env = [ep_Discovery])) owners (re_wire_shape env)
              || protected_control_shape we_registry (re_ty env) (nth 1 b 255) owners (re_wire_shape env)
                   (is_some (fi_reliable frame)) managed
          | None => false
          end
    then check_frame_kind (zlen b) false WORK_SMALL_PROTECTED adm
    else check_frame (zlen b) ack adm.

Definition check_receive (b : bytes) : check_fn := check_receive_with_role b false.

(** [retained] is the number of fragments of the transfer, if there is one. *)
Definition check_retained_fragment (b : bytes) (retained : option Z) : check_fn := fun adm =>
  if supports_work_kinds adm && (zlen b <=? 192)
     && match retained with Some count => count <? 64 | None => false end
  then check (sat_add 1280 (zlen b)) 1024 adm
  else check_receive b adm.
End Admit.

(** ** The buffers of a side *)

Fixpoint side_at (side : Z) (l : list (Z * SideBuffers)) : option SideBuffers :=
  match l with
  | [] => None
  | (s, b) :: l => if s =? side then Some b else side_at side l
  end.

Fixpoint replace_rx (side : Z) (rx : RxChunks) (l : list (Z * SideBuffers)) : list (Z * SideBuffers) :=
  match l with
  | [] => []
  | (s, b) :: l =>
      if s =? side then (s, {| sb_rx := rx; sb_codec := sb_codec b |}) :: l else (s, b) :: replace_rx side rx l
  end.

Definition put_rx (side : Z) (rx : RxChunks) (st : Pool) : Pool := set_sides (replace_rx side rx (sides st)) st.

(** [None] only without fuel. *)
Fixpoint expire_sides (now : Z) (l : list (Z * SideBuffers)) : option (list (Z * SideBuffers)) :=
  match l with
  | [] => Some []
  | (side, b) :: l =>
      match SideAssembly.expire (rx_chunks (sb_rx b)) (rx_chunk_bytes (sb_rx b)) now with
      | None => None
      | Some (reclaimed, chunks, buffered) =>
          let rx := {| rx_chunks := chunks; rx_chunk_bytes := buffered;
                       rx_chunk_reclaims := Z.min u32_max (rx_chunk_reclaims (sb_rx b) + reclaimed) |} in
          match expire_sides now l with
          | None => None
          | Some l =>
              Some ((side, {| sb_rx := rx; sb_codec := PayloadCodec.expire DISCOVERY_ROUTE_TTL_MS now (sb_codec b) |}) :: l)
          end
      end
  end.

Definition expire_side_chunks (now : Z) (st : Pool) : option Pool :=
  match expire_sides now (sides st) with Some l => Some (set_sides l st) | None => None end.

(** ** Receiving *)

(** What a received frame came to: not a chunk, and so for the other branches; a chunk
    that leaves its transfer incomplete; the frame of a complete transfer. *)
Inductive Decoded : Type := Elsewhere | Waiting | Assembled (frame : bytes).

Section Receive.
Context `{WE : WireEnv} `{RL : RouterLayout} (peer_size : Z).
(** The configuration of the build and of the router. *)
Context (STACK_PAYLOAD_SIZE hostname_len starting_queue_size : Z).

Abbreviation protected_metadata_bytes_used := (protected_metadata_bytes_used peer_size).
Abbreviation shared_queue_bytes_used := (shared_queue_bytes_used peer_size).

(** Part of the budget stays with the inline queue. *)
Definition side_chunk_admission_budget (protected : Z) (st : Pool) : Z :=
  let inline_credit := sat_add (sat_add (sat_add size_tx_queued STACK_PAYLOAD_SIZE) hostname_len) size_endpoint in
  let spendable := sat_sub (max_queue_budget st) protected in
  let local_credit := if inline_credit <=? spendable / 2 then Z.min inline_credit starting_queue_size else 0 in
  sat_sub (max_queue_budget st) local_credit.

(** The shared budget is made to hold a fragment; [None] only without fuel. *)
Fixpoint share_loop (fuel : nat) (side id cost admission_budget : Z) (st : Pool) : option (result unit * Pool) :=
  match fuel with
  | O => None
  | S fuel =>
      if sat_add (shared_queue_bytes_used st) cost <=? admission_budget then Some (Ok tt, st)
      else
        let '(hit, st) :=
          match queue_victim_owner None (bulk_loads 199 st) with
          | Some owner => reclaim_bulk_from owner 199 None st
          | None => (false, st)
          end in
        if hit then share_loop fuel side id cost admission_budget st
        else
          let '(hit, st) := reclaim_oldest_side_chunk (Some (side, id)) st in
          if hit then share_loop fuel side id cost admission_budget st
          else Some (Err (Io "memory pressure"), st)
  end.

Definition make_side_chunk_room (side id : Z) (index : nat) (total payload_len : Z) (st : Pool)
    : option (result unit * Pool) :=
  let protected := protected_metadata_bytes_used st in
  let admission_budget := side_chunk_admission_budget protected st in
  let budget := sat_sub admission_budget protected in
  match side_at side (sides st) with
  | None => Some (Err BadArg, st)
  | Some b =>
      match side_chunk_room id index total payload_len budget (sb_rx b) with
      | None => None
      | Some (room, rx) =>
          let st := put_rx side rx st in
          match room with
          | Err e => Some (Err e, st)
          | Ok cost =>
              if cost =? 0 then Some (Ok tt, st)
              else share_loop (S (weight peer_size st)) side id cost admission_budget st
          end
      end
  end.

(** The retained transfer of a side. *)
Definition transfer_at (side id : Z) (st : Pool) : option SideChunkAssembly :=
  match side_at side (sides st) with Some b => rx_chunks (sb_rx b) !! id | None => None end.

(** The probe is asked again as long as something can be given up for it. *)
Fixpoint retained_loop (fuel : nat) (side id : Z) (b : bytes) (retained : option Z) (st : Pool) (adm : Admission)
    : option (result unit * Pool * Admission) :=
  match fuel with
  | O => None
  | S fuel =>
      match check_retained_fragment b retained adm with
      | (Err (Io m), adm) =>
          if decide (m = "memory pressure") then
            let '(hit, st) :=
              match lower_priority_shared_queue 199 st with
              | Some queue => pop_shared_queue_item queue st
              | None => (false, st)
              end in
            if hit then retained_loop fuel side id b retained st adm
            else
              let '(hit, st) := reclaim_oldest_side_chunk (Some (side, id)) st in
              if hit then retained_loop fuel side id b retained st adm
              else Some (Err (Io "memory pressure"), st, adm)
          else Some (Err (Io m), st, adm)
      | (res, adm) => Some (res, st, adm)
      end
  end.

Definition decoded (r : result (option bytes)) : result Decoded :=
  match r with Err e => Err e | Ok None => Ok Waiting | Ok (Some frame) => Ok (Assembled frame) end.

(** The branch of a chunk: [b] is the whole frame of the side and [body] what is in it. *)
Definition receive_chunk (side : Z) (b body : bytes) (now : Z) (st : Pool) (adm : Admission)
    : option (result Decoded * Pool * Admission) :=
  match parse_chunk_body body with
  | Err e => Some (Err e, st, adm)
  | Ok (id, index, total, payload) =>
      match make_side_chunk_room side id index total (zlen payload) st with
      | None => None
      | Some (Err e, st) => Some (Err e, st, adm)
      | Some (Ok _, st) =>
          let entry := transfer_at side id st in
          if match entry with Some a => contains_index a index | None => false end then Some (Ok Waiting, st, adm)
          else
            match retained_loop (S (weight peer_size st)) side id b (received_count <$> entry) st adm with
            | None => None
            | Some (Err e, st, adm) => Some (Err e, st, adm)
            | Some (Ok _, st, adm) =>
                match side_at side (sides st) with
                | None => Some (Err BadArg, st, adm)
                | Some s =>
                    let '(res, rx, adm) := store_chunk id index total payload now (sb_rx s) adm in
                    Some (decoded res, put_rx side rx st, adm)
                end
            end
      end
  end.

(** A frame of the side, its branch for chunks only.  The clock is read twice: [start]
    when the frame comes in, [now] when the chunk is stored. *)
Definition decode_side_chunk (side : Z) (b : bytes) (start now : Z) (st : Pool) (adm : Admission)
    : option (result Decoded * Pool * Admission) :=
  match expire_side_chunks start st with
  | None => None
  | Some st =>
      match parse_side_transport_wrapper b with
      | Err e => Some (Err e, st, adm)
      | Ok None => Some (Ok Elsewhere, st, adm)
      | Ok (Some (kind, body)) =>
          if kind =? SIDE_TRANSPORT_KIND_CHUNK then receive_chunk side b body now st adm
          else Some (Ok Elsewhere, st, adm)
      end
  end.
End Receive.

(** ** What making room leaves of the sides *)

(** A side of the first list, and the same side in the second, when room is made for a
    chunk of the transfer [id] of [side]. *)
Definition left_over (side id : Z) (s s' : Z * SideBuffers) : Prop :=
  fst s' = fst s /\ sb_codec (snd s') = sb_codec (snd s) /\
  (rx_ok (sb_rx (snd s)) -> rx_ok (sb_rx (snd s')) /\ rx_chunks (sb_rx (snd s')) ⊆ rx_chunks (sb_rx (snd s))) /\
  (fst s = side -> rx_chunks (sb_rx (snd s')) !! id = rx_chunks (sb_rx (snd s)) !! id).

Definition leaves (side id : Z) : relation (list (Z * SideBuffers)) := Forall2 (left_over side id).

#[export] Instance left_over_preorder side id : PreOrder (left_over side id).
Proof.
  split; [by intros s|]. intros a b c (A1 & A2 & A3 & A4) (B1 & B2 & B3 & B4).
  split; [congruence|]. split; [congruence|]. split.
  - intros H. destruct (A3 H) as [H1 H2]. destruct (B3 H1) as [H3 H4]. split; [done|by etransitivity].
  - intros H. rewrite B4 by congruence. by apply A4.
Qed.

#[export] Instance leaves_preorder side id : PreOrder (leaves side id).
Proof. split; unfold leaves; [intros l; by reflexivity|intros a b c H1 H2; by etransitivity]. Qed.

Lemma leaves_fst side id l l' : leaves side id l l' -> map fst l' = map fst l.
Proof. induction 1 as [|s s' l l' H _ IH]; [done|]. cbn. rewrite IH. by rewrite (proj1 H). Qed.

Lemma leaves_codecs side id l l' : leaves side id l l' -> map (fun s => sb_codec (snd s)) l' = map (fun s => sb_codec (snd s)) l.
Proof. induction 1 as [|s s' l l' H _ IH]; [done|]. cbn. rewrite IH. destruct H as (_ & -> & _). done. Qed.

(** The side itself in related lists. *)
Lemma side_at_related (R : Z * SideBuffers -> Z * SideBuffers -> Prop) side l l' b :
  (forall s s', R s s' -> fst s' = fst s) -> Forall2 R l l' -> side_at side l = Some b ->
  exists b', side_at side l' = Some b' /\ R (side, b) (side, b').
Proof.
  intros HR. induction 1 as [|[s c] [s' c'] l l' H _ IH]; [done|]. pose proof (HR _ _ H) as Hs. cbn in Hs. subst s'.
  cbn [side_at]. destruct (Z.eqb_spec s side) as [->|]; [|done]. intros [= ->]. by exists c'.
Qed.

Lemma leaves_at side id l l' b : leaves side id l l' -> side_at side l = Some b ->
  exists b', side_at side l' = Some b' /\ left_over side id (side, b) (side, b').
Proof. apply side_at_related. by intros s s' []. Qed.

Lemma side_at_set side rx l b : side_at side l = Some b ->
  side_at side (replace_rx side rx l) = Some {| sb_rx := rx; sb_codec := sb_codec b |}.
Proof.
  induction l as [|[s c] l IH]; [done|]. cbn [side_at replace_rx]. destruct (Z.eqb_spec s side) as [->|Hn].
  - intros [= ->]. cbn [side_at]. by rewrite Z.eqb_refl.
  - intros H. cbn [side_at]. rewrite (proj2 (Z.eqb_neq _ _)) by done. by apply IH.
Qed.

Lemma replace_rx_fst side rx l : map fst (replace_rx side rx l) = map fst l.
Proof. induction l as [|[s c] l IH]; [done|]. cbn. destruct (s =? side); cbn; [done|by rewrite IH]. Qed.
Lemma replace_rx_codecs side rx l : map (fun s => sb_codec (snd s)) (replace_rx side rx l) = map (fun s => sb_codec (snd s)) l.
Proof. induction l as [|[s c] l IH]; [done|]. cbn. destruct (s =? side); cbn; [done|by rewrite IH]. Qed.

Lemma take_from_leaves side id s i l : (s, i) <> (side, id) -> leaves side id l (snd (take_from s i l)).
Proof.
  intros Hne. induction l as [|[k b] l IH]; [constructor|]. cbn [take_from].
  destruct (Z.eqb_spec k s) as [->|].
  - destruct (take_chunk i true (sb_rx b)) as [gone rx] eqn:Et. constructor; [|reflexivity].
    assert (rx = snd (take_chunk i true (sb_rx b))) as -> by by rewrite Et. split; [done|]. split; [done|]. cbn [fst snd sb_rx]. split.
    + intros [Hok Hfew]. destruct (take_chunk_ok i true (sb_rx b) Hok) as (Hd & Hok' & _). split; [split; [done|]|]; rewrite Hd.
      * pose proof (chunks_size_le _ _ (delete_subseteq (rx_chunks (sb_rx b)) i)). lia.
      * apply delete_subseteq.
    + intros ->. unfold take_chunk, SideAssembly.remove. destruct (rx_chunks (sb_rx b) !! i); [|done]. cbn. apply lookup_delete_ne. congruence.
  - destruct (take_from s i l) as [hit l']. constructor; [reflexivity|exact IH].
Qed.

Lemma oldest_chunk_other side id l victim time s i :
  oldest_chunk (Some (side, id)) l victim time = Some (s, i) -> victim = Some (s, i) \/ (s, i) <> (side, id).
Proof.
  revert victim time. induction l as [|[k b] l IH]; intros victim time; cbn [oldest_chunk]; [by left|].
  destruct (oldest _ _) as [[j seen]|] eqn:Eo; [|apply IH].
  destruct (_ || _); [|apply IH]. intros H. destruct (IH _ _ H) as [[= <- <-]|]; [|by right]. right.
  apply oldest_some in Eo as (Hk & _). destruct (Z.eqb_spec side k) as [->|]; congruence.
Qed.

Lemma reclaim_oldest_leaves side id st : leaves side id (sides st) (sides (snd (reclaim_oldest_side_chunk (Some (side, id)) st))).
Proof.
  unfold reclaim_oldest_side_chunk. destruct (oldest_chunk _ _ _ _) as [[s i]|] eqn:E; [|reflexivity].
  destruct (oldest_chunk_other _ _ _ _ _ _ _ E) as [|Hne]; [done|]. unfold discard_side_chunk.
  pose proof (take_from_leaves side id s i (sides st) Hne) as H. destruct (take_from s i (sides st)) as [hit l]. exact H.
Qed.

Lemma reclaim_bulk_sides `{WE : WireEnv} `{RL : RouterLayout} v limit kind st : sides (snd (reclaim_bulk_from v limit kind st)) = sides st.
Proof.
  unfold reclaim_bulk_from. destruct (pick rx_bulk_owner _ _ _ _ _ _) as [[i x]|], (pick tx_bulk_owner _ _ _ _ _ _) as [[j y]|]; try done.
  - destruct (_ <=? _); destruct (remove_pos _ _); done.
  - destruct (remove_pos _ _); done.
  - destruct (remove_pos _ _); done.
Qed.

Lemma pop_shared_sides `{WE : WireEnv} `{RL : RouterLayout} kind st : sides (snd (pop_shared_queue_item kind st)) = sides st.
Proof.
  destruct kind; cbn [pop_shared_queue_item].
  - by destruct (pop_back (received_queue st)).
  - destruct (transmit_eviction_candidate _) as [i|]; [|done]. destruct (remove_pos i _) as [[x|] d]; done.
Qed.

Section ReceiveFacts.
Context `{WE : WireEnv} `{RL : RouterLayout} `{LW : !RouterLaws} (peer_size : Z).
Context (STACK_PAYLOAD_SIZE hostname_len starting_queue_size : Z).

Abbreviation used := (shared_queue_bytes_used peer_size).
Abbreviation protected := (protected_metadata_bytes_used peer_size).
Abbreviation weight := (weight peer_size).
Abbreviation make_side_chunk_room := (make_side_chunk_room peer_size STACK_PAYLOAD_SIZE hostname_len starting_queue_size).
Abbreviation receive_chunk := (receive_chunk peer_size STACK_PAYLOAD_SIZE hostname_len starting_queue_size).
Abbreviation decode_side_chunk := (decode_side_chunk peer_size STACK_PAYLOAD_SIZE hostname_len starting_queue_size).

(** ** Making room *)

(** What is given up for a chunk: work of a priority up to 199 and no original that is
    no report; of the sides, other transfers. *)
Definition yields (side id : Z) (st st' : Pool) : Prop := gave 199 st st' /\ leaves side id (sides st) (sides st').

#[local] Instance yields_preorder side id : PreOrder (yields side id).
Proof using.
  split; [intros st; split; [apply gave_refl|reflexivity]|].
  intros a b c [A1 A2] [B1 B2]. split; [by eapply gave_trans|by etransitivity].
Qed.

Lemma yields_protected side id st st' : yields side id st st' -> protected st' = protected st.
Proof using.
  intros [Hg Hl]. unfold RouterQueues.protected_metadata_bytes_used. rewrite (gv_metadata _ _ _ Hg).
  pose proof (leaves_codecs _ _ _ _ Hl) as Hc. do 2 f_equal.
  transitivity (map (PayloadCodec.heap_bytes peer_size) (map (fun s => sb_codec (snd s)) (sides st'))); [by rewrite map_map|].
  by rewrite Hc, map_map.
Qed.

(** No report can be reclaimed and no other transfer. *)
Definition nothing_gives_way (side id : Z) (st : Pool) : Prop :=
  match queue_victim_owner None (bulk_loads 199 st) with
  | Some owner => fst (reclaim_bulk_from owner 199 None st) = false
  | None => True
  end /\ fst (reclaim_oldest_side_chunk (Some (side, id)) st) = false.

Lemma share_loop_spec side id cost budget fuel : forall st, (weight st < fuel)%nat ->
  exists res st', share_loop peer_size fuel side id cost budget st = Some (res, st') /\ yields side id st st' /\
    match res with
    | Ok _ => sat_add (used st') cost <= budget
    | Err e => e = Io "memory pressure" /\ budget < sat_add (used st') cost /\ nothing_gives_way side id st'
    end.
Proof using LW.
  induction fuel as [|fuel IH]; intros st Hw; [lia|]. cbn [share_loop].
  destruct (Z.leb_spec (sat_add (used st) cost) budget) as [Hfit|Hfull]; [by exists (Ok tt), st|].
  assert (forall st1, yields side id st st1 -> (weight st1 < weight st)%nat ->
    exists res st', share_loop peer_size fuel side id cost budget st1 = Some (res, st') /\ yields side id st st' /\
      match res with
      | Ok _ => sat_add (used st') cost <= budget
      | Err e => e = Io "memory pressure" /\ budget < sat_add (used st') cost /\ nothing_gives_way side id st'
      end) as Hgo.
  { intros st1 Hy Hlt. destruct (IH st1 ltac:(lia)) as (res & st' & H1 & H2 & H3). exists res, st'. split; [done|].
    split; [by etransitivity|done]. }
  set (bulk := match queue_victim_owner None (bulk_loads 199 st) with Some owner => reclaim_bulk_from owner 199 None st | None => (false, st) end).
  assert (match bulk with
          | (true, st1) => yields side id st st1 /\ (weight st1 < weight st)%nat
          | (false, st1) => st1 = st /\ match queue_victim_owner None (bulk_loads 199 st) with
                                        | Some owner => fst (reclaim_bulk_from owner 199 None st) = false | None => True end
          end) as Hb.
  { unfold bulk. destruct (queue_victim_owner _ _) as [v|]; [|done].
    pose proof (reclaim_bulk_spec peer_size v 199 None st) as H. pose proof (reclaim_bulk_sides v 199 None st) as Hs.
    destruct (reclaim_bulk_from v 199 None st) as [[] st1]; [|done]. cbn [snd] in Hs.
    destruct H as (H1 & H2 & _). split; [split; [done|by rewrite Hs]|done]. }
  destruct bulk as [[] st1]; [apply Hgo; apply Hb|]. destruct Hb as [-> Hb].
  pose proof (reclaim_oldest_spec peer_size (Some (side, id)) st) as Ho. pose proof (reclaim_oldest_leaves side id st) as Hl.
  destruct (reclaim_oldest_side_chunk (Some (side, id)) st) as [[] st1] eqn:Eo; cbn [snd] in Hl.
  - destruct Ho as [Ho1 Ho2]. apply Hgo; [|done]. split; [by apply gave_sides|done].
  - subst st1. exists (Err (Io "memory pressure")), st. split; [done|]. split; [reflexivity|]. split; [done|]. split; [done|].
    split; [done|]. by rewrite Eo.
Qed.

Lemma retained_loop_spec side id b retained fuel : forall st adm, (weight st < fuel)%nat ->
  exists res st' adm', retained_loop fuel side id b retained st adm = Some (res, st', adm') /\ yields side id st st' /\
    (has_probe adm = false -> res = Ok tt /\ st' = st /\ adm' = adm).
Proof using LW.
  induction fuel as [|fuel IH]; intros st adm Hw; [lia|]. cbn [retained_loop].
  assert (has_probe adm = false -> check_retained_fragment b retained adm = (Ok tt, adm)) as Hopen.
  { intros H. unfold check_retained_fragment, check_receive, check_receive_with_role. rewrite H. cbn [negb].
    destruct (_ && _); [by apply check_no_probe|done]. }
  destruct (check_retained_fragment b retained adm) as [[u|e] adm1] eqn:Ec.
  { exists (Ok u), st, adm1. split; [done|]. split; [reflexivity|]. intros H. specialize (Hopen H). injection Hopen as -> ->. done. }
  assert (has_probe adm = false -> False) as Hno by (intros H; specialize (Hopen H); done).
  assert (forall res st' adm', res = Err (A := unit) e -> st' = st -> adm' = adm1 -> exists res0 st0 adm0,
    Some (res, st', adm') = Some (res0, st0, adm0) /\ yields side id st st0 /\ (has_probe adm = false -> res0 = Ok tt /\ st0 = st /\ adm0 = adm)) as Hstop.
  { intros res st' adm' -> -> ->. eexists _, _, _. split; [reflexivity|]. split; [reflexivity|]. intros H. by destruct (Hno H). }
  destruct e as [| | | | | | | | | | | |m| | | |]; try by apply Hstop. case_decide as Hm; [|by apply Hstop]. subst m.
  assert (forall st1, yields side id st st1 -> (weight st1 < weight st)%nat ->
    exists res st' adm', retained_loop fuel side id b retained st1 adm1 = Some (res, st', adm') /\ yields side id st st' /\
      (has_probe adm = false -> res = Ok tt /\ st' = st /\ adm' = adm)) as Hgo.
  { intros st1 Hy Hlt. destruct (IH st1 adm1 ltac:(lia)) as (res & st' & adm' & H1 & H2 & _). exists res, st', adm'.
    split; [done|]. split; [by etransitivity|]. intros H. by destruct (Hno H). }
  pose proof (reclaim_oldest_spec peer_size (Some (side, id)) st) as Ho. pose proof (reclaim_oldest_leaves side id st) as Hl.
  destruct (lower_priority_shared_queue 199 st) as [kind|] eqn:El.
  { destruct (lower_priority_spec peer_size 199 kind st El) as (st1 & Hp & Hg & Hlt). pose proof (pop_shared_sides kind st) as Hs.
    rewrite Hp in Hs |- *. cbn [snd] in Hs. apply Hgo; [|done]. split; [done|by rewrite Hs]. }
  destruct (reclaim_oldest_side_chunk (Some (side, id)) st) as [[] st1]; cbn [snd] in Hl.
  - destruct Ho as [Ho1 Ho2]. apply Hgo; [|done]. split; [by apply gave_sides|done].
  - subst st1. by apply Hstop.
Qed.

(** ** Expiry *)

Context (peer_nonneg : 0 <= peer_size).

Abbreviation heap_bytes := (PayloadCodec.heap_bytes peer_size).

(** The shape of a side's buffers. *)
Record sound_side (s : Z * SideBuffers) : Prop := {
  ss_rx : rx_ok (sb_rx (snd s));
  ss_capacity : 0 <= peers_capacity (sb_codec (snd s));
  ss_names : 0 <= names_bytes (sb_codec (snd s));
}.

Definition ledger_sum (l : list (Z * SideBuffers)) : Z := foldr Z.add 0 (map (fun s => heap_bytes (sb_codec (snd s))) l).

Lemma heap_nonneg l : 0 <= peers_capacity l -> 0 <= names_bytes l -> 0 <= heap_bytes l.
Proof using peer_nonneg. unfold PayloadCodec.heap_bytes. nia. Qed.

Lemma ledger_sum_nonneg l : Forall sound_side l -> 0 <= ledger_sum l.
Proof using peer_nonneg.
  induction 1 as [|s l [_ H1 H2] _ IH]; [done|]. unfold ledger_sum in *. cbn. pose proof (heap_nonneg _ H1 H2). lia.
Qed.

(** Forgetting records and names costs nothing. *)
Lemma codec_expire_bytes now l : 0 <= peers_capacity l -> 0 <= names_bytes l ->
  let l' := PayloadCodec.expire DISCOVERY_ROUTE_TTL_MS now l in
  0 <= peers_capacity l' /\ 0 <= names_bytes l' /\ heap_bytes l' <= heap_bytes l.
Proof using peer_nonneg.
  intros Hc Hn. cbv zeta. unfold PayloadCodec.expire. destruct (_ <? now); [|done].
  set (l' := PayloadCodec.recompute _ _ _).
  assert (peers_capacity l' = peers_capacity (PayloadCodec.pruned DISCOVERY_ROUTE_TTL_MS now l) /\
          names_bytes l' = names_bytes (PayloadCodec.pruned DISCOVERY_ROUTE_TTL_MS now l)) as [E1 E2]
    by (unfold l', PayloadCodec.recompute, bump_if; by destruct (_ || _)).
  unfold PayloadCodec.heap_bytes. rewrite E1, E2. unfold PayloadCodec.pruned. cbn [set_slots set_peers peers_capacity names_bytes].
  set (gone := foldr _ 0 _).
  assert (0 <= gone) as Hg.
  { unfold gone. clear. induction (List.filter _ (peers l)) as [|p ps IH]; cbn [foldr]; [done|].
    assert (0 <= name_bytes (p_sender p)).
    { unfold name_bytes, sat_add, u64_max. pose proof (zlen_nonneg (p_sender p)). apply Z.mul_nonneg_nonneg; [apply Z.div_pos; lia|lia]. }
    cbn zeta in IH. lia. }
  pose proof (Z.mul_nonneg_nonneg _ _ Hc peer_nonneg). destruct (is_empty _); unfold sat_sub; split_and!; lia.
Qed.

Definition expired (now : Z) (s s' : Z * SideBuffers) : Prop :=
  fst s' = fst s /\ sound_side s' /\ heap_bytes (sb_codec (snd s')) <= heap_bytes (sb_codec (snd s)) /\
  rx_chunks (sb_rx (snd s')) = fresh now (rx_chunks (sb_rx (snd s))).

(** Expiry ends, and forgets exactly the transfers that are idle for too long. *)
Lemma expire_sides_spec now l : Forall sound_side l -> exists l', expire_sides now l = Some l' /\ Forall2 (expired now) l l'.
Proof using peer_nonneg.
  induction 1 as [|[s b] l Hs _ (l' & IH1 & IH2)]; [by exists []|]. cbn [expire_sides]. destruct Hs as [[Hok Hfew] Hc Hn]. cbn [snd] in *.
  unfold SideAssembly.expire. destruct (expire_loop_spec (S (size (rx_chunks (sb_rx b)))) now _ _ 0 Hok ltac:(lia) ltac:(solve_u)) as [-> Hf].
  rewrite IH1. eexists. split; [reflexivity|]. constructor; [|done]. destruct (codec_expire_bytes now _ Hc Hn) as (H1 & H2 & H3).
  split; [done|]. split; [|done]. split; [|done|done]. split; [done|]. cbn [snd sb_rx rx_chunks].
  assert (size (fresh now (rx_chunks (sb_rx b))) <= size (rx_chunks (sb_rx b)))%nat; [|lia]. apply chunks_size_le, map_filter_subseteq.
Qed.

Lemma expired_sound now l l' : Forall2 (expired now) l l' -> Forall sound_side l' /\ ledger_sum l' <= ledger_sum l.
Proof using.
  induction 1 as [|s s' l l' (_ & Hs & Hb & _) _ [IH1 IH2]]; [split; [constructor|done]|].
  split; [by constructor|]. unfold ledger_sum in *. cbn. lia.
Qed.

Lemma leaves_sound side id l l' : leaves side id l l' -> Forall sound_side l -> Forall sound_side l'.
Proof using.
  induction 1 as [|s s' l l' (_ & Hc & Hr & _) _ IH]; [done|]. intros [Hs Hl]%Forall_cons. constructor; [|by apply IH].
  destruct Hs as [H1 H2 H3]. split; [by apply Hr|by rewrite Hc|by rewrite Hc].
Qed.

Lemma replace_rx_sound side rx l : rx_ok rx -> Forall sound_side l -> Forall sound_side (replace_rx side rx l).
Proof using.
  intros Hrx. induction 1 as [|[s b] l Hs Hl IH]; [constructor|]. cbn [replace_rx]. destruct (s =? side); constructor; try done.
  destruct Hs. by split.
Qed.

Lemma ledger_sum_codecs l l' : map (fun s => sb_codec (snd s)) l' = map (fun s => sb_codec (snd s)) l -> ledger_sum l' = ledger_sum l.
Proof using.
  intros H. unfold ledger_sum. f_equal. transitivity (map heap_bytes (map (fun s => sb_codec (snd s)) l')); [by rewrite map_map|].
  by rewrite H, map_map.
Qed.

Lemma side_at_sound side l b : Forall sound_side l -> side_at side l = Some b -> sound_side (side, b).
Proof using.
  induction 1 as [|[s c] l Hs _ IH]; [done|]. cbn [side_at]. destruct (Z.eqb_spec s side) as [->|]; [by intros [= ->]|done].
Qed.

(** ** The state of a router that receives *)

Record settled (st : Pool) : Prop := {
  se_sides : Forall sound_side (sides st);
  se_metadata : 0 <= other_metadata st;
  se_ledgers : ledger_sum (sides st) <= u64_max;
  se_budget : max_queue_budget st < u64_max;
}.

Lemma settled_protected st : settled st -> protected st = sat_add (ledger_sum (sides st)) (other_metadata st).
Proof using peer_nonneg.
  intros [H1 H2 H3 H4]. unfold RouterQueues.protected_metadata_bytes_used, usize_sum. f_equal.
  pose proof (ledger_sum_nonneg _ H1) as H. unfold ledger_sum in *. apply wrap64_small. revert H H3. solve_u.
Qed.

(** A step that changes neither the budget nor the other metadata. *)
Lemma settled_step st st' : settled st -> max_queue_budget st' = max_queue_budget st -> other_metadata st' = other_metadata st ->
  Forall sound_side (sides st') -> ledger_sum (sides st') <= ledger_sum (sides st) -> settled st' /\ protected st' <= protected st.
Proof using peer_nonneg.
  intros Hst Hb Hm Hs Hl. assert (settled st') as Hst' by (destruct Hst; split; [done|congruence|lia|congruence]).
  split; [done|]. rewrite !settled_protected by done. rewrite Hm. unfold sat_add. lia.
Qed.

Lemma yields_settled side id st st' : yields side id st st' -> settled st -> settled st' /\ protected st' <= protected st.
Proof using peer_nonneg.
  intros [Hg Hl] Hst. apply settled_step; [done|apply Hg|apply Hg|eapply leaves_sound; [exact Hl|apply Hst]|].
  rewrite (ledger_sum_codecs _ _ (leaves_codecs _ _ _ _ Hl)). lia.
Qed.

Lemma put_rx_settled side rx st : rx_ok rx -> settled st -> settled (put_rx side rx st) /\ protected (put_rx side rx st) <= protected st.
Proof using peer_nonneg.
  intros Hrx Hst. apply settled_step; [done|done|done|apply replace_rx_sound; [done|apply Hst]|].
  cbn [put_rx set_sides sides]. rewrite (ledger_sum_codecs _ _ (replace_rx_codecs side rx (sides st))). lia.
Qed.

Lemma expire_settled now st : settled st -> exists st', expire_side_chunks now st = Some st' /\ st' = set_sides (sides st') st /\
  settled st' /\ protected st' <= protected st /\ Forall2 (expired now) (sides st) (sides st').
Proof using peer_nonneg.
  intros Hst. destruct (expire_sides_spec now (sides st) (se_sides _ Hst)) as (l & He & Hf).
  exists (set_sides l st). unfold expire_side_chunks. rewrite He. split; [done|]. split; [done|].
  destruct (expired_sound _ _ _ Hf) as [H1 H2]. destruct (settled_step st (set_sides l st) Hst eq_refl eq_refl H1 H2). done.
Qed.

(** ** Room for a chunk *)

(** What the router leaves to partial transfers, and to those beside the metadata. *)
Definition admission (st : Pool) : Z :=
  side_chunk_admission_budget STACK_PAYLOAD_SIZE hostname_len starting_queue_size (protected st) st.
Definition chunk_budget (st : Pool) : Z := sat_sub (admission st) (protected st).

Lemma room_shrinks id total index len budget side rx rx1 c rx2 c2 :
  retained (rx_chunks rx) id index = false -> roomy id total index len budget rx rx1 ->
  left_over side id (side, {| sb_rx := rx1; sb_codec := c |}) (side, {| sb_rx := rx2; sb_codec := c2 |}) ->
  roomy id total index len budget rx rx2.
Proof using.
  intros Hret [R1 R2 R3 R4 R5 R6 R7] (_ & _ & Hr & Hown). cbn [fst snd sb_rx] in *. destruct (Hr R1) as [Hok Hsub].
  specialize (Hown eq_refl). pose proof (room_ok_bytes _ _ _ _ (rx_accounted _ R1) (rx_accounted _ Hok) Hsub) as Hb. split.
  - done.
  - by etransitivity.
  - lia.
  - intros a. rewrite Hown. apply R4.
  - by rewrite Hown.
  - congruence.
  - intros _. destruct (R7 Hret) as [H1 H2]. split; [unfold sat_add in *; lia|]. intros Hn. specialize (H2 Hn).
    pose proof (chunks_size_le _ _ Hsub). lia.
Qed.

Lemma put_rx_protected side rx st : protected (put_rx side rx st) = protected st.
Proof using.
  unfold RouterQueues.protected_metadata_bytes_used. cbn [put_rx set_sides sides other_metadata]. do 2 f_equal.
  transitivity (map heap_bytes (map (fun s => sb_codec (snd s)) (replace_rx side rx (sides st)))); [by rewrite map_map|].
  by rewrite replace_rx_codecs, map_map.
Qed.

Lemma make_room_spec side id index total len st b :
  settled st -> side_at side (sides st) = Some b -> 0 <= len -> 0 <= total ->
  let m := rx_chunks (sb_rx b) in
  let cost := room_cost m id total len in
  exists res st' b', make_side_chunk_room side id index total len st = Some (res, st') /\
    settled st' /\ protected st' = protected st /\ gave 199 st st' /\
    side_at side (sides st') = Some b' /\ rx_ok (sb_rx b') /\
    match res with
    | Ok _ => roomy id total index len (chunk_budget st) (sb_rx b) (sb_rx b')
    | Err e =>
        (rx_chunks (sb_rx b') !! id = None /\
         ((e = Unpack "side chunk total mismatch" /\ exists a, m !! id = Some a /\ asm_total a <> 0 /\ asm_total a <> total) \/
          (e = PacketTooLarge "side chunk receive budget" /\
           (chunk_budget st / 64 < total \/ chunk_budget st < cost \/
            (retained m id index = false /\ chunk_budget st < sat_add (own_cost m id) cost))))) \/
        (e = Io "memory pressure" /\ retained m id index = false /\ rx_chunks (sb_rx b') !! id = m !! id /\
         admission st' < sat_add (used st') cost /\ nothing_gives_way side id st')
    end.
Proof using LW peer_nonneg.
  intros Hst Hb Hlen Htotal. cbv zeta. pose proof (side_at_sound _ _ _ (se_sides _ Hst) Hb) as [Hrx _ _]. cbn [snd] in Hrx.
  unfold SideReceive.make_side_chunk_room. fold (admission st). fold (chunk_budget st). rewrite Hb.
  destruct (side_chunk_room_ok id index total len (chunk_budget st) (sb_rx b) Hrx Hlen Htotal) as (r & rx1 & -> & Hr).
  pose proof (put_rx_protected side rx1 st) as Hp1. set (st1 := put_rx side rx1 st) in *. pose proof (side_at_set side rx1 _ _ Hb) as Hb1.
  assert (gave 199 st st1) as Hg1 by by apply gave_sides.
  destruct r as [cost|e].
  2: { destruct Hr as (Hok1 & _ & Hnone & Hwhy). destruct (put_rx_settled side rx1 st Hok1 Hst) as [Hs1 _].
       eexists _, st1, _. split; [reflexivity|]. split; [done|]. split; [done|]. split; [done|]. split; [exact Hb1|].
       split; [done|]. left. split; [done|exact Hwhy]. }
  destruct Hr as [Hr ->]. pose proof (ro_ok _ _ _ _ _ _ _ Hr) as Hok1. destruct (put_rx_settled side rx1 st Hok1 Hst) as [Hs1 _].
  destruct (retained (rx_chunks (sb_rx b)) id index) eqn:Eret.
  { rewrite Z.eqb_refl. eexists _, st1, _. split; [reflexivity|]. by split_and!. }
  pose proof (room_cost_pos (rx_chunks (sb_rx b)) id total len Hlen Htotal) as Hpos. rewrite (proj2 (Z.eqb_neq _ _)) by lia.
  destruct (share_loop_spec side id (room_cost (rx_chunks (sb_rx b)) id total len) (admission st) (S (weight st1)) st1 ltac:(lia))
    as (res & st2 & -> & Hy & Hres).
  destruct (yields_settled side id _ _ Hy Hs1) as [Hs2 _]. pose proof (yields_protected _ _ _ _ Hy) as Hp2. destruct Hy as [Hg2 Hl2].
  destruct (leaves_at _ _ _ _ _ Hl2 Hb1) as (b2 & Hb2 & Hleft). destruct b2 as [rx2 c2].
  pose proof (room_shrinks _ _ _ _ _ _ _ _ _ _ _ Eret Hr Hleft) as Hr2.
  eexists res, st2, _. split; [reflexivity|]. split; [done|]. split; [by rewrite Hp2|]. split; [by eapply gave_trans|]. split; [exact Hb2|].
  split; [apply Hr2|]. destruct res as [u|e]; [exact Hr2|]. right. destruct Hres as (-> & Hfull & Hno).
  split; [done|]. split; [done|]. split; [apply (ro_own _ _ _ _ _ _ _ Hr2)|]. split; [|done].
  assert (admission st2 = admission st) as ->; [|done]. unfold admission, side_chunk_admission_budget.
  rewrite Hp2, Hp1, (gv_budget _ _ _ Hg2). done.
Qed.

(** What stays with the inline queue, at most. *)
Definition inline_allowance : Z :=
  Z.min (sat_add (sat_add (sat_add size_tx_queued STACK_PAYLOAD_SIZE) hostname_len) size_endpoint) starting_queue_size.
Context (allowance_nonneg : 0 <= inline_allowance).

Lemma chunk_budget_range st : 0 <= protected st ->
  chunk_budget st <= Z.max 0 (max_queue_budget st) /\ max_queue_budget st - inline_allowance - protected st <= chunk_budget st.
Proof using allowance_nonneg.
  intros Hp. unfold chunk_budget, admission, side_chunk_admission_budget. fold inline_allowance. destruct (_ <=? _ / 2); unfold sat_sub; lia.
Qed.

Lemma protected_nonneg st : settled st -> 0 <= protected st.
Proof using peer_nonneg.
  intros Hst. rewrite settled_protected by done. pose proof (ledger_sum_nonneg _ (se_sides _ Hst)). pose proof (se_metadata _ Hst).
  unfold sat_add, u64_max. lia.
Qed.

Lemma retained_loop_settled side id b retained st adm bs : settled st -> side_at side (sides st) = Some bs ->
  exists res st' adm' bs', retained_loop (S (weight st)) side id b retained st adm = Some (res, st', adm') /\
    settled st' /\ gave 199 st st' /\ side_at side (sides st') = Some bs' /\ left_over side id (side, bs) (side, bs').
Proof using LW peer_nonneg.
  intros Hst Hb. destruct (retained_loop_spec side id b retained (S (weight st)) st adm ltac:(lia)) as (res & st' & adm' & -> & Hy & _).
  destruct (yields_settled _ _ _ _ Hy Hst) as [Hs _]. destruct Hy as [Hg Hl]. destruct (leaves_at _ _ _ _ _ Hl Hb) as (bs' & H1 & H2).
  by exists res, st', adm', bs'.
Qed.

Lemma receive_chunk_ok side b body now st adm : settled st -> bytes_ok body ->
  exists res st' adm', receive_chunk side b body now st adm = Some (res, st', adm') /\ settled st' /\ gave 199 st st'.
Proof using LW peer_nonneg allowance_nonneg.
  intros Hst Hbody. unfold SideReceive.receive_chunk. destruct (parse_chunk_body body) as [[[[id index] total] payload]|e] eqn:Ep.
  2: { eexists _, _, _. split; [reflexivity|]. split; [done|apply gave_refl]. }
  apply parse_chunk_body_ok in Ep as (_ & Ht & Hi & _); [|done].
  destruct (side_at side (sides st)) as [s|] eqn:Es.
  2: { unfold SideReceive.make_side_chunk_room. rewrite Es. eexists _, _, _. split; [reflexivity|]. split; [done|apply gave_refl]. }
  destruct (make_room_spec side id index total (zlen payload) st s Hst Es (zlen_nonneg _) ltac:(apply Ht))
    as (res & st1 & s1 & -> & Hs1 & _ & Hg1 & Hb1 & _ & Hres).
  destruct res as [u|e]; [|by eexists _, _, _]. unfold transfer_at. rewrite Hb1. fold (retained (rx_chunks (sb_rx s1)) id index).
  destruct (retained (rx_chunks (sb_rx s1)) id index) eqn:Eret; [by eexists _, _, _|].
  edestruct (retained_loop_settled side id b (received_count <$> rx_chunks (sb_rx s1) !! id) st1 adm s1 Hs1 Hb1)
    as (res & st2 & adm2 & s2 & -> & Hs2 & Hg2 & Hb2 & Hleft).
  pose proof (gave_trans _ _ _ _ Hg1 Hg2) as Hg. destruct res as [u2|e]; [|by eexists _, _, _]. rewrite Hb2.
  assert (retained (rx_chunks (sb_rx s)) id index = false) as Eret0
    by (rewrite <- Eret; unfold retained; by rewrite (ro_own _ _ _ _ _ _ _ Hres)).
  destruct s1 as [rx1 c1], s2 as [rx2 c2]. pose proof (room_shrinks _ _ _ _ _ _ _ _ _ _ _ Eret0 Hres Hleft) as [R1 R2 R3 R4 R5 R6 R7].
  destruct (R7 Eret0) as [Hbytes Hsize]. cbn [sb_rx] in *. destruct (chunk_budget_range st (protected_nonneg st Hst)) as [Hmax _].
  pose proof (se_budget _ Hst) as Hmb.
  assert (room_cost (rx_chunks rx2) id total (zlen payload) = room_cost (rx_chunks (sb_rx s)) id total (zlen payload)) as Hrc
    by (unfold room_cost, no_descriptors; by rewrite R5).
  destruct (store_chunk_ok id index total payload now (chunk_budget st) rx2 adm2 R1 Ht Hi R4) as (r & rx3 & adm3 & -> & Hok3 & _).
  - unfold retained in *. by rewrite R5.
  - rewrite Hrc. unfold sat_add, u64_max in *. lia.
  - unfold u64_max in *. lia.
  - rewrite R5. done.
  - destruct (put_rx_settled side rx3 st2 Hok3 Hs2) as [Hs3 _]. eexists _, _, _. split; [reflexivity|]. split; [done|].
    eapply gave_trans; [exact Hg|by apply gave_sides].
Qed.

(** Whatever bytes arrive at a side of the router, the branch of chunks ends and keeps
    the buffers of all sides in shape: the bytes charged are the sum of what the retained
    transfers cost, at most four transfers a side.  It gives up no queued work of a
    priority above 199 and no accepted original that is no report. *)
Theorem receive_chunk_invariant side b start now st adm :
  settled st -> bytes_ok b ->
  exists res st' adm', decode_side_chunk side b start now st adm = Some (res, st', adm') /\ settled st' /\ gave 199 st st'.
Proof using LW peer_nonneg allowance_nonneg.
  intros Hst Hb. unfold SideReceive.decode_side_chunk. destruct (expire_settled start st Hst) as (st1 & -> & E1 & Hs1 & _).
  assert (gave 199 st st1) as Hg1 by (rewrite E1; by apply gave_sides).
  destruct (parse_side_transport_wrapper b) as [[[kind body]|]|e] eqn:Ep; [|by eexists _, _, _..].
  destruct (kind =? _); [|by eexists _, _, _].
  assert (bytes_ok body) as Hbody.
  { revert Ep. unfold parse_side_transport_wrapper. repeat case_match; try done. intros [= _ <-]. by apply Forall_drop, Forall_take. }
  destruct (receive_chunk_ok side b body now st1 adm Hs1 Hbody) as (res & st' & adm' & -> & Hs & Hg).
  eexists _, _, _. split; [reflexivity|]. split; [done|by eapply gave_trans].
Qed.

(** ** Reassembly of a split frame *)

Context {WL : WireEnvLaws WE} (f : SideTransportFrames) (Hf : split_ok f) (Hne : sf_frame f <> []).
Context (side : Z).

Let total := Z.of_nat (sf_total f).
Let id := transfer_id f.

(** The budget holds the whole transfer beside the metadata and the inline queue. *)
Record ready (st : Pool) : Prop := {
  rd_settled : settled st;
  rd_side : is_Some (side_at side (sides st));
  rd_room : zlen (sf_frame f) + 64 * total + inline_allowance + protected st <= max_queue_budget st;
}.

(** The side retains the chunks of [held], of which the last new one came at [last]. *)
Definition holds (held : list nat) (last : Z) (st : Pool) : Prop :=
  exists b, side_at side (sides st) = Some b /\ partial f held (sb_rx b) /\
    forall a, rx_chunks (sb_rx b) !! id = Some a -> last_seen_ms a = last.

Lemma ready_step st st' : ready st -> settled st' -> protected st' <= protected st -> max_queue_budget st' = max_queue_budget st ->
  is_Some (side_at side (sides st')) -> ready st'.
Proof using. intros [H1 H2 H3] Hs Hp Hb Hsd. split; [done|done|lia]. Qed.

Lemma ready_budget st : ready st -> total <= chunk_budget st / 64 /\ zlen (sf_frame f) + 64 * total <= chunk_budget st /\ chunk_budget st < u64_max.
Proof using peer_nonneg allowance_nonneg.
  intros [H1 _ H3]. pose proof (protected_nonneg _ H1) as Hp. destruct (chunk_budget_range st Hp) as [Hmax Hmin].
  pose proof (se_budget _ H1). pose proof (zlen_nonneg (sf_frame f)). split; [|split; [lia|unfold u64_max in *; lia]].
  apply Z.div_le_lower_bound; lia.
Qed.

Definition idle (start last : Z) : bool := ASSEMBLY_TIMEOUT_MS <? sat_sub start last.

(** A transfer that is idle for too long is forgotten, one that is not stays. *)
Lemma expire_holds held last start st : ready st -> holds held last st ->
  exists st', expire_side_chunks start st = Some st' /\ ready st' /\ max_queue_budget st' = max_queue_budget st /\
    holds (if idle start last then [] else held) last st'.
Proof using peer_nonneg.
  intros Hst (b & Hb & Hp & Hl). destruct (expire_settled start st (rd_settled _ Hst)) as (st' & He & Eq & Hs & Hpr & Hx).
  exists st'. split; [done|]. assert (max_queue_budget st' = max_queue_budget st) as Hm by by rewrite Eq.
  destruct (side_at_related (expired start) side _ _ b (fun s s' H => proj1 H) Hx Hb) as (b' & Hb' & _ & Hs' & _ & Hfr).
  split; [by eapply ready_step; eauto|]. split; [done|]. exists b'. split; [done|]. cbn [snd] in *. unfold partial. rewrite Hfr.
  pose proof (ss_rx _ Hs') as Hok'. cbn [snd] in Hok'.
  assert (forall a, fresh start (rx_chunks (sb_rx b)) !! id = Some a <-> rx_chunks (sb_rx b) !! id = Some a /\ idle start last = false) as Hlk.
  { intros a. unfold fresh. rewrite map_lookup_filter_Some. cbn [snd].
    split; intros [H1 H2]; (split; [done|]); specialize (Hl a H1); unfold asm_stale, idle in *; by rewrite Hl in *. }
  split; [|intros a [Ha _]%Hlk; by apply Hl]. split; [done|].
  destruct (idle start last) eqn:Ei.
  - destruct (fresh start _ !! transfer_id f) as [a|] eqn:Ea; [|done]. by apply Hlk in Ea as [_ ?].
  - destruct Hp as [_ Hp]. destruct held as [|j held].
    + destruct (fresh start _ !! transfer_id f) as [a|] eqn:Ea; [|done]. apply Hlk in Ea as [Ea _]. unfold id in Ea. congruence.
    + destruct Hp as (a & Ha & Ht & Hr). exists a. split; [by apply Hlk|done].
Qed.

(** *** What a receiver of the chunks answers *)

(** A chunk that arrives: what the router did since the last one, whether it gave up the
    transfer for that, the number of the chunk, and the two readings of the clock. *)
Record Arrival : Type := {
  ar_before : Pool -> Pool;
  ar_lost : bool;
  ar_index : nat;
  ar_start : Z;
  ar_now : Z;
}.

(** What the router does in between is its own affair: it keeps the buffers in shape and
    the room, and the transfer as it was unless it is given up. *)
Definition minds (w : Arrival) : Prop := forall st, ready st ->
  ready (ar_before w st) /\
  transfer_at side id (ar_before w st) = if ar_lost w then None else transfer_at side id st.

Fixpoint receive_all (ws : list Arrival) (st : Pool) (adm : Admission)
    : option (list (result Decoded * Pool) * Pool * Admission) :=
  match ws with
  | [] => Some ([], st, adm)
  | w :: ws =>
      match decode_side_chunk side (frame_at f (ar_index w)) (ar_start w) (ar_now w) (ar_before w st) adm with
      | None => None
      | Some (out, st, adm) =>
          match receive_all ws st adm with
          | None => None
          | Some (outs, last, adm) => Some ((out, st) :: outs, last, adm)
          end
      end
  end.

Definition chunk_cost (held : list nat) (i : nat) : Z :=
  fragment_cost (zlen (chunk_payload f i)) (if is_empty held then descriptor_bytes total else 0).

(** The pool has no room for the chunk, and nothing gives way to it. *)
Definition no_room (held : list nat) (i : nat) (st : Pool) : Prop :=
  admission st < sat_add (used st) (chunk_cost held i) /\ nothing_gives_way side id st.

(** The answers, from what is held of the transfer and the time of its last new chunk. *)
Fixpoint reassembles (held : list nat) (last : Z) (ws : list Arrival) (outs : list (result Decoded * Pool)) : Prop :=
  match ws, outs with
  | [], [] => True
  | w :: ws, (out, st) :: outs =>
      let held := if ar_lost w || idle (ar_start w) last then [] else held in
      let i := ar_index w in
      if decide (i ∈ held) then out = Ok Waiting /\ reassembles held last ws outs
      else match out with
           | Ok Waiting => ~ covers f (i :: held) /\ reassembles (i :: held) (ar_now w) ws outs
           | Ok (Assembled frame) => covers f (i :: held) /\ frame = sf_frame f /\ reassembles [] last ws outs
           | Ok Elsewhere => False
           | Err e => e = Io "memory pressure" /\ no_room held i st /\ reassembles held last ws outs
           end
  | _, _ => False
  end.

Lemma holds_entry held last st : holds held last st -> forall b, side_at side (sides st) = Some b ->
  partial f held (sb_rx b) /\ forall a, rx_chunks (sb_rx b) !! id = Some a -> last_seen_ms a = last.
Proof using. intros (b & Hb & Hp & Hl) b' Hb'. assert (b' = b) as -> by congruence. done. Qed.

(** Other work of the router. *)
Lemma minds_holds held last w st : minds w -> ready st -> holds held last st ->
  ready (ar_before w st) /\ holds (if ar_lost w then [] else held) last (ar_before w st).
Proof using.
  intros Hw Hst (b & Hb & Hp & Hl). destruct (Hw st Hst) as [Hr He]. split; [done|].
  destruct (rd_side _ Hr) as [b' Hb']. exists b'. split; [done|].
  pose proof (side_at_sound _ _ _ (se_sides _ (rd_settled _ Hr)) Hb') as [Hok _ _]. cbn [snd] in Hok.
  unfold transfer_at in He. rewrite Hb, Hb' in He. rewrite He.
  destruct (ar_lost w); [split; [split; [done|exact He]|done]|]. split; [|done]. by eapply partial_chunks.
Qed.

Lemma held_cost held b i : partial f held (sb_rx b) ->
  room_cost (rx_chunks (sb_rx b)) id total (zlen (chunk_payload f i)) = chunk_cost held i.
Proof using Hf Hne.
  intros Hp. unfold room_cost, chunk_cost, no_descriptors. pose proof (total_pos f Hf Hne) as Ht.
  destruct (rx_chunks (sb_rx b) !! id) as [a|] eqn:Ea.
  - destruct (partial_lookup f held _ a Hp Ea) as (_ & _ & Hr & Hn). rewrite Hr.
    pose proof (length_have f held) as Hlen. destruct (have f held); [cbn in Hlen; lia|]. by destruct held.
  - destruct Hp as [_ Hp]. destruct held; [done|]. destruct Hp as (a & Ha & _). unfold id in Ea. congruence.
Qed.

(** The chunk itself, after the expiry. *)
Lemma chunk_step held last i now st adm :
  ready st -> holds held last st -> (i < sf_total f)%nat -> has_probe adm = false ->
  exists out st', receive_chunk side (frame_at f i) (chunk_body_of f i) now st adm = Some (out, st', adm) /\ ready st' /\
    if decide (i ∈ held) then out = Ok Waiting /\ holds held last st'
    else match out with
         | Ok Waiting => ~ covers f (i :: held) /\ holds (i :: held) now st'
         | Ok (Assembled frame) => covers f (i :: held) /\ frame = sf_frame f /\ holds [] last st'
         | Ok Elsewhere => False
         | Err e => e = Io "memory pressure" /\ no_room held i st' /\ holds held last st'
         end.
Proof using LW peer_nonneg allowance_nonneg Hf Hne.
  intros Hst (b & Hb & Hp & Hl) Hi Hadm. destruct (ready_budget st Hst) as (B1 & B2 & B3). pose proof (total_pos f Hf Hne) as Ht. fold total in Ht.
  unfold SideReceive.receive_chunk. rewrite (parse_chunk_body_of f Hf Hne) by done. fold id total.
  destruct (make_room_spec side id i total (zlen (chunk_payload f i)) st b (rd_settled _ Hst) Hb (zlen_nonneg _) ltac:(lia))
    as (res & st1 & b1 & -> & Hs1 & Hpr1 & Hg1 & Hb1 & Hok1 & Hres).
  assert (ready st1) as Hr1 by (eapply ready_step; [exact Hst|done|lia|apply Hg1|by exists b1]).
  rewrite (held_cost held) in Hres by done.
  assert (rx_chunks (sb_rx b1) !! id = rx_chunks (sb_rx b) !! id -> partial f held (sb_rx b1) /\ holds held last st1) as Hkeep.
  { intros Hown. assert (partial f held (sb_rx b1)) as Hp1 by by eapply partial_chunks. split; [done|].
    exists b1. split; [done|]. split; [done|]. by rewrite Hown. }
  assert (retained (rx_chunks (sb_rx b)) id i = bool_decide (i ∈ held)) as Hret by by apply partial_retained.
  destruct res as [u|e].
  2: { eexists _, st1. split; [reflexivity|]. split; [done|]. destruct Hres as [(_ & [(_ & a & Ha & H0 & H1)|(_ & Hwhy)])|(-> & Hnr & Hown & Hfull)].
       - destruct H1. by apply (partial_total f held (sb_rx b)).
       - exfalso. rewrite <- (held_cost held b) in Hwhy by done. by apply (partial_fits f Hf Hne (chunk_budget st) B1 B2 B3 held (sb_rx b) i) in Hwhy.
       - rewrite Hret in Hnr. apply bool_decide_eq_false in Hnr. rewrite decide_False by done. split; [done|]. split; [done|]. by apply Hkeep. }
  pose proof (ro_own _ _ _ _ _ _ _ Hres) as Hown. destruct (Hkeep Hown) as [Hp1 Hh1]. unfold transfer_at. rewrite Hb1.
  fold (retained (rx_chunks (sb_rx b1)) id i). rewrite (partial_retained f held) by done.
  destruct (decide (i ∈ held)) as [Hin|Hin].
  { rewrite bool_decide_true by done. eexists _, st1. done. }
  rewrite bool_decide_false by done.
  destruct (retained_loop_spec side id (frame_at f i) (received_count <$> rx_chunks (sb_rx b1) !! id) (S (weight st1)) st1 adm ltac:(lia))
    as (res & st2 & adm2 & -> & _ & Hopen). destruct (Hopen Hadm) as (-> & -> & ->). rewrite Hb1.
  destruct (ro_room _ _ _ _ _ _ _ Hres) as [Hbytes Hsize]; [by rewrite Hret, bool_decide_false|].
  rewrite (held_cost held) in Hbytes by done.
  destruct (partial_store f Hf Hne (chunk_budget st) B2 B3 held (sb_rx b1) i now adm Hp1 Hi Hin Hadm) as (r & rx' & Hstore & Hcase).
  { fold id total. rewrite (held_cost held) by done. unfold sat_add in Hbytes. lia. }
  { fold id. rewrite Hown. exact Hsize. }
  fold id total in Hstore. rewrite Hstore. exists (decoded (Ok r)), (put_rx side rx' st1). split; [done|].
  assert (rx_ok rx') as Hok' by (destruct Hcase as [(_ & _ & [Hok' _] & _)|(_ & _ & [Hok' _])]; exact Hok').
  destruct (put_rx_settled side rx' st1 Hok' Hs1) as [Hs2 Hp2]. pose proof (side_at_set side rx' _ _ Hb1) as Hb2.
  split; [eapply ready_step; [exact Hr1|done|done|done|by eexists]|].
  destruct Hcase as [(Hc & -> & Hp' & Hl')|(Hc & -> & Hp')]; cbn [decoded].
  - split; [done|]. eexists. split; [exact Hb2|]. done.
  - split; [done|]. split; [done|]. eexists. split; [exact Hb2|]. split; [done|]. destruct Hp' as [_ Hn]. intros a Ha. unfold id in Ha. cbn [sb_rx] in Ha. congruence.
Qed.

(** Chunks that all come within the time that a transfer may be idle. *)
Definition timely (t0 : Z) (w : Arrival) : Prop := ar_lost w = false /\ t0 <= ar_now w /\ ar_start w <= t0 + 2000.

Lemma timely_chunks w t0 : (ar_index w < sf_total f)%nat -> timely t0 w -> forall early held last outs,
  reassembles held last (early ++ [w]) outs -> Forall (timely t0) early -> held = [] \/ t0 <= last ->
  Forall (fun out => exists d, fst out = Ok d) outs -> ar_index w ∉ held -> ar_index w ∉ map ar_index early ->
  (forall j, (j < sf_total f)%nat -> j <> ar_index w -> j ∈ held \/ j ∈ map ar_index early) ->
  map fst outs = replicate (length early) (Ok Waiting) ++ [Ok (Assembled (sf_frame f))].
Proof using.
  intros Hw Ht. assert (forall v (held : list nat) last, timely t0 v -> held = [] \/ t0 <= last ->
    (if ar_lost v || idle (ar_start v) last then [] else held) = held) as Hheld.
  { intros v held last (-> & _ & Hv) Hl. destruct Hl as [->|Hl]; [by destruct (_ || _)|]. unfold idle, ASSEMBLY_TIMEOUT_MS, sat_sub.
    by rewrite (proj2 (Z.ltb_ge _ _)) by lia. }
  induction early as [|v early IH]; intros held last [|[out st] outs] Hr Hearly Hl Hok Hn1 Hn2 Hall; try done; cbn [app reassembles] in Hr.
  - rewrite Hheld, decide_False in Hr by done. apply Forall_cons in Hok as [(d & Hd) _]. cbn [fst] in Hd. subst out.
    assert (covers f (ar_index w :: held)) as Hc.
    { intros j Hj. rewrite elem_of_cons. destruct (decide (j = ar_index w)); [by left|right].
      destruct (Hall j Hj) as [?|[]%not_elem_of_nil]; done. }
    destruct d as [| |frame]; [done|by destruct Hr|]. destruct Hr as (_ & -> & Hr). by destruct outs.
  - apply Forall_cons in Hearly as [Hv Hearly]. rewrite Hheld in Hr by done.
    apply Forall_cons in Hok as [(d & Hd) Hok]. cbn [fst] in Hd. subst out. cbn [map fst length replicate app] in Hn2, Hall |- *.
    rewrite elem_of_cons in Hn2. destruct (decide (ar_index v ∈ held)) as [Hin|Hin].
    + destruct Hr as [[= ->] Hr]. f_equal. apply (IH held last); try done; [tauto|].
      intros j Hj Hne'. destruct (Hall j Hj Hne') as [?|[->|?]%elem_of_cons]; auto.
    + destruct d as [| |frame]; [done| |].
      * destruct Hr as [_ Hr]. f_equal. apply (IH (ar_index v :: held) (ar_now v)); try done.
        -- right. apply Hv.
        -- rewrite elem_of_cons. tauto.
        -- tauto.
        -- intros j Hj Hne'. rewrite elem_of_cons. destruct (Hall j Hj Hne') as [?|[->|?]%elem_of_cons]; auto.
      * destruct Hr as [Hc _]. specialize (Hc _ Hw). rewrite elem_of_cons in Hc. tauto.
Qed.

(** A run of arrivals answers as it should. *)
Lemma receive_all_reassembles ws : forall held last st adm,
  ready st -> holds held last st -> has_probe adm = false ->
  Forall minds ws -> Forall (fun w => (ar_index w < sf_total f)%nat) ws ->
  exists outs st', receive_all ws st adm = Some (outs, st', adm) /\ ready st' /\ reassembles held last ws outs.
Proof using LW WL peer_nonneg allowance_nonneg Hf Hne.
  induction ws as [|w ws IH]; intros held last st adm Hst Hh Hadm Hws Hidx; [by exists [], st|].
  apply Forall_cons in Hws as [Hw Hws]. apply Forall_cons in Hidx as [Hi Hidx]. cbn [receive_all reassembles].
  destruct (minds_holds held last w st Hw Hst Hh) as [Hr1 Hh1].
  destruct (expire_holds _ _ (ar_start w) _ Hr1 Hh1) as (st2 & He & Hr2 & _ & Hh2).
  assert ((if idle (ar_start w) last then [] else if ar_lost w then [] else held)
    = if ar_lost w || idle (ar_start w) last then [] else held) as Eheld by (by destruct (ar_lost w), (idle _ _)).
  rewrite Eheld in Hh2. set (held' := if ar_lost w || idle (ar_start w) last then [] else held) in *.
  destruct (chunk_step held' last (ar_index w) (ar_now w) st2 adm Hr2 Hh2 Hi Hadm) as (out & st3 & Hrecv & Hr3 & Hcase).
  unfold SideReceive.decode_side_chunk. rewrite He, (frame_chunk_body f Hf), Z.eqb_refl, Hrecv.
  assert (exists held2 last2, holds held2 last2 st3 /\ forall outs, reassembles held2 last2 ws outs ->
    if decide (ar_index w ∈ held') then out = Ok Waiting /\ reassembles held' last ws outs
    else match out with
         | Ok Waiting => ~ covers f (ar_index w :: held') /\ reassembles (ar_index w :: held') (ar_now w) ws outs
         | Ok (Assembled frame) => covers f (ar_index w :: held') /\ frame = sf_frame f /\ reassembles [] last ws outs
         | Ok Elsewhere => False
         | Err e => e = Io "memory pressure" /\ no_room held' (ar_index w) st3 /\ reassembles held' last ws outs
         end) as (held2 & last2 & Hh3 & Hgo).
  { destruct (decide (ar_index w ∈ held')); [destruct Hcase as [-> Hh3]; by exists held', last|].
    destruct out as [[| |frame]|e]; [done| | |].
    - destruct Hcase as [Hc Hh3]. by exists (ar_index w :: held'), (ar_now w).
    - destruct Hcase as (Hc & -> & Hh3). by exists [], last.
    - destruct Hcase as (-> & Hn & Hh3). by exists held', last. }
  destruct (IH held2 last2 st3 adm Hr3 Hh3 Hadm Hws Hidx) as (outs & st' & -> & Hr' & Hre).
  exists ((out, st3) :: outs), st'. split; [done|]. split; [done|]. by apply Hgo.
Qed.

(** C3: The chunks of a split frame reassemble to it.  They arrive in any order, each any
    number of times, over anything else the router does and retains, in a router whose
    budget holds the whole transfer beside the protected metadata and the allowance of the
    inline queue and that has no admission probe.  Every answer is the one of
    [reassembles]: what is held is forgotten when the router gave the transfer up for
    other work, or when it is idle for more than 2000 ms as a chunk comes in; a chunk
    that is held changes nothing and extends nothing; any other chunk is refused, with the
    held ones kept, only if the pool is full and no report and no other transfer gives way
    to it, and is otherwise held; the one that completes the set gives the frame, exactly
    as it was split, and the transfer is gone.  In particular, if all chunks arrive within
    2000 ms, with none refused and the transfer not given up, the last missing one gives
    the frame and all others nothing. *)
Theorem chunks_reassemble ws st adm :
  ready st -> transfer_at side id st = None -> has_probe adm = false ->
  Forall minds ws -> Forall (fun w => (ar_index w < sf_total f)%nat) ws ->
  exists outs st', receive_all ws st adm = Some (outs, st', adm) /\ ready st' /\ reassembles [] 0 ws outs /\
    forall early w t0, ws = early ++ [w] -> Forall (timely t0) ws -> Forall (fun out => exists d, fst out = Ok d) outs ->
      ar_index w ∉ map ar_index early -> (forall j, (j < sf_total f)%nat -> j <> ar_index w -> j ∈ map ar_index early) ->
      map fst outs = replicate (length early) (Ok Waiting) ++ [Ok (Assembled (sf_frame f))].
Proof using LW WL peer_nonneg allowance_nonneg Hf Hne.
  intros Hst He Hadm Hws Hidx. destruct (rd_side _ Hst) as [b Hb].
  assert (holds [] 0 st) as Hh.
  { exists b. split; [done|]. unfold transfer_at in He. rewrite Hb in He. pose proof (side_at_sound _ _ _ (se_sides _ (rd_settled _ Hst)) Hb) as [Hok _ _].
    split; [split; [done|exact He]|]. intros a Ha. congruence. }
  destruct (receive_all_reassembles ws [] 0 st adm Hst Hh Hadm Hws Hidx) as (outs & st' & H1 & H2 & H3).
  exists outs, st'. split; [done|]. split; [done|]. split; [done|]. intros early w t0 -> [Ht [Hw _]%Forall_cons]%Forall_app Hok Hn Hall.
  apply Forall_app in Hidx as [_ [Hi _]%Forall_cons]. apply (timely_chunks w t0 Hi Hw early [] 0 outs); try done; [by left|by apply not_elem_of_nil|].
  intros j Hj Hj'. right. by apply Hall.
Qed.
End ReceiveFacts.

(** ** A router that receives the chunks of a frame *)

Definition two_sides : Pool :=
  set_sides [(0, {| sb_rx := rx_default; sb_codec := ledger_default |}); (1, {| sb_rx := rx_default; sb_codec := ledger_default |})]
    (pool [] [] 2000).
Definition quiet (i : nat) (t : Z) : Arrival :=
  {| ar_before := fun st => st; ar_lost := false; ar_index := i; ar_start := t; ar_now := t |}.
(** A report is queued in between. *)
Definition busy (i : nat) (t : Z) : Arrival :=
  {| ar_before := set_received (ring [received (str "A") 1]); ar_lost := false; ar_index := i; ar_start := t; ar_now := t |}.

Lemma two_sides_sound : Forall sound_side (sides two_sides).
Proof. apply Forall_cons; split; [|apply Forall_cons; split; [|constructor]]; (split; [apply rx_default_ok|done|done]). Qed.

Lemma sample_allowance : 0 <= inline_allowance 64 4 1024.
Proof. by vm_compute. Qed.

Lemma two_sides_settled : settled 64 two_sides.
Proof. split; [apply two_sides_sound|done|vm_compute; discriminate|by vm_compute]. Qed.

Lemma two_sides_ready : ready 64 64 4 1024 sample_frames 1 two_sides.
Proof. split; [apply two_sides_settled|by eexists|by vm_compute]. Qed.

Lemma quiet_minds i t : minds 64 64 4 1024 sample_frames 1 (quiet i t).
Proof. by intros st Hst. Qed.

Lemma busy_minds i t : minds 64 64 4 1024 sample_frames 1 (busy i t).
Proof. intros st [[H1 H2 H3 H4] H5 H6]. by split; [split; [split| |]|]. Qed.

(** The first two chunks are forgotten by the time the third comes. *)
Lemma chunks_reassemble_witness :
  exists outs st',
    receive_all 64 64 4 1024 sample_frames 1
      ([quiet 2 10; busy 0 20; quiet 2 30; quiet 1 2100; quiet 0 2200; busy 2 2300; quiet 3 2400]) two_sides no_admission
    = Some (outs, st', no_admission) /\
    map fst outs = replicate 6 (Ok Waiting) ++ [Ok (Assembled (str "a frame that is longer than one chunk"))].
Proof.
  destruct (chunks_reassemble 64 64 4 1024 ltac:(lia) sample_allowance sample_frames sample_split_ok ltac:(discriminate) 1
    [quiet 2 10; busy 0 20; quiet 2 30; quiet 1 2100; quiet 0 2200; busy 2 2300; quiet 3 2400] two_sides no_admission)
    as (outs & st' & H & _).
  - exact two_sides_ready.
  - reflexivity.
  - reflexivity.
  - repeat (apply Forall_cons; split; [first [apply quiet_minds|apply busy_minds]|]). constructor.
  - repeat constructor; vm_compute; lia.
  - exists outs, st'. split; [exact H|].
    assert (forall r, r = Some (outs, st', no_admission) ->
      option_map (fun x => map fst (fst (fst x))) r = Some (map fst outs)) as Hm by (by intros r ->).
    specialize (Hm _ H). remember (map fst outs) as l eqn:El. vm_compute in Hm. injection Hm as <-. reflexivity.
Defined.

Lemma receive_chunk_invariant_witness :
  exists res st' adm', decode_side_chunk 64 64 4 1024 1 (frame_at sample_frames 2) 10 10 two_sides no_admission = Some (res, st', adm') /\
    settled 64 st'.
Proof.
  destruct (receive_chunk_invariant 64 64 4 1024 ltac:(lia) sample_allowance 1 (frame_at sample_frames 2) 10 10 two_sides no_admission)
    as (res & st' & adm' & H & Hs & _).
  - exact two_sides_settled.
  - vm_compute. repeat constructor; discriminate.
  - exists res, st', adm'. split; [exact H|exact Hs].
Defined.
