(* ===== verification/Routing.v ===== *)
(** * Routing policy and the choice among sides (src/src/router.rs)

    Which sides a packet may leave by - the sides that exist and send, the rules per
    pair of sides and per type - and which of several eligible sides are taken: all of
    them, by weight, the first that is up, or by the bandwidth that was measured.  The
    policy calls and the throttle of discovery that each of them resets are modelled
    as well.

    Side numbers are indices of [rt_sides]; [None] as a source is the router itself.
    The clock is read once per call. *)

From stdpp Require Import sorting.
From S2P Require Import Prelude OrdMap Schema SideLink DiscoveryCodec.

Open Scope Z_scope.

(** ** State *)

(** The options of a side that routing looks at. *)
Record SideOptions : Type := { link_local_enabled : bool; ingress_enabled : bool; egress_enabled : bool }.

Inductive RouteSelectionMode : Type := Fanout | Weighted | Failover.
Inductive RouteSelectionOrigin : Type := Flood | Discovered.

#[export] Instance RouteSelectionMode_eq_dec : EqDecision RouteSelectionMode.
Proof. solve_decision. Defined.

Record AdaptiveRouteStats : Type := {
  estimated_bandwidth_bps : Z;
  peak_bandwidth_bps : Z;
  last_observed_ms : Z;
  last_slow_observed_ms : Z;
  sample_count : Z;
  window_started_ms : Z;
  window_bytes : Z;
  peak_usage_bps : Z;
}.

(** What discovery owes a side. *)
Record SideThrottle : Type := {
  pending_incremental : bool;
  has_sent_full : bool;
  next_ping_ms : Z;
  last_liveness_tx_ms : Z;
  incremental_retries_remaining : Z;
}.

Record Routes : Type := {
  rt_sides : list (option SideOptions);
  route_overrides : gmap (option Z * Z) bool;
  typed_route_overrides : gmap (option Z * DataType * Z) bool;
  route_weights : gmap (option Z * Z) Z;
  route_priorities : gmap (option Z * Z) Z;
  source_route_modes : gmap (option Z) RouteSelectionMode;
  route_selection_cursors : gmap (option Z) Z;
  adaptive_route_stats : gmap Z AdaptiveRouteStats;
  discovery_cadence : DiscoveryCadenceState;
  discovery_side_throttle : gmap Z SideThrottle;
  dictionaries : gmap Z TxDict;
}.

Definition set_cursor (src : option Z) (c : Z) (st : Routes) : Routes :=
  {| rt_sides := rt_sides st; route_overrides := route_overrides st; typed_route_overrides := typed_route_overrides st;
     route_weights := route_weights st; route_priorities := route_priorities st; source_route_modes := source_route_modes st;
     route_selection_cursors := <[src := c]> (route_selection_cursors st); adaptive_route_stats := adaptive_route_stats st;
     discovery_cadence := discovery_cadence st; discovery_side_throttle := discovery_side_throttle st; dictionaries := dictionaries st |}.
Definition set_stats (s : gmap Z AdaptiveRouteStats) (st : Routes) : Routes :=
  {| rt_sides := rt_sides st; route_overrides := route_overrides st; typed_route_overrides := typed_route_overrides st;
     route_weights := route_weights st; route_priorities := route_priorities st; source_route_modes := source_route_modes st;
     route_selection_cursors := route_selection_cursors st; adaptive_route_stats := s;
     discovery_cadence := discovery_cadence st; discovery_side_throttle := discovery_side_throttle st; dictionaries := dictionaries st |}.

(** [st.sides.get(side).and_then(as_ref)] *)
Definition side_options (st : Routes) (side : Z) : option SideOptions :=
  if side <? 0 then None else mjoin (rt_sides st !! Z.to_nat side).

(** ** Measured bandwidth *)

Definition CONTROL_SLOW_LINK_CAPACITY_BPS : Z := 512.

Definition stats_default : AdaptiveRouteStats :=
  {| estimated_bandwidth_bps := 0; peak_bandwidth_bps := 0; last_observed_ms := 0; last_slow_observed_ms := 0; sample_count := 0;
     window_started_ms := 0; window_bytes := 0; peak_usage_bps := 0 |}.

Definition u128_max : Z := 2 ^ 128 - 1.
(** [bytes as u128 * 1000 / ms], held to 64 bits. *)
Definition per_second (bytes ms : Z) : Z := Z.min u64_max (Z.min u128_max (bytes * 1000) / ms).

Definition usage_of (started bytes now_ms : Z) : Z :=
  if started =? 0 then 0 else per_second bytes (Z.max 1 (sat_sub now_ms started)).
Definition current_usage_bps (s : AdaptiveRouteStats) (now_ms : Z) : Z := usage_of (window_started_ms s) (window_bytes s) now_ms.

(** Faster samples weigh five eighths, slower ones one eighth. *)
Definition next_estimate (e sample : Z) : Z :=
  if e =? 0 then sample
  else if e <=? sample then sat_add (sat_mul e 3) (sat_mul sample 5) / 8
  else sat_add (sat_mul e 7) sample / 8.

Definition observe (bytes sample_bps now_ms : Z) (s : AdaptiveRouteStats) : AdaptiveRouteStats :=
  let restart := (window_started_ms s =? 0) || (1000 <? sat_sub now_ms (window_started_ms s)) in
  let started := if restart then now_ms else window_started_ms s in
  let held := sat_add (if restart then 0 else window_bytes s) bytes in
  {| estimated_bandwidth_bps := next_estimate (estimated_bandwidth_bps s) sample_bps;
     peak_bandwidth_bps := Z.max (peak_bandwidth_bps s) sample_bps;
     last_observed_ms := now_ms;
     last_slow_observed_ms := if (0 <? sample_bps) && (sample_bps <=? CONTROL_SLOW_LINK_CAPACITY_BPS) then now_ms
                              else last_slow_observed_ms s;
     sample_count := sat_add (sample_count s) 1;
     window_started_ms := started;
     window_bytes := held;
     peak_usage_bps := Z.max (peak_usage_bps s) (usage_of started held now_ms) |}.

Definition available_headroom_bps (s : AdaptiveRouteStats) (now_ms : Z) : Z :=
  sat_sub (Z.max 1 (Z.max (estimated_bandwidth_bps s) (peak_bandwidth_bps s))) (current_usage_bps s now_ms).
Definition stats_weight (s : AdaptiveRouteStats) (now_ms : Z) : Z := Z.max 1 (available_headroom_bps s now_ms).

Record AdaptiveLinkStats : Type := {
  auto_balancing_enabled : bool;
  estimated_capacity_bps : Z;
  peak_capacity_bps : Z;
  usage_bps : Z;
  top_usage_bps : Z;
  headroom_bps : Z;
  effective_weight : Z;
  observed_ms : Z;
  samples : Z;
}.

Definition snapshot (s : AdaptiveRouteStats) (now_ms : Z) (balancing : bool) : AdaptiveLinkStats :=
  let usage := current_usage_bps s now_ms in
  let estimated := Z.max 1 (estimated_bandwidth_bps s) in
  let peak := Z.max (peak_bandwidth_bps s) estimated in
  {| auto_balancing_enabled := balancing; estimated_capacity_bps := estimated; peak_capacity_bps := peak; usage_bps := usage;
     top_usage_bps := Z.max (peak_usage_bps s) usage; headroom_bps := sat_sub peak usage;
     effective_weight := Z.max 1 (sat_sub peak usage); observed_ms := last_observed_ms s; samples := sample_count s |}.

Definition record_side_tx_sample (side bytes started_ms ended_ms : Z) (st : Routes) : Routes :=
  let sample_bps := per_second bytes (Z.max 1 (sat_sub ended_ms started_ms)) in
  set_stats (<[side := observe bytes sample_bps ended_ms (default stats_default (adaptive_route_stats st !! side))]>
               (adaptive_route_stats st)) st.

Definition note_side_link_probe_sample (side bytes duration_ms now_ms : Z) (st : Routes) : result unit * Routes :=
  match side_options st side with
  | None => (Err BadArg, st)
  | Some _ => (Ok tt, record_side_tx_sample side bytes (sat_sub now_ms duration_ms) now_ms st)
  end.

Definition side_is_slow_control_link (st : Routes) (side now_ms : Z) : bool :=
  match adaptive_route_stats st !! side with
  | None => false
  | Some s =>
      let recent_slow := (0 <? last_slow_observed_ms s) && (sat_sub now_ms (last_slow_observed_ms s) <=? 120000) in
      (0 <? sample_count s)
      && (((0 <? estimated_bandwidth_bps s) && (estimated_bandwidth_bps s <=? CONTROL_SLOW_LINK_CAPACITY_BPS)) || recent_slow)
  end.

(** ** Is a side allowed? *)

Definition default_route_enabled (src : option Z) (dst : Z) : bool := negb (bool_decide (src = Some dst)).

(** Is there a rule for the type from this source? *)
Definition typed_key (src : option Z) (ty : DataType) (e : (option Z * DataType * Z) * bool) : bool :=
  bool_decide (fst (fst (fst e)) = src) && (snd (fst (fst e)) =? ty).
Definition has_typed_route_overrides (st : Routes) (src : option Z) (ty : DataType) : bool :=
  existsb (typed_key src ty) (map_to_list (typed_route_overrides st)).

Definition route_allowed (st : Routes) (src : option Z) (ty : option DataType) (dst : Z) : bool :=
  match side_options st dst with
  | None => false
  | Some d =>
      if negb (egress_enabled d) then false
      else if match src with
              | Some s => match side_options st s with Some o => negb (ingress_enabled o) | None => true end
              | None => false
              end then false
      else if negb (default (default_route_enabled src dst) (route_overrides st !! (src, dst))) then false
      else match ty with
           | None => true
           | Some ty =>
               if has_typed_route_overrides st src ty then default false (typed_route_overrides st !! (src, ty, dst)) else true
           end
  end.

Definition has_explicit_route_policy (st : Routes) (src : option Z) (ty : DataType) : bool :=
  existsb (fun e => bool_decide (fst (fst e) = src)) (map_to_list (route_overrides st)) || has_typed_route_overrides st src ty.

Definition eligible_side (st : Routes) (src : option Z) (ty : option DataType) (restrict_link_local : bool) (i : nat)
    (side : option SideOptions) : option Z :=
  match side with
  | None => None
  | Some o =>
      if restrict_link_local && negb (link_local_enabled o) then None
      else if route_allowed st src ty (Z.of_nat i) then Some (Z.of_nat i) else None
  end.
Definition eligible_side_ids (st : Routes) (src : option Z) (ty : option DataType) (restrict_link_local : bool) : list Z :=
  omap id (imap (eligible_side st src ty restrict_link_local) (rt_sides st)).

(** ** The choice *)

(** The side that holds the [pick]th share of the weights. *)
Fixpoint pick_weighted (weight : Z -> Z) (sides : list Z) (pick : Z) : option Z :=
  match sides with
  | [] => None
  | side :: sides => if pick <? weight side then Some side else pick_weighted weight sides (pick - weight side)
  end.

Definition total_weight (weight : Z -> Z) (sides : list Z) : Z := wrap64 (foldr (fun s n => weight s + n) 0 sides).

Definition cursor_of (st : Routes) (src : option Z) : Z := default 0 (route_selection_cursors st !! src).
Definition spend_cursor (src : option Z) (st : Routes) : Routes := set_cursor src (wrap64 (cursor_of st src + 1)) st.

Definition route_weight (st : Routes) (src : option Z) (side : Z) : Z := default 1 (route_weights st !! (src, side)).
Definition measured_weight (st : Routes) (now_ms side : Z) : Z :=
  match adaptive_route_stats st !! side with Some s => stats_weight s now_ms | None => 1 end.

(** [Vec::swap_remove] returns the element at the place. *)
Definition apply_adaptive_discovery_selection (now_ms : Z) (src : option Z) (sides : list Z) (st : Routes) : list Z * Routes :=
  let sides := merge_sort Z.le sides in
  let unmeasured := filter (fun s => adaptive_route_stats st !! s = None) sides in
  let cursor := cursor_of st src in
  match unmeasured with
  | _ :: _ => (option_list (unmeasured !! Z.to_nat (cursor mod zlen unmeasured)), spend_cursor src st)
  | [] =>
      let weight := measured_weight st now_ms in
      let total := total_weight weight sides in
      if total =? 0 then (take 1 sides, st)
      else (option_list (pick_weighted weight sides (cursor mod total)), spend_cursor src st)
  end.

(** [min_by_key] on priority and number. *)
Definition failover_before (st : Routes) (src : option Z) (a b : Z) : bool :=
  let p s := default 0 (route_priorities st !! (src, s)) in
  (p a <? p b) || ((p a =? p b) && (a <? b)).
Definition failover_best (st : Routes) (src : option Z) (sides : list Z) : option Z :=
  foldl (fun best s => match best with
                       | Some b => if failover_before st src s b then Some s else Some b
                       | None => Some s
                       end) None sides.

Definition apply_route_selection (now_ms : Z) (src : option Z) (sides : list Z) (origin : RouteSelectionOrigin) (st : Routes)
    : list Z * Routes :=
  if (length sides <=? 1)%nat then (sides, st)
  else match source_route_modes st !! src, origin with
  | None, Discovered => apply_adaptive_discovery_selection now_ms src sides st
  | None, Flood | Some Fanout, _ => (sides, st)
  | Some Weighted, _ =>
      let sides := merge_sort Z.le sides in
      let weight := route_weight st src in
      let total := total_weight weight sides in
      if total =? 0 then ([], st)
      else (option_list (pick_weighted weight sides (cursor_of st src mod total)), spend_cursor src st)
  | Some Failover, _ => (option_list (failover_best st src sides), st)
  end.

(** ** Policy calls *)

Definition DISCOVERY_INCREMENTAL_RETRY_COUNT : Z := 3.
Definition DISCOVERY_SLOW_LINK_PING_INTERVAL_MS : Z := 15000.

Definition throttle_default : SideThrottle :=
  {| pending_incremental := false; has_sent_full := false; next_ping_ms := 0; last_liveness_tx_ms := 0;
     incremental_retries_remaining := 0 |}.

Definition owe_incremental (t : SideThrottle) : SideThrottle :=
  {| pending_incremental := true; has_sent_full := has_sent_full t; next_ping_ms := next_ping_ms t;
     last_liveness_tx_ms := last_liveness_tx_ms t; incremental_retries_remaining := DISCOVERY_INCREMENTAL_RETRY_COUNT |}.

Definition present_sides (st : Routes) : list Z := omap id (imap (fun i (s : option SideOptions) => (fun _ => Z.of_nat i) <$> s) (rt_sides st)).

(** The prepared point-to-point sends, which are also dropped, are not part of the state. *)
Definition note_discovery_topology_change (now_ms : Z) (st : Routes) : Routes :=
  {| rt_sides := rt_sides st; route_overrides := route_overrides st; typed_route_overrides := typed_route_overrides st;
     route_weights := route_weights st; route_priorities := route_priorities st; source_route_modes := source_route_modes st;
     route_selection_cursors := route_selection_cursors st; adaptive_route_stats := adaptive_route_stats st;
     discovery_cadence := on_topology_change (discovery_cadence st) now_ms;
     discovery_side_throttle :=
       foldl (fun m side => <[side := owe_incremental (default throttle_default (m !! side))]> m)
             (discovery_side_throttle st) (present_sides st);
     dictionaries := refresh_transmit_header_templates <$> dictionaries st |}.

Inductive DiscoveryAdvertiseLevel : Type := MinimalPing | Incremental | Full.

Definition liveness_due (t : SideThrottle) (now_ms : Z) : bool :=
  (next_ping_ms t <=? now_ms) && (DISCOVERY_SLOW_LINK_PING_INTERVAL_MS <=? sat_sub now_ms (last_liveness_tx_ms t)).

(** What to send a side now. *)
Definition discovery_level_for_side (t : SideThrottle) (now_ms : Z) : option DiscoveryAdvertiseLevel * SideThrottle :=
  let ping := sat_add now_ms DISCOVERY_SLOW_LINK_PING_INTERVAL_MS in
  if negb (has_sent_full t) then
    (Some Full, {| pending_incremental := false; has_sent_full := true; next_ping_ms := ping;
                   last_liveness_tx_ms := last_liveness_tx_ms t; incremental_retries_remaining := 0 |})
  else if pending_incremental t then
    let left := sat_sub (incremental_retries_remaining t) 1 in
    (Some Incremental, {| pending_incremental := 0 <? left; has_sent_full := has_sent_full t; next_ping_ms := next_ping_ms t;
                          last_liveness_tx_ms := last_liveness_tx_ms t; incremental_retries_remaining := left |})
  else if liveness_due t now_ms then
    (Some MinimalPing, {| pending_incremental := pending_incremental t; has_sent_full := has_sent_full t; next_ping_ms := ping;
                          last_liveness_tx_ms := last_liveness_tx_ms t;
                          incremental_retries_remaining := incremental_retries_remaining t |})
  else (None, t).

(** The maps a policy call writes. *)
Definition with_overrides (f : gmap (option Z * Z) bool -> gmap (option Z * Z) bool) (st : Routes) : Routes :=
  {| rt_sides := rt_sides st; route_overrides := f (route_overrides st); typed_route_overrides := typed_route_overrides st;
     route_weights := route_weights st; route_priorities := route_priorities st; source_route_modes := source_route_modes st;
     route_selection_cursors := route_selection_cursors st; adaptive_route_stats := adaptive_route_stats st;
     discovery_cadence := discovery_cadence st; discovery_side_throttle := discovery_side_throttle st; dictionaries := dictionaries st |}.
Definition with_typed (f : gmap (option Z * DataType * Z) bool -> gmap (option Z * DataType * Z) bool) (st : Routes) : Routes :=
  {| rt_sides := rt_sides st; route_overrides := route_overrides st; typed_route_overrides := f (typed_route_overrides st);
     route_weights := route_weights st; route_priorities := route_priorities st; source_route_modes := source_route_modes st;
     route_selection_cursors := route_selection_cursors st; adaptive_route_stats := adaptive_route_stats st;
     discovery_cadence := discovery_cadence st; discovery_side_throttle := discovery_side_throttle st; dictionaries := dictionaries st |}.
Definition with_priorities (f : gmap (option Z * Z) Z -> gmap (option Z * Z) Z) (st : Routes) : Routes :=
  {| rt_sides := rt_sides st; route_overrides := route_overrides st; typed_route_overrides := typed_route_overrides st;
     route_weights := route_weights st; route_priorities := f (route_priorities st); source_route_modes := source_route_modes st;
     route_selection_cursors := route_selection_cursors st; adaptive_route_stats := adaptive_route_stats st;
     discovery_cadence := discovery_cadence st; discovery_side_throttle := discovery_side_throttle st; dictionaries := dictionaries st |}.
(** A change of modes or weights also forgets the cursor of the source. *)
Definition with_turns (src : option Z) (fm : gmap (option Z) RouteSelectionMode -> gmap (option Z) RouteSelectionMode)
    (fw : gmap (option Z * Z) Z -> gmap (option Z * Z) Z) (st : Routes) : Routes :=
  {| rt_sides := rt_sides st; route_overrides := route_overrides st; typed_route_overrides := typed_route_overrides st;
     route_weights := fw (route_weights st); route_priorities := route_priorities st; source_route_modes := fm (source_route_modes st);
     route_selection_cursors := delete src (route_selection_cursors st); adaptive_route_stats := adaptive_route_stats st;
     discovery_cadence := discovery_cadence st; discovery_side_throttle := discovery_side_throttle st; dictionaries := dictionaries st |}.

Definition known_side (st : Routes) (side : Z) : bool := match side_options st side with Some _ => true | None => false end.
Definition known_source (st : Routes) (src : option Z) : bool := match src with Some s => known_side st s | None => true end.

(** A policy call: refused for an unknown side, else a write and a topology change. *)
Definition policy (known : bool) (now_ms : Z) (write : Routes -> Routes) (st : Routes) : result unit * Routes :=
  if known then (Ok tt, note_discovery_topology_change now_ms (write st)) else (Err BadArg, st).

Definition set_source_route_mode (src : option Z) (mode : RouteSelectionMode) (now_ms : Z) (st : Routes) : result unit * Routes :=
  policy (known_source st src) now_ms (with_turns src (insert src mode) id) st.
Definition clear_source_route_mode (src : option Z) (now_ms : Z) (st : Routes) : result unit * Routes :=
  policy (known_source st src) now_ms (with_turns src (delete src) id) st.
Definition set_route_weight (src : option Z) (dst weight now_ms : Z) (st : Routes) : result unit * Routes :=
  policy (known_side st dst && known_source st src) now_ms (with_turns src id (insert (src, dst) weight)) st.
Definition clear_route_weight (src : option Z) (dst now_ms : Z) (st : Routes) : result unit * Routes :=
  policy (known_side st dst && known_source st src) now_ms (with_turns src id (delete (src, dst))) st.
Definition set_route_priority (src : option Z) (dst prio now_ms : Z) (st : Routes) : result unit * Routes :=
  policy (known_side st dst && known_source st src) now_ms (with_priorities (insert (src, dst) prio)) st.
Definition clear_route_priority (src : option Z) (dst now_ms : Z) (st : Routes) : result unit * Routes :=
  policy (known_side st dst && known_source st src) now_ms (with_priorities (delete (src, dst))) st.
Definition set_route (src : option Z) (dst : Z) (enabled : bool) (now_ms : Z) (st : Routes) : result unit * Routes :=
  policy (known_side st dst && known_source st src) now_ms (with_overrides (insert (src, dst) enabled)) st.
Definition clear_route (src : option Z) (dst now_ms : Z) (st : Routes) : result unit * Routes :=
  policy (known_side st dst && known_source st src) now_ms (with_overrides (delete (src, dst))) st.
Definition set_typed_route (src : option Z) (ty : DataType) (dst : Z) (enabled : bool) (now_ms : Z) (st : Routes) : result unit * Routes :=
  policy (known_side st dst && known_source st src) now_ms (with_typed (insert (src, ty, dst) enabled)) st.
Definition clear_typed_route (src : option Z) (ty : DataType) (dst now_ms : Z) (st : Routes) : result unit * Routes :=
  policy (known_side st dst && known_source st src) now_ms (with_typed (delete (src, ty, dst))) st.

(** ** Sides come and go *)

Fixpoint place_side (o : SideOptions) (l : list (option SideOptions)) : nat * list (option SideOptions) :=
  match l with
  | [] => (0%nat, [Some o])
  | None :: l => (0%nat, Some o :: l)
  | Some s :: l => let '(i, l) := place_side o l in (S i, Some s :: l)
  end.

Fixpoint pop_vacant (l : list (option SideOptions)) : list (option SideOptions) :=
  match l with
  | [] => []
  | s :: l => match s, pop_vacant l with None, [] => [] | s, l => s :: l end
  end.

Definition with_sides (l : list (option SideOptions)) (d : gmap Z TxDict) (st : Routes) : Routes :=
  {| rt_sides := l; route_overrides := route_overrides st; typed_route_overrides := typed_route_overrides st;
     route_weights := route_weights st; route_priorities := route_priorities st; source_route_modes := source_route_modes st;
     route_selection_cursors := route_selection_cursors st; adaptive_route_stats := adaptive_route_stats st;
     discovery_cadence := discovery_cadence st; discovery_side_throttle := discovery_side_throttle st; dictionaries := d |}.

Definition add_side (o : SideOptions) (now_ms : Z) (st : Routes) : Z * Routes :=
  let '(i, l) := place_side o (rt_sides st) in
  (Z.of_nat i, note_discovery_topology_change now_ms (with_sides l (<[Z.of_nat i := tx_empty]> (dictionaries st)) st)).

(** Not a rule of the side. *)
Definition spares {A} (side : Z) (e : (option Z * Z) * A) : Prop := fst (fst e) <> Some side /\ snd (fst e) <> side.
Definition spares_typed (side : Z) (e : (option Z * DataType * Z) * bool) : Prop :=
  fst (fst (fst e)) <> Some side /\ snd (fst e) <> side.
#[export] Instance spares_dec {A} side e : Decision (@spares A side e).
Proof. unfold spares. apply _. Defined.
#[export] Instance spares_typed_dec side e : Decision (spares_typed side e).
Proof. unfold spares_typed. apply _. Defined.

(** The part of [remove_side] on the routing state, once the side is not busy. *)
Definition forget_side (side now_ms : Z) (st : Routes) : result unit * Routes :=
  if known_side st side then
    (Ok tt, note_discovery_topology_change now_ms
      {| rt_sides := pop_vacant (<[Z.to_nat side := None]> (rt_sides st));
         route_overrides := filter (spares side) (route_overrides st);
         typed_route_overrides := filter (spares_typed side) (typed_route_overrides st);
         route_weights := filter (spares side) (route_weights st);
         route_priorities := filter (spares side) (route_priorities st);
         source_route_modes := delete (Some side) (source_route_modes st);
         route_selection_cursors := delete (Some side) (route_selection_cursors st);
         adaptive_route_stats := delete side (adaptive_route_stats st);
         discovery_cadence := discovery_cadence st;
         discovery_side_throttle := delete side (discovery_side_throttle st);
         dictionaries := delete side (dictionaries st) |})
  else (Err BadArg, st).

(** ** Weights *)

Definition weight_sum (weight : Z -> Z) (sides : list Z) : Z := foldr (fun s n => weight s + n) 0 sides.

Lemma weight_sum_nonneg weight sides : Forall (fun s => 0 <= weight s) sides -> 0 <= weight_sum weight sides.
Proof. unfold weight_sum. induction 1; cbn [foldr]; lia. Qed.

Lemma weight_sum_perm weight l l' : l ≡ₚ l' -> weight_sum weight l = weight_sum weight l'.
Proof. unfold weight_sum. induction 1; cbn [foldr]; lia. Qed.

Lemma pick_weighted_in weight sides pick s : pick_weighted weight sides pick = Some s -> s ∈ sides.
Proof.
  revert pick. induction sides as [|x sides IH]; intros pick; cbn; [done|].
  destruct (pick <? weight x); [intros [= ->]; by left|]. intros H. right. by eapply IH.
Qed.

Lemma pick_weighted_total weight sides pick :
  0 <= pick < weight_sum weight sides -> exists s, pick_weighted weight sides pick = Some s /\ s ∈ sides.
Proof.
  intros H. enough (exists s, pick_weighted weight sides pick = Some s) as [s Hs] by (exists s; split; [done|by eapply pick_weighted_in]).
  revert pick H. unfold weight_sum. induction sides as [|x sides IH]; intros pick; cbn; [lia|]. intros H.
  destruct (Z.ltb_spec pick (weight x)); [by exists x|]. apply IH. lia.
Qed.

(** How many of the places below the total fall to a side. *)
Definition falls_to (weight : Z -> Z) (sides : list Z) (s : Z) (p : nat) : Prop := pick_weighted weight sides (Z.of_nat p) = Some s.
#[export] Instance falls_to_dec weight sides s p : Decision (falls_to weight sides s p).
Proof. unfold falls_to. apply _. Defined.

Lemma kept_all {A} (P : A -> Prop) `{forall x, Decision (P x)} (l : list A) : (forall x, x ∈ l -> P x) -> filter P l = l.
Proof.
  induction l as [|x l IH]; intros Hl; [done|]. rewrite filter_cons_True by (apply Hl; by left). f_equal.
  apply IH. intros y Hy. apply Hl. by right.
Qed.
Lemma kept_none {A} (P : A -> Prop) `{forall x, Decision (P x)} (l : list A) : (forall x, x ∈ l -> ~ P x) -> filter P l = [].
Proof.
  induction l as [|x l IH]; intros Hl; [done|]. rewrite filter_cons_False by (apply Hl; by left).
  apply IH. intros y Hy. apply Hl. by right.
Qed.

Lemma places_count weight sides s :
  NoDup sides -> Forall (fun s => 0 <= weight s) sides -> s ∈ sides ->
  length (filter (falls_to weight sides s) (seq 0 (Z.to_nat (weight_sum weight sides)))) = Z.to_nat (weight s).
Proof.
  induction sides as [|x sides IH]; [by intros _ _ ?%not_elem_of_nil|]. intros [Hx Hnd]%NoDup_cons [Hw Hall]%Forall_cons Hs.
  pose proof (weight_sum_nonneg _ _ Hall) as Hpos. cbn [weight_sum foldr]. fold (weight_sum weight sides).
  rewrite Z2Nat.inj_add, seq_app, filter_app, length_app by done. cbn [Nat.add].
  rewrite <- (Nat.add_0_r (Z.to_nat (weight x))) at 2. rewrite <- (fmap_add_seq _ 0).
  assert (forall p, (p < Z.to_nat (weight x))%nat -> pick_weighted weight (x :: sides) (Z.of_nat p) = Some x) as Hlow
    by (intros p Hp; cbn; rewrite (proj2 (Z.ltb_lt _ _)) by lia; done).
  assert (forall p, pick_weighted weight (x :: sides) (Z.of_nat (Z.to_nat (weight x) + p)) = pick_weighted weight sides (Z.of_nat p)) as Hhigh
    by (intros p; cbn; rewrite (proj2 (Z.ltb_ge _ _)) by lia; f_equal; lia).
  assert (forall s', filter (falls_to weight (x :: sides) s') (Nat.add (Z.to_nat (weight x)) <$> seq 0 (Z.to_nat (weight_sum weight sides))) =
     Nat.add (Z.to_nat (weight x)) <$> filter (falls_to weight sides s') (seq 0 (Z.to_nat (weight_sum weight sides)))) as Hshift.
  { intros s'. clear IH. generalize (seq 0 (Z.to_nat (weight_sum weight sides))) as l. induction l as [|p l IHl]; [done|]. rewrite fmap_cons, !filter_cons, IHl.
    destruct (decide (falls_to weight (x :: sides) s' (Z.to_nat (weight x) + p))) as [H1|H1], (decide (falls_to weight sides s' p)) as [H2|H2];
      unfold falls_to in H1, H2; rewrite Hhigh in H1; first [done|by exfalso]. }
  rewrite Hshift, length_fmap. apply elem_of_cons in Hs as [->|Hs].
  - rewrite (kept_all _ (seq 0 _)), (kept_none _ (seq 0 _)), length_seq; [cbn; lia| |].
    + intros p _ Hp. apply Hx. by eapply pick_weighted_in.
    + intros p Hp%elem_of_seq. apply Hlow. lia.
  - rewrite (kept_none _ (seq 0 (Z.to_nat (weight x)))); [by apply IH|].
    intros p Hp%elem_of_seq. unfold falls_to. rewrite Hlow by lia. intros [= ->]. done.
Qed.

(** A full round of a counter passes through every place once. *)
Lemma round_perm (c : Z) (n : nat) : (0 < n)%nat ->
  map (fun k => Z.to_nat ((c + Z.of_nat k) mod Z.of_nat n)) (seq 0 n) ≡ₚ seq 0 n.
Proof.
  intros Hn. apply submseteq_length_Permutation; [|by rewrite length_map, length_seq].
  apply NoDup_submseteq.
  - change (NoDup ((fun k => Z.to_nat ((c + Z.of_nat k) mod Z.of_nat n)) <$> seq 0 n)). apply NoDup_fmap_2_strong; [|apply NoDup_seq].
    intros i j Hi%elem_of_seq Hj%elem_of_seq E.
    pose proof (Z.mod_pos_bound (c + Z.of_nat i) (Z.of_nat n) ltac:(lia)). pose proof (Z.mod_pos_bound (c + Z.of_nat j) (Z.of_nat n) ltac:(lia)).
    apply Z2Nat.inj in E; [|lia..].
    pose proof (Z.div_mod (c + Z.of_nat i) (Z.of_nat n) ltac:(lia)). pose proof (Z.div_mod (c + Z.of_nat j) (Z.of_nat n) ltac:(lia)).
    set (a := (c + Z.of_nat i) / Z.of_nat n) in *. set (b := (c + Z.of_nat j) / Z.of_nat n) in *.
    assert (Z.of_nat n * (a - b) = Z.of_nat i - Z.of_nat j) as Hd by (rewrite Z.mul_sub_distr_l; lia).
    assert (a - b = 0) as Hz; [|rewrite Hz, Z.mul_0_r in Hd; lia].
    destruct (Z.lt_trichotomy (a - b) 0) as [Hneg|[Hz|Hpos]]; [|done|].
    + assert (Z.of_nat n * (a - b) <= Z.of_nat n * -1) by (apply Z.mul_le_mono_nonneg_l; lia). lia.
    + assert (Z.of_nat n * 1 <= Z.of_nat n * (a - b)) by (apply Z.mul_le_mono_nonneg_l; lia). lia.
  - intros p Hp. apply list_elem_of_fmap in Hp as (k & -> & _). apply elem_of_seq.
    pose proof (Z.mod_pos_bound (c + Z.of_nat k) (Z.of_nat n) ltac:(lia)). lia.
Qed.

Lemma cursor_spent src st : cursor_of (spend_cursor src st) src = wrap64 (cursor_of st src + 1).
Proof. unfold cursor_of at 1. cbn. by rewrite lookup_insert_eq. Qed.

Lemma sides_sorted (sides : list Z) : merge_sort Z.le sides ≡ₚ sides.
Proof. apply merge_sort_Permutation. Qed.

(** ** Turns *)

(** [n] packets of a source in a row. *)
Fixpoint select_run (n : nat) (now_ms : Z) (src : option Z) (sides : list Z) (origin : RouteSelectionOrigin) (st : Routes)
    : list (list Z) * Routes :=
  match n with
  | O => ([], st)
  | S n =>
      let '(out, st) := apply_route_selection now_ms src sides origin st in
      let '(turns, st) := select_run n now_ms src sides origin st in (out :: turns, st)
  end.

Lemma select_weighted now_ms src sides origin st :
  source_route_modes st !! src = Some Weighted -> (2 <= length sides)%nat ->
  total_weight (route_weight st src) (merge_sort Z.le sides) <> 0 ->
  apply_route_selection now_ms src sides origin st =
    (option_list (pick_weighted (route_weight st src) (merge_sort Z.le sides)
                    (cursor_of st src mod total_weight (route_weight st src) (merge_sort Z.le sides))), spend_cursor src st).
Proof.
  intros Hm Hl Ht. unfold apply_route_selection. rewrite (proj2 (Nat.leb_gt _ _)) by lia. rewrite Hm.
  by rewrite (proj2 (Z.eqb_neq _ _)).
Qed.

Lemma weighted_run now_ms src sides origin total n : forall st,
  source_route_modes st !! src = Some Weighted -> (2 <= length sides)%nat ->
  total_weight (route_weight st src) (merge_sort Z.le sides) = total -> total <> 0 ->
  0 <= cursor_of st src -> cursor_of st src + Z.of_nat n <= 2 ^ 64 ->
  fst (select_run n now_ms src sides origin st) =
    map (fun k => option_list (pick_weighted (route_weight st src) (merge_sort Z.le sides) ((cursor_of st src + Z.of_nat k) mod total)))
        (seq 0 n).
Proof.
  induction n as [|n IH]; intros st Hm Hl Ht Hz Hc Hn; [done|]. cbn [select_run seq map].
  rewrite select_weighted by congruence. rewrite Ht.
  pose proof (IH (spend_cursor src st)) as H. destruct (select_run n _ _ _ _ (spend_cursor src st)) as [turns st']. cbn [fst] in H |- *.
  assert (cursor_of st src + 1 = wrap64 (cursor_of st src + 1) \/ n = O) as [Hw| ->] by (unfold wrap64; destruct n; [by right|left]; symmetry; apply Z.mod_small; lia).
  - rewrite H by (rewrite ?cursor_spent; first [done | lia]). f_equal; [by rewrite Z.add_0_r|].
    rewrite <- seq_shift, map_map. apply map_ext. intros k. rewrite cursor_spent, <- Hw. cbn [spend_cursor set_cursor route_weight]. do 3 f_equal. lia.
  - cbn [seq map]. rewrite Z.add_0_r. f_equal. destruct turns; [done|]. cbn in *. 
    assert (l :: turns = []) as E by (apply H; first [done|unfold cursor_of; cbn; rewrite lookup_insert_eq; cbn; pose proof (wrap64_range (cursor_of st src + 1)); unfold is_u64 in *; unfold u64_max in *; lia]). done.
Qed.

Definition turns_of (s : Z) (turns : list (list Z)) : Z := zlen (filter (fun x => x = s) (concat turns)).

Lemma turns_of_perm s t t' : t ≡ₚ t' -> turns_of s t = turns_of s t'.
Proof.
  intros H. unfold turns_of, zlen. f_equal. apply Permutation_length. apply filter_Permutation. induction H; cbn; [done|by apply Permutation_app_head| |by etrans].
  rewrite !app_assoc. apply Permutation_app_tail, Permutation_app_comm.
Qed.

Lemma turns_of_places weight sides s ps :
  turns_of s (map (fun p => option_list (pick_weighted weight sides (Z.of_nat p))) ps) = zlen (filter (falls_to weight sides s) ps).
Proof.
  unfold turns_of. induction ps as [|p ps IH]; [done|]. cbn [map concat]. rewrite filter_app, zlen_app, IH, (filter_cons _ p).
  destruct (decide (falls_to weight sides s p)) as [Hf|Hf].
  - unfold falls_to in Hf. rewrite Hf. change (option_list (Some s)) with [s]. rewrite filter_cons_True by done. unfold zlen. cbn. lia.
  - enough (filter (fun x => x = s) (option_list (pick_weighted weight sides (Z.of_nat p))) = []) as -> by done.
    destruct (pick_weighted weight sides (Z.of_nat p)) as [x|] eqn:E; [|done]. change (option_list (Some x)) with [x].
    rewrite filter_cons_False; [done|]. intros ->. done.
Qed.

(** C25: Weighted routing is exact.  Over as many packets of a source as the weights of
    its eligible sides sum to, wherever its turn stands, every packet goes to a single
    one of them and every side gets exactly its weight in packets. *)
Theorem weighted_fair now_ms src sides origin st :
  source_route_modes st !! src = Some Weighted -> NoDup sides -> (2 <= length sides)%nat ->
  Forall (fun s => 0 <= route_weight st src s) sides ->
  0 < weight_sum (route_weight st src) sides <= u64_max ->
  0 <= cursor_of st src -> cursor_of st src + weight_sum (route_weight st src) sides <= 2 ^ 64 ->
  let turns := fst (select_run (Z.to_nat (weight_sum (route_weight st src) sides)) now_ms src sides origin st) in
  Forall (fun out => exists s, out = [s] /\ s ∈ sides) turns /\
  forall s, s ∈ sides -> turns_of s turns = route_weight st src s.
Proof.
  intros Hm Hnd Hl Hw HW Hc Hcn turns. set (w := route_weight st src) in *. set (W := weight_sum w sides) in *.
  assert (weight_sum w (merge_sort Z.le sides) = W) as HWs by apply weight_sum_perm, sides_sorted.
  assert (total_weight w (merge_sort Z.le sides) = W) as Ht
    by (change (wrap64 (weight_sum w (merge_sort Z.le sides)) = W); rewrite HWs; apply wrap64_small; unfold is_u64; lia).
  assert (turns = map (fun k => option_list (pick_weighted w (merge_sort Z.le sides) ((cursor_of st src + Z.of_nat k) mod W))) (seq 0 (Z.to_nat W))) as ->
    by (apply weighted_run; [done|done|done|lia|done|lia]).
  assert (forall k, 0 <= (cursor_of st src + Z.of_nat k) mod W < W) as Hmod by (intros k; apply Z.mod_pos_bound; lia).
  split.
  - apply Forall_forall. intros out (k & -> & _)%list_elem_of_fmap.
    destruct (pick_weighted_total w (merge_sort Z.le sides) _ ltac:(rewrite HWs; apply (Hmod k))) as (s & -> & Hs). exists s. split; [done|]. by rewrite sides_sorted in Hs.
  - intros s Hs.
    set (g := fun p : nat => option_list (pick_weighted w (merge_sort Z.le sides) (Z.of_nat p))).
    set (h := fun k : nat => Z.to_nat ((cursor_of st src + Z.of_nat k) mod Z.of_nat (Z.to_nat W))).
    replace (map _ (seq 0 (Z.to_nat W))) with (map g (map h (seq 0 (Z.to_nat W))))
      by (rewrite map_map; apply map_ext; intros k; unfold g, h; rewrite (Z2Nat.id W) by lia; by rewrite Z2Nat.id by apply Hmod).
    assert (map h (seq 0 (Z.to_nat W)) ≡ₚ seq 0 (Z.to_nat W)) as Hh by (apply round_perm; lia).
    rewrite (turns_of_perm s _ _ (Permutation_map g Hh)). unfold g.
    rewrite turns_of_places. unfold zlen. rewrite <- HWs, places_count.
    + rewrite Forall_forall in Hw. apply Z2Nat.id, Hw. done.
    + by rewrite sides_sorted.
    + by rewrite sides_sorted.
    + by rewrite sides_sorted.
Qed.

(** ** One choice *)

Lemma stats_weight_pos s now_ms : 1 <= stats_weight s now_ms.
Proof. unfold stats_weight. lia. Qed.

Lemma measured_weight_pos st now_ms side : 1 <= measured_weight st now_ms side.
Proof. unfold measured_weight. destruct (_ !! _); [apply stats_weight_pos|done]. Qed.

Lemma total_le_sum weight sides : Forall (fun s => 0 <= weight s) sides -> 0 <= total_weight weight sides <= weight_sum weight sides.
Proof.
  intros H%weight_sum_nonneg. unfold total_weight, wrap64. fold (weight_sum weight sides).
  pose proof (Z.mod_pos_bound (weight_sum weight sides) (2 ^ 64) ltac:(lia)).
  pose proof (Z.mod_le (weight_sum weight sides) (2 ^ 64) H ltac:(lia)). lia.
Qed.

(** A share of the (wrapped) total always falls to a side. *)
Lemma share_falls weight sides c :
  Forall (fun s => 0 <= weight s) sides -> total_weight weight sides <> 0 ->
  exists s, pick_weighted weight sides (c mod total_weight weight sides) = Some s /\ s ∈ sides.
Proof.
  intros Hw Ht. pose proof (total_le_sum weight sides Hw) as Hle. apply pick_weighted_total.
  pose proof (Z.mod_pos_bound c (total_weight weight sides) ltac:(lia)). lia.
Qed.

(** The candidate nobody comes before. *)
Definition first_up (st : Routes) (src : option Z) (sides : list Z) (b : Z) : Prop :=
  b ∈ sides /\ forall s, s ∈ sides -> failover_before st src s b = false.

Lemma failover_before_trans st src a b c :
  failover_before st src a b = false -> failover_before st src b c = false -> failover_before st src a c = false.
Proof. unfold failover_before. intros. bool_to_prop. lia. Qed.

Lemma failover_before_irrefl st src a : failover_before st src a a = false.
Proof. unfold failover_before. rewrite !Z.ltb_irrefl. by rewrite andb_false_r. Qed.

Lemma failover_best_spec st src sides : sides <> [] -> exists b, failover_best st src sides = Some b /\ first_up st src sides b.
Proof.
  induction sides as [|x sides IH] using rev_ind; [done|]. intros _. unfold failover_best in *. rewrite foldl_app. cbn [foldl].
  destruct (decide (sides = [])) as [->|Hne].
  - exists x. split; [done|]. split; [by left|]. intros s Hs%list_elem_of_singleton. subst. apply failover_before_irrefl.
  - destruct (IH Hne) as (b & -> & Hb & Hmin). destruct (failover_before st src x b) eqn:E; eexists; (split; [done|]); split.
    + apply elem_of_app. right. by left.
    + intros s [Hs|Hs%list_elem_of_singleton]%elem_of_app; [|subst; apply failover_before_irrefl].
      specialize (Hmin s Hs). revert E Hmin. unfold failover_before. intros. bool_to_prop. lia.
    + apply elem_of_app. by left.
    + intros s [Hs|Hs%list_elem_of_singleton]%elem_of_app; [by apply Hmin|by subst].
Qed.

(** One of the candidates. *)
Definition one_of_sides (out sides : list Z) : Prop := exists s, out = [s] /\ s ∈ sides.

Lemma adaptive_selects now_ms src sides st :
  sides <> [] ->
  let '(out, st') := apply_adaptive_discovery_selection now_ms src sides st in
  one_of_sides out sides /\ (st' = st \/ st' = spend_cursor src st).
Proof.
  intros Hne. unfold apply_adaptive_discovery_selection. pose proof (sides_sorted sides) as Hp.
  set (l := merge_sort Z.le sides) in *. destruct (filter _ l) as [|u0 u] eqn:Eu.
  - assert (Forall (fun s => 0 <= measured_weight st now_ms s) l) as Hw
      by (apply Forall_forall; intros s _; pose proof (measured_weight_pos st now_ms s); lia).
    destruct (Z.eqb_spec (total_weight (measured_weight st now_ms) l) 0) as [|Ht].
    + split; [|by left]. destruct l as [|x l]; [by apply Permutation_nil_l in Hp|]. exists x. split; [done|]. rewrite <- Hp. by left.
    + destruct (share_falls _ _ (cursor_of st src) Hw Ht) as (s & -> & Hs). split; [|by right]. exists s. split; [done|]. by rewrite Hp in Hs.
  - split; [|by right].
    pose proof (Z.mod_pos_bound (cursor_of st src) (zlen (u0 :: u)) ltac:(unfold zlen; cbn; lia)) as Hm.
    destruct (lookup_lt_is_Some_2 (u0 :: u) (Z.to_nat (cursor_of st src mod zlen (u0 :: u)))) as [x Hx]; [unfold zlen in *; lia|].
    rewrite Hx. exists x. split; [done|]. apply list_elem_of_lookup_2 in Hx. rewrite <- Eu in Hx. apply list_elem_of_filter in Hx as [_ Hx].
    by rewrite Hp in Hx.
Qed.

(** What a choice may do, whatever the weights. *)
Lemma selection_sub now_ms src sides origin st :
  NoDup sides ->
  let '(out, st') := apply_route_selection now_ms src sides origin st in
  NoDup out /\ (forall s, s ∈ out -> s ∈ sides) /\ (st' = st \/ st' = spend_cursor src st).
Proof.
  intros Hnd. unfold apply_route_selection. destruct (Nat.leb_spec (length sides) 1); [split_and!; [done|done|by left]|].
  assert (forall (o : option Z), (forall s, o = Some s -> s ∈ sides) -> NoDup (option_list o) /\ (forall s, s ∈ option_list o -> s ∈ sides)) as Hopt.
  { intros [s|] Hs; cbn; [|split; [constructor|by intros ? ?%not_elem_of_nil]]. split; [apply NoDup_singleton|]. intros ? ->%list_elem_of_singleton. by apply Hs. }
  destruct (source_route_modes st !! src) as [[]|].
  - split_and!; [done|done|by left].
  - destruct (_ =? 0); [split_and!; [constructor|by intros ? ?%not_elem_of_nil|by left]|].
    destruct (Hopt (pick_weighted (route_weight st src) (merge_sort Z.le sides) (cursor_of st src mod total_weight (route_weight st src) (merge_sort Z.le sides)))) as [H1 H2];
      [|split_and!; [done|done|by right]]. intros s Hs%pick_weighted_in. by rewrite sides_sorted in Hs.
  - destruct (failover_best_spec st src sides) as (b & -> & Hb & _); [by intros ->; cbn in *; lia|].
    destruct (Hopt (Some b)) as [H1 H2]; [by intros s [= <-]|]. split_and!; [done|done|by left].
  - destruct origin; [split_and!; [done|done|by left]|].
    pose proof (adaptive_selects now_ms src sides st ltac:(intros ->; cbn in *; lia)) as Ha.
    destruct (apply_adaptive_discovery_selection _ _ _ _) as [out st']. destruct Ha as [(s & -> & Hs) Hst].
    destruct (Hopt (Some s)) as [H1 H2]; [by intros ? [= <-]|]. by split_and!.
Qed.

(** The choice among sides.  Only eligible sides are chosen, each once.  Every mode
    but fan-out takes at most one; failover takes the one of the lowest priority and
    number; a choice that was not empty stays so unless the weights of all the sides
    are zero.  Only the turn of the source moves. *)
Theorem selection_spec now_ms src sides origin st :
  NoDup sides -> (forall s, s ∈ sides -> 0 <= route_weight st src s) ->
  let '(out, st') := apply_route_selection now_ms src sides origin st in
  let mode := source_route_modes st !! src in
  NoDup out /\ (forall s, s ∈ out -> s ∈ sides) /\ (st' = st \/ st' = spend_cursor src st) /\
  (out = [] -> sides = [] \/ mode = Some Weighted /\ total_weight (route_weight st src) (merge_sort Z.le sides) = 0) /\
  (mode = Some Fanout \/ mode = None /\ origin = Flood -> out = sides /\ st' = st) /\
  (mode = Some Weighted \/ mode = Some Failover \/ mode = None /\ origin = Discovered -> (length out <= 1)%nat) /\
  (mode = Some Failover -> sides <> [] -> exists b, out = [b] /\ first_up st src sides b).
Proof.
  intros Hnd Hw. unfold apply_route_selection. destruct (Nat.leb_spec (length sides) 1) as [Hshort|Hlong].
  { split_and!; try done; [by left|by left|]. intros _ Hne. destruct sides as [|x [|y l]]; [done| |cbn in Hshort; lia].
    exists x. split; [done|]. split; [by left|]. intros s Hs%list_elem_of_singleton. subst. apply failover_before_irrefl. }
  assert (sides <> []) as Hne by (intros ->; cbn in Hlong; lia).
  assert (forall out st', one_of_sides out sides /\ (st' = st \/ st' = spend_cursor src st) ->
    NoDup out /\ (forall s, s ∈ out -> s ∈ sides) /\ (st' = st \/ st' = spend_cursor src st) /\ out <> [] /\ (length out <= 1)%nat) as Hone.
  { intros out st' [(s & -> & Hs) Hst]. split_and!; [apply NoDup_singleton| |done|done|done]. by intros ? ->%list_elem_of_singleton. }
  destruct (source_route_modes st !! src) as [[]|].
  - split_and!; try done; [by left|naive_solver].
  - pose proof (sides_sorted sides) as Hp. destruct (Z.eqb_spec (total_weight (route_weight st src) (merge_sort Z.le sides)) 0) as [Hz|Hz].
    + split_and!; try done; [constructor|by intros ? ?%not_elem_of_nil|by left| |naive_solver|cbn; lia]. intros _. by right.
    + destruct (share_falls (route_weight st src) (merge_sort Z.le sides) (cursor_of st src)) as (s & -> & Hs);
        [apply Forall_forall; intros s Hs; apply Hw; by rewrite <- Hp|done|].
      rewrite Hp in Hs. destruct (Hone [s] (spend_cursor src st)) as (H1 & H2 & H3 & H4 & H5); [split; [by exists s|by right]|].
      split_and!; try done. naive_solver.
  - destruct (failover_best_spec st src sides Hne) as (b & -> & Hb). 
    destruct (Hone [b] st) as (H1 & H2 & H3 & H4 & H5); [split; [exists b; split; [done|apply Hb]|by left]|].
    split_and!; try done; [naive_solver|]. intros _ _. by exists b.
  - destruct origin; [split_and!; try done; [by left|naive_solver]|].
    pose proof (adaptive_selects now_ms src sides st Hne) as Ha. destruct (apply_adaptive_discovery_selection _ _ _ _) as [out st'].
    destruct (Hone out st' Ha) as (H1 & H2 & H3 & H4 & H5). split_and!; try done. naive_solver.
Qed.

(** ** Probing *)

Definition unmeasured_sides (st : Routes) (sides : list Z) : list Z := filter (fun s => adaptive_route_stats st !! s = None) sides.

(** A packet of the source and the measurement of its transmission. *)
Definition send_measured (src : option Z) (sides : list Z) (sample : Z * Z * Z) (st : Routes) : list Z * Routes :=
  let '(bytes, started_ms, ended_ms) := sample in
  let '(out, st) := apply_route_selection started_ms src sides Discovered st in
  (out, foldl (fun st side => record_side_tx_sample side bytes started_ms ended_ms st) st out).

Fixpoint send_run (src : option Z) (sides : list Z) (sent : list (Z * Z * Z)) (st : Routes) : list (list Z) * Routes :=
  match sent with
  | [] => ([], st)
  | x :: sent =>
      let '(out, st) := send_measured src sides x st in
      let '(turns, st) := send_run src sides sent st in (out :: turns, st)
  end.

Lemma filter_filter_and {A} (P Q : A -> Prop) `{forall x, Decision (P x)} `{forall x, Decision (Q x)} (l : list A) :
  filter P (filter Q l) = filter (fun x => Q x /\ P x) l.
Proof.
  induction l as [|x l IH]; [done|]. rewrite (filter_cons (fun x => Q x /\ P x)), (filter_cons Q).
  destruct (decide (Q x)) as [HQ|HQ].
  - rewrite filter_cons, IH. destruct (decide (P x)), (decide (Q x /\ P x)) as [[]|Hn]; try done. by destruct Hn.
  - rewrite IH. by destruct (decide (Q x /\ P x)) as [[]|].
Qed.

Lemma send_unmeasured src sides x st :
  source_route_modes st !! src = None -> (2 <= length sides)%nat -> NoDup sides -> unmeasured_sides st sides <> [] ->
  exists s st', send_measured src sides x st = ([s], st') /\ s ∈ unmeasured_sides st sides /\
    source_route_modes st' = source_route_modes st /\
    unmeasured_sides st' sides = filter (fun y => y <> s) (unmeasured_sides st sides).
Proof.
  intros Hm Hl Hnd Hne. destruct x as [[bytes started] ended]. unfold send_measured, apply_route_selection.
  rewrite (proj2 (Nat.leb_gt _ _)) by lia. rewrite Hm. unfold apply_adaptive_discovery_selection.
  fold (unmeasured_sides st (merge_sort Z.le sides)).
  assert (unmeasured_sides st (merge_sort Z.le sides) ≡ₚ unmeasured_sides st sides) as Hp by apply filter_Permutation, sides_sorted.
  destruct (unmeasured_sides st (merge_sort Z.le sides)) as [|u0 u] eqn:Eu; [by apply Permutation_nil_l in Hp|].
  pose proof (Z.mod_pos_bound (cursor_of st src) (zlen (u0 :: u)) ltac:(unfold zlen; cbn; lia)) as Hmod.
  destruct (lookup_lt_is_Some_2 (u0 :: u) (Z.to_nat (cursor_of st src mod zlen (u0 :: u)))) as [s Hs]; [unfold zlen in *; lia|].
  rewrite Hs. change (option_list (Some s)) with [s]. cbn [foldl].
  eexists s, _. split; [done|]. split; [rewrite <- Hp; by eapply list_elem_of_lookup_2|]. split; [done|].
  unfold unmeasured_sides at 2. rewrite filter_filter_and. unfold unmeasured_sides. apply list_filter_iff. intros y.
  cbn [record_side_tx_sample set_stats adaptive_route_stats spend_cursor set_cursor]. rewrite lookup_insert_None. split; intros []; by split.
Qed.

(** Every path is probed.  A source without a policy sends its packets over a side
    that was not measured while there is one: each such side gets exactly one of the
    next packets, whatever the measurements say and wherever the turn stands, and then
    all of them are measured. *)
Theorem adaptive_probes_all src sides sent st :
  source_route_modes st !! src = None -> (2 <= length sides)%nat -> NoDup sides ->
  length sent = length (unmeasured_sides st sides) ->
  let '(turns, st') := send_run src sides sent st in
  concat turns ≡ₚ unmeasured_sides st sides /\ Forall (fun out => length out = 1%nat) turns /\ unmeasured_sides st' sides = [].
Proof.
  revert st. induction sent as [|x sent IH]; intros st Hm Hl Hnd Hlen.
  - cbn. destruct (unmeasured_sides st sides); [by split_and!|done].
  - destruct (send_unmeasured src sides x st Hm Hl Hnd) as (s & st1 & E & Hs & Hm1 & Hu); [by intros H; rewrite H in Hlen|].
    cbn [send_run]. rewrite E. assert (NoDup (unmeasured_sides st sides)) as Hndu by by apply NoDup_filter.
    apply elem_of_Permutation in Hs as (u & Hp). rewrite Hp in Hndu. apply NoDup_cons in Hndu as [Hsu Hndu].
    assert (unmeasured_sides st1 sides ≡ₚ u) as Hu1.
    { rewrite Hu, Hp, filter_cons_False by (intros H; by apply H). rewrite kept_all; [done|]. intros y Hy ->. done. }
    specialize (IH st1). destruct (send_run src sides sent st1) as [turns st2].
    destruct IH as (H1 & H2 & H3); [by rewrite Hm1|done|done| |].
    { rewrite Hu1. apply Permutation_length in Hp. cbn in Hlen, Hp. lia. }
    cbn [concat app]. split; [rewrite H1, Hu1; by symmetry|]. split; [by constructor|done].
Qed.

(** ** Estimates *)

Definition observe_all (l : list (Z * Z * Z)) (s : AdaptiveRouteStats) : AdaptiveRouteStats :=
  foldl (fun s x => observe (fst (fst x)) (snd (fst x)) (snd x) s) s l.

Lemma next_estimate_between e x lo hi :
  0 <= lo -> 8 * hi <= u64_max -> lo <= x <= hi -> e = 0 \/ lo <= e <= hi -> lo <= next_estimate e x <= hi.
Proof.
  intros Hlo Hhi Hx He. unfold next_estimate. destruct (Z.eqb_spec e 0) as [|Hne]; [done|]. assert (lo <= e <= hi) as He' by lia.
  destruct (Z.leb_spec e x); unfold sat_add, sat_mul; rewrite !Z.min_r by lia;
    (split; [apply Z.div_le_lower_bound; lia|apply Z.div_le_upper_bound; lia]).
Qed.

Lemma per_second_range b ms : 0 <= b -> 0 < ms -> is_u64 (per_second b ms).
Proof.
  intros Hb Hms. unfold per_second, is_u64. assert (0 <= Z.min u128_max (b * 1000) / ms) by (apply Z.div_pos; [unfold u128_max; lia|lia]).
  unfold u64_max in *. lia.
Qed.

Definition sample_of (x : Z * Z * Z) : Z := snd (fst x).

(** What holds of the statistics after the samples [l]. *)
Record follows (lo hi : Z) (l : list (Z * Z * Z)) (s : AdaptiveRouteStats) : Prop := {
  fo_estimate : lo <= estimated_bandwidth_bps s <= peak_bandwidth_bps s;
  fo_peak : peak_bandwidth_bps s = foldr Z.max 0 (map sample_of l);
  fo_top : peak_bandwidth_bps s <= hi;
  fo_bytes : is_u64 (window_bytes s);
  fo_count : sample_count s = Z.min u64_max (zlen l);
}.

Lemma foldr_max_snoc (l : list Z) x : 0 <= x -> foldr Z.max 0 (l ++ [x]) = Z.max (foldr Z.max 0 l) x.
Proof. intros Hx. induction l as [|y l IH]; cbn; lia. Qed.

Lemma observe_all_follows l lo hi :
  0 <= lo -> 8 * hi <= u64_max -> Forall (fun x => 0 <= fst (fst x) /\ lo <= sample_of x <= hi) l -> l <> [] ->
  follows lo hi l (observe_all l stats_default).
Proof.
  intros Hlo Hhi. induction l as [|[[b x] t] l IH] using rev_ind; [done|]. intros [Hl [Hx _]%Forall_cons]%Forall_app _.
  cbn in Hx. unfold observe_all. rewrite foldl_app. cbn [foldl fst snd]. fold (observe_all l stats_default).
  set (s := observe_all l stats_default) in *.
  assert (estimated_bandwidth_bps s = 0 /\ peak_bandwidth_bps s = 0 /\ l = [] \/ lo <= estimated_bandwidth_bps s <= peak_bandwidth_bps s /\ peak_bandwidth_bps s <= hi) as Hes.
  { destruct (decide (l = [])) as [->|Hne]; [by left|]. destruct (IH Hl Hne). right. lia. }
  assert (peak_bandwidth_bps s = foldr Z.max 0 (map sample_of l) /\ is_u64 (window_bytes s) /\ sample_count s = Z.min u64_max (zlen l)) as (Hp & Hb & Hc).
  { destruct (decide (l = [])) as [->|Hne]; [by repeat split|]. by destruct (IH Hl Hne). }
  assert (lo <= next_estimate (estimated_bandwidth_bps s) x <= hi) as H1 by (apply next_estimate_between; lia).
  assert (lo <= next_estimate (estimated_bandwidth_bps s) x <= Z.max (peak_bandwidth_bps s) x) as H2
    by (apply next_estimate_between; lia).
  constructor; cbn [observe estimated_bandwidth_bps peak_bandwidth_bps window_bytes sample_count].
  - done.
  - rewrite map_app. cbn [map]. unfold sample_of at 2. cbn. rewrite foldr_max_snoc by lia. by rewrite Hp.
  - lia.
  - destruct (_ || _); revert Hb; unfold is_u64, sat_add; lia.
  - rewrite Hc, zlen_app. unfold sat_add. change (zlen [(b, x, t)]) with 1. unfold u64_max. lia.
Qed.

(** The estimate of a side's bandwidth follows its measurements.  While these are
    between two bounds below an eighth of the 64-bit range, so is the estimate; the
    peak is the greatest of them, and no estimate exceeds it; the weight of the side is
    at least one and no more than the peak, and the usage fits its field. *)
Theorem bandwidth_bounds l lo hi now_ms :
  l <> [] -> 0 <= lo -> 8 * hi <= u64_max -> Forall (fun x => 0 <= fst (fst x) /\ lo <= sample_of x <= hi) l ->
  let s := observe_all l stats_default in
  lo <= estimated_bandwidth_bps s <= peak_bandwidth_bps s /\
  peak_bandwidth_bps s = foldr Z.max 0 (map sample_of l) /\ peak_bandwidth_bps s <= hi /\
  is_u64 (current_usage_bps s now_ms) /\ 1 <= stats_weight s now_ms <= Z.max 1 (peak_bandwidth_bps s).
Proof.
  intros Hne Hlo Hhi Hl s. destruct (observe_all_follows l lo hi Hlo Hhi Hl Hne) as [H1 H2 H3 H4 _].
  assert (is_u64 (current_usage_bps s now_ms)) as Hu.
  { unfold current_usage_bps, usage_of. destruct (_ =? 0); [done|]. apply per_second_range; [apply H4|lia]. }
  split; [done|]. split; [done|]. split; [done|]. split; [done|].
  unfold stats_weight, available_headroom_bps, sat_sub. unfold is_u64 in Hu. fold s in H1, H2. lia.
Qed.

(** ** No rule outlives its side *)

Definition routes_empty : Routes :=
  {| rt_sides := []; route_overrides := ∅; typed_route_overrides := ∅; route_weights := ∅; route_priorities := ∅;
     source_route_modes := ∅; route_selection_cursors := ∅; adaptive_route_stats := ∅; discovery_cadence := cadence_default;
     discovery_side_throttle := ∅; dictionaries := ∅ |}.

(** The calls on the routing state.  A transmission is measured and a turn is taken for
    sides that are there. *)
Inductive route_step (now_ms : Z) (st : Routes) : Routes -> Prop :=
| step_mode src mode : route_step now_ms st (snd (set_source_route_mode src mode now_ms st))
| step_clear_mode src : route_step now_ms st (snd (clear_source_route_mode src now_ms st))
| step_weight src dst w : route_step now_ms st (snd (set_route_weight src dst w now_ms st))
| step_clear_weight src dst : route_step now_ms st (snd (clear_route_weight src dst now_ms st))
| step_priority src dst p : route_step now_ms st (snd (set_route_priority src dst p now_ms st))
| step_clear_priority src dst : route_step now_ms st (snd (clear_route_priority src dst now_ms st))
| step_route src dst b : route_step now_ms st (snd (set_route src dst b now_ms st))
| step_clear_route src dst : route_step now_ms st (snd (clear_route src dst now_ms st))
| step_typed src ty dst b : route_step now_ms st (snd (set_typed_route src ty dst b now_ms st))
| step_clear_typed src ty dst : route_step now_ms st (snd (clear_typed_route src ty dst now_ms st))
| step_add o : route_step now_ms st (snd (add_side o now_ms st))
| step_forget side : route_step now_ms st (snd (forget_side side now_ms st))
| step_probe side b ms : route_step now_ms st (snd (note_side_link_probe_sample side b ms now_ms st))
| step_sent side b started : known_side st side = true -> route_step now_ms st (record_side_tx_sample side b started now_ms st)
| step_choose src sides origin : known_source st src = true -> route_step now_ms st (snd (apply_route_selection now_ms src sides origin st)).

Inductive routes_reached : Routes -> Prop :=
| reached_new : routes_reached routes_empty
| reached_step now_ms st st' : routes_reached st -> route_step now_ms st st' -> routes_reached st'.

(** Every rule and every record is about sides that are there. *)
Definition pairs_known {A} (st : Routes) (m : gmap (option Z * Z) A) : Prop :=
  forall s d, is_Some (m !! (s, d)) -> known_source st s = true /\ known_side st d = true.
Definition sources_known {A} (st : Routes) (m : gmap (option Z) A) : Prop := forall s, is_Some (m !! s) -> known_source st s = true.
Definition sides_known {A} (st : Routes) (m : gmap Z A) : Prop := forall d, is_Some (m !! d) -> known_side st d = true.

Record current (st : Routes) : Prop := {
  cu_overrides : pairs_known st (route_overrides st);
  cu_typed : forall s ty d, is_Some (typed_route_overrides st !! (s, ty, d)) -> known_source st s = true /\ known_side st d = true;
  cu_weights : pairs_known st (route_weights st);
  cu_priorities : pairs_known st (route_priorities st);
  cu_modes : sources_known st (source_route_modes st);
  cu_cursors : sources_known st (route_selection_cursors st);
  cu_stats : sides_known st (adaptive_route_stats st);
  cu_throttle : sides_known st (discovery_side_throttle st);
  cu_dictionaries : sides_known st (dictionaries st);
}.

Lemma known_same st st' : rt_sides st' = rt_sides st -> (forall s, known_side st' s = known_side st s) /\ (forall s, known_source st' s = known_source st s).
Proof. intros H. unfold known_source, known_side, side_options. rewrite H. done. Qed.

Lemma pairs_insert {A} (st : Routes) (m : gmap (option Z * Z) A) s d x :
  pairs_known st m -> known_side st d && known_source st s = true -> pairs_known st (<[(s, d) := x]> m).
Proof.
  intros Hm [H1 H2]%andb_true_iff s' d'. destruct (decide ((s, d) = (s', d'))) as [[= <- <-]|Hne]; [done|].
  rewrite lookup_insert_ne by done. apply Hm.
Qed.
Lemma pairs_delete {A} (st : Routes) (m : gmap (option Z * Z) A) k : pairs_known st m -> pairs_known st (delete k m).
Proof. intros Hm s d. rewrite lookup_delete_is_Some. intros [_ H]. by apply Hm. Qed.
Lemma sources_insert {A} (st : Routes) (m : gmap (option Z) A) s x : sources_known st m -> known_source st s = true -> sources_known st (<[s := x]> m).
Proof. intros Hm Hs s'. rewrite lookup_insert_is_Some. intros [->|[_ H]]; [done|by apply Hm]. Qed.
Lemma sources_delete {A} (st : Routes) (m : gmap (option Z) A) k : sources_known st m -> sources_known st (delete k m).
Proof. intros Hm s. rewrite lookup_delete_is_Some. intros [_ H]. by apply Hm. Qed.
Lemma sides_insert {A} (st : Routes) (m : gmap Z A) d x : sides_known st m -> known_side st d = true -> sides_known st (<[d := x]> m).
Proof. intros Hm Hs d'. rewrite lookup_insert_is_Some. intros [->|[_ H]]; [done|by apply Hm]. Qed.

Lemma side_options_at st i : side_options st (Z.of_nat i) = mjoin (rt_sides st !! i).
Proof. unfold side_options. rewrite (proj2 (Z.ltb_ge _ _)) by lia. by rewrite Nat2Z.id. Qed.

Lemma side_options_some st d o : side_options st d = Some o -> exists i, d = Z.of_nat i /\ rt_sides st !! i = Some (Some o).
Proof.
  unfold side_options. destruct (Z.ltb_spec d 0); [done|]. intros E. exists (Z.to_nat d). split; [lia|].
  destruct (rt_sides st !! Z.to_nat d) as [[]|]; by cbn in E; simplify_eq.
Qed.

Lemma present_sides_known st d : d ∈ present_sides st -> known_side st d = true.
Proof.
  unfold present_sides. intros (o & Ho & E)%list_elem_of_omap. cbn in E. apply list_elem_of_lookup in Ho as (i & Hi).
  rewrite list_lookup_imap in Hi. destruct (rt_sides st !! i) as [s|] eqn:Es; [|done]. cbn in Hi.
  injection Hi as <-. destruct s; [|done]. cbn in E. injection E as <-. unfold known_side. by rewrite side_options_at, Es.
Qed.

Lemma change_current now_ms st : current st -> current (note_discovery_topology_change now_ms st).
Proof.
  intros [H1 H2 H3 H4 H5 H6 H7 H8 H9]. constructor; try done; cbn.
  - assert (forall l m, (forall d, d ∈ l -> known_side st d = true) -> sides_known st m ->
      sides_known st (foldl (fun m side => <[side := owe_incremental (default throttle_default (m !! side))]> m) m l)) as Hfold.
    { induction l as [|x l IH]; intros m Hl Hm; [done|]. cbn [foldl]. apply IH; [intros d Hd; apply Hl; by right|].
      apply sides_insert; [done|]. apply Hl. by left. }
    apply Hfold; [apply present_sides_known|done].
  - intros d. rewrite lookup_fmap, fmap_is_Some. apply H9.
Qed.

(** A call that leaves the sides alone. *)
Lemma policy_current known now_ms write st :
  current st -> (known = true -> current (write st)) -> current (snd (policy known now_ms write st)).
Proof. intros Hst Hw. unfold policy. destruct known; [|done]. apply change_current. by apply Hw. Qed.

Lemma record_current side b started ended st :
  current st -> known_side st side = true -> current (record_side_tx_sample side b started ended st).
Proof. intros [] Hs. constructor; try done. by apply sides_insert. Qed.

Lemma spend_current src st : current st -> known_source st src = true -> current (spend_cursor src st).
Proof. intros [] Hs. constructor; try done. by apply sources_insert. Qed.

Lemma choose_current now_ms src sides origin st :
  current st -> known_source st src = true -> current (snd (apply_route_selection now_ms src sides origin st)).
Proof.
  intros Hst Hs. unfold apply_route_selection, apply_adaptive_discovery_selection.
  pose proof (spend_current src st Hst Hs) as Hsp.
  destruct (_ <=? _)%nat; [done|]. destruct (source_route_modes st !! src) as [[]|]; [done| |done|destruct origin; [done|]].
  - by destruct (_ =? _).
  - destruct (filter _ _); [|done]. by destruct (_ =? _).
Qed.

(** *** A new side *)

Lemma place_side_spec o l : let '(i, l') := place_side o l in
  mjoin (l !! i) = None /\ l' !! i = Some (Some o) /\ forall j, j <> i -> mjoin (l' !! j) = mjoin (l !! j).
Proof.
  induction l as [|[s|] l IH]; cbn [place_side].
  - split_and!; [done|done|]. intros [|j] Hj; [done|]. by destruct j.
  - destruct (place_side o l) as [i l']. destruct IH as (H1 & H2 & H3). split_and!; [done|done|]. intros [|j] Hj; [done|]. cbn. apply H3. congruence.
  - split_and!; [done|done|]. intros [|j] Hj; done.
Qed.

Lemma pop_vacant_lookup l j : mjoin (pop_vacant l !! j) = mjoin (l !! j).
Proof.
  revert j. induction l as [|s l IH]; intros j; [done|]. cbn [pop_vacant]. destruct s as [s|].
  - destruct j; [done|]. apply IH.
  - destruct (pop_vacant l) as [|x l'] eqn:E; (destruct j; [done|]); cbn; rewrite <- IH; [by rewrite lookup_nil|done].
Qed.

Lemma known_lookup st d : known_side st d = true <-> 0 <= d /\ mjoin (rt_sides st !! Z.to_nat d) <> None.
Proof. unfold known_side, side_options. destruct (Z.ltb_spec d 0), (mjoin _); naive_solver lia. Qed.

Lemma known_mono st st' s : (forall d, known_side st d = true -> known_side st' d = true) -> known_source st s = true -> known_source st' s = true.
Proof. destruct s; cbn; auto. Qed.

Lemma add_known o now_ms st :
  let '(d, st') := add_side o now_ms st in
  known_side st d = false /\ side_options st' d = Some o /\ (forall e, e <> d -> side_options st' e = side_options st e).
Proof.
  unfold add_side. pose proof (place_side_spec o (rt_sides st)) as H. destruct (place_side o (rt_sides st)) as [i l'].
  destruct H as (H1 & H2 & H3). split_and!.
  - unfold known_side. by rewrite side_options_at, H1.
  - rewrite side_options_at. cbn. by rewrite H2.
  - intros e He. unfold side_options. destruct (Z.ltb_spec e 0); [done|]. cbn. apply H3. lia.
Qed.

Lemma add_current o now_ms st : current st -> current (snd (add_side o now_ms st)).
Proof.
  intros [H1 H2 H3 H4 H5 H6 H7 H8 H9]. pose proof (add_known o now_ms st) as Ha. unfold add_side in *.
  destruct (place_side o (rt_sides st)) as [i l']. cbn [snd]. destruct Ha as (Ha & Hb & Hc).
  set (st1 := with_sides l' (<[Z.of_nat i := tx_empty]> (dictionaries st)) st) in *.
  assert (forall d, known_side st d = true -> known_side st1 d = true) as Hs.
  { intros d Hd. unfold known_side in *. destruct (decide (d = Z.of_nat i)) as [->|Hne].
    - by rewrite (Hb : side_options st1 _ = _). - by rewrite (Hc d Hne : side_options st1 _ = _). }
  assert (forall s, known_source st s = true -> known_source st1 s = true) as Hk by (intros s; by apply known_mono).
  apply change_current. constructor; cbn; try (intros s d H; split; [apply Hk|apply Hs]; by eapply H1);
    try (intros s d H; split; [apply Hk|apply Hs]; by eapply H3); try (intros s d H; split; [apply Hk|apply Hs]; by eapply H4).
  - intros s ty d H. split; [apply Hk|apply Hs]; by eapply H2.
  - intros s H. by apply Hk, H5.
  - intros s H. by apply Hk, H6.
  - intros d H. by apply Hs, H7.
  - intros d H. by apply Hs, H8.
  - intros d. rewrite lookup_insert_is_Some. intros [<-|[_ H]]; [|by apply Hs, H9].
    unfold known_side. by rewrite (Hb : side_options st1 _ = _).
Qed.

Lemma forget_current side now_ms st : current st -> current (snd (forget_side side now_ms st)).
Proof.
  intros Hst. unfold forget_side. destruct (known_side st side) eqn:Hk; [|done]. cbn [snd]. apply change_current.
  destruct Hst as [H1 H2 H3 H4 H5 H6 H7 H8 H9]. set (st1 := {| rt_sides := _ |}).
  assert (forall d, d <> side -> known_side st d = true -> known_side st1 d = true) as Hs.
  { intros d Hne Hd. apply known_lookup in Hd as [Hd1 Hd2]. apply known_lookup. apply known_lookup in Hk as [Hk _]. split; [done|].
    cbn. rewrite pop_vacant_lookup, list_lookup_insert_ne by lia. done. }
  assert (forall s, s <> Some side -> known_source st s = true -> known_source st1 s = true) as Hsrc
    by (intros [s|] Hne Hd; [apply Hs; [by intros ->|done]|done]).
  assert (forall A (m : gmap (option Z * Z) A), pairs_known st m -> pairs_known st1 (filter (spares side) m)) as Hpairs.
  { intros A m Hm s d [x [Hx [Hp1 Hp2]]%map_lookup_filter_Some]. cbn in Hp1, Hp2. destruct (Hm s d) as [K1 K2]; [by exists x|].
    split; [by apply Hsrc|by apply Hs]. }
  assert (forall A (m : gmap (option Z) A), sources_known st m -> sources_known st1 (delete (Some side) m)) as Hsources
    by (intros A m Hm s; rewrite lookup_delete_is_Some; intros [Hne H]; apply Hsrc; [by intros ->|by apply Hm]).
  assert (forall A (m : gmap Z A), sides_known st m -> sides_known st1 (delete side m)) as Hsides
    by (intros A m Hm s; rewrite lookup_delete_is_Some; intros [Hne H]; apply Hs; [by intros ->|by apply Hm]).
  constructor; cbn; auto.
  intros s ty d [x [Hx [Hp1 Hp2]]%map_lookup_filter_Some]. cbn in Hp1, Hp2. destruct (H2 s ty d) as [K1 K2]; [by exists x|].
  split; [by apply Hsrc|by apply Hs].
Qed.

Lemma step_current now_ms st st' : current st -> route_step now_ms st st' -> current st'.
Proof.
  intros Hst H. destruct H; try (apply policy_current; [done|]; intros Hk; destruct Hst; constructor; cbn; try done).
  all: try (by apply pairs_insert). all: try (by apply pairs_delete).
  all: try (apply sources_insert; done). all: try (by apply sources_delete).
  - intros s ty' d. rewrite lookup_insert_is_Some. apply andb_true_iff in Hk as [Hk1 Hk2].
    intros [[= <- <- <-]|[_ Hx]]; [done|by eapply cu_typed0].
  - intros s ty' d. rewrite lookup_delete_is_Some. intros [_ Hx]. by eapply cu_typed0.
  - by apply add_current.
  - by apply forget_current.
  - unfold note_side_link_probe_sample. destruct (side_options st side) eqn:E; [|done]. apply record_current; [done|].
    unfold known_side. by rewrite E.
  - by apply record_current.
  - by apply choose_current.
Qed.

Lemma reached_current st : routes_reached st -> current st.
Proof.
  induction 1 as [|now_ms st st' _ IH Hs]; [|by eapply step_current].
  constructor; unfold pairs_known, sources_known, sides_known; cbn; intros; rewrite lookup_empty in *; by destruct H.
Qed.

(** What is configured or recorded for a side. *)
Record unmentioned (st : Routes) (d : Z) : Prop := {
  un_from : forall e, route_overrides st !! (Some d, e) = None /\ route_weights st !! (Some d, e) = None /\ route_priorities st !! (Some d, e) = None;
  un_to : forall s, route_overrides st !! (s, d) = None /\ route_weights st !! (s, d) = None /\ route_priorities st !! (s, d) = None;
  un_typed : forall s ty e, typed_route_overrides st !! (Some d, ty, e) = None /\ typed_route_overrides st !! (s, ty, d) = None;
  un_turn : source_route_modes st !! Some d = None /\ route_selection_cursors st !! Some d = None;
  un_stats : adaptive_route_stats st !! d = None;
}.

(** C26: No rule outlives its side.  Whatever calls were made, a side that is added - it
    takes the first number that is free, perhaps one of a side that was removed - is
    subject to no rule, weight, priority, mode, turn or measurement of its number's
    earlier owner, and the other sides stay what they are. *)
Theorem new_side_is_fresh o now_ms st :
  routes_reached st ->
  let '(d, st') := add_side o now_ms st in
  side_options st d = None /\ side_options st' d = Some o /\ (forall e, e <> d -> side_options st' e = side_options st e) /\
  unmentioned st' d.
Proof.
  intros Hst%reached_current. pose proof (add_known o now_ms st) as Ha. unfold add_side in *.
  destruct (place_side o (rt_sides st)) as [i l']. set (d := Z.of_nat i) in *. destruct Ha as (Ha & Hb & Hc).
  split; [unfold known_side in Ha; by destruct (side_options st d)|]. split; [done|]. split; [done|].
  assert (forall A (o : option A), (is_Some o -> known_side st d = true) -> o = None) as Hnone
    by (intros A [a|] H; [|done]; rewrite H in Ha by (by exists a); done).
  destruct Hst as [H1 H2 H3 H4 H5 H6 H7 H8 H9].
  constructor; cbn; intros; split_and?; apply Hnone; intros H.
  all: first [by apply (H1 _ _ H)|by apply (H3 _ _ H)|by apply (H4 _ _ H)|by apply (H2 _ _ _ H)|by apply (H5 _ H)|by apply (H6 _ H)|by apply (H7 _ H)].
Qed.

(** A change is announced in three increments, and once the whole is sent. *)
Lemma change_announced t now_ms :
  has_sent_full t = true ->
  let '(l1, t1) := discovery_level_for_side (owe_incremental t) now_ms in
  let '(l2, t2) := discovery_level_for_side t1 now_ms in
  let '(l3, t3) := discovery_level_for_side t2 now_ms in
  [l1; l2; l3] = replicate 3 (Some Incremental) /\ pending_incremental t3 = false.
Proof. destruct t as [p f n l r]. cbn. intros ->. done. Qed.

(** ** Eligible sides *)

Lemma omap_imap_ascend (f : nat -> option SideOptions -> option Z) l : forall n,
  (forall i x z, f i x = Some z -> z = Z.of_nat (n + i)) ->
  NoDup (omap id (imap f l)) /\ forall z, z ∈ omap id (imap f l) -> Z.of_nat n <= z.
Proof.
  revert f. induction l as [|x l IH]; intros f n Hf; cbn [imap omap list_omap].
  { split; [constructor|by intros ? ?%not_elem_of_nil]. }
  destruct (IH (f ∘ S) (S n)) as [H1 H2]; [intros i y z Hz; rewrite (Hf _ _ _ Hz); lia|]. cbn [omap list_omap].
  destruct (f O x) as [z|] eqn:E; cbn [id].
  - split.
    + apply NoDup_cons. split; [|done]. intros Hin%H2. rewrite (Hf _ _ _ E) in Hin. lia.
    + intros y [->|Hy%H2]%elem_of_cons; [rewrite (Hf _ _ _ E); lia|lia].
  - split; [done|]. intros y Hy%H2. lia.
Qed.

Lemma eligible_spec st src ty restrict :
  NoDup (eligible_side_ids st src ty restrict) /\
  forall d, d ∈ eligible_side_ids st src ty restrict <->
    route_allowed st src ty d = true /\ (restrict = true -> exists o, side_options st d = Some o /\ link_local_enabled o = true).
Proof.
  split.
  - eapply (proj1 (omap_imap_ascend _ _ 0 _)). Unshelve. intros i [o|] z; cbn [eligible_side]; [|done].
    destruct (_ && _); [done|]. destruct (route_allowed _ _ _ _); [|done]. by intros [= <-].
  - intros d. unfold eligible_side_ids. rewrite list_elem_of_omap. split.
    + intros (o & Ho & E). cbn in E. subst o. apply list_elem_of_lookup in Ho as (i & Hi). rewrite list_lookup_imap in Hi.
      destruct (rt_sides st !! i) as [s|] eqn:Es; [|done]. cbn in Hi. injection Hi as Hi. destruct s as [o|]; [|done]. cbn in Hi.
      destruct (restrict && negb (link_local_enabled o)) eqn:El; [done|]. destruct (route_allowed st src ty (Z.of_nat i)) eqn:Er; [|done].
      injection Hi as <-. split; [done|]. intros ->. exists o. rewrite side_options_at, Es. split; [done|]. by destruct (link_local_enabled o).
    + intros [Ha Hl]. destruct (side_options st d) as [o|] eqn:Eo; [|unfold route_allowed in Ha; by rewrite Eo in Ha].
      destruct (side_options_some st d o Eo) as (i & -> & Hi). exists (Some (Z.of_nat i)). split; [|done].
      apply list_elem_of_lookup. exists i. rewrite list_lookup_imap, Hi. cbn. f_equal.
      destruct restrict; [|by rewrite Ha]. destruct (Hl eq_refl) as (o' & [= <-] & ->). cbn. by rewrite Ha.
Qed.

(** A side that is allowed sends, and is another side than the source unless a rule
    sends packets back. *)
Lemma route_allowed_spec st src ty d :
  route_allowed st src ty d = true ->
  (exists o, side_options st d = Some o /\ egress_enabled o = true) /\ (src <> Some d \/ route_overrides st !! (src, d) = Some true) /\
  route_overrides st !! (src, d) <> Some false.
Proof.
  unfold route_allowed. destruct (side_options st d) as [o|]; [|done]. destruct (egress_enabled o) eqn:Ee; [|done]. cbn [negb].
  destruct (match src with Some s => _ | None => _ end); [done|]. intros H. split; [by exists o|]. revert H.
  unfold default_route_enabled. destruct (route_overrides st !! (src, d)) as [[]|]; cbn; [intros _; split; [by right|done]|done|].
  destruct (decide (src = Some d)) as [->|Hne]; [by rewrite bool_decide_eq_true_2|]. intros _. split; [by left|done].
Qed.

(** ** A router with three sides *)

Definition plain_side : SideOptions := {| link_local_enabled := false; ingress_enabled := true; egress_enabled := true |}.

Definition three_sides : Routes := snd (add_side plain_side 1 (snd (add_side plain_side 1 (snd (add_side plain_side 1 routes_empty))))).
(** Weights 2, 1 (by default) and 3 for what the router sends itself. *)
Definition weighted_sides : Routes :=
  snd (set_route_weight None 2 3 5 (snd (set_route_weight None 0 2 4 (snd (set_source_route_mode None Weighted 3 three_sides))))).

Lemma weighted_fair_witness :
  let turns := fst (select_run 6 9 None [2; 0; 1] Discovered weighted_sides) in
  turns = [[0]; [0]; [1]; [2]; [2]; [2]] /\
  (Forall (fun out => exists s, out = [s] /\ s ∈ [2; 0; 1]) turns /\ forall s, s ∈ [2; 0; 1] -> turns_of s turns = route_weight weighted_sides None s).
Proof.
  split; [vm_compute; reflexivity|].
  assert (weight_sum (route_weight weighted_sides None) [2; 0; 1] = 6) as HW by (vm_compute; reflexivity).
  assert (cursor_of weighted_sides None = 0) as Hc by (vm_compute; reflexivity).
  pose proof (weighted_fair 9 None [2; 0; 1] Discovered weighted_sides) as H. rewrite HW in H. rewrite Hc in H.
  apply H; [vm_compute; reflexivity|apply (bool_decide_unpack _); vm_compute; exact I|cbn; lia| |vm_compute; split; [reflexivity|discriminate]|lia|lia].
  repeat constructor; vm_compute; discriminate.
Defined.

Lemma selection_spec_witness :
  let st := snd (set_source_route_mode None Failover 3 (snd (set_route_priority None 0 7 2 three_sides))) in
  fst (apply_route_selection 9 None [0; 2; 1] Flood st) = [1] /\ first_up st None [0; 2; 1] 1.
Proof.
  intros st. split; [vm_compute; reflexivity|].
  assert (apply_route_selection 9 None [0; 2; 1] Flood st = ([1], st)) as E by (vm_compute; reflexivity).
  pose proof (selection_spec 9 None [0; 2; 1] Flood st) as H. rewrite E in H.
  destruct H as (_ & _ & _ & _ & _ & _ & H).
  - apply (bool_decide_unpack _). vm_compute. exact I.
  - intros s [->|[->|[->|[]%not_elem_of_nil]%elem_of_cons]%elem_of_cons]%elem_of_cons; vm_compute; discriminate.
  - destruct H as (b & [= <-] & Hb); [vm_compute; reflexivity|done|exact Hb].
Defined.

Definition half_measured : Routes := record_side_tx_sample 1 4000 10 20 three_sides.
Lemma adaptive_probes_all_witness :
  let '(turns, st') := send_run None [0; 1; 2] [(100, 30, 31); (100, 40, 90)] half_measured in
  turns = [[0]; [2]] /\
  (concat turns ≡ₚ unmeasured_sides half_measured [0; 1; 2] /\ Forall (fun out => length out = 1%nat) turns /\ unmeasured_sides st' [0; 1; 2] = []).
Proof.
  pose proof (adaptive_probes_all None [0; 1; 2] [(100, 30, 31); (100, 40, 90)] half_measured) as H.
  destruct (send_run None [0; 1; 2] [(100, 30, 31); (100, 40, 90)] half_measured) as [turns st'] eqn:E.
  split; [apply (f_equal fst) in E; cbn [fst] in E; rewrite <- E; vm_compute; reflexivity|].
  apply H; [vm_compute; reflexivity|cbn; lia|apply (bool_decide_unpack _); vm_compute; exact I|vm_compute; reflexivity].
Defined.

Lemma bandwidth_bounds_witness :
  let s := observe_all [(100, 5000, 10); (90, 9000, 600); (80, 400, 1700)] stats_default in
  estimated_bandwidth_bps s = 6612 /\
  (400 <= estimated_bandwidth_bps s <= peak_bandwidth_bps s /\
   peak_bandwidth_bps s = foldr Z.max 0 (map sample_of [(100, 5000, 10); (90, 9000, 600); (80, 400, 1700)]) /\ peak_bandwidth_bps s <= 9000 /\
   is_u64 (current_usage_bps s 2000) /\ 1 <= stats_weight s 2000 <= Z.max 1 (peak_bandwidth_bps s)).
Proof.
  split; [vm_compute; reflexivity|]. apply (bandwidth_bounds [(100, 5000, 10); (90, 9000, 600); (80, 400, 1700)] 400 9000 2000);
    [done|lia|unfold u64_max; lia|]. repeat constructor; cbn; lia.
Defined.

(** Side 1 was removed with its rules; its number is given out again. *)
Definition side_removed : Routes := snd (forget_side 1 6 (snd (set_route (Some 1) 2 false 5 (snd (set_route None 1 false 4 three_sides))))).
Lemma new_side_is_fresh_witness :
  route_allowed (snd (set_route None 1 false 4 three_sides)) None None 1 = false /\
  let '(d, st') := add_side plain_side 7 side_removed in
  d = 1 /\ route_allowed st' None None d = true /\
  (side_options side_removed d = None /\ side_options st' d = Some plain_side /\
   (forall e, e <> d -> side_options st' e = side_options side_removed e) /\ unmentioned st' d).
Proof.
  split; [vm_compute; reflexivity|]. assert (routes_reached side_removed) as Hr.
  { eapply reached_step; [|apply step_forget]. eapply reached_step; [|apply step_route]. eapply reached_step; [|apply step_route].
    do 3 (eapply reached_step; [|apply step_add]). apply reached_new. }
  pose proof (new_side_is_fresh plain_side 7 side_removed Hr) as H.
  destruct (add_side plain_side 7 side_removed) as [d st'] eqn:E.
  split; [apply (f_equal fst) in E; cbn [fst] in E; rewrite <- E; vm_compute; reflexivity|].
  split; [|exact H].
  apply (f_equal (fun x => route_allowed (snd x) None None (fst x))) in E. cbn [fst snd] in E. rewrite <- E. vm_compute. reflexivity.
Defined.
