(* ===== verification/RoutePlan.v ===== *)
(** * Where a packet goes (src/src/router.rs)

    The sides a packet is sent to, computed from what discovery has learned: the sides
    that lead to its endpoints or to the boards it names, those with the shortest way,
    one side per endpoint role, the way back of a receipt; and what happens when
    nothing is known.  The choice among several sides is that of [Routing].

    The routes of [discovery_routes] and their announcers are walked in the order of
    their keys.  The clock is read once per plan.  The counts of refused admissions
    that unpacking a frame may leave behind are not part of the state. *)

From stdpp Require Import sorting gmap.
From S2P Require Import Prelude OrdMap Schema Packet WireEnv WireReader WireFrame WirePeek MemoryAdmission SortedList SmallSort SchemaCodec.
From S2P Require Import Topology Election WireSample SideLink DiscoveryCodec RouterQueues Routing.
From S2P Require Import AddressBook.

Open Scope Z_scope.

(** ** What discovery knows *)

Record DiscoverySenderState : Type := {
  advertised_address : option Z;
  sender_reachable : list DataEndpoint;
  topology_boards : list TopologyBoardNode;
  sender_seen_ms : Z;
  sender_variables : list DataType;
  has_hop_local_evidence : bool;
  last_hop_local_ms : Z;
}.

(** [announcers] is in the order of the names. *)
Record DiscoverySideState : Type := {
  side_reachable : list DataEndpoint;
  reachable_network_variables : list DataType;
  side_timesync_sources : list bytes;
  side_seen_ms : Z;
  announcers : list (bytes * DiscoverySenderState);
}.

(** The part of the router that a plan reads; it writes the turns of [routes]. *)
Record View : Type := {
  routes : Routes;
  discovery_routes : gmap Z DiscoverySideState;
  forwarded_receipts : option (gmap Z (list Z));
  return_sides : gmap Z Z;
  managed_types : option (list DataType);
  timesync_next_allowed : gmap Z Z;
}.

Definition with_routes (r : Routes) (v : View) : View :=
  {| routes := r; discovery_routes := discovery_routes v; forwarded_receipts := forwarded_receipts v;
     return_sides := return_sides v; managed_types := managed_types v; timesync_next_allowed := timesync_next_allowed v |}.

Inductive RoutingRole : Type := RoleRouter | RoleRelay.
Definition local_services (r : RoutingRole) : bool := match r with RoleRouter => true | RoleRelay => false end.

Inductive HandlerKind : Type := PacketHandler | PackedHandler.

Record RouterConfig : Type := {
  cfg_role : RoutingRole;
  cfg_handlers : list (DataEndpoint * HandlerKind);
  cfg_sender : bytes;
  cfg_time_source : option bytes;
}.

(** A relay has no local part. *)
Definition active_handlers (c : RouterConfig) : list (DataEndpoint * HandlerKind) :=
  if local_services (cfg_role c) then cfg_handlers c else [].

Definition endpoint_is_router_internal (ep : DataEndpoint) : bool := (ep =? ep_TimeSync) || is_discovery_endpoint ep.

Definition is_local_endpoint (c : RouterConfig) (ep : DataEndpoint) : bool :=
  if endpoint_is_router_internal ep then false else existsb (fun h => fst h =? ep) (active_handlers c).
Definition has_nonlocal_endpoint (c : RouterConfig) (eps : list DataEndpoint) : bool :=
  existsb (fun ep => negb (is_local_endpoint c ep)) eps.

Definition endpoint_has_packet_handler (c : RouterConfig) (ep : DataEndpoint) : bool :=
  existsb (fun h => (fst h =? ep) && match snd h with PacketHandler => true | PackedHandler => false end) (active_handlers c).
Definition endpoint_has_packed_handler (c : RouterConfig) (ep : DataEndpoint) : bool :=
  existsb (fun h => (fst h =? ep) && match snd h with PackedHandler => true | PacketHandler => false end) (active_handlers c).

Definition is_timesync_type (ty : DataType) : bool := one_of ty [ty_TimeSyncAnnounce; ty_TimeSyncRequest; ty_TimeSyncResponse].
Definition force_remote_for_type (ty : DataType) : bool :=
  one_of ty [ty_ReliableAck; ty_ReliablePartialAck; ty_ReliablePacketRequest; ty_P2pMessage] || is_timesync_type ty.

Definition is_managed_variable (v : View) (ty : DataType) : bool :=
  match managed_types v with Some l => one_of ty l | None => false end.

Definition route_fresh (now_ms seen_ms : Z) : bool := sat_sub now_ms seen_ms <=? DISCOVERY_ROUTE_TTL_MS.

(** ** The boards a packet names *)

Inductive TargetSenderSet : Type := Hashes (l : list Z) | Encoded (b : bytes).

Definition ts_skip (t : TargetSenderSet) (count : nat) : TargetSenderSet :=
  match t with Hashes l => Hashes (drop count l) | Encoded b => Encoded (drop (count * 8) b) end.
Definition ts_iter (t : TargetSenderSet) : list Z := match t with Hashes l => l | Encoded b => targets_of b end.
Definition ts_is_empty (t : TargetSenderSet) : bool := match t with Hashes l => is_empty l | Encoded b => is_empty b end.
Definition ts_contains (t : TargetSenderSet) (x : Z) : bool := one_of x (ts_iter t).

Section Items.
Context `{WE : WireEnv} (book : gmap Z bytes) (adm : Admission) (c : RouterConfig) (v : View).

Definition endpoints_are_link_local_only (eps : list DataEndpoint) : bool :=
  negb (is_empty eps) && forallb (fun ep => link_local_only (get_endpoint_meta we_registry ep)) eps.

Definition item_route_info (data : RouterItem) : result (list DataEndpoint * DataType) :=
  match data with
  | IPacket p => _ ← validate we_registry we_tuning p; Ok (sort_dedup (pkt_endpoints p), ty p)
  | IPacked b => env ← peek_routing_envelope b; Ok (sort_dedup (routing_endpoints env), re_ty env)
  end.

Definition item_target_senders (data : RouterItem) : result TargetSenderSet :=
  match data with
  | IPacket p => Ok (Hashes (wire_target_senders p))
  | IPacked b => env ← peek_routing_envelope b; Ok (Encoded (re_targets env))
  end.

Definition item_targets_router_as_intermediate_hop (data : RouterItem) (eps : list DataEndpoint) : result bool :=
  local_target ← match data with
    | IPacket p =>
        if is_empty (wire_target_senders p) || is_internal_control_type (ty p) then Ok false
        else Ok (one_of (sender_hash (cfg_sender c)) (wire_target_senders p))
    | IPacked b =>
        env ← peek_routing_envelope b;
        if (zlen (targets_of (re_targets env)) =? 0) || is_internal_control_type (re_ty env) then Ok false
        else Ok (one_of (sender_hash (cfg_sender c)) (targets_of (re_targets env)))
    end;
  Ok (local_target && negb (existsb (fun ep => endpoint_has_packet_handler c ep || endpoint_has_packed_handler c ep) eps)).

(** *** Receipts *)

Definition END_TO_END_ACK_SENDER : bytes := str "E2EACK".
Definition END_TO_END_ACK_PREFIX : bytes := str "E2EACK:".

Definition is_end_to_end_ack_sender (s : bytes) : bool :=
  bool_decide (s = END_TO_END_ACK_SENDER) || match Packet.strip_prefix END_TO_END_ACK_PREFIX s with Some _ => true | None => false end.

Definition decode_end_to_end_ack_sender_hash (s : bytes) : option Z :=
  match Packet.strip_prefix END_TO_END_ACK_PREFIX s with
  | Some ack_sender => if is_empty ack_sender then None else Some (sender_hash ack_sender)
  | None => None
  end.

Definition end_to_end_ack_sender_hash (p : Packet) : option Z :=
  if negb (ty p =? ty_ReliableAck) then None
  else match wire_target_senders p with
       | x :: _ => Some x
       | [] => decode_end_to_end_ack_sender_hash (sender p)
       end.

Definition decode_end_to_end_reliable_ack (payload : bytes) : result Z :=
  if negb (zlen payload =? 8) then Err (Unpack "bad reliable e2e ack payload") else Ok (from_le payload).

Definition is_end_to_end_ack_packet (p : Packet) : bool :=
  match end_to_end_ack_sender_hash p with Some _ => is_ok (decode_end_to_end_reliable_ack (payload p)) | None => false end.

Definition is_end_to_end_destination_sender (s : bytes) : bool :=
  negb (bool_decide (s = cfg_sender c)) && negb (is_end_to_end_ack_sender s).

Definition acked_packet (p : Packet) : result (option Z) :=
  if is_end_to_end_ack_packet p then id ← decode_end_to_end_reliable_ack (payload p); Ok (Some id) else Ok None.

Definition reliable_control_target_packet_id (data : RouterItem) : result (option Z) :=
  match data with
  | IPacket p => acked_packet p
  | IPacked b =>
      if match peek_routing_frame_info b with
         | Ok frame => negb (re_ty (fi_envelope frame) =? ty_ReliableAck) || header_ack_only (fi_reliable frame)
         | Err _ => false
         end then Ok None
      else p ← fst (unpack_packet book b adm); acked_packet p
  end.

(** *** Time synchronisation *)

Definition unpack_packet_for_role (b : bytes) : result Packet :=
  let managed := supports_work_kinds adm && match scheduling_type b with
    | Some ty => negb (is_internal_control_type ty) && is_managed_variable v ty
    | None => false
    end in
  fst (unpack_packet_with_role book b managed adm).

Definition packet_timesync_source (p : Packet) (ty : DataType) : option bytes :=
  if ty =? ty_TimeSyncRequest then if bool_decide (sender p = cfg_sender c) then cfg_time_source c else None
  else Some (sender p).

Definition preferred_timesync_route_source (data : RouterItem) (ty : DataType) : result (option bytes) :=
  if negb (is_timesync_type ty) then Ok None
  else match data with
       | IPacket p => Ok (packet_timesync_source p ty)
       | IPacked b => p ← unpack_packet_for_role b; Ok (packet_timesync_source p ty)
       end.

Definition timesync_allowed_for_side (side : Z) (ty : DataType) (now_ms : Z) : bool :=
  if negb (is_timesync_type ty) then true
  else if negb (side_is_slow_control_link (routes v) side now_ms) then true
  else match timesync_next_allowed v !! side with Some next => next <=? now_ms | None => true end.

Definition filter_timesync_sides (ty : DataType) (now_ms : Z) (sides : list Z) : list Z :=
  List.filter (fun s => timesync_allowed_for_side s ty now_ms) sides.
End Items.

(** ** The shortest way *)

Section Search.
Context (is_target : TopologyBoardNode -> bool) (boards : list TopologyBoardNode).

(** The boards of the snapshot when [sender] is taken from the queue: [None] when it
    is a target, else the queue with its neighbours. *)
Fixpoint scan_boards (sender : bytes) (d : nat) (visited : gset bytes) (l : list TopologyBoardNode) (pending : list (bytes * nat))
    : option (list (bytes * nat)) :=
  match l with
  | [] => Some pending
  | b :: l =>
      if bool_decide (sender_id b = sender) then
        if is_target b then None
        else scan_boards sender d visited l
               (pending ++ map (fun p => (p, S d)) (filter (fun p => p ∉ visited) (connections b)))
      else if bool_decide (sender ∈ connections b) && bool_decide (sender_id b ∉ visited)
      then scan_boards sender d visited l (pending ++ [(sender_id b, S d)])
      else scan_boards sender d visited l pending
  end.

(** The outer [None] is the end of the fuel. *)
Fixpoint search_loop (fuel : nat) (visited : gset bytes) (pending : list (bytes * nat)) : option (option nat) :=
  match fuel with
  | O => None
  | S fuel =>
      match pending with
      | [] => Some None
      | (sender, d) :: pending =>
          if bool_decide (sender ∈ visited) then search_loop fuel visited pending
          else match scan_boards sender d ({[sender]} ∪ visited) boards pending with
               | None => Some (Some d)
               | Some pending => search_loop fuel ({[sender]} ∪ visited) pending
               end
      end
  end.

(** What one board may add to the queue, over all boards. *)
Definition edge_count : nat := foldr (fun b n => S (length (connections b)) + n)%nat O boards.

(** Each of at most [edge_count + 1] names is taken once and adds at most [edge_count]
    entries. *)
Definition search_fuel : nat := S (S ((S edge_count) * edge_count)).
Definition hop_search (announcer : bytes) : option nat := mjoin (search_loop search_fuel ∅ [(announcer, O)]).
End Search.

Section Plan.
Context `{WE : WireEnv} (book : gmap Z bytes) (adm : Admission) (c : RouterConfig) (v : View) (now_ms : Z).

Record DiscoveryCandidateMatch : Type := { cm_side : Z; cm_overlap : Z }.

Definition side_matches_target_senders (side : Z) (targets : TargetSenderSet) : bool :=
  match discovery_routes v !! side with
  | None => false
  | Some route =>
      if negb (route_fresh now_ms (side_seen_ms route)) then false
      else existsb (fun a =>
        if negb (route_fresh now_ms (sender_seen_ms (snd a))) then false
        else ts_contains targets (sender_hash (fst a))
             || match advertised_address (snd a) with Some address => ts_contains targets address | None => false end
             || existsb (fun b => ts_contains targets (sender_hash (sender_id b))) (topology_boards (snd a)))
        (announcers route)
  end.

Definition endpoint_overlap_count (reachable eps : list DataEndpoint) : Z :=
  foldl (fun n ep => if one_of ep eps then sat_add n 1 else n) 0 reachable.

Definition preferred_scoring_endpoints (eps : list DataEndpoint) (prefer_nonlocal : bool) : list DataEndpoint :=
  if negb prefer_nonlocal || forallb (fun ep => negb (is_local_endpoint c ep)) eps then eps
  else let nonlocal := List.filter (fun ep => negb (is_local_endpoint c ep)) eps in
       if is_empty nonlocal then eps else nonlocal.

Definition is_variable_owner (exclude : option Z) (ty : DataType) (e : Z * DiscoverySideState) : bool :=
  negb (bool_decide (exclude = Some (fst e))) && route_fresh now_ms (side_seen_ms (snd e))
  && one_of ty (reachable_network_variables (snd e)).
Definition has_variable_owner (exclude : option Z) (ty : DataType) : bool :=
  existsb (is_variable_owner exclude ty) (entries (discovery_routes v)).

(** What a route is for a packet. *)
Inductive Verdict : Type := Skip | EndpointFallback | Match (overlap : Z).

Definition route_verdict (exclude : option Z) (ty : DataType) (targets : TargetSenderSet) (restrict owner : bool)
    (scoring : list DataEndpoint) (source : option bytes) (e : Z * DiscoverySideState) : Verdict :=
  let '(side, route) := e in
  if bool_decide (exclude = Some side) || negb (route_fresh now_ms (side_seen_ms route)) then Skip
  else if restrict && match side_options (routes v) side with Some o => negb (link_local_enabled o) | None => true end then Skip
  else if negb (route_allowed (routes v) exclude (Some ty) side) then Skip
  else if negb (ts_is_empty targets) && negb (side_matches_target_senders side targets)
  then if existsb (fun ep => one_of ep (side_reachable route)) scoring then EndpointFallback else Skip
  else if negb (ts_is_empty targets) then Match usize_max
  else if owner then if one_of ty (reachable_network_variables route) then Match usize_max else Skip
  else if match source with Some s => bool_decide (s ∈ side_timesync_sources route) | None => false end then Match usize_max
  else let overlap := endpoint_overlap_count (side_reachable route) scoring in
       if 0 <? overlap then Match overlap else Skip.

Definition discovered_route_candidates (exclude : option Z) (ty : DataType) (eps : list DataEndpoint) (targets : TargetSenderSet)
    (prefer_nonlocal : bool) (source : option bytes) : list DiscoveryCandidateMatch :=
  let verdict := route_verdict exclude ty targets (endpoints_are_link_local_only eps) (has_variable_owner exclude ty)
                   (preferred_scoring_endpoints eps prefer_nonlocal) source in
  let out := omap (fun e => match verdict e with Match n => Some {| cm_side := fst e; cm_overlap := n |} | _ => None end)
               (entries (discovery_routes v)) in
  let fallbacks := omap (fun e => match verdict e with EndpointFallback => Some (fst e) | _ => None end)
                     (entries (discovery_routes v)) in
  match fallbacks with
  | [side] => if negb (ts_is_empty targets) && is_empty out then [{| cm_side := side; cm_overlap := usize_max |}] else out
  | _ => out
  end.

(** *** Distances *)

Definition target_board (eps : list DataEndpoint) (target : option Z) (b : TopologyBoardNode) : bool :=
  match target with
  | Some t => sender_hash (sender_id b) =? t
  | None => existsb (fun ep => one_of ep (reachable_endpoints b)) eps
  end.

(** A peer that reaches the endpoints and whose snapshot does not say where. *)
Definition far_away : Z := usize_max / 2.

Definition announcer_distance (eps : list DataEndpoint) (target : option Z) (a : bytes * DiscoverySenderState) : option Z :=
  let boards := topology_boards (snd a) in
  if negb (existsb (target_board eps target) boards) then
    match target with
    | Some t => if existsb (fun b => sender_hash (sender_id b) =? t) boards then Some far_away else None
    | None => if existsb (fun ep => one_of ep eps) (sender_reachable (snd a)) then Some far_away else None
    end
  else Z.of_nat <$> hop_search (target_board eps target) boards (fst a).

Definition least (l : list Z) : option Z := match l with [] => None | x :: l => Some (foldl Z.min x l) end.

Definition route_distance (eps : list DataEndpoint) (side : Z) (target : option Z) : option Z :=
  route ← discovery_routes v !! side;
  least (omap (announcer_distance eps target) (List.filter (fun a => route_fresh now_ms (sender_seen_ms (snd a))) (announcers route))).

Definition route_targets (targets : TargetSenderSet) : list (option Z) :=
  map Some (ts_iter targets) ++ (if ts_is_empty targets then [None] else []).

(** The candidates nearest to one target. *)
Definition nearest (eps : list DataEndpoint) (matches : list DiscoveryCandidateMatch) (target : option Z) : list Z :=
  let distances := omap (fun m => pair (cm_side m) <$> route_distance eps (cm_side m) target) matches in
  match least (map snd distances) with
  | None => []
  | Some best => map fst (List.filter (fun e => snd e =? best) distances)
  end.

Definition retain_shortest_discovery_candidates (eps : list DataEndpoint) (targets : TargetSenderSet)
    (matches : list DiscoveryCandidateMatch) : list DiscoveryCandidateMatch :=
  if (length matches <=? 1)%nat || is_empty eps then matches
  else let selected := mjoin (map (nearest eps matches) (route_targets targets)) in
       if is_empty selected then matches else List.filter (fun m => one_of (cm_side m) selected) matches.

(** *** Receipts that arrived *)

Definition pending_on_side (acked : list Z) (a : bytes * DiscoverySenderState) : bool * bool :=
  if negb (route_fresh now_ms (sender_seen_ms (snd a))) then (false, false)
  else let owners := List.filter (fun b => is_end_to_end_destination_sender c (sender_id b)) (topology_boards (snd a)) in
       (existsb (fun b => negb (one_of (sender_hash (sender_id b)) acked)) owners, negb (is_empty owners)).

Definition still_wanted (acked : list Z) (side : Z) : bool :=
  match discovery_routes v !! side with
  | None => true
  | Some route =>
      let seen := map (pending_on_side acked) (announcers route) in
      existsb fst seen || negb (existsb snd seen)
  end.

Definition filter_end_to_end_satisfied_sides (data : RouterItem) (sides : list Z) (ty : DataType) : list Z :=
  if negb (is_reliable_type we_registry ty)
     || match reliable_control_target_packet_id book adm data with Ok (Some _) => true | _ => false end
  then sides
  else match (match data with IPacket p => Ok (packet_id p) | IPacked b => packet_id_from_wire b end) with
       | Err _ => sides
       | Ok id =>
           match forwarded_receipts v ≫= (fun m => m !! id) with
           | None => sides
           | Some acked => List.filter (still_wanted acked) sides
           end
       end.

(** *** Selection *)

Definition select_sides (select_routes : bool) (exclude : option Z) (data : RouterItem) (ty : DataType) (sides : list Z)
    (origin : RouteSelectionOrigin) : list Z * Routes :=
  let sides := filter_end_to_end_satisfied_sides data sides ty in
  if select_routes then apply_route_selection now_ms exclude sides origin (routes v) else (sides, routes v).

Definition candidates_for_role (matches : list DiscoveryCandidateMatch) (ep : DataEndpoint) : list DiscoveryCandidateMatch :=
  List.filter (fun m => match discovery_routes v !! cm_side m with Some route => one_of ep (side_reachable route) | None => false end) matches.

(** One role after the other; the turns move on. *)
Fixpoint select_endpoint_role_sides (exclude : option Z) (eps : list DataEndpoint) (matches : list DiscoveryCandidateMatch)
    (selected : list Z) (r : Routes) : list Z * Routes :=
  match eps with
  | [] => (selected, r)
  | ep :: eps =>
      let near := retain_shortest_discovery_candidates [ep] (Hashes []) (candidates_for_role matches ep) in
      if existsb (fun m => one_of (cm_side m) selected) near then select_endpoint_role_sides exclude eps matches selected r
      else let '(sides, r) := apply_route_selection now_ms exclude (map cm_side near) Discovered r in
           select_endpoint_role_sides exclude eps matches
             (foldl (fun sel s => if one_of s sel then sel else sel ++ [s]) selected sides) r
  end.

Definition owns_variable (ty : DataType) (side : Z) : bool :=
  match discovery_routes v !! side with Some route => one_of ty (reachable_network_variables route) | None => false end.

Definition select_discovered_candidate_sides (data : RouterItem) (ty : DataType) (exclude : option Z) (targets : TargetSenderSet)
    (prefer_best_overlap : bool) (matches : list DiscoveryCandidateMatch) : list Z * Routes :=
  let origin := if has_typed_route_overrides (routes v) exclude ty || negb (ts_is_empty targets)
                   || (negb (local_services (cfg_role c)) && is_reliable_type we_registry ty) then Flood else Discovered in
  let matches := if existsb (fun m => cm_overlap m =? usize_max) matches
                 then List.filter (fun m => cm_overlap m =? usize_max) matches else matches in
  let best := foldl Z.max 0 (map cm_overlap matches) in
  let selected := map cm_side (if prefer_best_overlap then List.filter (fun m => cm_overlap m =? best) matches else matches) in
  let selected := if match forwarded_receipts v with Some _ => true | None => false end && is_reliable_type we_registry ty
                  then filter_end_to_end_satisfied_sides data selected ty else selected in
  if existsb (owns_variable ty) selected then (selected, routes v)
  else apply_route_selection now_ms exclude selected origin (routes v).

(** *** The plan *)

Definition sole (l : list Z) : list Z := match l with [_] => l | _ => [] end.

Definition knows_targets (targets : TargetSenderSet) : bool :=
  negb (ts_is_empty targets) && existsb (fun e => side_matches_target_senders (fst e) targets) (entries (discovery_routes v)).

(** A receipt goes back the way its packet came, else to its publisher. *)
Definition plan_receipt (select_routes : bool) (exclude : option Z) (data : RouterItem) (ty : DataType) (targets : TargetSenderSet) (id : Z)
    : list Z * Routes :=
  let r := routes v in
  match (match return_sides v !! id with
         | Some side => if route_allowed r exclude (Some ty) side then Some side else None
         | None => None
         end) with
  | Some side =>
      if select_routes && negb (timesync_allowed_for_side v side ty now_ms) then ([], r) else ([side], r)
  | None =>
      let eligible := eligible_side_ids r exclude (Some ty) false in
      let exact := List.filter (fun s => negb (ts_is_empty targets) && side_matches_target_senders s targets) eligible in
      if negb (is_empty exact) then select_sides select_routes exclude data ty exact Discovered
      else if negb (knows_targets targets) && match exclude with Some _ => true | None => false end
      then (sole eligible, r) else ([], r)
  end.

(** May each role have its own side? *)
Definition roles_apart (exclude : option Z) (eps : list DataEndpoint) (ty : DataType) (targets : TargetSenderSet) (source : option bytes)
    (matches : list DiscoveryCandidateMatch) : bool :=
  local_services (cfg_role c) && (1 <? length eps)%nat && (1 <? length matches)%nat && negb (is_reliable_type we_registry ty)
  && negb (is_managed_variable v ty) && ts_is_empty targets && match source with None => true | Some _ => false end
  && negb (has_explicit_route_policy (routes v) exclude ty)
  && match source_route_modes (routes v) !! exclude with None => true | Some _ => false end.

Definition plan_without_match (select_routes : bool) (exclude : option Z) (data : RouterItem) (eps : list DataEndpoint) (ty : DataType)
    (targets : TargetSenderSet) (prefer_best_overlap : bool) : list Z * Routes :=
  let r := routes v in
  let eligible := eligible_side_ids r exclude (Some ty) (endpoints_are_link_local_only eps) in
  if negb (local_services (cfg_role c)) && match exclude with Some _ => true | None => false end then
    if (length eligible =? 1)%nat && negb (knows_targets targets) then select_sides select_routes exclude data ty eligible Flood else ([], r)
  else if prefer_best_overlap then ([], r)
  else if has_explicit_route_policy r exclude ty then
    select_sides select_routes exclude data ty
      (if select_routes then filter_timesync_sides v ty now_ms eligible else eligible) Flood
  else ([], r).

Definition plan_discovered (select_routes : bool) (exclude : option Z) (data : RouterItem) (eps : list DataEndpoint) (ty : DataType)
    (targets : TargetSenderSet) (source : option bytes) : list Z * Routes :=
  let r := routes v in
  let prefer := is_reliable_type we_registry ty && ts_is_empty targets in
  if bool_decide (discovery_routes v = ∅) then
    let fallback := eligible_side_ids r exclude (Some ty) (endpoints_are_link_local_only eps) in
    (sole (if select_routes then filter_timesync_sides v ty now_ms fallback else fallback), r)
  else
    let matches := discovered_route_candidates exclude ty eps targets prefer source in
    let matches := if select_routes then List.filter (fun m => timesync_allowed_for_side v (cm_side m) ty now_ms) matches else matches in
    let distributed := existsb (fun m => owns_variable ty (cm_side m)) matches in
    if negb distributed && roles_apart exclude eps ty targets source matches then
      if select_routes then select_endpoint_role_sides exclude eps matches [] r
      else (map cm_side (take 1 matches), r)
    else
      let matches := if distributed then matches else retain_shortest_discovery_candidates eps targets matches in
      if negb (is_empty matches) then
        if select_routes then select_discovered_candidate_sides data ty exclude targets prefer matches
        else (map cm_side (take 1 matches), r)
      else plan_without_match select_routes exclude data eps ty targets prefer.

(** Is the packet one for other boards? *)
Definition wanted_remotely (exclude : option Z) (eps : list DataEndpoint) (ty : DataType) (targets : TargetSenderSet) : bool :=
  has_nonlocal_endpoint c eps || force_remote_for_type ty || negb (ts_is_empty targets)
  || (is_managed_variable v ty && has_variable_owner exclude ty).

Definition routing_targets (receipt : option Z) (beyond : bool) (targets : TargetSenderSet) : TargetSenderSet :=
  match receipt with Some _ => ts_skip targets 1 | None => if beyond then Hashes [] else targets end.

Definition remote_side_plan_with_selection (select_routes : bool) (data : RouterItem) (exclude : option Z) : result (list Z * Routes) :=
  info ← item_route_info data;
  let eps := fst info in
  let ty := snd info in
  target_senders ← item_target_senders data;
  beyond ← item_targets_router_as_intermediate_hop c data eps;
  receipt ← reliable_control_target_packet_id book adm data;
  let targets := routing_targets receipt beyond target_senders in
  let eligible := eligible_side_ids (routes v) exclude (Some ty) false in
  if is_discovery_type ty then Ok (select_sides select_routes exclude data ty eligible Flood)
  else if ty =? ty_TimeSyncAnnounce then
    Ok (select_sides select_routes exclude data ty
          (if select_routes then filter_timesync_sides v ty now_ms eligible else eligible) Flood)
  else if negb (wanted_remotely exclude eps ty target_senders) then Ok ([], routes v)
  else
    source ← preferred_timesync_route_source book adm c v data ty;
    match receipt with
    | Some id => Ok (plan_receipt select_routes exclude data ty targets id)
    | None => Ok (plan_discovered select_routes exclude data eps ty targets source)
    end.

Definition remote_side_plan (data : RouterItem) (exclude : option Z) : result (list Z * Routes) :=
  remote_side_plan_with_selection true data exclude.

Definition should_route_remote (data : RouterItem) (exclude : option Z) : result bool :=
  plan ← remote_side_plan_with_selection false data exclude; Ok (negb (is_empty (fst plan))).
End Plan.

(** ** The search finds the nearest target *)

Section SearchFacts.
Context (is_target : TopologyBoardNode -> bool) (boards : list TopologyBoardNode) (source : bytes).

Abbreviation edge := (linked boards).
Definition target_name (x : bytes) : Prop := exists b, b ∈ boards /\ sender_id b = x /\ is_target b = true.

(** What [scan_boards] adds for the boards [l]. *)
Definition adds (sender : bytes) (d : nat) (visited : gset bytes) (l : list TopologyBoardNode) (new : list (bytes * nat)) : Prop :=
  (forall w e, (w, e) ∈ new -> e = S d /\ linked l sender w) /\
  (forall w, linked l sender w -> w ∉ visited -> (w, S d) ∈ new) /\
  (forall b, b ∈ l -> sender_id b = sender -> is_target b = false) /\
  (length new <= edge_count l)%nat.

Lemma linked_cons b l x w :
  linked (b :: l) x w <-> ((sender_id b = x /\ w ∈ connections b) \/ (sender_id b = w /\ x ∈ connections b)) \/ linked l x w.
Proof.
  unfold linked. split.
  - intros (b' & [->|Hb]%elem_of_cons & H); [by left|right; by exists b'].
  - intros [H|(b' & Hb & H)]; [exists b; split; [by left|done]|exists b'; split; [by right|done]].
Qed.

Lemma scan_boards_spec sender d visited l : forall pending, sender ∈ visited ->
  match scan_boards is_target sender d visited l pending with
  | None => exists b, b ∈ l /\ sender_id b = sender /\ is_target b = true
  | Some p => exists new, p = pending ++ new /\ adds sender d visited l new
  end.
Proof.
  induction l as [|b l IH]; intros pending Hs; cbn [scan_boards].
  { exists []. rewrite app_nil_r. split; [done|]. split_and!; [by intros ? ? ?%not_elem_of_nil| |by intros ? ?%not_elem_of_nil|done].
    intros w (b & Hb%not_elem_of_nil & _). done. }
  (* the rest of the boards, after [mine] was added for [b] *)
  assert (forall mine, (forall w e, (w, e) ∈ mine -> e = S d /\ linked (b :: l) sender w) ->
    (forall w, (sender_id b = sender /\ w ∈ connections b) \/ (sender_id b = w /\ sender ∈ connections b) -> w ∉ visited -> (w, S d) ∈ mine) ->
    (sender_id b = sender -> is_target b = false) -> (length mine <= S (length (connections b)))%nat ->
    match scan_boards is_target sender d visited l (pending ++ mine) with
    | None => exists b', b' ∈ b :: l /\ sender_id b' = sender /\ is_target b' = true
    | Some p => exists new, p = pending ++ new /\ adds sender d visited (b :: l) new
    end) as Hrest.
  { intros mine M1 M2 M3 M4. specialize (IH (pending ++ mine) Hs). destruct (scan_boards _ _ _ _ _ _) as [p|].
    - destruct IH as (new & -> & N1 & N2 & N3 & N4). exists (mine ++ new). split; [by rewrite app_assoc|]. split_and!.
      + intros w e [H|H]%elem_of_app; [by apply M1|]. destruct (N1 w e H) as [-> Hl]. split; [done|]. apply linked_cons. by right.
      + intros w [H|H]%linked_cons Hw; apply elem_of_app; [left; by apply M2|right; by apply N2].
      + intros b' [->|Hb]%elem_of_cons Hn; [by apply M3|by apply N3].
      + rewrite length_app. cbn [edge_count foldr]. unfold edge_count in N4. lia.
    - destruct IH as (b' & Hb & H). exists b'. split; [by right|done]. }
  destruct (decide (sender_id b = sender)) as [E|E].
  - rewrite bool_decide_eq_true_2 by done. destruct (is_target b) eqn:Et; [exists b; split; [by left|done]|]. apply Hrest; [| |done|].
    + intros w e (p & [= -> ->] & Hp)%list_elem_of_fmap. apply list_elem_of_filter in Hp as [_ Hp]. split; [done|]. apply linked_cons. left. by left.
    + intros w [[_ H]|[H _]] Hw; [|congruence]. apply list_elem_of_fmap. exists w. split; [done|]. by apply list_elem_of_filter.
    + rewrite length_map. pose proof (length_filter (fun p => p ∉ visited) (connections b)). lia.
  - rewrite bool_decide_eq_false_2 by done. 
    destruct (decide (sender ∈ connections b)) as [Hc|Hc]; [rewrite bool_decide_eq_true_2 by done|rewrite bool_decide_eq_false_2 by done]; cbn [andb].
    + destruct (decide (sender_id b ∈ visited)) as [Hv|Hv]; [rewrite bool_decide_eq_false_2 by (by intros H)|rewrite bool_decide_eq_true_2 by done].
      * specialize (Hrest []); rewrite app_nil_r in Hrest; apply Hrest; [by intros ? ? ?%not_elem_of_nil| |done|cbn; lia].
        intros w [[H _]|[<- _]] Hw; [done|done].
      * apply Hrest; [| |done|cbn; lia].
        -- intros w e [= -> ->]%list_elem_of_singleton. split; [done|]. apply linked_cons. left. by right.
        -- intros w [[H _]|[<- _]] Hw; [done|by left].
    + specialize (Hrest []); rewrite app_nil_r in Hrest; apply Hrest; [by intros ? ? ?%not_elem_of_nil| |done|cbn; lia].
      intros w [[H _]|[_ H]] Hw; done.
Qed.

(** The state of the search: what is taken has its distance and is no target, and the
    queue holds every way out of it, nearest first. *)
Record searching_from (visited : gset bytes) (pending : list (bytes * nat)) : Prop := {
  sf_walk : forall x d, (x, d) ∈ pending -> walk edge d source x;
  sf_sorted : StronglySorted (fun a b : bytes * nat => (snd a <= snd b)%nat) pending;
  sf_close : forall x d rest y e, pending = (x, d) :: rest -> (y, e) ∈ pending -> (e <= S d)%nat;
  sf_taken : forall x, x ∈ visited -> ~ target_name x /\
    exists d, distance edge source x d /\ forall w, edge x w -> w ∈ visited \/ (w, S d) ∈ pending;
  sf_source : source ∈ visited \/ pending = [(source, O)];
}.

(** Whatever is not taken is at least as far as something in the queue. *)
Lemma way_out visited pending k y :
  searching_from visited pending -> walk edge k source y -> y ∉ visited -> exists w e, (w, e) ∈ pending /\ (e <= k)%nat.
Proof.
  intros Hs Hw. remember source as s eqn:Es in Hw. induction Hw as [x|k x y z Hw IH He]; intros Hy; subst.
  - destruct (sf_source _ _ Hs) as [|E]; [done|]. exists source, O. rewrite E. split; [by left|lia].
  - destruct (decide (y ∈ visited)) as [Hin|Hout].
    + destruct (sf_taken _ _ Hs y Hin) as (_ & d & [_ Hd] & Hedges). destruct (Hedges z He) as [|Hz]; [done|].
      exists z, (S d). split; [done|]. specialize (Hd k Hw). lia.
    + destruct (IH eq_refl Hout) as (w & e & Hin & Hle). exists w, e. split; [done|lia].
Qed.

Lemma head_least visited x d rest k y :
  searching_from visited ((x, d) :: rest) -> walk edge k source y -> y ∉ visited -> (d <= k)%nat.
Proof.
  intros Hs Hw Hy. destruct (way_out _ _ k y Hs Hw Hy) as (w & e & Hin & Hle).
  apply elem_of_cons in Hin as [[= -> ->]|Hin]; [done|].
  pose proof (sf_sorted _ _ Hs) as Hsort. apply StronglySorted_inv in Hsort as [_ Hsort]. rewrite Forall_forall in Hsort. specialize (Hsort _ Hin). cbn in Hsort. lia.
Qed.

Lemma search_skip visited x d rest : searching_from visited ((x, d) :: rest) -> x ∈ visited -> searching_from visited rest.
Proof.
  intros [H1 H2 H3 H4 H5] Hx. apply StronglySorted_inv in H2 as [H2 Hall]. rewrite Forall_forall in Hall. constructor.
  - intros y e Hy. apply H1. by right.
  - done.
  - intros y e rest' z f -> Hz. pose proof (H3 x d _ z f eq_refl ltac:(by right)). pose proof (Hall (y, e) ltac:(by left)). cbn in *. lia.
  - intros y Hy. destruct (H4 y Hy) as (Ht & e & He & Hw). split; [done|]. exists e. split; [done|].
    intros w Hyw. destruct (Hw w Hyw) as [|[[= -> ->]|Hin]%elem_of_cons]; [by left|by left|by right].
  - destruct H5 as [|[= -> -> ->]]; by left.
Qed.

Lemma search_take visited x d rest new :
  searching_from visited ((x, d) :: rest) -> x ∉ visited -> adds x d ({[x]} ∪ visited) boards new ->
  searching_from ({[x]} ∪ visited) (rest ++ new).
Proof.
  intros Hs Hx (N1 & N2 & N3 & _). pose proof Hs as [H1 H2 H3 H4 H5].
  assert (distance edge source x d) as Hd.
  { split; [apply H1; by left|]. intros k Hk. by eapply head_least. }
  apply StronglySorted_inv in H2 as [H2 Hall]. rewrite Forall_forall in Hall.
  assert (forall y e, (y, e) ∈ rest -> (d <= e <= S d)%nat) as Hrest.
  { intros y e Hy. split; [apply (Hall _ Hy)|]. apply (H3 x d rest y e eq_refl). by right. }
  constructor.
  - intros y e [Hy|Hy]%elem_of_app; [apply H1; by right|]. destruct (N1 y e Hy) as [-> He]. eapply walk_step; [apply Hd|done].
  - assert (forall l, (forall y e, (y, e) ∈ l -> e = S d) -> StronglySorted (fun a b : bytes * nat => (snd a <= snd b)%nat) l) as Hflat.
    { induction l as [|[y e] l IH]; intros Hl; constructor; [apply IH; intros z f Hz; apply (Hl z f); by right|].
      apply Forall_forall. intros [z f] Hz. cbn. rewrite (Hl y e) by (by left). rewrite (Hl z f) by (by right). done. }
    assert (forall l, StronglySorted (fun a b : bytes * nat => (snd a <= snd b)%nat) l -> (forall y e, (y, e) ∈ l -> (e <= S d)%nat) ->
      StronglySorted (fun a b : bytes * nat => (snd a <= snd b)%nat) (l ++ new)) as Happ.
    { induction 1 as [|[y e] l Hl IH Hle]; intros Hb; [apply Hflat; intros y e Hy; by apply (N1 y e)|]. cbn. constructor.
      - apply IH. intros z f Hz. apply (Hb z f). by right.
      - apply Forall_app. split; [done|]. apply Forall_forall. intros [z f] Hz. cbn. destruct (N1 z f Hz) as [-> _]. apply (Hb y e). by left. }
    apply Happ; [done|]. intros y e Hy. by apply (Hrest y e).
  - intros y e rest' z f E Hz.
    assert ((d <= e)%nat) as Hde.
    { assert ((y, e) ∈ rest ++ new) as [Hy|Hy]%elem_of_app by (rewrite E; by left); [by apply (Hrest y e)|]. destruct (N1 y e Hy). lia. }
    apply elem_of_app in Hz as [Hz|Hz]; [pose proof (Hrest z f Hz); lia|]. destruct (N1 z f Hz). lia.
  - intros y [->%elem_of_singleton|Hy]%elem_of_union.
    + split; [intros (b & Hb & Hn & Ht); by rewrite N3 in Ht|]. exists d. split; [done|]. intros w Hw.
      destruct (decide (w ∈ ({[x]} ∪ visited : gset bytes))); [by left|right]. apply elem_of_app. right. by apply N2.
    + destruct (H4 y Hy) as (Ht & e & He & Hw). split; [done|]. exists e. split; [done|]. intros w Hyw.
      destruct (Hw w Hyw) as [Hv|[[= -> ->]|Hin]%elem_of_cons]; [left; set_solver|left; set_solver|right; apply elem_of_app; by left].
  - left. destruct H5 as [|[= -> -> ->]]; set_solver.
Qed.

(** Nearest target: its distance, if one can be reached. *)
Definition nearest_target (r : option nat) : Prop :=
  match r with
  | Some d => exists t, target_name t /\ distance edge source t d /\ forall t' k, target_name t' -> walk edge k source t' -> (d <= k)%nat
  | None => forall t k, target_name t -> ~ walk edge k source t
  end.

Lemma search_loop_sound fuel : forall visited pending r,
  searching_from visited pending -> search_loop is_target boards fuel visited pending = Some r -> nearest_target r.
Proof.
  induction fuel as [|fuel IH]; intros visited pending r Hs; [done|]. cbn [search_loop]. destruct pending as [|[x d] rest].
  - intros [= <-] t k Ht Hw. destruct (decide (t ∈ visited)) as [Hin|Hout]; [by apply (sf_taken _ _ Hs t Hin)|].
    destruct (way_out _ _ k t Hs Hw Hout) as (w & e & []%not_elem_of_nil & _).
  - destruct (decide (x ∈ visited)) as [Hx|Hx]; [rewrite bool_decide_eq_true_2 by done|rewrite bool_decide_eq_false_2 by done].
    { apply IH. by eapply search_skip. }
    pose proof (scan_boards_spec x d ({[x]} ∪ visited) boards rest ltac:(set_solver)) as Hscan.
    destruct (scan_boards _ _ _ _ _ _) as [p|].
    + destruct Hscan as (new & -> & Hnew). apply IH. by eapply search_take.
    + intros [= <-]. destruct Hscan as (b & Hb & Hn & Ht). exists x. split; [by exists b|].
      assert (forall k y, walk edge k source y -> y ∉ visited -> (d <= k)%nat) as Hleast by (intros k y; by eapply head_least).
      split; [split; [apply (sf_walk _ _ Hs); by left|intros k Hk; by eapply Hleast]|].
      intros t' k Ht' Hk. apply (Hleast k t' Hk). intros Hin. by destruct (sf_taken _ _ Hs t' Hin).
Qed.

(** *** The fuel is enough *)

Definition names_of : gset bytes := {[source]} ∪ list_to_set (mjoin (map (fun b => sender_id b :: connections b) boards)).

Lemma size_one_more (x : bytes) (X : gset bytes) : (size ({[x]} ∪ X) <= S (size X))%nat.
Proof. rewrite size_union_alt, size_singleton. apply le_n_S, subseteq_size. set_solver. Qed.

Lemma size_of_list (l : list bytes) : (size (list_to_set l : gset bytes) <= length l)%nat.
Proof.
  induction l as [|x l IH]; cbn [list_to_set length]; [by rewrite size_empty|]. etrans; [apply size_one_more|]. by apply le_n_S.
Qed.

Lemma names_size : (size names_of <= S (edge_count boards))%nat.
Proof.
  unfold names_of. etrans; [apply size_one_more|]. apply le_n_S. etrans; [apply size_of_list|].
  induction boards as [|b l IH]; [done|]. set (f := fun b => sender_id b :: connections b) in *.
  change (mjoin (map f (b :: l))) with (f b ++ mjoin (map f l)). change (edge_count (b :: l)) with (S (length (connections b)) + edge_count l)%nat.
  rewrite length_app. unfold f at 1. cbn [length]. lia.
Qed.

Lemma linked_names x w : linked boards x w -> w ∈ names_of.
Proof.
  intros (b & Hb & H). apply elem_of_union. right. apply elem_of_list_to_set, list_elem_of_join.
  exists (sender_id b :: connections b). split; [|apply list_elem_of_fmap; by exists b].
  destruct H as [[_ Hw]|[<- _]]; [by right|by left].
Qed.

Lemma search_loop_ends fuel : forall visited pending,
  (forall x d, (x, d) ∈ pending -> x ∈ names_of) ->
  (length pending + edge_count boards * size (names_of ∖ visited) < fuel)%nat ->
  exists r, search_loop is_target boards fuel visited pending = Some r.
Proof.
  induction fuel as [|fuel IH]; intros visited pending Hp Hf; [lia|]. cbn [search_loop]. destruct pending as [|[x d] rest]; [by eexists|].
  assert (forall y e, (y, e) ∈ rest -> y ∈ names_of) as Hrest by (intros y e Hy; apply (Hp y e); by right).
  case_bool_decide as Hx; [apply IH; [done|cbn [length] in Hf; lia]|].
  pose proof (scan_boards_spec x d ({[x]} ∪ visited) boards rest ltac:(set_solver)) as Hscan.
  destruct (scan_boards _ _ _ _ _ _) as [p|]; [|by eexists]. destruct Hscan as (new & -> & N1 & _ & _ & N4). apply IH.
  - intros y e [Hy|Hy]%elem_of_app; [by apply (Hrest y e)|]. destruct (N1 y e Hy) as [_ Hl]. by eapply linked_names.
  - assert (x ∈ names_of ∖ visited) as Hin by (apply elem_of_difference; split; [apply (Hp x d); by left|done]).
    assert (size (names_of ∖ visited) = S (size (names_of ∖ ({[x]} ∪ visited)))) as Hsz.
    { rewrite (union_difference_singleton_L x (names_of ∖ visited) Hin), size_union by set_solver. rewrite size_singleton. do 2 f_equal. set_solver. }
    rewrite Hsz in Hf. cbn [length] in Hf. rewrite length_app. lia.
Qed.

Lemma search_correct : nearest_target (hop_search is_target boards source).
Proof.
  unfold hop_search. destruct (search_loop_ends (search_fuel boards) ∅ [(source, O)]) as [r Hr].
  - intros x d [= -> ->]%list_elem_of_singleton. apply elem_of_union. left. by apply elem_of_singleton.
  - pose proof names_size as Hn. assert (size (names_of ∖ ∅) <= S (edge_count boards))%nat as Hle by (etrans; [apply subseteq_size|exact Hn]; set_solver).
    pose proof (Nat.mul_le_mono_l _ _ (edge_count boards) Hle). unfold search_fuel. cbn [length]. lia.
  - rewrite Hr. apply (search_loop_sound _ _ _ _) in Hr; [done|]. constructor.
    + intros x d [= -> ->]%list_elem_of_singleton. constructor.
    + repeat constructor.
    + intros x d rest y e [= -> -> <-] [= -> ->]%list_elem_of_singleton. lia.
    + intros x Hx. by apply elem_of_empty in Hx.
    + by right.
Qed.
End SearchFacts.

(** ** What a plan may choose *)

(** The turn of the source has moved, perhaps. *)
Definition turned (src : option Z) (r r' : Routes) : Prop := r' = r \/ exists n, r' = set_cursor src n r.

Lemma turned_trans src r1 r2 r3 : turned src r1 r2 -> turned src r2 r3 -> turned src r1 r3.
Proof.
  intros [->|[n ->]] [->|[m ->]]; [by left|right; by exists m|right; by exists n|]. right. exists m. unfold set_cursor. cbn. by rewrite insert_insert_eq.
Qed.

Lemma turned_spent src r r' : r' = r \/ r' = spend_cursor src r -> turned src r r'.
Proof. intros [->| ->]; [by left|right; by eexists]. Qed.

(** Sides that satisfy [P], each once. *)
Definition chosen_from (P : Z -> Prop) (src : option Z) (r : Routes) (plan : list Z * Routes) : Prop :=
  NoDup (fst plan) /\ Forall P (fst plan) /\ turned src r (snd plan).

Lemma chosen_nothing P src r : chosen_from P src r ([], r).
Proof. split_and!; [constructor|constructor|by left]. Qed.

Lemma selection_chosen P now_ms src sides origin r :
  NoDup sides -> Forall P sides -> chosen_from P src r (apply_route_selection now_ms src sides origin r).
Proof.
  intros Hnd HP. pose proof (selection_sub now_ms src sides origin r Hnd) as H. destruct (apply_route_selection _ _ _ _ _) as [out r'].
  destruct H as (H1 & H2 & H3). split; [done|]. split; [|by apply turned_spent]. rewrite Forall_forall in *. auto.
Qed.

Lemma list_filter_sub {A} (f : A -> bool) l : NoDup l -> NoDup (List.filter f l).
Proof. intros H. apply NoDup_ListNoDup in H. apply NoDup_ListNoDup. by apply List.NoDup_filter. Qed.

Lemma list_filter_forall {A} (P : A -> Prop) (f : A -> bool) l : Forall P l -> Forall P (List.filter f l).
Proof. rewrite !Forall_forall. intros H x Hx. apply list_elem_of_In, filter_In in Hx as [Hx _]. by apply H, list_elem_of_In. Qed.

Lemma sole_cases l : sole l = l \/ sole l = [].
Proof. destruct l as [|x [|y l]]; [by left|by left|by right]. Qed.

(** Candidates whose sides are distinct and satisfy [P]. *)
Definition sound (P : Z -> Prop) (m : list DiscoveryCandidateMatch) : Prop := NoDup (map cm_side m) /\ Forall P (map cm_side m).

Lemma sound_filter P f m : sound P m -> sound P (List.filter f m).
Proof.
  intros [H1 H2]. split.
  - induction m as [|x m IH]; cbn in *; [done|]. apply NoDup_cons in H1 as [Hx H1]. apply Forall_cons in H2 as [_ H2].
    destruct (f x); [|by apply IH]. apply NoDup_cons. split; [|by apply IH]. intros (y & E & Hy)%list_elem_of_fmap.
    apply Hx, list_elem_of_fmap. exists y. split; [done|]. by apply list_elem_of_In, filter_In in Hy as [Hy%list_elem_of_In _].
  - induction m as [|x m IH]; cbn in *; [done|]. apply NoDup_cons in H1 as [_ H1]. apply Forall_cons in H2 as [H2 H3]. destruct (f x); [constructor; auto|auto].
Qed.

Section PlanFacts.
Context `{WE : WireEnv} (book : gmap Z bytes) (adm : Admission) (c : RouterConfig) (v : View) (now_ms : Z).

Abbreviation retain := (retain_shortest_discovery_candidates v now_ms).

Lemma retain_sound P eps targets m : sound P m -> sound P (retain eps targets m).
Proof.
  intros H. unfold retain_shortest_discovery_candidates. destruct (_ || _); [done|]. destruct (is_empty _); [done|]. by apply sound_filter.
Qed.

Lemma satisfied_sub data sides ty :
  filter_end_to_end_satisfied_sides book adm c v now_ms data sides ty = sides \/
  exists f, filter_end_to_end_satisfied_sides book adm c v now_ms data sides ty = List.filter f sides.
Proof.
  unfold filter_end_to_end_satisfied_sides. destruct (_ || _); [by left|]. destruct (match data with IPacket p => _ | IPacked b => _ end); [|by left].
  destruct (forwarded_receipts v ≫= _); [right; by eexists|by left].
Qed.

Lemma satisfied_nodup data sides ty : NoDup sides -> NoDup (filter_end_to_end_satisfied_sides book adm c v now_ms data sides ty).
Proof. intros H. destruct (satisfied_sub data sides ty) as [->|[f ->]]; [done|by apply list_filter_sub]. Qed.
Lemma satisfied_forall P data sides ty : Forall P sides -> Forall P (filter_end_to_end_satisfied_sides book adm c v now_ms data sides ty).
Proof. intros H. destruct (satisfied_sub data sides ty) as [->|[f ->]]; [done|by apply list_filter_forall]. Qed.

Lemma select_sides_chosen P sel exclude data ty sides origin :
  NoDup sides -> Forall P sides -> chosen_from P exclude (routes v) (select_sides book adm c v now_ms sel exclude data ty sides origin).
Proof.
  intros H1 H2. unfold select_sides. pose proof (satisfied_nodup data sides ty H1). pose proof (satisfied_forall P data sides ty H2).
  destruct sel; [by apply selection_chosen|]. by split_and!; [..|left].
Qed.

Lemma timesync_nodup ty sides : NoDup sides -> NoDup (filter_timesync_sides v ty now_ms sides).
Proof. apply list_filter_sub. Qed.
Lemma timesync_forall P ty sides : Forall P sides -> Forall P (filter_timesync_sides v ty now_ms sides).
Proof. apply list_filter_forall. Qed.

(** The sides that may be used: the policy allows them, and the endpoints if they are
    for links only. *)
Definition usable (exclude : option Z) (ty : DataType) (restrict : bool) (d : Z) : Prop :=
  route_allowed (routes v) exclude (Some ty) d = true /\
  (restrict = true -> exists o, side_options (routes v) d = Some o /\ link_local_enabled o = true).

Lemma eligible_usable exclude ty restrict :
  NoDup (eligible_side_ids (routes v) exclude (Some ty) restrict) /\ Forall (usable exclude ty restrict) (eligible_side_ids (routes v) exclude (Some ty) restrict).
Proof. destruct (eligible_spec (routes v) exclude (Some ty) restrict) as [H1 H2]. split; [done|]. apply Forall_forall. intros d. apply H2. Qed.

Lemma verdict_usable exclude ty targets restrict owner scoring source e :
  route_verdict v now_ms exclude ty targets restrict owner scoring source e <> Skip -> usable exclude ty restrict (fst e).
Proof.
  destruct e as [side route]. unfold route_verdict. destruct (_ || _); [done|]. cbn [fst].
  destruct (restrict && _) eqn:El; [done|]. destruct (route_allowed _ _ _ _) eqn:Ea; [|done]. intros _. split; [done|].
  intros ->. cbn in El. destruct (side_options (routes v) side) as [o|]; [|done]. exists o. split; [done|]. by destruct (link_local_enabled o).
Qed.

Lemma entries_keys {A} (m : gmap Z A) : NoDup (map fst (entries m)).
Proof. change (NoDup (fst <$> entries m)). rewrite entries_perm. apply NoDup_fst_map_to_list. Qed.

Lemma candidates_sound exclude ty eps targets prefer source :
  sound (usable exclude ty (endpoints_are_link_local_only eps)) (discovered_route_candidates c v now_ms exclude ty eps targets prefer source).
Proof.
  unfold discovered_route_candidates. set (verdict := route_verdict _ _ _ _ _ _ _ _ _). set (P := usable _ _ _).
  assert (forall e, verdict e <> Skip -> P (fst e)) as HP by (intros e; apply verdict_usable).
  set (fallbacks := omap _ (entries (discovery_routes v))). set (out := omap _ (entries (discovery_routes v))).
  assert (sound P out) as Hout.
  { pose proof (entries_keys (discovery_routes v)) as Hk. unfold sound. split.
    - subst out. induction (entries (discovery_routes v)) as [|e l IH]; [constructor|]. cbn in Hk. apply NoDup_cons in Hk as [He Hk]. cbn [omap list_omap].
      destruct (verdict e); try by apply IH. cbn [map cm_side]. apply NoDup_cons. split; [|by apply IH].
      intros (m & E & Hm)%list_elem_of_fmap. apply list_elem_of_omap in Hm as (e' & He' & Em). destruct (verdict e'); try done. injection Em as <-. cbn in E.
      apply He. rewrite E. apply list_elem_of_fmap. by exists e'.
    - apply Forall_forall. intros s (m & -> & Hm)%list_elem_of_fmap. apply list_elem_of_omap in Hm as (e & He & Em).
      specialize (HP e). destruct (verdict e); try done. injection Em as <-. by apply HP. }
  assert (forall s, s ∈ fallbacks -> P s) as Hf.
  { intros s (e & He & Em)%list_elem_of_omap. specialize (HP e). destruct (verdict e); try done. injection Em as <-. by apply HP. }
  destruct fallbacks as [|s [|? ?]]; [done| |done]. destruct (_ && _); [|done].
  split; [apply NoDup_singleton|]. constructor; [apply Hf; by left|constructor].
Qed.

Lemma roles_chosen P exclude matches : forall eps selected r,
  sound P matches -> NoDup selected -> Forall P selected -> turned exclude (routes v) r ->
  chosen_from P exclude (routes v) (select_endpoint_role_sides v now_ms exclude eps matches selected r).
Proof.
  intros eps selected r Hm. revert selected r. induction eps as [|ep eps IH]; intros selected r Hnd HP Hr; cbn [select_endpoint_role_sides]; [by split_and!|].
  set (near := retain _ _ _). assert (sound P near) as [N1 N2] by (by apply retain_sound, sound_filter).
  destruct (existsb _ _); [by apply IH|].
  pose proof (selection_chosen P now_ms exclude (map cm_side near) Discovered r N1 N2) as Hsel.
  destruct (apply_route_selection _ _ _ _ _) as [sides r']. destruct Hsel as (S1 & S2 & S3). cbn [fst snd] in *.
  assert (NoDup (foldl (fun sel s => if one_of s sel then sel else sel ++ [s]) selected sides) /\
          Forall P (foldl (fun sel s => if one_of s sel then sel else sel ++ [s]) selected sides)) as [F1 F2].
  { clear S1. revert selected Hnd HP. induction sides as [|s sides IHs]; intros selected Hnd HP; [done|]. apply Forall_cons in S2 as [Ps S2]. cbn [foldl].
    destruct (one_of s selected) eqn:Eo; [by apply IHs|]. apply IHs; [done| |].
    - apply NoDup_app. split; [done|]. split; [|apply NoDup_singleton]. intros x Hx ->%list_elem_of_singleton.
      assert (one_of s selected = true); [|congruence]. unfold one_of. apply existsb_exists. exists s. split; [by apply list_elem_of_In|apply Z.eqb_refl].
    - apply Forall_app. split; [done|by constructor]. }
  apply IH; [done|done|]. by eapply turned_trans.
Qed.

Lemma map_filter_forall P f m : sound P m -> NoDup (map cm_side (List.filter f m)) /\ Forall P (map cm_side (List.filter f m)).
Proof. intros H. by apply sound_filter. Qed.

Lemma take_one P m : sound P m -> NoDup (map cm_side (take 1 m)) /\ Forall P (map cm_side (take 1 m)).
Proof.
  intros [_ H]. destruct m as [|x m]; [split; constructor|]. cbn. rewrite take_0. cbn. split; [apply NoDup_singleton|].
  apply Forall_cons in H as [H _]. by repeat constructor.
Qed.

Lemma discovered_chosen P data ty exclude targets prefer matches :
  sound P matches ->
  chosen_from P exclude (routes v) (select_discovered_candidate_sides book adm c v now_ms data ty exclude targets prefer matches).
Proof.
  intros Hm. unfold select_discovered_candidate_sides. cbn zeta. set (m1 := if existsb (fun m => cm_overlap m =? usize_max) matches then _ else matches).
  assert (sound P m1) as H1 by (subst m1; destruct (existsb _ _); [by apply sound_filter|done]).
  set (m2 := if prefer then _ else m1). assert (sound P m2) as [H2 H3] by (subst m2; destruct prefer; [by apply sound_filter|done]).
  set (sel := if _ && is_reliable_type we_registry ty then _ else map cm_side m2).
  assert (NoDup sel /\ Forall P sel) as [H4 H5]
    by (subst sel; destruct (_ && _); [split; [by apply satisfied_nodup|by apply satisfied_forall]|done]).
  destruct (existsb (owns_variable v ty) sel); [by split_and!; [..|left]|by apply selection_chosen].
Qed.

Lemma receipt_chosen sel exclude data ty targets id :
  chosen_from (usable exclude ty false) exclude (routes v) (plan_receipt book adm c v now_ms sel exclude data ty targets id).
Proof.
  unfold plan_receipt. destruct (eligible_usable exclude ty false) as [E1 E2].
  destruct (return_sides v !! id) as [side|]; [destruct (route_allowed (routes v) exclude (Some ty) side) eqn:Ea|].
  { destruct (_ && _); [apply chosen_nothing|]. split_and!; [apply NoDup_singleton|repeat constructor; done|by left]. }
  all: destruct (negb (is_empty _)); [apply select_sides_chosen; [by apply list_filter_sub|by apply list_filter_forall]|].
  all: destruct (_ && _); [|apply chosen_nothing].
  all: destruct (sole_cases (eligible_side_ids (routes v) exclude (Some ty) false)) as [->| ->]; [by split_and!; [..|left]|apply chosen_nothing].
Qed.

Lemma unmatched_chosen sel exclude data eps ty targets prefer :
  chosen_from (usable exclude ty (endpoints_are_link_local_only eps)) exclude (routes v)
    (plan_without_match book adm c v now_ms sel exclude data eps ty targets prefer).
Proof.
  unfold plan_without_match. destruct (eligible_usable exclude ty (endpoints_are_link_local_only eps)) as [E1 E2].
  destruct (_ && _); [destruct (_ && _); [by apply select_sides_chosen|apply chosen_nothing]|].
  destruct prefer; [apply chosen_nothing|]. destruct (has_explicit_route_policy _ _ _); [|apply chosen_nothing].
  apply select_sides_chosen; destruct sel; try done; [by apply timesync_nodup|by apply timesync_forall].
Qed.

Lemma plan_discovered_chosen sel exclude data eps ty targets source :
  chosen_from (usable exclude ty (endpoints_are_link_local_only eps)) exclude (routes v)
    (plan_discovered book adm c v now_ms sel exclude data eps ty targets source).
Proof.
  unfold plan_discovered. cbn zeta. generalize (is_reliable_type we_registry ty && ts_is_empty targets) as prefer. intros prefer. case_bool_decide.
  - destruct (eligible_usable exclude ty (endpoints_are_link_local_only eps)) as [E1 E2].
    set (l := if sel then _ else _). assert (NoDup l /\ Forall (usable exclude ty (endpoints_are_link_local_only eps)) l) as [L1 L2]
      by (subst l; destruct sel; [split; [by apply timesync_nodup|by apply timesync_forall]|done]).
    destruct (sole_cases l) as [->| ->]; [by split_and!; [..|left]|apply chosen_nothing].
  - set (m0 := discovered_route_candidates _ _ _ _ _ _ _ _ _).
    assert (sound (usable exclude ty (endpoints_are_link_local_only eps)) m0) as H0 by apply candidates_sound.
    set (m1 := if sel then _ else m0). assert (sound (usable exclude ty (endpoints_are_link_local_only eps)) m1) as H1
      by (subst m1; destruct sel; [by apply sound_filter|done]).
    destruct (_ && _).
    + destruct sel; [apply roles_chosen; [done|constructor|constructor|by left]|]. destruct (take_one _ _ H1). by split_and!; [..|left].
    + set (m2 := if existsb _ _ then m1 else _).
      assert (sound (usable exclude ty (endpoints_are_link_local_only eps)) m2) as H2 by (subst m2; destruct (existsb _ _); [done|by apply retain_sound]).
      destruct (negb _); [|apply unmatched_chosen]. destruct sel; [by apply discovered_chosen|]. destruct (take_one _ _ H2). by split_and!; [..|left].
Qed.

(** Types that discovery and time synchronisation flood, and receipts, disregard the
    restriction of link-local endpoints. *)
Definition restricted (data : RouterItem) (eps : list DataEndpoint) (ty : DataType) : bool :=
  endpoints_are_link_local_only eps && negb (is_discovery_type ty) && negb (ty =? ty_TimeSyncAnnounce)
  && match reliable_control_target_packet_id book adm data with Ok (Some _) => false | _ => true end.

Lemma usable_weaken exclude ty r1 r2 d : (r2 = true -> r1 = true) -> usable exclude ty r1 d -> usable exclude ty r2 d.
Proof. intros H [H1 H2]. split; [done|]. intros E. by apply H2, H. Qed.

Lemma chosen_weaken P Q src r plan : (forall d, P d -> Q d) -> chosen_from P src r plan -> chosen_from Q src r plan.
Proof. intros H (H1 & H2 & H3). split_and!; [done| |done]. eapply Forall_impl; [exact H2|exact H]. Qed.

Lemma plan_chosen sel data exclude plan eps ty :
  item_route_info data = Ok (eps, ty) -> remote_side_plan_with_selection book adm c v now_ms sel data exclude = Ok plan ->
  chosen_from (usable exclude ty (restricted data eps ty)) exclude (routes v) plan.
Proof.
  intros Hi. unfold remote_side_plan_with_selection. rewrite Hi, result_bind_run. cbn [fst snd]. intros H.
  apply result_bind_ok in H as (ts & _ & H). apply result_bind_ok in H as (beyond & _ & H). apply result_bind_ok in H as (receipt & Hr & H).
  destruct (eligible_usable exclude ty false) as [E1 E2]. unfold restricted. rewrite Hr.
  destruct (is_discovery_type ty).
  { injection H as <-. rewrite andb_false_r. by apply select_sides_chosen. }
  destruct (ty =? ty_TimeSyncAnnounce).
  { injection H as <-. rewrite andb_false_r. apply select_sides_chosen; destruct sel; try done; [by apply timesync_nodup|by apply timesync_forall]. }
  rewrite !andb_true_r. destruct (wanted_remotely _ _ _ _ _ _ _); cbn [negb] in H; [|injection H as <-; apply chosen_nothing].
  apply result_bind_ok in H as (src & _ & H). destruct receipt as [id|]; injection H as <-; rewrite ?andb_false_r, ?andb_true_r.
  - apply receipt_chosen.
  - apply plan_discovered_chosen.
Qed.

(** *** Queries *)

Lemma select_sides_query exclude data ty sides origin : snd (select_sides book adm c v now_ms false exclude data ty sides origin) = routes v.
Proof. done. Qed.

Lemma receipt_query exclude data ty targets id : snd (plan_receipt book adm c v now_ms false exclude data ty targets id) = routes v.
Proof.
  unfold plan_receipt. destruct (match return_sides v !! id with Some _ => _ | None => _ end); [done|].
  destruct (negb (is_empty _)); [done|]. by destruct (_ && _).
Qed.

Lemma unmatched_query exclude data eps ty targets prefer :
  snd (plan_without_match book adm c v now_ms false exclude data eps ty targets prefer) = routes v.
Proof.
  unfold plan_without_match. destruct (_ && _); [by destruct (_ && _)|]. destruct prefer; [done|]. by destruct (has_explicit_route_policy _ _ _).
Qed.

Lemma discovered_query exclude data eps ty targets source :
  snd (plan_discovered book adm c v now_ms false exclude data eps ty targets source) = routes v.
Proof.
  unfold plan_discovered. cbn zeta. generalize (is_reliable_type we_registry ty && ts_is_empty targets) as prefer. intros prefer.
  case_bool_decide; [done|]. destruct (_ && _); [done|]. destruct (negb _); [done|]. apply unmatched_query.
Qed.

Lemma plan_query data exclude plan : remote_side_plan_with_selection book adm c v now_ms false data exclude = Ok plan -> snd plan = routes v.
Proof.
  unfold remote_side_plan_with_selection. intros H.
  apply result_bind_ok in H as (info & _ & H). apply result_bind_ok in H as (ts & _ & H). apply result_bind_ok in H as (beyond & _ & H).
  apply result_bind_ok in H as (receipt & Hr & H).
  destruct (is_discovery_type _); [by injection H as <-|]. destruct (_ =? _); [by injection H as <-|]. destruct (negb _); [by injection H as <-|].
  apply result_bind_ok in H as (src & _ & H). destruct receipt; injection H as <-; [apply receipt_query|apply discovered_query].
Qed.

(** Something dispatched is something found. *)
Definition covered (dispatch query : list Z * Routes) : Prop := fst dispatch <> [] -> fst query <> [].

(** The exception: a router without discovered routes and a packet of time
    synchronisation, no announcement; of several sides that could send it all but one
    have their time synchronisation throttled, and dispatch names that one. *)
Definition overlooked (exclude : option Z) (eps : list DataEndpoint) (ty : DataType) (dispatch query : list Z * Routes) : Prop :=
  let eligible := eligible_side_ids (routes v) exclude (Some ty) (endpoints_are_link_local_only eps) in
  discovery_routes v = ∅ /\ is_timesync_type ty = true /\ ty <> ty_TimeSyncAnnounce /\ (1 < length eligible)%nat /\
  fst dispatch = filter_timesync_sides v ty now_ms eligible /\ length (fst dispatch) = 1%nat /\ fst query = [].

Lemma satisfied_filter data ty : exists f, forall sides, filter_end_to_end_satisfied_sides book adm c v now_ms data sides ty = List.filter f sides.
Proof.
  assert (forall sides : list Z, sides = List.filter (fun _ => true) sides) as Hall by (intros l; induction l as [|x l IH]; [done|cbn; by f_equal]).
  unfold filter_end_to_end_satisfied_sides. destruct (_ || _); [by exists (fun _ => true)|].
  destruct (match data with IPacket p => _ | IPacked b => _ end); [|by exists (fun _ => true)].
  destruct (forwarded_receipts v ≫= _); [by eexists|by exists (fun _ => true)].
Qed.

Lemma select_sides_covered exclude data ty sides sides' origin :
  NoDup sides -> (forall d, d ∈ sides -> d ∈ sides') ->
  covered (select_sides book adm c v now_ms true exclude data ty sides origin) (select_sides book adm c v now_ms false exclude data ty sides' origin).
Proof.
  intros Hnd Hsub. unfold covered, select_sides. destruct (satisfied_filter data ty) as [f Hf]. rewrite !Hf. cbn [fst].
  pose proof (selection_sub now_ms exclude (List.filter f sides) origin (routes v) (list_filter_sub f sides Hnd)) as Hs.
  destruct (apply_route_selection _ _ _ _ _) as [out r]. destruct Hs as (_ & Hin & _). cbn [fst]. destruct out as [|d out]; [done|]. intros _ E.
  specialize (Hin d ltac:(by left)). apply list_elem_of_In, filter_In in Hin as [Hd Hfd]. apply list_elem_of_In, Hsub in Hd.
  assert (d ∈ List.filter f sides') as Hd' by (apply list_elem_of_In, filter_In; split; [by apply list_elem_of_In|done]). rewrite E in Hd'. by apply not_elem_of_nil in Hd'.
Qed.

Lemma timesync_sub ty sides d : d ∈ filter_timesync_sides v ty now_ms sides -> d ∈ sides.
Proof. intros H%list_elem_of_In. apply filter_In in H as [H _]. by apply list_elem_of_In. Qed.

Lemma receipt_covered exclude data ty targets id :
  covered (plan_receipt book adm c v now_ms true exclude data ty targets id) (plan_receipt book adm c v now_ms false exclude data ty targets id).
Proof.
  unfold plan_receipt. destruct (match return_sides v !! id with Some _ => _ | None => _ end); [by destruct (_ && _); intros H|].
  destruct (negb (is_empty _)); [|by intros H]. apply select_sides_covered; [|done]. apply list_filter_sub. apply eligible_usable.
Qed.

Lemma unmatched_covered exclude data eps ty targets prefer :
  covered (plan_without_match book adm c v now_ms true exclude data eps ty targets prefer)
          (plan_without_match book adm c v now_ms false exclude data eps ty targets prefer).
Proof.
  unfold plan_without_match. pose proof (proj1 (eligible_usable exclude ty (endpoints_are_link_local_only eps))) as Hnd.
  destruct (_ && _); [destruct (_ && _); [by apply select_sides_covered|by intros H]|].
  destruct prefer; [by intros H|]. destruct (has_explicit_route_policy _ _ _); [|by intros H]. apply select_sides_covered; [by apply timesync_nodup|apply timesync_sub].
Qed.

Lemma nearest_sub eps m target d : d ∈ nearest v now_ms eps m target -> d ∈ map cm_side m.
Proof.
  unfold nearest. destruct (least _); [|by intros ?%not_elem_of_nil]. intros (e & -> & He)%list_elem_of_fmap.
  apply list_elem_of_In, filter_In in He as [He _]. apply list_elem_of_In, list_elem_of_omap in He as (x & Hx & E).
  destruct (route_distance _ _ _ _ _); [|done]. injection E as <-. apply list_elem_of_fmap. by exists x.
Qed.

Lemma retain_nonempty eps targets m : m <> [] -> retain eps targets m <> [].
Proof.
  intros Hm. unfold retain_shortest_discovery_candidates. destruct (_ || _); [done|]. destruct (is_empty _) eqn:E; [done|].
  destruct (mjoin _) as [|d l] eqn:Ej; [done|]. assert (d ∈ mjoin (map (nearest v now_ms eps m) (route_targets targets))) as Hd by (rewrite Ej; by left).
  apply list_elem_of_join in Hd as (l' & Hd & (t & -> & _)%list_elem_of_fmap). apply nearest_sub in Hd.
  apply list_elem_of_fmap in Hd as (x & -> & Hx). intros Hnil.
  assert (x ∈ List.filter (fun m => one_of (cm_side m) (cm_side x :: l)) m) as Hin.
  { apply list_elem_of_In, filter_In. split; [by apply list_elem_of_In|]. unfold one_of. cbn. by rewrite Z.eqb_refl. }
  rewrite Hnil in Hin. by apply not_elem_of_nil in Hin.
Qed.

Lemma discovered_covered exclude data eps ty targets source :
  ty <> ty_TimeSyncAnnounce ->
  covered (plan_discovered book adm c v now_ms true exclude data eps ty targets source)
          (plan_discovered book adm c v now_ms false exclude data eps ty targets source) \/
  overlooked exclude eps ty (plan_discovered book adm c v now_ms true exclude data eps ty targets source)
    (plan_discovered book adm c v now_ms false exclude data eps ty targets source).
Proof.
  intros Hta. unfold plan_discovered. cbn zeta. generalize (is_reliable_type we_registry ty && ts_is_empty targets) as prefer. intros prefer.
  case_bool_decide as Hempty.
  - set (el := eligible_side_ids _ _ _ _). destruct (is_timesync_type ty) eqn:Hts.
    + destruct el as [|d1 [|d2 el']] eqn:Eel.
      * left. unfold covered. cbn. done.
      * left. unfold covered. cbn [sole fst]. done.
      * destruct (filter_timesync_sides v ty now_ms (d1 :: d2 :: el')) as [|y [|z l]] eqn:Ef; [left; by intros H..| |left; by intros H].
        right. unfold overlooked. fold el. rewrite Eel, Ef. cbn. split_and!; try done. lia.
    + left. enough (forall l, filter_timesync_sides v ty now_ms l = l) as -> by (by intros H).
      intros l. unfold filter_timesync_sides. induction l as [|d l IH]; [done|]. cbn [List.filter]. unfold timesync_allowed_for_side at 1. rewrite Hts. cbn. by f_equal.
  - left. set (m0 := discovered_route_candidates _ _ _ _ _ _ _ _ _). set (m1 := List.filter _ m0).
    destruct m0 as [|x m0'] eqn:E0.
    + subst m1. cbn [List.filter existsb negb andb]. unfold roles_apart. cbn [length Nat.ltb Nat.leb]. rewrite andb_false_r, !andb_false_l.
      cbn [retain_shortest_discovery_candidates length Nat.leb orb is_empty negb]. apply unmatched_covered.
    + intros _. assert (forall m : list DiscoveryCandidateMatch, m <> [] -> map cm_side (take 1 m) <> []) as Htake by (intros [|y m] Hy; done).
      destruct (_ && _); [by apply Htake|]. set (m2 := if existsb _ (x :: m0') then _ else _).
      assert (m2 <> []) as H2 by (subst m2; destruct (existsb _ _); [done|by apply retain_nonempty]).
      destruct (is_empty m2) eqn:E2; [by destruct m2|]. by apply Htake.
Qed.

Lemma plan_covered data exclude eps ty :
  item_route_info data = Ok (eps, ty) ->
  match remote_side_plan_with_selection book adm c v now_ms true data exclude, remote_side_plan_with_selection book adm c v now_ms false data exclude with
  | Ok dispatch, Ok query => covered dispatch query \/ overlooked exclude eps ty dispatch query
  | Err e, Err e' => e = e'
  | _, _ => False
  end.
Proof.
  intros Hi. unfold remote_side_plan_with_selection. rewrite Hi, !result_bind_run. cbn [fst snd].
  destruct (item_target_senders data) as [ts|]; [rewrite !result_bind_run|done].
  destruct (item_targets_router_as_intermediate_hop c data eps) as [beyond|]; [rewrite !result_bind_run|done].
  destruct (reliable_control_target_packet_id book adm data) as [receipt|]; [rewrite !result_bind_run|done].
  pose proof (proj1 (eligible_usable exclude ty false)) as Hnd.
  destruct (is_discovery_type ty); [left; by apply select_sides_covered|].
  destruct (ty =? ty_TimeSyncAnnounce) eqn:Eta; [left; apply select_sides_covered; [by apply timesync_nodup|apply timesync_sub]|].
  destruct (negb _); [left; by intros H|]. destruct (preferred_timesync_route_source book adm c v data ty) as [src|]; [rewrite !result_bind_run|done].
  destruct receipt; [left; apply receipt_covered|apply discovered_covered; by apply Z.eqb_neq].
Qed.
End PlanFacts.

(** C22: A plan keeps to the policy.  Every side it names is there and sends, is named
    once, and is allowed for the type and the source by the rules; the side a packet
    came from is not among them unless a rule says so; endpoints of links only go to
    sides that are enabled for them.  Planning changes nothing but the turn of the
    source, and a query not even that. *)
Theorem plan_safe `{WE : WireEnv} book adm c v now_ms sel data exclude out r eps ty :
  item_route_info data = Ok (eps, ty) ->
  remote_side_plan_with_selection book adm c v now_ms sel data exclude = Ok (out, r) ->
  NoDup out /\
  (forall d, d ∈ out ->
    route_allowed (routes v) exclude (Some ty) d = true /\
    (exists o, side_options (routes v) d = Some o /\ egress_enabled o = true /\ (restricted book adm data eps ty = true -> link_local_enabled o = true)) /\
    (exclude <> Some d \/ route_overrides (routes v) !! (exclude, d) = Some true)) /\
  turned exclude (routes v) r /\ (sel = false -> r = routes v).
Proof.
  intros Hi Hp. destruct (plan_chosen book adm c v now_ms sel data exclude _ eps ty Hi Hp) as (H1 & H2 & H3). cbn [fst snd] in *.
  split; [done|]. split; [|split; [done|intros ->; exact (plan_query book adm c v now_ms data exclude _ Hp)]]. intros d Hd. rewrite Forall_forall in H2. destruct (H2 d Hd) as [Ha Hl].
  destruct (route_allowed_spec _ _ _ _ Ha) as ((o & Ho & He) & Hs & _). split; [done|]. split; [|done].
  exists o. split; [done|]. split; [done|]. intros E. destruct (Hl E) as (o' & Ho' & Hll). congruence.
Qed.

(** C24: Reachability answers as dispatch does, with one exception.  Whether a packet
    would be routed is asked without choosing a route; when a dispatch in the same state
    names a side the answer is yes, and both fail alike.  The exception is a packet of
    time synchronisation, no announcement, at a router that has discovered no route,
    with several sides that could send it of which the throttling of time
    synchronisation leaves one: dispatch names that one and the answer is no. *)
Theorem query_covers_dispatch `{WE : WireEnv} book adm c v now_ms data exclude eps ty :
  item_route_info data = Ok (eps, ty) ->
  match remote_side_plan book adm c v now_ms data exclude with
  | Ok (out, _) => exists b, should_route_remote book adm c v now_ms data exclude = Ok b /\
      (out <> [] -> b = true \/
         let eligible := eligible_side_ids (routes v) exclude (Some ty) (endpoints_are_link_local_only eps) in
         b = false /\ discovery_routes v = ∅ /\ is_timesync_type ty = true /\ ty <> ty_TimeSyncAnnounce /\
         (1 < length eligible)%nat /\ out = filter_timesync_sides v ty now_ms eligible /\ length out = 1%nat)
  | Err e => should_route_remote book adm c v now_ms data exclude = Err e
  end.
Proof.
  intros Hi. pose proof (plan_covered book adm c v now_ms data exclude eps ty Hi) as H. unfold remote_side_plan, should_route_remote.
  destruct (remote_side_plan_with_selection _ _ _ _ _ true _ _) as [[out r]|e], (remote_side_plan_with_selection _ _ _ _ _ false _ _) as [[out' r']|e'];
    try done; [|by subst].
  rewrite result_bind_run. eexists. split; [done|]. intros Hne. cbn in H |- *. destruct H as [H|(H1 & H2 & H3 & H4 & H5 & H6 & H7)].
  - left. specialize (H Hne). by destruct out'.
  - right. cbn in H5, H6, H7. by rewrite H7.
Qed.

(** ** The shortest way *)

Lemma foldl_min l : forall x, (foldl Z.min x l = x \/ foldl Z.min x l ∈ l) /\ foldl Z.min x l <= x /\ forall y, y ∈ l -> foldl Z.min x l <= y.
Proof.
  induction l as [|z l IH]; intros x; cbn [foldl]; [split_and!; [by left|done|by intros ? ?%not_elem_of_nil]|].
  destruct (IH (Z.min x z)) as (H1 & H2 & H3). split_and!.
  - destruct H1 as [->|H1]; [|right; by right]. destruct (Z.min_spec x z) as [[_ ->]|[_ ->]]; [by left|right; by left].
  - lia.
  - intros y [->|Hy]%elem_of_cons; [lia|by apply H3].
Qed.

Lemma least_spec l : match least l with Some x => x ∈ l /\ forall y, y ∈ l -> x <= y | None => l = [] end.
Proof.
  destruct l as [|x l]; [done|]. cbn [least]. destruct (foldl_min l x) as (H1 & H2 & H3). split.
  - destruct H1 as [->|H1]; [by left|by right].
  - intros y [->|Hy]%elem_of_cons; [done|by apply H3].
Qed.

(** How far the announcer [a] is from a target: hops in its snapshot, or far away if
    the snapshot does not show a target and the announcer reaches the endpoints. *)
Definition announced_way (eps : list DataEndpoint) (target : option Z) (a : bytes * DiscoverySenderState) (d : Z) : Prop :=
  ((exists b, b ∈ topology_boards (snd a) /\ target_board eps target b = true) /\
   exists n t, d = Z.of_nat n /\ target_name (target_board eps target) (topology_boards (snd a)) t /\
     distance (linked (topology_boards (snd a))) (fst a) t n /\
     forall t' k, target_name (target_board eps target) (topology_boards (snd a)) t' -> walk (linked (topology_boards (snd a))) k (fst a) t' -> (n <= k)%nat)
  \/ ((forall b, b ∈ topology_boards (snd a) -> target_board eps target b = false) /\ target = None /\ d = far_away /\
      exists ep, ep ∈ sender_reachable (snd a) /\ ep ∈ eps).

(** The least over the announcers of a side that were heard lately. *)
Definition shortest_way (v : View) (now_ms : Z) (eps : list DataEndpoint) (target : option Z) (side d : Z) : Prop :=
  exists route, discovery_routes v !! side = Some route /\
    let way d := exists a, a ∈ announcers route /\ route_fresh now_ms (sender_seen_ms (snd a)) = true /\ announced_way eps target a d in
    way d /\ forall d', way d' -> d <= d'.

Lemma one_of_spec x l : one_of x l = true <-> x ∈ l.
Proof.
  unfold one_of. rewrite existsb_exists. split; [intros (y & Hy & ->%Z.eqb_eq); by apply list_elem_of_In|].
  intros H. exists x. split; [by apply list_elem_of_In|apply Z.eqb_refl].
Qed.

Lemma existsb_elem {A} (f : A -> bool) l : existsb f l = true <-> exists x, x ∈ l /\ f x = true.
Proof. rewrite existsb_exists. split; intros (x & Hx & H); exists x; (split; [by apply list_elem_of_In|done]). Qed.

Lemma announcer_distance_spec eps target a d : announcer_distance eps target a = Some d <-> announced_way eps target a d.
Proof.
  unfold announcer_distance, announced_way. set (boards := topology_boards (snd a)). set (tb := target_board eps target).
  destruct (existsb tb boards) eqn:Ex; cbn [negb].
  - apply existsb_elem in Ex as Hex. pose proof (search_correct tb boards (fst a)) as Hs. destruct (hop_search tb boards (fst a)) as [n|]; cbn.
    + destruct Hs as (t & Ht & Hd & Hmin). split.
      * intros [= <-]. left. split; [done|]. exists n, t. by split_and!.
      * intros [[_ (n' & t' & -> & Ht' & Hd' & Hmin')]|(Hno & _)].
        -- do 2 f_equal. pose proof (Hmin t' n' Ht' (proj1 Hd')). pose proof (Hmin' t n Ht (proj1 Hd)). lia.
        -- destruct Hex as (b & Hb & Hbt). by rewrite Hno in Hbt.
    + split; [done|]. intros [[_ (n' & t' & -> & Ht' & Hd' & _)]|(Hno & _)]; [by destruct (Hs t' n' Ht'); apply Hd'|].
      destruct Hex as (b & Hb & Hbt). by rewrite Hno in Hbt.
  - assert (forall b, b ∈ boards -> tb b = false) as Hno.
    { intros b Hb. apply not_true_iff_false. intros Hbt. apply not_true_iff_false in Ex. apply Ex, existsb_elem. by exists b. }
    assert (forall P : Prop, (exists b, b ∈ boards /\ tb b = true) /\ P -> False) as Habs by (intros P [(b & Hb & Hbt) _]; by rewrite Hno in Hbt).
    destruct target as [t|].
    + change (existsb (fun b => sender_hash (sender_id b) =? t) boards) with (existsb tb boards). rewrite Ex.
      split; [done|]. intros [H%Habs|(_ & H & _)]; done.
    + destruct (existsb _ (sender_reachable (snd a))) eqn:Er.
      * apply existsb_elem in Er as (ep & Hep & Hin%one_of_spec). split.
        -- intros [= <-]. right. split_and!; [done|done|done|by exists ep].
        -- intros [H%Habs|(_ & _ & -> & _)]; done.
      * split; [done|]. intros [H%Habs|(_ & _ & _ & ep & Hep & Hin)]; [done|]. apply not_true_iff_false in Er. destruct Er.
        apply existsb_elem. exists ep. split; [done|]. by apply one_of_spec.
Qed.

Lemma route_distance_spec v now_ms eps side target d : route_distance v now_ms eps side target = Some d <-> shortest_way v now_ms eps target side d.
Proof.
  unfold route_distance, shortest_way. destruct (discovery_routes v !! side) as [route|]; cbn [mbind option_bind]; [|split; [done|by intros (? & ? & _)]].
  set (l := omap _ _). assert (forall x, x ∈ l <-> exists a, a ∈ announcers route /\ route_fresh now_ms (sender_seen_ms (snd a)) = true /\ announced_way eps target a x) as Hl.
  { intros x. unfold l. rewrite list_elem_of_omap. split.
    - intros (a & [Ha Hf]%list_elem_of_In%filter_In & E%announcer_distance_spec). exists a. split; [by apply list_elem_of_In|done].
    - intros (a & Ha & Hf & E%announcer_distance_spec). exists a. split; [|done]. apply list_elem_of_In, filter_In. split; [by apply list_elem_of_In|done]. }
  pose proof (least_spec l) as Hm. split.
  - intros E. rewrite E in Hm. destruct Hm as [H1 H2]. exists route. split; [done|]. split; [by apply Hl|]. intros d' Hd'. by apply H2, Hl.
  - intros (route' & [= <-] & H1 & H2). apply Hl in H1. destruct (least l) as [x|]; [|rewrite Hm in H1; by apply not_elem_of_nil in H1].
    destruct Hm as [H3 H4]. f_equal. apply Z.le_antisymm; [by apply H4|]. by apply H2, Hl.
Qed.

Lemma nearest_spec v now_ms eps m target s :
  s ∈ nearest v now_ms eps m target <->
  exists x d, x ∈ m /\ cm_side x = s /\ shortest_way v now_ms eps target s d /\
    forall y e, y ∈ m -> shortest_way v now_ms eps target (cm_side y) e -> d <= e.
Proof.
  unfold nearest. set (l := omap _ m).
  assert (forall s d, (s, d) ∈ l <-> exists x, x ∈ m /\ cm_side x = s /\ shortest_way v now_ms eps target s d) as Hl.
  { intros s' d. unfold l. rewrite list_elem_of_omap. split.
    - intros (x & Hx & E). destruct (route_distance v now_ms eps (cm_side x) target) as [d'|] eqn:Ed; [|done]. injection E as <- <-.
      exists x. split; [done|]. split; [done|]. by apply route_distance_spec.
    - intros (x & Hx & <- & E%route_distance_spec). exists x. split; [done|]. by rewrite E. }
  pose proof (least_spec (map snd l)) as Hm. destruct (least (map snd l)) as [best|].
  - destruct Hm as [(e & -> & He)%list_elem_of_fmap Hmin]. rewrite list_elem_of_fmap. split.
    + intros ([s' d] & -> & [Hin Hd]%list_elem_of_In%filter_In). apply list_elem_of_In in Hin. cbn in Hd. apply Z.eqb_eq in Hd as ->.
      apply Hl in Hin as (x & Hx & Hsx & Hw). exists x, (snd e). split_and!; try done. intros y f Hy Hf. apply Hmin. apply list_elem_of_fmap.
      exists (cm_side y, f). split; [done|]. apply Hl. by exists y.
    + intros (x & d & Hx & <- & Hw & Hd). exists (cm_side x, d). split; [done|]. apply list_elem_of_In, filter_In.
      assert ((cm_side x, d) ∈ l) as Hin by (apply Hl; by exists x). split; [by apply list_elem_of_In|]. apply Z.eqb_eq. cbn. apply Z.le_antisymm.
      * destruct e as [se de]. apply Hl in He as (y & Hy & <- & Hwy). exact (Hd y de Hy Hwy).
      * apply Hmin. apply list_elem_of_fmap. by exists (cm_side x, d).
  - split; [by intros ?%not_elem_of_nil|]. intros (x & d & Hx & <- & Hw & _). assert ((cm_side x, d) ∈ l) as Hin by (apply Hl; by exists x).
    apply (list_elem_of_fmap_2 snd) in Hin. change (snd <$> l) with (map snd l) in Hin. rewrite Hm in Hin. by apply not_elem_of_nil in Hin.
Qed.

Lemma nearest_exists v now_ms eps m target y d :
  y ∈ m -> shortest_way v now_ms eps target (cm_side y) d -> nearest v now_ms eps m target <> [].
Proof.
  intros Hy Hw%route_distance_spec. unfold nearest. set (l := omap _ m).
  assert ((cm_side y, d) ∈ l) as Hin by (apply list_elem_of_omap; exists y; split; [done|by rewrite Hw]).
  pose proof (least_spec (map snd l)) as Hm. destruct (least (map snd l)) as [best|].
  - destruct Hm as [(e & -> & He)%list_elem_of_fmap _]. intros E.
    assert (fst e ∈ map fst (List.filter (fun x => snd x =? snd e) l)) as Hf.
    { apply list_elem_of_fmap. exists e. split; [done|]. apply list_elem_of_In, filter_In. split; [by apply list_elem_of_In|apply Z.eqb_refl]. }
    rewrite E in Hf. by apply not_elem_of_nil in Hf.
  - apply (list_elem_of_fmap_2 snd) in Hin. change (snd <$> l) with (map snd l) in Hin. rewrite Hm in Hin. by apply not_elem_of_nil in Hin.
Qed.

Lemma list_filter_sublist {A} (f : A -> bool) l : List.filter f l `sublist_of` l.
Proof. induction l as [|x l IH]; cbn; [done|]. destruct (f x); by constructor. Qed.

(** C23: Only the shortest ways are kept.  Of several candidates those stay that are
    nearest to one of the packet's targets - the boards it names, or whatever board has
    its endpoints - where nearness is the number of hops in the graph an announcer of
    the side described, least over the announcers heard lately.  If no candidate has a
    way to any target all of them stay, so a packet that had a route keeps one. *)
Theorem shortest_ways_kept v now_ms eps targets m :
  (1 < length m)%nat -> eps <> [] ->
  let kept := retain_shortest_discovery_candidates v now_ms eps targets m in
  let nearest_to t x := exists d, shortest_way v now_ms eps t (cm_side x) d /\
    forall y e, y ∈ m -> shortest_way v now_ms eps t (cm_side y) e -> d <= e in
  kept <> [] /\ kept `sublist_of` m /\
  forall x, x ∈ kept <-> x ∈ m /\
    ((exists t, t ∈ route_targets targets /\ nearest_to t x) \/
     forall t y d, t ∈ route_targets targets -> y ∈ m -> ~ shortest_way v now_ms eps t (cm_side y) d).
Proof.
  intros Hlen Heps kept nearest_to. subst kept nearest_to. assert (m <> []) as Hm by (intros ->; cbn in Hlen; lia).
  split; [by apply retain_nonempty|]. unfold retain_shortest_discovery_candidates.
  rewrite (proj2 (Nat.leb_gt _ _)) by lia. destruct eps as [|ep eps]; [done|]. cbn [is_empty orb]. set (es := ep :: eps).
  set (sel := mjoin _). assert (forall s, s ∈ sel <-> exists t, t ∈ route_targets targets /\ s ∈ nearest v now_ms es m t) as Hsel.
  { intros s. unfold sel. rewrite list_elem_of_join. split.
    - intros (l & Hs & (t & -> & Ht)%list_elem_of_fmap). by exists t.
    - intros (t & Ht & Hs). exists (nearest v now_ms es m t). split; [done|]. apply list_elem_of_fmap. by exists t. }
  destruct (is_empty sel) eqn:E.
  - split; [done|]. intros x. split; [|by intros []]. intros Hx. split; [done|]. right. intros t y d Ht Hy Hw.
    destruct (nearest v now_ms es m t) as [|s l] eqn:En; [by eapply nearest_exists|]. assert (s ∈ sel) as Hs by (apply Hsel; exists t; split; [done|]; rewrite En; by left).
    clearbody sel. destruct sel; [by apply not_elem_of_nil in Hs|done].
  - split; [apply list_filter_sublist|]. intros x. rewrite list_elem_of_In, filter_In, <- list_elem_of_In, one_of_spec, Hsel. split.
    + intros [Hx (t & Ht & (y & d & Hy & Es & Hw & Hd)%nearest_spec)]. split; [done|]. left. exists t. split; [done|]. exists d. by split.
    + intros [Hx [(t & Ht & d & Hw & Hd)|Hno]]; (split; [done|]).
      * exists t. split; [done|]. apply nearest_spec. by exists x, d.
      * destruct sel as [|s l]; [done|]. destruct (proj1 (Hsel s)) as (t & Ht & (y & d & Hy & Es & Hw & _)%nearest_spec); [by left|]. rewrite <- Es in Hw.
        by destruct (Hno t y d Ht Hy).
Qed.

(** ** A router between two ways *)

Definition board (name : string) (eps : list DataEndpoint) (peers : list string) : TopologyBoardNode :=
  {| sender_id := str name; reachable_endpoints := eps; Topology.reachable_timesync_sources := []; connections := map str peers |}.
Definition announcer (name : string) (eps : list DataEndpoint) (l : list TopologyBoardNode) : bytes * DiscoverySenderState :=
  (str name, {| advertised_address := None; sender_reachable := eps; topology_boards := l; sender_seen_ms := 900;
              sender_variables := []; has_hop_local_evidence := false; last_hop_local_ms := 0 |}).
Definition route_by (a : list (bytes * DiscoverySenderState)) : DiscoverySideState :=
  {| side_reachable := [3]; reachable_network_variables := []; side_timesync_sources := []; side_seen_ms := 900; announcers := a |}.

(** Side 0 leads to the counters over two boards, side 1 over one; side 2 is where the
    packet came from. *)
Definition far_boards : list TopologyBoardNode := [board "A" [] ["B"]; board "B" [] []; board "SINK" [3] ["B"]].
Definition near_boards : list TopologyBoardNode := [board "C" [] ["SINK"]; board "SINK" [3] []].
Definition two_ways : View :=
  {| routes := three_sides;
     discovery_routes := <[0 := route_by [announcer "A" [3] far_boards]]> (<[1 := route_by [announcer "C" [3] near_boards]]>
                          (<[2 := route_by [announcer "D" [3] far_boards]]> ∅));
     forwarded_receipts := None; return_sides := ∅; managed_types := None; timesync_next_allowed := ∅ |}.
Definition plain_router : RouterConfig := {| cfg_role := RoleRouter; cfg_handlers := []; cfg_sender := str "R"; cfg_time_source := None |}.
Definition no_probe : Admission := {| probe := None; probe_v2 := None; rejected := 0 |}.
Definition ways : list DiscoveryCandidateMatch := [{| cm_side := 0; cm_overlap := 1 |}; {| cm_side := 1; cm_overlap := 1 |}].
Definition counters_item : RouterItem := IPacket (counters (str "X") 5).

Lemma plan_safe_witness :
  remote_side_plan_with_selection ∅ no_probe plain_router two_ways 1000 true counters_item (Some 2) = Ok ([1], three_sides) /\
  (NoDup [1] /\
   (forall d, d ∈ [1] ->
    route_allowed (routes two_ways) (Some 2) (Some 101) d = true /\
    (exists o, side_options (routes two_ways) d = Some o /\ egress_enabled o = true /\
       (restricted ∅ no_probe counters_item [3] 101 = true -> link_local_enabled o = true)) /\
    (Some 2 <> Some d \/ route_overrides (routes two_ways) !! (Some 2, d) = Some true)) /\
   turned (Some 2) (routes two_ways) three_sides /\ (true = false -> three_sides = routes two_ways)).
Proof.
  assert (remote_side_plan_with_selection ∅ no_probe plain_router two_ways 1000 true counters_item (Some 2) = Ok ([1], three_sides)) as E
    by (vm_compute; reflexivity).
  split; [exact E|]. assert (item_route_info counters_item = Ok ([3], 101)) as Hi by (vm_compute; reflexivity).
  exact (plan_safe ∅ no_probe plain_router two_ways 1000 true counters_item (Some 2) [1] three_sides [3] 101 Hi E).
Defined.

Lemma query_covers_dispatch_witness :
  match remote_side_plan ∅ no_probe plain_router two_ways 1000 counters_item (Some 2) with
  | Ok (out, _) => out = [1] /\ should_route_remote ∅ no_probe plain_router two_ways 1000 counters_item (Some 2) = Ok true
  | Err e => should_route_remote ∅ no_probe plain_router two_ways 1000 counters_item (Some 2) = Err e
  end.
Proof.
  assert (item_route_info counters_item = Ok ([3], 101)) as Hi by (vm_compute; reflexivity).
  pose proof (query_covers_dispatch ∅ no_probe plain_router two_ways 1000 counters_item (Some 2) [3] 101 Hi) as H.
  assert (remote_side_plan ∅ no_probe plain_router two_ways 1000 counters_item (Some 2) = Ok ([1], three_sides)) as E by (vm_compute; reflexivity).
  rewrite E in H |- *. split; [reflexivity|]. destruct H as (b & -> & Hb). destruct Hb as [->|(_ & _ & Ht & _)]; [discriminate|reflexivity|discriminate Ht].
Defined.

Lemma shortest_ways_kept_witness :
  retain_shortest_discovery_candidates two_ways 1000 [3] (Hashes []) ways = [{| cm_side := 1; cm_overlap := 1 |}] /\
  let kept := retain_shortest_discovery_candidates two_ways 1000 [3] (Hashes []) ways in
  let nearest_to t x := exists d, shortest_way two_ways 1000 [3] t (cm_side x) d /\
    forall y e, y ∈ ways -> shortest_way two_ways 1000 [3] t (cm_side y) e -> d <= e in
  kept <> [] /\ kept `sublist_of` ways /\
  forall x, x ∈ kept <-> x ∈ ways /\
    ((exists t, t ∈ route_targets (Hashes []) /\ nearest_to t x) \/
     forall t y d, t ∈ route_targets (Hashes []) -> y ∈ ways -> ~ shortest_way two_ways 1000 [3] t (cm_side y) d).
Proof. split; [vm_compute; reflexivity|]. apply (shortest_ways_kept two_ways 1000 [3] (Hashes []) ways); [cbn; lia|done]. Defined.

(** *** A route that only dispatch sees

    Two sides, no discovered route, and one side slow with its time synchronisation
    spent: dispatch takes the other one for the only way, the query sees two. *)
Definition throttled : View :=
  {| routes := record_side_tx_sample 0 40 100 1100 (snd (add_side plain_side 1 (snd (add_side plain_side 1 routes_empty))));
     discovery_routes := ∅; forwarded_receipts := None; return_sides := ∅; managed_types := None;
     timesync_next_allowed := <[0 := 9000]> ∅ |}.
Definition time_request : RouterItem :=
  IPacket {| ty := ty_TimeSyncRequest; data_size := 16; sender := str "R"; pkt_endpoints := [ep_TimeSync]; timestamp := 5; nonce := 1;
             payload := replicate 16 0; wire_shape := None; wire_target_senders_opt := None |}.

Lemma throttled_route_unseen :
  remote_side_plan ∅ no_probe plain_router throttled 2000 time_request None = Ok ([1], routes throttled) /\
  should_route_remote ∅ no_probe plain_router throttled 2000 time_request None = Ok false.
Proof. split; vm_compute; reflexivity. Qed.
