(* ===== verification/EndToEnd.v ===== *)
(** * Originals kept until their receipts arrive (src/src/router.rs, src/src/router_e2e_backpressure.rs)

    A reliable original that leaves its publisher is retained with the boards it is owed
    to, its frozen cohort, until each of them has sent a receipt; until then it is sent
    again, and after a bounded number of retries it is given up.  Of each ordered type
    one original is on its way and the later ones wait.  A router in between retains
    what it forwards in the same way and answers its publisher when its own cohort is
    complete.  This file models the cohort, the retained originals, the way back of the
    receipts, the admission of a copy by one context at a time, the receipts that were
    forwarded, the service of the deadlines and the receipts themselves.

    The queue that takes the markers of the retries and the receipts is an interface,
    [RetryQueue].  The epochs
    of completed writes and the traces are not part of the state. *)

From stdpp Require Import sorting gmap.
From S2P Require Import Prelude OrdMap Schema Packet WireEnv WireReader WireFrame WirePeek MemoryAdmission SortedList SmallSort SchemaCodec.
From S2P Require Import Topology Election WireSample SideLink DiscoveryCodec RouterQueues Routing.
From S2P Require Import AddressBook RoutePlan.

Open Scope Z_scope.

(** ** The state *)

Record EndToEndReliableSent : Type := {
  ordered_type : option Z;
  waiting_for_predecessor : bool;
  sent_data : RouterItem;
  pending_destinations : gmap Z Z;
  tracked_destinations : bool;
  last_send_ms : Z;
  sent_retries : Z;
  sent_queued : bool;
}.

Record ReliableReturnRouteState : Type := {
  rr_side : Z;
  delivery_completed : bool;
  local_admission_completed : bool;
  local_admission_token : Z;
  admission_cancelled : bool;
  admission_committing : bool;
  last_replay_ms : Z;
  upstream_contract : option (Z * Z);
}.

Record ForwardedReceiptCache : Type := { fr_destinations : gmap Z (gset Z); fr_order : list Z }.

Record Deliveries : Type := {
  end_to_end_reliable_tx : gmap Z EndToEndReliableSent;
  end_to_end_reliable_tx_order : list Z;
  reliable_return_routes : gmap Z ReliableReturnRouteState;
  reliable_return_route_order : list Z;
  receipt_cache : option ForwardedReceiptCache;
  local_admission_sequence : Z;
}.

Definition with_originals (f : gmap Z EndToEndReliableSent -> gmap Z EndToEndReliableSent) (st : Deliveries) : Deliveries :=
  {| end_to_end_reliable_tx := f (end_to_end_reliable_tx st); end_to_end_reliable_tx_order := end_to_end_reliable_tx_order st;
     reliable_return_routes := reliable_return_routes st; reliable_return_route_order := reliable_return_route_order st;
     receipt_cache := receipt_cache st; local_admission_sequence := local_admission_sequence st |}.
Definition with_tx_order (o : list Z) (st : Deliveries) : Deliveries :=
  {| end_to_end_reliable_tx := end_to_end_reliable_tx st; end_to_end_reliable_tx_order := o;
     reliable_return_routes := reliable_return_routes st; reliable_return_route_order := reliable_return_route_order st;
     receipt_cache := receipt_cache st; local_admission_sequence := local_admission_sequence st |}.
Definition with_return_routes (f : gmap Z ReliableReturnRouteState -> gmap Z ReliableReturnRouteState) (st : Deliveries) : Deliveries :=
  {| end_to_end_reliable_tx := end_to_end_reliable_tx st; end_to_end_reliable_tx_order := end_to_end_reliable_tx_order st;
     reliable_return_routes := f (reliable_return_routes st); reliable_return_route_order := reliable_return_route_order st;
     receipt_cache := receipt_cache st; local_admission_sequence := local_admission_sequence st |}.
Definition with_return_order (o : list Z) (st : Deliveries) : Deliveries :=
  {| end_to_end_reliable_tx := end_to_end_reliable_tx st; end_to_end_reliable_tx_order := end_to_end_reliable_tx_order st;
     reliable_return_routes := reliable_return_routes st; reliable_return_route_order := o;
     receipt_cache := receipt_cache st; local_admission_sequence := local_admission_sequence st |}.
Definition with_receipts (r : option ForwardedReceiptCache) (st : Deliveries) : Deliveries :=
  {| end_to_end_reliable_tx := end_to_end_reliable_tx st; end_to_end_reliable_tx_order := end_to_end_reliable_tx_order st;
     reliable_return_routes := reliable_return_routes st; reliable_return_route_order := reliable_return_route_order st;
     receipt_cache := r; local_admission_sequence := local_admission_sequence st |}.
Definition with_sequence (n : Z) (st : Deliveries) : Deliveries :=
  {| end_to_end_reliable_tx := end_to_end_reliable_tx st; end_to_end_reliable_tx_order := end_to_end_reliable_tx_order st;
     reliable_return_routes := reliable_return_routes st; reliable_return_route_order := reliable_return_route_order st;
     receipt_cache := receipt_cache st; local_admission_sequence := n |}.

(** *** Changes of one original *)

Definition edit (f : EndToEndReliableSent -> EndToEndReliableSent) (id : Z) : Deliveries -> Deliveries := with_originals (alter f id).
Definition forget (id : Z) : Deliveries -> Deliveries := with_originals (delete id).

Definition set_pending (f : gmap Z Z -> gmap Z Z) (o : EndToEndReliableSent) : EndToEndReliableSent :=
  {| ordered_type := ordered_type o; waiting_for_predecessor := waiting_for_predecessor o; sent_data := sent_data o;
     pending_destinations := f (pending_destinations o); tracked_destinations := tracked_destinations o;
     last_send_ms := last_send_ms o; sent_retries := sent_retries o; sent_queued := sent_queued o |}.
Definition set_sent_ms (f : Z -> Z) (o : EndToEndReliableSent) : EndToEndReliableSent :=
  {| ordered_type := ordered_type o; waiting_for_predecessor := waiting_for_predecessor o; sent_data := sent_data o;
     pending_destinations := pending_destinations o; tracked_destinations := tracked_destinations o;
     last_send_ms := f (last_send_ms o); sent_retries := sent_retries o; sent_queued := sent_queued o |}.
Definition set_queued (b : bool) (o : EndToEndReliableSent) : EndToEndReliableSent :=
  {| ordered_type := ordered_type o; waiting_for_predecessor := waiting_for_predecessor o; sent_data := sent_data o;
     pending_destinations := pending_destinations o; tracked_destinations := tracked_destinations o;
     last_send_ms := last_send_ms o; sent_retries := sent_retries o; sent_queued := b |}.
Definition next_retry (o : EndToEndReliableSent) : EndToEndReliableSent :=
  {| ordered_type := ordered_type o; waiting_for_predecessor := waiting_for_predecessor o; sent_data := sent_data o;
     pending_destinations := pending_destinations o; tracked_destinations := tracked_destinations o;
     last_send_ms := last_send_ms o; sent_retries := sent_retries o + 1; sent_queued := sent_queued o |}.
Definition set_off (now_ms : Z) (o : EndToEndReliableSent) : EndToEndReliableSent :=
  {| ordered_type := ordered_type o; waiting_for_predecessor := false; sent_data := sent_data o;
     pending_destinations := pending_destinations o; tracked_destinations := tracked_destinations o;
     last_send_ms := now_ms; sent_retries := sent_retries o; sent_queued := sent_queued o |}.

(** *** Limits of the configuration *)

Record Limits : Type := {
  reliable_retransmit_ms : Z;
  reliable_max_retries : Z;
  reliable_max_return_routes : Z;
  reliable_max_end_to_end_pending : Z;
  reliable_max_end_to_end_ack_cache : Z;
}.

Definition return_route_cap (lim : Limits) : Z := Z.max 1 (reliable_max_return_routes lim).
Definition pending_cap (lim : Limits) : Z := Z.max 1 (reliable_max_end_to_end_pending lim).
Definition ack_cache_cap (lim : Limits) : Z := Z.max 1 (reliable_max_end_to_end_ack_cache lim).

(** ** The cohort of a packet *)

Section Cohort.
Context `{WE : WireEnv} (book : gmap Z bytes) (adm : Admission) (names : AddressState) (c : RouterConfig) (lim : Limits) (v : View) (now_ms : Z).

Definition announced : Announcers :=
  mjoin (map (fun e => map (fun a => (fst a, topology_boards (snd a))) (announcers (snd e))) (entries (discovery_routes v))).
Definition hostname_of (a : Z) : option bytes := hostname_for_address names announced a.

(** Who published it, where that is known. *)
Definition original_publisher (data : RouterItem) : result (option Z) :=
  match data with
  | IPacket p =>
      Ok match parse_alias (sender p) with
         | Some a => sender_hash <$> hostname_of a
         | None => Some (sender_hash (sender p))
         end
  | IPacked b => env ← peek_routing_envelope b; Ok (sender_hash <$> hostname_of (re_source_address env))
  end.

Definition usable (exclude : option Z) (ty : DataType) (restrict : bool) (e : Z * DiscoverySideState) : bool :=
  negb (bool_decide (exclude = Some (fst e))) && route_fresh now_ms (side_seen_ms (snd e))
  && match side_options (routes v) (fst e) with Some o => negb (restrict && negb (link_local_enabled o)) | None => false end
  && route_allowed (routes v) exclude (Some ty) (fst e).

Definition owner_wanted (publisher : option Z) (frozen : TargetSenderSet) (name : bytes) : bool :=
  is_end_to_end_destination_sender c name && negb (bool_decide (publisher = Some (sender_hash name)))
  && (ts_is_empty frozen || ts_contains frozen (sender_hash name)).

(** The announcers that own a managed variable. *)
Definition variable_owners (ty : DataType) (publisher : option Z) (frozen : TargetSenderSet) (e : Z * DiscoverySideState) : list (Z * Z) :=
  map (fun a => (sender_hash (fst a), fst e))
    (List.filter (fun a => route_fresh now_ms (sender_seen_ms (snd a)) && one_of ty (sender_variables (snd a))
                           && owner_wanted publisher frozen (fst a)) (announcers (snd e))).

(** The boards behind a side that reach an endpoint: how many, who, and the side. *)
Definition board_owners (scoring : list DataEndpoint) (publisher : option Z) (frozen : TargetSenderSet) (e : Z * DiscoverySideState)
    : list (Z * (Z * Z)) :=
  omap (fun b => let overlap := endpoint_overlap_count (reachable_endpoints b) scoring in
                 if owner_wanted publisher frozen (sender_id b) && (0 <? overlap) then Some (overlap, (sender_hash (sender_id b), fst e)) else None)
    (mjoin (map (fun a => topology_boards (snd a))
       (List.filter (fun a => route_fresh now_ms (sender_seen_ms (snd a))) (announcers (snd e))))).

(** The first owners in order, the limit ends the walk. *)
Fixpoint insert_until (limit : Z) (l : list (Z * Z)) (out : gmap Z Z) : gmap Z Z :=
  match l with
  | [] => out
  | (owner, side) :: l =>
      let out := <[owner := side]> out in
      if limit <=? Z.of_nat (size out) then out else insert_until limit l out
  end.

(** The first owners among those with the greatest overlap. *)
Fixpoint insert_best (limit : Z) (l : list (Z * (Z * Z))) (best : Z) (out : gmap Z Z) : gmap Z Z :=
  match l with
  | [] => out
  | (overlap, (owner, side)) :: l =>
      if overlap <? best then insert_best limit l best out
      else let out := if best <? overlap then ∅ else out in
           let best := Z.max best overlap in
           if limit <=? Z.of_nat (size out) then insert_best limit l best out
           else insert_best limit l best (<[owner := side]> out)
  end.

Definition expected_end_to_end_destinations (data : RouterItem) (exclude : option Z) (managed resolve_proxy_segment : bool) : result (gmap Z Z) :=
  info ← item_route_info data;
  let '(eps, ty) := info : list DataEndpoint * DataType in
  publisher ← (if resolve_proxy_segment then original_publisher data else Ok None);
  frozen ← (if resolve_proxy_segment then Ok (Hashes []) else item_target_senders data);
  let sides := List.filter (usable exclude ty (endpoints_are_link_local_only eps)) (entries (discovery_routes v)) in
  if managed || is_managed_variable v ty then
    Ok (insert_until (pending_cap lim) (mjoin (map (variable_owners ty publisher frozen) sides)) ∅)
  else
    prefer ← (if is_reliable_type we_registry ty then
                target ← reliable_control_target_packet_id book adm data; Ok (bool_decide (target = None))
              else Ok false);
    let found := mjoin (map (board_owners (preferred_scoring_endpoints c eps prefer) publisher frozen) sides) in
    Ok (if prefer : bool then insert_best (pending_cap lim) found 0 ∅ else insert_until (pending_cap lim) (map snd found) ∅).

(** Every name discovery holds, with the side it was last heard of on.  The names of the
    announcers are not counted against the limit. *)
Definition active_names (e : Z * DiscoverySideState) : list (bool * (Z * Z)) :=
  mjoin (map (fun a =>
    (if is_end_to_end_destination_sender c (fst a) then [(false, (sender_hash (fst a), fst e))] else [])
    ++ map (fun b => (true, (sender_hash (sender_id b), fst e)))
         (List.filter (fun b => is_end_to_end_destination_sender c (sender_id b)) (topology_boards (snd a))))
    (List.filter (fun a => route_fresh now_ms (sender_seen_ms (snd a))) (announcers (snd e)))).

Fixpoint collect_active (limit : Z) (l : list (bool * (Z * Z))) (out : gmap Z Z) : gmap Z Z :=
  match l with
  | [] => out
  | (counted, (owner, side)) :: l =>
      let out := <[owner := side]> out in
      if (counted : bool) && (limit <=? Z.of_nat (size out)) then out else collect_active limit l out
  end.

Definition active_end_to_end_destinations : gmap Z Z :=
  collect_active (pending_cap lim)
    (mjoin (map active_names (List.filter (fun e => route_fresh now_ms (side_seen_ms (snd e))) (entries (discovery_routes v))))) ∅.

(** Receipts come back over a packed link whose peer is known. *)
Definition has_live_hop_local_evidence (s : DiscoverySenderState) : bool :=
  has_hop_local_evidence s && (wrap64 (now_ms - last_hop_local_ms s) <=? DISCOVERY_ROUTE_TTL_MS).

Definition side_has_multiple_announcers (side : Z) : bool :=
  match discovery_routes v !! side with
  | Some route => (1 <? length (take 2 (List.filter (fun a => has_live_hop_local_evidence (snd a)) (announcers route))))%nat
  | None => false
  end.

Definition side_supports_end_to_end_tracking (packed_handler : Z -> bool) (side : Z) : bool :=
  match side_options (routes v) side with Some _ => packed_handler side | None => false end.

Definition trackable (packed_handler : Z -> bool) (ty : DataType) (side : Z) : bool :=
  side_supports_end_to_end_tracking packed_handler side
  && (is_managed_variable v ty || is_reliable_type we_registry ty || negb (side_has_multiple_announcers side)).

Definition filter_trackable_end_to_end_destinations (packed_handler : Z -> bool) (ty : DataType) (frozen : bool) (pending : gmap Z Z) : gmap Z Z :=
  if frozen then pending else filter (fun e => trackable packed_handler ty (snd e) = true) pending.
End Cohort.

(** ** The queue of the router *)

(** Each push answers, names the originals whose markers gave way to it, and moves on.
    What may be pushed is the marker of a retry and the receipt for a publisher. *)
Class RetryQueue : Type := {
  rq : Type;
  queued_items : rq -> list TxQueued;
  push_marker : Z -> rq -> result unit * list Z * rq;
  send_receipt : Z -> Z -> rq -> result unit * list Z * rq;
}.

(** A copy for one side that waits in the queue for its retained original. *)
Definition e2e_child_owned (queue : list TxQueued) (side parent : Z) : bool :=
  existsb (fun q => has_flag (disposable q) TX_E2E_CHILD && (deferred_since_ms q =? parent)
                    && match tx_item q with ToSide _ dst _ => dst =? side | _ => false end) queue.

(** ** Receipts that were forwarded *)

(** The oldest entries of an order leave until there is room for one. *)
Fixpoint drop_oldest {A} (cap : Z) (order : list Z) (m : gmap Z A) : list Z * gmap Z A :=
  match order with
  | [] => ([], m)
  | oldest :: rest => if cap <=? zlen order then drop_oldest cap rest (delete oldest m) else (order, m)
  end.

Definition live_order {A} (id : Z) (m : gmap Z A) (order : list Z) : list Z := filter (fun i => is_Some (m !! i) /\ i <> id) order.

Definition note_end_to_end_acked_destination (lim : Limits) (id owner : Z) (st : Deliveries) : Deliveries :=
  let cache := default {| fr_destinations := ∅; fr_order := [] |} (receipt_cache st) in
  let '(order, m) := drop_oldest (ack_cache_cap lim) (live_order id (fr_destinations cache) (fr_order cache)) (fr_destinations cache) in
  let acked := default ∅ (m !! id) in
  let acked := if (Z.of_nat (size acked) <? pending_cap lim) || bool_decide (owner ∈ acked) then {[owner]} ∪ acked else acked in
  with_receipts (Some {| fr_destinations := <[id := acked]> m; fr_order := order ++ [id] |}) st.

Definition active_senders (c : RouterConfig) (v : View) : gset Z :=
  list_to_set (mjoin (map (fun e => mjoin (map (fun a =>
    map (fun b => sender_hash (sender_id b)) (List.filter (fun b => is_end_to_end_destination_sender c (sender_id b)) (topology_boards (snd a))))
    (announcers (snd e)))) (entries (discovery_routes v)))).

Definition reconcile_forwarded_receipts (c : RouterConfig) (v : View) (st : Deliveries) : Deliveries :=
  match receipt_cache st with
  | None => st
  | Some cache =>
      let keep (acked : gset Z) := let acked := acked ∩ active_senders c v in if bool_decide (acked = ∅) then None else Some acked in
      with_receipts (Some {| fr_destinations := omap keep (fr_destinations cache); fr_order := fr_order cache |}) st
  end.

(** ** The way back *)

Section ReturnRoutes.
Context (lim : Limits) (used budget : Z).

Definition RELIABLE_RETURN_ROUTE_EXTRA_LOGICAL_BYTES : Z := 8.

Definition can_admit_reliable_return_route_growth (st : Deliveries) (id : Z) : bool :=
  bool_decide (is_Some (reliable_return_routes st !! id)) || (return_route_cap lim <=? Z.of_nat (size (reliable_return_routes st)))
  || match checked_add used RELIABLE_RETURN_ROUTE_EXTRA_LOGICAL_BYTES with Some n => n <=? budget | None => false end.

(** A route stays while its original is retained or a copy is being admitted. *)
Definition pinned (st : Deliveries) (id : Z) : bool :=
  bool_decide (is_Some (end_to_end_reliable_tx st !! id))
  || match reliable_return_routes st !! id with Some r => negb (local_admission_token r =? 0) | None => false end.

(** The oldest routes that are not pinned leave until there is room for one; [false]
    when all are pinned.  Each turn shortens the order. *)
Fixpoint evict_routes (turns : nat) (st : Deliveries) : bool * Deliveries :=
  if zlen (reliable_return_route_order st) <? return_route_cap lim then (true, st)
  else match turns, list_find (fun id => pinned st id = false) (reliable_return_route_order st) with
       | S turns, Some (i, oldest) =>
           evict_routes turns (with_return_routes (delete oldest) (with_return_order (delete i (reliable_return_route_order st)) st))
       | _, _ => (false, st)
       end.

Definition remember_reliable_return_route (id : Z) (st : Deliveries) : bool * Deliveries :=
  if negb (can_admit_reliable_return_route_growth st id) then (false, st)
  else
    let st := with_return_order (live_order id (reliable_return_routes st) (reliable_return_route_order st)) st in
    let '(room, st) := evict_routes (length (reliable_return_route_order st)) st in
    if room then (true, with_return_order (reliable_return_route_order st ++ [id]) st) else (false, st).

(** *** The admission of a copy *)

(** The lease of one context on a packet. *)
Record ReliableLocalAdmissionGuard : Type := { lease_packet : Z; lease_token : Z }.

Definition check_locked (g : ReliableLocalAdmissionGuard) (st : Deliveries) : result unit :=
  match reliable_return_routes st !! lease_packet g with
  | Some r => if (local_admission_token r =? lease_token g) && negb (admission_cancelled r) then Ok tt else Err (Io "side changed during rx")
  | None => Err (Io "side changed during rx")
  end.

Definition fresh_route (side replay_ms : Z) : ReliableReturnRouteState :=
  {| rr_side := side; delivery_completed := false; local_admission_completed := false; local_admission_token := 0;
     admission_cancelled := false; admission_committing := false; last_replay_ms := replay_ms; upstream_contract := None |}.
Definition set_route_side (side : Z) (r : ReliableReturnRouteState) : ReliableReturnRouteState :=
  {| rr_side := side; delivery_completed := delivery_completed r; local_admission_completed := local_admission_completed r;
     local_admission_token := local_admission_token r; admission_cancelled := admission_cancelled r;
     admission_committing := admission_committing r; last_replay_ms := last_replay_ms r; upstream_contract := upstream_contract r |}.
Definition set_lease (token : Z) (committing : bool) (r : ReliableReturnRouteState) : ReliableReturnRouteState :=
  {| rr_side := rr_side r; delivery_completed := delivery_completed r; local_admission_completed := local_admission_completed r;
     local_admission_token := token; admission_cancelled := admission_cancelled r;
     admission_committing := committing; last_replay_ms := last_replay_ms r; upstream_contract := upstream_contract r |}.
Definition accept_locally (accepted : bool) (r : ReliableReturnRouteState) : ReliableReturnRouteState :=
  {| rr_side := rr_side r; delivery_completed := delivery_completed r; local_admission_completed := local_admission_completed r || accepted;
     local_admission_token := local_admission_token r; admission_cancelled := admission_cancelled r;
     admission_committing := true; last_replay_ms := last_replay_ms r; upstream_contract := upstream_contract r |}.
Definition cancel_admission (r : ReliableReturnRouteState) : ReliableReturnRouteState :=
  {| rr_side := rr_side r; delivery_completed := delivery_completed r; local_admission_completed := local_admission_completed r;
     local_admission_token := local_admission_token r; admission_cancelled := true;
     admission_committing := admission_committing r; last_replay_ms := last_replay_ms r; upstream_contract := upstream_contract r |}.
Definition complete_delivery (contract : option (Z * Z)) (r : ReliableReturnRouteState) : ReliableReturnRouteState :=
  {| rr_side := rr_side r; delivery_completed := true; local_admission_completed := local_admission_completed r;
     local_admission_token := local_admission_token r; admission_cancelled := admission_cancelled r;
     admission_committing := admission_committing r; last_replay_ms := last_replay_ms r; upstream_contract := contract |}.
Definition set_upstream (contract : option (Z * Z)) (r : ReliableReturnRouteState) : ReliableReturnRouteState :=
  {| rr_side := rr_side r; delivery_completed := delivery_completed r; local_admission_completed := local_admission_completed r;
     local_admission_token := local_admission_token r; admission_cancelled := admission_cancelled r;
     admission_committing := admission_committing r; last_replay_ms := last_replay_ms r; upstream_contract := contract |}.
Definition completed_route (side replay_ms : Z) (contract : Z * Z) : ReliableReturnRouteState :=
  {| rr_side := side; delivery_completed := true; local_admission_completed := true; local_admission_token := 0;
     admission_cancelled := false; admission_committing := false; last_replay_ms := replay_ms; upstream_contract := Some contract |}.
Definition set_replay_ms (now_ms : Z) (r : ReliableReturnRouteState) : ReliableReturnRouteState :=
  {| rr_side := rr_side r; delivery_completed := delivery_completed r; local_admission_completed := local_admission_completed r;
     local_admission_token := local_admission_token r; admission_cancelled := admission_cancelled r;
     admission_committing := admission_committing r; last_replay_ms := now_ms; upstream_contract := upstream_contract r |}.

Definition egress_open (r : Routes) (side : Z) : bool :=
  match side_options r side with Some o => egress_enabled o | None => false end.

(** [seen]: is the packet among the recently received? *)
Definition is_duplicate (seen : bool) (id : Z) (st : Deliveries) : bool :=
  seen || match reliable_return_routes st !! id with Some r => delivery_completed r | None => false end.

(** A lease, or [None] for a copy that the retained original already stands for. *)
Definition begin_reliable_local_admission (sides : Routes) (now_ms : Z) (seen : bool) (side id : Z) (parent : option ReliableLocalAdmissionGuard)
    (st : Deliveries) : result (option ReliableLocalAdmissionGuard) * Deliveries :=
  match (match parent with Some g => check_locked g st | None => Ok tt end), side_options sides side with
  | Err e, _ => (Err e, st)
  | Ok _, None => (Err (HandlerError "router: invalid side id"), st)
  | Ok _, Some o =>
      let route := reliable_return_routes st !! id in
      if negb (ingress_enabled o) then (Err (HandlerError "router: ingress disabled for side id"), st)
      else if match route with Some r => negb (local_admission_token r =? 0) | None => false end then (Err (Io "rx packet busy"), st)
      else if bool_decide (is_Some (end_to_end_reliable_tx st !! id))
              && match route with Some r => bool_decide (is_Some (upstream_contract r)) | None => false end then (Ok None, st)
      else
        let duplicate := is_duplicate seen id st in
        let replay_ms := if duplicate then sat_sub now_ms (reliable_retransmit_ms lim) else now_ms in
        let replace_side := negb duplicate || match route with
          | Some r => (reliable_retransmit_ms lim <=? sat_sub now_ms (last_replay_ms r)) || negb (egress_open sides (rr_side r))
          | None => true
          end in
        if negb (can_admit_reliable_return_route_growth st id) then (Err (Io "memory pressure"), st)
        else match checked_add (local_admission_sequence st) 1 with
             | None => (Err (Io "local admission sequence exhausted"), st)
             | Some token =>
                 match remember_reliable_return_route id st with
                 | (false, st) => (Err (Io "reliable return route window full"), st)
                 | (true, st) =>
                     let r := match reliable_return_routes st !! id with
                              | Some r => if replace_side then set_route_side side r else r
                              | None => fresh_route side replay_ms
                              end in
                     (Ok (Some {| lease_packet := id; lease_token := token |}),
                      with_sequence token (with_return_routes <[id := set_lease token (admission_committing r) r]> st))
                 end
             end
  end.

Definition begin_commit (g : ReliableLocalAdmissionGuard) (accepted : bool) (st : Deliveries) : result unit * Deliveries :=
  match check_locked g st with
  | Err e => (Err e, st)
  | Ok _ => (Ok tt, with_return_routes (alter (accept_locally accepted) (lease_packet g)) st)
  end.

Definition holds_lease (g : ReliableLocalAdmissionGuard) (st : Deliveries) : option ReliableReturnRouteState :=
  r ← reliable_return_routes st !! lease_packet g; if local_admission_token r =? lease_token g then Some r else None.

Definition end_commit (g : ReliableLocalAdmissionGuard) (st : Deliveries) : Deliveries :=
  match holds_lease g st with
  | Some r => with_return_routes <[lease_packet g := set_lease (local_admission_token r) false r]> st
  | None => st
  end.

Definition drop_lease (g : ReliableLocalAdmissionGuard) (st : Deliveries) : Deliveries :=
  match holds_lease g st with
  | Some r =>
      if admission_cancelled r
      then with_return_order (filter (fun id => id <> lease_packet g) (reliable_return_route_order st)) (with_return_routes (delete (lease_packet g)) st)
      else with_return_routes <[lease_packet g := set_lease 0 false r]> st
  | None => st
  end.

(** *** The sides *)

Definition committing_on (side : Z) (r : ReliableReturnRouteState) : bool :=
  (rr_side r =? side) && negb (local_admission_token r =? 0) && admission_committing r.
Definition rx_commit_busy (side : Z) (st : Deliveries) : bool :=
  existsb (fun e => committing_on side (snd e)) (map_to_list (reliable_return_routes st)).

Definition revoke (side : Z) (r : ReliableReturnRouteState) : ReliableReturnRouteState :=
  if (rr_side r =? side) && negb (local_admission_token r =? 0) then cancel_admission r else r.

(** A side is removed: its routes leave, those of a running admission with it. *)
Definition forget_routes_of (side : Z) (st : Deliveries) : Deliveries :=
  with_return_routes (omap (fun r => if negb (rr_side r =? side) then Some r
                                     else if negb (local_admission_token r =? 0) then Some (cancel_admission r) else None)) st.

Definition remove_side (known tx_busy : bool) (side : Z) (st : Deliveries) : result unit * Deliveries :=
  if rx_commit_busy side st then (Err (Io "side rx commit busy"), st)
  else if tx_busy then (Err (Io "side tx busy"), st)
  else if negb known then (Err BadArg, st)
  else (Ok tt, forget_routes_of side st).

Definition set_side_ingress_enabled (known : bool) (side : Z) (enabled : bool) (st : Deliveries) : result unit * Deliveries :=
  if negb enabled && rx_commit_busy side st then (Err (Io "side rx commit busy"), st)
  else if negb known then (Err BadArg, st)
  else (Ok tt, if enabled then st else with_return_routes (fmap (revoke side)) st).

(** [current] is the side's setting, [None] when there is no such side. *)
Definition set_side_egress_enabled (current : option bool) (side : Z) (enabled : bool) (st : Deliveries) : result unit * Deliveries :=
  match current with
  | None => (Err BadArg, st)
  | Some was =>
      let lost := negb enabled && negb (Bool.eqb was enabled) in
      if lost && rx_commit_busy side st then (Err (Io "side rx commit busy"), st)
      else (Ok tt, if lost then with_return_routes (fmap (revoke side)) st else st)
  end.

Definition take_replay (now_ms id : Z) (st : Deliveries) : bool * Deliveries :=
  match reliable_return_routes st !! id with
  | Some r =>
      if sat_sub now_ms (last_replay_ms r) <? reliable_retransmit_ms lim then (false, st)
      else (true, with_return_routes <[id := set_replay_ms now_ms r]> st)
  | None => (false, st)
  end.

(** The copy a router forwards is a child of the one it received. *)
Definition retain_proxy (upstream downstream publisher : Z) (st : Deliveries) : result unit * Deliveries :=
  match reliable_return_routes st !! upstream with
  | None => (Err (Io "no reliable return route"), forget downstream st)
  | Some r =>
      match remember_reliable_return_route downstream st with
      | (false, st) => (Err (Io "reliable return route window full"), forget downstream st)
      | (true, st) => (Ok tt, with_return_routes <[downstream := set_upstream (Some (upstream, publisher)) r]> st)
      end
  end.
End ReturnRoutes.

(** ** The originals *)

Section Originals.
Context `{WE : WireEnv} `{RQ : RetryQueue} (book : gmap Z bytes) (adm : Admission) (names : AddressState) (c : RouterConfig) (lim : Limits).

(** The order gives way before the table does; see [room_for_one]. *)
Definition remember_end_to_end_reliable_tx (id : Z) (st : Deliveries) : Deliveries :=
  let '(order, m) := drop_oldest (pending_cap lim) (live_order id (end_to_end_reliable_tx st) (end_to_end_reliable_tx_order st))
                       (end_to_end_reliable_tx st) in
  with_tx_order (order ++ [id]) (with_originals (fun _ => m) st).

Definition item_type (data : RouterItem) : result DataType :=
  match data with IPacket p => Ok (ty p) | IPacked b => env ← peek_routing_envelope b; Ok (re_ty env) end.
Definition is_frozen (data : RouterItem) : result bool :=
  match data with
  | IPacket p => Ok (negb (is_empty (wire_target_senders p)))
  | IPacked b => env ← peek_routing_envelope b; Ok (negb (zlen (targets_of (re_targets env)) =? 0))
  end.

(** What the surroundings answer while an original is retained: the queue bytes in use
    and their budget, whether the write is tracked to its completion, the encoding it
    is kept in, and the allocator. *)
Record Retention : Type := {
  queue_bytes_used : Z;
  max_queue_budget : Z;
  completion_tracked : bool;
  payload_encoding_for_retention : RouterItem -> result RouterItem;
  allocated : bool;
}.

Definition retention_bytes (env : Retention) : Z :=
  sat_add (sat_add (queue_bytes_used env) 8) (if completion_tracked env then 8 else 0).

Definition has_type (ty : option Z) (o : EndToEndReliableSent) : bool := bool_decide (ordered_type o = ty).

(** The answer is whether it may leave at once. *)
Definition register_end_to_end_reliable_tx (v : View) (packed_handler : Z -> bool) (env : Retention) (now_ms : Z) (data : RouterItem)
    (destinations : option (gmap Z Z)) (st : Deliveries) : result bool * Deliveries :=
  let id := get_hash data in
  match (t ← item_type data;
         pending ← match destinations with
                   | Some d => Ok d
                   | None => expected_end_to_end_destinations book adm names c lim v now_ms data None false false
                   end;
         frozen ← is_frozen data;
         Ok (t, filter_trackable_end_to_end_destinations v now_ms packed_handler t frozen pending)) with
  | Err e => (Err e, st)
  | Ok (t, pending) =>
      match end_to_end_reliable_tx st !! id with
      | Some existing => (Ok (negb (waiting_for_predecessor existing)), st)
      | None =>
          if pending_cap lim <=? Z.of_nat (size (end_to_end_reliable_tx st)) then (Err (Io "reliable window full"), st)
          else if max_queue_budget env <? retention_bytes env then (Err (Io "memory pressure"), st)
          else
            let ordered := match reliable_mode we_registry t with Schema.Ordered => Some t | _ => None end in
            let waiting := bool_decide (is_Some ordered) && existsb (fun e => has_type ordered (snd e)) (map_to_list (end_to_end_reliable_tx st)) in
            match payload_encoding_for_retention env data with
            | Err e => (Err e, st)
            | Ok retained =>
                if negb (allocated env) then (Err (Io "memory pressure"), st)
                else
                  let sent := {| ordered_type := ordered; waiting_for_predecessor := waiting; sent_data := retained;
                                 pending_destinations := pending; tracked_destinations := negb (bool_decide (pending = ∅));
                                 last_send_ms := now_ms; sent_retries := 0; sent_queued := false |} in
                  (Ok (negb waiting), with_originals <[id := sent]> (remember_end_to_end_reliable_tx id st))
            end
      end
  end.

(** *** Markers of retries *)

Definition markers_lost (ids : list Z) (st : Deliveries) : Deliveries := foldl (fun st id => edit (set_queued false) id st) st ids.

(** One marker per original at a time, and none for one that has left. *)
Definition queue_marker (id : Z) (st : Deliveries) (q : rq) : result unit * Deliveries * rq :=
  match end_to_end_reliable_tx st !! id with
  | None => (Ok tt, st, q)
  | Some o =>
      if sent_queued o then (Ok tt, st, q)
      else let '(res, lost, q) := push_marker id q in
           let st := markers_lost lost st in
           (res, match res with Ok _ => edit (set_queued true) id st | Err _ => st end, q)
  end.

Definition queue_end_to_end_reliable_retransmit (now_ms id : Z) (st : Deliveries) (q : rq) : result unit * Deliveries * rq :=
  let '(res, st, q) := queue_marker id st q in
  (res, match res with Ok _ => edit (set_sent_ms (fun t => Z.max t now_ms)) id st | Err _ => st end, q).

(** The first refusal ends it. *)
Fixpoint queue_all (now_ms : Z) (ids : list Z) (st : Deliveries) (q : rq) : result unit * Deliveries * rq :=
  match ids with
  | [] => (Ok tt, st, q)
  | id :: ids =>
      match queue_end_to_end_reliable_retransmit now_ms id st q with
      | (Ok _, st, q) => queue_all now_ms ids st q
      | (Err e, st, q) => (Err e, st, q)
      end
  end.

(** *** Ordered successors *)

(** It waits and no earlier original of its type is retained. *)
Definition releasable (m : gmap Z EndToEndReliableSent) (passed : list Z) (o : EndToEndReliableSent) : bool :=
  waiting_for_predecessor o && bool_decide (is_Some (ordered_type o))
  && negb (existsb (fun e => match m !! e with Some p => has_type (ordered_type o) p | None => false end) passed).

(** One walk over the order, [passed] is what lies behind. *)
Fixpoint release_scan (now_ms : Z) (passed order : list Z) (m : gmap Z EndToEndReliableSent) : list Z * gmap Z EndToEndReliableSent :=
  match order with
  | [] => ([], m)
  | id :: order =>
      let go := match m !! id with Some o => releasable m passed o | None => false end in
      let '(ready, m) := release_scan now_ms (passed ++ [id]) order (if go then alter (set_off now_ms) id m else m) in
      (if go then id :: ready else ready, m)
  end.

Definition release_ordered_successors (now_ms : Z) (st : Deliveries) (q : rq) : result unit * Deliveries * rq :=
  let '(ready, m) := release_scan now_ms [] (end_to_end_reliable_tx_order st) (end_to_end_reliable_tx st) in
  queue_all now_ms ready (with_originals (fun _ => m) st) q.

(** *** A change of the topology *)

Definition next_hop (expected active : gmap Z Z) (excluded : option Z) (owner side : Z) : Z :=
  match expected !! owner with
  | Some s => s
  | None => match active !! owner with
            | Some s => if bool_decide (excluded = Some s) then side else s
            | None => side
            end
  end.

Definition excluded_side (st : Deliveries) (id : Z) : option Z :=
  r ← reliable_return_routes st !! id; match upstream_contract r with Some _ => Some (rr_side r) | None => None end.

Fixpoint reconcile_all (v : View) (now_ms : Z) (active : gmap Z Z) (ids : list Z) (st : Deliveries) : result unit * Deliveries :=
  match ids with
  | [] => (Ok tt, st)
  | id :: ids =>
      match end_to_end_reliable_tx st !! id with
      | None => reconcile_all v now_ms active ids st
      | Some o =>
          match expected_end_to_end_destinations book adm names c lim v now_ms (sent_data o) (excluded_side st id) false false with
          | Err e => (Err e, st)
          | Ok expected =>
              reconcile_all v now_ms active ids
                (if tracked_destinations o then edit (set_pending (map_imap (fun owner side => Some (next_hop expected active (excluded_side st id) owner side)))) id st
                 else st)
          end
      end
  end.

(** The cohort is frozen: only the way to a board is renewed. *)
Definition reconcile_end_to_end_reliable_destinations (v : View) (now_ms : Z) (st : Deliveries) : result unit * Deliveries :=
  let st := reconcile_forwarded_receipts c v st in
  if bool_decide (end_to_end_reliable_tx st = ∅) then (Ok tt, st)
  else reconcile_all v now_ms (active_end_to_end_destinations c lim v now_ms) (map fst (entries (end_to_end_reliable_tx st))) st.

(** *** Deadlines *)

Inductive Sweep : Type := Keep | Expired | Retry.

Definition all_owned (q : rq) (id : Z) (o : EndToEndReliableSent) : bool :=
  negb (bool_decide (pending_destinations o = ∅))
  && forallb (fun e => e2e_child_owned (queued_items q) (snd e) id) (map_to_list (pending_destinations o)).

Definition sweep (q : rq) (now_ms id : Z) (o : EndToEndReliableSent) : Sweep :=
  if all_owned q id o || waiting_for_predecessor o || sent_queued o || (wrap64 (now_ms - last_send_ms o) <? reliable_retransmit_ms lim) then Keep
  else if reliable_max_retries lim <=? sent_retries o then Expired else Retry.

Definition swept (q : rq) (now_ms : Z) (m : gmap Z EndToEndReliableSent) : gmap Z EndToEndReliableSent :=
  map_imap (fun id o => match sweep q now_ms id o with Keep => Some o | Expired => None | Retry => Some (next_retry o) end) m.
Definition retried (q : rq) (now_ms : Z) (m : gmap Z EndToEndReliableSent) : list Z :=
  omap (fun e => match sweep q now_ms (fst e) (snd e) with Retry => Some (fst e) | _ => None end) (entries m).
Definition failed_types (q : rq) (now_ms : Z) (m : gmap Z EndToEndReliableSent) : list Z :=
  omap (fun e => match sweep q now_ms (fst e) (snd e) with Expired => ordered_type (snd e) | _ => None end) (entries m).

Definition of_failed_type (failed : list Z) (o : EndToEndReliableSent) : bool :=
  match ordered_type o with Some t => one_of t failed | None => false end.

(** [changed]: routes of discovery have expired. *)
Definition process_end_to_end_reliable_timeouts (v : View) (changed : bool) (now_ms : Z) (st : Deliveries) (q : rq) : result unit * Deliveries * rq :=
  match (if changed then reconcile_end_to_end_reliable_destinations v now_ms st else (Ok tt, st)) with
  | (Err e, st) => (Err e, st, q)
  | (Ok _, st) =>
      let m := end_to_end_reliable_tx st in
      let failed := failed_types q now_ms m in
      let st := with_originals (fun _ => filter (fun e => of_failed_type failed (snd e) = false) (swept q now_ms m)) st in
      match queue_all now_ms (retried q now_ms m) st q with
      | (Err e, st, q) => (Err e, st, q)
      | (Ok _, st, q) =>
          match release_ordered_successors now_ms st q with
          | (Err e, st, q) => (Err e, st, q)
          | (Ok _, st, q) =>
              (if is_empty failed then Ok tt else Err (HandlerError "ordered end-to-end delivery exhausted retries"), st, q)
          end
      end
  end.

(** *** Sending again *)

Definition end_to_end_retransmit_sides (now_ms id : Z) (st : Deliveries) : option (RouterItem * list Z) * Deliveries :=
  match end_to_end_reliable_tx st !! id with
  | None => (None, st)
  | Some o =>
      let st := edit (set_sent_ms (fun _ => now_ms)) id st in
      let sides := map snd (entries (pending_destinations o)) in
      if tracked_destinations o && is_empty sides then (None, forget id st) else (Some (sent_data o, sort_dedup sides), st)
  end.

(** The sending context holds the original while it works. *)
Definition lease_e2e_send (id : Z) (st : Deliveries) : bool * Deliveries :=
  match end_to_end_reliable_tx st !! id with Some _ => (true, edit (set_queued true) id st) | None => (false, st) end.
Definition drop_parent_lease (id : Z) (st : Deliveries) : Deliveries := edit (set_queued false) id st.

(** A waiting copy was sent. *)
Definition finish_e2e_child_claim (now_ms parent : Z) (ok refused admitted : bool) (st : Deliveries) : Deliveries :=
  if ok && negb refused && admitted then edit (set_sent_ms (fun _ => now_ms)) parent st else st.

(** *** Receipts *)

Definition targets_local_sender (p : Packet) : bool :=
  local_services (cfg_role c) && (is_empty (wire_target_senders p) || one_of (sender_hash (cfg_sender c)) (wire_target_senders p)).

Definition without_owner (owner : option Z) (m : gmap Z Z) : gmap Z Z := match owner with Some x => delete x m | None => m end.

(** The whole cohort has acknowledged: that is remembered for the publisher's packet. *)
Definition complete_upstream (used budget : Z) (alias : ReliableReturnRouteState) (contract : Z * Z) (st : Deliveries) : Deliveries :=
  match remember_reliable_return_route lim used budget (fst contract) st with
  | (true, st) =>
      with_return_routes (fun m => <[fst contract := match m !! fst contract with
        | Some r => complete_delivery (Some contract) r
        | None => completed_route (rr_side alias) (last_replay_ms alias) contract
        end]> m) st
  | (false, st) => st
  end.

(** The receipts of a whole cohort become one for the publisher. *)
Definition settle_proxy (used budget : Z) (p : Packet) (id : Z) (alias : ReliableReturnRouteState) (contract : Z * Z) (now_ms : Z) (st : Deliveries) (q : rq)
    : result bool * Deliveries * rq :=
  match end_to_end_reliable_tx st !! id with
  | None => (Ok true, st, q)
  | Some o =>
      let left := without_owner (end_to_end_ack_sender_hash p) (pending_destinations o) in
      if negb (bool_decide (left = ∅)) then (Ok true, edit (set_pending (fun _ => left)) id st, q)
      else
        let st := complete_upstream used budget alias contract (forget id st) in
        match send_receipt (fst contract) (snd contract) q with
        | (Err e, lost, q) => (Err e, markers_lost lost st, q)
        | (Ok _, lost, q) =>
            match release_ordered_successors now_ms (markers_lost lost st) q with
            | (Err e, st, q) => (Err e, st, q)
            | (Ok _, st, q) => (Ok true, st, q)
            end
        end
  end.

(** A receipt for an original of this router's own. *)
Definition settle_original (p : Packet) (id : Z) (local : bool) (now_ms : Z) (st : Deliveries) (q : rq) : result bool * Deliveries * rq :=
  match end_to_end_reliable_tx st !! id with
  | None => (Ok local, st, q)
  | Some o =>
      if waiting_for_predecessor o then (Ok local, st, q)
      else
        let st := match end_to_end_ack_sender_hash p with
                  | Some owner => let left := delete owner (pending_destinations o) in
                                  if bool_decide (left = ∅) then forget id st else edit (set_pending (fun _ => left)) id st
                  | None => forget id st
                  end in
        match release_ordered_successors now_ms st q with
        | (Err e, st, q) => (Err e, st, q)
        | (Ok _, st, q) => (Ok local, st, q)
        end
  end.

(** A receipt that travels on is noted. *)
Definition note_forwarded (p : Packet) (id : Z) (st : Deliveries) : Deliveries :=
  match end_to_end_ack_sender_hash p with
  | Some owner => if targets_local_sender p then st else note_end_to_end_acked_destination lim id owner st
  | None => st
  end.

(** The answer is whether the receipt ends here. *)
Definition handle_end_to_end_receipt (used budget : Z) (p : Packet) (id now_ms : Z) (st : Deliveries) (q : rq) : result bool * Deliveries * rq :=
  let local := targets_local_sender p in
  let st := note_forwarded p id st in
  match reliable_return_routes st !! id with
  | Some alias =>
      match upstream_contract alias with
      | Some contract => settle_proxy used budget p id alias contract now_ms st q
      | None => settle_original p id local now_ms st q
      end
  | None => settle_original p id local now_ms st q
  end.
End Originals.
