(* ===== verification/Originals.v ===== *)
(** * Retained originals over a run of the router (src/src/router.rs)

    The theorems about the originals of [EndToEnd]: every operation that touches them is
    a step of [delivery_step]; over the runs of these steps the window of each ordered
    type, the cohorts and the retries keep their promises.  Then the cohort itself, and
    a publisher with one reader on which the theorems are evaluated. *)

From stdpp Require Import sorting gmap.
From S2P Require Import Prelude OrdMap Schema Packet WireEnv WireReader WireFrame WirePeek MemoryAdmission SortedList SmallSort SchemaCodec.
From S2P Require Import Topology Election WireSample SideLink DiscoveryCodec RouterQueues Routing.
From S2P Require Import AddressBook RoutePlan EndToEnd.

Open Scope Z_scope.

(** ** Order *)

(** [a] comes before [b]. *)
Definition before (l : list Z) (a b : Z) : Prop := [a; b] `sublist_of` l.

Lemma before_sublist l k a b : l `sublist_of` k -> before l a b -> before k a b.
Proof. unfold before. intros Hs Hb. by transitivity l. Qed.

Lemma sublist_in (l k : list Z) x : l `sublist_of` k -> x ∈ l -> x ∈ k.
Proof. induction 1; intros Hx; [done| |by right; auto]. apply elem_of_cons in Hx as [->|Hx]; [by left|right; auto]. Qed.

Lemma before_in l a b : before l a b -> a ∈ l /\ b ∈ l.
Proof. intros H. split; eapply sublist_in; try exact H; set_solver. Qed.

Lemma before_at l1 l2 e x : NoDup (l1 ++ x :: l2) -> before (l1 ++ x :: l2) e x <-> e ∈ l1.
Proof.
  intros (_ & Hx & [Hx2 _]%NoDup_cons)%NoDup_app. assert (x ∉ l1) as Hx1 by (intros H; apply (Hx x H); by left). split.
  - intros (k1 & k2 & Heq & H1 & H2)%sublist_app_r. destruct k1 as [|y [|z k1]]; simplify_eq/=.
    + apply sublist_cons_r in H2 as [H2|(k & Hk & H2)]; simplify_eq; destruct Hx2; eapply sublist_in; try exact H2; set_solver.
    + eapply sublist_in; [exact H1|by left].
    + destruct k1; simplify_eq/=. destruct Hx1. eapply sublist_in; [exact H1|set_solver].
  - intros (l & k & ->)%list_elem_of_split. unfold before. rewrite <- app_assoc. cbn.
    apply sublist_inserts_l, sublist_skip, sublist_inserts_l, sublist_skip, sublist_nil_l.
Qed.

Lemma before_total (l : list Z) a b : NoDup l -> a ∈ l -> b ∈ l -> a <> b -> before l a b \/ before l b a.
Proof.
  intros Hn (l1 & l2 & ->)%list_elem_of_split Hb Hab. apply elem_of_app in Hb as [Hb|[->|Hb]%elem_of_cons]; [|done|].
  - right. by apply before_at.
  - left. apply list_elem_of_split in Hb as (k1 & k2 & ->). unfold before.
    apply sublist_inserts_l, sublist_skip, sublist_inserts_l, sublist_skip, sublist_nil_l.
Qed.

Lemma before_asym (l : list Z) a b : NoDup l -> before l a b -> ~ before l b a.
Proof.
  intros Hn Hab Hba. destruct (before_in _ _ _ Hab) as [_ (l1 & l2 & ->)%list_elem_of_split]. apply before_at in Hab; [|done].
  apply list_elem_of_split in Hab as (k1 & k2 & ->). rewrite <- app_assoc in Hn, Hba. cbn in Hn, Hba. apply before_at in Hba; [|done].
  apply NoDup_app in Hn as (_ & Hn & _). apply (Hn b Hba). set_solver.
Qed.

Lemma before_ne (l : list Z) a b : NoDup l -> before l a b -> a <> b.
Proof. intros Hn Hab ->. by apply (before_asym l b b Hn). Qed.

Lemma before_snoc l x a b : before (l ++ [x]) a b -> before l a b \/ (b = x /\ a ∈ l).
Proof.
  intros (k1 & k2 & Heq & H1 & H2)%sublist_app_r. apply sublist_cons_r in H2 as [H2|(k & -> & H2)]; apply sublist_nil_r in H2; subst.
  - left. rewrite app_nil_r in Heq. by subst.
  - right. destruct k1 as [|y [|z k1]]; simplify_eq/=; [|by destruct k1]. split; [done|]. eapply sublist_in; [exact H1|by left].
Qed.

Lemma live_order_spec {A} id (m : gmap Z A) order i : i ∈ live_order id m order <-> is_Some (m !! i) /\ i <> id /\ i ∈ order.
Proof. unfold live_order. rewrite list_elem_of_filter. tauto. Qed.

Lemma live_order_size {A} id (m : gmap Z A) order : NoDup order -> zlen (live_order id m order) <= Z.of_nat (size m).
Proof.
  intros Hn. unfold zlen. rewrite <- size_dom. apply inj_le.
  rewrite <- (size_list_to_set (C := gset Z) (live_order id m order)) by (by apply NoDup_filter).
  apply subseteq_size. intros i Hi. apply elem_of_list_to_set, live_order_spec in Hi as (Hi & _). by apply elem_of_dom.
Qed.

Lemma drop_oldest_room {A} cap order (m : gmap Z A) : zlen order < cap -> drop_oldest cap order m = (order, m).
Proof. destruct order; [done|]. intros H. cbn [drop_oldest]. by rewrite (proj2 (Z.leb_gt _ _) H). Qed.

(** ** What a step changes of an original *)

(** The marks of the service: when it was sent and whether its marker waits. *)
Definition marks (o o' : EndToEndReliableSent) : Prop :=
  sent_data o' = sent_data o /\ ordered_type o' = ordered_type o /\ tracked_destinations o' = tracked_destinations o /\
  pending_destinations o' = pending_destinations o /\ sent_retries o' = sent_retries o /\
  waiting_for_predecessor o' = waiting_for_predecessor o.

Definition flagged (m m' : gmap Z EndToEndReliableSent) : Prop := forall id, option_Forall2 marks (m !! id) (m' !! id).

#[export] Instance marks_preorder : PreOrder marks.
Proof. split; [intros o; by split_and!|]. intros a b e Hab Hbe. unfold marks in *. intuition congruence. Qed.
#[export] Instance flagged_preorder : PreOrder flagged.
Proof.
  split.
  - intros m id. destruct (m !! id); by constructor.
  - intros a b e Hab Hbe id. specialize (Hab id). specialize (Hbe id).
    destruct (a !! id), (b !! id), (e !! id); inversion Hab; inversion Hbe; subst; constructor. by etransitivity.
Qed.

(** Nothing else of the state. *)
Definition marked (st st' : Deliveries) : Prop :=
  flagged (end_to_end_reliable_tx st) (end_to_end_reliable_tx st') /\
  end_to_end_reliable_tx_order st' = end_to_end_reliable_tx_order st /\ reliable_return_routes st' = reliable_return_routes st /\
  reliable_return_route_order st' = reliable_return_route_order st /\ receipt_cache st' = receipt_cache st /\
  local_admission_sequence st' = local_admission_sequence st.

#[export] Instance marked_preorder : PreOrder marked.
Proof.
  split; [intros st; by split_and!|]. intros a b e (H1 & ?) (H2 & ?). split; [by transitivity (end_to_end_reliable_tx b)|]. intuition congruence.
Qed.

Lemma edit_marked f id st : (forall o, marks o (f o)) -> marked st (edit f id st).
Proof.
  intros Hf. split_and!; try done. intros i. cbn. destruct (decide (i = id)) as [->|Hne].
  - rewrite lookup_alter_eq. destruct (end_to_end_reliable_tx st !! id); by constructor.
  - rewrite lookup_alter_ne by done. by destruct (end_to_end_reliable_tx st !! i); constructor.
Qed.

Lemma markers_lost_marked ids st : marked st (markers_lost ids st).
Proof.
  revert st. induction ids as [|id ids IH]; intros st; [done|]. cbn. etransitivity; [|apply IH]. apply edit_marked. by intros [].
Qed.

Section Moves.
Context `{RQ : RetryQueue}.

Lemma queue_marker_marked id st q res st' q' : queue_marker id st q = (res, st', q') -> marked st st'.
Proof.
  unfold queue_marker. destruct (end_to_end_reliable_tx st !! id) as [o|]; [|by intros [= <- <- <-]].
  destruct (sent_queued o); [by intros [= <- <- <-]|]. destruct (push_marker id q) as [[r lost] q1]. intros [= <- <- <-].
  destruct r; [|apply markers_lost_marked]. etransitivity; [apply markers_lost_marked|apply edit_marked]. by intros [].
Qed.

Lemma queue_retransmit_marked now_ms id st q res st' q' : queue_end_to_end_reliable_retransmit now_ms id st q = (res, st', q') -> marked st st'.
Proof.
  unfold queue_end_to_end_reliable_retransmit. destruct (queue_marker id st q) as [[r st1] q1] eqn:E. apply queue_marker_marked in E.
  intros [= <- <- <-]. destruct r; [|done]. etransitivity; [done|]. apply edit_marked. by intros [].
Qed.

Lemma queue_all_marked now_ms ids : forall st q res st' q', queue_all now_ms ids st q = (res, st', q') -> marked st st'.
Proof.
  induction ids as [|id ids IH]; intros st q res st' q'; cbn; [by intros [= <- <- <-]|].
  destruct (queue_end_to_end_reliable_retransmit now_ms id st q) as [[r st1] q1] eqn:E. apply queue_retransmit_marked in E.
  destruct r; [|by intros [= <- <- <-]]. intros H%IH. by transitivity st1.
Qed.
End Moves.

(** ** The walk over the order *)

Definition same_types (m m' : gmap Z EndToEndReliableSent) : Prop := forall id, ordered_type <$> m' !! id = ordered_type <$> m !! id.

Lemma releasable_types m m' passed o : same_types m m' -> releasable m' passed o = releasable m passed o.
Proof.
  intros Hs. unfold releasable. f_equal. f_equal. induction passed as [|e passed IH]; [done|]. cbn [existsb]. rewrite IH. f_equal.
  specialize (Hs e). unfold has_type. destruct (m !! e) as [a|], (m' !! e) as [b|]; cbn in Hs; try discriminate; [|done].
  by injection Hs as ->.
Qed.

Lemma set_off_types now_ms id m : same_types m (alter (set_off now_ms) id m).
Proof.
  intros i. destruct (decide (i = id)) as [->|Hne]; [rewrite lookup_alter_eq; by destruct (m !! id)|by rewrite lookup_alter_ne].
Qed.

Lemma release_scan_spec now_ms order : forall passed m ready m',
  NoDup order -> release_scan now_ms passed order m = (ready, m') ->
  (forall id, id ∉ order -> m' !! id = m !! id) /\
  (forall l1 id l2, order = l1 ++ id :: l2 ->
     m' !! id = (fun o => if releasable m (passed ++ l1) o then set_off now_ms o else o) <$> m !! id).
Proof.
  induction order as [|x order IH]; intros passed m ready m' Hn; cbn [release_scan].
  - intros [= <- <-]. split; [done|]. intros l1 id l2 Heq. by destruct l1.
  - apply NoDup_cons in Hn as [Hx Hn]. set (go := match m !! x with Some o => releasable m passed o | None => false end).
    destruct (release_scan now_ms (passed ++ [x]) order _) as [r m1] eqn:E. intros [= <- <-]. apply IH in E as [E1 E2]; [|done].
    set (mx := if go then alter (set_off now_ms) x m else m) in *.
    assert (forall i, i <> x -> mx !! i = m !! i) as Hne by (intros i Hi; unfold mx; destruct go; [by rewrite lookup_alter_ne|done]).
    assert (same_types m mx) as Ht by (unfold mx; destruct go; [apply set_off_types|done]). split.
    + intros id [Hi Ho]%not_elem_of_cons. by rewrite E1, Hne.
    + intros [|y l1] id l2 Heq; simplify_eq/=.
      * rewrite E1 by done. rewrite app_nil_r. unfold mx, go. destruct (m !! id) as [o|] eqn:Eo; [|done].
        cbn [fmap option_fmap option_map]. destruct (releasable m passed o); [by rewrite lookup_alter_eq, Eo|done].
      * rewrite (E2 l1 id l2 eq_refl), <- app_assoc. cbn. rewrite Hne by (intros ->; set_solver).
        destruct (m !! id) as [o|]; [|done]. cbn. by rewrite (releasable_types m mx).
Qed.

(** ** The window *)

(** What a retained original waits for. *)
Definition earlier_of (st : Deliveries) (t id : Z) : Prop :=
  exists e p, before (end_to_end_reliable_tx_order st) e id /\ end_to_end_reliable_tx st !! e = Some p /\ ordered_type p = Some t.

Record window_ok (lim : Limits) (st : Deliveries) : Prop := {
  order_nodup : NoDup (end_to_end_reliable_tx_order st);
  order_known : forall id, is_Some (end_to_end_reliable_tx st !! id) -> id ∈ end_to_end_reliable_tx_order st;
  window_room : Z.of_nat (size (end_to_end_reliable_tx st)) <= pending_cap lim;
  successors_wait : forall id o t, end_to_end_reliable_tx st !! id = Some o -> ordered_type o = Some t -> earlier_of st t id ->
    waiting_for_predecessor o = true;
  others_go : forall id o, end_to_end_reliable_tx st !! id = Some o -> ordered_type o = None -> waiting_for_predecessor o = false;
  retries_within : forall id o, end_to_end_reliable_tx st !! id = Some o -> 0 <= sent_retries o <= Z.max 0 (reliable_max_retries lim);
}.

(** Originals leave or change, none waits less or is tried too often, the order stays. *)
Definition dwindles (lim : Limits) (st st' : Deliveries) : Prop :=
  end_to_end_reliable_tx_order st' = end_to_end_reliable_tx_order st /\
  forall id o', end_to_end_reliable_tx st' !! id = Some o' -> exists o, end_to_end_reliable_tx st !! id = Some o /\
    ordered_type o' = ordered_type o /\ waiting_for_predecessor o' = waiting_for_predecessor o /\
    sent_retries o <= sent_retries o' <= Z.max (reliable_max_retries lim) (sent_retries o).

#[export] Instance dwindles_preorder lim : PreOrder (dwindles lim).
Proof.
  split; [intros st; split; [done|]; intros id o Ho; exists o; split_and!; done || lia|]. intros a b e [H1 H2] [H3 H4]. split; [congruence|]. intros id o' Ho.
  destruct (H4 id o' Ho) as (o1 & H5 & ? & ? & ?). destruct (H2 id o1 H5) as (o2 & ? & ? & ? & ?). exists o2. split_and!; congruence || lia.
Qed.

Lemma dwindles_window lim st st' : window_ok lim st -> dwindles lim st st' -> window_ok lim st'.
Proof.
  intros [H1 H2 H3 H4 H5 H6] [Ho Hd]. split.
  - by rewrite Ho.
  - intros id [o' Hi]. rewrite Ho. apply H2. destruct (Hd id o' Hi) as (o & -> & _). by eexists.
  - enough (size (end_to_end_reliable_tx st') <= size (end_to_end_reliable_tx st))%nat by lia. rewrite <- !size_dom. apply subseteq_size.
    intros id Hi. apply elem_of_dom in Hi as [o' Hi]. apply elem_of_dom. destruct (Hd id o' Hi) as (o & ? & _). by eexists.
  - intros id o' t Hi Ht (e & p & Hb & Hp & Hpt). destruct (Hd id o' Hi) as (o & Hio & ? & Hw & _). destruct (Hd e p Hp) as (p0 & Hp0 & ? & _).
    rewrite Hw. apply (H4 id o t Hio); [congruence|]. exists e, p0. rewrite <- Ho. split_and!; [done..|congruence].
  - intros id o' Hi Ht. destruct (Hd id o' Hi) as (o & Hio & ? & Hw & _). rewrite Hw. apply (H5 id o Hio). congruence.
  - intros id o' Hi. destruct (Hd id o' Hi) as (o & Hio & _ & _ & ?). specialize (H6 id o Hio). lia.
Qed.

Lemma marked_dwindles lim st st' : marked st st' -> dwindles lim st st'.
Proof.
  intros (Hf & Ho & _). split; [done|]. intros id o' Hi. specialize (Hf id). rewrite Hi in Hf.
  inversion Hf as [o ? (? & ? & ? & ? & ? & ?)|]; subst. exists o. split_and!; done || lia.
Qed.

Lemma edit_dwindles lim f id st :
  (forall o, ordered_type (f o) = ordered_type o /\ waiting_for_predecessor (f o) = waiting_for_predecessor o /\ sent_retries (f o) = sent_retries o) ->
  dwindles lim st (edit f id st).
Proof.
  intros Hf. split; [done|]. intros i o'. cbn. destruct (decide (i = id)) as [->|Hne].
  - rewrite lookup_alter_eq. destruct (end_to_end_reliable_tx st !! id) as [o|]; [|done]. intros [= <-]. exists o.
    destruct (Hf o) as (? & ? & ?). split_and!; done || lia.
  - rewrite lookup_alter_ne by done. intros Ho. exists o'. split_and!; done || lia.
Qed.

Lemma forget_dwindles lim id st : dwindles lim st (forget id st).
Proof. split; [done|]. intros i o' H. cbn in H. apply lookup_delete_Some in H as [_ H]. exists o'. split_and!; done || lia. Qed.

(** *** Successors *)

Lemma releasable_spec st l1 id l2 o :
  NoDup (end_to_end_reliable_tx_order st) -> end_to_end_reliable_tx_order st = l1 ++ id :: l2 ->
  releasable (end_to_end_reliable_tx st) l1 o = true <->
  waiting_for_predecessor o = true /\ exists t, ordered_type o = Some t /\ ~ earlier_of st t id.
Proof.
  intros Hn Ho. unfold releasable. rewrite !andb_true_iff, bool_decide_eq_true, negb_true_iff, <- not_true_iff_false, existsb_exists.
  assert (forall t, earlier_of st t id <-> exists e, In e l1 /\ match end_to_end_reliable_tx st !! e with Some p => has_type (Some t) p | None => false end = true) as He.
  { intros t. unfold earlier_of, has_type. rewrite Ho in *. split.
    - intros (e & p & Hb & Hp & Ht). apply before_at in Hb; [|done]. exists e. rewrite <- list_elem_of_In, Hp, bool_decide_eq_true. done.
    - intros (e & Hi & Hp). destruct (end_to_end_reliable_tx st !! e) as [p|] eqn:Ep; [|done]. apply bool_decide_eq_true in Hp.
      exists e, p. rewrite before_at by done. rewrite list_elem_of_In. done. }
  split.
  - intros [[Hw [t Ht]] Hnone]. split; [done|]. exists t. split; [done|]. by rewrite He, <- Ht.
  - intros (Hw & t & Ht & Hnone). split_and!; [done|by exists t|]. by rewrite Ht, <- He.
Qed.

(** Set off or as it was. *)
Definition light (now_ms : Z) (o o' : EndToEndReliableSent) : Prop := o' = o \/ o' = set_off now_ms o.

Lemma scan_originals lim now_ms st ready m' :
  window_ok lim st -> release_scan now_ms [] (end_to_end_reliable_tx_order st) (end_to_end_reliable_tx st) = (ready, m') ->
  (forall id, end_to_end_reliable_tx st !! id = None -> m' !! id = None) /\
  (forall id o, end_to_end_reliable_tx st !! id = Some o -> exists o', m' !! id = Some o' /\ light now_ms o o' /\
     (waiting_for_predecessor o' = false <-> forall t, ordered_type o = Some t -> ~ earlier_of st t id)).
Proof.
  intros W E. apply release_scan_spec in E as [E1 E2]; [|apply W]. split.
  - intros id Hid. destruct (decide (id ∈ end_to_end_reliable_tx_order st)) as [(l1 & l2 & Ho)%list_elem_of_split|Hi]; [|by rewrite E1].
    by rewrite (E2 _ _ _ Ho), Hid.
  - intros id o Hid. destruct (list_elem_of_split (end_to_end_reliable_tx_order st) id) as (l1 & l2 & Ho); [apply W; by eexists|].
    rewrite (E2 _ _ _ Ho), Hid. cbn. eexists. split; [done|].
    pose proof (releasable_spec st l1 id l2 o (order_nodup lim st W) Ho) as Hr. destruct (releasable _ l1 o) eqn:Er.
    + split; [by right|]. destruct (proj1 Hr eq_refl) as (_ & t & Ht & Hne). cbn. split; [|done]. intros _ t' Ht'. by simplify_eq.
    + split; [by left|]. split.
      * intros Hw t Ht He. pose proof (successors_wait lim st W id o t Hid Ht He). congruence.
      * intros Hne. destruct (ordered_type o) as [t|] eqn:Et; [|by apply (others_go lim st W id o)].
        destruct (waiting_for_predecessor o) eqn:Ew; [|done]. exfalso. enough (false = true) by done. apply Hr. eauto.
Qed.

Lemma scan_window lim now_ms st ready m' :
  window_ok lim st -> release_scan now_ms [] (end_to_end_reliable_tx_order st) (end_to_end_reliable_tx st) = (ready, m') ->
  window_ok lim (with_originals (fun _ => m') st).
Proof.
  intros W E. destruct (scan_originals lim now_ms st ready m' W E) as [H1 H2].
  assert (forall id o', m' !! id = Some o' -> exists o, end_to_end_reliable_tx st !! id = Some o /\ ordered_type o' = ordered_type o /\
    sent_retries o' = sent_retries o /\
    (waiting_for_predecessor o' = false <-> forall t, ordered_type o = Some t -> ~ earlier_of st t id)) as Hback.
  { intros id o' Ho'. destruct (end_to_end_reliable_tx st !! id) as [o|] eqn:Eo; [|by rewrite (H1 id Eo) in Ho'].
    destruct (H2 id o Eo) as (o1 & E1 & Hl & Hw). simplify_eq. exists o. split_and!; [done| | |done]; by destruct Hl as [->| ->]. }
  destruct W as [W1 W2 W3 W4 W5 W6]. split; cbn; [done| | | | |].
  - intros id [o' Hi]. apply W2. destruct (Hback id o' Hi) as (o & -> & _). by eexists.
  - enough (size m' <= size (end_to_end_reliable_tx st))%nat by lia. rewrite <- !size_dom. apply subseteq_size. intros id Hi.
    apply elem_of_dom in Hi as [o' Hi]. apply elem_of_dom. destruct (Hback id o' Hi) as (o & -> & _). by eexists.
  - intros id o' t Hi Ht (e & p & Hb & Hp & Hpt). cbn in Hb, Hp. destruct (Hback id o' Hi) as (o & Ho & Hty & _ & Hw).
    destruct (Hback e p Hp) as (p0 & Hp0 & Hpty & _). apply not_false_iff_true. rewrite Hw. intros Hall. apply (Hall t); [congruence|].
    exists e, p0. split_and!; [done..|congruence].
  - intros id o' Hi Ht. destruct (Hback id o' Hi) as (o & Ho & Hty & _ & Hw). apply Hw. intros t. congruence.
  - intros id o' Hi. destruct (Hback id o' Hi) as (o & Ho & _ & -> & _). by apply (W6 id o).
Qed.

(** *** A new original *)

Section Register.
Context `{WE : WireEnv} `{RQ : RetryQueue} (book : gmap Z bytes) (adm : Admission) (names : AddressState) (c : RouterConfig) (lim : Limits).

Lemma room_for_one id st :
  window_ok lim st -> Z.of_nat (size (end_to_end_reliable_tx st)) < pending_cap lim ->
  remember_end_to_end_reliable_tx lim id st =
  with_tx_order (live_order id (end_to_end_reliable_tx st) (end_to_end_reliable_tx_order st) ++ [id]) st.
Proof.
  intros W Hr. unfold remember_end_to_end_reliable_tx. rewrite drop_oldest_room; [done|].
  pose proof (live_order_size id (end_to_end_reliable_tx st) _ (order_nodup lim st W)). lia.
Qed.

(** Retained beside the others, at the end of the order. *)
Record retained_new (id : Z) (sent : EndToEndReliableSent) (st st' : Deliveries) : Prop := {
  new_absent : end_to_end_reliable_tx st !! id = None;
  new_table : end_to_end_reliable_tx st' = <[id := sent]> (end_to_end_reliable_tx st);
  new_order : end_to_end_reliable_tx_order st' = live_order id (end_to_end_reliable_tx st) (end_to_end_reliable_tx_order st) ++ [id];
  new_room : Z.of_nat (size (end_to_end_reliable_tx st)) < pending_cap lim;
  new_waits : waiting_for_predecessor sent = true <-> exists e p t, end_to_end_reliable_tx st !! e = Some p /\ ordered_type p = Some t /\ ordered_type sent = Some t;
  new_untried : sent_retries sent = 0 /\ sent_queued sent = false;
  new_tracked : tracked_destinations sent = true <-> pending_destinations sent <> ∅;
  new_rest : reliable_return_routes st' = reliable_return_routes st /\ reliable_return_route_order st' = reliable_return_route_order st /\
             receipt_cache st' = receipt_cache st;
}.

Lemma register_cases v ph env now_ms data dests st res st' :
  window_ok lim st -> register_end_to_end_reliable_tx book adm names c lim v ph env now_ms data dests st = (res, st') ->
  st' = st \/ exists sent, retained_new (get_hash data) sent st st' /\ res = Ok (negb (waiting_for_predecessor sent)).
Proof.
  intros W. unfold register_end_to_end_reliable_tx. destruct (_ ≫= _) as [[t pending]|]; [|intros [= <- <-]; by left].
  destruct (end_to_end_reliable_tx st !! get_hash data) eqn:Eid; [intros [= <- <-]; by left|].
  destruct (pending_cap lim <=? _) eqn:Ec; [intros [= <- <-]; by left|]. apply Z.leb_gt in Ec.
  destruct (_ <? _); [intros [= <- <-]; by left|]. destruct (payload_encoding_for_retention env data) as [retained|]; [|intros [= <- <-]; by left].
  destruct (allocated env); cbn [negb]; [|intros [= <- <-]; by left]. rewrite room_for_one by done. set (ordered := match reliable_mode _ t with Schema.Ordered => Some t | _ => None end). intros [= <- <-].
  right. eexists (Build_EndToEndReliableSent _ _ _ _ _ _ _ _). split; [|cbn [waiting_for_predecessor]; reflexivity]. split; try done; cbn.
  - rewrite andb_true_iff, bool_decide_eq_true, existsb_exists. split.
    + intros [[t' Ht] ([e p] & Hi%list_elem_of_In%elem_of_map_to_list & Hp)]. apply bool_decide_eq_true in Hp. cbn in Hp. exists e, p, t'. split_and!; congruence.
    + intros (e & p & t' & He & Hp & Ht). split; [by eexists|]. exists (e, p). rewrite <- list_elem_of_In, elem_of_map_to_list. split; [done|].
      apply bool_decide_eq_true. cbn. congruence.
  - by rewrite negb_true_iff, bool_decide_eq_false.
Qed.

Lemma new_window id sent st st' : window_ok lim st -> retained_new id sent st st' -> window_ok lim st'.
Proof.
  intros [W1 W2 W3 W4 W5 W6] [Ha Ht Ho Hr Hw [Hu _] _ _]. split; rewrite ?Ht, ?Ho.
  - apply NoDup_app. split_and!; [by apply NoDup_filter| |apply NoDup_singleton]. intros x Hx%live_order_spec. set_solver.
  - intros i Hi. apply elem_of_app. destruct (decide (i = id)) as [->|Hne]; [right; by left|]. left. apply live_order_spec.
    rewrite lookup_insert_ne in Hi by done. auto.
  - rewrite map_size_insert_None by done. lia.
  - intros i o t Hi Hty (e & p & Hb & Hp & Hpt). rewrite Ht, Ho in *. destruct (before_in _ _ _ Hb) as [He _].
    assert (e <> id) as Hne.
    { intros ->. apply before_snoc in Hb as [Hb|[_ Hb]]; [apply before_in in Hb as [Hb _]|]; apply live_order_spec in Hb; tauto. }
    rewrite lookup_insert_ne in Hp by done. apply before_snoc in Hb as [Hb|[-> _]].
    + destruct (decide (i = id)) as [->|Hni]; [apply before_in in Hb as [_ Hb]; apply live_order_spec in Hb; tauto|].
      rewrite lookup_insert_ne in Hi by done. apply (W4 i o t Hi Hty). exists e, p. split_and!; [|done..]. eapply before_sublist; [|exact Hb]. apply sublist_filter.
    + rewrite lookup_insert_eq in Hi. simplify_eq. apply Hw. by exists e, p, t.
  - intros i o Hi Hty. destruct (decide (i = id)) as [->|Hni].
    + rewrite lookup_insert_eq in Hi. simplify_eq. apply not_true_iff_false. rewrite Hw. intros (? & ? & t & _ & _ & ?). congruence.
    + rewrite lookup_insert_ne in Hi by done. by apply (W5 i o).
  - intros i o Hi. destruct (decide (i = id)) as [->|Hni]; [rewrite lookup_insert_eq in Hi; simplify_eq; lia|].
    rewrite lookup_insert_ne in Hi by done. by apply (W6 i o).
Qed.
End Register.

(** ** Runs *)

Inductive Event : Type :=
| Receipt (p : Packet) (id : Z)
| Service (again : list Z) (expired : list (Z * option Z))
| Abandon (id : Z)
| Other.

(** Who has acknowledged the original [id] in an event, and whether it was tried again. *)
Definition receipts_of (id : Z) (e : Event) : gset Z :=
  match e with
  | Receipt p i => if decide (i = id) then match end_to_end_ack_sender_hash p with Some owner => {[owner]} | None => ∅ end else ∅
  | _ => ∅
  end.
Definition tried_again (id : Z) (e : Event) : Z := match e with Service again _ => if one_of id again then 1 else 0 | _ => 0 end.

(** It is given up for its own sake, for that of a predecessor, or for want of a way back. *)
Definition given_up (id : Z) (ty : option Z) (e : Event) : Prop :=
  match e with
  | Service _ expired => (id, ty) ∈ expired \/ exists x t, ty = Some t /\ (x, Some t) ∈ expired
  | Abandon i => i = id
  | _ => False
  end.

(** The same original after an event: its cohort less the receipts. *)
Record heir (e : Event) (id : Z) (o o' : EndToEndReliableSent) : Prop := {
  heir_data : sent_data o' = sent_data o;
  heir_type : ordered_type o' = ordered_type o;
  heir_tracked : tracked_destinations o' = tracked_destinations o;
  heir_owed : dom (pending_destinations o) ⊆ dom (pending_destinations o') ∪ receipts_of id e;
  heir_cohort : dom (pending_destinations o') ⊆ dom (pending_destinations o);
  heir_retries : sent_retries o' = sent_retries o + tried_again id e;
}.

Definition left (e : Event) (id : Z) (o : EndToEndReliableSent) : Prop :=
  dom (pending_destinations o) ⊆ receipts_of id e \/ given_up id (ordered_type o) e.

Definition carries (e : Event) (st st' : Deliveries) : Prop :=
  forall id o, end_to_end_reliable_tx st !! id = Some o ->
  (exists o', end_to_end_reliable_tx st' !! id = Some o' /\ heir e id o o') \/ left e id o.
Definition calm (st st' : Deliveries) : Prop :=
  forall id o, end_to_end_reliable_tx st !! id = Some o -> exists o', end_to_end_reliable_tx st' !! id = Some o' /\ heir Other id o o'.

Lemma heir_same id o : heir Other id o o.
Proof. split; cbn; try done; [set_solver|lia]. Qed.

Lemma heir_receipt p i id o : heir (Receipt p i) id o o.
Proof. split; cbn; try done; [set_solver|lia]. Qed.

Lemma receipt_kept p id st : carries (Receipt p id) st st.
Proof. intros i o Ho. left. exists o. split; [done|apply heir_receipt]. Qed.

Lemma heir_trans e id a b d : heir e id a b -> heir Other id b d -> heir e id a d.
Proof. intros [] []. cbn in *. split; [congruence..|set_solver|set_solver|lia]. Qed.

Lemma calm_trans a b d : calm a b -> calm b d -> calm a d.
Proof. intros H1 H2 id o Ho. destruct (H1 id o Ho) as (o1 & Ho1 & Hh). destruct (H2 id o1 Ho1) as (o2 & ? & ?). exists o2. split; [done|]. by eapply heir_trans. Qed.

Lemma carries_calm e a b d : carries e a b -> calm b d -> carries e a d.
Proof.
  intros H1 H2 id o Ho. destruct (H1 id o Ho) as [(o1 & Ho1 & Hh)|]; [|by right]. destruct (H2 id o1 Ho1) as (o2 & ? & ?).
  left. exists o2. split; [done|]. by eapply heir_trans.
Qed.

Lemma calm_carries e a b d : calm a b -> carries e b d -> carries e a d.
Proof.
  intros H1 H2 id o Ho. destruct (H1 id o Ho) as (o1 & Ho1 & [Hd Ht Hk Hw Hc Hr]). cbn in Hw, Hr.
  destruct (H2 id o1 Ho1) as [(o2 & ? & [])|[Hl|Hl]].
  - left. exists o2. split; [done|]. split; [congruence..|set_solver|set_solver|lia].
  - right. left. set_solver.
  - right. right. by rewrite <- Ht.
Qed.

Lemma calm_other a b : calm a b -> carries Other a b.
Proof. intros H id o Ho. left. by apply H. Qed.

Lemma marked_calm st st' : marked st st' -> calm st st'.
Proof.
  intros (Hf & _) id o Ho. specialize (Hf id). rewrite Ho in Hf. inversion Hf as [? o' (? & ? & ? & Hp & ? & ?)|]; subst. exists o'. split; [done|].
  split; cbn; [done..|rewrite Hp; set_solver|by rewrite Hp|lia].
Qed.

Lemma edit_calm f id st : (forall o, heir Other id o (f o)) -> calm st (edit f id st).
Proof.
  intros Hf i o Ho. cbn. destruct (decide (i = id)) as [->|Hne].
  - rewrite lookup_alter_eq, Ho. by exists (f o).
  - rewrite lookup_alter_ne by done. exists o. split; [done|apply heir_same].
Qed.

Definition same_originals (st st' : Deliveries) : Prop :=
  end_to_end_reliable_tx st' = end_to_end_reliable_tx st /\ end_to_end_reliable_tx_order st' = end_to_end_reliable_tx_order st.

Lemma same_calm lim st st' : same_originals st st' -> dwindles lim st st' /\ calm st st'.
Proof.
  intros [Ht Ho]. split; [split; [done|]; rewrite Ht; intros id o Hi; exists o; split_and!; done || lia|]. intros id o Hi. exists o. rewrite Ht. split; [done|apply heir_same].
Qed.

Section Steps.
Context `{WE : WireEnv} `{RQ : RetryQueue} (book : gmap Z bytes) (adm : Admission) (names : AddressState) (c : RouterConfig) (lim : Limits).

Lemma release_spec now_ms st q res st' q' :
  window_ok lim st -> release_ordered_successors now_ms st q = (res, st', q') ->
  window_ok lim st' /\ calm st st' /\ (forall id, end_to_end_reliable_tx st !! id = None -> end_to_end_reliable_tx st' !! id = None) /\
  end_to_end_reliable_tx_order st' = end_to_end_reliable_tx_order st /\
  forall id o, end_to_end_reliable_tx st !! id = Some o -> exists o', end_to_end_reliable_tx st' !! id = Some o' /\
    (waiting_for_predecessor o' = false <-> forall t, ordered_type o = Some t -> ~ earlier_of st t id).
Proof.
  intros W. unfold release_ordered_successors. destruct (release_scan _ _ _ _) as [ready m'] eqn:E. intros Hq%queue_all_marked.
  destruct (scan_originals lim now_ms st ready m' W E) as [Hn H]. pose proof (scan_window lim now_ms st ready m' W E) as W'. split_and!.
  - eapply dwindles_window; [exact W'|]. by apply (marked_dwindles lim).
  - apply calm_trans with (with_originals (fun _ => m') st); [|by apply marked_calm]. intros id o Ho. destruct (H id o Ho) as (o' & ? & Hl & _).
    exists o'. split; [done|]. destruct Hl as [->| ->]; [apply heir_same|]. split; cbn; [done..|set_solver|done|lia].
  - intros id Hid%Hn. destruct Hq as (Hf & _). specialize (Hf id). cbn in Hf. rewrite Hid in Hf. by inversion Hf.
  - by destruct Hq as (_ & -> & _).
  - intros id o Ho. destruct (H id o Ho) as (o' & Ho' & _ & Hw). destruct Hq as (Hf & _). specialize (Hf id). cbn in Hf. rewrite Ho' in Hf.
    inversion Hf as [? o2 (? & ? & ? & ? & ? & Hw2)|]; subst. exists o2. split; [done|]. by rewrite Hw2.
Qed.

Lemma evict_routes_same turns : forall st b st', evict_routes lim turns st = (b, st') -> same_originals st st'.
Proof.
  induction turns as [|turns IH]; intros st b st'; cbn [evict_routes]; (destruct (_ <? _); [by intros [= <- <-]|]).
  - by intros [= <- <-].
  - destruct (list_find _ _) as [[i x]|]; [|by intros [= <- <-]]. by intros H%IH.
Qed.

Lemma remember_route_same used budget id st b st' : remember_reliable_return_route lim used budget id st = (b, st') -> same_originals st st'.
Proof.
  unfold remember_reliable_return_route. destruct (negb _); [by intros [= <- <-]|]. destruct (evict_routes _ _ _) as [room st1] eqn:E.
  apply evict_routes_same in E. destruct room; by intros [= <- <-].
Qed.

Lemma note_acked_same id owner st : same_originals st (note_end_to_end_acked_destination lim id owner st).
Proof. unfold note_end_to_end_acked_destination. by destruct (drop_oldest _ _ _). Qed.

Lemma reconcile_receipts_same v st : same_originals st (reconcile_forwarded_receipts c v st).
Proof. unfold reconcile_forwarded_receipts. by destruct (receipt_cache st). Qed.

Lemma reconcile_all_ok v now_ms active ids : forall st res st',
  reconcile_all book adm names c lim v now_ms active ids st = (res, st') -> dwindles lim st st' /\ calm st st'.
Proof.
  induction ids as [|id ids IH]; intros st res st'; cbn [reconcile_all].
  - intros [= <- <-]. by apply (same_calm lim).
  - destruct (end_to_end_reliable_tx st !! id) as [o|]; [|apply IH]. destruct (expected_end_to_end_destinations _ _ _ _ _ _ _ _ _ _ _) as [expected|].
    2: { intros [= <- <-]. by apply (same_calm lim). }
    destruct (tracked_destinations o); [|apply IH]. intros [Hd Hc]%IH. split.
    + etransitivity; [|exact Hd]. by apply (edit_dwindles lim).
    + eapply calm_trans; [|exact Hc]. apply edit_calm. intros x.
      assert (dom (map_imap (fun owner side => Some (next_hop expected active (excluded_side st id) owner side)) (pending_destinations x)) = dom (pending_destinations x)) as Hdom.
      { apply set_eq. intros k. rewrite !elem_of_dom, map_lookup_imap. destruct (pending_destinations x !! k); cbn; [|done]. split; by eexists. }
      split; cbn; [done..|rewrite Hdom; set_solver|by rewrite Hdom|lia].
Qed.

Lemma reconcile_ok v now_ms st res st' :
  reconcile_end_to_end_reliable_destinations book adm names c lim v now_ms st = (res, st') -> dwindles lim st st' /\ calm st st'.
Proof.
  unfold reconcile_end_to_end_reliable_destinations. pose proof (same_calm lim _ _ (reconcile_receipts_same v st)) as [Hd Hc].
  destruct (bool_decide _); [by intros [= <- <-]|]. intros [Hd2 Hc2]%reconcile_all_ok. split; [by etransitivity|by eapply calm_trans].
Qed.

(** *** The service of the deadlines *)

Definition expired (q : rq) (now_ms : Z) (m : gmap Z EndToEndReliableSent) : list (Z * option Z) :=
  omap (fun e => match sweep lim q now_ms (fst e) (snd e) with Expired => Some (fst e, ordered_type (snd e)) | _ => None end) (entries m).

(** What the service does to the originals, after the topology was reconciled. *)
Definition service_event (v : View) (changed : bool) (now_ms : Z) (st : Deliveries) (q : rq) : Event :=
  match (if changed then reconcile_end_to_end_reliable_destinations book adm names c lim v now_ms st else (Ok tt, st)) with
  | (Err _, _) => Other
  | (Ok _, st) => Service (retried lim q now_ms (end_to_end_reliable_tx st)) (expired q now_ms (end_to_end_reliable_tx st))
  end.

Lemma sweep_retry q now_ms id o : sweep lim q now_ms id o = Retry -> sent_retries o < reliable_max_retries lim.
Proof. unfold sweep. destruct (_ || _); [done|]. destruct (_ <=? _) eqn:Em; [done|]. by apply Z.leb_gt in Em. Qed.

Lemma expired_spec q now_ms m id ty :
  (id, ty) ∈ expired q now_ms m <-> exists o, m !! id = Some o /\ ordered_type o = ty /\ sweep lim q now_ms id o = Expired.
Proof.
  unfold expired. rewrite list_elem_of_omap. split.
  - intros ([i o] & Hi%entries_lookup & He). cbn in He. destruct (sweep lim q now_ms i o) eqn:Es; simplify_eq. by exists o.
  - intros (o & Ho & <- & Hs). exists (id, o). rewrite entries_lookup. cbn. by rewrite Hs.
Qed.

Lemma failed_types_spec q now_ms m t : t ∈ failed_types lim q now_ms m <-> exists id, (id, Some t) ∈ expired q now_ms m.
Proof.
  unfold failed_types. rewrite list_elem_of_omap. setoid_rewrite expired_spec. split.
  - intros ([i o] & Hi%entries_lookup & He). cbn in He. exists i, o. destruct (sweep lim q now_ms i o); done.
  - intros (i & o & Ho & Ht & Hs). exists (i, o). rewrite entries_lookup. cbn. by rewrite Hs.
Qed.

Lemma retried_spec q now_ms m id : id ∈ retried lim q now_ms m <-> exists o, m !! id = Some o /\ sweep lim q now_ms id o = Retry.
Proof.
  unfold retried. rewrite list_elem_of_omap. split.
  - intros ([i o] & Hi%entries_lookup & He). cbn in He. destruct (sweep lim q now_ms i o) eqn:Es; simplify_eq. by exists o.
  - intros (o & Ho & Hs). exists (id, o). rewrite entries_lookup. cbn. by rewrite Hs.
Qed.

Lemma of_failed_spec q now_ms m o : of_failed_type (failed_types lim q now_ms m) o = true <->
  exists t x, ordered_type o = Some t /\ (x, Some t) ∈ expired q now_ms m.
Proof.
  unfold of_failed_type. destruct (ordered_type o) as [t|]; [|split; [done|by intros (? & ? & ? & _)]].
  rewrite one_of_spec, failed_types_spec. split; [intros [x Hx]; eauto|intros (t' & x & [= <-] & Hx); eauto].
Qed.

(** The sweep and what it takes with it. *)
Definition after_sweep (q : rq) (now_ms : Z) (st : Deliveries) : Deliveries :=
  with_originals (fun m => filter (fun e => of_failed_type (failed_types lim q now_ms m) (snd e) = false) (swept lim q now_ms m)) st.

Lemma after_sweep_lookup q now_ms st id o' : end_to_end_reliable_tx (after_sweep q now_ms st) !! id = Some o' <->
  exists o, end_to_end_reliable_tx st !! id = Some o /\ of_failed_type (failed_types lim q now_ms (end_to_end_reliable_tx st)) o = false /\
    match sweep lim q now_ms id o with Keep => o' = o | Expired => False | Retry => o' = next_retry o end.
Proof.
  cbn. rewrite map_lookup_filter_Some. unfold swept. rewrite map_lookup_imap. cbn. destruct (end_to_end_reliable_tx st !! id) as [o|] eqn:Eo; cbn.
  - split.
    + intros [H Hf]. exists o. split; [done|]. destruct (sweep lim q now_ms id o); simplify_eq; done.
    + intros (o1 & [= <-] & Hf & Hs). destruct (sweep lim q now_ms id o); subst; done.
  - split; [by intros [? _]|by intros (? & ? & _)].
Qed.

Lemma after_sweep_dwindles q now_ms st : dwindles lim st (after_sweep q now_ms st).
Proof.
  split; [done|]. intros id o' (o & Ho & _ & Hs)%after_sweep_lookup. exists o. split; [done|].
  destruct (sweep lim q now_ms id o) eqn:Es; subst; [split_and!; done || lia|done|].
  apply sweep_retry in Es. cbn. split_and!; done || lia.
Qed.

Lemma after_sweep_carries q now_ms st :
  carries (Service (retried lim q now_ms (end_to_end_reliable_tx st)) (expired q now_ms (end_to_end_reliable_tx st))) st (after_sweep q now_ms st).
Proof.
  intros id o Ho. destruct (of_failed_type (failed_types lim q now_ms (end_to_end_reliable_tx st)) o) eqn:Ef.
  - right. right. right. apply of_failed_spec in Ef as (t & x & ? & ?). by exists x, t.
  - destruct (sweep lim q now_ms id o) eqn:Es.
    + left. exists o. split; [apply after_sweep_lookup; exists o; by rewrite Es|]. split; cbn; try done; [set_solver|].
      destruct (one_of _ _) eqn:E1; [|lia]. apply one_of_spec, retried_spec in E1 as (? & ? & ?). congruence.
    + right. right. left. apply expired_spec. by exists o.
    + left. exists (next_retry o). split; [apply after_sweep_lookup; exists o; by rewrite Es|]. split; cbn; try done; [set_solver|].
      replace (one_of _ _) with true; [done|]. symmetry. apply one_of_spec, retried_spec. by exists o.
Qed.

Lemma service_ok v changed now_ms st q res st' q' :
  window_ok lim st -> process_end_to_end_reliable_timeouts book adm names c lim v changed now_ms st q = (res, st', q') ->
  window_ok lim st' /\ carries (service_event v changed now_ms st q) st st'.
Proof.
  intros W. unfold process_end_to_end_reliable_timeouts, service_event.
  destruct (if changed then _ else _) as [r0 st0] eqn:E0. assert (dwindles lim st st0 /\ calm st st0) as [D0 C0].
  { destruct changed; [by apply reconcile_ok in E0|]. injection E0 as <- <-. by apply (same_calm lim). }
  assert (W0 : window_ok lim st0) by by eapply dwindles_window. destruct r0 as [[]|]; [|intros [= <- <- <-]; split; [done|by apply calm_other]].
  fold (after_sweep q now_ms st0). set (ev := Service _ _). set (st1 := with_originals _ st0). replace st1 with (after_sweep q now_ms st0) by done.
  assert (W1 : window_ok lim (after_sweep q now_ms st0)) by (eapply dwindles_window; [exact W0|apply after_sweep_dwindles]).
  assert (C1 : carries ev st (after_sweep q now_ms st0)) by (eapply calm_carries; [exact C0|apply after_sweep_carries]).
  destruct (queue_all now_ms _ (after_sweep q now_ms st0) q) as [[r2 st2] q2] eqn:E2. apply queue_all_marked in E2.
  assert (W2 : window_ok lim st2) by (eapply dwindles_window; [exact W1|by apply (marked_dwindles lim)]).
  assert (C2 : carries ev st st2) by (eapply carries_calm; [exact C1|by apply marked_calm]).
  destruct r2; [|by intros [= <- <- <-]]. destruct (release_ordered_successors now_ms st2 q2) as [[r3 st3] q3] eqn:E3.
  apply (release_spec now_ms st2 q2) in E3 as (W3 & C3 & _); [|done].
  assert (carries ev st st3) by by eapply carries_calm. destruct r3; by intros [= <- <- <-].
Qed.

(** *** Receipts *)

Lemma drop_owner_ok p id st o :
  end_to_end_reliable_tx st !! id = Some o ->
  let left := without_owner (end_to_end_ack_sender_hash p) (pending_destinations o) in
  dwindles lim st (edit (set_pending (fun _ => left)) id st) /\ carries (Receipt p id) st (edit (set_pending (fun _ => left)) id st).
Proof.
  intros Ho left0. split; [by apply (edit_dwindles lim)|]. intros i x Hx. left. cbn. destruct (decide (i = id)) as [->|Hne].
  - rewrite lookup_alter_eq, Ho. simplify_eq. eexists. split; [done|]. split; cbn; try done; [| |lia].
    + rewrite decide_True by done. unfold left0, without_owner. destruct (end_to_end_ack_sender_hash p) as [w|]; [|set_solver]. rewrite dom_delete_L. intros k Hk.
      destruct (decide (k = w)); set_solver.
    + unfold left0, without_owner. destruct (end_to_end_ack_sender_hash p); [rewrite dom_delete_L|]; set_solver.
  - rewrite lookup_alter_ne by done. exists x. split; [done|apply heir_receipt].
Qed.

Lemma settled_ok p id st o :
  end_to_end_reliable_tx st !! id = Some o -> without_owner (end_to_end_ack_sender_hash p) (pending_destinations o) = ∅ ->
  carries (Receipt p id) st (forget id st).
Proof.
  intros Ho Hl i x Hx. cbn. destruct (decide (i = id)) as [->|Hne].
  - right. left. assert (x = o) as -> by congruence. cbn. rewrite decide_True by done. unfold without_owner in Hl. destruct (end_to_end_ack_sender_hash p) as [w|].
    + intros k Hk. apply elem_of_singleton. destruct (decide (k = w)) as [->|Hkw]; [done|]. apply elem_of_dom in Hk as [y Hk].
      assert (delete w (pending_destinations o) !! k = Some y) as H by by rewrite lookup_delete_ne. by rewrite Hl in H.
    + rewrite Hl. set_solver.
  - left. exists x. rewrite lookup_delete_ne by done. split; [done|apply heir_receipt].
Qed.

Lemma settle_original_ok p id local now_ms st q res st' q' :
  window_ok lim st -> is_end_to_end_ack_packet p = true ->
  settle_original p id local now_ms st q = (res, st', q') -> window_ok lim st' /\ carries (Receipt p id) st st'.
Proof.
  intros W Hp. assert (exists w, end_to_end_ack_sender_hash p = Some w) as [w Hw] by (unfold is_end_to_end_ack_packet in Hp; destruct (end_to_end_ack_sender_hash p); by eauto).
  unfold settle_original. rewrite Hw. destruct (end_to_end_reliable_tx st !! id) as [o|] eqn:Eo.
  2: { intros [= <- <- <-]. split; [done|apply receipt_kept]. }
  destruct (waiting_for_predecessor o); [intros [= <- <- <-]; split; [done|apply receipt_kept]|].
  set (st1 := if bool_decide _ then _ else _). assert (dwindles lim st st1 /\ carries (Receipt p id) st st1) as [D1 C1].
  { unfold st1. case_bool_decide as Hl.
    - split; [apply (forget_dwindles lim)|]. apply settled_ok with o; [done|]. by rewrite Hw.
    - pose proof (drop_owner_ok p id st o Eo) as H. by rewrite Hw in H. }
  destruct (release_ordered_successors now_ms st1 q) as [[r st2] q2] eqn:E2. apply release_spec in E2 as (W2 & C2 & _); [|by eapply dwindles_window].
  assert (carries (Receipt p id) st st2) by by eapply carries_calm. destruct r; by intros [= <- <- <-].
Qed.

Lemma settle_proxy_ok used budget p id alias contract now_ms st q res st' q' :
  window_ok lim st -> settle_proxy lim used budget p id alias contract now_ms st q = (res, st', q') ->
  window_ok lim st' /\ carries (Receipt p id) st st'.
Proof.
  intros W. unfold settle_proxy. destruct (end_to_end_reliable_tx st !! id) as [o|] eqn:Eo; [|intros [= <- <- <-]; split; [done|apply receipt_kept]].
  case_bool_decide as Hl; cbn [negb].
  2: { intros [= <- <- <-]. destruct (drop_owner_ok p id st o Eo) as [D C]. split; [by eapply dwindles_window|done]. }
  set (st2 := complete_upstream _ _ _ _ _ _). assert (same_originals (forget id st) st2) as S.
  { unfold st2, complete_upstream. destruct (remember_reliable_return_route _ _ _ _ _) as [b st1] eqn:E. apply remember_route_same in E. by destruct b. }
  apply (same_calm lim) in S as [D2 C2]. assert (carries (Receipt p id) st st2) as C by (eapply carries_calm; [by eapply settled_ok|done]).
  assert (window_ok lim st2) as W2 by (eapply dwindles_window; [exact W|]; etransitivity; [apply (forget_dwindles lim)|exact D2]).
  destruct (send_receipt (fst contract) (snd contract) q) as [[r lost] q1]. pose proof (markers_lost_marked lost st2) as M.
  assert (window_ok lim (markers_lost lost st2)) as W3 by (eapply dwindles_window; [exact W2|by apply (marked_dwindles lim)]).
  assert (carries (Receipt p id) st (markers_lost lost st2)) as C3 by (eapply carries_calm; [exact C|by apply marked_calm]).
  destruct r; [|by intros [= <- <- <-]]. destruct (release_ordered_successors now_ms _ q1) as [[r st4] q4] eqn:E4.
  apply release_spec in E4 as (W4 & C4 & _); [|done]. assert (carries (Receipt p id) st st4) by by eapply carries_calm. destruct r; by intros [= <- <- <-].
Qed.

Lemma receipt_ok used budget p id now_ms st q res st' q' :
  window_ok lim st -> is_end_to_end_ack_packet p = true ->
  handle_end_to_end_receipt c lim used budget p id now_ms st q = (res, st', q') -> window_ok lim st' /\ carries (Receipt p id) st st'.
Proof.
  intros W Hp. unfold handle_end_to_end_receipt. set (st1 := note_forwarded _ _ _ _ _).
  assert (same_originals st st1) as S by (unfold st1, note_forwarded; destruct (end_to_end_ack_sender_hash p); [|done]; destruct (targets_local_sender c p); [done|apply note_acked_same]).
  apply (same_calm lim) in S as [D1 C1]. assert (window_ok lim st1) as W1 by by eapply dwindles_window.
  assert (forall r, settle_original p id (targets_local_sender c p) now_ms st1 q = r -> window_ok lim (snd (fst r)) /\ carries (Receipt p id) st (snd (fst r))) as Ho.
  { intros [[r st2] q2] E. apply settle_original_ok in E as [W2 C2]; [|done..]. split; [done|]. by eapply calm_carries. }
  destruct (reliable_return_routes st1 !! id) as [alias|]; [destruct (upstream_contract alias) as [contract|]|].
  - intros [W2 C2]%settle_proxy_ok; [|done]. split; [done|]. by eapply calm_carries.
  - intros E%Ho. done.
  - intros E%Ho. done.
Qed.
End Steps.

(** ** Runs of a router *)

Definition deliveries_empty : Deliveries :=
  {| end_to_end_reliable_tx := ∅; end_to_end_reliable_tx_order := []; reliable_return_routes := ∅; reliable_return_route_order := [];
     receipt_cache := None; local_admission_sequence := 0 |}.

Section Runs.
Context `{WE : WireEnv} `{RQ : RetryQueue} (book : gmap Z bytes) (adm : Admission) (names : AddressState) (c : RouterConfig) (lim : Limits).

(** What changes the deliveries of a router.  Work that does not touch the originals is
    [by_routes]; the queue moves on by itself and loses or hands out markers. *)
Inductive delivery_step : Deliveries * rq -> Event -> Deliveries * rq -> Prop :=
| by_register v ph env now_ms data dests st q res st' :
    register_end_to_end_reliable_tx book adm names c lim v ph env now_ms data dests st = (res, st') ->
    delivery_step (st, q) Other (st', q)
| by_reconcile v now_ms st q res st' :
    reconcile_end_to_end_reliable_destinations book adm names c lim v now_ms st = (res, st') ->
    delivery_step (st, q) Other (st', q)
| by_service v changed now_ms st q res st' q' :
    process_end_to_end_reliable_timeouts book adm names c lim v changed now_ms st q = (res, st', q') ->
    delivery_step (st, q) (service_event book adm names c lim v changed now_ms st q) (st', q')
| by_receipt used budget p id now_ms st q res st' q' :
    is_end_to_end_ack_packet p = true -> decode_end_to_end_reliable_ack (payload p) = Ok id ->
    handle_end_to_end_receipt c lim used budget p id now_ms st q = (res, st', q') ->
    delivery_step (st, q) (Receipt p id) (st', q')
| by_release now_ms st q res st' q' :
    release_ordered_successors now_ms st q = (res, st', q') -> delivery_step (st, q) Other (st', q')
| by_queue lost st q q' : delivery_step (st, q) Other (markers_lost lost st, q')
| by_dispatch now_ms id st q res st' :
    end_to_end_retransmit_sides now_ms id st = (res, st') -> delivery_step (st, q) Other (st', q)
| by_lease id st q b st' : lease_e2e_send id st = (b, st') -> delivery_step (st, q) Other (st', q)
| by_unlease id st q : delivery_step (st, q) Other (drop_parent_lease id st, q)
| by_child now_ms id ok refused admitted st q : delivery_step (st, q) Other (finish_e2e_child_claim now_ms id ok refused admitted st, q)
| by_admission used budget sides now_ms seen side id parent st q res st' :
    begin_reliable_local_admission lim used budget sides now_ms seen side id parent st = (res, st') -> delivery_step (st, q) Other (st', q)
| by_commit g accepted st q res st' : begin_commit g accepted st = (res, st') -> delivery_step (st, q) Other (st', q)
| by_end_commit g st q : delivery_step (st, q) Other (end_commit g st, q)
| by_drop_lease g st q : delivery_step (st, q) Other (drop_lease g st, q)
| by_remove_side known busy side st q res st' : remove_side known busy side st = (res, st') -> delivery_step (st, q) Other (st', q)
| by_ingress known side enabled st q res st' : set_side_ingress_enabled known side enabled st = (res, st') -> delivery_step (st, q) Other (st', q)
| by_egress current side enabled st q res st' : set_side_egress_enabled current side enabled st = (res, st') -> delivery_step (st, q) Other (st', q)
| by_replay now_ms id st q b st' : take_replay lim now_ms id st = (b, st') -> delivery_step (st, q) Other (st', q)
| by_proxy used budget upstream downstream publisher st q res st' :
    retain_proxy lim used budget upstream downstream publisher st = (res, st') ->
    delivery_step (st, q) (if is_ok res then Other else Abandon downstream) (st', q).

Inductive delivery_run : Deliveries * rq -> list Event -> Deliveries * rq -> Prop :=
| run_none s : delivery_run s [] s
| run_step s e s1 es s' : delivery_step s e s1 -> delivery_run s1 es s' -> delivery_run s (e :: es) s'.

Lemma dispatch_ok now_ms id st res st' : end_to_end_retransmit_sides now_ms id st = (res, st') -> dwindles lim st st' /\ carries Other st st'.
Proof.
  unfold end_to_end_retransmit_sides. destruct (end_to_end_reliable_tx st !! id) as [o|] eqn:Eo; [|intros [= <- <-]; split; [done|by apply calm_other, (same_calm lim)]].
  assert (marked st (edit (set_sent_ms (fun _ => now_ms)) id st)) as M by (apply edit_marked; by intros []).
  destruct (tracked_destinations o && _) eqn:Et; intros [= <- <-].
  - split; [etransitivity; [by apply (marked_dwindles lim)|apply (forget_dwindles lim)]|]. intros i x Hx. destruct (decide (i = id)) as [->|Hne].
    + right. left. assert (x = o) as -> by congruence. apply andb_true_iff in Et as [_ Et]. intros k [y Hk%entries_lookup]%elem_of_dom.
      destruct (entries (pending_destinations o)); [by apply not_elem_of_nil in Hk|done].
    + left. exists x. cbn. rewrite lookup_delete_ne, lookup_alter_ne by done. split; [done|apply heir_same].
  - split; [by apply (marked_dwindles lim)|]. by apply calm_other, marked_calm.
Qed.

Lemma proxy_ok used budget upstream downstream publisher st res st' :
  retain_proxy lim used budget upstream downstream publisher st = (res, st') ->
  dwindles lim st st' /\ carries (if is_ok res then Other else Abandon downstream) st st'.
Proof.
  assert (forall a, same_originals st a -> dwindles lim st (forget downstream a) /\ carries (Abandon downstream) st (forget downstream a)) as Hf.
  { intros a S. apply (same_calm lim) in S as [D C]. split; [etransitivity; [exact D|apply (forget_dwindles lim)]|]. eapply calm_carries; [exact C|].
    intros i x Hx. destruct (decide (i = downstream)) as [->|Hne]; [right; by right|]. left. exists x. cbn. rewrite lookup_delete_ne by done.
    split; [done|]. destruct (heir_same i x). by split. }
  unfold retain_proxy. destruct (reliable_return_routes st !! upstream) as [r|]; [|intros [= <- <-]; by apply Hf].
  destruct (remember_reliable_return_route _ _ _ _ _) as [b st1] eqn:E. apply remember_route_same in E. destruct b; intros [= <- <-]; [|by apply Hf].
  cbn [is_ok]. destruct (same_calm lim st (with_return_routes <[downstream := set_upstream (Some (upstream, publisher)) r]> st1)) as [D C]; [by destruct E|].
  split; [done|by apply calm_other].
Qed.

Lemma admission_same used budget sides now_ms seen side id parent st res st' :
  begin_reliable_local_admission lim used budget sides now_ms seen side id parent st = (res, st') -> same_originals st st'.
Proof.
  unfold begin_reliable_local_admission. intros H.
  repeat match type of H with context [match ?x with _ => _ end] =>
    first [ destruct (remember_reliable_return_route lim used budget id st) as [b st1] eqn:E; apply remember_route_same in E
          | destruct x ] end; simplify_eq; done.
Qed.

Lemma delivery_step_ok s e s' : window_ok lim (fst s) -> delivery_step s e s' -> window_ok lim (fst s') /\ carries e (fst s) (fst s').
Proof.
  intros W H. assert (forall st st', window_ok lim st -> dwindles lim st st' /\ calm st st' -> window_ok lim st' /\ carries Other st st') as Hd.
  { intros st st' W0 [D C]. split; [by eapply dwindles_window|by apply calm_other]. }
  assert (forall st st', window_ok lim st -> same_originals st st' -> window_ok lim st' /\ carries Other st st') as Hs by (intros; apply Hd; [done|by apply (same_calm lim)]).
  assert (forall st st', window_ok lim st -> marked st st' -> window_ok lim st' /\ carries Other st st') as Hm
    by (intros; apply Hd; [done|]; split; [by apply (marked_dwindles lim)|by apply marked_calm]).
  destruct H; cbn [fst] in *.
  - apply (register_cases book adm names c lim) in H as [->|(sent & N & _)]; [by apply Hs| |done]. split; [by eapply new_window|]. destruct N as [Ha Ht _ _ _ _ _ _].
    apply calm_other. intros i o Ho. exists o. rewrite Ht, lookup_insert_ne by congruence. split; [done|apply heir_same].
  - apply Hd; [done|]. by eapply reconcile_ok.
  - by eapply service_ok.
  - by eapply receipt_ok.
  - apply (release_spec lim) in H as (? & ? & _); [|done]. split; [done|by apply calm_other].
  - apply Hm; [done|apply markers_lost_marked].
  - apply dispatch_ok in H as [D C]. split; [by eapply dwindles_window|done].
  - apply Hm; [done|]. unfold lease_e2e_send in H. destruct (_ !! id); injection H as <- <-; [apply edit_marked; by intros []|done].
  - apply Hm; [done|]. apply edit_marked. by intros [].
  - apply Hm; [done|]. unfold finish_e2e_child_claim. destruct (_ && _); [apply edit_marked; by intros []|done].
  - apply Hs; [done|]. by eapply admission_same.
  - apply Hs; [done|]. unfold begin_commit in H. destruct (check_locked g st); by injection H as <- <-.
  - apply Hs; [done|]. unfold end_commit. by destruct (holds_lease g st).
  - apply Hs; [done|]. unfold drop_lease. destruct (holds_lease g st) as [r|]; [|done]. by destruct (admission_cancelled r).
  - apply Hs; [done|]. unfold remove_side in H. destruct (rx_commit_busy side st), busy, known; by injection H as <- <-.
  - apply Hs; [done|]. unfold set_side_ingress_enabled in H. destruct (_ && _), known, enabled; by injection H as <- <-.
  - apply Hs; [done|]. unfold set_side_egress_enabled in H. destruct current as [was|]; [|by injection H as <- <-].
    destruct (negb enabled && negb (Bool.eqb was enabled)); cbn in H; [destruct (rx_commit_busy side st)|]; by injection H as <- <-.
  - apply Hs; [done|]. unfold take_replay in H. destruct (_ !! id) as [r|]; [destruct (_ <? _)|]; by injection H as <- <-.
  - apply proxy_ok in H as [D C]. split; [by eapply dwindles_window|done].
Qed.

Lemma empty_window : window_ok lim deliveries_empty.
Proof.
  split; cbn; [constructor|by intros id [? H]| |done|done|done]. rewrite map_size_empty. unfold pending_cap. lia.
Qed.

Lemma run_window s es s' : window_ok lim (fst s) -> delivery_run s es s' -> window_ok lim (fst s').
Proof. intros W H. revert W. induction H as [|s e s1 es s' Hs _ IH]; [done|]. intros W. apply IH. by eapply delivery_step_ok. Qed.

Definition reached (s : Deliveries * rq) : Prop := exists q0 es, delivery_run (deliveries_empty, q0) es s.

Lemma reached_window s : reached s -> window_ok lim (fst s).
Proof. intros (q0 & es & H). eapply run_window; [|exact H]. apply empty_window. Qed.

(** Of two originals of a type the first in order is the one that goes. *)
Definition first_of_type (st : Deliveries) (id t : Z) : Prop :=
  forall e p, end_to_end_reliable_tx st !! e = Some p -> ordered_type p = Some t -> e <> id -> before (end_to_end_reliable_tx_order st) id e.

Lemma first_not_earlier st id o t : window_ok lim st -> end_to_end_reliable_tx st !! id = Some o -> first_of_type st id t <-> ~ earlier_of st t id.
Proof.
  intros W Hid. pose proof (order_nodup lim st W) as Hn. pose proof (order_known lim st W id (mk_is_Some _ _ Hid)) as Hi. split.
  - intros Hf (e & p & Hb & He & Ht). pose proof (before_ne _ _ _ Hn Hb) as Hne. by apply (before_asym _ _ _ Hn Hb), (Hf e p).
  - intros Hno e p He Ht Hne. destruct (before_total (end_to_end_reliable_tx_order st) id e) as [|Hb]; [done..|apply W; by eexists|done|done|].
    destruct Hno. by exists e, p.
Qed.

(** C18: in every reached state the table holds at most as many originals as it may, of
    each ordered type at most one is on its way, and it is the first of its type in the
    order they were accepted; and whenever the successors are released, in every type
    the first is on its way and all others wait. *)
Theorem ordered_one_at_a_time st q :
  reached (st, q) ->
  Z.of_nat (size (end_to_end_reliable_tx st)) <= pending_cap lim /\
  (forall a b oa ob t, end_to_end_reliable_tx st !! a = Some oa -> end_to_end_reliable_tx st !! b = Some ob ->
     ordered_type oa = Some t -> ordered_type ob = Some t ->
     waiting_for_predecessor oa = false -> waiting_for_predecessor ob = false -> a = b) /\
  (forall id o t, end_to_end_reliable_tx st !! id = Some o -> ordered_type o = Some t -> waiting_for_predecessor o = false -> first_of_type st id t) /\
  (forall now_ms res st' q' id o t, release_ordered_successors now_ms st q = (res, st', q') ->
     end_to_end_reliable_tx st' !! id = Some o -> ordered_type o = Some t -> waiting_for_predecessor o = false <-> first_of_type st' id t).
Proof.
  intros W%reached_window. cbn in W.
  assert (forall id o t, end_to_end_reliable_tx st !! id = Some o -> ordered_type o = Some t -> waiting_for_predecessor o = false -> first_of_type st id t) as Hf.
  { intros id o t Hid Ht Hw. apply (first_not_earlier st id o); [done..|]. intros He. pose proof (successors_wait lim st W id o t Hid Ht He). congruence. }
  split_and!; [apply W| |done|].
  - intros a b oa ob t Ha Hb Hta Htb Hwa Hwb. destruct (decide (a = b)) as [|Hne]; [done|]. exfalso.
    eapply (before_asym _ a b (order_nodup lim st W)); [by eapply (Hf a oa t)|by eapply (Hf b ob t)].
  - intros now_ms res st' q' id o t E Ho' Ht. destruct (release_spec lim now_ms st q res st' q' W E) as (W' & Hcalm & Hn & Hord & Hw).
    destruct (end_to_end_reliable_tx st !! id) as [o0|] eqn:E0; [|by rewrite (Hn id E0) in Ho'].
    destruct (Hw id o0 E0) as (o1 & E1 & Hw1). destruct (Hcalm id o0 E0) as (o2 & E2 & [_ Ht0 _ _ _ _]).
    assert (o1 = o) as -> by congruence. assert (o2 = o) as -> by congruence. rewrite Hw1, (first_not_earlier st' id o) by done. split.
    + intros Hall (e & p & Hb & He & Hpt). apply (Hall t); [congruence|]. rewrite Hord in Hb.
      destruct (end_to_end_reliable_tx st !! e) as [p0|] eqn:Ep; [|by rewrite (Hn e Ep) in He]. destruct (Hcalm e p0 Ep) as (p1 & Ep1 & [_ ? _ _ _ _]).
      assert (p1 = p) as -> by congruence. exists e, p0. split_and!; [done..|congruence].
    + intros Hno t1 Ht1 (e & p & Hb & He & Hpt). destruct Hno. destruct (Hcalm e p He) as (p1 & ? & [_ ? _ _ _ _]). exists e, p1. rewrite Hord. split_and!; [done..|congruence].
Qed.

(** The receipts for an original in a run, and how often it was tried again. *)
Definition acknowledged (id : Z) (es : list Event) : gset Z := ⋃ map (receipts_of id) es.
Definition tries (id : Z) (es : list Event) : Z := foldr (fun e n => tried_again id e + n) 0 es.

Lemma run_carries s es s' id o :
  window_ok lim (fst s) -> delivery_run s es s' -> end_to_end_reliable_tx (fst s) !! id = Some o ->
  (exists o', end_to_end_reliable_tx (fst s') !! id = Some o' /\ sent_data o' = sent_data o /\ ordered_type o' = ordered_type o /\
     dom (pending_destinations o') ⊆ dom (pending_destinations o) /\
     dom (pending_destinations o) ⊆ dom (pending_destinations o') ∪ acknowledged id es /\
     sent_retries o' = sent_retries o + tries id es) \/
  dom (pending_destinations o) ⊆ acknowledged id es \/ Exists (given_up id (ordered_type o)) es.
Proof.
  intros W H. revert W o. induction H as [s|s e s1 es s' Hs _ IH]; intros W o Ho.
  - left. exists o. split_and!; [done..|set_solver|cbn; lia].
  - destruct (delivery_step_ok s e s1 W Hs) as [W1 C]. unfold acknowledged. cbn [map union_list foldr]. destruct (C id o Ho) as [(o1 & Ho1 & [Hd Ht _ Hw Hsub Hr])|[Hl|Hl]].
    + destruct (IH W1 o1 Ho1) as [(o2 & ? & ? & ? & ? & Hw2 & Hr2)|[Ha|Ha]].
      * left. exists o2. fold (acknowledged id es). split_and!; [done|congruence..|set_solver|set_solver|]. unfold tries in *. cbn [foldr]. lia.
      * right. left. fold (acknowledged id es). set_solver.
      * right. right. right. by rewrite <- Ht.
    + right. left. set_solver.
    + right. right. by left.
Qed.

(** C17: an original stays as it was accepted, with those of its cohort that have not
    acknowledged it, as long as it is neither acknowledged by its whole cohort nor given
    up; nothing else removes it, nor takes a board out of its cohort: not a change of
    the topology, not another original, not a full queue. *)
Theorem originals_are_kept st q es st' q' id o :
  reached (st, q) -> delivery_run (st, q) es (st', q') -> end_to_end_reliable_tx st !! id = Some o ->
  ~ dom (pending_destinations o) ⊆ acknowledged id es -> Forall (fun e => ~ given_up id (ordered_type o) e) es ->
  exists o', end_to_end_reliable_tx st' !! id = Some o' /\ sent_data o' = sent_data o /\ ordered_type o' = ordered_type o /\
    dom (pending_destinations o') ⊆ dom (pending_destinations o) /\
    dom (pending_destinations o) ∖ acknowledged id es ⊆ dom (pending_destinations o') /\
    sent_retries o' = sent_retries o + tries id es.
Proof.
  intros W%reached_window Hr Ho Hack Hup. destruct (run_carries (st, q) es (st', q') id o W Hr Ho) as [(o' & ? & ? & ? & ? & ? & ?)|[?|Hg]]; [|done|].
  - exists o'. split_and!; try done. set_solver.
  - apply Exists_exists in Hg as (e & He & Hg). rewrite Forall_forall in Hup. by destruct (Hup e He).
Qed.

(** Its receipts are late, and nothing of it waits to be sent. *)
Definition due (q : rq) (now_ms id : Z) (o : EndToEndReliableSent) : Prop :=
  all_owned q id o = false /\ waiting_for_predecessor o = false /\ sent_queued o = false /\
  reliable_retransmit_ms lim <= wrap64 (now_ms - last_send_ms o).

Lemma sweep_spec q now_ms id o :
  sweep lim q now_ms id o = Keep /\ ~ due q now_ms id o \/
  due q now_ms id o /\ (sweep lim q now_ms id o = Expired /\ reliable_max_retries lim <= sent_retries o \/
                        sweep lim q now_ms id o = Retry /\ sent_retries o < reliable_max_retries lim).
Proof.
  unfold sweep, due. destruct (all_owned q id o); [left; split; [done|by intros (? & _)]|].
  destruct (waiting_for_predecessor o); [left; split; [done|by intros (_ & ? & _)]|].
  destruct (sent_queued o); [left; split; [done|by intros (_ & _ & ? & _)]|]. cbn [orb].
  destruct (_ <? _) eqn:Et; [left; split; [done|]|right]; [apply Z.ltb_lt in Et; lia|apply Z.ltb_ge in Et; split; [done|]].
  destruct (_ <=? _) eqn:Em; [left; by apply Z.leb_le in Em|right; by apply Z.leb_gt in Em].
Qed.

(** The originals behind the sweep are marked and released, no more. *)
Lemma service_sweep v now_ms st q res st' q' :
  window_ok lim st -> process_end_to_end_reliable_timeouts book adm names c lim v false now_ms st q = (res, st', q') ->
  calm (after_sweep lim q now_ms st) st' /\
  (forall id, end_to_end_reliable_tx (after_sweep lim q now_ms st) !! id = None -> end_to_end_reliable_tx st' !! id = None) /\
  (is_ok res = true -> failed_types lim q now_ms (end_to_end_reliable_tx st) = []).
Proof.
  intros W. unfold process_end_to_end_reliable_timeouts. fold (after_sweep lim q now_ms st). set (st1 := after_sweep lim q now_ms st).
  assert (W1 : window_ok lim st1) by (eapply dwindles_window; [exact W|apply after_sweep_dwindles]).
  change (with_originals _ st) with st1. destruct (queue_all now_ms _ st1 q) as [[r2 st2] q2] eqn:E2. apply queue_all_marked in E2.
  assert (forall id, end_to_end_reliable_tx st1 !! id = None -> end_to_end_reliable_tx st2 !! id = None) as N2.
  { intros id Hid. destruct E2 as (Hf & _). specialize (Hf id). rewrite Hid in Hf. by inversion Hf. }
  destruct r2; [|intros [= <- <- <-]; split_and!; [by apply marked_calm|done|done]].
  destruct (release_ordered_successors now_ms st2 q2) as [[r3 st3] q3] eqn:E3.
  apply (release_spec lim) in E3 as (_ & C3 & N3 & _); [|eapply dwindles_window; [exact W1|by apply (marked_dwindles lim)]].
  assert (calm st1 st3) by (eapply calm_trans; [by apply marked_calm|done]).
  destruct r3; intros [= <- <- <-]; split_and!; try done; auto. destruct (failed_types _ _ _ _); [done|by intros].
Qed.

(** *** When an original was last tried *)

(** The time of the last try only moves on. *)
Definition later (m m' : gmap Z EndToEndReliableSent) : Prop :=
  forall id o', m' !! id = Some o' -> exists o, m !! id = Some o /\ last_send_ms o <= last_send_ms o'.

#[local] Instance later_preorder : PreOrder later.
Proof.
  split; [intros m id o Ho; by exists o|]. intros a b e Hab Hbe id o Ho. destruct (Hbe id o Ho) as (o1 & Ho1 & H1).
  destruct (Hab id o1 Ho1) as (o2 & ? & H2). exists o2. split; [done|lia].
Qed.

Lemma edit_later f id st : (forall o, last_send_ms o <= last_send_ms (f o)) -> later (end_to_end_reliable_tx st) (end_to_end_reliable_tx (edit f id st)).
Proof.
  intros Hf i o'. cbn. destruct (decide (i = id)) as [->|Hne]; [|rewrite lookup_alter_ne by done; intros; by exists o'].
  rewrite lookup_alter_eq. destruct (end_to_end_reliable_tx st !! id) as [o|]; [|done]. intros [= <-]. by exists o.
Qed.

Lemma markers_lost_later ids st : later (end_to_end_reliable_tx st) (end_to_end_reliable_tx (markers_lost ids st)).
Proof.
  revert st. induction ids as [|id ids IH]; intros st; [done|]. cbn. etransitivity; [|apply IH]. apply edit_later. intros o. cbn. lia.
Qed.

Lemma queue_retransmit_later now_ms id st q res st' q' : queue_end_to_end_reliable_retransmit now_ms id st q = (res, st', q') ->
  later (end_to_end_reliable_tx st) (end_to_end_reliable_tx st') /\
  (is_ok res = true -> forall o', end_to_end_reliable_tx st' !! id = Some o' -> now_ms <= last_send_ms o').
Proof.
  unfold queue_end_to_end_reliable_retransmit, queue_marker.
  assert (forall st1, later (end_to_end_reliable_tx st1) (end_to_end_reliable_tx (edit (set_sent_ms (fun t => Z.max t now_ms)) id st1)) /\
    forall o', end_to_end_reliable_tx (edit (set_sent_ms (fun t => Z.max t now_ms)) id st1) !! id = Some o' -> now_ms <= last_send_ms o') as Hset.
  { intros st1. split; [apply edit_later; intros o; cbn; lia|]. intros o'. cbn. rewrite lookup_alter_eq. destruct (_ !! _); [|done]. intros [= <-]. cbn. lia. }
  destruct (end_to_end_reliable_tx st !! id) as [o|]; [|intros [= <- <- <-]; by destruct (Hset st)].
  destruct (sent_queued o); [intros [= <- <- <-]; by destruct (Hset st)|]. destruct (push_marker id q) as [[r lost] q1].
  destruct r; intros [= <- <- <-]; [|split; [apply markers_lost_later|done]]. destruct (Hset (edit (set_queued true) id (markers_lost lost st))) as [H1 H2].
  split; [|intros _; exact H2]. etransitivity; [apply markers_lost_later|]. etransitivity; [|exact H1]. apply edit_later. intros x. cbn. lia.
Qed.

Lemma queue_all_later now_ms ids : forall st q res st' q', queue_all now_ms ids st q = (res, st', q') ->
  later (end_to_end_reliable_tx st) (end_to_end_reliable_tx st') /\
  (is_ok res = true -> forall id o', id ∈ ids -> end_to_end_reliable_tx st' !! id = Some o' -> now_ms <= last_send_ms o').
Proof.
  induction ids as [|id ids IH]; intros st q res st' q'; cbn [queue_all].
  - intros [= <- <- <-]. split; [done|]. by intros _ i o Hi%not_elem_of_nil.
  - destruct (queue_end_to_end_reliable_retransmit now_ms id st q) as [[r st1] q1] eqn:E. apply queue_retransmit_later in E as [L1 H1].
    destruct r; [|intros [= <- <- <-]; by split]. intros [L2 H2]%IH. split; [by etransitivity|]. intros Hok i o' [->|Hi]%elem_of_cons Ho'.
    + destruct (L2 id o' Ho') as (o1 & Ho1 & ?). specialize (H1 eq_refl o1 Ho1). lia.
    + by apply (H2 Hok i).
Qed.

(** After a pass without an error what was tried again was last sent now. *)
Lemma service_sent v now_ms st q st' q' id o o' :
  window_ok lim st -> process_end_to_end_reliable_timeouts book adm names c lim v false now_ms st q = (Ok tt, st', q') ->
  end_to_end_reliable_tx st !! id = Some o -> sweep lim q now_ms id o = Retry -> end_to_end_reliable_tx st' !! id = Some o' -> now_ms <= last_send_ms o'.
Proof.
  intros W E Ho Hs Ho'. unfold process_end_to_end_reliable_timeouts in E. fold (after_sweep lim q now_ms st) in E.
  change (with_originals _ st) with (after_sweep lim q now_ms st) in E. set (st1 := after_sweep lim q now_ms st) in E.
  assert (W1 : window_ok lim st1) by (eapply dwindles_window; [exact W|apply after_sweep_dwindles]).
  destruct (queue_all now_ms _ st1 q) as [[r2 st2] q2] eqn:E2. pose proof E2 as M2%queue_all_marked. apply queue_all_later in E2 as [_ H2].
  destruct r2; [|done]. assert (W2 : window_ok lim st2) by (eapply dwindles_window; [exact W1|by apply (marked_dwindles lim)]).
  destruct (release_ordered_successors now_ms st2 q2) as [[r3 st3] q3] eqn:E3. assert (st3 = st') as -> by (destruct r3; by simplify_eq).
  unfold release_ordered_successors in E3. destruct (release_scan _ _ _ _) as [ready m'] eqn:Es. destruct (scan_originals lim now_ms st2 ready m' W2 Es) as [Hn H].
  apply queue_all_later in E3 as [L3 _]. destruct (L3 id o' Ho') as (o3 & Ho3 & Hle). cbn in Ho3.
  destruct (end_to_end_reliable_tx st2 !! id) as [o2|] eqn:Eo2; [|by rewrite (Hn id Eo2) in Ho3]. destruct (H id o2 Eo2) as (x & Hx & Hl & _).
  assert (x = o3) as -> by congruence. assert (id ∈ retried lim q now_ms (end_to_end_reliable_tx st)) as Hin by (apply retried_spec; by exists o).
  specialize (H2 eq_refl id o2 Hin Eo2). destruct Hl as [->| ->]; cbn in Hle; lia.
Qed.

(** What one pass makes of an original, the ways being renewed. *)
Lemma pass_originals v now_ms st q res st' q' id o :
  window_ok lim st -> 0 <= reliable_max_retries lim ->
  process_end_to_end_reliable_timeouts book adm names c lim v false now_ms st q = (res, st', q') ->
  end_to_end_reliable_tx st !! id = Some o ->
  0 <= sent_retries o <= reliable_max_retries lim /\
  (due q now_ms id o -> sent_retries o = reliable_max_retries lim ->
     end_to_end_reliable_tx st' !! id = None /\
     forall t, ordered_type o = Some t -> is_ok res = false /\ forall e p, end_to_end_reliable_tx st' !! e = Some p -> ordered_type p <> Some t) /\
  (~ (exists e p, end_to_end_reliable_tx st !! e = Some p /\ due q now_ms e p /\ sent_retries p = reliable_max_retries lim /\
        (e = id \/ ordered_type p = ordered_type o /\ is_Some (ordered_type o))) ->
     exists o', end_to_end_reliable_tx st' !! id = Some o' /\ dom (pending_destinations o') = dom (pending_destinations o) /\
       (due q now_ms id o /\ sent_retries o' = sent_retries o + 1 /\ (is_ok res = true -> now_ms <= last_send_ms o') \/
        ~ due q now_ms id o /\ sent_retries o' = sent_retries o)).
Proof.
  intros W Hmax E Ho. destruct (service_sweep v now_ms st q res st' q' W E) as (C & N & Hres).
  pose proof (retries_within lim st W id o Ho) as Hr. split_and!; [lia..| |].
  - intros Hdue Hlast. assert (sweep lim q now_ms id o = Expired) as Hs.
    { destruct (sweep_spec q now_ms id o) as [[_ ?]|[_ [[? _]|[_ ?]]]]; [done|done|lia]. } split.
    + apply N. destruct (end_to_end_reliable_tx (after_sweep lim q now_ms st) !! id) as [o'|] eqn:E'; [|done].
      apply after_sweep_lookup in E' as (o1 & Ho1 & _ & H1). assert (o1 = o) as -> by congruence. by rewrite Hs in H1.
    + intros t Ht. assert (t ∈ failed_types lim q now_ms (end_to_end_reliable_tx st)) as Hf by (apply failed_types_spec; exists id; apply expired_spec; by exists o).
      split; [apply not_true_iff_false; intros Hok%Hres; rewrite Hok in Hf; by apply not_elem_of_nil in Hf|].
      intros e p Hp Hpt. destruct (end_to_end_reliable_tx (after_sweep lim q now_ms st) !! e) as [p1|] eqn:E1; [|by rewrite (N e E1) in Hp].
      destruct (C e p1 E1) as (p2 & ? & [_ Hty _ _ _ _]). apply after_sweep_lookup in E1 as (p0 & Hp0 & Hnf & Hsw).
      apply not_true_iff_false in Hnf. apply Hnf. apply of_failed_spec. exists t, id. split; [|apply expired_spec; by exists o].
      assert (ordered_type p1 = ordered_type p0) by (destruct (sweep lim q now_ms e p0); by subst). congruence.
  - intros Hnone. assert (of_failed_type (failed_types lim q now_ms (end_to_end_reliable_tx st)) o = false) as Hnf.
    { apply not_true_iff_false. intros (t & x & Ht & (p & Hp & Hpt & Hs)%expired_spec)%of_failed_spec. apply Hnone. exists x, p.
      pose proof (retries_within lim st W x p Hp). destruct (sweep_spec q now_ms x p) as [[? _]|[? [[_ ?]|[? _]]]]; [congruence| |congruence].
      split_and!; [done|done|lia|]. right. split; [congruence|by eexists]. }
    destruct (sweep_spec q now_ms id o) as [[Hs Hd]|[Hd [[Hs ?]|[Hs ?]]]].
    + destruct (C id o) as (o' & ? & [_ _ _ H1 H2 H3]); [apply after_sweep_lookup; exists o; by rewrite Hs|]. exists o'. cbn in H1, H3.
      split_and!; [done|set_solver|right; split; [done|lia]].
    + destruct Hnone. exists id, o. split_and!; [done..|lia|by left].
    + destruct (C id (next_retry o)) as (o' & ? & [_ _ _ H1 H2 H3]); [apply after_sweep_lookup; exists o; by rewrite Hs|]. exists o'. cbn in H1, H2, H3.
      split_and!; [done|set_solver|left; split; [done|]; split; [lia|]; intros Hok].
      destruct res as [[]|]; [|done]. by apply (service_sent v now_ms st q st' q' id o o').
Qed.

Lemma reconcile_retries v now_ms st res st' :
  reconcile_end_to_end_reliable_destinations book adm names c lim v now_ms st = (res, st') -> forall id o', end_to_end_reliable_tx st' !! id = Some o' ->
  exists o, end_to_end_reliable_tx st !! id = Some o /\ sent_retries o' = sent_retries o.
Proof.
  intros [[_ D] C]%reconcile_ok id o' Ho'. destruct (D id o' Ho') as (o & Ho & _). exists o. split; [done|].
  destruct (C id o Ho) as (o1 & Ho1 & [_ _ _ _ _ H]). assert (o1 = o') as -> by congruence. cbn in H. lia.
Qed.

(** C19: retries are bounded.  If the routes have changed the pass first renews the ways
    of the originals; when a packet cannot be read then, it ends with that error before
    any try is counted.  Otherwise every original has been tried at most as often as the
    limit says, and one that is late is given up if its tries are used up, with every
    retained original of its ordered type and an error for these; if not, one more try
    is counted, whether or not the queue takes the copy, and after a pass without an
    error it was last sent now, so that it is not late again before a whole interval has
    passed.  An original that is not late stays as it was unless an earlier one of its
    type is given up.  (What a queue that refuses makes of the tries shows
    [refused_tries_counted].) *)
Theorem deadlines_give_up v changed now_ms st q res st' q' :
  reached (st, q) -> 0 <= reliable_max_retries lim ->
  process_end_to_end_reliable_timeouts book adm names c lim v changed now_ms st q = (res, st', q') ->
  match (if changed then reconcile_end_to_end_reliable_destinations book adm names c lim v now_ms st else (Ok tt, st)) with
  | (Err e, st1) => res = Err e /\ st' = st1 /\ q' = q /\
      forall id o', end_to_end_reliable_tx st' !! id = Some o' -> exists o, end_to_end_reliable_tx st !! id = Some o /\ sent_retries o' = sent_retries o
  | (Ok _, st1) => forall id o, end_to_end_reliable_tx st1 !! id = Some o ->
      0 <= sent_retries o <= reliable_max_retries lim /\
      (due q now_ms id o -> sent_retries o = reliable_max_retries lim ->
         end_to_end_reliable_tx st' !! id = None /\
         forall t, ordered_type o = Some t -> is_ok res = false /\ forall e p, end_to_end_reliable_tx st' !! e = Some p -> ordered_type p <> Some t) /\
      (~ (exists e p, end_to_end_reliable_tx st1 !! e = Some p /\ due q now_ms e p /\ sent_retries p = reliable_max_retries lim /\
            (e = id \/ ordered_type p = ordered_type o /\ is_Some (ordered_type o))) ->
         exists o', end_to_end_reliable_tx st' !! id = Some o' /\ dom (pending_destinations o') = dom (pending_destinations o) /\
           (due q now_ms id o /\ sent_retries o' = sent_retries o + 1 /\ (is_ok res = true -> now_ms <= last_send_ms o') \/
            ~ due q now_ms id o /\ sent_retries o' = sent_retries o))
  end.
Proof.
  intros W%reached_window Hmax E. cbn in W. destruct (if changed then _ else _) as [r0 st1] eqn:Er.
  assert (dwindles lim st st1 /\ calm st st1) as [D _] by (destruct changed; [by apply reconcile_ok in Er|]; injection Er as <- <-; by apply (same_calm lim)).
  destruct r0 as [u|er].
  - assert (W1 : window_ok lim st1) by (by eapply dwindles_window). intros id o Ho.
    assert (E1 : process_end_to_end_reliable_timeouts book adm names c lim v false now_ms st1 q = (res, st', q')).
    { unfold process_end_to_end_reliable_timeouts in E |- *. by rewrite Er in E. }
    by apply (pass_originals v now_ms st1 q res st' q' id o W1 Hmax E1 Ho).
  - unfold process_end_to_end_reliable_timeouts in E. rewrite Er in E. injection E as <- <- <-. split_and!; [done..|].
    destruct changed; [|done]. by apply (reconcile_retries v now_ms st (Err er)).
Qed.

End Runs.

(** ** The cohort *)

Lemma insert_until_spec limit l : forall out0,
  let out := insert_until limit l out0 in
  (forall k s, out !! k = Some s -> out0 !! k = Some s \/ (k, s) ∈ l) /\
  (forall k, is_Some (out0 !! k) -> is_Some (out !! k)) /\
  (Z.of_nat (size out) < limit -> forall k s, (k, s) ∈ l -> is_Some (out !! k)) /\
  (Z.of_nat (size out0) < limit -> Z.of_nat (size out) <= limit).
Proof.
  induction l as [|[k0 s0] l IH]; intros out0; cbn [insert_until]; cbv zeta.
  - split_and!; [by left|done|by intros _ ? ? ?%not_elem_of_nil|lia].
  - assert (forall k, is_Some (out0 !! k) -> is_Some (<[k0:=s0]> out0 !! k)) as Hin by (intros k Hk; apply lookup_insert_is_Some; destruct (decide (k0 = k)); auto).
    assert (Z.of_nat (size (<[k0:=s0]> out0)) <= Z.of_nat (size out0) + 1) as Hsz by (rewrite map_size_insert; destruct (out0 !! k0); cbn; lia).
    assert (forall k s, <[k0:=s0]> out0 !! k = Some s -> out0 !! k = Some s \/ (k, s) ∈ (k0, s0) :: l) as Hfrom.
    { intros k s [[-> ->]|[_ ?]]%lookup_insert_Some; [right; by left|by left]. }
    destruct (limit <=? _) eqn:El.
    + apply Z.leb_le in El. split_and!; [done|done|lia|lia].
    + apply Z.leb_gt in El. destruct (IH (<[k0:=s0]> out0)) as (H1 & H2 & H3 & H4). split_and!.
      * intros k s [H|H]%H1; [by apply Hfrom|right; by right].
      * intros k Hk. by apply H2, Hin.
      * intros Hlt k s [Heq|Hl]%elem_of_cons; [simplify_eq; apply H2; rewrite lookup_insert_eq; by eexists|by eapply H3].
      * intros _. by apply H4.
Qed.

(** The greatest overlap of a list, and at least [best]. *)
Definition top (l : list (Z * (Z * Z))) (best : Z) : Z := foldl Z.max best (map fst l).

Lemma top_le l : forall best, best <= top l best.
Proof. unfold top. induction l as [|x l IH]; intros best; cbn; [lia|]. specialize (IH (Z.max best (fst x))). lia. Qed.

Lemma top_ge l : forall best n e, (n, e) ∈ l -> n <= top l best.
Proof.
  induction l as [|x l IH]; intros best n e; [by intros ?%not_elem_of_nil|]. intros [<-|Hl]%elem_of_cons; unfold top; cbn.
  - pose proof (top_le l (Z.max best n)) as H. unfold top in H. lia.
  - by eapply IH.
Qed.

Lemma top_in l : forall best, top l best = best \/ exists e, (top l best, e) ∈ l.
Proof.
  induction l as [|[n e] l IH]; intros best; [by left|]. unfold top in *. cbn [map foldl fst]. destruct (IH (Z.max best n)) as [H|(e' & H)].
  - rewrite H. destruct (Z.max_spec best n) as [[_ ->]|[_ ->]]; [right; exists e; by left|by left].
  - right. exists e'. by right.
Qed.

Lemma insert_best_spec limit l : forall best out0, 0 < limit -> Z.of_nat (size out0) <= limit ->
  let out := insert_best limit l best out0 in
  (forall k s, out !! k = Some s -> out0 !! k = Some s /\ top l best = best \/ (top l best, (k, s)) ∈ l) /\
  (top l best = best -> forall k, is_Some (out0 !! k) -> is_Some (out !! k)) /\
  (Z.of_nat (size out) < limit -> forall k s, (top l best, (k, s)) ∈ l -> is_Some (out !! k)) /\
  Z.of_nat (size out) <= limit.
Proof.
  induction l as [|[n [k0 s0]] l IH]; intros best out0 Hl Hs; cbn [insert_best]; cbv zeta.
  - split_and!; [by left|done|by intros _ ? ? ?%not_elem_of_nil|done].
  - assert (top ((n, (k0, s0)) :: l) best = top l (Z.max best n)) as Htop by done. rewrite Htop.
    destruct (n <? best) eqn:En.
    + apply Z.ltb_lt in En. rewrite Z.max_l by lia. destruct (IH best out0 Hl Hs) as (H1 & H2 & H3 & H4). split_and!; [|done| |done].
      * intros k s [?|?]%H1; [by left|right; by right].
      * intros Hlt k s [Heq|Hin]%elem_of_cons; [|by eapply H3]. simplify_eq. pose proof (top_le l best). lia.
    + apply Z.ltb_ge in En. rewrite Z.max_r by lia. set (out1 := if best <? n then ∅ else out0).
      assert (n = best /\ out1 = out0 \/ best < n /\ out1 = ∅) as Ho.
      { unfold out1. destruct (best <? n) eqn:Eb; [apply Z.ltb_lt in Eb; by right|apply Z.ltb_ge in Eb; left; split; [lia|done]]. }
      assert (Z.of_nat (size out1) <= limit) as Hs1 by (destruct Ho as [[_ ->]|[_ ->]]; [done|rewrite map_size_empty; lia]).
      pose proof (top_le l n) as Hle. destruct (limit <=? _) eqn:El.
      * apply Z.leb_le in El. assert (n = best /\ out1 = out0) as [-> ->] by (destruct Ho as [?|[_ Ho]]; [done|rewrite Ho, map_size_empty in El; lia]).
        destruct (IH best out0 Hl Hs1) as (H1 & H2 & H3 & H4). split_and!; [|done| |done].
        -- intros k s [?|?]%H1; [by left|right; by right].
        -- intros Hlt k s [Heq|Hin]%elem_of_cons; [|by eapply H3]. injection Heq as Heq -> ->. exfalso.
           enough (size out0 <= size (insert_best limit l best out0))%nat by lia. rewrite <- !size_dom. apply subseteq_size.
           intros x. rewrite !elem_of_dom. by apply H2.
      * apply Z.leb_gt in El. set (out2 := <[k0:=s0]> out1).
        assert (Z.of_nat (size out2) <= limit) as Hs2 by (unfold out2; rewrite map_size_insert; destruct (out1 !! k0); cbn; lia).
        assert (forall k, is_Some (out1 !! k) -> is_Some (out2 !! k)) as H12 by (intros k Hk; apply lookup_insert_is_Some; destruct (decide (k0 = k)); auto).
        destruct (IH n out2 Hl Hs2) as (H1 & H2 & H3 & H4). split_and!; [| | |done].
        -- intros k s [[[[-> ->]|[_ Hk]]%lookup_insert_Some Ht]|?]%H1; [right; rewrite Ht; by left| |right; by right].
           destruct Ho as [[-> ->]|[_ ->]]; [by left|done].
        -- intros Ht k Hk. assert (n = best /\ out1 = out0) as [-> ->] by (destruct Ho as [?|[? _]]; [done|lia]). by apply H2, H12.
        -- intros Hlt k s [Heq|Hin]%elem_of_cons; [|by eapply H3]. injection Heq as Heq -> ->. apply H2; [done|]. unfold out2. rewrite lookup_insert_eq. by eexists.
Qed.

Section CohortSpec.
Context `{WE : WireEnv} (book : gmap Z bytes) (adm : Admission) (names : AddressState) (c : RouterConfig) (lim : Limits) (v : View) (now_ms : Z).
Context (exclude : option Z) (t : DataType) (restrict : bool) (publisher : option Z) (frozen : TargetSenderSet).

(** A live announcer behind a usable side owns the variable. *)
Definition holds_variable (owner side : Z) : Prop :=
  exists route name s, discovery_routes v !! side = Some route /\ usable v now_ms exclude t restrict (side, route) = true /\
    (name, s) ∈ announcers route /\ route_fresh now_ms (sender_seen_ms s) = true /\ t ∈ sender_variables s /\
    owner_wanted c publisher frozen name = true /\ owner = sender_hash name.

(** A board that a live announcer behind a usable side tells of has [n] of the endpoints. *)
Definition reaches (scoring : list DataEndpoint) (n owner side : Z) : Prop :=
  exists route name s b, discovery_routes v !! side = Some route /\ usable v now_ms exclude t restrict (side, route) = true /\
    (name, s) ∈ announcers route /\ route_fresh now_ms (sender_seen_ms s) = true /\ b ∈ topology_boards s /\
    owner_wanted c publisher frozen (sender_id b) = true /\ owner = sender_hash (sender_id b) /\
    n = endpoint_overlap_count (reachable_endpoints b) scoring /\ 0 < n.

Definition usable_sides : list (Z * DiscoverySideState) := List.filter (usable v now_ms exclude t restrict) (entries (discovery_routes v)).

Lemma usable_sides_spec side route : (side, route) ∈ usable_sides <-> discovery_routes v !! side = Some route /\ usable v now_ms exclude t restrict (side, route) = true.
Proof. unfold usable_sides. by rewrite list_elem_of_In, filter_In, <- list_elem_of_In, entries_lookup. Qed.

Lemma variable_owners_spec owner side :
  (owner, side) ∈ mjoin (map (variable_owners c now_ms t publisher frozen) usable_sides) <-> holds_variable owner side.
Proof.
  rewrite list_elem_of_join. setoid_rewrite list_elem_of_fmap. split.
  - intros (l & Hl & [s0 route] & -> & [Hr Hu]%usable_sides_spec). apply list_elem_of_fmap in Hl as ([name s] & Heq & Hf). cbn in Heq. injection Heq as -> ->.
    apply list_elem_of_In, filter_In in Hf as [Hin%list_elem_of_In Hf]. cbn in *. bool_to_prop. exists route, name, s. split_and!; try done. by apply one_of_spec.
  - intros (route & name & s & Hr & Hu & Hin & Hfr & Hv & Hw & ->). eexists. split; [|exists (side, route); split; [done|by apply usable_sides_spec]].
    apply list_elem_of_fmap. exists (name, s). split; [done|]. apply list_elem_of_In, filter_In. split; [by apply list_elem_of_In|]. cbn.
    by rewrite Hfr, Hw, (proj2 (one_of_spec _ _) Hv).
Qed.

Lemma board_owners_spec scoring n owner side :
  (n, (owner, side)) ∈ mjoin (map (board_owners c now_ms scoring publisher frozen) usable_sides) <-> reaches scoring n owner side.
Proof.
  rewrite list_elem_of_join. setoid_rewrite list_elem_of_fmap. split.
  - intros (l & Hl & [s0 route] & -> & [Hr Hu]%usable_sides_spec). apply list_elem_of_omap in Hl as (b & Hb & Heq). cbv zeta in Heq.
    destruct (owner_wanted _ _ _ _ && _) eqn:Ew; [|done]. cbn in Heq. injection Heq as <- <- ->.
    apply list_elem_of_join in Hb as (bs & Hb & Hbs). apply list_elem_of_fmap in Hbs as ([name s] & -> & Hf).
    apply list_elem_of_In, filter_In in Hf as [Hin%list_elem_of_In Hf]. bool_to_prop. exists route, name, s, b. by split_and!.
  - intros (route & name & s & b & Hr & Hu & Hin & Hfr & Hb & Hw & -> & -> & Hn). eexists. split; [|exists (side, route); split; [done|by apply usable_sides_spec]].
    apply list_elem_of_omap. exists b. split; [|cbv zeta; by rewrite Hw, (proj2 (Z.ltb_lt _ _) Hn)]. apply list_elem_of_join. exists (topology_boards s). split; [done|].
    apply list_elem_of_fmap. exists (name, s). split; [done|]. apply list_elem_of_In, filter_In. split; [by apply list_elem_of_In|done].
Qed.

Lemma pending_cap_pos : 0 < pending_cap lim.
Proof. unfold pending_cap. lia. Qed.

(** The owners of an update, up to the limit. *)
Definition owners_of (out : gmap Z Z) : Prop :=
  (forall owner side, out !! owner = Some side -> holds_variable owner side) /\
  (Z.of_nat (size out) < pending_cap lim -> forall owner side, holds_variable owner side -> is_Some (out !! owner)).

(** The boards with the most of the endpoints, or all that have one, up to the limit. *)
Definition boards_of (prefer : bool) (scoring : list DataEndpoint) (out : gmap Z Z) : Prop :=
  let chosen n := prefer = true -> forall n' owner side, reaches scoring n' owner side -> n' <= n in
  (forall owner side, out !! owner = Some side -> exists n, reaches scoring n owner side /\ chosen n) /\
  (Z.of_nat (size out) < pending_cap lim -> forall n owner side, reaches scoring n owner side -> chosen n -> is_Some (out !! owner)).

Lemma until_owners l P (Hl : forall owner side, (owner, side) ∈ l <-> P owner side) :
  let out := insert_until (pending_cap lim) l ∅ in
  Z.of_nat (size out) <= pending_cap lim /\ (forall owner side, out !! owner = Some side -> P owner side) /\
  (Z.of_nat (size out) < pending_cap lim -> forall owner side, P owner side -> is_Some (out !! owner)).
Proof.
  pose proof pending_cap_pos. destruct (insert_until_spec (pending_cap lim) l ∅) as (H1 & _ & H3 & H4). cbv zeta. split_and!.
  - apply H4. rewrite map_size_empty. lia.
  - intros o s [|Ho]%H1; [done|by apply Hl].
  - intros Hs o s Ho%Hl. by eapply H3.
Qed.

Lemma best_boards scoring :
  let out := insert_best (pending_cap lim) (mjoin (map (board_owners c now_ms scoring publisher frozen) usable_sides)) 0 ∅ in
  Z.of_nat (size out) <= pending_cap lim /\ boards_of true scoring out.
Proof.
  pose proof pending_cap_pos. set (l := mjoin _). destruct (insert_best_spec (pending_cap lim) l 0 ∅) as (H1 & _ & H3 & H4); [done|rewrite map_size_empty; lia|].
  cbv zeta. split; [done|]. split.
  - intros o s [[? _]|Ho]%H1; [done|]. exists (top l 0). split; [by apply board_owners_spec|]. intros _ n' o' s' Hr%board_owners_spec. by eapply top_ge.
  - intros Hs n o s Hr Hbest. enough (top l 0 = n) as <- by (apply board_owners_spec in Hr; by eapply H3).
    pose proof Hr as Hin%board_owners_spec. pose proof (top_ge l 0 n (o, s) Hin). destruct (top_in l 0) as [Ht|([o' s'] & Ht)].
    + destruct Hr as (? & ? & ? & ? & _ & _ & _ & _ & _ & _ & _ & _ & ?). lia.
    + pose proof (Hbest eq_refl (top l 0) o' s') as Hb. rewrite <- board_owners_spec in Hb. specialize (Hb Ht). lia.
Qed.
End CohortSpec.

Section CohortTheorem.
Context `{WE : WireEnv} (book : gmap Z bytes) (adm : Admission) (names : AddressState) (c : RouterConfig) (lim : Limits) (v : View) (now_ms : Z).

(** C20: the cohort an original is owed to.  Only boards other than this one are in it,
    each behind a side that the policy allows, that is not where the packet came from and
    was heard of lately.  When the router answers for the part of the network behind it
    ([resolve]), the publisher of the packet, where its name can be told, is not in it
    and the packet's own targets do not count; otherwise only the targets a frozen packet
    names are.  For a managed variable it is the announcers that own it.  For other
    packets it is the boards with the most of its endpoints if the type is reliable and
    the packet is no receipt, and the boards with any of them if not; and all of these,
    as long as the cohort is below its limit, which it never exceeds. *)
Theorem cohort_spec data exclude managed resolve out :
  expected_end_to_end_destinations book adm names c lim v now_ms data exclude managed resolve = Ok out ->
  exists eps t publisher frozen, item_route_info data = Ok (eps, t) /\
    (if resolve : bool then frozen = Hashes [] /\ original_publisher names v data = Ok publisher
     else publisher = None /\ item_target_senders data = Ok frozen) /\
    Z.of_nat (size out) <= pending_cap lim /\
    (if managed || is_managed_variable v t then owners_of c lim v now_ms exclude t (endpoints_are_link_local_only eps) publisher frozen out
     else exists prefer,
       (prefer = true <-> is_reliable_type we_registry t = true /\ reliable_control_target_packet_id book adm data = Ok None) /\
       boards_of c lim v now_ms exclude t (endpoints_are_link_local_only eps) publisher frozen prefer (preferred_scoring_endpoints c eps prefer) out).
Proof.
  unfold expected_end_to_end_destinations. intros ([eps t] & Hinfo & H)%result_bind_ok.
  apply result_bind_ok in H as (publisher & Hp & H). apply result_bind_ok in H as (frozen & Hf & H). exists eps, t, publisher, frozen. split; [done|].
  split; [destruct resolve; by simplify_eq|]. fold (usable_sides v now_ms exclude t (endpoints_are_link_local_only eps)) in H. destruct (managed || _).
  - injection H as <-. apply until_owners. intros owner side. apply variable_owners_spec.
  - apply result_bind_ok in H as (prefer & Hpref & H). injection H as <-.
    assert (prefer = true <-> is_reliable_type we_registry t = true /\ reliable_control_target_packet_id book adm data = Ok None) as Hiff.
    { destruct (is_reliable_type we_registry t); [|injection Hpref as <-; split; [done|by intros [? _]]].
      apply result_bind_ok in Hpref as (target & -> & [= <-]). rewrite bool_decide_eq_true. split; [by intros ->|by intros [_ [= ->]]]. }
    destruct prefer.
    + pose proof (best_boards c lim v now_ms exclude t (endpoints_are_link_local_only eps) publisher frozen (preferred_scoring_endpoints c eps true)) as [H1 H2].
      split; [done|]. by exists true.
    + destruct (until_owners lim (map snd (mjoin (map (board_owners c now_ms (preferred_scoring_endpoints c eps false) publisher frozen)
                 (usable_sides v now_ms exclude t (endpoints_are_link_local_only eps)))))
                (fun owner side => exists n, reaches c v now_ms exclude t (endpoints_are_link_local_only eps) publisher frozen (preferred_scoring_endpoints c eps false) n owner side))
        as (H1 & H2 & H3).
      { intros o s. rewrite list_elem_of_fmap. setoid_rewrite <- board_owners_spec. split; [intros ([n e] & -> & He); by exists n|intros (n & He); by exists (n, (o, s))]. }
      split; [done|]. exists false. split; [done|]. split; [intros o s (n & Hr)%H2; by exists n|intros Hs n o s Hr _; apply (H3 Hs o s); by exists n].
Qed.
End CohortTheorem.

(** ** A publisher with one reader *)

(** A queue that takes every marker, or refuses them all. *)
Definition line (takes : bool) : RetryQueue :=
  {| rq := list Z; queued_items _ := [];
     push_marker id q := if takes then (Ok tt, [], q ++ [id]) else (Err (Io "shared priority queue saturated"), [], q);
     send_receipt _ _ q := (Ok tt, [], q) |}.

Definition few : Limits :=
  {| reliable_retransmit_ms := 200; reliable_max_retries := 2; reliable_max_return_routes := 2; reliable_max_end_to_end_pending := 2;
     reliable_max_end_to_end_ack_cache := 2 |}.

(** Fixes are of an ordered type, counters of none. *)
Definition fix_item (t : Z) : RouterItem :=
  IPacket {| ty := 100; data_size := 2; sender := str "R"; pkt_endpoints := [7; 3]; timestamp := t; nonce := t; payload := [1; 2];
             wire_shape := None; wire_target_senders_opt := None |}.
Definition reader : Z := sender_hash (str "SINK").
Definition roomy : Retention :=
  {| queue_bytes_used := 0; max_queue_budget := 4096; completion_tracked := false; payload_encoding_for_retention := Ok; allocated := true |}.

(** Accepted at time [t], owed to the one reader on side 1. *)
Definition accept (t : Z) (data : RouterItem) (st : Deliveries) : result bool * Deliveries :=
  register_end_to_end_reliable_tx ∅ no_probe (sample_board 1) plain_router few two_ways (fun _ => true) roomy t data (Some {[reader := 1]}) st.
Definition one_fix : Deliveries := snd (accept 0 (fix_item 1) deliveries_empty).
Definition two_fixes : Deliveries := snd (accept 1 (fix_item 2) one_fix).
Definition pass (takes : bool) (now_ms : Z) (s : Deliveries * list Z) : result unit * Deliveries * list Z :=
  process_end_to_end_reliable_timeouts (RQ := line takes) ∅ no_probe (sample_board 1) plain_router few two_ways false now_ms (fst s) (snd s).
Definition fix_id (t : Z) : Z := get_hash (fix_item t).

Abbreviation publisher_run takes := (delivery_run (RQ := line takes) ∅ no_probe (sample_board 1) plain_router few).
Abbreviation publisher_reached takes := (reached (RQ := line takes) ∅ no_probe (sample_board 1) plain_router few).

Lemma pair_last {A B C} (x : A * B * C) : x = (fst (fst x), snd (fst x), snd x).
Proof. by destruct x as [[? ?] ?]. Qed.

Lemma two_fixes_run takes : publisher_run takes (deliveries_empty, []) [Other; Other] (two_fixes, []).
Proof.
  apply run_step with (one_fix, []); [eapply (by_register (RQ := line takes)); apply surjective_pairing|].
  apply run_step with (two_fixes, []); [eapply (by_register (RQ := line takes)); apply surjective_pairing|constructor].
Qed.

Lemma delivery_run_app `{WE : WireEnv} `{RQ : RetryQueue} book adm names c lim s es s1 es' s2 :
  delivery_run book adm names c lim s es s1 -> delivery_run book adm names c lim s1 es' s2 -> delivery_run book adm names c lim s (es ++ es') s2.
Proof. induction 1; [done|]. intros H2. econstructor; [done|]. auto. Qed.

Definition after_pass (takes : bool) (now_ms : Z) (s : Deliveries * list Z) : Deliveries * list Z := (snd (fst (pass takes now_ms s)), snd (pass takes now_ms s)).

Lemma pass_run takes now_ms s : exists e, publisher_run takes s [e] (after_pass takes now_ms s).
Proof. destruct s as [st q]. eexists. eapply run_step; [|constructor]. 
  apply (by_service (RQ := line takes)) with (v := two_ways) (changed := false) (now_ms := now_ms) (res := fst (fst (pass takes now_ms (st, q)))).
  apply pair_last.
Qed.

Lemma first_fix : exists o, end_to_end_reliable_tx two_fixes !! fix_id 1 = Some o /\ ordered_type o = Some 100 /\
  waiting_for_predecessor o = false /\ pending_destinations o = {[reader := 1]}.
Proof. vm_compute. eexists. by split_and!. Qed.

Lemma ordered_one_at_a_time_witness : publisher_reached true (two_fixes, []) /\ first_of_type two_fixes (fix_id 1) 100.
Proof.
  assert (publisher_reached true (two_fixes, [])) as H by (exists [], [Other; Other]; apply two_fixes_run). split; [exact H|].
  destruct (ordered_one_at_a_time (RQ := line true) ∅ no_probe (sample_board 1) plain_router few two_fixes [] H) as (_ & _ & Hf & _).
  destruct first_fix as (o & E & Ht & Hw & _). exact (Hf (fix_id 1) o 100 E Ht Hw).
Defined.

(** The reader acknowledges the second fix, which has not left: nothing changes. *)
Definition sink_receipt (t : Z) : Packet :=
  {| ty := ty_ReliableAck; data_size := 8; sender := str "E2EACK:SINK"; pkt_endpoints := [6]; timestamp := 9; nonce := 9;
     payload := le_bytes 8 (fix_id t); wire_shape := None; wire_target_senders_opt := None |}.
Definition receive (takes : bool) (t now_ms : Z) (s : Deliveries * list Z) : result bool * Deliveries * list Z :=
  handle_end_to_end_receipt (RQ := line takes) plain_router few 0 4096 (sink_receipt t) (fix_id t) now_ms (fst s) (snd s).

Definition after_receipt (takes : bool) (t now_ms : Z) (s : Deliveries * list Z) : Deliveries * list Z :=
  (snd (fst (receive takes t now_ms s)), snd (receive takes t now_ms s)).

Lemma receipt_run takes t now_ms s :
  is_end_to_end_ack_packet (sink_receipt t) = true -> decode_end_to_end_reliable_ack (payload (sink_receipt t)) = Ok (fix_id t) ->
  publisher_run takes s [Receipt (sink_receipt t) (fix_id t)] (after_receipt takes t now_ms s).
Proof.
  intros H1 H2. destruct s as [st q]. eapply run_step; [|constructor].
  apply (by_receipt (RQ := line takes)) with (used := 0) (budget := 4096) (now_ms := now_ms) (res := fst (fst (receive takes t now_ms (st, q)))); [done|done|].
  apply pair_last.
Qed.

Lemma originals_are_kept_witness :
  exists o', end_to_end_reliable_tx (fst (after_receipt true 2 50 (two_fixes, []))) !! fix_id 1 = Some o' /\ dom (pending_destinations o') = {[reader]}.
Proof.
  assert (publisher_reached true (two_fixes, [])) as H by (exists [], [Other; Other]; apply two_fixes_run).
  assert (publisher_run true (two_fixes, []) [Receipt (sink_receipt 2) (fix_id 2)] (after_receipt true 2 50 (two_fixes, []))) as Hr
    by (apply receipt_run; vm_compute; reflexivity).
  destruct first_fix as (o & E & Ht & Hw & Hp). assert (dom (pending_destinations o) = {[reader]}) as Hd by (rewrite Hp; apply dom_singleton_L).
  assert (acknowledged (fix_id 1) [Receipt (sink_receipt 2) (fix_id 2)] = ∅) as Ha by (vm_compute; reflexivity).
  rewrite (surjective_pairing (after_receipt true 2 50 (two_fixes, []))) in Hr.
  destruct (originals_are_kept (RQ := line true) ∅ no_probe (sample_board 1) plain_router few two_fixes [] _ _ _ (fix_id 1) o H Hr E) as (o' & E' & _ & _ & H1 & H2 & _).
  - rewrite Ha, Hd. intros Hs. by apply (not_elem_of_empty (C := gset Z) reader), Hs, elem_of_singleton.
  - constructor; [by intros []|constructor].
  - exists o'. split; [exact E'|]. rewrite Hd in H1, H2. rewrite Ha, difference_empty_L in H2. by apply (anti_symm (⊆)).
Defined.

Lemma untried : forall e p, end_to_end_reliable_tx two_fixes !! e = Some p -> sent_retries p = 0.
Proof. apply (bool_decide_unpack (map_Forall (fun _ p => sent_retries p = 0) (end_to_end_reliable_tx two_fixes))). vm_compute. exact I. Qed.

Lemma first_fix_due : exists o, end_to_end_reliable_tx two_fixes !! fix_id 1 = Some o /\ due (RQ := line true) few [] 300 (fix_id 1) o.
Proof.
  assert ((fun o => (all_owned (RQ := line true) [] (fix_id 1) o, waiting_for_predecessor o, sent_queued o, reliable_retransmit_ms few <=? wrap64 (300 - last_send_ms o)))
          <$> end_to_end_reliable_tx two_fixes !! fix_id 1 = Some (false, false, false, true)) as E by (vm_compute; reflexivity).
  destruct (end_to_end_reliable_tx two_fixes !! fix_id 1) as [o|]; [|done]. cbn [fmap option_fmap option_map] in E. injection E as H1 H2 H3 H4.
  exists o. apply Z.leb_le in H4. by split_and!.
Qed.

Lemma deadlines_give_up_witness :
  fst (fst (pass true 300 (two_fixes, []))) = Ok tt /\
  exists o', end_to_end_reliable_tx (fst (after_pass true 300 (two_fixes, []))) !! fix_id 1 = Some o' /\ sent_retries o' = 1 /\ 300 <= last_send_ms o'.
Proof.
  assert (fst (fst (pass true 300 (two_fixes, []))) = Ok tt) as Hok by (vm_compute; reflexivity). split; [exact Hok|].
  assert (publisher_reached true (two_fixes, [])) as H by (exists [], [Other; Other]; apply two_fixes_run).
  destruct first_fix_due as (o & E & Hd).
  destruct (deadlines_give_up (RQ := line true) ∅ no_probe (sample_board 1) plain_router few two_ways false 300 two_fixes []
              (fst (fst (pass true 300 (two_fixes, [])))) (snd (fst (pass true 300 (two_fixes, [])))) (snd (pass true 300 (two_fixes, [])))
              H ltac:(cbn; lia) (pair_last _) (fix_id 1) o E) as (_ & _ & Hkeep).
  destruct Hkeep as (o' & Ho' & _ & [(_ & Hr & Hs)|[Hn _]]); [|..].
  - intros (e & p & Hp%untried & _ & Hr & _). rewrite Hp in Hr. cbn in Hr. lia.
  - exists o'. rewrite (untried _ _ E) in Hr. rewrite Hok in Hs. split_and!; [exact Ho'|exact Hr|exact (Hs eq_refl)].
  - by destruct (Hn Hd).
Defined.

(** *** Retries that no one made

    Each pass counts a try before it asks the queue for room.  While the queue refuses
    the markers the tries run out: with two allowed, the third pass gives both fixes up,
    all three at one instant and without a single copy sent. *)
Definition refused : Deliveries * list Z := after_pass false 300 (after_pass false 300 (two_fixes, [])).
Lemma refused_tries_counted :
  fst (fst (pass false 300 (two_fixes, []))) = Err (Io "shared priority queue saturated") /\
  fst (fst (pass false 300 (after_pass false 300 (two_fixes, [])))) = Err (Io "shared priority queue saturated") /\
  end_to_end_reliable_tx (fst (after_pass false 300 refused)) = ∅ /\ snd (after_pass false 300 refused) = [].
Proof. vm_compute. by split_and!. Qed.

(** *** A failure that is not reported

    The counters are not ordered and due for the first time when the fix is given up:
    the refusal of their marker is the answer, the failure of the ordered type is lost. *)
Definition with_counters : Deliveries * list Z := (snd (accept 100 (IPacket (counters (str "R") 5)) (fst (after_pass false 250 (after_pass false 250 (one_fix, []))))), []).
Lemma failure_masked :
  fst (fst (pass false 300 with_counters)) = Err (Io "shared priority queue saturated") /\
  is_Some (end_to_end_reliable_tx (fst with_counters) !! fix_id 1) /\
  end_to_end_reliable_tx (fst (after_pass false 300 with_counters)) !! fix_id 1 = None.
Proof. vm_compute. split_and!; try done. by eexists. Qed.

Lemma cohort_spec_witness :
  exists out, expected_end_to_end_destinations ∅ no_probe (sample_board 1) plain_router few two_ways 1000 (fix_item 1) None false false = Ok out /\
    Z.of_nat (size out) <= 2 /\ is_Some (out !! reader).
Proof.
  assert (exists out, expected_end_to_end_destinations ∅ no_probe (sample_board 1) plain_router few two_ways 1000 (fix_item 1) None false false = Ok out /\
    is_Some (out !! reader)) as (out & E & Hs) by (vm_compute; eexists; split; [reflexivity|by eexists]).
  exists out. split; [exact E|]. destruct (cohort_spec ∅ no_probe (sample_board 1) plain_router few two_ways 1000 (fix_item 1) None false false out E)
    as (eps & t & publisher & frozen & _ & _ & Hsz & _). split; [exact Hsz|exact Hs].
Defined.
