(* ===== verification/ReturnRoutes.v ===== *)
(** * The bounded tables beside the originals (src/src/router.rs)

    The routes back, with the admissions they carry, and the receipts that were
    forwarded: their bounds over the runs of [Originals], and what making room for a
    route may take. *)

From stdpp Require Import sorting gmap.
From S2P Require Import Prelude OrdMap Schema Packet WireEnv WireReader WireFrame WirePeek MemoryAdmission SortedList SmallSort SchemaCodec.
From S2P Require Import Topology Election WireSample SideLink DiscoveryCodec RouterQueues Routing.
From S2P Require Import AddressBook RoutePlan EndToEnd Originals.

Open Scope Z_scope.

(** ** The caches *)

Record routes_ok (lim : Limits) (st : Deliveries) : Prop := {
  ro_nodup : NoDup (reliable_return_route_order st);
  ro_known : forall id, is_Some (reliable_return_routes st !! id) -> id ∈ reliable_return_route_order st;
  ro_room : zlen (reliable_return_route_order st) <= return_route_cap lim;
}.

Definition receipts_ok (lim : Limits) (r : option ForwardedReceiptCache) : Prop :=
  match r with
  | None => True
  | Some cache =>
      NoDup (fr_order cache) /\ (forall id, is_Some (fr_destinations cache !! id) -> id ∈ fr_order cache) /\ zlen (fr_order cache) <= ack_cache_cap lim /\
      forall id acked, fr_destinations cache !! id = Some acked -> Z.of_nat (size acked) <= pending_cap lim
  end.

Lemma known_size {A} (m : gmap Z A) order : (forall id, is_Some (m !! id) -> id ∈ order) -> Z.of_nat (size m) <= zlen order.
Proof.
  intros H. unfold zlen. apply inj_le. rewrite <- size_dom. transitivity (size (list_to_set order : gset Z)).
  - apply subseteq_size. intros i Hi. by apply elem_of_list_to_set, H, elem_of_dom.
  - clear H. induction order as [|x l IH]; cbn; [by rewrite size_empty|]. rewrite size_union_alt, size_singleton.
    enough (size (list_to_set l ∖ {[x]} : gset Z) <= size (list_to_set l : gset Z))%nat by lia. apply subseteq_size. set_solver.
Qed.

Lemma delete_known (l : list Z) i x : NoDup l -> l !! i = Some x -> NoDup (delete i l) /\ (forall y, y ∈ delete i l <-> y ∈ l /\ y <> x) /\ S (length (delete i l)) = length l.
Proof.
  intros Hn Hx. assert (length l <> 0)%nat by (destruct l; done). apply list_elem_of_split_length in Hx as (l1 & l2 & -> & ->).
  rewrite delete_middle. apply NoDup_app in Hn as (H1 & H2 & [H3 H4]%NoDup_cons). split_and!.
  - apply NoDup_app. split_and!; [done| |done]. intros y Hy Hy2. apply (H2 y Hy). by right.
  - intros y. rewrite !elem_of_app, elem_of_cons. split; [|naive_solver]. intros [Hy|Hy]; (split; [naive_solver|]); intros ->; [apply (H2 x Hy); by left|done].
  - rewrite !length_app. cbn. lia.
Qed.

Lemma pinned_without st x o i : i <> x -> pinned (with_return_routes (delete x) (with_return_order o st)) i = pinned st i.
Proof. intros Hne. unfold pinned. cbn. by rewrite lookup_delete_ne. Qed.

(** What the eviction leaves. *)
Record evicted (lim : Limits) (st st' : Deliveries) (room : bool) : Prop := {
  ev_nodup : NoDup (reliable_return_route_order st');
  ev_known : forall id, is_Some (reliable_return_routes st' !! id) -> id ∈ reliable_return_route_order st';
  ev_short : zlen (reliable_return_route_order st') <= zlen (reliable_return_route_order st);
  ev_pinned : forall id, pinned st id = true -> reliable_return_routes st' !! id = reliable_return_routes st !! id;
  ev_sub : forall id r, reliable_return_routes st' !! id = Some r -> reliable_return_routes st !! id = Some r;
  ev_left : forall id, id ∈ reliable_return_route_order st' -> id ∈ reliable_return_route_order st;
  ev_room : if room then zlen (reliable_return_route_order st') < return_route_cap lim
            else return_route_cap lim <= zlen (reliable_return_route_order st') /\ forall id, id ∈ reliable_return_route_order st' -> pinned st id = true;
  ev_receipts : receipt_cache st' = receipt_cache st;
}.

Lemma evict_spec lim turns : forall st room st',
  NoDup (reliable_return_route_order st) -> (forall id, is_Some (reliable_return_routes st !! id) -> id ∈ reliable_return_route_order st) ->
  (length (reliable_return_route_order st) <= turns)%nat -> evict_routes lim turns st = (room, st') -> evicted lim st st' room.
Proof.
  induction turns as [|turns IH]; intros st room st' Hn Hk Ht; cbn [evict_routes]; (destruct (_ <? _) eqn:El; [apply Z.ltb_lt in El; intros [= <- <-]; by split|apply Z.ltb_ge in El]).
  - intros [= <- <-]. unfold zlen, return_route_cap in El. lia.
  - destruct (list_find _ _) as [[i x]|] eqn:Ef.
    + apply list_find_Some in Ef as (Hx & Hp & _). destruct (delete_known _ i x Hn Hx) as (Hn1 & Hd & Hlen). intros E. apply IH in E; cbn.
      * destruct E as [E1 E2 E3 E4 E5 E6 E7 E8]. cbn in E3, E5, E6. split; try done.
        -- unfold zlen in *. cbn in E3. lia.
        -- intros id Hid. assert (id <> x) as Hne by (intros ->; congruence). rewrite E4 by by rewrite pinned_without. cbn. by rewrite lookup_delete_ne.
        -- intros id r [_ H]%E5%lookup_delete_Some. done.
        -- intros id [H _]%E6%Hd. done.
        -- destruct room; [done|]. destruct E7 as [? E7]. split; [done|]. intros id Hid. rewrite <- (E7 id Hid). symmetry. apply pinned_without. by apply E6, Hd in Hid as [_ ?].
      * done.
      * intros id [? ?]%lookup_delete_is_Some. apply Hd. split; [by apply Hk|congruence].
      * cbn in *. lia.
    + intros [= <- <-]. apply list_find_None in Ef. split; try done. split; [done|]. intros id Hid. rewrite Forall_forall in Ef.
      specialize (Ef id Hid). by destruct (pinned st id).
Qed.

Lemma live_order_short {A} id (m : gmap Z A) order : NoDup order -> id ∈ order -> zlen (live_order id m order) + 1 <= zlen order.
Proof.
  intros Hn Hi. assert (id :: live_order id m order ⊆+ order) as H%submseteq_length; [|unfold zlen; cbn in H; lia].
  apply NoDup_submseteq.
  - constructor; [intros H%live_order_spec; tauto|]. by apply NoDup_filter.
  - intros x [->|Hx%live_order_spec]%elem_of_cons; tauto.
Qed.

Lemma live_nodup {A} id (m : gmap Z A) order : NoDup order -> NoDup (live_order id m order ++ [id]).
Proof. intros Hn. apply NoDup_app. split_and!; [by apply NoDup_filter| |apply NoDup_singleton]. intros x Hx%live_order_spec. set_solver. Qed.

(** What remembering a route leaves of the others. *)
Record remembered (lim : Limits) (id : Z) (st st' : Deliveries) (done : bool) : Prop := {
  re_ok : routes_ok lim st';
  re_in : done = true -> id ∈ reliable_return_route_order st';
  re_pinned : forall i, pinned st i = true -> reliable_return_routes st' !! i = reliable_return_routes st !! i;
  re_sub : forall i r, reliable_return_routes st' !! i = Some r -> reliable_return_routes st !! i = Some r;
  re_receipts : receipt_cache st' = receipt_cache st;
}.

Lemma remember_spec lim used budget id st done st' :
  routes_ok lim st -> remember_reliable_return_route lim used budget id st = (done, st') ->
  remembered lim id st st' done /\
  (done = false -> can_admit_reliable_return_route_growth lim used budget st id = false \/
     reliable_return_routes st !! id = None /\ return_route_cap lim <= zlen (reliable_return_route_order st') /\
     forall i, i ∈ reliable_return_route_order st' -> pinned st i = true).
Proof.
  intros [Hn Hk Hr]. unfold remember_reliable_return_route. destruct (can_admit_reliable_return_route_growth lim used budget st id); cbn [negb].
  2: { intros [= <- <-]. split; [by split|by left]. }
  set (o1 := live_order id _ _). destruct (evict_routes lim _ (with_return_order o1 st)) as [room st1] eqn:E.
  assert (forall i, pinned (with_return_order o1 st) i = pinned st i) as Hp by done. destruct (reliable_return_routes st !! id) as [r|] eqn:Er.
  - assert (zlen o1 < return_route_cap lim) as Hs. { pose proof (live_order_short id (reliable_return_routes st) _ Hn (Hk id (mk_is_Some _ _ Er))). unfold o1. lia. }
    assert (evict_routes lim (length (reliable_return_route_order (with_return_order o1 st))) (with_return_order o1 st) = (true, with_return_order o1 st)) as E'.
    { cbn [reliable_return_route_order with_return_order]. destruct (length o1); cbn [evict_routes]; cbn [reliable_return_route_order with_return_order]; by rewrite (proj2 (Z.ltb_lt _ _) Hs). }
    rewrite E' in E. injection E as <- <-. intros [= <- <-]. split; [|done]. split; try done; [|intros _; cbn; set_solver]. split; cbn.
    + by apply live_nodup.
    + intros i Hi. apply elem_of_app. destruct (decide (i = id)) as [->|Hne]; [right; by left|left]. apply live_order_spec. auto.
    + rewrite zlen_app. cbn in *. unfold zlen in *. cbn. lia.
  - assert (forall i, is_Some (reliable_return_routes st !! i) -> i ∈ o1) as Hk1. { intros i Hi. apply live_order_spec. split_and!; [done| |by apply Hk]. intros ->. rewrite Er in Hi. by destruct Hi. }
    apply evict_spec in E; [|by apply NoDup_filter|done|done]. destruct E as [E1 E2 E3 E4 E5 E6 E7 E8]. cbn in E3, E4, E5, E6.
    assert (zlen o1 <= return_route_cap lim) as Ho1. { unfold zlen in *. pose proof (sublist_length _ _ (sublist_filter (fun i => is_Some (reliable_return_routes st !! i) /\ i <> id) (reliable_return_route_order st))). unfold o1, live_order. lia. }
    destruct room; intros [= <- <-].
    + split; [|done]. split; try done; [|intros _; cbn; set_solver]. split; cbn.
      * apply NoDup_app. split_and!; [done| |apply NoDup_singleton]. intros x Hx%E6%live_order_spec. set_solver.
      * intros i Hi. apply elem_of_app. left. by apply E2.
      * rewrite zlen_app. unfold zlen in *. cbn. lia.
    + destruct E7 as [E7 E9]. split; [|intros _; right; by split_and!]. split; try done. split; [done|done|lia].
Qed.

Lemma put_route_ok lim st id r : routes_ok lim st -> id ∈ reliable_return_route_order st -> routes_ok lim (with_return_routes <[id := r]> st).
Proof.
  intros [Hn Hk Hr] Hid. split; cbn; try done. intros i Hi. apply lookup_insert_is_Some in Hi as [->|[_ Hi]]; auto.
Qed.

Lemma fewer_routes_ok lim st f : routes_ok lim st -> (forall i, is_Some (f (reliable_return_routes st) !! i) -> is_Some (reliable_return_routes st !! i)) ->
  routes_ok lim (with_return_routes f st).
Proof. intros [Hn Hk Hr] Hf. split; cbn; try done. auto. Qed.

(** *** Receipts *)

Lemma drop_oldest_spec {A} cap (order : list Z) : forall (m : gmap Z A), 0 < cap -> NoDup order -> 
  let '(o, m') := drop_oldest cap order m in
  NoDup o /\ zlen o < cap /\ (forall i, i ∈ o -> i ∈ order) /\ (forall i, i ∈ order -> i ∉ o -> m' !! i = None) /\
  (forall i a, m' !! i = Some a -> m !! i = Some a).
Proof.
  induction order as [|x order IH]; intros m Hc Hn; cbn [drop_oldest].
  - split_and!; [constructor|unfold zlen; cbn; lia|done|by intros i ?%not_elem_of_nil|done].
  - destruct (cap <=? _) eqn:El; [|apply Z.leb_gt in El; by split_and!]. apply NoDup_cons in Hn as [Hx Hn]. specialize (IH (delete x m) Hc Hn).
    destruct (drop_oldest cap order (delete x m)) as [o m']. destruct IH as (H1 & H2 & H3 & H4 & H5). split_and!; [done|done|intros i Hi; right; auto| |].
    + intros i [->|Hi]%elem_of_cons Ho; [|by apply H4]. destruct (m' !! x) as [a|] eqn:E; [|done]. apply H5 in E. by rewrite lookup_delete_eq in E.
    + intros i a [_ H]%H5%lookup_delete_Some. done.
Qed.

Lemma note_receipts_ok lim id owner st : receipts_ok lim (receipt_cache st) -> receipts_ok lim (receipt_cache (note_end_to_end_acked_destination lim id owner st)).
Proof.
  intros H. unfold note_end_to_end_acked_destination. set (cache := default _ (receipt_cache st)).
  assert (receipts_ok lim (Some cache)) as (Hn & Hk & Hr & Ha).
  { unfold cache. destruct (receipt_cache st); [done|]. cbn. split_and!; [constructor|by intros i [? ?]|unfold zlen, ack_cache_cap; cbn; lia|done]. }
  assert (0 < ack_cache_cap lim) as Hc by (unfold ack_cache_cap; lia).
  pose proof (drop_oldest_spec (ack_cache_cap lim) (live_order id (fr_destinations cache) (fr_order cache)) (fr_destinations cache) Hc (NoDup_filter _ _ Hn)) as Hd.
  destruct (drop_oldest _ _ _) as [o m]. destruct Hd as (H1 & H2 & H3 & H4 & H5). cbn. split_and!.
  - apply NoDup_app. split_and!; [done| |apply NoDup_singleton]. intros x Hx%H3%live_order_spec. set_solver.
  - intros i [->|[Hne Hi]]%lookup_insert_is_Some; [set_solver|]. apply elem_of_app. left. destruct (decide (i ∈ o)) as [|Hno]; [done|]. exfalso.
    rewrite (H4 i) in Hi; [by destruct Hi| |done]. destruct Hi as [a Hi]. apply live_order_spec. split_and!; [by exists a; apply H5|congruence|]. apply Hk. exists a. by apply H5.
  - rewrite zlen_app. unfold zlen in *. cbn. lia.
  - intros i acked [[<- <-]|[Hne Hi]]%lookup_insert_Some; [|by eapply Ha, H5].
    assert (Z.of_nat (size (default ∅ (m !! id) : gset Z)) <= pending_cap lim) as Hs.
    { destruct (m !! id) as [a|] eqn:Em; cbn; [by eapply Ha, H5|rewrite size_empty; unfold pending_cap; lia]. }
    destruct (_ || _) eqn:Eo; [|done]. apply orb_true_iff in Eo as [Hlt|Hin%bool_decide_eq_true].
    + apply Z.ltb_lt in Hlt. rewrite size_union_alt, size_singleton.
      assert (size ((default ∅ (m !! id) : gset Z) ∖ {[owner]}) <= size (default ∅ (m !! id) : gset Z))%nat by (apply subseteq_size; set_solver). lia.
    + replace ({[owner]} ∪ default ∅ (m !! id)) with (default ∅ (m !! id) : gset Z) by set_solver. done.
Qed.

Lemma reconcile_receipts_ok lim c v st : receipts_ok lim (receipt_cache st) -> receipts_ok lim (receipt_cache (reconcile_forwarded_receipts c v st)).
Proof.
  intros H. unfold reconcile_forwarded_receipts. destruct (receipt_cache st) as [cache|] eqn:E; [|by rewrite E]. destruct H as (Hn & Hk & Hr & Ha). cbn. split_and!; try done.
  - intros i [a Hi]. rewrite lookup_omap in Hi. apply bind_Some in Hi as (acked & Hi & _). apply Hk. by eexists.
  - intros i a Hi. rewrite lookup_omap in Hi. apply bind_Some in Hi as (acked & Hi & Hd). case_bool_decide; [done|]. injection Hd as <-.
    specialize (Ha i acked Hi). assert (size (acked ∩ active_senders c v) <= size acked)%nat by (apply subseteq_size; set_solver). lia.
Qed.

(** *** Steps *)

Definition cached (lim : Limits) (st : Deliveries) : Prop := routes_ok lim st /\ receipts_ok lim (receipt_cache st).

Definition same_caches (st st' : Deliveries) : Prop :=
  reliable_return_routes st' = reliable_return_routes st /\ reliable_return_route_order st' = reliable_return_route_order st /\
  receipt_cache st' = receipt_cache st.

#[export] Instance same_caches_preorder : PreOrder same_caches.
Proof. split; [by intros st|]. intros a b d (? & ? & ?) (? & ? & ?). split_and!; congruence. Qed.

Lemma same_cached lim st st' : cached lim st -> same_caches st st' -> cached lim st'.
Proof. intros [[Hn Hk Hr] Hc] (H1 & H2 & H3). split; [split|]; by rewrite ?H1, ?H2, ?H3. Qed.

Lemma marked_caches st st' : marked st st' -> same_caches st st'.
Proof. by intros (_ & _ & ? & ? & ? & _). Qed.

Section CacheSteps.
Context `{WE : WireEnv} `{RQ : RetryQueue} (book : gmap Z bytes) (adm : Admission) (names : AddressState) (c : RouterConfig) (lim : Limits).

Lemma release_caches now_ms st q res st' q' : release_ordered_successors now_ms st q = (res, st', q') -> same_caches st st'.
Proof.
  unfold release_ordered_successors. destruct (release_scan _ _ _ _) as [ready m]. intros H%queue_all_marked%marked_caches. by destruct H as (? & ? & ?).
Qed.

Lemma reconcile_all_caches v now_ms active ids : forall st res st',
  reconcile_all book adm names c lim v now_ms active ids st = (res, st') -> same_caches st st'.
Proof.
  induction ids as [|id ids IH]; intros st res st'; cbn [reconcile_all]; [by intros [= <- <-]|].
  destruct (end_to_end_reliable_tx st !! id) as [o|]; [|apply IH].
  destruct (expected_end_to_end_destinations _ _ _ _ _ _ _ _ _ _ _); [|by intros [= <- <-]].
  intros H%IH. by destruct (tracked_destinations o).
Qed.

Lemma reconcile_cached v now_ms st res st' :
  cached lim st -> reconcile_end_to_end_reliable_destinations book adm names c lim v now_ms st = (res, st') -> cached lim st'.
Proof.
  intros [Hr Hc]. unfold reconcile_end_to_end_reliable_destinations. assert (cached lim (reconcile_forwarded_receipts c v st)) as H.
  { split; [|by apply reconcile_receipts_ok]. unfold reconcile_forwarded_receipts. destruct (receipt_cache st); [|done]. by destruct Hr. }
  destruct (bool_decide _); [by intros [= <- <-]|]. intros E%reconcile_all_caches. by eapply same_cached.
Qed.

Lemma service_cached v changed now_ms st q res st' q' :
  cached lim st -> process_end_to_end_reliable_timeouts book adm names c lim v changed now_ms st q = (res, st', q') -> cached lim st'.
Proof.
  intros H. unfold process_end_to_end_reliable_timeouts. destruct (if changed then _ else _) as [r0 st0] eqn:E0.
  assert (cached lim st0) as H0 by (destruct changed; [by eapply reconcile_cached|by injection E0 as <- <-]).
  destruct r0; [|by intros [= <- <- <-]]. destruct (queue_all _ _ _ _) as [[r1 st1] q1] eqn:E1. apply queue_all_marked, marked_caches in E1.
  assert (cached lim st1) as H1 by (eapply same_cached; [exact H0|exact E1]). destruct r1; [|by intros [= <- <- <-]].
  destruct (release_ordered_successors now_ms st1 q1) as [[r2 st2] q2] eqn:E2. apply release_caches in E2.
  assert (cached lim st2) by by eapply same_cached. destruct r2; by intros [= <- <- <-].
Qed.

Lemma settle_original_caches p id local now_ms st q res st' q' : settle_original p id local now_ms st q = (res, st', q') -> same_caches st st'.
Proof.
  unfold settle_original. destruct (end_to_end_reliable_tx st !! id) as [o|]; [|by intros [= <- <- <-]]. destruct (waiting_for_predecessor o); [by intros [= <- <- <-]|].
  destruct (release_ordered_successors _ _ q) as [[r1 st1] q1] eqn:E. apply release_caches in E. assert (same_caches st st1) as H.
  { etransitivity; [|exact E]. destruct (end_to_end_ack_sender_hash p); [case_bool_decide|]; done. }
  destruct r1; by intros [= <- <- <-].
Qed.

Lemma complete_upstream_cached used budget alias contract st : cached lim st -> cached lim (complete_upstream lim used budget alias contract st).
Proof.
  intros [Hr Hc]. unfold complete_upstream. destruct (remember_reliable_return_route _ _ _ _ _) as [b st1] eqn:E. apply remember_spec in E as [[R1 R2 _ _ R5] _]; [|done].
  destruct b; (split; [|cbn; by rewrite R5]); [|done]. destruct (put_route_ok lim st1 (fst contract) (match reliable_return_routes st1 !! fst contract with
    | Some r => complete_delivery (Some contract) r | None => completed_route (rr_side alias) (last_replay_ms alias) contract end) R1 (R2 eq_refl)). by split.
Qed.

Lemma receipt_cached used budget p id now_ms st q res st' q' :
  cached lim st -> handle_end_to_end_receipt c lim used budget p id now_ms st q = (res, st', q') -> cached lim st'.
Proof.
  intros [Hr Hc]. unfold handle_end_to_end_receipt. assert (cached lim (note_forwarded c lim p id st)) as H.
  { unfold note_forwarded. destruct (end_to_end_ack_sender_hash p) as [w|]; [|done]. destruct (targets_local_sender c p); [done|].
    split; [|by apply note_receipts_ok]. unfold note_end_to_end_acked_destination. destruct (drop_oldest _ _ _). by destruct Hr. }
  destruct (reliable_return_routes _ !! id) as [alias|]; [destruct (upstream_contract alias) as [contract|]|].
  2,3: intros E%settle_original_caches; by eapply same_cached.
  unfold settle_proxy. destruct (end_to_end_reliable_tx _ !! id) as [o|]; [|by intros [= <- <- <-]].
  case_bool_decide; cbn [negb]; [|intros [= <- <- <-]; by eapply same_cached].
  set (st2 := complete_upstream _ _ _ _ _ _). assert (cached lim st2) as H2 by (by eapply complete_upstream_cached, same_cached).
  destruct (send_receipt _ _ q) as [[r lost] q1]. assert (cached lim (markers_lost lost st2)) as H3 by (eapply same_cached; [exact H2|apply marked_caches, markers_lost_marked]).
  destruct r; [|by intros [= <- <- <-]]. destruct (release_ordered_successors _ _ q1) as [[r4 st4] q4] eqn:E4. apply release_caches in E4.
  assert (cached lim st4) by by eapply same_cached. destruct r4; by intros [= <- <- <-].
Qed.

Lemma admission_cached used budget sides now_ms seen side id parent st res st' :
  cached lim st -> begin_reliable_local_admission lim used budget sides now_ms seen side id parent st = (res, st') -> cached lim st'.
Proof.
  intros [Hr Hc]. unfold begin_reliable_local_admission. destruct (match parent with Some g => check_locked g st | None => Ok tt end); [|by intros [= <- <-]].
  destruct (side_options sides side) as [o|]; [|by intros [= <- <-]]. destruct (negb (ingress_enabled o)); [by intros [= <- <-]|].
  destruct (match reliable_return_routes st !! id with Some _ => _ | None => _ end); [by intros [= <- <-]|].
  destruct (bool_decide _ && _); [by intros [= <- <-]|]. destruct (negb _); [by intros [= <- <-]|]. destruct (checked_add _ 1) as [token|]; [|by intros [= <- <-]].
  destruct (remember_reliable_return_route lim used budget id st) as [b st1] eqn:E. apply remember_spec in E as [[R1 R2 _ _ R5] _]; [|done].
  destruct b; intros [= <- <-]; (split; [|cbn; by rewrite R5]); [|done].
  match goal with |- routes_ok _ (with_sequence _ (with_return_routes <[id := ?r]> st1)) => pose proof (put_route_ok lim st1 id r R1 (R2 eq_refl)) as [? ? ?] end. by split.
Qed.

Lemma alter_cached f id st : cached lim st -> cached lim (with_return_routes (alter f id) st).
Proof. intros [Hr Hc]. split; [|done]. apply fewer_routes_ok; [done|]. intros i. by rewrite lookup_alter_is_Some. Qed.

Lemma put_cached id r r0 st : cached lim st -> reliable_return_routes st !! id = Some r0 -> cached lim (with_return_routes <[id := r]> st).
Proof. intros [Hr Hc] Hid. split; [|done]. apply put_route_ok; [done|]. apply Hr. by eexists. Qed.

Lemma proxy_cached used budget upstream downstream publisher st res st' :
  cached lim st -> retain_proxy lim used budget upstream downstream publisher st = (res, st') -> cached lim st'.
Proof.
  intros H. pose proof H as [Hr Hc]. unfold retain_proxy. destruct (reliable_return_routes st !! upstream) as [r|].
  2: { intros [= <- <-]. by eapply same_cached. }
  destruct (remember_reliable_return_route _ _ _ _ _) as [b st1] eqn:E. apply remember_spec in E as [[R1 R2 _ _ R5] _]; [|done].
  assert (cached lim st1) as H1 by (split; [done|by rewrite R5]). destruct b; intros [= <- <-]; [|by eapply same_cached].
  split; [|by rewrite <- R5 in Hc]. by apply put_route_ok, R2.
Qed.
End CacheSteps.

Section CacheRuns.
Context `{WE : WireEnv} `{RQ : RetryQueue} (book : gmap Z bytes) (adm : Admission) (names : AddressState) (c : RouterConfig) (lim : Limits).

Lemma revoked_cached side st : cached lim st -> cached lim (with_return_routes (fmap (revoke side)) st).
Proof. intros [Hr Hc]. split; [|done]. apply fewer_routes_ok; [done|]. intros i. by rewrite lookup_fmap, fmap_is_Some. Qed.

Lemma forgotten_cached side st : cached lim st -> cached lim (forget_routes_of side st).
Proof.
  intros [Hr Hc]. split; [|done]. apply fewer_routes_ok; [done|]. intros i. rewrite lookup_omap. intros [a H]. apply bind_Some in H as (r & -> & _). by eexists.
Qed.

Lemma drop_lease_cached g st : cached lim st -> cached lim (drop_lease g st).
Proof.
  intros [[Hn Hk Hr] Hc]. unfold drop_lease, holds_lease. destruct (reliable_return_routes st !! lease_packet g) as [r|] eqn:Er; [|done]. cbn.
  destruct (_ =? _); [|done]. destruct (admission_cancelled r); [|by eapply put_cached]. split; [split|done]; cbn.
  - by apply NoDup_filter.
  - intros i [Hne Hi]%lookup_delete_is_Some. apply list_elem_of_filter. auto.
  - pose proof (sublist_length _ _ (sublist_filter (fun id => id <> lease_packet g) (reliable_return_route_order st))). unfold zlen in *. lia.
Qed.

Lemma step_cached s e s' :
  window_ok lim (fst s) -> cached lim (fst s) -> delivery_step book adm names c lim s e s' -> cached lim (fst s').
Proof.
  intros W H Hs. destruct Hs as [v ph env now_ms data dests st q res st' E|v now_ms st q res st' E| | |now_ms st q res st' q' E|lost st q q'|now_ms id st q res st' E
    |id st q b st' E|id st q|now_ms id ok refused admitted st q| |g accepted st q res st' E|g st q|g st q|known busy side st q res st' E
    |known side enabled st q res st' E|current side enabled st q res st' E|now_ms id st q b st' E| ]; cbn [fst] in *.
  - apply (register_cases book adm names c lim) in E as [->|(sent & N & _)]; [done| |done]. eapply same_cached; [exact H|]. by destruct N as [_ _ _ _ _ _ _ (? & ? & ?)].
  - by eapply reconcile_cached.
  - by eapply service_cached.
  - by eapply receipt_cached.
  - eapply same_cached; [exact H|]. by eapply release_caches.
  - eapply same_cached; [exact H|]. apply marked_caches, markers_lost_marked.
  - eapply same_cached; [exact H|]. unfold end_to_end_retransmit_sides in E. destruct (_ !! id) as [o|]; [destruct (_ && _)|]; by injection E as <- <-.
  - eapply same_cached; [exact H|]. unfold lease_e2e_send in E. destruct (_ !! id); by injection E as <- <-.
  - by eapply same_cached.
  - eapply same_cached; [exact H|]. unfold finish_e2e_child_claim. by destruct (_ && _).
  - by eapply admission_cached.
  - unfold begin_commit in E. destruct (check_locked g st); injection E as <- <-; [by apply alter_cached|done].
  - unfold end_commit, holds_lease. destruct (reliable_return_routes st !! lease_packet g) as [r|] eqn:Er; [|done]. cbn. destruct (_ =? _); [|done]. by eapply put_cached.
  - by apply drop_lease_cached.
  - unfold remove_side in E. destruct (rx_commit_busy side st), busy, known; injection E as <- <-; try done. by apply forgotten_cached.
  - unfold set_side_ingress_enabled in E. destruct (_ && _), known, enabled; injection E as <- <-; try done. by apply revoked_cached.
  - unfold set_side_egress_enabled in E. destruct current as [was|]; [|by injection E as <- <-].
    destruct (negb enabled && negb (Bool.eqb was enabled)); cbn in E; [destruct (rx_commit_busy side st)|]; injection E as <- <-; try done. by apply revoked_cached.
  - unfold take_replay in E. destruct (_ !! id) as [r|] eqn:Er; [destruct (_ <? _)|]; injection E as <- <-; try done. by eapply put_cached.
  - by eapply proxy_cached.
Qed.

Lemma reached_cached s : reached book adm names c lim s -> cached lim (fst s).
Proof.
  intros (q0 & es & H). assert (window_ok lim (fst (deliveries_empty, q0)) /\ cached lim (fst (deliveries_empty, q0))) as HH.
  { split; [apply empty_window|]. split; [|done]. split; cbn; [constructor|by intros i [? ?]|unfold zlen, return_route_cap; cbn; lia]. }
  revert HH. induction H as [|s e s1 es s' Hs _ IH]; intros [W Hc]; [done|]. apply IH. split; [by eapply delivery_step_ok|by eapply step_cached].
Qed.

(** C21: the tables beside the originals are bounded in every reached state: the routes
    back, the receipts that were forwarded and the boards of each.  Making room for a
    route takes none that is pinned, by a retained original or by a running admission,
    and is refused only for want of bytes or when every route is pinned. *)
Theorem return_routes_bounded st q :
  reached book adm names c lim (st, q) ->
  Z.of_nat (size (reliable_return_routes st)) <= return_route_cap lim /\
  (forall cache, receipt_cache st = Some cache ->
     Z.of_nat (size (fr_destinations cache)) <= ack_cache_cap lim /\
     forall id acked, fr_destinations cache !! id = Some acked -> Z.of_nat (size acked) <= pending_cap lim) /\
  (forall used budget id done st', remember_reliable_return_route lim used budget id st = (done, st') ->
     (forall i, pinned st i = true -> reliable_return_routes st' !! i = reliable_return_routes st !! i) /\
     (done = false -> can_admit_reliable_return_route_growth lim used budget st id = false \/
        reliable_return_routes st !! id = None /\ forall i, is_Some (reliable_return_routes st' !! i) -> pinned st i = true)).
Proof.
  intros [Hr Hc]%reached_cached. cbn in Hr, Hc. split_and!.
  - pose proof (known_size _ _ (ro_known lim st Hr)). pose proof (ro_room lim st Hr). lia.
  - intros cache E. rewrite E in Hc. destruct Hc as (Hn & Hk & Hz & Ha). split; [|done]. pose proof (known_size _ _ Hk). lia.
  - intros used budget id done st' E. apply remember_spec in E as [R Hno]; [|done]. split; [apply R|]. intros [?|(? & _ & Hp)]%Hno; [by left|right].
    split; [done|]. intros i Hi. apply Hp. by apply (ro_known lim st' (re_ok _ _ _ _ _ R)).
Qed.
End CacheRuns.

(** ** On the publisher *)

Lemma return_routes_bounded_witness : Z.of_nat (size (reliable_return_routes two_fixes)) <= 2.
Proof.
  assert (publisher_reached true (two_fixes, [])) as H by (exists [], [Other; Other]; apply two_fixes_run).
  exact (proj1 (return_routes_bounded (RQ := line true) ∅ no_probe (sample_board 1) plain_router few two_fixes [] H)).
Defined.
