(* ===== verification/PacketStore.v ===== *)
(** * The packet arena (src/src/packet_store.rs)

    Payloads that wait may be parked in one fixed buffer.  A slot holds a payload and
    counts its handles; the live slots are linked in the order of their offsets.  When
    no gap is large enough the arena is compacted: blocks move down to the end of their
    predecessor, except those that are pinned, because a reader holds their address, and
    those above a size limit.  Pins and handles are counted by their owners, which
    [World] adds.

    The lists are walked by the links; [None] of a walk is the panic of an index out of
    range or a walk that does not end, which the invariant excludes.  The codec of
    compressed payloads (compact-packet-compression) is not modelled, only the mark of a
    compressed slot. *)

From stdpp Require Import list sets fin_sets.
From S2P Require Import Prelude.

Open Scope Z_scope.

(** ** The state *)

Record Slot : Type := {
  offset : Z;
  slot_len : Z;
  refs : Z;
  pins : Z;
  compressed : bool;
  next : option nat;
  source : Z;
}.

Definition slot_default : Slot :=
  {| offset := 0; slot_len := 0; refs := 0; pins := 0; compressed := false; next := None; source := 0 |}.

Record Arena : Type := {
  arena_bytes : bytes;
  slots : list Slot;
  movable_limit : Z;
  moves : Z;
  rejected : Z;
  head : option nat;
}.

Definition with_offset (o : Z) (s : Slot) : Slot :=
  {| offset := o; slot_len := slot_len s; refs := refs s; pins := pins s; compressed := compressed s; next := next s; source := source s |}.
Definition with_refs (n : Z) (s : Slot) : Slot :=
  {| offset := offset s; slot_len := slot_len s; refs := n; pins := pins s; compressed := compressed s; next := next s; source := source s |}.
Definition with_pins (n : Z) (s : Slot) : Slot :=
  {| offset := offset s; slot_len := slot_len s; refs := refs s; pins := n; compressed := compressed s; next := next s; source := source s |}.
Definition with_next (n : option nat) (s : Slot) : Slot :=
  {| offset := offset s; slot_len := slot_len s; refs := refs s; pins := pins s; compressed := compressed s; next := n; source := source s |}.

Definition set_slot (i : nat) (s : Slot) (st : Arena) : Arena :=
  {| arena_bytes := arena_bytes st; slots := <[i := s]> (slots st); movable_limit := movable_limit st; moves := moves st;
     rejected := rejected st; head := head st |}.
Definition set_head (h : option nat) (st : Arena) : Arena :=
  {| arena_bytes := arena_bytes st; slots := slots st; movable_limit := movable_limit st; moves := moves st;
     rejected := rejected st; head := h |}.
Definition set_bytes (b : bytes) (st : Arena) : Arena :=
  {| arena_bytes := b; slots := slots st; movable_limit := movable_limit st; moves := moves st; rejected := rejected st; head := head st |}.
Definition count_move (st : Arena) : Arena :=
  {| arena_bytes := arena_bytes st; slots := slots st; movable_limit := movable_limit st; moves := wrap64 (moves st + 1);
     rejected := rejected st; head := head st |}.
Definition count_rejected (st : Arena) : Arena :=
  {| arena_bytes := arena_bytes st; slots := slots st; movable_limit := movable_limit st; moves := moves st;
     rejected := wrap64 (rejected st + 1); head := head st |}.

(** *** The buffer *)

Definition range (b : bytes) (o n : Z) : bytes := take (Z.to_nat n) (drop (Z.to_nat o) b).
Definition overwrite (b : bytes) (o : Z) (w : bytes) : bytes := take (Z.to_nat o) b ++ w ++ drop (Z.to_nat o + length w) b.
Definition contents (st : Arena) (s : Slot) : bytes := range (arena_bytes st) (offset s) (slot_len s).

(** ** Allocation *)

(** Enough for every live slot and the end of the list. *)
Definition walk_fuel (st : Arena) : nat := S (length (slots st)).

(** The first gap of [need] bytes. *)
Fixpoint gap_from (fuel : nat) (st : Arena) (cursor : option nat) (last need : Z) : option (option Z) :=
  match fuel with
  | O => None
  | S fuel =>
      match cursor with
      | None => Some (if need <=? wrap64 (zlen (arena_bytes st) - last) then Some last else None)
      | Some i =>
          s ← slots st !! i;
          if need <=? wrap64 (offset s - last) then Some (Some last) else gap_from fuel st (next s) (offset s + slot_len s) need
      end
  end.
Definition gap (st : Arena) (need : Z) : option (option Z) := gap_from (walk_fuel st) st (head st) 0 need.

Definition movable (st : Arena) (s : Slot) : bool := (pins s =? 0) && (slot_len s <=? movable_limit st).

(** A block moves to the end of its predecessor. *)
Definition move_block (i : nat) (s : Slot) (last : Z) (st : Arena) : Arena :=
  count_move (set_slot i (with_offset last s) (set_bytes (overwrite (arena_bytes st) last (contents st s)) st)).

Fixpoint compact_from (fuel : nat) (st : Arena) (cursor : option nat) (last : Z) : option Arena :=
  match fuel with
  | O => None
  | S fuel =>
      match cursor with
      | None => Some st
      | Some i =>
          s ← slots st !! i;
          if movable st s && negb (offset s =? last) then compact_from fuel (move_block i s last st) (next s) (last + slot_len s)
          else compact_from fuel st (next s) (offset s + slot_len s)
      end
  end.
Definition compact (st : Arena) : option Arena := compact_from (walk_fuel st) st (head st) 0.

(** The neighbours of an offset in the list. *)
Fixpoint neighbours (fuel : nat) (st : Arena) (prev cursor : option nat) (off : Z) : option (option nat * option nat) :=
  match fuel with
  | O => None
  | S fuel =>
      match cursor with
      | None => Some (prev, None)
      | Some i =>
          s ← slots st !! i;
          if off <? offset s then Some (prev, cursor) else neighbours fuel st cursor (next s) off
      end
  end.

Definition pressure : TelemetryError := Io "memory pressure".

(** The block is put between its neighbours. *)
Definition link_slot (slot : nat) (off len : Z) (comp : bool) (src : Z) (st : Arena) : option Arena :=
  '(prev, nxt) ← neighbours (walk_fuel st) st None (head st) off;
  let st := set_slot slot {| offset := off; slot_len := len; refs := 1; pins := 0; compressed := comp; next := nxt; source := src |} st in
  match prev with
  | Some p => s ← slots st !! p; Some (set_slot p (with_next (Some slot) s) st)
  | None => Some (set_head (Some slot) st)
  end.

Definition reserve (len : Z) (comp : bool) (src : Z) (st : Arena) : option (result nat * Arena) :=
  match list_find (fun s => refs s = 0) (slots st) with
  | None => Some (Err pressure, count_rejected st)
  | Some (slot, _) =>
      first ← gap st len;
      '(off, st) ← match first with
                   | Some o => Some (Some o, st)
                   | None => st ← compact st; o ← gap st len; Some (o, st)
                   end;
      match off with
      | None => Some (Err pressure, count_rejected st)
      | Some off => st ← link_slot slot off len comp src st; Some (Ok slot, st)
      end
  end.

(** ** Handles *)

Record StoredBytes : Type := { handle_slot : option nat; handle_len : Z }.

(** One more owner; the count does not pass the largest integer. *)
Definition add_ref (i : nat) (st : Arena) : option Arena :=
  s ← slots st !! i; n ← checked_add (refs s) 1; Some (set_slot i (with_refs n s) st).

(** A shared buffer that is parked already gives another handle of its slot.  The
    address is only a hint, the bytes are compared. *)
Definition shared_with (st : Arena) (b : bytes) (src : Z) (s : Slot) : Prop :=
  refs s <> 0 /\ compressed s = false /\ source s = src /\ slot_len s = zlen b /\ contents st s = b.
#[export] Instance shared_with_dec st b src s : Decision (shared_with st b src s).
Proof. unfold shared_with. apply _. Defined.

Definition insert (b : bytes) (logical : Z) (comp : bool) (src : Z) (st : Arena) : option (result StoredBytes * Arena) :=
  if is_empty b then Some (Ok {| handle_slot := None; handle_len := logical |}, st)
  else match (if src =? 0 then None else list_find (shared_with st b src) (slots st)) with
       | Some (i, _) => st ← add_ref i st; Some (Ok {| handle_slot := Some i; handle_len := logical |}, st)
       | None =>
           '(r, st) ← reserve (zlen b) comp src st;
           match r with
           | Err e => Some (Err e, st)
           | Ok slot =>
               s ← slots st !! slot;
               Some (Ok {| handle_slot := Some slot; handle_len := logical |}, set_bytes (overwrite (arena_bytes st) (offset s) b) st)
           end
       end.

Definition store (b : bytes) (st : Arena) : option (result StoredBytes * Arena) := insert b (zlen b) false 0 st.
Definition store_shared (b : bytes) (address : Z) (st : Arena) : option (result StoredBytes * Arena) := insert b (zlen b) false address st.

Definition clone_handle (h : StoredBytes) (st : Arena) : option Arena :=
  match handle_slot h with Some i => add_ref i st | None => Some st end.

(** The predecessor of a slot is linked to its successor. *)
Fixpoint unlink_from (fuel : nat) (st : Arena) (cursor : option nat) (i : nat) (nxt : option nat) : option Arena :=
  match fuel with
  | O => None
  | S fuel =>
      match cursor with
      | None => Some st
      | Some p =>
          s ← slots st !! p;
          if bool_decide (next s = Some i) then Some (set_slot p (with_next nxt s) st) else unlink_from fuel st (next s) i nxt
      end
  end.

Definition drop_ref (i : nat) (st : Arena) : option Arena :=
  s ← slots st !! i;
  n ← checked_sub (refs s) 1;
  let st := set_slot i (with_refs n s) st in
  if negb (n =? 0) then Some st
  else if negb (pins s =? 0) then None
  else
    st ← (if bool_decide (head st = Some i) then Some (set_head (next s) st) else unlink_from (walk_fuel st) st (head st) i (next s));
    Some (set_slot i slot_default st).

Definition drop_handle (h : StoredBytes) (st : Arena) : option Arena :=
  match handle_slot h with Some i => drop_ref i st | None => Some st end.

Definition stored_len (h : StoredBytes) (st : Arena) : option Z :=
  match handle_slot h with Some i => slot_len <$> slots st !! i | None => Some 0 end.
Definition is_compressed (h : StoredBytes) (st : Arena) : option bool :=
  match handle_slot h with Some i => compressed <$> slots st !! i | None => Some false end.

(** A view holds a pin and a handle of its own. *)
Definition pin (h : StoredBytes) (st : Arena) : option (result StoredBytes * Arena) :=
  match handle_slot h with
  | None => Some (Ok h, st)
  | Some i =>
      s ← slots st !! i;
      if compressed s then Some (Err (Io "compressed payload requires range decoding"), st)
      else n ← checked_add (pins s) 1; st ← add_ref i (set_slot i (with_pins n s) st); Some (Ok h, st)
  end.

Definition unpin (h : StoredBytes) (st : Arena) : option Arena :=
  match handle_slot h with
  | None => Some st
  | Some i => s ← slots st !! i; n ← checked_sub (pins s) 1; drop_ref i (set_slot i (with_pins n s) st)
  end.

(** What a view reads. *)
Definition deref (h : StoredBytes) (st : Arena) : option bytes :=
  match handle_slot h with Some i => contents st <$> slots st !! i | None => Some [] end.

(** The range is checked against the logical length, the view has the stored one. *)
Definition read_range (h : StoredBytes) (off len : Z) (st : Arena) : option (result bytes * Arena) :=
  if match checked_add off len with Some last => handle_len h <? last | None => true end
  then Some (Err (Unpack "payload range out of bounds"), st)
  else
    '(r, st) ← pin h st;
    match r with
    | Err e => Some (Err e, st)
    | Ok view => b ← deref view st; st ← unpin view st;
                 if zlen b <? off + len then None else Some (Ok (range b off len), st)
    end.

(** ** Reports *)

Record StoreStats : Type := {
  stat_capacity : Z;
  live_bytes : Z;
  largest_gap : Z;
  live_handles : Z;
  pinned_bytes : Z;
  stat_moves : Z;
  stat_rejected : Z;
  stat_reserved : Z;
}.

Fixpoint largest_from (fuel : nat) (st : Arena) (cursor : option nat) (last largest : Z) : option Z :=
  match fuel with
  | O => None
  | S fuel =>
      match cursor with
      | None => Some (Z.max largest (wrap64 (zlen (arena_bytes st) - last)))
      | Some i =>
          s ← slots st !! i;
          largest_from fuel st (next s) (offset s + slot_len s) (Z.max largest (wrap64 (offset s - last)))
      end
  end.

Definition is_live (s : Slot) : bool := negb (refs s =? 0).
Definition sum_len (l : list Slot) : Z := foldr (fun s n => slot_len s + n) 0 l.

(** [reserved]: the bytes of the two buffers as the allocator granted them. *)
Definition stats (reserved : Z) (st : Arena) : option StoreStats :=
  largest ← largest_from (walk_fuel st) st (head st) 0 0;
  Some {| stat_capacity := zlen (arena_bytes st); live_bytes := sum_len (List.filter is_live (slots st)); largest_gap := largest;
          live_handles := zlen (List.filter is_live (slots st));
          pinned_bytes := sum_len (List.filter (fun s => is_live s && negb (pins s =? 0)) (slots st));
          stat_moves := moves st; stat_rejected := rejected st; stat_reserved := reserved |}.

(** [allocated]: the two buffers were granted. *)
Definition new (capacity handles limit : Z) (allocated : bool) : result Arena :=
  if (capacity =? 0) || (handles =? 0) || negb allocated then Err pressure
  else Ok {| arena_bytes := replicate (Z.to_nat capacity) 0; slots := replicate (Z.to_nat handles) slot_default; movable_limit := limit;
             moves := 0; rejected := 0; head := None |}.

(** The arena of the process: a zero capacity disables it; a handle keeps the arena it
    was made in. *)
Definition configure (capacity handles limit : Z) (allocated : bool) (default : option Arena) : Z * option Arena :=
  if capacity =? 0 then (0, None)
  else match new capacity handles limit allocated with Ok st => (0, Some st) | Err _ => (-14, default) end.

(** ** The buffer *)

Lemma zlen_overwrite b o w : 0 <= o -> o + zlen w <= zlen b -> zlen (overwrite b o w) = zlen b.
Proof. unfold zlen, overwrite. intros Ho Hw. rewrite !length_app, length_take, length_drop. lia. Qed.

Lemma range_overwrite_same b o w : 0 <= o -> o + zlen w <= zlen b -> range (overwrite b o w) o (zlen w) = w.
Proof.
  unfold zlen, overwrite, range. intros Ho Hw. rewrite drop_app_length' by (rewrite length_take; lia). rewrite Nat2Z.id. by rewrite take_app_length.
Qed.

Lemma range_overwrite_before b o w o' n : 0 <= o' -> 0 <= n -> o' + n <= o -> o + zlen w <= zlen b -> range (overwrite b o w) o' n = range b o' n.
Proof.
  unfold zlen, overwrite, range. intros Ho Hn Hle Hw. rewrite drop_app_le by (rewrite length_take; lia).
  rewrite take_app_le by (rewrite length_drop, length_take; lia). rewrite !take_drop_commute. rewrite take_take. f_equal. f_equal. lia.
Qed.

Lemma range_overwrite_after b o w o' n : 0 <= o -> o + zlen w <= o' -> o + zlen w <= zlen b -> range (overwrite b o w) o' n = range b o' n.
Proof.
  unfold zlen, overwrite, range. intros Ho Hle Hw. f_equal. rewrite drop_app_ge by (rewrite length_take; lia).
  rewrite drop_app_ge by (rewrite length_take; lia). rewrite drop_drop. f_equal. rewrite length_take. lia.
Qed.

Lemma zlen_range b o n : 0 <= o -> 0 <= n -> o + n <= zlen b -> zlen (range b o n) = n.
Proof. unfold zlen, range. intros. rewrite length_take, length_drop. lia. Qed.

(** ** The list of the live slots *)

(** From the cursor [c] at the end [e] of what precedes, over [l], to [c'] and [e']. *)
Fixpoint seg (sl : list Slot) (c : option nat) (e : Z) (l : list nat) (c' : option nat) (e' : Z) : Prop :=
  match l with
  | [] => c' = c /\ e' = e
  | i :: l => c = Some i /\ exists s, sl !! i = Some s /\ e <= offset s /\ 0 < slot_len s /\ seg sl (next s) (offset s + slot_len s) l c' e'
  end.

Lemma seg_app sl l1 l2 c' e' : forall c e, seg sl c e (l1 ++ l2) c' e' <-> exists c1 e1, seg sl c e l1 c1 e1 /\ seg sl c1 e1 l2 c' e'.
Proof.
  induction l1 as [|i l1 IH]; intros c e; cbn [app seg].
  - split; [intros H; by exists c, e|intros (? & ? & [-> ->] & H); done].
  - split.
    + intros (-> & s & Hs & He & Hn & (c1 & e1 & H1 & H2)%IH). exists c1, e1. split; [|done]. split; [done|]. by exists s.
    + intros (c1 & e1 & (-> & s & Hs & He & Hn & H1) & H2). split; [done|]. exists s. split_and!; try done. apply IH. by exists c1, e1.
Qed.

Lemma seg_bounds sl l c' e' : forall c e, seg sl c e l c' e' -> e <= e' /\
  forall i, i ∈ l -> exists s, sl !! i = Some s /\ e <= offset s /\ 0 < slot_len s /\ offset s + slot_len s <= e'.
Proof.
  induction l as [|i l IH]; intros c e; cbn [seg].
  - intros [-> ->]. split; [lia|]. by intros i ?%not_elem_of_nil.
  - intros (-> & s & Hs & He & Hn & [H1 H2]%IH). split; [lia|]. intros j [->|Hj]%elem_of_cons; [exists s; split_and!; done || lia|].
    destruct (H2 j Hj) as (t & ? & ? & ? & ?). exists t. split_and!; done || lia.
Qed.

(** Only the slots of the list matter, and of them place and link. *)
Lemma seg_agree sl sl' l c' e' : forall c e, (forall i s, i ∈ l -> sl !! i = Some s -> exists s', sl' !! i = Some s' /\ offset s' = offset s /\ slot_len s' = slot_len s /\ next s' = next s) ->
  seg sl c e l c' e' -> seg sl' c e l c' e'.
Proof.
  induction l as [|i l IH]; intros c e Ha; cbn [seg]; [done|]. intros (-> & s & Hs & He & Hn & H). split; [done|].
  destruct (Ha i s) as (s' & Hs' & Ho & Hl & Hx); [by left|done|]. exists s'. rewrite Ho, Hl, Hx. split_and!; try done. apply IH; [|done].
  intros j t Hj. apply Ha. by right.
Qed.

Lemma seg_insert_other sl j t l c e c' e' : j ∉ l -> seg sl c e l c' e' -> seg (<[j := t]> sl) c e l c' e'.
Proof.
  intros Hj. apply seg_agree. intros i s Hi Hs. exists s. rewrite list_lookup_insert_ne by (intros ->; done). done.
Qed.

(** The last block is linked elsewhere. *)
Lemma seg_relink sl l p s n c e c1 e1 :
  NoDup (l ++ [p]) -> sl !! p = Some s -> seg sl c e (l ++ [p]) c1 e1 -> seg (<[p := with_next n s]> sl) c e (l ++ [p]) n e1.
Proof.
  intros Hn Hp (c2 & e2 & H1 & H2)%seg_app. apply seg_app. exists c2, e2. split.
  - apply seg_insert_other; [|done]. apply NoDup_app in Hn as (_ & Hn & _). intros H. apply (Hn p H). by left.
  - cbn in H2. destruct H2 as (-> & t & Ht & He & Hl & -> & ->). assert (t = s) as -> by congruence.
    cbn [seg]. split; [done|]. exists (with_next n s).
    rewrite list_lookup_insert_eq by by apply lookup_lt_Some in Hp. by split_and!.
Qed.

(** ** A well-formed arena *)

Record linked (st : Arena) (l : list nat) (last : Z) : Prop := {
  lk_seg : seg (slots st) (head st) 0 l None last;
  lk_last : last <= zlen (arena_bytes st);
  lk_nodup : NoDup l;
  lk_cap : zlen (arena_bytes st) <= u64_max;
  lk_live : forall i s, slots st !! i = Some s -> if decide (i ∈ l) then 0 < refs s /\ 0 <= pins s else s = slot_default;
}.

Definition arena_ok (st : Arena) : Prop := exists l last, linked st l last.

Lemma linked_short st l last : linked st l last -> (length l < walk_fuel st)%nat.
Proof.
  intros [Hs _ Hn _ _]. unfold walk_fuel. enough (length l <= length (slots st))%nat by lia.
  enough (l ⊆+ seq 0 (length (slots st))) as H%submseteq_length by by rewrite length_seq in H. apply NoDup_submseteq; [done|].
  intros i Hi. apply elem_of_seq. apply seg_bounds in Hs as [_ Hs]. destruct (Hs i Hi) as (s & Hl%lookup_lt_Some & _). lia.
Qed.

(** *** Gaps *)

(** A gap of [need] bytes at [off], between the blocks [l1] and [l2]. *)
Definition gap_at (st : Arena) (need off : Z) (l1 l2 : list nat) : Prop :=
  exists c last, seg (slots st) (head st) 0 l1 c off /\ seg (slots st) c (off + need) l2 None last /\ last <= zlen (arena_bytes st).

(** No gap of [need] bytes from [e] on. *)
Fixpoint full (sl : list Slot) (need e cap : Z) (l : list nat) : Prop :=
  match l with
  | [] => cap < e + need
  | i :: l => exists s, sl !! i = Some s /\ offset s < e + need /\ full sl need (offset s + slot_len s) cap l
  end.

Lemma gap_from_spec st need last fuel : forall c e l1 l,
  0 < need -> 0 <= e -> last <= zlen (arena_bytes st) -> zlen (arena_bytes st) <= u64_max ->
  seg (slots st) (head st) 0 l1 c e -> seg (slots st) c e l None last -> (length l < fuel)%nat ->
  (full (slots st) need e (zlen (arena_bytes st)) l /\ gap_from fuel st c e need = Some None) \/
  exists off l2 l3, l = l2 ++ l3 /\ gap_from fuel st c e need = Some (Some off) /\ gap_at st need off (l1 ++ l2) l3.
Proof.
  induction fuel as [|fuel IH]; intros c e l1 l Hn He Hlast Hcap H1 H2 Hf; [lia|]. destruct l as [|i l]; cbn [seg gap_from] in *.
  - destruct H2 as [<- ->]. rewrite wrap64_small by solve_u. destruct (need <=? _) eqn:E; [apply Z.leb_le in E|apply Z.leb_gt in E].
    + right. exists e, [], []. split_and!; [done|done|]. rewrite app_nil_r. exists None, (e + need). split_and!; [done|done|lia].
    + left. split; [cbn; lia|done].
  - destruct H2 as (-> & s & Hs & Ho & Hl & H2). rewrite Hs. cbn. destruct (seg_bounds _ _ _ _ _ _ H2) as [Hb _].
    rewrite wrap64_small by solve_u. destruct (need <=? _) eqn:E; [apply Z.leb_le in E|apply Z.leb_gt in E].
    + right. exists e, [], (i :: l). split_and!; [done|done|]. rewrite app_nil_r. exists (Some i), last. split_and!; [done| |done].
      split; [done|]. exists s. split_and!; done || lia.
    + destruct (IH (next s) (offset s + slot_len s) (l1 ++ [i]) l) as [[Hfull Hg]|(off & l2 & l3 & -> & Hg & Hat)]; try done; try lia.
      * apply seg_app. exists (Some i), e. split; [done|]. cbn [seg]. split; [done|]. exists s. by split_and!.
      * cbn in Hf. lia.
      * left. split; [|done]. exists s. split_and!; [done|lia|done].
      * right. exists off, (i :: l2), l3. split_and!; [done|done|]. by rewrite <- app_assoc in Hat.
Qed.

Lemma gap_spec st l last need : linked st l last -> 0 < need ->
  (full (slots st) need 0 (zlen (arena_bytes st)) l /\ gap st need = Some None) \/
  exists off l1 l2, l = l1 ++ l2 /\ gap st need = Some (Some off) /\ gap_at st need off l1 l2.
Proof.
  intros L Hn. pose proof (linked_short st l last L). destruct L as [Hs Hl _ Hc _].
  by apply (gap_from_spec st need last (walk_fuel st) (head st) 0 [] l).
Qed.

(** *** Compaction *)

(** What a step of the compaction leaves: the blocks of [l] in their order between [e]
    and the end, with their bytes, none that must stay moved, the rest untouched. *)
Record compacted (st st' : Arena) (c : option nat) (e : Z) (l : list nat) (last last' : Z) : Prop := {
  cp_seg : seg (slots st') c e l None last';
  cp_last : last' <= last;
  cp_len : zlen (arena_bytes st') = zlen (arena_bytes st);
  cp_slots : forall i s, slots st !! i = Some s -> exists o, slots st' !! i = Some (with_offset o s) /\ o <= offset s /\
    (i ∉ l \/ movable st s = false -> o = offset s) /\ (i ∈ l -> range (arena_bytes st') o (slot_len s) = contents st s);
  cp_before : forall o n, 0 <= o -> 0 <= n -> o + n <= e -> range (arena_bytes st') o n = range (arena_bytes st) o n;
  cp_head : head st' = head st;
  cp_limit : movable_limit st' = movable_limit st;
  cp_same : rejected st' = rejected st /\ length (slots st') = length (slots st);
  cp_packed : (forall i s, i ∈ l -> slots st !! i = Some s -> movable st s = true) ->
    last' = e + foldr (fun i n => match slots st !! i with Some s => slot_len s + n | None => n end) 0 l;
}.

Lemma with_offset_same s : with_offset (offset s) s = s.
Proof. by destruct s. Qed.

Lemma with_offset_twice o o' s : with_offset o (with_offset o' s) = with_offset o s.
Proof. by destruct s. Qed.

Lemma seg_lower sl l last c e e2 : e2 <= e -> seg sl c e l None last -> exists last2, seg sl c e2 l None last2 /\ last2 <= last.
Proof.
  destruct l as [|i l]; cbn [seg].
  - intros He [-> ->]. by exists e2.
  - intros He (-> & s & ? & ? & ? & ?). exists last. split; [|done]. split; [done|]. exists s. split_and!; done || lia.
Qed.

Lemma packed_sum_update (sl sl' : list Slot) (l : list nat) : (forall i, i ∈ l -> sl' !! i = sl !! i) ->
  foldr (fun i n => match sl' !! i with Some s => slot_len s + n | None => n end) 0 l =
  foldr (fun i n => match sl !! i with Some s => slot_len s + n | None => n end) 0 l.
Proof. induction l as [|i l IH]; intros H; [done|]. cbn. rewrite H by (by left). rewrite IH; [done|]. intros j Hj. apply H. by right. Qed.

Section OneBlock.
Context (st : Arena) (i : nat) (s : Slot) (e last : Z) (l : list nat).
Hypothesis Hi : slots st !! i = Some s.
Hypothesis He : 0 <= e <= offset s.
Hypothesis Hlen : 0 < slot_len s.
Hypothesis Hseg : seg (slots st) (next s) (offset s + slot_len s) l None last.
Hypothesis Hlast : last <= zlen (arena_bytes st).
Hypothesis Hnew : i ∉ l.

Lemma block_inside : offset s + slot_len s <= zlen (arena_bytes st).
Proof. destruct (seg_bounds _ _ _ _ _ _ Hseg). lia. Qed.

Lemma block_len : zlen (contents st s) = slot_len s.
Proof. apply zlen_range; pose proof block_inside; lia. Qed.

(** The block stays and the rest is compacted. *)
Lemma keep_block st' last' :
  (movable st s = false \/ offset s = e) ->
  compacted st st' (next s) (offset s + slot_len s) l last last' -> compacted st st' (Some i) e (i :: l) last last'.
Proof.
  intros Hkeep [Cseg Clast Clen Cslots Cbefore Chead Climit Csame Cpacked].
  destruct (Cslots i s Hi) as (o & Ho & _ & Hsame & _). rewrite Hsame, with_offset_same in Ho by by left. pose proof block_inside. split; try done.
  - cbn [seg]. split; [done|]. exists s. split_and!; done || lia.
  - intros j t Hj. destruct (Cslots j t Hj) as (o' & Hj' & Hle & Hs' & Hc). exists o'. split; [done|]. split; [done|]. destruct (decide (j = i)) as [->|Hne].
    + assert (t = s) as -> by congruence. assert (o' = offset s) as -> by by apply Hs'; left. split; [done|]. intros _. by apply Cbefore; lia.
    + split; [|intros [->|Hin]%elem_of_cons; [done|by apply Hc]]. intros [Hn|Hm]; apply Hs'; [left|by right]. intros Hin. apply Hn. by right.
  - intros o' n ? ? ?. apply Cbefore; lia.
  - intros Hall. cbn [foldr]. rewrite Hi. rewrite Cpacked by (intros j t Hj; apply Hall; by right).
    destruct Hkeep as [Hm| ->]; [|lia]. rewrite (Hall i s) in Hm by (done || by left). done.
Qed.

(** The block moves down and the rest is compacted. *)
Lemma moved_block st' last1 last' :
  movable st s = true -> last1 <= last ->
  compacted (move_block i s e st) st' (next s) (e + slot_len s) l last1 last' -> compacted st st' (Some i) e (i :: l) last last'.
Proof.
  intros Hm Hl1 [Cseg Clast Clen Cslots Cbefore Chead Climit [Csame Clength] Cpacked]. pose proof block_inside as Hin. pose proof block_len as Hbl.
  assert (i < length (slots st))%nat as Hlt by by eapply lookup_lt_Some. cbn in Clen, Cslots, Cbefore, Chead, Climit, Csame, Clength, Cpacked.
  rewrite length_insert in Clength.
  assert (zlen (overwrite (arena_bytes st) e (contents st s)) = zlen (arena_bytes st)) as Hz by (apply zlen_overwrite; rewrite ?Hbl; lia).
  destruct (Cslots i (with_offset e s)) as (o & Ho & _ & Hsame & _); [by rewrite list_lookup_insert_eq|].
  rewrite Hsame in Ho by by left. rewrite with_offset_twice in Ho. split; try done; [|lia|by rewrite Clen| | |].
  - cbn [seg]. split; [done|]. exists (with_offset e s). cbn. split_and!; done || lia.
  - intros j t Hj. destruct (decide (j = i)) as [->|Hne].
    + assert (t = s) as -> by congruence. exists e. split_and!; [done|lia| |].
      * intros [Hn|?]; [|congruence]. destruct Hn. by left.
      * intros _. rewrite Cbefore by lia. rewrite <- Hbl at 1. apply range_overwrite_same; rewrite ?Hbl; lia.
    + destruct (Cslots j t) as (o' & Hj' & Hle & Hs' & Hc); [by rewrite list_lookup_insert_ne|]. exists o'. split_and!; try done.
      * intros [Hn|Hn]; apply Hs'; [left|by right]. intros Hjl. apply Hn. by right.
      * intros [->|Hjl]%elem_of_cons; [done|]. rewrite Hc by done. destruct (seg_bounds _ _ _ _ _ _ Hseg) as [_ Hb]. destruct (Hb j Hjl) as (t' & Ht' & Hot & _).
        assert (t' = t) as -> by congruence. apply range_overwrite_after; rewrite ?Hbl; lia.
  - intros o' n ? ? ?. rewrite Cbefore by lia. apply range_overwrite_before; rewrite ?Hbl; lia.
  - intros Hall. cbn [foldr]. rewrite Hi, Cpacked.
    + rewrite (packed_sum_update (slots st)); [lia|]. intros j Hj. apply list_lookup_insert_ne. by intros ->.
    + intros j t Hj. rewrite list_lookup_insert_ne by by intros ->. intros Ht. by apply (Hall j t); [right|].
Qed.
End OneBlock.

Lemma compact_from_spec fuel : forall st c e l last,
  0 <= e -> seg (slots st) c e l None last -> last <= zlen (arena_bytes st) -> NoDup l -> (length l < fuel)%nat ->
  exists st' last', compact_from fuel st c e = Some st' /\ compacted st st' c e l last last'.
Proof.
  induction fuel as [|fuel IH]; intros st c e l last He Hs Hl Hn Hf; [lia|]. destruct l as [|i l]; cbn [seg compact_from] in *.
  - destruct Hs as [<- ->]. exists st, e. split; [done|]. split; try done.
    + intros i s Hi. exists (offset s). rewrite with_offset_same. split_and!; done || by intros ?%not_elem_of_nil.
    + cbn. lia.
  - destruct Hs as (-> & s & Hi & Ho & Hlen & Hseg). rewrite Hi. cbn. apply NoDup_cons in Hn as [Hnew Hn]. cbn in Hf.
    destruct (movable st s && negb (offset s =? e)) eqn:Em.
    + apply andb_true_iff in Em as [Em _]. assert (0 <= e <= offset s) as Hes by lia.
      assert (zlen (contents st s) = slot_len s) as Hbl by by eapply block_len. assert (offset s + slot_len s <= zlen (arena_bytes st)) as Hin by by eapply block_inside.
      destruct (seg_lower (slots (move_block i s e st)) l last (next s) (offset s + slot_len s) (e + slot_len s)) as (last1 & Hseg1 & Hl1); [lia|by apply seg_insert_other|].
      destruct (IH (move_block i s e st) (next s) (e + slot_len s) l last1) as (st' & last' & Hc & C); [lia|done| |done|lia|].
      { cbn. rewrite zlen_overwrite by (rewrite ?Hbl; lia). lia. }
      exists st', last'. split; [done|]. by eapply (moved_block st i s e last l).
    + destruct (IH st (next s) (offset s + slot_len s) l last) as (st' & last' & Hc & C); [lia|done|done|done|lia|]. exists st', last'. split; [done|].
      apply andb_false_iff in Em. rewrite negb_false_iff, Z.eqb_eq in Em. by eapply keep_block.
Qed.

(** ** The abstract store *)

(** What a slot stands for: its owners and its bytes, wherever they lie. *)
Record Cell : Type := { c_refs : Z; c_pins : Z; c_compressed : bool; c_bytes : bytes }.
Definition cell_of (st : Arena) (s : Slot) : Cell :=
  {| c_refs := refs s; c_pins := pins s; c_compressed := compressed s; c_bytes := contents st s |}.
Definition cells (st : Arena) : list Cell := cell_of st <$> slots st.
Definition free_cell : Cell := {| c_refs := 0; c_pins := 0; c_compressed := false; c_bytes := [] |}.

Lemma cells_lookup st i x : cells st !! i = Some x <-> exists s, slots st !! i = Some s /\ cell_of st s = x.
Proof. unfold cells. rewrite list_lookup_fmap. destruct (slots st !! i) as [s|]; cbn; split; [intros [= <-]; by exists s|intros (t & [= ->] & ->); done|done|by intros (? & ? & _)]. Qed.

Lemma cells_set st i s : cells (set_slot i s st) = <[i := cell_of st s]> (cells st).
Proof. unfold cells. cbn. by rewrite list_fmap_insert. Qed.

Lemma linked_slot st l last i s : linked st l last -> slots st !! i = Some s -> i ∈ l ->
  0 <= offset s /\ 0 < slot_len s /\ offset s + slot_len s <= zlen (arena_bytes st) /\ zlen (contents st s) = slot_len s.
Proof.
  intros L Hs Hi. destruct (seg_bounds _ _ _ _ _ _ (lk_seg _ _ _ L)) as [_ Hb]. destruct (Hb i Hi) as (t & Ht & ? & ? & ?).
  assert (t = s) as -> by congruence. pose proof (lk_last _ _ _ L). split_and!; try lia. apply zlen_range; lia.
Qed.

Lemma linked_same_place st st' l last :
  linked st l last -> arena_bytes st' = arena_bytes st -> head st' = head st ->
  (forall i s', slots st' !! i = Some s' -> exists s, slots st !! i = Some s /\
     if decide (i ∈ l) then offset s' = offset s /\ slot_len s' = slot_len s /\ next s' = next s /\ 0 < refs s' /\ 0 <= pins s' else s' = s) ->
  length (slots st') = length (slots st) -> linked st' l last.
Proof.
  intros [H1 H2 H3 H4 H5] Hb Hh Hs Hlen. split; rewrite ?Hb, ?Hh; try done.
  - eapply seg_agree; [|exact H1]. intros i s Hi Hsi. destruct (lookup_lt_is_Some_2 (slots st') i) as [s' Hs']; [rewrite Hlen; by eapply lookup_lt_Some|].
    exists s'. destruct (Hs i s' Hs') as (t & Ht & Hd). rewrite decide_True in Hd by done. assert (t = s) as -> by congruence. tauto.
  - intros i s' Hs'. destruct (Hs i s' Hs') as (s & Hsi & Hd). specialize (H5 i s Hsi). case_decide; [tauto|congruence].
Qed.

(** Counts are changed in place. *)
Lemma edit_linked st l last i s s' :
  linked st l last -> slots st !! i = Some s -> i ∈ l -> offset s' = offset s -> slot_len s' = slot_len s -> next s' = next s ->
  0 < refs s' -> 0 <= pins s' -> linked (set_slot i s' st) l last.
Proof.
  intros L Hs Hi ? ? ? ? ?. eapply linked_same_place; [exact L|done|done| |cbn; by rewrite length_insert].
  intros j t. cbn. intros [(-> & -> & _)|[Hne Ht]]%list_lookup_insert_Some.
  - exists s. rewrite decide_True by done. by split_and!.
  - exists t. split; [done|]. case_decide as Hj; [|done]. pose proof (lk_live _ _ _ L j t Ht) as Hlive. rewrite decide_True in Hlive by done. destruct Hlive. by split_and!.
Qed.

Lemma add_ref_spec st l last i s :
  linked st l last -> slots st !! i = Some s -> i ∈ l -> refs s < u64_max ->
  exists st', add_ref i st = Some st' /\ linked st' l last /\ slots st' = <[i := with_refs (refs s + 1) s]> (slots st) /\
    cells st' = <[i := cell_of st (with_refs (refs s + 1) s)]> (cells st).
Proof.
  intros L Hs Hi Hr. unfold add_ref. rewrite Hs. cbn. unfold checked_add. rewrite (proj2 (Z.leb_le _ _)) by lia. cbn. eexists. split; [done|].
  pose proof (lk_live _ _ _ L i s Hs) as Hlive. rewrite decide_True in Hlive by done. split_and!; [|done|by rewrite cells_set].
  apply edit_linked with s; cbn; try done; lia.
Qed.

Lemma compact_cells st l last :
  linked st l last -> exists st' last', compact st = Some st' /\ linked st' l last' /\ cells st' = cells st /\
    (forall i s, slots st !! i = Some s -> movable st s = false -> exists s', slots st' !! i = Some s' /\ offset s' = offset s) /\
    zlen (arena_bytes st') = zlen (arena_bytes st) /\ length (slots st') = length (slots st) /\
    ((forall i s, i ∈ l -> slots st !! i = Some s -> movable st s = true) ->
       last' = foldr (fun i n => match slots st !! i with Some s => slot_len s + n | None => n end) 0 l).
Proof.
  intros L. pose proof (linked_short st l last L) as Hf. pose proof L as [H1 H2 H3 H4 H5].
  destruct (compact_from_spec (walk_fuel st) st (head st) 0 l last) as (st' & last' & Hc & [Cseg Clast Clen Cslots Cbefore Chead Climit [_ Clength] Cpacked]); try done.
  exists st', last'. split; [done|]. assert (forall i s, slots st !! i = Some s -> exists s', slots st' !! i = Some s' /\ cell_of st' s' = cell_of st s) as Hcell.
  { intros i s Hs. destruct (Cslots i s Hs) as (o & Hs' & _ & Hsame & Hr). eexists. split; [exact Hs'|]. unfold cell_of. cbn. f_equal. unfold contents at 1. cbn.
    destruct (decide (i ∈ l)) as [Hi|Hi]; [by apply Hr|]. specialize (H5 i s Hs). rewrite decide_False in H5 by done. subst s. unfold contents, range. cbn. by rewrite !take_0. }
  split_and!; [|apply list_eq; intros i| |done|done|intros Hall; rewrite Cpacked by done; lia].
  - split; [by rewrite Chead|lia|done|by rewrite Clen|]. intros i s' Hs'. destruct (lookup_lt_is_Some_2 (slots st) i) as [s Hs]; [rewrite <- Clength; by eapply lookup_lt_Some|].
    destruct (Cslots i s Hs) as (o & Hs2 & _ & Hsame & _). assert (s' = with_offset o s) as -> by congruence. specialize (H5 i s Hs).
    destruct (decide (i ∈ l)); [done|]. subst s. by rewrite Hsame by by left.
  - unfold cells. rewrite !list_lookup_fmap. destruct (slots st !! i) as [s|] eqn:Hs.
    + destruct (Hcell i s Hs) as (s' & -> & E). cbn. by rewrite E.
    + rewrite (proj2 (lookup_ge_None (slots st') i)); [done|]. rewrite Clength. by apply lookup_ge_None.
  - intros i s Hs Hm. destruct (Cslots i s Hs) as (o & Hs' & _ & Hsame & _). exists (with_offset o s). split; [done|]. cbn. apply Hsame. by right.
Qed.

(** *** A new block *)

(** The last of a list of slots, or [prev]. *)
Definition last_or (prev : option nat) (l : list nat) : option nat := match List.last (map Some l) None with Some i => Some i | None => prev end.

Lemma slot_neighbours_spec st need off c1 l2 last fuel : forall l1 prev c e,
  0 < need -> seg (slots st) c e l1 c1 off -> seg (slots st) c1 (off + need) l2 None last -> (length l1 < fuel)%nat ->
  neighbours fuel st prev c off = Some (foldl (fun _ i => Some i) prev l1, c1).
Proof.
  induction fuel as [|fuel IH]; intros l1 prev c e Hn H1 H2 Hf; [lia|]. destruct l1 as [|i l1]; cbn [seg neighbours foldl] in *.
  - destruct H1 as [-> ->]. destruct l2 as [|j l2]; cbn [seg] in H2; [by destruct H2 as [<- _]|]. destruct H2 as (-> & s & -> & Ho & _). cbn.
    by rewrite (proj2 (Z.ltb_lt _ _)) by lia.
  - destruct H1 as (-> & s & Hs & Ho & Hl & H1). rewrite Hs. cbn. destruct (seg_bounds _ _ _ _ _ _ H1) as [Hb _].
    rewrite (proj2 (Z.ltb_ge _ _)) by lia. eapply IH; try done. cbn in Hf. lia.
Qed.

Definition new_slot (off len : Z) (comp : bool) (nxt : option nat) (src : Z) : Slot :=
  {| offset := off; slot_len := len; refs := 1; pins := 0; compressed := comp; next := nxt; source := src |}.

Lemma link_spec st l1 l2 last slot off need comp src :
  linked st (l1 ++ l2) last -> gap_at st need off l1 l2 -> slots st !! slot = Some slot_default -> slot ∉ l1 ++ l2 -> 0 < need -> 
  exists st' last' nxt, link_slot slot off need comp src st = Some st' /\ linked st' (l1 ++ slot :: l2) last' /\
    slots st' !! slot = Some (new_slot off need comp nxt src) /\ arena_bytes st' = arena_bytes st /\ length (slots st') = length (slots st) /\
    (forall j s, j <> slot -> slots st !! j = Some s -> exists n, slots st' !! j = Some (with_next n s)).
Proof.
  intros L (c & last' & G1 & G2 & G3) Hslot Hnew Hneed. pose proof (linked_short _ _ _ L) as Hshort. destruct L as [_ _ Hn Hcap Hlive].
  assert (Hnb : neighbours (walk_fuel st) st None (head st) off = Some (foldl (fun _ i => Some i) None l1, c)).
  { eapply slot_neighbours_spec; try done. rewrite length_app in Hshort. lia. }
  unfold link_slot. rewrite Hnb. cbn. fold (new_slot off need comp c src). set (t := new_slot off need comp c src).
  assert (slot < length (slots st))%nat as Hlt by by eapply lookup_lt_Some. assert (slot ∉ l1 /\ slot ∉ l2) as [Hn1 Hn2] by set_solver.
  assert (seg (<[slot := t]> (slots st)) (Some slot) off (slot :: l2) None last') as S2.
  { cbn [seg]. split; [done|]. exists t. rewrite list_lookup_insert_eq by done. cbn. split_and!; [done|lia|done|]. by apply seg_insert_other. }
  assert (seg (<[slot := t]> (slots st)) (head st) 0 l1 c off) as S1 by by apply seg_insert_other.
  assert (NoDup (l1 ++ slot :: l2)) as Hnodup.
  { rewrite <- Permutation_middle. by constructor. }
  assert (forall i s, <[slot := t]> (slots st) !! i = Some s -> if decide (i ∈ l1 ++ slot :: l2) then 0 < refs s /\ 0 <= pins s else s = slot_default) as Hlive2.
  { intros i s [(<- & <- & _)|[Hne Hs]]%list_lookup_insert_Some; [rewrite decide_True by set_solver; unfold t; cbn; lia|]. specialize (Hlive i s Hs).
    destruct (decide (i ∈ l1 ++ l2)); [rewrite decide_True by set_solver|rewrite decide_False by set_solver]; done. }
  destruct l1 as [|p l1 _] using rev_ind; cbn [foldl] in *.
  - cbn in G1. destruct G1 as [-> ->]. exists (set_head (Some slot) (set_slot slot t st)), last', (head st). split; [done|]. split; [by split|].
    split_and!; [cbn; by rewrite list_lookup_insert_eq|done|cbn; by rewrite length_insert|].
    intros j s Hne Hs. exists (next s). cbn. rewrite list_lookup_insert_ne by done. rewrite Hs. by destruct s.
  - rewrite foldl_app. cbn. apply NoDup_app in Hn as (Hnp & _ & _). assert (p <> slot) as Hps by set_solver.
    destruct (seg_bounds _ _ _ _ _ _ G1) as [_ Hb]. destruct (Hb p) as (s & Hs & _); [set_solver|]. rewrite list_lookup_insert_ne by done. rewrite Hs. cbn.
    exists (set_slot p (with_next (Some slot) s) (set_slot slot t st)), last', c. split; [done|]. split; [split; cbn|].
    + apply seg_app. exists (Some slot), off. split; [apply (seg_relink _ _ _ _ _ _ _ c); [done|by rewrite list_lookup_insert_ne|done]|].
      apply seg_insert_other; [|done]. rewrite <- app_assoc in Hnodup. apply NoDup_app in Hnodup as (_ & _ & Hnodup). cbn in Hnodup. by apply NoDup_cons in Hnodup as [? _].
    + lia.
    + done.
    + done.
    + intros i s' [(<- & <- & _)|[Hne Hs']]%list_lookup_insert_Some; [|by apply Hlive2]. specialize (Hlive2 p s). rewrite list_lookup_insert_ne in Hlive2 by done.
      specialize (Hlive2 Hs). rewrite decide_True in Hlive2 |- * by set_solver. done.
    + cbn. split_and!; [by rewrite list_lookup_insert_ne, list_lookup_insert_eq|done|by rewrite !length_insert|].
      intros j s' Hne Hs'. destruct (decide (j = p)) as [->|Hjp].
      * exists (Some slot). rewrite list_lookup_insert_eq by (rewrite length_insert; by eapply lookup_lt_Some). by simplify_eq.
      * exists (next s'). rewrite !list_lookup_insert_ne by done. rewrite Hs'. by destruct s'.
Qed.

Lemma dead_contents st : contents st slot_default = [].
Proof. unfold contents, range. cbn. by rewrite take_0. Qed.

Lemma gap_inside st need off l1 l2 : gap_at st need off l1 l2 -> 0 <= off /\ off + need <= zlen (arena_bytes st).
Proof. intros (c & last & H1 & H2 & H3). destruct (seg_bounds _ _ _ _ _ _ H1), (seg_bounds _ _ _ _ _ _ H2). lia. Qed.

(** Writing a block of its own leaves the others as they are. *)
Lemma fill_cells st l1 l2 last slot s b :
  linked st (l1 ++ slot :: l2) last -> slots st !! slot = Some s -> slot_len s = zlen b ->
  linked (set_bytes (overwrite (arena_bytes st) (offset s) b) st) (l1 ++ slot :: l2) last /\
  cells (set_bytes (overwrite (arena_bytes st) (offset s) b) st) =
    <[slot := {| c_refs := refs s; c_pins := pins s; c_compressed := compressed s; c_bytes := b |}]> (cells st).
Proof.
  intros L Hs Hlen. destruct (linked_slot st _ last slot s L Hs) as (Ho & Hpos & Hin & _); [set_solver|].
  assert (zlen (overwrite (arena_bytes st) (offset s) b) = zlen (arena_bytes st)) as Hz by (apply zlen_overwrite; lia).
  split; [destruct L as [H1 H2 H3 H4 H5]; split; cbn; rewrite ?Hz; done|].
  apply list_eq. intros i. unfold cells. cbn. rewrite list_lookup_fmap. destruct (decide (i = slot)) as [->|Hne].
  - rewrite Hs, list_lookup_insert_eq by (rewrite length_fmap; by eapply lookup_lt_Some). cbn. f_equal. unfold cell_of. f_equal. unfold contents. cbn.
    rewrite Hlen. apply range_overwrite_same; lia.
  - rewrite list_lookup_insert_ne, list_lookup_fmap by done. destruct (slots st !! i) as [t|] eqn:Ht; [|done]. cbn. f_equal. unfold cell_of. f_equal.
    destruct (decide (i ∈ l1 ++ slot :: l2)) as [Hi|Hi].
    + pose proof (lk_seg _ _ _ L) as Hseg. apply seg_app in Hseg as (c1 & e1 & S1 & S2). cbn [seg] in S2. destruct S2 as (_ & s' & Hs' & He & _ & S2).
      assert (s' = s) as -> by congruence. unfold contents. cbn. apply elem_of_app in Hi as [Hi|[->|Hi]%elem_of_cons]; [|done|].
      * destruct (seg_bounds _ _ _ _ _ _ S1) as [_ Hb]. destruct (Hb i Hi) as (t' & ? & ? & ? & ?). assert (t' = t) as -> by congruence.
        apply range_overwrite_before; lia.
      * destruct (seg_bounds _ _ _ _ _ _ S2) as [_ Hb]. destruct (Hb i Hi) as (t' & ? & ? & ? & ?). assert (t' = t) as -> by congruence.
        apply range_overwrite_after; lia.
    + pose proof (lk_live _ _ _ L i t Ht) as Hd. rewrite decide_False in Hd by done. subst t. by rewrite !dead_contents.
Qed.

Lemma link_cells st st' slot s' : arena_bytes st' = arena_bytes st -> length (slots st') = length (slots st) -> slots st' !! slot = Some s' ->
  (forall j s, j <> slot -> slots st !! j = Some s -> exists n, slots st' !! j = Some (with_next n s)) ->
  cells st' = <[slot := cell_of st' s']> (cells st).
Proof.
  intros Hb Hlen Hs Ho. apply list_eq. intros i. unfold cells. rewrite list_lookup_fmap. assert (slot < length (slots st))%nat by (rewrite <- Hlen; by eapply lookup_lt_Some).
  destruct (decide (i = slot)) as [->|Hne]; [by rewrite Hs, list_lookup_insert_eq by (by rewrite length_fmap)|].
  rewrite list_lookup_insert_ne, list_lookup_fmap by done. destruct (slots st !! i) as [s|] eqn:E.
  - destruct (Ho i s Hne E) as (n & ->). cbn. f_equal. unfold cell_of, contents. cbn. by rewrite Hb.
  - rewrite (proj2 (lookup_ge_None (slots st') i)); [done|]. rewrite Hlen. by apply lookup_ge_None.
Qed.

(** Blocks that must not move have not. *)
Definition stays (st st' : Arena) : Prop :=
  forall i s, slots st !! i = Some s -> 0 < pins s -> exists s', slots st' !! i = Some s' /\ offset s' = offset s.

Lemma full_end sl need cap l last : forall c e, seg sl c e l None last -> full sl need e cap l -> cap < last + need.
Proof.
  induction l as [|i l IH]; intros c e; cbn [seg full]; [by intros [_ ->]|]. intros (_ & s & Hs & _ & _ & H) (t & Ht & _ & Hf).
  assert (t = s) as -> by congruence. by eapply IH.
Qed.

Definition sum_of (sl : list Slot) (l : list nat) : Z := foldr (fun i n => match sl !! i with Some s => slot_len s + n | None => n end) 0 l.

(** Why a block is refused: no slot is free, or no gap is left after compaction; then,
    if every block may move, the bytes in use and the new ones exceed the arena. *)
Definition refusal (st : Arena) (need : Z) (l : list nat) : Prop :=
  (forall s, s ∈ slots st -> refs s <> 0) \/
  ((forall i s, i ∈ l -> slots st !! i = Some s -> movable st s = true) -> zlen (arena_bytes st) < sum_of (slots st) l + need).

Lemma reserve_gap st l last need comp src slot :
  linked st l last -> 0 < need -> slots st !! slot = Some slot_default -> slot ∉ l ->
  match gap st need with
  | Some (Some off) => exists st' l1 l2 last' s, l = l1 ++ l2 /\ link_slot slot off need comp src st = Some st' /\ linked st' (l1 ++ slot :: l2) last' /\
      slots st' !! slot = Some s /\ refs s = 1 /\ pins s = 0 /\ compressed s = comp /\ slot_len s = need /\
      cells st' = <[slot := cell_of st' s]> (cells st) /\ stays st st'
  | Some None => full (slots st) need 0 (zlen (arena_bytes st)) l
  | None => False
  end.
Proof.
  intros L Hn Hslot Hnew. destruct (gap_spec st l last need L Hn) as [[Hf ->]|(off & l1 & l2 & -> & -> & Hat)]; [done|].
  destruct (link_spec st l1 l2 last slot off need comp src L Hat Hslot Hnew Hn) as (st' & last' & nxt & Hl & L' & Hs & Hb & Hlen & Ho).
  exists st', l1, l2, last', (new_slot off need comp nxt src). split_and!; try done; [by apply link_cells|].
  intros i s Hi Hp. destruct (decide (i = slot)) as [->|Hne]; [simplify_eq; cbn in Hp; lia|]. destruct (Ho i s Hne Hi) as (n & Hi'). by exists (with_next n s).
Qed.

Lemma stays_trans a b d : stays a b -> (forall i s s', slots a !! i = Some s -> slots b !! i = Some s' -> pins s' = pins s) -> stays b d -> stays a d.
Proof.
  intros H1 Hp H2 i s Hs Hpin. destruct (H1 i s Hs Hpin) as (s1 & Hs1 & Ho1). destruct (H2 i s1 Hs1) as (s2 & Hs2 & Ho2); [by rewrite (Hp i s s1)|].
  exists s2. split; [done|congruence].
Qed.

Lemma count_rejected_linked st l last : linked st l last -> linked (count_rejected st) l last.
Proof. intros [H1 H2 H3 H4 H5]. by split. Qed.

#[local] Arguments gap : simpl never.
#[local] Arguments compact : simpl never.
#[local] Arguments link_slot : simpl never.
#[local] Arguments reserve : simpl never.
#[local] Arguments add_ref : simpl never.
#[local] Arguments walk_fuel : simpl never.

(** A free slot and a block for it, or the reason why not. *)
Lemma reserve_cases len comp src st l last :
  linked st l last -> 0 < len ->
  (exists st' last', reserve len comp src st = Some (Err pressure, st') /\ linked st' l last' /\ cells st' = cells st /\ stays st st' /\ refusal st len l) \/
  (exists slot st' l1 l2 last' s, reserve len comp src st = Some (Ok slot, st') /\ l = l1 ++ l2 /\ linked st' (l1 ++ slot :: l2) last' /\
     slots st' !! slot = Some s /\ refs s = 1 /\ pins s = 0 /\ compressed s = comp /\ slot_len s = len /\ cells st !! slot = Some free_cell /\
     cells st' = <[slot := cell_of st' s]> (cells st) /\ stays st st').
Proof.
  intros L Hn. unfold reserve. destruct (list_find (fun s => refs s = 0) (slots st)) as [[slot s0]|] eqn:Ef.
  2: { left. exists (count_rejected st), last. apply list_find_None in Ef. split_and!; [done|by apply count_rejected_linked|done|intros i s Hs _; by exists s|].
       left. intros s Hs. rewrite Forall_forall in Ef. by apply Ef. }
  apply list_find_Some in Ef as (Hslot & Hzero & _). assert (slot ∉ l /\ s0 = slot_default) as [Hnew ->].
  { pose proof (lk_live _ _ _ L slot s0 Hslot) as H. case_decide; [lia|done]. }
  assert (cells st !! slot = Some free_cell) as Hfree by (apply cells_lookup; exists slot_default; split; [done|]; unfold cell_of; by rewrite dead_contents).
  pose proof (reserve_gap st l last len comp src slot L Hn Hslot Hnew) as Hg. destruct (gap st len) as [[off|]|]; [| |done].
  - destruct Hg as (st' & l1 & l2 & last' & s & -> & Hl & L' & Hs & ? & ? & ? & ? & Hc & Hst). right. exists slot, st', l1, l2, last', s. cbn. rewrite Hl. by split_and!.
  - destruct (compact_cells st l last L) as (st1 & last1 & Hc & L1 & Hcells & Hkeep & Hz & Hlen & Hpack). cbn. rewrite Hc. cbn.
    assert (stays st st1) as Hst1. { intros i s Hs Hp. apply (Hkeep i s Hs). unfold movable. by rewrite (proj2 (Z.eqb_neq _ _)) by lia. }
    assert (slots st1 !! slot = Some slot_default) as Hslot1.
    { destruct (lookup_lt_is_Some_2 (slots st1) slot) as [t Ht]; [rewrite Hlen; by eapply lookup_lt_Some|]. pose proof (lk_live _ _ _ L1 slot t Ht) as H. rewrite decide_False in H by done. congruence. }
    pose proof (reserve_gap st1 l last1 len comp src slot L1 Hn Hslot1 Hnew) as Hg1. destruct (gap st1 len) as [[off|]|]; [| |done]; cbn.
    + destruct Hg1 as (st' & l1 & l2 & last' & s & -> & Hl & L' & Hs & ? & ? & ? & ? & Hc' & Hst). right. exists slot, st', l1, l2, last', s. rewrite Hl. cbn.
      rewrite Hcells in Hc'. split_and!; try done. eapply stays_trans; [exact Hst1| |exact Hst]. intros i t t' Ht Ht'.
      assert (cell_of st t = cell_of st1 t') as E; [|by injection E].
      assert (cells st !! i = Some (cell_of st t)) as E1 by (apply cells_lookup; by exists t). assert (cells st1 !! i = Some (cell_of st1 t')) as E2 by (apply cells_lookup; by exists t').
      congruence.
    + left. exists (count_rejected st1), last1. split_and!; [done|by apply count_rejected_linked|done|done|]. right. intros Hall. rewrite <- Hz.
      specialize (Hpack Hall). pose proof (full_end _ _ _ _ _ _ _ (lk_seg _ _ _ L1) Hg1). unfold sum_of. lia.
Qed.

Definition fresh_cell (comp : bool) (b : bytes) : Cell := {| c_refs := 1; c_pins := 0; c_compressed := comp; c_bytes := b |}.
Definition more_refs (n : Z) (x : Cell) : Cell := {| c_refs := c_refs x + n; c_pins := c_pins x; c_compressed := c_compressed x; c_bytes := c_bytes x |}.
Definition more_pins (n : Z) (x : Cell) : Cell := {| c_refs := c_refs x; c_pins := c_pins x + n; c_compressed := c_compressed x; c_bytes := c_bytes x |}.

(** What parking a payload does to the abstract store. *)
Definition parked (b : bytes) (comp : bool) (src : Z) (i : nat) (before after : list Cell) : Prop :=
  (src <> 0 /\ exists x, before !! i = Some x /\ 0 < c_refs x /\ c_compressed x = false /\ c_bytes x = b /\ after = <[i := more_refs 1 x]> before) \/
  before !! i = Some free_cell /\ after = <[i := fresh_cell comp b]> before.

Definition counts_below (st : Arena) : Prop := forall s, s ∈ slots st -> refs s < u64_max /\ pins s < u64_max.

Lemma insert_cases b logical comp src st l last :
  linked st l last -> counts_below st -> b <> [] ->
  exists r st' l' last', insert b logical comp src st = Some (r, st') /\ linked st' l' last' /\ stays st st' /\
    match r with
    | Ok h => handle_len h = logical /\ exists i, handle_slot h = Some i /\ parked b comp src i (cells st) (cells st')
    | Err e => e = pressure /\ cells st' = cells st /\ refusal st (zlen b) l
    end.
Proof.
  intros L Hc Hb. unfold insert. replace (is_empty b) with false by by destruct b.
  destruct (if src =? 0 then None else list_find (shared_with st b src) (slots st)) as [[i s]|] eqn:Ef.
  - assert (src <> 0 /\ slots st !! i = Some s /\ shared_with st b src s) as (Hsrc & Hs & Hr & Hcomp & _ & _ & Hbytes).
    { destruct (src =? 0) eqn:E0; [done|]. apply Z.eqb_neq in E0. split; [done|]. by apply list_find_Some in Ef as (? & ? & _). }
    assert (i ∈ l) as Hi. { pose proof (lk_live _ _ _ L i s Hs) as H. case_decide; [done|]. by subst s. }
    destruct (add_ref_spec st l last i s L Hs Hi) as (st' & Ha & L' & Hsl & Hcl); [apply Hc; by eapply list_elem_of_lookup_2|]. rewrite Ha. cbn.
    eexists _, st', l, last. split; [done|]. split_and!; [done| |done|].
    + intros j t Ht Hp. rewrite Hsl. destruct (decide (j = i)) as [->|Hne]; [|rewrite list_lookup_insert_ne by done; by exists t].
      rewrite list_lookup_insert_eq by by eapply lookup_lt_Some. assert (t = s) as -> by congruence. by exists (with_refs (refs s + 1) s).
    + exists i. split; [done|]. left. split; [done|]. exists (cell_of st s). split_and!; [apply cells_lookup; by exists s| |done|done|done].
      pose proof (lk_live _ _ _ L i s Hs) as H. rewrite decide_True in H by done. cbn. tauto.
  - assert (0 < zlen b) as Hn by (destruct b; [done|unfold zlen; cbn; lia]).
    destruct (reserve_cases (zlen b) comp src st l last L Hn) as [(st' & last' & -> & L' & ? & ? & ?)|(slot & st1 & l1 & l2 & last' & s & -> & -> & L1 & Hs & Hr & Hp & Hcm & Hlen & Hfree & Hcl & Hst)]; cbn.
    + exists (Err pressure), st', l, last'. by split_and!.
    + rewrite Hs. cbn. destruct (fill_cells st1 l1 l2 last' slot s b L1 Hs Hlen) as [L2 Hcl2]. eexists _, _, _, _. split; [done|]. split; [exact L2|]. split; [exact Hst|].
      split; [done|]. exists slot. split; [done|]. right. split; [done|]. rewrite Hcl2, Hcl, list_insert_insert_eq. by rewrite Hr, Hp, Hcm.
Qed.

(** *** An owner less *)

Lemma unlink_from_spec i nxt l2 last fuel : forall st c e l1 p sp,
  seg (slots st) c e (l1 ++ p :: i :: l2) None last -> NoDup (l1 ++ p :: i :: l2) -> slots st !! p = Some sp -> (length l1 < fuel)%nat ->
  unlink_from fuel st c i nxt = Some (set_slot p (with_next nxt sp) st).
Proof.
  induction fuel as [|fuel IH]; intros st c e l1 p sp Hseg Hn Hp Hf; [lia|]. destruct l1 as [|j l1]; cbn [app seg unlink_from] in *.
  - destruct Hseg as (-> & s & Hs & _ & _ & Hx & _). assert (s = sp) as -> by congruence. rewrite Hp. cbn. by rewrite bool_decide_true.
  - destruct Hseg as (-> & s & Hs & _ & _ & Hseg). rewrite Hs. cbn. apply NoDup_cons in Hn as [Hj Hn]. rewrite bool_decide_false; [eapply IH; [done|done|done|cbn in Hf; lia]|].
    intros Hx. destruct l1 as [|k l1]; cbn in Hseg; destruct Hseg as [Hk _]; rewrite Hk in Hx; injection Hx as ->.
    + apply NoDup_cons in Hn as [Hn _]. apply Hn. by left.
    + apply NoDup_cons in Hn as [Hn _]. apply Hn. apply elem_of_app. right. by right; left.
Qed.

(** Without its slot the list is linked again, one of the others points elsewhere. *)
Lemma unlink_spec st l1 l2 last i s :
  seg (slots st) (head st) 0 (l1 ++ i :: l2) None last -> NoDup (l1 ++ i :: l2) -> slots st !! i = Some s -> (length l1 < walk_fuel st)%nat ->
  exists st' last', (if bool_decide (head st = Some i) then Some (set_head (next s) st) else unlink_from (walk_fuel st) st (head st) i (next s)) = Some st' /\
    seg (slots st') (head st') 0 (l1 ++ l2) None last' /\ last' <= last /\ arena_bytes st' = arena_bytes st /\ length (slots st') = length (slots st) /\
    (forall j t, slots st !! j = Some t -> exists n, slots st' !! j = Some (with_next n t) /\ (j ∉ l1 ++ l2 -> n = next t)).
Proof.
  intros Hseg Hn Hs Hf. destruct l1 as [|p l1 _] using rev_ind.
  - cbn [app seg] in Hseg. destruct Hseg as (Hh & t & Ht & Ho & Hl & Hseg). assert (t = s) as -> by congruence. rewrite bool_decide_true by done.
    destruct (seg_lower _ _ _ _ (offset s + slot_len s) 0 ltac:(lia) Hseg) as (last' & Hseg' & Hle). exists (set_head (next s) st), last'. split_and!; try done.
    intros j t Ht'. exists (next t). split; [cbn; rewrite Ht'; by destruct t|done].
  - rewrite <- app_assoc in Hseg, Hn. cbn [app] in Hseg, Hn. destruct (seg_bounds _ _ _ _ _ _ Hseg) as [_ Hb]. destruct (Hb p) as (sp & Hp & _); [apply elem_of_app; right; by left|].
    assert (p <> i /\ p ∉ l2 /\ NoDup (l1 ++ [p])) as (Hpi & Hp2 & Hn1).
    { replace (l1 ++ p :: i :: l2) with ((l1 ++ [p]) ++ i :: l2) in Hn by by rewrite <- app_assoc. apply NoDup_app in Hn as (? & Hd & _). split_and!; [intros ->; apply (Hd i); [apply elem_of_app; right|]; by left| |done].
      intros Hq. apply (Hd p); [apply elem_of_app; right; by left|by right]. }
    rewrite bool_decide_false.
    2: { intros Hh. destruct l1 as [|k l1]; cbn in Hseg; destruct Hseg as [Hk _]; [congruence|]. assert (k = i) as -> by congruence. apply NoDup_cons in Hn as [Hn _].
         apply Hn. apply elem_of_app. right. by right; left. }
    rewrite length_app in Hf. cbn in Hf. rewrite (unlink_from_spec i (next s) l2 last (walk_fuel st) st (head st) 0 l1 p sp) by (done || lia).
    replace (l1 ++ p :: i :: l2) with ((l1 ++ [p]) ++ i :: l2) in Hseg by by rewrite <- app_assoc. apply seg_app in Hseg as (c1 & e1 & S1 & S2). cbn [seg] in S2.
    destruct S2 as (_ & t & Ht & Ho & Hl & S2). assert (t = s) as -> by congruence.
    destruct (seg_lower _ _ _ _ (offset s + slot_len s) e1 ltac:(lia) S2) as (last' & S2' & Hle). exists (set_slot p (with_next (next s) sp) st), last'. split; [done|]. split_and!; try done.
    + apply seg_app. exists (next s), e1. split; [by eapply seg_relink|]. by apply seg_insert_other.
    + cbn. by rewrite length_insert.
    + intros j t Ht'. cbn. destruct (decide (j = p)) as [->|Hne]; [exists (next s); split; [rewrite list_lookup_insert_eq by (by eapply lookup_lt_Some); by simplify_eq|set_solver]|].
      exists (next t). split; [rewrite list_lookup_insert_ne, Ht' by done; by destruct t|done].
Qed.

(** The last owner frees the slot. *)
Definition one_less (x : Cell) : Cell := if decide (c_refs x = 1) then free_cell else more_refs (-1) x.

Lemma free_cells st st' i s : arena_bytes st' = arena_bytes st -> length (slots st') = length (slots st) -> slots st !! i = Some s ->
  (forall j t, slots st !! j = Some t -> exists n, slots st' !! j = Some (with_next n t)) ->
  cells (set_slot i slot_default st') = <[i := free_cell]> (cells st).
Proof.
  intros Hb Hlen Hs Ho. apply list_eq. intros j. unfold cells. rewrite list_lookup_fmap. cbn. destruct (decide (j = i)) as [->|Hne].
  - rewrite !list_lookup_insert_eq by (rewrite ?length_fmap, ?Hlen; by eapply lookup_lt_Some). cbn. unfold cell_of. by rewrite dead_contents.
  - rewrite !list_lookup_insert_ne, list_lookup_fmap by done. destruct (slots st !! j) as [t|] eqn:E.
    + destruct (Ho j t E) as (n & ->). cbn. f_equal. unfold cell_of, contents. cbn. by rewrite Hb.
    + rewrite (proj2 (lookup_ge_None (slots st') j)); [done|]. rewrite Hlen. by apply lookup_ge_None.
Qed.

Lemma drop_ref_spec st l last i s :
  linked st l last -> slots st !! i = Some s -> i ∈ l -> (refs s = 1 -> pins s = 0) ->
  exists st' l' last', drop_ref i st = Some st' /\ linked st' l' last' /\ cells st' = <[i := one_less (cell_of st s)]> (cells st) /\ stays st st'.
Proof.
  intros L Hs Hi Hpin. pose proof (lk_live _ _ _ L i s Hs) as Hlive. rewrite decide_True in Hlive by done. assert (i < length (slots st))%nat as Hlt by by eapply lookup_lt_Some.
  unfold drop_ref. rewrite Hs. cbn. unfold checked_sub. rewrite (proj2 (Z.leb_le _ _)) by lia. cbn. unfold one_less. cbn.
  destruct (decide (refs s = 1)) as [H1|H1].
  2: { rewrite (proj2 (Z.eqb_neq _ _)) by lia. cbn. exists (set_slot i (with_refs (refs s - 1) s) st), l, last. split; [done|].
       split; [apply edit_linked with s; cbn; try done; lia|]. split; [by rewrite cells_set|]. intros j t Ht _. cbn. destruct (decide (j = i)) as [->|Hne].
       - rewrite list_lookup_insert_eq by done. eexists. split; [done|]. cbn. congruence.
       - rewrite list_lookup_insert_ne by done. by exists t. }
  rewrite H1, Hpin by done. change (1 - 1) with 0. cbn. set (st1 := set_slot i (with_refs 0 s) st). destruct (list_elem_of_split _ _ Hi) as (l1 & l2 & ->).
  assert (seg (slots st1) (head st1) 0 (l1 ++ i :: l2) None last) as Hseg.
  { eapply seg_agree; [|exact (lk_seg _ _ _ L)]. intros j t _ Ht. cbn. destruct (decide (j = i)) as [->|Hne].
    - rewrite list_lookup_insert_eq by done. eexists. split; [done|]. simplify_eq. by split_and!.
    - rewrite list_lookup_insert_ne by done. by exists t. }
  pose proof (linked_short _ _ _ L) as Hshort. rewrite length_app in Hshort. cbn in Hshort.
  destruct (unlink_spec st1 l1 l2 last i (with_refs 0 s)) as (st2 & last' & He & Hseg2 & Hle & Hb & Hlen & Hoth); [done|exact (lk_nodup _ _ _ L)|cbn; by rewrite list_lookup_insert_eq| |].
  { unfold walk_fuel. cbn. rewrite length_insert. unfold walk_fuel in Hshort. lia. }
  cbn [head next with_refs] in He. change (head st1) with (head st) in He. rewrite He. cbn. exists (set_slot i slot_default st2), (l1 ++ l2), last'. split; [done|].
  pose proof (lk_nodup _ _ _ L) as Hn. rewrite <- Permutation_middle in Hn. apply NoDup_cons in Hn as [Hni Hn].
  assert (cells (set_slot i slot_default st2) = <[i := free_cell]> (cells st1)) as Hc.
  { apply (free_cells st1 st2 i (with_refs 0 s)); [done|done|cbn; by rewrite list_lookup_insert_eq|]. intros j t Ht. destruct (Hoth j t Ht) as (n & ? & _). by exists n. }
  split_and!.
  - split; cbn; [by apply seg_insert_other|rewrite Hb; cbn; pose proof (lk_last _ _ _ L); lia|done|rewrite Hb; apply (lk_cap _ _ _ L)|].
    intros j t. intros [(<- & <- & _)|[Hne Ht]]%list_lookup_insert_Some; [by rewrite decide_False|].
    destruct (lookup_lt_is_Some_2 (slots st) j) as [t0 Ht0]; [apply lookup_lt_Some in Ht; rewrite Hlen in Ht; cbn in Ht; by rewrite length_insert in Ht|].
    destruct (Hoth j t0) as (n & Hj & Hsame); [cbn; by rewrite list_lookup_insert_ne by done|]. assert (t = with_next n t0) as -> by congruence.
    pose proof (lk_live _ _ _ L j t0 Ht0) as H. destruct (decide (j ∈ l1 ++ l2)) as [Hin|Hin].
    + rewrite decide_True in H by set_solver. done.
    + rewrite decide_False in H by set_solver. subst t0. by rewrite Hsame.
  - rewrite Hc. unfold st1. rewrite cells_set. by rewrite list_insert_insert_eq.
  - intros j t Ht Hp. destruct (decide (j = i)) as [->|Hne]; [simplify_eq; specialize (Hpin H1); lia|].
    destruct (Hoth j t) as (n & Hj & _); [cbn; by rewrite list_lookup_insert_ne|]. exists (with_next n t). cbn. by rewrite list_lookup_insert_ne by done.
Qed.

Lemma set_pins_spec st l last i s n :
  linked st l last -> slots st !! i = Some s -> i ∈ l -> 0 <= n ->
  linked (set_slot i (with_pins n s) st) l last /\ slots (set_slot i (with_pins n s) st) !! i = Some (with_pins n s) /\
  cells (set_slot i (with_pins n s) st) = <[i := cell_of st (with_pins n s)]> (cells st).
Proof.
  intros L Hs Hi Hn. pose proof (lk_live _ _ _ L i s Hs) as Hlive. rewrite decide_True in Hlive by done.
  split_and!; [apply edit_linked with s; cbn; try done; lia|cbn; apply list_lookup_insert_eq; by eapply lookup_lt_Some|by rewrite cells_set].
Qed.

(** A changed count leaves the blocks where they are. *)
Lemma counts_stay st st' i s s' : slots st !! i = Some s -> offset s' = offset s -> slots st' = <[i := s']> (slots st) -> stays st st'.
Proof.
  intros Hs Ho E j t Ht _. rewrite E. destruct (decide (j = i)) as [->|Hne]; [|rewrite list_lookup_insert_ne by done; by exists t].
  rewrite list_lookup_insert_eq by by eapply lookup_lt_Some. exists s'. split; [done|]. congruence.
Qed.

Lemma pin_spec st l last h i s :
  linked st l last -> handle_slot h = Some i -> slots st !! i = Some s -> i ∈ l -> compressed s = false -> refs s < u64_max -> pins s < u64_max ->
  exists st', pin h st = Some (Ok h, st') /\ linked st' l last /\ cells st' = <[i := more_refs 1 (more_pins 1 (cell_of st s))]> (cells st) /\ stays st st'.
Proof.
  intros L Hh Hs Hi Hc Hr Hp. unfold pin. rewrite Hh, Hs. cbn. rewrite Hc. unfold checked_add. rewrite (proj2 (Z.leb_le _ _)) by lia. cbn.
  pose proof (lk_live _ _ _ L i s Hs) as Hlive. rewrite decide_True in Hlive by done.
  destruct (set_pins_spec st l last i s (pins s + 1)) as (L1 & Hs1 & Hc1); try done; [lia|].
  destruct (add_ref_spec _ l last i _ L1 Hs1 Hi) as (st' & Ha & L' & Hsl & Hcl); [done|]. rewrite Ha. cbn. exists st'. split_and!; try done.
  - rewrite Hcl, Hc1. by rewrite list_insert_insert_eq.
  - eapply (counts_stay st st' i s _ Hs); [|rewrite Hsl; cbn; by rewrite list_insert_insert_eq]. done.
Qed.

Lemma unpin_spec st l last h i s :
  linked st l last -> handle_slot h = Some i -> slots st !! i = Some s -> i ∈ l -> 0 < pins s -> (refs s = 1 -> pins s = 1) ->
  exists st' l' last', unpin h st = Some st' /\ linked st' l' last' /\ cells st' = <[i := one_less (more_pins (-1) (cell_of st s))]> (cells st) /\
    forall j t, slots st !! j = Some t -> 0 < pins t -> (j = i -> 1 < pins t) -> exists t', slots st' !! j = Some t' /\ offset t' = offset t.
Proof.
  intros L Hh Hs Hi Hp Hone. unfold unpin. rewrite Hh, Hs. cbn. unfold checked_sub. rewrite (proj2 (Z.leb_le _ _)) by lia. cbn.
  destruct (set_pins_spec st l last i s (pins s - 1)) as (L1 & Hs1 & Hc1); try done; [lia|].
  destruct (drop_ref_spec _ l last i _ L1 Hs1 Hi) as (st' & l' & last' & Hd & L' & Hcl & Hst); [cbn; intros H; rewrite Hone by done; lia|]. exists st', l', last'.
  split_and!; [done|done|rewrite Hcl, Hc1; by rewrite list_insert_insert_eq|]. intros j t Ht Hpt Hj. destruct (decide (j = i)) as [->|Hne].
  - assert (t = s) as -> by congruence. destruct (Hst i _ Hs1) as (t' & ? & ?); [cbn; specialize (Hj eq_refl); lia|]. by exists t'.
  - apply Hst; [cbn; by rewrite list_lookup_insert_ne|done].
Qed.

(** ** The owners *)

(** The handles and the views that are held, with the bytes they were made of. *)
Record Owner : Type := { own_handle : StoredBytes; own_bytes : bytes; own_encoded : bool }.

Record World : Type := { arena : Arena; handles : list Owner; views : list Owner }.

Definition owns (i : nat) (o : Owner) : Prop := handle_slot (own_handle o) = Some i.
#[export] Instance owns_dec i o : Decision (owns i o).
Proof. unfold owns. apply _. Defined.
Definition holders (i : nat) (l : list Owner) : Z := zlen (filter (owns i) l).

Inductive Op : Type :=
| Park (b : bytes) (address : Z)
| ParkEncoded (b : bytes) (logical : Z)
| CloneHandle (k : nat)
| DropHandle (k : nat)
| PinHandle (k : nat)
| DropView (k : nat)
| CompactAll.

Definition held (b : bytes) (comp : bool) (h : StoredBytes) : Owner := {| own_handle := h; own_bytes := b; own_encoded := comp |}.

(** A parked payload has a handle, a refused one none. *)
Definition admit_handle (b : bytes) (comp : bool) (w : World) (r : result StoredBytes) (st : Arena) : World :=
  {| arena := st; handles := match r with Ok h => held b comp h :: handles w | Err _ => handles w end; views := views w |}.

(** An operation of an owner that is held; any other cannot be written. *)
Definition exec (op : Op) (w : World) : option World :=
  match op with
  | Park b address => '(r, st) ← store_shared b address (arena w); Some (admit_handle b false w r st)
  | ParkEncoded b logical => '(r, st) ← insert b logical true 0 (arena w); Some (admit_handle b true w r st)
  | CloneHandle k =>
      match handles w !! k with
      | Some o => st ← clone_handle (own_handle o) (arena w); Some {| arena := st; handles := o :: handles w; views := views w |}
      | None => Some w
      end
  | DropHandle k =>
      match handles w !! k with
      | Some o => st ← drop_handle (own_handle o) (arena w); Some {| arena := st; handles := delete k (handles w); views := views w |}
      | None => Some w
      end
  | PinHandle k =>
      match handles w !! k with
      | Some o =>
          '(r, st) ← pin (own_handle o) (arena w);
          Some {| arena := st; handles := handles w; views := match r with Ok h => held (own_bytes o) false h :: views w | Err _ => views w end |}
      | None => Some w
      end
  | DropView k =>
      match views w !! k with
      | Some o => st ← unpin (own_handle o) (arena w); Some {| arena := st; handles := handles w; views := delete k (views w) |}
      | None => Some w
      end
  | CompactAll => st ← compact (arena w); Some {| arena := st; handles := handles w; views := views w |}
  end.

Definition exec_all (ops : list Op) (w : World) : option World := foldl (fun w op => w ← w; exec op w) (Some w) ops.

(** *** Their counts *)

Definition holds (cs : list Cell) (o : Owner) : Prop :=
  match handle_slot (own_handle o) with
  | Some i => exists x, cs !! i = Some x /\ 0 < c_refs x /\ c_bytes x = own_bytes o /\ c_compressed x = own_encoded o
  | None => own_bytes o = []
  end.

Record world_ok (n : Z) (w : World) : Prop := {
  wo_arena : arena_ok (arena w);
  wo_counts : forall i x, cells (arena w) !! i = Some x -> c_refs x = holders i (handles w ++ views w) /\ c_pins x = holders i (views w);
  wo_bytes : forall o, o ∈ handles w ++ views w -> holds (cells (arena w)) o;
  wo_plain : forall o, o ∈ views w -> own_encoded o = false;
  wo_few : zlen (handles w ++ views w) <= n;
}.

Lemma holders_cons i o l : holders i (o :: l) = (if decide (owns i o) then 1 else 0) + holders i l.
Proof. unfold holders. rewrite filter_cons. case_decide; [|lia]. unfold zlen. cbn. lia. Qed.

Lemma holders_app i l1 l2 : holders i (l1 ++ l2) = holders i l1 + holders i l2.
Proof. unfold holders, zlen. rewrite filter_app, length_app. lia. Qed.

Lemma holders_nonneg i l : 0 <= holders i l.
Proof. unfold holders, zlen. lia. Qed.

Lemma holders_le i l : holders i l <= zlen l.
Proof. unfold holders, zlen. pose proof (length_filter (owns i) l). lia. Qed.

Lemma holders_in i o l : o ∈ l -> owns i o -> 0 < holders i l.
Proof. intros (l1 & l2 & ->)%list_elem_of_split Ho. rewrite holders_app, holders_cons, decide_True by done. pose proof (holders_nonneg i l1). pose proof (holders_nonneg i l2). lia. Qed.

Lemma holders_delete i l k o : l !! k = Some o -> holders i (delete k l) = holders i l - (if decide (owns i o) then 1 else 0).
Proof.
  intros Hk. rewrite delete_take_drop. rewrite <- (take_drop_middle l k o Hk) at 3. rewrite !holders_app, holders_cons. lia.
Qed.

Lemma zlen_delete {A} (l : list A) k o : l !! k = Some o -> zlen (delete k l) = zlen l - 1.
Proof. intros Hk. unfold zlen. rewrite length_delete by by exists o. pose proof (lookup_lt_Some _ _ _ Hk). lia. Qed.

Lemma in_delete {A} (l : list A) k x : x ∈ delete k l -> x ∈ l.
Proof. rewrite delete_take_drop, elem_of_app. intros [H|H]; [rewrite <- (take_drop k l)|rewrite <- (take_drop (S k) l)]; apply elem_of_app; [by left|by right]. Qed.

(** The owners change at the cell [i] only. *)
Lemma world_set n m w st' hs vs i x x' :
  world_ok n w -> arena_ok st' -> cells (arena w) !! i = Some x -> cells st' = <[i := x']> (cells (arena w)) ->
  c_refs x' = holders i (hs ++ vs) -> c_pins x' = holders i vs ->
  (forall j, j <> i -> holders j (hs ++ vs) = holders j (handles w ++ views w) /\ holders j vs = holders j (views w)) ->
  (forall o, o ∈ hs ++ vs -> o ∈ handles w ++ views w \/ owns i o) ->
  (forall o, o ∈ hs ++ vs -> owns i o -> c_bytes x' = own_bytes o /\ c_compressed x' = own_encoded o) ->
  (forall o, o ∈ vs -> own_encoded o = false) -> zlen (hs ++ vs) <= m ->
  world_ok m {| arena := st'; handles := hs; views := vs |}.
Proof.
  intros [Wa Wc Wb Wp Wf] Ha Hx Hc Hr Hp Hoth Hold Hown Hplain Hm. assert (i < length (cells (arena w)))%nat as Hlt by by eapply lookup_lt_Some. split; cbn; try done.
  - intros j y. rewrite Hc. intros [(-> & -> & _)|[Hne Hy]]%list_lookup_insert_Some; [done|]. destruct (Hoth j) as [-> ->]; [done|]. by apply Wc.
  - intros o Ho. unfold holds. rewrite Hc. destruct (decide (owns i o)) as [Hi|Hi].
    + unfold owns in Hi. rewrite Hi. exists x'. split; [by apply list_lookup_insert_eq|]. split; [rewrite Hr; by eapply holders_in|by apply Hown].
    + destruct (Hold o Ho) as [Hin|]; [|done]. specialize (Wb o Hin). unfold holds, owns in *. destruct (handle_slot (own_handle o)) as [j|]; [|done].
      rewrite list_lookup_insert_ne by congruence. done.
Qed.

(** The cells stay, owners of nothing may come and go. *)
Lemma world_same n m w st' hs vs :
  world_ok n w -> arena_ok st' -> cells st' = cells (arena w) ->
  (forall j, holders j (hs ++ vs) = holders j (handles w ++ views w) /\ holders j vs = holders j (views w)) ->
  (forall o, o ∈ hs ++ vs -> o ∈ handles w ++ views w \/ handle_slot (own_handle o) = None /\ own_bytes o = []) ->
  (forall o, o ∈ vs -> own_encoded o = false) -> zlen (hs ++ vs) <= m ->
  world_ok m {| arena := st'; handles := hs; views := vs |}.
Proof.
  intros [Wa Wc Wb Wp Wf] Ha Hc Hoth Hold Hplain Hm. split; cbn; try done.
  - intros j y. rewrite Hc. destruct (Hoth j) as [-> ->]. apply Wc.
  - intros o Ho. unfold holds. rewrite Hc. destruct (Hold o Ho) as [Hin|[-> Hb]]; [by apply Wb|done].
Qed.

Lemma owner_slot n w o i : world_ok n w -> o ∈ handles w ++ views w -> handle_slot (own_handle o) = Some i ->
  exists s, slots (arena w) !! i = Some s /\ cells (arena w) !! i = Some (cell_of (arena w) s) /\ 0 < refs s /\
    contents (arena w) s = own_bytes o /\ compressed s = own_encoded o /\ refs s = holders i (handles w ++ views w) /\ pins s = holders i (views w) /\
    forall l last, linked (arena w) l last -> i ∈ l.
Proof.
  intros [Wa Wc Wb Wp Wf] Ho Hi. specialize (Wb o Ho). unfold holds in Wb. rewrite Hi in Wb. destruct Wb as (x & Hx & Hr & Hb & Hcm).
  destruct (Wc i x Hx) as [H1 H2]. pose proof Hx as (s & Hs & <-)%cells_lookup. exists s. split_and!; try done.
  intros l last L. pose proof (lk_live _ _ _ L i s Hs) as H. case_decide; [done|]. subst s. done.
Qed.

Lemma world_counts_below n w : world_ok n w -> n < u64_max -> counts_below (arena w).
Proof.
  intros [Wa Wc Wb Wp Wf] Hn s (i & Hi)%list_elem_of_lookup_1. destruct (Wc i (cell_of (arena w) s)) as [H1 H2]; [apply cells_lookup; by exists s|]. cbn in H1, H2.
  pose proof (holders_le i (handles w ++ views w)). pose proof (holders_le i (views w)). unfold zlen in *. rewrite length_app in *. lia.
Qed.

(** A view that is held reads where it did. *)
Definition still (w w' : World) : Prop :=
  forall o i, o ∈ views w -> o ∈ views w' -> owns i o ->
    exists s s', slots (arena w) !! i = Some s /\ slots (arena w') !! i = Some s' /\ offset s' = offset s.

Lemma stays_still n w w' : world_ok n w -> stays (arena w) (arena w') -> still w w'.
Proof.
  intros W H o i Ho _ Hi. destruct (owner_slot n w o i W) as (s & Hs & _ & _ & _ & _ & _ & Hp & _); [apply elem_of_app; by right|done|].
  destruct (H i s Hs) as (s' & ? & ?); [rewrite Hp; by eapply holders_in|]. by exists s, s'.
Qed.

Lemma stays_refl st : stays st st.
Proof. intros i s Hs _. by exists s. Qed.

Lemma same_still n w w' : world_ok n w -> arena w' = arena w -> still w w'.
Proof. intros W E. apply (stays_still n); [done|]. rewrite E. apply stays_refl. Qed.

(** What a step guarantees. *)
Definition step_ok (n : Z) (op : Op) (w : World) : Prop := exists w', exec op w = Some w' /\ world_ok (n + 1) w' /\ still w w'.

Lemma nothing_ok n w : world_ok n w -> world_ok (n + 1) w.
Proof. intros [Wa Wc Wb Wp Wf]. split; try done. lia. Qed.

Lemma one_more_owner n w st' i x o :
  world_ok n w -> arena_ok st' -> owns i o -> cells (arena w) !! i = Some x -> c_bytes x = own_bytes o -> c_compressed x = own_encoded o ->
  cells st' = <[i := more_refs 1 x]> (cells (arena w)) ->
  world_ok (n + 1) {| arena := st'; handles := o :: handles w; views := views w |}.
Proof.
  intros W Ha Ho Hx Hb Hcm Hc. pose proof W as [Wa Wc Wb Wp Wf]. destruct (Wc i x Hx) as [H1 H2].
  eapply (world_set n (n + 1) w st' _ _ i x (more_refs 1 x)); try done; cbn.
  - rewrite holders_cons, decide_True by done. lia.
  - intros j Hj. rewrite holders_cons, decide_False by (unfold owns in *; congruence). lia.
  - intros o' [->|Ho']%elem_of_cons; [by right|by left].
  - intros o' [->|Ho']%elem_of_cons; [done|]. intros Hi. destruct (owner_slot n w o' i W Ho' Hi) as (s & _ & Hx' & _ & ? & ? & _).
    assert (x = cell_of (arena w) s) as -> by congruence. done.
  - unfold zlen in *. cbn. lia.
Qed.

Lemma nobodys n w i : world_ok n w -> cells (arena w) !! i = Some free_cell -> holders i (handles w ++ views w) = 0 /\ holders i (views w) = 0.
Proof. intros [Wa Wc Wb Wp Wf] Hx. destruct (Wc i _ Hx) as [H1 H2]. cbn in H1, H2. lia. Qed.

Lemma fresh_owner n w st' i o :
  world_ok n w -> arena_ok st' -> owns i o -> cells (arena w) !! i = Some free_cell ->
  cells st' = <[i := fresh_cell (own_encoded o) (own_bytes o)]> (cells (arena w)) ->
  world_ok (n + 1) {| arena := st'; handles := o :: handles w; views := views w |}.
Proof.
  intros W Ha Ho Hx Hc. pose proof W as [Wa Wc Wb Wp Wf]. destruct (nobodys n w i W Hx) as [H1 H2].
  eapply (world_set n (n + 1) w st' _ _ i free_cell); try done; cbn.
  - rewrite holders_cons, decide_True by done. lia.
  - intros j Hj. rewrite holders_cons, decide_False by (unfold owns in *; congruence). lia.
  - intros o' [->|Ho']%elem_of_cons; [by right|by left].
  - intros o' [->|Ho']%elem_of_cons; [done|]. intros Hi. pose proof (holders_in i o' _ Ho' Hi). lia.
  - unfold zlen in *. cbn. lia.
Qed.

Lemma no_owner n w o : world_ok n w -> handle_slot (own_handle o) = None -> own_bytes o = [] ->
  world_ok (n + 1) {| arena := arena w; handles := o :: handles w; views := views w |}.
Proof.
  intros W Ho Hb. pose proof W as [Wa Wc Wb Wp Wf]. eapply (world_same n); try done.
  - intros j. cbn. rewrite holders_cons, decide_False by (unfold owns; congruence). lia.
  - intros o' [->|Ho']%elem_of_cons; [by right|by left].
  - unfold zlen in *. cbn. lia.
Qed.

Lemma park_step n w b logical comp src :
  world_ok n w -> n < u64_max -> (comp = true -> src = 0) ->
  exists r st', insert b logical comp src (arena w) = Some (r, st') /\ world_ok (n + 1) (admit_handle b comp w r st') /\ stays (arena w) st' /\
    match r with Ok h => handle_len h = logical | Err e => e = pressure /\ exists l last, linked (arena w) l last /\ refusal (arena w) (zlen b) l end.
Proof.
  intros W Hn Hcomp. destruct (decide (b = [])) as [->|Hb].
  - eexists _, (arena w). split; [done|]. split; [by apply (no_owner n w (held [] comp _))|]. split; [apply stays_refl|done].
  - pose proof W as [[l [last L]] Wc Wb Wp Wf].
    destruct (insert_cases b logical comp src (arena w) l last L) as (r & st' & l' & last' & Hi & L' & Hst & Hr); [by eapply world_counts_below|done|].
    exists r, st'. split; [done|]. assert (arena_ok st') as Ha by by exists l', last'. destruct r as [h|e].
    + destruct Hr as (Hhl & i & Hh & [(Hsrc & x & Hx & Hp & Hxc & Hxb & Hc)|[Hx Hc]]); split_and!; try done.
      * destruct comp; [by specialize (Hcomp eq_refl)|]. by eapply (one_more_owner n w st' i x).
      * by eapply (fresh_owner n w st' i (held b comp h)).
    + destruct Hr as (-> & Hc & Href). split_and!; [|done|done|by exists l, last]. eapply (world_same n); try done; [by left|lia].
Qed.

Lemma clone_step n k w : world_ok n w -> n < u64_max -> step_ok n (CloneHandle k) w.
Proof.
  intros W Hn. unfold step_ok. cbn. destruct (handles w !! k) as [o|] eqn:Hk; [|exists w; split; [done|split; [by apply nothing_ok|by apply (same_still n)]]].
  assert (o ∈ handles w ++ views w) as Ho by (apply elem_of_app; left; by eapply list_elem_of_lookup_2). unfold clone_handle. destruct (handle_slot (own_handle o)) as [i|] eqn:Hi.
  - destruct (owner_slot n w o i W Ho Hi) as (s & Hs & Hx & Hr & Hb & Hcm & _ & _ & Hin). pose proof W as [[l [last L]] _ _ _ _].
    destruct (add_ref_spec _ l last i s L Hs) as (st' & Ha & L' & Hsl & Hcl); [by eapply Hin|eapply world_counts_below; [done|done|by eapply list_elem_of_lookup_2]|].
    rewrite Ha. cbn. eexists. split; [done|]. split; [|apply (stays_still n); [done|]; exact (counts_stay _ st' i s (with_refs (refs s + 1) s) Hs eq_refl Hsl)].
    apply (one_more_owner n w st' i (cell_of (arena w) s)); try done. by exists l, last.
  - cbn. eexists. split; [done|]. split; [|by apply (same_still n)]. apply no_owner; [done|done|]. pose proof (wo_bytes _ _ W o Ho) as H. unfold holds in H. by rewrite Hi in H.
Qed.

Lemma drop_step n k w : world_ok n w -> step_ok n (DropHandle k) w.
Proof.
  intros W. unfold step_ok. cbn. destruct (handles w !! k) as [o|] eqn:Hk; [|exists w; split; [done|split; [by apply nothing_ok|by apply (same_still n)]]].
  assert (o ∈ handles w ++ views w) as Ho by (apply elem_of_app; left; by eapply list_elem_of_lookup_2). pose proof W as [Wa Wc Wb Wp Wf].
  assert (forall o', o' ∈ delete k (handles w) ++ views w -> o' ∈ handles w ++ views w) as Hsub by (intros o'; rewrite !elem_of_app; intros [H%in_delete|H]; auto).
  assert (zlen (delete k (handles w) ++ views w) <= n + 1) as Hlen by (pose proof (zlen_delete _ _ _ Hk); unfold zlen in *; rewrite !length_app in *; lia).
  unfold drop_handle. destruct (handle_slot (own_handle o)) as [i|] eqn:Hi.
  - destruct (owner_slot n w o i W Ho Hi) as (s & Hs & Hx & Hr & Hb & Hcm & Hrefs & Hpins & Hin). destruct Wa as [l [last L]].
    assert (0 < holders i (handles w)) as Hpos by (eapply holders_in; [by eapply list_elem_of_lookup_2|done]). rewrite holders_app in Hrefs.
    pose proof (holders_nonneg i (views w)). destruct (drop_ref_spec _ l last i s L Hs) as (st' & l' & last' & Hd & L' & Hcl & Hst); [by eapply Hin|lia|].
    rewrite Hd. cbn. eexists. split; [done|]. split; [|by apply (stays_still n)].
    eapply (world_set n (n + 1) w st' _ _ i _ _ W); try done; [by exists l', last'| | | |by auto|].
    + unfold one_less. cbn. case_decide; cbn; rewrite holders_app, (holders_delete i _ k o Hk), decide_True by done; lia.
    + unfold one_less. cbn. case_decide; cbn; lia.
    + intros j Hj. rewrite !holders_app, (holders_delete j _ k o Hk), decide_False by (unfold owns; congruence). lia.
    + intros o' Ho' Hi'. destruct (owner_slot n w o' i W (Hsub o' Ho') Hi') as (s2 & Hs2 & _ & _ & ? & ? & _). assert (s2 = s) as -> by congruence.
      unfold one_less. cbn. case_decide; [|done]. pose proof (holders_in i o' _ Ho' Hi') as Hh. rewrite holders_app, (holders_delete i _ k o Hk), decide_True in Hh by done. lia.
  - cbn. eexists. split; [done|]. split; [|by apply (same_still n)]. eapply (world_same n); try done; [|by auto].
    intros j. rewrite !holders_app, (holders_delete j _ k o Hk), decide_False by (unfold owns; congruence). lia.
Qed.

Lemma pin_step n k w : world_ok n w -> n < u64_max -> step_ok n (PinHandle k) w.
Proof.
  intros W Hn. unfold step_ok. cbn. destruct (handles w !! k) as [o|] eqn:Hk; [|exists w; split; [done|split; [by apply nothing_ok|by apply (same_still n)]]].
  assert (o ∈ handles w ++ views w) as Ho by (apply elem_of_app; left; by eapply list_elem_of_lookup_2). pose proof W as [Wa Wc Wb Wp Wf].
  assert (zlen (handles w ++ held (own_bytes o) false (own_handle o) :: views w) <= n + 1) as Hlen by (unfold zlen in *; rewrite !length_app in *; cbn; lia).
  destruct (handle_slot (own_handle o)) as [i|] eqn:Hi.
  - destruct (owner_slot n w o i W Ho Hi) as (s & Hs & Hx & Hr & Hb & Hcm & Hrefs & Hpins & Hin). destruct (compressed s) eqn:Ec.
    { unfold pin. rewrite Hi, Hs. cbn. rewrite Ec. cbn. eexists. split; [done|]. split; [apply nothing_ok; by split|by apply (same_still n)]. }
    destruct Wa as [l [last L]]. destruct (world_counts_below n w W Hn s) as [Hr2 Hp2]; [by eapply list_elem_of_lookup_2|].
    destruct (pin_spec _ l last (own_handle o) i s L Hi Hs) as (st' & Hp & L' & Hcl & Hst); [by eapply Hin|done|done|done|]. rewrite Hp. cbn. eexists. split; [done|].
    split; [|by apply (stays_still n)]. eapply (world_set n (n + 1) w st' _ _ i _ _ W); try done; [by exists l, last| | | | | |].
    + cbn. rewrite holders_app, holders_cons, decide_True by done. rewrite holders_app in Hrefs. lia.
    + cbn. rewrite holders_cons, decide_True by done. lia.
    + intros j Hj. rewrite !holders_app, !holders_cons, decide_False by (unfold owns; cbn; congruence). lia.
    + intros o'. rewrite !elem_of_app, elem_of_cons. intros [?|[->|?]]; auto.
    + intros o' Ho' Hi'. rewrite elem_of_app, elem_of_cons in Ho'. assert (o' ∈ handles w ++ views w \/ o' = held (own_bytes o) false (own_handle o)) as [H| ->] by (rewrite elem_of_app; tauto); [|done].
      destruct (owner_slot n w o' i W H Hi') as (s2 & Hs2 & _ & _ & ? & ? & _). assert (s2 = s) as -> by congruence. cbn. by rewrite Ec in *.
    + intros o' [->|?]%elem_of_cons; [done|by apply Wp].
  - unfold pin. rewrite Hi. cbn. eexists. split; [done|]. split; [|by apply (same_still n)]. eapply (world_same n); try done.
    + intros j. rewrite !holders_app, !holders_cons, decide_False by (unfold owns; cbn; congruence). lia.
    + intros o'. rewrite !elem_of_app, elem_of_cons. intros [?|[->|?]]; auto. right. cbn. pose proof (Wb o Ho) as H. unfold holds in H. by rewrite Hi in H.
    + intros o' [->|?]%elem_of_cons; [done|by apply Wp].
Qed.

Lemma unpin_step n k w : world_ok n w -> step_ok n (DropView k) w.
Proof.
  intros W. unfold step_ok. cbn. destruct (views w !! k) as [o|] eqn:Hk; [|exists w; split; [done|split; [by apply nothing_ok|by apply (same_still n)]]].
  assert (o ∈ handles w ++ views w) as Ho by (apply elem_of_app; right; by eapply list_elem_of_lookup_2). pose proof W as [Wa Wc Wb Wp Wf].
  assert (forall o', o' ∈ handles w ++ delete k (views w) -> o' ∈ handles w ++ views w) as Hsub by (intros o'; rewrite !elem_of_app; intros [H|H%in_delete]; auto).
  assert (zlen (handles w ++ delete k (views w)) <= n + 1) as Hlen by (pose proof (zlen_delete _ _ _ Hk); unfold zlen in *; rewrite !length_app in *; lia).
  assert (forall o', o' ∈ delete k (views w) -> own_encoded o' = false) as Hplain by (intros o' H%in_delete; by apply Wp).
  destruct (handle_slot (own_handle o)) as [i|] eqn:Hi.
  - destruct (owner_slot n w o i W Ho Hi) as (s & Hs & Hx & Hr & Hb & Hcm & Hrefs & Hpins & Hin). destruct Wa as [l [last L]].
    assert (0 < holders i (views w)) as Hpos by (eapply holders_in; [by eapply list_elem_of_lookup_2|done]). rewrite holders_app in Hrefs. pose proof (holders_nonneg i (handles w)).
    destruct (unpin_spec _ l last (own_handle o) i s L Hi Hs) as (st' & l' & last' & Hd & L' & Hcl & Hst); [by eapply Hin|lia|lia|]. rewrite Hd. cbn. eexists. split; [done|]. split.
    + eapply (world_set n (n + 1) w st' _ _ i _ _ W); try done; [by exists l', last'| | | |by auto|].
      * unfold one_less. cbn. case_decide; cbn; rewrite holders_app, (holders_delete i _ k o Hk), decide_True by done; lia.
      * unfold one_less. cbn. case_decide; cbn; rewrite (holders_delete i _ k o Hk), decide_True by done; lia.
      * intros j Hj. rewrite !holders_app, (holders_delete j _ k o Hk), decide_False by (unfold owns; congruence). lia.
      * intros o' Ho' Hi'. destruct (owner_slot n w o' i W (Hsub o' Ho') Hi') as (s2 & Hs2 & _ & _ & ? & ? & _). assert (s2 = s) as -> by congruence.
        unfold one_less. cbn. case_decide; [|done]. pose proof (holders_in i o' _ Ho' Hi') as Hh. rewrite holders_app, (holders_delete i _ k o Hk), decide_True in Hh by done. lia.
    + intros o' j Ho' Hin' Hj. cbn in Hin'. destruct (owner_slot n w o' j W) as (t & Ht & _ & _ & _ & _ & _ & Hpt & _); [apply elem_of_app; by right|done|].
      destruct (Hst j t Ht) as (t' & ? & ?); [rewrite Hpt; by eapply holders_in| |by exists t, t']. intros ->. assert (t = s) as -> by congruence.
      pose proof (holders_in i o' _ Hin' Hj) as Hh. rewrite (holders_delete i _ k o Hk), decide_True in Hh by done. lia.
  - unfold unpin. rewrite Hi. cbn. eexists. split; [done|]. split; [|by apply (same_still n)]. eapply (world_same n); try done; [|by auto].
    intros j. rewrite !holders_app, (holders_delete j _ k o Hk), decide_False by (unfold owns; congruence). lia.
Qed.

Lemma compact_step n w : world_ok n w -> step_ok n CompactAll w.
Proof.
  intros W. pose proof W as [[l [last L]] Wc Wb Wp Wf]. unfold step_ok. cbn. destruct (compact_cells _ l last L) as (st' & last' & Hc & L' & Hcl & Hkeep & _).
  rewrite Hc. cbn. eexists. split; [done|]. split.
  - eapply (world_same n); try done; [by exists l, last'|by left|lia].
  - apply (stays_still n); [done|]. intros i s Hs Hp. apply (Hkeep i s Hs). unfold movable. by rewrite (proj2 (Z.eqb_neq _ _)) by lia.
Qed.

Lemma exec_step n op w : world_ok n w -> n < u64_max -> step_ok n op w.
Proof.
  intros W Hn. destruct op as [b address|b logical|k|k|k|k|].
  - destruct (park_step n w b (zlen b) false address W Hn) as (r & st' & Hi & W' & Hst & _); [done|]. unfold step_ok. cbn. unfold store_shared. rewrite Hi. cbn.
    eexists. split; [done|]. split; [done|]. by apply (stays_still n).
  - destruct (park_step n w b logical true 0 W Hn) as (r & st' & Hi & W' & Hst & _); [done|]. unfold step_ok. cbn. rewrite Hi. cbn.
    eexists. split; [done|]. split; [done|]. by apply (stays_still n).
  - by apply clone_step.
  - by apply drop_step.
  - by apply pin_step.
  - by apply unpin_step.
  - by apply compact_step.
Qed.

Lemma exec_all_snoc ops op w : exec_all (ops ++ [op]) w = w' ← exec_all ops w; exec op w'.
Proof. unfold exec_all. by rewrite foldl_app. Qed.

Lemma exec_all_ok n ops w : world_ok n w -> n + zlen ops <= u64_max -> exists w', exec_all ops w = Some w' /\ world_ok (n + zlen ops) w'.
Proof.
  intros W. induction ops as [|op ops IH] using rev_ind; intros Hn; [exists w; split; [done|]; unfold zlen; cbn; by rewrite Z.add_0_r|].
  rewrite exec_all_snoc. unfold zlen in *. rewrite length_app in *. cbn in Hn.
  destruct IH as (w1 & -> & W1); [lia|]. destruct (exec_step _ op w1 W1) as (w2 & He & W2 & _); [lia|]. cbn. exists w2. split; [done|].
  by rewrite Nat2Z.inj_add, Z.add_assoc.
Qed.

Definition opened (st : Arena) : World := {| arena := st; handles := []; views := [] |}.

Lemma opened_ok capacity count limit st : new capacity count limit true = Ok st -> 0 <= capacity <= u64_max -> world_ok 0 (opened st).
Proof.
  unfold new. destruct (_ || _); [done|]. intros [= <-] Hc. split; cbn; try done.
  - exists [], 0. split; cbn; try done; [unfold zlen; lia|constructor|unfold zlen; rewrite length_replicate; lia|].
    intros i s [-> _]%lookup_replicate. by rewrite decide_False by apply not_elem_of_nil.
  - intros i x (s & [-> _]%lookup_replicate & <-)%cells_lookup. done.
  - by intros o ?%not_elem_of_nil.
  - by intros o ?%not_elem_of_nil.
Qed.

(** *** Reports *)

Lemma sum_len_app l1 l2 : sum_len (l1 ++ l2) = sum_len l1 + sum_len l2.
Proof. unfold sum_len. induction l1 as [|s l IH]; cbn; lia. Qed.

Lemma sum_of_perm sl l1 l2 : l1 ≡ₚ l2 -> sum_of sl l1 = sum_of sl l2.
Proof. unfold sum_of. induction 1 as [| i l l' _ IH | i j l | l l' l'' _ IH1 _ IH2]; cbn; [done|by rewrite IH|destruct (sl !! i), (sl !! j); lia|congruence]. Qed.

Lemma sum_of_snoc sl s l : (forall i, i ∈ l -> (i < length sl)%nat) -> sum_of (sl ++ [s]) l = sum_of sl l.
Proof. unfold sum_of. induction l as [|i l IH]; intros H; [done|]. cbn. rewrite IH by (intros j Hj; apply H; by right). by rewrite lookup_app_l by (apply H; by left). Qed.

(** The bytes in use, by the list and by the table. *)
Lemma sum_live sl : forall l, NoDup l -> (forall i, i ∈ l <-> exists s, sl !! i = Some s /\ is_live s = true) -> sum_of sl l = sum_len (List.filter is_live sl).
Proof.
  induction sl as [|s sl IH] using rev_ind; intros l Hn Hl.
  - destruct l as [|i l]; [done|]. destruct (proj1 (Hl i)) as (s & Hs & _); [by left|]. done.
  - rewrite List.filter_app, sum_len_app. cbn [List.filter].
    assert (forall l', (forall i, i ∈ l' <-> i ∈ l /\ i <> length sl) -> NoDup l' -> sum_of (sl ++ [s]) l' = sum_len (List.filter is_live sl)) as Hrest.
    { intros l' Hl' Hn'. assert (forall i, i ∈ l' -> (i < length sl)%nat) as Hlt.
      { intros i [Hi Hne]%Hl'. apply Hl in Hi as (t & Ht%lookup_lt_Some & _). rewrite length_app in Ht. cbn in Ht. lia. }
      rewrite sum_of_snoc by done. apply IH; [done|]. intros i. rewrite Hl', Hl. split.
      - intros [(t & Ht & Hlive) Hne]. rewrite lookup_app_l in Ht; [by exists t|]. apply lookup_lt_Some in Ht. rewrite length_app in Ht. cbn in Ht. lia.
      - intros (t & Ht & Hlive). pose proof (lookup_lt_Some _ _ _ Ht). split; [exists t; by rewrite lookup_app_l|lia]. }
    destruct (is_live s) eqn:E.
    + assert (length sl ∈ l) as Hin by (apply Hl; exists s; by rewrite list_lookup_middle). destruct (list_elem_of_split _ _ Hin) as (l1 & l2 & ->).
      rewrite <- Permutation_middle in Hn. apply NoDup_cons in Hn as [Hni Hn]. rewrite (sum_of_perm _ _ _ (symmetry (Permutation_middle l1 l2 (length sl)))).
      unfold sum_of at 1. cbn. rewrite list_lookup_middle by done. fold (sum_of (sl ++ [s]) (l1 ++ l2)). rewrite Hrest; [lia| |done]. set_solver.
    + cbn. rewrite Hrest; [lia| |done]. intros i. split; [|tauto]. intros Hi. split; [done|]. intros ->. apply Hl in Hi as (t & Ht & Hlive). rewrite list_lookup_middle in Ht by done. congruence.
Qed.

Lemma live_sum st l last : linked st l last -> sum_of (slots st) l = sum_len (List.filter is_live (slots st)).
Proof.
  intros L. apply sum_live; [exact (lk_nodup _ _ _ L)|]. intros i. split.
  - intros Hi. destruct (seg_bounds _ _ _ _ _ _ (lk_seg _ _ _ L)) as [_ Hb]. destruct (Hb i Hi) as (s & Hs & _). exists s. split; [done|].
    pose proof (lk_live _ _ _ L i s Hs) as H. rewrite decide_True in H by done. unfold is_live. rewrite (proj2 (Z.eqb_neq _ _)) by lia. done.
  - intros (s & Hs & Hr). pose proof (lk_live _ _ _ L i s Hs) as H. case_decide; [done|]. by subst s.
Qed.

(** No gap is larger than the largest. *)
Lemma largest_from_spec st last need fuel : forall c e l m,
  0 < need -> 0 <= e -> last <= zlen (arena_bytes st) -> zlen (arena_bytes st) <= u64_max -> seg (slots st) c e l None last -> (length l < fuel)%nat ->
  exists n, largest_from fuel st c e m = Some n /\ (need <= n <-> need <= m \/ ~ full (slots st) need e (zlen (arena_bytes st)) l).
Proof.
  induction fuel as [|fuel IH]; intros c e l m Hn He Hlast Hcap Hseg Hf; [lia|]. destruct l as [|i l]; cbn [seg largest_from full] in *.
  - destruct Hseg as [<- ->]. eexists. split; [done|]. rewrite wrap64_small by solve_u. lia.
  - destruct Hseg as (-> & s & Hs & Ho & Hl & Hseg). rewrite Hs. cbn [mbind option_bind]. destruct (seg_bounds _ _ _ _ _ _ Hseg) as [Hb _]. rewrite wrap64_small by solve_u.
    destruct (IH (next s) (offset s + slot_len s) l (Z.max m (offset s - e))) as (n & Hn' & Hiff); try done; [lia|cbn in Hf; lia|]. exists n. split; [done|]. rewrite Hiff.
    assert ((exists s0, Some s = Some s0 /\ offset s0 < e + need /\ full (slots st) need (offset s0 + slot_len s0) (zlen (arena_bytes st)) l) <->
            offset s < e + need /\ full (slots st) need (offset s + slot_len s) (zlen (arena_bytes st)) l) as ->.
    { split; [intros (s0 & [= <-] & H); done|intros H; by exists s]. }
    destruct (decide (offset s < e + need)); [|split; intros; [right; lia|left; lia]]. split; intros [H|H]; [left; lia|right; tauto|left; lia|right; tauto].
Qed.

Lemma full_no_gap st need last fuel : forall c e l,
  0 <= e -> last <= zlen (arena_bytes st) -> zlen (arena_bytes st) <= u64_max -> seg (slots st) c e l None last ->
  full (slots st) need e (zlen (arena_bytes st)) l -> forall off, gap_from fuel st c e need <> Some (Some off).
Proof.
  induction fuel as [|fuel IH]; intros c e l He Hlast Hcap Hseg Hfull off; [done|]. destruct l as [|i l]; cbn [seg gap_from full] in *.
  - destruct Hseg as [<- ->]. rewrite wrap64_small by solve_u. by rewrite (proj2 (Z.leb_gt _ _)) by lia.
  - destruct Hseg as (-> & s & Hs & Ho & Hl & Hseg). destruct Hfull as (s0 & Hs0 & Hlt & Hfull). assert (s0 = s) as -> by congruence. rewrite Hs. cbn [mbind option_bind].
    destruct (seg_bounds _ _ _ _ _ _ Hseg) as [Hb _]. rewrite wrap64_small by solve_u. rewrite (proj2 (Z.leb_gt _ _)) by lia. eapply IH; try done; lia.
Qed.

Lemma stats_spec reserved st l last : linked st l last -> exists t, stats reserved st = Some t /\ live_bytes t = sum_of (slots st) l /\ stat_capacity t = zlen (arena_bytes st) /\
  forall need, 0 < need -> (need <= largest_gap t <-> exists off, gap st need = Some (Some off)).
Proof.
  intros L. pose proof (linked_short _ _ _ L) as Hshort. pose proof L as [Hseg Hlast _ Hcap _].
  assert (exists n, largest_from (walk_fuel st) st (head st) 0 0 = Some n) as [n Hn].
  { destruct (largest_from_spec st last 1 (walk_fuel st) (head st) 0 l 0) as (n & ? & _); try done. by exists n. }
  unfold stats. rewrite Hn. cbn. eexists. split; [done|]. cbn. split_and!; [by erewrite live_sum|done|]. intros need Hneed.
  destruct (largest_from_spec st last need (walk_fuel st) (head st) 0 l 0) as (n' & Hn' & Hiff); try done. assert (n' = n) as -> by congruence. rewrite Hiff.
  destruct (gap_spec st l last need L Hneed) as [[Hfull ->]|(off & l1 & l2 & Hl & Hg & Hat)].
  - split; [intros [|]; [lia|done]|by intros [? ?]].
  - split; [by exists off|]. intros _. right. intros Hfull. by eapply (full_no_gap st need last).
Qed.

(** ** A payload that may be parked *)

(** The first slice pins the payload, parking releases the pin. *)
Record ParkedPayload : Type := { pp_handle : StoredBytes; pp_view : option StoredBytes }.

(** [None]: an encoded payload has no slice. *)
Definition parked_new (h : StoredBytes) (st : Arena) : option ParkedPayload :=
  c ← is_compressed h st; if (c : bool) then None else Some {| pp_handle := h; pp_view := None |}.

Definition as_slice (p : ParkedPayload) (st : Arena) : option (bytes * ParkedPayload * Arena) :=
  '(v, st) ← match pp_view p with
             | Some v => Some (v, st)
             | None => '(r, st) ← pin (pp_handle p) st; match r with Ok v => Some (v, st) | Err _ => None end
             end;
  b ← deref v st; Some (b, {| pp_handle := pp_handle p; pp_view := Some v |}, st).

(** A reader's view lasts for the call. *)
Definition with_slice {R} (read : bytes -> R) (p : ParkedPayload) (st : Arena) : option (result R * Arena) :=
  '(r, st) ← pin (pp_handle p) st;
  match r with Err e => Some (Err e, st) | Ok v => b ← deref v st; st ← unpin v st; Some (Ok (read b), st) end.

Definition park (p : ParkedPayload) (st : Arena) : option (ParkedPayload * Arena) :=
  st ← match pp_view p with Some v => unpin v st | None => Some st end;
  Some ({| pp_handle := pp_handle p; pp_view := None |}, st).

(** The clone has no view of its own. *)
Definition parked_clone (p : ParkedPayload) (st : Arena) : option (ParkedPayload * Arena) :=
  st ← clone_handle (pp_handle p) st; q ← parked_new (pp_handle p) st; Some (q, st).

Definition same_owner (p q : ParkedPayload) : bool :=
  match handle_slot (pp_handle p), handle_slot (pp_handle q) with
  | Some i, Some j => Nat.eqb i j && (handle_len (pp_handle p) =? handle_len (pp_handle q))
  | _, _ => false
  end.

Lemma deref_owner n w o : world_ok n w -> o ∈ handles w ++ views w -> deref (own_handle o) (arena w) = Some (own_bytes o).
Proof.
  intros W Ho. unfold deref. destruct (handle_slot (own_handle o)) as [i|] eqn:Hi.
  - destruct (owner_slot n w o i W Ho Hi) as (s & -> & _ & _ & Hb & _). cbn. by rewrite Hb.
  - pose proof (wo_bytes _ _ W o Ho) as H. unfold holds in H. rewrite Hi in H. by rewrite H.
Qed.

(** The slots an arena has left, and why a payload was refused. *)
Definition no_slot (st : Arena) : Prop := forall s, s ∈ slots st -> refs s <> 0.
Definition all_movable (st : Arena) : Prop := forall s, s ∈ slots st -> refs s <> 0 -> movable st s = true.

(** C29: The arena keeps every payload for its owners, whatever is done with it: from an
    arena just made no sequence of parking, cloning, dropping, pinning, unpinning and
    compacting of fewer than 2^64 operations panics, every handle and every view that
    is held then reads exactly the bytes it was made of, and no further operation moves
    the bytes under a view that is held through it. *)
Theorem owners_keep_their_bytes capacity count limit st ops :
  new capacity count limit true = Ok st -> 0 <= capacity <= u64_max -> zlen ops < u64_max ->
  exists w, exec_all ops (opened st) = Some w /\
    (forall o, o ∈ handles w ++ views w -> deref (own_handle o) (arena w) = Some (own_bytes o)) /\
    (forall op, exists w', exec op w = Some w' /\ still w w').
Proof.
  intros Hst Hc Hn. destruct (exec_all_ok 0 ops (opened st)) as (w & He & W); [by eapply opened_ok|lia|]. exists w. split; [done|]. split.
  - intros o Ho. by eapply deref_owner.
  - intros op. destruct (exec_step _ op w W) as (w' & ? & _ & ?); [done|]. by exists w'.
Qed.

Definition demo_bytes : bytes := [1; 2; 3].
Definition demo_arena : Arena := {| arena_bytes := replicate 8 0; slots := replicate 3 slot_default; movable_limit := 8; moves := 0; rejected := 0; head := None |}.
Definition demo_ops : list Op :=
  [Park demo_bytes 7; Park [4; 5] 0; Park demo_bytes 7; PinHandle 1; DropHandle 2; DropHandle 0; CompactAll; Park [6; 6; 6] 0; DropView 0; CloneHandle 0; PinHandle 2].

Lemma owners_keep_their_bytes_witness :
  new 8 3 8 true = Ok demo_arena /\
  exists w, exec_all demo_ops (opened demo_arena) = Some w /\
    forall o, o ∈ handles w ++ views w -> deref (own_handle o) (arena w) = Some (own_bytes o).
Proof.
  split; [reflexivity|]. destruct (owners_keep_their_bytes 8 3 8 demo_arena demo_ops eq_refl) as (w & H1 & H2 & _); [unfold u64_max; lia|reflexivity|]. exists w. split; [exact H1|exact H2].
Defined.

(** C30: Parking a payload fails only under real pressure: whatever was done with the
    arena before, a payload that is not empty is parked, or it is refused with the
    pressure error and then every slot of the table is owned, or no gap is left after
    compaction, and if every block in use may move, the bytes in use and the new ones
    together exceed the arena.  The statistics report the bytes in use, and the largest
    gap they report is the largest payload that fits without moving a block. *)
Theorem parking_refused_when_full capacity count limit st ops b address reserved :
  new capacity count limit true = Ok st -> 0 <= capacity <= u64_max -> zlen ops < u64_max -> b <> [] ->
  exists w r st' t, exec_all ops (opened st) = Some w /\ store_shared b address (arena w) = Some (r, st') /\ stats reserved (arena w) = Some t /\
    (forall need, 0 < need -> (need <= largest_gap t <-> exists off, gap (arena w) need = Some (Some off))) /\
    match r with
    | Ok h => handle_len h = zlen b /\ deref h st' = Some b
    | Err e => e = pressure /\ (no_slot (arena w) \/ (all_movable (arena w) -> stat_capacity t < live_bytes t + zlen b))
    end.
Proof.
  intros Hst Hc Hn Hb. destruct (exec_all_ok 0 ops (opened st)) as (w & He & W); [by eapply opened_ok|lia|].
  destruct (park_step _ w b (zlen b) false address W Hn) as (r & st' & Hi & W' & _ & Hr); [done|]. pose proof W as [[l0 [last0 L0]] _ _ _ _].
  destruct (stats_spec reserved _ _ _ L0) as (t & Ht & Hlive & Hcap & Hgap). exists w, r, st', t. split_and!; try done. destruct r as [h|e].
  - split; [done|]. apply (deref_owner _ _ (held b false h) W'). cbn. by left.
  - destruct Hr as (-> & l & last & L & [Hfull|Hsum]); (split; [done|]); [by left|right]. intros Hall. rewrite Hcap, Hlive. rewrite (live_sum _ _ _ L0), <- (live_sum _ _ _ L).
    apply Hsum. intros i s Hil Hs. apply Hall; [by eapply list_elem_of_lookup_2|]. clear Hi. pose proof (lk_live _ _ _ L i s Hs) as H. rewrite decide_True in H by done. lia.
Qed.

Lemma parking_refused_when_full_witness :
  exists w r st', exec_all demo_ops (opened demo_arena) = Some w /\
    store_shared [9; 9; 9] 0 (arena w) = Some (r, st').
Proof.
  destruct (parking_refused_when_full 8 3 8 demo_arena demo_ops [9; 9; 9] 0 3000 eq_refl) as (w & r & st' & t & H1 & H2 & _); [unfold u64_max; lia|reflexivity|done|]. exists w, r, st'. split; [exact H1|exact H2].
Defined.
