(* ===== verification/PacketCodec.v ===== *)
(** * Compressed payloads of the arena (src/src/packet_store.rs, compact-packet-compression)

    A payload may be parked compressed, chunk by chunk, each chunk with its two lengths
    before it.  The codec measures the chunks first, reserves exactly the bytes they
    take and encodes them again into the slot; a payload that does not get smaller is
    parked as it is.  A range is read chunk by chunk, and only the chunks that intersect
    it are decoded.

    Zstandard is a parameter: [zstd_compress] with the state of its context and the
    room of its output, [zstd_decompress] with the length it is to give; [None] is an
    error of the library.  [frames_decode] says what the code relies on: a frame is not
    empty and decodes to what was encoded. *)

From stdpp Require Import list sets.
From S2P Require Import Prelude PacketStore.

Open Scope Z_scope.

(** ** Memory *)

Definition aligned_size (n : Z) : result Z := ok_or (b ← checked_add n 7; Some (Z.land b (Z.lnot 7))) pressure.

Record CodecMemory : Type := {
  mem_workspace : Z;
  mem_encode_scratch : Z;
  mem_decode_scratch : Z;
  mem_total : Z;
}.

Section Memory.
(** The estimates of Zstandard and the size of the codec's object. *)
Variable estimate_encoder : Z -> result Z.
Variable estimate_decoder : result Z.
Variable compress_bound : Z -> Z.
Variable object_size : Z.

Definition sizes (chunk : Z) : result (Z * Z) :=
  if (chunk =? 0) || (u32_max <? chunk) then Err (Io "invalid compression chunk size")
  else enc ← estimate_encoder chunk; dec ← estimate_decoder; e ← aligned_size enc; d ← aligned_size dec; Ok (e, d).

Definition memory_requirements (chunk : Z) : result CodecMemory :=
  '(enc, dec) ← sizes chunk;
  workspace ← ok_or (checked_add enc dec) pressure;
  total ← ok_or (a ← checked_add workspace (compress_bound chunk); b ← checked_add a chunk; checked_add b object_size) pressure;
  Ok {| mem_workspace := workspace; mem_encode_scratch := compress_bound chunk; mem_decode_scratch := chunk; mem_total := total |}.
End Memory.

(** ** Encoding *)

Record PacketCodec (Enc : Type) : Type := {
  encoder : Enc;
  encoder_words : Z;
  decoder_words : Z;
  chunk : Z;
  decoded_chunks : Z;
}.
Arguments encoder {Enc}. Arguments encoder_words {Enc}. Arguments decoder_words {Enc}. Arguments chunk {Enc}. Arguments decoded_chunks {Enc}.

Definition set_encoder {Enc} (e : Enc) (c : PacketCodec Enc) : PacketCodec Enc :=
  {| encoder := e; encoder_words := encoder_words c; decoder_words := decoder_words c; chunk := chunk c; decoded_chunks := decoded_chunks c |}.
Definition count_decoded {Enc} (c : PacketCodec Enc) : PacketCodec Enc :=
  {| encoder := encoder c; encoder_words := encoder_words c; decoder_words := decoder_words c; chunk := chunk c; decoded_chunks := wrap64 (decoded_chunks c + 1) |}.

Definition workspace_bytes {Enc} (c : PacketCodec Enc) : Z := (encoder_words c + decoder_words c) * 8.

(** The pieces of [n] bytes, the last may be shorter. *)
Fixpoint pieces_from (fuel n : nat) (b : bytes) : list bytes :=
  match fuel, b with
  | S fuel, _ :: _ => take n b :: pieces_from fuel n (drop n b)
  | _, _ => []
  end.
Definition pieces (n : nat) (b : bytes) : list bytes := pieces_from (length b) n b.

Section Codec.
Context {Enc : Type}.
Variable zstd_compress : Enc -> Z -> bytes -> option bytes * Enc.
Variable zstd_decompress : Z -> bytes -> option bytes.

(** [words]: the capacities of the two buffers when they were granted; [init]: the
    context of the library. *)
Definition codec_new (sizes : result (Z * Z)) (chunk budget : Z) (words : option (Z * Z)) (init : result Enc) : result (PacketCodec Enc) :=
  '(enc, dec) ← sizes;
  workspace ← ok_or (checked_add enc dec) pressure;
  if budget <? workspace then Err (Io "codec workspace exceeds budget")
  else
    '(ew, dw) ← ok_or words pressure;
    e ← init;
    let c := {| encoder := e; encoder_words := ew; decoder_words := dw; chunk := chunk; decoded_chunks := 0 |} in
    if budget <? workspace_bytes c then Err pressure else Ok c.

(** A chunk that does not get smaller is kept as it is. *)
Definition encode_chunk (c : PacketCodec Enc) (raw : bytes) (scratch : Z) : result bytes * PacketCodec Enc :=
  if scratch <? zlen raw then (Err (Io "encode scratch too small"), c)
  else
    let '(r, e) := zstd_compress (encoder c) scratch raw in
    (Ok match r with Some out => if zlen out <? zlen raw then out else raw | None => raw end, set_encoder e c).

(** The bytes the payload will take; [Ok None]: not less than it has. *)
Fixpoint measure (c : PacketCodec Enc) (scratch limit used : Z) (l : list bytes) : result (option Z) * PacketCodec Enc :=
  match l with
  | [] => (Ok (Some used), c)
  | raw :: l =>
      let '(r, c) := encode_chunk c raw scratch in
      match r with
      | Err e => (Err e, c)
      | Ok out =>
          match a ← checked_add used 8; checked_add a (zlen out) with
          | Some n => if n <? limit then measure c scratch limit n l else (Ok None, c)
          | None => (Ok None, c)
          end
      end
  end.

Definition size_changed : TelemetryError := Io "codec size changed".
Definition block_of (raw out : bytes) : bytes := le_bytes 4 (wrap32 (zlen raw)) ++ le_bytes 4 (wrap32 (zlen out)) ++ out.

Fixpoint fill (c : PacketCodec Enc) (scratch used base cursor : Z) (l : list bytes) (st : Arena) : result unit * PacketCodec Enc * Arena :=
  match l with
  | [] => (if cursor =? used then Ok tt else Err size_changed, c, st)
  | raw :: l =>
      let '(r, c) := encode_chunk c raw scratch in
      match r with
      | Err e => (Err e, c, st)
      | Ok out =>
          match a ← checked_add cursor 8; checked_add a (zlen out) with
          | Some last =>
              if last <=? used then fill c scratch used base last l (set_bytes (overwrite (arena_bytes st) (base + cursor) (block_of raw out)) st)
              else (Err size_changed, c, st)
          | None => (Err size_changed, c, st)
          end
      end
  end.

Definition plain (c : PacketCodec Enc) (data : bytes) (st : Arena) : option (result StoredBytes * PacketCodec Enc * Arena) :=
  '(r, st) ← store data st; Some (r, c, st).

Definition codec_store (c : PacketCodec Enc) (data : bytes) (scratch : Z) (st : Arena) : option (result StoredBytes * PacketCodec Enc * Arena) :=
  if is_empty data || (scratch <? Z.min (chunk c) (zlen data)) then plain c data st
  else
    let l := pieces (Z.to_nat (chunk c)) data in
    let '(r, c) := measure c scratch (zlen data) 0 l in
    match r with
    | Err e => Some (Err e, c, st)
    | Ok None => plain c data st
    | Ok (Some used) =>
        '(r, st) ← reserve used true 0 st;
        match r with
        | Err e => Some (Err e, c, st)
        | Ok slot =>
            s ← slots st !! slot;
            let '(r, c, st) := fill c scratch used (offset s) 0 l st in
            let h := {| handle_slot := Some slot; handle_len := zlen data |} in
            match r with
            | Ok _ => Some (Ok h, c, st)
            | Err e => st ← drop_handle h st; Some (Err e, c, st)
            end
        end
    end.

(** ** Reading *)

(** A view of the stored bytes. *)
Definition pin_encoded (h : StoredBytes) (st : Arena) : option Arena :=
  match handle_slot h with
  | None => Some st
  | Some i => s ← slots st !! i; n ← checked_add (pins s) 1; add_ref i (set_slot i (with_pins n s) st)
  end.

Definition get (b : bytes) (o n : Z) : option bytes := if o + n <=? zlen b then Some (range b o n) else None.

(** The chunk as it was. *)
Definition decode_chunk (c : PacketCodec Enc) (raw scratch : Z) (stored : bytes) : result bytes * PacketCodec Enc :=
  if zlen stored =? raw then (Ok stored, c)
  else if scratch <? raw then (Err (Io "field decode scratch too small"), c)
  else
    match zstd_decompress raw stored with
    | None => (Err (Unpack "stored chunk decode failed"), c)
    | Some b => if negb (zlen b =? raw) then (Err (Unpack "stored chunk size mismatch"), c) else (Ok b, count_decoded c)
    end.

Definition invalid_chunk : TelemetryError := Unpack "invalid stored chunk".

(** From [cursor] in the view and [logical] in the payload up to [last]. *)
Fixpoint read_chunks (fuel : nat) (c : PacketCodec Enc) (view : bytes) (off last scratch cursor logical : Z) (out : bytes) : option (result bytes * PacketCodec Enc) :=
  match fuel with
  | O => None
  | S fuel =>
      if last <=? logical then Some (Ok out, c)
      else
        match get view cursor 8 with
        | None => Some (Err invalid_chunk, c)
        | Some header =>
            let raw := from_le (take 4 header) in
            let n := from_le (drop 4 header) in
            match get view (cursor + 8) n with
            | None => Some (Err invalid_chunk, c)
            | Some stored =>
                if (raw =? 0) || (chunk c <? raw) || (raw <? n) || (n =? 0) then Some (Err (Unpack "invalid stored chunk size"), c)
                else if off <? logical + raw then
                  let '(r, c) := decode_chunk c raw scratch stored in
                  match r with
                  | Err e => Some (Err e, c)
                  | Ok decoded =>
                      let from := Z.max off logical in
                      let to := Z.min last (logical + raw) in
                      read_chunks fuel c view off last scratch (cursor + 8 + n) (logical + raw)
                        (overwrite out (from - off) (range decoded (from - logical) (to - from)))
                  end
                else read_chunks fuel c view off last scratch (cursor + 8 + n) (logical + raw) out
            end
        end
  end.

Definition codec_read (c : PacketCodec Enc) (h : StoredBytes) (off : Z) (out : bytes) (scratch : Z) (st : Arena) : option (result bytes * PacketCodec Enc * Arena) :=
  match last ← checked_add off (zlen out); if last <=? handle_len h then Some last else None with
  | None => Some (Err (Unpack "payload range out of bounds"), c, st)
  | Some last =>
      comp ← is_compressed h st;
      if negb comp then '(r, st) ← read_range h off (zlen out) st; Some (r, c, st)
      else if is_empty out then Some (Ok out, c, st)
      else
        st ← pin_encoded h st;
        view ← deref h st;
        '(r, c) ← read_chunks (S (length view)) c view off last scratch 0 0 out;
        st ← unpin h st;
        Some (r, c, st)
  end.

(** Both scratch buffers are granted once; [caps] are their capacities. *)
Record BoundedPacketCodec : Type := { bounded : PacketCodec Enc; encode_cap : Z; decode_cap : Z; encode_len : Z; decode_len : Z }.
Definition reserved_bytes (object_size : Z) (b : BoundedPacketCodec) : Z := workspace_bytes (bounded b) + encode_cap b + decode_cap b + object_size.

Definition bounded_new (required : result CodecMemory) (sizes : result (Z * Z)) (chunk budget object_size : Z) (words caps : option (Z * Z)) (init : result Enc) :
    result BoundedPacketCodec :=
  m ← required;
  if budget <? mem_total m then Err (Io "codec memory exceeds budget")
  else
    c ← codec_new sizes chunk (mem_workspace m) words init;
    '(ec, dc) ← ok_or caps pressure;
    let b := {| bounded := c; encode_cap := ec; decode_cap := dc; encode_len := mem_encode_scratch m; decode_len := mem_decode_scratch m |} in
    if budget <? reserved_bytes object_size b then Err pressure else Ok b.

Definition bounded_store (b : BoundedPacketCodec) (data : bytes) (st : Arena) : option (result StoredBytes * PacketCodec Enc * Arena) :=
  codec_store (bounded b) data (encode_len b) st.
Definition bounded_read (b : BoundedPacketCodec) (h : StoredBytes) (off : Z) (out : bytes) (st : Arena) : option (result bytes * PacketCodec Enc * Arena) :=
  codec_read (bounded b) h off out (decode_len b) st.

(** ** What the library must do *)

Definition frames_decode : Prop := forall e room raw out e',
  zstd_compress e room raw = (Some out, e') -> zlen out < zlen raw -> out <> [] /\ zstd_decompress (zlen raw) out = Some raw.

(** A chunk as it may be stored. *)
Definition stores (raw out : bytes) : Prop := out = raw \/ zlen out < zlen raw /\ out <> [] /\ zstd_decompress (zlen raw) out = Some raw.

(** The stored form of the chunks. *)
Inductive encoded : list bytes -> bytes -> Prop :=
| encoded_nil : encoded [] []
| encoded_cons raw out l enc : stores raw out -> encoded l enc -> encoded (raw :: l) (block_of raw out ++ enc).

Definition chunk_fits (limit : Z) (raw : bytes) : Prop := raw <> [] /\ zlen raw <= limit.

Lemma pieces_from_spec n fuel : forall b, (0 < n)%nat -> (length b <= fuel)%nat ->
  concat (pieces_from fuel n b) = b /\ Forall (chunk_fits (Z.min (Z.of_nat n) (zlen b))) (pieces_from fuel n b).
Proof.
  induction fuel as [|fuel IH]; intros b Hn Hf; destruct b as [|x b]; cbn in Hf; [by split; [|constructor]|lia|by split; [|constructor]|]. cbn [pieces_from concat].
  destruct (IH (drop n (x :: b))) as [H1 H2]; [done|rewrite length_drop; cbn; lia|]. rewrite H1. split; [apply take_drop|]. constructor.
  - split; [destruct n; [lia|done]|]. unfold zlen. rewrite length_take. lia.
  - eapply Forall_impl; [exact H2|]. intros p [? Hp]. split; [done|]. unfold zlen in *. rewrite length_drop in Hp. lia.
Qed.

Lemma pieces_spec n b : (0 < n)%nat -> concat (pieces n b) = b /\ Forall (chunk_fits (Z.min (Z.of_nat n) (zlen b))) (pieces n b).
Proof. intros Hn. by apply pieces_from_spec. Qed.

Section Correct.
Hypothesis Hzstd : frames_decode.

Lemma encode_chunk_spec c raw scratch : zlen raw <= scratch ->
  exists out c', encode_chunk c raw scratch = (Ok out, c') /\ chunk c' = chunk c /\ stores raw out.
Proof.
  intros Hs. unfold encode_chunk. rewrite (proj2 (Z.ltb_ge _ _)) by done. destruct (zstd_compress (encoder c) scratch raw) as [r e] eqn:E.
  eexists _, _. split; [done|]. split; [done|]. destruct r as [out|]; [|by left]. destruct (zlen out <? zlen raw) eqn:El; [|by left]. apply Z.ltb_lt in El.
  right. split; [done|]. by eapply Hzstd.
Qed.

Lemma stores_len raw out : stores raw out -> 0 <= zlen out <= zlen raw.
Proof. unfold zlen. intros [->|(H & _)]; unfold zlen in *; lia. Qed.

Lemma measure_spec scratch limit l : forall c used, Forall (chunk_fits scratch) l -> 0 <= used -> limit <= u64_max ->
  exists r c', measure c scratch limit used l = (Ok r, c') /\ chunk c' = chunk c /\
    match r with Some n => (l = [] /\ n = used) \/ (used + 8 <= n < limit) | None => True end.
Proof.
  induction l as [|raw l IH]; intros c used Hall Hu Hl; cbn [measure]; [exists (Some used), c; split_and!; [done|done|by left]|].
  apply Forall_cons in Hall as [[_ Hr] Hall]. destruct (encode_chunk_spec c raw scratch Hr) as (out & c1 & -> & Hc1 & Hs). apply stores_len in Hs.
  destruct (a ← checked_add used 8; checked_add a (zlen out)) as [n|] eqn:En; [|exists None, c1; by split_and!]. assert (n = used + 8 + zlen out) as ->.
  { unfold checked_add in En. repeat (case_match; simplify_option_eq; try done). }
  destruct (_ <? limit) eqn:E; [apply Z.ltb_lt in E|exists None, c1; by split_and!]. destruct (IH c1 (used + 8 + zlen out)) as (r & c2 & -> & Hc2 & Hr2); [done|lia|done|].
  exists r, c2. split_and!; [done|congruence|]. destruct r as [n|]; [|done]. right. destruct Hr2 as [[-> ->]|]; lia.
Qed.

Lemma zlen_block raw out : zlen (block_of raw out) = 8 + zlen out.
Proof. unfold block_of, zlen. rewrite !length_app, !length_le_bytes. lia. Qed.

Lemma overwrite_app b o w1 w2 : 0 <= o -> o + zlen w1 + zlen w2 <= zlen b -> overwrite (overwrite b o w1) (o + zlen w1) w2 = overwrite b o (w1 ++ w2).
Proof.
  intros Ho Hl. unfold zlen, overwrite in *. rewrite Z2Nat.inj_add, Nat2Z.id by lia. rewrite (app_assoc (take _ b) w1).
  assert (length (take (Z.to_nat o) b ++ w1) = (Z.to_nat o + length w1)%nat) as E by (rewrite length_app, length_take; lia).
  rewrite take_app_length' by done. rewrite drop_app_ge by lia. rewrite drop_drop, E, <- !app_assoc, length_app. do 4 f_equal. lia.
Qed.

(** A write that stops early is a write of the rest as it was. *)
Lemma overwrite_pad b o w n : 0 <= o -> zlen w <= n -> o + n <= zlen b ->
  exists w', zlen w' = n /\ overwrite b o w = overwrite b o w' /\ exists r, w' = w ++ r.
Proof.
  intros Ho Hw Hn. exists (w ++ range b (o + zlen w) (n - zlen w)). assert (0 <= zlen w) by (unfold zlen; lia).
  assert (zlen (range b (o + zlen w) (n - zlen w)) = n - zlen w) as Hz by (apply zlen_range; lia). split; [|split; [|by eexists]].
  - unfold zlen in *. rewrite length_app. lia.
  - unfold overwrite. rewrite <- app_assoc. f_equal. f_equal. rewrite length_app. unfold zlen in *.
    replace (length (range b (o + Z.of_nat (length w)) (n - Z.of_nat (length w)))) with (Z.to_nat (n - Z.of_nat (length w))) by lia. unfold range.
    rewrite Z2Nat.inj_add, Nat2Z.id by lia. rewrite Nat.add_assoc, <- (drop_drop b _ (Z.to_nat o + length w)%nat). by rewrite take_drop.
Qed.

Lemma set_bytes_twice b1 b2 st : set_bytes b2 (set_bytes b1 st) = set_bytes b2 st.
Proof. done. Qed.

(** The filled part of the slot is the stored form of the chunks. *)
Lemma fill_spec scratch used base l : forall c cursor st, Forall (chunk_fits scratch) l -> 0 <= base -> 0 <= cursor <= used -> base + used <= zlen (arena_bytes st) -> used <= u64_max ->
  exists r c' w, fill c scratch used base cursor l st = (r, c', set_bytes (overwrite (arena_bytes st) (base + cursor) w) st) /\ chunk c' = chunk c /\ cursor + zlen w <= used /\
    match r with Ok _ => encoded l w /\ cursor + zlen w = used | Err e => e = size_changed end.
Proof.
  induction l as [|raw l IH]; intros c cursor st Hall Hb Hc Hroom Hu; cbn [fill].
  - exists (if cursor =? used then Ok tt else Err size_changed), c, []. assert (set_bytes (overwrite (arena_bytes st) (base + cursor) []) st = st) as ->.
    { unfold overwrite. cbn. rewrite Nat.add_0_r, take_drop. by destruct st. }
    split; [done|]. split; [done|]. unfold zlen. cbn. split; [lia|]. destruct (cursor =? used) eqn:E; [|done]. apply Z.eqb_eq in E. split; [constructor|lia].
  - apply Forall_cons in Hall as [[_ Hr] Hall]. destruct (encode_chunk_spec c raw scratch Hr) as (out & c1 & -> & Hc1 & Hs).
    assert (forall e, e = size_changed -> exists r c' w, (Err e : result unit, c1, st) = (r, c', set_bytes (overwrite (arena_bytes st) (base + cursor) w) st) /\ chunk c' = chunk c /\ cursor + zlen w <= used /\
      match r with Ok _ => encoded (raw :: l) w /\ cursor + zlen w = used | Err e => e = size_changed end) as Hstop.
    { intros e ->. exists (Err size_changed), c1, []. split; [f_equal; unfold overwrite; cbn; rewrite Nat.add_0_r, take_drop; by destruct st|]. split; [done|]. unfold zlen. cbn. split; [lia|done]. }
    destruct (a ← checked_add cursor 8; checked_add a (zlen out)) as [n|] eqn:En; [|by apply Hstop]. assert (n = cursor + 8 + zlen out) as ->.
    { unfold checked_add in En. repeat (case_match; simplify_option_eq; try done). }
    destruct (_ <=? used) eqn:E; [apply Z.leb_le in E|by apply Hstop]. pose proof (stores_len raw out Hs). pose proof (zlen_block raw out) as Hzb.
    destruct (IH c1 (cursor + 8 + zlen out) (set_bytes (overwrite (arena_bytes st) (base + cursor) (block_of raw out)) st)) as (r & c2 & w & -> & Hc2 & Hw & Hres); try done; [lia|cbn; rewrite zlen_overwrite; lia|].
    exists r, c2, (block_of raw out ++ w). assert (zlen (block_of raw out ++ w) = 8 + zlen out + zlen w) as Hz by (rewrite <- Hzb; unfold zlen; rewrite length_app; lia).
    split; [|split; [congruence|split; [lia|]]].
    + f_equal. rewrite set_bytes_twice. cbn. f_equal. rewrite <- overwrite_app by (rewrite ?Hzb; lia). f_equal. lia.
    + destruct r; [|done]. destruct Hres. split; [by constructor|lia].
Qed.

(** What is parked: the data as they are, or their chunks encoded. *)
Definition form (n : Z) (data enc : bytes) (comp : bool) : Prop :=
  comp = false /\ enc = data \/ comp = true /\ enc <> [] /\ zlen enc < zlen data /\ encoded (pieces (Z.to_nat n) data) enc.

(** A refused payload leaves the arena's owners as they were. *)
Definition refused (st st' : Arena) : Prop := arena_ok st' /\ cells st' = cells st /\ stays st st'.

Lemma plain_spec c data st l last : linked st l last -> counts_below st ->
  exists r st', plain c data st = Some (r, c, st') /\
    match r with Ok h => insert data (zlen data) false 0 st = Some (Ok h, st') | Err e => refused st st' /\ e = pressure end.
Proof.
  intros L Hc. unfold plain, store. destruct (decide (data = [])) as [->|Hd]; [eexists _, st; by split|].
  destruct (insert_cases data (zlen data) false 0 st l last L Hc Hd) as (r & st' & l' & last' & Hi & L' & Hst & Hr). rewrite Hi. cbn. exists r, st'. split; [done|].
  destruct r; [done|]. destruct Hr as (-> & Hcl & _). split; [|done]. split_and!; [by exists l', last'|done|done].
Qed.

(** The slot is given back when the second encoding differs. *)
Lemma give_back st st1 l1 l2 last slot s w :
  linked st1 (l1 ++ slot :: l2) last -> slots st1 !! slot = Some s -> refs s = 1 -> pins s = 0 -> zlen w <= slot_len s ->
  cells st !! slot = Some free_cell -> cells st1 = <[slot := cell_of st1 s]> (cells st) -> stays st st1 ->
  exists st2, drop_ref slot (set_bytes (overwrite (arena_bytes st1) (offset s) w) st1) = Some st2 /\ refused st st2.
Proof.
  intros L Hs Hr Hp Hw Hfree Hc Hst. assert (slot ∈ l1 ++ slot :: l2) as Hin by (apply elem_of_app; right; by left).
  destruct (linked_slot _ _ _ _ _ L Hs Hin) as (Ho & Hpos & Hend & _).
  destruct (overwrite_pad (arena_bytes st1) (offset s) w (slot_len s) Ho Hw Hend) as (w' & Hw' & -> & _).
  destruct (fill_cells st1 l1 l2 last slot s w' L Hs) as [L2 Hc2]; [done|]. set (st2 := set_bytes _ st1) in *.
  destruct (drop_ref_spec st2 _ last slot s L2) as (st3 & l3 & last3 & Hd & L3 & Hc3 & Hst3); [done|done|done|]. exists st3. split; [done|]. split_and!; [by exists l3, last3| |].
  - rewrite Hc3, Hc2, Hc, !list_insert_insert_eq. unfold one_less. cbn. rewrite decide_True by done. by apply list_insert_id.
  - intros i t Ht Hpt. destruct (Hst i t Ht Hpt) as (t1 & Ht1 & Ho1). destruct (decide (i = slot)) as [->|Hne].
    + assert (cells st !! slot = Some (cell_of st t)) as E by (apply cells_lookup; by exists t). rewrite Hfree in E. injection E as _ E _ _. lia.
    + assert (cells st1 !! i = Some (cell_of st1 t1)) as E1 by (apply cells_lookup; by exists t1). rewrite Hc, list_lookup_insert_ne in E1 by done.
      assert (cells st !! i = Some (cell_of st t)) as E by (apply cells_lookup; by exists t). rewrite E in E1. injection E1 as _ E1 _ _.
      destruct (Hst3 i t1 Ht1) as (t3 & ? & ?); [lia|]. exists t3. split; [done|congruence].
Qed.

Lemma codec_store_spec c data scratch st l last :
  linked st l last -> counts_below st -> 1 <= chunk c -> zlen data <= u64_max ->
  exists r c' st', codec_store c data scratch st = Some (r, c', st') /\ chunk c' = chunk c /\
    match r with
    | Ok h => exists enc comp, insert enc (zlen data) comp 0 st = Some (Ok h, st') /\ form (chunk c) data enc comp
    | Err e => refused st st' /\ (e = pressure \/ e = size_changed)
    end.
Proof.
  intros L Hcb Hch Hdl. destruct (plain_spec c data st l last L Hcb) as (r0 & st0 & Hp & Hr0).
  assert (forall c1, chunk c1 = chunk c -> exists r c' st', plain c1 data st = Some (r, c', st') /\ chunk c' = chunk c /\
    match r with Ok h => exists enc comp, insert enc (zlen data) comp 0 st = Some (Ok h, st') /\ form (chunk c) data enc comp
    | Err e => refused st st' /\ (e = pressure \/ e = size_changed) end) as Hplain.
  { intros c1 Hc1. destruct (plain_spec c1 data st l last L Hcb) as (r & st' & -> & Hr). exists r, c1, st'. split; [done|]. split; [done|].
    destruct r as [h|e]; [exists data, false; split; [done|by left]|destruct Hr; by split; [|left]]. }
  unfold codec_store. destruct (is_empty data || _) eqn:E0; [by apply Hplain|]. apply orb_false_iff in E0 as [E0 E1]. apply Z.ltb_ge in E1.
  destruct (pieces_spec (Z.to_nat (chunk c)) data) as [Hcat Hpieces]; [lia|]. rewrite Z2Nat.id in Hpieces by lia.
  assert (Forall (chunk_fits scratch) (pieces (Z.to_nat (chunk c)) data)) as Hfit by (eapply Forall_impl; [exact Hpieces|]; intros p [? ?]; split; [done|lia]).
  destruct (measure_spec scratch (zlen data) (pieces (Z.to_nat (chunk c)) data) c 0 Hfit) as (m & c1 & -> & Hc1 & Hm); [lia|done|]. destruct m as [used|]; [|by apply Hplain].
  assert (data <> []) as Hd by by destruct data. destruct Hm as [[Hnil _]|Hused]; [rewrite Hnil in Hcat; by subst data|].
  destruct (reserve_cases used true 0 st l last L ltac:(lia)) as [(st' & last' & -> & L' & ? & ? & ?)|(slot & st1 & l1 & l2 & last' & s & Hres & -> & L1 & Hs & Hr & Hpn & Hcm & Hlen & Hfree & Hcl & Hst)].
  { cbn. exists (Err pressure), c1, st'. split; [done|]. split; [done|]. split; [|by left]. split; [by exists l, last'|done]. }
  rewrite Hres. cbn. rewrite Hs. cbn. destruct (linked_slot _ _ _ _ _ L1 Hs) as (Ho & Hpos & Hend & _); [apply elem_of_app; right; by left|].
  pose proof (lk_cap _ _ _ L1). destruct (fill_spec scratch used (offset s) (pieces (Z.to_nat (chunk c)) data) c1 0 st1 Hfit) as (r & c2 & w & -> & Hc2 & Hw & Hr2); [lia|lia|lia|lia|].
  rewrite Z.add_0_r. destruct r as [[]|e].
  - eexists _, c2, _. split; [done|]. split; [congruence|]. destruct Hr2 as [Henc Hwl]. exists w, true. split; [|right; split_and!; try done; [intros ->; unfold zlen in Hwl; cbn in Hwl; lia|lia]].
    unfold insert. replace (is_empty w) with false by (destruct w; [unfold zlen in Hwl; cbn in Hwl; lia|done]). cbn. replace (zlen w) with used by lia. rewrite Hres. cbn. by rewrite Hs.
  - destruct (give_back st st1 l1 l2 last' slot s w) as (st2 & Hd2 & Href); try done; [lia|]. unfold drop_handle. cbn. rewrite Hd2. cbn. exists (Err e), c2, st2.
    split_and!; [done|congruence|done|by right].
Qed.

(** *** Ranges *)

Lemma lookup_overwrite b o w j : 0 <= o -> o + zlen w <= zlen b ->
  overwrite b o w !! j = if decide (Z.to_nat o <= j < Z.to_nat o + length w)%nat then w !! (j - Z.to_nat o)%nat else b !! j.
Proof.
  unfold zlen, overwrite. intros Ho Hl. assert (length (take (Z.to_nat o) b) = Z.to_nat o) as E by (rewrite length_take; lia). case_decide as Hj.
  - rewrite lookup_app_r, E by lia. rewrite lookup_app_l; [done|lia].
  - destruct (decide (j < Z.to_nat o)%nat).
    + rewrite lookup_app_l by lia. by rewrite lookup_take_lt by done.
    + rewrite lookup_app_r, E by lia. rewrite lookup_app_r by lia. rewrite lookup_drop. f_equal. lia.
Qed.

Lemma lookup_range b o n j : (j < Z.to_nat n)%nat -> range b o n !! j = b !! (Z.to_nat o + j)%nat.
Proof. intros Hj. unfold range. rewrite lookup_take_lt by done. apply lookup_drop. Qed.

Lemma get_middle pre x post : get (pre ++ x ++ post) (zlen pre) (zlen x) = Some x.
Proof.
  unfold get. rewrite (proj2 (Z.leb_le _ _)) by (unfold zlen; rewrite !length_app; lia). f_equal. unfold range, zlen. rewrite !Nat2Z.id.
  rewrite drop_app_length, take_app_length. done.
Qed.

Lemma from_le_word v : 0 <= v <= u32_max -> from_le (le_bytes 4 (wrap32 v)) = v.
Proof. intros Hv. rewrite from_le_bytes; unfold wrap32; rewrite Z.mod_small; unfold u32_max in *; lia. Qed.

Lemma decode_chunk_spec c raw out scratch : stores raw out -> zlen raw <= scratch ->
  exists c', decode_chunk c (zlen raw) scratch out = (Ok raw, c') /\ chunk c' = chunk c.
Proof.
  intros Hs Hl. unfold decode_chunk. destruct Hs as [->|(Hlt & Hne & Hd)]; [rewrite Z.eqb_refl; by exists c|].
  rewrite (proj2 (Z.eqb_neq _ _)) by lia. rewrite (proj2 (Z.ltb_ge _ _)) by done. rewrite Hd, Z.eqb_refl. cbn. by exists (count_decoded c).
Qed.

Lemma stores_some raw out : raw <> [] -> stores raw out -> 0 < zlen out.
Proof. intros Hr [->|(_ & Ho & _)]; [destruct raw|destruct out]; try done; unfold zlen; cbn; lia. Qed.

(** The part of the range read so far. *)
Definition read_to (data : bytes) (off logical : Z) (out : bytes) : Prop :=
  forall j, (j < length out)%nat -> off + Z.of_nat j < logical -> out !! j = data !! (Z.to_nat off + j)%nat.

(** One chunk is copied where it belongs. *)
Lemma copy_chunk done raw rest off out :
  0 <= off -> off < zlen done + zlen raw -> zlen done < off + zlen out -> read_to (done ++ raw ++ rest) off (zlen done) out ->
  let from := Z.max off (zlen done) in
  let to := Z.min (off + zlen out) (zlen done + zlen raw) in
  let out' := overwrite out (from - off) (range raw (from - zlen done) (to - from)) in
  length out' = length out /\ read_to (done ++ raw ++ rest) off (zlen done + zlen raw) out'.
Proof.
  intros Ho H1 H2 Hread from to out'. assert (0 <= zlen done /\ 0 <= zlen raw /\ 0 <= zlen out) as (? & ? & ?) by (unfold zlen; lia).
  assert (zlen (range raw (from - zlen done) (to - from)) = to - from) as Hz by (apply zlen_range; lia).
  assert (zlen out' = zlen out) as Hout by (apply zlen_overwrite; lia). split; [unfold zlen in Hout; lia|]. intros j Hj Hlt.
  assert (j < length out)%nat as Hj' by (unfold zlen in Hout; lia). unfold out'. rewrite lookup_overwrite by lia.
  assert (Z.of_nat (length (range raw (from - zlen done) (to - from))) = to - from) as HR by exact Hz. case_decide as Hd.
  - rewrite lookup_range by lia. rewrite lookup_app_r by (unfold zlen in *; lia). rewrite lookup_app_l by (unfold zlen in *; lia). f_equal. unfold zlen in *. lia.
  - apply Hread; [done|]. unfold zlen in *. lia.
Qed.

Lemma read_chunks_spec data off scratch enc l : encoded l enc -> forall fuel c pre done out,
  Forall (chunk_fits (chunk c)) l -> chunk c <= u32_max -> chunk c <= scratch -> data = done ++ concat l -> 0 <= off -> off + zlen out <= zlen data ->
  read_to data off (zlen done) out -> (length enc < fuel)%nat ->
  exists out' c', read_chunks fuel c (pre ++ enc) off (off + zlen out) scratch (zlen pre) (zlen done) out = Some (Ok out', c') /\ chunk c' = chunk c /\
    length out' = length out /\ read_to data off (off + zlen out) out'.
Proof.
  induction 1 as [|raw blk l enc Hs Henc IH]; intros fuel c pre done out Hall Hu Hscr Hdata Ho Hend Hread Hf; (destruct fuel as [|fuel]; [lia|]); cbn [read_chunks].
  - cbn in Hdata. rewrite app_nil_r in Hdata. subst done. rewrite (proj2 (Z.leb_le _ _)) by done. exists out, c. split_and!; try done. intros j Hj Hlt. apply Hread; [done|]. unfold zlen in *. lia.
  - destruct (off + zlen out <=? zlen done) eqn:E; [apply Z.leb_le in E; exists out, c; split_and!; try done; intros j Hj Hlt; apply Hread; [done|lia]|]. apply Z.leb_gt in E.
    apply Forall_cons in Hall as [[Hne Hraw] Hall]. pose proof (stores_len _ _ Hs) as Hlen. pose proof (stores_some _ _ Hne Hs) as Hpos.
    set (hd := le_bytes 4 (wrap32 (zlen raw)) ++ le_bytes 4 (wrap32 (zlen blk))). assert (zlen hd = 8) as Hhd by (unfold hd, zlen; rewrite length_app, !length_le_bytes; done).
    assert (block_of raw blk ++ enc = hd ++ blk ++ enc) as Hblk by (unfold block_of, hd; by rewrite <- !app_assoc). rewrite Hblk.
    pose proof (get_middle pre hd (blk ++ enc)) as Hg. rewrite Hhd in Hg. rewrite Hg.
    assert (take 4 hd = le_bytes 4 (wrap32 (zlen raw)) /\ drop 4 hd = le_bytes 4 (wrap32 (zlen blk))) as [-> ->].
    { unfold hd. split; [by rewrite take_app_length' by by rewrite length_le_bytes|by rewrite drop_app_length' by by rewrite length_le_bytes]. }
    rewrite !from_le_word by lia. assert (zlen (pre ++ hd) = zlen pre + 8) as Hp2 by (rewrite <- Hhd; unfold zlen; rewrite length_app; lia).
    pose proof (get_middle (pre ++ hd) blk enc) as Hg2. rewrite Hp2, <- app_assoc in Hg2. rewrite Hg2.
    rewrite (proj2 (Z.eqb_neq (zlen raw) 0)), (proj2 (Z.ltb_ge (chunk c) (zlen raw))), (proj2 (Z.ltb_ge (zlen raw) (zlen blk))), (proj2 (Z.eqb_neq (zlen blk) 0)) by lia. cbn [orb].
    assert (zlen ((pre ++ hd) ++ blk) = zlen pre + 8 + zlen blk) as Hp3 by (rewrite <- Hp2; unfold zlen; rewrite !length_app; lia).
    assert (zlen (done ++ raw) = zlen done + zlen raw) as Hp4 by (unfold zlen; rewrite length_app; lia). rewrite <- Hp3, <- Hp4.
    replace (pre ++ hd ++ blk ++ enc) with (((pre ++ hd) ++ blk) ++ enc) by by rewrite <- !app_assoc.
    assert (data = (done ++ raw) ++ concat l) as Hdata2 by (rewrite Hdata; cbn; by rewrite <- app_assoc).
    assert (length enc < fuel)%nat as Hf2 by (rewrite Hblk, !length_app in Hf; unfold zlen in Hhd; lia).
    destruct (off <? _) eqn:Eo; [apply Z.ltb_lt in Eo|apply Z.ltb_ge in Eo].
    + destruct (decode_chunk_spec c raw blk scratch Hs) as (c1 & -> & Hc1); [lia|].
      destruct (copy_chunk done raw (concat l) off out) as [Hl1 Hread1]; [done|lia|lia|by subst data|]. rewrite Hp4.
      set (out1 := overwrite out _ _) in *. assert (zlen out1 = zlen out) as Hz1 by (unfold zlen; lia). rewrite <- Hz1, <- Hp4.
      destruct (IH fuel c1 ((pre ++ hd) ++ blk) (done ++ raw) out1) as (out' & c2 & He & Hc2 & Hl2 & Hr2); rewrite ?Hc1; try done; [lia|rewrite Hp4, Hdata; cbn; done|].
      exists out', c2. split_and!; [done|congruence|congruence|done].
    + destruct (IH fuel c ((pre ++ hd) ++ blk) (done ++ raw) out) as (out' & c2 & He & Hc2 & Hl2 & Hr2); try done; [|by exists out', c2]. intros j Hj Hlt. apply Hread; [done|]. lia.
Qed.

(** *** Views for a read *)

Lemma pin_encoded_spec st l last h i s :
  linked st l last -> handle_slot h = Some i -> slots st !! i = Some s -> i ∈ l -> refs s < u64_max -> pins s < u64_max ->
  exists st', pin_encoded h st = Some st' /\ linked st' l last /\ cells st' = <[i := more_refs 1 (more_pins 1 (cell_of st s))]> (cells st).
Proof.
  intros L Hh Hs Hi Hr Hp. unfold pin_encoded. rewrite Hh, Hs. cbn. unfold checked_add. rewrite (proj2 (Z.leb_le _ _)) by lia. cbn.
  pose proof (lk_live _ _ _ L i s Hs) as Hlive. rewrite decide_True in Hlive by done.
  destruct (set_pins_spec st l last i s (pins s + 1)) as (L1 & Hs1 & Hc1); try done; [lia|].
  destruct (add_ref_spec _ l last i _ L1 Hs1 Hi) as (st' & Ha & L' & Hsl & Hcl); [done|]. cbn in Ha. exists st'. split_and!; [done|done|]. rewrite Hcl, Hc1. by rewrite list_insert_insert_eq.
Qed.

(** A view reads the stored bytes and leaves the counts as they were. *)
Lemma view_spec st st1 l last h i s :
  linked st1 l last -> i ∈ l -> handle_slot h = Some i -> slots st !! i = Some s -> 0 < refs s -> 0 <= pins s ->
  cells st1 = <[i := more_refs 1 (more_pins 1 (cell_of st s))]> (cells st) ->
  deref h st1 = Some (contents st s) /\ exists st2, unpin h st1 = Some st2 /\ arena_ok st2 /\ cells st2 = cells st.
Proof.
  intros L Hi Hh Hs Hr Hp Hc. assert (i < length (cells st))%nat as Hlt by (unfold cells; rewrite length_fmap; by eapply lookup_lt_Some).
  assert (cells st1 !! i = Some (more_refs 1 (more_pins 1 (cell_of st s)))) as (s1 & Hs1 & Hcell)%cells_lookup by (rewrite Hc; by apply list_lookup_insert_eq).
  injection Hcell as Hr1 Hp1 _ Hb1. split; [unfold deref; rewrite Hh, Hs1; cbn; by rewrite Hb1|].
  destruct (unpin_spec st1 l last h i s1 L Hh Hs1 Hi) as (st2 & l2 & last2 & Hu & L2 & Hc2 & _); [lia|lia|]. exists st2. split_and!; [done|by exists l2, last2|].
  rewrite Hc2, Hc, list_insert_insert_eq. apply list_insert_id. apply cells_lookup. exists s. split; [done|]. unfold one_less. cbn. rewrite decide_False by lia.
  assert (cells st1 !! i = Some (cell_of st1 s1)) as E by (apply cells_lookup; by exists s1). rewrite Hc, list_lookup_insert_eq in E by done. injection E as _ _ Ec _.
  unfold more_refs, more_pins, cell_of. cbn. rewrite Hr1, Hp1, Hb1, Ec. f_equal; lia.
Qed.

Lemma range_all data off out : read_to data off (off + zlen out) out -> 0 <= off -> off + zlen out <= zlen data -> out = range data off (zlen out).
Proof.
  intros Hr Ho Hl. apply list_eq. intros j. destruct (decide (j < length out)%nat) as [Hj|Hj].
  - rewrite lookup_range by (unfold zlen; lia). apply Hr; [done|]. unfold zlen in *. lia.
  - rewrite (proj2 (lookup_ge_None out j)) by lia. symmetry. apply lookup_ge_None. pose proof (zlen_range data off (zlen out)) as H. unfold zlen in *. lia.
Qed.

#[local] Arguments read_chunks : simpl never.

(** Any range of what was parked, by any handle that is held. *)
Lemma codec_read_spec n w o data c off out scratch :
  world_ok n w -> n < u64_max -> o ∈ handles w ++ views w -> form (chunk c) data (own_bytes o) (own_encoded o) -> handle_len (own_handle o) = zlen data ->
  1 <= chunk c <= u32_max -> chunk c <= scratch -> zlen data <= u64_max -> 0 <= off -> off + zlen out <= zlen data ->
  exists c' st', codec_read c (own_handle o) off out scratch (arena w) = Some (Ok (range data off (zlen out)), c', st') /\ arena_ok st' /\ cells st' = cells (arena w).
Proof.
  intros W Hn Hown Hform Hlen Hch Hscr Hdl Ho Hend. unfold codec_read. unfold checked_add. rewrite (proj2 (Z.leb_le (off + zlen out) u64_max)) by lia.
  cbn [mbind option_bind]. rewrite Hlen, (proj2 (Z.leb_le (off + zlen out) (zlen data))) by lia. cbv beta iota. assert (0 <= zlen out) as Hz by (unfold zlen; lia).
  assert (forall b, match checked_add off (zlen out) with Some last => zlen data <? last | None => true end = b -> b = false) as Hchk.
  { unfold checked_add. rewrite (proj2 (Z.leb_le _ _)) by lia. intros b <-. apply Z.ltb_ge. lia. }
  destruct (handle_slot (own_handle o)) as [i|] eqn:Hi.
  - destruct (owner_slot n w o i W Hown Hi) as (s & Hs & Hx & Hr & Hb & Hcm & _ & Hpins & Hin). pose proof W as [[l [last L]] _ _ _ _]. specialize (Hin l last L).
    destruct (world_counts_below n w W Hn s) as [Hr2 Hp2]; [by eapply list_elem_of_lookup_2|]. assert (0 <= pins s) as Hp0 by (rewrite Hpins; apply holders_nonneg).
    unfold is_compressed. rewrite Hi, Hs. cbn. destruct Hform as [[Hc Hd]|(Hc & Hne & _ & Henc)]; rewrite Hc in Hcm; rewrite Hcm; cbn.
    + unfold read_range. rewrite Hlen. rewrite (Hchk _ eq_refl). destruct (pin_spec _ l last _ i s L Hi Hs Hin Hcm Hr2 Hp2) as (st1 & -> & L1 & Hc1 & _). cbn.
      destruct (view_spec _ st1 l last _ i s L1 Hin Hi Hs Hr Hp0 Hc1) as [-> (st2 & -> & Ha & Hc2)]. cbn. rewrite Hb, Hd. rewrite (proj2 (Z.ltb_ge _ _)) by lia. cbn. by exists c, st2.
    + destruct (is_empty out) eqn:Eo.
      { assert (out = []) as -> by by destruct out. exists c, (arena w). split; [unfold range; cbn; by rewrite take_0|]. by split; [exists l, last|]. }
      destruct (pin_encoded_spec _ l last _ i s L Hi Hs Hin Hr2 Hp2) as (st1 & -> & L1 & Hc1). cbn.
      destruct (view_spec _ st1 l last _ i s L1 Hin Hi Hs Hr Hp0 Hc1) as [-> (st2 & Hu & Ha & Hc2)]. cbn [mbind option_bind].
      destruct (pieces_spec (Z.to_nat (chunk c)) data) as [Hcat Hpieces]; [lia|]. rewrite Hb.
      destruct (read_chunks_spec data off scratch (own_bytes o) _ Henc (S (length (own_bytes o))) c [] [] out) as (out' & c2 & He & Hc2' & Hl2 & Hr2'); try done; try lia.
      { eapply Forall_impl; [exact Hpieces|]. intros p [? ?]. split; [done|lia]. }
      { intros j Hj Hlt. change (zlen []) with 0 in Hlt. lia. }
      cbn [app] in He. change (zlen []) with 0 in He. rewrite He. cbn. rewrite Hu. cbn. exists c2, st2. split; [|done]. do 3 f_equal.
      assert (zlen out' = zlen out) as E by (unfold zlen; lia). rewrite <- E. rewrite <- E in Hr2', Hend. by rewrite (range_all data off out') at 1.
  - pose proof (wo_bytes _ _ W o Hown) as Hbytes. unfold holds in Hbytes. rewrite Hi in Hbytes. destruct Hform as [[Hc Hd]|(_ & Hne & _)]; [|done].
    assert (data = []) as Hnil by congruence. assert (zlen data = 0) as Hz0 by by rewrite Hnil. unfold is_compressed. rewrite Hi. cbn. unfold read_range. rewrite Hlen, (Hchk _ eq_refl). unfold pin. rewrite Hi. cbn.
    unfold deref, unpin. rewrite Hi. cbn. rewrite (proj2 (Z.ltb_ge _ _)) by (unfold zlen in *; cbn; lia). cbn. exists c, (arena w). split; [by rewrite Hnil|]. split; [apply W|done].
Qed.
End Correct.
End Codec.

(** C31: A compressed payload is read back as it was, wherever the arena has put it: after
    any operations of the arena a payload is parked by the codec, in a form that is not
    longer, or it is refused and no owner's payload has changed; and after any further
    operations (compactions, other payloads, clones, views) a handle of it that is still
    held gives for every range within the payload exactly the bytes of that range,
    decoding chunk by chunk, and the read changes no other payload. *)
Theorem codec_roundtrip {Enc : Type} (zstd_compress : Enc -> Z -> bytes -> option bytes * Enc) (zstd_decompress : Z -> bytes -> option bytes)
    (Hzstd : frames_decode zstd_compress zstd_decompress) capacity count limit st0 ops w c data scratch :
  new capacity count limit true = Ok st0 -> 0 <= capacity <= u64_max -> zlen ops < u64_max -> exec_all ops (opened st0) = Some w ->
  1 <= chunk c <= u32_max -> zlen data <= u64_max ->
  exists r c' st', codec_store zstd_compress c data scratch (arena w) = Some (r, c', st') /\
    match r with
    | Err e => (e = pressure \/ e = size_changed) /\ cells st' = cells (arena w)
    | Ok h =>
        exists enc comp, let o := held enc comp h in zlen enc <= zlen data /\
          forall more, zlen ops + 1 + zlen more < u64_max -> exists w2, exec_all more {| arena := st'; handles := o :: handles w; views := views w |} = Some w2 /\
            (o ∈ handles w2 -> forall (c2 : PacketCodec Enc) off out scratch2, chunk c2 = chunk c -> chunk c <= scratch2 -> 0 <= off -> off + zlen out <= zlen data ->
               exists c3 st3, codec_read zstd_decompress c2 h off out scratch2 (arena w2) = Some (Ok (range data off (zlen out)), c3, st3) /\ cells st3 = cells (arena w2))
    end.
Proof.
  intros Hnew Hcap Hn Hexec Hch Hdl. destruct (exec_all_ok 0 ops (opened st0)) as (w' & Hw & W); [by eapply opened_ok|lia|]. assert (w' = w) as -> by congruence.
  pose proof W as [[l [last L]] _ _ _ _]. destruct (codec_store_spec zstd_compress zstd_decompress Hzstd c data scratch (arena w) l last L) as (r & c' & st' & Hs & _ & Hr); [by eapply world_counts_below|lia|done|].
  exists r, c', st'. split; [done|]. destruct r as [h|e]; [|by destruct Hr as ((_ & ? & _) & ?)]. destruct Hr as (enc & comp & Hins & Hform). exists enc, comp. cbn zeta.
  split; [destruct Hform as [[_ ->]|(_ & _ & ? & _)]; lia|]. intros more Hm. destruct (park_step _ w enc (zlen data) comp 0 W Hn) as (r2 & st2 & Hi & W1 & _ & Hlen); [done|].
  rewrite Hins in Hi. injection Hi as <- <-. destruct (exec_all_ok _ more _ W1) as (w2 & He & W2); [lia|]. exists w2. split; [done|]. intros Hin c2 off out scratch2 Hc2 Hscr Hoff Hend.
  destruct (codec_read_spec zstd_decompress _ w2 (held enc comp h) data c2 off out scratch2 W2) as (c3 & st3 & Hread & _ & Hcells); rewrite ?Hc2; try done; [by apply elem_of_app; left|].
  by exists c3, st3.
Qed.

(** Runs of one byte are kept as that byte. *)
Definition run_compress (_ : unit) (_ : Z) (raw : bytes) : option bytes * unit :=
  (match raw with x :: l => if forallb (Z.eqb x) l then Some [x] else None | [] => None end, tt).
Definition run_decompress (n : Z) (b : bytes) : option bytes := match b with [x] => Some (replicate (Z.to_nat n) x) | _ => None end.

Lemma runs_decode : frames_decode run_compress run_decompress.
Proof.
  intros e room raw out e'. unfold run_compress. destruct raw as [|x l]; [done|]. destruct (forallb (Z.eqb x) l) eqn:E; [|done]. intros [= <- _] _. split; [done|].
  cbn. f_equal. unfold zlen. rewrite Nat2Z.id. cbn. f_equal. induction l as [|y l IH]; [done|]. cbn in *. apply andb_true_iff in E as [Ey E]. apply Z.eqb_eq in Ey. subst y. f_equal. by apply IH.
Qed.

Definition run_codec : PacketCodec unit := {| encoder := tt; encoder_words := 0; decoder_words := 0; chunk := 20; decoded_chunks := 0 |}.
Definition run_data : bytes := replicate 20 7 ++ replicate 20 8 ++ [1; 2].
Definition run_arena : Arena := {| arena_bytes := replicate 64 0; slots := replicate 2 slot_default; movable_limit := 64; moves := 0; rejected := 0; head := None |}.
Definition run_world : World := {| arena := run_arena; handles := []; views := [] |}.

Example run_stored :
  (p ← codec_store run_compress run_codec run_data 20 run_arena; let '(r, c, st) := p in
   match r with Ok h => '(r, c, st) ← codec_read run_decompress c h 18 (replicate 5 0) 20 st; Some (r, decoded_chunks c, zlen (arena_bytes st)) | Err _ => None end) =
  Some (Ok [7; 7; 8; 8; 8], 2, 64).
Proof. vm_compute. reflexivity. Qed.

Lemma codec_roundtrip_witness : frames_decode run_compress run_decompress /\
  exists r c' st', codec_store run_compress run_codec run_data 20 run_arena = Some (r, c', st').
Proof.
  split; [apply runs_decode|].
  destruct (codec_roundtrip run_compress run_decompress runs_decode 64 2 64 run_arena [] run_world run_codec run_data 20) as (r & c' & st' & H & _);
    [reflexivity|unfold u64_max; lia|reflexivity|reflexivity|vm_compute; split; discriminate|vm_compute; discriminate|]. exists r, c', st'. exact H.
Defined.
